(* ===== verification/_CoqProject ===== *)
-Q . S2P
Prelude.v
Netip.v
Store.v
Checksum.v
Replay.v
Esp.v
EspSeal.v
EspOpen.v
EspWitness.v
Packet.v
Sadr.v
SadrSources.v
SadrTrie.v
SadrSpec.v
SadrTable.v
BabelTlv.v
BabelUpdate.v
BabelRaw.v
BabelMetric.v
BabelRoute.v
BabelFeasible.v
BabelSelect.v
BabelTable.v
BabelRouteWitness.v
BabelHeld.v
BabelPack.v
BabelRequest.v
BabelState.v
BabelSpeaker.v
BabelSound.v
BabelPeers.v
BabelWorld.v
BabelSleep.v
BabelSpeakWitness.v
IkeMessage.v
IkePayload.v
IkeSa.v
IkeDer.v
IkeSk.v
IkeWitness.v
IkeProposal.v
IkeSelect.v
TransHub.v
TransRead.v
TransFlow.v
Tunnel.v
TunnelRecv.v
TunnelWitness.v
IkeChild.v
IkeChildRun.v
IkeSession.v
IkeServe.v
IkeExchange.v
IkeRekey.v
IkeRun.v
IkeInv.v
IkeKeep.v
IkeHandle.v
IkeProc.v
IkeEngine.v
IkeLife.v
IkeMeet.v
IkeEnds.v
IkeLifeWitness.v
Srv6.v
Srv6Walk.v
Srv6Local.v
Srv6Icmp.v
Srv6Steer.v
NetSegments.v
NetPeer.v
NetPeerInv.v
NetPeerOrder.v
KernelConfig.v
Kernel.v
KernelPass.v
KernelOwn.v
KernelRun.v
KernelWitness.v
