(* ===== verification/Prelude.v ===== *)
(** * ranet-lite: a verification library for a userspace mesh node

    ranet-lite joins a mesh of IPsec tunnels without kernel support. Its parts:
    - [ike] negotiates security associations with a peer (IKEv2);
    - [esp] seals and opens the packets they protect;
    - [transport] carries both over one UDP port;
    - [internal/babel] runs a Babel speaker inside the tunnels and selects routes;
    - [sadr] is the forwarding table those routes are installed in, keyed by source
      and destination prefix, read for every packet by [internal/netstack];
    - [internal/packet] validates the IP envelopes that enter and leave;
    - [srv6], [internal/kernel], [internal/egress], [internal/client], [control] and
      the commands wire these to the operating system.

    A packet leaves through [sadr] and [esp]; one that arrives is authenticated by
    [esp], checked by [internal/packet] and either delivered or, when it is a Babel
    datagram, parsed by [internal/babel], whose route table publishes its choices
    back into [sadr] through two callbacks.

    ** How code becomes definitions

    A Go function is a Gallina function of the same name. [(T, error)] is [res T],
    whose [Err] carries the fixed part of the message; a run-time panic is
    [Panic], so "no input panics" is a theorem and not an assumption. Unsigned
    integers are [Z] with wrap-around written out ([u8] to [u64]); slices are lists
    with Go's bounds checks ([idx], [slice], [from]); where code writes into shared
    storage the backing array is explicit ([Store]). Loops that are not structural
    take fuel, and running out of it is a [Panic] that the safety theorems exclude:
    each file says what its fuel is and why it is enough. A Go map iterated in
    random order is a [gmap] with the order as an argument, or, in the speaker, as
    any choice of it ([BabelState.MapOrder]). Times are nanoseconds
    with the zero time as 0. Mutexes are left out: each critical section is one
    operation of the sequential model.

    Code outside the repository is a parameter with named laws: the AEAD
    constructions ([Esp.Crypto], [Esp.CryptoLaws]), the keyed hash ([IkeSk.Hmac]),
    Diffie-Hellman ([IkeSession.ECDH], [IkeSession.ECDHLaws]),
    float64 ([BabelMetric.Float], no laws needed), a peer's sender as the speaker
    uses it ([BabelPack.Sender]). Witness files instantiate them.

    ** The files

    - [Prelude]: outcomes, machine integers, slices, big-endian codecs, tactics.
    - [Netip]: net/netip and net.IP, as far as the code uses them.
    - [Store]: writes into a shared backing array. [Checksum]: one's complement sums.

    Data path, packages esp, internal/packet and sadr:
    - [Replay] (esp/replay.go): the anti-replay window refines a set of accepted
      numbers with a newest one; C1 the refinement, C3 no number is accepted
      twice by a window that is not zero.
    - [Esp] (esp/sa.go, esp.go, inbound.go): data and operations. [EspSeal]: C18
      batches seal to exactly the ESP packets, C27 no nonce repeats. [EspOpen]:
      C28 commits deliver a number once where checking is on, C29 a stream
      sealed by one peer and reordered, lost or repeated on the way arrives unchanged
      and once, C32 only sealed packets open. [EspWitness]: a toy AEAD and the witnesses.
    - [Packet] (internal/packet/ip.go): the envelope check is exact.
    - [Sadr] (sadr/table.go): the path-compressed trie. [SadrSources]
      (the per-node source index equals the ordered scan), [SadrTrie], [SadrSpec],
      [SadrTable]: C8 the table refines a finite map under any operations, C9 lookup
      is the longest destination, then longest source match, with the trie's invariant.

    Transport and tunnels, packages transport and internal/client:
    - [TransHub] (transport/mux.go): the hub that owns the socket and the muxes of its
      peers. [TransRead], [TransFlow]: C22 a read delivers each peer its datagrams in
      order and every datagram is queued or counted once; peers read what was
      queued in order; C36 the invariant of every reachable hub.
    - [Tunnel] (internal/client/tunnel.go): the SAs of a session; opening a batch
      in runs equals opening each packet. [TunnelRecv] (receive.go): the parallel
      receive pipeline as interleaved steps; C12 emission keeps the order of arrival,
      C31 it never deadlocks and drains. [TunnelWitness].

    Babel, package internal/babel:
    - [BabelTlv] (const.go, tlv.go, misc.go, hello_ihu.go), [BabelUpdate] (update.go,
      request.go), [BabelRaw] (rawpacket.go): the codecs and their round trips.
      prefix compression is transparent, no bytes panic a decoder.
    - [BabelMetric] (etx.go, rtt.go, neighbor.go, config.go): the bit history refines a
      list of arrivals, the ETX and round-trip costs, validated configurations.
    - [BabelRoute] (route.go, source.go): the route and source tables.
      [BabelFeasible]: C38 a finite update that passes the feasibility condition is
      strictly better than all this node advertised of its source in the last three
      minutes. [BabelSelect]: C39 what selection guarantees;
      it does not depend on map order. [BabelTable]: the operations as a step
      relation; C40 the invariants of reachable tables; the forwarding table
      built by the callbacks is the selection. [BabelHeld]: what a table may come to
      hold. [BabelRouteWitness]: two neighbors.
    - [BabelPack] (send.go): from actions to packets. Merging, splitting
      (C20) and the undos lose and reorder nothing.
    - [BabelRequest] (speaker.go, send.go): C19 sequence number requests cannot
      storm, each next to the one before it; retries are counted and end.
    - [BabelState], [BabelSpeaker] (speaker.go, receive.go, send.go, routes.go, config.go):
      the speaker, one definition per function that runs under its lock. [BabelSound],
      [BabelPeers]: an invariant that every operation keeps. [BabelWorld]: the
      operations in any order, losses in the transport included; C4 none panics,
      what is originated is never learned, traffic goes only to sessions that are
      there. [BabelSleep]: C13 the run loop never sleeps past its work, but for what
      was lost shortly after another loss. [BabelSpeakWitness]: a node that
      originates one prefix and learns another.

    IKE, package ike:
    - [IkeMessage] (header.go, payload.go), [IkePayload] (payloads_misc.go and the
      selector check of child_proposal.go), [IkeSa] (payloads_sa.go): the codecs;
      C5 messages round trip. [IkeDer] (der.go): identities have one encoding.
    - [IkeSk] (sk.go, crypto.go): C2 the encrypted payload round trips and accepts
      only what was sealed; the key schedule fits its suite. [IkeWitness].
    - [IkeProposal] (child_proposal.go and the offers and choices of initiator.go,
      responder.go, ike_rekey.go, child_rekey.go). [IkeSelect]: what a responder
      selects; C16 both ends of a negotiation agree.
    - [IkeChild] (child_state.go) joins a session's Child SAs with its mux and its
      tunnel. [IkeChildRun]: the three name the same SAs throughout;
      C23 an operation that fails changes nothing; a silent peer cannot lock
      rekeying out.
    - [IkeSession] (initiator.go): the IKE SAs a session holds, their counters and
      the SPIs routed to it. [IkeServe] (liveness.go, ike_rekey.go, child_rekey.go):
      the answers to a peer. [IkeExchange] (liveness.go): [dispatch], and requests of
      our own. [IkeRekey]: a rekeying this side begins, as a [proc] that asks, waits
      for its answer and goes on. [IkeRun]: [turn], one pass of the loop of [Run], and
      [resume], a call that takes up its answer.
    - [IkeInv], [IkeKeep], [IkeHandle], [IkeProc]: the invariant of a session,
      and that handlers, datagrams and calls keep it without a panic.
      [IkeEngine]: what was sent, beside the counters, and that a pass keeps both.
      [IkeLife]: any sequence of passes, calls and changes elsewhere, answers taken
      up at once or later; C7 a session's places, Child SAs and tunnel stay in
      step, and in lives where no call is overtaken ([IkeEngine.overtaken]) the hub
      routes to it exactly the IKE SAs it holds,
      C6 no IV seals two messages and no request has two answers.
    - [IkeMeet]: two sessions of one SA, through the messages they seal:
      C11 a rekeying, and C10 two that meet and are left alone until both
      calls have gone on, leave both with the same SA. [IkeEnds]: C17 every call
      returns, C30 schedules and retries stay within their bounds.
      [IkeLifeWitness]: two toy sessions.

    Segment routing, packages srv6 and internal/netstack:
    - [Srv6] (srv6.go, local.go): headers and behaviors. [Srv6Walk]:
      C21 a packet sent along a path arrives unchanged. [Srv6Local]: C35 acting on a
      node's own segments terminates, with what a waypoint
      refuses and changes.
      [Srv6Icmp] (icmp.go): the answers to refused packets. [Srv6Steer] (steer.go,
      segments.go): a device that passed the MTU check never drops a steered packet.
    - [NetSegments] (netstack/segments.go): the walk over a batch and the ICMP budget.
    - [NetPeer] (netstack/peer.go): a peer's ordered sender with its callers, as
      interleaved steps. [NetPeerInv], [NetPeerOrder]: batches leave in ticket order,
      every place has one outcome, C37 the sender alone finishes.

    The kernel's routes, package internal/kernel:
    - [KernelConfig] (kernel.go): cap.table and its rules; C34 two normal forms are
      the same exactly when settings, addresses and the rules asked for are.
    - [Kernel] (kernel.go, capture.go): the reconciler over the platform interface, whose
      promises are the class [KernelPass.PlatformLaws]: what a call may change when it
      succeeds and when it fails, where a link that changes its master, or whose VRF
      goes, may lose its addresses and routes. [KernelPass]: C14 what one pass does
      and counts, C24 no route takes this machine's traffic without leave but one the
      kernel would not list or delete, C26 a kernel that refuses only taken keys
      accepts a pass whose routes have different keys. [KernelOwn]: C15 only its own
      things are taken away, C25 stopping undoes starting. [KernelRun]: when the gate is
      open, C33 a silent mesh gives the traffic back. [KernelWitness]: a kernel in memory.

    ** Fuel and bounds

    A trie walk takes the depth of the tree, a decoder the length of its input;
    [Srv6.findLoop] takes the code's own limit of eight headers and [Srv6.actLoop]
    [MaxSegments] turns, which C35 shows are never the reason to stop; a carry folds
    twice; a pass counts at most [historyDepth] missed Hellos of a neighbor; [NetPeer.collect] and [TunnelRecv.merge] take one turn per entry of their
    map; [TransHub.recvLoop] one turn per batch and per free place of the destination;
    [Tunnel.decryptLoop] and [TransHub.sendLoop] one per packet.

    ** Concurrency

    Where the code's order matters more than its locks, goroutines are steps of a
    relation: the workers and emitter of the receive pipeline, the callers and sender
    of a peer. The speaker's goroutines meet only at its locks, so its life is a
    sequence of critical sections, with its run loop in one of three phases. One socket read, and one operation under a session's lock, is one step.
    An IKE session is its loop and at most one call of another goroutine, as its
    mutex has it; a handler, and what a call does between two exchanges, is one
    step. The loop leaves an answer in its channel, and the call takes it up in a
    step of its own, any number of passes later; what can go wrong when the SA of a
    rekeying is deleted in between is [IkeMeet.late_delete_overrides], and the
    routing of IKE SPIs is claimed for the other lives only. A drawn SPI is assumed not to be
    one the session holds, and passes after the mux closed are left out: their
    sends fail.

    ** Not modelled

    The Babel speaker's statistics (Stats, RouteDump) and log counters; the IKE
    handshakes (IKE_SA_INIT, IKE_AUTH: certificates, signatures, cookies, NAT
    detection) and the last time of activity a session reports; the mesh's route table and devices. Sockets, TUN devices,
    nftables, HTTP, configuration file formats and process wiring are system calls and
    third-party formats. Randomness (IVs drawn at random, generated addresses and
    keys) and wall-clock reads are inputs. Log messages are left out, except that a
    warning logged once is a flag of the state. *)

From Stdlib Require Export ZArith Lia.
From stdpp Require Export base gmap list strings numbers sorting.

#[global] Open Scope Z_scope.

(** ** Outcomes of Go code

    A Go function that returns [(T, error)] is a computation in [res]: a value,
    an [error] (named by its fixed message prefix) or a run-time panic such as
    an index out of range. Keeping [Panic] apart from [Err] lets a theorem say
    that a decoder never panics, whatever bytes a peer sends. *)

Inductive res (A : Type) : Type :=
| Ok (a : A)
| Err (e : string)
| Panic.
Arguments Ok {A} a.
Arguments Err {A} e.
Arguments Panic {A}.

#[export] Instance res_ret : MRet res := fun A a => Ok a.
#[export] Instance res_bind : MBind res := fun A B f m =>
  match m with Ok a => f a | Err e => Err e | Panic => Panic end.

#[export] Instance res_eq_dec `{EqDecision A} : EqDecision (res A).
Proof. solve_decision. Defined.

(** A computation that returns, with a value or with an error. *)
Definition safe {A} (m : res A) : Prop := m ≠ Panic.

Definition is_ok {A} (m : res A) : bool :=
  match m with Ok _ => true | _ => false end.

(** ** Machine integers

    A w-bit unsigned integer is a [Z] in [0, 2^w); conversions and wrap-around
    arithmetic are written out with these. *)

Definition u8 (z : Z) : Z := z mod 2 ^ 8.
Definition u16 (z : Z) : Z := z mod 2 ^ 16.
Definition u32 (z : Z) : Z := z mod 2 ^ 32.
Definition u64 (z : Z) : Z := z mod 2 ^ 64.

(** Reinterpretation of an unsigned value as a signed one of the same width. *)
Definition signed (w z : Z) : Z :=
  let v := z mod 2 ^ w in if v <? 2 ^ (w - 1) then v else v - 2 ^ w.
Definition i16 (z : Z) : Z := signed 16 z.
Definition i32 (z : Z) : Z := signed 32 z.

(** Shifts of a uint64: a count of 64 or more leaves nothing. *)
Definition shr64 (x k : Z) : Z := if 64 <=? k then 0 else Z.shiftr x k.
Definition shl64 (x k : Z) : Z := if 64 <=? k then 0 else u64 (Z.shiftl x k).
Definition ones64 : Z := Z.ones 64.

Definition byte_ok (z : Z) : Prop := 0 ≤ z < 256.
Definition bytes_ok (l : list Z) : Prop := Forall byte_ok l.

(** ** Slices *)

(** [b[i]] *)
Definition idx {A} (b : list A) (i : nat) : res A :=
  match b !! i with Some x => Ok x | None => Panic end.

(** [b[lo:hi]], bounds taken against the length of the slice. *)
Definition slice {A} (b : list A) (lo hi : nat) : res (list A) :=
  if bool_decide (lo ≤ hi ∧ hi ≤ length b)%nat
  then Ok (take (hi - lo) (drop lo b)) else Panic.

(** [b[lo:]] *)
Definition from {A} (b : list A) (lo : nat) : res (list A) := slice b lo (length b).

(** [copy(dst, src)]: overwrite the common prefix, return the new [dst]. *)
Definition gocopy {A} (dst src : list A) : list A :=
  take (length dst) src ++ drop (length src) dst.

(** ** Big-endian integers, [encoding/binary] *)

Definition be_of (l : list Z) : Z := fold_left (fun acc b => acc * 256 + b) l 0.

Fixpoint be_to (n : nat) (v : Z) : list Z :=
  match n with
  | O => []
  | S n' => (v / 256 ^ Z.of_nat n') mod 256 :: be_to n' v
  end.

(** [binary.BigEndian.Uint16(b[lo:lo+2])] and its wider forms. *)
Definition get_be (n : nat) (b : list Z) (lo : nat) : res Z :=
  s ← slice b lo (lo + n); Ok (be_of s).

(** ** Automation *)

Create HintDb go discriminated.

(** Split conjunctions and booleans, and turn boolean tests into propositions. *)
Ltac bool_props :=
  repeat match goal with
  | H : _ && _ = true |- _ => apply andb_true_iff in H as [? ?]
  | H : _ || _ = false |- _ => apply orb_false_iff in H as [? ?]
  | H : (_ <? _) = true |- _ => apply Z.ltb_lt in H
  | H : (_ <? _) = false |- _ => apply Z.ltb_ge in H
  | H : (_ <=? _) = true |- _ => apply Z.leb_le in H
  | H : (_ <=? _) = false |- _ => apply Z.leb_gt in H
  | H : (_ =? _) = true |- _ => apply Z.eqb_eq in H
  | H : (_ =? _) = false |- _ => apply Z.eqb_neq in H
  | H : bool_decide _ = true |- _ => apply bool_decide_eq_true in H
  | H : bool_decide _ = false |- _ => apply bool_decide_eq_false in H
  | H : negb _ = true |- _ => apply negb_true_iff in H
  | H : negb _ = false |- _ => apply negb_false_iff in H
  end.

(** [lia] with division and remainder by constants. *)
Ltac divlia := Z.to_euclidean_division_equations; lia.

(** Case on every boolean test and [match] of the goal, keeping the equations. *)
Ltac go_cases :=
  repeat (match goal with
  | |- context [if ?b then _ else _] => destruct b eqn:?
  | |- context [match ?x with _ => _ end] => destruct x eqn:?
  end; bool_props; try done).

(** Run a computation past a step whose outcome is known. *)
Ltac rbind := cbn [mbind res_bind].

(** ** Lemmas on outcomes *)

Lemma safe_ok {A} (a : A) : safe (Ok a).
Proof. done. Qed.

Lemma safe_err {A} e : safe (Err e : res A).
Proof. done. Qed.

Lemma safe_bind {A B} (m : res A) (f : A → res B) :
  safe m → (∀ a, m = Ok a → safe (f a)) → safe (m ≫= f).
Proof. destruct m; simpl; auto; done. Qed.

Lemma bind_ok_inv {A B} (m : res A) (f : A → res B) b :
  m ≫= f = Ok b → ∃ a, m = Ok a ∧ f a = Ok b.
Proof. destruct m; simpl; intros; [eauto | done..]. Qed.

Lemma safe_idx {A} (b : list A) i : (i < length b)%nat → safe (idx b i).
Proof. intros H. unfold idx. by destruct (lookup_lt_is_Some_2 b i H) as [x ->]. Qed.

Lemma idx_Some {A} (b : list A) i x : b !! i = Some x → idx b i = Ok x.
Proof. intros H. unfold idx. by rewrite H. Qed.

Lemma idx_inv {A} (b : list A) i x : idx b i = Ok x → b !! i = Some x.
Proof. unfold idx. destruct (b !! i); congruence. Qed.

Lemma slice_ok {A} (b : list A) lo hi :
  (lo ≤ hi)%nat → (hi ≤ length b)%nat → slice b lo hi = Ok (take (hi - lo) (drop lo b)).
Proof. intros. unfold slice. by rewrite bool_decide_eq_true_2. Qed.

Lemma slice_inv {A} (b s : list A) lo hi :
  slice b lo hi = Ok s →
  (lo ≤ hi)%nat ∧ (hi ≤ length b)%nat ∧ s = take (hi - lo) (drop lo b).
Proof. unfold slice. case_bool_decide as E; [|done]. by intros [= <-]; destruct E. Qed.

Lemma slice_length {A} (b s : list A) lo hi :
  slice b lo hi = Ok s → length s = (hi - lo)%nat.
Proof. intros (?&?&->)%slice_inv. rewrite length_take, length_drop. lia. Qed.

Lemma from_ok {A} (b : list A) lo : (lo ≤ length b)%nat → from b lo = Ok (drop lo b).
Proof. intros. unfold from. rewrite slice_ok by lia. f_equal. apply take_ge. rewrite length_drop. lia. Qed.

Lemma safe_slice {A} (b : list A) lo hi :
  (lo ≤ hi)%nat → (hi ≤ length b)%nat → safe (slice b lo hi).
Proof. intros. by rewrite slice_ok. Qed.

Lemma safe_from {A} (b : list A) lo : (lo ≤ length b)%nat → safe (from b lo).
Proof. intros. by rewrite from_ok. Qed.

Lemma safe_get_be n b lo : (lo + n ≤ length b)%nat → safe (get_be n b lo).
Proof. intros. unfold get_be. rewrite slice_ok by lia. done. Qed.

Lemma slice_app_exact {A} (a b c : list A) lo hi :
  length a = lo → (length a + length b)%nat = hi → slice (a ++ b ++ c) lo hi = Ok b.
Proof.
  intros <- <-. rewrite slice_ok by (rewrite ?length_app; lia).
  rewrite drop_app_length. by replace (_ + _ - _)%nat with (length b) by lia; rewrite take_app_length.
Qed.

Lemma length_gocopy {A} (dst src : list A) : length (gocopy dst src) = length dst.
Proof. unfold gocopy. rewrite length_app, length_take, length_drop. lia. Qed.

#[export] Hint Resolve safe_ok safe_err : go.

(** Discharge [safe] goals of code that guards every access by a length test. *)
Ltac safe_step :=
  match goal with
  | |- safe (Ok _) => apply safe_ok
  | |- safe (mret _) => apply safe_ok
  | |- safe (Err _) => apply safe_err
  | |- safe (_ ≫= _) => apply safe_bind; [| intros ? ?]
  | |- safe (idx _ _) => apply safe_idx
  | |- safe (slice _ _ _) => apply safe_slice
  | |- safe (from _ _) => apply safe_from
  | |- safe (get_be _ _ _) => apply safe_get_be
  | |- safe (if ?b then _ else _) => destruct b eqn:?; bool_props
  | |- safe (match ?x with _ => _ end) => destruct x eqn:?
  end.
Ltac solve_safe := repeat safe_step; simpl in *; try lia.

(** ** Lemmas on bytes and big-endian integers *)

Lemma be_of_app l1 l2 :
  be_of (l1 ++ l2) = be_of l1 * 256 ^ Z.of_nat (length l2) + be_of l2.
Proof.
  unfold be_of. rewrite fold_left_app. generalize (fold_left (fun acc b => acc * 256 + b) l1 0).
  induction l2 as [|x l2 IH]; intros a; simpl; [lia|].
  rewrite IH, (IH (0 * 256 + x)). rewrite Nat2Z.inj_succ, Z.pow_succ_r by lia. lia.
Qed.

Lemma be_of_cons x l : be_of (x :: l) = x * 256 ^ Z.of_nat (length l) + be_of l.
Proof. apply (be_of_app [x] l). Qed.

Lemma be_of_bound l : bytes_ok l → 0 ≤ be_of l < 256 ^ Z.of_nat (length l).
Proof.
  induction 1 as [|x l Hx Hl IH]; [done|].
  rewrite be_of_cons. simpl length. rewrite Nat2Z.inj_succ, Z.pow_succ_r by lia.
  unfold byte_ok in Hx. nia.
Qed.

Lemma length_be_to n v : length (be_to n v) = n.
Proof. induction n; simpl; auto. Qed.

Lemma be_to_ok n v : bytes_ok (be_to n v).
Proof.
  induction n; simpl; constructor; [|done].
  unfold byte_ok. apply Z.mod_pos_bound. lia.
Qed.

Lemma be_of_be_to n v : be_of (be_to n v) = v mod 256 ^ Z.of_nat n.
Proof.
  induction n as [|n IH]; simpl be_to; [by rewrite Z.mod_1_r|].
  rewrite be_of_cons, length_be_to, IH.
  rewrite Nat2Z.inj_succ, Z.pow_succ_r, (Z.mul_comm 256) by lia.
  rewrite Z.rem_mul_r by lia. lia.
Qed.

Lemma be_of_be_to_small n v : 0 ≤ v < 256 ^ Z.of_nat n → be_of (be_to n v) = v.
Proof. intros. by rewrite be_of_be_to, Z.mod_small. Qed.

Lemma be_to_be_of l : bytes_ok l → be_to (length l) (be_of l) = l.
Proof.
  enough (∀ k, bytes_ok l → be_to (length l) (k * 256 ^ Z.of_nat (length l) + be_of l) = l) as H.
  { intros Hl. exact (H 0 Hl). }
  induction l as [|x l IH]; intros k Hl; simpl; [done|].
  inversion Hl as [|?? Hx Hl']; subst. rewrite be_of_cons.
  pose proof (be_of_bound l Hl'). unfold byte_ok in Hx.
  rewrite Nat2Z.inj_succ, Z.pow_succ_r by lia.
  set (p := 256 ^ Z.of_nat (length l)) in *.
  replace (k * (256 * p) + (x * p + be_of l)) with ((k * 256 + x) * p + be_of l) by lia.
  f_equal; [|by apply IH].
  rewrite Z.div_add_l, Z.div_small by lia.
  rewrite Z.add_0_r, Z.add_comm, Z_mod_plus_full. apply Z.mod_small. lia.
Qed.

Lemma be_to_mod n a b : a mod 256 ^ Z.of_nat n = b mod 256 ^ Z.of_nat n → be_to n a = be_to n b.
Proof.
  intros H. rewrite <- (be_to_be_of (be_to n a)), <- (be_to_be_of (be_to n b)) by apply be_to_ok.
  by rewrite !length_be_to, !be_of_be_to, H.
Qed.

Lemma be_to_app n m v : be_to (n + m) v = be_to n (v / 256 ^ Z.of_nat m) ++ be_to m v.
Proof.
  induction n as [|n IH]; simpl; [done|]. f_equal; [|done].
  rewrite Z.div_div, <- Z.pow_add_r by lia. by rewrite Nat2Z.inj_add, Z.add_comm.
Qed.

Lemma lookup_be_to n i v :
  (i < n)%nat → be_to n v !! i = Some ((v / 256 ^ Z.of_nat (n - 1 - i)) mod 256).
Proof.
  revert i. induction n as [|n IH]; intros i Hi; [lia|]. destruct i as [|i]; simpl.
  - by rewrite !Nat.sub_0_r.
  - rewrite IH by lia. by replace (n - 0 - S i)%nat with (n - 1 - i)%nat by lia.
Qed.

Lemma get_be_app n a v c lo :
  length a = lo → get_be n (a ++ be_to n v ++ c) lo = Ok (v mod 256 ^ Z.of_nat n).
Proof.
  intros Hl. unfold get_be.
  rewrite (slice_app_exact _ (be_to n v)) by (rewrite ?length_be_to; lia).
  simpl. by rewrite be_of_be_to.
Qed.

Lemma get_be_bound n b lo v : bytes_ok b → get_be n b lo = Ok v → 0 ≤ v < 256 ^ Z.of_nat n.
Proof.
  unfold get_be. intros Hb (s & Hs & [= <-])%bind_ok_inv.
  pose proof (slice_length _ _ _ _ Hs) as Hlen. apply slice_inv in Hs as (?&?&->).
  pose proof (be_of_bound (take (lo + n - lo) (drop lo b))) as Hbd.
  rewrite Hlen in Hbd. replace (lo + n - lo)%nat with n in * by lia.
  apply Hbd. by apply Forall_take, Forall_drop.
Qed.

Lemma bytes_ok_app a b : bytes_ok (a ++ b) ↔ bytes_ok a ∧ bytes_ok b.
Proof. apply Forall_app. Qed.

Lemma bytes_ok_slice b s lo hi : bytes_ok b → slice b lo hi = Ok s → bytes_ok s.
Proof. intros Hb (?&?&->)%slice_inv. by apply Forall_take, Forall_drop. Qed.

#[export] Hint Resolve be_to_ok : go.

(** ** Lemmas on machine integers *)

Lemma u16_id z : 0 ≤ z < 2 ^ 16 → u16 z = z.
Proof. apply Z.mod_small. Qed.

Lemma u32_id z : 0 ≤ z < 2 ^ 32 → u32 z = z.
Proof. apply Z.mod_small. Qed.

Lemma u64_id z : 0 ≤ z < 2 ^ 64 → u64 z = z.
Proof. apply Z.mod_small. Qed.

Lemma u16_bound z : 0 ≤ u16 z < 2 ^ 16.
Proof. apply Z.mod_pos_bound. lia. Qed.

Lemma u32_bound z : 0 ≤ u32 z < 2 ^ 32.
Proof. apply Z.mod_pos_bound. lia. Qed.

Lemma u64_bound z : 0 ≤ u64 z < 2 ^ 64.
Proof. apply Z.mod_pos_bound. lia. Qed.

#[export] Hint Resolve u16_bound u32_bound u64_bound : go.
