(* ===== verification/Netip.v ===== *)
(** * The parts of Go's [net/netip] and [net] the program uses

    An [Addr] is invalid, a 32-bit IPv4 address or a 128-bit IPv6 address
    (IPv4-mapped ones included). Zones are left out: every address the modelled
    code handles is built from raw bytes and carries none. A [Prefix] keeps the
    representation of the standard library, an address and a length plus one,
    so that an invalid prefix and the comparison of two prefixes are what the
    program sees. *)

From S2P Require Import Prelude.

Inductive Addr :=
| AddrInvalid
| Addr4 (a : Z)
| Addr6 (a : Z).

#[export] Instance Addr_eq_dec : EqDecision Addr.
Proof. solve_decision. Defined.

#[export] Instance Addr_countable : Countable Addr.
Proof.
  refine (inj_countable' (λ a, match a with
    | AddrInvalid => inl tt | Addr4 a => inr (inl a) | Addr6 a => inr (inr a) end)
    (λ x, match x with
    | inl _ => AddrInvalid | inr (inl a) => Addr4 a | inr (inr a) => Addr6 a end) _).
  by intros [].
Defined.

Record Prefix := mkPrefix { prefix_addr : Addr; bitsPlusOne : Z }.

#[export] Instance Prefix_eq_dec : EqDecision Prefix.
Proof. solve_decision. Defined.

#[export] Instance Prefix_countable : Countable Prefix.
Proof.
  refine (inj_countable' (λ p, (prefix_addr p, bitsPlusOne p)) (λ x, mkPrefix x.1 x.2) _).
  by intros [].
Defined.

(** The zero value [netip.Prefix{}]. *)
Definition PrefixZero : Prefix := mkPrefix AddrInvalid 0.

(** Addresses whose value fits their width. *)
Definition addr_ok (a : Addr) : Prop :=
  match a with
  | AddrInvalid => True
  | Addr4 a => 0 ≤ a < 2 ^ 32
  | Addr6 a => 0 ≤ a < 2 ^ 128
  end.

(** ** Addr *)

Definition addr_valid (a : Addr) : bool :=
  match a with AddrInvalid => false | _ => true end.

Definition BitLen (a : Addr) : Z :=
  match a with AddrInvalid => 0 | Addr4 _ => 32 | Addr6 _ => 128 end.

Definition Is4 (a : Addr) : bool := match a with Addr4 _ => true | _ => false end.
Definition Is6 (a : Addr) : bool := match a with Addr6 _ => true | _ => false end.

(** The ::ffff:0:0/96 block. *)
Definition mapped4 (a : Z) : Z := 2 ^ 32 * 65535 + a.

Definition Is4In6 (a : Addr) : bool :=
  match a with Addr6 a => a / 2 ^ 32 =? 65535 | _ => false end.

Definition Unmap (a : Addr) : Addr :=
  match a with
  | Addr6 v => if v / 2 ^ 32 =? 65535 then Addr4 (v mod 2 ^ 32) else a
  | _ => a
  end.

(** [As16] as the 128-bit number its sixteen bytes spell; zero for an invalid
    address. *)
Definition As16 (a : Addr) : Z :=
  match a with AddrInvalid => 0 | Addr4 a => mapped4 a | Addr6 a => a end.

Definition AsSlice (a : Addr) : list Z :=
  match a with AddrInvalid => [] | Addr4 a => be_to 4 a | Addr6 a => be_to 16 a end.

Definition AddrFromSlice (b : list Z) : option Addr :=
  if bool_decide (length b = 4%nat) then Some (Addr4 (be_of b))
  else if bool_decide (length b = 16%nat) then Some (Addr6 (be_of b))
  else None.

Definition IsUnspecified (a : Addr) : bool :=
  match a with AddrInvalid => false | Addr4 a => a =? 0 | Addr6 a => a =? 0 end.

Definition IsLinkLocalUnicast (a : Addr) : bool :=
  match Unmap a with
  | AddrInvalid => false
  | Addr4 v => v / 2 ^ 16 =? 43518 (* 169.254 *)
  | Addr6 v => v / 2 ^ 118 =? 1018 (* fe80::/10 *)
  end.

Definition IsMulticast (a : Addr) : bool :=
  match Unmap a with
  | AddrInvalid => false
  | Addr4 v => v / 2 ^ 28 =? 14 (* 224/4 *)
  | Addr6 v => v / 2 ^ 120 =? 255 (* ff00::/8 *)
  end.

Definition IsLoopback (a : Addr) : bool :=
  match Unmap a with
  | AddrInvalid => false
  | Addr4 v => v / 2 ^ 24 =? 127
  | Addr6 v => v =? 1
  end.

(** ** Prefix *)

Definition IsValid (p : Prefix) : bool := 0 <? bitsPlusOne p.
Definition Bits (p : Prefix) : Z := bitsPlusOne p - 1.

Definition PrefixFrom (a : Addr) (bits : Z) : Prefix :=
  mkPrefix a (if addr_valid a && (0 <=? bits) && (bits <=? BitLen a) then bits + 1 else 0).

(** The value of an address with everything past the first [bits] of its
    [width] bits cleared. *)
Definition mask_to (width bits v : Z) : Z :=
  Z.shiftl (Z.shiftr v (width - bits)) (width - bits).

Definition mask_addr (a : Addr) (bits : Z) : Addr :=
  match a with
  | AddrInvalid => AddrInvalid
  | Addr4 v => Addr4 (mask_to 32 bits v)
  | Addr6 v => Addr6 (mask_to 128 bits v)
  end.

(** [Addr.Prefix], the prefix of an address with the host bits cleared. *)
Definition AddrPrefix (a : Addr) (b : Z) : Prefix :=
  if negb (addr_valid a) || (b <? 0) || (BitLen a <? b) then PrefixZero
  else PrefixFrom (mask_addr a b) b.

Definition Masked (p : Prefix) : Prefix := AddrPrefix (prefix_addr p) (Bits p).

Definition Contains (p : Prefix) (a : Addr) : bool :=
  IsValid p && addr_valid a && (BitLen (prefix_addr p) =? BitLen a) &&
  match prefix_addr p, a with
  | Addr4 x, Addr4 y => Z.shiftr (Z.lxor x y) (32 - Bits p) =? 0
  | Addr6 x, Addr6 y => Z.shiftr (Z.lxor x y) (128 - Bits p) =? 0
  | _, _ => false
  end.

(** A valid prefix has a valid address of its own width and a length within it. *)
Definition prefix_ok (p : Prefix) : Prop :=
  addr_ok (prefix_addr p) ∧
  (bitsPlusOne p = 0 ∨
   addr_valid (prefix_addr p) = true ∧ 1 ≤ bitsPlusOne p ≤ BitLen (prefix_addr p) + 1).

(** ** [net.IP], a byte slice of length 4, 16 or anything else *)

Definition v4InV6Prefix : list Z := replicate 10 0 ++ [255; 255].

(** [IP.To4]: [None] is the nil slice. *)
Definition To4 (ip : list Z) : option (list Z) :=
  if bool_decide (length ip = 4%nat) then Some ip
  else if bool_decide (length ip = 16%nat ∧ take 12 ip = v4InV6Prefix) then Some (drop 12 ip)
  else None.

Definition To16 (ip : list Z) : option (list Z) :=
  if bool_decide (length ip = 4%nat) then Some (v4InV6Prefix ++ ip)
  else if bool_decide (length ip = 16%nat) then Some ip
  else None.

(** ** Lemmas *)

Lemma PrefixFrom_valid a b :
  IsValid (PrefixFrom a b) = addr_valid a && (0 <=? b) && (b <=? BitLen a).
Proof.
  unfold PrefixFrom, IsValid. destruct (addr_valid a && (0 <=? b) && (b <=? BitLen a)) eqn:E; simpl; [|done].
  bool_props. apply Z.ltb_lt. lia.
Qed.

Lemma PrefixFrom_ok a b : addr_ok a → prefix_ok (PrefixFrom a b).
Proof.
  intros Ha. split; [done|]. simpl. destruct (_ && _ && _) eqn:E; [|by left].
  right. bool_props. split; [done | lia].
Qed.

Lemma mask_to_bound w b v : 0 ≤ b ≤ w → 0 ≤ v < 2 ^ w → 0 ≤ mask_to w b v ≤ v.
Proof.
  intros Hb Hv. unfold mask_to. rewrite Z.shiftl_mul_pow2, Z.shiftr_div_pow2 by lia.
  pose proof (Z.pow_pos_nonneg 2 (w - b)). pose proof (Z.mul_div_le v (2 ^ (w - b))).
  pose proof (Z.div_pos v (2 ^ (w - b))). nia.
Qed.

Lemma mask_to_idem w b v : b ≤ w → mask_to w b (mask_to w b v) = mask_to w b v.
Proof.
  intros. unfold mask_to. rewrite Z.shiftr_shiftl_l by lia.
  by rewrite Z.sub_diag, Z.shiftl_0_r.
Qed.

(** Two values have the same first [b] bits exactly when their masked forms agree. *)
Lemma mask_to_eq w b x y :
  b ≤ w → mask_to w b x = mask_to w b y ↔ Z.shiftr x (w - b) = Z.shiftr y (w - b).
Proof.
  intros Hb. unfold mask_to. split; [|by intros ->].
  intros E. apply (f_equal (λ z, Z.shiftr z (w - b))) in E.
  rewrite !Z.shiftr_shiftl_l in E by lia. by rewrite Z.sub_diag, !Z.shiftl_0_r in E.
Qed.

Lemma lxor_shiftr_zero x y k : (Z.shiftr (Z.lxor x y) k =? 0) = (Z.shiftr x k =? Z.shiftr y k).
Proof.
  rewrite Z.shiftr_lxor. apply eq_iff_eq_true. rewrite !Z.eqb_eq. apply Z.lxor_eq_0_iff.
Qed.

Lemma addr_valid_mask a b : addr_valid (mask_addr a b) = addr_valid a.
Proof. by destruct a. Qed.

Lemma BitLen_mask a b : BitLen (mask_addr a b) = BitLen a.
Proof. by destruct a. Qed.

Lemma Masked_valid p : prefix_ok p → IsValid (Masked p) = IsValid p.
Proof.
  intros [_ Hp]. unfold Masked, AddrPrefix. unfold IsValid at 2. unfold Bits in *.
  destruct (Z.ltb_spec 0 (bitsPlusOne p)) as [Hv|Hv].
  - destruct Hp as [?|[Ha Hb]]; [lia|]. rewrite Ha. simpl.
    rewrite (proj2 (Z.ltb_ge (bitsPlusOne p - 1) 0)), (proj2 (Z.ltb_ge (BitLen _) _)) by lia. simpl.
    rewrite PrefixFrom_valid, addr_valid_mask, Ha, BitLen_mask.
    rewrite !(proj2 (Z.leb_le _ _)) by lia. done.
  - destruct (addr_valid _); simpl; [|done].
    rewrite (proj2 (Z.ltb_lt (bitsPlusOne p - 1) 0)) by lia. done.
Qed.

Lemma Masked_shape p :
  prefix_ok p → IsValid p = true →
  Masked p = mkPrefix (mask_addr (prefix_addr p) (Bits p)) (bitsPlusOne p).
Proof.
  intros [_ Hp] Hv. unfold IsValid in Hv. bool_props. destruct Hp as [?|[Ha Hb]]; [lia|].
  unfold Masked, AddrPrefix, PrefixFrom, Bits. rewrite Ha, addr_valid_mask, BitLen_mask, Ha.
  rewrite (proj2 (Z.ltb_ge (bitsPlusOne p - 1) 0)), (proj2 (Z.ltb_ge (BitLen _) _)) by lia. simpl.
  rewrite !(proj2 (Z.leb_le _ _)) by lia. simpl. f_equal. lia.
Qed.

Lemma Masked_invalid p : IsValid p = false → Masked p = PrefixZero.
Proof.
  unfold IsValid, Masked, AddrPrefix, Bits. intros Hv. bool_props.
  destruct (addr_valid _); simpl; [|done]. by rewrite (proj2 (Z.ltb_lt _ _)) by lia.
Qed.

Lemma Masked_ok p : prefix_ok p → prefix_ok (Masked p).
Proof.
  intros [Ha Hp]. destruct (IsValid p) eqn:Hv; [|rewrite Masked_invalid by done; split; [done | by left]].
  rewrite Masked_shape by done. unfold IsValid, Bits in *. bool_props.
  destruct Hp as [?|[Hva Hb]]; [lia|]. split; simpl.
  - destruct (prefix_addr p); simpl in *; [done|..];
      match goal with |- _ ≤ mask_to ?w ?b ?v < _ => pose proof (mask_to_bound w b v) end; lia.
  - right. by rewrite addr_valid_mask, BitLen_mask.
Qed.

Lemma Masked_idem p : prefix_ok p → Masked (Masked p) = Masked p.
Proof.
  intros Hp. destruct (IsValid p) eqn:Hv; [|by rewrite (Masked_invalid p), Masked_invalid].
  pose proof (Masked_ok p Hp) as Hm. rewrite (Masked_shape p) in * by done.
  rewrite Masked_shape by done. unfold Bits; simpl.
  f_equal. unfold IsValid in Hv. bool_props. destruct Hp as [_ [?|[Ha Hb]]]; [lia|].
  destruct (prefix_addr p); simpl in *; f_equal; apply mask_to_idem; lia.
Qed.

(** A prefix contains an address exactly when masking the address to the
    prefix's length gives the masked prefix: the fact the per-length index of
    the routing table rests on. *)
Lemma Contains_Masked p a :
  prefix_ok p → addr_ok a → IsValid p = true → addr_valid a = true →
  BitLen (prefix_addr p) = BitLen a →
  Contains p a = bool_decide (Masked (PrefixFrom a (Bits p)) = Masked p).
Proof.
  intros Hp Ha Hv Hva Hl. pose proof Hv as Hv'. unfold IsValid in Hv'. bool_props.
  destruct (proj2 Hp) as [?|[Hpa Hb]]; [lia|].
  assert (PrefixFrom a (Bits p) = mkPrefix a (bitsPlusOne p)) as Hpf.
  { unfold PrefixFrom, Bits. rewrite Hva, <- Hl, !(proj2 (Z.leb_le _ _)) by lia. simpl. f_equal. lia. }
  rewrite Hpf, (Masked_shape p), (Masked_shape (mkPrefix _ _)); simpl; try done.
  2:{ split; [done|]. right. split; [done|]. simpl. rewrite <- Hl. lia. }
  unfold Contains. rewrite Hv, Hva, Hl, Z.eqb_refl. simpl. unfold Bits in *. simpl.
  destruct (prefix_addr p) as [|x|x], a as [|y|y]; try done; simpl in *;
    rewrite lxor_shiftr_zero; apply eq_iff_eq_true;
    rewrite Z.eqb_eq, bool_decide_eq_true; rewrite <- mask_to_eq by lia; (split; [by intros -> | by intros [= ->]]).
Qed.

Lemma PrefixZero_ok : prefix_ok PrefixZero.
Proof. split; [done | by left]. Qed.
