(* ===== verification/Store.v ===== *)
(** * Byte storage that several slices share

    A Go slice is a window of a backing array. Code that hands out several
    slices of one allocation is modelled over the array itself, a list of bytes,
    with offsets for the slices. [overwrite] is the one write; the lemmas say
    what a later read of the same, of an adjacent or of a disjoint range sees. *)

From S2P Require Import Prelude.

Definition overwrite (s : list Z) (off : nat) (b : list Z) : list Z :=
  take off s ++ b ++ drop (off + length b) s.

Definition read (s : list Z) (off n : nat) : list Z := take n (drop off s).

(** [copy(s[lo:hi], src)] *)
Definition copyAt (s : list Z) (lo hi : nat) (src : list Z) : res (list Z) :=
  dst ← slice s lo hi;
  Ok (overwrite s lo (take (length dst) src)).

(** [binary.BigEndian.PutUintN(s[lo:hi], v)] *)
Definition putBE (n : nat) (s : list Z) (lo hi : nat) (v : Z) : res (list Z) :=
  dst ← slice s lo hi;
  if (length dst <? n)%nat then Panic else Ok (overwrite s lo (be_to n v)).

(** [s[lo:lo+n][j] = v] *)
Definition putByte (s : list Z) (lo n j : nat) (v : Z) : res (list Z) :=
  if (j <? n)%nat && (lo + j <? length s)%nat then Ok (overwrite s (lo + j) [v]) else Panic.

Lemma length_overwrite s off b :
  (off + length b ≤ length s)%nat → length (overwrite s off b) = length s.
Proof. intros. unfold overwrite. rewrite !length_app, length_take, length_drop. lia. Qed.

Lemma lookup_overwrite s off b i :
  (off + length b ≤ length s)%nat →
  overwrite s off b !! i =
    if bool_decide (off ≤ i < off + length b)%nat then b !! (i - off)%nat else s !! i.
Proof.
  intros H. unfold overwrite. case_bool_decide as E.
  - rewrite lookup_app_r by (rewrite length_take; lia).
    rewrite lookup_app_l by (rewrite length_take; lia). f_equal. rewrite length_take. lia.
  - destruct (Nat.lt_ge_cases i off).
    + rewrite lookup_app_l by (rewrite length_take; lia). apply lookup_take_lt. lia.
    + rewrite lookup_app_r by (rewrite length_take; lia). rewrite length_take, Nat.min_l by lia.
      rewrite lookup_app_r, lookup_drop by lia. f_equal. lia.
Qed.

Lemma lookup_read s off n i : read s off n !! i = if bool_decide (i < n)%nat then s !! (off + i)%nat else None.
Proof.
  unfold read. case_bool_decide.
  - rewrite lookup_take_lt by lia. apply lookup_drop.
  - apply lookup_take_ge. lia.
Qed.

Lemma length_read s off n : (off + n ≤ length s)%nat → length (read s off n) = n.
Proof. intros. unfold read. rewrite length_take, length_drop. lia. Qed.

Lemma slice_read s lo hi : (lo ≤ hi)%nat → (hi ≤ length s)%nat → slice s lo hi = Ok (read s lo (hi - lo)).
Proof. apply slice_ok. Qed.

(** Reading back part of what was written. *)
Lemma read_overwrite_part s off a b c :
  (off + length (a ++ b ++ c) ≤ length s)%nat →
  read (overwrite s off (a ++ b ++ c)) (off + length a) (length b) = b.
Proof.
  intros H. apply list_eq. intros i. rewrite lookup_read. case_bool_decide as E.
  - rewrite lookup_overwrite, bool_decide_eq_true_2 by (rewrite ?length_app in *; lia).
    rewrite lookup_app_r by lia. rewrite lookup_app_l by lia. f_equal. lia.
  - symmetry. apply lookup_ge_None_2. lia.
Qed.

Lemma read_overwrite s off b :
  (off + length b ≤ length s)%nat → read (overwrite s off b) off (length b) = b.
Proof.
  intros H. pose proof (read_overwrite_part s off [] b []) as P. simpl in P.
  rewrite app_nil_r, Nat.add_0_r in P. by apply P.
Qed.

Lemma read_overwrite_other s off b lo n :
  (off + length b ≤ length s)%nat → (lo + n ≤ off ∨ off + length b ≤ lo)%nat →
  read (overwrite s off b) lo n = read s lo n.
Proof.
  intros H Hd. apply list_eq. intros i. rewrite !lookup_read. case_bool_decide as E; [|done].
  rewrite lookup_overwrite by done. by rewrite bool_decide_eq_false_2 by lia.
Qed.

(** Adjacent writes are one write. *)
Lemma overwrite_app s off a b :
  (off + length (a ++ b) ≤ length s)%nat →
  overwrite (overwrite s off a) (off + length a) b = overwrite s off (a ++ b).
Proof.
  intros H. rewrite length_app in H. apply list_eq. intros i.
  rewrite !lookup_overwrite by (rewrite ?length_overwrite, ?length_app; lia).
  rewrite length_app. repeat case_bool_decide; try lia.
  - rewrite lookup_app_r by lia. f_equal. lia.
  - by rewrite lookup_app_l by lia.
  - done.
Qed.

(** Replacing one part of an array by a part of the same length. *)
Lemma overwrite_mid a old new c off :
  length a = off → length old = length new → overwrite (a ++ old ++ c) off new = a ++ new ++ c.
Proof.
  intros <- E. unfold overwrite. rewrite take_app_length. do 2 f_equal.
  rewrite drop_app_add. by rewrite <- E, drop_app_length.
Qed.

(** A range read in two parts. *)
Lemma read_app s off n m : read s off (n + m) = read s off n ++ read s (off + n) m.
Proof. unfold read. rewrite <- take_take_drop, drop_drop. done. Qed.

Lemma copyAt_ok s lo hi src :
  (lo ≤ hi)%nat → (hi ≤ length s)%nat → (length src ≤ hi - lo)%nat →
  copyAt s lo hi src = Ok (overwrite s lo src).
Proof.
  intros. unfold copyAt. rewrite slice_read by done. simpl.
  by rewrite length_read, take_ge by lia.
Qed.

Lemma putBE_ok n s lo hi v :
  (lo + n ≤ hi)%nat → (hi ≤ length s)%nat → putBE n s lo hi v = Ok (overwrite s lo (be_to n v)).
Proof.
  intros. unfold putBE. rewrite slice_read by lia. simpl.
  rewrite length_read by lia. by rewrite (proj2 (Nat.ltb_ge _ _)) by lia.
Qed.

Lemma putByte_ok s lo n j v :
  (j < n)%nat → (lo + j < length s)%nat → putByte s lo n j v = Ok (overwrite s (lo + j) [v]).
Proof. intros. unfold putByte. by rewrite !(proj2 (Nat.ltb_lt _ _)) by lia. Qed.

(** Length side conditions of nested writes. *)
Ltac slen :=
  repeat first
    [ rewrite length_overwrite by slen | rewrite length_app | rewrite length_be_to
    | rewrite length_replicate | rewrite length_read by slen ];
  simpl length; try lia.
