(* ===== verification/Checksum.v ===== *)
(** * One's complement sums

    What the two checksums of the program have in common: the sum of the 16-bit
    words of a message and the folding of its carries (RFC 1071). The UDP checksum
    of internal/babel is in [BabelRaw], the ICMPv6 one of srv6 in [Srv6Icmp]. *)

From S2P Require Import Prelude.

(** The sum of the 16-bit words of a byte string, without wrap-around. *)
Fixpoint words (b : list Z) : Z :=
  match b with
  | x :: y :: rest => x * 256 + y + words rest
  | [x] => x * 256
  | [] => 0
  end.

(** Induction two bytes at a time. *)
Lemma pair_ind (P : list Z → Prop) :
  P [] → (∀ x, P [x]) → (∀ x y l, P l → P (x :: y :: l)) → ∀ l, P l.
Proof.
  intros H0 H1 H2. assert (∀ l, P l ∧ ∀ x, P (x :: l)) as H; [|intros l; apply H].
  induction l as [|y l [IH1 IH2]]; [auto|]. split; [auto|]. intros x. by apply H2.
Qed.

Lemma words_bound b : bytes_ok b → 0 ≤ words b ≤ 65535 * (Z.of_nat (length b + 1) / 2).
Proof.
  induction b as [|x|x y l IH] using pair_ind; intros Hb; [done|..].
  - inversion Hb as [|?? Hx _]; subst. unfold byte_ok in Hx. simpl. divlia.
  - inversion Hb as [|?? Hx Hb']; subst. inversion Hb' as [|?? Hy Hl]; subst. specialize (IH Hl).
    unfold byte_ok in *. cbn [words length]. divlia.
Qed.

Lemma words_len b : bytes_ok b → 0 ≤ words b ≤ 65535 * Z.of_nat (length b).
Proof. intros Hb. pose proof (words_bound b Hb). divlia. Qed.

Lemma words_app a b : (length a mod 2 = 0)%nat → words (a ++ b) = words a + words b.
Proof.
  induction a as [|x|x y l IH] using pair_ind; intros Hl; [done | done |].
  cbn [app words]. rewrite IH; [lia|]. cbn [length] in Hl.
  replace (S (S (length l))) with (length l + 1 * 2)%nat in Hl by lia. by rewrite Nat.Div0.mod_add in Hl.
Qed.

Lemma fold_step s : 0 ≤ s < 2 ^ 32 →
  u32 (Z.land s 0xffff + Z.shiftr s 16) = s mod 65536 + s / 65536 ∧ Z.shiftr s 16 = s / 65536.
Proof.
  intros Hs. change 0xffff with (Z.ones 16). rewrite Z.land_ones, Z.shiftr_div_pow2 by lia.
  change (2 ^ 16) with 65536. split; [|done]. apply u32_id. divlia.
Qed.
