(* ===== verification/Replay.v ===== *)
(** * The ESP anti-replay window, esp/replay.go

    [replayWindow] is a circular bitmap of 64-bit words. The model keeps the
    words, the 32-bit counters and the branch structure of every method, with a
    run-time panic (an index past the mask) as an outcome.

    The specification is the textbook one: the set of sequence numbers accepted
    so far. [Inv] is the abstraction relation; [check] and [commit] refine the
    specification step by step, and a run over any incoming sequence never
    accepts a number twice and never panics. *)

From S2P Require Import Prelude.

Module ReplayWindow.

Definition DefaultReplayWindow : Z := 4096.

(** esp.MaxReplayWindow, the clamp [WithReplayWindow] applies. *)
Definition MaxReplayWindow : Z := Z.shiftl 1 20.

Record replayWindow := mkReplayWindow {
  window : Z;
  last : Z;
  mask : list Z
}.

Definition with_mask (w : replayWindow) (m : list Z) : replayWindow :=
  mkReplayWindow (window w) (last w) m.

Definition with_last (w : replayWindow) (l : Z) : replayWindow :=
  mkReplayWindow (window w) l (mask w).

Definition newReplayWindow (window : Z) : replayWindow :=
  mkReplayWindow window 0 (replicate (Z.to_nat (u64 (window + 63) / 64)) 0).

Definition bit (w : replayWindow) (last diff : Z) : Z :=
  let pos := u32 (last - 1) mod window w in
  u32 (u32 (pos + window w) - diff) mod window w.

(** [set] reads one bit of the mask and [mark] sets one. *)
Definition set (w : replayWindow) (bit : Z) : res bool :=
  word ← idx (mask w) (Z.to_nat (bit / 64));
  Ok (negb (Z.land word (shl64 1 (bit mod 64)) =? 0)).

Definition mark (w : replayWindow) (bit : Z) : res replayWindow :=
  let i := Z.to_nat (bit / 64) in
  word ← idx (mask w) i;
  Ok (with_mask w (<[i := Z.lor word (shl64 1 (bit mod 64))]> (mask w))).

Definition check (w : replayWindow) (seq : Z) : res unit :=
  if window w =? 0 then Ok tt
  else if seq =? 0 then Err "esp: sequence number 0 is invalid"
  else if (last w =? 0) || (last w <? seq) then Ok tt
  else
    let diff := u32 (last w - seq) in
    if window w <=? diff then Err "esp: sequence too old"
    else
      replayed ← set w (bit w (last w) diff);
      if (replayed : bool) then Err "esp: sequence replayed" else Ok tt.

(** [w.mask[i] &^= bits] *)
Definition andnot (w : replayWindow) (i bits : Z) : res replayWindow :=
  word ← idx (mask w) (Z.to_nat i);
  Ok (with_mask w (<[Z.to_nat i := Z.ldiff word bits]> (mask w))).

(** [clear(w.mask[first : end])] *)
Definition clearWords (w : replayWindow) (first end_ : Z) : res replayWindow :=
  run ← slice (mask w) (Z.to_nat first) (Z.to_nat end_);
  Ok (with_mask w (take (Z.to_nat first) (mask w)
                   ++ replicate (length run) 0
                   ++ drop (Z.to_nat end_) (mask w))).

Definition clearSpan (w : replayWindow) (start n : Z) : res replayWindow :=
  if n =? 0 then Ok w
  else
    let end_ := u32 (start + n) in
    let first := start / 64 in
    let last := u32 (end_ - 1) / 64 in
    if first =? last then
      andnot w first (shl64 (shr64 ones64 (u32 (64 - n))) (start mod 64))
    else
      let offset := start mod 64 in
      head ← (if negb (offset =? 0)
              then w' ← andnot w first (shl64 ones64 offset); Ok (w', u32 (first + 1))
              else Ok (w, first));
      let '(w, first) := head : replayWindow * Z in
      let tail := end_ mod 64 in
      rest ← (if negb (tail =? 0)
              then w' ← andnot w last (shr64 ones64 (u32 (64 - tail))); Ok (w', u32 (last - 1))
              else Ok (w, last));
      let '(w, last) := rest : replayWindow * Z in
      if first <=? last then clearWords w first (u32 (last + 1)) else Ok w.

Definition clearRange (w : replayWindow) (start n : Z) : res replayWindow :=
  if n =? 0 then Ok w
  else
    let start := start mod window w in
    if window w <? u32 (start + n) then
      let head := u32 (window w - start) in
      w ← clearSpan w start head;
      clearSpan w 0 (u32 (n - head))
    else clearSpan w start n.

Definition commit (w : replayWindow) (seq : Z) : res replayWindow :=
  if window w =? 0 then Ok w
  else if last w =? 0 then
    mark (with_last w seq) (u32 (seq - 1) mod window w)
  else if last w <? seq then
    let diff := u32 (seq - last w) in
    w' ← (if window w <=? diff
          then Ok (with_mask w (replicate (length (mask w)) 0))
          else clearRange w (u32 (u32 (last w - 1) mod window w + 1)) (u32 (diff - 1)));
    mark (with_last w' seq) (u32 (seq - 1) mod window w)
  else
    mark w (bit w (last w) (u32 (last w - seq))).

(** One received packet: the check the receive path runs under the SA lock and
    the commit that follows it when the packet is accepted. *)
Definition receive (w : replayWindow) (seq : Z) : res (bool * replayWindow) :=
  match check w seq with
  | Ok _ => w' ← commit w seq; Ok (true, w')
  | Err _ => Ok (false, w)
  | Panic => Panic
  end.

Fixpoint receiveAll (w : replayWindow) (seqs : list Z) : res (list Z * replayWindow) :=
  match seqs with
  | [] => Ok ([], w)
  | seq :: rest =>
      r ← receive w seq;
      rs ← receiveAll r.2 rest;
      Ok (if r.1 : bool then (seq :: rs.1, rs.2) else rs)
  end.

(** ** Specification *)

(** The highest sequence number accepted so far. *)
Definition top (seen : list Z) : Z := foldr Z.max 0 seen.

(** RFC 4303 section 3.4.3: a sequence number is acceptable when it is ahead of
    everything seen, or inside the window and not yet seen. *)
Definition acceptable (window : Z) (seen : list Z) (seq : Z) : bool :=
  negb (seq =? 0) &&
  ((top seen <? seq) || ((top seen - seq <? window) && bool_decide (seq ∉ seen))).

Fixpoint acceptAll (window : Z) (seen : list Z) (seqs : list Z) : list Z :=
  match seqs with
  | [] => []
  | seq :: rest =>
      if acceptable window seen seq
      then seq :: acceptAll window (seq :: seen) rest
      else acceptAll window seen rest
  end.

(** ** The mask as a function from positions to bits *)

Definition word_at (m : list Z) (i : Z) : Z := default 0 (m !! Z.to_nat i).
Definition bit_at (m : list Z) (i : Z) : bool := Z.testbit (word_at m (i / 64)) (i mod 64).

(** Well-formed: the window is within the clamp and the mask covers it. *)
Definition wf (w : replayWindow) : Prop :=
  0 < window w ≤ MaxReplayWindow ∧
  window w ≤ 64 * Z.of_nat (length (mask w)).

(** The abstraction relation between a window and the accepted numbers. *)
Record Inv (w : replayWindow) (seen : list Z) : Prop := {
  inv_wf : wf w;
  inv_last : last w = top seen;
  inv_seen : ∀ s, s ∈ seen → 0 < s < 2 ^ 32;
  inv_fresh : last w = 0 → ∀ i, 0 ≤ i < window w → bit_at (mask w) i = false;
  inv_bits : ∀ s, 0 < s ≤ last w → last w - s < window w →
    bit_at (mask w) ((s - 1) mod window w) = true ↔ s ∈ seen
}.

(** ** Bits of words *)

Lemma word_at_insert m i j v :
  0 ≤ i → 0 ≤ j → (Z.to_nat i < length m)%nat →
  word_at (<[Z.to_nat i := v]> m) j = if i =? j then v else word_at m j.
Proof.
  intros Hi Hj Hl. unfold word_at. destruct (Z.eqb_spec i j) as [->|Hne].
  - by rewrite list_lookup_insert_eq.
  - rewrite list_lookup_insert_ne by lia. done.
Qed.

Lemma div_lt_words w i : wf w → 0 ≤ i < window w → (Z.to_nat (i / 64) < length (mask w))%nat.
Proof. intros [? ?] ?. zify. divlia. Qed.

Lemma idx_word m i : 0 ≤ i → (Z.to_nat i < length m)%nat → idx m (Z.to_nat i) = Ok (word_at m i).
Proof.
  intros ? H. unfold idx, word_at. by destruct (lookup_lt_is_Some_2 m _ H) as [x ->].
Qed.

Lemma testbit_shl64_1 k i : 0 ≤ k < 64 → 0 ≤ i → Z.testbit (shl64 1 k) i = (i =? k).
Proof.
  intros Hk Hi. unfold shl64, u64. rewrite (proj2 (Z.leb_gt _ _)) by lia.
  rewrite Z.shiftl_1_l, Z.mod_small by (split; [lia | apply Z.pow_lt_mono_r; lia]).
  rewrite Z.pow2_bits_eqb by lia. apply Z.eqb_sym.
Qed.

Lemma land_bit_zero x k : 0 ≤ k < 64 → negb (Z.land x (shl64 1 k) =? 0) = Z.testbit x k.
Proof.
  intros Hk. destruct (Z.testbit x k) eqn:E.
  - apply negb_true_iff, Z.eqb_neq. intros H0.
    apply (f_equal (λ z, Z.testbit z k)) in H0.
    rewrite Z.land_spec, testbit_shl64_1, Z.eqb_refl, E, Z.bits_0 in H0 by lia. done.
  - apply negb_false_iff, Z.eqb_eq, Z.bits_inj'. intros i Hi.
    rewrite Z.land_spec, testbit_shl64_1, Z.bits_0 by lia.
    destruct (Z.eqb_spec i k) as [->|]; [by rewrite E | by rewrite andb_false_r].
Qed.

Lemma testbit_ones_window n k i :
  0 < n ≤ 64 → 0 ≤ k → k + n ≤ 64 → 0 ≤ i < 64 →
  Z.testbit (shl64 (shr64 ones64 (u32 (64 - n))) k) i = (k <=? i) && (i <? k + n).
Proof.
  intros Hn Hk Hkn Hi. rewrite u32_id by lia. unfold shl64, shr64, ones64, u64.
  rewrite !(proj2 (Z.leb_gt _ _)) by lia.
  rewrite Z.mod_pow2_bits_low by lia.
  destruct (Z.leb_spec k i); simpl.
  - rewrite Z.shiftl_spec, Z.shiftr_spec by lia.
    destruct (Z.ltb_spec i (k + n)); [apply Z.ones_spec_low; lia | apply Z.ones_spec_high; lia].
  - rewrite Z.shiftl_spec_low by lia. done.
Qed.

(** ** Clearing *)

(** [w'] is [w] with the positions satisfying [P] cleared. *)
Record cleared (w w' : replayWindow) (P : Z → bool) : Prop := {
  cleared_window : window w' = window w;
  cleared_last : last w' = last w;
  cleared_length : length (mask w') = length (mask w);
  cleared_bits : ∀ j, 0 ≤ j → bit_at (mask w') j = bit_at (mask w) j && negb (P j)
}.

Lemma cleared_refl w : cleared w w (λ _, false).
Proof. split; auto. intros. by rewrite andb_true_r. Qed.

Lemma cleared_trans w w1 w2 P Q R :
  cleared w w1 P → cleared w1 w2 Q → (∀ j, 0 ≤ j → R j = P j || Q j) → cleared w w2 R.
Proof.
  intros [? ? ? HP] [? ? ? HQ] HR. split; [congruence..|].
  intros j Hj. rewrite HQ, HP, HR by done. by destruct (bit_at _ j), (P j), (Q j).
Qed.

Lemma cleared_ext w w' P Q : cleared w w' P → (∀ j, 0 ≤ j → Q j = P j) → cleared w w' Q.
Proof. intros [] HQ. split; auto. intros. rewrite HQ; auto. Qed.

Lemma andnot_spec w i bits :
  0 ≤ i → (Z.to_nat i < length (mask w))%nat →
  ∃ w', andnot w i bits = Ok w' ∧
    cleared w w' (λ j, (j / 64 =? i) && Z.testbit bits (j mod 64)).
Proof.
  intros Hi Hl. unfold andnot. rewrite idx_word by done. simpl. eexists; split; [done|].
  split; simpl; [done | done | by rewrite length_insert |].
  intros j Hj. unfold bit_at. rewrite word_at_insert by (auto; divlia).
  rewrite (Z.eqb_sym i). destruct (Z.eqb_spec (j / 64) i) as [<-|]; simpl.
  - by rewrite Z.ldiff_spec.
  - by rewrite andb_true_r.
Qed.

Lemma clearWords_spec w first end_ :
  0 ≤ first ≤ end_ → (Z.to_nat end_ ≤ length (mask w))%nat →
  ∃ w', clearWords w first end_ = Ok w' ∧
    cleared w w' (λ j, (first <=? j / 64) && (j / 64 <? end_)).
Proof.
  intros Hf Hl. unfold clearWords. rewrite slice_ok by lia. simpl. eexists; split; [done|].
  rewrite length_take, length_drop, Nat.min_l by lia.
  split; simpl; [done | done | |].
  { rewrite !length_app, length_take, length_replicate, length_drop. lia. }
  intros j Hj. unfold bit_at, word_at. set (k := Z.to_nat (j / 64)).
  assert (0 ≤ j / 64) by divlia.
  destruct (Z.leb_spec first (j / 64)); simpl.
  - rewrite lookup_app_r by (rewrite length_take; lia). rewrite length_take, Nat.min_l by lia.
    destruct (Z.ltb_spec (j / 64) end_); simpl.
    + rewrite lookup_app_l by (rewrite length_replicate; lia).
      rewrite lookup_replicate_2 by lia. simpl. by rewrite Z.bits_0, andb_false_r.
    + rewrite lookup_app_r, length_replicate by (rewrite length_replicate; lia).
      rewrite lookup_drop, andb_true_r. do 3 f_equal. lia.
  - rewrite lookup_app_l by (rewrite length_take; lia).
    rewrite lookup_take_lt by lia. by rewrite andb_true_r.
Qed.

Lemma testbit_head k i : 0 ≤ k < 64 → 0 ≤ i < 64 → Z.testbit (shl64 ones64 k) i = (k <=? i).
Proof.
  intros. unfold shl64, ones64, u64. rewrite (proj2 (Z.leb_gt _ _)) by lia.
  rewrite Z.mod_pow2_bits_low by lia. destruct (Z.leb_spec k i).
  - rewrite Z.shiftl_spec by lia. apply Z.ones_spec_low. lia.
  - apply Z.shiftl_spec_low. lia.
Qed.

Lemma testbit_tail k i : 0 < k < 64 → 0 ≤ i < 64 → Z.testbit (shr64 ones64 (u32 (64 - k))) i = (i <? k).
Proof.
  intros. rewrite u32_id by lia. unfold shr64, ones64. rewrite (proj2 (Z.leb_gt _ _)) by lia.
  rewrite Z.shiftr_spec by lia.
  destruct (Z.ltb_spec i k); [apply Z.ones_spec_low; lia | apply Z.ones_spec_high; lia].
Qed.

(** Boolean identities between interval tests on positions. *)
Ltac intervals :=
  repeat match goal with
  | |- context [?a <=? ?b] => destruct (Z.leb_spec a b)
  | |- context [?a <? ?b] => destruct (Z.ltb_spec a b)
  | |- context [?a =? ?b] => destruct (Z.eqb_spec a b)
  end; simpl; try done; exfalso; divlia.

Section clear_span.
Context (w : replayWindow) (start n : Z).
Context (Hwf : wf w) (Hstart : 0 ≤ start) (Hn : 0 < n) (Hend : start + n ≤ window w).

Lemma span_bounds : start + n ≤ MaxReplayWindow ∧ (start + n - 1) / 64 < Z.of_nat (length (mask w)).
Proof using Hwf Hend Hn Hstart.
  destruct Hwf as [? ?]. split; [lia|]. divlia.
Qed.

(** The word the span starts in, when the span does not start on a word. *)
Lemma head_step :
  start / 64 < (start + n - 1) / 64 →
  ∃ w' f', (if negb (start mod 64 =? 0)
            then w' ← andnot w (start / 64) (shl64 ones64 (start mod 64)); Ok (w', u32 (start / 64 + 1))
            else Ok (w, start / 64)) = Ok (w', f') ∧
    0 ≤ f' ≤ (start + n - 1) / 64 ∧ cleared w w' (λ j, (start <=? j) && (j <? 64 * f')) ∧
    start ≤ 64 * f' < start + 64.
Proof using Hwf Hend Hn Hstart.
  intros Hlt. pose proof span_bounds as [HM Hb]. change MaxReplayWindow with 1048576 in HM.
  assert (0 ≤ start / 64) by divlia.
  destruct (Z.eqb_spec (start mod 64) 0) as [E|E]; simpl.
  - do 2 eexists; split; [done|]. split_and!; try divlia.
    eapply cleared_ext; [apply cleared_refl|]. intros. intervals.
  - destruct (andnot_spec w (start / 64) (shl64 ones64 (start mod 64))) as (w' & -> & Hc); [lia..|].
    simpl. rewrite u32_id by divlia.
    do 2 eexists; split; [done|].
    split_and!; try divlia.
    eapply cleared_ext; [exact Hc|]. intros j Hj. cbv beta.
    rewrite testbit_head by (apply Z.mod_pos_bound; lia). intervals.
Qed.
End clear_span.

Lemma clearSpan_spec w start n :
  wf w → 0 ≤ start → 0 ≤ n → start + n ≤ window w →
  ∃ w', clearSpan w start n = Ok w' ∧ cleared w w' (λ j, (start <=? j) && (j <? start + n)).
Proof.
  intros Hwf Hs Hn He. unfold clearSpan. destruct (Z.eqb_spec n 0) as [->|Hn0].
  { eexists; split; [done|]. eapply cleared_ext; [apply cleared_refl|]. intros. intervals. }
  pose proof (span_bounds w start n Hwf Hs ltac:(lia) He) as [HM Hb].
  change MaxReplayWindow with 1048576 in HM. cbv zeta.
  rewrite (u32_id (start + n)), (u32_id (start + n - 1)) by lia.
  destruct (Z.eqb_spec (start / 64) ((start + n - 1) / 64)) as [Eq|Hne].
  - destruct (andnot_spec w (start / 64)
      (shl64 (shr64 ones64 (u32 (64 - n))) (start mod 64))) as (w' & -> & Hc).
    1-2: divlia.
    eexists; split; [done|]. eapply cleared_ext; [exact Hc|]. intros j Hj. cbv beta.
    rewrite testbit_ones_window by divlia. intervals.
  - assert (start / 64 < (start + n - 1) / 64) as Hlt by divlia.
    destruct (head_step w start n Hwf Hs ltac:(lia) He Hlt) as (w1 & f & -> & Hf & Hc1 & Hfs).
    simpl. destruct (Z.eqb_spec ((start + n) mod 64) 0) as [Et|Et]; simpl.
    + rewrite (proj2 (Z.leb_le _ _)) by lia. rewrite u32_id by divlia.
      destruct (clearWords_spec w1 f ((start + n - 1) / 64 + 1)) as (w2 & -> & Hc2).
      { lia. } { rewrite (cleared_length _ _ _ Hc1). lia. }
      eexists; split; [done|]. eapply cleared_trans; [exact Hc1 | exact Hc2 |].
      intros j Hj. cbv beta. intervals.
    + destruct (andnot_spec w1 ((start + n - 1) / 64)
        (shr64 ones64 (u32 (64 - (start + n) mod 64)))) as (w2 & -> & Hc2).
      { divlia. } { rewrite (cleared_length _ _ _ Hc1). lia. }
      simpl. rewrite (u32_id ((start + n - 1) / 64 - 1)) by divlia.
      assert (cleared w w2 (λ j, (start <=? j) && (j <? 64 * f) ||
        (64 * ((start + n - 1) / 64) <=? j) && (j <? start + n))) as Hc.
      { eapply cleared_trans; [exact Hc1 | exact Hc2 |]. intros j Hj. cbv beta.
        rewrite testbit_tail by divlia. intervals. }
      destruct (Z.leb_spec f ((start + n - 1) / 64 - 1)).
      * rewrite u32_id by divlia.
        destruct (clearWords_spec w2 f ((start + n - 1) / 64 - 1 + 1)) as (w3 & -> & Hc3).
        { lia. } { rewrite (cleared_length _ _ _ Hc). lia. }
        eexists; split; [done|]. eapply cleared_trans; [exact Hc | exact Hc3 |].
        intros j Hj. cbv beta. intervals.
      * eexists; split; [done|]. eapply cleared_ext; [exact Hc|]. intros j Hj. intervals.
Qed.

(** ** Positions on the circle *)

Lemma mod_shift_up a W : - W ≤ a < 0 → a mod W = a + W.
Proof. intros. rewrite <- (Z_mod_plus_full a 1 W), Z.mul_1_l. apply Z.mod_small. lia. Qed.

Lemma mod_inj_window a b W : 0 < W → a mod W = b mod W → - W < a - b < W → a = b.
Proof.
  intros HW Heq Hd. assert ((a - b) mod W = 0) as H0.
  { by rewrite Zminus_mod, Heq, Z.sub_diag, Z.mod_0_l by lia. }
  destruct (Z.lt_ge_cases (a - b) 0).
  - rewrite mod_shift_up in H0 by lia. lia.
  - rewrite Z.mod_small in H0 by lia. lia.
Qed.

Lemma bit_pos w l diff :
  wf w → 0 < l < 2 ^ 32 → 0 ≤ diff < window w → diff < l →
  bit w l diff = (l - diff - 1) mod window w.
Proof.
  intros [[Hw0 HM] _] Hl Hd Hdl. change MaxReplayWindow with 1048576 in HM.
  unfold bit. rewrite (u32_id (l - 1)) by lia.
  pose proof (Z.mod_pos_bound (l - 1) (window w) Hw0).
  rewrite (u32_id (_ + window w)), u32_id by lia.
  rewrite (Z.mod_eq (l - 1)) by lia.
  rewrite <- (Z_mod_plus_full (l - diff - 1) (1 - (l - 1) / window w) (window w)).
  f_equal. lia.
Qed.

Lemma clearRange_spec w start n :
  wf w → 0 ≤ start ≤ window w → 0 ≤ n < window w →
  ∃ w', clearRange w start n = Ok w' ∧
    cleared w w' (λ j, (j <? window w) && ((j - start) mod window w <? n)).
Proof.
  intros Hwf Hs Hn. unfold clearRange. set (W := window w) in *.
  assert (0 < W ≤ 1048576) as HW by (destruct Hwf; done).
  destruct (Z.eqb_spec n 0) as [->|Hn0].
  { eexists; split; [done|]. eapply cleared_ext; [apply cleared_refl|]. intros j Hj.
    pose proof (Z.mod_pos_bound (j - start) W ltac:(lia)).
    destruct (j <? W), (Z.ltb_spec ((j - start) mod W) 0); simpl; auto; lia. }
  assert (∃ s, start mod W = s ∧ 0 ≤ s < W ∧ ∀ j, (j - start) mod W = (j - s) mod W)
    as (s & -> & Hs' & Hmod).
  { eexists; split; [done|]. split; [apply Z.mod_pos_bound; lia|].
    intros j. by rewrite Zminus_mod_idemp_r. }
  assert (∀ j, 0 ≤ j < W → (j - s) mod W = if s <=? j then j - s else j - s + W) as Hval.
  { intros j Hj. destruct (Z.leb_spec s j); [apply Z.mod_small | apply mod_shift_up]; lia. }
  cbv zeta. rewrite (u32_id (s + n)) by lia.
  destruct (Z.ltb_spec W (s + n)) as [Hwrap|Hfit].
  - rewrite (u32_id (W - s)), u32_id by lia.
    destruct (clearSpan_spec w s (W - s)) as (w1 & -> & Hc1); [auto; lia..|]. simpl.
    destruct (clearSpan_spec w1 0 (n - (W - s))) as (w2 & -> & Hc2).
    { destruct Hc1 as [E1 E2 E3 _]. unfold wf. by rewrite E1, E3. }
    1-2: lia. { rewrite (cleared_window _ _ _ Hc1). fold W. lia. }
    eexists; split; [done|]. eapply cleared_trans; [exact Hc1 | exact Hc2 |].
    intros j Hj. cbv beta. rewrite Hmod. destruct (Z.ltb_spec j W); simpl.
    + rewrite Hval by lia. intervals.
    + intervals.
  - destruct (clearSpan_spec w s n) as (w1 & -> & Hc1); [auto; lia..|].
    eexists; split; [done|]. eapply cleared_ext; [exact Hc1|].
    intros j Hj. cbv beta. rewrite Hmod. destruct (Z.ltb_spec j W); simpl.
    + rewrite Hval by lia. intervals.
    + intervals.
Qed.

Lemma set_spec w i : wf w → 0 ≤ i < window w → set w i = Ok (bit_at (mask w) i).
Proof.
  intros Hwf Hi. unfold set. rewrite idx_word; [|divlia|by apply div_lt_words].
  simpl. rewrite land_bit_zero by (apply Z.mod_pos_bound; lia). done.
Qed.

Lemma mark_spec w i :
  wf w → 0 ≤ i < window w →
  ∃ w', mark w i = Ok w' ∧ window w' = window w ∧ last w' = last w ∧ wf w' ∧
    ∀ j, 0 ≤ j → bit_at (mask w') j = (j =? i) || bit_at (mask w) j.
Proof.
  intros Hwf Hi. unfold mark. rewrite idx_word; [|divlia|by apply div_lt_words].
  simpl. eexists; split; [done|]. simpl. split_and!; [done | done | |].
  - destruct Hwf. split; simpl; by rewrite ?length_insert.
  - intros j Hj. unfold bit_at. rewrite word_at_insert; [|divlia..|by apply div_lt_words].
    destruct (Z.eqb_spec (i / 64) (j / 64)) as [Eq|Hne].
    + rewrite Z.lor_spec, testbit_shl64_1 by (apply Z.mod_pos_bound; lia). rewrite <- Eq.
      rewrite orb_comm. f_equal. intervals.
    + rewrite (proj2 (Z.eqb_neq j i)) by congruence. done.
Qed.

(** ** The abstraction relation *)

Lemma top_nonneg seen : 0 ≤ top seen.
Proof. induction seen; simpl; lia. Qed.

Lemma top_ge seen s : s ∈ seen → s ≤ top seen.
Proof. induction 1; simpl; lia. Qed.

Lemma top_in seen : top seen ≠ 0 → top seen ∈ seen.
Proof.
  induction seen as [|x seen IH]; simpl; [done|]. intros H.
  destruct (Z.max_spec x (top seen)) as [[? ->]|[? ->]]; set_solver by lia.
Qed.

Lemma inv_top_bound w seen : Inv w seen → 0 ≤ last w < 2 ^ 32.
Proof.
  intros HI. rewrite (inv_last _ _ HI). pose proof (top_nonneg seen).
  destruct (Z.eq_dec (top seen) 0) as [->|Hne]; [lia|].
  apply top_in in Hne. apply (inv_seen _ _ HI) in Hne. lia.
Qed.

Lemma new_inv W : 0 < W ≤ MaxReplayWindow → Inv (newReplayWindow W) [].
Proof.
  intros [H0 HM]. change MaxReplayWindow with 1048576 in HM.
  assert (∀ i, bit_at (mask (newReplayWindow W)) i = false) as Hz.
  { intros i. unfold bit_at, word_at, newReplayWindow. simpl.
    destruct (replicate _ _ !! _) eqn:E; simpl; [|apply Z.bits_0].
    apply lookup_replicate in E as [-> _]. apply Z.bits_0. }
  split; simpl; auto.
  - split; simpl; [change MaxReplayWindow with 1048576; lia|].
    rewrite length_replicate, u64_id by lia. divlia.
  - set_solver.
  - lia.
Qed.

Lemma check_spec w seen seq :
  Inv w seen → 0 ≤ seq < 2 ^ 32 →
  safe (check w seq) ∧ is_ok (check w seq) = acceptable (window w) seen seq.
Proof.
  intros HI Hs. pose proof (inv_top_bound _ _ HI) as Hl. pose proof (inv_wf _ _ HI) as Hwf.
  pose proof (proj1 Hwf) as HW. unfold check, acceptable. rewrite <- (inv_last _ _ HI).
  rewrite (proj2 (Z.eqb_neq (window w) 0)) by lia.
  destruct (Z.eqb_spec seq 0) as [->|Hs0]; simpl; [done|].
  destruct (Z.eqb_spec (last w) 0) as [El|El]; simpl.
  { rewrite El, (proj2 (Z.ltb_lt 0 seq)) by lia. done. }
  destruct (Z.ltb_spec (last w) seq); simpl; [done|].
  rewrite u32_id by lia.
  destruct (Z.leb_spec (window w) (last w - seq)).
  { by rewrite (proj2 (Z.ltb_ge _ _)) by lia. }
  rewrite (proj2 (Z.ltb_lt (last w - seq) _)) by lia. simpl.
  rewrite bit_pos by (auto; lia). replace (last w - (last w - seq) - 1) with (seq - 1) by lia.
  rewrite set_spec by (auto; apply Z.mod_pos_bound; lia). simpl.
  pose proof (inv_bits _ _ HI seq ltac:(lia) ltac:(lia)) as Hb.
  case_bool_decide as Hin; destruct (bit_at _ _) eqn:E; simpl; try done; exfalso; naive_solver.
Qed.

(** A mask that is right about every number of the window but [seq], marked at
    the position of [seq], is right about [seq :: seen]. *)
Lemma mark_inv w seen seq :
  wf w → last w = Z.max seq (top seen) → 0 < seq < 2 ^ 32 → last w - seq < window w →
  (∀ s, s ∈ seen → 0 < s < 2 ^ 32) →
  (∀ s, 0 < s ≤ last w → last w - s < window w → s ≠ seq →
     bit_at (mask w) ((s - 1) mod window w) = true ↔ s ∈ seen) →
  ∃ w', mark w ((seq - 1) mod window w) = Ok w' ∧ window w' = window w ∧ Inv w' (seq :: seen).
Proof.
  intros Hwf Hlast Hseq Hin Hseen Hbits. pose proof (proj1 Hwf) as HW.
  destruct (mark_spec w ((seq - 1) mod window w)) as (w' & -> & Hw' & Hl' & Hwf' & Hb);
    [done | apply Z.mod_pos_bound; lia |].
  eexists; split_and!; [done..|]. split.
  - done.
  - by rewrite Hl', Hlast.
  - set_solver.
  - rewrite Hl'. pose proof (top_nonneg seen). lia.
  - rewrite Hl', Hw'. intros s Hs Hd. rewrite Hb by (apply Z.mod_pos_bound; lia).
    rewrite elem_of_cons. destruct (Z.eq_dec s seq) as [->|Hne].
    + rewrite Z.eqb_refl. naive_solver.
    + rewrite (proj2 (Z.eqb_neq _ _)); simpl.
      { rewrite Hbits by lia. naive_solver. }
      intros He. apply mod_inj_window in He; lia.
Qed.

Lemma circle_distance s l W :
  0 < W → ((s - 1) mod W - ((l - 1) mod W + 1)) mod W = (s - 1 - l) mod W.
Proof.
  intros. rewrite (Z.mod_eq (s - 1)), (Z.mod_eq (l - 1)) by lia.
  rewrite <- (Z_mod_plus_full (s - 1 - l) ((l - 1) / W - (s - 1) / W) W). f_equal. lia.
Qed.

Lemma beyond_top w seen s : Inv w seen → last w < s → s ∉ seen.
Proof. intros HI Hs Hin. apply top_ge in Hin. rewrite <- (inv_last _ _ HI) in Hin. lia. Qed.

(** A forward jump by less than the window: the skipped positions are cleared,
    so [mark_inv] applies. *)
Lemma jump_inv w seen seq :
  Inv w seen → 0 < last w < seq → seq < 2 ^ 32 → seq - last w < window w →
  ∃ w1, clearRange w ((last w - 1) mod window w + 1) (seq - last w - 1) = Ok w1 ∧
    window w1 = window w ∧
    ∃ w', mark (with_last w1 seq) ((seq - 1) mod window w) = Ok w' ∧
      window w' = window w ∧ Inv w' (seq :: seen).
Proof.
  intros HI Hl Hs Hd. pose proof (inv_wf _ _ HI) as Hwf. pose proof (proj1 Hwf) as HW.
  pose proof (Z.mod_pos_bound (last w - 1) (window w) ltac:(lia)) as Hp.
  destruct (clearRange_spec w ((last w - 1) mod window w + 1) (seq - last w - 1))
    as (w1 & -> & [Ew El' Elen Hb]); [auto; lia..|].
  eexists; split_and!; [done..|]. rewrite <- Ew.
  apply (mark_inv (with_last w1 seq)); simpl; rewrite ?Ew; try done; try lia.
  - split; simpl; by rewrite ?Ew, ?Elen; apply Hwf.
  - rewrite <- (inv_last _ _ HI). lia.
  - apply HI.
  - intros s Hsr Hsd Hne. pose proof (Z.mod_pos_bound (s - 1) (window w) ltac:(lia)).
    rewrite Hb, circle_distance, (proj2 (Z.ltb_lt ((s - 1) mod window w) _)) by lia.
    destruct (Z.lt_ge_cases (last w) s).
    + rewrite (Z.mod_small (s - 1 - last w)) by lia. rewrite (proj2 (Z.ltb_lt (s - 1 - last w) _)) by lia.
      rewrite andb_false_r. pose proof (beyond_top _ _ s HI). naive_solver.
    + rewrite (mod_shift_up (s - 1 - last w)) by lia. rewrite (proj2 (Z.ltb_ge (s - 1 - last w + window w) _)) by lia.
      rewrite andb_true_r. apply (inv_bits _ _ HI); lia.
Qed.

Lemma zero_mask_bit n i : bit_at (replicate n 0) i = false.
Proof.
  unfold bit_at, word_at. destruct (replicate _ _ !! _) eqn:E; simpl; [|apply Z.bits_0].
  apply lookup_replicate in E as [-> _]. apply Z.bits_0.
Qed.

Lemma commit_inv w seen seq :
  Inv w seen → 0 ≤ seq < 2 ^ 32 → acceptable (window w) seen seq = true →
  ∃ w', commit w seq = Ok w' ∧ window w' = window w ∧ Inv w' (seq :: seen).
Proof.
  intros HI Hs Hacc. pose proof (inv_top_bound _ _ HI) as Hl. pose proof (inv_wf _ _ HI) as Hwf.
  pose proof (proj1 Hwf) as HW. assert (window w ≤ 1048576) as HM by apply HW.
  unfold acceptable in Hacc. rewrite <- (inv_last _ _ HI) in Hacc.
  apply andb_true_iff in Hacc as [Hnz Hacc]. bool_props. unfold commit. rewrite (proj2 (Z.eqb_neq (window w) 0)) by lia.
  rewrite (u32_id (seq - 1)) by lia.
  assert (∀ w1, window w1 = window w → length (mask w1) = length (mask w) → wf w1) as Hwf1.
  { intros w1 E1 E2. unfold wf. by rewrite E1, E2. }
  destruct (Z.eqb_spec (last w) 0) as [El|El].
  { apply (mark_inv (with_last w seq)); simpl; try done; try lia.
    - rewrite <- (inv_last _ _ HI). lia.
    - apply HI.
    - intros s Hsr Hd Hne. rewrite (inv_fresh _ _ HI) by (auto; apply Z.mod_pos_bound; lia).
      pose proof (beyond_top _ _ s HI). naive_solver lia. }
  destruct (Z.ltb_spec (last w) seq) as [Hgt|Hle].
  - rewrite (u32_id (seq - last w)) by lia. destruct (Z.leb_spec (window w) (seq - last w)); simpl.
    + apply (mark_inv (with_last (with_mask w _) seq)); simpl; try done; try lia.
      * apply Hwf1; simpl; by rewrite ?length_replicate.
      * rewrite <- (inv_last _ _ HI). lia.
      * apply HI.
      * intros s Hsr Hd Hne. rewrite zero_mask_bit. pose proof (beyond_top _ _ s HI). naive_solver lia.
    + pose proof (Z.mod_pos_bound (last w - 1) (window w) ltac:(lia)) as Hp.
      rewrite (u32_id (last w - 1)), (u32_id (_ + 1)), (u32_id (_ - 1)) by lia.
      destruct (jump_inv w seen seq) as (w1 & -> & Ew1 & H'); auto; lia.
  - assert (last w - seq < window w ∧ seq ∉ seen) as [Hd Hni].
    { simpl in Hacc. by bool_props. }
    rewrite u32_id, bit_pos by (auto; lia).
    replace (last w - (last w - seq) - 1) with (seq - 1) by lia.
    apply mark_inv; try done; try lia.
    + rewrite <- (inv_last _ _ HI). lia.
    + apply HI.
    + intros. apply (inv_bits _ _ HI); lia.
Qed.

(** ** The theorems *)

(** C1: step refinement. On every state the window can reach and for every
    32-bit sequence number, [check] accepts exactly the numbers the specification
    accepts (ahead of everything seen, or inside the window and unseen), [commit]
    of an accepted number leads to a state that abstracts to the accepted set
    with that number added, and neither indexes past the mask. *)
Theorem step_refines w seen seq :
  Inv w seen → 0 ≤ seq < 2 ^ 32 →
  safe (check w seq) ∧
  is_ok (check w seq) = acceptable (window w) seen seq ∧
  (acceptable (window w) seen seq = true →
     ∃ w', commit w seq = Ok w' ∧ window w' = window w ∧ Inv w' (seq :: seen)).
Proof.
  intros HI Hs. destruct (check_spec w seen seq HI Hs). split_and!; [done..|].
  by apply commit_inv.
Qed.

Lemma receive_spec w seen seq :
  Inv w seen → 0 ≤ seq < 2 ^ 32 →
  ∃ w', receive w seq = Ok (acceptable (window w) seen seq, w') ∧ window w' = window w ∧
    Inv w' (if acceptable (window w) seen seq then seq :: seen else seen).
Proof.
  intros HI Hs. destruct (check_spec w seen seq HI Hs) as [Hsafe Hacc]. unfold receive.
  destruct (check w seq) as [[]| |]; simpl in *; [| |done].
  - destruct (commit_inv w seen seq) as (w' & -> & ? & ?); [done..|].
    rewrite <- Hacc. simpl. eauto.
  - rewrite <- Hacc. eauto.
Qed.

Lemma receiveAll_spec seqs : ∀ w seen,
  Inv w seen → Forall (λ s, 0 ≤ s < 2 ^ 32) seqs →
  ∃ w', receiveAll w seqs = Ok (acceptAll (window w) seen seqs, w').
Proof.
  induction seqs as [|s seqs IH]; intros w seen HI Hs; simpl; [eauto|].
  inversion Hs as [|?? Hs1 Hs2]; subst.
  destruct (receive_spec w seen s HI Hs1) as (w1 & -> & Hw1 & HI1). simpl.
  destruct (IH w1 _ HI1 Hs2) as (w2 & ->). simpl. rewrite Hw1.
  destruct (acceptable _ _ _); simpl; eauto.
Qed.

(** From a fresh window of any size up to the clamp, processing any list of
    received 32-bit sequence numbers (check, then commit when accepted) returns,
    and accepts exactly the list the specification accepts. *)
Theorem receiveAll_refines W seqs :
  0 < W ≤ MaxReplayWindow → Forall (λ s, 0 ≤ s < 2 ^ 32) seqs →
  ∃ w', receiveAll (newReplayWindow W) seqs = Ok (acceptAll W [] seqs, w').
Proof. intros HW Hs. apply receiveAll_spec; [by apply new_inv | done]. Qed.

Lemma acceptAll_fresh W seqs : ∀ seen,
  NoDup (acceptAll W seen seqs) ∧ ∀ s, s ∈ acceptAll W seen seqs → s ∉ seen.
Proof.
  induction seqs as [|s seqs IH]; intros seen; simpl; [split; [constructor | set_solver]|].
  destruct (acceptable W seen s) eqn:E; [|apply IH].
  destruct (IH (s :: seen)) as [HN HF]. unfold acceptable in E.
  apply andb_true_iff in E as [_ E]. assert (s ∉ seen) as Hs.
  { intros Hin. pose proof (top_ge _ _ Hin). apply orb_true_iff in E as [E|E]; bool_props; [lia|done]. }
  split; [constructor; [|done]; intros Hin; apply HF in Hin; set_solver|].
  intros x [->|Hx]%elem_of_cons; [done|]. apply HF in Hx. set_solver.
Qed.

(** With the window zero checking is off: whatever comes is accepted. *)
Lemma receiveAll_unchecked seqs : ∀ w, window w = 0 → receiveAll w seqs = Ok (seqs, w).
Proof.
  induction seqs as [|s seqs IH]; intros w Hw; [done|]. simpl. unfold receive, check, commit. rewrite Hw. simpl. by rewrite IH.
Qed.

(** C3: anti-replay. Whatever sequence numbers a peer sends, in whatever order, a
    window of positive size accepts no number twice; the window zero, which turns
    checking off, accepts everything. *)
Theorem replay_protection W seqs accepted w' :
  0 ≤ W ≤ MaxReplayWindow → Forall (λ s, 0 ≤ s < 2 ^ 32) seqs →
  receiveAll (newReplayWindow W) seqs = Ok (accepted, w') →
  (0 < W → NoDup accepted) ∧ (W = 0 → accepted = seqs).
Proof.
  intros HW Hs Hr. split.
  - intros Hpos. destruct (receiveAll_spec seqs (newReplayWindow W) []) as (w2 & Hr2); [by apply new_inv; lia | done |].
    rewrite Hr in Hr2. injection Hr2 as -> _. apply acceptAll_fresh.
  - intros ->. rewrite receiveAll_unchecked in Hr by done. by injection Hr as -> _.
Qed.

(** The two-partial-words-and-a-memclr routine [clearRange] clears exactly
    the [n] circular positions from [start], leaves every other bit, the window
    and the counter alone, and never indexes past the mask. *)
Theorem clearRange_exact w start n :
  wf w → 0 ≤ start ≤ window w → 0 ≤ n < window w →
  ∃ w', clearRange w start n = Ok w' ∧ window w' = window w ∧ last w' = last w ∧
    ∀ j, 0 ≤ j < window w →
      bit_at (mask w') j = bit_at (mask w) j && negb ((j - start) mod window w <? n).
Proof.
  intros Hwf Hs Hn. destruct (clearRange_spec w start n Hwf Hs Hn) as (w' & -> & []).
  eexists; split_and!; [done..|]. intros j Hj. rewrite cleared_bits0 by lia.
  by rewrite (proj2 (Z.ltb_lt j _)) by lia.
Qed.

(** ** Witnesses *)

Lemma step_refines_witness :
  ∃ w w', Inv w [] ∧ is_ok (check w 7) = true ∧ commit w 7 = Ok w' ∧ Inv w' [7].
Proof.
  assert (Inv (newReplayWindow 64) []) as HI by (apply new_inv; vm_compute; split; congruence).
  destruct (step_refines (newReplayWindow 64) [] 7 HI ltac:(lia)) as (_ & Hc & Hw).
  destruct (Hw eq_refl) as (w' & Hw' & _ & HI').
  exists (newReplayWindow 64), w'. split_and!; [exact HI | exact Hc | exact Hw' | exact HI'].
Defined.

Lemma receiveAll_refines_witness :
  ∃ w', receiveAll (newReplayWindow 100) [5; 3; 5; 200; 3; 150; 200; 0]
        = Ok ([5; 3; 200; 150], w').
Proof.
  destruct (receiveAll_refines 100 [5; 3; 5; 200; 3; 150; 200; 0]) as [w' H].
  - vm_compute. split; congruence.
  - repeat constructor; lia.
  - exists w'. exact H.
Defined.

Lemma replay_protection_witness :
  NoDup [5; 3; 200; 150].
Proof.
  eapply (replay_protection 100 [5; 3; 5; 200; 3; 150; 200; 0]).
  - vm_compute. split; congruence.
  - repeat constructor; lia.
  - vm_compute. reflexivity.
  - lia.
Defined.

Lemma clearRange_exact_witness :
  wf (mkReplayWindow 100 9 [Z.ones 64; Z.ones 36]) ∧
  ∃ w', clearRange (mkReplayWindow 100 9 [Z.ones 64; Z.ones 36]) 90 20 = Ok w' ∧
    bit_at (mask w') 9 = false ∧ bit_at (mask w') 10 = true.
Proof.
  assert (wf (mkReplayWindow 100 9 [Z.ones 64; Z.ones 36])) as Hwf
    by (split; simpl; vm_compute; intuition congruence).
  split; [exact Hwf|].
  destruct (clearRange_exact (mkReplayWindow 100 9 [Z.ones 64; Z.ones 36]) 90 20 Hwf)
    as (w' & H & _ & _ & Hb); [simpl; lia..|].
  exists w'. split; [exact H|]. split; rewrite Hb by (simpl; lia); reflexivity.
Defined.

End ReplayWindow.
