(* ===== verification/Esp.v ===== *)
(** * Userspace ESP, esp/sa.go, esp/esp.go and esp/inbound.go

    The data and the operations of package esp. Sealing writes into storage the
    caller sized, with the nonce in the same allocation, so the sealing routines
    are modelled over the backing array ([Store]); the receive side keeps its
    security associations behind pointers, so authenticated packets name an SA
    of a heap.

    The two AEAD constructions live outside the repository. [AEAD] is what
    crypto/cipher's interface offers, [Crypto] the two constructors the package
    calls, and [CryptoLaws] what their documentation promises. *)

From S2P Require Import Prelude Replay Store.
Import ReplayWindow.

(** ** crypto/cipher.AEAD *)

Record AEAD := mkAEAD {
  NonceSize : nat;
  aeadSeal : list Z → list Z → list Z → res (list Z);
  aeadOpen : list Z → list Z → list Z → res (list Z)
}.

(** [aeadSeal nonce plain aad]. A nonce of the wrong length panics; otherwise
    sealing appends a 16-byte tag, and opening accepts exactly what sealing
    produces under the same nonce and associated data. *)
Record aead_ok (a : AEAD) : Prop := {
  nonce_size : NonceSize a = 12%nat;
  seal_total : ∀ nonce plain aad,
    length nonce = 12%nat → Z.of_nat (length plain) < 2 ^ 32 →
    ∃ c, aeadSeal a nonce plain aad = Ok c ∧ length c = (length plain + 16)%nat ∧
         aeadOpen a nonce c aad = Ok plain;
  open_safe : ∀ nonce c aad, length nonce = 12%nat → safe (aeadOpen a nonce c aad);
  open_sealed : ∀ nonce c aad plain,
    length nonce = 12%nat → aeadOpen a nonce c aad = Ok plain → aeadSeal a nonce plain aad = Ok c;
  open_plain : ∀ nonce c aad plain,
    length nonce = 12%nat → aeadOpen a nonce c aad = Ok plain →
    length c = (length plain + 16)%nat ∧ (bytes_ok c → bytes_ok plain)
}.

Class Crypto := {
  NewAESGCM : list Z → res AEAD;
  NewChaCha20Poly1305 : list Z → res AEAD
}.

Class CryptoLaws (C : Crypto) : Prop := {
  aesgcm_ok key : length key = 16%nat ∨ length key = 24%nat ∨ length key = 32%nat →
    ∃ a, NewAESGCM key = Ok a ∧ aead_ok a;
  chacha_ok key : length key = 32%nat → ∃ a, NewChaCha20Poly1305 key = Ok a ∧ aead_ok a
}.

(** ** Data *)

Record ChildSA := mkChildSA {
  EncrID : Z;
  EncrKeyBits : Z;
  LocalSPI : Z;
  RemoteSPI : Z;
  InboundKey : list Z;
  OutboundKey : list Z
}.

Definition ENCRAESGCM16 : Z := 20.
Definition ENCRChaCha20Poly1305 : Z := 28.

Record aeadParams := mkParams { keyLen : nat; saltLen : nat; IVLen : nat; ICVLen : nat }.

Definition NextHeaderIPv4 : Z := 4.
Definition NextHeaderIPv6 : Z := 41.
Definition NextHeaderNone : Z := 59.
Definition headerLen : nat := 8.
Definition ProactiveRekeySequence : Z := 0xffffffff - Z.shiftl 1 28.

(** [onRekey] is the callback of [SetRekeyCallback], present or nil; a call of it
    is reported in the result of the reservation that makes it. *)
Record OutboundSA := mkOutbound {
  oaead : AEAD;
  oparams : aeadParams;
  osalt : list Z;
  ospi : Z;
  seq : Z;
  onRekey : bool
}.

(** A range reads only the fields of its SA that never change, so it may hold
    them by value; [None] is the nil pointer. *)
Record SequenceRange := mkRange { rsa : option OutboundSA; next : Z; end_ : Z }.

Record InboundSA := mkInbound {
  iaead : AEAD;
  iparams : aeadParams;
  isalt : list Z;
  ispi : Z;
  iwindow : replayWindow
}.

(** Pointers to inbound SAs, and the heap they point into. *)
Abbreviation saPtr := nat (only parsing).
Abbreviation heap := (gmap nat InboundSA) (only parsing).

Record AuthenticatedPacket := mkAuth {
  psa : option saPtr;
  pseq : Z;
  committed : bool;
  nextHeader : Z;
  plain : list Z;
  perr : option string
}.

Definition ErrSequenceExhausted : string :=
  "esp: sequence number space exhausted, SA must be re-established".
Definition errUnauthenticated : string := "esp: packet was not authenticated".
Definition errUncommitted : string := "esp: packet replay check was not committed".
Definition errCommitted : string := "esp: packet was already committed".

(** ** esp/sa.go *)

Section constructors.
Context `{C : Crypto}.

Definition newESPAEAD (id bits : Z) (key : list Z) : res (AEAD * aeadParams) :=
  if id =? ENCRAESGCM16 then
    let p := mkParams (Z.to_nat (bits / 8)) 4 8 16 in
    if negb (keyLen p =? 16)%nat && negb (keyLen p =? 24)%nat && negb (keyLen p =? 32)%nat
    then Err "esp: invalid AES-GCM key length"
    else if negb (length key =? keyLen p + saltLen p)%nat
    then Err "esp: key length does not match suite"
    else
      k ← slice key 0 (keyLen p);
      a ← NewAESGCM k;
      Ok (a, p)
  else if id =? ENCRChaCha20Poly1305 then
    let p := mkParams 32 4 8 16 in
    if negb (bits =? 0) && negb (bits =? 256)
    then Err "esp: invalid ChaCha20-Poly1305 key length"
    else if negb (length key =? keyLen p + saltLen p)%nat
    then Err "esp: key length does not match suite"
    else
      k ← slice key 0 (keyLen p);
      a ← NewChaCha20Poly1305 k;
      Ok (a, p)
  else Err "esp: unsupported encryption transform".

Definition NewOutbound (child : ChildSA) : res OutboundSA :=
  ap ← newESPAEAD (EncrID child) (EncrKeyBits child) (OutboundKey child);
  salt ← from (OutboundKey child) (keyLen ap.2);
  Ok (mkOutbound ap.1 ap.2 salt (RemoteSPI child) 0 false).

(** An option is a function on the SA under construction. *)
Definition WithReplayWindow (window : Z) (inb : InboundSA) : InboundSA :=
  mkInbound (iaead inb) (iparams inb) (isalt inb) (ispi inb)
    (newReplayWindow (Z.min window MaxReplayWindow)).

Definition NewInbound (child : ChildSA) (options : list (InboundSA → InboundSA)) : res InboundSA :=
  ap ← newESPAEAD (EncrID child) (EncrKeyBits child) (InboundKey child);
  salt ← from (InboundKey child) (keyLen ap.2);
  Ok (fold_left (fun inb option => option inb) options
        (mkInbound ap.1 ap.2 salt (LocalSPI child) (newReplayWindow DefaultReplayWindow))).

End constructors.

Definition SetRekeyCallback (o : OutboundSA) : OutboundSA :=
  mkOutbound (oaead o) (oparams o) (osalt o) (ospi o) (seq o) true.

(** ** esp/esp.go: sealing *)

Definition with_seq (o : OutboundSA) (s : Z) : OutboundSA :=
  mkOutbound (oaead o) (oparams o) (osalt o) (ospi o) s (onRekey o).

(** The SA after the reservation, whether the rekey callback was called, and the
    reserved numbers, first and last. The counter advances on every outcome but
    the invalid count. *)
Definition reserveSequenceNumbers (o : OutboundSA) (count : Z) : OutboundSA * bool * res (Z * Z) :=
  if count <=? 0 then (o, false, Err "esp: sequence range must contain at least one packet")
  else
    let n := u64 count in
    let e := u64 (seq o + n) in
    let first := u64 (u64 (e - n) + 1) in
    (with_seq o e, (ProactiveRekeySequence <=? e) && onRekey o,
     if 0xffffffff <? e then Err ErrSequenceExhausted else Ok (first, e)).

Definition ReserveSequenceRange (o : OutboundSA) (count : Z) : OutboundSA * bool * res SequenceRange :=
  match reserveSequenceNumbers o count with
  | (o', asked, r) => (o', asked, fe ← r; Ok (mkRange (Some o') fe.1 fe.2))
  end.

Definition trailerLen : nat := 2.

Definition sealedLen (o : OutboundSA) (innerLen : nat) : nat :=
  let padLen := ((4 - (innerLen + trailerLen) mod 4) mod 4)%nat in
  (headerLen + IVLen (oparams o) + innerLen + padLen + trailerLen + ICVLen (oparams o))%nat.

(** [for i := 1; i <= padLen; i++ { plain[len(innerIPPacket)+i-1] = byte(i) }],
    with [plain] the [n] bytes of [s] at [lo]. *)
Fixpoint padLoop (s : list Z) (lo n innerLen : nat) (i left : nat) : res (list Z) :=
  match left with
  | O => Ok s
  | S left' =>
      s ← putByte s lo n (innerLen + i - 1) (u8 (Z.of_nat i));
      padLoop s lo n innerLen (S i) left'
  end.

(** [dst] is [store[:start]] with the capacity of [store], [nonce] is
    [store[nonceOff:nonceOff+nonceLen]]. Returns the array and the length of the
    returned slice. Encrypting in place overwrites the plaintext; an AEAD output
    that does not fit the capacity would make the last reslice panic. *)
Definition appendSealed (o : OutboundSA) (store : list Z) (start nonceOff nonceLen : nat)
    (inner : list Z) (nh seq : Z) : res (list Z * nat) :=
  let total := (length inner + trailerLen)%nat in
  let padLen := ((4 - total mod 4) mod 4)%nat in
  let framingLen := (headerLen + IVLen (oparams o))%nat in
  let plainLen := (length inner + padLen + trailerLen)%nat in
  let packetLen := (framingLen + plainLen + ICVLen (oparams o))%nat in
  if (length store <? start + packetLen)%nat then Panic
  else
    s ← putBE 4 store start (start + 4) (ospi o);
    s ← putBE 4 s (start + 4) (start + 8) (u32 seq);
    s ← putBE 8 s (start + 8) (start + framingLen) seq;
    let plainOff := (start + framingLen)%nat in
    s ← copyAt s plainOff (plainOff + plainLen) inner;
    s ← padLoop s plainOff plainLen (length inner) 1 padLen;
    s ← putByte s plainOff plainLen (plainLen - 2) (u8 (Z.of_nat padLen));
    s ← putByte s plainOff plainLen (plainLen - 1) nh;
    s ← copyAt s nonceOff (nonceOff + nonceLen) (osalt o);
    iv ← slice s (start + headerLen) (start + framingLen);
    s ← copyAt s (nonceOff + length (osalt o)) (nonceOff + nonceLen) iv;
    nonce ← slice s nonceOff (nonceOff + nonceLen);
    pt ← slice s plainOff (plainOff + plainLen);
    aad ← slice s start (start + headerLen);
    ct ← aeadSeal (oaead o) nonce pt aad;
    if (length s <? plainOff + length ct)%nat then Panic
    else Ok (overwrite s plainOff ct, (plainOff + length ct)%nat).

(** The body [OutboundSA.Seal] and [SequenceRange.Seal] share: one allocation
    with the nonce in front of the packet. *)
Definition sealOne (o : OutboundSA) (inner : list Z) (nh seq : Z) : res (list Z) :=
  let nonceLen := NonceSize (oaead o) in
  let storage := replicate (nonceLen + sealedLen o (length inner)) 0 in
  r ← appendSealed o storage nonceLen 0 nonceLen inner nh seq;
  slice r.1 nonceLen r.2.

Definition Seal (o : OutboundSA) (inner : list Z) (nh : Z) : OutboundSA * bool * res (list Z) :=
  match reserveSequenceNumbers o 1 with
  | (o', asked, r) => (o', asked, fe ← r; sealOne o' inner nh fe.1)
  end.

(** [SequenceRange.Seal] *)
Definition rangeSeal (r : option SequenceRange) (inner : list Z) (nh : Z) :
    option SequenceRange * res (list Z) :=
  match r with
  | Some (mkRange (Some o) next end_) =>
      if end_ <? next then (r, Err "esp: reserved sequence range exhausted")
      else (Some (mkRange (Some o) (u64 (next + 1)) end_), sealOne o inner nh next)
  | _ => (r, Err "esp: reserved sequence range exhausted")
  end.

(** The [reuse] argument of [SealBatchInto]: the first [vlen] entries of the
    backing array [vec] of the packet vector, each an (offset, length) slice of
    [bytes], the storage from the start of the first packet to its capacity. *)
Record batch := mkBatch { vec : list (option (nat * nat)); vlen : nat; bytes : list Z }.
Definition batchNil : batch := mkBatch [] 0 [].

Fixpoint sealLoop (o : OutboundSA) (store : list Z) (start nonceOff nonceLen : nat)
    (packets : list (list Z)) (nextHeaders : list Z) (i : nat) (next : Z)
    (sealed : list (option (nat * nat))) : res (list Z * Z * list (option (nat * nat))) :=
  match packets with
  | [] => Ok (store, next, sealed)
  | packet :: rest =>
      nh ← idx nextHeaders i;
      r ← appendSealed o store start nonceOff nonceLen packet nh next;
      if (i <? length sealed)%nat
      then sealLoop o r.1 r.2 nonceOff nonceLen rest nextHeaders (S i) (u64 (next + 1))
             (<[i := Some (start, (r.2 - start)%nat)]> sealed)
      else Panic
  end.

Definition SealBatchInto (r : option SequenceRange) (packets : list (list Z))
    (nextHeaders : list Z) (reuse : batch) : res (SequenceRange * batch) :=
  match r with
  | Some (mkRange (Some o) next end_) =>
      if negb (length packets =? length nextHeaders)%nat then Err "esp: invalid sequence batch"
      else if (end_ <? next) || negb (Z.of_nat (length packets) =? u64 (u64 (end_ - next) + 1))
      then Err "esp: sequence batch and range differ"
      else
        let total := fold_left (fun acc p => (acc + sealedLen o (length p))%nat) packets 0%nat in
        let nonceLen := NonceSize (oaead o) in
        let storage := if (vlen reuse =? 0)%nat then [] else bytes reuse in
        let storage := if (length storage <? total + nonceLen)%nat
                       then replicate (total + nonceLen) 0 else storage in
        let sealed := if (length (vec reuse) <? length packets)%nat
                      then replicate (length packets) None else take (length packets) (vec reuse) in
        let beyond := if (length (vec reuse) <? length packets)%nat then []
                      else replicate (vlen reuse - length packets) None
                           ++ drop (Nat.max (vlen reuse) (length packets)) (vec reuse) in
        '(storage, next, sealed) ← sealLoop o storage 0 total nonceLen packets nextHeaders 0 next sealed;
        Ok (mkRange (Some o) next end_, mkBatch (sealed ++ beyond) (length packets) storage)
  | _ => Err "esp: invalid sequence batch"
  end.

Definition SealBatch (r : option SequenceRange) (packets : list (list Z)) (nextHeaders : list Z) :
    res (SequenceRange * batch) := SealBatchInto r packets nextHeaders batchNil.

(** The packets a batch result holds. *)
Definition packetsOf (b : batch) : list (option (list Z)) :=
  (λ e, ol ← e; Some (read (bytes b) ol.1 ol.2)) <$> take (vlen b) (vec b).

(** ** esp/inbound.go *)

Definition checkHeader (inb : InboundSA) (pkt : list Z) : res Z :=
  if (length pkt <? headerLen + IVLen (iparams inb) + ICVLen (iparams inb))%nat
  then Err "esp: packet too short"
  else
    spi ← get_be 4 pkt 0;
    if negb (spi =? ispi inb) then Err "esp: SPI mismatch" else get_be 4 pkt 4.

(** The nonce buffer is written before the AEAD runs and is kept by the caller,
    so it is returned too. [inPlace] chooses where the plaintext is stored, not
    what it is: the caller owns the packet's bytes and gives them up. *)
Definition decrypt (inb : InboundSA) (pkt : list Z) (inPlace : bool) (nonce : list Z) :
    res (list Z * res (list Z)) :=
  iv ← slice pkt headerLen (headerLen + IVLen (iparams inb));
  ciphertext ← from pkt (headerLen + IVLen (iparams inb));
  let nonce := gocopy nonce (isalt inb) in
  nonce ← copyAt nonce (length (isalt inb)) (length nonce) iv;
  aad ← slice pkt 0 headerLen;
  match aeadOpen (iaead inb) nonce ciphertext aad with
  | Ok p => Ok (nonce, Ok p)
  | Err _ => Ok (nonce, Err "esp: authentication failed")
  | Panic => Panic
  end.

Definition zeroNonce : list Z := replicate 12 0.

(** [p] is the pointer [in]. *)
Definition authenticate (p : saPtr) (inb : InboundSA) (pkt : list Z) (inPlace : bool) :
    res AuthenticatedPacket :=
  seq ← checkHeader inb pkt;
  _ ← check (iwindow inb) seq;
  np ← decrypt inb pkt inPlace zeroNonce;
  pl ← np.2;
  Ok (mkAuth (Some p) seq false 0 pl None).

Definition Authenticate p inb pkt := authenticate p inb pkt false.
Definition AuthenticateInPlace p inb pkt := authenticate p inb pkt true.

(** The first loop of [AuthenticateBatchInPlace], one packet of it: [err] holds
    the error of the header or of the window check, [seq] what the header gave. *)
Definition precheck (p : saPtr) (inb : InboundSA) (pkt : list Z) : res AuthenticatedPacket :=
  match checkHeader inb pkt with
  | Panic => Panic
  | Err e => Ok (mkAuth (Some p) 0 false 0 [] (Some e))
  | Ok seq =>
      match check (iwindow inb) seq with
      | Panic => Panic
      | Err e => Ok (mkAuth (Some p) seq false 0 [] (Some e))
      | Ok _ => Ok (mkAuth (Some p) seq false 0 [] None)
      end
  end.

Fixpoint precheckAll (p : saPtr) (inb : InboundSA) (packets : list (list Z)) :
    res (list AuthenticatedPacket) :=
  match packets with
  | [] => Ok []
  | pkt :: rest => a ← precheck p inb pkt; r ← precheckAll p inb rest; Ok (a :: r)
  end.

(** The second loop: the nonce buffer is threaded through the batch. *)
Fixpoint decryptAll (inb : InboundSA) (batch : list AuthenticatedPacket) (packets : list (list Z))
    (nonce : list Z) : res (list AuthenticatedPacket) :=
  match batch, packets with
  | a :: batch, pkt :: packets =>
      match perr a with
      | Some _ => r ← decryptAll inb batch packets nonce; Ok (a :: r)
      | None =>
          np ← decrypt inb pkt true nonce;
          a' ← match np.2 with
               | Ok pl => Ok (mkAuth (psa a) (pseq a) (committed a) (nextHeader a) pl None)
               | Err e => Ok (mkAuth (psa a) (pseq a) (committed a) (nextHeader a) [] (Some e))
               | Panic => Panic
               end;
          r ← decryptAll inb batch packets np.1;
          Ok (a' :: r)
      end
  | [], _ => Ok []
  | _ :: _, [] => Panic
  end.

Definition AuthenticateBatchInPlace (p : saPtr) (inb : InboundSA) (packets : list (list Z))
    (results : list AuthenticatedPacket) : res (list AuthenticatedPacket) :=
  batch ← precheckAll p inb packets;
  batch ← decryptAll inb batch packets zeroNonce;
  Ok (results ++ batch).

(** [for i, value := range pad { if value != byte(i+1) ... }] *)
Fixpoint padOK (pad : list Z) (i : nat) : bool :=
  match pad with
  | [] => true
  | value :: rest => (value =? u8 (Z.of_nat i + 1)) && padOK rest (S i)
  end.

Definition parseTrailer (plain : list Z) : res (list Z * Z) :=
  let n := length plain in
  if (n <? 2)%nat then Err "esp: plaintext too short"
  else if negb (n mod 4 =? 0)%nat then Err "esp: plaintext length is not four-byte aligned"
  else
    pad ← idx plain (n - 2);
    nh ← idx plain (n - 1);
    let padLen := Z.to_nat pad in
    if (n <? padLen + 2)%nat then Err "esp: invalid padding"
    else
      padding ← slice plain (n - 2 - padLen) (n - 2);
      if negb (padOK padding 0) then Err "esp: invalid padding contents"
      else body ← slice plain 0 (n - 2 - padLen); Ok (body, nh).

Definition set_err (p : AuthenticatedPacket) (e : string) : AuthenticatedPacket :=
  mkAuth (psa p) (pseq p) (committed p) (nextHeader p) (plain p) (Some e).

Definition with_window (inb : InboundSA) (w : replayWindow) : InboundSA :=
  mkInbound (iaead inb) (iparams inb) (isalt inb) (ispi inb) w.

(** Dereferencing a pointer that is not nil and not in the heap cannot happen in
    Go; the model treats it as a panic. *)
Definition commitLocked (h : heap) (p : AuthenticatedPacket) : res (heap * AuthenticatedPacket) :=
  if committed p then Ok (h, set_err p errCommitted)
  else
    let p := mkAuth (psa p) (pseq p) true (nextHeader p) (plain p) (perr p) in
    match perr p with
    | Some _ => Ok (h, p)
    | None =>
        match psa p with
        | None => Ok (h, set_err p errUnauthenticated)
        | Some a =>
            inb ← match h !! a with Some inb => Ok inb | None => Panic end;
            match check (iwindow inb) (pseq p) with
            | Panic => Panic
            | Err e => Ok (h, set_err p e)
            | Ok _ =>
                w ← commit (iwindow inb) (pseq p);
                let h := <[a := with_window inb w]> h in
                match parseTrailer (plain p) with
                | Panic => Panic
                | Ok (body, nh) => Ok (h, mkAuth (psa p) (pseq p) true nh body None)
                | Err e => Ok (h, mkAuth (psa p) (pseq p) true 0 [] (Some e))
                end
            end
        end
    end.

(** [for end < len(packets) && packets[end].sa == sa { end++ }] from 1. *)
Fixpoint runLength (sa : option saPtr) (packets : list AuthenticatedPacket) : nat :=
  match packets with
  | [] => 0
  | p :: rest => if decide (psa p = sa) then S (runLength sa rest) else 0
  end.

Fixpoint commitRun (h : heap) (packets : list AuthenticatedPacket) :
    res (heap * list AuthenticatedPacket) :=
  match packets with
  | [] => Ok (h, [])
  | p :: rest =>
      hp ← commitLocked h p;
      hr ← commitRun hp.1 rest;
      Ok (hr.1, hp.2 :: hr.2)
  end.

(** The outer loop takes one run off the front at every turn; [fuel] bounds the
    turns by the number of packets. *)
Fixpoint commitLoop (fuel : nat) (h : heap) (packets : list AuthenticatedPacket) :
    res (heap * list AuthenticatedPacket) :=
  match packets with
  | [] => Ok (h, [])
  | p :: rest =>
      match fuel with
      | O => Panic
      | S fuel' =>
          let e := S (runLength (psa p) rest) in
          hr ← commitRun h (take e packets);
          hs ← commitLoop fuel' hr.1 (drop e packets);
          Ok (hs.1, hr.2 ++ hs.2)
      end
  end.

Definition CommitBatch (h : heap) (packets : list AuthenticatedPacket) :
    res (heap * list AuthenticatedPacket) := commitLoop (length packets) h packets.

Definition Plaintext (p : option AuthenticatedPacket) : res (list Z * Z) :=
  match p with
  | None => Err errUncommitted
  | Some p =>
      if negb (committed p) then Err errUncommitted
      else match perr p with
           | Some e => Err e
           | None => Ok (plain p, nextHeader p)
           end
  end.

(** The committed state, and what the caller gets. *)
Definition Commit (h : heap) (p : option AuthenticatedPacket) :
    res (heap * option AuthenticatedPacket * res (list Z * Z)) :=
  match p with
  | None => Ok (h, None, Err errUnauthenticated)
  | Some p =>
      hp ← commitLocked h p;
      Ok (hp.1, Some hp.2, Plaintext (Some hp.2))
  end.

Definition Open (h : heap) (p : saPtr) (pkt : list Z) : res (heap * res (list Z * Z)) :=
  inb ← match h !! p with Some inb => Ok inb | None => Panic end;
  match Authenticate p inb pkt with
  | Panic => Panic
  | Err e => Ok (h, Err e)
  | Ok a => r ← Commit h (Some a); Ok (r.1.1, r.2)
  end.
