(* ===== verification/EspSeal.v ===== *)
(** * Sealing: what the outbound side of package esp puts on the wire

    [espPacket] is the packet format of RFC 4303 with the AEAD of the SA as a
    list of bytes. The routines that build packets in place, [appendSealed] and
    the batch form with recycled storage, produce exactly that. [seqs] describes
    which sequence numbers any number of reservations hand out. *)

From S2P Require Import Prelude Replay Store Esp.
Import ReplayWindow.

(** ** The packet format *)

Definition padLenOf (n : nat) : nat := ((4 - (n + trailerLen) mod 4) mod 4)%nat.

(** 1, 2, 3, ... *)
Definition padding (i n : nat) : list Z := (λ k, u8 (Z.of_nat k)) <$> List.seq i n.

Definition espTrailer (inner : list Z) (nh : Z) : list Z :=
  padding 1 (padLenOf (length inner)) ++ [u8 (Z.of_nat (padLenOf (length inner))); nh].

Definition espHeader (spi seq : Z) : list Z := be_to 4 spi ++ be_to 4 (u32 seq).

Definition espNonce (salt : list Z) (seq : Z) : list Z := salt ++ be_to 8 seq.

(** The packet for one inner packet, when the AEAD seals it. *)
Definition espPacket (o : OutboundSA) (inner : list Z) (nh seq : Z) : res (list Z) :=
  ct ← aeadSeal (oaead o) (espNonce (osalt o) seq) (inner ++ espTrailer inner nh) (espHeader (ospi o) seq);
  Ok (espHeader (ospi o) seq ++ be_to 8 seq ++ ct).

(** What the constructors establish and every operation keeps. *)
Record outbound_ok (o : OutboundSA) : Prop := {
  out_aead : aead_ok (oaead o);
  out_iv : IVLen (oparams o) = 8%nat;
  out_icv : ICVLen (oparams o) = 16%nat;
  out_salt : length (osalt o) = 4%nat
}.

(** An inner packet a 64-bit process can hold and the AEADs accept. *)
Definition inner_ok (inner : list Z) : Prop := Z.of_nat (length inner) < 2 ^ 31.

Lemma padLenOf_lt n : (padLenOf n < 4)%nat.
Proof. apply Nat.mod_upper_bound. lia. Qed.

(** The padding aligns the plaintext to four bytes. *)
Lemma padLenOf_aligned n : ((n + padLenOf n + 2) mod 4 = 0)%nat.
Proof.
  unfold padLenOf, trailerLen. pose proof (Nat.div_mod_eq (n + 2)%nat 4).
  pose proof (Nat.mod_upper_bound (n + 2)%nat 4).
  destruct (Nat.eq_dec ((n + 2) mod 4)%nat 0%nat) as [E|E].
  - rewrite E. change ((4 - 0) mod 4)%nat with 0%nat. by rewrite Nat.add_0_r.
  - rewrite (Nat.mod_small (4 - _)%nat) by lia.
    replace (n + (4 - (n + 2) mod 4) + 2)%nat with (((n + 2) / 4 + 1) * 4)%nat by lia.
    apply Nat.Div0.mod_mul.
Qed.

Lemma length_padding i n : length (padding i n) = n.
Proof. unfold padding. by rewrite length_fmap, length_seq. Qed.

Lemma length_espHeader spi seq : length (espHeader spi seq) = 8%nat.
Proof. unfold espHeader. by rewrite length_app, !length_be_to. Qed.

Lemma length_espTrailer inner nh : length (espTrailer inner nh) = (padLenOf (length inner) + 2)%nat.
Proof. unfold espTrailer. rewrite length_app, length_padding. simpl. lia. Qed.

Lemma sealedLen_eq o n :
  outbound_ok o → sealedLen o n = (8 + 8 + (n + padLenOf n + 2) + 16)%nat.
Proof. intros [_ H1 H2 _]. unfold sealedLen, padLenOf, headerLen, trailerLen. rewrite H1, H2. lia. Qed.

Lemma espPacket_ok o inner nh seq :
  outbound_ok o → inner_ok inner →
  ∃ ct, aeadSeal (oaead o) (espNonce (osalt o) seq) (inner ++ espTrailer inner nh)
          (espHeader (ospi o) seq) = Ok ct ∧
    length ct = (length inner + padLenOf (length inner) + 2 + 16)%nat ∧
    espPacket o inner nh seq = Ok (espHeader (ospi o) seq ++ be_to 8 seq ++ ct).
Proof.
  intros [Ha _ _ Hs] Hi. unfold inner_ok in Hi. pose proof (padLenOf_lt (length inner)).
  destruct (seal_total _ Ha (espNonce (osalt o) seq) (inner ++ espTrailer inner nh)
    (espHeader (ospi o) seq)) as (ct & Hct & Hl & _).
  { unfold espNonce. rewrite length_app, length_be_to, Hs. done. }
  { rewrite length_app, length_espTrailer. lia. }
  exists ct. rewrite length_app, length_espTrailer in Hl. split_and!; [done | lia |].
  unfold espPacket. by rewrite Hct.
Qed.

(** ** Building a packet in place *)

Lemma padLoop_spec left : ∀ s lo n innerLen i pre,
  (length pre = innerLen + i - 1)%nat → (1 ≤ i)%nat → (innerLen + i - 1 + left ≤ n)%nat →
  (lo + n ≤ length s)%nat →
  padLoop (overwrite s lo pre) lo n innerLen i left = Ok (overwrite s lo (pre ++ padding i left)).
Proof.
  induction left as [|left IH]; intros s lo n innerLen i pre Hp Hi Hn Hl; cbn [padLoop].
  { unfold padding. simpl. by rewrite app_nil_r. }
  rewrite putByte_ok by (rewrite ?length_overwrite; lia). rbind.
  rewrite <- Hp, overwrite_app by (rewrite length_app; simpl; lia).
  rewrite IH by (rewrite ?length_app; simpl; lia).
  unfold padding. cbn [List.seq]. rewrite fmap_cons, <- app_assoc. done.
Qed.

(** [nonce] and packet occupy disjoint ranges of the storage. *)
Definition apart (start len nonceOff nonceLen : nat) : Prop :=
  (nonceOff + nonceLen ≤ start ∨ start + len ≤ nonceOff)%nat.

(** The bytes of a packet before encryption. *)
Definition framed (o : OutboundSA) (inner : list Z) (nh seq : Z) : list Z :=
  espHeader (ospi o) seq ++ be_to 8 seq ++ (inner ++ espTrailer inner nh).

Lemma length_framed o inner nh seq :
  length (framed o inner nh seq) = (16 + (length inner + padLenOf (length inner) + 2))%nat.
Proof. unfold framed. rewrite !length_app, length_espHeader, length_be_to, length_espTrailer. lia. Qed.

(** Reading the parts of a framed packet back. *)
Lemma framed_parts o s start inner nh seq :
  (start + length (framed o inner nh seq) ≤ length s)%nat →
  let s' := overwrite s start (framed o inner nh seq) in
  read s' start 8 = espHeader (ospi o) seq ∧ read s' (start + 8) 8 = be_to 8 seq ∧
  read s' (start + 16) (length inner + padLenOf (length inner) + 2) = inner ++ espTrailer inner nh.
Proof.
  intros H s'. pose proof (length_espHeader (ospi o) seq) as He. split_and!.
  - pose proof (read_overwrite_part s start [] _ (be_to 8 seq ++ inner ++ espTrailer inner nh) H) as P.
    by rewrite Nat.add_0_r, He in P.
  - pose proof (read_overwrite_part s start _ (be_to 8 seq) (inner ++ espTrailer inner nh) H) as P.
    by rewrite He, length_be_to in P.
  - pose proof (read_overwrite_part s start (espHeader (ospi o) seq ++ be_to 8 seq)
      (inner ++ espTrailer inner nh) []) as P.
    assert (length (espHeader (ospi o) seq ++ be_to 8 seq) = 16%nat) as E by slen.
    rewrite E, app_nil_r, <- app_assoc in P. specialize (P H).
    by rewrite (length_app inner), length_espTrailer, Nat.add_assoc in P.
Qed.

(** Every write of [appendSealed] before the nonce, as one write. *)
Lemma frame_writes {B} (k : list Z → res B) o s start inner nh seq :
  (start + (16 + (length inner + padLenOf (length inner) + 2)) ≤ length s)%nat →
  (s ← putBE 4 s start (start + 4) (ospi o);
   s ← putBE 4 s (start + 4) (start + 8) (u32 seq);
   s ← putBE 8 s (start + 8) (start + 16) seq;
   s ← copyAt s (start + 16) (start + 16 + (length inner + padLenOf (length inner) + 2)) inner;
   s ← padLoop s (start + 16) (length inner + padLenOf (length inner) + 2) (length inner) 1 (padLenOf (length inner));
   s ← putByte s (start + 16) (length inner + padLenOf (length inner) + 2)
         (length inner + padLenOf (length inner) + 2 - 2) (u8 (Z.of_nat (padLenOf (length inner))));
   s ← putByte s (start + 16) (length inner + padLenOf (length inner) + 2)
         (length inner + padLenOf (length inner) + 2 - 1) nh;
   k s) = k (overwrite s start (framed o inner nh seq)).
Proof.
  intros H. set (pl := padLenOf (length inner)) in *.
  rewrite putBE_ok by slen. rbind.
  rewrite putBE_ok by slen. rbind.
  replace (start + 4)%nat with (start + length (be_to 4 (ospi o)))%nat by slen.
  rewrite overwrite_app by slen. fold (espHeader (ospi o) seq).
  pose proof (length_espHeader (ospi o) seq) as He.
  rewrite putBE_ok by slen. rbind.
  replace (start + 8)%nat with (start + length (espHeader (ospi o) seq))%nat by slen.
  rewrite overwrite_app by slen. set (h := espHeader (ospi o) seq ++ be_to 8 seq).
  assert (length h = 16%nat) as Hh by (unfold h; slen).
  rewrite copyAt_ok by slen. rbind.
  rewrite padLoop_spec by slen. rbind.
  set (b := inner ++ padding 1 pl).
  assert (length b = (length inner + pl)%nat) as Hb by (unfold b; rewrite length_app, length_padding; done).
  rewrite putByte_ok by slen. rbind.
  replace (start + 16 + (length inner + pl + 2 - 2))%nat with (start + 16 + length b)%nat by lia.
  rewrite overwrite_app by slen. rewrite putByte_ok by slen. rbind.
  replace (start + 16 + (length inner + pl + 2 - 1))%nat
    with (start + 16 + length (b ++ [u8 (Z.of_nat pl)]))%nat by slen.
  rewrite overwrite_app by slen. rewrite <- Hh, overwrite_app by slen.
  unfold framed, espTrailer, h, b, pl. by rewrite <- !app_assoc.
Qed.

(** What a call of [appendSealed] does to the storage: the packet appears at
    [start], and no range that meets neither it nor the nonce changes. *)
Record sealed_at (s s' : list Z) (start len nonceOff : nat) (pkt : list Z) : Prop := {
  sealed_length : length s' = length s;
  sealed_packet : read s' start len = pkt;
  sealed_frame : ∀ lo n, apart lo n start len → apart lo n nonceOff 12 → read s' lo n = read s lo n
}.

Lemma appendSealed_spec o s start nonceOff inner nh seq :
  outbound_ok o → inner_ok inner →
  (start + sealedLen o (length inner) ≤ length s)%nat → (nonceOff + 12 ≤ length s)%nat →
  apart start (sealedLen o (length inner)) nonceOff 12 →
  ∃ pkt s', espPacket o inner nh seq = Ok pkt ∧ length pkt = sealedLen o (length inner) ∧
    appendSealed o s start nonceOff 12 inner nh seq = Ok (s', (start + sealedLen o (length inner))%nat) ∧
    sealed_at s s' start (sealedLen o (length inner)) nonceOff pkt.
Proof.
  intros Hok Hi Hcap Hn Hap. destruct (espPacket_ok o inner nh seq Hok Hi) as (ct & Hct & Hlc & Hp).
  rewrite (sealedLen_eq o _ Hok) in *. destruct Hok as [Ha Hiv Hicv Hsalt].
  pose proof (length_espHeader (ospi o) seq) as He.
  set (pl := padLenOf (length inner)) in *.
  assert (length (framed o inner nh seq) = 16 + (length inner + pl + 2))%nat as Hfr by apply length_framed.
  remember (framed o inner nh seq) as fr eqn:Efr.
  remember (overwrite (overwrite s start fr) nonceOff (osalt o ++ be_to 8 seq)) as s1 eqn:Es1.
  assert (length s1 = length s) as Hs1 by (rewrite Es1; slen).
  exists (espHeader (ospi o) seq ++ be_to 8 seq ++ ct), (overwrite s1 (start + 16) ct).
  assert (read s1 nonceOff 12 = osalt o ++ be_to 8 seq) as R0.
  { replace 12%nat with (length (osalt o ++ be_to 8 seq)) by slen. rewrite Es1. apply read_overwrite. slen. }
  assert (read s1 start 8 = espHeader (ospi o) seq ∧ read s1 (start + 8) 8 = be_to 8 seq ∧
    read s1 (start + 16) (length inner + pl + 2) = inner ++ espTrailer inner nh) as (R1 & R2 & R3).
  { unfold apart in Hap. rewrite Es1, !(read_overwrite_other _ nonceOff) by slen. rewrite Efr in Hfr |- *.
    apply framed_parts. lia. }
  split_and!; [done | slen | |].
  - unfold appendSealed. rewrite Hiv, Hicv. fold (padLenOf (length inner)). fold pl.
    unfold headerLen, trailerLen. rewrite (proj2 (Nat.ltb_ge _ _)) by lia.
    change (8 + 8)%nat with 16%nat. rewrite frame_writes by (fold pl; lia). cbv beta.
    fold pl. rewrite <- Efr. rewrite copyAt_ok by slen. rbind.
    assert (read (overwrite (overwrite s start fr) nonceOff (osalt o)) (start + 8) 8 = be_to 8 seq) as R2'.
    { unfold apart in Hap. rewrite (read_overwrite_other _ nonceOff) by slen. rewrite Efr in Hfr |- *.
      apply framed_parts. lia. }
    rewrite slice_read by slen. rbind.
    replace (start + 16 - (start + 8))%nat with 8%nat by lia. rewrite R2'.
    rewrite copyAt_ok by slen. rbind.
    rewrite overwrite_app, <- Es1 by slen.
    rewrite (slice_read s1 nonceOff) by lia. rbind.
    replace (nonceOff + 12 - nonceOff)%nat with 12%nat by lia. rewrite R0.
    rewrite (slice_read s1 (start + 16)) by lia. rbind.
    replace (start + 16 + (length inner + pl + 2) - (start + 16))%nat with (length inner + pl + 2)%nat by lia.
    rewrite R3, (slice_read s1 start) by lia. rbind.
    replace (start + 8 - start)%nat with 8%nat by lia. rewrite R1.
    fold (espNonce (osalt o) seq). rewrite Hct. rbind.
    rewrite (proj2 (Nat.ltb_ge _ _)) by lia. do 2 f_equal. lia.
  - split; [slen | |].
    + replace (8 + 8 + (length inner + pl + 2) + 16)%nat with (8 + (8 + length ct))%nat by lia.
      rewrite !read_app, <- Nat.add_assoc, (read_overwrite s1) by slen.
      by rewrite !read_overwrite_other, R1, R2 by slen.
    + unfold apart. intros lo n H1 H2. rewrite Es1. by rewrite !read_overwrite_other by slen.
Qed.

Lemma sealOne_spec o inner nh seq :
  outbound_ok o → inner_ok inner →
  ∃ pkt, espPacket o inner nh seq = Ok pkt ∧ length pkt = sealedLen o (length inner) ∧
    sealOne o inner nh seq = Ok pkt.
Proof.
  intros Hok Hi. pose proof (nonce_size _ (out_aead _ Hok)) as Hn. unfold sealOne. rewrite Hn.
  destruct (appendSealed_spec o (replicate (12 + sealedLen o (length inner)) 0) 12 0 inner nh seq Hok Hi)
    as (pkt & s' & Hp & Hl & -> & [Hls Hrd _]); [slen..| left; lia |].
  exists pkt. split_and!; [done..|]. rbind. rewrite length_replicate in Hls.
  rewrite slice_read by (simpl; lia). cbn [fst snd].
  by replace (12 + sealedLen o (length inner) - 12)%nat with (sealedLen o (length inner)) by lia; rewrite Hrd.
Qed.

(** ** Batches *)

Fixpoint espPackets (o : OutboundSA) (packets : list (list Z)) (nhs : list Z) (seq : Z) : res (list (list Z)) :=
  match packets, nhs with
  | packet :: packets, nh :: nhs =>
      p ← espPacket o packet nh seq; r ← espPackets o packets nhs (seq + 1); Ok (p :: r)
  | _, _ => Ok []
  end.

(** Where the packets of a batch lie. *)
Fixpoint offsets (o : OutboundSA) (start : nat) (packets : list (list Z)) : list (nat * nat) :=
  match packets with
  | [] => []
  | p :: rest => (start, sealedLen o (length p)) :: offsets o (start + sealedLen o (length p)) rest
  end.

Fixpoint totalLen (o : OutboundSA) (packets : list (list Z)) : nat :=
  match packets with
  | [] => 0
  | p :: rest => sealedLen o (length p) + totalLen o rest
  end.

Lemma totalLen_fold o packets acc :
  fold_left (fun acc p => (acc + sealedLen o (length p))%nat) packets acc = (acc + totalLen o packets)%nat.
Proof. revert acc. induction packets as [|p ps IH]; intros acc; cbn [fold_left totalLen]; [lia|]. rewrite IH. lia. Qed.

Lemma offsets_in o packets : ∀ start lo n,
  (lo, n) ∈ offsets o start packets → (start ≤ lo ∧ lo + n ≤ start + totalLen o packets)%nat.
Proof.
  induction packets as [|p ps IH]; intros start lo n; cbn [offsets totalLen]; [set_solver|].
  rewrite elem_of_cons. intros [[= -> ->]|H%IH]; lia.
Qed.

Lemma length_offsets o packets start : length (offsets o start packets) = length packets.
Proof. revert start. induction packets; simpl; auto. Qed.

Lemma take_insert_snoc {A} (l : list A) i x :
  (i < length l)%nat → take (S i) (<[i := x]> l) = take i l ++ [x].
Proof.
  intros H. rewrite take_S_r with (x := x) by (by apply list_lookup_insert_eq).
  by rewrite take_insert_ge.
Qed.

Lemma sealLoop_spec o nonceOff nhs packets : outbound_ok o → Forall inner_ok packets →
  ∀ store start i next sealed,
  (start + totalLen o packets ≤ nonceOff)%nat → (nonceOff + 12 ≤ length store)%nat →
  (i + length packets = length nhs)%nat → length sealed = length nhs →
  0 ≤ next → next + Z.of_nat (length packets) < 2 ^ 64 →
  ∃ pkts store', espPackets o packets (drop i nhs) next = Ok pkts ∧
    sealLoop o store start nonceOff 12 packets nhs i next sealed =
      Ok (store', next + Z.of_nat (length packets), take i sealed ++ (Some <$> offsets o start packets)) ∧
    ((λ ol : nat * nat, read store' ol.1 ol.2) <$> offsets o start packets) = pkts ∧
    ∀ lo n, (lo + n ≤ start)%nat → read store' lo n = read store lo n.
Proof.
  intros Hok. induction 1 as [|p ps Hp Hps IH]; intros store start i next sealed Hn Hs Hi Hl H0 H64.
  { exists [], store. simpl. split_and!; try done. rewrite app_nil_r, take_ge by (simpl in *; lia).
    by rewrite Z.add_0_r. }
  cbn [totalLen length] in *. destruct (lookup_lt_is_Some_2 nhs i ltac:(lia)) as [nh Hnh].
  destruct (appendSealed_spec o store start nonceOff p nh next Hok Hp) as (pkt & s1 & Hpkt & Hpl & Ha & [Hl1 Hr1 Hf1]);
    [lia | lia | right; lia |].
  destruct (IH s1 (start + sealedLen o (length p))%nat (S i) (next + 1)
    (<[i := Some (start, sealedLen o (length p))]> sealed)) as (pkts & s2 & Hps' & Hloop & Hread & Hframe);
    [lia | lia | lia | by rewrite length_insert | lia | lia |].
  exists (pkt :: pkts), s2. cbn [sealLoop espPackets offsets]. unfold idx. rewrite Hnh. rbind.
  rewrite (drop_S _ _ _ Hnh), Hpkt, Ha. rbind. rewrite Hps'. cbn [fst snd].
  rewrite (proj2 (Nat.ltb_lt _ _)) by lia. rewrite u64_id by lia.
  replace (start + sealedLen o (length p) - start)%nat with (sealedLen o (length p)) by lia.
  rewrite Hloop. split_and!; [done | | |].
  - rewrite take_insert_snoc, <- app_assoc by lia. cbn [app]. rewrite fmap_cons. do 3 f_equal. lia.
  - rewrite fmap_cons. cbn [fst snd]. by rewrite Hframe, Hr1, Hread by lia.
  - intros lo n Hlo. rewrite Hframe, Hf1 by (unfold apart; lia). done.
Qed.

(** A vector of slices as Go builds it: the length is within the capacity. *)
Definition batch_ok (b : batch) : Prop := (vlen b ≤ length (vec b))%nat.

Lemma packetsOf_offsets (v : list (option (nat * nat))) offs bs n :
  length offs = n →
  packetsOf (mkBatch ((Some <$> offs) ++ v) n bs) = Some <$> ((λ ol : nat * nat, read bs ol.1 ol.2) <$> offs).
Proof.
  intros <-. unfold packetsOf. cbn [vlen vec bytes].
  rewrite take_app_le, take_ge by (rewrite length_fmap; lia).
  by rewrite <- !list_fmap_compose.
Qed.

Section batches.
Context (o : OutboundSA) (next end_ : Z) (packets : list (list Z)) (nhs : list Z).

(** A range [reserveSequenceNumbers] granted, with a batch that fits it. *)
Definition batch_fits : Prop :=
  outbound_ok o ∧ Forall inner_ok packets ∧ length packets = length nhs ∧
  0 ≤ next ≤ end_ ∧ end_ ≤ 0xffffffff ∧ Z.of_nat (length packets) = end_ - next + 1.

(** C18: sealing a batch, into fresh or recycled storage, yields for every inner
    packet the ESP packet with the next sequence number of the range, uses the
    whole range up, and leaves no slice of the recycled vector behind past the
    new length. *)
Theorem seal_batch_exact reuse :
  batch_fits → batch_ok reuse →
  ∃ b pkts, espPackets o packets nhs next = Ok pkts ∧
    SealBatchInto (Some (mkRange (Some o) next end_)) packets nhs reuse =
      Ok (mkRange (Some o) (end_ + 1) end_, b) ∧
    packetsOf b = Some <$> pkts ∧ batch_ok b ∧
    (∀ i, (vlen b ≤ i < vlen reuse)%nat → vec b !! i = Some None).
Proof.
  intros (Hok & Hin & Hlen & Hne & He & Hcount) Hreuse. unfold batch_ok in *.
  pose proof (nonce_size _ (out_aead _ Hok)) as Hn. unfold SealBatchInto.
  rewrite (proj2 (Nat.eqb_eq _ _)) by done. cbn [negb].
  rewrite (proj2 (Z.ltb_ge _ _)) by lia. rewrite !u64_id by (rewrite ?u64_id; lia).
  rewrite (proj2 (Z.eqb_eq (Z.of_nat _) _)) by lia. cbn [negb orb].
  rewrite totalLen_fold, Nat.add_0_l, Hn. cbv zeta.
  set (st0 := if (vlen reuse =? 0)%nat then [] else bytes reuse).
  set (st := if (length st0 <? totalLen o packets + 12)%nat then _ else _).
  set (v := if (length (vec reuse) <? length packets)%nat then replicate _ _ else _).
  set (bey := if (length (vec reuse) <? length packets)%nat then [] else _).
  assert (totalLen o packets + 12 ≤ length st)%nat as Hst.
  { unfold st. destruct (Nat.ltb_spec (length st0) (totalLen o packets + 12)); slen. }
  assert (length v = length packets) as Hv.
  { unfold v. destruct (Nat.ltb_spec (length (vec reuse)) (length packets)); [slen|].
    rewrite length_take. lia. }
  destruct (sealLoop_spec o (totalLen o packets) nhs packets Hok Hin st 0 0 next v)
    as (pkts & st' & Hp & Hloop & Hread & _); [lia..|].
  rewrite drop_0 in Hp. rewrite Hloop. rbind. cbn [take app].
  exists (mkBatch ((Some <$> offsets o 0 packets) ++ bey) (length packets) st'), pkts.
  split_and!; [exact Hp | do 3 f_equal; lia | | |].
  - rewrite packetsOf_offsets by apply length_offsets. by rewrite Hread.
  - cbn [vec vlen]. rewrite length_app, length_fmap, length_offsets. lia.
  - cbn [vec vlen]. intros i Hi. unfold bey.
    rewrite (proj2 (Nat.ltb_ge _ _)) by lia.
    rewrite lookup_app_r, length_fmap, length_offsets by (rewrite length_fmap, length_offsets; lia).
    rewrite lookup_app_l by (rewrite length_replicate; lia).
    apply lookup_replicate_2. lia.
Qed.

End batches.

(** Packets sealed one at a time from a range, as a worker does. *)
Fixpoint rangeSealAll (r : option SequenceRange) (packets : list (list Z * Z)) :
    option SequenceRange * list (res (list Z)) :=
  match packets with
  | [] => (r, [])
  | (inner, nh) :: rest =>
      let '(r, x) := rangeSeal r inner nh in
      let '(r, xs) := rangeSealAll r rest in (r, x :: xs)
  end.

(** The sequence number each packet of a worker's list gets. *)
Fixpoint espStream (o : OutboundSA) (next end_ : Z) (packets : list (list Z * Z)) : list (res (list Z)) :=
  match packets with
  | [] => []
  | (inner, nh) :: rest =>
      (if end_ <? next then Err "esp: reserved sequence range exhausted" else espPacket o inner nh next)
      :: espStream o (next + 1) end_ rest
  end.

Definition exhausted : res (list Z) := Err "esp: reserved sequence range exhausted".

Lemma rangeSealAll_exhausted o next end_ packets : end_ < next →
  (rangeSealAll (Some (mkRange (Some o) next end_)) packets).2 = replicate (length packets) exhausted.
Proof.
  intros H. induction packets as [|[inner nh] rest IH]; [done|]. cbn [rangeSealAll rangeSeal].
  rewrite (proj2 (Z.ltb_lt _ _)) by lia. destruct (rangeSealAll _ rest). cbn [snd length replicate] in *.
  by rewrite IH.
Qed.

Lemma espStream_exhausted o next end_ packets : end_ < next →
  espStream o next end_ packets = replicate (length packets) exhausted.
Proof.
  revert next. induction packets as [|[inner nh] rest IH]; intros next H; [done|].
  cbn [espStream length replicate]. rewrite (proj2 (Z.ltb_lt _ _)), IH by lia. done.
Qed.

(** a worker that seals packet after packet from its range gets the range's
    sequence numbers in order, each once, and an error for every packet past the
    end. *)
Theorem range_seal_stream o next end_ packets :
  outbound_ok o → Forall (λ p, inner_ok p.1) packets → 0 ≤ next → end_ ≤ 0xffffffff →
  (rangeSealAll (Some (mkRange (Some o) next end_)) packets).2 = espStream o next end_ packets.
Proof.
  intros Hok Hin Hn He. revert next Hn. induction Hin as [|[inner nh] rest Hi Hin IH]; intros next Hn; [done|].
  destruct (Z.lt_ge_cases end_ next) as [Hlt|Hle]; [by rewrite rangeSealAll_exhausted, espStream_exhausted|].
  cbn [rangeSealAll espStream rangeSeal]. rewrite (proj2 (Z.ltb_ge _ _)), u64_id by lia.
  specialize (IH (next + 1) ltac:(lia)). destruct (rangeSealAll _ rest) as [r xs]. cbn [snd] in *.
  destruct (sealOne_spec o inner nh next Hok Hi) as (pkt & -> & _ & ->). by rewrite IH.
Qed.

(** ** Sequence numbers *)

(** Reservations made one after the other, in whatever order their callers come:
    the SA after them and what each caller got. *)
Fixpoint reserveAll (o : OutboundSA) (counts : list Z) : OutboundSA * list (res (Z * Z)) :=
  match counts with
  | [] => (o, [])
  | c :: rest =>
      let '(o', _, r) := reserveSequenceNumbers o c in
      let '(o'', rs) := reserveAll o' rest in (o'', r :: rs)
  end.

(** The sequence numbers a granted reservation stands for. *)
Definition numbers (r : res (Z * Z)) : list Z :=
  match r with Ok (f, e) => seqZ f (e - f + 1) | _ => [] end.

(** How many numbers the callers ask for. *)
Definition demand (counts : list Z) : Z := foldr (λ c acc, Z.max 0 c + acc) 0 counts.

Lemma demand_nonneg counts : 0 ≤ demand counts.
Proof. induction counts; simpl; lia. Qed.

Lemma reserve_step o c : 0 ≤ seq o → seq o + Z.max 0 c < 2 ^ 64 →
  let '(o', asked, r) := reserveSequenceNumbers o c in
  seq o' = seq o + Z.max 0 c ∧ oaead o' = oaead o ∧ oparams o' = oparams o ∧ osalt o' = osalt o ∧ ospi o' = ospi o ∧
  (r = Ok (seq o + 1, seq o') ∧ 0 < c ∧ seq o' ≤ 0xffffffff ∨
   (∃ e, r = Err e) ∧ (c ≤ 0 ∨ 0xffffffff < seq o')) ∧
  asked = (0 <? c) && (ProactiveRekeySequence <=? seq o') && onRekey o.
Proof.
  intros H0 H64. unfold reserveSequenceNumbers. destruct (Z.leb_spec c 0).
  - rewrite (proj2 (Z.ltb_ge _ _)) by lia. split_and!; try done; [lia|]. right. split; [by eexists | lia].
  - rewrite (proj2 (Z.ltb_lt 0 c)) by lia. rewrite (u64_id c), (u64_id (seq o + c)) by lia.
    cbn [with_seq seq oaead oparams osalt ospi andb]. split_and!; try done; [lia|].
    destruct (Z.ltb_spec 0xffffffff (seq o + c)); [right; split; [by eexists | lia] | left].
    split_and!; [|lia..]. rewrite (u64_id (seq o + c - c)), u64_id by (rewrite ?u64_id; lia). do 2 f_equal. lia.
Qed.

Lemma reserveAll_numbers counts : ∀ o, 0 ≤ seq o → seq o + demand counts < 2 ^ 64 →
  NoDup (concat (numbers <$> (reserveAll o counts).2)) ∧
  Forall (λ n, seq o < n ≤ 0xffffffff) (concat (numbers <$> (reserveAll o counts).2)).
Proof.
  induction counts as [|c rest IH]; intros o H0 H64; [split; constructor|].
  cbn [demand foldr] in H64. fold (demand rest) in H64. pose proof (demand_nonneg rest).
  cbn [reserveAll]. pose proof (reserve_step o c H0 ltac:(lia)) as Hstep.
  destruct (reserveSequenceNumbers o c) as [[o' asked] r]. destruct Hstep as (Hs & _ & _ & _ & _ & Hr & _).
  destruct (IH o') as [Hnd Hall]; [lia..|]. destruct (reserveAll o' rest) as [o'' rs]. cbn [snd] in *.
  rewrite fmap_cons. cbn [concat]. rewrite Forall_forall in Hall.
  assert (∀ n, n ∈ numbers r → seq o < n ≤ seq o' ∧ n ≤ 0xffffffff) as Hnum.
  { destruct Hr as [(-> & ? & ?)|[[e ->] _]]; cbn [numbers]; intros n; [rewrite elem_of_seqZ; lia | set_solver]. }
  split.
  - apply NoDup_app. split_and!; [| | done].
    + destruct Hr as [(-> & _)|[[e ->] _]]; [apply NoDup_seqZ | constructor].
    + intros n Hn Hn'. apply Hnum in Hn. apply Hall in Hn'. lia.
  - apply Forall_app. split; apply Forall_forall; intros n Hn; [apply Hnum in Hn | apply Hall in Hn]; lia.
Qed.

Lemma espNonce_inj salt a b :
  0 ≤ a < 2 ^ 64 → 0 ≤ b < 2 ^ 64 → espNonce salt a = espNonce salt b → a = b.
Proof.
  unfold espNonce. intros Ha Hb H. apply app_inv_head in H.
  apply (f_equal be_of) in H. by rewrite !be_of_be_to_small in H by (simpl; lia).
Qed.

(** C27: no nonce is used twice. Whatever reservations the callers of one SA
    make, as long as they ask for fewer than 2^64 numbers in all, the numbers
    granted are distinct, start above the ones granted before, stay within the
    32-bit space, and give pairwise different AEAD nonces. *)
Theorem nonces_unique o counts :
  0 ≤ seq o → seq o + demand counts < 2 ^ 64 →
  let granted := concat (numbers <$> (reserveAll o counts).2) in
  NoDup (espNonce (osalt o) <$> granted) ∧ Forall (λ n, seq o < n ≤ 0xffffffff) granted.
Proof.
  intros H0 H64. destruct (reserveAll_numbers counts o H0 H64) as [Hnd Hall].
  split; [|done]. apply NoDup_fmap_2_strong; [|done].
  rewrite Forall_forall in Hall. intros a b Ha%Hall Hb%Hall. apply espNonce_inj; lia.
Qed.
