(* ===== verification/EspOpen.v ===== *)
(** * Opening: what the inbound side of package esp delivers

    Authentication, the replay commit and the trailer, and their composition
    with the sealing side: a packet the peer sealed comes out as it went in,
    once; nothing else is delivered. *)

From S2P Require Import Prelude Replay Store Esp EspSeal.
Import ReplayWindow.

Record inbound_ok (inb : InboundSA) : Prop := {
  in_aead : aead_ok (iaead inb);
  in_iv : IVLen (iparams inb) = 8%nat;
  in_icv : ICVLen (iparams inb) = 16%nat;
  in_salt : length (isalt inb) = 4%nat
}.

(** ** The trailer *)

Lemma padOK_padding n : ∀ i, padOK (padding (S i) n) i = true.
Proof.
  induction n as [|n IH]; intros i; [done|]. unfold padding in *. cbn [List.seq]. rewrite fmap_cons. cbn [padOK].
  rewrite (IH (S i)), andb_true_r. apply Z.eqb_eq. f_equal. lia.
Qed.

Lemma padOK_inv pad : ∀ i, padOK pad i = true → pad = padding (S i) (length pad).
Proof.
  induction pad as [|v pad IH]; intros i; [done|]. cbn [padOK]. intros H. bool_props. subst.
  unfold padding. cbn [length List.seq]. rewrite fmap_cons. f_equal; [f_equal; lia | by apply IH].
Qed.

Lemma parseTrailer_safe plain : safe (parseTrailer plain).
Proof.
  unfold parseTrailer. cbv zeta. destruct (Nat.ltb_spec (length plain) 2); [done|].
  destruct (negb _); [done|].
  apply safe_bind; [apply safe_idx; lia | intros pad _].
  apply safe_bind; [apply safe_idx; lia | intros nh _].
  destruct (Nat.ltb_spec (length plain) (Z.to_nat pad + 2)); [done|].
  apply safe_bind; [apply safe_slice; lia | intros padb _].
  destruct (negb _); [done|]. apply safe_bind; [apply safe_slice; lia | done].
Qed.

Lemma parseTrailer_espTrailer inner nh :
  parseTrailer (inner ++ espTrailer inner nh) = Ok (inner, nh).
Proof.
  unfold parseTrailer, espTrailer. pose proof (padLenOf_lt (length inner)) as Hlt.
  pose proof (padLenOf_aligned (length inner)) as Hal.
  set (k := padLenOf (length inner)) in *. set (l := inner ++ _).
  assert (length l = length inner + k + 2)%nat as Hl
    by (unfold l; rewrite !length_app, length_padding; simpl; lia).
  cbv zeta. rewrite Hl. rewrite (proj2 (Nat.ltb_ge _ _)) by lia. rewrite Hal. cbn [Nat.eqb negb].
  assert (u8 (Z.of_nat k) = Z.of_nat k) as Hk by (apply Z.mod_small; lia).
  assert (l !! (length inner + k + 2 - 2)%nat = Some (Z.of_nat k)) as E1.
  { unfold l. rewrite app_assoc, lookup_app_r by (rewrite length_app, length_padding; lia).
    rewrite length_app, length_padding. replace (_ - _ - _)%nat with 0%nat by lia. by rewrite Hk. }
  assert (l !! (length inner + k + 2 - 1)%nat = Some nh) as E2.
  { unfold l. rewrite app_assoc, lookup_app_r by (rewrite length_app, length_padding; lia).
    rewrite length_app, length_padding. replace (_ - _ - _)%nat with 1%nat by lia. done. }
  unfold idx. rewrite E1, E2. rbind. rewrite Nat2Z.id, (proj2 (Nat.ltb_ge _ _)) by lia.
  unfold l. rewrite (slice_app_exact inner (padding 1 k) _ (length inner + k + 2 - 2 - k)) by (pose proof (length_padding 1 k); lia). rbind.
  rewrite padOK_padding. cbn [negb].
  pose proof (slice_app_exact [] inner (padding 1 k ++ [u8 (Z.of_nat k); nh]) 0 (length inner + k + 2 - 2 - k)) as P.
  simpl app in P. rewrite P by (simpl; lia). done.
Qed.

Lemma parseTrailer_inv plain body nh : bytes_ok plain →
  parseTrailer plain = Ok (body, nh) →
  ∃ k, plain = body ++ padding 1 k ++ [Z.of_nat k; nh] ∧ (k < 256)%nat ∧ (length plain mod 4 = 0)%nat.
Proof.
  unfold parseTrailer. intros Hb. cbv zeta. set (n := length plain). destruct (Nat.ltb_spec n 2); [done|].
  destruct (negb (n mod 4 =? 0)%nat) eqn:E4; [done|]. apply negb_false_iff, Nat.eqb_eq in E4.
  intros (pad & Hpad & H1)%bind_ok_inv. apply bind_ok_inv in H1 as (nh' & Hnh & H1).
  destruct (Nat.ltb_spec n (Z.to_nat pad + 2)); [done|]. apply bind_ok_inv in H1 as (padb & Hpb & H1).
  destruct (negb (padOK padb 0)) eqn:Ep; [done|]. apply negb_false_iff in Ep.
  apply bind_ok_inv in H1 as (b & Hbd & [= -> ->]).
  pose proof (slice_length _ _ _ _ Hpb) as Hlp. apply slice_inv in Hpb as (_ & _ & Hpb).
  apply slice_inv in Hbd as (_ & _ & Hbd). apply padOK_inv in Ep.
  unfold idx in Hpad, Hnh. destruct (plain !! (n - 2)%nat) as [x|] eqn:Ex; [|done]. injection Hpad as ->.
  destruct (plain !! (n - 1)%nat) as [y|] eqn:Ey; [|done]. injection Hnh as ->.
  assert (byte_ok pad) as Hbyte by (unfold bytes_ok in Hb; rewrite Forall_forall in Hb; eapply Hb, list_elem_of_lookup_2, Ex).
  unfold byte_ok in Hbyte. exists (Z.to_nat pad). split_and!; [|lia | done].
  replace (n - 2 - (n - 2 - Z.to_nat pad))%nat with (Z.to_nat pad) in Hlp, Hpb by lia.
  rewrite Hlp in Ep. rewrite <- Ep, Hpb, Hbd, drop_0, Nat.sub_0_r, Z2Nat.id by lia.
  rewrite <- (take_drop (n - 2 - Z.to_nat pad) plain) at 1. f_equal.
  rewrite <- (take_drop (Z.to_nat pad) (drop _ plain)) at 1. f_equal.
  rewrite drop_drop. replace (n - 2 - Z.to_nat pad + Z.to_nat pad)%nat with (n - 2)%nat by lia.
  rewrite (drop_S _ _ _ Ex). f_equal. replace (S (n - 2)) with (n - 1)%nat by lia.
  rewrite (drop_S _ _ _ Ey). f_equal. apply drop_ge. lia.
Qed.

(** ** Authentication *)

Lemma checkHeader_safe inb pkt : inbound_ok inb → safe (checkHeader inb pkt).
Proof.
  intros [_ H1 H2 _]. unfold checkHeader, headerLen. rewrite H1, H2.
  destruct (Nat.ltb_spec (length pkt) (8 + 8 + 16)); [done|]. unfold get_be.
  rewrite !slice_ok by lia. rbind. by destruct (negb _).
Qed.

Lemma checkHeader_inv inb pkt seq : inbound_ok inb → checkHeader inb pkt = Ok seq →
  (32 ≤ length pkt)%nat ∧ be_of (read pkt 0 4) = ispi inb ∧ seq = be_of (read pkt 4 4).
Proof.
  intros [_ H1 H2 _]. unfold checkHeader, headerLen. rewrite H1, H2.
  destruct (Nat.ltb_spec (length pkt) (8 + 8 + 16)); [done|]. unfold get_be.
  rewrite !slice_read by lia. rbind. destruct (negb _) eqn:E; [done|]. bool_props. intros [= <-].
  done.
Qed.

Lemma checkHeader_bound inb pkt seq : inbound_ok inb → bytes_ok pkt → checkHeader inb pkt = Ok seq →
  0 ≤ seq < 2 ^ 32.
Proof.
  intros Hok Hb (Hl & _ & ->)%checkHeader_inv; [|done].
  pose proof (be_of_bound (read pkt 4 4)) as P. rewrite length_read in P by lia. apply P.
  by apply Forall_take, Forall_drop.
Qed.

(** What the AEAD says of a packet: the IV is part of the nonce and the header is
    the associated data. *)
Definition openPacket (inb : InboundSA) (pkt : list Z) : res (list Z) :=
  match aeadOpen (iaead inb) (isalt inb ++ read pkt 8 8) (drop 16 pkt) (read pkt 0 8) with
  | Err _ => Err "esp: authentication failed"
  | r => r
  end.

Lemma openPacket_safe inb pkt : inbound_ok inb → (32 ≤ length pkt)%nat → safe (openPacket inb pkt).
Proof.
  intros [Ha _ _ Hs] Hl. unfold openPacket.
  pose proof (open_safe _ Ha (isalt inb ++ read pkt 8 8) (drop 16 pkt) (read pkt 0 8)) as H.
  destruct (aeadOpen _ _ _ _); [done | done |]. exfalso. apply H; [slen | done].
Qed.

(** The nonce buffer is overwritten whole: what it held does not matter. *)
Lemma decrypt_spec inb pkt inPlace nonce :
  inbound_ok inb → (32 ≤ length pkt)%nat → length nonce = 12%nat →
  decrypt inb pkt inPlace nonce = Ok (isalt inb ++ read pkt 8 8, openPacket inb pkt).
Proof.
  intros Hok Hl Hn. pose proof (openPacket_safe inb pkt Hok Hl) as Hsafe. destruct Hok as [Ha Hiv _ Hs].
  unfold decrypt, headerLen. rewrite Hiv. change (8 + 8)%nat with 16%nat.
  rewrite (slice_read pkt 8 16) by lia. rbind. rewrite from_ok by lia. rbind.
  rewrite copyAt_ok by (rewrite ?length_gocopy; slen). rbind.
  rewrite (slice_read pkt 0 8) by lia. rbind. change (16 - 8)%nat with 8%nat. change (8 - 0)%nat with 8%nat.
  assert (overwrite (gocopy nonce (isalt inb)) (length (isalt inb)) (read pkt 8 8) = isalt inb ++ read pkt 8 8) as ->.
  { unfold overwrite, gocopy. rewrite (take_ge (isalt inb)) by lia. rewrite take_app_length, app_assoc.
    rewrite length_read by lia. rewrite drop_ge; [by rewrite app_nil_r|].
    rewrite length_app, length_drop. lia. }
  unfold openPacket in *. destruct (aeadOpen _ _ _ _); [done | done |]. by exfalso; apply Hsafe.
Qed.

(** What authenticating one packet amounts to. *)
Lemma authenticate_spec p inb pkt inPlace : inbound_ok inb →
  authenticate p inb pkt inPlace =
    (seq ← checkHeader inb pkt; _ ← check (iwindow inb) seq;
     pl ← openPacket inb pkt; Ok (mkAuth (Some p) seq false 0 pl None)).
Proof.
  intros Hok. unfold authenticate. destruct (checkHeader inb pkt) as [seq| |] eqn:E; [|done|done]. rbind.
  destruct (check _ _); [|done|done]. rbind.
  apply checkHeader_inv in E as (Hl & _); [|done]. rewrite decrypt_spec by done. done.
Qed.

(** One entry of a batch agrees with authenticating its packet alone. *)
Definition batchEntry (p : nat) (inb : InboundSA) (pkt : list Z) (a : AuthenticatedPacket) : Prop :=
  match authenticate p inb pkt true with
  | Ok a' => a = a'
  | Err e => perr a = Some e ∧ psa a = Some p ∧ committed a = false ∧ plain a = []
  | Panic => False
  end.

(** Every sequence number a header can carry passes through [check] safely. *)
Definition window_ok (w : replayWindow) : Prop := window w = 0 ∨ ∃ seen, Inv w seen.

Lemma check_safe w seq : window_ok w → 0 ≤ seq < 2 ^ 32 → safe (check w seq).
Proof.
  intros [H0|[seen HI]] Hs; [|by apply (check_spec w seen seq)]. unfold check. by rewrite H0.
Qed.

Lemma precheck_spec p inb pkt : inbound_ok inb → window_ok (iwindow inb) → bytes_ok pkt →
  ∃ a, precheck p inb pkt = Ok a ∧ psa a = Some p ∧ committed a = false ∧ nextHeader a = 0 ∧ plain a = [] ∧
    match perr a with
    | Some e => authenticate p inb pkt true = Err e
    | None => (32 ≤ length pkt)%nat ∧ authenticate p inb pkt true =
        (pl ← openPacket inb pkt; Ok (mkAuth (Some p) (pseq a) false 0 pl None))
    end.
Proof.
  intros Hok Hw Hb. unfold precheck. rewrite authenticate_spec by done.
  pose proof (checkHeader_safe inb pkt Hok) as Hs.
  destruct (checkHeader inb pkt) as [seq|e|] eqn:E; [| by eexists | by exfalso; apply Hs].
  pose proof (check_safe _ seq Hw (checkHeader_bound _ _ _ Hok Hb E)) as Hc.
  apply checkHeader_inv in E as (Hl & _); [|done]. rbind.
  destruct (check (iwindow inb) seq); [by eexists | by eexists | by exfalso; apply Hc].
Qed.

Lemma decryptAll_spec p inb packets : inbound_ok inb → window_ok (iwindow inb) → Forall bytes_ok packets →
  ∃ pre, precheckAll p inb packets = Ok pre ∧ ∀ nonce, length nonce = 12%nat →
  ∃ out, decryptAll inb pre packets nonce = Ok out ∧ Forall2 (batchEntry p inb) packets out.
Proof.
  intros Hok Hw. induction 1 as [|pkt packets Hb _ IH].
  { exists []. split; [done|]. intros. exists []. split; [done | constructor]. }
  destruct IH as (pre & Hpre & IH). destruct (precheck_spec p inb pkt Hok Hw Hb) as (a & Ha & Hsa & Hcm & Hnh & Hpl & Hm).
  exists (a :: pre). cbn [precheckAll]. rewrite Ha, Hpre. split; [done|]. intros nonce Hn. cbn [decryptAll].
  destruct (perr a) as [e|] eqn:Ee.
  - destruct (IH nonce Hn) as (out & -> & Hout). exists (a :: out). split; [done|]. constructor; [|done].
    unfold batchEntry. by rewrite Hm.
  - destruct Hm as [Hl Hm]. rewrite decrypt_spec by done. rbind. cbn [fst snd].
    destruct (IH (isalt inb ++ read pkt 8 8)) as (out & Ho & Hout).
    { pose proof (in_salt _ Hok). slen. }
    pose proof (openPacket_safe inb pkt Hok Hl) as Hs. destruct (openPacket inb pkt) as [pl|e|]; [| |by exfalso; apply Hs];
      rbind; rewrite Ho; (eexists; split; [done|]); constructor; try done; unfold batchEntry; rewrite Hm; rbind.
    + by rewrite Hsa, Hcm, Hnh.
    + done.
Qed.

Lemma authenticate_batch_spec p inb packets results :
  inbound_ok inb → window_ok (iwindow inb) → Forall bytes_ok packets →
  ∃ out, AuthenticateBatchInPlace p inb packets results = Ok (results ++ out) ∧
    Forall2 (batchEntry p inb) packets out.
Proof.
  intros Hok Hw Hb. destruct (decryptAll_spec p inb packets Hok Hw Hb) as (pre & Hp & H).
  destruct (H zeroNonce eq_refl) as (out & Ho & Hout). exists out. split; [|done].
  unfold AuthenticateBatchInPlace. rewrite Hp. rbind. by rewrite Ho.
Qed.

(** authenticating a batch equals authenticating its packets one by one:
    same outcome per packet, in order, an error of one packet touching no other,
    with the shared nonce buffer and without a panic, whatever bytes arrive. *)
Theorem authenticate_batch_exact p inb packets results :
  inbound_ok inb → window_ok (iwindow inb) → Forall bytes_ok packets →
  ∃ out, AuthenticateBatchInPlace p inb packets results = Ok (results ++ out) ∧
    Forall2 (batchEntry p inb) packets out.
Proof. apply authenticate_batch_spec. Qed.

(** ** Committing *)

Lemma runLength_le sa packets : (runLength sa packets ≤ length packets)%nat.
Proof. induction packets; simpl; [done|]. case_decide; lia. Qed.

Lemma commitRun_app h l1 l2 :
  commitRun h (l1 ++ l2) =
    (hr ← commitRun h l1; hs ← commitRun hr.1 l2; Ok (hs.1, hr.2 ++ hs.2)).
Proof.
  revert h. induction l1 as [|p l1 IH]; intros h; simpl; [by destruct (commitRun h l2) as [[]| |]|].
  destruct (commitLocked h p) as [hp| |]; [|done|done]. simpl. rewrite IH.
  destruct (commitRun hp.1 l1) as [hr| |]; [|done|done]. simpl. by destruct (commitRun hr.1 l2).
Qed.

(** Taking the lock once per run does not change what is committed. *)
Lemma commitLoop_run fuel h packets :
  (length packets ≤ fuel)%nat → commitLoop fuel h packets = commitRun h packets.
Proof.
  revert h packets. induction fuel as [|fuel IH]; intros h [|p rest] Hf; try done; [simpl in Hf; lia|].
  cbn [commitLoop]. set (e := S (runLength (psa p) rest)).
  assert (commitRun h (p :: rest) = commitRun h (take e (p :: rest) ++ drop e (p :: rest))) as ->
    by (by rewrite take_drop).
  rewrite commitRun_app.
  destruct (commitRun h (take e (p :: rest))) as [hr| |]; [|done|done]. rbind. rewrite IH; [done|].
  rewrite length_drop. simpl in *. lia.
Qed.

(** Each SA of the heap keeps a window that stands for the numbers it accepted, or
    the window zero, with which nothing is checked. *)
Definition window_inv (w : replayWindow) (seen : list Z) : Prop := Inv w seen ∨ window w = 0.
Definition heap_inv (h : gmap nat InboundSA) (seen : nat → list Z) : Prop :=
  ∀ a inb, h !! a = Some inb → window_inv (iwindow inb) (seen a).

(** Replay checking is on for the SA. *)
Definition checks (h : gmap nat InboundSA) (a : option nat) : bool :=
  match a ≫= (h !!.) with Some inb => 0 <? window (iwindow inb) | None => false end.

(** A number that passes the check is new, where checking is on, and can be
    committed. *)
Lemma window_step w seen seq : window_inv w seen → 0 ≤ seq < 2 ^ 32 →
  check w seq ≠ Panic ∧
  (check w seq = Ok () → ∃ w', commit w seq = Ok w' ∧ window w' = window w ∧ window_inv w' (seq :: seen) ∧ (0 < window w → seq ∉ seen)).
Proof.
  intros [HI|Hz] Hseq; [destruct (check_spec w seen seq HI Hseq) as [Hs Hacc]; split; [done|]; intros Hc|].
  - rewrite Hc in Hacc. symmetry in Hacc. simpl in Hacc. destruct (commit_inv _ _ _ HI Hseq Hacc) as (w' & Hw & Hww & HI').
    exists w'. split_and!; [done | done | by left |]. intros _. unfold acceptable in Hacc. bool_props.
    apply orb_true_iff in H0 as [Hlt|Hw2]; bool_props; [|done]. intros Hin%top_ge. lia.
  - unfold check, commit. rewrite Hz. cbn. split; [done|]. intros _. exists w. split_and!; [done..|by right|lia].
Qed.

(** A packet some [authenticate] produced, or any other result of this package. *)
Definition packet_ok (h : gmap nat InboundSA) (p : AuthenticatedPacket) : Prop :=
  0 ≤ pseq p < 2 ^ 32 ∧ ∀ a, psa p = Some a → is_Some (h !! a).

Definition note (seen : nat → list Z) (a : nat) (s : Z) : nat → list Z :=
  λ b, if decide (b = a) then s :: seen b else seen b.

Lemma heap_inv_insert h seen p inb w s :
  heap_inv h seen → window_inv w (s :: seen p) → heap_inv (<[p := with_window inb w]> h) (note seen p s).
Proof.
  intros Hinv HI b inb'. unfold note. destruct (decide (b = p)) as [->|Hne].
  - rewrite lookup_insert_eq. intros [= <-]. exact HI.
  - rewrite lookup_insert_ne by done. apply Hinv.
Qed.

Lemma checks_insert h a inb w : h !! a = Some inb → window w = window (iwindow inb) →
  ∀ b, checks (<[a := with_window inb w]> h) b = checks h b.
Proof.
  intros Ha Hw [b|]; [|done]. unfold checks. cbn. destruct (decide (a = b)) as [<-|].
  - by rewrite lookup_insert_eq, Ha, <- Hw.
  - by rewrite lookup_insert_ne.
Qed.

(** What one commit does: it delivers nothing, or it is the first commit of an
    authenticated packet whose number the SA has not accepted. *)
Lemma commitLocked_spec h seen p : heap_inv h seen → packet_ok h p →
  ∃ h' p' seen', commitLocked h p = Ok (h', p') ∧ heap_inv h' seen' ∧ dom h' = dom h ∧ (∀ b, checks h' b = checks h b) ∧
    committed p' = true ∧ psa p' = psa p ∧ pseq p' = pseq p ∧
    ((seen' = seen ∧ ∃ e, perr p' = Some e) ∨
     ∃ a, psa p = Some a ∧ seen' = note seen a (pseq p) ∧ (checks h (Some a) = true → pseq p ∉ seen a) ∧
       committed p = false ∧ perr p = None ∧
       match parseTrailer (plain p) with
       | Ok (body, nh) => perr p' = None ∧ plain p' = body ∧ nextHeader p' = nh
       | _ => ∃ e, perr p' = Some e
       end).
Proof.
  intros Hinv [Hseq Hptr]. unfold commitLocked.
  destruct (committed p) eqn:Ec; [eexists _, _, seen; split_and!; simpl; eauto|]. cbv zeta. cbn [perr psa].
  destruct (perr p) as [e|] eqn:Ee; [eexists _, _, seen; split_and!; simpl; eauto|].
  destruct (psa p) as [a|] eqn:Ea; [|eexists _, _, seen; split_and!; simpl; eauto].
  destruct (Hptr a eq_refl) as [inb Hinb]. rewrite Hinb. rbind. cbn [pseq plain].
  specialize (Hinv a inb Hinb) as HI. destruct (window_step _ _ (pseq p) HI Hseq) as [Hs Hc].
  destruct (check (iwindow inb) (pseq p)) as [[]|e|] eqn:Ech; [| |by exfalso; apply Hs].
  2:{ eexists _, _, seen; split_and!; simpl; eauto. }
  destruct (Hc eq_refl) as (w' & -> & Hw & HI' & Hfresh). rbind.
  assert (heap_inv (<[a:=with_window inb w']> h) (note seen a (pseq p))) as Hnew.
  { by apply heap_inv_insert. }
  assert (dom (<[a:=with_window inb w']> h) = dom h) as Hdom.
  { apply dom_insert_lookup_L. by eexists. }
  assert (∀ b, checks (<[a:=with_window inb w']> h) b = checks h b) as Hchk by (by apply checks_insert).
  assert (checks h (Some a) = true → pseq p ∉ seen a) as Hfr.
  { unfold checks. cbn. rewrite Hinb. intros ?%Z.ltb_lt. by apply Hfresh. }
  pose proof (parseTrailer_safe (plain p)) as Hps.
  destruct (parseTrailer (plain p)) as [[body nh]|e|]; [| |by exfalso; apply Hps];
    eexists _, _, (note seen a (pseq p)); split_and!; simpl; try done; right; exists a; split_and!; eauto.
Qed.

(** The (SA, sequence number) pairs of the packets that carry a plaintext. *)
Definition delivered (packets : list AuthenticatedPacket) : list (option nat * Z) :=
  (λ p, (psa p, pseq p)) <$> filter (λ p, perr p = None) packets.

Lemma commitRun_delivered packets : ∀ h seen, heap_inv h seen → Forall (packet_ok h) packets →
  ∃ h' out, commitRun h packets = Ok (h', out) ∧ NoDup (filter (λ d, checks h d.1 = true) (delivered out)) ∧
    (∃ seen', heap_inv h' seen') ∧
    ∀ a s, (a, s) ∈ delivered out → ∃ x, a = Some x ∧ (checks h a = true → s ∉ seen x).
Proof.
  induction packets as [|p packets IH]; intros h seen Hinv Hok.
  { exists h, []. split_and!; [done | constructor | eauto | set_solver]. }
  apply Forall_cons in Hok as [Hp Hps].
  destruct (commitLocked_spec h seen p Hinv Hp) as (h1 & p1 & seen1 & Hc & Hinv1 & Hdom & Hchk & _ & Hsa & Hsq & Hcase).
  destruct (IH h1 seen1 Hinv1) as (h2 & out & Hr & Hnd & Hs2 & Hdel).
  { eapply Forall_impl; [exact Hps|]. intros q [? Hq]. split; [done|]. intros a Ha%Hq.
    apply elem_of_dom. rewrite Hdom. by apply elem_of_dom. }
  rewrite (list_filter_iff _ (λ d, checks h d.1 = true)) in Hnd by (intros d; by rewrite Hchk).
  exists h2, (p1 :: out). cbn [commitRun]. rewrite Hc. rbind. cbn [fst snd]. rewrite Hr. split; [done|].
  unfold delivered in *. destruct (decide (perr p1 = None)) as [E|E].
  - rewrite filter_cons_True, fmap_cons by done.
    destruct Hcase as [[_ [e He]]|(a & Ha & -> & Hni & _)]; [congruence|].
    rewrite Hsa, Ha, Hsq. split_and!; [| done |].
    + destruct (decide (checks h (Some a) = true)) as [Hca|Hca]; [|by rewrite filter_cons_False].
      rewrite filter_cons_True by done. apply NoDup_cons. split; [|done].
      intros (_ & (x & [= <-] & Hx)%Hdel)%list_elem_of_filter. rewrite Hchk in Hx. specialize (Hx Hca).
      apply Hx. unfold note. rewrite decide_True by done. set_solver.
    + intros b s [[= -> ->]|Hin]%elem_of_cons; [by eexists|].
      apply Hdel in Hin as (x & -> & Hx). exists x. split; [done|]. rewrite Hchk in Hx. intros Hb%Hx. unfold note in Hb. case_decide; set_solver.
  - rewrite filter_cons_False by done. split_and!; [done.. |].
    intros b s (x & -> & Hx)%Hdel. exists x. split; [done|]. rewrite Hchk in Hx. intros Hb%Hx.
    destruct Hcase as [[-> _]|(a & _ & -> & _)]; [done|]. unfold note in Hb. case_decide; set_solver.
Qed.

(** C28: anti-replay across rekeys, workers and batches. Whatever results the
    batch holds (of several SAs, repeated, failed, forged zero values or already
    committed), [CommitBatch] returns and keeps every window consistent; of the SAs
    that check for replays, those with a window of positive size, it delivers no
    (SA, sequence number) pair twice and none the SA accepted before. *)
Theorem commit_batch_once h seen packets :
  heap_inv h seen → Forall (packet_ok h) packets →
  ∃ h' out, CommitBatch h packets = Ok (h', out) ∧
    NoDup (filter (λ d, checks h d.1 = true) (delivered out)) ∧
    (∃ seen', heap_inv h' seen') ∧
    ∀ a s, (a, s) ∈ delivered out → ∃ x, a = Some x ∧ (checks h a = true → s ∉ seen x).
Proof.
  intros Hinv Hok. unfold CommitBatch. rewrite commitLoop_run by done. by apply commitRun_delivered.
Qed.

(** ** Two ends of one SA *)

(** The sender's outbound SA and the receiver's inbound SA share the AEAD, the
    salt and the SPI. *)
Record linked (o : OutboundSA) (inb : InboundSA) : Prop := {
  linked_out : outbound_ok o;
  linked_in : inbound_ok inb;
  linked_aead : iaead inb = oaead o;
  linked_salt : isalt inb = osalt o;
  linked_spi : ispi inb = ospi o;
  linked_range : 0 ≤ ospi o < 2 ^ 32
}.

Lemma open_espPacket o inb inner nh seq pkt :
  linked o inb → inner_ok inner → 0 ≤ seq < 2 ^ 32 → espPacket o inner nh seq = Ok pkt →
  checkHeader inb pkt = Ok seq ∧ openPacket inb pkt = Ok (inner ++ espTrailer inner nh).
Proof.
  intros [Ho Hi Ea Es Ep Hr] Hin Hs Hp.
  destruct (espPacket_ok o inner nh seq Ho Hin) as (ct & Hct & Hlc & E). rewrite E in Hp.
  pose proof (length_espHeader (ospi o) seq) as Hh.
  assert (pkt = espHeader (ospi o) seq ++ be_to 8 seq ++ ct) as Ep0 by congruence. clear Hp E.
  assert (length pkt = 16 + length ct)%nat as Hl by (rewrite Ep0; slen).
  assert (read pkt 0 8 = espHeader (ospi o) seq) as R1.
  { unfold read. rewrite Ep0. by rewrite drop_0, take_app_le, take_ge by lia. }
  assert (read pkt 8 8 = be_to 8 seq) as R2.
  { unfold read. rewrite Ep0. rewrite <- Hh at 2. rewrite drop_app_length, take_app_le, take_ge by slen. done. }
  assert (drop 16 pkt = ct) as R3.
  { rewrite Ep0, app_assoc.
    assert (length (espHeader (ospi o) seq ++ be_to 8 seq) = 16%nat) as <- by slen. apply drop_app_length. }
  assert (pkt = be_to 4 (ospi o) ++ be_to 4 (u32 seq) ++ be_to 8 seq ++ ct) as Epkt.
  { rewrite Ep0. unfold espHeader. by rewrite <- app_assoc. }
  split.
  - unfold checkHeader, headerLen. rewrite (in_iv _ Hi), (in_icv _ Hi).
    destruct (Nat.ltb_spec (length pkt) (8 + 8 + 16)); [lia|]. rewrite Epkt.
    pose proof (get_be_app 4 [] (ospi o) (be_to 4 (u32 seq) ++ be_to 8 seq ++ ct) 0 eq_refl) as G.
    cbn [app] in G. rewrite G. rbind. rewrite Z.mod_small, Ep, Z.eqb_refl by (simpl; lia). cbn [negb].
    rewrite get_be_app by slen. rewrite Z.mod_small by (rewrite u32_id by lia; simpl; lia).
    by rewrite u32_id by lia.
  - unfold openPacket. rewrite R1, R2, R3, Ea, Es. fold (espNonce (osalt o) seq).
    pose proof (padLenOf_lt (length inner)). unfold inner_ok in Hin.
    destruct (seal_total _ (out_aead _ Ho) (espNonce (osalt o) seq) (inner ++ espTrailer inner nh)
      (espHeader (ospi o) seq)) as (ct' & Hct' & _ & Hopen).
    + unfold espNonce. rewrite length_app, (out_salt _ Ho), length_be_to. done.
    + rewrite length_app, length_espTrailer. lia.
    + rewrite Hct in Hct'. injection Hct' as <-. by rewrite Hopen.
Qed.

(** A receiver opening packets as they come in; [None] for a refused packet. *)
Fixpoint openAll (h : gmap nat InboundSA) (p : nat) (pkts : list (list Z)) :
    res (gmap nat InboundSA * list (option (list Z * Z))) :=
  match pkts with
  | [] => Ok (h, [])
  | pkt :: rest =>
      hr ← Open h p pkt;
      hs ← openAll hr.1 p rest;
      Ok (hs.1, match hr.2 with Ok m => Some m | _ => None end :: hs.2)
  end.

(** What must come out when the numbers [ks] arrive, for [msg k] sealed under k. *)
Fixpoint deliver (msg : Z → list Z * Z) (W : Z) (seen ks : list Z) : list (option (list Z * Z)) :=
  match ks with
  | [] => []
  | k :: rest =>
      if acceptable W seen k then Some (msg k) :: deliver msg W (k :: seen) rest
      else None :: deliver msg W seen rest
  end.

Lemma Open_sealed o inb h p seen inner nh k pkt :
  linked o inb → h !! p = Some inb → Inv (iwindow inb) seen →
  inner_ok inner → 0 ≤ k < 2 ^ 32 → espPacket o inner nh k = Ok pkt →
  ∃ w' r, Open h p pkt = Ok (if acceptable (window (iwindow inb)) seen k
                             then <[p := with_window inb w']> h else h, r) ∧
    window w' = window (iwindow inb) ∧
    if acceptable (window (iwindow inb)) seen k
    then r = Ok (inner, nh) ∧ Inv w' (k :: seen) else ∃ e, r = Err e.
Proof.
  intros Hl Hp HI Hin Hk Hpkt. destruct (open_espPacket _ _ _ _ _ _ Hl Hin Hk Hpkt) as [Hh Ho].
  unfold Open. rewrite Hp. rbind. unfold Authenticate. rewrite authenticate_spec by apply Hl. rewrite Hh. rbind.
  destruct (check_spec _ _ k HI Hk) as [Hs Hacc].
  destruct (check (iwindow inb) k) as [[]|e|] eqn:Ech; [| |by exfalso; apply Hs]; simpl in Hacc; rewrite <- Hacc; rbind.
  2:{ exists (iwindow inb). eauto. }
  rewrite Ho. rbind. unfold Commit, commitLocked. cbn [committed perr psa]. rewrite Hp. rbind. cbn [pseq plain].
  rewrite Ech. destruct (commit_inv _ _ _ HI Hk (eq_sym Hacc)) as (w' & -> & Hw & HI'). rbind.
  rewrite parseTrailer_espTrailer. rbind. cbn [fst snd Plaintext committed perr negb plain nextHeader]. eauto 10.
Qed.

Lemma openAll_sealed o msg p pkts ks :
  Forall2 (λ k pkt, 0 ≤ k < 2 ^ 32 ∧ inner_ok (msg k).1 ∧ espPacket o (msg k).1 (msg k).2 k = Ok pkt) ks pkts →
  ∀ h inb seen, linked o inb → h !! p = Some inb → Inv (iwindow inb) seen →
  ∃ h', openAll h p pkts = Ok (h', deliver msg (window (iwindow inb)) seen ks).
Proof.
  induction 1 as [|k pkt ks pkts (Hk & Hin & Hpkt) _ IH]; intros h inb seen Hl Hp HI; [by eexists|].
  cbn [openAll deliver].
  destruct (Open_sealed o inb h p seen _ _ k pkt Hl Hp HI Hin Hk Hpkt) as (w' & r & -> & Hw & Hr). rbind. cbn [fst snd].
  destruct (acceptable (window (iwindow inb)) seen k).
  - destruct Hr as [-> HI'].
    destruct (IH (<[p := with_window inb w']> h) (with_window inb w') (k :: seen)) as (h' & ->);
      [by destruct Hl as [? [] ? ? ? ?]; split | by rewrite lookup_insert_eq | done |].
    rbind. cbn [iwindow with_window fst snd]. rewrite Hw. destruct (msg k). eauto.
  - destruct Hr as [e ->]. destruct (IH h inb seen Hl Hp HI) as (h' & ->). eauto.
Qed.

(** ** From the negotiated Child SA *)

Section child.
Context `{CL : CryptoLaws}.

Lemma newESPAEAD_ok id bits key a p : newESPAEAD id bits key = Ok (a, p) →
  aead_ok a ∧ IVLen p = 8%nat ∧ ICVLen p = 16%nat ∧ length key = (keyLen p + 4)%nat.
Proof.
  unfold newESPAEAD. destruct (id =? ENCRAESGCM16).
  - cbn [keyLen saltLen]. set (k := Z.to_nat (bits / 8)). destruct (negb _ && _ && _) eqn:Ek; [done|].
    destruct (negb (length key =? k + 4)%nat) eqn:El; [done|]. apply negb_false_iff, Nat.eqb_eq in El.
    rewrite slice_ok by lia. rbind. intros (a' & Ha & [= <- <-])%bind_ok_inv. cbn. split_and!; try done.
    destruct (aesgcm_ok (take (k - 0) (drop 0 key))) as (a2 & Ha2 & Hok).
    + rewrite length_take, length_drop.
      destruct (Nat.eqb_spec k 16), (Nat.eqb_spec k 24), (Nat.eqb_spec k 32); simpl in Ek; try done; lia.
    + congruence.
  - destruct (id =? ENCRChaCha20Poly1305); [|done]. cbn [keyLen saltLen]. destruct (_ && _); [done|].
    destruct (negb (length key =? 32 + 4)%nat) eqn:El; [done|]. apply negb_false_iff, Nat.eqb_eq in El.
    rewrite slice_ok by lia. rbind. intros (a' & Ha & [= <- <-])%bind_ok_inv. cbn. split_and!; try done.
    destruct (chacha_ok (take (32 - 0) (drop 0 key))) as (a2 & Ha2 & Hok).
    + rewrite length_take, length_drop. lia.
    + congruence.
Qed.

(** The two sides of a negotiation: one direction's key and SPI. *)
Definition peers (a b : ChildSA) : Prop :=
  EncrID a = EncrID b ∧ EncrKeyBits a = EncrKeyBits b ∧ OutboundKey a = InboundKey b ∧
  RemoteSPI a = LocalSPI b ∧ 0 ≤ RemoteSPI a < 2 ^ 32.

Lemma peers_linked a b o inb W :
  peers a b → NewOutbound a = Ok o → NewInbound b [WithReplayWindow W] = Ok inb →
  linked o inb ∧ iwindow inb = newReplayWindow (Z.min W MaxReplayWindow).
Proof.
  intros (E1 & E2 & E3 & E4 & Hr). unfold NewOutbound, NewInbound. rewrite E1, E2, E3, E4.
  intros ([ae p] & Hn & Ho)%bind_ok_inv. rewrite Hn. rbind.
  destruct (newESPAEAD_ok _ _ _ _ _ Hn) as (Ha & Hiv & Hicv & Hk). cbn [fst snd] in *.
  rewrite from_ok in Ho by lia. rewrite from_ok by lia. injection Ho as <-. intros [= <-]. split; [|done].
  split; cbn; try done; [by split; cbn; rewrite ?length_drop; try done; lia.. | by rewrite <- E4].
Qed.

(** C29: end to end. For two peers that negotiated one Child SA, whatever packets
    the sender seals and in whatever order, with whatever losses and repeats they
    arrive, the receiver delivers the inner packet and next header that were
    sealed under each acceptable sequence number, and refuses the rest. *)
Theorem sealed_stream_delivered a b o inb W msg ks pkts :
  peers a b → NewOutbound a = Ok o → NewInbound b [WithReplayWindow W] = Ok inb → 0 < W →
  Forall2 (λ k pkt, 0 ≤ k < 2 ^ 32 ∧ inner_ok (msg k).1 ∧ sealOne o (msg k).1 (msg k).2 k = Ok pkt) ks pkts →
  ∃ h', openAll {[ 0%nat := inb ]} 0 pkts = Ok (h', deliver msg (Z.min W MaxReplayWindow) [] ks).
Proof.
  intros Hp Ho Hi HW Hks. destruct (peers_linked _ _ _ _ _ Hp Ho Hi) as [Hl Hw].
  assert (Inv (iwindow inb) []) as HI.
  { rewrite Hw. apply new_inv. assert (0 < MaxReplayWindow) by done. lia. }
  replace (Z.min W MaxReplayWindow) with (window (iwindow inb)) by (by rewrite Hw).
  eapply openAll_sealed; [|done | by rewrite lookup_singleton_eq | done].
  eapply Forall2_impl; [exact Hks|]. intros k pkt (Hk & Hin & Hs). split_and!; try lia; [done|].
  destruct (sealOne_spec o (msg k).1 (msg k).2 k (linked_out _ _ Hl) Hin) as (pkt' & -> & _ & Hs').
  congruence.
Qed.

End child.

(** ** Authenticity *)

(** [pkt] is what the holder of the SA's key seals: some plaintext under the SPI,
    a sequence number and an IV, and [body] and [nh] are that plaintext's. *)
Definition authentic (inb : InboundSA) (pkt body : list Z) (nh : Z) : Prop :=
  ∃ seq iv pl ct, pkt = be_to 4 (ispi inb) ++ be_to 4 seq ++ iv ++ ct ∧ length iv = 8%nat ∧
    aeadSeal (iaead inb) (isalt inb ++ iv) pl (be_to 4 (ispi inb) ++ be_to 4 seq) = Ok ct ∧
    parseTrailer pl = Ok (body, nh).

Lemma packet_split pkt : bytes_ok pkt → (32 ≤ length pkt)%nat →
  pkt = be_to 4 (be_of (read pkt 0 4)) ++ be_to 4 (be_of (read pkt 4 4)) ++ read pkt 8 8 ++ drop 16 pkt ∧
  read pkt 0 8 = be_to 4 (be_of (read pkt 0 4)) ++ be_to 4 (be_of (read pkt 4 4)).
Proof.
  intros Hb Hl.
  assert (∀ off, (off + 4 ≤ length pkt)%nat → be_to 4 (be_of (read pkt off 4)) = read pkt off 4) as Hw.
  { intros off Ho. rewrite <- (length_read pkt off 4) at 1 by done. apply be_to_be_of.
    by apply Forall_take, Forall_drop. }
  rewrite !Hw by lia. split; [|apply (read_app pkt 0 4 4)].
  rewrite <- (take_drop 16 pkt) at 1. change (take 16 pkt) with (read pkt 0 (4 + (4 + 8))).
  rewrite !read_app. by rewrite <- !app_assoc.
Qed.

Lemma seen_refused w seen seq : Inv w seen → 0 ≤ seq < 2 ^ 32 → seq ∈ seen → ∃ e, check w seq = Err e.
Proof.
  intros HI Hs Hin. destruct (check_spec w seen seq HI Hs) as [Hsafe Hacc].
  assert (acceptable (window w) seen seq = false) as E.
  { unfold acceptable. pose proof (top_ge _ _ Hin). rewrite (proj2 (Z.ltb_ge _ _)) by lia.
    rewrite (bool_decide_eq_false_2 (seq ∉ seen)) by set_solver. by rewrite andb_false_r, andb_false_r. }
  rewrite E in Hacc. destruct (check w seq); [done | by eexists | by exfalso; apply Hsafe].
Qed.

Lemma inbound_ok_window inb w : inbound_ok inb → inbound_ok (with_window inb w).
Proof. intros []. by split. Qed.

(** C32: authenticity and totality of the receive path. For any bytes at all,
    [Open] returns without a panic and keeps every window consistent; what it
    delivers is the body of a plaintext that was sealed under this SA's key, SPI
    and salt; and where checking is on, the window positive, bytes it delivered from
    are refused when they come again. *)
Theorem open_authentic h seen p inb pkt :
  heap_inv h seen → h !! p = Some inb → inbound_ok inb → bytes_ok pkt →
  ∃ h' r, Open h p pkt = Ok (h', r) ∧ (∃ seen', heap_inv h' seen') ∧
    match r with
    | Ok (body, nh) => authentic inb pkt body nh ∧ (0 < window (iwindow inb) → ∃ e, Open h' p pkt = Ok (h', Err e))
    | Err _ => True
    | Panic => False
    end.
Proof.
  intros Hinv Hp Hok Hb. specialize (Hinv p inb Hp) as HI.
  unfold Open at 1. rewrite Hp. rbind. unfold Authenticate. rewrite authenticate_spec by done.
  pose proof (checkHeader_safe inb pkt Hok) as Hhs.
  destruct (checkHeader inb pkt) as [seq|e|] eqn:Eh; [|eauto 10 | by exfalso; apply Hhs]. rbind.
  pose proof (checkHeader_bound _ _ _ Hok Hb Eh) as Hseq.
  destruct (checkHeader_inv _ _ _ Hok Eh) as (Hl & Hspi & Hsq).
  destruct (window_step _ _ seq HI Hseq) as [Hcs Hacc].
  destruct (check (iwindow inb) seq) as [[]|e|] eqn:Ec; [|eauto 10 | by exfalso; apply Hcs]. rbind.
  pose proof (openPacket_safe inb pkt Hok Hl) as Hos.
  destruct (openPacket inb pkt) as [pl|e|] eqn:Eo; [|eauto 10 | by exfalso; apply Hos]. rbind.
  unfold Commit, commitLocked. cbn [committed perr psa]. rewrite Hp. rbind. cbn [pseq plain]. rewrite Ec.
  destruct (Hacc eq_refl) as (w' & -> & Hww & HI' & _). rbind.
  pose proof (heap_inv_insert h seen p inb w' seq Hinv HI') as Hnew.
  pose proof (parseTrailer_safe pl) as Hps.
  destruct (parseTrailer pl) as [[body nh]|e|] eqn:Et; [| |by exfalso; apply Hps]; rbind;
    (eexists _, _; split; [done|]); split; [by eexists | | by eexists | done].
  cbn [fst snd Plaintext committed perr negb plain nextHeader]. split.
  - destruct (packet_split pkt Hb Hl) as [Hsplit Hhdr]. rewrite Hspi in Hsplit, Hhdr. rewrite <- Hsq in Hsplit, Hhdr.
    exists seq, (read pkt 8 8), pl, (drop 16 pkt). split_and!; [done | by apply length_read; lia | | done].
    unfold openPacket in Eo. rewrite <- Hhdr. apply (open_sealed _ (in_aead _ Hok)).
    + pose proof (in_salt _ Hok). slen.
    + by destruct (aeadOpen _ _ _ _); simplify_eq.
  - intros Hpos. destruct HI' as [HI'|]; [|lia]. destruct (seen_refused w' (seq :: seen p) seq HI' Hseq) as [e He]; [set_solver|]. exists e.
    unfold Open. rewrite lookup_insert_eq. rbind. unfold Authenticate.
    rewrite authenticate_spec by by apply inbound_ok_window.
    assert (checkHeader (with_window inb w') pkt = Ok seq) as -> by exact Eh.
    rbind. cbn [iwindow with_window]. by rewrite He.
Qed.
