(* ===== verification/EspWitness.v ===== *)
(** * Concrete instances for the ESP theorems

    An AEAD that meets the laws of [aead_ok] (it authenticates with a checksum
    and is of no use beyond that) instantiates the cryptography, and the theorems
    of [EspSeal] and [EspOpen] are applied to SAs built from it. *)

From S2P Require Import Prelude Replay Store Esp EspSeal EspOpen.
Import ReplayWindow.

(** ** A toy AEAD *)

Definition toyTag (nonce plain aad : list Z) : list Z :=
  be_to 16 (be_of nonce + 3 * be_of aad + 7 * be_of plain).

Definition toySeal (nonce plain aad : list Z) : res (list Z) :=
  if (length nonce =? 12)%nat then Ok (plain ++ toyTag nonce plain aad) else Panic.

Definition toyOpen (nonce c aad : list Z) : res (list Z) :=
  if negb (length nonce =? 12)%nat then Panic
  else if (length c <? 16)%nat then Err "cipher: message authentication failed"
  else
    let plain := take (length c - 16) c in
    if bool_decide (drop (length c - 16) c = toyTag nonce plain aad) then Ok plain
    else Err "cipher: message authentication failed".

Definition toyAEAD : AEAD := mkAEAD 12 toySeal toyOpen.

Lemma toyAEAD_ok : aead_ok toyAEAD.
Proof.
  split; [done | | | |].
  - intros nonce plain aad Hn _. simpl. unfold toySeal, toyOpen. rewrite Hn. cbn [Nat.eqb negb].
    assert (length (toyTag nonce plain aad) = 16%nat) as Ht by apply length_be_to.
    eexists. split_and!; [done | rewrite length_app; lia |].
    destruct (Nat.ltb_spec (length (plain ++ toyTag nonce plain aad)) 16); [rewrite length_app in *; lia|].
    cbv zeta. rewrite length_app, Ht. replace (length plain + 16 - 16)%nat with (length plain) by lia.
    rewrite drop_app_length, take_app_length. by rewrite bool_decide_eq_true_2.
  - intros nonce c aad Hn. simpl. unfold toyOpen. rewrite Hn. simpl. destruct (_ <? _)%nat; [done|].
    by case_bool_decide.
  - intros nonce c aad plain Hn. simpl. unfold toyOpen, toySeal. rewrite Hn. cbn [Nat.eqb negb].
    destruct (_ <? _)%nat; [done|]. cbv zeta. case_bool_decide as E; [|done]. intros [= <-].
    rewrite <- E. by rewrite take_drop.
  - intros nonce c aad plain Hn. simpl. unfold toyOpen. rewrite Hn. cbn [Nat.eqb negb].
    destruct (Nat.ltb_spec (length c) 16); [done|]. cbv zeta. case_bool_decide; [|done]. intros [= <-]. rewrite length_take.
    split; [lia | apply Forall_take].
Qed.

#[export] Instance toyCrypto : Crypto :=
  {| NewAESGCM := fun _ => Ok toyAEAD; NewChaCha20Poly1305 := fun _ => Ok toyAEAD |}.

#[export] Instance toyLaws : CryptoLaws toyCrypto.
Proof. split; intros; exists toyAEAD; (split; [done | apply toyAEAD_ok]). Qed.

(** Two peers, AES-GCM with a 128-bit key. *)
Definition toyKey : list Z := replicate 20 7.
Definition alice : ChildSA := mkChildSA 20 128 17 258 toyKey toyKey.
Definition bob : ChildSA := mkChildSA 20 128 258 17 toyKey toyKey.

Definition toyOut (s : Z) : OutboundSA :=
  mkOutbound toyAEAD (mkParams 16 4 8 16) (replicate 4 7) 258 s false.
Definition toyIn (W : Z) : InboundSA :=
  mkInbound toyAEAD (mkParams 16 4 8 16) (replicate 4 7) 258 (newReplayWindow W).

Lemma toyOut_ok s : outbound_ok (toyOut s).
Proof. by split; [apply toyAEAD_ok|..]. Qed.

Lemma toyIn_ok W : inbound_ok (toyIn W).
Proof. by split; [apply toyAEAD_ok|..]. Qed.

Lemma toyWindow_inv : Inv (newReplayWindow 64) [].
Proof. apply new_inv. change MaxReplayWindow with 1048576. lia. Qed.

(** ** The theorems at these instances *)

Lemma seal_batch_exact_witness :
  ∃ b pkts, SealBatchInto (Some (mkRange (Some (toyOut 9)) 8 9)) [[1; 2; 3]; [4]] [4; 41]
      (mkBatch [Some (0, 5); None; Some (1, 1)]%nat 3 (replicate 9 1)) =
    Ok (mkRange (Some (toyOut 9)) 10 9, b) ∧ packetsOf b = Some <$> pkts ∧ vec b !! 2%nat = Some None.
Proof.
  destruct (seal_batch_exact (toyOut 9) 8 9 [[1; 2; 3]; [4]] [4; 41]
    (mkBatch [Some (0, 5); None; Some (1, 1)]%nat 3 (replicate 9 1))) as (b & pkts & _ & Hs & Hp & _ & Hc).
  - split; [apply toyOut_ok|]. split; [|simpl; lia].
    constructor; [|constructor; [|constructor]]; unfold inner_ok; simpl; lia.
  - unfold batch_ok. simpl. lia.
  - exists b, pkts. split; [exact Hs|]. split; [exact Hp|]. apply Hc. simpl. split; [|lia].
    assert (vlen b = 2%nat) as ->; [|lia].
    pose proof (f_equal (λ r, match r with Ok (_, b) => vlen b | _ => 0%nat end) Hs) as V.
    vm_compute in V. symmetry. exact V.
Defined.

Lemma range_seal_stream_witness :
  (rangeSealAll (Some (mkRange (Some (toyOut 5)) 5 5)) [([1; 2], 4); ([3], 4)]).2 =
  espStream (toyOut 5) 5 5 [([1; 2], 4); ([3], 4)].
Proof.
  apply (range_seal_stream (toyOut 5) 5 5 [([1; 2], 4); ([3], 4)]); [apply toyOut_ok | | lia | lia].
  constructor; [|constructor; [|constructor]]; unfold inner_ok; simpl; lia.
Defined.

Lemma nonces_unique_witness :
  concat (numbers <$> (reserveAll (toyOut 0xfffffff0) [3; 0; 20; 4; 1]).2) = seqZ 0xfffffff1 3 ∧
  NoDup (espNonce (replicate 4 7) <$> concat (numbers <$> (reserveAll (toyOut 0xfffffff0) [3; 0; 20; 4; 1]).2)).
Proof.
  split; [vm_compute; reflexivity|].
  apply (nonces_unique (toyOut 0xfffffff0) [3; 0; 20; 4; 1]); simpl; lia.
Defined.

Lemma authenticate_batch_exact_witness :
  ∃ out, AuthenticateBatchInPlace 0 (toyIn 64) [[1]; replicate 40 2] [] = Ok ([] ++ out) ∧
    Forall2 (batchEntry 0 (toyIn 64)) [[1]; replicate 40 2] out.
Proof.
  apply (authenticate_batch_exact 0 (toyIn 64) [[1]; replicate 40 2] []); [apply toyIn_ok | |].
  - right. exists []. exact toyWindow_inv.
  - constructor; [|constructor; [|constructor]]; unfold bytes_ok; [|apply Forall_replicate];
      unfold byte_ok; [constructor; [lia | constructor] | lia].
Defined.

Lemma toyHeap_inv : heap_inv {[0%nat := toyIn 64]} (λ _, []).
Proof. intros a inb [<- <-]%lookup_singleton_Some. left. exact toyWindow_inv. Qed.

Lemma commit_batch_once_witness :
  let p := mkAuth (Some 0%nat) 5 false 0 [9; 1; 1; 4] None in
  ∃ h' out, CommitBatch {[0%nat := toyIn 64]} [p; p; mkAuth None 5 false 0 [] None] = Ok (h', out) ∧
    NoDup (filter (λ d, checks {[0%nat := toyIn 64]} d.1 = true) (delivered out)).
Proof.
  intros p.
  destruct (commit_batch_once {[0%nat := toyIn 64]} (λ _, []) [p; p; mkAuth None 5 false 0 [] None])
    as (h' & out & Hc & Hn & _).
  - exact toyHeap_inv.
  - assert (packet_ok {[0%nat := toyIn 64]} p) as Hp.
    { split; [simpl; lia|]. intros a [= <-]. rewrite lookup_singleton_eq. by eexists. }
    constructor; [exact Hp|]. constructor; [exact Hp|]. constructor; [|constructor].
    split; [simpl; lia | done].
  - exists h', out. split; [exact Hc | exact Hn].
Defined.

Definition toyMsg (k : Z) : list Z * Z := ([k; k; k], 41).

Lemma sealed_stream_delivered_witness :
  ∃ pkts h', Forall2 (λ k pkt, sealOne (toyOut 0) (toyMsg k).1 (toyMsg k).2 k = Ok pkt) [2; 1; 2] pkts ∧
    openAll {[0%nat := toyIn 64]} 0 pkts = Ok (h', [Some (toyMsg 2); Some (toyMsg 1); None]).
Proof.
  assert (∀ k, inner_ok (toyMsg k).1) as Hin by (intros k; unfold inner_ok; simpl; lia).
  destruct (sealOne_spec (toyOut 0) (toyMsg 1).1 41 1 (toyOut_ok 0) (Hin 1)) as (p1 & _ & _ & H1).
  destruct (sealOne_spec (toyOut 0) (toyMsg 2).1 41 2 (toyOut_ok 0) (Hin 2)) as (p2 & _ & _ & H2).
  destruct (sealed_stream_delivered alice bob (toyOut 0) (toyIn 64) 64 toyMsg [2; 1; 2] [p2; p1; p2])
    as (h' & Ho).
  - split; [reflexivity|]. split; [reflexivity|]. split; [reflexivity|]. split; [reflexivity|]. simpl. lia.
  - reflexivity.
  - reflexivity.
  - lia.
  - constructor; [|constructor; [|constructor; [|constructor]]]; (split; [lia|]); (split; [apply Hin|]);
      [exact H2 | exact H1 | exact H2].
  - exists [p2; p1; p2], h'. split; [|exact Ho].
    constructor; [exact H2|]. constructor; [exact H1|]. constructor; [exact H2 | constructor].
Defined.

Lemma open_authentic_witness :
  ∃ pkt h', sealOne (toyOut 0) [8; 8] 4 3 = Ok pkt ∧ Open {[0%nat := toyIn 64]} 0 pkt = Ok (h', Ok ([8; 8], 4)) ∧
    authentic (toyIn 64) pkt [8; 8] 4.
Proof.
  destruct (sealOne (toyOut 0) [8; 8] 4 3) as [pkt| |] eqn:E; [|vm_compute in E; discriminate E..].
  assert (bytes_ok pkt) as Hb.
  { vm_compute in E. injection E as <-. unfold bytes_ok, byte_ok.
    repeat (apply List.Forall_cons; [lia|]). apply List.Forall_nil. }
  destruct (open_authentic {[0%nat := toyIn 64]} (λ _, []) 0 (toyIn 64) pkt toyHeap_inv
    ltac:(by rewrite lookup_singleton_eq) (toyIn_ok 64) Hb) as (h' & r & Ho & _ & Hr).
  assert (r = Ok ([8; 8], 4)) as ->.
  { pose proof (f_equal (λ r, match r with Ok (_, r) => r | _ => Panic end) Ho) as V.
    vm_compute in E. injection E as <-. vm_compute in V. symmetry. exact V. }
  exists pkt, h'. split; [exact eq_refl|]. split; [exact Ho | exact (proj1 Hr)].
Defined.
