(* ===== verification/Packet.v ===== *)
(** * The IP envelope, internal/packet/ip.go

    The validation both packet intakes share: where an IP packet ends according
    to its own header, and its addresses. A [nil] slice is the empty list. *)

From S2P Require Import Prelude Netip.

Definition Payload (raw : list Z) : res (list Z * Z) :=
  if (length raw =? 0)%nat then Ok ([], 0)
  else
    b0 ← idx raw 0;
    let nibble := Z.shiftr b0 4 in
    if nibble =? 4 then
      if (length raw <? 20)%nat then Ok ([], 0)
      else
        let headerLen := Z.land b0 15 * 4 in
        total ← get_be 2 raw 2;
        if (headerLen <? 20) || (total <? headerLen) || (Z.of_nat (length raw) <? total)
        then Ok ([], 0)
        else p ← slice raw 0 (Z.to_nat total); Ok (p, 4)
    else if nibble =? 6 then
      if (length raw <? 40)%nat then Ok ([], 0)
      else
        len ← get_be 2 raw 4;
        if ((len =? 0) && (40 <? length raw)%nat) || (Z.of_nat (length raw) <? 40 + len)
        then Ok ([], 0)
        else p ← slice raw 0 (Z.to_nat (40 + len)); Ok (p, 6)
    else Ok ([], 0).

Definition Version (raw : list Z) : res Z :=
  pv ← Payload raw;
  Ok (if negb (length pv.1 =? length raw)%nat then 0 else pv.2).

(** The zero [netip.Addr] for a packet that is not valid. *)
Definition Addrs (raw : list Z) : res (Addr * Addr * Z) :=
  version ← Version raw;
  if version =? 4 then
    s ← slice raw 12 16; d ← slice raw 16 20;
    Ok (Addr4 (be_of s), Addr4 (be_of d), version)
  else if version =? 6 then
    s ← slice raw 8 24; d ← slice raw 24 40;
    Ok (Addr6 (be_of s), Addr6 (be_of d), version)
  else Ok (AddrInvalid, AddrInvalid, version).

(** ** What a well-formed envelope is *)

(** The length an IP header claims for its packet, and the least it can be. *)
Definition claimed (raw : list Z) (v : Z) : Z :=
  if v =? 4 then be_of (take 2 (drop 2 raw)) else 40 + be_of (take 2 (drop 4 raw)).

Definition envelope (raw : list Z) (v : Z) : Prop :=
  ∃ b0, raw !! 0%nat = Some b0 ∧ Z.shiftr b0 4 = v ∧ claimed raw v ≤ Z.of_nat (length raw) ∧
  (v = 4 ∧ (20 ≤ length raw)%nat ∧ 20 ≤ 4 * Z.land b0 15 ≤ claimed raw v ∨
   v = 6 ∧ (40 ≤ length raw)%nat ∧ (claimed raw v = 40 → length raw = 40%nat)).

Lemma take2_bound raw k : bytes_ok raw → (k + 2 ≤ length raw)%nat → 0 ≤ be_of (take 2 (drop k raw)) < 65536.
Proof.
  intros Hb Hl. pose proof (be_of_bound (take 2 (drop k raw))) as P.
  rewrite length_take, length_drop, Nat.min_l in P by lia. apply P. by apply Forall_take, Forall_drop.
Qed.

(** [Payload] decides [envelope] and cuts the packet at the claimed length. *)
Lemma Payload_spec raw : bytes_ok raw →
  (∃ v, (v = 4 ∨ v = 6) ∧ envelope raw v ∧ Payload raw = Ok (take (Z.to_nat (claimed raw v)) raw, v)) ∨
  (Payload raw = Ok ([], 0) ∧ ∀ v, ¬ envelope raw v).
Proof.
  intros Hb. destruct raw as [|b0 rest] eqn:E; [right; split; [done|]; intros v (b & Hb0 & _); done|].
  rewrite <- E in *. assert (raw !! 0%nat = Some b0) as H0 by (by rewrite E).
  assert (length raw ≠ 0%nat) as Hne by (rewrite E; simpl; lia). clear E rest.
  unfold Payload. rewrite (proj2 (Nat.eqb_neq _ _)) by done. unfold idx. rewrite H0. rbind.
  assert (∀ v, envelope raw v → v = Z.shiftr b0 4 ∧ (v = 4 ∨ v = 6)) as Henv.
  { intros v (b & Hb0 & <- & _ & [(? & _)|(? & _)]); split; try congruence; lia. }
  destruct (Z.eqb_spec (Z.shiftr b0 4) 4) as [E4|E4]; [|destruct (Z.eqb_spec (Z.shiftr b0 4) 6) as [E6|E6]].
  - destruct (Nat.ltb_spec (length raw) 20).
    { right. split; [done|]. intros v Hv. destruct (Henv v Hv) as [-> _].
      destruct Hv as (b & _ & _ & _ & [(_ & ? & _)|(? & _)]); [lia | congruence]. }
    unfold get_be. rewrite slice_ok by lia. rbind. change (2 + 2 - 2)%nat with 2%nat.
    pose proof (take2_bound raw 2 Hb ltac:(lia)).
    assert (claimed raw 4 = be_of (take 2 (drop 2 raw))) as Ec by done.
    destruct (_ || _ || _) eqn:Eg; bool_props.
    + right. split; [done|]. intros v Hv. destruct (Henv v Hv) as [-> _]. rewrite E4 in Hv.
      destruct Hv as (b & Hb0 & _ & Hc & [(_ & _ & ?)|(? & _)]); [|lia].
      rewrite H0 in Hb0. injection Hb0 as <-. apply orb_true_iff in Eg as [Eg|Eg]; bool_props; [|lia].
      apply orb_true_iff in Eg as [Eg|Eg]; bool_props; lia.
    + left. exists 4. rewrite slice_ok by lia. rbind. rewrite drop_0, Nat.sub_0_r, <- Ec. split_and!; [lia | | done].
      exists b0. split_and!; [done | done | lia |]. left. lia.
  - destruct (Nat.ltb_spec (length raw) 40).
    { right. split; [done|]. intros v Hv. destruct (Henv v Hv) as [-> _].
      destruct Hv as (b & _ & _ & _ & [(? & _)|(_ & ? & _)]); [congruence | lia]. }
    unfold get_be. rewrite slice_ok by lia. rbind. change (4 + 2 - 4)%nat with 2%nat.
    pose proof (take2_bound raw 4 Hb ltac:(lia)).
    assert (claimed raw 6 = 40 + be_of (take 2 (drop 4 raw))) as Ec by done.
    destruct (_ && _ || _) eqn:Eg; [|apply orb_false_iff in Eg as [Ez Eg]; bool_props].
    + right. split; [done|]. intros v Hv. destruct (Henv v Hv) as [-> _]. rewrite E6 in Hv.
      destruct Hv as (b & Hb0 & _ & Hc & [(? & _)|(_ & _ & ?)]); [lia|].
      apply orb_true_iff in Eg as [[Ez%Z.eqb_eq El%Nat.ltb_lt]%andb_true_iff|Eg]; bool_props; lia.
    + left. exists 6. rewrite slice_ok by lia. rbind. rewrite drop_0, Nat.sub_0_r, <- Ec.
      split_and!; [lia | | done]. exists b0. split_and!; [done | done | lia |]. right. split_and!; [done | lia |].
      intros E40. apply andb_false_iff in Ez as [?|Ez%Nat.ltb_ge]; bool_props; lia.
  - right. split; [done|]. intros v Hv. destruct (Henv v Hv). lia.
Qed.

Lemma envelope_unique raw v w : envelope raw v → envelope raw w → v = w.
Proof. intros (b & Hb & <- & _) (b' & Hb' & <- & _). congruence. Qed.

(** envelope validation. For any bytes, [Payload] returns without a panic;
    it cuts the packet at the length its own header claims exactly when the bytes
    start with a complete IPv4 or IPv6 packet, and returns nothing otherwise. *)
Theorem payload_exact raw v p :
  bytes_ok raw →
  (Payload raw = Ok (p, v) ∧ v ≠ 0) ↔ (envelope raw v ∧ p = take (Z.to_nat (claimed raw v)) raw).
Proof.
  intros Hb. destruct (Payload_spec raw Hb) as [(w & Hw & He & ->)|[-> Hn]].
  - split.
    + intros [[= <- <-] _]. done.
    + intros [Hv ->]. rewrite (envelope_unique _ _ _ Hv He). split; [done | lia].
  - split; [intros [[= <- <-] ?]; done | intros [Hv _]; by apply Hn in Hv].
Qed.

(** [Addrs] never panics, and gives addresses for exactly the frames that
    are one complete packet, read from that packet's own header. *)
Theorem addrs_exact raw :
  bytes_ok raw →
  ∃ s d v, Addrs raw = Ok (s, d, v) ∧
    (v ≠ 0 → envelope raw v ∧ claimed raw v = Z.of_nat (length raw)) ∧
    (∀ w, envelope raw w → claimed raw w = Z.of_nat (length raw) → v = w) ∧
    s = (if v =? 4 then Addr4 (be_of (take 4 (drop 12 raw)))
         else if v =? 6 then Addr6 (be_of (take 16 (drop 8 raw))) else AddrInvalid) ∧
    d = (if v =? 4 then Addr4 (be_of (take 4 (drop 16 raw)))
         else if v =? 6 then Addr6 (be_of (take 16 (drop 24 raw))) else AddrInvalid).
Proof.
  intros Hb. unfold Addrs, Version. destruct (Payload_spec raw Hb) as [(w & Hw & He & ->)|[-> Hn]]; rbind; cbn [fst snd].
  - destruct He as (b & Hb0 & Hv & Hc & Hk) eqn:EHe. clear EHe.
    assert (0 ≤ claimed raw w) as Hcl.
    { destruct Hk as [(-> & Hl & ?)|(-> & Hl & _)]; [pose proof (take2_bound raw 2 Hb ltac:(lia)); lia|].
      pose proof (take2_bound raw 4 Hb ltac:(lia)). unfold claimed. simpl. lia. }
    rewrite length_take, Nat.min_l by lia. destruct (Nat.eqb_spec (Z.to_nat (claimed raw w)) (length raw)) as [E|E]; cbn [negb].
    + assert (claimed raw w = Z.of_nat (length raw)) as Ec by lia.
      assert (∀ u, envelope raw u → claimed raw u = Z.of_nat (length raw) → w = u) as Hu
        by (intros u Hu _; eapply envelope_unique; [exact He | done]).
      destruct Hk as [(-> & Hl & _)|(-> & Hl & _)]; cbn [Z.eqb Pos.eqb]; rewrite !slice_ok by lia; rbind; eauto 10.
    + eexists _, _, 0. split_and!; [done | done | | done | done].
      intros u Hu Hcu. rewrite (envelope_unique _ _ _ Hu He) in Hcu. lia.
  - assert ((if negb (length (A := Z) [] =? length raw)%nat then 0 else 0) = 0) as ->
      by (by destruct (negb _)).
    eexists _, _, 0. split_and!; [done | done | | done | done]. intros u Hu _. by apply Hn in Hu.
Qed.

(** An IPv4 header of 20 bytes with two bytes of payload and four of padding. *)
Definition sampleFrame : list Z :=
  [69; 0; 0; 22; 0; 0; 0; 0; 64; 17; 0; 0; 10; 0; 0; 1; 10; 0; 0; 2; 7; 7; 0; 0; 0; 0].

Lemma sampleFrame_ok : bytes_ok sampleFrame.
Proof.
  unfold sampleFrame, bytes_ok, byte_ok. repeat (apply List.Forall_cons; [lia|]). apply List.Forall_nil.
Qed.

Lemma payload_exact_witness :
  Payload sampleFrame = Ok (take 22 sampleFrame, 4) ∧ envelope sampleFrame 4.
Proof.
  assert (Payload sampleFrame = Ok (take 22 sampleFrame, 4)) as E by (vm_compute; reflexivity).
  split; [exact E|].
  apply (proj1 (payload_exact sampleFrame 4 (take 22 sampleFrame) sampleFrame_ok)). split; [exact E | lia].
Defined.

Lemma addrs_exact_witness :
  Addrs sampleFrame = Ok (AddrInvalid, AddrInvalid, 0) ∧
  ∃ v, envelope (take 22 sampleFrame) v ∧
    Addrs (take 22 sampleFrame) = Ok (Addr4 167772161, Addr4 167772162, v).
Proof.
  split; [vm_compute; reflexivity|].
  destruct (addrs_exact (take 22 sampleFrame)) as (s & d & v & Ha & Hv & _).
  { apply Forall_take, sampleFrame_ok. }
  assert (Addrs (take 22 sampleFrame) = Ok (Addr4 167772161, Addr4 167772162, 4)) as E by (vm_compute; reflexivity).
  rewrite E in Ha. injection Ha as <- <- <-. exists 4. split; [apply Hv; lia | exact E].
Defined.
