(* ===== verification/Sadr.v ===== *)
(** * The source-address-dependent routing table, sadr/table.go

    Destinations are held in a path-compressed binary trie over 128-bit
    addresses, one for IPv4 (mapped, lengths 96 to 128) and one for IPv6; each
    node keeps its source prefixes ordered longest first, and derives from them
    an optional per-length index. The model keeps the word-level prefix tests,
    the copy-on-write edit, node compaction, binary-search insertion and the
    index with its threshold. Nil pointers are [Nil]; a published node is never
    mutated, so a node is a value, and the lazily built index is a function of
    the node's sources. The zero value of [V] that goes with a false flag in the
    source is [None] here.

    The specification is a finite map from (source, destination) prefix pairs to
    values ([get]); [Set], [Remove] and [RemoveValue] act on it as map updates,
    [All] enumerates it, and [Lookup] returns the longest-destination,
    longest-source match. *)

From S2P Require Import Prelude Netip.

Module Sadr.

Section table.
Context {V : Type} `{!EqDecision V}.

Record srcEntry := mkSrcEntry { src : Prefix; value : V }.

Inductive trieNode :=
| Nil
| Node (address prefixLen byteIndex bitShift : Z) (srcs : list srcEntry)
       (anySrc : option V) (child0 child1 : trieNode).

Record srcIndex := mkSrcIndex { bits : Z; m : gmap Prefix V }.

Definition indexThreshold : Z := 4.

(** ** 128-bit addresses as sixteen bytes *)

(** [address[i]] *)
Definition octet (address i : Z) : Z := default 0 (be_to 16 address !! Z.to_nat i).

(** [binary.BigEndian.Uint64(address[:8])] and [(address[8:])] *)
Definition hi64 (address : Z) : Z := be_of (take 8 (be_to 16 address)).
Definition lo64 (address : Z) : Z := be_of (drop 8 (be_to 16 address)).

(** [bits.LeadingZeros64] *)
Definition LeadingZeros64 (x : Z) : Z := if x =? 0 then 64 else 63 - Z.log2 x.

Definition branch (address bit : Z) : Z :=
  Z.land (Z.shiftr (octet address (bit / 8)) (7 - bit mod 8)) 1.

Definition commonBits (a b : Z) : Z :=
  let common := LeadingZeros64 (Z.lxor (hi64 a) (hi64 b)) in
  u8 (if common =? 64 then common + LeadingZeros64 (Z.lxor (lo64 a) (lo64 b)) else common).

(** [(n *trieNode).matches], on the node's own address and prefix length *)
Definition matches (address prefixLen hi lo : Z) : bool :=
  let highDiff := Z.lxor (hi64 address) hi in
  if prefixLen <=? 64 then shr64 highDiff (64 - prefixLen) =? 0
  else (highDiff =? 0) && (shr64 (Z.lxor (lo64 address) lo) (128 - prefixLen) =? 0).

(** ** Sources of one node *)

Fixpoint matchAllSource (srcs : list srcEntry) : option V :=
  match srcs with
  | [] => None
  | entry :: rest => if negb (IsValid (src entry)) then Some (value entry) else matchAllSource rest
  end.

(** The counting loop of [indexSrcs]: the valid sources, and the runs of equal
    length among them. [prev] is the length of [srcs[i-1]]. *)
Fixpoint countRuns (prev : option Z) (srcs : list srcEntry) : Z * Z :=
  match srcs with
  | [] => (0, 0)
  | entry :: rest =>
      let '(specific, runs) := countRuns (Some (Bits (src entry))) rest in
      if negb (IsValid (src entry)) then (specific, runs)
      else (specific + 1,
            if bool_decide (prev = Some (Bits (src entry))) then runs else runs + 1)
  end.

(** The inner loop that finds the end of a run. *)
Fixpoint runOf (b : Z) (srcs : list srcEntry) : list srcEntry * list srcEntry :=
  match srcs with
  | [] => ([], [])
  | entry :: rest =>
      if IsValid (src entry) && (Bits (src entry) =? b)
      then let '(run, after) := runOf b rest in (entry :: run, after)
      else ([], srcs)
  end.

Definition groupOf (b : Z) (run : list srcEntry) : srcIndex :=
  mkSrcIndex (u8 b) (fold_left (λ acc entry, <[src entry := value entry]> acc) run ∅).

(** The grouping loop; [fuel] bounds its iterations by the number of sources. *)
Fixpoint groups (fuel : nat) (srcs : list srcEntry) : list srcIndex :=
  match fuel, srcs with
  | S fuel, entry :: rest =>
      if negb (IsValid (src entry)) then groups fuel rest
      else
        let '(run, after) := runOf (Bits (src entry)) srcs in
        groupOf (Bits (src entry)) run :: groups fuel after
  | _, _ => []
  end.

Definition indexSrcs (srcs : list srcEntry) : option (list srcIndex) :=
  let '(specific, runs) := countRuns None srcs in
  if (runs =? 0) || (specific <? runs * indexThreshold) then None
  else Some (groups (length srcs) srcs).

(** ** Nodes *)

Definition newTrieNode (address prefixLen : Z) (srcs : list srcEntry) : trieNode :=
  Node address prefixLen (prefixLen / 8) (7 - prefixLen mod 8) srcs (matchAllSource srcs) Nil Nil.

Definition setSrcs (n : trieNode) (srcs : list srcEntry) : trieNode :=
  match n with
  | Nil => Nil
  | Node address prefixLen byteIndex bitShift _ _ child0 child1 =>
      Node address prefixLen byteIndex bitShift srcs (matchAllSource srcs) child0 child1
  end.

(** [n.child[bit] = c] *)
Definition setChild (n : trieNode) (bit : Z) (c : trieNode) : trieNode :=
  match n with
  | Nil => Nil
  | Node address prefixLen byteIndex bitShift srcs anySrc child0 child1 =>
      if bit =? 0 then Node address prefixLen byteIndex bitShift srcs anySrc c child1
      else Node address prefixLen byteIndex bitShift srcs anySrc child0 c
  end.

Definition compact (n : trieNode) : trieNode :=
  match n with
  | Node _ _ _ _ [] _ Nil child1 => child1
  | Node _ _ _ _ [] _ child0 Nil => child0
  | _ => n
  end.

Fixpoint edit (n : trieNode) (address prefixLen : Z)
    (change : list srcEntry → list srcEntry) : trieNode :=
  match n with
  | Nil =>
      match change [] with
      | [] => Nil
      | srcs => newTrieNode address prefixLen srcs
      end
  | Node nAddress nPrefixLen byteIndex bitShift srcs anySrc child0 child1 =>
      let common := Z.min (Z.min (commonBits nAddress address) nPrefixLen) prefixLen in
      if common <? nPrefixLen then
        match change [] with
        | [] => n
        | srcs =>
            let parent := newTrieNode address common [] in
            let parent := setChild parent (branch nAddress common) n in
            if common =? prefixLen then setSrcs parent srcs
            else setChild parent (branch address common) (newTrieNode address prefixLen srcs)
        end
      else if nPrefixLen =? prefixLen then
        compact (setSrcs n (change srcs))
      else
        let bit := branch address nPrefixLen in
        if bit =? 0
        then compact (setChild n 0 (edit child0 address prefixLen change))
        else compact (setChild n 1 (edit child1 address prefixLen change))
  end.

(** ** Set, Remove *)

(** [slices.BinarySearchFunc(next, src, want.Bits() - entry.src.Bits())]: the
    loop of the standard library, at most [fuel] halvings of [i, j). *)
Fixpoint searchLoop (fuel : nat) (next : list srcEntry) (want : Z) (i j : nat) : nat :=
  match fuel with
  | O => i
  | S fuel =>
      if bool_decide (i < j)%nat then
        let h := ((i + j) / 2)%nat in
        match next !! h with
        | Some entry =>
            if want - Bits (src entry) <? 0 then searchLoop fuel next want (h + 1) j
            else searchLoop fuel next want i h
        | None => i
        end
      else i
  end.

Definition search (next : list srcEntry) (want : Z) : nat :=
  searchLoop (length next) next want 0 (length next).

Fixpoint replaceValue (s : Prefix) (v : V) (next : list srcEntry) : option (list srcEntry) :=
  match next with
  | [] => None
  | entry :: rest =>
      if bool_decide (src entry = s) then Some (mkSrcEntry s v :: rest)
      else rest' ← replaceValue s v rest; Some (entry :: rest')
  end.

(** The closure [Set] passes to [change]. *)
Definition setEntry (s : Prefix) (v : V) (entries : list srcEntry) : list srcEntry :=
  match replaceValue s v entries with
  | Some next => next
  | None =>
      let at_ := search entries (Bits s) in
      take at_ entries ++ mkSrcEntry s v :: drop at_ entries
  end.

(** The closure [Remove] passes to [change]. *)
Fixpoint removeEntry (s : Prefix) (entries : list srcEntry) : list srcEntry :=
  match entries with
  | [] => []
  | entry :: rest => if bool_decide (src entry = s) then rest else entry :: removeEntry s rest
  end.

(** [removeValue], with whether the returned pointer is the argument itself:
    the source compares pointers to keep an untouched subtree shared. *)
Fixpoint removeValue (n : trieNode) (v : V) : trieNode * bool :=
  match n with
  | Nil => (Nil, true)
  | Node address prefixLen byteIndex bitShift srcs anySrc child0 child1 =>
      let '(left_, sameLeft) := removeValue child0 v in
      let '(right_, sameRight) := removeValue child1 v in
      let match_ := existsb (λ entry, bool_decide (value entry = v)) srcs in
      if negb match_ && sameLeft && sameRight then (n, true)
      else
        let copy := Node address prefixLen byteIndex bitShift srcs anySrc left_ right_ in
        let copy := if match_
          then setSrcs copy (List.filter (λ entry, negb (bool_decide (value entry = v))) srcs)
          else copy in
        (compact copy, false)
  end.

(** ** Lookup *)

(** One masked map lookup per length, longest first. *)
Fixpoint lookupIndex (byLen : list srcIndex) (s : Addr) : option V :=
  match byLen with
  | [] => None
  | group :: rest =>
      match m group !! Masked (PrefixFrom s (bits group)) with
      | Some v => Some v
      | None => lookupIndex rest s
      end
  end.

(** The ordered scan used where there is no index. *)
Fixpoint scan (srcs : list srcEntry) (s : Addr) : option V :=
  match srcs with
  | [] => None
  | entry :: rest =>
      if negb (IsValid (src entry)) then scan rest s
      else if Contains (src entry) s then Some (value entry)
      else scan rest s
  end.

(** What one node on the path contributes: a source match, or the match-all. *)
Definition nodeMatch (srcs : list srcEntry) (anySrc : option V) (s : Addr) : option V :=
  match (match indexSrcs srcs with
         | Some byLen => lookupIndex byLen s
         | None => scan srcs s
         end) with
  | Some v => Some v
  | None => anySrc
  end.

Fixpoint lookupLoop (n : trieNode) (s : Addr) (address : Z) (result : option V) : option V :=
  match n with
  | Nil => result
  | Node nAddress prefixLen byteIndex bitShift srcs anySrc child0 child1 =>
      if matches nAddress prefixLen (hi64 address) (lo64 address) then
        let result := match nodeMatch srcs anySrc s with Some v => Some v | None => result end in
        if prefixLen =? 128 then result
        else if Z.land (Z.shiftr (octet address byteIndex) bitShift) 1 =? 0
        then lookupLoop child0 s address result
        else lookupLoop child1 s address result
      else result
  end.

(** ** The table *)

Record roots := mkRoots { ipv4 : trieNode; ipv6 : trieNode }.

(** [None] is the zero table, whose root pointer is nil. *)
Definition Table : Type := option roots.

Record Route := mkRoute { Source : Prefix; Destination : Prefix; Value : V }.

Definition validPrefixes (s d : Prefix) : bool :=
  IsValid d && (negb (IsValid s) || (BitLen (prefix_addr s) =? BitLen (prefix_addr d))).

Definition change (t : Table) (s d : Prefix) (fn : list srcEntry → list srcEntry) : Table :=
  if negb (validPrefixes s d) then t
  else
    let next := default (mkRoots Nil Nil) t in
    let prefixLen := u8 (Bits d) in
    let address := As16 (prefix_addr d) in
    if Is4 (prefix_addr d)
    then Some (mkRoots (edit (ipv4 next) address (u8 (prefixLen + 96)) fn) (ipv6 next))
    else Some (mkRoots (ipv4 next) (edit (ipv6 next) address prefixLen fn)).

Definition Set_ (t : Table) (s d : Prefix) (v : V) : Table :=
  let s := Masked s in change t s d (setEntry s v).

Definition Remove (t : Table) (s d : Prefix) : Table :=
  let s := Masked s in change t s d (removeEntry s).

Definition RemoveValue (t : Table) (v : V) : Table :=
  match t with
  | None => None
  | Some current => Some (mkRoots (removeValue (ipv4 current) v).1 (removeValue (ipv6 current) v).1)
  end.

Definition Lookup (t : Table) (s d : Addr) : option V :=
  match t with
  | None => None
  | Some current =>
      if negb (addr_valid d) then None
      else lookupLoop (if Is4 d then ipv4 current else ipv6 current) s (As16 d) None
  end.

(** [netip.AddrFrom16(address)], unmapped for the IPv4 trie, with the length
    [prefixLen] counts in that family. *)
Definition nodePrefix (isIPv4 : bool) (address prefixLen : Z) : Prefix :=
  Masked (if isIPv4 then PrefixFrom (Unmap (Addr6 address)) (prefixLen - 96)
          else PrefixFrom (Addr6 address) prefixLen).

(** The routes [All] yields, in order; the consumer takes all of them. *)
Fixpoint walk (n : trieNode) (isIPv4 : bool) : list Route :=
  match n with
  | Nil => []
  | Node address prefixLen _ _ srcs _ child0 child1 =>
      map (λ entry, mkRoute (src entry) (nodePrefix isIPv4 address prefixLen) (value entry)) srcs
      ++ walk child0 isIPv4 ++ walk child1 isIPv4
  end.

Definition All (t : Table) : list Route :=
  match t with
  | None => []
  | Some snapshot => walk (ipv4 snapshot) true ++ walk (ipv6 snapshot) false
  end.

End table.

Arguments srcEntry : clear implicits.
Arguments trieNode : clear implicits.
Arguments roots : clear implicits.
Arguments Table : clear implicits.
Arguments Route : clear implicits.
Arguments srcIndex : clear implicits.
End Sadr.
