(* ===== verification/SadrSources.v ===== *)
(** * Source prefixes of one routing node

    The invariant of a node's source list (canonical, distinct, longest first),
    its preservation by the edits of [Set], [Remove] and [RemoveValue], and the
    equivalence of the per-length index with the ordered scan and with the
    reference rule: the first entry, in length order, that matches. *)

From S2P Require Import Prelude Netip Sadr.
Import Sadr.

(** * Word-level prefix tests of the routing trie

    The trie compares addresses by 64-bit words and picks a branch out of one
    byte; these lemmas relate that arithmetic to the mathematical notion, two
    128-bit addresses agreeing on their first [n] bits. *)

Definition is128 (a : Z) : Prop := 0 ≤ a < 2 ^ 128.

(** The first [n] bits of [a] and [b] are the same. *)
Definition agree (n a b : Z) : bool := Z.shiftr a (128 - n) =? Z.shiftr b (128 - n).

(** Bit [n] of an address, counted from the most significant. *)
Definition bit_of (a n : Z) : bool := Z.testbit a (127 - n).

Lemma agree_refl n a : agree n a a = true.
Proof. apply Z.eqb_refl. Qed.

Lemma agree_sym n a b : agree n a b = agree n b a.
Proof. apply Z.eqb_sym. Qed.

Lemma agree_trans n a b c : agree n a b = true → agree n b c = true → agree n a c = true.
Proof. unfold agree. rewrite !Z.eqb_eq. congruence. Qed.

(** Agreement is transported along agreement. *)
Lemma agree_transport n a b c : agree n a b = true → agree n a c = agree n b c.
Proof. unfold agree. by intros ->%Z.eqb_eq. Qed.

Lemma agree_mono n k a b : k ≤ n → n ≤ 128 → agree n a b = true → agree k a b = true.
Proof.
  unfold agree. rewrite !Z.eqb_eq. intros Hk Hn E.
  replace (128 - k) with ((128 - n) + (n - k)) by lia.
  rewrite <- !Z.shiftr_shiftr by lia. by rewrite E.
Qed.

Lemma agree_zero a b : is128 a → is128 b → agree 0 a b = true.
Proof.
  unfold is128, agree. intros. rewrite Z.eqb_eq, !Z.shiftr_div_pow2, !Z.div_small by lia. done.
Qed.

Lemma agree_bit n k a b :
  0 ≤ k < n → n ≤ 128 → agree n a b = true → bit_of a k = bit_of b k.
Proof.
  unfold agree, bit_of. rewrite Z.eqb_eq. intros Hk Hn E.
  apply (f_equal (λ z, Z.testbit z (n - 1 - k))) in E.
  rewrite !Z.shiftr_spec in E by lia. by replace (n - 1 - k + (128 - n)) with (127 - k) in E by lia.
Qed.

Lemma agree_succ n a b :
  0 ≤ n < 128 → agree (n + 1) a b = agree n a b && Bool.eqb (bit_of a n) (bit_of b n).
Proof.
  intros Hn. apply eq_iff_eq_true. rewrite andb_true_iff, Bool.eqb_true_iff. split.
  - intros H. split; [apply (agree_mono (n + 1)); [lia..|done] | apply (agree_bit (n + 1)); [lia..|done]].
  - unfold agree, bit_of. rewrite !Z.eqb_eq. intros [E Eb]. apply Z.bits_inj'. intros i Hi.
    rewrite !Z.shiftr_spec by lia. destruct (Z.eq_dec i 0) as [->|Hne].
    + by replace (0 + (128 - (n + 1))) with (127 - n) by lia.
    + apply (f_equal (λ z, Z.testbit z (i - 1))) in E. rewrite !Z.shiftr_spec in E by lia.
      by replace (i - 1 + (128 - n)) with (i + (128 - (n + 1))) in E by lia.
Qed.

(** ** Bytes and words *)

Lemma hi64_val a : is128 a → hi64 a = a / 2 ^ 64.
Proof.
  intros Ha. unfold hi64. change 16%nat with (8 + 8)%nat. rewrite be_to_app.
  rewrite take_app_length' by (by rewrite length_be_to). rewrite be_of_be_to.
  change (256 ^ Z.of_nat 8) with (2 ^ 64). unfold is128 in Ha. apply Z.mod_small.
  split; [apply Z.div_pos; lia | apply Z.div_lt_upper_bound; lia].
Qed.

Lemma lo64_val a : lo64 a = a mod 2 ^ 64.
Proof.
  unfold lo64. change 16%nat with (8 + 8)%nat. rewrite be_to_app.
  rewrite drop_app_length' by (by rewrite length_be_to). by rewrite be_of_be_to.
Qed.

Lemma low_bit x k : 0 ≤ k → Z.land (Z.shiftr x k) 1 = Z.b2z (Z.testbit x k).
Proof.
  intros Hk. change 1 with (Z.ones 1) at 1. rewrite Z.land_ones by lia.
  rewrite Z.testbit_spec' by lia. by rewrite Z.shiftr_div_pow2 by lia.
Qed.

Lemma octet_bit a i k :
  0 ≤ i < 16 → 0 ≤ k < 8 → Z.testbit (octet a i) k = Z.testbit a (8 * (15 - i) + k).
Proof.
  intros Hi Hk. unfold octet. rewrite lookup_be_to by lia. simpl.
  change 256 with (2 ^ 8) at 2. rewrite Z.mod_pow2_bits_low by lia.
  change 256 with (2 ^ 8). rewrite <- Z.pow_mul_r, Z.div_pow2_bits by lia. f_equal. lia.
Qed.

(** The branch taken at bit [n] is that bit of the address. *)
Lemma branch_val a n : 0 ≤ n < 128 → branch a n = Z.b2z (bit_of a n).
Proof.
  intros Hn. unfold branch, bit_of. rewrite low_bit, octet_bit by divlia. do 2 f_equal. divlia.
Qed.

(** The same branch through the cached byte index and shift of a node. *)
Lemma cached_branch a n :
  0 ≤ n < 128 → Z.land (Z.shiftr (octet a (n / 8)) (7 - n mod 8)) 1 = Z.b2z (bit_of a n).
Proof. apply branch_val. Qed.

Lemma shiftr_zero_iff x k : 0 ≤ x → 0 ≤ k → Z.shiftr x k = 0 ↔ x < 2 ^ k.
Proof.
  intros Hx Hk. rewrite Z.shiftr_div_pow2 by lia. pose proof (Z.pow_pos_nonneg 2 k).
  rewrite Z.div_small_iff by lia. lia.
Qed.

Lemma agree_lxor n a b :
  is128 a → is128 b → 0 ≤ n ≤ 128 → agree n a b = true ↔ Z.lxor a b < 2 ^ (128 - n).
Proof.
  intros Ha Hb Hn. unfold agree. rewrite <- lxor_shiftr_zero, Z.eqb_eq.
  apply shiftr_zero_iff; [|lia]. apply Z.lxor_nonneg. unfold is128 in *. lia.
Qed.

(** The high and low words of the difference of two addresses. *)
Lemma diff_words a b :
  is128 a → is128 b →
  0 ≤ Z.lxor (lo64 a) (lo64 b) < 2 ^ 64 ∧ 0 ≤ Z.lxor (hi64 a) (hi64 b) < 2 ^ 64 ∧
  Z.lxor a b = Z.lxor (hi64 a) (hi64 b) * 2 ^ 64 + Z.lxor (lo64 a) (lo64 b).
Proof.
  intros Ha Hb. rewrite !hi64_val, !lo64_val by done. unfold is128 in *.
  assert (Z.lxor (a mod 2 ^ 64) (b mod 2 ^ 64) = Z.lxor a b mod 2 ^ 64) as ->.
  { rewrite <- !Z.land_ones by lia. apply Z.bits_inj'. intros i Hi.
    rewrite Z.lxor_spec, !Z.land_spec, Z.lxor_spec. by destruct (Z.testbit a i), (Z.testbit b i), (Z.testbit (Z.ones 64) i). }
  rewrite <- !Z.shiftr_div_pow2 by lia. rewrite <- Z.shiftr_lxor, Z.shiftr_div_pow2 by lia.
  assert (0 ≤ Z.lxor a b < 2 ^ 128) as Hd.
  { split; [apply Z.lxor_nonneg; lia|].
    destruct (Z.eq_dec (Z.lxor a b) 0) as [->|Hne]; [lia|].
    assert (0 ≤ Z.lxor a b) by (apply Z.lxor_nonneg; lia).
    apply Z.log2_lt_pow2; [lia|]. eapply Z.le_lt_trans; [apply Z.log2_lxor; lia|].
    apply Z.max_lub_lt.
    - destruct (Z.eq_dec a 0) as [->|]; [done|]. apply Z.log2_lt_pow2; lia.
    - destruct (Z.eq_dec b 0) as [->|]; [done|]. apply Z.log2_lt_pow2; lia. }
  split_and!; try divlia.
Qed.

Lemma LeadingZeros64_spec x k :
  0 ≤ x < 2 ^ 64 → 0 ≤ k ≤ 64 → k ≤ LeadingZeros64 x ↔ x < 2 ^ (64 - k).
Proof.
  intros Hx Hk. unfold LeadingZeros64. destruct (Z.eqb_spec x 0) as [->|Hne].
  - pose proof (Z.pow_pos_nonneg 2 (64 - k)). lia.
  - pose proof (Z.log2_lt_pow2 x (64 - k)). lia.
Qed.

Lemma LeadingZeros64_bound x : 0 ≤ x < 2 ^ 64 → 0 ≤ LeadingZeros64 x ≤ 64.
Proof.
  intros Hx. unfold LeadingZeros64. destruct (Z.eqb_spec x 0) as [->|Hne]; [lia|].
  pose proof (Z.log2_nonneg x). pose proof (Z.log2_lt_pow2 x 64). lia.
Qed.

Lemma diff_split H L n :
  0 ≤ L < 2 ^ 64 → 0 ≤ H → 0 ≤ n ≤ 128 →
  H * 2 ^ 64 + L < 2 ^ (128 - n) ↔
  if n <=? 64 then H < 2 ^ (64 - n) else H = 0 ∧ L < 2 ^ (128 - n).
Proof.
  intros HL HH Hn. destruct (Z.leb_spec n 64).
  - replace (128 - n) with ((64 - n) + 64) by lia. rewrite Z.pow_add_r by lia.
    set (p := 2 ^ (64 - n)). split; intros; nia.
  - assert (2 ^ (128 - n) < 2 ^ 64) by (apply Z.pow_lt_mono_r; lia). split; intros; nia.
Qed.

(** [commonBits] is the longest prefix two addresses share. *)
Lemma commonBits_spec n a b :
  is128 a → is128 b → 0 ≤ n ≤ 128 → agree n a b = true ↔ n ≤ commonBits a b.
Proof.
  intros Ha Hb Hn. destruct (diff_words a b Ha Hb) as (HL & HH & E).
  rewrite agree_lxor, E, diff_split by (auto; lia). unfold commonBits.
  set (H := Z.lxor (hi64 a) (hi64 b)) in *. set (L := Z.lxor (lo64 a) (lo64 b)) in *.
  pose proof (LeadingZeros64_bound H HH). pose proof (LeadingZeros64_bound L HL).
  unfold u8. destruct (Z.eqb_spec (LeadingZeros64 H) 64) as [E64|E64]; rewrite Z.mod_small by lia.
  - assert (H = 0) by (pose proof (LeadingZeros64_spec H 64); lia).
    destruct (Z.leb_spec n 64).
    + pose proof (Z.pow_pos_nonneg 2 (64 - n)). lia.
    + pose proof (LeadingZeros64_spec L (n - 64)).
      replace (64 - (n - 64)) with (128 - n) in * by lia. lia.
  - destruct (Z.leb_spec n 64).
    + pose proof (LeadingZeros64_spec H n). lia.
    + assert (H ≠ 0) by (unfold LeadingZeros64 in E64; destruct (Z.eqb_spec H 0); congruence). lia.
Qed.

Lemma commonBits_bound a b : is128 a → is128 b → 0 ≤ commonBits a b ≤ 128.
Proof.
  intros Ha Hb. destruct (diff_words a b Ha Hb) as (HL & HH & _). unfold commonBits, u8.
  pose proof (LeadingZeros64_bound _ HH). pose proof (LeadingZeros64_bound _ HL).
  destruct (_ =? 64); rewrite Z.mod_small; lia.
Qed.

(** The two-word comparison of [matches] decides agreement on the node's prefix. *)
Lemma matches_spec a n b :
  is128 a → is128 b → 0 ≤ n ≤ 128 → matches a n (hi64 b) (lo64 b) = agree n a b.
Proof.
  intros Ha Hb Hn. destruct (diff_words a b Ha Hb) as (HL & HH & E).
  apply eq_iff_eq_true. rewrite agree_lxor, E, diff_split by (auto; lia). unfold matches.
  assert (∀ x k, 0 ≤ x < 2 ^ 64 → 0 ≤ k → (shr64 x k =? 0) = true ↔ x < 2 ^ k) as Hshr.
  { intros x k Hx Hk. unfold shr64. rewrite Z.eqb_eq. destruct (Z.leb_spec 64 k).
    - pose proof (Z.pow_le_mono_r 2 64 k). lia.
    - apply shiftr_zero_iff; lia. }
  destruct (Z.leb_spec n 64).
  - apply Hshr; lia.
  - rewrite andb_true_iff, Z.eqb_eq, Hshr by lia. done.
Qed.

Section sources.
Context {V : Type} `{!EqDecision V}.
Implicit Types (l : list (srcEntry V)) (e : srcEntry V).

(** A canonical source of the family with [fam] address bits. *)
Definition source_ok (fam : Z) (p : Prefix) : Prop :=
  prefix_ok p ∧ Masked p = p ∧ (IsValid p = true → BitLen (prefix_addr p) = fam).

Definition longer e1 e2 : Prop := Bits (src e2) ≤ Bits (src e1).

Record srcs_ok (fam : Z) l : Prop := {
  srcs_source : Forall (λ e, source_ok fam (src e)) l;
  srcs_nodup : NoDup (src <$> l);
  srcs_sorted : StronglySorted longer l
}.

(** ** Reference rules *)

(** An invalid source matches every address. *)
Definition sourceMatches (p : Prefix) (s : Addr) : bool := negb (IsValid p) || Contains p s.

Fixpoint firstMatch l (s : Addr) : option V :=
  match l with
  | [] => None
  | e :: rest => if sourceMatches (src e) s then Some (value e) else firstMatch rest s
  end.

Fixpoint valueOf l (p : Prefix) : option V :=
  match l with
  | [] => None
  | e :: rest => if bool_decide (src e = p) then Some (value e) else valueOf rest p
  end.

(** ** Canonical sources *)

Lemma Bits_invalid fam p : source_ok fam p → IsValid p = false → Bits p = -1.
Proof. intros [_ [E _]] Hv. rewrite Masked_invalid in E by done. by rewrite <- E. Qed.

Lemma Bits_valid fam p : source_ok fam p → IsValid p = true → 0 ≤ Bits p ≤ 128.
Proof.
  intros [[_ Hp] _] Hv. unfold IsValid, Bits in *. bool_props.
  destruct Hp as [?|[_ ?]]; [lia|]. destruct (prefix_addr p); simpl in *; lia.
Qed.

(** For a canonical source, containment is one comparison of masked prefixes. *)
Lemma Contains_key fam p s :
  source_ok fam p → IsValid p = true → addr_ok s →
  Contains p s = bool_decide (Masked (PrefixFrom s (Bits p)) = p).
Proof.
  intros (Hp & Hm & Hf) Hv Hs. specialize (Hf Hv).
  destruct (decide (addr_valid s = true ∧ BitLen (prefix_addr p) = BitLen s)) as [[Ha Hl]|Hno].
  - rewrite Contains_Masked by done. by rewrite Hm.
  - assert (Contains p s = false) as ->.
    { unfold Contains. rewrite Hv. simpl. destruct (addr_valid s) eqn:Ha; [|done]. simpl.
      destruct (Z.eqb_spec (BitLen (prefix_addr p)) (BitLen s)); [|done]. naive_solver. }
    symmetry. apply bool_decide_eq_false_2. intros E. apply Hno.
    assert (IsValid (Masked (PrefixFrom s (Bits p))) = true) as Hv2 by (by rewrite E).
    rewrite Masked_valid in Hv2 by (by apply PrefixFrom_ok).
    rewrite PrefixFrom_valid in Hv2. bool_props. split; [done|].
    rewrite Masked_shape in E; [|by apply PrefixFrom_ok | rewrite PrefixFrom_valid; by rewrite !andb_true_iff, !Z.leb_le].
    rewrite <- E. simpl. by rewrite BitLen_mask.
Qed.

Lemma srcs_cons fam e l :
  srcs_ok fam (e :: l) ↔
  source_ok fam (src e) ∧ (src e ∉ (src <$> l)) ∧ Forall (longer e) l ∧ srcs_ok fam l.
Proof.
  split.
  - intros [H1 H2 H3]. inversion H1; subst. rewrite fmap_cons, NoDup_cons in H2.
    apply StronglySorted_cons in H3 as [? ?].
    destruct H2. split_and!; [done..|by split].
  - intros (? & ? & ? & []). split; [by constructor | by rewrite fmap_cons, NoDup_cons | by apply StronglySorted_cons].
Qed.

Lemma srcs_app fam l1 l2 : srcs_ok fam (l1 ++ l2) → srcs_ok fam l1 ∧ srcs_ok fam l2.
Proof.
  intros [H1 H2 H3]. rewrite Forall_app in H1. rewrite fmap_app, NoDup_app in H2.
  rewrite StronglySorted_app in H3. destruct H1, H2 as (?&?&?), H3 as (?&?&?). by split; split.
Qed.

Lemma srcs_nil fam : srcs_ok fam [].
Proof. split; [constructor | constructor | constructor]. Qed.

(** ** The match-all entry *)

Lemma all_invalid_scan fam l s :
  srcs_ok fam l → Forall (λ e, IsValid (src e) = false) l → scan l s = None.
Proof. intros _. induction 1 as [|e l He Hl IH]; simpl; [done|]. by rewrite He. Qed.

(** Scanning the valid sources and then trying the match-all one is the
    reference rule, because the match-all entry sorts last. *)
Lemma scan_firstMatch fam l s :
  srcs_ok fam l →
  match scan l s with Some v => Some v | None => matchAllSource l end = firstMatch l s.
Proof.
  induction l as [|e l IH]; intros Hok; simpl; [done|].
  pose proof Hok as (He & _ & Hlong & Hl)%srcs_cons. unfold sourceMatches.
  destruct (IsValid (src e)) eqn:Hv; simpl.
  - destruct (Contains _ _); [done|]. by apply IH.
  - rewrite (all_invalid_scan fam l s Hl); [done|].
    pose proof (srcs_source _ _ Hl) as Hsrc. pose proof (Bits_invalid _ _ He Hv) as Hb.
    rewrite Forall_forall in *. intros x Hx. specialize (Hlong x Hx). unfold longer in Hlong.
    destruct (IsValid (src x)) eqn:Hvx; [|done].
    pose proof (Bits_valid _ _ (Hsrc x Hx) Hvx). lia.
Qed.

(** ** The index *)

Lemma runOf_spec b l run after :
  runOf b l = (run, after) →
  l = run ++ after ∧ Forall (λ e, IsValid (src e) = true ∧ Bits (src e) = b) run.
Proof.
  revert run after. induction l as [|e l IH]; simpl; intros run after H; [by injection H as <- <-|].
  destruct (_ && _) eqn:E; [|by injection H as <- <-].
  destruct (runOf b l) as [r a] eqn:Er. injection H as <- <-.
  destruct (IH _ _ eq_refl) as [-> Hr]. bool_props. split; [done | by constructor].
Qed.

Lemma scan_app l1 l2 s :
  scan (l1 ++ l2) s = match scan l1 s with Some v => Some v | None => scan l2 s end.
Proof. induction l1 as [|e l1 IH]; simpl; [done|]. by repeat case_match. Qed.

Lemma scan_none_key fam b run s :
  srcs_ok fam run → addr_ok s → Forall (λ e, IsValid (src e) = true ∧ Bits (src e) = b) run →
  Masked (PrefixFrom s b) ∉ (src <$> run) → scan run s = None.
Proof.
  induction run as [|e run IH]; intros Hok Hs Hr Hk; simpl; [done|].
  apply srcs_cons in Hok as (He & _ & _ & Hok). inversion Hr as [|?? [Hv Hb] Hr']; subst.
  rewrite Hv. simpl. rewrite (Contains_key fam) by done. rewrite fmap_cons in Hk.
  rewrite bool_decide_eq_false_2 by set_solver. apply IH; [done..|]. set_solver.
Qed.

Lemma group_lookup fam b run s acc :
  srcs_ok fam run → addr_ok s → Forall (λ e, IsValid (src e) = true ∧ Bits (src e) = b) run →
  (fold_left (λ acc e, <[src e := value e]> acc) run acc : gmap Prefix V) !! Masked (PrefixFrom s b)
  = match scan run s with Some v => Some v | None => acc !! Masked (PrefixFrom s b) end.
Proof.
  revert acc. induction run as [|e run IH]; intros acc Hok Hs Hr; simpl; [done|].
  pose proof Hok as (He & Hni & _ & Hok')%srcs_cons. inversion Hr as [|?? [Hv Hb] Hr']; subst.
  rewrite IH by done. rewrite Hv. simpl. rewrite (Contains_key fam) by done.
  case_bool_decide as E.
  - rewrite (scan_none_key fam (Bits (src e))) by (rewrite ?E; done). by rewrite E, lookup_insert_eq.
  - rewrite lookup_insert_ne by done. done.
Qed.

Lemma lookupIndex_scan fam fuel l s :
  srcs_ok fam l → addr_ok s → (length l ≤ fuel)%nat → lookupIndex (groups fuel l) s = scan l s.
Proof.
  revert l. induction fuel as [|fuel IH]; intros l Hok Hs Hlen.
  { by destruct l; simpl in *; [|lia]. }
  destruct l as [|e l]; [done|]. pose proof Hok as (He & _ & _ & Hl)%srcs_cons.
  cbn [groups]. destruct (IsValid (src e)) eqn:Hv; cbn [negb].
  2:{ simpl. rewrite Hv. simpl. apply IH; [done..|]. simpl in Hlen. lia. }
  destruct (runOf (Bits (src e)) (e :: l)) as [run after] eqn:Er.
  assert (run ≠ []) as Hne.
  { simpl in Er. rewrite Hv, Z.eqb_refl in Er. simpl in Er. destruct (runOf _ l). by injection Er as <- <-. }
  apply runOf_spec in Er as [El Hr]. rewrite El in *. apply srcs_app in Hok as [Hrun Haft].
  simpl. pose proof (Bits_valid _ _ He Hv). unfold u8. rewrite Z.mod_small by lia.
  rewrite (group_lookup fam), lookup_empty, scan_app by done.
  destruct (scan run s); [done|]. apply IH; [done..|].
  rewrite length_app in Hlen. destruct run; simpl in *; [done | lia].
Qed.

(** What one node contributes to a lookup is its first matching source. *)
Lemma nodeMatch_firstMatch fam l s :
  srcs_ok fam l → addr_ok s → nodeMatch l (matchAllSource l) s = firstMatch l s.
Proof.
  intros Hok Hs. unfold nodeMatch, indexSrcs. rewrite <- (scan_firstMatch fam) by done.
  destruct (countRuns None l). destruct (_ || _); [done|].
  by rewrite (lookupIndex_scan fam).
Qed.

(** ** Edits *)

Lemma searchLoop_spec l want fuel i j :
  StronglySorted longer l → (i ≤ j)%nat → (j ≤ length l)%nat → (j - i ≤ fuel)%nat →
  (∀ k e, l !! k = Some e → (k < i)%nat → want < Bits (src e)) →
  (∀ k e, l !! k = Some e → (j ≤ k)%nat → Bits (src e) ≤ want) →
  let at_ := searchLoop fuel l want i j in
  (at_ ≤ length l)%nat ∧
  (∀ k e, l !! k = Some e → (k < at_)%nat → want < Bits (src e)) ∧
  (∀ k e, l !! k = Some e → (at_ ≤ k)%nat → Bits (src e) ≤ want).
Proof.
  intros Hs. revert i j. induction fuel as [|fuel IH]; intros i j Hij Hj Hf Hlo Hhi; cbn [searchLoop].
  { replace j with i in * by lia. split_and!; [lia | done..]. }
  case_bool_decide as Hlt; [|replace j with i in * by lia; split_and!; [lia | done..]].
  assert ((i + j) / 2 < j ∧ i ≤ (i + j) / 2)%nat as [Hh1 Hh2].
  { split; [apply Nat.Div0.div_lt_upper_bound; lia | apply Nat.div_le_lower_bound; lia]. }
  set (h := ((i + j) / 2)%nat) in *.
  destruct (lookup_lt_is_Some_2 l h) as [eh Heh]; [lia|]. rewrite Heh.
  assert (∀ k1 k2 e1 e2, l !! k1 = Some e1 → l !! k2 = Some e2 → (k1 ≤ k2)%nat → longer e1 e2) as Hord.
  { intros k1 k2 e1 e2 H1 H2 Hk. destruct (decide (k1 = k2)) as [->|Hne].
    { unfold longer. rewrite H1 in H2. injection H2 as <-. lia. }
    rewrite <- (take_drop_middle l k1 e1 H1) in Hs. apply StronglySorted_app_1_r, StronglySorted_cons in Hs as [Hs _].
    rewrite Forall_forall in Hs. apply Hs, list_elem_of_lookup. exists (k2 - S k1)%nat.
    rewrite lookup_drop. by replace (S k1 + (k2 - S k1))%nat with k2 by lia. }
  destruct (Z.ltb_spec (want - Bits (src eh)) 0).
  - apply IH; [lia | lia | lia | | done]. intros k e Hk Hlt'.
    pose proof (Hord k h e eh Hk Heh ltac:(lia)). unfold longer in *. lia.
  - apply IH; [lia | lia | lia | done |]. intros k e Hk Hle.
    pose proof (Hord h k eh e Heh Hk ltac:(lia)). unfold longer in *. lia.
Qed.

(** The binary search returns the insertion point that keeps the list ordered. *)
Lemma search_spec l want :
  StronglySorted longer l →
  (search l want ≤ length l)%nat ∧
  Forall (λ e, want < Bits (src e)) (take (search l want) l) ∧
  Forall (λ e, Bits (src e) ≤ want) (drop (search l want) l).
Proof.
  intros Hs. destruct (searchLoop_spec l want (length l) 0 (length l)) as (H1 & H2 & H3); try done; try lia.
  { intros k e Hk%lookup_lt_Some ?. lia. }
  split_and!; [done|..]; apply Forall_lookup; intros k e Hk.
  - apply lookup_take_Some in Hk as [Hk ?]. eauto.
  - rewrite lookup_drop in Hk. apply (H3 (search l want + k)%nat); [done|]. unfold search. lia.
Qed.

Lemma replaceValue_spec s v l l' :
  replaceValue s v l = Some l' →
  s ∈ (src <$> l) ∧ src <$> l' = src <$> l ∧
  ∀ p, valueOf l' p = if bool_decide (p = s) then Some v else valueOf l p.
Proof.
  revert l'. induction l as [|e l IH]; intros l' H; simpl in *; [done|].
  case_bool_decide as E.
  - injection H as <-. split_and!; [set_solver | by rewrite !fmap_cons, E|].
    intros p. simpl. repeat case_bool_decide; congruence.
  - destruct (replaceValue s v l) as [l2|] eqn:El; [|done]. injection H as <-.
    destruct (IH l2 eq_refl) as (H1 & H2 & H3). split_and!; [set_solver | by rewrite !fmap_cons, H2|].
    intros p. simpl. rewrite H3. repeat case_bool_decide; congruence.
Qed.

Lemma replaceValue_none s v l : replaceValue s v l = None → s ∉ (src <$> l).
Proof.
  induction l as [|e l IH]; simpl; intros H; [set_solver|].
  case_bool_decide; [done|]. destruct (replaceValue s v l); [done|]. set_solver.
Qed.

(** The invariant only reads the prefixes. *)
Lemma srcs_ok_same_src fam l l' : src <$> l' = src <$> l → srcs_ok fam l → srcs_ok fam l'.
Proof.
  revert l'. induction l as [|e l IH]; intros [|e' l'] E; try done.
  rewrite !fmap_cons in E. injection E as E1 E2. rewrite !srcs_cons.
  intros (H1 & H2 & H3 & H4). rewrite E1, E2. split_and!; [done | done | | by apply IH].
  clear -E1 E2 H3. revert l' E2. induction H3; intros [|x' l'] E2; try done.
  rewrite !fmap_cons in E2. injection E2 as Ex El. constructor; [|by apply IHForall].
  unfold longer in *. by rewrite E1, Ex.
Qed.

Lemma valueOf_none l p : p ∉ (src <$> l) → valueOf l p = None.
Proof.
  induction l as [|e l IH]; simpl; [done|]. intros H.
  rewrite bool_decide_eq_false_2 by set_solver. apply IH. set_solver.
Qed.

Lemma valueOf_app l1 l2 p :
  valueOf (l1 ++ l2) p = match valueOf l1 p with Some v => Some v | None => valueOf l2 p end.
Proof. induction l1 as [|e l1 IH]; simpl; [done|]. by case_bool_decide. Qed.

Lemma setEntry_spec fam s v l :
  source_ok fam s → srcs_ok fam l →
  srcs_ok fam (setEntry s v l) ∧
  ∀ p, valueOf (setEntry s v l) p = if bool_decide (p = s) then Some v else valueOf l p.
Proof.
  intros Hs Hok. unfold setEntry. destruct (replaceValue s v l) as [l'|] eqn:E.
  { apply replaceValue_spec in E as (_ & E1 & E2). split; [by eapply srcs_ok_same_src | done]. }
  apply replaceValue_none in E. destruct (search_spec l (Bits s) (srcs_sorted _ _ Hok)) as (_ & Hlo & Hhi).
  set (k := search l (Bits s)) in *. rewrite <- (take_drop k l) in E, Hok. destruct Hok as [H1 H2 H3].
  rewrite fmap_app in *. apply Forall_app in H1 as [H1a H1b]. apply NoDup_app in H2 as (H2a & H2b & H2c).
  apply StronglySorted_app in H3 as (H3a & H3b & H3c). split.
  - split.
    + by apply Forall_app; split; [|constructor].
    + rewrite fmap_app, fmap_cons, NoDup_app, NoDup_cons. simpl. set_solver.
    + rewrite StronglySorted_app, StronglySorted_cons. split_and!; [|done| |done].
      * rewrite Forall_forall in Hlo. intros x1 x2 Hx1 [->|Hx2]%elem_of_cons; [|by apply H3a].
        specialize (Hlo _ Hx1). unfold longer. simpl. lia.
      * rewrite Forall_forall in *. intros x Hx. unfold longer. simpl. auto.
  - intros p. assert (valueOf l p = valueOf (take k l ++ drop k l) p) as -> by (by rewrite take_drop).
    rewrite !valueOf_app. simpl. case_bool_decide as Ep; subst.
    + rewrite bool_decide_eq_true_2, (valueOf_none (take k l)) by set_solver. done.
    + by rewrite bool_decide_eq_false_2 by congruence.
Qed.

Lemma removeEntry_spec fam s l :
  srcs_ok fam l →
  srcs_ok fam (removeEntry s l) ∧ (∀ x, x ∈ removeEntry s l → x ∈ l) ∧
  ∀ p, valueOf (removeEntry s l) p = if bool_decide (p = s) then None else valueOf l p.
Proof.
  induction l as [|e l IH]; intros Hok; simpl.
  { split_and!; [apply srcs_nil | done |]. intros p. by case_bool_decide. }
  pose proof Hok as (He & Hni & Hlong & Hl)%srcs_cons. case_bool_decide as E; subst.
  - split_and!; [done | set_solver |]. intros p. case_bool_decide; subst.
    + by rewrite valueOf_none.
    + by rewrite bool_decide_eq_false_2 by congruence.
  - destruct (IH Hl) as (H1 & H2 & H3). split_and!; [|set_solver|].
    + apply srcs_cons. split_and!; [done | | | done].
      * intros Hin. apply Hni. apply list_elem_of_fmap in Hin as (x & Hx & Hin). set_solver.
      * rewrite Forall_forall in *. auto.
    + intros p. simpl. rewrite H3. repeat case_bool_decide; congruence.
Qed.

Lemma filter_value_spec fam (v : V) l :
  let l' := List.filter (λ e, negb (bool_decide (value e = v))) l in
  srcs_ok fam l →
  srcs_ok fam l' ∧
  ∀ p, valueOf l' p = match valueOf l p with
                      | Some x => if bool_decide (x = v) then None else Some x
                      | None => None end.
Proof.
  intros l'. subst l'. induction l as [|e l IH]; intros Hok; simpl; [split; [apply srcs_nil | done]|].
  pose proof Hok as (He & Hni & Hlong & Hl)%srcs_cons. destruct (IH Hl) as [H1 H2].
  assert (∀ x, x ∈ List.filter (λ e, negb (bool_decide (value e = v))) l → x ∈ l) as Hsub.
  { intros x. rewrite !list_elem_of_In, filter_In. naive_solver. }
  case_bool_decide as E; simpl.
  - split; [done|]. intros p. rewrite H2. case_bool_decide; subst; [|done].
    rewrite valueOf_none by done. by rewrite bool_decide_eq_true_2.
  - split.
    + apply srcs_cons. split_and!; [done | | | done].
      * intros Hin. apply Hni. apply list_elem_of_fmap in Hin as (x & Hx & Hin). set_solver.
      * rewrite Forall_forall in *. auto.
    + intros p. simpl. case_bool_decide; [|done]. by rewrite bool_decide_eq_false_2.
Qed.

(** Two canonical sources of one length that match one address are the same. *)
Lemma sourceMatches_unique fam S S' s :
  source_ok fam S → source_ok fam S' → addr_ok s →
  sourceMatches S s = true → sourceMatches S' s = true → Bits S' = Bits S → S' = S.
Proof.
  unfold sourceMatches. intros HS HS' Hs Hm Hm' Hb.
  destruct (IsValid S) eqn:Ev, (IsValid S') eqn:Ev'; simpl in *.
  - rewrite (Contains_key fam) in Hm, Hm' by done. bool_props. rewrite Hb in Hm'. congruence.
  - pose proof (Bits_invalid fam S' HS' Ev'). pose proof (Bits_valid fam S HS Ev). lia.
  - pose proof (Bits_invalid fam S HS Ev). pose proof (Bits_valid fam S' HS' Ev'). lia.
  - destruct HS as (_ & E & _), HS' as (_ & E' & _).
    rewrite Masked_invalid in E, E' by done. congruence.
Qed.

Lemma valueOf_elem (l : list (srcEntry V)) S v : valueOf l S = Some v → mkSrcEntry S v ∈ l.
Proof.
  induction l as [|[S0 v0] l IH]; simpl; [done|].
  case_bool_decide; [intros [= ->]; subst; set_solver | set_solver].
Qed.

Lemma elem_valueOf fam (l : list (srcEntry V)) S v :
  srcs_ok fam l → mkSrcEntry S v ∈ l → valueOf l S = Some v.
Proof.
  induction l as [|e l IH]; intros Hok Hin; [set_solver|]. apply srcs_cons in Hok as (_ & Hni & _ & Hok).
  simpl. apply elem_of_cons in Hin as [<-|Hin]; [by rewrite bool_decide_eq_true_2|].
  rewrite bool_decide_eq_false_2; [by apply IH|]. intros E. apply Hni. rewrite E.
  apply list_elem_of_fmap. by exists (mkSrcEntry S v).
Qed.

Lemma firstMatch_spec fam (l : list (srcEntry V)) s :
  srcs_ok fam l → addr_ok s →
  match firstMatch l s with
  | Some v => ∃ S, valueOf l S = Some v ∧ source_ok fam S ∧ sourceMatches S s = true ∧
      ∀ S' v', valueOf l S' = Some v' → sourceMatches S' s = true → S' = S ∨ Bits S' < Bits S
  | None => ∀ S' v', valueOf l S' = Some v' → sourceMatches S' s = false
  end.
Proof.
  induction l as [|e l IH]; intros Hok Hs; [done|]. pose proof Hok as (He & Hni & Hlong & Hl)%srcs_cons.
  specialize (IH Hl Hs). cbn [firstMatch]. destruct (sourceMatches (src e) s) eqn:Em.
  - exists (src e). simpl. rewrite bool_decide_eq_true_2 by done. split_and!; [done | apply He.. | done |].
    intros S' v'. case_bool_decide as E; [by left|]. intros Hv Hm. right.
    apply valueOf_elem in Hv. pose proof (srcs_source _ _ Hl) as Hsrc. rewrite Forall_forall in Hsrc, Hlong.
    pose proof (Hlong _ Hv) as Hle. pose proof (Hsrc _ Hv) as Hok'. unfold longer in Hle. simpl in *.
    destruct (Z.eq_dec (Bits S') (Bits (src e))) as [Eb|]; [|lia].
    exfalso. apply E. symmetry. by eapply sourceMatches_unique.
  - destruct (firstMatch l s) as [v|].
    + destruct IH as (S & Hv & HS & Hm & Hmax). exists S. simpl.
      rewrite bool_decide_eq_false_2 by congruence. split_and!; [done | apply HS.. | done |].
      intros S' v'. case_bool_decide; [intros; subst; congruence | eauto].
    + intros S' v'. simpl. case_bool_decide; [intros; by subst | eauto].
Qed.

(** The optimised source lookup. For any canonical source list, in an index
    of per-length maps or without one, what a node answers is the value of its
    longest matching source. *)
Theorem node_lookup_longest fam (l : list (srcEntry V)) s :
  srcs_ok fam l → addr_ok s →
  match nodeMatch l (matchAllSource l) s with
  | Some v => ∃ S, valueOf l S = Some v ∧ sourceMatches S s = true ∧
      ∀ S' v', valueOf l S' = Some v' → sourceMatches S' s = true → S' = S ∨ Bits S' < Bits S
  | None => ∀ S' v', valueOf l S' = Some v' → sourceMatches S' s = false
  end.
Proof.
  intros Hok Hs. rewrite (nodeMatch_firstMatch fam) by done.
  pose proof (firstMatch_spec fam l s Hok Hs) as H.
  destruct (firstMatch l s); [|done]. naive_solver.
Qed.

End sources.

(** Sources of one destination: enough of one length for the index to be built. *)
Definition indexed : list (srcEntry Z) :=
  [mkSrcEntry (PrefixFrom (Addr4 16777216) 8) 1; mkSrcEntry (PrefixFrom (Addr4 33554432) 8) 2;
   mkSrcEntry (PrefixFrom (Addr4 50331648) 8) 3; mkSrcEntry (PrefixFrom (Addr4 67108864) 8) 4;
   mkSrcEntry PrefixZero 9].

Lemma indexed_ok : srcs_ok 32 indexed.
Proof.
  split.
  - unfold indexed. repeat (apply List.Forall_cons; [cbn [src]; split;
      [first [apply PrefixZero_ok | apply PrefixFrom_ok; cbn [addr_ok]; lia] | split; [reflexivity | intros H; first [reflexivity | vm_compute in H; discriminate H]]]|]).
    apply List.Forall_nil.
  - apply (bool_decide_unpack _). vm_compute. exact I.
  - repeat constructor; unfold longer, Bits; simpl; lia.
Qed.

Lemma node_lookup_longest_witness :
  is_Some (indexSrcs indexed) ∧ nodeMatch indexed (matchAllSource indexed) (Addr4 33554433) = Some 2 ∧
  ∃ S, valueOf indexed S = Some 2 ∧ sourceMatches S (Addr4 33554433) = true.
Proof.
  split; [vm_compute; eexists; reflexivity|].
  assert (nodeMatch indexed (matchAllSource indexed) (Addr4 33554433) = Some 2) as E
    by (vm_compute; reflexivity).
  split; [exact E|].
  pose proof (node_lookup_longest 32 indexed (Addr4 33554433) indexed_ok ltac:(simpl; lia)) as H.
  rewrite E in H. destruct H as (S & H1 & H2 & _). exists S. split; [exact H1 | exact H2].
Defined.
