(* ===== verification/SadrTrie.v ===== *)
(** * The routing trie: invariant, abstraction and edits

    [find t a q] is the abstraction of a trie: the sources held for the
    destination made of the first [q] bits of [a]. [wf] is the structural
    invariant. [edit] preserves [wf] and changes [find] at one destination only,
    [removeValue] filters every destination, and the lookup loop returns the
    source match of the longest destination that has one. *)

From S2P Require Import Prelude Netip Sadr SadrSources.
Import Sadr.

Section trie.
Context {V : Type} `{!EqDecision V} (fam : Z).
Implicit Types (t l r : trieNode V) (srcs : list (srcEntry V)).

(** Every address of [t] extends the first [n] bits of [a] by the bit [b]. *)
Definition under (n a : Z) (b : bool) t : Prop :=
  match t with
  | Nil => True
  | Node a' p' _ _ _ _ _ _ => 0 ≤ n < p' ∧ agree n a' a = true ∧ bit_of a' n = b
  end.

Fixpoint wf t : Prop :=
  match t with
  | Nil => True
  | Node a p bi bs srcs any l r =>
      is128 a ∧ 0 ≤ p ≤ 128 ∧ bi = p / 8 ∧ bs = 7 - p mod 8 ∧
      any = matchAllSource srcs ∧ srcs_ok fam srcs ∧
      (srcs = [] → l ≠ Nil ∧ r ≠ Nil) ∧
      under p a false l ∧ under p a true r ∧ wf l ∧ wf r
  end.

(** A node that satisfies [wf] but may still need compacting. *)
Definition node_ok t : Prop :=
  match t with
  | Nil => False
  | Node a p bi bs srcs any l r =>
      is128 a ∧ 0 ≤ p ≤ 128 ∧ bi = p / 8 ∧ bs = 7 - p mod 8 ∧
      any = matchAllSource srcs ∧ srcs_ok fam srcs ∧
      under p a false l ∧ under p a true r ∧ wf l ∧ wf r
  end.

Fixpoint find t (a q : Z) : list (srcEntry V) :=
  match t with
  | Nil => []
  | Node a' p _ _ srcs _ l r =>
      if (p <=? q) && agree p a' a then
        if p =? q then srcs else find (if bit_of a p then r else l) a q
      else []
  end.

(** Unfold the invariant of a node into named hypotheses. *)
Ltac node_hyps H :=
  let Ha := fresh "Ha" in let Hp := fresh "Hp" in let Hbi := fresh "Hbi" in
  let Hbs := fresh "Hbs" in let Hany := fresh "Hany" in let Hsrcs := fresh "Hsrcs" in
  let Hcomp := fresh "Hcomp" in let Hul := fresh "Hul" in let Hur := fresh "Hur" in
  let Hwl := fresh "Hwl" in let Hwr := fresh "Hwr" in
  destruct H as (Ha & Hp & Hbi & Hbs & Hany & Hsrcs & Hcomp & Hul & Hur & Hwl & Hwr).

Lemma wf_node_ok t : wf t → t ≠ Nil → node_ok t.
Proof. destruct t; [done|]. simpl. naive_solver. Qed.

(** ** find *)

(** A destination found below a side of a node extends that side. *)
Lemma find_under n a0 b t a q :
  wf t → under n a0 b t →
  find t a q = [] ∨ (n < q ∧ agree n a0 a = true ∧ bit_of a n = b).
Proof.
  destruct t as [|a' p bi bs srcs any l r]; simpl; [by left|].
  intros Hwf (Hnp & Hag & Hb). node_hyps Hwf.
  destruct (Z.leb_spec p q); simpl; [|by left]. destruct (agree p a' a) eqn:Ep; [|by left].
  right. split_and!; [lia | |].
  - eapply agree_trans; [rewrite agree_sym; exact Hag|]. apply (agree_mono p); [lia..|done].
  - rewrite <- Hb. symmetry. apply (agree_bit p); [lia..|done].
Qed.

Lemma find_agree t a a' q : wf t → q ≤ 128 → agree q a a' = true → find t a q = find t a' q.
Proof.
  induction t as [|a0 p bi bs srcs any l IHl r IHr]; [done|]. intros Hwf Hq Hag. simpl.
  node_hyps Hwf. destruct (Z.leb_spec p q); simpl; [|done].
  assert (agree p a a' = true) as Hag' by (apply (agree_mono q); [lia..|done]).
  rewrite (agree_sym p a0 a), (agree_transport p a a' a0 Hag'), (agree_sym p a0 a').
  destruct (agree p a' a0); [|done]. destruct (Z.eqb_spec p q); [done|].
  rewrite (agree_bit q p a a') by (auto; lia). destruct (bit_of a' p); auto.
Qed.

Lemma wf_find t a q : wf t → srcs_ok fam (find t a q).
Proof.
  induction t as [|a0 p bi bs srcs any l IHl r IHr]; simpl; [intros; apply srcs_nil|].
  intros Hwf. node_hyps Hwf. repeat case_match; auto using srcs_nil.
Qed.

(** ** Compaction *)

Lemma under_up p a b n a0 b0 t :
  p ≤ 128 → under p a b t → 0 ≤ n < p → agree n a a0 = true → bit_of a n = b0 → under n a0 b0 t.
Proof.
  intros Hp Hu Hn Hag Hb. destruct t as [|a' p' ? ? ? ? ? ?]; [done|].
  destruct Hu as (Hlt & Hag' & _). split_and!; [lia | lia | |].
  - eapply agree_trans; [|exact Hag]. apply (agree_mono p); [lia..|done].
  - rewrite <- Hb. apply (agree_bit p); [lia..|done].
Qed.

(** A node with no sources of its own answers as its only child does. *)
Lemma find_only_child a p bi bs any l r a' q :
  wf l → wf r → under p a false l → under p a true r →
  (l = Nil → find (Node a p bi bs [] any l r) a' q = find r a' q) ∧
  (r = Nil → find (Node a p bi bs [] any l r) a' q = find l a' q).
Proof.
  intros Hl Hr Hul Hur. split; intros ->; simpl.
  - destruct (find_under p a true r a' q Hr Hur) as [E|(Hlt & Hag & Hb)].
    + rewrite E. repeat case_match; rewrite ?E; done.
    + rewrite Hag, Hb, (proj2 (Z.leb_le p q)), (proj2 (Z.eqb_neq p q)) by lia. done.
  - destruct (find_under p a false l a' q Hl Hul) as [E|(Hlt & Hag & Hb)].
    + rewrite E. repeat case_match; rewrite ?E; done.
    + rewrite Hag, Hb, (proj2 (Z.leb_le p q)), (proj2 (Z.eqb_neq p q)) by lia. done.
Qed.

Lemma compact_spec t :
  node_ok t →
  wf (compact t) ∧ (∀ n a0 b, under n a0 b t → under n a0 b (compact t)) ∧
  (∀ a q, find (compact t) a q = find t a q).
Proof.
  destruct t as [|a p bi bs srcs any l r]; [done|].
  intros (Ha & Hp & Hbi & Hbs & Hany & Hsrcs & Hul & Hur & Hwl & Hwr).
  destruct srcs as [|e srcs].
  2:{ simpl. split_and!; auto; lia. }
  pose proof (λ a' q, find_only_child a p bi bs any l r a' q Hwl Hwr Hul Hur) as Hf.
  destruct l as [|la lp lbi lbs lsrcs lany ll lr], r as [|ra rp rbi rbs rsrcs rany rl rr]; cbn [compact].
  1,2: split_and!; [done | | intros a' q; destruct (Hf a' q) as [-> _]; done].
  3: split_and!; [done | | intros a' q; destruct (Hf a' q) as [_ ->]; done].
  - done.
  - intros n a0 b (Hn & Hag & Hb). apply (under_up p a true); auto; lia.
  - intros n a0 b (Hn & Hag & Hb). apply (under_up p a false); auto; lia.
  - split_and!; [|done..]. cbn [wf] in *. split_and!; try tauto; (intros _; by split).
Qed.

(** ** Edits *)

Lemma find_newTrieNode a p srcs a' q :
  find (newTrieNode a p srcs) a' q = if (q =? p) && agree p a a' then srcs else [].
Proof.
  simpl. rewrite (Z.eqb_sym q). destruct (Z.leb_spec p q), (agree p a a'), (Z.eqb_spec p q);
    simpl; try done; try lia. by destruct (bit_of a' p).
Qed.

Lemma newTrieNode_wf a p srcs :
  is128 a → 0 ≤ p ≤ 128 → srcs_ok fam srcs → srcs ≠ [] → wf (newTrieNode a p srcs).
Proof. intros. simpl. by split_and!; try lia. Qed.

(** What [edit] promises: the invariant, the position of the result below an
    ancestor, and the abstraction changed at one destination. *)
Definition edited t t' (a p : Z) (f : list (srcEntry V) → list (srcEntry V)) : Prop :=
  wf t' ∧
  (∀ n a0 b, under n a0 b t → 0 ≤ n < p → agree n a a0 = true → bit_of a n = b →
     under n a0 b t') ∧
  (∀ a' q, find t' a' q = if (q =? p) && agree p a a' then f (find t a p) else find t a' q).

(** The abstraction is unchanged at an absent destination that stays absent. *)
Lemma edited_absent t a p f :
  wf t → p ≤ 128 → find t a p = [] → f [] = [] → edited t t a p f.
Proof.
  intros Hwf Hp Hf Hf0. split_and!; [done..|]. intros a' q.
  destruct (Z.eqb_spec q p) as [->|]; simpl; [|done].
  destruct (agree p a a') eqn:E; [|done]. by rewrite <- (find_agree t a a') , Hf, Hf0.
Qed.

Section edit_node.
Context (a p : Z) (f : list (srcEntry V) → list (srcEntry V)).
Context (Ha : is128 a) (Hp : 0 ≤ p ≤ 128) (Hf : ∀ srcs, srcs_ok fam srcs → srcs_ok fam (f srcs)).

(** Insert a destination above an existing subtree. *)
Lemma edit_above t c :
  wf t → under p a c t → f [] ≠ [] →
  edited t (setSrcs (setChild (newTrieNode a p []) (Z.b2z c) t) (f [])) a p f.
Proof using Ha Hp Hf.
  intros Hwf Hu Hne.
  assert (∀ a' q, find t a' q = [] ∨ (p < q ∧ agree p a a' = true ∧ bit_of a' p = c)) as Hfu
    by (intros; by eapply find_under).
  assert (find t a p = []) as H0 by (destruct (Hfu a p) as [|[? _]]; [done | lia]).
  pose proof (Hf [] (srcs_nil fam)) as Hok. split_and!.
  - destruct c; simpl; split_and!; try done; lia.
  - intros n a0 b Hun Hn Hag Hb. destruct c; simpl; split_and!; try done; lia.
  - intros a' q. rewrite H0. destruct (Hfu a' q) as [E|(Hlt & Hag & Hb)].
    + rewrite E. destruct c; simpl; rewrite (Z.eqb_sym q);
        destruct (Z.leb_spec p q), (agree p a a'), (Z.eqb_spec p q); simpl; try done; try lia;
        by destruct (bit_of a' p).
    + rewrite (proj2 (Z.eqb_neq q p)) by lia. destruct c; simpl; rewrite Hag, Hb;
        rewrite (proj2 (Z.leb_le p q)), (proj2 (Z.eqb_neq p q)) by lia; done.
Qed.

(** Fork a new node where the destination leaves an existing subtree. *)
Lemma edit_fork t n c :
  wf t → t ≠ Nil → 0 ≤ n < p → under n a c t → bit_of a n = negb c → f [] ≠ [] →
  edited t (setChild (setChild (newTrieNode a n []) (Z.b2z c) t) (Z.b2z (negb c))
              (newTrieNode a p (f []))) a p f.
Proof using Ha Hp Hf.
  intros Hwf HtN Hn Hu Hbit Hne.
  assert (∀ a' q, find t a' q = [] ∨ (n < q ∧ agree n a a' = true ∧ bit_of a' n = c)) as Hfu
    by (intros; by eapply find_under).
  assert (find t a p = []) as H0.
  { destruct (Hfu a p) as [|(_ & _ & E)]; [done|]. rewrite Hbit in E. by destruct c. }
  assert (wf (newTrieNode a p (f []))) as Hnew by (apply newTrieNode_wf; auto using srcs_nil).
  assert (under n a (negb c) (newTrieNode a p (f []))) as Hunew
    by (simpl; split_and!; [lia.. | apply agree_refl | done]).
  assert (∀ a' q, find (newTrieNode a p (f [])) a' q = [] ∨
            (n < q ∧ agree n a a' = true ∧ bit_of a' n = negb c)) as Hfn
    by (intros; by eapply find_under).
  set (new := newTrieNode a p (f [])) in *. pose proof (find_newTrieNode a p (f [])) as Hfind.
  fold new in Hfind. assert (new ≠ Nil) as HnN by done. clearbody new.
  split_and!.
  - destruct c; simpl; split_and!; auto using srcs_nil; lia.
  - intros m a0 b Hun Hm Hag Hb. destruct t as [|ta tp ? ? ? ? ? ?]; [done|].
    destruct Hun as (Hm1 & Hag1 & Hb1), Hu as (Hn1 & Hag2 & Hb2).
    (* [a] and the subtree share the ancestor's bit, so they fork below it *)
    assert (m < n) as Hmn.
    { apply Z.nle_gt. intros Hle.
      assert (agree (m + 1) a ta = true) as E.
      { rewrite agree_succ, Hb, Hb1, Bool.eqb_reflx, andb_true_r by (destruct Hwf as (_ & ? & _); lia).
        eapply agree_trans; [exact Hag | by rewrite agree_sym]. }
      apply (agree_bit (m + 1) n) in E; [|lia | destruct Hwf as (_ & ? & _); lia].
      rewrite Hbit, Hb2 in E. by destruct c. }
    destruct c; simpl; split_and!; auto; lia.
  - intros a' q. rewrite H0. specialize (Hfind a' q).
    assert (find (setChild (setChild (newTrieNode a n []) (Z.b2z c) t) (Z.b2z (negb c)) new) a' q
      = if (n <? q) && agree n a a' then find (if Bool.eqb (bit_of a' n) c then t else new) a' q else []) as ->.
    { destruct c; simpl; destruct (Z.leb_spec n q), (Z.ltb_spec n q), (agree n a a'),
        (Z.eqb_spec n q), (bit_of a' n); simpl; try done; lia. }
    destruct (Hfu a' q) as [E1|(E11 & E12 & E13)], (Hfn a' q) as [E2|(E21 & E22 & E23)].
    + rewrite E2 in Hfind. rewrite E1. repeat case_match; congruence.
    + rewrite E22, E23, (proj2 (Z.ltb_lt n q)) by lia. simpl. rewrite E1.
      destruct c; simpl; exact Hfind.
    + rewrite E12, E13, (proj2 (Z.ltb_lt n q)), Bool.eqb_reflx by lia. simpl.
      rewrite E2 in Hfind. repeat case_match; congruence.
    + rewrite E13 in E23. by destruct c.
Qed.

(** Replace the sources of the destination's own node. *)
Lemma edit_here na bi bs srcs any l r :
  wf (Node na p bi bs srcs any l r) → agree p na a = true →
  edited (Node na p bi bs srcs any l r)
    (compact (setSrcs (Node na p bi bs srcs any l r) (f srcs))) a p f.
Proof using Hp Hf.
  intros Hwf Hag. assert (node_ok (setSrcs (Node na p bi bs srcs any l r) (f srcs))) as Hok.
  { node_hyps Hwf. simpl. split_and!; auto; lia. }
  destruct (compact_spec _ Hok) as (H1 & H2 & H3). split_and!; [done | |].
  - intros n a0 b Hu Hn Hag' Hb. apply H2. exact Hu.
  - intros a' q. rewrite H3. simpl. rewrite Hag, Z.leb_refl, Z.eqb_refl. simpl.
    rewrite (Z.eqb_sym q), (agree_transport p na a a' Hag).
    destruct (Z.leb_spec p q), (agree p a a'), (Z.eqb_spec p q); simpl; try done; lia.
Qed.

(** Descend into the child on the destination's side. *)
Lemma edit_below na np bi bs srcs any l r l' r' :
  wf (Node na np bi bs srcs any l r) → np < p → agree np na a = true →
  (if bit_of a np then l' = l ∧ edited r r' a p f else r' = r ∧ edited l l' a p f) →
  edited (Node na np bi bs srcs any l r) (compact (Node na np bi bs srcs any l' r')) a p f.
Proof using Ha Hp Hf.
  intros Hwf Hlt Hag Hch. assert (agree np a na = true) as Hag' by (by rewrite agree_sym).
  assert (node_ok (Node na np bi bs srcs any l' r')) as Hok.
  { node_hyps Hwf. destruct (bit_of a np) eqn:Eb; destruct Hch as [-> (H1 & H2 & _)];
      simpl; split_and!; auto; try lia; (apply H2; auto; lia). }
  destruct (compact_spec _ Hok) as (H1 & H2 & H3). split_and!; [done | |].
  - intros n a0 b Hu Hn Hag2 Hb. apply H2. exact Hu.
  - intros a' q. rewrite H3. node_hyps Hwf.
    assert (find (Node na np bi bs srcs any l r) a p
            = if bit_of a np then find r a p else find l a p) as ->.
    { simpl. rewrite Hag, (proj2 (Z.leb_le np p)), (proj2 (Z.eqb_neq np p)) by lia. simpl.
      by destruct (bit_of a np). }
    simpl. destruct (Z.leb_spec np q); simpl.
    2:{ by rewrite (proj2 (Z.eqb_neq q p)) by lia. }
    destruct (agree np na a') eqn:Ea'; simpl.
    2:{ destruct (Z.eqb_spec q p) as [->|]; [|done]. simpl. destruct (agree p a a') eqn:E; [|done].
        apply (agree_mono p np) in E; [|lia..]. rewrite (agree_transport np na a a' Hag) in Ea'. congruence. }
    destruct (Z.eqb_spec np q) as [->|Hne].
    { by rewrite (proj2 (Z.eqb_neq q p)) by lia. }
    assert (agree p a a' = true → bit_of a np = bit_of a' np) as Hsame
      by (intros; apply (agree_bit p); [lia..|done]).
    destruct (bit_of a np) eqn:Eb; destruct Hch as [-> (_ & _ & Hfind)];
      destruct (bit_of a' np) eqn:Eb'; rewrite ?Hfind; try done;
      (destruct (agree p a a'); [discriminate Hsame; done | by rewrite andb_false_r]).
Qed.

End edit_node.

Lemma edit_spec t a p f :
  wf t → is128 a → 0 ≤ p ≤ 128 → (∀ srcs, srcs_ok fam srcs → srcs_ok fam (f srcs)) →
  edited t (edit t a p f) a p f.
Proof.
  intros Hwf Ha Hp Hf. induction t as [|na np bi bs srcs any l IHl r IHr]; cbn [edit].
  { destruct (f []) as [|e es] eqn:E.
    - apply edited_absent; auto; lia.
    - rewrite <- E. assert (f [] ≠ []) as Hne by congruence. split_and!.
      + apply newTrieNode_wf; auto using srcs_nil.
      + intros. by simpl.
      + intros a' q. rewrite find_newTrieNode. done. }
  pose proof Hwf as Hwf'. node_hyps Hwf'.
  pose proof (commonBits_bound na a Ha0 Ha) as Hcb.
  pose proof (λ n, commonBits_spec n na a Ha0 Ha) as Hcs.
  set (c := Z.min (Z.min (commonBits na a) np) p).
  assert (0 ≤ c ≤ commonBits na a ∧ c ≤ np ∧ c ≤ p ∧
          (c = commonBits na a ∨ c = np ∨ c = p)) as Hc by (unfold c; lia). clearbody c.
  destruct (Z.ltb_spec c np) as [Hlt|Hge].
  - assert (find (Node na np bi bs srcs any l r) a p = []) as H0.
    { simpl. destruct (Z.leb_spec np p); simpl; [|done]. destruct (agree np na a) eqn:E; [|done].
      apply Hcs in E; [|lia]. lia. }
    destruct (f []) as [|e es] eqn:E; [apply edited_absent; auto; lia|]. rewrite <- E.
    assert (f [] ≠ []) as Hne by congruence.
    assert (agree c na a = true) as Hagc by (apply Hcs; lia).
    rewrite (branch_val na) by lia. destruct (Z.eqb_spec c p) as [Ecp|Ncp].
    + rewrite Ecp in *. apply edit_above; auto. simpl. split_and!; auto; lia.
    + assert (bit_of a c = negb (bit_of na c)) as Hbit.
      { assert (agree (c + 1) na a = false) as Hn.
        { destruct (agree (c + 1) na a) eqn:Hn; [|done]. apply Hcs in Hn; lia. }
        rewrite agree_succ, Hagc, andb_true_l in Hn by lia.
        apply eqb_false_iff in Hn. by destruct (bit_of na c), (bit_of a c). }
      rewrite branch_val, Hbit by lia. apply edit_fork; auto; [lia|]. simpl. split_and!; auto; lia.
  - assert (agree np na a = true) as Hag by (apply Hcs; lia).
    destruct (Z.eqb_spec np p) as [->|Hnp]; [by apply edit_here|].
    rewrite branch_val by lia. destruct (bit_of a np) eqn:Eb; cbn [Z.b2z Z.eqb setChild];
      (apply edit_below; auto; [lia|]; rewrite Eb; auto).
Qed.

(** ** removeValue *)

Definition without (v : V) srcs : list (srcEntry V) :=
  List.filter (λ entry, negb (bool_decide (value entry = v))) srcs.

Lemma existsb_without (v : V) srcs :
  existsb (λ entry, bool_decide (value entry = v)) srcs = false → without v srcs = srcs.
Proof.
  induction srcs as [|e srcs IH]; simpl; [done|]. intros [E1 E2]%orb_false_iff.
  rewrite E1. simpl. by rewrite IH.
Qed.

Lemma removeValue_spec (v : V) t :
  wf t →
  wf (removeValue t v).1 ∧
  (∀ n a0 b, under n a0 b t → under n a0 b (removeValue t v).1) ∧
  (∀ a q, find (removeValue t v).1 a q = without v (find t a q)) ∧
  ((removeValue t v).2 = true → (removeValue t v).1 = t).
Proof.
  induction t as [|a p bi bs srcs any l IHl r IHr]; [done|]. intros Hwf. pose proof Hwf as Hwf'.
  node_hyps Hwf'. cbn [removeValue].
  destruct (removeValue l v) as [l' sl], (removeValue r v) as [r' sr]. simpl in IHl, IHr.
  destruct (IHl Hwl) as (Hl1 & Hl2 & Hl3 & Hl4), (IHr Hwr) as (Hr1 & Hr2 & Hr3 & Hr4).
  set (n' := Node a p bi bs (without v srcs) (matchAllSource (without v srcs)) l' r').
  assert (∀ a' q, find n' a' q = without v (find (Node a p bi bs srcs any l r) a' q)) as Hfind.
  { intros a' q. simpl. repeat case_match; auto. }
  assert (node_ok n') as Hok.
  { simpl. split_and!; auto; try lia. by apply (filter_value_spec fam v). }
  destruct (existsb _ srcs) eqn:Em.
  - destruct (compact_spec n' Hok) as (H1 & H2 & H3). simpl. fold (without v srcs). fold n'.
    split_and!; [done | | | done].
    + intros n a0 b Hu. apply H2. exact Hu.
    + intros. by rewrite H3, Hfind.
  - apply existsb_without in Em. destruct (compact_spec n' Hok) as (H1 & H2 & H3).
    unfold n' in H1, H2, H3. rewrite Em, <- Hany in H1, H2, H3.
    unfold n' in Hfind. rewrite Em, <- Hany in Hfind.
    destruct (negb false && sl && sr) eqn:Es; cbn [fst snd].
    + apply andb_true_iff in Es as [Es1 Es2]. simpl in Es1.
      rewrite (Hl4 Es1), (Hr4 Es2) in Hfind. split; [exact Hwf | split; [done | split; [exact Hfind | done]]].
    + split; [exact H1 | split; [exact H2 | split; [intros; by rewrite H3, Hfind | done]]].
Qed.

(** ** Lookup *)

(** The source match of the longest destination on the path that has one. *)
Fixpoint deep t (s : Addr) (a : Z) : option V :=
  match t with
  | Nil => None
  | Node a' p _ _ srcs _ l r =>
      if agree p a' a then
        match deep (if bit_of a p then r else l) s a with
        | Some v => Some v
        | None => firstMatch srcs s
        end
      else None
  end.

Lemma wf_leaf128 a b t : wf t → under 128 a b t → t = Nil.
Proof. destruct t; [done|]. simpl. intros (_ & ? & _) (? & _). lia. Qed.

Lemma lookupLoop_deep t s a acc :
  wf t → is128 a → addr_ok s →
  lookupLoop t s a acc = match deep t s a with Some v => Some v | None => acc end.
Proof.
  intros Hwf Ha Hs. revert acc.
  induction t as [|a' p bi bs srcs any l IHl r IHr]; intros acc; [done|].
  node_hyps Hwf. cbn [lookupLoop deep]. rewrite matches_spec by (auto; lia).
  destruct (agree p a' a); [|done]. rewrite Hany, (nodeMatch_firstMatch fam) by done.
  destruct (Z.eqb_spec p 128) as [->|Hne].
  - rewrite (wf_leaf128 _ _ _ Hwl Hul), (wf_leaf128 _ _ _ Hwr Hur).
    destruct (bit_of a 128); simpl; by destruct (firstMatch srcs s).
  - rewrite Hbi, Hbs, cached_branch by lia. destruct (bit_of a p); cbn [Z.b2z Z.eqb].
    + rewrite IHr by done. by destruct (deep r s a), (firstMatch srcs s).
    + rewrite IHl by done. by destruct (deep l s a), (firstMatch srcs s).
Qed.

Lemma deep_spec t s a :
  wf t →
  match deep t s a with
  | Some v => ∃ q, 0 ≤ q ≤ 128 ∧ firstMatch (find t a q) s = Some v ∧
                ∀ q', q < q' → firstMatch (find t a q') s = None
  | None => ∀ q, firstMatch (find t a q) s = None
  end.
Proof.
  induction t as [|a' p bi bs srcs any l IHl r IHr]; [done|]. intros Hwf. node_hyps Hwf.
  cbn [deep find]. destruct (agree p a' a); [|by intros q; rewrite andb_false_r].
  set (c := if bit_of a p then r else l).
  assert (match deep c s a with
    | Some v => ∃ q, 0 ≤ q ≤ 128 ∧ p < q ∧ firstMatch (find c a q) s = Some v ∧
                  ∀ q', q < q' → firstMatch (find c a q') s = None
    | None => ∀ q, firstMatch (find c a q) s = None end) as Hc.
  { assert (∃ b, wf c ∧ under p a' b c) as (b & Hwc & Huc) by (unfold c; destruct (bit_of a p); eauto).
    assert (match deep c s a with
      | Some v => ∃ q, 0 ≤ q ≤ 128 ∧ firstMatch (find c a q) s = Some v ∧
                    ∀ q', q < q' → firstMatch (find c a q') s = None
      | None => ∀ q, firstMatch (find c a q) s = None end) as IH
      by (unfold c; destruct (bit_of a p); [exact (IHr Hwr) | exact (IHl Hwl)]).
    destruct (deep c s a); [|done]. destruct IH as (q & Hq & Hv & Hmax). exists q.
    destruct (find_under p a' b c a q Hwc Huc) as [E|(? & _)]; [by rewrite E in Hv | done]. }
  assert (∀ q, p < q → (if (p <=? q) && true then if p =? q then srcs else find c a q else []) = find c a q) as Hdown.
  { intros q Hq. by rewrite (proj2 (Z.leb_le p q)), (proj2 (Z.eqb_neq p q)) by lia. }
  clearbody c. destruct (deep c s a) as [v|].
  - destruct Hc as (q & Hq & Hpq & Hv & Hmax). exists q. split_and!; [lia..| by rewrite Hdown |].
    intros q' Hq'. rewrite Hdown by lia. by apply Hmax.
  - destruct (firstMatch srcs s) as [v|] eqn:E.
    + exists p. split_and!; [lia..| by rewrite Z.leb_refl, Z.eqb_refl |].
      intros q' Hq'. by rewrite Hdown.
    + intros q. destruct (p <=? q); simpl; [|done]. by destruct (p =? q).
Qed.

(** ** Enumeration *)

(** The nodes of a subtree, with their sources. *)
Fixpoint nodes t : list (Z * Z * list (srcEntry V)) :=
  match t with
  | Nil => []
  | Node a p _ _ srcs _ l r => (a, p, srcs) :: nodes l ++ nodes r
  end.

Lemma walk_nodes isV4 t rt :
  rt ∈ walk t isV4 ↔
  ∃ a p srcs, (a, p, srcs) ∈ nodes t ∧ mkSrcEntry (Source rt) (Value rt) ∈ srcs ∧
              Destination rt = nodePrefix isV4 a p.
Proof.
  induction t as [|a p bi bs srcs any l IHl r IHr]; simpl; [set_solver|].
  rewrite !elem_of_app, IHl, IHr. split.
  - intros [Hin|[(a' & p' & s' & ?)|(a' & p' & s' & ?)]]; [|exists a', p', s'; set_solver..].
    apply list_elem_of_fmap in Hin as ([s0 v0] & -> & Hin). simpl. exists a, p, srcs. set_solver.
  - intros (a' & p' & s' & Hin & He & HD). apply elem_of_cons in Hin as [[= -> -> ->]|Hin].
    + left. apply list_elem_of_fmap. exists (mkSrcEntry (Source rt) (Value rt)). simpl.
      split; [|done]. destruct rt; simpl in *. by rewrite HD.
    + right. apply elem_of_app in Hin as [?|?]; [left|right]; eauto 10.
Qed.

Lemma nodes_under n a0 b t a p srcs :
  wf t → under n a0 b t → (a, p, srcs) ∈ nodes t →
  0 ≤ n < p ∧ agree n a a0 = true ∧ bit_of a n = b.
Proof.
  revert n a0 b. induction t as [|a' p' bi bs srcs' any l IHl r IHr]; simpl; intros n a0 b; [set_solver|].
  intros Hwf Hu Hin. node_hyps Hwf. destruct Hu as (Hn & Hag & Hb).
  apply elem_of_cons in Hin as [[= -> -> ->]|Hin]; [done|].
  apply elem_of_app in Hin as [Hin|Hin].
  - apply (IHl n a0 b); auto. apply (under_up p' a' false); auto; lia.
  - apply (IHr n a0 b); auto. apply (under_up p' a' true); auto; lia.
Qed.

Lemma nodes_find t a p srcs :
  wf t → (a, p, srcs) ∈ nodes t → is128 a ∧ 0 ≤ p ≤ 128 ∧ find t a p = srcs.
Proof.
  induction t as [|a' p' bi bs srcs' any l IHl r IHr]; simpl; [set_solver|].
  intros Hwf Hin. node_hyps Hwf. apply elem_of_cons in Hin as [[= -> -> ->]|Hin].
  { by rewrite Z.leb_refl, agree_refl, Z.eqb_refl. }
  apply elem_of_app in Hin as [Hin|Hin].
  - destruct (nodes_under p' a' false l a p srcs) as (Hlt & Hag & Hb); [done..|].
    rewrite agree_sym, Hag, (proj2 (Z.leb_le p' p)), (proj2 (Z.eqb_neq p' p)), Hb by lia. by apply IHl.
  - destruct (nodes_under p' a' true r a p srcs) as (Hlt & Hag & Hb); [done..|].
    rewrite agree_sym, Hag, (proj2 (Z.leb_le p' p)), (proj2 (Z.eqb_neq p' p)), Hb by lia. by apply IHr.
Qed.

Lemma find_nodes t a p :
  find t a p = [] ∨ ∃ a', (a', p, find t a p) ∈ nodes t ∧ agree p a' a = true.
Proof.
  induction t as [|a' p' bi bs srcs' any l IHl r IHr]; simpl; [by left|].
  destruct ((p' <=? p) && agree p' a' a) eqn:E; [|by left]. bool_props.
  destruct (Z.eqb_spec p' p) as [->|Hne].
  { right. exists a'. split; [set_solver | done]. }
  destruct (bit_of a p').
  - destruct IHr as [|(a2 & ? & ?)]; [by left|]. right. exists a2. set_solver.
  - destruct IHl as [|(a2 & ? & ?)]; [by left|]. right. exists a2. set_solver.
Qed.

End trie.
