(* ===== verification/SadrSpec.v ===== *)
(** * The routing table refines a finite map

    The specification of the table is a finite map from canonical (source,
    destination) pairs to values. [R] relates a table to its map; every
    operation preserves it, so a table built by any sequence of operations is
    the map built by the same sequence, [All] enumerates that map and [Lookup]
    picks its best match. *)

From S2P Require Import Prelude Netip Sadr SadrSources SadrTrie.
Import Sadr.

Section spec.
Context {V : Type} `{!EqDecision V}.
Implicit Types (t : Table V) (M : gmap (Prefix * Prefix) V).

(** ** Keys *)

(** A canonical pair the table can hold. *)
Record key_ok (S D : Prefix) : Prop := {
  key_src_ok : prefix_ok S;
  key_dst_ok : prefix_ok D;
  key_src_masked : Masked S = S;
  key_dst_masked : Masked D = D;
  key_valid : validPrefixes S D = true
}.

(** The length of a destination in the mapped 128-bit space of its trie. *)
Definition dest_len (d : Prefix) : Z := if Is4 (prefix_addr d) then Bits d + 96 else Bits d.

Definition root (rs : roots V) (a : Addr) : trieNode V := if Is4 a then ipv4 rs else ipv6 rs.

Definition get t (S D : Prefix) : option V :=
  match t with
  | None => None
  | Some rs => valueOf (find (root rs (prefix_addr D)) (As16 (prefix_addr D)) (dest_len D)) S
  end.

Definition roots_ok (rs : roots V) : Prop :=
  wf 32 (ipv4 rs) ∧ under 95 (mapped4 0) true (ipv4 rs) ∧ wf 128 (ipv6 rs).

Definition table_ok t : Prop := match t with None => True | Some rs => roots_ok rs end.

(** The refinement relation. *)
Record R t M : Prop := {
  R_ok : table_ok t;
  R_keys : ∀ S D v, M !! (S, D) = Some v → key_ok S D;
  R_get : ∀ S D, key_ok S D → get t S D = M !! (S, D)
}.

(** ** Destinations in the mapped space *)

Lemma valid_dest d :
  prefix_ok d → IsValid d = true →
  addr_valid (prefix_addr d) = true ∧ 0 ≤ Bits d ≤ BitLen (prefix_addr d).
Proof.
  intros [_ Hd] Hv. unfold IsValid, Bits in *. bool_props. destruct Hd as [?|[? ?]]; [lia|].
  split; [done | lia].
Qed.

Lemma As16_128 a : addr_ok a → is128 (As16 a).
Proof.
  unfold is128. destruct a; simpl; [lia | | done]. unfold mapped4. intros.
  change (2 ^ 128) with 340282366920938463463374607431768211456.
  change (2 ^ 32) with 4294967296 in *. lia.
Qed.

Lemma dest_len_bound d :
  prefix_ok d → IsValid d = true →
  0 ≤ dest_len d ≤ 128 ∧ (Is4 (prefix_addr d) = true → 96 ≤ dest_len d).
Proof.
  intros Hd Hv. destruct (valid_dest d Hd Hv) as [_ Hb]. unfold dest_len.
  destruct (prefix_addr d); simpl in *; split; intros; try done; lia.
Qed.

(** A mapped IPv4 address compares as its 32 bits do. *)
Lemma agree_mapped n x y :
  0 ≤ x < 2 ^ 32 → 0 ≤ y < 2 ^ 32 → 0 ≤ n ≤ 32 →
  agree (n + 96) (mapped4 x) (mapped4 y) = (Z.shiftr x (32 - n) =? Z.shiftr y (32 - n)).
Proof.
  intros Hx Hy Hn. unfold agree. replace (128 - (n + 96)) with (32 - n) by lia.
  apply eq_iff_eq_true. rewrite !Z.eqb_eq, !Z.shiftr_div_pow2 by lia. unfold mapped4.
  assert (2 ^ 32 = 2 ^ n * 2 ^ (32 - n)) as -> by (rewrite <- Z.pow_add_r by lia; f_equal; lia).
  pose proof (Z.pow_pos_nonneg 2 (32 - n)).
  replace (2 ^ n * 2 ^ (32 - n) * 65535) with ((2 ^ n * 65535) * 2 ^ (32 - n)) by lia.
  rewrite !Z.div_add_l by lia. lia.
Qed.

Lemma mapped_root x n : 0 ≤ x < 2 ^ 32 → 95 < n →
  agree 95 (mapped4 x) (mapped4 0) = true ∧ bit_of (mapped4 x) 95 = true.
Proof.
  intros Hx Hn.
  assert (agree 96 (mapped4 x) (mapped4 0) = true) as E.
  { change 96 with (0 + 96). rewrite agree_mapped by lia.
    rewrite !Z.shiftr_div_pow2, !Z.div_small by lia. done. }
  split; [apply (agree_mono 96); [lia..|done]|].
  rewrite (agree_bit 96 95 _ (mapped4 0)) by (auto; lia). reflexivity.
Qed.

(** Two destinations of one family share a trie position exactly when the
    canonical one is the other masked. *)
Lemma dest_eq d D :
  prefix_ok d → IsValid d = true → prefix_ok D → IsValid D = true → Masked D = D →
  Is4 (prefix_addr d) = Is4 (prefix_addr D) →
  (dest_len D =? dest_len d) && agree (dest_len d) (As16 (prefix_addr d)) (As16 (prefix_addr D))
  = bool_decide (D = Masked d).
Proof.
  intros Hd Hvd HD HvD HmD Hfam.
  destruct (valid_dest d Hd Hvd) as [Had Hbd], (valid_dest D HD HvD) as [HaD HbD].
  rewrite (Masked_shape d) by done. pose proof HmD as HmD'. rewrite (Masked_shape D) in HmD' by done.
  apply eq_iff_eq_true. rewrite andb_true_iff, Z.eqb_eq, bool_decide_eq_true.
  destruct D as [aD bD], d as [ad bd]. unfold dest_len, Bits in *. simpl in *.
  destruct Hd as [Hokd _], HD as [HokD _].
  destruct aD as [|x|x], ad as [|y|y]; try done; simpl in *.
  - injection HmD' as HmD'. split.
    + intros [E1 E2]. assert (bD = bd) as -> by lia. rewrite agree_mapped in E2 by lia.
      apply Z.eqb_eq in E2. f_equal. f_equal. rewrite <- HmD'. apply mask_to_eq; [lia | congruence].
    + intros [= E ->]. split; [done|]. rewrite agree_mapped by lia. apply Z.eqb_eq.
      rewrite <- HmD' in E. apply mask_to_eq in E; [congruence | lia].
  - injection HmD' as HmD'. split.
    + intros [E1 E2]. assert (bD = bd) as -> by lia. unfold agree in E2. apply Z.eqb_eq in E2.
      f_equal. f_equal. rewrite <- HmD'. apply mask_to_eq; [lia | congruence].
    + intros [= E ->]. split; [done|]. unfold agree. apply Z.eqb_eq.
      rewrite <- HmD' in E. apply mask_to_eq in E; [congruence | lia].
Qed.

Lemma key_dest S D : key_ok S D → IsValid D = true.
Proof. intros []. unfold validPrefixes in *. by bool_props. Qed.

Lemma key_source S D : key_ok S D → source_ok (BitLen (prefix_addr D)) S.
Proof.
  intros [H1 H2 H3 H4 H5]. split; [done | split; [done|]]. intros Hv. unfold validPrefixes in H5.
  rewrite Hv in H5. simpl in H5. by bool_props.
Qed.

(** ** One edit *)

Definition family (a : Addr) : Z := if Is4 a then 32 else 128.

Lemma family_BitLen a : addr_valid a = true → family a = BitLen a.
Proof. by destruct a. Qed.

(** The sources a table holds for the destination of [d]. *)
Definition at_dest t (d : Prefix) : list (srcEntry V) :=
  match t with
  | None => []
  | Some rs => find (root rs (prefix_addr d)) (As16 (prefix_addr d)) (dest_len d)
  end.

Lemma Is4_Masked d : prefix_ok d → IsValid d = true → Is4 (prefix_addr (Masked d)) = Is4 (prefix_addr d).
Proof. intros. rewrite Masked_shape by done. simpl. by destruct (prefix_addr d). Qed.

(** [change] edits the trie of the destination's family and leaves the other. *)
Lemma change_roots t s d f :
  prefix_ok d → validPrefixes s d = true →
  ∃ rs', change t s d f = Some rs' ∧
    root rs' (prefix_addr d) =
      edit (root (default (mkRoots Nil Nil) t) (prefix_addr d)) (As16 (prefix_addr d)) (dest_len d) f ∧
    ∀ a, Is4 a ≠ Is4 (prefix_addr d) → root rs' a = root (default (mkRoots Nil Nil) t) a.
Proof.
  intros Hd Hv. assert (IsValid d = true) as Hvd by (unfold validPrefixes in Hv; by bool_props).
  destruct (valid_dest d Hd Hvd) as [_ Hbd]. unfold change. rewrite Hv. cbn [negb].
  unfold dest_len, u8, root. destruct (prefix_addr d) as [|x|x]; simpl in *.
  - rewrite Z.mod_small by lia. eexists; split_and!; [done..|]. intros [] ?; done.
  - rewrite (Z.mod_small (Bits d)), Z.mod_small by lia. eexists; split_and!; [done..|]. intros [] ?; done.
  - rewrite Z.mod_small by lia. eexists; split_and!; [done..|]. intros [] ?; done.
Qed.

Lemma change_spec t s d f :
  table_ok t → prefix_ok d → validPrefixes s d = true →
  (∀ srcs, srcs_ok (family (prefix_addr d)) srcs → srcs_ok (family (prefix_addr d)) (f srcs)) →
  table_ok (change t s d f) ∧
  ∀ D, prefix_ok D → IsValid D = true → Masked D = D →
    at_dest (change t s d f) D = if bool_decide (D = Masked d) then f (at_dest t d) else at_dest t D.
Proof.
  intros Hok Hd Hv Hf. destruct (change_roots t s d f Hd Hv) as (rs' & -> & Hedit & Hother).
  assert (IsValid d = true) as Hvd by (unfold validPrefixes in Hv; by bool_props).
  set (rs := default (mkRoots Nil Nil) t) in *.
  assert (roots_ok rs) as (H4 & H4u & H6) by (unfold rs; destruct t; simpl; [done|]; by split_and!).
  assert (∀ D, at_dest t D = at_dest (Some rs) D) as Hat
    by (intros D; unfold rs; destruct t; [done|]; unfold at_dest, root; by destruct (prefix_addr D)).
  assert (wf (family (prefix_addr d)) (root rs (prefix_addr d))) as Hwf
    by (unfold family, root; by destruct (Is4 (prefix_addr d))).
  destruct (dest_len_bound d Hd Hvd) as [Hlen H96].
  destruct (edit_spec (family (prefix_addr d)) (root rs (prefix_addr d)) (As16 (prefix_addr d))
    (dest_len d) f Hwf (As16_128 _ (proj1 Hd)) Hlen Hf) as (Hwf' & Hu' & Hfind).
  rewrite <- Hedit in Hwf', Hu', Hfind. split.
  - unfold family, root in Hwf', Hother. simpl. unfold roots_ok. destruct (prefix_addr d) as [|x|x] eqn:Ea; simpl in *.
    + pose proof (Hother (Addr4 0) ltac:(done)) as HO. simpl in HO. rewrite HO. by split_and!.
    + pose proof (Hother (Addr6 0) ltac:(done)) as HO. simpl in HO. rewrite HO. split_and!; [done | | done].
      assert (0 ≤ x < 2 ^ 32) as Hx by (destruct Hd as [Hd _]; by rewrite Ea in Hd).
      destruct (mapped_root x 96 Hx ltac:(lia)). apply Hu'; auto. specialize (H96 eq_refl). lia.
    + pose proof (Hother (Addr4 0) ltac:(done)) as HO. simpl in HO. rewrite HO. by split_and!.
  - intros D HD HvD HmD. rewrite !Hat. simpl. destruct (decide (Is4 (prefix_addr D) = Is4 (prefix_addr d))) as [E|E].
    + assert (∀ rs0, root rs0 (prefix_addr D) = root rs0 (prefix_addr d)) as Hr
        by (intros; unfold root; by rewrite E).
      rewrite !Hr, Hfind, dest_eq by done. done.
    + rewrite Hother by done. rewrite bool_decide_eq_false_2; [done|].
      intros ->. by rewrite Is4_Masked in E.
Qed.

Lemma get_at_dest t S D : get t S D = valueOf (at_dest t D) S.
Proof. by destruct t. Qed.

Lemma at_dest_ok t d :
  table_ok t → srcs_ok (family (prefix_addr d)) (at_dest t d).
Proof.
  destruct t as [rs|]; simpl; [|intros; apply srcs_nil]. intros (H4 & _ & H6).
  unfold family, root. destruct (Is4 _); by apply wf_find.
Qed.

(** A destination is looked up at the position of its masked form. *)
Lemma at_dest_masked t d :
  table_ok t → prefix_ok d → IsValid d = true → at_dest t (Masked d) = at_dest t d.
Proof.
  destruct t as [rs|]; [|done]. intros (H4 & _ & H6) Hd Hv. simpl.
  destruct (dest_len_bound d Hd Hv) as [Hlen _].
  pose proof (Masked_ok d Hd) as Hmd.
  pose proof (dest_eq d (Masked d) Hd Hv Hmd) as E. rewrite Masked_valid, Masked_idem, Is4_Masked in E by done.
  rewrite bool_decide_eq_true_2 in E by done. specialize (E Hv eq_refl eq_refl).
  apply andb_true_iff in E as [E1 E2]. apply Z.eqb_eq in E1. rewrite E1.
  unfold root. rewrite Is4_Masked by done.
  symmetry. destruct (Is4 (prefix_addr d)); eapply find_agree; eauto; lia.
Qed.

(** ** The operations on the specification *)

Definition spec_set M (s d : Prefix) (v : V) : gmap (Prefix * Prefix) V :=
  if validPrefixes s d then <[(Masked s, Masked d) := v]> M else M.

Definition spec_remove M (s d : Prefix) : gmap (Prefix * Prefix) V :=
  if validPrefixes s d then delete (Masked s, Masked d) M else M.

Definition spec_removeValue M (v : V) : gmap (Prefix * Prefix) V :=
  filter (λ kv, kv.2 ≠ v) M.

Lemma key_ok_masked s d :
  prefix_ok s → prefix_ok d → validPrefixes s d = true → key_ok (Masked s) (Masked d).
Proof.
  intros Hs Hd Hv. unfold validPrefixes in Hv. apply andb_true_iff in Hv as [Hvd Hv].
  split; auto using Masked_ok, Masked_idem. unfold validPrefixes. rewrite !Masked_valid, Hvd by done. simpl.
  destruct (IsValid s) eqn:Es; [|done]. simpl in *.
  rewrite !Masked_shape by done. simpl. by rewrite !BitLen_mask.
Qed.

Lemma validPrefixes_masked s d :
  prefix_ok s → validPrefixes (Masked s) d = validPrefixes s d.
Proof.
  intros Hs. unfold validPrefixes. rewrite Masked_valid by done. destruct (IsValid s) eqn:E; simpl; [|done].
  rewrite Masked_shape by done. simpl. by rewrite BitLen_mask.
Qed.

Lemma source_ok_masked s d :
  prefix_ok s → prefix_ok d → validPrefixes s d = true →
  source_ok (family (prefix_addr d)) (Masked s).
Proof.
  intros Hs Hd Hv. pose proof (key_source _ _ (key_ok_masked s d Hs Hd Hv)) as Hk.
  unfold validPrefixes in Hv. bool_props. destruct (valid_dest d) as [Ha _]; [done..|].
  rewrite Masked_shape in Hk by done. simpl in Hk. rewrite BitLen_mask in Hk.
  by rewrite family_BitLen.
Qed.

(** A step that replaces the sources of one destination refines a step that
    replaces the entries of that destination in the map. *)
Lemma R_change t M s d f (g : option V → option V) :
  R t M → prefix_ok s → prefix_ok d → validPrefixes s d = true →
  (∀ srcs, srcs_ok (family (prefix_addr d)) srcs →
     srcs_ok (family (prefix_addr d)) (f srcs) ∧
     ∀ S, valueOf (f srcs) S = if bool_decide (S = Masked s) then g (valueOf srcs S) else valueOf srcs S) →
  R (change t (Masked s) d f) (partial_alter g (Masked s, Masked d) M).
Proof.
  intros [Hok Hkeys Hget] Hs Hd Hv Hf. pose proof (key_ok_masked s d Hs Hd Hv) as Hkey.
  assert (IsValid d = true) as Hvd by (unfold validPrefixes in Hv; by bool_props).
  destruct (change_spec t (Masked s) d f Hok Hd) as [Hok' Hat'].
  { by rewrite validPrefixes_masked. } { intros. by apply Hf. }
  split; [done | |].
  - intros S D v. destruct (decide ((S, D) = (Masked s, Masked d))) as [[= -> ->]|Hne]; [done|].
    rewrite lookup_partial_alter_ne by congruence. apply Hkeys.
  - intros S D Hk. rewrite get_at_dest, (Hat' D) by (eauto using key_dest; apply Hk).
    destruct (Hf (at_dest t d) (at_dest_ok t d Hok)) as [_ Hval].
    case_bool_decide as ED; subst.
    + rewrite Hval. rewrite <- (at_dest_masked t d Hok Hd Hvd), <- get_at_dest, Hget by done.
      case_bool_decide as ES; subst.
      * by rewrite lookup_partial_alter_eq.
      * rewrite lookup_partial_alter_ne by congruence. done.
    + rewrite lookup_partial_alter_ne by congruence. rewrite <- get_at_dest. by apply Hget.
Qed.

Lemma R_empty : R None ∅.
Proof. split; [done | by intros ??? ?%lookup_empty_Some | by intros; rewrite lookup_empty]. Qed.

Lemma R_set t M s d v :
  R t M → prefix_ok s → prefix_ok d → R (Set_ t s d v) (spec_set M s d v).
Proof.
  intros HR Hs Hd. unfold Set_, spec_set. destruct (validPrefixes s d) eqn:Hv.
  - apply (R_change t M s d _ (λ _, Some v)); [done..|]. intros srcs Hsrcs.
    destruct (setEntry_spec (family (prefix_addr d)) (Masked s) v srcs) as [H1 H2]; [|done|].
    + by apply source_ok_masked.
    + split; [done|]. intros S. rewrite H2. by case_bool_decide.
  - unfold change. by rewrite validPrefixes_masked, Hv.
Qed.

Lemma R_remove t M s d :
  R t M → prefix_ok s → prefix_ok d → R (Remove t s d) (spec_remove M s d).
Proof.
  intros HR Hs Hd. unfold Remove, spec_remove. destruct (validPrefixes s d) eqn:Hv.
  - apply (R_change t M s d _ (λ _, None)); [done..|]. intros srcs Hsrcs.
    destruct (removeEntry_spec (family (prefix_addr d)) (Masked s) srcs Hsrcs) as (H1 & _ & H2).
    split; [done|]. intros S. by rewrite H2.
  - unfold change. by rewrite validPrefixes_masked, Hv.
Qed.

Lemma R_removeValue t M v : R t M → R (RemoveValue t v) (spec_removeValue M v).
Proof.
  intros [Hok Hkeys Hget]. unfold spec_removeValue. split.
  - destruct t as [rs|]; [|done]. destruct Hok as (H4 & Hu & H6).
    destruct (removeValue_spec 32 v (ipv4 rs) H4) as (? & ? & _).
    destruct (removeValue_spec 128 v (ipv6 rs) H6) as (? & ? & _). simpl. split_and!; auto.
  - intros S D w [Hw _]%map_lookup_filter_Some. eauto.
  - intros S D Hk. specialize (Hget S D Hk).
    assert (get (RemoveValue t v) S D =
            match get t S D with
            | Some x => if bool_decide (x = v) then None else Some x | None => None end) as ->.
    { destruct t as [rs|]; [|done]. destruct Hok as (H4 & Hu & H6). simpl. unfold root. simpl.
      destruct (removeValue_spec 32 v (ipv4 rs) H4) as (_ & _ & F4 & _).
      destruct (removeValue_spec 128 v (ipv6 rs) H6) as (_ & _ & F6 & _).
      destruct (Is4 _); rewrite ?F4, ?F6;
        [apply (filter_value_spec 32 v) | apply (filter_value_spec 128 v)]; by apply wf_find. }
    rewrite Hget. destruct (M !! (S, D)) as [x|] eqn:E.
    + case_bool_decide; subst; symmetry.
      * apply map_lookup_filter_None. right. naive_solver.
      * by apply map_lookup_filter_Some.
    + symmetry. apply map_lookup_filter_None. by left.
Qed.

End spec.
