(* ===== verification/SadrTable.v ===== *)
(** * The routing table: theorems

    What a table built by any sequence of [Set], [Remove] and [RemoveValue]
    holds, enumerates and answers, against the finite-map specification. *)

From S2P Require Import Prelude Netip Sadr SadrSources SadrTrie SadrSpec.
Import Sadr.

Section table_theorems.
Context {V : Type} `{!EqDecision V}.
Implicit Types (t : Table V) (M : gmap (Prefix * Prefix) V).

(** ** Operation sequences *)

Inductive op :=
| OpSet (s d : Prefix) (v : V)
| OpRemove (s d : Prefix)
| OpRemoveValue (v : V).

Definition op_ok (o : op) : Prop :=
  match o with
  | OpSet s d _ | OpRemove s d => prefix_ok s ∧ prefix_ok d
  | OpRemoveValue _ => True
  end.

Definition apply t (o : op) : Table V :=
  match o with
  | OpSet s d v => Set_ t s d v
  | OpRemove s d => Remove t s d
  | OpRemoveValue v => RemoveValue t v
  end.

Definition spec_apply M (o : op) : gmap (Prefix * Prefix) V :=
  match o with
  | OpSet s d v => spec_set M s d v
  | OpRemove s d => spec_remove M s d
  | OpRemoveValue v => spec_removeValue M v
  end.

Definition run (ops : list op) : Table V := fold_left apply ops None.
Definition spec_run (ops : list op) : gmap (Prefix * Prefix) V := fold_left spec_apply ops ∅.

Lemma R_run ops : Forall op_ok ops → R (run ops) (spec_run ops).
Proof.
  unfold run, spec_run. generalize (R_empty (V := V)). generalize (None : Table V).
  generalize (∅ : gmap (Prefix * Prefix) V).
  induction ops as [|o ops IH]; intros M t HR Hok; [done|]. inversion Hok as [|?? Ho Hok']; subst.
  simpl. apply IH; [|done].
  destruct o; simpl in *; [apply R_set | apply R_remove | apply R_removeValue]; tauto.
Qed.

(** ** Best match *)

Definition routeMatches (S D : Prefix) (s d : Addr) : bool := sourceMatches S s && Contains D d.

(** The route RFC 8966 section 3.7 with RFC 9079 selects: it matches, and every
    other match has a shorter destination, or the same destination and a shorter
    source. [None] when nothing matches. *)
Definition best M (s d : Addr) (o : option V) : Prop :=
  match o with
  | Some v => ∃ S D, M !! (S, D) = Some v ∧ routeMatches S D s d = true ∧
      ∀ S' D' v', M !! (S', D') = Some v' → routeMatches S' D' s d = true →
        (S', D') = (S, D) ∨ Bits D' < Bits D ∨ (D' = D ∧ Bits S' < Bits S)
  | None => ∀ S D v, M !! (S, D) = Some v → routeMatches S D s d = false
  end.

(** ** The position of a matching destination *)

(** The length in the mapped space of a prefix of [d] with [b] bits. *)
Definition pos_of (d : Addr) (b : Z) : Z := if Is4 d then b + 96 else b.

Lemma at_dest_prefix (rs : roots V) d b :
  roots_ok rs → addr_ok d → addr_valid d = true → 0 ≤ b ≤ BitLen d →
  at_dest (Some rs) (Masked (PrefixFrom d b)) = find (root rs d) (As16 d) (pos_of d b) ∧
  key_ok PrefixZero (Masked (PrefixFrom d b)) ∧ Bits (Masked (PrefixFrom d b)) = b ∧
  family (prefix_addr (Masked (PrefixFrom d b))) = family d ∧
  Contains (Masked (PrefixFrom d b)) d = true.
Proof.
  intros Hrs Hd Hv Hb.
  assert (PrefixFrom d b = mkPrefix d (b + 1)) as Ep.
  { unfold PrefixFrom. by rewrite Hv, !(proj2 (Z.leb_le _ _)) by lia. }
  assert (IsValid (PrefixFrom d b) = true) as Hvp
    by (rewrite PrefixFrom_valid, Hv, !(proj2 (Z.leb_le _ _)) by lia; done).
  pose proof (PrefixFrom_ok d b Hd) as Hok.
  assert (Bits (Masked (PrefixFrom d b)) = b) as HB.
  { rewrite Masked_shape by done. rewrite Ep. unfold Bits. simpl. lia. }
  split_and!.
  - rewrite at_dest_masked by done. rewrite Ep. unfold at_dest, dest_len, pos_of, Bits. simpl.
    by replace (b + 1 - 1) with b by lia.
  - replace PrefixZero with (Masked PrefixZero) by done. apply key_ok_masked; [split; [done | by left] | done |].
    unfold validPrefixes. by rewrite Hvp.
  - done.
  - unfold family. by rewrite Is4_Masked, Ep.
  - rewrite (Contains_key (BitLen d)); [| |by rewrite Masked_valid|done].
    + by rewrite HB, bool_decide_eq_true_2.
    + split; [by apply Masked_ok | split; [by apply Masked_idem|]]. intros _.
      rewrite Masked_shape, Ep by done. simpl. apply BitLen_mask.
Qed.

(** A destination of the map that contains [d] is a prefix of [d]. *)
Lemma key_contains S D d :
  key_ok S D → addr_ok d → Contains D d = true →
  addr_valid d = true ∧ 0 ≤ Bits D ≤ BitLen d ∧ D = Masked (PrefixFrom d (Bits D)).
Proof.
  intros Hk Hd Hc. pose proof (key_dest _ _ Hk) as Hv.
  destruct (valid_dest D (key_dst_ok _ _ Hk) Hv) as [Ha Hb].
  assert (addr_valid d = true ∧ BitLen (prefix_addr D) = BitLen d) as [Hvd Hl].
  { unfold Contains in Hc. rewrite Hv in Hc. simpl in Hc. bool_props. by split. }
  split_and!; [done | lia | lia |].
  rewrite (Contains_key (BitLen d)) in Hc; [bool_props; by symmetry | | done | done].
  split; [apply Hk | split; [apply Hk | by intros _]].
Qed.

Lemma key_ok_source S S0 D :
  key_ok S0 D → source_ok (BitLen (prefix_addr D)) S → key_ok S D.
Proof.
  intros [_ H2 _ H4 H5] (H1 & H3 & H6). split; auto. unfold validPrefixes in *. bool_props.
  apply andb_true_iff. split; [done|]. destruct (IsValid S); simpl; [|done]. apply Z.eqb_eq. auto.
Qed.

Lemma Lookup_best t M s d :
  R t M → addr_ok s → addr_ok d → best M s d (Lookup t s d).
Proof.
  intros HR Hs Hd. pose proof HR as [Hok Hkeys Hget].
  (* what a map entry that matches says about the trie *)
  assert (∀ rs S D v, t = Some rs → M !! (S, D) = Some v → routeMatches S D s d = true →
    valueOf (find (root rs d) (As16 d) (pos_of d (Bits D))) S = Some v ∧ sourceMatches S s = true ∧
    D = Masked (PrefixFrom d (Bits D))) as Hin.
  { intros rs S D v -> HM Hm. pose proof (Hkeys _ _ _ HM) as Hk. unfold routeMatches in Hm. bool_props.
    destruct (key_contains S D d Hk Hd) as (Hv & Hb & HD); [done|].
    rewrite <- Hget, get_at_dest, HD in HM by done.
    destruct (at_dest_prefix rs d (Bits D)) as (E & _); [done..|]. rewrite E in HM. done. }
  destruct t as [rs|]; simpl.
  2:{ intros S D v HM. pose proof (Hkeys _ _ _ HM) as Hk. rewrite <- Hget in HM by done. done. }
  destruct (addr_valid d) eqn:Hvd; cbn [negb].
  2:{ intros S D v HM. unfold routeMatches, Contains. rewrite Hvd. by rewrite !andb_false_r. }
  assert (∃ fam, wf fam (root rs d) ∧ fam = family d) as (fam & Hwf & Hfam).
  { destruct Hok as (? & ? & ?). exists (family d). unfold root, family. by destruct (Is4 d). }
  fold (root rs d). rewrite (lookupLoop_deep fam) by (auto using As16_128).
  pose proof (deep_spec fam (root rs d) s (As16 d) Hwf) as Hdeep.
  assert (∀ q, srcs_ok fam (find (root rs d) (As16 d) q)) as Hsrcs by (intros; by apply wf_find).
  destruct (deep (root rs d) s (As16 d)) as [v|].
  - destruct Hdeep as (q & Hq & Hv & Hmax). pose proof (firstMatch_spec fam _ s (Hsrcs q) Hs) as Hfm.
    rewrite Hv in Hfm. destruct Hfm as (S & HvS & HS & HmS & HmaxS).
    assert (∃ b, q = pos_of d b ∧ 0 ≤ b ≤ BitLen d) as (b & -> & Hb).
    { destruct Hok as (_ & Hu & _). unfold pos_of, root in *. destruct d as [|x|x]; simpl in *; [done| |eauto].
      exists (q - 96). destruct (find_under 32 95 (mapped4 0) true (ipv4 rs) (mapped4 x) q) as [E|(? & _)];
        [by subst | done | by rewrite E in Hv | lia]. }
    destruct (at_dest_prefix rs d b) as (E & Hk0 & HB & Hf & Hc); [done..|].
    exists S, (Masked (PrefixFrom d b)). split_and!.
    + rewrite <- Hget, get_at_dest, E by (eapply key_ok_source; [exact Hk0|];
        rewrite <- family_BitLen, Hf, <- Hfam; [done | by destruct (valid_dest _ (key_dst_ok _ _ Hk0) (key_dest _ _ Hk0))]).
      done.
    + unfold routeMatches. by rewrite HmS, Hc.
    + intros S' D' v' HM' Hm'. destruct (Hin rs S' D' v' eq_refl HM' Hm') as (Hv' & HmS' & HD').
      destruct (Z.lt_trichotomy (Bits D') b) as [Hlt|[Heq|Hgt]].
      * right. left. by rewrite HB.
      * rewrite Heq in HD', Hv'. rewrite <- HD' in *. destruct (HmaxS S' v' Hv' HmS') as [->|]; auto.
      * exfalso. pose proof (firstMatch_spec fam _ s (Hsrcs (pos_of d (Bits D'))) Hs) as Hfm.
        rewrite Hmax in Hfm by (unfold pos_of; destruct (Is4 d); lia). rewrite (Hfm _ _ Hv') in HmS'. done.
  - intros S D v HM. destruct (routeMatches S D s d) eqn:Hm; [|done]. exfalso.
    destruct (Hin rs S D v eq_refl HM Hm) as (Hv' & HmS' & _).
    pose proof (firstMatch_spec fam _ s (Hsrcs (pos_of d (Bits D))) Hs) as Hfm.
    rewrite Hdeep in Hfm. by rewrite (Hfm _ _ Hv') in HmS'.
Qed.

(** ** Enumeration *)

(** A node of the trie of one family names a destination of that family. *)
Lemma node_dest (rs : roots V) (isV4 : bool) a p srcs :
  roots_ok rs → (a, p, srcs) ∈ nodes (if isV4 then ipv4 rs else ipv6 rs) →
  ∃ d b, addr_ok d ∧ addr_valid d = true ∧ 0 ≤ b ≤ BitLen d ∧ Is4 d = isV4 ∧
    As16 d = a ∧ pos_of d b = p ∧ nodePrefix isV4 a p = Masked (PrefixFrom d b) ∧
    find (if isV4 then ipv4 rs else ipv6 rs) a p = srcs.
Proof.
  intros (H4 & Hu & H6) Hin. destruct isV4.
  - destruct (nodes_find 32 _ _ _ _ H4 Hin) as (Ha & Hp & Hf).
    destruct (nodes_under 32 95 (mapped4 0) true _ _ _ _ H4 Hu Hin) as (Hp' & Hag & Hb).
    assert (a / 2 ^ 32 = 65535) as Ediv.
    { assert (agree (95 + 1) a (mapped4 0) = true) as E by (rewrite agree_succ, Hag, Hb by lia; done).
      unfold agree in E. apply Z.eqb_eq in E. rewrite !Z.shiftr_div_pow2 in E by lia. exact E. }
    exists (Addr4 (a mod 2 ^ 32)), (p - 96). unfold pos_of, nodePrefix, is128 in *. simpl. rewrite Ediv.
    split_and!; try done; try lia; try (apply Z.mod_pos_bound; lia).
    unfold mapped4. rewrite (Z.div_mod a (2 ^ 32)) at 2 by lia. lia.
  - destruct (nodes_find 128 _ _ _ _ H6 Hin) as (Ha & Hp & Hf).
    exists (Addr6 a), p. unfold pos_of, nodePrefix. simpl. split_and!; try done; try lia; by destruct Ha.
Qed.

Lemma All_spec t M rt :
  R t M → rt ∈ All t ↔ M !! (Source rt, Destination rt) = Some (Value rt).
Proof.
  intros [Hok Hkeys Hget]. destruct rt as [S D v]. simpl. destruct t as [rs|]; simpl.
  2:{ split; [set_solver|]. intros HM. pose proof (Hkeys _ _ _ HM). by rewrite <- Hget in HM. }
  assert (∀ isV4, mkRoute S D v ∈ walk (if isV4 : bool then ipv4 rs else ipv6 rs) isV4 ↔
            M !! (S, D) = Some v ∧ Is4 (prefix_addr D) = isV4) as Hw.
  { intros isV4. rewrite walk_nodes. simpl. split.
    - intros (a & p & srcs & Hin & He & ->).
      destruct (node_dest rs isV4 a p srcs Hok Hin) as (d & b & Hd & Hv & Hb & H4 & Ha & Hp & -> & Hf).
      destruct (at_dest_prefix rs d b) as (E & Hk & HB & Hfam & _); [done..|].
      assert (srcs_ok (family d) srcs) as Hs.
      { pose proof (at_dest_ok (Some rs) (Masked (PrefixFrom d b)) Hok) as Hs.
        rewrite E, Hfam, Ha, Hp in Hs. unfold root in Hs. by rewrite H4, Hf in Hs. }
      split.
      + rewrite <- Hget, get_at_dest, E, Ha, Hp.
        * unfold root. rewrite H4, Hf. by eapply elem_valueOf.
        * eapply key_ok_source; [exact Hk|]. rewrite <- family_BitLen, Hfam.
          -- pose proof (srcs_source _ _ Hs) as HF. rewrite Forall_forall in HF. apply (HF _ He).
          -- by destruct (valid_dest _ (key_dst_ok _ _ Hk) (key_dest _ _ Hk)).
      + rewrite Is4_Masked; [done | by apply PrefixFrom_ok |].
        by rewrite PrefixFrom_valid, Hv, !(proj2 (Z.leb_le _ _)) by lia.
    - intros [HM HD4]. pose proof (Hkeys _ _ _ HM) as Hk. rewrite <- Hget, get_at_dest in HM by done.
      simpl in HM. destruct (find_nodes (root rs (prefix_addr D)) (As16 (prefix_addr D)) (dest_len D))
        as [E|(a & Hin & Hag)]; [by rewrite E in HM|].
      unfold root in *. rewrite HD4 in *. exists a, (dest_len D), (find (if isV4 then ipv4 rs else ipv6 rs)
        (As16 (prefix_addr D)) (dest_len D)). split_and!; [done | by apply valueOf_elem |].
      destruct (node_dest rs isV4 a _ _ Hok Hin) as (d & b & Hd & Hv & Hb & H4 & Ha & Hp & -> & _).
      assert (IsValid (PrefixFrom d b) = true) as Hvp
        by (rewrite PrefixFrom_valid, Hv, !(proj2 (Z.leb_le _ _)) by lia; done).
      assert (dest_len (PrefixFrom d b) = dest_len D) as Hlen.
      { rewrite <- Hp. unfold dest_len, pos_of, PrefixFrom, Bits. simpl. rewrite Hv, !(proj2 (Z.leb_le _ _)) by lia.
        simpl. destruct (Is4 d); lia. }
      pose proof (dest_eq (PrefixFrom d b) D (PrefixFrom_ok _ _ Hd) Hvp (key_dst_ok _ _ Hk) (key_dest _ _ Hk)
        (key_dst_masked _ _ Hk)) as Hde. simpl in Hde.
      rewrite Hlen, Ha, Hag, Z.eqb_refl, H4, HD4 in Hde. specialize (Hde eq_refl). simpl in Hde.
      symmetry in Hde. by bool_props. }
  rewrite elem_of_app. rewrite (Hw true), (Hw false). destruct (Is4 _); naive_solver.
Qed.

(** ** Theorems *)

(** C8: the table refines a finite map. After any sequence of [Set], [Remove]
    and [RemoveValue], [All] enumerates exactly the entries of the map built by
    the same sequence of insertions, deletions and filterings of canonical
    (source, destination) pairs. *)
Theorem table_refines_map ops rt :
  Forall op_ok ops →
  rt ∈ All (run ops) ↔ spec_run ops !! (Source rt, Destination rt) = Some (Value rt).
Proof. intros Hok. by apply All_spec, R_run. Qed.

(** C9: [Lookup] answers with the best match. On a table built by any sequence
    of operations, for every source and destination address, the result is the
    value of the entry that matches both and beats every other matching entry on
    destination length first and source length second, and there is no result
    exactly when no entry matches. The per-length index and the ordered scan
    therefore give the same answer. *)
Theorem lookup_best_match ops s d :
  Forall op_ok ops → addr_ok s → addr_ok d → best (spec_run ops) s d (Lookup (run ops) s d).
Proof. intros Hok Hs Hd. by apply Lookup_best; [apply R_run|..]. Qed.

(** the structural invariant. Every table built by operations is a
    well-formed compressed trie: prefix lengths grow along every path, a child
    extends its parent on the side it hangs from, no node without sources has an
    empty side, the cached branch position and the match-all source agree with
    the node, and the sources are canonical, distinct and ordered. *)
Theorem table_invariant ops : Forall op_ok ops → table_ok (run ops).
Proof. intros Hok. apply (R_ok _ _ (R_run ops Hok)). Qed.

End table_theorems.

(** ** Witnesses *)

(** 10.0.0.0/8 and 10.1.0.0/16 for any source, 10.1.0.0/16 from 7.0.0.0/8. *)
Definition net8 := PrefixFrom (Addr4 167772161) 8.
Definition net16 := PrefixFrom (Addr4 167837697) 16.
Definition from7 := PrefixFrom (Addr4 117440512) 8.
Definition sample : list (op (V := Z)) :=
  [OpSet PrefixZero net8 1; OpSet PrefixZero net16 2; OpSet from7 net16 3;
   OpSet PrefixZero net8 4; OpRemoveValue 9; OpRemove from7 net8].

Lemma sample_ok : Forall op_ok sample.
Proof.
  unfold sample.
  repeat (apply List.Forall_cons; [cbn [op_ok]; first [exact I
    | split; first [apply PrefixZero_ok | apply PrefixFrom_ok; cbn [addr_ok]; lia]]|]).
  apply List.Forall_nil.
Qed.

Lemma table_refines_map_witness :
  mkRoute PrefixZero (Masked net8) 4 ∈ All (run sample).
Proof.
  apply (proj2 (table_refines_map sample (mkRoute PrefixZero (Masked net8) 4) sample_ok)).
  vm_compute. reflexivity.
Defined.

Lemma lookup_best_match_witness :
  best (spec_run sample) (Addr4 117440515) (Addr4 167837700) (Some 3).
Proof.
  assert (Lookup (run sample) (Addr4 117440515) (Addr4 167837700) = Some 3) as E
    by (vm_compute; reflexivity).
  rewrite <- E. apply (lookup_best_match sample (Addr4 117440515) (Addr4 167837700) sample_ok); simpl; lia.
Defined.

Lemma table_invariant_witness : table_ok (run sample).
Proof. exact (table_invariant sample sample_ok). Defined.
