(* ===== verification/BabelTlv.v ===== *)
(** * Babel on the wire: internal/babel/const.go, tlv.go, misc.go, hello_ihu.go

    The framing of packets, TLVs and sub-TLVs and the fixed-layout TLVs. Decoders
    are computations in [res], so an index past the end of a peer's bytes would
    be a [Panic]. A [net.IP] is its bytes; the nil slice is the empty list. *)

From S2P Require Import Prelude Netip.

(** ** const.go *)

Definition Magic : Z := 42.
Definition Version : Z := 2.
Definition Port : Z := 6696.
Definition headerLen : nat := 4.

Definition TLVPad1 : Z := 0.
Definition TLVPadN : Z := 1.
Definition TLVAckReq : Z := 2.
Definition TLVAck : Z := 3.
Definition TLVHello : Z := 4.
Definition TLVIHU : Z := 5.
Definition TLVRouterID : Z := 6.
Definition TLVNextHop : Z := 7.
Definition TLVUpdate : Z := 8.
Definition TLVRouteRequest : Z := 9.
Definition TLVSeqnoRequest : Z := 10.

Definition SubTLVPad1 : Z := 0.
Definition SubTLVPadN : Z := 1.
Definition SubTLVTimestamp : Z := 3.

Definition AEWildcard : Z := 0.
Definition AEIPv4 : Z := 1.
Definition AEIPv6 : Z := 2.
Definition AEIPv6LinkLocal : Z := 3.
Definition AEIPv4ViaIPv6 : Z := 4.

Definition MetricInfinity : Z := 0xffff.

(** ** tlv.go *)

Record RawTLV := mkTLV { Type_ : Z; Body : list Z }.
Record SubTLV := mkSub { subType : Z; subBody : list Z }.

(** [framedTLV], a type byte and a body. *)
Record framedTLV := mkFrame { typeByte : Z; frameBody : list Z }.

(** Every turn of the loop consumes at least one byte, so the length of the body
    is fuel enough; running out of fuel is a [Panic], which no input reaches. *)
Fixpoint decodeFrames (fuel : nat) (body : list Z) : res (list framedTLV) :=
  match body with
  | [] => Ok []
  | t :: _ =>
      match fuel with
      | O => Panic
      | S fuel =>
          if t =? TLVPad1 then rest ← from body 1; decodeFrames fuel rest
          else if (length body <? 2)%nat then Err "babel: truncated TLV header"
          else
            len ← idx body 1;
            let n := Z.to_nat len in
            if (length body <? 2 + n)%nat then Err "babel: TLV length exceeds enclosing data"
            else
              fb ← slice body 2 (2 + n);
              rest ← from body (2 + n);
              out ← decodeFrames fuel rest;
              Ok (if negb (t =? TLVPadN) then mkFrame t fb :: out else out)
      end
  end.

Definition decodeTLVFrames (body : list Z) : res (list framedTLV) := decodeFrames (length body) body.

Fixpoint encodeBody (tlvs : list RawTLV) : list Z :=
  match tlvs with
  | [] => []
  | t :: rest =>
      (if Type_ t =? TLVPad1 then [u8 TLVPad1]
       else u8 (Type_ t) :: u8 (Z.of_nat (length (Body t))) :: Body t) ++ encodeBody rest
  end.

Definition EncodePacket (tlvs : list RawTLV) : list Z :=
  let body := encodeBody tlvs in
  [Magic; Version] ++ be_to 2 (u16 (Z.of_nat (length body))) ++ body.

Definition DecodePacket (b : list Z) : res (list RawTLV) :=
  if (length b <? headerLen)%nat then Err "babel: short packet"
  else
    b0 ← idx b 0;
    if negb (b0 =? Magic) then Err "babel: bad magic"
    else
      b1 ← idx b 1;
      if negb (b1 =? Version) then Err "babel: unsupported version"
      else
        bodyLen ← get_be 2 b 2;
        if Z.of_nat (length b) <? Z.of_nat headerLen + bodyLen then Err "babel: body length exceeds packet size"
        else
          body ← slice b headerLen (headerLen + Z.to_nat bodyLen);
          frames ← decodeTLVFrames body;
          Ok (List.map (λ f, mkTLV (typeByte f) (frameBody f)) frames).

Fixpoint encodeSubTLVs (subs : list SubTLV) : list Z :=
  match subs with
  | [] => []
  | s :: rest => subType s :: u8 (Z.of_nat (length (subBody s))) :: subBody s ++ encodeSubTLVs rest
  end.

Definition decodeSubTLVs (b : list Z) : res (list SubTLV) :=
  frames ← decodeTLVFrames b;
  Ok (List.map (λ f, mkSub (typeByte f) (frameBody f)) frames).

Definition decodeOptionalSubTLVs (b : list Z) : res (list SubTLV) :=
  subs ← decodeSubTLVs b;
  if existsb (λ s, 128 <=? subType s) subs then Err "babel: unsupported mandatory sub-TLV" else Ok subs.

Fixpoint findSubTLV (subs : list SubTLV) (t : Z) : option (list Z) :=
  match subs with
  | [] => None
  | s :: rest => if subType s =? t then Some (subBody s) else findSubTLV rest t
  end.

Definition encodeAddress (addr : list Z) : Z * list Z :=
  match To4 addr with
  | Some v4 => (AEIPv4, v4)
  | None => (AEIPv6, default [] (To16 addr))
  end.

Definition decodeAddress (ae : Z) (body : list Z) : res (list Z) :=
  if ae =? AEIPv4 then
    if (length body <? 4)%nat then Err "babel: short IPv4 address" else slice body 0 4
  else if ae =? AEIPv6 then
    if (length body <? 16)%nat then Err "babel: short IPv6 address" else slice body 0 16
  else if ae =? AEIPv6LinkLocal then
    if (length body <? 8)%nat then Err "babel: short IPv6 link-local address"
    else low ← slice body 0 8; Ok ([254; 128; 0; 0; 0; 0; 0; 0] ++ low)
  else Err "babel: unsupported address encoding".

(** ** misc.go *)

Definition EncodeRouterID (id : list Z) : RawTLV := mkTLV TLVRouterID ([0; 0] ++ id).

(** The id and whether the TLV is otherwise ignored. *)
Definition DecodeRouterID (body : list Z) : res (list Z * bool) :=
  if (length body <? 10)%nat then Err "babel: short Router-Id TLV"
  else
    id ← slice body 2 10;
    rest ← from body 10;
    match decodeOptionalSubTLVs rest with
    | Panic => Panic
    | Err _ => Ok (id, true)
    | Ok _ => Ok (id, false)
    end.

Definition EncodeNextHop (addr : list Z) : RawTLV :=
  let '(ae, a) := encodeAddress addr in mkTLV TLVNextHop ([ae; 0] ++ a).

(** The next hop, its encoding and whether the TLV is otherwise ignored. *)
Definition DecodeNextHop (body : list Z) : res (list Z * Z * bool) :=
  if (length body <? 2)%nat then Err "babel: short NextHop TLV"
  else
    ae ← idx body 0;
    rest ← from body 2;
    addr ← decodeAddress ae rest;
    let length_ := if ae =? AEIPv6LinkLocal then 8%nat else length addr in
    rest ← from body (2 + length_);
    match decodeOptionalSubTLVs rest with
    | Panic => Panic
    | Err _ => Ok (addr, ae, true)
    | Ok _ => Ok (addr, ae, false)
    end.

Definition EncodeAckReq (nonce interval : Z) : RawTLV :=
  mkTLV TLVAckReq ([0; 0] ++ be_to 2 nonce ++ be_to 2 interval).

Definition DecodeAckReq (body : list Z) : res Z :=
  if (length body <? 6)%nat then Err "babel: short AckReq TLV"
  else
    rest ← from body 6;
    _ ← decodeOptionalSubTLVs rest;
    get_be 2 body 2.

Definition EncodeAck (nonce : Z) : RawTLV := mkTLV TLVAck (be_to 2 nonce).

(** ** hello_ihu.go *)

Record Hello := mkHello {
  helloSeqno : Z; helloInterval : Z; Unicast : bool; TxTS : Z; helloHasTS : bool
}.

Definition EncodeHello (h : Hello) : RawTLV :=
  let body := be_to 2 (if Unicast h then 0x8000 else 0) ++ be_to 2 (helloSeqno h) ++ be_to 2 (helloInterval h) in
  mkTLV TLVHello
    (if helloHasTS h then body ++ encodeSubTLVs [mkSub SubTLVTimestamp (be_to 4 (TxTS h))] else body).

Definition DecodeHello (body : list Z) : res Hello :=
  if (length body <? 6)%nat then Err "babel: short Hello TLV"
  else
    seqno ← get_be 2 body 2;
    interval ← get_be 2 body 4;
    flags ← get_be 2 body 0;
    let unicast := negb (Z.land flags 0x8000 =? 0) in
    rest ← from body 6;
    subs ← decodeOptionalSubTLVs rest;
    match findSubTLV subs SubTLVTimestamp with
    | Some ts =>
        if (4 <=? length ts)%nat
        then tx ← get_be 4 ts 0; Ok (mkHello seqno interval unicast tx true)
        else Ok (mkHello seqno interval unicast 0 false)
    | None => Ok (mkHello seqno interval unicast 0 false)
    end.

Record IHU := mkIHU {
  RxCost : Z; ihuInterval : Z; OriginTS : Z; ReceiveTS : Z; ihuHasTS : bool
}.

Definition EncodeIHU (i : IHU) : RawTLV :=
  let body := [AEWildcard; 0] ++ be_to 2 (RxCost i) ++ be_to 2 (ihuInterval i) in
  mkTLV TLVIHU
    (if ihuHasTS i
     then body ++ encodeSubTLVs [mkSub SubTLVTimestamp (be_to 4 (OriginTS i) ++ be_to 4 (ReceiveTS i))]
     else body).

(** The IHU and its address, [] when the encoding is the wildcard. *)
Definition DecodeIHU (body : list Z) : res (IHU * list Z) :=
  if (length body <? 6)%nat then Err "babel: short IHU TLV"
  else
    ae ← idx body 0;
    rxcost ← get_be 2 body 2;
    interval ← get_be 2 body 4;
    rest ← from body 6;
    ar ← (if negb (ae =? AEWildcard)
          then
            a ← decodeAddress ae rest;
            let alen := if ae =? AEIPv6 then 16%nat else if ae =? AEIPv6LinkLocal then 8%nat else 4%nat in
            rest ← from rest alen;
            Ok (a, rest)
          else Ok ([], rest));
    subs ← decodeOptionalSubTLVs ar.2;
    match findSubTLV subs SubTLVTimestamp with
    | Some ts =>
        if (8 <=? length ts)%nat
        then
          origin ← get_be 4 ts 0;
          receive ← get_be 4 ts 4;
          Ok (mkIHU rxcost interval origin receive true, ar.1)
        else Ok (mkIHU rxcost interval 0 0 false, ar.1)
    | None => Ok (mkIHU rxcost interval 0 0 false, ar.1)
    end.

(** ** The framing *)

(** A TLV that fits its one-byte type and length fields and is not padding. *)
Definition frame_ok (t : Z) (body : list Z) : Prop :=
  1 < t < 256 ∧ (length body < 256)%nat.

Lemma decodeFrames_pad fuel body : decodeFrames (S fuel) (TLVPad1 :: body) = decodeFrames fuel body.
Proof.
  cbn [decodeFrames]. rewrite Z.eqb_refl. rewrite from_ok by (simpl; lia). done.
Qed.

Lemma decodeFrames_frame fuel t fb rest : 0 < t < 256 → (length fb < 256)%nat →
  decodeFrames (S fuel) (t :: u8 (Z.of_nat (length fb)) :: fb ++ rest) =
    (out ← decodeFrames fuel rest; Ok (if negb (t =? TLVPadN) then mkFrame t fb :: out else out)).
Proof.
  intros Ht Hl. cbn [decodeFrames]. rewrite (proj2 (Z.eqb_neq t TLVPad1)) by (unfold TLVPad1; lia).
  set (body := t :: _ :: fb ++ rest).
  assert (length body = 2 + length fb + length rest)%nat as Hlen by (unfold body; simpl; rewrite length_app; lia).
  destruct (Nat.ltb_spec (length body) 2); [lia|].
  change (idx body 1) with (Ok (u8 (Z.of_nat (length fb)))). rbind.
  replace (u8 (Z.of_nat (length fb))) with (Z.of_nat (length fb)) by (symmetry; apply Z.mod_small; lia).
  rewrite Nat2Z.id. destruct (Nat.ltb_spec (length body) (2 + length fb)); [lia|].
  unfold body. rewrite (slice_app_exact [t; u8 (Z.of_nat (length fb))] fb rest) by (simpl; lia). rbind.
  rewrite from_ok by (fold body; lia). rbind. cbn [drop Nat.add].
  by rewrite drop_app_length.
Qed.

Lemma decodeFrames_safe fuel : ∀ body, (length body ≤ fuel)%nat → safe (decodeFrames fuel body).
Proof.
  induction fuel as [|fuel IH]; intros [|t body] Hf; try done; [simpl in Hf; lia|].
  cbn [decodeFrames]. set (b := t :: body) in *. assert (length b = S (length body)) as Hb by done.
  destruct (t =? TLVPad1).
  { rewrite from_ok by lia. rbind. apply IH. rewrite length_drop. lia. }
  destruct (Nat.ltb_spec (length b) 2); [done|].
  apply safe_bind; [apply safe_idx; lia | intros len _].
  destruct (Nat.ltb_spec (length b) (2 + Z.to_nat len)); [done|].
  apply safe_bind; [apply safe_slice; lia | intros fb _].
  rewrite from_ok by lia. rbind. apply safe_bind; [apply IH; rewrite length_drop; lia | done].
Qed.

Lemma decodeTLVFrames_safe body : safe (decodeTLVFrames body).
Proof. by apply decodeFrames_safe. Qed.

(** More fuel than the length changes nothing. *)
Lemma decodeFrames_fuel fuel fuel' : ∀ body, (length body ≤ fuel)%nat → (length body ≤ fuel')%nat →
  decodeFrames fuel body = decodeFrames fuel' body.
Proof.
  revert fuel'. induction fuel as [|fuel IH]; intros [|fuel'] [|t body] H1 H2; try done;
    try (simpl in *; lia).
  cbn [decodeFrames]. set (b := t :: body) in *. assert (length b = S (length body)) as Hb by done.
  destruct (t =? TLVPad1).
  { rewrite from_ok by lia. rbind. apply IH; rewrite length_drop; lia. }
  destruct (Nat.ltb_spec (length b) 2); [done|].
  destruct (idx b 1) as [len| |]; [|done|done]. rbind.
  destruct (Nat.ltb_spec (length b) (2 + Z.to_nat len)); [done|].
  destruct (slice b 2 (2 + Z.to_nat len)) as [fb| |]; [|done|done]. rbind.
  rewrite from_ok by lia. rbind. rewrite (IH fuel'); [done | rewrite length_drop; lia..].
Qed.

(** ** Packets *)

Definition tlv_ok (t : RawTLV) : Prop := 0 ≤ Type_ t < 256 ∧ (length (Body t) < 256)%nat.

(** Padding carries no information. *)
Definition isPad (t : RawTLV) : bool := (Type_ t =? TLVPad1) || (Type_ t =? TLVPadN).

Definition toTLV (f : framedTLV) : RawTLV := mkTLV (typeByte f) (frameBody f).
Definition toFrame (t : RawTLV) : framedTLV := mkFrame (Type_ t) (Body t).

Lemma decodeFrames_encodeBody tlvs : Forall tlv_ok tlvs → ∀ fuel, (length (encodeBody tlvs) ≤ fuel)%nat →
  decodeFrames fuel (encodeBody tlvs) = Ok (List.map toFrame (List.filter (λ t, negb (isPad t)) tlvs)).
Proof.
  induction 1 as [|t tlvs [Ht Hl] _ IH]; intros fuel Hf; [by destruct fuel|].
  cbn [encodeBody List.filter] in *. unfold isPad. rewrite length_app in Hf.
  destruct (Z.eqb_spec (Type_ t) TLVPad1) as [E|E]; cbn [orb negb].
  - change (u8 TLVPad1) with TLVPad1. destruct fuel as [|fuel]; [simpl in Hf; lia|].
    cbn [app]. rewrite decodeFrames_pad. apply IH. simpl in Hf. lia.
  - cbn [length] in Hf. destruct fuel as [|fuel]; [lia|]. cbn [app].
    replace (u8 (Type_ t)) with (Type_ t) by (symmetry; apply Z.mod_small; lia).
    rewrite decodeFrames_frame, IH by (unfold TLVPad1 in E; lia). rbind.
    destruct (Type_ t =? TLVPadN); done.
Qed.

(** The header of a packet is read back whatever follows the announced body. *)
Lemma DecodePacket_body body trailer : Z.of_nat (length body) < 2 ^ 16 →
  DecodePacket ([Magic; Version] ++ be_to 2 (u16 (Z.of_nat (length body))) ++ body ++ trailer) =
    (frames ← decodeTLVFrames body; Ok (List.map toTLV frames)).
Proof.
  intros Hb. rewrite u16_id by lia. unfold DecodePacket, headerLen.
  set (b := [Magic; Version] ++ be_to 2 (Z.of_nat (length body)) ++ body ++ trailer).
  assert (length b = 4 + length body + length trailer)%nat as Hl
    by (unfold b; rewrite !length_app, length_be_to; simpl; lia).
  destruct (Nat.ltb_spec (length b) 4); [lia|].
  change (idx b 0) with (Ok Magic). change (idx b 1) with (Ok Version). rbind. rewrite !Z.eqb_refl. cbn [negb].
  assert (get_be 2 b 2 = Ok (Z.of_nat (length body))) as ->.
  { unfold b. rewrite get_be_app by done. by rewrite Z.mod_small by (simpl; lia). }
  rbind. destruct (Z.ltb_spec (Z.of_nat (length b)) (Z.of_nat 4 + Z.of_nat (length body))); [lia|].
  rewrite Nat2Z.id. unfold b. rewrite app_assoc.
  rewrite (slice_app_exact ([Magic; Version] ++ be_to 2 (Z.of_nat (length body))) body trailer)
    by (rewrite ?length_app, ?length_be_to; simpl; lia). done.
Qed.

(** the packet codec round trip. Whatever TLVs are encoded, bytes after the
    announced length included, a receiver gets them back in order without the
    padding. *)
Theorem packet_roundtrip tlvs trailer :
  Forall tlv_ok tlvs → Z.of_nat (length (encodeBody tlvs)) < 2 ^ 16 →
  DecodePacket (EncodePacket tlvs ++ trailer) = Ok (List.filter (λ t, negb (isPad t)) tlvs).
Proof.
  intros Hok Hl. unfold EncodePacket. cbv zeta. rewrite <- !app_assoc. rewrite DecodePacket_body by done.
  unfold decodeTLVFrames. rewrite decodeFrames_encodeBody by done. rbind. rewrite List.map_map. f_equal.
  rewrite <- (List.map_id (List.filter _ _)) at 2. apply List.map_ext. by intros [].
Qed.

Lemma decodeFrames_sound fuel : ∀ body out, bytes_ok body → decodeFrames fuel body = Ok out →
  Forall (λ f, frame_ok (typeByte f) (frameBody f) ∧ bytes_ok (frameBody f)) out ∧
  (length (encodeBody (List.map toTLV out)) ≤ length body)%nat.
Proof.
  induction fuel as [|fuel IH]; intros [|t body] out Hb; try done.
  1-2: intros [= <-]; split; [constructor | simpl; lia].
  cbn [decodeFrames]. set (b := t :: body) in *. assert (length b = S (length body)) as Hlb by done.
  assert (byte_ok t) as Hbt by (by inversion Hb). unfold byte_ok in Hbt.
  destruct (Z.eqb_spec t TLVPad1) as [E|E].
  { rewrite from_ok by lia. rbind. intros H. destruct (IH _ _ (Forall_drop _ _ _ Hb) H) as [H1 H2].
    split; [done|]. rewrite length_drop in H2. lia. }
  destruct (Nat.ltb_spec (length b) 2); [done|]. intros (len & Hlen & H1)%bind_ok_inv. cbv zeta in H1.
  destruct (Nat.ltb_spec (length b) (2 + Z.to_nat len)); [done|].
  apply bind_ok_inv in H1 as (fb & Hfb & H1). rewrite from_ok in H1 by lia. cbn [mbind res_bind] in H1.
  apply bind_ok_inv in H1 as (out' & Hout & [= <-]).
  destruct (IH _ _ (Forall_drop _ _ _ Hb) Hout) as [Hf Hsz]. rewrite length_drop in Hsz.
  pose proof (bytes_ok_slice _ _ _ _ Hb Hfb) as Hbf. pose proof (slice_length _ _ _ _ Hfb) as Hlf.
  assert (byte_ok len) as Hbl.
  { unfold idx in Hlen. destruct (b !! 1%nat) eqn:E1; [|done]. injection Hlen as ->.
    unfold bytes_ok in Hb. rewrite Forall_forall in Hb. eapply Hb, list_elem_of_lookup_2, E1. }
  unfold byte_ok in Hbl. destruct (Z.eqb_spec t TLVPadN) as [E1|E1]; cbn [negb]; [split; [done | lia]|].
  unfold TLVPad1, TLVPadN in *. split.
  - constructor; [|done]. split; [split; cbn; lia | done].
  - cbn [List.map encodeBody toTLV Type_ Body typeByte frameBody].
    rewrite (proj2 (Z.eqb_neq t TLVPad1)) by (unfold TLVPad1; lia). rewrite length_app. cbn [length]. lia.
Qed.

(** What a decoder accepted is canonical. From any bytes a peer sends, the
    decoded TLVs fit their fields and hold no padding, and encoding and decoding
    them again gives the same TLVs. *)
Theorem decode_canonical b tlvs :
  bytes_ok b → DecodePacket b = Ok tlvs →
  Forall tlv_ok tlvs ∧ Forall (λ t, isPad t = false) tlvs ∧ DecodePacket (EncodePacket tlvs) = Ok tlvs.
Proof.
  intros Hb Hd. unfold DecodePacket in Hd. destruct (Nat.ltb_spec (length b) headerLen); [done|].
  apply bind_ok_inv in Hd as (b0 & _ & Hd). destruct (negb _); [done|].
  apply bind_ok_inv in Hd as (b1 & _ & Hd). destruct (negb _); [done|].
  apply bind_ok_inv in Hd as (n & Hn & Hd). destruct (_ <? _); [done|].
  apply bind_ok_inv in Hd as (body & Hs & Hd). apply bind_ok_inv in Hd as (out & Ho & [= <-]).
  change (List.map (λ f, mkTLV (typeByte f) (frameBody f)) out) with (List.map toTLV out).
  pose proof (get_be_bound _ _ _ _ Hb Hn) as Hnb. pose proof (slice_length _ _ _ _ Hs) as Hls.
  destruct (decodeFrames_sound _ _ _ (bytes_ok_slice _ _ _ _ Hb Hs) Ho) as [Hf Hsz].
  change (256 ^ Z.of_nat 2) with 65536 in Hnb.
  assert (Forall tlv_ok (List.map toTLV out)) as Hok.
  { apply List.Forall_map. eapply Forall_impl; [exact Hf|]. intros f [[? ?] _]. split; cbn; [lia | done]. }
  assert (Forall (λ t, isPad t = false) (List.map toTLV out)) as Hnp.
  { apply List.Forall_map. eapply Forall_impl; [exact Hf|]. intros f [[? ?] _]. unfold isPad, TLVPad1, TLVPadN, toTLV. cbn.
    apply orb_false_iff. rewrite !Z.eqb_neq. lia. }
  split_and!; [done | done |].
  unfold EncodePacket. cbv zeta. 
  pose proof (DecodePacket_body (encodeBody (List.map toTLV out)) []) as P. rewrite app_nil_r in P. rewrite P by lia.
  unfold decodeTLVFrames. rewrite decodeFrames_encodeBody by done. rbind. f_equal.
  assert (List.filter (λ t, negb (isPad t)) (List.map toTLV out) = List.map toTLV out) as ->.
  { clear -Hnp. induction Hnp as [|t l Ht _ IH]; [done|]. cbn [List.filter]. rewrite Ht. cbn [negb]. by f_equal. }
  rewrite !List.map_map. apply List.map_ext. by intros [].
Qed.

(** ** Sub-TLVs and the fixed-layout TLVs *)

Definition sub_ok (s : SubTLV) : Prop := frame_ok (subType s) (subBody s).

Lemma decodeSubTLVs_encode subs : Forall sub_ok subs → decodeSubTLVs (encodeSubTLVs subs) = Ok subs.
Proof.
  intros Hok. unfold decodeSubTLVs, decodeTLVFrames.
  enough (∀ fuel, (length (encodeSubTLVs subs) ≤ fuel)%nat →
    decodeFrames fuel (encodeSubTLVs subs) = Ok (List.map (λ s, mkFrame (subType s) (subBody s)) subs)) as H.
  { rewrite H by done. rbind. rewrite List.map_map. f_equal.
    rewrite <- (List.map_id subs) at 2. apply List.map_ext. by intros []. }
  induction Hok as [|s subs [Ht Hl] _ IH]; intros fuel Hf; [by destruct fuel|].
  cbn [encodeSubTLVs length] in *. rewrite length_app in Hf. destruct fuel as [|fuel]; [lia|].
  rewrite decodeFrames_frame, IH by lia. rbind. cbn [List.map].
  by rewrite (proj2 (Z.eqb_neq _ TLVPadN)) by (unfold TLVPadN; lia).
Qed.

Lemma decodeOptional_encode subs : Forall sub_ok subs → Forall (λ s, subType s < 128) subs →
  decodeOptionalSubTLVs (encodeSubTLVs subs) = Ok subs.
Proof.
  intros Hok Hopt. unfold decodeOptionalSubTLVs. rewrite decodeSubTLVs_encode by done. rbind.
  assert (existsb (λ s, 128 <=? subType s) subs = false) as ->; [|done].
  induction Hopt as [|s subs Hs _ IH]; [done|]. cbn [existsb]. inversion Hok; subst.
  rewrite IH by done. rewrite (proj2 (Z.leb_gt _ _)) by lia. done.
Qed.

Lemma decodeSubTLVs_safe b : safe (decodeSubTLVs b).
Proof. apply safe_bind; [apply decodeTLVFrames_safe | done]. Qed.

Lemma decodeOptionalSubTLVs_safe b : safe (decodeOptionalSubTLVs b).
Proof. apply safe_bind; [apply decodeSubTLVs_safe|]. intros. by destruct (existsb _ _). Qed.

Lemma decodeAddress_length ae body addr : decodeAddress ae body = Ok addr →
  (if ae =? AEIPv6LinkLocal then 8%nat else length addr) =
    (if ae =? AEIPv6 then 16%nat else if ae =? AEIPv6LinkLocal then 8%nat else 4%nat) ∧
  ((if (ae =? AEIPv6LinkLocal)%Z then 8 else length addr) ≤ length body)%nat.
Proof.
  unfold decodeAddress, AEIPv4, AEIPv6, AEIPv6LinkLocal.
  destruct (Z.eqb_spec ae 1) as [->|]; [|destruct (Z.eqb_spec ae 2) as [->|]; [|destruct (Z.eqb_spec ae 3) as [->|]]];
    simpl; try done; destruct (Nat.ltb_spec (length body) 4), (Nat.ltb_spec (length body) 8),
      (Nat.ltb_spec (length body) 16); try done; try lia; intros Hs;
    try (apply slice_length in Hs; rewrite Hs; lia); lia.
Qed.

Lemma decodeAddress_safe ae body : safe (decodeAddress ae body).
Proof.
  unfold decodeAddress. repeat case_match; try done; try (apply safe_slice; [lia|]);
    try (apply safe_bind; [apply safe_slice; [lia|] | done]);
    repeat match goal with H : (_ <? _)%nat = false |- _ => apply Nat.ltb_ge in H end; lia.
Qed.

(** Values that fit the fields of the wire format. *)
Definition hello_ok (h : Hello) : Prop :=
  0 ≤ helloSeqno h < 2 ^ 16 ∧ 0 ≤ helloInterval h < 2 ^ 16 ∧ 0 ≤ TxTS h < 2 ^ 32 ∧
  (helloHasTS h = false → TxTS h = 0).

Definition ihu_ok (i : IHU) : Prop :=
  0 ≤ RxCost i < 2 ^ 16 ∧ 0 ≤ ihuInterval i < 2 ^ 16 ∧ 0 ≤ OriginTS i < 2 ^ 32 ∧ 0 ≤ ReceiveTS i < 2 ^ 32 ∧
  (ihuHasTS i = false → OriginTS i = 0 ∧ ReceiveTS i = 0).

(** A layout of three 16-bit fields and a tail. *)
Lemma fields3 a b c tail :
  let body := be_to 2 a ++ be_to 2 b ++ be_to 2 c ++ tail in
  length body = (6 + length tail)%nat ∧ get_be 2 body 0 = Ok (a mod 65536) ∧ get_be 2 body 2 = Ok (b mod 65536) ∧
  get_be 2 body 4 = Ok (c mod 65536) ∧ from body 6 = Ok tail.
Proof.
  intros body. assert (length body = (6 + length tail)%nat) as Hl
    by (unfold body; rewrite !length_app, !length_be_to; lia).
  split_and!; [done | by apply (get_be_app 2 [] a) | | |].
  - by apply (get_be_app 2 (be_to 2 a) b).
  - unfold body. rewrite (app_assoc (be_to 2 a)). apply (get_be_app 2 (be_to 2 a ++ be_to 2 b) c).
    by rewrite length_app, !length_be_to.
  - rewrite from_ok by lia. unfold body. rewrite !app_assoc.
    change 6%nat with (length ((be_to 2 a ++ be_to 2 b) ++ be_to 2 c)). by rewrite drop_app_length.
Qed.

Lemma timestamp_subs ts : length ts = 4%nat ∨ length ts = 8%nat →
  decodeOptionalSubTLVs (encodeSubTLVs [mkSub SubTLVTimestamp ts]) = Ok [mkSub SubTLVTimestamp ts].
Proof.
  intros Hl. apply decodeOptional_encode; (constructor; [|constructor]); unfold sub_ok, frame_ok; cbn; unfold SubTLVTimestamp; lia.
Qed.

Lemma hello_decode h : hello_ok h → DecodeHello (Body (EncodeHello h)) = Ok h.
Proof.
  intros (H1 & H2 & H3 & H4). unfold EncodeHello, DecodeHello. cbv zeta. cbn [Body].
  set (tail := if helloHasTS h then encodeSubTLVs [mkSub SubTLVTimestamp (be_to 4 (TxTS h))] else []).
  assert ((if helloHasTS h then (be_to 2 (if Unicast h then 32768 else 0) ++ be_to 2 (helloSeqno h) ++ be_to 2 (helloInterval h))
      ++ encodeSubTLVs [mkSub SubTLVTimestamp (be_to 4 (TxTS h))]
      else be_to 2 (if Unicast h then 32768 else 0) ++ be_to 2 (helloSeqno h) ++ be_to 2 (helloInterval h))
    = be_to 2 (if Unicast h then 32768 else 0) ++ be_to 2 (helloSeqno h) ++ be_to 2 (helloInterval h) ++ tail) as ->.
  { unfold tail. destruct (helloHasTS h); [by rewrite <- !app_assoc | by rewrite app_nil_r]. }
  destruct (fields3 (if Unicast h then 32768 else 0) (helloSeqno h) (helloInterval h) tail) as (Hl & F0 & F2 & F4 & F6).
  destruct (Nat.ltb_spec (length (be_to 2 (if Unicast h then 32768 else 0) ++ be_to 2 (helloSeqno h) ++
    be_to 2 (helloInterval h) ++ tail)) 6); [lia|].
  rewrite F2, F4, F0. rbind. rewrite F6. rbind. rewrite !(Z.mod_small (helloSeqno h)), !(Z.mod_small (helloInterval h)) by lia.
  assert (negb (Z.land ((if Unicast h then 32768 else 0) mod 65536) 32768 =? 0) = Unicast h) as -> by (by destruct (Unicast h)).
  unfold tail. destruct h as [s i u t []]; cbn [helloHasTS TxTS helloSeqno helloInterval Unicast] in *.
  - rewrite timestamp_subs by (left; apply length_be_to). rbind. cbn [findSubTLV subType subBody]. rewrite Z.eqb_refl.
    rewrite length_be_to. cbn [Nat.leb]. unfold get_be. rewrite slice_ok by (rewrite ?length_be_to; lia). rbind.
    rewrite drop_0, take_ge, be_of_be_to_small by (rewrite ?length_be_to; simpl; lia). done.
  - rewrite H4 by done. done.
Qed.

Lemma ihu_decode i : ihu_ok i → DecodeIHU (Body (EncodeIHU i)) = Ok (i, []).
Proof.
  intros (H1 & H2 & H3 & H4 & H5). unfold EncodeIHU, DecodeIHU. cbv zeta. cbn [Body].
  set (ts := be_to 4 (OriginTS i) ++ be_to 4 (ReceiveTS i)).
  set (tail := if ihuHasTS i then encodeSubTLVs [mkSub SubTLVTimestamp ts] else []).
  assert ((if ihuHasTS i then ([AEWildcard; 0] ++ be_to 2 (RxCost i) ++ be_to 2 (ihuInterval i))
      ++ encodeSubTLVs [mkSub SubTLVTimestamp ts]
      else [AEWildcard; 0] ++ be_to 2 (RxCost i) ++ be_to 2 (ihuInterval i))
    = be_to 2 0 ++ be_to 2 (RxCost i) ++ be_to 2 (ihuInterval i) ++ tail) as ->.
  { unfold tail. change (be_to 2 0) with [AEWildcard; 0].
    destruct (ihuHasTS i); [by rewrite <- !app_assoc | by rewrite app_nil_r]. }
  destruct (fields3 0 (RxCost i) (ihuInterval i) tail) as (Hl & _ & F2 & F4 & F6).
  set (body := be_to 2 0 ++ _) in *. destruct (Nat.ltb_spec (length body) 6); [lia|].
  change (idx body 0) with (Ok 0). rbind. rewrite F2, F4. rbind. rewrite F6. rbind. cbn [Z.eqb AEWildcard negb]. rbind.
  rewrite !(Z.mod_small (RxCost i)), !(Z.mod_small (ihuInterval i)) by lia. cbn [fst snd].
  assert (length ts = 8%nat) as Hts by (unfold ts; by rewrite length_app, !length_be_to).
  unfold tail. destruct i as [r v o x []]; cbn [ihuHasTS OriginTS ReceiveTS RxCost ihuInterval] in *.
  - rewrite timestamp_subs by lia. rbind. cbn [findSubTLV subType subBody]. rewrite Z.eqb_refl, Hts. cbn [Nat.leb].
    unfold get_be. rewrite !slice_ok by lia. rbind.
    replace (take (0 + 4 - 0) (drop 0 ts)) with (be_to 4 o)
      by (unfold ts; rewrite drop_0, take_app_le, take_ge by (rewrite length_be_to; lia); done).
    replace (take (4 + 4 - 4) (drop 4 ts)) with (be_to 4 x).
    2:{ unfold ts. change (drop 4 (be_to 4 o ++ be_to 4 x)) with (be_to 4 x). by rewrite take_ge by (rewrite length_be_to; lia). }
    by rewrite !be_of_be_to_small by (simpl; lia).
  - destruct H5 as [-> ->]; done.
Qed.

Lemma decode_no_subs : decodeOptionalSubTLVs [] = Ok [].
Proof. done. Qed.

Lemma encodeAddress_decode addr : length addr = 4%nat ∨ length addr = 16%nat →
  let '(ae, a) := encodeAddress addr in
  decodeAddress ae a = Ok a ∧ (length a = if (ae =? AEIPv4)%Z then 4 else 16)%nat ∧ (ae = AEIPv4 ∨ ae = AEIPv6).
Proof.
  intros Hl. unfold encodeAddress, decodeAddress, To4, To16.
  repeat case_bool_decide; try lia; cbn [Z.eqb Pos.eqb AEIPv4 AEIPv6 default].
  - destruct (Nat.ltb_spec (length addr) 4); [lia|]. rewrite slice_ok by lia. rewrite drop_0, take_ge by lia. auto.
  - assert (length (drop 12 addr) = 4%nat) as Hd by (rewrite length_drop; lia).
    destruct (Nat.ltb_spec (length (drop 12 addr)) 4); [lia|].
    rewrite slice_ok by lia. rewrite drop_0, take_ge by lia. auto.
  - change (id addr) with addr. destruct (Nat.ltb_spec (length addr) 16); [lia|]. rewrite slice_ok by lia. rewrite drop_0, take_ge by lia. auto.
Qed.

Lemma nexthop_decode addr : length addr = 4%nat ∨ length addr = 16%nat →
  DecodeNextHop (Body (EncodeNextHop addr)) = Ok ((encodeAddress addr).2, (encodeAddress addr).1, false).
Proof.
  intros Hl. unfold EncodeNextHop. pose proof (encodeAddress_decode addr Hl) as H.
  destruct (encodeAddress addr) as [ae a]. destruct H as (Hd & Hla & Hae). cbn [fst snd Body].
  unfold DecodeNextHop. set (body := [ae; 0] ++ a). assert (length body = 2 + length a)%nat as Hb by done.
  destruct (Nat.ltb_spec (length body) 2); [lia|]. change (idx body 0) with (Ok ae). rbind.
  rewrite from_ok by lia. rbind. change (drop 2 body) with a. rewrite Hd. rbind.
  replace (if ae =? AEIPv6LinkLocal then 8%nat else length a) with (length a)
    by (by destruct Hae as [-> | ->]).
  rewrite from_ok by lia. rbind. rewrite drop_ge by lia. done.
Qed.

Lemma routerid_decode id : length id = 8%nat → DecodeRouterID (Body (EncodeRouterID id)) = Ok (id, false).
Proof.
  intros Hl. unfold EncodeRouterID, DecodeRouterID. cbn [Body]. set (body := [0; 0] ++ id).
  assert (length body = 10%nat) as Hb by (unfold body; simpl; lia).
  destruct (Nat.ltb_spec (length body) 10); [lia|]. rewrite slice_ok by lia. rbind. rewrite from_ok by lia. rbind.
  change (drop 2 body) with id. rewrite take_ge, drop_ge by lia. done.
Qed.

Lemma ackreq_decode nonce interval : 0 ≤ nonce < 2 ^ 16 →
  DecodeAckReq (Body (EncodeAckReq nonce interval)) = Ok nonce.
Proof.
  intros Hn. unfold EncodeAckReq, DecodeAckReq. cbn [Body].
  destruct (fields3 0 nonce interval []) as (Hl & _ & F2 & _ & F6). rewrite app_nil_r in Hl, F2, F6.
  change (be_to 2 0) with [0; 0] in *. set (body := [0; 0] ++ _) in *.
  destruct (Nat.ltb_spec (length body) 6); [simpl in *; lia|]. rewrite F6. rbind. rewrite decode_no_subs. rbind.
  by rewrite F2, Z.mod_small by lia.
Qed.

(** the fixed-layout TLVs round trip: Hello and IHU with and without their
    timestamps, Router-Id, Next Hop under the encoding of its family, and the
    nonce an acknowledgment must repeat. *)
Theorem fixed_tlvs_roundtrip h i id addr nonce interval :
  hello_ok h → ihu_ok i → length id = 8%nat → (length addr = 4%nat ∨ length addr = 16%nat) → 0 ≤ nonce < 2 ^ 16 →
  DecodeHello (Body (EncodeHello h)) = Ok h ∧
  DecodeIHU (Body (EncodeIHU i)) = Ok (i, []) ∧
  DecodeRouterID (Body (EncodeRouterID id)) = Ok (id, false) ∧
  DecodeNextHop (Body (EncodeNextHop addr)) = Ok ((encodeAddress addr).2, (encodeAddress addr).1, false) ∧
  DecodeAckReq (Body (EncodeAckReq nonce interval)) = Ok nonce.
Proof.
  intros. split_and!; [by apply hello_decode | by apply ihu_decode | by apply routerid_decode
    | by apply nexthop_decode | by apply ackreq_decode].
Qed.

(** ** Witnesses *)

Lemma packet_roundtrip_witness :
  DecodePacket (EncodePacket [mkTLV 0 []; mkTLV 4 [1; 2]; mkTLV 1 [0]; mkTLV 200 []] ++ [9; 9]) =
  Ok [mkTLV 4 [1; 2]; mkTLV 200 []].
Proof.
  apply (packet_roundtrip [mkTLV 0 []; mkTLV 4 [1; 2]; mkTLV 1 [0]; mkTLV 200 []] [9; 9]); [|simpl; lia].
  unfold tlv_ok. repeat (apply List.Forall_cons; [simpl; lia|]). apply List.Forall_nil.
Defined.

Lemma decode_canonical_witness :
  DecodePacket [42; 2; 0; 5; 0; 7; 1; 3; 0; 88] = Ok [mkTLV 7 [3]] ∧
  DecodePacket (EncodePacket [mkTLV 7 [3]]) = Ok [mkTLV 7 [3]].
Proof.
  split; [vm_compute; reflexivity|].
  apply (decode_canonical [42; 2; 0; 5; 0; 7; 1; 3; 0; 88] [mkTLV 7 [3]]); [|vm_compute; reflexivity].
  unfold bytes_ok, byte_ok. repeat (apply List.Forall_cons; [lia|]). apply List.Forall_nil.
Defined.

Lemma fixed_tlvs_roundtrip_witness :
  DecodeHello (Body (EncodeHello (mkHello 7 400 true 99 true))) = Ok (mkHello 7 400 true 99 true) ∧
  DecodeIHU (Body (EncodeIHU (mkIHU 96 1200 5 6 true))) = Ok (mkIHU 96 1200 5 6 true, []).
Proof.
  destruct (fixed_tlvs_roundtrip (mkHello 7 400 true 99 true) (mkIHU 96 1200 5 6 true)
    (replicate 8 1) (replicate 4 1) 3 4) as (H1 & H2 & _).
  - unfold hello_ok. simpl. split; [lia|]. split; [lia|]. split; [lia | discriminate].
  - unfold ihu_ok. simpl. split; [lia|]. split; [lia|]. split; [lia|]. split; [lia | discriminate].
  - reflexivity.
  - left. reflexivity.
  - lia.
  - split; [exact H1 | exact H2].
Defined.
