(* ===== verification/BabelUpdate.v ===== *)
(** * Babel updates and requests: internal/babel/update.go and request.go

    The TLVs that carry prefixes. An Update may leave out leading bytes it shares
    with the previous prefix of its address encoding in the same packet, so its
    decoder keeps state; requests and updates may name a source prefix (RFC 9079)
    in a mandatory sub-TLV. *)

From S2P Require Import Prelude Netip BabelTlv.

Definition SubTLVSourcePrefix : Z := 128.
Definition updateFlagPrefix : Z := 0x80.
Definition updateFlagRouterID : Z := 0x40.

Record Update := mkUpdate {
  AE : Z;
  Plen : Z;
  Interval : Z;
  Seqno : Z;
  Metric : Z;
  UPrefix : list Z;
  RouterID : list Z;
  HasRouterID : bool;
  Ignore : bool;
  SourcePrefix : Prefix
}.

Definition prefixByteLen (plen : Z) : nat := Z.to_nat (Z.quot (plen + 7) 8).

Definition isAE4 (ae : Z) : bool := (ae =? AEIPv4) || (ae =? AEIPv4ViaIPv6).

Definition encodeSourcePrefix (ae : Z) (source : Prefix) : res (list Z) :=
  if (Bits source =? 0) || negb (eqb (Is4 (prefix_addr source)) (isAE4 ae)) then Panic
  else
    raw ← slice (AsSlice (prefix_addr source)) 0 (prefixByteLen (Bits source));
    Ok (encodeSubTLVs [mkSub SubTLVSourcePrefix (u8 (Bits source) :: raw)]).

(** An address encoding the switch does not name panics. *)
Definition EncodeUpdate (u : Update) : res RawTLV :=
  let total := prefixByteLen (Plen u) in
  raw ← (if isAE4 (AE u) then Ok (default [] (To4 (UPrefix u)))
         else if AE u =? AEIPv6 then Ok (default [] (To16 (UPrefix u)))
         else Panic);
  sent ← slice raw 0 total;
  let body := [AE u; updateFlagPrefix; u8 (Plen u); 0] ++ be_to 2 (Interval u) ++ be_to 2 (Seqno u)
              ++ be_to 2 (Metric u) ++ sent in
  source ← (if IsValid (SourcePrefix u) then encodeSourcePrefix (AE u) (SourcePrefix u) else Ok []);
  Ok (mkTLV TLVUpdate (body ++ source)).

Record prefixState := mkPState { lastPrefix : list Z; have : bool }.

(** One state per address encoding, [AEIPv4ViaIPv6 + 1] of them. *)
Abbreviation PrefixDecoder := (list prefixState) (only parsing).
Definition newPrefixDecoder : PrefixDecoder := replicate 5 (mkPState (replicate 16 0) false).

Definition clearPrefixTail (raw : list Z) (plen : Z) : res (list Z) :=
  if (0 <? plen) && negb (plen mod 8 =? 0) then
    let i := Z.to_nat (plen / 8) in
    b ← idx raw i;
    Ok (<[i := Z.land b (u8 (Z.shiftl 255 (8 - plen mod 8)))]> raw)
  else Ok raw.

Definition decodeSourcePrefix (ae : Z) (body : list Z) : res (option Prefix) :=
  if (length body <? 1)%nat then Ok None
  else
    plen ← idx body 0;
    if plen =? 0 then Ok None
    else
      let n := prefixByteLen plen in
      if (length body - 1 <? n)%nat then Ok None
      else
        raw ← slice body 1 (1 + n);
        if isAE4 ae then
          if 32 <? plen then Ok None
          else Ok (Some (Masked (PrefixFrom (Addr4 (be_of (gocopy (replicate 4 0) raw))) plen)))
        else if ae =? AEIPv6 then
          if 128 <? plen then Ok None
          else Ok (Some (Masked (PrefixFrom (Addr6 (be_of (gocopy (replicate 16 0) raw))) plen)))
        else Ok None.

Definition set_ignore (u : Update) : Update :=
  mkUpdate (AE u) (Plen u) (Interval u) (Seqno u) (Metric u) (UPrefix u) (RouterID u) (HasRouterID u) true (SourcePrefix u).
Definition set_source (u : Update) (p : Prefix) : Update :=
  mkUpdate (AE u) (Plen u) (Interval u) (Seqno u) (Metric u) (UPrefix u) (RouterID u) (HasRouterID u) (Ignore u) p.

(** The loop over the sub-TLVs; [count] is [sourcePrefixes]. *)
Fixpoint updateSubs (ae : Z) (subs : list SubTLV) (count : Z) (u : Update) : res Update :=
  match subs with
  | [] => Ok u
  | s :: rest =>
      if subType s <? 128 then updateSubs ae rest count u
      else if negb (subType s =? SubTLVSourcePrefix) then updateSubs ae rest count (set_ignore u)
      else
        let count := count + 1 in
        if 1 <? count then updateSubs ae rest count (set_ignore u)
        else
          sp ← decodeSourcePrefix ae (subBody s);
          updateSubs ae rest count (match sp with Some p => set_source u p | None => set_ignore u end)
  end.

(** The [switch ae] of [Decode]: which lengths each encoding allows. *)
Definition checkUpdatePrefix (d : PrefixDecoder) (ae plen : Z) (omitted : nat) : res unit :=
  if ae =? AEWildcard then
    if negb (plen =? 0) || negb (omitted =? 0)%nat
    then Err "babel: wildcard Update has a nonzero prefix length" else Ok tt
  else if isAE4 ae then
    if 32 <? plen then Err "babel: IPv4 Update prefix length exceeds 32"
    else
      st ← idx d (Z.to_nat ae);
      if (0 <? omitted)%nat && negb (have st)
      then Err "babel: compressed IPv4 Update has no default prefix" else Ok tt
  else if ae =? AEIPv6 then
    if 128 <? plen then Err "babel: IPv6 Update prefix length exceeds 128"
    else
      st ← idx d (Z.to_nat ae);
      if (0 <? omitted)%nat && negb (have st)
      then Err "babel: compressed IPv6 Update has no default prefix" else Ok tt
  else Err "babel: Update: unsupported AE".

(** The prefix of an Update and the decoder after it: the omitted bytes come from
    the state, the P flag makes this prefix the next default. *)
Definition rebuildPrefix (d : PrefixDecoder) (ae flags plen : Z) (omitted : nat) (sent : list Z) :
    res (PrefixDecoder * list Z) :=
  if ae =? AEWildcard then Ok (d, v4InV6Prefix ++ [0; 0; 0; 0])
  else
    let size := if isAE4 ae then 4%nat else 16%nat in
    st ← idx d (Z.to_nat ae);
    old ← slice (lastPrefix st) 0 omitted;
    let buf := gocopy (replicate size 0) old in
    tail ← from buf omitted;
    let buf := take omitted buf ++ gocopy tail sent in
    buf ← clearPrefixTail buf plen;
    if negb (Z.land flags updateFlagPrefix =? 0)
    then Ok (<[Z.to_nat ae := mkPState (gocopy (replicate 16 0) buf) true]> d, buf)
    else Ok (d, buf).

(** [copy(u.RouterID[8-min(8, len(raw)):], raw[max(0, len(raw)-8):])] *)
Definition derivedRouterID (ae : Z) (ip : list Z) : list Z :=
  let raw := if isAE4 ae then default [] (To4 ip) else default [] (To16 ip) in
  replicate (8 - Nat.min 8 (length raw)) 0 ++ drop (length raw - 8) raw.

(** [Decode] past the fixed fields, [sent] being the rest of the body. *)
Definition decodeUpdate (d : PrefixDecoder) (ae flags plen : Z) (omitted : nat) (interval seqno metric : Z)
    (sent : list Z) : res (PrefixDecoder * Update) :=
  _ ← checkUpdatePrefix d ae plen omitted;
  let total := prefixByteLen plen in
  if (total <? omitted)%nat then Err "babel: Update Omitted exceeds prefix length"
  else
    let sentLen := (total - omitted)%nat in
    if (length sent <? sentLen)%nat then Err "babel: Update prefix truncated"
    else
      given ← slice sent 0 sentLen;
      '(d, ip) ← rebuildPrefix d ae flags plen omitted given;
      let hasID := negb (Z.land flags updateFlagRouterID =? 0) && negb (ae =? AEWildcard) in
      let ignore := ((interval =? 0) && negb (metric =? MetricInfinity))
                    || ((ae =? AEWildcard) && negb (metric =? MetricInfinity)) in
      let u := mkUpdate ae plen interval seqno metric ip
                 (if hasID then derivedRouterID ae ip else replicate 8 0) hasID ignore PrefixZero in
      rest ← from sent sentLen;
      match decodeSubTLVs rest with
      | Panic => Panic
      | Err _ => Ok (d, set_ignore u)
      | Ok subs => u ← updateSubs ae subs 0 u; Ok (d, u)
      end.

Definition Decode (d : PrefixDecoder) (body : list Z) : res (PrefixDecoder * Update) :=
  if (length body <? 10)%nat then Err "babel: short Update TLV"
  else
    ae ← idx body 0;
    flags ← idx body 1;
    plen ← idx body 2;
    omitted ← idx body 3;
    interval ← get_be 2 body 4;
    seqno ← get_be 2 body 6;
    metric ← get_be 2 body 8;
    sent ← from body 10;
    decodeUpdate d ae flags plen (Z.to_nat omitted) interval seqno metric sent.

(** ** request.go *)

Record RouteRequest := mkRouteRequest { rrAE : Z; rrPrefix : Prefix; rrSource : Prefix }.

Definition encodeSource (ae : Z) (source : Prefix) : res (list Z) :=
  if IsValid source then encodeSourcePrefix ae source else Ok [].

Definition EncodeRouteRequest (r : RouteRequest) : res RawTLV :=
  if (rrAE r =? AEWildcard) || negb (IsValid (rrPrefix r)) then Ok (mkTLV TLVRouteRequest [AEWildcard; 0])
  else
    let p := Masked (rrPrefix r) in
    raw ← slice (AsSlice (prefix_addr p)) 0 (prefixByteLen (Bits p));
    source ← encodeSource (rrAE r) (rrSource r);
    Ok (mkTLV TLVRouteRequest ([rrAE r; u8 (Bits p)] ++ raw ++ source)).

Fixpoint requestSubs (ae : Z) (subs : list SubTLV) (source : Prefix) : res Prefix :=
  match subs with
  | [] => Ok source
  | s :: rest =>
      if subType s <? 128 then requestSubs ae rest source
      else if negb (subType s =? SubTLVSourcePrefix) then Err "babel: unsupported mandatory sub-TLV"
      else if IsValid source then Err "babel: request carries more than one source prefix"
      else
        sp ← decodeSourcePrefix ae (subBody s);
        match sp with
        | None => Err "babel: malformed source prefix sub-TLV"
        | Some p => requestSubs ae rest p
        end
  end.

Definition decodeRequestSubTLVs (ae : Z) (raw : list Z) : res Prefix :=
  subs ← decodeSubTLVs raw;
  requestSubs ae subs PrefixZero.

(** The prefix and the source prefix of a request. *)
Definition decodeRequestPrefix (ae plen : Z) (raw : list Z) : res (Prefix * Prefix) :=
  if ae =? AEWildcard then
    if negb (plen =? 0) then Err "babel: wildcard request has nonzero prefix length"
    else _ ← decodeRequestSubTLVs ae raw; Ok (PrefixZero, PrefixZero)
  else if negb (isAE4 ae) && negb (ae =? AEIPv6) then Err "babel: request has unsupported AE"
  else
    let bits := if isAE4 ae then 32 else 128 in
    if (bits <? plen) || (length raw <? prefixByteLen plen)%nat then Err "babel: malformed request prefix"
    else
      rest ← from raw (prefixByteLen plen);
      source ← decodeRequestSubTLVs ae rest;
      given ← slice raw 0 (prefixByteLen plen);
      let buf := gocopy (replicate (Z.to_nat (bits / 8)) 0) given in
      let addr := default AddrInvalid (AddrFromSlice buf) in
      let prefix := Masked (PrefixFrom (Unmap addr) plen) in
      if negb (IsValid prefix) then Err "babel: request prefix length does not fit its address"
      else if IsValid source && negb (eqb (Is4 (prefix_addr source)) (Is4 (prefix_addr prefix)))
      then Err "babel: request source prefix is from another address family"
      else Ok (prefix, source).

Definition DecodeRouteRequest (body : list Z) : res RouteRequest :=
  if (length body <? 2)%nat then Err "babel: short Route Request TLV"
  else
    ae ← idx body 0;
    plen ← idx body 1;
    raw ← from body 2;
    ps ← decodeRequestPrefix ae plen raw;
    Ok (mkRouteRequest ae ps.1 ps.2).

Record SeqnoRequest := mkSeqnoRequest {
  srAE : Z; srPrefix : Prefix; srSource : Prefix; srSeqno : Z; srHopCount : Z; srRouterID : list Z
}.

Definition EncodeSeqnoRequest (r : SeqnoRequest) : res RawTLV :=
  let p := Masked (srPrefix r) in
  raw ← slice (AsSlice (prefix_addr p)) 0 (prefixByteLen (Bits p));
  source ← encodeSource (srAE r) (srSource r);
  Ok (mkTLV TLVSeqnoRequest
    ([srAE r; u8 (Bits p)] ++ be_to 2 (srSeqno r) ++ [srHopCount r; 0] ++ srRouterID r ++ raw ++ source)).

Definition DecodeSeqnoRequest (body : list Z) : res SeqnoRequest :=
  if (length body <? 14)%nat then Err "babel: short Seqno Request TLV"
  else
    ae ← idx body 0;
    plen ← idx body 1;
    raw ← from body 14;
    ps ← match decodeRequestPrefix ae plen raw with
         | Err _ => Err "babel: malformed Seqno Request TLV"
         | r => r
         end;
    if negb (IsValid ps.1) then Err "babel: malformed Seqno Request TLV prefix"
    else
      seqno ← get_be 2 body 2;
      hop ← idx body 4;
      id ← slice body 6 14;
      Ok (mkSeqnoRequest ae ps.1 ps.2 seqno hop id).

(** ** Prefix bytes *)

Lemma prefixByteLen_eq plen : 0 ≤ plen → Z.of_nat (prefixByteLen plen) = (plen + 7) / 8.
Proof. intros. unfold prefixByteLen. rewrite Z.quot_div_nonneg by lia. rewrite Z2Nat.id; [done | divlia]. Qed.

Lemma prefixByteLen_le plen n : 0 ≤ plen ≤ 8 * Z.of_nat n → (prefixByteLen plen ≤ n)%nat.
Proof. intros. pose proof (prefixByteLen_eq plen). zify. divlia. Qed.

Lemma be_of_zeros n : be_of (replicate n 0) = 0.
Proof. induction n as [|n IH]; [done|]. cbn [replicate]. rewrite be_of_cons, IH. lia. Qed.

Lemma be_to_zero n : be_to n 0 = replicate n 0.
Proof. induction n as [|n IH]; [done|]. cbn [be_to replicate]. by rewrite IH. Qed.

Lemma gocopy_zeros w raw : (length raw ≤ w)%nat → gocopy (replicate w 0) raw = raw ++ replicate (w - length raw) 0.
Proof.
  intros. unfold gocopy. rewrite length_replicate, take_ge by done.
  f_equal. apply drop_replicate.
Qed.

(** The leading bytes of a value whose other bits are zero determine it. *)
Lemma leading_bytes w plen v : 0 ≤ plen ≤ 8 * Z.of_nat w → mask_to (8 * Z.of_nat w) plen v = v → 0 ≤ v < 256 ^ Z.of_nat w →
  gocopy (replicate w 0) (take (prefixByteLen plen) (be_to w v)) = be_to w v.
Proof.
  intros Hp Hm Hv. set (n := prefixByteLen plen). pose proof (prefixByteLen_le plen w Hp) as Hn. fold n in Hn.
  pose proof (prefixByteLen_eq plen ltac:(lia)) as Hne. fold n in Hne.
  rewrite gocopy_zeros by (rewrite length_take, length_be_to; lia). rewrite length_take, length_be_to, Nat.min_l by lia.
  rewrite <- (take_drop n (be_to w v)) at 2. f_equal.
  replace w with (n + (w - n))%nat at 2 by lia. rewrite be_to_app.
  rewrite drop_app_ge, length_be_to, Nat.sub_diag, drop_0 by (rewrite length_be_to; lia).
  assert (v mod 256 ^ Z.of_nat (w - n) = 0) as Hz.
  { unfold mask_to in Hm. rewrite <- Hm, Z.shiftl_mul_pow2 by lia.
    set (k := 8 * Z.of_nat w - plen). assert (8 * Z.of_nat (w - n) ≤ k) by (unfold k; divlia).
    change 256 with (2 ^ 8). rewrite <- Z.pow_mul_r by lia.
    replace k with ((k - 8 * Z.of_nat (w - n)) + 8 * Z.of_nat (w - n)) by lia.
    rewrite Z.pow_add_r, Z.mul_assoc by lia. apply Z.mod_mul. lia. }
  rewrite <- be_to_zero. apply be_to_mod. rewrite Hz. apply Z.mod_0_l. lia.
Qed.

(** A prefix in canonical form of the family its address encoding names. *)
Definition canonical (ae : Z) (p : Prefix) : Prop :=
  prefix_ok p ∧ IsValid p = true ∧ Masked p = p ∧
  (isAE4 ae = true ∧ Is4 (prefix_addr p) = true ∨ ae = AEIPv6 ∧ Is6 (prefix_addr p) = true).

Definition aeSize (ae : Z) : nat := if isAE4 ae then 4%nat else 16%nat.

Lemma isAE4_6 : isAE4 AEIPv6 = false.
Proof. done. Qed.

(** The value, the width and the length of a canonical prefix. *)
Lemma canonical_shape ae p : canonical ae p →
  ∃ v, p = PrefixFrom (if isAE4 ae then Addr4 v else Addr6 v) (Bits p) ∧
    prefix_addr p = (if isAE4 ae then Addr4 v else Addr6 v) ∧
    AsSlice (prefix_addr p) = be_to (aeSize ae) v ∧ 0 ≤ Bits p ≤ 8 * Z.of_nat (aeSize ae) ∧
    mask_to (8 * Z.of_nat (aeSize ae)) (Bits p) v = v ∧ 0 ≤ v < 256 ^ Z.of_nat (aeSize ae).
Proof.
  intros ([Ha Hb] & Hv & Hm & Hf). rewrite Masked_shape in Hm by done. unfold IsValid in Hv. bool_props.
  destruct Hb as [?|[_ Hb]]; [lia|]. destruct p as [a b]. unfold Bits in *. cbn [prefix_addr bitsPlusOne] in *.
  unfold aeSize. destruct Hf as [[-> H4]|[-> H6]]; [|rewrite isAE4_6]; destruct a as [|v|v]; try done; exists v;
    cbn [mask_addr addr_ok BitLen AsSlice] in *; injection Hm as Hm;
    (split_and!; [|done|done|lia..|exact Hm|simpl; lia|simpl; lia]);
    unfold PrefixFrom; cbn [addr_valid BitLen andb]; rewrite !(proj2 (Z.leb_le _ _)) by lia; cbn [andb]; f_equal; lia.
Qed.

Lemma length_AsSlice_ae ae p : canonical ae p → length (AsSlice (prefix_addr p)) = aeSize ae.
Proof. intros (v & _ & _ & -> & _)%canonical_shape. apply length_be_to. Qed.

(** Encoding the bytes of a canonical prefix and padding them back. *)
Lemma canonical_bytes ae p : canonical ae p →
  ∃ raw, slice (AsSlice (prefix_addr p)) 0 (prefixByteLen (Bits p)) = Ok raw ∧
    length raw = prefixByteLen (Bits p) ∧ (prefixByteLen (Bits p) ≤ aeSize ae)%nat ∧
    raw = take (prefixByteLen (Bits p)) (AsSlice (prefix_addr p)) ∧
    gocopy (replicate (aeSize ae) 0) raw = AsSlice (prefix_addr p).
Proof.
  intros H. pose proof (length_AsSlice_ae _ _ H) as Hl.
  apply canonical_shape in H as (v & _ & _ & Hs & Hb & Hm & Hv).
  pose proof (prefixByteLen_le _ _ Hb) as Hn.
  exists (take (prefixByteLen (Bits p)) (AsSlice (prefix_addr p))).
  rewrite slice_ok, drop_0, Nat.sub_0_r by lia. rewrite length_take, Hl.
  split_and!; [done | lia | done | done |]. rewrite Hs. by apply leading_bytes.
Qed.

(** ** The source prefix sub-TLV *)

Lemma u8_byte z : 0 ≤ z < 256 → u8 z = z.
Proof. apply Z.mod_small. Qed.

Lemma aeSize_le ae : (aeSize ae ≤ 16)%nat.
Proof. unfold aeSize. destruct (isAE4 ae); lia. Qed.

Lemma source_roundtrip ae p : canonical ae p → 0 < Bits p →
  ∃ body, encodeSourcePrefix ae p = Ok (encodeSubTLVs [mkSub SubTLVSourcePrefix body]) ∧
    (length body ≤ 17)%nat ∧ decodeSourcePrefix ae body = Ok (Some p).
Proof.
  intros Hc Hpos. pose proof (aeSize_le ae) as Hsz. destruct (canonical_bytes ae p Hc) as (raw & Hs & Hl & Hn & _ & Hg).
  destruct (canonical_shape ae p Hc) as (v & Hp & Ha & Has & Hb & Hm & Hv).
  exists (u8 (Bits p) :: raw). unfold encodeSourcePrefix.
  rewrite (proj2 (Z.eqb_neq (Bits p) 0)) by lia.
  assert (eqb (Is4 (prefix_addr p)) (isAE4 ae) = true) as -> by (rewrite Ha; by destruct (isAE4 ae)).
  cbn [orb negb]. rewrite Hs. rbind. split_and!; [done | simpl; lia |].
  unfold decodeSourcePrefix. cbn [length]. destruct (Nat.ltb_spec (S (length raw)) 1); [lia|].
  change (idx (u8 (Bits p) :: raw) 0) with (Ok (u8 (Bits p))). rbind. rewrite u8_byte by lia.
  rewrite (proj2 (Z.eqb_neq (Bits p) 0)) by lia. rewrite Nat.sub_succ, Nat.sub_0_r, Hl.
  destruct (Nat.ltb_spec (prefixByteLen (Bits p)) (prefixByteLen (Bits p))); [lia|].
  rewrite slice_ok by (simpl; lia). rbind. cbn [drop]. rewrite drop_0, take_ge by lia.
  assert (be_of (AsSlice (prefix_addr p)) = v) as Hbe by (rewrite Has; by apply be_of_be_to_small).
  destruct Hc as (_ & _ & Hmask & Hf). unfold aeSize in *. destruct (isAE4 ae) eqn:E4.
  - rewrite (proj2 (Z.ltb_ge 32 _)) by lia. rewrite Hg, Hbe, <- Hp, Hmask. done.
  - destruct Hf as [[? _]|[-> _]]; [done|]. cbn [Z.eqb Pos.eqb AEIPv6].
    rewrite (proj2 (Z.ltb_ge 128 _)) by lia. rewrite Hg, Hbe, <- Hp, Hmask. done.
Qed.

(** ** Updates *)

(** The body of an Update TLV, field by field. *)
Definition updateBody (ae flags plen omitted interval seqno metric : Z) (sent : list Z) : list Z :=
  [ae; flags; plen; omitted] ++ be_to 2 interval ++ be_to 2 seqno ++ be_to 2 metric ++ sent.

Lemma Decode_body d ae flags plen omitted interval seqno metric sent :
  0 ≤ interval < 2 ^ 16 → 0 ≤ seqno < 2 ^ 16 → 0 ≤ metric < 2 ^ 16 →
  Decode d (updateBody ae flags plen omitted interval seqno metric sent) =
    decodeUpdate d ae flags plen (Z.to_nat omitted) interval seqno metric sent.
Proof.
  intros Hi Hs Hm. unfold Decode. set (body := updateBody _ _ _ _ _ _ _ _).
  assert (length body = 10 + length sent)%nat as Hl
    by (unfold body, updateBody; rewrite !length_app, !length_be_to; simpl; lia).
  destruct (Nat.ltb_spec (length body) 10); [lia|].
  change (idx body 0) with (Ok ae). change (idx body 1) with (Ok flags).
  change (idx body 2) with (Ok plen). change (idx body 3) with (Ok omitted). rbind.
  set (h := [ae; flags; plen; omitted]).
  assert (get_be 2 body 4 = Ok interval) as ->.
  { unfold body, updateBody. fold h. rewrite (get_be_app 2 h) by done. by rewrite Z.mod_small by (simpl; lia). }
  assert (get_be 2 body 6 = Ok seqno) as ->.
  { unfold body, updateBody. fold h. rewrite (app_assoc h).
    rewrite (get_be_app 2 (h ++ be_to 2 interval)) by done. by rewrite Z.mod_small by (simpl; lia). }
  assert (get_be 2 body 8 = Ok metric) as ->.
  { unfold body, updateBody. fold h. rewrite (app_assoc h), (app_assoc (h ++ _)).
    rewrite (get_be_app 2 ((h ++ be_to 2 interval) ++ be_to 2 seqno)) by done. by rewrite Z.mod_small by (simpl; lia). }
  rbind. rewrite from_ok by lia. rbind. done.
Qed.

(** The bits past the length of a canonical prefix are zero, byte by byte. *)
Lemma land_mask_byte : ∀ x r, 0 ≤ x < 256 → 0 < r < 8 → x mod 2 ^ (8 - r) = 0 →
  Z.land x (u8 (Z.shiftl 255 (8 - r))) = x.
Proof.
  assert (forallb (λ r, forallb (λ x, negb (x mod 2 ^ (8 - r) =? 0) ||
    (Z.land x (u8 (Z.shiftl 255 (8 - r))) =? x)) (seqZ 0 256)) (seqZ 1 7) = true) as H by (vm_compute; reflexivity).
  intros x r Hx Hr Hz. rewrite forallb_forall in H. specialize (H r).
  rewrite forallb_forall in H. specialize (H ltac:(apply list_elem_of_In, elem_of_seqZ; lia) x
    ltac:(apply list_elem_of_In, elem_of_seqZ; lia)).
  rewrite Hz in H. simpl in H. bool_props. done.
Qed.

Lemma clearPrefixTail_canonical w plen v :
  0 ≤ plen ≤ 8 * Z.of_nat w → mask_to (8 * Z.of_nat w) plen v = v → 0 ≤ v < 256 ^ Z.of_nat w →
  clearPrefixTail (be_to w v) plen = Ok (be_to w v).
Proof.
  intros Hp Hm Hv. unfold clearPrefixTail. destruct (Z.ltb_spec 0 plen); [|done].
  destruct (Z.eqb_spec (plen mod 8) 0) as [E|E]; [done|]. cbn [andb negb].
  set (i := Z.to_nat (plen / 8)). assert (i < w)%nat as Hi by (unfold i; zify; divlia).
  unfold idx. rewrite (lookup_be_to w i v) by done. rbind. f_equal. apply list_insert_id.
  rewrite lookup_be_to by done. f_equal. symmetry. apply land_mask_byte.
  - apply Z.mod_pos_bound. lia.
  - pose proof (Z.mod_pos_bound plen 8). lia.
  - set (r := plen mod 8) in *. assert (0 < r < 8) by (pose proof (Z.mod_pos_bound plen 8); lia).
    assert (plen = 8 * Z.of_nat i + r) as Hpl by (unfold i, r; rewrite Z2Nat.id by divlia; divlia).
    unfold mask_to in Hm. rewrite <- Hm, Z.shiftl_mul_pow2 by lia. set (q := Z.shiftr v _).
    change 256 with (2 ^ 8). rewrite <- Z.pow_mul_r by lia.
    replace (8 * Z.of_nat w - plen) with ((8 - r) + 8 * Z.of_nat (w - 1 - i)) by lia.
    rewrite Z.pow_add_r, Z.mul_assoc, Z.div_mul by lia.
    rewrite Z.mod_mod_divide; [by apply Z.mod_mul; lia|].
    exists (2 ^ r). rewrite <- Z.pow_add_r by lia. f_equal. lia.
Qed.

(** The shape of the decoder's state. *)
Definition decoder_ok (d : PrefixDecoder) : Prop :=
  length d = 5%nat ∧ Forall (λ st, length (lastPrefix st) = 16%nat) d.

(** The encodings that carry a prefix. *)
Definition aeValid (ae : Z) : Prop := isAE4 ae = true ∨ ae = AEIPv6.

Lemma aeValid_cases ae : aeValid ae → ae = 1 ∨ ae = 2 ∨ ae = 4.
Proof.
  unfold aeValid, isAE4, AEIPv4, AEIPv4ViaIPv6, AEIPv6.
  destruct (Z.eqb_spec ae 1), (Z.eqb_spec ae 4); simpl; intros [?|?]; lia || done.
Qed.

Lemma decoder_lookup d ae : decoder_ok d → aeValid ae →
  ∃ st, d !! Z.to_nat ae = Some st ∧ length (lastPrefix st) = 16%nat.
Proof.
  intros [Hl Hf] Hae%aeValid_cases. destruct (lookup_lt_is_Some_2 d (Z.to_nat ae)) as [st Hst]; [lia|].
  exists st. split; [done|]. rewrite Forall_forall in Hf. eapply Hf, list_elem_of_lookup_2, Hst.
Qed.

Lemma decoder_ok_insert d ae buf : decoder_ok d →
  decoder_ok (<[Z.to_nat ae := mkPState (gocopy (replicate 16 0) buf) true]> d).
Proof.
  intros [Hl Hf]. split; [by rewrite length_insert|]. apply Forall_insert; [done|].
  cbn [lastPrefix]. by rewrite length_gocopy, length_replicate.
Qed.

(** The prefix an Update stands for: the omitted bytes from the state, the bytes
    sent, zeros, and the bits past the length cleared. *)
Lemma rebuildPrefix_spec d ae flags plen omitted sent st :
  aeValid ae → d !! Z.to_nat ae = Some st → length (lastPrefix st) = 16%nat →
  (omitted + length sent ≤ aeSize ae)%nat →
  rebuildPrefix d ae flags plen omitted sent =
    (buf ← clearPrefixTail (gocopy (replicate (aeSize ae) 0) (take omitted (lastPrefix st) ++ sent)) plen;
     Ok (if negb (Z.land flags updateFlagPrefix =? 0)
         then <[Z.to_nat ae := mkPState (gocopy (replicate 16 0) buf) true]> d else d, buf)).
Proof.
  intros Hae Hd Hlast Hle. pose proof (aeSize_le ae) as Hsz. unfold rebuildPrefix.
  rewrite (proj2 (Z.eqb_neq ae AEWildcard)) by (apply aeValid_cases in Hae; unfold AEWildcard; lia).
  unfold idx. rewrite Hd. rbind. rewrite slice_ok by lia. rbind. rewrite drop_0, Nat.sub_0_r.
  fold (aeSize ae). set (old := take omitted (lastPrefix st)).
  assert (length old = omitted) as Ho by (unfold old; rewrite length_take; lia).
  rewrite !gocopy_zeros by (rewrite ?length_app; lia).
  rewrite from_ok by (rewrite length_app, length_replicate; lia). rbind.
  rewrite <- Ho at 1 2. rewrite drop_app_length, take_app_length, gocopy_zeros by lia.
  rewrite <- app_assoc, length_app.
  replace (aeSize ae - (length old + length sent))%nat with (aeSize ae - length old - length sent)%nat by lia.
  destruct (clearPrefixTail _ plen); [|done|done]. rbind. by destruct (negb _).
Qed.

(** A source prefix that can be sent, or none. *)
Definition source_ok (ae : Z) (sp : Prefix) : Prop :=
  sp = PrefixZero ∨ canonical ae sp ∧ 0 < Bits sp.

(** An Update as this speaker builds one for a canonical prefix. *)
Record update_ok (u : Update) (p : Prefix) : Prop := {
  up_prefix : canonical (AE u) p;
  up_plen : Plen u = Bits p;
  up_bytes : UPrefix u = AsSlice (prefix_addr p);
  up_interval : 0 ≤ Interval u < 2 ^ 16;
  up_seqno : 0 ≤ Seqno u < 2 ^ 16;
  up_metric : 0 ≤ Metric u < 2 ^ 16;
  up_live : Interval u ≠ 0 ∨ Metric u = MetricInfinity;
  up_id : RouterID u = replicate 8 0 ∧ HasRouterID u = false;
  up_ignore : Ignore u = false;
  up_source : source_ok (AE u) (SourcePrefix u)
}.

Lemma canonical_ae ae p : canonical ae p → aeValid ae.
Proof. intros (_ & _ & _ & [[? _]|[? _]]); [by left | by right]. Qed.

Lemma checkUpdatePrefix_ok d ae plen st omitted :
  aeValid ae → d !! Z.to_nat ae = Some st → plen ≤ 8 * Z.of_nat (aeSize ae) →
  (omitted = 0%nat ∨ have st = true) → checkUpdatePrefix d ae plen omitted = Ok tt.
Proof.
  intros Hae Hd Hp Ho. unfold checkUpdatePrefix, aeSize in *. unfold idx. rewrite Hd.
  assert ((0 <? omitted)%nat && negb (have st) = false) as Hz.
  { destruct Ho as [->| ->]; [done | by rewrite andb_false_r]. }
  rewrite (proj2 (Z.eqb_neq ae AEWildcard)) by (apply aeValid_cases in Hae; unfold AEWildcard; lia).
  destruct (isAE4 ae) eqn:E4.
  - rewrite (proj2 (Z.ltb_ge _ _)) by lia. rbind. by rewrite Hz.
  - destruct Hae as [?| ->]; [congruence|]. rewrite Z.eqb_refl, (proj2 (Z.ltb_ge _ _)) by lia. rbind. by rewrite Hz.
Qed.

(** The source prefix sub-TLV of an Update or a request, when it has one. *)
Lemma source_subs ae sp : source_ok ae sp →
  ∃ source, encodeSource ae sp = Ok source ∧ (length source ≤ 19)%nat ∧
    ∃ subs, decodeSubTLVs source = Ok subs ∧ requestSubs ae subs PrefixZero = Ok sp ∧
      ∀ v, SourcePrefix v = PrefixZero → updateSubs ae subs 0 v = Ok (set_source v sp).
Proof.
  intros Hu. unfold encodeSource. destruct Hu as [E|[Hc Hpos]].
  - rewrite E. exists []. split_and!; [done | simpl; lia |]. exists []. split_and!; [done..|].
    intros v Hv. cbn. by rewrite <- Hv; destruct v.
  - assert (IsValid sp = true) as -> by apply Hc.
    destruct (source_roundtrip _ _ Hc Hpos) as (body & He & Hl & Hd).
    exists (encodeSubTLVs [mkSub SubTLVSourcePrefix body]).
    split_and!; [done | cbn; rewrite length_app; simpl; lia |].
    exists [mkSub SubTLVSourcePrefix body]. split_and!.
    { apply decodeSubTLVs_encode. constructor; [|constructor]. unfold sub_ok, frame_ok. cbn. unfold SubTLVSourcePrefix. lia. }
    + cbn [requestSubs subType subBody SubTLVSourcePrefix Z.ltb Z.compare Pos.compare Pos.compare_cont negb Z.eqb Pos.eqb IsValid PrefixZero bitsPlusOne].
      by rewrite Hd.
    + intros v Hv.
      cbn [updateSubs subType subBody SubTLVSourcePrefix Z.ltb Z.compare Pos.compare Pos.compare_cont negb Z.eqb Pos.eqb Z.add].
      rewrite Hd. rbind. done.
Qed.

(** the Update round trip. An Update for a canonical prefix, of either
    family, with or without a source prefix, encodes without a panic into a TLV
    that fits its length byte, and decodes to the same Update whatever the
    decoder has seen before; the prefix becomes the decoder's default. *)
Theorem update_roundtrip d u p :
  decoder_ok d → update_ok u p →
  ∃ tlv, EncodeUpdate u = Ok tlv ∧ Type_ tlv = TLVUpdate ∧ (length (Body tlv) < 256)%nat ∧
    Decode d (Body tlv) =
      Ok (<[Z.to_nat (AE u) := mkPState (gocopy (replicate 16 0) (UPrefix u)) true]> d, u).
Proof.
  intros Hd Hu. pose proof (up_prefix _ _ Hu) as Hc. pose proof (canonical_ae _ _ Hc) as Hae.
  destruct (canonical_bytes _ _ Hc) as (raw & Hs & Hl & Hn & _ & Hg).
  destruct (canonical_shape _ _ Hc) as (v & Hp & Ha & Has & Hb & Hm & Hv).
  destruct (source_subs _ _ (up_source _ _ Hu)) as (source & Hsrc & Hls & subs & Hsubs & _ & Hrun). pose proof (aeSize_le (AE u)) as Hsz.
  destruct (decoder_lookup d (AE u) Hd Hae) as (st & Hst & Hlast).
  set (sent := raw ++ source).
  set (body := updateBody (AE u) updateFlagPrefix (Plen u) 0 (Interval u) (Seqno u) (Metric u) sent).
  exists (mkTLV TLVUpdate body). split_and!; [| done | |].
  - unfold EncodeUpdate. rewrite (up_plen _ _ Hu), (up_bytes _ _ Hu).
    assert ((if isAE4 (AE u) then Ok (default [] (To4 (AsSlice (prefix_addr p))))
      else if AE u =? AEIPv6 then Ok (default [] (To16 (AsSlice (prefix_addr p)))) else Panic)
      = Ok (AsSlice (prefix_addr p))) as ->.
    { pose proof (length_AsSlice_ae _ _ Hc) as Hla. unfold aeSize in Hla. destruct (isAE4 (AE u)) eqn:E4.
      - unfold To4. by rewrite bool_decide_eq_true_2.
      - destruct Hae as [?|E]; [congruence|]. rewrite E, Z.eqb_refl. unfold To16.
        rewrite bool_decide_eq_false_2, bool_decide_eq_true_2 by lia. done. }
    rbind. rewrite Hs. rbind. fold (encodeSource (AE u) (SourcePrefix u)). rewrite Hsrc. rbind.
    unfold body, updateBody, sent. rewrite u8_byte by lia. rewrite (up_plen _ _ Hu), <- !app_assoc. done.
  - cbn [Body]. unfold body, updateBody, sent. rewrite !length_app, !length_be_to. simpl length. lia.
  - cbn [Body]. unfold body. rewrite Decode_body by apply Hu. unfold decodeUpdate. change (Z.to_nat 0) with 0%nat.
    rewrite (checkUpdatePrefix_ok d (AE u) (Plen u) st) by (rewrite ?(up_plen _ _ Hu); auto; lia). rbind.
    rewrite (up_plen _ _ Hu), Nat.sub_0_r. unfold sent. destruct (Nat.ltb_spec (length (raw ++ source)) (prefixByteLen (Bits p)));
      [rewrite length_app in *; lia|].
    destruct (Nat.ltb_spec (prefixByteLen (Bits p)) 0); [lia|].
    pose proof (slice_app_exact [] raw source 0 (prefixByteLen (Bits p)) eq_refl Hl) as Hsl. cbn [app] in Hsl.
    rewrite Hsl. rbind. rewrite (rebuildPrefix_spec _ _ _ _ _ _ st) by (done || lia). rewrite take_0. cbn [app].
    rewrite Hg, Has, clearPrefixTail_canonical by done. rbind. cbn [Z.land updateFlagPrefix updateFlagRouterID Pos.land negb Z.eqb andb].
    rewrite from_ok by lia. rbind. rewrite <- Hl at 1. rewrite drop_app_length, Hsubs.
    rewrite Hrun by done. rbind. rewrite <- Has, <- (up_bytes _ _ Hu). do 2 f_equal.
    assert (((Interval u =? 0) && negb (Metric u =? MetricInfinity))
      || ((AE u =? AEWildcard) && negb (Metric u =? MetricInfinity)) = false) as ->.
    { rewrite (proj2 (Z.eqb_neq (AE u) AEWildcard)) by (apply aeValid_cases in Hae; unfold AEWildcard; lia).
      rewrite orb_false_r. destruct (up_live _ _ Hu) as [E|E]; [by rewrite (proj2 (Z.eqb_neq _ _) E)|].
      rewrite E, Z.eqb_refl. apply andb_false_r. }
    destruct (up_id _ _ Hu) as [E1 E2]. pose proof (up_ignore _ _ Hu) as E3. pose proof (up_plen _ _ Hu) as E4.
    destruct u; cbn in *. by subst.
Qed.

(** prefix compression. An Update that omits the first bytes of its prefix
    decodes, to the same Update and the same decoder state, as the one that
    spells them out from the previous prefix of its encoding. *)
Theorem compression_transparent d ae flags plen k interval seqno metric sent rest st :
  decoder_ok d → aeValid ae → d !! Z.to_nat ae = Some st → have st = true →
  0 ≤ interval < 2 ^ 16 → 0 ≤ seqno < 2 ^ 16 → 0 ≤ metric < 2 ^ 16 →
  0 ≤ plen ≤ 8 * Z.of_nat (aeSize ae) → (k + length sent = prefixByteLen plen)%nat →
  Decode d (updateBody ae flags plen (Z.of_nat k) interval seqno metric (sent ++ rest)) =
  Decode d (updateBody ae flags plen 0 interval seqno metric ((take k (lastPrefix st) ++ sent) ++ rest)).
Proof.
  intros Hd Hae Hst Hhave Hi Hs Hm Hp Hk. rewrite !Decode_body by done. rewrite Nat2Z.id. change (Z.to_nat 0) with 0%nat.
  destruct (decoder_lookup d ae Hd Hae) as (st' & Hst' & Hlast). assert (st' = st) as -> by congruence.
  pose proof (prefixByteLen_le _ _ Hp) as Hn. pose proof (aeSize_le ae) as Hsz.
  unfold decodeUpdate. rewrite !(checkUpdatePrefix_ok d ae plen st) by (auto; lia). rbind.
  assert (length (take k (lastPrefix st)) = k) as Hlk by (rewrite length_take; lia).
  assert (∀ a b (x : list Z) (y : res (PrefixDecoder * Update)) e, a + length x = b → 
    (if (b <? a)%nat then Err e else y) = y)%nat as Hif.
  { intros a b x y e E. destruct (Nat.ltb_spec b a); [lia | done]. }
  rewrite (Hif k _ sent) by lia. rewrite (Hif 0%nat _ (take k (lastPrefix st) ++ sent)) by (rewrite length_app; lia).
  destruct (Nat.ltb_spec (length (sent ++ rest)) (prefixByteLen plen - k)); [rewrite length_app in *; lia|].
  destruct (Nat.ltb_spec (length ((take k (lastPrefix st) ++ sent) ++ rest)) (prefixByteLen plen - 0)); [rewrite !length_app in *; lia|].
  pose proof (slice_app_exact [] sent rest 0 (prefixByteLen plen - k) eq_refl ltac:(simpl; lia)) as S1.
  pose proof (slice_app_exact [] (take k (lastPrefix st) ++ sent) rest 0 (prefixByteLen plen - 0) eq_refl
    ltac:(rewrite length_app; simpl; lia)) as S2.
  cbn [app] in S1, S2. rewrite S1, S2. rbind.
  rewrite (rebuildPrefix_spec d ae flags plen k sent st), (rebuildPrefix_spec d ae flags plen 0 (_ ++ sent) st)
    by (rewrite ?length_app; done || lia).
  rewrite take_0. cbn [app]. destruct (clearPrefixTail _ plen) as [buf| |]; [|done|done]. rbind.
  rewrite !from_ok by lia. rbind.
  assert (drop (prefixByteLen plen - k) (sent ++ rest) = rest) as ->
    by (replace (prefixByteLen plen - k)%nat with (length sent) by lia; apply drop_app_length).
  assert (drop (prefixByteLen plen - 0) ((take k (lastPrefix st) ++ sent) ++ rest) = rest) as ->; [|done].
  replace (prefixByteLen plen - 0)%nat with (length (take k (lastPrefix st) ++ sent)) by (rewrite length_app; lia).
  apply drop_app_length.
Qed.

(** ** No decoder panics *)

Lemma decodeSourcePrefix_safe ae body : safe (decodeSourcePrefix ae body).
Proof.
  unfold decodeSourcePrefix. destruct (Nat.ltb_spec (length body) 1); [done|].
  apply safe_bind; [apply safe_idx; lia | intros plen _]. destruct (plen =? 0); [done|].
  destruct (Nat.ltb_spec (length body - 1) (prefixByteLen plen)); [done|].
  apply safe_bind; [apply safe_slice; lia | intros raw _]. by repeat case_match.
Qed.

Lemma updateSubs_safe ae subs : ∀ count u, safe (updateSubs ae subs count u).
Proof.
  induction subs as [|s subs IH]; intros count u; [done|]. cbn [updateSubs].
  repeat case_match; try apply IH. apply safe_bind; [apply decodeSourcePrefix_safe | intros; apply IH].
Qed.

Lemma requestSubs_safe ae subs : ∀ source, safe (requestSubs ae subs source).
Proof.
  induction subs as [|s subs IH]; intros source; [done|]. cbn [requestSubs].
  repeat case_match; try done; try apply IH.
  apply safe_bind; [apply decodeSourcePrefix_safe | intros sp _; destruct sp; [apply IH | done]].
Qed.

Lemma decodeRequestPrefix_safe ae plen raw : 0 ≤ plen → safe (decodeRequestPrefix ae plen raw).
Proof.
  intros Hp. assert (∀ ae raw, safe (decodeRequestSubTLVs ae raw)) as Hsub.
  { intros. apply safe_bind; [apply decodeSubTLVs_safe | intros; apply requestSubs_safe]. }
  unfold decodeRequestPrefix. destruct (ae =? AEWildcard).
  { destruct (negb _); [done|]. by apply safe_bind. }
  destruct (_ && _); [done|]. cbv zeta. destruct (_ || _) eqn:E; [done|]. apply orb_false_iff in E as [_ E%Nat.ltb_ge].
  rewrite from_ok by lia. rbind. apply safe_bind; [done | intros source _].
  rewrite slice_ok by lia. rbind. by repeat case_match.
Qed.

Lemma clearPrefixTail_safe raw plen : 0 ≤ plen ≤ 8 * Z.of_nat (length raw) → safe (clearPrefixTail raw plen).
Proof.
  intros Hp. unfold clearPrefixTail. destruct (Z.ltb_spec 0 plen); [|done].
  destruct (Z.eqb_spec (plen mod 8) 0); [done|]. cbn [andb negb]. apply safe_bind; [|done].
  apply safe_idx. zify. divlia.
Qed.

Lemma checkUpdatePrefix_inv d ae plen omitted : decoder_ok d → 0 ≤ plen →
  safe (checkUpdatePrefix d ae plen omitted) ∧
  (checkUpdatePrefix d ae plen omitted = Ok tt → ae = AEWildcard ∨ aeValid ae ∧ plen ≤ 8 * Z.of_nat (aeSize ae)).
Proof.
  intros Hd Hp. unfold checkUpdatePrefix. destruct (Z.eqb_spec ae AEWildcard) as [E|E].
  { destruct (_ || _); split; try done. by left. }
  destruct (isAE4 ae) eqn:E4; [|destruct (Z.eqb_spec ae AEIPv6) as [E6|E6]; [|done]].
  - assert (aeValid ae) as Hae by (by left). destruct (decoder_lookup d ae Hd Hae) as (st & Hst & _).
    unfold idx, aeSize. rewrite Hst, E4. destruct (Z.ltb_spec 32 plen); [done|]. rbind.
    destruct (_ && _); split; try done. intros _. right. split; [done | simpl; lia].
  - assert (aeValid ae) as Hae by (by right). destruct (decoder_lookup d ae Hd Hae) as (st & Hst & _).
    unfold idx, aeSize. rewrite Hst, E4. destruct (Z.ltb_spec 128 plen); [done|]. rbind.
    destruct (_ && _); split; try done. intros _. right. split; [done | simpl; lia].
Qed.

Lemma rebuildPrefix_total d ae flags plen omitted sent :
  decoder_ok d → 0 ≤ plen → (ae = AEWildcard ∨ aeValid ae ∧ plen ≤ 8 * Z.of_nat (aeSize ae)) →
  (omitted + length sent = prefixByteLen plen)%nat →
  ∃ d' ip, rebuildPrefix d ae flags plen omitted sent = Ok (d', ip) ∧ decoder_ok d'.
Proof.
  intros Hd Hp [->|[Hae Hle]] Hl; [by eexists _, _|].
  destruct (decoder_lookup d ae Hd Hae) as (st & Hst & Hlast).
  pose proof (prefixByteLen_le plen (aeSize ae) ltac:(lia)) as Hn.
  rewrite (rebuildPrefix_spec _ _ _ _ _ _ st) by (done || lia).
  match goal with |- context [clearPrefixTail ?x plen] => pose proof (clearPrefixTail_safe x plen) as Hs end.
  rewrite length_gocopy, length_replicate in Hs. specialize (Hs ltac:(lia)).
  destruct (clearPrefixTail _ plen) as [buf| |] eqn:E; [| |by exfalso; apply Hs].
  - rbind. eexists _, _. split; [done|]. destruct (negb _); [by apply decoder_ok_insert | done].
  - exfalso. unfold clearPrefixTail in E. destruct (_ && _); [|done]. cbv zeta in E.
    unfold idx in E. cbn [mbind res_bind] in E. repeat case_match; simplify_eq.
Qed.

Lemma Decode_total d body : decoder_ok d → bytes_ok body →
  safe (Decode d body) ∧ ∀ d' u, Decode d body = Ok (d', u) → decoder_ok d'.
Proof.
  intros Hd Hb. unfold Decode. destruct (Nat.ltb_spec (length body) 10); [done|].
  destruct (lookup_lt_is_Some_2 body 0) as [ae H0]; [lia|]. destruct (lookup_lt_is_Some_2 body 1) as [fl H1]; [lia|].
  destruct (lookup_lt_is_Some_2 body 2) as [plen H2]; [lia|]. destruct (lookup_lt_is_Some_2 body 3) as [om H3]; [lia|].
  unfold idx. rewrite H0, H1, H2, H3. unfold get_be. rewrite !slice_ok by lia. rbind. rewrite from_ok by lia. rbind.
  assert (0 ≤ plen) as Hp.
  { unfold bytes_ok in Hb. rewrite Forall_forall in Hb. apply (Hb plen). eapply list_elem_of_lookup_2, H2. }
  unfold decodeUpdate. destruct (checkUpdatePrefix_inv d ae plen (Z.to_nat om) Hd Hp) as [Hs Hok].
  destruct (checkUpdatePrefix d ae plen (Z.to_nat om)) as [[]| |]; [|done | by exfalso; apply Hs]. rbind.
  specialize (Hok eq_refl). destruct (Nat.ltb_spec (prefixByteLen plen) (Z.to_nat om)); [done|].
  destruct (Nat.ltb_spec (length (drop 10 body)) (prefixByteLen plen - Z.to_nat om)); [done|].
  rewrite slice_ok by lia. rbind.
  match goal with |- context [rebuildPrefix d ae fl plen _ ?x] =>
    destruct (rebuildPrefix_total d ae fl plen (Z.to_nat om) x) as (d' & ip & -> & Hd'); [done | done | done | |] end.
  { rewrite length_take, drop_0. lia. }
  rbind. rewrite from_ok by lia. rbind. pose proof (decodeSubTLVs_safe (drop (prefixByteLen plen - Z.to_nat om) (drop 10 body))) as Hss.
  destruct (decodeSubTLVs _) as [subs| |]; [|split; [done | by intros ? ? [= <- _]] | by exfalso; apply Hss].
  pose proof (updateSubs_safe ae subs 0) as Hus. split.
  - apply safe_bind; [apply Hus | done].
  - intros d2 u2 (u3 & _ & [= <- _])%bind_ok_inv. done.
Qed.

Lemma DecodePacket_safe b : safe (DecodePacket b).
Proof.
  unfold DecodePacket, headerLen. destruct (Nat.ltb_spec (length b) 4); [done|].
  apply safe_bind; [apply safe_idx; lia | intros b0 _]. destruct (negb _); [done|].
  apply safe_bind; [apply safe_idx; lia | intros b1 _]. destruct (negb _); [done|].
  apply safe_bind; [apply safe_get_be; lia | intros n _]. destruct (Z.ltb_spec (Z.of_nat (length b)) (Z.of_nat 4 + n)); [done|].
  apply safe_bind; [apply safe_slice; lia | intros body _]. apply safe_bind; [apply decodeTLVFrames_safe | done].
Qed.

Lemma DecodeHello_safe body : safe (DecodeHello body).
Proof.
  unfold DecodeHello. destruct (Nat.ltb_spec (length body) 6); [done|].
  do 3 (apply safe_bind; [apply safe_get_be; lia | intros ? _]). rewrite from_ok by lia. rbind.
  apply safe_bind; [apply decodeOptionalSubTLVs_safe | intros subs _].
  destruct (findSubTLV subs SubTLVTimestamp) as [ts|]; [|done].
  destruct (Nat.leb_spec 4 (length ts)); [|done]. apply safe_bind; [apply safe_get_be; lia | done].
Qed.

Lemma DecodeIHU_safe body : safe (DecodeIHU body).
Proof.
  unfold DecodeIHU. destruct (Nat.ltb_spec (length body) 6); [done|].
  apply safe_bind; [apply safe_idx; lia | intros ae _].
  do 2 (apply safe_bind; [apply safe_get_be; lia | intros ? _]). rewrite from_ok by lia. rbind.
  apply safe_bind.
  { destruct (negb _); [|done]. pose proof (decodeAddress_safe ae (drop 6 body)) as Hs.
    destruct (decodeAddress ae (drop 6 body)) as [ad| |] eqn:E; [|done | by exfalso; apply Hs].
    apply decodeAddress_length in E as [E1 E2]. rbind. rewrite E1 in E2. rewrite from_ok by done. done. }
  intros ar _. apply safe_bind; [apply decodeOptionalSubTLVs_safe | intros subs _].
  destruct (findSubTLV subs SubTLVTimestamp) as [ts|]; [|done].
  destruct (Nat.leb_spec 8 (length ts)); [|done].
  apply safe_bind; [apply safe_get_be; lia | intros o _]. apply safe_bind; [apply safe_get_be; lia | done].
Qed.

Lemma DecodeRouterID_safe body : safe (DecodeRouterID body).
Proof.
  unfold DecodeRouterID. destruct (Nat.ltb_spec (length body) 10); [done|].
  rewrite slice_ok by lia. rbind. rewrite from_ok by lia. rbind.
  pose proof (decodeOptionalSubTLVs_safe (drop 10 body)) as Hs.
  destruct (decodeOptionalSubTLVs _); [done | done | by exfalso; apply Hs].
Qed.

Lemma DecodeNextHop_safe body : safe (DecodeNextHop body).
Proof.
  unfold DecodeNextHop. destruct (Nat.ltb_spec (length body) 2); [done|].
  apply safe_bind; [apply safe_idx; lia | intros ae _]. rewrite from_ok by lia. rbind.
  pose proof (decodeAddress_safe ae (drop 2 body)) as Hs.
  destruct (decodeAddress ae (drop 2 body)) as [a| |] eqn:E; [|done | by exfalso; apply Hs]. rbind.
  apply decodeAddress_length in E as [_ E2]. rewrite length_drop in E2. rewrite from_ok by lia. rbind.
  match goal with |- context [decodeOptionalSubTLVs ?x] => pose proof (decodeOptionalSubTLVs_safe x) as Ho end.
  destruct (decodeOptionalSubTLVs _); [done | done | by exfalso; apply Ho].
Qed.

Lemma DecodeAckReq_safe body : safe (DecodeAckReq body).
Proof.
  unfold DecodeAckReq. destruct (Nat.ltb_spec (length body) 6); [done|]. rewrite from_ok by lia. rbind.
  apply safe_bind; [apply decodeOptionalSubTLVs_safe | intros _ _]. apply safe_get_be. lia.
Qed.

Lemma request_plen body i plen : bytes_ok body → body !! i = Some plen → 0 ≤ plen.
Proof.
  intros Hb Hi. unfold bytes_ok in Hb. rewrite Forall_forall in Hb. apply (Hb plen). eapply list_elem_of_lookup_2, Hi.
Qed.

Lemma DecodeRouteRequest_safe body : bytes_ok body → safe (DecodeRouteRequest body).
Proof.
  intros Hb. unfold DecodeRouteRequest. destruct (Nat.ltb_spec (length body) 2); [done|].
  destruct (lookup_lt_is_Some_2 body 0) as [ae H0]; [lia|]. destruct (lookup_lt_is_Some_2 body 1) as [plen H1]; [lia|].
  unfold idx. rewrite H0, H1. rbind. rewrite from_ok by lia. rbind.
  apply safe_bind; [|done]. eapply decodeRequestPrefix_safe, request_plen; [exact Hb | exact H1].
Qed.

Lemma DecodeSeqnoRequest_safe body : bytes_ok body → safe (DecodeSeqnoRequest body).
Proof.
  intros Hb. unfold DecodeSeqnoRequest. destruct (Nat.ltb_spec (length body) 14); [done|].
  destruct (lookup_lt_is_Some_2 body 0) as [ae H0]; [lia|]. destruct (lookup_lt_is_Some_2 body 1) as [plen H1]; [lia|].
  assert (idx body 0 = Ok ae) as -> by (unfold idx; by rewrite H0). rbind.
  assert (idx body 1 = Ok plen) as -> by (unfold idx; by rewrite H1). rbind. rewrite from_ok by lia. rbind.
  pose proof (decodeRequestPrefix_safe ae plen (drop 14 body) (request_plen _ _ _ Hb H1)) as Hs.
  destruct (decodeRequestPrefix ae plen (drop 14 body)) as [[p s]| |]; [|done | by exfalso; apply Hs]. rbind. cbn [fst snd].
  destruct (negb _); [done|]. apply safe_bind; [apply safe_get_be; lia | intros seqno _].
  apply safe_bind; [apply safe_idx; lia | intros hop _]. apply safe_bind; [apply safe_slice; lia | done].
Qed.

(** robustness. Whatever bytes a peer sends, no Babel decoder indexes out of
    range, runs out of the fuel its loop is given, or leaves the compression
    state malformed. *)
Theorem decoders_total d body :
  decoder_ok d → bytes_ok body →
  safe (DecodePacket body) ∧ safe (DecodeHello body) ∧ safe (DecodeIHU body) ∧ safe (DecodeRouterID body) ∧
  safe (DecodeNextHop body) ∧ safe (DecodeAckReq body) ∧ safe (DecodeRouteRequest body) ∧
  safe (DecodeSeqnoRequest body) ∧ safe (Decode d body) ∧
  (∀ d' u, Decode d body = Ok (d', u) → decoder_ok d').
Proof.
  intros Hd Hb. pose proof (Decode_total d body Hd Hb) as [H1 H2].
  split_and!; [apply DecodePacket_safe | apply DecodeHello_safe | apply DecodeIHU_safe | apply DecodeRouterID_safe
    | apply DecodeNextHop_safe | apply DecodeAckReq_safe | by apply DecodeRouteRequest_safe
    | by apply DecodeSeqnoRequest_safe | done | done].
Qed.

(** ** Requests *)

(** A prefix a request can name: canonical, and not an IPv4-mapped one under the
    IPv6 encoding, which the receiver reads as IPv4. *)
Definition requestable (ae : Z) (p : Prefix) : Prop := canonical ae p ∧ Is4In6 (prefix_addr p) = false.

Lemma decodeRequestPrefix_encode ae p sp : requestable ae p → source_ok ae sp →
  ∃ raw source, slice (AsSlice (prefix_addr p)) 0 (prefixByteLen (Bits p)) = Ok raw ∧
    encodeSource ae sp = Ok source ∧ (length raw + length source ≤ 35)%nat ∧
    decodeRequestPrefix ae (Bits p) (raw ++ source) = Ok (p, sp).
Proof.
  intros [Hc H46] Hsp. pose proof (canonical_ae _ _ Hc) as Hae. pose proof (aeSize_le ae) as Hsz.
  destruct (canonical_bytes _ _ Hc) as (raw & Hs & Hl & Hn & _ & Hg).
  destruct (canonical_shape _ _ Hc) as (v & Hp & Ha & Has & Hb & Hm & Hv).
  destruct (source_subs _ _ Hsp) as (source & Hsrc & Hls & subs & Hsubs & Hrun & _).
  exists raw, source. split_and!; [done | done | lia |]. unfold decodeRequestPrefix.
  rewrite (proj2 (Z.eqb_neq ae AEWildcard)) by (apply aeValid_cases in Hae; unfold AEWildcard; lia).
  assert (negb (isAE4 ae) && negb (ae =? AEIPv6) = false) as ->
    by (destruct Hae as [->| ->]; [done | by rewrite Z.eqb_refl, andb_false_r]).
  cbv zeta. assert ((if isAE4 ae then 32 else 128) = 8 * Z.of_nat (aeSize ae)) as ->
    by (unfold aeSize; by destruct (isAE4 ae)).
  rewrite (proj2 (Z.ltb_ge _ _)) by lia. cbn [orb].
  destruct (Nat.ltb_spec (length (raw ++ source)) (prefixByteLen (Bits p))); [rewrite length_app in *; lia|].
  rewrite from_ok by lia. rbind. rewrite <- Hl at 1. rewrite drop_app_length.
  unfold decodeRequestSubTLVs. rewrite Hsubs. rbind. rewrite Hrun. rbind.
  pose proof (slice_app_exact [] raw source 0 (prefixByteLen (Bits p)) eq_refl Hl) as Hsl. cbn [app] in Hsl.
  rewrite Hsl. rbind. rewrite Z.mul_comm, Z.div_mul, Nat2Z.id, Hg by lia.
  assert (AddrFromSlice (AsSlice (prefix_addr p)) = Some (prefix_addr p)) as ->.
  { unfold AddrFromSlice. rewrite Has, length_be_to, be_of_be_to_small, Ha by done. unfold aeSize. by destruct (isAE4 ae). }
  cbn [default]. change (id (prefix_addr p)) with (prefix_addr p).
  assert (Unmap (prefix_addr p) = prefix_addr p) as ->.
  { rewrite Ha in H46 |- *. destruct (isAE4 ae); [done|]. cbn in *. by rewrite H46. }
  assert (PrefixFrom (prefix_addr p) (Bits p) = p) as -> by (rewrite Ha; by symmetry).
  destruct Hc as (Hok & Hval & -> & _). rewrite Hval. cbn [negb].
  assert (IsValid sp && negb (eqb (Is4 (prefix_addr sp)) (Is4 (prefix_addr p))) = false) as ->; [|done].
  destruct Hsp as [->|[Hcs _]]; [done|]. destruct (canonical_shape _ _ Hcs) as (v' & _ & Ha' & _).
  rewrite Ha, Ha'. destruct (isAE4 ae); apply andb_false_r.
Qed.

Definition seqno_ok (r : SeqnoRequest) : Prop :=
  requestable (srAE r) (srPrefix r) ∧ source_ok (srAE r) (srSource r) ∧ 0 ≤ srSeqno r < 2 ^ 16 ∧
  length (srRouterID r) = 8%nat.

Lemma u8_bits ae p : canonical ae p → u8 (Bits p) = Bits p.
Proof.
  intros (v & _ & _ & _ & Hb & _)%canonical_shape. pose proof (aeSize_le ae). apply u8_byte. lia.
Qed.

Lemma route_request_decode r : requestable (rrAE r) (rrPrefix r) → source_ok (rrAE r) (rrSource r) →
  ∃ tlv, EncodeRouteRequest r = Ok tlv ∧ (length (Body tlv) < 256)%nat ∧ DecodeRouteRequest (Body tlv) = Ok r.
Proof.
  intros Hr Hs. destruct (decodeRequestPrefix_encode _ _ _ Hr Hs) as (raw & source & Hraw & Hsrc & Hl & Hd).
  destruct Hr as [Hc _]. pose proof (canonical_ae _ _ Hc) as Hae. unfold EncodeRouteRequest.
  rewrite (proj2 (Z.eqb_neq _ AEWildcard)) by (apply aeValid_cases in Hae; unfold AEWildcard; lia).
  assert (IsValid (rrPrefix r) = true) as -> by apply Hc. cbn [orb negb].
  assert (Masked (rrPrefix r) = rrPrefix r) as -> by apply Hc. rewrite Hraw. rbind. rewrite Hsrc. rbind.
  eexists. split; [done|]. rewrite (u8_bits _ _ Hc). cbn [Body]. split; [rewrite !length_app; simpl; lia|].
  unfold DecodeRouteRequest. cbn [app]. set (body := rrAE r :: Bits (rrPrefix r) :: raw ++ source).
  assert (length body = 2 + length (raw ++ source))%nat as Hlb by done.
  destruct (Nat.ltb_spec (length body) 2); [lia|].
  change (idx body 0) with (Ok (rrAE r)). change (idx body 1) with (Ok (Bits (rrPrefix r))). rbind.
  rewrite from_ok by lia. rbind. change (drop 2 body) with (raw ++ source). rewrite Hd. rbind. by destruct r.
Qed.

Lemma seqno_request_decode r : seqno_ok r →
  ∃ tlv, EncodeSeqnoRequest r = Ok tlv ∧ (length (Body tlv) < 256)%nat ∧ DecodeSeqnoRequest (Body tlv) = Ok r.
Proof.
  intros (Hr & Hs & Hseq & Hid). destruct (decodeRequestPrefix_encode _ _ _ Hr Hs) as (raw & source & Hraw & Hsrc & Hl & Hd).
  destruct Hr as [Hc _]. unfold EncodeSeqnoRequest.
  assert (Masked (srPrefix r) = srPrefix r) as -> by apply Hc. rewrite Hraw. rbind. rewrite Hsrc. rbind.
  eexists. split; [done|]. rewrite (u8_bits _ _ Hc). cbn [Body]. split; [rewrite !length_app, length_be_to; simpl; lia|].
  set (h1 := [srAE r; Bits (srPrefix r)]). set (h2 := [srHopCount r; 0]).
  set (body := h1 ++ be_to 2 (srSeqno r) ++ h2 ++ srRouterID r ++ raw ++ source).
  assert (length body = 14 + length (raw ++ source))%nat as Hlb
    by (unfold body; rewrite !length_app, length_be_to; simpl; lia).
  unfold DecodeSeqnoRequest. destruct (Nat.ltb_spec (length body) 14); [lia|].
  change (idx body 0) with (Ok (srAE r)). change (idx body 1) with (Ok (Bits (srPrefix r))). rbind.
  rewrite from_ok by lia. rbind.
  assert (drop 14 body = raw ++ source) as ->.
  { unfold body. rewrite (app_assoc h1), (app_assoc (h1 ++ _)), (app_assoc ((h1 ++ _) ++ _)).
    replace 14%nat with (length (((h1 ++ be_to 2 (srSeqno r)) ++ h2) ++ srRouterID r))
      by (rewrite !length_app, length_be_to; simpl; lia). apply drop_app_length. }
  rewrite Hd. rbind. cbn [fst snd]. assert (IsValid (srPrefix r) = true) as -> by apply Hc. cbn [negb].
  assert (get_be 2 body 2 = Ok (srSeqno r)) as ->.
  { unfold body. rewrite (get_be_app 2 h1) by done. by rewrite Z.mod_small by (simpl; lia). }
  change (idx body 4) with (Ok (srHopCount r)). rbind.
  assert (slice body 6 14 = Ok (srRouterID r)) as ->.
  { unfold body. rewrite (app_assoc h1), (app_assoc (h1 ++ _)).
    apply slice_app_exact; rewrite ?length_app, ?length_be_to; simpl; lia. }
  rbind. by destruct r.
Qed.

(** requests round trip. A Route Request or Seqno Request for a canonical
    prefix, with or without a source prefix, encodes without a panic into a TLV
    that fits, and decodes to the same request. *)
Theorem requests_roundtrip r q :
  requestable (rrAE r) (rrPrefix r) → source_ok (rrAE r) (rrSource r) → seqno_ok q →
  (∃ tlv, EncodeRouteRequest r = Ok tlv ∧ (length (Body tlv) < 256)%nat ∧ DecodeRouteRequest (Body tlv) = Ok r) ∧
  (∃ tlv, EncodeSeqnoRequest q = Ok tlv ∧ (length (Body tlv) < 256)%nat ∧ DecodeSeqnoRequest (Body tlv) = Ok q).
Proof. intros. split; [by apply route_request_decode | by apply seqno_request_decode]. Qed.

(** ** Witnesses *)

(** 10.1.0.0/17 announced from 192.0.2.0/24, and 2001:db8::/32. *)
Definition dest4 : Prefix := PrefixFrom (Addr4 167837696) 17.
Definition source4 : Prefix := PrefixFrom (Addr4 3221225984) 24.
Definition dest6 : Prefix := PrefixFrom (Addr6 42540766411282592856903984951653826560) 32.

Lemma dest4_canonical : canonical AEIPv4 dest4.
Proof.
  split; [apply PrefixFrom_ok; simpl; lia|]. split; [reflexivity|]. split; [reflexivity|]. left. split; reflexivity.
Qed.

Lemma source4_canonical : canonical AEIPv4 source4.
Proof.
  split; [apply PrefixFrom_ok; simpl; lia|]. split; [reflexivity|]. split; [reflexivity|]. left. split; reflexivity.
Qed.

Lemma dest6_canonical : canonical AEIPv6 dest6.
Proof.
  split; [apply PrefixFrom_ok; simpl; lia|]. split; [reflexivity|]. split; [reflexivity|]. right. split; reflexivity.
Qed.

Lemma newPrefixDecoder_ok : decoder_ok newPrefixDecoder.
Proof. split; [reflexivity|]. apply Forall_replicate. reflexivity. Qed.

Definition update4 : Update :=
  mkUpdate AEIPv4 17 400 7 256 [10; 1; 0; 0] (replicate 8 0) false false source4.

Lemma source4_ok : source_ok AEIPv4 source4.
Proof. right. split; [exact source4_canonical | unfold Bits; simpl; lia]. Qed.

Lemma update_roundtrip_witness :
  ∃ tlv, EncodeUpdate update4 = Ok tlv ∧ Body tlv = [1; 128; 17; 0; 1; 144; 0; 7; 1; 0; 10; 1; 0; 128; 4; 24; 192; 0; 2] ∧
    ∃ d, Decode newPrefixDecoder (Body tlv) = Ok (d, update4).
Proof.
  destruct (update_roundtrip newPrefixDecoder update4 dest4 newPrefixDecoder_ok) as (tlv & He & _ & _ & Hd).
  - split; simpl; try reflexivity; try lia; try (split; reflexivity).
    + exact dest4_canonical.
    + exact source4_ok.
  - exists tlv. split; [exact He|]. split; [vm_compute in He; injection He as <-; reflexivity|].
    eexists. exact Hd.
Defined.

(** A decoder that has seen 10.1.0.0/16 under the IPv4 encoding. *)
Definition seen4 : list prefixState :=
  <[1%nat := mkPState ([10; 1] ++ replicate 14 0) true]> newPrefixDecoder.

Lemma compression_transparent_witness :
  Decode seen4 (updateBody 1 0 24 2 400 7 256 ([9] ++ [])) =
  Decode seen4 (updateBody 1 0 24 0 400 7 256 (([10; 1] ++ [9]) ++ [])).
Proof.
  apply (compression_transparent seen4 1 0 24 2 400 7 256 [9] []
    (mkPState ([10; 1] ++ replicate 14 0) true)); try reflexivity; try lia.
  - split; [reflexivity|]. apply Forall_insert; [apply Forall_replicate; reflexivity | reflexivity].
  - left. reflexivity.
  - unfold aeSize. simpl. lia.
Defined.

Lemma decoders_total_witness :
  safe (Decode newPrefixDecoder [1; 64; 33; 9; 0; 0; 0; 0; 0; 0; 5]) ∧
  safe (DecodePacket [1; 64; 33; 9; 0; 0; 0; 0; 0; 0; 5]).
Proof.
  destruct (decoders_total newPrefixDecoder [1; 64; 33; 9; 0; 0; 0; 0; 0; 0; 5]) as (H1 & _ & _ & _ & _ & _ & _ & _ & H2 & _).
  - exact newPrefixDecoder_ok.
  - unfold bytes_ok, byte_ok. repeat (apply List.Forall_cons; [lia|]). apply List.Forall_nil.
  - split; [exact H2 | exact H1].
Defined.

Lemma requests_roundtrip_witness :
  ∃ tlv, EncodeRouteRequest (mkRouteRequest AEIPv4 dest4 source4) = Ok tlv ∧
    DecodeRouteRequest (Body tlv) = Ok (mkRouteRequest AEIPv4 dest4 source4).
Proof.
  destruct (requests_roundtrip (mkRouteRequest AEIPv4 dest4 source4)
    (mkSeqnoRequest AEIPv6 dest6 PrefixZero 9 64 (replicate 8 3))) as [(tlv & He & _ & Hd) _].
  - split; [exact dest4_canonical | reflexivity].
  - exact source4_ok.
  - split; [split; [exact dest6_canonical | vm_compute; reflexivity]|]. split; [left; reflexivity|].
    split; [simpl; lia | reflexivity].
  - exists tlv. split; [exact He | exact Hd].
Defined.
