(* ===== verification/BabelRaw.v ===== *)
(** * Babel inside the tunnel: internal/babel/rawpacket.go

    Babel packets travel as hand-built IPv6 and UDP packets over each ESP tunnel.
    The model builds and parses them byte by byte, checksum included. *)

From S2P Require Import Prelude Checksum Netip BabelTlv.

Definition nextHeaderUDP : Z := 17.
Definition ipv6HeaderLen : nat := 40.
Definition udpHeaderLen : nat := 8.
Definition babelHopLimit : Z := 1.

(** ff02::1:6 *)
Definition multicastGroup : Addr := Addr6 (0xff02 * 2 ^ 112 + 2 ^ 16 + 6).

(** The closure [add]: 16-bit words, an odd last byte as the high byte, in a
    uint32. *)
Fixpoint addWords (sum : Z) (b : list Z) : Z :=
  match b with
  | x :: y :: rest => addWords (u32 (sum + (x * 256 + y))) rest
  | [x] => u32 (sum + Z.shiftl x 8)
  | [] => sum
  end.

(** [for sum>>16 != 0]; a uint32 needs two turns at most. *)
Fixpoint foldSum (fuel : nat) (sum : Z) : Z :=
  match fuel with
  | O => sum
  | S fuel =>
      if negb (Z.shiftr sum 16 =? 0)
      then foldSum fuel (u32 (Z.land sum 0xffff + Z.shiftr sum 16)) else sum
  end.

Definition udpChecksum (src dst : Addr) (udp : list Z) : Z :=
  let sum := addWords 0 (be_to 16 (As16 src)) in
  let sum := addWords sum (be_to 16 (As16 dst)) in
  let sum := addWords sum (be_to 4 (u32 (Z.of_nat (length udp)))) in
  let sum := addWords sum [0; 0; 0; nextHeaderUDP] in
  let sum := addWords sum udp in
  let sum := foldSum 2 sum in
  let cs := Z.lxor (u16 sum) 0xffff in
  if cs =? 0 then 0xffff else cs.

Definition buildPacket (src dst : Addr) (payload : list Z) : list Z :=
  let udpLen := u16 (Z.of_nat (udpHeaderLen + length payload)) in
  let udp cs := be_to 2 Port ++ be_to 2 Port ++ be_to 2 udpLen ++ be_to 2 cs ++ payload in
  [0x60; 0; 0; 0] ++ be_to 2 udpLen ++ [nextHeaderUDP; babelHopLimit]
  ++ gocopy (replicate 16 0) (AsSlice src) ++ gocopy (replicate 16 0) (AsSlice dst)
  ++ udp (udpChecksum src dst (udp 0)).

Definition isBabelPacket (raw : list Z) : res bool :=
  if (length raw <? ipv6HeaderLen + udpHeaderLen)%nat then Ok false
  else
    b0 ← idx raw 0;
    if negb (Z.shiftr b0 4 =? 6) then Ok false
    else
      b6 ← idx raw 6;
      if negb (b6 =? nextHeaderUDP) then Ok false
      else port ← get_be 2 raw 42; Ok (port =? Port).

Definition parsePacket (raw : list Z) (localAddr : Addr) : res (Addr * list Z) :=
  if (length raw <? ipv6HeaderLen + udpHeaderLen)%nat then Err "babel: packet too short"
  else
    b0 ← idx raw 0;
    if negb (Z.shiftr b0 4 =? 6) then Err "babel: not IPv6"
    else
      b6 ← idx raw 6;
      if negb (b6 =? nextHeaderUDP) then Err "babel: not UDP"
      else
        payloadLen ← get_be 2 raw 4;
        if (payloadLen <? Z.of_nat udpHeaderLen)
           || negb (Z.of_nat ipv6HeaderLen + payloadLen =? Z.of_nat (length raw))
        then Err "babel: invalid IPv6 payload length"
        else
          s ← slice raw 8 24;
          match AddrFromSlice s with
          | None => Err "babel: bad source address"
          | Some srcAddr =>
              if negb (Is6 srcAddr) || negb (IsLinkLocalUnicast srcAddr)
              then Err "babel: source is not IPv6 link-local"
              else
                d ← slice raw 24 40;
                match AddrFromSlice d with
                | None => Err "babel: packet is not addressed to this speaker"
                | Some dstAddr =>
                    if negb (bool_decide (dstAddr = multicastGroup)) && negb (bool_decide (dstAddr = localAddr))
                    then Err "babel: packet is not addressed to this speaker"
                    else
                      udp ← from raw ipv6HeaderLen;
                      sport ← get_be 2 udp 0;
                      if negb (sport =? Port) then Err "babel: wrong UDP source port"
                      else
                        dport ← get_be 2 udp 2;
                        if negb (dport =? Port) then Err "babel: not addressed to the babel port"
                        else
                          udpLen ← get_be 2 udp 4;
                          if negb (udpLen =? payloadLen) then Err "babel: invalid UDP length"
                          else
                            received ← get_be 2 udp 6;
                            if received =? 0 then Err "babel: missing IPv6 UDP checksum"
                            else if negb (udpChecksum srcAddr dstAddr udp =? 0xffff)
                            then Err "babel: invalid UDP checksum"
                            else payload ← slice udp udpHeaderLen (Z.to_nat udpLen); Ok (srcAddr, payload)
                end
          end.

(** ** The checksum as arithmetic *)

Lemma addWords_words b : ∀ sum, bytes_ok b → 0 ≤ sum → sum + words b < 2 ^ 32 → addWords sum b = sum + words b.
Proof.
  induction b as [|x|x y l IH] using pair_ind; intros sum Hb Hs Hlt; cbn [addWords words] in *; [lia|..].
  - inversion Hb as [|?? Hx _]; subst. unfold byte_ok in Hx. rewrite Z.shiftl_mul_pow2 by lia. rewrite u32_id by lia. lia.
  - inversion Hb as [|?? Hx Hb']; subst. inversion Hb' as [|?? Hy Hl]; subst. unfold byte_ok in *.
    pose proof (words_bound l Hl). rewrite u32_id by lia. rewrite IH by (done || lia). lia.
Qed.

(** One's complement: the residue modulo 65535, with 65535 standing for zero
    unless everything is zero. *)
Lemma foldSum_spec s : 0 ≤ s < 2 ^ 32 →
  0 ≤ foldSum 2 s ≤ 65535 ∧ foldSum 2 s mod 65535 = s mod 65535 ∧ (foldSum 2 s = 0 → s = 0).
Proof.
  intros Hs. destruct (fold_step s Hs) as [E1 E1']. set (t := s mod 65536 + s / 65536) in *.
  assert (0 ≤ t < 2 ^ 32) as Ht by (unfold t; divlia). destruct (fold_step t Ht) as [E2 E2'].
  cbn [foldSum]. rewrite E1, E1', E2, E2'. unfold t.
  destruct (Z.eqb_spec (s / 65536) 0); cbn [negb]; [divlia|].
  destruct (Z.eqb_spec ((s mod 65536 + s / 65536) / 65536) 0); cbn [negb]; divlia.
Qed.

Lemma complement16 f : 0 ≤ f < 65536 → Z.lxor f 0xffff = 65535 - f.
Proof.
  intros Hf. change 0xffff with (Z.ones 16) at 1.
  assert (Z.land f (Z.lxor f (Z.ones 16)) = 0) as H0.
  { apply Z.bits_inj'. intros i Hi. rewrite Z.land_spec, Z.lxor_spec, Z.bits_0.
    destruct (Z.testbit f i) eqn:E; [|done]. destruct (Z.lt_ge_cases i 16) as [Hlt|Hge].
    - by rewrite Z.ones_spec_low by lia.
    - rewrite <- (Z.mod_small f (2 ^ 16)), Z.mod_pow2_bits_high in E by lia. done. }
  apply Z.add_nocarry_lxor in H0. rewrite <- Z.lxor_assoc, Z.lxor_nilpotent, Z.lxor_0_l in H0.
  change (Z.ones 16) with 65535 in *. lia.
Qed.

(** The pseudo-header of RFC 8200 section 8.1 and the datagram. *)
Definition covered (src dst : Addr) (udp : list Z) : Z :=
  words (be_to 16 (As16 src)) + words (be_to 16 (As16 dst)) + words (be_to 4 (u32 (Z.of_nat (length udp))))
  + nextHeaderUDP + words udp.

Lemma words_be_to n v : 0 ≤ words (be_to n v) ≤ 65535 * (Z.of_nat (n + 1) / 2).
Proof. pose proof (words_bound (be_to n v) (be_to_ok n v)) as H. by rewrite length_be_to in H. Qed.

Lemma covered_bound src dst udp : bytes_ok udp → Z.of_nat (length udp) ≤ 65535 →
  17 ≤ covered src dst udp < 2 ^ 32 - 65536.
Proof.
  intros Hb Hl. unfold covered, nextHeaderUDP.
  pose proof (words_be_to 16 (As16 src)) as H1. pose proof (words_be_to 16 (As16 dst)) as H2.
  pose proof (words_be_to 4 (u32 (Z.of_nat (length udp)))) as H3. pose proof (words_bound udp Hb) as H4.
  change (Z.of_nat (16 + 1) / 2) with 8 in *. change (Z.of_nat (4 + 1) / 2) with 2 in *.
  assert (Z.of_nat (length udp + 1) / 2 ≤ 32768) by divlia. lia.
Qed.

(** What [udpChecksum] computes: the complement of the covered sum. *)
Lemma udpChecksum_spec src dst udp : bytes_ok udp → Z.of_nat (length udp) ≤ 65535 →
  0 < udpChecksum src dst udp ≤ 65535 ∧
  (udpChecksum src dst udp + covered src dst udp) mod 65535 = 0 ∧
  (covered src dst udp mod 65535 = 0 ↔ udpChecksum src dst udp = 65535).
Proof.
  intros Hb Hl. pose proof (covered_bound src dst udp Hb Hl) as Hc. unfold udpChecksum.
  pose proof (words_be_to 16 (As16 src)) as H1. pose proof (words_be_to 16 (As16 dst)) as H2.
  pose proof (words_be_to 4 (u32 (Z.of_nat (length udp)))) as H3. pose proof (words_bound udp Hb) as H4.
  change (Z.of_nat (16 + 1) / 2) with 8 in *. change (Z.of_nat (4 + 1) / 2) with 2 in *.
  unfold covered, nextHeaderUDP in *. cbv zeta.
  rewrite (addWords_words (be_to 16 (As16 src))) by (auto using be_to_ok; lia).
  rewrite (addWords_words (be_to 16 (As16 dst))) by (auto using be_to_ok; lia).
  rewrite (addWords_words (be_to 4 _)) by (auto using be_to_ok; lia).
  assert (bytes_ok [0; 0; 0; 17]) by (repeat constructor; lia).
  rewrite (addWords_words [0; 0; 0; 17]) by (change (words [0; 0; 0; 17]) with 17; done || lia).
  change (words [0; 0; 0; 17]) with 17.
  rewrite addWords_words by (done || lia). rewrite Z.add_0_l. set (c := _ + words udp) in *.
  destruct (foldSum_spec c) as (Hf & Hm & Hz); [lia|]. set (f := foldSum 2 c) in *.
  rewrite u16_id, complement16 by lia.
  destruct (Z.eqb_spec (65535 - f) 0); divlia.
Qed.

Lemma words_be2 v : 0 ≤ v < 65536 → words (be_to 2 v) = v.
Proof. intros. cbn. divlia. Qed.

(** ** Building and parsing *)

(** The datagram [buildPacket] writes, for a checksum field [cs]. *)
Definition datagram (payload : list Z) (cs : Z) : list Z :=
  be_to 2 Port ++ be_to 2 Port ++ be_to 2 (u16 (Z.of_nat (udpHeaderLen + length payload))) ++ be_to 2 cs ++ payload.

Lemma length_datagram payload cs : length (datagram payload cs) = (8 + length payload)%nat.
Proof. unfold datagram. rewrite !length_app, !length_be_to. lia. Qed.

Lemma datagram_ok payload cs : bytes_ok payload → bytes_ok (datagram payload cs).
Proof. intros. unfold datagram. rewrite !bytes_ok_app. auto using be_to_ok. Qed.

Lemma covered_datagram src dst payload cs : 0 ≤ cs < 65536 →
  covered src dst (datagram payload cs) = covered src dst (datagram payload 0) + cs.
Proof.
  intros. unfold covered. rewrite !length_datagram. unfold datagram.
  rewrite !words_app by (by rewrite length_be_to). rewrite !words_be2 by (unfold Port; lia || apply u16_bound). lia.
Qed.

(** The checksum [buildPacket] writes verifies. *)
Lemma udp_checksum_verifies src dst payload : bytes_ok payload → Z.of_nat (length payload) ≤ 65527 →
  let cs := udpChecksum src dst (datagram payload 0) in
  0 < cs ≤ 65535 ∧ udpChecksum src dst (datagram payload cs) = 65535.
Proof.
  intros Hb Hl cs.
  destruct (udpChecksum_spec src dst (datagram payload 0)) as (H1 & H2 & _);
    [by apply datagram_ok | rewrite length_datagram; lia |].
  fold cs in H1, H2. split; [done|].
  apply (udpChecksum_spec src dst (datagram payload cs)); [by apply datagram_ok | rewrite length_datagram; lia |].
  rewrite covered_datagram by lia. by rewrite Z.add_comm.
Qed.

Definition link_local (a : Addr) : Prop := addr_ok a ∧ Is6 a = true ∧ IsLinkLocalUnicast a = true.

Lemma addr6_bytes a : addr_ok a → Is6 a = true →
  length (AsSlice a) = 16%nat ∧ gocopy (replicate 16 0) (AsSlice a) = AsSlice a ∧ AddrFromSlice (AsSlice a) = Some a.
Proof.
  intros Ha H6. destruct a as [| |v]; try done. cbn [AsSlice addr_ok] in *.
  pose proof (length_be_to 16 v) as Hl. split; [done|]. split.
  - unfold gocopy. rewrite length_replicate, take_ge by lia. rewrite drop_ge by (rewrite length_replicate; lia). apply app_nil_r.
  - unfold AddrFromSlice. rewrite bool_decide_eq_false_2, bool_decide_eq_true_2 by lia.
    by rewrite be_of_be_to_small by (simpl; lia).
Qed.

(** what one speaker builds another accepts. For a link-local source and a
    destination that is the group or the receiver's own address, any payload an
    IPv6 packet can carry is classified as Babel and parsed back, the checksum
    verifying. *)
Theorem parse_build src dst localAddr payload :
  link_local src → addr_ok dst → Is6 dst = true → (dst = multicastGroup ∨ dst = localAddr) →
  bytes_ok payload → Z.of_nat (length payload) ≤ 65527 →
  isBabelPacket (buildPacket src dst payload) = Ok true ∧
  parsePacket (buildPacket src dst payload) localAddr = Ok (src, payload).
Proof.
  intros (Hs & Hs6 & Hll) Hd Hd6 Hdst Hb Hl.
  destruct (addr6_bytes src Hs Hs6) as (Ls & Gs & As). destruct (addr6_bytes dst Hd Hd6) as (Ld & Gd & Ad).
  destruct (udp_checksum_verifies src dst payload Hb Hl) as [Hcs Hver].
  unfold buildPacket. cbv zeta. fold (datagram payload 0). set (cs := udpChecksum src dst (datagram payload 0)) in *.
  fold (datagram payload cs). rewrite Gs, Gd.
  set (h := [0x60; 0; 0; 0]). set (len := u16 (Z.of_nat (udpHeaderLen + length payload))).
  assert (len = 8 + Z.of_nat (length payload)) as Hlen by (unfold len, udpHeaderLen; rewrite u16_id; lia).
  set (raw := h ++ be_to 2 len ++ [nextHeaderUDP; babelHopLimit] ++ AsSlice src ++ AsSlice dst ++ datagram payload cs).
  assert (length raw = 48 + length payload)%nat as Hlr
    by (unfold raw; rewrite !length_app, length_be_to, Ls, Ld, length_datagram; simpl; lia).
  assert (get_be 2 raw 4 = Ok len) as G4.
  { unfold raw. rewrite (get_be_app 2 h) by done. by rewrite Z.mod_small by (simpl; lia). }
  set (pre := h ++ be_to 2 len ++ [nextHeaderUDP; babelHopLimit]).
  assert (raw = pre ++ AsSlice src ++ AsSlice dst ++ datagram payload cs) as Eraw by (unfold raw, pre; by rewrite <- !app_assoc).
  assert (slice raw 8 24 = Ok (AsSlice src)) as S1 by (rewrite Eraw; by apply slice_app_exact; rewrite ?Ls).
  assert (slice raw 24 40 = Ok (AsSlice dst)) as S2.
  { rewrite Eraw, (app_assoc pre). apply slice_app_exact; rewrite length_app, Ls; [done | by rewrite Ld]. }
  assert (drop 40 raw = datagram payload cs) as S3.
  { rewrite Eraw, !(app_assoc _ (AsSlice _)). replace 40%nat with (length ((pre ++ AsSlice src) ++ AsSlice dst))
      by (rewrite !length_app, Ls, Ld; done). apply drop_app_length. }
  assert (get_be 2 (datagram payload cs) 0 = Ok Port ∧ get_be 2 (datagram payload cs) 2 = Ok Port ∧
    get_be 2 (datagram payload cs) 4 = Ok len ∧ get_be 2 (datagram payload cs) 6 = Ok cs) as (U0 & U2 & U4 & U6).
  { unfold datagram. fold len. split_and!.
    - by apply (get_be_app 2 [] Port).
    - by rewrite (get_be_app 2 (be_to 2 Port)).
    - rewrite (app_assoc (be_to 2 Port)), (get_be_app 2 (be_to 2 Port ++ be_to 2 Port)) by done.
      by rewrite Z.mod_small by (simpl; lia).
    - rewrite (app_assoc (be_to 2 Port)), (app_assoc (be_to 2 Port ++ _)).
      rewrite (get_be_app 2 ((be_to 2 Port ++ be_to 2 Port) ++ be_to 2 len)) by done.
      by rewrite Z.mod_small by (simpl; lia). }
  split.
  - unfold isBabelPacket, ipv6HeaderLen, udpHeaderLen. destruct (Nat.ltb_spec (length raw) (40 + 8)); [lia|].
    change (idx raw 0) with (Ok 0x60). change (idx raw 6) with (Ok nextHeaderUDP). rbind. cbn [negb].
    assert (get_be 2 raw 42 = Ok Port) as ->; [|done].
    unfold get_be in U2 |- *. rewrite slice_ok in U2 |- * by (rewrite ?length_datagram; lia).
    rewrite <- S3, drop_drop in U2. exact U2.
  - unfold parsePacket, ipv6HeaderLen, udpHeaderLen. destruct (Nat.ltb_spec (length raw) (40 + 8)); [lia|].
    change (idx raw 0) with (Ok 0x60). change (idx raw 6) with (Ok nextHeaderUDP). rbind. cbn [negb].
    change (Z.shiftr 96 4 =? 6) with true. cbn [negb]. rewrite Z.eqb_refl. cbn [negb]. rewrite G4. rbind.
    rewrite (proj2 (Z.ltb_ge len _)) by lia. rewrite (proj2 (Z.eqb_eq (Z.of_nat 40 + len) _)) by lia. cbn [orb negb].
    rewrite S1. rbind. rewrite As, Hs6, Hll. cbn [orb negb]. rewrite S2. rbind. rewrite Ad.
    assert (negb (bool_decide (dst = multicastGroup)) && negb (bool_decide (dst = localAddr)) = false) as ->.
    { destruct Hdst as [->| ->]; [by rewrite bool_decide_eq_true_2 | rewrite (bool_decide_eq_true_2 (localAddr = localAddr)) by done;
        by rewrite andb_false_r]. }
    rewrite from_ok by lia. rbind. rewrite S3, U0. rbind. rewrite U2, U4, U6, !Z.eqb_refl. cbn [negb]. rbind.
    rewrite !Z.eqb_refl. cbn [negb]. rewrite (proj2 (Z.eqb_neq cs 0)), Hver by lia. cbn [Z.eqb Pos.eqb negb].
    rewrite slice_ok by (rewrite ?length_datagram; lia). rbind.
    assert (drop 8 (datagram payload cs) = payload) as -> by done. rewrite take_ge by lia. done.
Qed.

(** A packet this speaker may act on: one IPv6 datagram from a link-local source
    to the group or to this node, between Babel ports, with consistent lengths
    and a checksum that covers all of it. *)
Definition babel_packet (raw : list Z) (localAddr src : Addr) (payload : list Z) : Prop :=
  ∃ dst udp, length raw = (48 + length payload)%nat ∧ udp = drop 40 raw ∧ payload = drop 8 udp ∧
    src = Addr6 (be_of (take 16 (drop 8 raw))) ∧ IsLinkLocalUnicast src = true ∧
    dst = Addr6 (be_of (take 16 (drop 24 raw))) ∧ (dst = multicastGroup ∨ dst = localAddr) ∧
    get_be 2 udp 0 = Ok Port ∧ get_be 2 udp 2 = Ok Port ∧ get_be 2 udp 4 = Ok (8 + Z.of_nat (length payload)) ∧
    get_be 2 raw 4 = Ok (8 + Z.of_nat (length payload)) ∧ covered src dst udp mod 65535 = 0.

Lemma AddrFromSlice16 raw k : (k + 16 ≤ length raw)%nat →
  slice raw k (k + 16) = Ok (take 16 (drop k raw)) ∧
  AddrFromSlice (take 16 (drop k raw)) = Some (Addr6 (be_of (take 16 (drop k raw)))).
Proof.
  intros Hl. split; [rewrite slice_ok by lia; by replace (k + 16 - k)%nat with 16%nat by lia|].
  unfold AddrFromSlice. rewrite length_take, length_drop, Nat.min_l by lia. done.
Qed.

Lemma parse_inv raw localAddr :
  bytes_ok raw →
  safe (parsePacket raw localAddr) ∧ safe (isBabelPacket raw) ∧
  ∀ src payload, parsePacket raw localAddr = Ok (src, payload) → babel_packet raw localAddr src payload.
Proof.
  intros Hb. unfold parsePacket, isBabelPacket, ipv6HeaderLen, udpHeaderLen.
  destruct (Nat.ltb_spec (length raw) (40 + 8)); [done|].
  destruct (lookup_lt_is_Some_2 raw 0) as [b0 H0]; [lia|]. destruct (lookup_lt_is_Some_2 raw 6) as [b6 H6]; [lia|].
  assert (idx raw 0 = Ok b0) as -> by (unfold idx; by rewrite H0).
  assert (idx raw 6 = Ok b6) as -> by (unfold idx; by rewrite H6). rbind.
  destruct (negb (Z.shiftr b0 4 =? 6)); [done|]. destruct (negb (b6 =? nextHeaderUDP)); [done|].
  assert (∀ k, (k + 2 ≤ length raw)%nat → ∃ v, get_be 2 raw k = Ok v) as Hg
    by (intros k Hk; unfold get_be; rewrite slice_ok by lia; by eexists).
  destruct (Hg 42%nat ltac:(lia)) as [p42 ->]. destruct (Hg 4%nat ltac:(lia)) as [plen Hplen]. rewrite Hplen. rbind.
  destruct (_ || _) eqn:Elen; [done|]. apply orb_false_iff in Elen as [El1 El2]. bool_props.
  pose proof (get_be_bound _ _ _ _ Hb Hplen) as Hpb. change (256 ^ Z.of_nat 2) with 65536 in Hpb.
  destruct (AddrFromSlice16 raw 8 ltac:(lia)) as [S1 A1]. destruct (AddrFromSlice16 raw 24 ltac:(lia)) as [S2 A2].
  change (8 + 16)%nat with 24%nat in S1. change (24 + 16)%nat with 40%nat in S2. rewrite S1. rbind. rewrite A1.
  set (src := Addr6 _) in *. destruct (negb (Is6 src) || negb (IsLinkLocalUnicast src)) eqn:Ell; [done|].
  apply orb_false_iff in Ell as [_ Ell]. bool_props. rewrite S2. rbind. rewrite A2. set (dst := Addr6 (be_of (take 16 (drop 24 raw)))) in *.
  destruct (_ && _) eqn:Ed; [done|]. rewrite from_ok by lia. rbind. set (udp := drop 40 raw) in *.
  assert (length udp = length raw - 40)%nat as Hlu by (unfold udp; by rewrite length_drop).
  assert (∀ k, (k + 2 ≤ length udp)%nat → ∃ v, get_be 2 udp k = Ok v) as Hgu
    by (intros k Hk; unfold get_be; rewrite slice_ok by lia; by eexists).
  destruct (Hgu 0%nat ltac:(lia)) as [sp U0]. destruct (Hgu 2%nat ltac:(lia)) as [dp U2].
  destruct (Hgu 4%nat ltac:(lia)) as [ul U4]. destruct (Hgu 6%nat ltac:(lia)) as [rc U6]. rewrite U0, U2, U4, U6. rbind.
  destruct (Z.eqb_spec sp Port) as [->|]; [|done]. destruct (Z.eqb_spec dp Port) as [->|]; [|done].
  destruct (Z.eqb_spec ul plen) as [->|]; [|done]. cbn [negb]. destruct (rc =? 0); [done|].
  destruct (Z.eqb_spec (udpChecksum src dst udp) 65535) as [Ecs|]; [|done]. cbn [negb].
  rewrite slice_ok by lia. split_and!; [done | done |]. intros src' payload [= <- <-].
  replace (take (Z.to_nat plen - 8) (drop 8 udp)) with (drop 8 udp) by (rewrite take_ge; [done | rewrite length_drop; lia]).
  assert (length (drop 8 udp) = length raw - 48)%nat as Hlp by (rewrite length_drop; lia).
  exists dst, udp. split_and!; try done; try lia; rewrite ?Hlp.
  - apply andb_false_iff in Ed as [Ed|Ed]; bool_props; auto.
  - rewrite U4. f_equal. lia.
  - rewrite Hplen. f_equal. lia.
  - apply (udpChecksum_spec src dst udp); [by apply Forall_drop | lia | done].
Qed.

(** nothing else gets through. On any bytes [parsePacket] returns without a
    panic, and what it accepts satisfies every check of the format, checksum
    included, with the payload being exactly what the headers delimit. *)
Theorem parse_sound raw localAddr :
  bytes_ok raw →
  safe (parsePacket raw localAddr) ∧ safe (isBabelPacket raw) ∧
  ∀ src payload, parsePacket raw localAddr = Ok (src, payload) → babel_packet raw localAddr src payload.
Proof. apply parse_inv. Qed.

(** ** Witnesses *)

(** fe80::2 *)
Definition peerAddr : Addr := Addr6 (0xfe80 * 2 ^ 112 + 2).

Lemma peerAddr_ok : link_local peerAddr.
Proof. split; [simpl; lia|]. split; [reflexivity | vm_compute; reflexivity]. Qed.

Lemma parse_build_witness :
  parsePacket (buildPacket peerAddr multicastGroup [42; 2; 0; 0]) AddrInvalid = Ok (peerAddr, [42; 2; 0; 0]).
Proof.
  apply (parse_build peerAddr multicastGroup AddrInvalid [42; 2; 0; 0]).
  - exact peerAddr_ok.
  - unfold multicastGroup, addr_ok. lia.
  - reflexivity.
  - left. reflexivity.
  - unfold bytes_ok, byte_ok. repeat (apply List.Forall_cons; [lia|]). apply List.Forall_nil.
  - simpl. lia.
Defined.

Lemma parse_sound_witness :
  babel_packet (buildPacket peerAddr multicastGroup [7; 7; 7]) AddrInvalid peerAddr [7; 7; 7].
Proof.
  assert (bytes_ok (buildPacket peerAddr multicastGroup [7; 7; 7])) as Hb.
  { vm_compute buildPacket. unfold bytes_ok, byte_ok. repeat (apply List.Forall_cons; [lia|]). apply List.Forall_nil. }
  apply (proj2 (proj2 (parse_sound (buildPacket peerAddr multicastGroup [7; 7; 7]) AddrInvalid Hb))).
  vm_compute. reflexivity.
Defined.

(** The link-local test also passes the IPv4-mapped form of an IPv4 link-local
    address, ::ffff:169.254.0.1 here: [Is6] holds for it and
    [IsLinkLocalUnicast] looks through the mapping. *)
Lemma mapped_source_accepted :
  let src := Addr6 (mapped4 0xa9fe0001) in
  IsLinkLocalUnicast src = true ∧ Is4In6 src = true ∧
  parsePacket (buildPacket src multicastGroup []) AddrInvalid = Ok (src, []).
Proof. split; [vm_compute; reflexivity|]. split; [vm_compute; reflexivity|]. vm_compute. reflexivity. Qed.
