(* ===== verification/BabelMetric.v ===== *)
(** * Link costs: internal/babel/etx.go, rtt.go, neighbor.go and config.go

    How Hello loss and round-trip time become a link cost, and the configuration
    that parameterises it. Times are nanoseconds with zero for [time.Time{}],
    durations are nanoseconds; a uint16 is a [Z] below 2^16.

    The 16-bit Hello vector is related to the list of arrivals it stands for, and
    every operation on the vector to the operation on the list. *)

From S2P Require Import Prelude Netip BabelTlv BabelRaw.

Definition Millisecond : Z := 1000000.
Definition Second : Z := 1000 * Millisecond.
Definition Microsecond : Z := 1000.

(** ** etx.go *)

Record helloHistory := mkHistory { bits : Z; expected : Z; started : bool; samples : Z }.
Definition noHistory : helloHistory := mkHistory 0 0 false 0.

Definition historyDepth : Z := 16.
Definition rebootDrift : Z := 16.

Definition shiftIn (h : helloHistory) (bit count : Z) : helloHistory :=
  if historyDepth <=? count then
    mkHistory (if negb (bit =? 0) then 0xffff else 0) (expected h) (started h) historyDepth
  else
    mkHistory (Z.lor (u16 (Z.shiftl (bits h) count)) bit) (expected h) (started h)
      (Z.min (samples h + count) historyDepth).

Definition with_expected (h : helloHistory) (e : Z) : helloHistory :=
  mkHistory (bits h) e (started h) (samples h).

(** [None] when the counter jumped past the window; nothing has changed then. *)
Definition record (h : helloHistory) (seqno : Z) : option helloHistory :=
  if negb (started h) then Some (mkHistory 1 (u16 (seqno + 1)) true 1)
  else
    let ahead := u16 (seqno - expected h) in
    let behind := u16 (expected h - seqno) in
    if ahead <=? rebootDrift then
      Some (with_expected (shiftIn (shiftIn h 0 ahead) 1 1) (u16 (seqno + 1)))
    else if behind <=? rebootDrift then
      let h := mkHistory (Z.shiftr (bits h) behind) (expected h) (started h)
                 (Z.max 0 (samples h - behind)) in
      Some (with_expected (shiftIn h 1 1) (u16 (seqno + 1)))
    else None.

Definition missed (h : helloHistory) : helloHistory :=
  if negb (started h) then h
  else let h := shiftIn h 0 1 in with_expected h (u16 (expected h + 1)).

Definition betaWindow : Z := historyDepth.

(** The loop of [beta]: set bits among the first [n]. *)
Fixpoint countBits (b : Z) (n : nat) : Z :=
  match n with
  | O => 0
  | S n' => countBits b n' + (if negb (Z.land b (Z.shiftl 1 (Z.of_nat n')) =? 0) then 1 else 0)
  end.

(** Received and window; [None] before the first Hello. *)
Definition beta (h : helloHistory) : option (Z * Z) :=
  if negb (started h) then None
  else let window := Z.min betaWindow (samples h) in Some (countBits (bits h) (Z.to_nat window), window).

Inductive LinkQuality := LinkQualityETX | LinkQualityNone.

#[export] Instance LinkQuality_eq_dec : EqDecision LinkQuality.
Proof. solve_decision. Defined.

Definition isETX (q : LinkQuality) : bool := match q with LinkQualityETX => true | _ => false end.

(** ** rtt.go *)

(** [time.Duration(int32(b-a)) * time.Microsecond] *)
Definition microDelta (b a : Z) : Z := i32 (b - a) * Microsecond.

Record RTTOptions := mkRTTOptions { optWeight : option Z; optMin : option Z; optMax : option Z }.
Record CostOptions := mkCostOptions { optRx : option Z; optRTT : RTTOptions }.
Record RTTCost := mkRTTCost { Weight : Z; Min_ : Z; Max_ : Z }.
Record CostParams := mkCostParams { RxCost : Z; RTT : RTTCost; Quality : LinkQuality }.

Definition DefaultCostParams : CostParams :=
  mkCostParams 96 (mkRTTCost 1024 (10 * Millisecond) (1024 * Millisecond)) LinkQualityETX.

Definition Params (o : CostOptions) : CostParams :=
  let d := DefaultCostParams in
  mkCostParams (default (RxCost d) (optRx o))
    (mkRTTCost (default (Weight (RTT d)) (optWeight (optRTT o)))
               (default (Min_ (RTT d)) (optMin (optRTT o)))
               (default (Max_ (RTT d)) (optMax (optRTT o))))
    (Quality d).

Definition saturatingAdd (a b : Z) : Z :=
  if (a =? MetricInfinity) || (b =? MetricInfinity) then MetricInfinity
  else
    let sum := u32 (a + b) in
    if MetricInfinity <=? sum then MetricInfinity else u16 sum.

Definition RTTPenalty (p : CostParams) (rtt : Z) (haveRTT : bool) : Z :=
  let low := Min_ (RTT p) in
  let high := Max_ (RTT p) in
  if negb haveRTT || (Weight (RTT p) =? 0) || (high <=? low) || (rtt <=? low) then 0
  else if high <=? rtt then Weight (RTT p)
  else u16 (u64 (Weight (RTT p) * u64 (rtt - low)) / u64 (high - low)).

Definition Cost (p : CostParams) (rtt : Z) (haveRTT : bool) : Z :=
  saturatingAdd (RxCost p) (RTTPenalty p rtt haveRTT).

Definition scaleCost (base window received : Z) : Z :=
  let scaled := u64 (base * window) / received in
  if MetricInfinity <=? scaled then MetricInfinity else u16 scaled.

Definition rxCost (p : CostParams) (h : helloHistory) : Z :=
  match beta h with
  | None => RxCost p
  | Some (received, window) =>
      if negb (isETX (Quality p)) then RxCost p
      else if received =? 0 then MetricInfinity
      else scaleCost (RxCost p) window received
  end.

Definition linkQualityCost (p : CostParams) (h : helloHistory) (txcost : Z) : Z :=
  if txcost =? MetricInfinity then MetricInfinity
  else if negb (isETX (Quality p)) then txcost
  else
    match beta h with
    | None => txcost
    | Some (received, window) =>
        if received =? 0 then MetricInfinity else scaleCost txcost window received
    end.

(** ** neighbor.go *)

(** route.go's [routeKey]: an invalid source denotes an ordinary route. *)
Record routeKey := mkKey { source : Prefix; dest : Prefix }.

#[export] Instance routeKey_eq_dec : EqDecision routeKey.
Proof. solve_decision. Defined.

#[export] Instance routeKey_countable : Countable routeKey.
Proof.
  refine (inj_countable' (λ k, (source k, dest k)) (λ x, mkKey x.1 x.2) _). by intros [].
Defined.

(** A neighbor. Its peer is known by the peer's ID. *)
Record neighborState := mkNeighbor {
  peerID : string;
  addr : Addr;
  alive : bool;
  lastHelloTime : Z;
  helloInterval : Z;
  unicastHelloTime : Z;
  unicastHelloInterval : Z;
  multicastHistory : helloHistory;
  nextHelloDue : Z;
  heard : bool;
  theirHelloTxTS : Z;
  theirHelloRxTS : Z;
  haveTheirHello : bool;
  sentHello : bool;
  ownHelloSeqno : Z;
  owed : gset routeKey;
  reportedCost : Z;
  haveReportedCost : bool;
  ihuExpiry : Z;
  measuredRTT : Z;
  haveRTT : bool;
  rttExpiry : Z;
  lastFullDump : Z;
  advertised : gset routeKey
}.

Definition destination (n : neighborState) : Addr :=
  if addr_valid (addr n) then addr n else multicastGroup.

Definition deadTimeout (interval : Z) : Z := Z.quot (signed 64 (interval * 7)) 2.

(** Zero, the time before every other, when neither class of Hello promised more. *)
Definition helloExpiry (n : neighborState) : Z :=
  let deadline := if 0 <? helloInterval n then lastHelloTime n + deadTimeout (helloInterval n) else 0 in
  if 0 <? unicastHelloInterval n then
    let unicast := unicastHelloTime n + deadTimeout (unicastHelloInterval n) in
    if deadline <? unicast then unicast else deadline
  else deadline.

Definition isAlive (n : neighborState) (now : Z) : bool := alive n && (now <? helloExpiry n).

Definition forgetLink (n : neighborState) : neighborState :=
  mkNeighbor (peerID n) (addr n) (alive n) 0 0 0 0 noHistory 0 (heard n)
    (theirHelloTxTS n) (theirHelloRxTS n) (haveTheirHello n) (sentHello n) (ownHelloSeqno n) (owed n)
    (reportedCost n) (haveReportedCost n) (ihuExpiry n) (measuredRTT n) (haveRTT n)
    (rttExpiry n) (lastFullDump n) (advertised n).

Definition linkCost (n : neighborState) (now : Z) (cost : CostParams) : Z :=
  if negb (isAlive n now) || negb (haveReportedCost n) || negb (now <? ihuExpiry n) then MetricInfinity
  else
    saturatingAdd (linkQualityCost cost (multicastHistory n) (reportedCost n))
      (RTTPenalty cost (measuredRTT n) (haveRTT n)).

(** ** config.go *)

Record Config := mkConfig { cfgHello : Z; cfgUpdate : Z; cfgQuality : LinkQuality; cfgCost : CostOptions }.

Definition maxInterval : Z := 65535 * 10 * Millisecond.

Definition HelloInterval (c : Config) : Z := if cfgHello c =? 0 then 4 * Second else cfgHello c.

Definition UpdateInterval (c : Config) : Z :=
  if cfgUpdate c =? 0 then 4 * Z.min (HelloInterval c) (Z.quot maxInterval 4) else cfgUpdate c.

Definition CostEffective (c : Config) : CostParams :=
  let p := Params (cfgCost c) in mkCostParams (RxCost p) (RTT p) (cfgQuality c).

Record Effective := mkEffective { effHello : Z; effUpdate : Z; effCost : CostParams }.

Definition effective (c : Config) : Effective :=
  mkEffective (HelloInterval c) (UpdateInterval c) (CostEffective c).

Definition badInterval (i : Z) : bool := (i <? 10 * Millisecond) || (maxInterval <? i).

Definition Validate (c : Config) : res unit :=
  if badInterval (HelloInterval c) then Err "babel: cap.babel hello is out of range"
  else if badInterval (UpdateInterval c) then Err "babel: cap.babel update is out of range"
  else
    let cost := CostEffective c in
    if (Min_ (RTT cost) <? 0) || (Max_ (RTT cost) <? Min_ (RTT cost))
    then Err "babel: cap.babel cost rtt min is negative or larger than rtt max"
    else if (RxCost cost =? 0) || (saturatingAdd (RxCost cost) (Weight (RTT cost)) =? MetricInfinity)
    then Err "babel: cap.babel cost rx plus rtt weight is out of range"
    else Ok tt.

(** ** The Hello vector as a list of arrivals *)

(** The vector of [hs], most recent first. *)
Fixpoint bitsOf (hs : list bool) : Z :=
  match hs with
  | [] => 0
  | b :: rest => Z.b2z b + 2 * bitsOf rest
  end.

Definition arrivals (hs : list bool) : Z := Z.of_nat (length (List.filter (λ b, b) hs)).

(** [h] is the vector of the history [hs]. *)
Record represents (h : helloHistory) (hs : list bool) : Prop := {
  rep_bits : bits h = bitsOf hs;
  rep_samples : samples h = Z.of_nat (length hs);
  rep_depth : (length hs ≤ 16)%nat;
  rep_expected : 0 ≤ expected h < 2 ^ 16
}.

Lemma bitsOf_bound hs : 0 ≤ bitsOf hs < 2 ^ Z.of_nat (length hs).
Proof.
  induction hs as [|b hs IH]; [done|]. cbn [bitsOf length]. rewrite Nat2Z.inj_succ, Z.pow_succ_r by lia.
  destruct b; cbn [Z.b2z]; lia.
Qed.

Lemma bitsOf_zeros n hs : bitsOf (replicate n false ++ hs) = Z.shiftl (bitsOf hs) (Z.of_nat n).
Proof.
  induction n as [|n IH]; [by rewrite Z.shiftl_0_r|]. cbn [replicate app bitsOf Z.b2z]. rewrite IH.
  rewrite Nat2Z.inj_succ, !Z.shiftl_mul_pow2, Z.pow_succ_r by lia. lia.
Qed.

Lemma bitsOf_drop n hs : bitsOf (drop n hs) = Z.shiftr (bitsOf hs) (Z.of_nat n).
Proof.
  revert hs. induction n as [|n IH]; intros hs; [by rewrite Z.shiftr_0_r|].
  destruct hs as [|b hs]; [by rewrite Z.shiftr_0_l|]. cbn [drop bitsOf]. rewrite IH, Nat2Z.inj_succ.
  rewrite !Z.shiftr_div_pow2, Z.pow_succ_r by lia. rewrite <- Z.div_div by lia.
  f_equal. destruct b; cbn [Z.b2z]; divlia.
Qed.

Lemma bitsOf_take n hs : bitsOf (take n hs) = bitsOf hs mod 2 ^ Z.of_nat n.
Proof.
  revert hs. induction n as [|n IH]; intros hs; [by rewrite Z.mod_1_r|].
  destruct hs as [|b hs]; [by rewrite Z.mod_0_l by lia|]. cbn [take bitsOf]. rewrite IH.
  rewrite Nat2Z.inj_succ, Z.pow_succ_r by lia.
  set (m := 2 ^ Z.of_nat n). assert (0 < m) by (apply Z.pow_pos_nonneg; lia).
  rewrite (Z.rem_mul_r (Z.b2z b + 2 * bitsOf hs) 2 m) by lia.
  replace ((Z.b2z b + 2 * bitsOf hs) mod 2) with (Z.b2z b) by (destruct b; cbn [Z.b2z]; divlia).
  replace ((Z.b2z b + 2 * bitsOf hs) / 2) with (bitsOf hs) by (destruct b; cbn [Z.b2z]; divlia).
  done.
Qed.

Lemma bitsOf_testbit hs i : (i < length hs)%nat → Z.testbit (bitsOf hs) (Z.of_nat i) = default false (hs !! i).
Proof.
  revert i. induction hs as [|b hs IH]; intros i Hi; [simpl in Hi; lia|]. cbn [bitsOf].
  destruct i as [|i].
  - cbn. rewrite Z.add_comm. destruct b; cbn [Z.b2z]; [apply Z.testbit_odd_0 | rewrite Z.add_0_r; apply Z.testbit_even_0].
  - rewrite Nat2Z.inj_succ. cbn [lookup list_lookup]. rewrite <- IH by (simpl in Hi; lia).
    rewrite Z.add_comm. destruct b; cbn [Z.b2z]; [apply Z.testbit_odd_succ | rewrite Z.add_0_r; apply Z.testbit_even_succ]; lia.
Qed.

Lemma lor_one x : 0 ≤ x → Z.lor (2 * x) 1 = 1 + 2 * x.
Proof. intros. destruct x as [|p|p]; [done | done | lia]. Qed.

Lemma length_take16 {A} (l : list A) : Z.of_nat (length (take 16 l)) = Z.min (Z.of_nat (length l)) 16.
Proof. rewrite length_take. lia. Qed.

Lemma shiftIn_zeros h hs count : represents h hs → 0 ≤ count →
  represents (shiftIn h 0 count) (take 16 (replicate (Z.to_nat count) false ++ hs)).
Proof.
  intros [Hb Hs Hd He] Hc. unfold shiftIn, historyDepth. destruct (Z.leb_spec 16 count).
  - assert (take 16 (replicate (Z.to_nat count) false ++ hs) = replicate 16 false) as ->.
    { rewrite take_app_le by (rewrite length_replicate; lia). rewrite take_replicate. f_equal. lia. }
    by split.
  - split; cbn [bits samples expected]; [| | rewrite length_take; lia | done].
    + rewrite Z.lor_0_r, bitsOf_take, bitsOf_zeros, Hb, Z2Nat.id by lia. done.
    + rewrite length_take16, length_app, length_replicate, Hs. lia.
Qed.

Lemma shiftIn_one h hs : represents h hs → represents (shiftIn h 1 1) (take 16 (true :: hs)).
Proof.
  intros [Hb Hs Hd He]. unfold shiftIn, historyDepth. cbn [Z.leb Z.compare Pos.compare Pos.compare_cont].
  pose proof (bitsOf_bound hs). split; cbn [bits samples expected]; [| | rewrite length_take; lia | done].
  - change (take 16 (true :: hs)) with (true :: take 15 hs). cbn [bitsOf Z.b2z]. rewrite bitsOf_take, Hb.
    rewrite Z.shiftl_mul_pow2, Z.pow_1_r, Z.mul_comm by lia. unfold u16.
    change (2 ^ 16) with (2 * 2 ^ 15). rewrite Zmult_mod_distr_l. apply lor_one. apply Z.mod_pos_bound. lia.
  - rewrite length_take16. cbn [length]. rewrite Hs. lia.
Qed.

(** What hearing Hello [seqno] does to the history when [exp] was due: losses up
    to it, or losses recorded too early taken back, then an arrival. *)
Definition hear (hs : list bool) (exp seqno : Z) : option (list bool) :=
  let ahead := u16 (seqno - exp) in
  let behind := u16 (exp - seqno) in
  if ahead <=? rebootDrift then Some (take 16 (true :: take 16 (replicate (Z.to_nat ahead) false ++ hs)))
  else if behind <=? rebootDrift then Some (true :: drop (Z.to_nat behind) hs)
  else None.

Lemma record_refines h hs seqno : represents h hs → started h = true → 0 ≤ seqno < 2 ^ 16 →
  match record h seqno with
  | Some h' => ∃ hs', hear hs (expected h) seqno = Some hs' ∧ represents h' hs' ∧
      started h' = true ∧ expected h' = u16 (seqno + 1)
  | None => hear hs (expected h) seqno = None
  end.
Proof.
  intros Hr Hst Hs. unfold record, hear. rewrite Hst. cbn [negb]. pose proof (rep_expected _ _ Hr) as He.
  set (ahead := u16 (seqno - expected h)). set (behind := u16 (expected h - seqno)).
  assert (0 ≤ ahead < 2 ^ 16) as Ha by apply u16_bound. assert (0 ≤ behind < 2 ^ 16) as Hbh by apply u16_bound.
  assert (∀ g gs, represents g gs → represents (with_expected g (u16 (seqno + 1))) gs) as Hw.
  { intros g gs [? ? ? ?]. split; cbn; auto. apply u16_bound. }
  assert (∀ g b c, started (shiftIn g b c) = started g) as Hsh by (intros; unfold shiftIn; by destruct (_ <=? _)).
  destruct (Z.leb_spec ahead rebootDrift) as [H1|H1].
  { eexists. split; [done|]. split; [|split; [cbn [with_expected started]; by rewrite !Hsh | done]]. apply Hw, shiftIn_one, shiftIn_zeros; [done | lia]. }
  destruct (Z.leb_spec behind rebootDrift) as [H2|H2]; [|done]. unfold rebootDrift in *.
  assert (0 < behind) as Hpos.
  { unfold ahead, behind, u16 in *. destruct (Z.eq_dec (expected h) seqno) as [E|E]; [rewrite E, Z.sub_diag in H1; done|]. divlia. }
  eexists. split; [done|]. split; [|split; [cbn [with_expected started]; by rewrite Hsh | done]]. apply Hw. destruct Hr as [Hb Hsm Hd _].
  assert (true :: drop (Z.to_nat behind) hs = take 16 (true :: drop (Z.to_nat behind) hs)) as ->.
  { symmetry. apply take_ge. cbn [length]. rewrite length_drop. lia. }
  apply shiftIn_one. split; cbn; [| | rewrite length_drop; lia | done].
  - rewrite bitsOf_drop, Hb, Z2Nat.id by lia. done.
  - rewrite length_drop, Hsm. lia.
Qed.

Lemma countBits_arrivals hs n : (n ≤ length hs)%nat → countBits (bitsOf hs) n = arrivals (take n hs).
Proof.
  induction n as [|n IH]; intros Hn; [done|]. cbn [countBits]. rewrite IH by lia.
  destruct (lookup_lt_is_Some_2 hs n ltac:(lia)) as [b Hb]. rewrite (take_S_r _ _ _ Hb). unfold arrivals.
  rewrite List.filter_app, length_app, Nat2Z.inj_add. f_equal.
  assert (negb (Z.land (bitsOf hs) (Z.shiftl 1 (Z.of_nat n)) =? 0) = Z.testbit (bitsOf hs) (Z.of_nat n)) as ->.
  { rewrite Z.shiftl_1_l. destruct (Z.testbit (bitsOf hs) (Z.of_nat n)) eqn:E.
    - apply negb_true_iff, Z.eqb_neq. intros H0. apply (f_equal (λ z, Z.testbit z (Z.of_nat n))) in H0.
      rewrite Z.land_spec, E, Z.pow2_bits_true, Z.bits_0 in H0 by lia. done.
    - apply negb_false_iff, Z.eqb_eq, Z.bits_inj'. intros i Hi. rewrite Z.land_spec, Z.bits_0, Z.pow2_bits_eqb by lia.
      destruct (Z.eqb_spec (Z.of_nat n) i) as [<-|]; [by rewrite E | apply andb_false_r]. }
  rewrite bitsOf_testbit by lia. rewrite Hb. cbn. by destruct b.
Qed.

Lemma beta_refines h hs : represents h hs → started h = true → beta h = Some (arrivals hs, Z.of_nat (length hs)).
Proof.
  intros [Hb Hs Hd _] Hst. unfold beta, betaWindow, historyDepth. rewrite Hst, Hs, Hb. cbn [negb].
  rewrite Z.min_r, Nat2Z.id by lia. by rewrite countBits_arrivals, take_ge by lia.
Qed.

(** the Hello vector of Appendix A.1 is a faithful 16-entry history. Hearing
    or missing a Hello does to the bit vector what it does to the list of
    arrivals, sequence number wrap-around included, and the reception rate read
    off the vector is the list's. *)
Theorem history_refines h hs seqno :
  represents h hs → started h = true → 0 ≤ seqno < 2 ^ 16 →
  beta h = Some (arrivals hs, Z.of_nat (length hs)) ∧
  represents (missed h) (take 16 (false :: hs)) ∧ expected (missed h) = u16 (expected h + 1) ∧
  match record h seqno with
  | Some h' => ∃ hs', hear hs (expected h) seqno = Some hs' ∧ represents h' hs' ∧
      started h' = true ∧ expected h' = u16 (seqno + 1)
  | None => hear hs (expected h) seqno = None
  end.
Proof.
  intros Hr Hst Hs. split_and!; [by apply beta_refines | | | by apply record_refines].
  - unfold missed. rewrite Hst. cbn [negb]. destruct (shiftIn_zeros h hs 1 Hr ltac:(lia)) as [H1 H2 H3 H4].
    split; cbn; auto. apply u16_bound.
  - unfold missed. rewrite Hst. done.
Qed.

(** ** Costs *)

Lemma arrivals_bound hs : 0 ≤ arrivals hs ≤ Z.of_nat (length hs).
Proof. unfold arrivals. pose proof (List.filter_length_le (λ b, b) hs). lia. Qed.

Lemma scaleCost_spec base window received :
  0 ≤ base < 2 ^ 16 → 0 < received ≤ window → window ≤ 16 →
  scaleCost base window received = Z.min MetricInfinity (base * window / received) ∧
  base ≤ scaleCost base window received ≤ MetricInfinity.
Proof.
  intros Hb Hr Hw. unfold scaleCost. rewrite u64_id by nia. unfold MetricInfinity.
  assert (base ≤ base * window / received) by (apply Z.div_le_lower_bound; nia).
  destruct (Z.leb_spec 65535 (base * window / received)); [lia|]. rewrite u16_id by lia. lia.
Qed.

(** The reference cost of Appendix A.2.2 over a history. *)
Definition etxCost (base : Z) (hs : list bool) : Z :=
  if arrivals hs =? 0 then MetricInfinity
  else Z.min MetricInfinity (base * Z.of_nat (length hs) / arrivals hs).

(** the estimator. What a neighbor's Hello history does to a cost is C/beta
    over the arrivals: never below the nominal cost, exactly it on a lossless
    link, infinite when nothing arrives, never wrapping; an infinite reported
    cost stays infinite. *)
Theorem etx_cost p h hs base :
  represents h hs → started h = true → Quality p = LinkQualityETX → 0 ≤ base < MetricInfinity →
  linkQualityCost p h base = etxCost base hs ∧ (RxCost p = base → rxCost p h = etxCost base hs) ∧
  linkQualityCost p h MetricInfinity = MetricInfinity ∧
  base ≤ etxCost base hs ≤ MetricInfinity ∧ (arrivals hs = Z.of_nat (length hs) → hs ≠ [] → etxCost base hs = base).
Proof.
  intros Hr Hst Hq Hb. unfold linkQualityCost, rxCost. rewrite Hq, (beta_refines h hs Hr Hst). cbn [isETX negb].
  rewrite (proj2 (Z.eqb_neq base MetricInfinity)) by lia. rewrite Z.eqb_refl. unfold etxCost.
  pose proof (arrivals_bound hs) as Ha. pose proof (rep_depth _ _ Hr) as Hd. unfold MetricInfinity in *.
  destruct (Z.eqb_spec (arrivals hs) 0) as [E|E].
  - split_and!; try done; try lia. intros Hall Hne. destruct hs; [done|]. cbn [length] in *. lia.
  - destruct (scaleCost_spec base (Z.of_nat (length hs)) (arrivals hs)) as [H1 H2]; [lia..|]. unfold MetricInfinity in *.
    split_and!; [done | by intros -> | done | lia | lia |]. intros Hall Hne. rewrite Hall, Z.div_mul by lia. lia.
Qed.

Lemma saturatingAdd_eq a b : 0 ≤ a < 2 ^ 16 → 0 ≤ b < 2 ^ 16 → saturatingAdd a b = Z.min MetricInfinity (a + b).
Proof.
  intros Ha Hb. unfold saturatingAdd, MetricInfinity. rewrite u32_id by lia.
  destruct (Z.eqb_spec a 65535), (Z.eqb_spec b 65535); cbn [orb]; [lia..|].
  destruct (Z.leb_spec 65535 (a + b)); [lia|]. rewrite u16_id by lia. lia.
Qed.

Lemma microDelta_bound b a : microDelta b a < 2 ^ 31 * 1000.
Proof.
  unfold microDelta, i32, signed, Microsecond. pose proof (Z.mod_pos_bound (b - a) (2 ^ 32)).
  destruct (Z.ltb_spec ((b - a) mod 2 ^ 32) (2 ^ (32 - 1))); lia.
Qed.

(** The mapping without machine arithmetic. *)
Definition penalty (p : CostParams) (rtt : Z) : Z :=
  if rtt <=? Min_ (RTT p) then 0
  else if Max_ (RTT p) <=? rtt then Weight (RTT p)
  else Weight (RTT p) * (rtt - Min_ (RTT p)) / (Max_ (RTT p) - Min_ (RTT p)).

Definition params_ok (p : CostParams) : Prop :=
  0 ≤ Weight (RTT p) < 2 ^ 16 ∧ 0 ≤ Min_ (RTT p) < Max_ (RTT p) ∧ Max_ (RTT p) < 2 ^ 63.

Lemma penalty_bound p rtt : params_ok p → 0 ≤ penalty p rtt ≤ Weight (RTT p).
Proof.
  intros (Hw & Hm & _). unfold penalty. destruct (Z.leb_spec rtt (Min_ (RTT p))); [lia|].
  destruct (Z.leb_spec (Max_ (RTT p)) rtt); [lia|]. split; [apply Z.div_pos; nia|].
  apply Z.div_le_upper_bound; nia.
Qed.

Lemma RTTPenalty_eq p rtt : params_ok p → rtt < 2 ^ 31 * 1000 → RTTPenalty p rtt true = penalty p rtt.
Proof.
  intros Hp Hr. pose proof (penalty_bound p rtt Hp) as Hb. destruct Hp as (Hw & Hm & Hx).
  unfold RTTPenalty, penalty in *. cbv zeta. cbn [negb orb].
  rewrite (proj2 (Z.leb_gt (Max_ (RTT p)) (Min_ (RTT p)))) by lia. rewrite orb_false_r.
  destruct (Z.leb_spec rtt (Min_ (RTT p))); [by rewrite orb_true_r|]. rewrite orb_false_r.
  destruct (Z.eqb_spec (Weight (RTT p)) 0) as [E|E].
  { destruct (_ <=? rtt); [lia|]. rewrite E, Z.mul_0_l, Z.div_0_l by lia. done. }
  destruct (Z.leb_spec (Max_ (RTT p)) rtt); [done|].
  rewrite (u64_id (rtt - _)), (u64_id (Max_ (RTT p) - _)), u64_id, u16_id by (rewrite ?u64_id; nia). done.
Qed.

Lemma penalty_mono p r1 r2 : params_ok p → r1 ≤ r2 → penalty p r1 ≤ penalty p r2.
Proof.
  intros Hp Hle. pose proof (penalty_bound p r1 Hp). pose proof (penalty_bound p r2 Hp) as Hb2.
  destruct Hp as (Hw & Hm & _). unfold penalty in *.
  destruct (Z.leb_spec r1 (Min_ (RTT p))); [destruct (r2 <=? _); [lia|]; destruct (_ <=? r2); lia|].
  rewrite (proj2 (Z.leb_gt r2 _)) in * by lia.
  destruct (Z.leb_spec (Max_ (RTT p)) r1); [rewrite (proj2 (Z.leb_le _ r2)) by lia; lia|].
  destruct (Z.leb_spec (Max_ (RTT p)) r2); [lia|]. apply Z.div_le_mono; nia.
Qed.

(** the round-trip mapping of RFC 9616. For any pair of 32-bit timestamps
    the computed penalty is the exact piecewise-linear one, without overflow:
    monotone in the measured round trip and never above the weight. *)
Theorem rtt_penalty p b1 a1 b2 a2 :
  params_ok p → microDelta b1 a1 ≤ microDelta b2 a2 →
  let r1 := RTTPenalty p (microDelta b1 a1) true in
  let r2 := RTTPenalty p (microDelta b2 a2) true in
  r1 = penalty p (microDelta b1 a1) ∧ 0 ≤ r1 ≤ r2 ∧ r2 ≤ Weight (RTT p).
Proof.
  intros Hp Hle r1 r2. unfold r1, r2. rewrite !RTTPenalty_eq by (done || apply microDelta_bound).
  pose proof (penalty_bound p (microDelta b1 a1) Hp). pose proof (penalty_bound p (microDelta b2 a2) Hp).
  pose proof (penalty_mono p _ _ Hp Hle). lia.
Qed.

Lemma RTTPenalty_le p rtt have : 0 ≤ Weight (RTT p) < 2 ^ 16 → 0 ≤ Min_ (RTT p) → Max_ (RTT p) < 2 ^ 63 →
  rtt < 2 ^ 31 * 1000 → 0 ≤ RTTPenalty p rtt have ≤ Weight (RTT p).
Proof.
  intros Hw Hm Hx Hr. destruct have; [|cbn; lia].
  destruct (Z.lt_ge_cases (Min_ (RTT p)) (Max_ (RTT p))) as [Hlt|Hge].
  - assert (params_ok p) as Hp by (unfold params_ok; lia). rewrite RTTPenalty_eq by done. by apply penalty_bound.
  - unfold RTTPenalty. cbv zeta. cbn [negb orb]. rewrite (proj2 (Z.leb_le (Max_ (RTT p)) _)) by lia.
    rewrite orb_true_r. simpl. lia.
Qed.

(** Field widths of a parsed configuration. *)
Definition config_ok (c : Config) : Prop :=
  let p := CostEffective c in
  0 ≤ RxCost p < 2 ^ 16 ∧ 0 ≤ Weight (RTT p) < 2 ^ 16 ∧ Max_ (RTT p) < 2 ^ 63.

(** what validation buys. A configuration [Validate] accepts has intervals
    that fit the wire's centiseconds and a link cost that is positive and finite
    at every measurable round trip, so no configured link is unusable or free. *)
Theorem validated_config c b a have :
  config_ok c → Validate c = Ok tt →
  1 ≤ HelloInterval c / (10 * Millisecond) ≤ 65535 ∧ 1 ≤ UpdateInterval c / (10 * Millisecond) ≤ 65535 ∧
  0 < Cost (CostEffective c) (microDelta b a) have < MetricInfinity.
Proof.
  intros (Hrx & Hw & Hx) Hv. unfold Validate, badInterval in Hv. cbv zeta in Hv.
  destruct (_ || _) eqn:E1; [done|]. destruct (_ || _) eqn:E2 in Hv; [done|].
  destruct (_ || _) eqn:E3 in Hv; [done|]. destruct (_ || _) eqn:E4 in Hv; [done|]. bool_props.
  unfold maxInterval, Millisecond in *. change (10 * 1000000) with 10000000 in *. split; [divlia|]. split; [divlia|].
  pose proof (microDelta_bound b a) as Hd.
  pose proof (RTTPenalty_le (CostEffective c) (microDelta b a) have Hw ltac:(lia) Hx Hd) as Hp.
  unfold Cost. rewrite saturatingAdd_eq in * by lia. unfold MetricInfinity in *. lia.
Qed.

(** ** Witnesses *)

(** Three Hellos in the vector, the middle one lost. *)
Definition lossy : helloHistory := mkHistory 5 65535 true 3.

Lemma lossy_represents : represents lossy [true; false; true].
Proof. split; simpl; try reflexivity; lia. Qed.

Lemma history_refines_witness :
  beta lossy = Some (2, 3) ∧ ∃ h', record lossy 1 = Some h' ∧ represents h' [true; false; false; true; false; true].
Proof.
  destruct (history_refines lossy [true; false; true] 1 lossy_represents eq_refl ltac:(lia)) as (Hb & _ & _ & Hr).
  split; [exact Hb|]. destruct (record lossy 1) as [h'|] eqn:E; [|vm_compute in E; discriminate E].
  destruct Hr as (hs' & Hh & Hrep & _). exists h'. split; [reflexivity|].
  vm_compute in Hh. injection Hh as <-. exact Hrep.
Defined.

Lemma etx_cost_witness :
  linkQualityCost DefaultCostParams lossy 96 = 144 ∧ 96 ≤ etxCost 96 [true; false; true] ≤ 65535.
Proof.
  split; [vm_compute; reflexivity|].
  apply (etx_cost DefaultCostParams lossy [true; false; true] 96 lossy_represents); try reflexivity.
  unfold MetricInfinity. lia.
Defined.

Lemma rtt_penalty_witness :
  RTTPenalty DefaultCostParams (microDelta 20000 0) true = 10 ∧
  0 ≤ RTTPenalty DefaultCostParams (microDelta 20000 0) true ≤ RTTPenalty DefaultCostParams (microDelta 5 4294967295) true + 10.
Proof.
  split; [vm_compute; reflexivity|].
  assert (params_ok DefaultCostParams) as Hp.
  { unfold params_ok. cbn [RTT Weight Min_ Max_ DefaultCostParams]. unfold Millisecond. lia. }
  destruct (rtt_penalty DefaultCostParams 5 4294967295 20000 0 Hp) as (_ & H1 & _).
  { vm_compute. discriminate. }
  split; [lia|]. vm_compute. discriminate.
Defined.

Definition emptyConfig : Config :=
  mkConfig 0 0 LinkQualityETX (mkCostOptions None (mkRTTOptions None None None)).

Lemma validated_config_witness :
  Validate emptyConfig = Ok tt ∧ 0 < Cost (CostEffective emptyConfig) (microDelta 307000 0) true < MetricInfinity.
Proof.
  assert (Validate emptyConfig = Ok tt) as Hv by (vm_compute; reflexivity).
  split; [exact Hv|].
  apply (validated_config emptyConfig 307000 0 true); [|exact Hv].
  unfold config_ok, CostEffective, emptyConfig, Params. cbn. unfold Millisecond. lia.
Defined.
