(* ===== verification/BabelRoute.v ===== *)
(** * The Babel route and source tables: internal/babel/route.go and source.go

    The route acquisition, selection and expiry procedures and the feasibility
    distances that keep the mesh loop free.

    Neighbors are pointers, numbers here; the operations read the state of a
    neighbor through [nb], which they never change. A Go map is iterated in an
    arbitrary order, so every loop over a map takes the order it visits the keys
    in as an argument. The callbacks [install] and [forget] are recorded in a
    log. The smoothed metric is a float64: the operations the code uses on it are
    a class, with the exponential decay as one of them. *)

From S2P Require Import Prelude Netip BabelTlv BabelRaw BabelMetric.

(** ** float64 *)

(** [fdamp cost smoothed elapsed tau] is
    [cost + (smoothed-cost)*math.Exp(-elapsed/tau)]. *)
Class Float := {
  F : Type;
  fzero : F;
  fofZ : Z → F;
  fleb : F → F → bool;
  fltb : F → F → bool;
  fmax : F → F → F;
  fdamp : F → F → Z → Z → F
}.

(** ** Data *)

Record advertisement := mkAdv { advRouterID : list Z; advSeqno : Z; advMetric : Z }.

Record sourceKey := mkSourceKey { skRoute : routeKey; skRouterID : list Z }.

#[export] Instance sourceKey_eq_dec : EqDecision sourceKey.
Proof. solve_decision. Defined.

#[export] Instance sourceKey_countable : Countable sourceKey.
Proof.
  refine (inj_countable' (λ k, (skRoute k, skRouterID k)) (λ x, mkSourceKey x.1 x.2) _). by intros [].
Defined.

Record sourceEntry := mkSource { seSeqno : Z; seMetric : Z; gcAt : Z; owner : string }.

Definition sourceGCTime : Z := 3 * 60 * Second.
Definition maxSources : Z := Z.shiftl 1 16.
Definition maxOriginsPerPrefix : Z := Z.shiftl 1 10.
Definition maxOriginsPerPrefixPerNeighbor : Z := Z.shiftl 1 8.
Definition maxSourcesPerNeighbor : Z := Z.shiftl 1 13.
Definition maxRouteKeys : Z := 16384.

(** Pointers to neighbors. *)
Abbreviation nptr := nat (only parsing).

Record routeSelection := mkSelection {
  selNeighbor : option nptr; selCost : Z; selRouterID : list Z; selSeqno : Z
}.
Definition noSelection : routeSelection := mkSelection None 0 (replicate 8 0) 0.

Record starveRequest := mkStarve {
  starveKey : routeKey; starveNeighbor : nptr; starveRouterID : list Z; starveSeqno : Z
}.

(** Calls of the callbacks, in order. *)
Inductive event :=
| EInstall (key : routeKey) (sel : routeSelection)
| EForget (key : routeKey).

Section tables.
Context {FL : Float}.

Record routeInfo := mkRoute {
  riRouterID : list Z;
  riSeqno : Z;
  rxMetric : Z;
  hold : Z;
  expiresAt : Z;
  smoothed : F;
  smoothedAt : Z
}.
Definition newRoute : routeInfo := mkRoute (replicate 8 0) 0 0 0 0 fzero 0.

Record keyEntry := mkEntry {
  routes : gmap nptr routeInfo;
  selected : routeSelection;
  retractID : list Z;
  retractSeqno : Z
}.

(** [originShare] is the pair of a prefix and a peer. *)
Record routeTable := mkTable {
  entries : gmap routeKey keyEntry;
  sources : gmap sourceKey sourceEntry;
  retracted : gset nptr;
  originsPerKey : gmap routeKey Z;
  originsBy : gmap (routeKey * string) Z;
  sourcesByPeer : gmap string Z;
  dirty : gset routeKey;
  starved : list starveRequest;
  tau : Z;
  trigger : Z;
  costParams : CostParams;
  hasForget : bool;
  log : list event;
  warnedOverfull : bool;
  warnedOrigins : bool;
  nextExpiryAt : Z
}.

(** Updates of single fields. *)
Definition set_entries rt x := mkTable x (sources rt) (retracted rt) (originsPerKey rt) (originsBy rt) (sourcesByPeer rt)
  (dirty rt) (starved rt) (tau rt) (trigger rt) (costParams rt) (hasForget rt) (log rt) (warnedOverfull rt) (warnedOrigins rt) (nextExpiryAt rt).
Definition set_sources rt s o b p := mkTable (entries rt) s (retracted rt) o b p
  (dirty rt) (starved rt) (tau rt) (trigger rt) (costParams rt) (hasForget rt) (log rt) (warnedOverfull rt) (warnedOrigins rt) (nextExpiryAt rt).
Definition set_retracted rt x := mkTable (entries rt) (sources rt) x (originsPerKey rt) (originsBy rt) (sourcesByPeer rt)
  (dirty rt) (starved rt) (tau rt) (trigger rt) (costParams rt) (hasForget rt) (log rt) (warnedOverfull rt) (warnedOrigins rt) (nextExpiryAt rt).
Definition set_dirty rt x := mkTable (entries rt) (sources rt) (retracted rt) (originsPerKey rt) (originsBy rt) (sourcesByPeer rt)
  x (starved rt) (tau rt) (trigger rt) (costParams rt) (hasForget rt) (log rt) (warnedOverfull rt) (warnedOrigins rt) (nextExpiryAt rt).
Definition set_starved rt x := mkTable (entries rt) (sources rt) (retracted rt) (originsPerKey rt) (originsBy rt) (sourcesByPeer rt)
  (dirty rt) x (tau rt) (trigger rt) (costParams rt) (hasForget rt) (log rt) (warnedOverfull rt) (warnedOrigins rt) (nextExpiryAt rt).
Definition add_log rt e := mkTable (entries rt) (sources rt) (retracted rt) (originsPerKey rt) (originsBy rt) (sourcesByPeer rt)
  (dirty rt) (starved rt) (tau rt) (trigger rt) (costParams rt) (hasForget rt) (log rt ++ [e]) (warnedOverfull rt) (warnedOrigins rt) (nextExpiryAt rt).
Definition set_overfull rt := mkTable (entries rt) (sources rt) (retracted rt) (originsPerKey rt) (originsBy rt) (sourcesByPeer rt)
  (dirty rt) (starved rt) (tau rt) (trigger rt) (costParams rt) (hasForget rt) (log rt) true (warnedOrigins rt) (nextExpiryAt rt).
Definition set_warned rt x := mkTable (entries rt) (sources rt) (retracted rt) (originsPerKey rt) (originsBy rt) (sourcesByPeer rt)
  (dirty rt) (starved rt) (tau rt) (trigger rt) (costParams rt) (hasForget rt) (log rt) (warnedOverfull rt) x (nextExpiryAt rt).
Definition set_nextExpiry rt x := mkTable (entries rt) (sources rt) (retracted rt) (originsPerKey rt) (originsBy rt) (sourcesByPeer rt)
  (dirty rt) (starved rt) (tau rt) (trigger rt) (costParams rt) (hasForget rt) (log rt) (warnedOverfull rt) (warnedOrigins rt) x.

(** A table as the speaker makes one: the callbacks are given, and [tau],
    [trigger] and the cost set before use. *)
Definition newRouteTable (tau trigger : Z) (cost : CostParams) (hasForget : bool) : routeTable :=
  mkTable ∅ ∅ ∅ ∅ ∅ ∅ ∅ [] tau trigger cost hasForget [] false false 0.

(** ** source.go *)

Definition seqnoGT (a b : Z) : bool := 0 <? i16 (u16 (a - b)).

Definition better (e : sourceEntry) (seqno metric : Z) : bool :=
  seqnoGT seqno (seSeqno e) || ((seqno =? seSeqno e) && (metric <? seMetric e)).

(** A missing count reads as zero. *)
Definition count {K} `{Countable K} (m : gmap K Z) (k : K) : Z := default 0 (m !! k).

(** [feasible] and the warning it may log, which it logs once. *)
Definition feasible (rt : routeTable) (key : routeKey) (adv : advertisement) (from_ : string) : bool :=
  if advMetric adv =? MetricInfinity then true
  else
    match sources rt !! mkSourceKey key (advRouterID adv) with
    | None =>
        if maxSources <=? Z.of_nat (size (sources rt)) then false
        else if maxOriginsPerPrefix <=? count (originsPerKey rt) key then false
        else if maxSourcesPerNeighbor <=? count (sourcesByPeer rt) from_ then false
        else negb (maxOriginsPerPrefixPerNeighbor <=? count (originsBy rt) (key, from_))
    | Some entry => better entry (advSeqno adv) (advMetric adv)
    end.

(** [tooManyOrigins] runs exactly when a finite advertisement of an unknown
    origin is refused. *)
Definition feasibleWarned (rt : routeTable) (key : routeKey) (adv : advertisement) (from_ : string) : routeTable :=
  if negb (feasible rt key adv from_) && bool_decide (sources rt !! mkSourceKey key (advRouterID adv) = None)
  then set_warned rt true else rt.

(** [if m[k] <= 1 { delete(m, k) } else { m[k]-- }] *)
Definition decr {K} `{Countable K} (m : gmap K Z) (k : K) : gmap K Z :=
  if count m k <=? 1 then delete k m else <[k := count m k - 1]> m.

(** [m[k]++] *)
Definition incr {K} `{Countable K} (m : gmap K Z) (k : K) : gmap K Z := <[k := count m k + 1]> m.

Definition releaseOrigin (rt : routeTable) (key : routeKey) (owner : string) : routeTable :=
  set_sources rt (sources rt) (originsPerKey rt) (decr (originsBy rt) (key, owner)) (decr (sourcesByPeer rt) owner).

Definition observe (rt : routeTable) (key : routeKey) (adv : advertisement) (from_ : string) (now : Z) : routeTable :=
  if advMetric adv =? MetricInfinity then rt
  else
    let index := mkSourceKey key (advRouterID adv) in
    match sources rt !! index with
    | None =>
        set_sources rt (<[index := mkSource (advSeqno adv) (advMetric adv) (now + sourceGCTime) from_]> (sources rt))
          (incr (originsPerKey rt) key) (incr (originsBy rt) (key, from_)) (incr (sourcesByPeer rt) from_)
    | Some e =>
        let '(s, m) := if better e (advSeqno adv) (advMetric adv)
                       then (advSeqno adv, advMetric adv) else (seSeqno e, seMetric e) in
        let rt := if bool_decide (owner e = from_) then rt
                  else
                    let rt := releaseOrigin rt key (owner e) in
                    set_sources rt (sources rt) (originsPerKey rt)
                      (incr (originsBy rt) (key, from_)) (incr (sourcesByPeer rt) from_) in
        set_sources rt (<[index := mkSource s m (now + sourceGCTime) from_]> (sources rt))
          (originsPerKey rt) (originsBy rt) (sourcesByPeer rt)
    end.

Definition requestSeqno (rt : routeTable) (key : routeKey) (adv : advertisement) : Z :=
  match sources rt !! mkSourceKey key (advRouterID adv) with
  | Some entry => u16 (seSeqno entry + 1)
  | None => u16 (advSeqno adv + 1)
  end.

(** One turn of the loop of [sweepSources]. *)
Definition sweepSource (now : Z) (rt : routeTable) (index : sourceKey) : routeTable :=
  match sources rt !! index with
  | None => rt
  | Some entry =>
      if now <? gcAt entry then rt
      else
        let rt := set_sources rt (delete index (sources rt)) (decr (originsPerKey rt) (skRoute index))
                    (originsBy rt) (sourcesByPeer rt) in
        releaseOrigin rt (skRoute index) (owner entry)
  end.

(** [order] visits every key of the map once. *)
Definition sweepSources (rt : routeTable) (now : Z) (order : list sourceKey) : routeTable :=
  fold_left (sweepSource now) order rt.

(** ** route.go *)

Variable nb : nat → neighborState.

Definition significant (rt : routeTable) (old new : routeSelection) : bool :=
  match selNeighbor old, selNeighbor new with
  | None, None => false
  | None, Some _ | Some _, None => true
  | Some a, Some b =>
      if negb (bool_decide (a = b)) || negb (bool_decide (selRouterID old = selRouterID new))
         || negb (selSeqno old =? selSeqno new)
      then true
      else (selCost old <? selCost new) && (trigger rt <=? selCost new - selCost old)
  end.

Definition selectionFor (e : keyEntry) (n : nptr) (cost : Z) : routeSelection :=
  match routes e !! n with
  | Some r => mkSelection (Some n) cost (riRouterID r) (riSeqno r)
  | None => noSelection
  end.

Definition advertisedOf (r : routeInfo) : advertisement := mkAdv (riRouterID r) (riSeqno r) (rxMetric r).

Definition routeCost (r : routeInfo) (n : nptr) (now : Z) (cost : CostParams) : Z :=
  saturatingAdd (Z.max 1 (linkCost (nb n) now cost)) (rxMetric r).

Definition smooth (r : routeInfo) (cost now tau : Z) : routeInfo :=
  let elapsed := now - smoothedAt r in
  let s := if (smoothedAt r =? 0) || (tau <=? 0) || fleb (smoothed r) (fofZ cost) then fofZ cost
           else if 0 <? elapsed then fdamp (fofZ cost) (smoothed r) elapsed tau
           else smoothed r in
  mkRoute (riRouterID r) (riSeqno r) (rxMetric r) (hold r) (expiresAt r) (fmax s (fofZ cost)) now.

Definition earlier (a b : Z) : Z :=
  if (a =? 0) || (negb (b =? 0) && (b <? a)) then b else a.

Definition noteExpiry (rt : routeTable) (at_ : Z) : routeTable :=
  set_nextExpiry rt (earlier (nextExpiryAt rt) at_).

Definition starve (rt : routeTable) (key : routeKey) (n : nptr) (adv : advertisement) : routeTable :=
  set_starved rt (starved rt ++ [mkStarve key n (advRouterID adv) (requestSeqno rt key adv)]).

(** A candidate: a neighbor with its cost and smoothed cost. *)
Record candidate := mkCandidate { candNeighbor : nptr; candCost : Z; candSmoothed : F }.

(** The variables of the selection loop. *)
Record scan := mkScan {
  scTable : routeTable;
  scRoutes : gmap nptr routeInfo;
  best : option candidate;
  incumbent : option candidate;
  unfeasible : list nptr
}.

(** [best == nil || cost < bestCost || (cost == bestCost && n.peer.ID < best.peer.ID)] *)
Definition beats (c : candidate) (b : option candidate) : bool :=
  match b with
  | None => true
  | Some b =>
      (candCost c <? candCost b)
      || ((candCost c =? candCost b) && String.ltb (peerID (nb (candNeighbor c))) (peerID (nb (candNeighbor b))))
  end.

(** One turn of the loop over [entry.routes]; [current] is the selected neighbor. *)
Definition selectStep (key : routeKey) (current : option nptr) (now : Z) (sc : scan) (n : nptr) : scan :=
  match scRoutes sc !! n with
  | None => sc
  | Some route =>
      let expired := negb (now <? expiresAt route) in
      if expired && (rxMetric route =? MetricInfinity)
      then mkScan (scTable sc) (delete n (scRoutes sc)) (best sc) (incumbent sc) (unfeasible sc)
      else
        let route := if expired
          then mkRoute (riRouterID route) (riSeqno route) MetricInfinity (hold route) (now + hold route)
                 (smoothed route) (smoothedAt route)
          else route in
        let rt := noteExpiry (scTable sc) (expiresAt route) in
        let cost := routeCost route n now (costParams rt) in
        if cost =? MetricInfinity
        then mkScan rt (<[n := route]> (scRoutes sc)) (best sc) (incumbent sc) (unfeasible sc)
        else
          let route := smooth route cost now (tau rt) in
          let rs := <[n := route]> (scRoutes sc) in
          let ok := feasible rt key (advertisedOf route) (peerID (nb n)) in
          let rt := feasibleWarned rt key (advertisedOf route) (peerID (nb n)) in
          if negb ok then mkScan rt rs (best sc) (incumbent sc) (unfeasible sc ++ [n])
          else
            let c := mkCandidate n cost (smoothed route) in
            mkScan rt rs
              (if beats c (best sc) then Some c else best sc)
              (if bool_decide (current = Some n) then Some c else incumbent sc)
              (unfeasible sc)
  end.

(** The [switch] that keeps or leaves the incumbent. *)
Definition choose (e : keyEntry) (b i : option candidate) : routeSelection :=
  match b, i with
  | None, _ => noSelection
  | Some b, None => selectionFor e (candNeighbor b) (candCost b)
  | Some b, Some i =>
      if bool_decide (candNeighbor b = candNeighbor i) then selectionFor e (candNeighbor b) (candCost b)
      else if (candCost b <? candCost i) && fltb (candSmoothed b) (candSmoothed i)
      then selectionFor e (candNeighbor b) (candCost b)
      else selectionFor e (candNeighbor i) (candCost i)
  end.

Definition flush (rt : routeTable) (key : routeKey) : routeTable :=
  if hasForget rt then add_log rt (EForget key) else rt.

Definition isNone {A} (o : option A) : bool := match o with None => true | Some _ => false end.

(** [order] visits the keys of [routes e]. *)
Definition selectRoute (rt : routeTable) (key : routeKey) (e : keyEntry) (now : Z) (order : list nptr) : routeTable :=
  let sc := fold_left (selectStep key (selNeighbor (selected e)) now) order
              (mkScan rt (routes e) None None []) in
  let rt := scTable sc in
  let e' := mkEntry (scRoutes sc) (selected e) (retractID e) (retractSeqno e) in
  let new := choose e' (best sc) (incumbent sc) in
  let previous := selected e in
  let rt := if negb (bool_decide (selNeighbor new = selNeighbor previous)) then add_log rt (EInstall key new) else rt in
  let rt := if significant rt previous new then set_dirty rt ({[key]} ∪ dirty rt) else rt in
  let e' := if isNone (selNeighbor new)
            then mkEntry (routes e') new (retractID e) (retractSeqno e)
            else mkEntry (routes e') new (selRouterID new) (selSeqno new) in
  let rt := if isNone (selNeighbor new) && negb (isNone (selNeighbor previous))
            then fold_left (fun rt n => match routes e' !! n with
                                        | Some r => starve rt key n (advertisedOf r)
                                        | None => rt end) (unfeasible sc) rt
            else rt in
  if (size (routes e') =? 0)%nat
  then flush (set_dirty (set_entries rt (delete key (entries rt))) ({[key]} ∪ dirty rt)) key
  else set_entries rt (<[key := e']> (entries rt)).

Definition forgetRetraction (rt : routeTable) (n : nptr) : routeTable := set_retracted rt (retracted rt ∖ {[n]}).

(** [order] is the iteration order of the selection this update runs. *)
Definition update (rt : routeTable) (n : nptr) (key : routeKey) (adv : advertisement) (holdTime now : Z)
    (order : list nptr) : routeTable :=
  let inf := advMetric adv =? MetricInfinity in
  let rt := if negb inf then forgetRetraction rt n else rt in
  let ok := feasible rt key adv (peerID (nb n)) in
  let rt := feasibleWarned rt key adv (peerID (nb n)) in
  let entry := entries rt !! key in
  let apply (rt : routeTable) (e : keyEntry) (route : routeInfo) : routeTable :=
    let wasSelected := bool_decide (selNeighbor (selected e) = Some n) in
    let retracting := inf && negb (rxMetric route =? MetricInfinity) in
    let route :=
      if negb inf
      then mkRoute (advRouterID adv) (advSeqno adv) (advMetric adv) holdTime (now + holdTime) (smoothed route) (smoothedAt route)
      else mkRoute (advRouterID adv) (advSeqno adv) (advMetric adv) (hold route)
             (if retracting && (0 <? hold route) then now + hold route else expiresAt route)
             (smoothed route) (smoothedAt route) in
    let rt := if negb ok && wasSelected then starve rt key n adv else rt in
    let e := mkEntry (<[n := route]> (routes e)) (selected e) (retractID e) (retractSeqno e) in
    selectRoute rt key e now order in
  match entry with
  | Some e =>
      match routes e !! n with
      | Some route => apply rt e route
      | None => if negb ok || inf || (holdTime <=? 0) then rt else apply rt e newRoute
      end
  | None =>
      if negb ok || inf || (holdTime <=? 0) then rt
      else if maxRouteKeys <=? Z.of_nat (size (entries rt)) then set_overfull rt
      else apply rt (mkEntry ∅ noSelection (replicate 8 0) 0) newRoute
  end.

(** Reselection of the entries in [orders], each with the order its routes are
    visited in; an entry [touch] does not apply to is left alone. *)
Definition forEach (touch : keyEntry → option keyEntry) (now : Z) (rt : routeTable)
    (orders : list (routeKey * list nptr)) : routeTable :=
  fold_left (fun rt ko =>
    match entries rt !! ko.1 with
    | None => rt
    | Some e => match touch e with Some e' => selectRoute rt ko.1 e' now ko.2 | None => rt end
    end) orders rt.

Definition recomputeNeighbor (rt : routeTable) (n : nptr) (now : Z) orders : routeTable :=
  forEach (λ e, match routes e !! n with Some _ => Some e | None => None end) now rt orders.

Definition expireNeighbor (rt : routeTable) (n : nptr) (now : Z) orders : routeTable :=
  forEach (λ e, match routes e !! n with
                | Some _ => Some (mkEntry (delete n (routes e)) (selected e) (retractID e) (retractSeqno e))
                | None => None end) now (set_retracted rt (retracted rt ∖ {[n]})) orders.

Definition retractEntry (n : nptr) (now : Z) (e : keyEntry) : option keyEntry :=
  match routes e !! n with
  | Some r =>
      let r' := mkRoute (riRouterID r) (riSeqno r) MetricInfinity (hold r)
                  (if negb (rxMetric r =? MetricInfinity) && (0 <? hold r) then now + hold r else expiresAt r)
                  (smoothed r) (smoothedAt r) in
      Some (mkEntry (<[n := r']> (routes e)) (selected e) (retractID e) (retractSeqno e))
  | None => None
  end.

Definition retractNeighbor (rt : routeTable) (n : nptr) (now : Z) orders : routeTable :=
  if bool_decide (n ∈ retracted rt) then rt
  else forEach (retractEntry n now) now (set_retracted rt ({[n]} ∪ retracted rt)) orders.

Definition sweepExpired (rt : routeTable) (now : Z) orders sourceOrder : routeTable :=
  sweepSources (forEach Some now (set_nextExpiry rt 0) orders) now sourceOrder.

Definition route (rt : routeTable) (n : nptr) (key : routeKey) : option routeInfo :=
  e ← entries rt !! key; routes e !! n.

Definition nextExpiry (rt : routeTable) : Z := nextExpiryAt rt.

Definition takeDirty (rt : routeTable) : routeTable * list routeKey := (set_dirty rt ∅, elements (dirty rt)).

Definition takeStarved (rt : routeTable) : routeTable * list starveRequest := (set_starved rt [], starved rt).

End tables.
