(* ===== verification/BabelFeasible.v ===== *)
(** * The source table: feasibility distances and the shares of the budget

    Two facts about source.go. The counters that bound how much of the table one
    prefix or one neighbor may use always agree with the table itself; and the
    recorded distance bounds everything this node has advertised, so whatever
    passes the feasibility condition is strictly better than all of it, the
    argument behind Babel's loop freedom. *)

From S2P Require Import Prelude Netip BabelTlv BabelMetric BabelRoute.

(** ** Counters *)

Section tally.
Context {I V K : Type} `{Countable I, Countable K} (f : I * V → K).

(** How many entries of a table [f] puts under [k]. *)
Definition tally (src : gmap I V) (k : K) : Z :=
  Z.of_nat (size (filter (λ kv, f kv = k) src)).

(** The counter map is the tally, without zeros. *)
Definition counted (src : gmap I V) (m : gmap K Z) : Prop :=
  ∀ k, m !! k = if tally src k =? 0 then None else Some (tally src k).

Lemma counted_count src m k : counted src m → count m k = tally src k.
Proof. intros Hc. unfold count. rewrite Hc. destruct (Z.eqb_spec (tally src k) 0) as [->|]; done. Qed.

Lemma tally_insert src i e k : src !! i = None →
  tally (<[i := e]> src) k = tally src k + (if decide (f (i, e) = k) then 1 else 0).
Proof.
  intros Hn. unfold tally. case_decide as E.
  - rewrite map_filter_insert_True by done. rewrite map_size_insert_None; [lia|].
    apply map_lookup_filter_None. by left.
  - rewrite map_filter_insert_False, delete_id by done. lia.
Qed.

Lemma tally_delete src i e k : src !! i = Some e →
  tally (delete i src) k = tally src k - (if decide (f (i, e) = k) then 1 else 0).
Proof.
  intros Hs. pose proof (tally_insert (delete i src) i e k (lookup_delete_eq src i)) as Ht.
  rewrite insert_delete_id in Ht by done. lia.
Qed.

Lemma tally_nonneg src k : 0 ≤ tally src k.
Proof. unfold tally. lia. Qed.

Lemma tally_pos src i e : src !! i = Some e → 0 < tally src (f (i, e)).
Proof.
  intros Hs. pose proof (tally_delete src i e (f (i, e)) Hs) as Ht. rewrite decide_True in Ht by done.
  pose proof (tally_nonneg (delete i src) (f (i, e))). lia.
Qed.

Lemma counted_incr src m i e : counted src m → src !! i = None → counted (<[i := e]> src) (incr m (f (i, e))).
Proof.
  intros Hc Hn k. unfold incr. rewrite (counted_count src m) by done. pose proof (tally_nonneg src (f (i, e))).
  rewrite tally_insert by done. destruct (decide (f (i, e) = k)) as [<-|Hne].
  - rewrite lookup_insert_eq. by rewrite (proj2 (Z.eqb_neq _ _)) by lia.
  - rewrite lookup_insert_ne by done. rewrite Z.add_0_r. apply Hc.
Qed.

Lemma counted_decr src m i e : counted src m → src !! i = Some e → counted (delete i src) (decr m (f (i, e))).
Proof.
  intros Hc Hs k. unfold decr. rewrite (counted_count src m) by done. pose proof (tally_pos src i e Hs) as Hp.
  rewrite (tally_delete src i e k Hs). destruct (decide (f (i, e) = k)) as [<-|Hne].
  - destruct (Z.leb_spec (tally src (f (i, e))) 1).
    + rewrite lookup_delete_eq. by rewrite (proj2 (Z.eqb_eq _ _)) by lia.
    + rewrite lookup_insert_eq. by rewrite (proj2 (Z.eqb_neq _ _)) by lia.
  - rewrite Z.sub_0_r. destruct (_ <=? 1); [rewrite lookup_delete_ne by done | rewrite lookup_insert_ne by done]; apply Hc.
Qed.

(** Replacing an entry that stays under the same key. *)
Lemma counted_same src m i e e' : counted src m → src !! i = Some e → f (i, e) = f (i, e') →
  counted (<[i := e']> src) m.
Proof.
  intros Hc Hs Hf k. rewrite <- insert_delete_eq, (tally_insert _ _ _ k) by apply lookup_delete_eq.
  rewrite (tally_delete src i e k Hs), Hf. replace (tally src k - _ + _) with (tally src k) by lia. apply Hc.
Qed.

(** Moving an entry from one key to another. *)
Lemma counted_move src m i e e' : counted src m → src !! i = Some e →
  counted (<[i := e']> src) (incr (decr m (f (i, e))) (f (i, e'))).
Proof.
  intros Hc Hs. rewrite <- insert_delete_eq. apply counted_incr; [by apply counted_decr | apply lookup_delete_eq].
Qed.

End tally.

Section feasibility.
Context {FL : Float}.

(** The three shares agree with the table. *)
Record sources_ok (rt : routeTable) : Prop := {
  ok_prefix : counted (λ kv, skRoute kv.1) (sources rt) (originsPerKey rt);
  ok_share : counted (λ kv, (skRoute kv.1, owner kv.2)) (sources rt) (originsBy rt);
  ok_peer : counted (λ kv, owner kv.2) (sources rt) (sourcesByPeer rt)
}.

Lemma new_sources_ok t g c hf : sources_ok (newRouteTable t g c hf).
Proof. split; intros k; unfold tally; cbn; by rewrite map_filter_empty, map_size_empty, lookup_empty. Qed.

Lemma observe_ok rt key adv from_ now : sources_ok rt → sources_ok (observe rt key adv from_ now).
Proof.
  intros [H1 H2 H3]. unfold observe. destruct (_ =? _); [done|].
  set (i := mkSourceKey key (advRouterID adv)). destruct (sources rt !! i) as [e|] eqn:E.
  - destruct (if better e _ _ then _ else _) as [s m]. set (e' := mkSource s m (now + sourceGCTime) from_).
    case_bool_decide as Eo; cbn [sources originsPerKey originsBy sourcesByPeer set_sources releaseOrigin].
    + split; cbn; eapply counted_same; try done; cbn; by rewrite Eo.
    + split; cbn.
      * by eapply counted_same.
      * apply (counted_move (λ kv : sourceKey * sourceEntry, (skRoute kv.1, owner kv.2)) (sources rt) (originsBy rt) i e e' H2 E).
      * apply (counted_move (λ kv : sourceKey * sourceEntry, owner kv.2) (sources rt) (sourcesByPeer rt) i e e' H3 E).
  - set (e' := mkSource _ _ _ _). split; cbn.
    + apply (counted_incr (λ kv : sourceKey * sourceEntry, skRoute kv.1) (sources rt) (originsPerKey rt) i e' H1 E).
    + apply (counted_incr (λ kv : sourceKey * sourceEntry, (skRoute kv.1, owner kv.2)) (sources rt) (originsBy rt) i e' H2 E).
    + apply (counted_incr (λ kv : sourceKey * sourceEntry, owner kv.2) (sources rt) (sourcesByPeer rt) i e' H3 E).
Qed.

Lemma sweepSource_ok now rt i : sources_ok rt → sources_ok (sweepSource now rt i).
Proof.
  intros [H1 H2 H3]. unfold sweepSource. destruct (sources rt !! i) as [e|] eqn:E; [|done].
  destruct (now <? gcAt e); [done|]. split; cbn.
  - apply (counted_decr (λ kv : sourceKey * sourceEntry, skRoute kv.1) (sources rt) (originsPerKey rt) i e H1 E).
  - apply (counted_decr (λ kv : sourceKey * sourceEntry, (skRoute kv.1, owner kv.2)) (sources rt) (originsBy rt) i e H2 E).
  - apply (counted_decr (λ kv : sourceKey * sourceEntry, owner kv.2) (sources rt) (sourcesByPeer rt) i e H3 E).
Qed.

Lemma sweepSources_ok rt now order : sources_ok rt → sources_ok (sweepSources rt now order).
Proof.
  unfold sweepSources. revert rt. induction order as [|i order IH]; intros rt H; [done|]. cbn.
  by apply IH, sweepSource_ok.
Qed.

(** What changes the source table: an advertisement leaving this node, and the
    sweep, in whatever order it visits the map. *)
Inductive sourceOp :=
| OpObserve (key : routeKey) (adv : advertisement) (from_ : string) (now : Z)
| OpSweep (now : Z) (order : list sourceKey).

Definition sourceStep (rt : routeTable) (op : sourceOp) : routeTable :=
  match op with
  | OpObserve key adv from_ now => observe rt key adv from_ now
  | OpSweep now order => sweepSources rt now order
  end.

(** the budget is never miscounted. After any advertisements and sweeps, the
    share recorded for a prefix, for a neighbor, and for a neighbor within a
    prefix is exactly the number of distances the table holds for it: no share
    leaks, and none goes negative. *)
Theorem source_shares_exact t g c hf ops :
  let rt := fold_left sourceStep ops (newRouteTable t g c hf) in
  sources_ok rt ∧
  ∀ key peer, count (originsPerKey rt) key = tally (λ kv, skRoute kv.1) (sources rt) key ∧
    count (originsBy rt) (key, peer) = tally (λ kv, (skRoute kv.1, owner kv.2)) (sources rt) (key, peer) ∧
    count (sourcesByPeer rt) peer = tally (λ kv, owner kv.2) (sources rt) peer.
Proof.
  intros rt. assert (sources_ok rt) as Hok.
  { unfold rt. generalize (new_sources_ok t g c hf). generalize (newRouteTable t g c hf).
    induction ops as [|op ops IH]; intros rt0 H; [done|]. cbn. apply IH.
    destruct op; [by apply observe_ok | by apply sweepSources_ok]. }
  split; [done|]. intros key peer. split_and!; apply counted_count; apply Hok.
Qed.

(** ** Distances *)

(** Sequence numbers wrap, so they are ordered only within half the space; [base]
    fixes such a half. *)
Definition rank (base s : Z) : Z := u16 (s - base).
Definition inWindow (base s : Z) : Prop := 0 ≤ s < 2 ^ 16 ∧ rank base s < 2 ^ 15.

(** (seqno, metric) is strictly better than (s', m'): newer, or as new and closer. *)
Definition closer (base s m s' m' : Z) : Prop :=
  rank base s' < rank base s ∨ rank base s = rank base s' ∧ m < m'.

Lemma closer_trans base s m s' m' s'' m'' :
  closer base s m s' m' → closer base s' m' s'' m'' → closer base s m s'' m''.
Proof. unfold closer. lia. Qed.

Lemma seqnoGT_rank base a b : inWindow base a → inWindow base b → seqnoGT a b = (rank base b <? rank base a).
Proof.
  intros [Ha Hra] [Hb Hrb]. unfold seqnoGT, i16, signed, u16, rank, u16 in *. rewrite Z.mod_mod by lia.
  change (2 ^ (16 - 1)) with 32768. change (2 ^ 16) with 65536 in *. change (2 ^ 15) with 32768 in *.
  assert ((a - b) mod 65536 = ((a - base) mod 65536 - (b - base) mod 65536) mod 65536) as ->.
  { rewrite <- Zminus_mod. f_equal. lia. }
  pose proof (Z.mod_pos_bound (a - base) 65536). pose proof (Z.mod_pos_bound (b - base) 65536).
  set (x := (a - base) mod 65536) in *. set (y := (b - base) mod 65536) in *.
  destruct (Z.ltb_spec y x).
  - rewrite Z.mod_small by lia. destruct (Z.ltb_spec (x - y) 32768); [|lia]. apply Z.ltb_lt. lia.
  - destruct (Z.eq_dec x y) as [->|]; [by rewrite Z.sub_diag|].
    rewrite <- (Z_mod_plus_full (x - y) 1 65536), Z.mod_small by lia.
    destruct (Z.ltb_spec (x - y + 1 * 65536) 32768); apply Z.ltb_ge; lia.
Qed.

Lemma rank_inj base a b : inWindow base a → inWindow base b → rank base a = rank base b → a = b.
Proof.
  intros [Ha _] [Hb _]. unfold rank, u16. change (2 ^ 16) with 65536 in *. intros E.
  assert ((a - b) mod 65536 = 0) as Hz.
  { replace (a - b) with ((a - base) - (b - base)) by lia. by rewrite Zminus_mod, E, Z.sub_diag. }
  divlia.
Qed.

Lemma better_closer base e s m : inWindow base s → inWindow base (seSeqno e) →
  better e s m = true ↔ closer base s m (seSeqno e) (seMetric e).
Proof.
  intros Hs He. unfold better, closer. rewrite (seqnoGT_rank base) by done. rewrite orb_true_iff, andb_true_iff, Z.ltb_lt, Z.eqb_eq, Z.ltb_lt.
  split; intros [?|[? ?]]; auto; right; split; auto; [by subst | by apply (rank_inj base)].
Qed.

(** One finite advertisement of a source: seqno, metric, the neighbor it is charged
    to and when. *)
Record announcement := mkAnn { annSeqno : Z; annMetric : Z; annFrom : string; annAt : Z }.

Definition announce (key : routeKey) (router : list Z) (rt : routeTable) (a : announcement) : routeTable :=
  observe rt key (mkAdv router (annSeqno a) (annMetric a)) (annFrom a) (annAt a).

Definition ann_ok (base : Z) (a : announcement) : Prop :=
  inWindow base (annSeqno a) ∧ annMetric a ≠ MetricInfinity.

(** The distance recorded for the source is at least as good as [a]. *)
Definition bounds (base : Z) (e : sourceEntry) (a : announcement) : Prop :=
  ¬ closer base (annSeqno a) (annMetric a) (seSeqno e) (seMetric e).

(** After an advertisement the distance bounds it, and whatever it bounded. *)
Lemma announce_bounds base key router rt a :
  ann_ok base a →
  (∀ e, sources rt !! mkSourceKey key router = Some e → inWindow base (seSeqno e)) →
  ∃ e', sources (announce key router rt a) !! mkSourceKey key router = Some e' ∧ inWindow base (seSeqno e') ∧
    bounds base e' a ∧ gcAt e' = annAt a + sourceGCTime ∧
    ∀ e, sources rt !! mkSourceKey key router = Some e → ∀ b, bounds base e b → bounds base e' b.
Proof.
  intros [Hw Hm] He. unfold announce, observe. cbn [advMetric advRouterID advSeqno].
  rewrite (proj2 (Z.eqb_neq _ _)) by done. destruct (sources rt !! _) as [e|] eqn:E.
  - destruct (better e (annSeqno a) (annMetric a)) eqn:Eb; cbn [set_sources sources];
      (eexists; split; [by rewrite lookup_insert_eq|]); cbn [seSeqno seMetric gcAt].
    + split_and!; [done | unfold bounds, closer; cbn; lia | done |].
      intros e0 [= <-] b Hb. apply (better_closer base) in Eb; [|done | by apply He].
      unfold bounds, closer in *. cbn in *. lia.
    + split_and!; [by apply He | | done |].
      * unfold bounds. cbn. rewrite <- (better_closer base e) by (done || by apply He). by rewrite Eb.
      * intros e0 [= <-] b Hb. exact Hb.
  - eexists. cbn [set_sources sources]. split; [by rewrite lookup_insert_eq|]. cbn [seSeqno seMetric gcAt].
    split_and!; [done | unfold bounds, closer; cbn; lia | done | done].
Qed.

(** The sweep drops exactly the distances whose timer has run out. *)
Lemma sweepSources_lookup now order : ∀ rt i,
  sources (sweepSources rt now order) !! i =
    match sources rt !! i with
    | Some e => if bool_decide (i ∈ order) && negb (now <? gcAt e) then None else Some e
    | None => None
    end.
Proof.
  unfold sweepSources. induction order as [|j order IH]; intros rt i; cbn [fold_left].
  { destruct (sources rt !! i); [|done]. by rewrite bool_decide_eq_false_2 by set_solver. }
  rewrite IH. clear IH. unfold sweepSource. destruct (sources rt !! j) as [e|] eqn:Ej.
  - destruct (now <? gcAt e) eqn:Eg; cbn [set_sources sources releaseOrigin].
    + destruct (sources rt !! i) as [e'|] eqn:Ei; [|done]. destruct (decide (i = j)) as [->|Hne].
      * assert (e' = e) as -> by congruence. rewrite Eg. by rewrite !andb_false_r.
      * by rewrite (bool_decide_ext (i ∈ j :: order) (i ∈ order)) by set_solver.
    + destruct (decide (i = j)) as [->|Hne].
      * rewrite lookup_delete_eq, Ej, Eg, bool_decide_eq_true_2 by set_solver. done.
      * rewrite lookup_delete_ne by done. destruct (sources rt !! i); [|done].
        by rewrite (bool_decide_ext (i ∈ j :: order) (i ∈ order)) by set_solver.
  - destruct (sources rt !! i) as [e'|] eqn:Ei; [|done]. assert (i ≠ j) by congruence.
    by rewrite (bool_decide_ext (i ∈ j :: order) (i ∈ order)) by set_solver.
Qed.

(** An advertisement of another source, and a retraction, leave the distance alone. *)
Lemma observe_other rt key adv from_ now i : mkSourceKey key (advRouterID adv) ≠ i ∨ advMetric adv = MetricInfinity →
  sources (observe rt key adv from_ now) !! i = sources rt !! i.
Proof.
  intros Hi. unfold observe. destruct (Z.eqb_spec (advMetric adv) MetricInfinity); [done|]. destruct Hi as [Hi|]; [|done].
  destruct (sources rt !! _) as [e|]; [|by cbn; rewrite lookup_insert_ne].
  destruct (if better e _ _ then _ else _) as [s m]. case_bool_decide; cbn; by rewrite lookup_insert_ne.
Qed.

(** When an operation happens, and the finite advertisement of a source it is. *)
Definition opAt (op : sourceOp) : Z := match op with OpObserve _ _ _ now | OpSweep now _ => now end.

Definition tells (i : sourceKey) (op : sourceOp) : option announcement :=
  match op with
  | OpObserve key adv from_ now =>
      if decide (mkSourceKey key (advRouterID adv) = i ∧ advMetric adv ≠ MetricInfinity)
      then Some (mkAnn (advSeqno adv) (advMetric adv) from_ now) else None
  | OpSweep _ _ => None
  end.

(** The operations happen one after another, from [start] to [now]. *)
Fixpoint timed (start : Z) (ops : list sourceOp) (now : Z) : Prop :=
  match ops with
  | [] => start ≤ now
  | op :: ops => start ≤ opAt op ∧ timed (opAt op) ops now
  end.

(** What was told in the last [sourceGCTime] is bounded by the distance on record,
    which will last as long. *)
Definition kept (base now : Z) (i : sourceKey) (rt : routeTable) (anns : list announcement) : Prop :=
  (∀ e, sources rt !! i = Some e → inWindow base (seSeqno e)) ∧
  ∀ a, a ∈ anns → now < annAt a + sourceGCTime → annAt a ≤ now ∧
    ∃ e, sources rt !! i = Some e ∧ bounds base e a ∧ annAt a + sourceGCTime ≤ gcAt e.

Lemma kept_step base clk i rt anns op : clk ≤ opAt op → Forall (λ a, inWindow base (annSeqno a)) (option_list (tells i op)) →
  kept base clk i rt anns → kept base (opAt op) i (sourceStep rt op) (anns ++ option_list (tells i op)).
Proof.
  intros Hle Hw [K1 K2]. assert (kept base (opAt op) i rt anns) as [L1 L2].
  { split; [done|]. intros a Ha Hlt. destruct (K2 a Ha) as [? He]; [lia|]. split; [lia | done]. }
  clear K1 K2. destruct op as [key adv from_ now|now order]; cbn [opAt sourceStep tells] in *.
  - case_decide as Hd; cbn [option_list option_rect] in *.
    + destruct Hd as [<- Hm]. apply Forall_cons in Hw as [Hw _].
      destruct (announce_bounds base key (advRouterID adv) rt (mkAnn (advSeqno adv) (advMetric adv) from_ now)) as (e' & He' & Hwe & Hb & Hg & Hmono); [by split | done|].
      change (announce _ _ _ _) with (observe rt key (mkAdv (advRouterID adv) (advSeqno adv) (advMetric adv)) from_ now) in He'.
      replace (mkAdv _ _ _) with adv in He' by (by destruct adv). split; [intros e; rewrite He'; by intros [= <-]|].
      intros a [Ha| ->%list_elem_of_singleton]%elem_of_app Hlt.
      * destruct (L2 a Ha Hlt) as (Hat & e & He & Hbe & Hge). split; [done|]. exists e'. split_and!; [done | by apply (Hmono e) | rewrite Hg; cbn; lia].
      * split; [done|]. exists e'. split_and!; [done | done | rewrite Hg; cbn; lia].
    + rewrite app_nil_r. assert (sources (observe rt key adv from_ now) !! i = sources rt !! i) as E.
      { apply observe_other. destruct (decide (mkSourceKey key (advRouterID adv) = i)); [|by left]. right.
        destruct (decide (advMetric adv = MetricInfinity)); [done|]. exfalso. by apply Hd. }
      split; rewrite E; [done|]. intros a Ha Hlt. by apply L2.
  - rewrite app_nil_r. split.
    + intros e. rewrite sweepSources_lookup. destruct (sources rt !! i) as [e0|]; [|done]. destruct (_ && _); [done|]. intros [= <-]. by apply L1.
    + intros a Ha Hlt. destruct (L2 a Ha Hlt) as (Hat & e & He & Hbe & Hge). split; [done|]. exists e. split_and!; [|done|done].
      rewrite sweepSources_lookup, He. by rewrite (proj2 (Z.ltb_lt _ _)), andb_false_r by lia.
Qed.

Lemma kept_run base i ops now : ∀ clk rt anns, timed clk ops now → Forall (λ a, inWindow base (annSeqno a)) (omap (tells i) ops) →
  kept base clk i rt anns → kept base now i (fold_left sourceStep ops rt) (anns ++ omap (tells i) ops).
Proof.
  induction ops as [|op ops IH]; intros clk rt anns Ht Hw Hk; cbn [fold_left].
  - rewrite app_nil_r. destruct Hk as [K1 K2]. split; [done|]. cbn in Ht. intros a Ha Hlt. destruct (K2 a Ha) as [? He]; [lia|]. split; [lia | done].
  - destruct Ht as [Hle Ht].
    assert (omap (tells i) (op :: ops) = option_list (tells i op) ++ omap (tells i) ops) as E by (cbn; by destruct (tells i op)).
    rewrite E in *. apply Forall_app in Hw as [Hw1 Hw2]. rewrite app_assoc. apply (IH (opAt op)); [done | done|]. by apply (kept_step base clk).
Qed.

(** C38: the feasibility condition does what loop freedom needs. Whatever this node
    advertises and sweeps in the course of time, an update with a finite metric
    passes the condition only if it is strictly better (newer, or as new with a
    smaller metric) than every finite advertisement of its source this node made in
    the last three minutes, the time distances are kept for, as long as the numbers
    of that source are from one half of the sequence number space. *)
Theorem feasible_beats_advertised base key start t g c hf ops now adv from_ :
  let i := mkSourceKey key (advRouterID adv) in
  timed start ops now → Forall (λ a, inWindow base (annSeqno a)) (omap (tells i) ops) → inWindow base (advSeqno adv) →
  advMetric adv ≠ MetricInfinity → feasible (fold_left sourceStep ops (newRouteTable t g c hf)) key adv from_ = true →
  ∀ a, a ∈ omap (tells i) ops → now < annAt a + sourceGCTime →
  closer base (advSeqno adv) (advMetric adv) (annSeqno a) (annMetric a).
Proof.
  intros i Ht Hw Hwa Hm Hf a Ha Hlt.
  destruct (kept_run base i ops now start (newRouteTable t g c hf) []) as [K1 K2]; [done | done | |].
  { split; [by intros e|]. by intros b []%not_elem_of_nil. }
  destruct (K2 a Ha Hlt) as (_ & e & He & Hb & _). unfold feasible in Hf. fold i in Hf.
  rewrite (proj2 (Z.eqb_neq _ _)), He in Hf by done. apply (better_closer base) in Hf; [|done | by apply K1].
  unfold bounds, closer in *. lia.
Qed.

End feasibility.
