(* ===== verification/BabelSelect.v ===== *)
(** * Route selection: what [selectRoute] of internal/babel/route.go decides

    The loop over a prefix's routes is reduced to what it computes for each route
    on its own, which gives the selection procedure a specification that does not
    mention the order the map was visited in. *)

From Stdlib Require Import OrdersEx.
From S2P Require Import Prelude Netip BabelTlv BabelRaw BabelMetric BabelRoute.

(** ** The order on candidates *)

Lemma string_compare_OT a b : String.compare a b = String_as_OT.compare a b.
Proof.
  reflexivity.
Qed.

Lemma string_ltb_lt a b : String.ltb a b = true ↔ String_as_OT.lt a b.
Proof. unfold String.ltb, String_as_OT.lt. rewrite string_compare_OT. by destruct (String_as_OT.compare a b). Qed.

Lemma string_ltb_irrefl a : String.ltb a a = false.
Proof.
  destruct (String.ltb a a) eqn:E; [|done]. apply string_ltb_lt in E. by destruct (StrictOrder_Irreflexive a E).
Qed.

Lemma string_ltb_trans a b c : String.ltb a b = true → String.ltb b c = true → String.ltb a c = true.
Proof. rewrite !string_ltb_lt. intros H1 H2. by transitivity b. Qed.

Lemma string_ltb_total a b : String.ltb a b = false → String.ltb b a = false → a = b.
Proof.
  intros H1 H2. apply String.compare_eq_iff. unfold String.ltb in *.
  rewrite String.compare_antisym in H2. by destruct (String.compare a b).
Qed.

(** ** Commuting folds *)

Lemma fold_left_perm {A B} (f : B → A → B) (l l' : list A) :
  (∀ b x y, f (f b x) y = f (f b y) x) → l ≡ₚ l' → ∀ b, fold_left f l b = fold_left f l' b.
Proof.
  intros Hc. induction 1 as [|x l l' _ IH|x y l|l l' l'' _ IH1 _ IH2]; intros b; cbn; [done | apply IH | by rewrite Hc |].
  by rewrite IH1, IH2.
Qed.

Section select.
Context {FL : Float}.
Variable nb : nat → neighborState.

(** The route a pass leaves: gone, retracted by expiry, or kept. *)
Definition aged (now : Z) (r : routeInfo) : option routeInfo :=
  if now <? expiresAt r then Some r
  else if rxMetric r =? MetricInfinity then None
  else Some (mkRoute (riRouterID r) (riSeqno r) MetricInfinity (hold r) (now + hold r) (smoothed r) (smoothedAt r)).

Definition settled (rt : routeTable) (now : Z) (n : nat) (r : routeInfo) : option routeInfo :=
  r ← aged now r;
  let cost := routeCost nb r n now (costParams rt) in
  Some (if cost =? MetricInfinity then r else smooth r cost now (tau rt)).

(** A route that may carry traffic: reachable and feasible. *)
Definition reachable (rt : routeTable) (now : Z) (n : nat) (r : routeInfo) : bool :=
  negb (routeCost nb r n now (costParams rt) =? MetricInfinity).
Definition fit (rt : routeTable) (key : routeKey) (n : nat) (r : routeInfo) : bool :=
  feasible rt key (advertisedOf r) (peerID (nb n)).
Definition selectable (rt : routeTable) (key : routeKey) (now : Z) (n : nat) (r : routeInfo) : bool :=
  reachable rt now n r && fit rt key n r.

Definition cand (rt : routeTable) (now : Z) (n : nat) (r : routeInfo) : candidate :=
  mkCandidate n (routeCost nb r n now (costParams rt)) (smoothed r).

(** The table with only what the loop may touch changed. *)
Definition retimed (rt : routeTable) (w : bool) (x : Z) : routeTable := set_nextExpiry (set_warned rt w) x.

Lemma retimed_self rt : retimed rt (warnedOrigins rt) (nextExpiryAt rt) = rt.
Proof. by destruct rt. Qed.

Lemma fit_retimed rt w x key n r : fit (retimed rt w x) key n r = fit rt key n r.
Proof. done. Qed.

(** ** One turn, and the whole loop *)

Section scan.
Variables (rt : routeTable) (m0 : gmap nat routeInfo) (key : routeKey) (current : option nat) (now : Z).

Definition settle (n : nat) : option routeInfo := r ← m0 !! n; settled rt now n r.
Definition due (n : nat) : option Z := expiresAt <$> settle n.
Definition refused (n : nat) : bool :=
  match settle n with Some r => reachable rt now n r && negb (fit rt key n r) | None => false end.
Definition warns (n : nat) : bool :=
  refused n && match settle n with
               | Some r => bool_decide (sources rt !! mkSourceKey key (riRouterID r) = None)
               | None => false end.
Definition candAt (n : nat) : option candidate :=
  r ← settle n; if selectable rt key now n r then Some (cand rt now n r) else None.

Definition noteStep (t : Z) (n : nat) : Z := match due n with Some d => earlier t d | None => t end.
Definition bestStep (b : option candidate) (n : nat) : option candidate :=
  match candAt n with Some c => if beats nb c b then Some c else b | None => b end.
Definition incumbentStep (i : option candidate) (n : nat) : option candidate :=
  match candAt n with Some c => if bool_decide (current = Some n) then Some c else i | None => i end.

Lemma routeCost_smooth r cost t ta n : routeCost nb (smooth r cost t ta) n now (costParams rt) = routeCost nb r n now (costParams rt).
Proof. done. Qed.

(** One turn of the loop, in terms of the route alone. *)
Lemma selectStep_eq w x rs b i u n :
  rs !! n = m0 !! n →
  selectStep nb key current now (mkScan (retimed rt w x) rs b i u) n =
    mkScan (retimed rt (w || warns n) (noteStep x n))
      (match settle n with Some r => <[n := r]> rs | None => delete n rs end)
      (bestStep b n) (incumbentStep i n) (u ++ if refused n then [n] else []).
Proof.
  intros Hn. unfold selectStep, bestStep, incumbentStep, candAt, noteStep, due, warns, refused, settle.
  cbn [scRoutes scTable best incumbent unfeasible]. rewrite Hn.
  destruct (m0 !! n) as [r|] eqn:E; cbn [mbind option_bind fmap option_fmap option_map].
  2: { by rewrite delete_id, orb_false_r, app_nil_r by (by rewrite Hn). }
  unfold settled, aged. destruct (now <? expiresAt r) eqn:Ee; cbn [negb andb mbind option_bind].
  2: destruct (rxMetric r =? MetricInfinity) eqn:Em; cbn [mbind option_bind];
     [by rewrite orb_false_r, app_nil_r|].
  all: match goal with |- context [routeCost nb ?r' ?k now ?c] => set (r1 := r') end.
  all: change (costParams (noteExpiry (retimed rt w x) (expiresAt r1))) with (costParams rt).
  all: change (tau (noteExpiry (retimed rt w x) (expiresAt r1))) with (tau rt).
  all: set (co := routeCost nb r1 n now (costParams rt)).
  all: unfold selectable, reachable, feasibleWarned.
  all: change (feasible (noteExpiry (retimed rt w x) (expiresAt r1)) key) with (feasible rt key).
  all: destruct (co =? MetricInfinity) eqn:Ec; fold co; rewrite ?routeCost_smooth; fold co;
    rewrite ?Ec; cbn [negb andb]; [by rewrite orb_false_r, app_nil_r|].
  all: fold (fit rt key n (smooth r1 co now (tau rt))).
  all: destruct (fit rt key n _) eqn:Ef; cbn [negb andb]; [by rewrite orb_false_r, app_nil_r|].
  all: cbn; case_bool_decide; by rewrite ?orb_true_r, ?orb_false_r.
Qed.

(** The loop: each variable is a fold of its own over the routes visited. *)
Lemma scan_eq order : NoDup order → ∀ w x rs b i u,
  (∀ n, n ∈ order → rs !! n = m0 !! n) →
  ∃ rs', fold_left (selectStep nb key current now) order (mkScan (retimed rt w x) rs b i u) =
      mkScan (retimed rt (fold_left (λ w n, w || warns n) order w) (fold_left noteStep order x)) rs'
        (fold_left bestStep order b) (fold_left incumbentStep order i) (u ++ filter (λ n, refused n = true) order) ∧
    ∀ n, rs' !! n = if bool_decide (n ∈ order) then settle n else rs !! n.
Proof.
  induction 1 as [|n order Hn Hd IH]; intros w x rs b i u Hrs.
  - exists rs. cbn. by rewrite app_nil_r.
  - cbn [fold_left]. rewrite selectStep_eq by (apply Hrs; left).
    set (rs1 := match settle n with Some r => <[n := r]> rs | None => delete n rs end).
    assert (∀ k, rs1 !! k = if bool_decide (k = n) then settle n else rs !! k) as H1.
    { intros k. unfold rs1. case_bool_decide as Ek; [subst k|]; destruct (settle n); by simplify_map_eq. }
    edestruct (IH (w || warns n) (noteStep x n) rs1) as (rs' & -> & Hrs').
    { intros k Hk. rewrite H1, bool_decide_eq_false_2 by (intros ->; done). apply Hrs. by right. }
    exists rs'. split.
    + f_equal. rewrite <- app_assoc. f_equal. rewrite filter_cons. case_decide as Er; destruct (refused n); done.
    + intros k. rewrite Hrs', H1. repeat case_bool_decide; subst; try done; set_solver.
Qed.

(** *** The best candidate *)

Definition ahead (c b : candidate) : Prop :=
  candCost c < candCost b ∨
  candCost c = candCost b ∧ String.ltb (peerID (nb (candNeighbor b))) (peerID (nb (candNeighbor c))) = false.

Lemma ahead_refl c : ahead c c.
Proof. right. by rewrite string_ltb_irrefl. Qed.

Lemma beats_ahead c b : beats nb c (Some b) = true → ahead c b.
Proof.
  unfold beats, ahead. rewrite orb_true_iff, andb_true_iff, Z.ltb_lt, Z.eqb_eq. intros [?|[? Hl]]; [by left|].
  right. split; [done|]. destruct (String.ltb (peerID (nb (candNeighbor b))) _) eqn:E; [|done].
  pose proof (string_ltb_trans _ _ _ E Hl) as Hx. by rewrite string_ltb_irrefl in Hx.
Qed.

Lemma not_beats_ahead c b : beats nb c (Some b) = false → ahead b c.
Proof.
  unfold beats, ahead. rewrite orb_false_iff, andb_false_iff, Z.ltb_ge, Z.eqb_neq. intros [? [?|?]]; [left; lia|].
  destruct (Z.eq_dec (candCost b) (candCost c)); [by right | left; lia].
Qed.

Lemma ahead_trans a b c : ahead a b → ahead b c → ahead a c.
Proof.
  intros [?|[? H1]] [?|[? H2]]; [left; lia..|]. right. split; [lia|].
  destruct (String.ltb (peerID (nb (candNeighbor c))) (peerID (nb (candNeighbor a)))) eqn:E; [|done].
  destruct (String.ltb (peerID (nb (candNeighbor a))) (peerID (nb (candNeighbor b)))) eqn:E1.
  - pose proof (string_ltb_trans _ _ _ E E1). congruence.
  - rewrite (string_ltb_total _ _ H1 E1) in *. congruence.
Qed.

Lemma best_spec order b :
  match fold_left bestStep order b with
  | None => b = None ∧ ∀ n, n ∈ order → candAt n = None
  | Some c => (b = Some c ∨ ∃ n, n ∈ order ∧ candAt n = Some c) ∧
      (∀ c', b = Some c' → ahead c c') ∧ ∀ n c', n ∈ order → candAt n = Some c' → ahead c c'
  end.
Proof.
  revert b. induction order as [|n order IH]; intros b; cbn [fold_left].
  - destruct b as [c|]; [|set_solver]. split_and!; [by left | | set_solver].
    intros c' [= <-]. apply ahead_refl.
  - specialize (IH (bestStep b n)). destruct (fold_left bestStep order _) as [c|].
    + destruct IH as (Hc & Hb & Ho). unfold bestStep in *. destruct (candAt n) as [cn|] eqn:En.
      * destruct b as [b|]; [|split_and!].
        -- destruct (beats nb cn (Some b)) eqn:Ebt.
           ++ assert (ahead c cn) as Hcn by by apply Hb. apply beats_ahead in Ebt.
              split_and!; [set_solver | intros c' [= <-]; by eapply ahead_trans |].
              intros k c' [->|Hk]%elem_of_cons Hc'; [congruence | by apply (Ho k)].
           ++ assert (ahead c b) as Hcb by by apply Hb. apply not_beats_ahead in Ebt.
              split_and!; [set_solver | intros c' [= <-]; done |].
              intros k c' [->|Hk]%elem_of_cons Hc'; [|by apply (Ho k)].
              assert (c' = cn) as -> by congruence. by eapply ahead_trans.
        -- set_solver.
        -- done.
        -- intros k c' [->|Hk]%elem_of_cons Hc'; [|by apply (Ho k)]. apply Hb. cbn. congruence.
      * split_and!; [set_solver | done |]. intros k c' [->|Hk]%elem_of_cons Hc'; [congruence | by apply (Ho k)].
    + destruct IH as [Hb Ho]. unfold bestStep in Hb. destruct (candAt n) as [cn|] eqn:En.
      * destruct b as [b|]; [destruct (beats nb cn (Some b)); done | done].
      * split; [done|]. intros k [->|Hk]%elem_of_cons; [done | by apply Ho].
Qed.

Lemma incumbent_spec order i :
  fold_left incumbentStep order i =
    match current with
    | Some n => if bool_decide (n ∈ order) then match candAt n with Some c => Some c | None => i end else i
    | None => i
    end.
Proof.
  revert i. induction order as [|n order IH]; intros i; cbn [fold_left].
  - destruct current; [|done]. by rewrite bool_decide_eq_false_2 by set_solver.
  - rewrite IH. unfold incumbentStep. destruct current as [k|]; [|by destruct (candAt n)].
    destruct (decide (k = n)) as [->|Hne].
    + rewrite (bool_decide_eq_true_2 (n ∈ n :: order)) by set_solver. rewrite (bool_decide_eq_true_2 (Some n = Some n)) by done.
      destruct (candAt n); by case_bool_decide.
    + rewrite (bool_decide_ext (k ∈ n :: order) (k ∈ order)) by set_solver.
      rewrite (bool_decide_eq_false_2 (Some k = Some n)) by congruence. by destruct (candAt n).
Qed.

Lemma candAt_inv n c : candAt n = Some c →
  ∃ r, settle n = Some r ∧ selectable rt key now n r = true ∧ c = cand rt now n r.
Proof.
  unfold candAt. destruct (settle n) as [r|]; [|done]. cbn.
  destruct (selectable rt key now n r) eqn:E; [|done]. intros [= <-]. eauto.
Qed.

End scan.
(** ** Costs *)

Lemma saturatingAdd_bound a b : 0 ≤ saturatingAdd a b ≤ MetricInfinity.
Proof.
  unfold saturatingAdd, MetricInfinity. destruct (_ || _); [lia|].
  destruct (65535 <=? u32 (a + b)); [lia|]. pose proof (u16_bound (u32 (a + b))). lia.
Qed.

Lemma saturatingAdd_infinity a b : a = MetricInfinity ∨ b = MetricInfinity → saturatingAdd a b = MetricInfinity.
Proof. unfold saturatingAdd. intros [-> | ->]; [done|]. by rewrite orb_true_r. Qed.

Lemma linkCost_bound n now p : 0 ≤ linkCost n now p ≤ MetricInfinity.
Proof. unfold linkCost. destruct (_ || _ || _); [unfold MetricInfinity; lia | apply saturatingAdd_bound]. Qed.

(** the metric is strictly monotonic, without which routing loops persist.
    Crossing a link always costs something: the cost of a route is above the
    metric the neighbor announced, whatever cost the neighbor reported for the
    link (zero included), and it saturates instead of wrapping; it is infinite
    when the announced metric or the link's cost is. *)
Theorem cost_monotonic r n now p :
  (0 ≤ rxMetric r < MetricInfinity →
     rxMetric r < routeCost nb r n now p ∧
     routeCost nb r n now p = Z.min MetricInfinity (Z.max 1 (linkCost (nb n) now p) + rxMetric r)) ∧
  0 ≤ routeCost nb r n now p ≤ MetricInfinity ∧
  (rxMetric r = MetricInfinity ∨ linkCost (nb n) now p = MetricInfinity → routeCost nb r n now p = MetricInfinity).
Proof.
  unfold routeCost. pose proof (linkCost_bound (nb n) now p). split_and!.
  - intros Hr. unfold MetricInfinity in *. rewrite saturatingAdd_eq by lia. unfold MetricInfinity. lia.
  - apply saturatingAdd_bound.
  - apply saturatingAdd_bound.
  - intros Hi. apply saturatingAdd_infinity. unfold MetricInfinity in *. lia.
Qed.

Lemma reachable_finite rt now n r : reachable rt now n r = true → rxMetric r ≠ MetricInfinity.
Proof.
  unfold reachable, routeCost. rewrite negb_true_iff, Z.eqb_neq. intros H E. apply H, saturatingAdd_infinity. by right.
Qed.

(** ** The whole procedure *)

(** The routes of a prefix, each visited once. *)
Definition visits (order : list nat) (e : keyEntry) : Prop :=
  NoDup order ∧ ∀ n, n ∈ order ↔ is_Some (routes e !! n).

(** What the loop leaves when it has visited every route. *)
Lemma loop_eq rt key e now order : visits order e →
  ∃ rs, (∀ n, rs !! n = settle rt (routes e) now n) ∧
    fold_left (selectStep nb key (selNeighbor (selected e)) now) order (mkScan rt (routes e) None None []) =
      mkScan (retimed rt (fold_left (λ w n, w || warns rt (routes e) key now n) order (warnedOrigins rt))
                         (fold_left (noteStep rt (routes e) now) order (nextExpiryAt rt)))
        rs (fold_left (bestStep rt (routes e) key now) order None)
        (match selNeighbor (selected e) with Some n => candAt rt (routes e) key now n | None => None end)
        (filter (λ n, refused rt (routes e) key now n = true) order).
Proof.
  intros [Hd Hv].
  destruct (scan_eq rt (routes e) key (selNeighbor (selected e)) now order Hd (warnedOrigins rt) (nextExpiryAt rt)
    (routes e) None None [] ltac:(done)) as (rs & Heq & Hrs).
  rewrite retimed_self in Heq. exists rs. split.
  - intros n. rewrite Hrs. case_bool_decide as Hn; [done|]. rewrite Hv in Hn. apply eq_None_not_Some in Hn.
    unfold settle. by rewrite Hn.
  - rewrite Heq, incumbent_spec. destruct (selNeighbor (selected e)) as [n|] eqn:En; [|done]. f_equal.
    case_bool_decide as Hn; [by destruct (candAt _ _ _ _ n)|].
    rewrite Hv in Hn. apply eq_None_not_Some in Hn. unfold candAt, settle. by rewrite Hn.
Qed.

(** What selection promises of the routes [rs] it leaves: the route chosen can
    carry traffic, and is the best that can, or the one in use while nothing beats
    it both now and over time; the route in use is left only for one that does. *)
Definition can (rt : routeTable) (key : routeKey) (now : Z) (rs : gmap nat routeInfo) (n : nat) (r : routeInfo) : Prop :=
  rs !! n = Some r ∧ selectable rt key now n r = true.

Definition isBest (rt : routeTable) (key : routeKey) (now : Z) (rs : gmap nat routeInfo) (n : nat) (r : routeInfo) : Prop :=
  can rt key now rs n r ∧ ∀ n' r', can rt key now rs n' r' → ahead (cand rt now n r) (cand rt now n' r').

Definition overtakes (rt : routeTable) (now : Z) (n : nat) (r : routeInfo) (n' : nat) (r' : routeInfo) : bool :=
  (routeCost nb r n now (costParams rt) <? routeCost nb r' n' now (costParams rt)) && fltb (smoothed r) (smoothed r').

Definition selection_spec (rt : routeTable) (key : routeKey) (now : Z) (previous : option nat)
    (rs : gmap nat routeInfo) (new : routeSelection) : Prop :=
  match selNeighbor new with
  | None => new = noSelection ∧ ∀ n r, ¬ can rt key now rs n r
  | Some n => ∃ r b rb, can rt key now rs n r ∧ isBest rt key now rs b rb ∧
      rxMetric r ≠ MetricInfinity ∧ now < expiresAt r ∧
      new = mkSelection (Some n) (routeCost nb r n now (costParams rt)) (riRouterID r) (riSeqno r) ∧
      (n = b ∨ previous = Some n ∧ overtakes rt now b rb n r = false) ∧
      ∀ p rp, previous = Some p → can rt key now rs p rp → n ≠ p → n = b ∧ overtakes rt now n r p rp = true
  end.

Lemma settled_live rt m0 now n r : settle rt m0 now n = Some r → reachable rt now n r = true →
  rxMetric r ≠ MetricInfinity ∧ now < expiresAt r.
Proof.
  intros Hs Hr. pose proof (reachable_finite _ _ _ _ Hr) as Hm. split; [done|].
  unfold settle, settled, aged in Hs. destruct (m0 !! n) as [r0|]; [|done]. cbn in Hs.
  destruct (Z.ltb_spec now (expiresAt r0)) as [Hl|_]; cbn in Hs.
  - destruct (_ =? MetricInfinity) in Hs; assert (expiresAt r = expiresAt r0) by (by injection Hs as <-); lia.
  - destruct (rxMetric r0 =? MetricInfinity); [done|]. cbn in Hs.
    exfalso. apply Hm. destruct (_ =? MetricInfinity) in Hs; by injection Hs as <-.
Qed.

Lemma can_candAt rt key now m0 rs n r : (∀ n, rs !! n = settle rt m0 now n) →
  can rt key now rs n r ↔ settle rt m0 now n = Some r ∧ candAt rt m0 key now n = Some (cand rt now n r).
Proof.
  intros Hrs. unfold can. rewrite Hrs. unfold candAt. split.
  - intros [-> Hs]. cbn. by rewrite Hs.
  - intros [Hs Hc]. split; [done|]. rewrite Hs in Hc. cbn in Hc. by destruct (selectable rt key now n r).
Qed.

Lemma candAt_can rt key now m0 rs n c : (∀ n, rs !! n = settle rt m0 now n) → candAt rt m0 key now n = Some c →
  ∃ r, can rt key now rs n r ∧ c = cand rt now n r.
Proof. intros Hrs (r & Hs & Hok & ->)%candAt_inv. exists r. split; [|done]. split; [by rewrite Hrs | done]. Qed.

Lemma selectionFor_cand rt key now m0 rs n r sel ri rq : (∀ n, rs !! n = settle rt m0 now n) → can rt key now rs n r →
  selectionFor (mkEntry rs sel ri rq) (candNeighbor (cand rt now n r)) (candCost (cand rt now n r)) =
    mkSelection (Some n) (routeCost nb r n now (costParams rt)) (riRouterID r) (riSeqno r).
Proof. intros _ [Hr _]. unfold selectionFor. cbn. by rewrite Hr. Qed.

(** The choice after the loop meets the specification. *)
Lemma choose_spec rt key now e order rs :
  visits order e → (∀ n, rs !! n = settle rt (routes e) now n) →
  selection_spec rt key now (selNeighbor (selected e)) rs
    (choose (mkEntry rs (selected e) (retractID e) (retractSeqno e))
       (fold_left (bestStep rt (routes e) key now) order None)
       (match selNeighbor (selected e) with Some n => candAt rt (routes e) key now n | None => None end)).
Proof.
  intros [_ Hv] Hrs. set (prev := selNeighbor (selected e)).
  assert (∀ n r, can rt key now rs n r → n ∈ order) as Hin.
  { intros n r [Hr _]. apply Hv. rewrite Hrs in Hr. unfold settle in Hr. by destruct (routes e !! n). }
  pose proof (best_spec rt (routes e) key now order None) as Hb.
  destruct (fold_left (bestStep _ _ _ _) order None) as [cb|].
  2: { destruct Hb as [_ Hb]. unfold choose, selection_spec. cbn. split; [done|]. intros n r Hc.
       rewrite (can_candAt _ _ _ (routes e)) in Hc by done. destruct Hc as [Hs Hc]. rewrite Hb in Hc; [done|].
       apply (Hin n r). by apply (can_candAt _ _ _ (routes e)). }
  destruct Hb as ([Hb|(b & Hbo & Hcb)] & _ & Hmin); [done|].
  destruct (candAt_can _ _ _ _ rs _ _ Hrs Hcb) as (rb & Hcan & ->).
  assert (isBest rt key now rs b rb) as Hbest.
  { split; [done|]. intros n' r' Hc. apply (Hmin n'); [by eapply Hin|]. by apply (can_candAt _ _ _ (routes e)) in Hc as [_ ?]. }
  assert (∀ n r, can rt key now rs n r → rxMetric r ≠ MetricInfinity ∧ now < expiresAt r) as Hlive.
  { intros n r [Hr Hs]. rewrite Hrs in Hr. apply andb_prop in Hs as [Hs _]. by eapply settled_live. }
  assert (∀ p rp, can rt key now rs p rp → candAt rt (routes e) key now p = Some (cand rt now p rp)) as Hcand.
  { intros p rp Hc. by apply (can_candAt _ _ _ (routes e)) in Hc as [_ ?]. }
  destruct (Hlive _ _ Hcan) as [Hl1 Hl2]. clear Hmin Hcb Hbo.
  destruct prev as [p|] eqn:Ep; [destruct (candAt rt (routes e) key now p) as [ci|] eqn:Eci|].
  - destruct (candAt_can _ _ _ _ rs _ _ Hrs Eci) as (ri & Hcani & ->).
    destruct (Hlive _ _ Hcani) as [Hi1 Hi2].
    unfold choose. rewrite !(selectionFor_cand rt key now (routes e)) by done. cbn [candNeighbor candCost candSmoothed cand].
    case_bool_decide as Ebp; [subst b|destruct (_ && _) eqn:Eo]; unfold selection_spec; cbn [selNeighbor].
    + exists rb, p, rb. split_and!; try done; [by left|]. congruence.
    + exists rb, b, rb. split_and!; try done; [by left|]. intros p' rp [= <-] Hc _. split; [done|].
      assert (cand rt now p rp = cand rt now p ri) as E by (apply Hcand in Hc; congruence).
      assert (rp = ri) as -> by (destruct Hc as [Hc _], Hcani as [Hc' _]; congruence). done.
    + exists ri, b, rb. split_and!; try done; [by right|]. congruence.
  - unfold choose. rewrite (selectionFor_cand rt key now (routes e)) by done. unfold selection_spec. cbn [selNeighbor].
    exists rb, b, rb. split_and!; try done; [by left|]. intros p' rp [= <-] Hc. apply Hcand in Hc. congruence.
  - unfold choose. rewrite (selectionFor_cand rt key now (routes e)) by done. unfold selection_spec. cbn [selNeighbor].
    exists rb, b, rb. split_and!; try done. by left.
Qed.

(** The request for a sequence number of each refused route. *)
Definition requestFor (rt : routeTable) (key : routeKey) (rs : gmap nat routeInfo) (n : nat) : option starveRequest :=
  r ← rs !! n; Some (mkStarve key n (riRouterID r) (requestSeqno rt key (advertisedOf r))).

Lemma starve_all key rs us : ∀ rt,
  fold_left (λ rt n, match rs !! n with Some r => starve rt key n (advertisedOf r) | None => rt end) us rt =
    set_starved rt (starved rt ++ omap (requestFor rt key rs) us).
Proof.
  induction us as [|n us IH]; intros rt; cbn [fold_left].
  { cbn. rewrite app_nil_r. by destruct rt. }
  rewrite IH. unfold requestFor at 2. cbn [omap list_omap]. destruct (rs !! n) as [r|] eqn:E; cbn [mbind option_bind]; [|done].
  unfold starve, set_starved. cbn. rewrite <- app_assoc. done.
Qed.

(** A table with the fields replaced that selection writes. *)
Definition passed (rt : routeTable) (es : gmap routeKey keyEntry) (d : gset routeKey) (st : list starveRequest)
    (l : list event) (w : bool) (x : Z) : routeTable :=
  mkTable es (sources rt) (retracted rt) (originsPerKey rt) (originsBy rt) (sourcesByPeer rt) d st (tau rt) (trigger rt)
    (costParams rt) (hasForget rt) l (warnedOverfull rt) w x.

Section passed.
Variables (rt : routeTable) (es : gmap routeKey keyEntry) (d : gset routeKey) (st : list starveRequest)
  (l : list event) (w : bool) (x : Z) (c : bool).

Lemma passed_retimed : retimed rt w x = passed rt (entries rt) (dirty rt) (starved rt) (log rt) w x.
Proof. done. Qed.
Lemma passed_log ev : (if c then add_log (passed rt es d st l w x) ev else passed rt es d st l w x) =
  passed rt es d st (l ++ if c then [ev] else []) w x.
Proof. destruct c; [done|]. by rewrite app_nil_r. Qed.
Lemma passed_dirty d' : (if c then set_dirty (passed rt es d st l w x) d' else passed rt es d st l w x) =
  passed rt es (if c then d' else d) st l w x.
Proof. by destruct c. Qed.
Lemma passed_starved st' : (if c then set_starved (passed rt es d st l w x) (st ++ st') else passed rt es d st l w x) =
  passed rt es d (st ++ if c then st' else []) l w x.
Proof. destruct c; [done|]. by rewrite app_nil_r. Qed.
Lemma passed_entries es' : set_entries (passed rt es d st l w x) es' = passed rt es' d st l w x.
Proof. done. Qed.
Lemma passed_flush d' k : flush (set_dirty (passed rt es d st l w x) d') k =
  passed rt es d' st (l ++ if hasForget rt then [EForget k] else []) w x.
Proof. unfold flush. cbn. destruct (hasForget rt) eqn:E; cbn; [done|]. by rewrite app_nil_r. Qed.
End passed.

(** The entry a pass leaves, and what it adds to the table's records. *)
Section outcome.
Variables (rt : routeTable) (key : routeKey) (e : keyEntry) (rs : gmap nat routeInfo) (new : routeSelection).

Definition leftEntry : keyEntry :=
  if isNone (selNeighbor new) then mkEntry rs new (retractID e) (retractSeqno e)
  else mkEntry rs new (selRouterID new) (selSeqno new).

Definition installs : list event :=
  if negb (bool_decide (selNeighbor new = selNeighbor (selected e))) then [EInstall key new] else [].
Definition forgets : list event := if (size rs =? 0)%nat && hasForget rt then [EForget key] else [].

Definition asks (us : list nat) : list starveRequest :=
  if isNone (selNeighbor new) && negb (isNone (selNeighbor (selected e))) then omap (requestFor rt key rs) us else [].

Definition outcome (w : bool) (x : Z) (us : list nat) : routeTable :=
  passed rt (if (size rs =? 0)%nat then delete key (entries rt) else <[key := leftEntry]> (entries rt))
    (if (size rs =? 0)%nat || significant rt (selected e) new then {[key]} ∪ dirty rt else dirty rt)
    (starved rt ++ asks us) (log rt ++ installs ++ forgets) w x.
End outcome.

(** The whole procedure, as one table. *)
Lemma selectRoute_eq rt key e now order : visits order e →
  ∃ rs, (∀ n, rs !! n = settle rt (routes e) now n) ∧
    selectRoute nb rt key e now order =
      outcome rt key e rs
        (choose (mkEntry rs (selected e) (retractID e) (retractSeqno e))
           (fold_left (bestStep rt (routes e) key now) order None)
           (match selNeighbor (selected e) with Some n => candAt rt (routes e) key now n | None => None end))
        (fold_left (λ w n, w || warns rt (routes e) key now n) order (warnedOrigins rt))
        (fold_left (noteStep rt (routes e) now) order (nextExpiryAt rt))
        (filter (λ n, refused rt (routes e) key now n = true) order).
Proof.
  intros Hv. destruct (loop_eq rt key e now order Hv) as (rs & Hrs & Heq). exists rs. split; [done|].
  unfold selectRoute. rewrite Heq. cbn [scTable scRoutes best incumbent unfeasible].
  set (new := choose _ _ _). set (w := fold_left _ _ (warnedOrigins rt)). set (x := fold_left _ _ (nextExpiryAt rt)).
  set (us := filter _ order). clearbody new w x us.
  change (if isNone (selNeighbor new) then _ else _) with (leftEntry e rs new). cbv zeta.
  assert (routes (leftEntry e rs new) = rs) as -> by (unfold leftEntry; by destruct (isNone _)).
  rewrite starve_all, passed_retimed, !passed_log.
  change (significant (passed rt ?a ?b ?c ?d ?f ?g)) with (significant rt).
  change (dirty (passed rt _ (dirty rt) _ _ _ _)) with (dirty rt). rewrite !passed_dirty.
  set (d := if significant _ _ _ then _ else _). set (l := log rt ++ _).
  change (starved (passed rt (entries rt) d (starved rt) l w x)) with (starved rt).
  change (requestFor (passed rt (entries rt) d (starved rt) l w x)) with (requestFor rt).
  rewrite passed_starved. fold (asks rt key e rs new us). rewrite !passed_entries.
  change (dirty (passed rt _ d _ _ _ _)) with d. rewrite passed_flush.
  change (entries (passed rt (entries rt) _ _ _ _ _)) with (entries rt).
  unfold outcome, forgets. fold (installs key e new) in l.
  destruct (size rs =? 0)%nat; cbn [andb orb].
  - subst l d. rewrite <- app_assoc. f_equal. destruct (significant _ _ _); set_solver.
  - subst l. rewrite app_nil_r. done.
Qed.

(** C39: route selection is sound. Every route is aged as the code says (left
    alone, retracted when it expires, dropped when its hold has run out), and the
    entry is gone when none is left. Otherwise the selection can carry traffic
    (present, not expired, finite cost, feasible under the table's distances) and
    nothing is selected only when no route can; it is the cheapest such route with
    ties broken by peer ID, except that the route in use is kept until one that is
    cheaper both now and over time overtakes it. *)
Theorem select_sound rt key e now order :
  visits order e →
  let rt' := selectRoute nb rt key e now order in
  match entries rt' !! key with
  | None => ∀ n, settle rt (routes e) now n = None
  | Some e' => (∀ n, routes e' !! n = settle rt (routes e) now n) ∧ (∃ n r, routes e' !! n = Some r) ∧
      selection_spec rt' key now (selNeighbor (selected e)) (routes e') (selected e')
  end.
Proof.
  intros Hv rt'. destruct (selectRoute_eq rt key e now order Hv) as (rs & Hrs & Heq). unfold rt'. rewrite Heq. clear rt' Heq.
  pose proof (choose_spec rt key now e order rs Hv Hrs) as Hc. set (new := choose _ _ _) in *. clearbody new.
  unfold outcome. cbn [entries passed]. destruct (Nat.eqb_spec (size rs) 0) as [Hz|Hz].
  - rewrite lookup_delete_eq. intros n. apply map_size_empty_inv in Hz. rewrite <- Hrs, Hz. apply lookup_empty.
  - rewrite lookup_insert_eq. unfold leftEntry.
    assert (∃ n r, rs !! n = Some r) as Hne.
    { destruct (map_choose rs) as (n & r & Hr); [|eauto]. intros ->. by rewrite map_size_empty in Hz. }
    destruct (isNone (selNeighbor new)); cbn [routes selected]; (split_and!; [exact Hrs | exact Hne | exact Hc]).
Qed.

(** ** The order of the map does not matter *)

Lemma earlier_comm t a b : earlier (earlier t a) b = earlier (earlier t b) a.
Proof.
  unfold earlier. destruct (Z.eqb_spec t 0), (Z.eqb_spec a 0), (Z.eqb_spec b 0), (Z.ltb_spec a t), (Z.ltb_spec b t), (Z.ltb_spec a b), (Z.ltb_spec b a);
    cbn [orb andb negb]; repeat (match goal with |- context [?u =? ?v] => destruct (Z.eqb_spec u v) | |- context [?u <? ?v] => destruct (Z.ltb_spec u v) end; cbn [orb andb negb]); lia.
Qed.

Lemma noteStep_perm rt m0 now o1 o2 x : o1 ≡ₚ o2 → fold_left (noteStep rt m0 now) o1 x = fold_left (noteStep rt m0 now) o2 x.
Proof.
  intros Hp. apply fold_left_perm; [|done]. intros t a b. unfold noteStep.
  destruct (due rt m0 now a), (due rt m0 now b); try done. apply earlier_comm.
Qed.

Lemma warns_perm rt m0 key now o1 o2 w : o1 ≡ₚ o2 →
  fold_left (λ w n, w || warns rt m0 key now n) o1 w = fold_left (λ w n, w || warns rt m0 key now n) o2 w.
Proof. intros Hp. apply fold_left_perm; [|done]. intros b x y. by rewrite <- !orb_assoc, (orb_comm (warns _ _ _ _ x)). Qed.

(** Distinct peers have distinct IDs. *)
Definition distinct (e : keyEntry) : Prop :=
  ∀ n n', is_Some (routes e !! n) → is_Some (routes e !! n') → peerID (nb n) = peerID (nb n') → n = n'.

Lemma ahead_antisym c c' : ahead c c' → ahead c' c → peerID (nb (candNeighbor c)) = peerID (nb (candNeighbor c')).
Proof. intros [?|[? H1]] [?|[? H2]]; [lia..|]. by apply string_ltb_total. Qed.

Lemma bestStep_perm rt key now e o1 o2 : distinct e → visits o1 e → o1 ≡ₚ o2 →
  fold_left (bestStep rt (routes e) key now) o1 None = fold_left (bestStep rt (routes e) key now) o2 None.
Proof.
  intros Hd [_ Hv] Hp.
  pose proof (best_spec rt (routes e) key now o1 None) as H1. pose proof (best_spec rt (routes e) key now o2 None) as H2.
  destruct (fold_left _ o1 None) as [c1|], (fold_left _ o2 None) as [c2|]; [|..|done].
  - destruct H1 as ([?|(n1 & Hn1 & Hc1)] & _ & Hm1); [done|]. destruct H2 as ([?|(n2 & Hn2 & Hc2)] & _ & Hm2); [done|].
    assert (ahead c1 c2) as Ha by (apply (Hm1 n2); [by rewrite Hp | done]).
    assert (ahead c2 c1) as Hb by (apply (Hm2 n1); [by rewrite <- Hp | done]).
    pose proof (candAt_inv _ _ _ _ _ _ Hc1) as (r1 & _ & _ & E1). pose proof (candAt_inv _ _ _ _ _ _ Hc2) as (r2 & _ & _ & E2).
    assert (n1 = n2); [|congruence]. apply Hd; [by apply Hv | apply Hv; by rewrite Hp |].
    pose proof (ahead_antisym _ _ Ha Hb) as Hid. by rewrite E1, E2 in Hid.
  - destruct H1 as ([?|(n1 & Hn1 & Hc1)] & _ & _); [done|]. destruct H2 as [_ H2]. rewrite Hp in Hn1. by rewrite (H2 n1) in Hc1.
  - destruct H2 as ([?|(n2 & Hn2 & Hc2)] & _ & _); [done|]. destruct H1 as [_ H1]. rewrite <- Hp in Hn2. by rewrite (H1 n2) in Hc2.
Qed.

(** selection is deterministic although Go visits a map in a random order.
    With distinct peer IDs, two passes over the same routes in any two orders
    leave the same table: the same selection, the same installed routes, the same
    deadline and warnings; the sequence-number requests are the same up to order. *)
Theorem select_order_irrelevant rt key e now o1 o2 :
  visits o1 e → visits o2 e → distinct e →
  let t1 := selectRoute nb rt key e now o1 in
  let t2 := selectRoute nb rt key e now o2 in
  set_starved t1 [] = set_starved t2 [] ∧ starved t1 ≡ₚ starved t2.
Proof.
  intros H1 H2 Hd. assert (o1 ≡ₚ o2) as Hp.
  { apply NoDup_Permutation; [apply H1 | apply H2 |]. intros n. rewrite (proj2 H1 n). symmetry. apply H2. }
  destruct (selectRoute_eq rt key e now o1 H1) as (rs1 & Hr1 & ->).
  destruct (selectRoute_eq rt key e now o2 H2) as (rs2 & Hr2 & ->).
  assert (rs1 = rs2) as -> by (apply map_eq; intros n; by rewrite Hr1, Hr2).
  rewrite (noteStep_perm _ _ _ _ _ _ Hp), (warns_perm _ _ _ _ _ _ _ Hp), (bestStep_perm _ _ _ _ _ _ Hd H1 Hp).
  split; [done|]. cbn. unfold asks. destruct (_ && _); [|done]. by rewrite Hp.
Qed.

End select.
