(* ===== verification/BabelTable.v ===== *)
(** * The route table as a state machine

    Every operation of internal/babel/route.go and source.go is a step; the
    invariants hold in every table the steps reach. They are what the speaker's
    loop relies on: the deadline it sleeps on is never late, the forwarding table
    the callbacks build is the table's own selection, and the shortcut for
    repeated wildcard retractions skips nothing. *)

From S2P Require Import Prelude Netip BabelTlv BabelRaw BabelMetric BabelRoute BabelSelect.

Section table.
Context {FL : Float}.

(** ** The forwarding table built by the callbacks *)

Definition apply_event (fwd : gmap routeKey (option nat)) (ev : event) : gmap routeKey (option nat) :=
  match ev with
  | EInstall key sel => <[key := selNeighbor sel]> fwd
  | EForget key => delete key fwd
  end.

Definition forwarding (l : list event) : gmap routeKey (option nat) := fold_left apply_event l ∅.

(** Where a prefix is sent: nowhere when it is held unreachable or unknown. *)
Definition sentTo (l : list event) (key : routeKey) : option nat := mjoin (forwarding l !! key).

Definition selectedNeighbor (rt : routeTable) (key : routeKey) : option nat :=
  e ← entries rt !! key; selNeighbor (selected e).

Lemma forwarding_snoc l1 l2 : forwarding (l1 ++ l2) = fold_left apply_event l2 (forwarding l1).
Proof. unfold forwarding. by rewrite fold_left_app. Qed.

(** ** The invariant *)

Definition routes_ok (ret : gset nat) (m : gmap nat routeInfo) : Prop :=
  ∀ n r, m !! n = Some r → 0 < expiresAt r ∧ 0 ≤ hold r ∧ (n ∈ ret → rxMetric r = MetricInfinity).

(** The selected route is there, usable, and described by the selection. *)
Definition selected_ok (e : keyEntry) : Prop :=
  ∀ n, selNeighbor (selected e) = Some n →
    ∃ r, routes e !! n = Some r ∧ rxMetric r ≠ MetricInfinity ∧
      selRouterID (selected e) = riRouterID r ∧ selSeqno (selected e) = riSeqno r.

Definition entry_ok (ret : gset nat) (e : keyEntry) : Prop :=
  routes_ok ret (routes e) ∧ (∃ n r, routes e !! n = Some r) ∧ selected_ok e.

Definition deadline_ok (t : Z) (m : gmap nat routeInfo) : Prop :=
  ∀ n r, m !! n = Some r → 0 < t ≤ expiresAt r.

Record table_ok (rt : routeTable) : Prop := {
  ok_entries : ∀ key e, entries rt !! key = Some e → entry_ok (retracted rt) e ∧ deadline_ok (nextExpiryAt rt) (routes e);
  ok_next : 0 ≤ nextExpiryAt rt;
  ok_size : Z.of_nat (size (entries rt)) ≤ maxRouteKeys;
  ok_fwd : ∀ key, sentTo (log rt) key = selectedNeighbor rt key
}.

Lemma new_table_ok t g c hf : table_ok (newRouteTable t g c hf).
Proof. split; try done. Qed.

(** ** What one pass of selection preserves *)

Section pass.
Variable nb : nat → neighborState.

Lemma earlier_bounds t d : 0 ≤ t → 0 < d → 0 < earlier t d ≤ d ∧ (0 < t → earlier t d ≤ t).
Proof. intros. unfold earlier. destruct (Z.eqb_spec t 0), (Z.eqb_spec d 0), (Z.ltb_spec d t); cbn [orb andb negb]; lia. Qed.

Lemma note_fold rt m now order : ∀ x, 0 ≤ x → (∀ n d, due nb rt m now n = Some d → 0 < d) →
  let x' := fold_left (noteStep nb rt m now) order x in
  0 ≤ x' ∧ (0 < x → 0 < x' ≤ x) ∧ ∀ n d, n ∈ order → due nb rt m now n = Some d → 0 < x' ≤ d.
Proof.
  induction order as [|n order IH]; intros x Hx Hd; cbn [fold_left]; [set_solver by lia|].
  assert (0 ≤ noteStep nb rt m now x n ∧ (0 < x → 0 < noteStep nb rt m now x n ≤ x) ∧
    ∀ d, due nb rt m now n = Some d → 0 < noteStep nb rt m now x n ≤ d) as (H1 & H2 & H3).
  { unfold noteStep. destruct (due nb rt m now n) as [d|] eqn:E; [|split_and!; [done | lia | done]].
    pose proof (earlier_bounds x d Hx (Hd n d E)). split_and!; [lia | lia |]. intros ? [= <-]. lia. }
  destruct (IH _ H1 Hd) as (IH1 & IH2 & IH3). split_and!; [done | intros; specialize (H2 ltac:(done)); lia |].
  intros k d [->|Hk]%elem_of_cons Hkd; [specialize (H3 d Hkd); lia | by apply (IH3 k)].
Qed.

Lemma settled_ok rt ret m now n r : 0 < now → routes_ok ret m → settle nb rt m now n = Some r →
  0 < expiresAt r ∧ 0 ≤ hold r ∧ (n ∈ ret → rxMetric r = MetricInfinity).
Proof.
  intros Hnow Hok. unfold settle, settled, aged. destruct (m !! n) as [r0|] eqn:E; [|done].
  destruct (Hok n r0 E) as (H1 & H2 & H3). cbn [mbind option_bind].
  destruct (now <? expiresAt r0); cbn [mbind option_bind].
  - intros [= <-]. destruct (_ =? MetricInfinity); done.
  - destruct (rxMetric r0 =? MetricInfinity); [done|]. cbn [mbind option_bind]. intros [= <-].
    destruct (_ =? MetricInfinity); cbn; (split_and!; [lia | done | done]).
Qed.

(** What [selectRoute] does to a table, apart from the choice it makes. *)
Record pass_result (rt rt' : routeTable) (key : routeKey) (e : keyEntry) : Prop := {
  pr_retracted : retracted rt' = retracted rt;
  pr_others : ∀ k, k ≠ key → entries rt' !! k = entries rt !! k;
  pr_entry : ∀ e', entries rt' !! key = Some e' → entry_ok (retracted rt) e' ∧ deadline_ok (nextExpiryAt rt') (routes e');
  pr_next : 0 ≤ nextExpiryAt rt' ∧ (0 < nextExpiryAt rt → 0 < nextExpiryAt rt' ≤ nextExpiryAt rt);
  pr_size : (size (entries rt') ≤ size (<[key := e]> (entries rt)))%nat;
  pr_sent : ∀ k, sentTo (log rt') k = if decide (k = key) then selectedNeighbor rt' key else sentTo (log rt) k
}.

Lemma sentTo_other l ev k : (match ev with EInstall key _ | EForget key => key end) ≠ k → sentTo (l ++ [ev]) k = sentTo l k.
Proof. intros Hk. unfold sentTo. rewrite forwarding_snoc. destruct ev; cbn in *; by simplify_map_eq. Qed.

Lemma selection_selected_ok rt key now prev rs new ri rq : selection_spec nb rt key now prev rs new →
  selected_ok (mkEntry rs new ri rq).
Proof.
  unfold selection_spec. intros Hs n Hn. cbn in *. rewrite Hn in Hs.
  destruct Hs as (r & b & rb & [Hr _] & _ & Hm & _ & -> & _). by exists r.
Qed.

(** Nothing is selected when no route is left. *)
Lemma selection_empty rt key now prev new : selection_spec nb rt key now prev ∅ new → selNeighbor new = None.
Proof.
  unfold selection_spec. destruct (selNeighbor new); [|done]. intros (r & b & rb & [Hr _] & _). by rewrite lookup_empty in Hr.
Qed.

Lemma sent_after rt key e rs new :
  sentTo (log rt) key = selNeighbor (selected e) → (rs = ∅ → selNeighbor new = None) →
  ∀ k, sentTo (log rt ++ installs key e new ++ forgets rt key rs) k =
    if decide (k = key) then selNeighbor new else sentTo (log rt) k.
Proof.
  intros Hpub Hemp k. rewrite app_assoc.
  assert (sentTo (log rt ++ installs key e new) k = if decide (k = key) then selNeighbor new else sentTo (log rt) k) as Hi.
  { unfold installs. case_bool_decide as En; cbn [negb].
    - rewrite app_nil_r. case_decide; [subst k; by rewrite Hpub | done].
    - case_decide as Ek; [subst k | by apply sentTo_other; cbn; congruence].
      unfold sentTo. rewrite forwarding_snoc. cbn. by rewrite lookup_insert_eq. }
  unfold forgets. destruct (Nat.eqb_spec (size rs) 0) as [Hz|]; cbn [andb]; [|by rewrite app_nil_r].
  destruct (hasForget rt); [|by rewrite app_nil_r].
  destruct (decide (k = key)) as [->|Hne]; [|by rewrite sentTo_other by (cbn; congruence)].
  unfold sentTo. rewrite forwarding_snoc. cbn. rewrite lookup_delete_eq. cbn.
  by rewrite Hemp by (by apply map_size_empty_inv).
Qed.

Lemma selectRoute_pass rt key e now order :
  0 < now → 0 ≤ nextExpiryAt rt → visits order e → routes_ok (retracted rt) (routes e) →
  sentTo (log rt) key = selNeighbor (selected e) →
  pass_result rt (selectRoute nb rt key e now order) key e.
Proof.
  intros Hnow Hnx Hv Hok Hpub. destruct (selectRoute_eq nb rt key e now order Hv) as (rs & Hrs & ->).
  pose proof (choose_spec nb rt key now e order rs Hv Hrs) as Hc. set (new := choose _ _ _) in *. clearbody new.
  destruct (note_fold rt (routes e) now order (nextExpiryAt rt) Hnx) as (Hx1 & Hx2 & Hx3).
  { intros n d Hd. unfold due in Hd. destruct (settle nb rt (routes e) now n) as [r|] eqn:Er; [|done].
    injection Hd as <-. by eapply settled_ok. }
  set (x := fold_left _ _ _) in *. clearbody x.
  assert (rs = ∅ → selNeighbor new = None) as Hemp by (intros ->; by eapply selection_empty).
  assert (routes (leftEntry e rs new) = rs ∧ selected (leftEntry e rs new) = new) as [Hl1 Hl2]
    by (unfold leftEntry; by destruct (isNone _)).
  split; unfold outcome, passed; cbn [retracted entries nextExpiryAt log].
  - done.
  - intros k Hk. destruct (_ =? _)%nat; by simplify_map_eq.
  - intros e'. destruct (Nat.eqb_spec (size rs) 0) as [Hz|Hz]; [by rewrite lookup_delete_eq|].
    rewrite lookup_insert_eq. intros [= <-]. unfold entry_ok, selected_ok. rewrite Hl1, Hl2. split_and!.
    + intros n r Hr. rewrite Hrs in Hr. by eapply settled_ok.
    + destruct (map_choose rs) as (n & r & Hr); [|eauto]. intros ->. by rewrite map_size_empty in Hz.
    + by apply (selection_selected_ok rt key now _ rs new [] 0 Hc).
    + intros n r Hr. rewrite Hrs in Hr. apply (Hx3 n).
      * apply Hv. unfold settle in Hr. by destruct (routes e !! n).
      * unfold due. by rewrite Hr.
  - done.
  - destruct (_ =? _)%nat; [|by rewrite !map_size_insert].
    rewrite map_size_insert, map_size_delete. destruct (entries rt !! key); cbn; lia.
  - intros k. rewrite (sent_after rt key e rs new Hpub Hemp k). destruct (decide (k = key)); [|done].
    unfold selectedNeighbor. cbn [entries]. destruct (Nat.eqb_spec (size rs) 0) as [Hz|Hz].
    + rewrite lookup_delete_eq. cbn. apply Hemp. by apply map_size_empty_inv.
    + rewrite lookup_insert_eq. cbn. by rewrite Hl2.
Qed.

(** A pass over one prefix of a sound table, its routes already changed by the
    operation. *)
Lemma selectRoute_ok rt key e now order :
  0 < now → 0 ≤ nextExpiryAt rt → visits order e → routes_ok (retracted rt) (routes e) →
  (∀ k e, k ≠ key → entries rt !! k = Some e → entry_ok (retracted rt) e ∧ deadline_ok (nextExpiryAt rt) (routes e)) →
  Z.of_nat (size (<[key := e]> (entries rt))) ≤ maxRouteKeys →
  (∀ k, sentTo (log rt) k = if decide (k = key) then selNeighbor (selected e) else selectedNeighbor rt k) →
  table_ok (selectRoute nb rt key e now order).
Proof.
  intros Hnow Hnx Hv Hok Hoth Hsz Hfwd.
  destruct (selectRoute_pass rt key e now order Hnow Hnx Hv Hok) as [P1 P2 P3 [P4 P5] P6 P7].
  { rewrite Hfwd. by rewrite decide_True. }
  split; [| done | lia |].
  - intros k e'. rewrite P1. destruct (decide (k = key)) as [->|Hne]; [apply P3|].
    rewrite P2 by done. intros He. destruct (Hoth k e' Hne He) as [H1 H2]. split; [done|].
    intros n r Hr. destruct (H2 n r Hr). specialize (P5 ltac:(lia)). lia.
  - intros k. rewrite P7. case_decide as Ek; [by subst|]. rewrite Hfwd. rewrite decide_False by done.
    unfold selectedNeighbor. by rewrite P2.
Qed.

(** A walk over the entries. [touch] changes an entry before its pass; an entry
    the walk does not reach, or [touch] leaves alone, was sound already. *)
Record walk_ok (touch : keyEntry → option keyEntry) (orders : list (routeKey * list nat)) (rt : routeTable) : Prop := {
  wk_nodup : NoDup orders.*1;
  wk_entries : ∀ key e, entries rt !! key = Some e →
    (key ∈ orders.*1 ∧ is_Some (touch e)) ∨ (entry_ok (retracted rt) e ∧ deadline_ok (nextExpiryAt rt) (routes e));
  wk_touch : ∀ key o e e', (key, o) ∈ orders → entries rt !! key = Some e → touch e = Some e' →
    visits o e' ∧ routes_ok (retracted rt) (routes e') ∧ selected e' = selected e;
  wk_next : 0 ≤ nextExpiryAt rt;
  wk_size : Z.of_nat (size (entries rt)) ≤ maxRouteKeys;
  wk_fwd : ∀ key, sentTo (log rt) key = selectedNeighbor rt key
}.

Lemma walk_step touch key o orders rt now : 0 < now → walk_ok touch ((key, o) :: orders) rt →
  walk_ok touch orders (match entries rt !! key with
    | None => rt
    | Some e => match touch e with Some e' => selectRoute nb rt key e' now o | None => rt end end).
Proof.
  intros Hnow [Hnd He Ht Hnx Hsz Hfwd]. cbn in Hnd. apply NoDup_cons in Hnd as [Hk Hnd].
  assert ((∀ e, entries rt !! key = Some e → touch e = None) → walk_ok touch orders rt) as Hskip.
  { intros Hnone. split; try done.
    - intros k e Hke. destruct (He k e Hke) as [[Hin [e' Hse]]|]; [|by right]. cbn in Hin.
      apply elem_of_cons in Hin as [->|Hin]; [rewrite (Hnone e Hke) in Hse; done | left; eauto].
    - intros k o' e e' Hin. apply (Ht k). by right. }
  destruct (entries rt !! key) as [e|] eqn:Ek; [|by apply Hskip].
  destruct (touch e) as [e'|] eqn:Et; [|by apply Hskip; intros ? [= <-]]. clear Hskip.
  destruct (Ht key o e e' ltac:(left) Ek Et) as (Hv & Hok & Hsel).
  destruct (selectRoute_pass rt key e' now o Hnow Hnx Hv Hok) as [P1 P2 P3 [P4 P5] P6 P7].
  { rewrite Hfwd. unfold selectedNeighbor. rewrite Ek. cbn. by rewrite Hsel. }
  split; [done | | | done | |].
  - intros k e1. rewrite P1. destruct (decide (k = key)) as [->|Hne]; [intros H1; right; by apply P3|].
    rewrite P2 by done. intros H1. destruct (He k e1 H1) as [[Hin Hs]|[H2 H3]].
    + left. cbn in Hin. apply elem_of_cons in Hin as [?|?]; done.
    + right. split; [done|]. intros n r Hr. destruct (H3 n r Hr). specialize (P5 ltac:(lia)). lia.
  - intros k o' e1 e2 Hin. assert (k ≠ key) by (intros ->; apply Hk, list_elem_of_fmap; by exists (key, o')).
    rewrite P1, P2 by done. apply (Ht k). by right.
  - rewrite map_size_insert_Some in P6 by (by rewrite Ek). lia.
  - intros k. rewrite P7. case_decide as E; [by subst|]. rewrite Hfwd. unfold selectedNeighbor. by rewrite P2.
Qed.

Lemma forEach_ok touch now orders : 0 < now → ∀ rt, walk_ok touch orders rt → table_ok (forEach nb touch now rt orders).
Proof.
  intros Hnow. unfold forEach. induction orders as [|[key o] orders IH]; intros rt Hw; cbn [fold_left].
  - destruct Hw as [_ He _ Hnx Hsz Hfwd]. split; try done. intros k e Hke.
    destruct (He k e Hke) as [[Hin _]|]; [by apply elem_of_nil in Hin | done].
  - apply IH. cbn [fst snd]. by apply walk_step.
Qed.

(** The entries of the table, each with the order its routes are visited in. *)
Record walks (touch : keyEntry → option keyEntry) (rt : routeTable) (orders : list (routeKey * list nat)) : Prop := {
  walks_once : NoDup orders.*1;
  walks_all : ∀ key, is_Some (entries rt !! key) → key ∈ orders.*1;
  walks_routes : ∀ key o e e', (key, o) ∈ orders → entries rt !! key = Some e → touch e = Some e' → visits o e'
}.

Definition holding (n : nat) (e : keyEntry) : option keyEntry := match routes e !! n with Some _ => Some e | None => None end.
Definition dropping (n : nat) (e : keyEntry) : option keyEntry :=
  match routes e !! n with
  | Some _ => Some (mkEntry (delete n (routes e)) (selected e) (retractID e) (retractSeqno e))
  | None => None end.

Lemma recompute_ok rt n now orders : 0 < now → table_ok rt → walks (holding n) rt orders →
  table_ok (recomputeNeighbor nb rt n now orders).
Proof.
  intros Hnow [He Hnx Hsz Hf] [W1 W2 W3]. apply forEach_ok; [done|]. split; try done.
  - intros key e Hke. right. by apply (He key).
  - intros key o e e' Hin Hke Ht. split; [by eapply W3|]. destruct (He key e Hke) as [[Hr _] _].
    destruct (routes e !! n); [|done]. by injection Ht as <-.
Qed.

Lemma expire_ok rt n now orders : 0 < now → table_ok rt → walks (dropping n) rt orders →
  table_ok (expireNeighbor nb rt n now orders).
Proof.
  intros Hnow [He Hnx Hsz Hf] [W1 W2 W3]. apply forEach_ok; [done|].
  assert (∀ m, routes_ok (retracted rt) m → routes_ok (retracted rt ∖ {[n]}) m) as Hmono.
  { intros m Hm k r Hr. destruct (Hm k r Hr) as (? & ? & Hi). split_and!; [done | done |]. intros Hk. apply Hi. set_solver. }
  split; cbn; try done.
  - intros key e Hke. right. destruct (He key e Hke) as [(Hr & Hn & Hs) Hd]. split; [|done]. split_and!; [by apply Hmono | done | done].
  - intros key o e e' Hin Hke Ht. split; [by eapply W3|]. destruct (He key e Hke) as [[Hr _] _].
    unfold dropping in Ht. destruct (routes e !! n) as [r0|]; [|done]. injection Ht as <-. split; [|done]. apply Hmono. cbn.
    intros k r Hk. apply lookup_delete_Some in Hk as [_ Hk]. by apply Hr.
Qed.

Lemma retract_ok rt n now orders : 0 < now → table_ok rt → walks (retractEntry n now) rt orders →
  table_ok (retractNeighbor nb rt n now orders).
Proof.
  intros Hnow Hok [W1 W2 W3]. unfold retractNeighbor. case_bool_decide as Hin; [done|]. destruct Hok as [He Hnx Hsz Hf].
  apply forEach_ok; [done|]. split; cbn; try done.
  - intros key e Hke. destruct (He key e Hke) as [(Hr & Hn & Hs) Hd]. destruct (routes e !! n) as [r0|] eqn:Er.
    + left. split; [apply W2; by rewrite Hke|]. unfold retractEntry. by rewrite Er.
    + right. split; [|done]. split_and!; [|done|done]. intros k r Hk. destruct (Hr k r Hk) as (? & ? & Hi).
      split_and!; [done | done |]. intros [->%elem_of_singleton|?]%elem_of_union; [congruence | by apply Hi].
  - intros key o e e' Hino Hke Ht. split; [by eapply W3|]. destruct (He key e Hke) as [[Hr _] _].
    unfold retractEntry in Ht. destruct (routes e !! n) as [r0|] eqn:Er; [|done]. injection Ht as <-. split; [|done].
    cbn. intros k r Hk. apply lookup_insert_Some in Hk as [[<- <-]|[Hne Hk]].
    + destruct (Hr n r0 Er) as (H1 & H2 & _). cbn. split_and!; [|done|done].
      destruct (_ && _) eqn:Eh; [|done]. apply andb_prop in Eh as [_ Eh]. lia.
    + destruct (Hr k r Hk) as (? & ? & Hi). split_and!; [done | done |].
      intros [?%elem_of_singleton|?]%elem_of_union; [congruence | by apply Hi].
Qed.

(** Steps that leave the routes alone. *)
Lemma table_ok_ext rt rt' : entries rt' = entries rt → retracted rt' = retracted rt → nextExpiryAt rt' = nextExpiryAt rt →
  log rt' = log rt → table_ok rt → table_ok rt'.
Proof.
  intros E1 E2 E3 E4 [H1 H2 H3 H4]. split; [|by rewrite E3|by rewrite E1|].
  - intros key e. rewrite E1, E2, E3. apply H1.
  - intros key. rewrite E4, H4. unfold selectedNeighbor. by rewrite E1.
Qed.

Lemma observe_frame rt key adv from_ now : let rt' := observe rt key adv from_ now in
  entries rt' = entries rt ∧ retracted rt' = retracted rt ∧ nextExpiryAt rt' = nextExpiryAt rt ∧ log rt' = log rt.
Proof.
  cbn. unfold observe. destruct (_ =? _); [done|]. destruct (sources rt !! _); [|done].
  destruct (better _ _ _), (bool_decide _); done.
Qed.

Lemma sweepSources_frame now order : ∀ rt, let rt' := sweepSources rt now order in
  entries rt' = entries rt ∧ retracted rt' = retracted rt ∧ nextExpiryAt rt' = nextExpiryAt rt ∧ log rt' = log rt.
Proof.
  unfold sweepSources. induction order as [|i order IH]; intros rt; cbn; [done|].
  destruct (IH (sweepSource now rt i)) as (-> & -> & -> & ->). unfold sweepSource.
  destruct (sources rt !! i); [|done]. by destruct (_ <? _).
Qed.

Lemma sweep_ok rt now orders so : 0 < now → table_ok rt → walks Some rt orders →
  table_ok (sweepExpired nb rt now orders so).
Proof.
  intros Hnow [He Hnx Hsz Hf] [W1 W2 W3]. unfold sweepExpired.
  destruct (sweepSources_frame now so (forEach nb Some now (set_nextExpiry rt 0) orders)) as (E1 & E2 & E3 & E4).
  eapply table_ok_ext; [done..|]. apply forEach_ok; [done|]. split; cbn; try done.
  - intros key e Hke. left. split; [apply W2; by rewrite Hke | done].
  - intros key o e e' Hin Hke [= <-]. split; [by eapply W3|]. by destruct (He key e Hke) as [[Hr _] _].
Qed.

(** The routes of [key] once [n] has one. *)
Definition withRoute (rt : routeTable) (n : nat) (key : routeKey) : keyEntry :=
  mkEntry (<[n := newRoute]> (match entries rt !! key with Some e => routes e | None => ∅ end)) noSelection [] 0.

Lemma visits_insert order m n r r' s s' i i' q q' : visits order (mkEntry (<[n := r]> m) s i q) → visits order (mkEntry (<[n := r']> m) s' i' q').
Proof.
  intros [Hd Hv]. split; [done|]. intros k. rewrite Hv. cbn. destruct (decide (k = n)) as [->|].
  - by rewrite !lookup_insert_eq.
  - by rewrite !lookup_insert_ne.
Qed.

(** The routes of a prefix with one replaced, after which selection runs. *)
Lemma acquire_ok rt key e n r now order b adv : 0 < now → table_ok rt →
  entries rt !! key = Some e ∨
    (entries rt !! key = None ∧ selNeighbor (selected e) = None ∧ routes e = ∅ ∧ Z.of_nat (size (entries rt)) < maxRouteKeys) →
  visits order (mkEntry (<[n := r]> (routes e)) (selected e) (retractID e) (retractSeqno e)) →
  0 < expiresAt r ∧ 0 ≤ hold r ∧ (n ∈ retracted rt → rxMetric r = MetricInfinity) →
  table_ok (selectRoute nb (if (b : bool) then starve rt key n adv else rt) key
    (mkEntry (<[n := r]> (routes e)) (selected e) (retractID e) (retractSeqno e)) now order).
Proof.
  intros Hnow Hok He Hv Hr.
  assert (table_ok (if b then starve rt key n adv else rt) ∧ entries (if b then starve rt key n adv else rt) = entries rt ∧
    retracted (if b then starve rt key n adv else rt) = retracted rt) as ([H1 H2 H3 H4] & E & R).
  { destruct b; [|done]. split; [|done]. eapply table_ok_ext; [..|exact Hok]; done. }
  apply selectRoute_ok; [done | done | done | | | |].
  - cbn [routes]. rewrite R. intros k r' Hk. apply lookup_insert_Some in Hk as [[<- <-]|[_ Hk]]; [done|].
    destruct He as [He|(_ & _ & He & _)]; [|by rewrite He, lookup_empty in Hk].
    rewrite <- E in He. destruct (H1 key e He) as [[Hro _] _]. rewrite <- R. by apply Hro.
  - intros k e' _ Hk. by apply (H1 k).
  - rewrite E in *. destruct He as [He|(He & _ & _ & Hlt)].
    + rewrite map_size_insert_Some by (by rewrite He). lia.
    + rewrite map_size_insert_None by done. lia.
  - intros k. rewrite H4. case_decide as Ek; [subst k|done]. cbn. unfold selectedNeighbor. rewrite E.
    destruct He as [->|(-> & -> & _)]; done.
Qed.

Lemma newest_hold rt r now holdTime adv (inf : bool) :
  0 < now → 0 ≤ holdTime → 0 ≤ hold r → (inf = true → 0 < expiresAt r) → (inf = true → advMetric adv = MetricInfinity) →
  (inf = false → (rt : Prop)) → let r' :=
    if negb inf
    then mkRoute (advRouterID adv) (advSeqno adv) (advMetric adv) holdTime (now + holdTime) (smoothed r) (smoothedAt r)
    else mkRoute (advRouterID adv) (advSeqno adv) (advMetric adv) (hold r)
           (if inf && negb (rxMetric r =? MetricInfinity) && (0 <? hold r) then now + hold r else expiresAt r)
           (smoothed r) (smoothedAt r) in
  0 < expiresAt r' ∧ 0 ≤ hold r' ∧ (rxMetric r' = MetricInfinity ∨ rt).
Proof.
  intros Hnow Hh Hr He Hm Hrt. destruct inf; cbn [negb andb].
  - cbn. split_and!; [|done|left; auto]. destruct (negb _ && _); [lia | auto].
  - cbn. split_and!; [lia | done | right; auto].
Qed.

Lemma update_ok rt n key adv holdTime now order : 0 < now → 0 ≤ holdTime → table_ok rt → visits order (withRoute rt n key) →
  table_ok (update nb rt n key adv holdTime now order).
Proof.
  intros Hnow Hh Hok Hv. unfold update. set (inf := advMetric adv =? MetricInfinity).
  set (rt1 := if negb inf then forgetRetraction rt n else rt).
  assert (table_ok rt1 ∧ entries rt1 = entries rt ∧ (inf = false → n ∉ retracted rt1)) as (Hok1 & E1 & Hret).
  { unfold rt1. destruct inf; cbn [negb]; [done|]. split_and!; [|done|intros _; cbn; set_solver].
    destruct Hok as [He Hnx Hsz Hf]. split; try done. intros k e Hke. destruct (He k e Hke) as [(Hr & ? & ?) ?].
    split; [|done]. split_and!; try done. intros m r Hm. destruct (Hr m r Hm) as (? & ? & Hi). split_and!; [done|done|].
    cbn. intros Hi'. apply Hi. set_solver. }
  clearbody rt1. set (ok := feasible rt1 key adv _).
  set (rt2 := feasibleWarned rt1 key adv _).
  assert (table_ok rt2 ∧ entries rt2 = entries rt ∧ retracted rt2 = retracted rt1) as (Hok2 & E2 & R2).
  { unfold rt2, feasibleWarned. destruct (_ && _); [|done]. split; [|done]. eapply table_ok_ext; [..|exact Hok1]; done. }
  rewrite <- R2 in Hret. clearbody rt2 ok. clear rt1 Hok1 E1 R2. rewrite E2.
  destruct (entries rt !! key) as [e|] eqn:Ek.
  - destruct (routes e !! n) as [r|] eqn:Er.
    + rewrite <- E2 in Ek. apply acquire_ok; [done | done | by left | |].
      * unfold withRoute in Hv. rewrite <- E2, Ek in Hv. by eapply visits_insert.
      * destruct (ok_entries _ Hok2 key e Ek) as [[Hro _] _]. destruct (Hro n r Er) as (Hr1 & Hr2 & _).
        destruct (newest_hold (n ∉ retracted rt2) r now holdTime adv inf) as (Q1 & Q2 & Q3); try done.
        { unfold inf. by intros ?%Z.eqb_eq. }
        split_and!; [done | done |]. intros Hin. by destruct Q3.
    + destruct (negb ok || inf || (holdTime <=? 0)) eqn:Eg; [done|]. bool_props.
      rewrite <- E2 in Ek. apply acquire_ok; [done | done | by left | |].
      * unfold withRoute in Hv. rewrite <- E2, Ek in Hv. by eapply visits_insert.
      * match goal with H : inf = false |- _ => rewrite H in * end. cbn. split_and!; [lia | done |].
        intros Hin. by destruct (Hret ltac:(done)).
  - destruct (negb ok || inf || (holdTime <=? 0)) eqn:Eg; [done|]. bool_props.
    destruct (Z.leb_spec maxRouteKeys (Z.of_nat (size (entries rt)))) as [Hfull|Hroom].
    { eapply table_ok_ext; [..|exact Hok2]; done. }
    rewrite <- E2 in Ek. apply acquire_ok; [done | done | right; split_and!; try done; by rewrite E2 | |].
    + unfold withRoute in Hv. rewrite <- E2, Ek in Hv. by eapply visits_insert.
    + match goal with H : inf = false |- _ => rewrite H in * end. cbn. split_and!; [lia | done |].
      intros Hin. by destruct (Hret ltac:(done)).
Qed.

End pass.

(** ** Reachable tables *)

(** One operation of the table. The neighbors' states [nb] are whatever they are
    when it runs, and Go picks the order each map is visited in. *)
Inductive step : routeTable → routeTable → Prop :=
| StepUpdate nb rt n key adv holdTime now order :
    0 < now → 0 ≤ holdTime → visits order (withRoute rt n key) → step rt (update nb rt n key adv holdTime now order)
| StepRecompute nb rt n now orders :
    0 < now → walks (holding n) rt orders → step rt (recomputeNeighbor nb rt n now orders)
| StepExpire nb rt n now orders :
    0 < now → walks (dropping n) rt orders → step rt (expireNeighbor nb rt n now orders)
| StepRetract nb rt n now orders :
    0 < now → walks (retractEntry n now) rt orders → step rt (retractNeighbor nb rt n now orders)
| StepSweep nb rt now orders sourceOrder :
    0 < now → walks Some rt orders → step rt (sweepExpired nb rt now orders sourceOrder)
| StepObserve rt key adv from_ now : step rt (observe rt key adv from_ now)
| StepTakeDirty rt : step rt (takeDirty rt).1
| StepTakeStarved rt : step rt (takeStarved rt).1.

Lemma step_ok rt rt' : table_ok rt → step rt rt' → table_ok rt'.
Proof.
  intros Hok. destruct 1; [by apply update_ok | by apply recompute_ok | by apply expire_ok | by apply retract_ok | by apply sweep_ok |..].
  - destruct (observe_frame rt key adv from_ now) as (? & ? & ? & ?). by eapply table_ok_ext.
  - eapply table_ok_ext; [..|exact Hok]; done.
  - eapply table_ok_ext; [..|exact Hok]; done.
Qed.

Lemma reachable_ok rt rt' : table_ok rt → rtc step rt rt' → table_ok rt'.
Proof. intros Hok. induction 1 as [|rt rt1 rt' Hs _ IH]; [done|]. by apply IH, (step_ok rt). Qed.

(** C40: the table stays sound. In every table the operations reach, the deadline
    the run loop sleeps on is never later than the expiry of any route, there are
    at most [maxRouteKeys] prefixes and each has a route, a prefix's selection
    names a route it holds at a finite metric, with that route's origin and
    sequence number, and a neighbor remembered as retracted has no route at a
    finite metric, so skipping its next wildcard retraction loses nothing. *)
Theorem table_sound t g c hf rt :
  rtc step (newRouteTable t g c hf) rt →
  Z.of_nat (size (entries rt)) ≤ maxRouteKeys ∧
  ∀ key e, entries rt !! key = Some e →
    (∃ n r, routes e !! n = Some r) ∧ selected_ok e ∧
    ∀ n r, routes e !! n = Some r →
      0 < nextExpiry rt ≤ expiresAt r ∧ (n ∈ retracted rt → rxMetric r = MetricInfinity).
Proof.
  intros Hr. destruct (reachable_ok _ _ (new_table_ok t g c hf) Hr) as [He _ Hsz _]. split; [done|].
  intros key e Hke. destruct (He key e Hke) as [(H1 & H2 & H3) H4]. split_and!; [done | done |].
  intros n r Hn. split; [by apply (H4 n) | by apply (H1 n)].
Qed.

(** the forwarding table is the selection. Replaying every call of the
    install and forget callbacks gives, for every prefix, exactly the next hop the
    table has selected: no change of selection goes unpublished, none is published
    that was not made, and a flushed prefix is sent nowhere. *)
Theorem forwarding_is_selection t g c hf rt :
  rtc step (newRouteTable t g c hf) rt → ∀ key, sentTo (log rt) key = selectedNeighbor rt key.
Proof. intros Hr. by destruct (reachable_ok _ _ (new_table_ok t g c hf) Hr) as [_ _ _ Hf]. Qed.

(** ** The deadline after a sweep *)

Section exact.
Variable nb : nat → neighborState.

Lemma note_attained rt m now order : ∀ x, let x' := fold_left (noteStep nb rt m now) order x in
  x' = x ∨ ∃ n, n ∈ order ∧ due nb rt m now n = Some x'.
Proof.
  induction order as [|n order IH]; intros x; cbn [fold_left]; [by left|].
  destruct (IH (noteStep nb rt m now x n)) as [E|(k & Hk & Hd)]; [|right; exists k; split; [by right | done]].
  rewrite E. clear E IH. unfold noteStep. destruct (due nb rt m now n) as [d|] eqn:Ed; [|by left].
  unfold earlier. destruct (_ || _); [right; exists n; split; [left | done] | by left].
Qed.

(** Some route outside [K] is due exactly at the table's deadline. *)
Definition attained (K : list routeKey) (rt : routeTable) : Prop :=
  nextExpiryAt rt = 0 ∨
  ∃ key e n r, (key ∉ K) ∧ entries rt !! key = Some e ∧ routes e !! n = Some r ∧ expiresAt r = nextExpiryAt rt.

Lemma selectRoute_attained rt key e now order K : visits order e → (key ∉ K) → attained (key :: K) rt →
  attained K (selectRoute nb rt key e now order).
Proof.
  intros Hv Hk Ha. destruct (selectRoute_eq nb rt key e now order Hv) as (rs & Hrs & ->).
  set (new := choose _ _ _). clearbody new.
  pose proof (note_attained rt (routes e) now order (nextExpiryAt rt)) as Hn. set (x := fold_left _ _ _) in *. clearbody x.
  unfold attained, outcome, passed; cbn [nextExpiryAt entries].
  destruct Hn as [->|(n & Hin & Hd)].
  - destruct Ha as [?|(k & e' & n & r & Hki & He & Hr & Hx)]; [by left|]. right. exists k, e', n, r.
    apply not_elem_of_cons in Hki as [Hne Hki]. split_and!; try done.
    destruct (_ =? _)%nat; by simplify_map_eq.
  - right. unfold due in Hd. destruct (settle nb rt (routes e) now n) as [r|] eqn:Er; [|done].
    exists key, (leftEntry e rs new), n, r. assert (rs !! n = Some r) as Hr by by rewrite Hrs.
    destruct (Nat.eqb_spec (size rs) 0) as [Hz|_].
    { apply map_size_empty_inv in Hz. by rewrite Hz, lookup_empty in Hr. }
    rewrite lookup_insert_eq. split_and!; [done | done | | by injection Hd].
    unfold leftEntry. by destruct (isNone _).
Qed.

Lemma forEach_attained now orders : 0 < now → ∀ rt, walk_ok Some orders rt → attained orders.*1 rt →
  attained [] (forEach nb Some now rt orders).
Proof.
  intros Hnow. unfold forEach. induction orders as [|[key o] orders IH]; intros rt Hw Ha; cbn [fold_left]; [done|].
  apply IH; cbn [fst snd].
  - by apply (walk_step nb Some key o orders).
  - pose proof (wk_nodup _ _ _ Hw) as Hnd. cbn in Hnd. apply NoDup_cons in Hnd as [Hk _].
    destruct (entries rt !! key) as [e|] eqn:Ek.
    + apply selectRoute_attained; [|done|done]. by apply (wk_touch _ _ _ Hw key o e e); [left | done |].
    + destruct Ha as [?|(k & e' & n & r & Hki & He & Hr & Hx)]; [by left|]. right. exists k, e', n, r.
      cbn in Hki. apply not_elem_of_cons in Hki as [_ Hki]. done.
Qed.

(** the sweep makes the deadline exact again. After it, the deadline is the
    earliest expiry in the table: no route is due before it and one is due at it,
    or there is no route and no deadline. *)
Theorem sweep_deadline_exact t g c hf rt now orders sourceOrder :
  rtc step (newRouteTable t g c hf) rt → 0 < now → walks Some rt orders →
  let rt' := sweepExpired nb rt now orders sourceOrder in
  (∀ key e n r, entries rt' !! key = Some e → routes e !! n = Some r → 0 < nextExpiry rt' ≤ expiresAt r) ∧
  ((nextExpiry rt' = 0 ∧ entries rt' = ∅) ∨
   ∃ key e n r, entries rt' !! key = Some e ∧ routes e !! n = Some r ∧ expiresAt r = nextExpiry rt').
Proof.
  intros Hr Hnow Hw rt'. pose proof (reachable_ok _ _ (new_table_ok t g c hf) Hr) as Hok.
  pose proof (sweep_ok nb rt now orders sourceOrder Hnow Hok Hw) as Hok'. fold rt' in Hok'.
  assert (∀ key e n r, entries rt' !! key = Some e → routes e !! n = Some r → 0 < nextExpiry rt' ≤ expiresAt r) as Hlow.
  { intros key e n r He Hn. destruct (ok_entries _ Hok' key e He) as [_ Hd]. by apply (Hd n). }
  split; [done|].
  destruct (forEach_attained now orders Hnow (set_nextExpiry rt 0)) as [Hz|(key & e & n & r & _ & He & Hn & Hx)].
  - destruct Hok as [He Hnx Hsz Hf], Hw as [W1 W2 W3]. split; cbn; try done.
    + intros key e Hke. left. split; [apply W2; by rewrite Hke | done].
    + intros key o e e' Hin Hke [= <-]. split; [by eapply W3|]. by destruct (He key e Hke) as [[Hro _] _].
  - by left.
  - left. unfold rt', sweepExpired, nextExpiry in *.
    destruct (sweepSources_frame now sourceOrder (forEach nb Some now (set_nextExpiry rt 0) orders)) as (E1 & _ & E3 & _).
    rewrite E1, E3 in *. split; [done|]. apply map_empty. intros key. apply eq_None_not_Some. intros [e He].
    destruct (ok_entries _ Hok' key e ltac:(by rewrite E1)) as [(_ & (n & r & Hn) & _) _].
    specialize (Hlow key e n r He Hn). lia.
  - right. exists key, e, n, r. unfold rt', sweepExpired, nextExpiry in *.
    destruct (sweepSources_frame now sourceOrder (forEach nb Some now (set_nextExpiry rt 0) orders)) as (E1 & _ & E3 & _).
    rewrite E1, E3. done.
Qed.

End exact.
End table.
