(* ===== verification/BabelRouteWitness.v ===== *)
(** * Concrete route tables

    The theorems on the route and source tables at a small mesh: two neighbors
    that announce the same prefix. The smoothed metric is taken in whole numbers,
    with a decay that halves the excess. *)

From S2P Require Import Prelude Netip BabelTlv BabelRaw BabelMetric BabelRoute BabelFeasible BabelSelect BabelTable.

#[local] Instance wholeFloat : Float := {
  F := Z; fzero := 0; fofZ := λ z, z; fleb := Z.leb; fltb := Z.ltb; fmax := Z.max;
  fdamp := λ cost smoothed _ _, cost + (smoothed - cost) / 2
}.

Definition routerA : list Z := replicate 7 0 ++ [10].
Definition keyA : routeKey := mkKey PrefixZero (AddrPrefix (Addr4 (10 * 2 ^ 24)) 8).

(** A neighbor that answers, and reports [cost] for the link. *)
Definition peerAt (id : string) (cost : Z) : neighborState :=
  mkNeighbor id AddrInvalid true Second (4 * Second) 0 0 noHistory 0 true 0 0 false true 0 ∅
    cost true (100 * Second) 0 false 0 0 ∅.

Definition mesh (n : nat) : neighborState := if (n =? 1)%nat then peerAt "a" 96 else peerAt "b" 96.

Definition routeVia (metric expires : Z) : routeInfo := mkRoute routerA 7 metric (20 * Second) expires 0 0.

(** Two routes of the same cost, one with a cheaper announcement. *)
Definition entryA : keyEntry :=
  mkEntry (<[1%nat := routeVia 30 (50 * Second)]> (<[2%nat := routeVia 10 (50 * Second)]> ∅)) noSelection (replicate 8 0) 0.

Definition table0 : routeTable := newRouteTable (4 * Second) 16 DefaultCostParams true.

(** Two advertisements of one source, one of another and a sweep. *)
Definition told : list sourceOp :=
  [OpObserve keyA (mkAdv routerA 5 100) "a" Second; OpSweep (2 * Second) [mkSourceKey keyA routerA];
   OpObserve keyA (mkAdv (replicate 8 9) 1 1) "b" (2 * Second); OpObserve keyA (mkAdv routerA 5 90) "b" (3 * Second)].

Lemma feasible_beats_advertised_witness :
  feasible (fold_left sourceStep told table0) keyA (mkAdv routerA 5 50) "a" = true ∧ closer 0 5 50 5 90.
Proof.
  assert (feasible (fold_left sourceStep told table0) keyA (mkAdv routerA 5 50) "a" = true) as Hf by (vm_compute; reflexivity).
  split; [exact Hf|].
  apply (feasible_beats_advertised 0 keyA Second (4 * Second) 16 DefaultCostParams true told (4 * Second) (mkAdv routerA 5 50) "a") with (a := mkAnn 5 90 "b" (3 * Second)).
  - vm_compute. repeat split; congruence.
  - vm_compute omap. repeat constructor; done.
  - done.
  - done.
  - exact Hf.
  - vm_compute omap. right. left.
  - done.
Defined.

Lemma entryA_visits : visits [1%nat; 2%nat] entryA ∧ visits [2%nat; 1%nat] entryA.
Proof.
  assert (∀ n, n ∈ [1%nat; 2%nat] ↔ is_Some (routes entryA !! n)) as Hn.
  { intros n. cbn [entryA routes]. rewrite !lookup_insert_is_Some', lookup_empty, is_Some_alt. set_solver. }
  split; (split; [apply (bool_decide_unpack _); vm_compute; done|]); intros n; rewrite <- Hn; set_solver.
Qed.

Lemma select_sound_witness :
  let rt' := selectRoute mesh table0 keyA entryA (10 * Second) [1%nat; 2%nat] in
  (selNeighbor ∘ selected <$> entries rt' !! keyA) = Some (Some 2%nat) ∧
  match entries rt' !! keyA with
  | None => ∀ n, settle mesh table0 (routes entryA) (10 * Second) n = None
  | Some e' => (∀ n, routes e' !! n = settle mesh table0 (routes entryA) (10 * Second) n) ∧
      (∃ n r, routes e' !! n = Some r) ∧ selection_spec mesh rt' keyA (10 * Second) None (routes e') (selected e')
  end.
Proof.
  intros rt'. split; [vm_compute; reflexivity|].
  apply (select_sound mesh table0 keyA entryA (10 * Second) [1%nat; 2%nat]), entryA_visits.
Defined.

Lemma select_order_irrelevant_witness :
  let t1 := selectRoute mesh table0 keyA entryA (10 * Second) [1%nat; 2%nat] in
  let t2 := selectRoute mesh table0 keyA entryA (10 * Second) [2%nat; 1%nat] in
  set_starved t1 [] = set_starved t2 [] ∧ starved t1 ≡ₚ starved t2.
Proof.
  apply (select_order_irrelevant mesh table0 keyA entryA (10 * Second) [1%nat; 2%nat] [2%nat; 1%nat]); [apply entryA_visits..|].
  intros n n'. cbn [entryA routes]. rewrite !lookup_insert_is_Some', !lookup_empty, !is_Some_alt.
  intros [<-|[<-|[]]] [<-|[<-|[]]]; done.
Defined.

(** A table after one announcement. *)
Definition table1 : routeTable := update mesh table0 1 keyA (mkAdv routerA 7 30) (20 * Second) (10 * Second) [1%nat].

Lemma table1_reached : rtc step table0 table1.
Proof.
  apply rtc_once. apply (StepUpdate mesh table0 1 keyA (mkAdv routerA 7 30) (20 * Second) (10 * Second) [1%nat]); try done.
  split; [apply NoDup_singleton|]. intros n. cbn. rewrite lookup_insert_is_Some', lookup_empty, is_Some_alt. set_solver.
Qed.

Lemma table_sound_witness :
  size (entries table1) = 1%nat ∧ nextExpiry table1 = 30 * Second ∧
  ∀ key e, entries table1 !! key = Some e →
    (∃ n r, routes e !! n = Some r) ∧ selected_ok e ∧
    ∀ n r, routes e !! n = Some r →
      0 < nextExpiry table1 ≤ expiresAt r ∧ (n ∈ retracted table1 → rxMetric r = MetricInfinity).
Proof.
  split; [vm_compute; reflexivity|]. split; [vm_compute; reflexivity|].
  apply (table_sound (4 * Second) 16 DefaultCostParams true table1 table1_reached).
Defined.

Lemma forwarding_is_selection_witness :
  selectedNeighbor table1 keyA = Some 1%nat ∧ ∀ key, sentTo (log table1) key = selectedNeighbor table1 key.
Proof.
  split; [vm_compute; reflexivity|].
  apply (forwarding_is_selection (4 * Second) 16 DefaultCostParams true table1 table1_reached).
Defined.

Lemma table1_keys : dom (entries table1) = {[keyA]}.
Proof. apply (bool_decide_unpack _). vm_compute. exact I. Qed.

Lemma table1_routes : (dom ∘ routes <$> entries table1 !! keyA) = Some {[1%nat]}.
Proof. apply (bool_decide_unpack _). vm_compute. exact I. Qed.

Lemma sweep_deadline_exact_witness :
  let rt' := sweepExpired mesh table1 (40 * Second) [(keyA, [1%nat])] [] in
  nextExpiry rt' = 60 * Second ∧
  (∀ key e n r, entries rt' !! key = Some e → routes e !! n = Some r → 0 < nextExpiry rt' ≤ expiresAt r).
Proof.
  intros rt'. split; [vm_compute; reflexivity|].
  apply (sweep_deadline_exact mesh (4 * Second) 16 DefaultCostParams true table1 (40 * Second) [(keyA, [1%nat])] []
    table1_reached); [done|].
  split.
  - apply NoDup_singleton.
  - intros key Hk%elem_of_dom. rewrite table1_keys in Hk. apply elem_of_singleton in Hk as ->. left.
  - intros key o e e' [= -> ->]%list_elem_of_singleton Hk [= <-]. pose proof table1_routes as Hd. rewrite Hk in Hd.
    injection Hd as Hd. split; [apply NoDup_singleton|]. intros n. rewrite <- elem_of_dom, Hd.
    by rewrite list_elem_of_singleton, elem_of_singleton.
Defined.
