(* ===== verification/BabelHeld.v ===== *)
(** * What the route table may come to hold

    The operations of the route table only ever add the route an update brings;
    everything else they do moves, ages or drops what is there. So a property of
    the routes a table holds (whose they are, under which prefix, from which
    origin), which every update respects, holds of every table; and an operation
    touches no prefix the table does not have, in the forwarding table either. *)

From S2P Require Import Prelude Netip BabelTlv BabelRaw BabelMetric BabelRoute BabelSelect BabelTable.

Section held.
Context {FL : Float} (nb : nat → neighborState).

(** [G key n id]: [n] may have a route to [key] from the origin [id]; [H key id]:
    [key] may be advertised or asked about with [id]. *)
Variables (G : routeKey → nat → list Z → Prop) (H : routeKey → list Z → Prop).
Hypothesis GH : ∀ key n id, G key n id → H key id.

Definition entry_good (key : routeKey) (e : keyEntry) : Prop :=
  (∀ n r, routes e !! n = Some r → G key n (riRouterID r)) ∧ H key (retractID e).

Record table_good (rt : routeTable) : Prop := {
  tg_entries : ∀ key e, entries rt !! key = Some e → entry_good key e;
  tg_starved : ∀ r, r ∈ starved rt → H (starveKey r) (starveRouterID r)
}.

Lemma settle_id rt m now n r : settle nb rt m now n = Some r → ∃ r0, m !! n = Some r0 ∧ riRouterID r = riRouterID r0.
Proof.
  unfold settle, settled, aged. destruct (m !! n) as [r0|]; [|done]. cbn. intros Hs. exists r0. split; [done|].
  destruct (now <? expiresAt r0); cbn in Hs.
  - injection Hs as <-. by destruct (_ =? _).
  - destruct (rxMetric r0 =? MetricInfinity); [done|]. cbn in Hs. injection Hs as <-. by destruct (_ =? _).
Qed.

Lemma choose_held e b i n : selNeighbor (choose e b i) = Some n →
  ∃ r, routes e !! n = Some r ∧ selRouterID (choose e b i) = riRouterID r.
Proof.
  assert (∀ m c, selNeighbor (selectionFor e m c) = Some n → ∃ r, routes e !! n = Some r ∧ selRouterID (selectionFor e m c) = riRouterID r) as Hs.
  { intros m c. unfold selectionFor. destruct (routes e !! m) as [r|] eqn:E; [|done]. cbn. intros [= <-]. by exists r. }
  unfold choose. destruct b as [b|]; [|done]. destruct i as [i|]; [|apply Hs].
  destruct (bool_decide _); [apply Hs|]. destruct (_ && _); apply Hs.
Qed.

(** Nothing changes under a prefix outside [K], in the table or in what is
    forwarded. *)
Definition untouched (K : routeKey → Prop) (rt rt' : routeTable) : Prop :=
  ∀ key, ¬ K key → entries rt' !! key = entries rt !! key ∧ forwarding (log rt') !! key = forwarding (log rt) !! key.

Lemma untouched_trans (K : routeKey → Prop) rt1 rt2 rt3 : untouched K rt1 rt2 → untouched K rt2 rt3 → untouched K rt1 rt3.
Proof. intros H1 H2 key Hk. destruct (H1 key Hk) as [E1 E2], (H2 key Hk) as [E3 E4]. by rewrite E3, E4. Qed.

Lemma untouched_same K rt rt' : entries rt' = entries rt → log rt' = log rt → untouched K rt rt'.
Proof. intros E1 E2 key _. by rewrite E1, E2. Qed.

Lemma untouched_weaken (K K' : routeKey → Prop) rt rt' : (∀ key, K key → K' key) → untouched K rt rt' → untouched K' rt rt'.
Proof. intros HK Hu key Hk. apply Hu. auto. Qed.

Lemma forwarding_event l ev key : (match ev with EInstall k _ | EForget k => k end) ≠ key →
  forwarding (l ++ [ev]) !! key = forwarding l !! key.
Proof. intros Hk. rewrite forwarding_snoc. destruct ev; cbn in *; by simplify_map_eq. Qed.

Lemma selectRoute_good rt key e now order : visits order e → table_good rt → entry_good key e →
  let rt' := selectRoute nb rt key e now order in table_good rt' ∧ untouched (λ k, k = key) rt rt'.
Proof.
  intros Hv [Te Ts] [Er Ei]. destruct (selectRoute_eq nb rt key e now order Hv) as (rs & Hrs & ->).
  set (new := choose _ _ _). set (us := filter _ _).
  assert (∀ n r, rs !! n = Some r → G key n (riRouterID r)) as Hg.
  { intros n r Hr. rewrite Hrs in Hr. apply settle_id in Hr as (r0 & H0 & ->). by apply Er. }
  assert (H key (retractID (leftEntry e rs new))) as Hi.
  { unfold leftEntry. destruct (selNeighbor new) as [n|] eqn:En; cbn; [|done].
    apply choose_held in En as (r & Hr & Hid). cbn in Hr. fold new in Hid. rewrite Hid. by eapply GH, Hg. }
  unfold outcome. split; [split|].
  - intros k e' Hk. cbn [entries passed] in Hk. destruct (_ =? _)%nat.
    + apply lookup_delete_Some in Hk as [_ Hk]. by apply Te.
    + apply lookup_insert_Some in Hk as [[<- <-]|[_ Hk]]; [|by apply Te]. split; [|done].
      unfold leftEntry. by destruct (isNone _).
  - cbn [starved passed]. intros r [Hr|Hr]%elem_of_app; [by apply Ts|]. unfold asks in Hr. destruct (_ && _); [|by apply not_elem_of_nil in Hr].
    apply list_elem_of_omap in Hr as (n & _ & Hn). unfold requestFor in Hn. destruct (rs !! n) as [r0|] eqn:E0; [|done].
    injection Hn as <-. cbn. by eapply GH, Hg.
  - intros k Hk. cbn [entries log passed]. split; [destruct (_ =? _)%nat; by simplify_map_eq|].
    assert (∀ l, forwarding ((l ++ installs key e new) ++ forgets rt key rs) !! k = forwarding l !! k) as Hl.
    { intros l. unfold forgets, installs. destruct (_ && _); destruct (negb _); rewrite ?app_nil_r, ?forwarding_event; done || (cbn; congruence). }
    by rewrite app_assoc.
Qed.

(** A walk, of whatever part of the table, that changes entries only within
    [entry_good]. *)
Lemma forEach_good touch now orders : NoDup orders.*1 → ∀ rt,
  (∀ key o e e', (key, o) ∈ orders → entries rt !! key = Some e → touch e = Some e' → visits o e' ∧ (entry_good key e → entry_good key e')) →
  table_good rt →
  let rt' := forEach nb touch now rt orders in
  table_good rt' ∧ untouched (λ k, is_Some (entries rt !! k)) rt rt'.
Proof.
  unfold forEach. induction orders as [|[key o] orders IH]; intros Hnd rt Ht Hok; cbn [fold_left]; [done|].
  apply NoDup_cons in Hnd as [Hnin Hnd].
  assert (∃ rt1, fold_left (λ rt ko, match entries rt !! ko.1 with
      | Some e => match touch e with Some e' => selectRoute nb rt ko.1 e' now ko.2 | None => rt end | None => rt end) orders
      (match entries rt !! key with
       | Some e => match touch e with Some e' => selectRoute nb rt key e' now o | None => rt end | None => rt end) =
    fold_left (λ rt ko, match entries rt !! ko.1 with
      | Some e => match touch e with Some e' => selectRoute nb rt ko.1 e' now ko.2 | None => rt end | None => rt end) orders rt1 ∧
    table_good rt1 ∧ untouched (λ k, k = key ∧ is_Some (entries rt !! k)) rt rt1) as (rt1 & E & Hg & Hu).
  { eexists. split; [reflexivity|]. destruct (entries rt !! key) as [e|] eqn:Ek; [|by split].
    destruct (touch e) as [e'|] eqn:Et; [|by split].
    destruct (Ht key o e e') as [Hv He]; [apply list_elem_of_here | done | done |].
    destruct (selectRoute_good rt key e' now o Hv Hok) as [H1 H2]; [by apply He, (tg_entries _ Hok)|].
    split; [done|]. eapply untouched_weaken; [|done]. intros k ->. by rewrite Ek. }
  cbn [fst snd] in *. rewrite E.
  destruct (IH Hnd rt1) as [G1 G2]; [|done|].
  - intros k o' e0 e1 Hin Hk. apply (Ht k o'); [by apply list_elem_of_further|].
    assert (k ≠ key) as Hne by (intros ->; apply Hnin; apply list_elem_of_fmap; by exists (key, o')).
    destruct (Hu k) as [<- _]; [by intros [? _] | done].
  - split; [done|]. intros k Hk. destruct (Hu k) as [E1 E2]; [by intros [_ ?]|]. destruct (G2 k) as [E3 E4]; [by rewrite E1|].
    by rewrite E3, E4.
Qed.

Lemma walk_good touch now rt orders : walks touch rt orders → (∀ key e e', touch e = Some e' → entry_good key e → entry_good key e') →
  table_good rt → let rt' := forEach nb touch now rt orders in
  table_good rt' ∧ untouched (λ k, is_Some (entries rt !! k)) rt rt'.
Proof.
  intros [W1 W2 W3] Ht Hok. apply forEach_good; [done | | done]. intros key o e e' Hin Hk He. split; [by eapply W3 | by apply Ht].
Qed.

Lemma table_good_ext rt rt' : entries rt' = entries rt → starved rt' = starved rt → table_good rt → table_good rt'.
Proof. intros E1 E2 [T1 T2]. split; [rewrite E1; exact T1 | rewrite E2; exact T2]. Qed.

Lemma recompute_good rt n now orders : walks (holding n) rt orders → table_good rt →
  let rt' := recomputeNeighbor nb rt n now orders in table_good rt' ∧ untouched (λ k, is_Some (entries rt !! k)) rt rt'.
Proof. intros Hw. apply walk_good; [done|]. intros key e e'. unfold holding. destruct (routes e !! n); [|done]. by intros [= <-]. Qed.

Lemma expire_good rt n now orders : walks (dropping n) rt orders → table_good rt →
  let rt' := expireNeighbor nb rt n now orders in table_good rt' ∧ untouched (λ k, is_Some (entries rt !! k)) rt rt'.
Proof.
  intros [W1 W2 W3] Hok. pose proof (walk_good (dropping n) now (set_retracted rt (retracted rt ∖ {[n]})) orders) as Hw.
  apply Hw; [by split | | by apply (table_good_ext rt)].
  intros key e e'. unfold dropping. destruct (routes e !! n); [|done]. intros [= <-] [H1 H2]. split; [|done].
  cbn. intros m r' Hm. apply lookup_delete_Some in Hm as [_ Hm]. by apply H1.
Qed.

Lemma retract_good rt n now orders : walks (retractEntry n now) rt orders → table_good rt →
  let rt' := retractNeighbor nb rt n now orders in table_good rt' ∧ untouched (λ k, is_Some (entries rt !! k)) rt rt'.
Proof.
  intros [W1 W2 W3] Hok. unfold retractNeighbor. case_bool_decide; [done|].
  pose proof (walk_good (retractEntry n now) now (set_retracted rt ({[n]} ∪ retracted rt)) orders) as Hw.
  apply Hw; [by split | | by apply (table_good_ext rt)].
  intros key e e'. unfold retractEntry. destruct (routes e !! n) as [r|] eqn:E; [|done]. intros [= <-] [H1 H2]. split; [|done].
  cbn. intros m r' Hm. apply lookup_insert_Some in Hm as [[<- <-]|[_ Hm]]; [|by apply H1]. cbn. by apply H1.
Qed.

Lemma sweepSources_starved now order : ∀ rt, starved (sweepSources rt now order) = starved rt.
Proof.
  unfold sweepSources. induction order as [|i order IH]; intros rt; cbn; [done|]. rewrite IH. unfold sweepSource.
  destruct (sources rt !! i); [|done]. by destruct (_ <? _).
Qed.

Lemma sweep_good rt now orders so : walks Some rt orders → table_good rt →
  let rt' := sweepExpired nb rt now orders so in table_good rt' ∧ untouched (λ k, is_Some (entries rt !! k)) rt rt'.
Proof.
  intros [W1 W2 W3] Hok. unfold sweepExpired.
  destruct (sweepSources_frame now so (forEach nb Some now (set_nextExpiry rt 0) orders)) as (E1 & _ & _ & E4).
  destruct (walk_good Some now (set_nextExpiry rt 0) orders) as [G1 G2]; [by split | by intros ??? [= <-] | by apply (table_good_ext rt) |].
  split.
  - eapply table_good_ext; [exact E1 | | exact G1]. apply sweepSources_starved.
  - intros k Hk. destruct (G2 k Hk) as [F1 F2]. cbn zeta. by rewrite E1, E4.
Qed.

Lemma observe_good rt key adv from_ now : table_good rt →
  let rt' := observe rt key adv from_ now in table_good rt' ∧ entries rt' = entries rt ∧ log rt' = log rt ∧ starved rt' = starved rt ∧ dirty rt' = dirty rt.
Proof.
  intros Hok. assert (let rt' := observe rt key adv from_ now in entries rt' = entries rt ∧ log rt' = log rt ∧ starved rt' = starved rt ∧ dirty rt' = dirty rt) as Hf.
  { cbn. unfold observe. destruct (_ =? _); [done|]. destruct (sources rt !! _); [|done]. destruct (better _ _ _), (bool_decide _); done. }
  destruct Hf as (E1 & E2 & E3 & E4). split; [by apply (table_good_ext rt) | done].
Qed.

Hypothesis H0 : ∀ key n id, G key n id → H key (replicate 8 0).

Lemma acquire_good rt key e n r now order b adv : visits order (mkEntry (<[n := r]> (routes e)) (selected e) (retractID e) (retractSeqno e)) →
  table_good rt → entry_good key e → G key n (riRouterID r) → H key (advRouterID adv) →
  let rt' := selectRoute nb (if (b : bool) then starve rt key n adv else rt) key
    (mkEntry (<[n := r]> (routes e)) (selected e) (retractID e) (retractSeqno e)) now order in
  table_good rt' ∧ untouched (λ k, k = key) rt rt'.
Proof.
  intros Hv [T1 T2] [E1 E2] Hr Ha. set (rt1 := if b then _ else _).
  assert (table_good rt1 ∧ entries rt1 = entries rt ∧ log rt1 = log rt) as (Hg & Ee & El).
  { unfold rt1. destruct b; [|done]. split; [|done]. split; [done|]. cbn. intros q [Hq|Hq]%elem_of_app; [by apply T2|].
    apply list_elem_of_singleton in Hq as ->. done. }
  destruct (selectRoute_good rt1 key _ now order Hv Hg) as [G1 G2].
  - split; [|done]. cbn. intros m r' Hm. apply lookup_insert_Some in Hm as [[<- <-]|[_ Hm]]; auto.
  - split; [done|]. intros k Hk. destruct (G2 k Hk) as [F1 F2]. cbn zeta. by rewrite F1, F2, Ee, El.
Qed.

Lemma update_good rt n key adv holdTime now order : visits order (withRoute rt n key) → table_good rt → G key n (advRouterID adv) →
  let rt' := update nb rt n key adv holdTime now order in table_good rt' ∧ untouched (λ k, k = key) rt rt'.
Proof.
  intros Hv Hok Hg. unfold update. set (inf := advMetric adv =? MetricInfinity).
  set (rt1 := feasibleWarned (if negb inf then forgetRetraction rt n else rt) key adv (peerID (nb n))).
  assert (table_good rt1 ∧ entries rt1 = entries rt ∧ log rt1 = log rt) as (Hok1 & E1 & L1).
  { unfold rt1, feasibleWarned. destruct (negb inf), (_ && _); (split; [by apply (table_good_ext rt) | done]). }
  clearbody rt1. set (ok := feasible _ _ _ _). clearbody ok. cbv zeta. rewrite E1.
  assert (∀ rt', table_good rt' ∧ untouched (λ k, k = key) rt1 rt' → table_good rt' ∧ untouched (λ k, k = key) rt rt') as Hback.
  { intros rt' [? Hu]. split; [done|]. intros k Hk. destruct (Hu k Hk) as [F1 F2]. by rewrite F1, F2, E1, L1. }
  destruct (entries rt !! key) as [e|] eqn:Ek.
  - assert (entry_good key e) as He by (apply (tg_entries _ Hok1); by rewrite E1).
    assert (∀ r r' b, (∀ o r0, visits o (mkEntry (<[n := newRoute]> (routes e)) noSelection [] 0) →
       visits o (mkEntry (<[n := r0]> (routes e)) (selected e) (retractID e) (retractSeqno e))) → r = r' → G key n (riRouterID r') →
       let rt' := selectRoute nb (if (b : bool) then starve rt1 key n adv else rt1) key
         (mkEntry (<[n := r]> (routes e)) (selected e) (retractID e) (retractSeqno e)) now order in
       table_good rt' ∧ untouched (λ k, k = key) rt rt') as Hacq.
    { intros r r' b Hvi -> Hr. apply Hback. apply acquire_good; [|done|done|done|by eapply GH].
      apply Hvi. by unfold withRoute in Hv; rewrite Ek in Hv. }
    assert (∀ o r0, visits o (mkEntry (<[n := newRoute]> (routes e)) noSelection [] 0) →
       visits o (mkEntry (<[n := r0]> (routes e)) (selected e) (retractID e) (retractSeqno e))) as Hvi by (intros o r0; by apply visits_insert).
    destruct (routes e !! n) as [r|].
    + eapply Hacq; [done | reflexivity |]. by destruct (negb inf).
    + destruct (_ || _); [by apply Hback|]. eapply Hacq; [done | reflexivity |]. by destruct (negb inf).
  - destruct (_ || _); [by apply Hback|]. destruct (_ <=? _).
    { apply Hback. split; [by apply (table_good_ext rt1) | by apply untouched_same]. }
    apply Hback. apply (acquire_good rt1 key (mkEntry ∅ noSelection (replicate 8 0) 0)); [|done| | |by eapply GH].
    + unfold withRoute in Hv. rewrite Ek in Hv. by eapply visits_insert.
    + split; [by intros ??; cbn; rewrite lookup_empty|]. cbn. by eapply H0.
    + by destruct (negb inf).
Qed.

End held.

(** ** Expiry leaves nothing of the neighbor *)

Section drops.
Context {FL : Float} (nb : nat → neighborState).

(** The neighbors a prefix has routes from. *)
Definition holds (rt : routeTable) (key : routeKey) (n : nat) : Prop := is_Some (route rt n key).

Lemma selectRoute_holds rt key e now order n : visits order e →
  holds (selectRoute nb rt key e now order) key n → is_Some (routes e !! n).
Proof.
  intros Hv. destruct (selectRoute_eq nb rt key e now order Hv) as (rs & Hrs & ->). unfold holds, route, outcome. cbn [entries passed].
  destruct (_ =? _)%nat; [rewrite lookup_delete_eq; by intros [? ?]|]. rewrite lookup_insert_eq. cbn [mbind option_bind].
  assert (routes (leftEntry e rs (choose (mkEntry rs (selected e) (retractID e) (retractSeqno e))
    (fold_left (bestStep nb rt (routes e) key now) order None)
    (match selNeighbor (selected e) with Some m => candAt nb rt (routes e) key now m | None => None end))) = rs) as -> by (unfold leftEntry; by destruct (isNone _)).
  intros [r Hr]. rewrite Hrs in Hr. apply settle_id in Hr as (r0 & Hr0 & _). by exists r0.
Qed.

Lemma selectRoute_others rt key e now order k n : visits order e → k ≠ key →
  holds (selectRoute nb rt key e now order) k n ↔ holds rt k n.
Proof.
  intros Hv Hk. destruct (selectRoute_eq nb rt key e now order Hv) as (rs & Hrs & ->). unfold holds, route, outcome. cbn [entries passed].
  by destruct (_ =? _)%nat; simplify_map_eq.
Qed.

Lemma drop_walk n now orders : NoDup orders.*1 → ∀ rt,
  (∀ key o e e', (key, o) ∈ orders → entries rt !! key = Some e → dropping n e = Some e' → visits o e') →
  ∀ key, holds (forEach nb (dropping n) now rt orders) key n → (key ∉ orders.*1) ∧ holds rt key n.
Proof.
  unfold forEach. induction orders as [|[k o] orders IH]; intros Hnd rt Hv key; cbn [fold_left fmap list_fmap fst snd].
  { intros ?. split; [by intros ?%not_elem_of_nil | done]. }
  apply NoDup_cons in Hnd as [Hnin Hnd]. set (rt1 := match entries rt !! k with Some _ => _ | None => _ end).
  assert (∀ key', key' ≠ k → entries rt1 !! key' = entries rt !! key') as Ho.
  { intros key' Hk. unfold rt1. destruct (entries rt !! k) as [e|] eqn:Ek; [|done]. destruct (dropping n e) as [e'|] eqn:Ed; [|done].
    destruct (selectRoute_eq nb rt k e' now o) as (rs & _ & ->); [apply (Hv k o e e'); [apply list_elem_of_here | done | done]|].
    unfold outcome. cbn. by destruct (_ =? _)%nat; simplify_map_eq. }
  assert (¬ holds rt1 k n) as Hk1.
  { unfold rt1. destruct (entries rt !! k) as [e|] eqn:Ek; [|unfold holds, route; rewrite Ek; by intros [? ?]].
    unfold dropping. destruct (routes e !! n) as [r|] eqn:Er.
    - intros Hh. apply selectRoute_holds in Hh; [cbn in Hh; rewrite lookup_delete_eq in Hh; by destruct Hh|].
      apply (Hv k o e); [apply list_elem_of_here | done|]. unfold dropping. by rewrite Er.
    - unfold holds, route. rewrite Ek. cbn. rewrite Er. by intros [? ?]. }
  intros Hh. destruct (IH Hnd rt1) with (key := key) as [H1 H2]; [|done|].
  { intros key' o' e e' Hin He. apply (Hv key' o'); [by apply list_elem_of_further|].
    rewrite <- Ho; [done|]. intros ->. apply Hnin, list_elem_of_fmap. by exists (k, o'). }
  assert (key ≠ k) as Hne by (by intros ->). split.
  - by intros [?|?]%elem_of_cons.
  - unfold holds, route in *. by rewrite <- Ho.
Qed.

Lemma expire_drops rt n now orders key : walks (dropping n) rt orders → ¬ holds (expireNeighbor nb rt n now orders) key n.
Proof.
  intros [W1 W2 W3] Hh. unfold expireNeighbor in Hh.
  apply (drop_walk n now orders W1 (set_retracted rt (retracted rt ∖ {[n]})) W3) in Hh as [Hnin [r Hr]].
  apply Hnin, W2. unfold route in Hr. cbn in Hr. by destruct (entries rt !! key).
Qed.

End drops.
