(* ===== verification/BabelPack.v ===== *)
(** * Packing: how the speaker's actions become packets, internal/babel/send.go

    What a pass decided to say is a list of actions: TLVs for a neighbor, with
    the undo of every group of TLVs that spent some bookkeeping. They are merged
    by neighbor, destination and priority, ordered by what the pass can afford to
    lose, and split at the configured packet size, each piece taking a place in
    its peer's transmission order. The theorems say that nothing changes meaning
    on the way: the pieces say what the action said, a Router-Id left out because
    it is already in effect included, and every undo travels with the packet that
    carries its TLVs.

    What the speaker uses of its peers' senders is a class: a clock and a
    reservation that may be refused. Neighbors are pointers, numbers here. *)

From S2P Require Import Prelude Netip BabelTlv BabelRaw BabelMetric BabelUpdate.

(** ** Data *)

Inductive sendPriority := priorityHello | priorityRequest | priorityDump.

#[export] Instance sendPriority_eq_dec : EqDecision sendPriority.
Proof. solve_decision. Defined.

#[export] Instance sendPriority_countable : Countable sendPriority.
Proof.
  refine (inj_countable' (λ p, match p with priorityHello => 0%nat | priorityRequest => 1%nat | priorityDump => 2%nat end)
    (λ n, match n with 0%nat => priorityHello | 1%nat => priorityRequest | _ => priorityDump end) _).
  by intros [].
Defined.

(** [int(p)] *)
Definition rank (p : sendPriority) : Z :=
  match p with priorityHello => 0 | priorityRequest => 1 | priorityDump => 2 end.

Record tlvUndo := mkUndo { firstTLV : nat; undoKey : routeKey; spent : bool }.

(** [whenRefused] is only ever the closure a Hello carries, which takes the Hello
    of a neighbor back: the neighbors whose Hello it takes back. *)
Record sendAction := mkAction {
  actNeighbor : nat;
  actDest : Addr;
  actPriority : sendPriority;
  actTlvs : list RawTLV;
  actRollback : list tlvUndo;
  whenRefused : list nat
}.

(** ** takeUndos *)

Fixpoint dropUndos (rollback : list tlvUndo) (from_ : nat) : list tlvUndo :=
  match rollback with
  | u :: rest => if (firstTLV u <? from_)%nat then dropUndos rest from_ else rollback
  | [] => []
  end.

Fixpoint spanUndos (rollback : list tlvUndo) (to : nat) : list tlvUndo * list tlvUndo :=
  match rollback with
  | u :: rest =>
      if (firstTLV u <? to)%nat then let '(a, b) := spanUndos rest to in (u :: a, b) else ([], rollback)
  | [] => ([], [])
  end.

Definition takeUndos (rollback : list tlvUndo) (from_ to : nat) : list tlvUndo * list tlvUndo :=
  spanUndos (dropUndos rollback from_) to.

(** ** coalesce *)

Record target := mkTarget { tgNeighbor : nat; tgDest : Addr; tgPriority : sendPriority }.

#[export] Instance target_eq_dec : EqDecision target.
Proof. solve_decision. Defined.

#[export] Instance target_countable : Countable target.
Proof.
  refine (inj_countable' (λ t, (tgNeighbor t, tgDest t, tgPriority t)) (λ x, mkTarget x.1.1 x.1.2 x.2) _).
  by intros [].
Defined.

Definition targetOf (a : sendAction) : target := mkTarget (actNeighbor a) (actDest a) (actPriority a).

(** [entry.firstTLV += offset] *)
Definition shiftUndo (offset : nat) (u : tlvUndo) : tlvUndo := mkUndo (firstTLV u + offset) (undoKey u) (spent u).

(** The merge of [action] into an entry. The slices are the entry's own once it
    has been merged into, so appending to them changes nothing else. *)
Definition mergeInto (m action : sendAction) : sendAction :=
  mkAction (actNeighbor m) (actDest m) (actPriority m)
    (actTlvs m ++ actTlvs action)
    (actRollback m ++ (shiftUndo (length (actTlvs m)) <$> actRollback action))
    (whenRefused m ++ whenRefused action).

(** One turn of the loop, with [merged] and the index [at]. *)
Definition coalesceStep (s : list sendAction * gmap target nat) (action : sendAction) :
    list sendAction * gmap target nat :=
  let '(merged, at_) := s in
  if (length (actTlvs action) =? 0)%nat then s
  else
    match at_ !! targetOf action with
    | None => (merged ++ [action], <[targetOf action := length merged]> at_)
    | Some i =>
        match merged !! i with
        | Some m => (<[i := mergeInto m action]> merged, at_)
        | None => s
        end
    end.

Definition coalesce (actions : list sendAction) : list sendAction :=
  if (length actions <? 2)%nat then actions
  else (fold_left coalesceStep actions ([], ∅)).1.

(** [slices.SortStableFunc] on the priority: an action goes after those that
    compare equal to it. *)
Fixpoint insertAction (a : sendAction) (l : list sendAction) : list sendAction :=
  match l with
  | [] => [a]
  | b :: rest => if rank (actPriority a) <=? rank (actPriority b) then a :: l else b :: insertAction a rest
  end.

Definition sortStable (l : list sendAction) : list sendAction := foldr insertAction [] l.

(** ** reserveTo and reserveBatchesTo *)

(** The senders of the peers and the clock, as the speaker uses them:
    [ReserveRawOrDrop] gives a place in the neighbor's transmission order, or
    nothing when the queue is full or closed. *)
Class Sender := {
  queue : Type;
  place : Type;
  nowMicros : queue → Z * queue;
  ReserveRawOrDrop : queue → nat → list Z → option place * queue
}.

(** The bytes one group takes: [encoded]. *)
Definition encodedLen (group : list RawTLV) : Z :=
  fold_right (λ t n, 2 + Z.of_nat (length (Body t)) + n) 0 group.

Definition isType (ty : Z) (t : RawTLV) : bool := Type_ t =? ty.

(** The packet being built. *)
Record batching := mkBatching { batch : list RawTLV; bsize : Z; inEffect : list Z; batchFrom : nat }.
Definition newBatch (i : nat) : batching := mkBatching [] (Z.of_nat headerLen) [] i.

Section fill.
Context {S : Type} (take : S → list RawTLV → nat → nat → S) (limit : Z).

(** The group [t :: more], which starts at index [i]. *)
Definition addGroup (t : RawTLV) (more : list RawTLV) (i : nat) (bs : batching * S) : batching * S :=
  let '(b, s) := bs in
  let group := t :: more in
  let trimmed := if isType TLVRouterID t && bool_decide (Body t = inEffect b) then more else group in
  let split := (0 <? length (batch b))%nat && (limit <? bsize b + encodedLen trimmed) in
  let s := if split then take s (batch b) (batchFrom b) i else s in
  let b := if split then newBatch i else b in
  let trimmed := if split then group else trimmed in
  (mkBatching (batch b ++ trimmed) (bsize b + encodedLen trimmed)
     (if isType TLVRouterID t then Body t else inEffect b) (batchFrom b), s).

(** The loop over the TLVs from index [i] on, with the packet left over. *)
Fixpoint fill (tlvs : list RawTLV) (i : nat) (bs : batching * S) : S :=
  match tlvs with
  | [] => let '(b, s) := bs in if (0 <? length (batch b))%nat then take s (batch b) (batchFrom b) i else s
  | t :: rest =>
      match rest with
      | u :: rest' =>
          if isType TLVRouterID t && isType TLVUpdate u
          then fill rest' (2 + i) (addGroup t [u] i bs)
          else fill rest (1 + i) (addGroup t [] i bs)
      | [] => fill rest (1 + i) (addGroup t [] i bs)
      end
  end.

End fill.

Section reserve.
Context {SD : Sender} (linkLocal : Addr).

(** The Hellos of a packet are stamped as it takes its place; a Hello is never a
    run-time panic to decode. *)
Fixpoint stampHellos (q : queue) (tlvs : list RawTLV) : list RawTLV * queue :=
  match tlvs with
  | [] => ([], q)
  | t :: rest =>
      let '(t, q) :=
        if isType TLVHello t then
          match DecodeHello (Body t) with
          | Ok h => let '(ts, q) := nowMicros q in
                    (EncodeHello (mkHello (helloSeqno h) (BabelTlv.helloInterval h) (Unicast h) ts true), q)
          | _ => (t, q)
          end
        else (t, q) in
      let '(rest, q) := stampHellos q rest in
      (t :: rest, q)
  end.

Definition reserveTo (q : queue) (n : nat) (dest : Addr) (tlvs : list RawTLV) : option place * queue :=
  let '(tlvs, q) := stampHellos q tlvs in
  ReserveRawOrDrop q n (buildPacket linkLocal dest (EncodePacket tlvs)).

Record reservedPacket := mkReserved { rpPlace : place; rpNeighbor : nat; rpUndo : list tlvUndo }.

(** The variables [take] changes. *)
Record taking := mkTaking {
  tkQueue : queue; tkReserved : list reservedPacket; tkLost : list tlvUndo; tkWhole : bool; tkPending : list tlvUndo
}.

Definition takePiece (action : sendAction) (s : taking) (b : list RawTLV) (from_ to : nat) : taking :=
  let '(undo, pending) := takeUndos (tkPending s) from_ to in
  match reserveTo (tkQueue s) (actNeighbor action) (actDest action) b with
  | (Some p, q) => mkTaking q (tkReserved s ++ [mkReserved p (actNeighbor action) undo]) (tkLost s) (tkWhole s) pending
  | (None, q) => mkTaking q (tkReserved s) (tkLost s ++ undo) false pending
  end.

(** The packets that took a place, the undos of those that did not, and whether
    every one did. *)
Definition reserveBatchesTo (packetSize : Z) (q : queue) (action : sendAction) :
    queue * list reservedPacket * list tlvUndo * bool :=
  let s := fill (takePiece action) packetSize (actTlvs action) 0
             (newBatch 0, mkTaking q [] [] true (actRollback action)) in
  (tkQueue s, tkReserved s, tkLost s, tkWhole s).

End reserve.

(** ** The pieces *)

Record piece := mkPiece { pcBatch : list RawTLV; pcFrom : nat; pcTo : nat }.

Definition collect (ps : list piece) (b : list RawTLV) (from_ to : nat) : list piece := ps ++ [mkPiece b from_ to].

(** What the loop hands to [take], in order. *)
Definition piecesFrom (limit : Z) (tlvs : list RawTLV) (i : nat) (b : batching) : list piece :=
  fill collect limit tlvs i (b, []).

Definition pieces (limit : Z) (tlvs : list RawTLV) : list piece := piecesFrom limit tlvs 0 (newBatch 0).

(** The loop only hands pieces over: whatever [take] does with them, the pieces
    are the same. *)
Section handing.
Context {S : Type} (take : S → list RawTLV → nat → nat → S) (limit : Z).

Definition hand (s : S) (p : piece) : S := take s (pcBatch p) (pcFrom p) (pcTo p).

Lemma addGroup_hand t more i b s ps : let '(b', ps') := addGroup collect limit t more i (b, ps) in
  ∃ new, ps' = ps ++ new ∧ addGroup take limit t more i (b, s) = (b', fold_left hand new s).
Proof.
  unfold addGroup. destruct (_ && (limit <? _)).
  - exists [mkPiece (batch b) (batchFrom b) i]. done.
  - exists []. by rewrite app_nil_r.
Qed.

Lemma fill_cons {T} (tk : T → list RawTLV → nat → nat → T) t rest i bs : fill tk limit (t :: rest) i bs =
  match rest with
  | u :: rest' => if isType TLVRouterID t && isType TLVUpdate u
                  then fill tk limit rest' (2 + i) (addGroup tk limit t [u] i bs)
                  else fill tk limit rest (1 + i) (addGroup tk limit t [] i bs)
  | [] => fill tk limit rest (1 + i) (addGroup tk limit t [] i bs)
  end.
Proof. done. Qed.

Lemma fill_hand n : ∀ tlvs, (length tlvs ≤ n)%nat → ∀ i b s ps,
  ∃ new, fill collect limit tlvs i (b, ps) = ps ++ new ∧ fill take limit tlvs i (b, s) = fold_left hand new s.
Proof.
  induction n as [|n IH]; intros [|t rest] Hn i b s ps; try (cbn in Hn; lia).
  1,2: cbn [fill]; destruct (_ <? _)%nat; [by eexists | exists []; by rewrite app_nil_r].
  assert (∀ more rest' j, (length rest' ≤ n)%nat → ∃ new,
    fill collect limit rest' j (addGroup collect limit t more i (b, ps)) = ps ++ new ∧
    fill take limit rest' j (addGroup take limit t more i (b, s)) = fold_left hand new s) as Hone.
  { intros more rest' j Hl. pose proof (addGroup_hand t more i b s ps) as Ha.
    destruct (addGroup collect limit t more i (b, ps)) as [b' ps']. destruct Ha as (new & -> & ->).
    destruct (IH rest' Hl j b' (fold_left hand new s) (ps ++ new)) as (new' & -> & ->).
    exists (new ++ new'). by rewrite app_assoc, fold_left_app. }
  rewrite !fill_cons. cbn in Hn. destruct rest as [|u rest']; [apply Hone; cbn; lia|].
  destruct (_ && _); apply Hone; cbn in *; lia.
Qed.

Lemma fill_pieces tlvs i b s : fill take limit tlvs i (b, s) = fold_left hand (piecesFrom limit tlvs i b) s.
Proof.
  destruct (fill_hand (length tlvs) tlvs ltac:(lia) i b s []) as (new & Hn & ->). unfold piecesFrom. by rewrite Hn.
Qed.

End handing.

(** ** What a list of TLVs says

    A receiver reads each TLV under the router-id the packet has set so far; only
    an Update is read under one. *)

Definition nextContext (ctx : option (list Z)) (t : RawTLV) : option (list Z) :=
  if isType TLVRouterID t then
    match DecodeRouterID (Body t) with Ok (id, _) => Some id | _ => ctx end
  else ctx.

Definition contextAfter (ctx : option (list Z)) (tlvs : list RawTLV) : option (list Z) := fold_left nextContext tlvs ctx.

Fixpoint reading (ctx : option (list Z)) (tlvs : list RawTLV) : list (option (list Z) * RawTLV) :=
  match tlvs with
  | [] => []
  | t :: rest =>
      if isType TLVRouterID t then reading (nextContext ctx t) rest
      else (if isType TLVUpdate t then ctx else None, t) :: reading ctx rest
  end.

(** The TLVs the builders make: every Update follows a Router-Id of its own. *)
Inductive grouped : list RawTLV → Prop :=
| grouped_nil : grouped []
| grouped_update id u rest : length id = 8%nat → Type_ u = TLVUpdate → grouped rest →
    grouped (EncodeRouterID id :: u :: rest)
| grouped_other t rest : Type_ t ≠ TLVRouterID → Type_ t ≠ TLVUpdate → grouped rest → grouped (t :: rest).

Lemma isType_true ty t : Type_ t = ty → isType ty t = true.
Proof. apply Z.eqb_eq. Qed.

Lemma isType_false ty t : Type_ t ≠ ty → isType ty t = false.
Proof. apply Z.eqb_neq. Qed.

Lemma DecodeRouterID_encode id : length id = 8%nat → DecodeRouterID (Body (EncodeRouterID id)) = Ok (id, false).
Proof.
  intros Hl. unfold DecodeRouterID, EncodeRouterID. cbn [Body]. rewrite length_app, Hl. cbn [length Nat.add Nat.ltb Nat.leb].
  rewrite <- (app_nil_r ([0; 0] ++ id)), <- app_assoc. rewrite (slice_app_exact [0; 0] id []) by (cbn; lia). rbind.
  rewrite from_ok by (rewrite !length_app; cbn; lia). rbind. rewrite app_nil_r.
  rewrite drop_ge by (rewrite length_app; cbn; lia). done.
Qed.

Lemma context_id ctx id : length id = 8%nat → nextContext ctx (EncodeRouterID id) = Some id.
Proof. intros Hl. unfold nextContext. by rewrite isType_true, DecodeRouterID_encode. Qed.

Lemma reading_app ctx a b : reading ctx (a ++ b) = reading ctx a ++ reading (contextAfter ctx a) b.
Proof.
  revert ctx. induction a as [|t a IH]; intros ctx; [done|]. cbn [reading app]. unfold contextAfter. cbn [fold_left].
  change (fold_left nextContext a ?c) with (contextAfter c a). rewrite !IH. unfold nextContext.
  destruct (isType TLVRouterID t); [done|]. done.
Qed.

(** The meaning of grouped TLVs does not depend on what came before. *)
Lemma reading_grouped tlvs : grouped tlvs → ∀ ctx ctx', reading ctx tlvs = reading ctx' tlvs.
Proof.
  induction 1 as [|id u rest Hl Hu Hg IH|t rest Hr Hu Hg IH]; intros ctx ctx'; [done|..].
  - cbn [reading]. rewrite (isType_true TLVRouterID (EncodeRouterID id)) by done.
    rewrite (isType_false TLVRouterID u), (isType_true TLVUpdate u) by (rewrite ?Hu; done).
    rewrite !context_id by done. done.
  - cbn [reading]. rewrite !isType_false by done. f_equal. apply IH.
Qed.

(** A group the builders make. *)
Inductive group : RawTLV → list RawTLV → Prop :=
| group_update id u : length id = 8%nat → Type_ u = TLVUpdate → group (EncodeRouterID id) [u]
| group_other t : Type_ t ≠ TLVRouterID → Type_ t ≠ TLVUpdate → group t [].

Lemma grouped_app a b : grouped a → grouped b → grouped (a ++ b).
Proof. induction 1; intros Hb; [done | by apply grouped_update; auto | by apply grouped_other; auto]. Qed.

(** [seg] is what a piece was made of: the piece starts where the segment does,
    says the same, is not empty, and fits unless it is a single group. *)
Record made_of (limit : Z) (i : nat) (p : piece) (seg : list RawTLV) : Prop := {
  mo_from : pcFrom p = i;
  mo_to : pcTo p = (i + length seg)%nat;
  mo_says : reading None (pcBatch p) = reading None seg;
  mo_some : pcBatch p ≠ [];
  mo_grouped : grouped seg;
  mo_incl : pcBatch p `sublist_of` seg;
  mo_fits : Z.of_nat headerLen + encodedLen (pcBatch p) ≤ limit ∨
    pcBatch p = seg ∧ ∃ t more, group t more ∧ seg = t :: more
}.

Fixpoint covers (limit : Z) (i : nat) (ps : list piece) (segs : list (list RawTLV)) : Prop :=
  match ps, segs with
  | [], [] => True
  | p :: ps, seg :: segs => made_of limit i p seg ∧ covers limit (i + length seg) ps segs
  | _, _ => False
  end.

Section packing.
Variable limit : Z.

Lemma fill_collect tlvs i b ps : fill collect limit tlvs i (b, ps) = ps ++ piecesFrom limit tlvs i b.
Proof.
  rewrite fill_pieces. generalize (piecesFrom limit tlvs i b) as l. intros l. revert ps.
  induction l as [|[x f t] l IH]; intros ps; [by rewrite app_nil_r|]. cbn [fold_left]. rewrite IH.
  unfold hand, collect. cbn. by rewrite <- app_assoc.
Qed.

(** The packet being built says what the segment since its first TLV says. *)
Record building (b : batching) (seg : list RawTLV) : Prop := {
  bl_says : reading None (batch b) = reading None seg;
  bl_ctx : (inEffect b = [] ∧ contextAfter None (batch b) = None) ∨
    ∃ id, length id = 8%nat ∧ inEffect b = Body (EncodeRouterID id) ∧ contextAfter None (batch b) = Some id;
  bl_size : bsize b = Z.of_nat headerLen + encodedLen (batch b);
  bl_fits : batch b = [] ∨ bsize b ≤ limit ∨ batch b = seg ∧ ∃ t more, group t more ∧ seg = t :: more;
  bl_empty : batch b = [] → seg = [] ∧ inEffect b = [];
  bl_grouped : grouped seg;
  bl_incl : batch b `sublist_of` seg
}.

Lemma encodedLen_app a b : encodedLen (a ++ b) = encodedLen a + encodedLen b.
Proof. induction a as [|t a IH]; [done|]. cbn [encodedLen fold_right app] in *. unfold encodedLen in *. lia. Qed.

Lemma contextAfter_app ctx a b : contextAfter ctx (a ++ b) = contextAfter (contextAfter ctx a) b.
Proof. apply fold_left_app. Qed.

Lemma context_group ctx t more : group t more →
  contextAfter ctx (t :: more) = if isType TLVRouterID t then
    match DecodeRouterID (Body t) with Ok (id, _) => Some id | _ => ctx end else ctx.
Proof.
  intros [id u Hl Hu|]; unfold contextAfter; cbn [fold_left].
  - rewrite context_id by done. unfold nextContext. rewrite isType_false by (by rewrite Hu).
    rewrite isType_true by done. by rewrite DecodeRouterID_encode.
  - done.
Qed.

Lemma group_grouped t more rest : group t more → grouped rest → grouped ((t :: more) ++ rest).
Proof. intros [] Hg; [by apply grouped_update | by apply grouped_other]. Qed.

(** Adding a whole group. *)
Lemma building_whole b seg t more : building b seg → group t more →
  (bsize b + encodedLen (t :: more) ≤ limit ∨ batch b = []) →
  building (mkBatching (batch b ++ t :: more) (bsize b + encodedLen (t :: more))
    (if isType TLVRouterID t then Body t else inEffect b) (batchFrom b)) (seg ++ t :: more).
Proof.
  intros [Hs Hc Hz Hf He Hgr Hin] Hg Hfit. split; cbn [batch bsize inEffect].
  - rewrite !reading_app. rewrite Hs. f_equal. apply reading_grouped. rewrite <- (app_nil_r (t :: more)).
    apply group_grouped; [done | constructor].
  - rewrite contextAfter_app, context_group by done. destruct Hg as [id u Hl Hu|t' Hr Hu].
    + right. exists id. rewrite isType_true, DecodeRouterID_encode by done. done.
    + by rewrite isType_false.
  - rewrite Hz, encodedLen_app. lia.
  - right. destruct Hfit as [?|Hb]; [by left|]. right. destruct (He Hb) as [-> _]. rewrite Hb. by eauto.
  - by intros [_ ?]%app_nil.
  - apply grouped_app; [done|]. rewrite <- (app_nil_r (t :: more)). apply group_grouped; [done | constructor].
  - by apply sublist_app.
Qed.

(** Leaving out a Router-Id that is in effect. *)
Lemma building_trimmed b seg id u : building b seg → length id = 8%nat → Type_ u = TLVUpdate →
  Body (EncodeRouterID id) = inEffect b → bsize b + encodedLen [u] ≤ limit →
  building (mkBatching (batch b ++ [u]) (bsize b + encodedLen [u]) (Body (EncodeRouterID id)) (batchFrom b))
    (seg ++ [EncodeRouterID id; u]).
Proof.
  intros [Hs Hc Hz Hf He Hgr Hin] Hl Hu Hid Hfit. destruct Hc as [[Hn _]|(id' & Hl' & Hi & Hctx)]; [by rewrite Hn in Hid|].
  assert (id' = id) as -> by (rewrite Hi in Hid; by injection Hid).
  assert (isType TLVRouterID u = false) as Hru by (apply isType_false; by rewrite Hu).
  split; cbn [batch bsize inEffect].
  - rewrite !reading_app, Hs, Hctx. f_equal. cbn [reading].
    rewrite Hru, (isType_true TLVRouterID (EncodeRouterID id)) by done. by rewrite context_id.
  - right. exists id. split_and!; [done | done |]. rewrite contextAfter_app, Hctx. unfold contextAfter. cbn.
    unfold nextContext. by rewrite Hru.
  - rewrite Hz, encodedLen_app. lia.
  - right. by left.
  - by intros [_ ?]%app_nil.
  - apply grouped_app; [done|]. by repeat constructor.
  - apply sublist_app; [done|]. by apply sublist_cons.
Qed.

Lemma new_building i : building (newBatch i) [].
Proof. split; try done; [by left | by left | constructor]. Qed.

Lemma building_piece b seg i : building b seg → (batchFrom b + length seg)%nat = i → batch b ≠ [] →
  made_of limit (batchFrom b) (mkPiece (batch b) (batchFrom b) i) seg.
Proof.
  intros [Hs _ Hz Hf _ Hg Hin] Hi Hb. split; cbn [pcBatch pcFrom pcTo]; [done | lia | done..|].
  rewrite <- Hz. by destruct Hf.
Qed.

(** A turn of the loop extends the packet being built, or hands it over and starts
    the next one with the group. *)
Lemma addGroup_building b seg t more i : building b seg → group t more → (batchFrom b + length seg)%nat = i →
  ∃ b', (addGroup collect limit t more i (b, []) = (b', []) ∧ building b' (seg ++ t :: more) ∧ batchFrom b' = batchFrom b) ∨
    (∃ p, addGroup collect limit t more i (b, []) = (b', [p]) ∧ made_of limit (batchFrom b) p seg ∧
       building b' (t :: more) ∧ batchFrom b' = i).
Proof.
  intros Hb Hg Hi. unfold addGroup. set (same := isType TLVRouterID t && bool_decide (Body t = inEffect b)).
  destruct (Nat.ltb_spec 0 (length (batch b))) as [Hne|Hem]; cbn [andb].
  - destruct (Z.ltb_spec limit (bsize b + encodedLen (if same then more else t :: more))) as [Hlt|Hle].
    + eexists. right. eexists. split; [done|]. split; [|split; [|done]].
      * by apply building_piece; [| |destruct (batch b); [cbn in Hne; lia|]].
      * apply (building_whole (newBatch i) [] t more (new_building i) Hg). by right.
    + eexists. left. split; [done|]. split; [|done]. destruct same eqn:Es; [|by apply building_whole; [| |left]].
      unfold same in Es. apply andb_true_iff in Es as [Er Eb%bool_decide_eq_true].
      destruct Hg as [id u Hl Hu|t' Hr Hu]; [|by rewrite isType_false in Er]. rewrite Er. by apply building_trimmed.
  - eexists. left. split; [done|]. split; [|done]. assert (batch b = []) as Hbe by (destruct (batch b); [done | cbn in Hem; lia]).
    destruct (bl_empty _ _ Hb Hbe) as [_ Hie].
    assert (same = false) as ->.
    { unfold same. rewrite Hie. destruct Hg as [id u Hl Hu|t' Hr Hu]; [|by rewrite isType_false].
      rewrite bool_decide_eq_false_2 by done. apply andb_false_r. }
    apply building_whole; [done | done | by right].
Qed.

Lemma grouped_step t rest : grouped (t :: rest) → ∃ more rest', rest = more ++ rest' ∧ group t more ∧ grouped rest' ∧
  ∀ T (tk : T → list RawTLV → nat → nat → T) i bs,
    fill tk limit (t :: rest) i bs = fill tk limit rest' (i + length (t :: more)) (addGroup tk limit t more i bs).
Proof.
  inversion 1 as [|id u rest' Hl Hu Hg|t' rest' Hr Hu Hg]; subst.
  - exists [u], rest'. split_and!; [done | by constructor | done |]. intros T tk i bs. rewrite fill_cons.
    rewrite !isType_true by done. cbn [andb length]. by replace (i + 2)%nat with (2 + i)%nat by lia.
  - exists [], rest. split_and!; [done | by constructor | done |]. intros T tk i bs. rewrite fill_cons.
    rewrite isType_false by done. cbn [andb length]. replace (i + 1)%nat with (1 + i)%nat by lia. by destruct rest.
Qed.

Lemma piecesFrom_covers n : ∀ tlvs, (length tlvs ≤ n)%nat → grouped tlvs → ∀ b seg i,
  building b seg → (batchFrom b + length seg)%nat = i →
  ∃ segs, covers limit (batchFrom b) (piecesFrom limit tlvs i b) segs ∧ concat segs = seg ++ tlvs.
Proof.
  induction n as [|n IH]; intros [|t rest] Hn Hg b seg i Hb Hi; try (cbn in Hn; lia).
  1,2: unfold piecesFrom; cbn [fill]; destruct (Nat.ltb_spec 0 (length (batch b))) as [Hne|Hem];
    [exists [seg]; cbn; rewrite !app_nil_r; split; [|done]; split; [|done]; apply building_piece; try done;
       by destruct (batch b); [cbn in Hne; lia|]
    |exists []; rewrite app_nil_r; split; [done|]; symmetry; apply (bl_empty _ _ Hb); by destruct (batch b); [|cbn in Hem; lia]].
  destruct (grouped_step t rest Hg) as (more & rest' & -> & Hgr & Hg' & Hf). unfold piecesFrom. rewrite Hf.
  cbn [length] in Hn. rewrite length_app in Hn.
  destruct (addGroup_building b seg t more i Hb Hgr Hi) as (b' & [(-> & Hb' & Hfr)|(p & -> & Hp & Hb' & Hfr)]).
  - rewrite fill_collect. cbn [app]. rewrite <- Hfr.
    destruct (IH rest' ltac:(lia) Hg' b' _ (i + length (t :: more))%nat Hb') as (segs & Hc & Hs).
    { rewrite length_app, Hfr. lia. }
    exists segs. rewrite Hs, <- app_assoc. done.
  - rewrite fill_collect. destruct (IH rest' ltac:(lia) Hg' b' _ (i + length (t :: more))%nat Hb') as (segs & Hc & Hs); [by rewrite Hfr|].
    exists (seg :: segs). cbn [app covers concat]. rewrite Hs. rewrite Hfr in Hc. by rewrite Hi.
Qed.

Lemma pieces_cover tlvs : grouped tlvs →
  ∃ segs, covers limit 0 (pieces limit tlvs) segs ∧ concat segs = tlvs.
Proof.
  intros Hg. apply (piecesFrom_covers (length tlvs) tlvs ltac:(lia) Hg (newBatch 0) [] 0 (new_building 0) eq_refl).
Qed.

End packing.

(** ** Packets say what the action says, and fit *)

Lemma covers_grouped limit ps : ∀ i segs, covers limit i ps segs → grouped (concat segs).
Proof.
  induction ps as [|p ps IH]; intros i [|seg segs] Hc; try done; [constructor|]. destruct Hc as [Hm Hc].
  cbn. apply grouped_app; [apply (mo_grouped _ _ _ _ Hm) | by eapply IH].
Qed.

Lemma covers_says limit ps : ∀ i segs, covers limit i ps segs →
  concat ((λ p, reading None (pcBatch p)) <$> ps) = reading None (concat segs).
Proof.
  induction ps as [|p ps IH]; intros i [|seg segs] Hc; try done. destruct Hc as [Hm Hc].
  rewrite fmap_cons. cbn [concat]. rewrite reading_app, (mo_says _ _ _ _ Hm). f_equal.
  rewrite (IH _ _ Hc). apply reading_grouped. by eapply covers_grouped.
Qed.

Lemma encodedLen_body tlvs : Forall (λ t, Type_ t ≠ TLVPad1) tlvs → Z.of_nat (length (encodeBody tlvs)) = encodedLen tlvs.
Proof.
  induction 1 as [|t tlvs Ht _ IH]; [done|]. cbn [encodeBody encodedLen fold_right]. unfold encodedLen in IH.
  rewrite (proj2 (Z.eqb_neq _ _) Ht), length_app. cbn [length]. lia.
Qed.

(** A group has room in an empty packet of [limit] bytes: every TLV does, an
    Update with its Router-Id. *)
Definition roomy (limit : Z) (tlvs : list RawTLV) : Prop :=
  Forall (λ t, Type_ t ≠ TLVPad1 ∧
    Z.of_nat headerLen + encodedLen (if isType TLVUpdate t then [EncodeRouterID (replicate 8 0); t] else [t]) ≤ limit) tlvs.

Lemma roomy_group limit t more : group t more → roomy limit (t :: more) → Z.of_nat headerLen + encodedLen (t :: more) ≤ limit.
Proof.
  intros [id u Hl Hu|t' Hr Hu] Hf; unfold roomy in Hf; rewrite !Forall_cons in Hf.
  - destruct Hf as (_ & (_ & H2) & _). rewrite isType_true in H2 by done. unfold encodedLen in *. cbn [fold_right] in *.
    revert H2. unfold EncodeRouterID. cbn [Body]. rewrite !length_app, length_replicate, Hl. cbn [length]. lia.
  - destruct Hf as ((_ & H1) & _). by rewrite isType_false in H1.
Qed.

Lemma roomy_app limit a b : roomy limit (a ++ b) ↔ roomy limit a ∧ roomy limit b.
Proof. apply Forall_app. Qed.

Lemma covers_fit limit ps : ∀ i segs, covers limit i ps segs → roomy limit (concat segs) →
  Forall (λ p, pcBatch p ≠ [] ∧ Z.of_nat (length (EncodePacket (pcBatch p))) ≤ limit) ps.
Proof.
  induction ps as [|p ps IH]; intros i [|seg segs] Hc Hr; try done. destruct Hc as [Hm Hc]. cbn in Hr.
  apply roomy_app in Hr as [H1 H2]. constructor; [|by eapply IH]. split; [apply (mo_some _ _ _ _ Hm)|].
  assert (Forall (λ t, Type_ t ≠ TLVPad1) (pcBatch p)) as Hp.
  { apply Forall_forall. intros t Ht. unfold roomy in H1. rewrite Forall_forall in H1.
    apply H1. by eapply elem_of_sublist; [|apply (mo_incl _ _ _ _ Hm)]. }
  unfold EncodePacket. cbv zeta. rewrite !length_app, length_be_to, !Nat2Z.inj_add, encodedLen_body by done.
  change (Z.of_nat (length [Magic; Version]) + (Z.of_nat 2 + encodedLen (pcBatch p))) with (Z.of_nat headerLen - 2 + (2 + encodedLen (pcBatch p))).
  destruct (mo_fits _ _ _ _ Hm) as [Hf|(-> & t & more & Hg & ->)]; [lia|]. pose proof (roomy_group _ _ _ Hg H1). lia.
Qed.

(** C20: splitting an action at the packet size changes nothing a neighbor reads.
    The packets, read one by one, say what the whole action says: the same TLVs
    in the same order, every Update under its own router-id, although a Router-Id
    already in effect is left out and the packets share no state. No packet is
    empty or longer than the configured size. *)
Theorem packets_faithful limit tlvs :
  grouped tlvs → roomy limit tlvs →
  concat ((λ p, reading None (pcBatch p)) <$> pieces limit tlvs) = reading None tlvs ∧
  Forall (λ p, pcBatch p ≠ [] ∧ Z.of_nat (length (EncodePacket (pcBatch p))) ≤ limit) (pieces limit tlvs).
Proof.
  intros Hg Hr. destruct (pieces_cover limit tlvs Hg) as (segs & Hc & Hs). split.
  - by rewrite (covers_says _ _ _ _ Hc), Hs.
  - eapply covers_fit; [done | by rewrite Hs].
Qed.

(** ** Undos travel with their TLVs *)

(** The undos of the TLVs in [from_, to). *)
Definition undosIn (from_ to : nat) (rollback : list tlvUndo) : list tlvUndo :=
  List.filter (λ u, (from_ <=? firstTLV u)%nat && (firstTLV u <? to)%nat) rollback.

Definition ascending (rollback : list tlvUndo) : Prop := StronglySorted (λ u v, (firstTLV u ≤ firstTLV v)%nat) rollback.

Lemma dropUndos_filter l i : ascending l → dropUndos l i = List.filter (λ u, (i <=? firstTLV u)%nat) l.
Proof.
  induction 1 as [|u l Hs IH Hf]; [done|]. cbn [dropUndos List.filter]. rewrite Nat.leb_antisym.
  destruct (Nat.ltb_spec (firstTLV u) i) as [|Hle]; cbn [negb]; [done|]. f_equal.
  clear IH Hs. induction Hf as [|v l Hv _ IH]; [done|]. cbn [List.filter]. rewrite (proj2 (Nat.leb_le _ _)) by lia. by f_equal.
Qed.

Lemma spanUndos_filter l i : ascending l →
  spanUndos l i = (List.filter (λ u, (firstTLV u <? i)%nat) l, List.filter (λ u, (i <=? firstTLV u)%nat) l).
Proof.
  induction 1 as [|u l Hs IH Hf]; [done|]. cbn [spanUndos List.filter]. rewrite Nat.leb_antisym.
  destruct (Nat.ltb_spec (firstTLV u) i) as [|Hle]; cbn [negb]; [by rewrite IH|]. f_equal.
  - clear IH Hs. induction Hf as [|v l Hv _ IH]; [done|]. cbn [List.filter]. by rewrite (proj2 (Nat.ltb_ge _ _)) by lia.
  - f_equal. clear IH Hs. induction Hf as [|v l Hv _ IH]; [done|]. cbn [List.filter].
    rewrite (proj2 (Nat.leb_le _ _)) by lia. by f_equal.
Qed.

Lemma filter_filter {A} (f g : A → bool) l : List.filter f (List.filter g l) = List.filter (λ x, g x && f x) l.
Proof. induction l as [|x l IH]; [done|]. cbn. destruct (g x); cbn; [destruct (f x)|]; by rewrite IH. Qed.

Lemma filter_ext_bool {A} (f g : A → bool) l : (∀ x, f x = g x) → List.filter f l = List.filter g l.
Proof. intros Hfg. induction l as [|x l IH]; [done|]. cbn. by rewrite Hfg, IH. Qed.

Lemma ascending_filter f l : ascending l → ascending (List.filter f l).
Proof.
  induction 1 as [|u l Hs IH Hf]; [constructor|]. cbn. destruct (f u); [|done]. constructor; [done|].
  rewrite Forall_forall in *. intros v Hv. apply Hf. apply list_elem_of_In, List.filter_In in Hv as [Hv _]. by apply list_elem_of_In.
Qed.

(** Once the undos before [from_] are gone, the walk takes a packet's own and
    leaves the later ones. *)
Lemma takeUndos_spec rollback i j : ascending rollback → (i ≤ j)%nat →
  takeUndos (List.filter (λ u, (i <=? firstTLV u)%nat) rollback) i j =
    (undosIn i j rollback, List.filter (λ u, (j <=? firstTLV u)%nat) rollback).
Proof.
  intros Ha Hij. unfold takeUndos, undosIn. rewrite dropUndos_filter by by apply ascending_filter.
  rewrite spanUndos_filter by by do 2 apply ascending_filter. rewrite !filter_filter.
  f_equal; apply filter_ext_bool; intros u; destruct (Nat.leb_spec i (firstTLV u)), (Nat.leb_spec j (firstTLV u)),
    (Nat.ltb_spec (firstTLV u) j); cbn; lia || done.
Qed.

Lemma undosIn_app l i j k : ascending l → (i ≤ j)%nat → (j ≤ k)%nat → undosIn i j l ++ undosIn j k l = undosIn i k l.
Proof.
  unfold undosIn. induction 1 as [|u l Hs IH Hf]; intros Hij Hjk; [done|]. cbn [List.filter]. specialize (IH Hij Hjk).
  destruct (Nat.leb_spec i (firstTLV u)), (Nat.leb_spec j (firstTLV u)), (Nat.ltb_spec (firstTLV u) j),
    (Nat.ltb_spec (firstTLV u) k); cbn [andb]; try lia; try done; try (by rewrite <- IH).
  rewrite <- IH. assert (List.filter (λ v, (i <=? firstTLV v)%nat && (firstTLV v <? j)%nat) l = []) as ->; [|done].
  clear IH Hs. induction Hf as [|v l Hv _ IHf]; [done|]. cbn [List.filter]. rewrite (proj2 (Nat.ltb_ge (firstTLV v) j)) by lia.
  by rewrite andb_false_r.
Qed.

Lemma undosIn_empty l i : undosIn i i l = [].
Proof.
  unfold undosIn. induction l as [|u l IH]; [done|]. cbn [List.filter]. destruct (Nat.leb_spec i (firstTLV u)), (Nat.ltb_spec (firstTLV u) i); cbn [andb]; done || lia.
Qed.

Lemma undosIn_all l n : Forall (λ u, (firstTLV u < n)%nat) l → undosIn 0 n l = l.
Proof.
  unfold undosIn. induction 1 as [|u l Hu _ IH]; [done|]. cbn [List.filter]. rewrite (proj2 (Nat.ltb_lt _ _)) by done. cbn. by f_equal.
Qed.

(** The undos of a piece of an action. *)
Definition undosOf (a : sendAction) (p : piece) : list tlvUndo := undosIn (pcFrom p) (pcTo p) (actRollback a).

Lemma covers_undos limit a ps : ascending (actRollback a) → ∀ i segs, covers limit i ps segs →
  concat (undosOf a <$> ps) = undosIn i (i + length (concat segs)) (actRollback a).
Proof.
  intros Ha. induction ps as [|p ps IH]; intros i [|seg segs] Hc; try done.
  { cbn. by rewrite Nat.add_0_r, undosIn_empty. }
  destruct Hc as [Hm Hc]. rewrite fmap_cons. cbn [concat]. rewrite (IH _ _ Hc). unfold undosOf.
  rewrite (mo_from _ _ _ _ Hm), (mo_to _ _ _ _ Hm), length_app, Nat.add_assoc. apply undosIn_app; [done | lia..].
Qed.

Section reservations.
Context {SD : Sender} (linkLocal : Addr).

Definition isGranted (g : option place) : bool := match g with Some _ => true | None => false end.

(** What became of a piece: the packet that took its place, or its undos. *)
Definition placed (a : sendAction) (pg : piece * option place) : list reservedPacket :=
  match pg.2 with Some p => [mkReserved p (actNeighbor a) (undosOf a pg.1)] | None => [] end.
Definition refused (a : sendAction) (pg : piece * option place) : list tlvUndo :=
  match pg.2 with Some _ => [] | None => undosOf a pg.1 end.

Lemma hand_pieces limit a ps : ascending (actRollback a) → ∀ i segs s, covers limit i ps segs →
  tkPending s = List.filter (λ u, (i <=? firstTLV u)%nat) (actRollback a) →
  ∃ granted : list (option place), length granted = length ps ∧
    let s' := fold_left (hand (takePiece linkLocal a)) ps s in
    tkReserved s' = tkReserved s ++ concat (placed a <$> zip ps granted) ∧
    tkLost s' = tkLost s ++ concat (refused a <$> zip ps granted) ∧
    tkWhole s' = tkWhole s && forallb isGranted granted.
Proof.
  intros Ha. induction ps as [|p ps IH]; intros i [|seg segs] s Hc Hp; try done.
  { exists []. cbn. by rewrite !app_nil_r, andb_true_r. }
  destruct Hc as [Hm Hc]. cbn [fold_left]. set (s1 := hand _ s p).
  pose proof (takeUndos_spec (actRollback a) i (i + length seg) Ha ltac:(lia)) as Ht. rewrite <- Hp in Ht.
  destruct (reserveTo linkLocal (tkQueue s) (actNeighbor a) (actDest a) (pcBatch p)) as [g q] eqn:Er.
  assert (s1 = mkTaking q (tkReserved s ++ placed a (p, g)) (tkLost s ++ refused a (p, g)) (tkWhole s && isGranted g)
    (List.filter (λ u, (i + length seg <=? firstTLV u)%nat) (actRollback a))) as Hs1.
  { unfold s1, hand, takePiece, placed, refused, undosOf. cbn [fst snd]. rewrite (mo_from _ _ _ _ Hm), (mo_to _ _ _ _ Hm), Ht, Er.
    destruct g; cbn [isGranted]; rewrite ?andb_true_r, ?andb_false_r, ?app_nil_r; done. }
  clearbody s1. subst s1. match goal with |- context [fold_left _ ps ?x] => destruct (IH _ _ x Hc eq_refl) as (gs & Hl & H1 & H2 & H3) end.
  exists (g :: gs). split; [cbn; by rewrite Hl|].
  cbn [tkReserved tkLost tkWhole] in *. cbv zeta in *. rewrite H1, H2, H3. cbn [zip zip_with fmap list_fmap concat forallb].
  by rewrite !app_assoc, andb_assoc.
Qed.

Lemma reserve_pieces limit q a :
  grouped (actTlvs a) → ascending (actRollback a) → Forall (λ u, (firstTLV u < length (actTlvs a))%nat) (actRollback a) →
  ∃ granted q', length granted = length (pieces limit (actTlvs a)) ∧
    reserveBatchesTo linkLocal limit q a =
      (q', concat (placed a <$> zip (pieces limit (actTlvs a)) granted),
       concat (refused a <$> zip (pieces limit (actTlvs a)) granted), forallb isGranted granted) ∧
    concat (undosOf a <$> pieces limit (actTlvs a)) = actRollback a.
Proof.
  intros Hg Ha Hf. destruct (pieces_cover limit _ Hg) as (segs & Hc & Hs).
  unfold reserveBatchesTo. rewrite fill_pieces. change (piecesFrom limit (actTlvs a) 0 (newBatch 0)) with (pieces limit (actTlvs a)).
  destruct (hand_pieces limit a _ Ha 0 segs (mkTaking q [] [] true (actRollback a)) Hc) as (gs & Hl & H1 & H2 & H3).
  { cbn [tkPending]. symmetry. apply forallb_filter_id, forallb_forall. done. }
  eexists gs, _. split_and!; [done | | rewrite (covers_undos _ _ _ Ha _ _ Hc), Hs; by apply undosIn_all].
  cbv zeta. rewrite H1, H2, H3. done.
Qed.

(** every undo travels with the packet that carries its TLVs. Of the packets
    an action is split into, those that took a place carry the undos of their own
    TLVs for the transport to give back if it loses them, the undos of the others
    are reported at once, the action is whole exactly when no packet was refused,
    and the packets' undos together are the action's, each once and in order. *)
Theorem undos_follow_packets limit q a :
  grouped (actTlvs a) → ascending (actRollback a) → Forall (λ u, (firstTLV u < length (actTlvs a))%nat) (actRollback a) →
  ∃ granted q', length granted = length (pieces limit (actTlvs a)) ∧
    reserveBatchesTo linkLocal limit q a =
      (q', concat (placed a <$> zip (pieces limit (actTlvs a)) granted),
       concat (refused a <$> zip (pieces limit (actTlvs a)) granted), forallb isGranted granted) ∧
    concat (undosOf a <$> pieces limit (actTlvs a)) = actRollback a.
Proof. apply reserve_pieces. Qed.

End reservations.

(** ** Merging the actions of a pass *)

(** The actions the builders make: there is something to say, every Update with
    its router-id, and the undos point into it in order. *)
Record action_ok (a : sendAction) : Prop := {
  ao_some : actTlvs a ≠ [];
  ao_grouped : grouped (actTlvs a);
  ao_sorted : ascending (actRollback a);
  ao_inside : Forall (λ u, (firstTLV u < length (actTlvs a))%nat) (actRollback a)
}.

Lemma ascending_app l1 l2 n : ascending l1 → ascending l2 → Forall (λ u, (firstTLV u < n)%nat) l1 →
  ascending (l1 ++ (shiftUndo n <$> l2)).
Proof.
  intros H1 H2 Hn. induction H1 as [|u l1 Hs IH Hf]; cbn [app].
  - clear Hn. induction H2 as [|v l2 Hs IH Hf]; [constructor|]. rewrite fmap_cons. constructor; [done|].
    apply Forall_fmap. eapply Forall_impl; [done|]. intros w Hw. cbn in *. lia.
  - apply Forall_cons in Hn as [Hu Hn]. constructor; [by apply IH|]. apply Forall_app. split; [done|].
    apply Forall_fmap, Forall_true. intros w. cbn in *. lia.
Qed.

Lemma mergeInto_ok m a : action_ok m → action_ok a → action_ok (mergeInto m a).
Proof.
  intros [H1 H2 H3 H4] [G1 G2 G3 G4]. split; cbn [mergeInto actTlvs actRollback].
  - by intros [? _]%app_nil.
  - by apply grouped_app.
  - by apply ascending_app.
  - rewrite length_app. apply Forall_app. split; [eapply Forall_impl; [done|]; intros ??; cbn in *; lia|].
    apply Forall_fmap. eapply Forall_impl; [done|]. intros u Hu. cbn in *. lia.
Qed.

(** The actions for one target, in order. *)
Definition toTarget (τ : target) (l : list sendAction) : list sendAction := List.filter (λ a, bool_decide (targetOf a = τ)) l.

(** The index names the entry of each target, and there is one. *)
Definition indexed (s : list sendAction * gmap target nat) : Prop :=
  ∀ τ i, s.2 !! τ = Some i ↔ targetOf <$> s.1 !! i = Some τ.

Lemma toTarget_app τ a b : toTarget τ (a ++ b) = toTarget τ a ++ toTarget τ b.
Proof. apply List.filter_app. Qed.

Lemma toTarget_cons τ a l : toTarget τ (a :: l) = (if bool_decide (targetOf a = τ) then [a] else []) ++ toTarget τ l.
Proof. unfold toTarget. cbn. by destruct (bool_decide _). Qed.

Lemma toTarget_none τ l : (∀ i, targetOf <$> l !! i ≠ Some τ) → toTarget τ l = [].
Proof.
  induction l as [|a l IH]; intros Hn; [done|]. rewrite toTarget_cons, IH by (intros i; apply (Hn (S i))).
  rewrite bool_decide_eq_false_2; [done|]. intros <-. by apply (Hn 0%nat).
Qed.

Section merging.
(** Something an action carries that merging appends. *)
Context {B : Type} (f : sendAction → list B) (Hf : ∀ m a, action_ok m → action_ok a → f (mergeInto m a) = f m ++ f a).

Definition carried (τ : target) (l : list sendAction) : list B := concat (f <$> toTarget τ l).

Lemma carried_app τ a b : carried τ (a ++ b) = carried τ a ++ carried τ b.
Proof. unfold carried. by rewrite toTarget_app, fmap_app, concat_app. Qed.

Lemma coalesceStep_carried s a : indexed s → Forall action_ok s.1 → action_ok a →
  let s' := coalesceStep s a in
  indexed s' ∧ Forall action_ok s'.1 ∧ ∀ τ, carried τ s'.1 = carried τ s.1 ++ carried τ [a].
Proof.
  destruct s as [merged at_]. intros Hi Hok Ha. unfold coalesceStep. cbn [fst snd] in *.
  destruct (Nat.eqb_spec (length (actTlvs a)) 0) as [Hz|_]; [destruct (ao_some _ Ha); by destruct (actTlvs a)|].
  destruct (at_ !! targetOf a) as [i|] eqn:E; cbn [fst snd].
  - pose proof (proj1 (Hi _ _) E) as Hm. cbn [fst snd] in Hm. destruct (merged !! i) as [m|] eqn:Em; [|done]. cbn in Hm. apply (inj Some) in Hm.
    assert (targetOf (mergeInto m a) = targetOf a) as Ht by (rewrite <- Hm; done).
    pose proof (lookup_lt_Some _ _ _ Em) as Hlt. cbn [fst snd].
    assert (action_ok m) as Hokm by (eapply Forall_lookup_1; done). split_and!.
    + intros τ j. cbn [fst snd]. rewrite (Hi τ j). cbn [fst snd]. destruct (decide (i = j)) as [<-|Hne].
      * rewrite list_lookup_insert_eq, Em by done. cbn. by rewrite Ht, Hm.
      * by rewrite list_lookup_insert_ne.
    + apply Forall_insert; [done|]. by apply mergeInto_ok.
    + intros τ. rewrite <- (take_drop_middle _ _ _ Em) at 2. rewrite insert_take_drop by done.
      assert (∀ (x : sendAction) l1 l2, l1 ++ x :: l2 = l1 ++ [x] ++ l2) as Hc by done. rewrite !Hc, !carried_app.
      unfold carried at 2 5 7. rewrite !toTarget_cons. cbn [toTarget List.filter]. rewrite Ht, Hm.
      case_bool_decide as Eτ; cbn [app fmap list_fmap concat]; [|by rewrite !app_nil_r].
      rewrite Hf, !app_nil_r, <- !app_assoc by done. do 2 f_equal.
      assert (carried τ (drop (S i) merged) = []) as ->; [|by rewrite app_nil_r].
      unfold carried. rewrite toTarget_none; [done|]. intros j. rewrite lookup_drop. intros Hj.
      apply (Hi τ) in Hj. cbn [fst snd] in Hj. rewrite Eτ in E. rewrite E in Hj. injection Hj as Hj. lia.
  - split_and!; [|by apply Forall_app_2; [|constructor]|by intros; apply carried_app].
    intros τ j. cbn [fst snd]. destruct (decide (targetOf a = τ)) as [<-|Hne].
    + rewrite lookup_insert_eq. split.
      * intros [= <-]. by rewrite lookup_app_r, Nat.sub_diag by lia.
      * intros Hj. destruct (Nat.lt_ge_cases j (length merged)) as [Hl|Hl].
        { rewrite lookup_app_l in Hj by done. apply (Hi (targetOf a) j) in Hj. cbn in Hj. by rewrite E in Hj. }
        rewrite lookup_app_r in Hj by done. destruct (j - length merged)%nat as [|k] eqn:Ek; [f_equal; lia | done].
    + rewrite lookup_insert_ne by done. rewrite (Hi τ j). cbn [fst snd].
      destruct (Nat.lt_ge_cases j (length merged)) as [Hl|Hl]; [by rewrite lookup_app_l|].
      rewrite lookup_app_r by done. rewrite (lookup_ge_None_2 merged j) by done. split; [done|].
      destruct (j - length merged)%nat as [|k]; cbn; [congruence | done].
Qed.

Lemma coalesce_loop actions : Forall action_ok actions → ∀ s, indexed s → Forall action_ok s.1 →
  let s' := fold_left coalesceStep actions s in
  indexed s' ∧ Forall action_ok s'.1 ∧ ∀ τ, carried τ s'.1 = carried τ s.1 ++ carried τ actions.
Proof.
  induction 1 as [|a actions Ha _ IH]; intros s Hi Hs; cbn [fold_left].
  { split_and!; [done | done |]. intros τ. change (carried τ []) with (@nil B). by rewrite app_nil_r. }
  destruct (coalesceStep_carried s a Hi Hs Ha) as (H1 & H2 & H3). destruct (IH _ H1 H2) as (G1 & G2 & G3).
  split_and!; [done | done |]. intros τ. rewrite G3, H3, <- app_assoc. f_equal. by rewrite <- carried_app.
Qed.

Lemma coalesce_carried actions : Forall action_ok actions →
  Forall action_ok (coalesce actions) ∧ NoDup (targetOf <$> coalesce actions) ∧ ∀ τ, carried τ (coalesce actions) = carried τ actions.
Proof.
  intros Ha. unfold coalesce. destruct (Nat.ltb_spec (length actions) 2) as [Hl|Hl].
  { split_and!; [done | | done]. destruct actions as [|a [|b l]]; cbn in *; [constructor | by repeat constructor; set_solver | lia]. }
  destruct (coalesce_loop actions Ha ([], ∅)) as (H1 & H2 & H3); [|constructor|].
  { intros τ i. cbn. by rewrite lookup_empty. }
  split_and!; [done | | intros τ; by rewrite H3]. apply NoDup_alt. intros i j τ Hi Hj. rewrite list_lookup_fmap in Hi, Hj.
  apply H1 in Hi, Hj. congruence.
Qed.

End merging.

(** An undo with the TLV it points at. *)
Definition resolved (a : sendAction) : list (routeKey * bool * option RawTLV) :=
  (λ u, (undoKey u, spent u, actTlvs a !! firstTLV u)) <$> actRollback a.

Lemma resolved_merge m a : action_ok m → action_ok a → resolved (mergeInto m a) = resolved m ++ resolved a.
Proof.
  intros [_ _ _ Hm] _. unfold resolved. cbn [mergeInto actTlvs actRollback]. rewrite fmap_app. f_equal.
  - apply list_fmap_ext. intros i u Hu. rewrite lookup_app_l; [done|]. by eapply (Forall_lookup_1 _ _ _ _ Hm).
  - rewrite <- list_fmap_compose. apply list_fmap_ext. intros i u _. cbn.
    rewrite lookup_app_r by lia. by replace (firstTLV u + length (actTlvs m) - length (actTlvs m))%nat with (firstTLV u) by lia.
Qed.

(** merging the actions of a pass loses and reorders nothing. There is one
    merged action per neighbor, destination and priority; it says what the
    actions for that target said, in order; its undos are theirs, each pointing
    at the same TLV as before; it takes back the Hellos they would; and it is
    again something the packing handles. *)
Theorem coalesce_faithful actions :
  Forall action_ok actions →
  Forall action_ok (coalesce actions) ∧ NoDup (targetOf <$> coalesce actions) ∧
  ∀ τ, carried actTlvs τ (coalesce actions) = carried actTlvs τ actions ∧
    carried resolved τ (coalesce actions) = carried resolved τ actions ∧
    carried whenRefused τ (coalesce actions) = carried whenRefused τ actions.
Proof.
  intros Ha. destruct (coalesce_carried actTlvs (λ _ _ _ _, eq_refl) actions Ha) as (H1 & H2 & H3).
  destruct (coalesce_carried resolved resolved_merge actions Ha) as (_ & _ & H4).
  destruct (coalesce_carried whenRefused (λ _ _ _ _, eq_refl) actions Ha) as (_ & _ & H5). done.
Qed.

(** ** The order of a pass *)

Definition withPriority (p : sendPriority) (l : list sendAction) : list sendAction :=
  List.filter (λ a, bool_decide (actPriority a = p)) l.

Lemma insertAction_split a h r d :
  Forall (λ b, actPriority b = priorityHello) h → Forall (λ b, actPriority b = priorityRequest) r →
  Forall (λ b, actPriority b = priorityDump) d →
  insertAction a (h ++ r ++ d) = withPriority priorityHello [a] ++ h ++ withPriority priorityRequest [a] ++ r ++
    withPriority priorityDump [a] ++ d.
Proof.
  assert (∀ l, Forall (λ b, rank (actPriority a) ≤ rank (actPriority b)) l → insertAction a l = a :: l) as Hfirst.
  { intros [|b l] Hl; [done|]. cbn. by rewrite (proj2 (Z.leb_le _ _)) by (by inversion Hl). }
  assert (∀ p l l', Forall (λ b, actPriority b = p) l → rank p < rank (actPriority a) →
    insertAction a (l ++ l') = l ++ insertAction a l') as Hskip.
  { intros p l l' Hl Hp. induction Hl as [|b l Hb _ IH]; [done|]. cbn. rewrite (proj2 (Z.leb_gt _ _)) by (rewrite Hb; done). by f_equal. }
  intros Hh Hr Hd. unfold withPriority. cbn [List.filter].
  assert (∀ p l, Forall (λ b, actPriority b = p) l → rank (actPriority a) ≤ rank p →
    Forall (λ b, rank (actPriority a) ≤ rank (actPriority b)) l) as Hle.
  { intros p l Hl Hp. eapply Forall_impl; [done|]. intros b Hb. cbn in *. by rewrite Hb. }
  destruct (actPriority a) eqn:Ea; rewrite ?Ea in *; repeat case_bool_decide; try done; cbn [app].
  - rewrite Hfirst; [done|]. rewrite !Forall_app. split_and!; eapply Hle; try done.
  - rewrite (Hskip priorityHello), Hfirst; [done | | done | done]. rewrite !Forall_app. split_and!; eapply Hle; try done.
  - rewrite (Hskip priorityHello), (Hskip priorityRequest), Hfirst by done || (eapply Hle; done). done.
Qed.

Lemma withPriority_all p l : Forall (λ b, actPriority b = p) (withPriority p l).
Proof.
  apply Forall_forall. intros a Ha. apply list_elem_of_In, List.filter_In in Ha as [_ Ha]. by apply bool_decide_eq_true in Ha.
Qed.

(** The Hellos of a pass take their places first, then the requests, then the
    dump, each in the order they were made. *)
Lemma sortStable_order l :
  sortStable l = withPriority priorityHello l ++ withPriority priorityRequest l ++ withPriority priorityDump l.
Proof.
  induction l as [|a l IH]; [done|]. cbn [sortStable foldr]. change (foldr insertAction [] l) with (sortStable l).
  rewrite IH, insertAction_split by apply withPriority_all.
  unfold withPriority. cbn [List.filter]. repeat case_bool_decide; cbn [app]; try done; congruence.
Qed.
