(* ===== verification/BabelRequest.v ===== *)
(** * Sequence number requests: internal/babel/speaker.go and send.go

    A request forwarded for a neighbor, a request this node makes for itself when
    a prefix is left without a route, and the retries of the latter. What bounds
    them is the subject: how many are remembered for whom, how soon one may be
    repeated, and when the records are looked at again. The fields of the speaker
    that keep these records are one record here. A loop over a map takes the order
    it visits the keys in. *)

From S2P Require Import Prelude Netip BabelTlv BabelRaw BabelMetric BabelRoute BabelFeasible BabelTable.

Definition seqnoRequestSuppress : Z := 2 * Second.
Definition maxPendingSeqno : Z := Z.shiftl 1 12.
Definition maxPendingSeqnoPerNeighbor : Z := Z.shiftl 1 10.
Definition maxStarveRetries : Z := Z.shiftl 1 12.
Definition maxStarveRetriesPerNeighbor : Z := Z.shiftl 1 10.
Definition seqnoRequestHopCount : Z := 64.
Definition seqnoRequestRetries : Z := 4.
Definition seqnoRetryInitial : Z := 3 * Second.

Record pendingSeqno := mkPending { pdSeqno : Z; sentAt : Z; pdAsker : string }.

Record starveRetry := mkRetry {
  rtKey : routeKey; rtRouterID : list Z; rtSeqno : Z; attempts : Z; nextAt : Z; rtAsker : string
}.

(** [askedKey]: a source and the neighbor asked. *)
Abbreviation askedKey := (sourceKey * nat)%type.

Record requests := mkRequests {
  pendingSeqnos : gmap sourceKey pendingSeqno;
  pendingByAsker : gmap string Z;
  askedSeqno : gmap askedKey Z;
  starveRetries : gmap sourceKey starveRetry;
  starveBy : gmap string Z;
  nextRequestSweep : Z;
  nextStarveRetry : Z
}.

Definition noRequests : requests := mkRequests ∅ ∅ ∅ ∅ ∅ 0 0.

Definition set_pending rq p b := mkRequests p b (askedSeqno rq) (starveRetries rq) (starveBy rq) (nextRequestSweep rq) (nextStarveRetry rq).
Definition set_asked rq a := mkRequests (pendingSeqnos rq) (pendingByAsker rq) a (starveRetries rq) (starveBy rq) (nextRequestSweep rq) (nextStarveRetry rq).
Definition set_retries rq r b := mkRequests (pendingSeqnos rq) (pendingByAsker rq) (askedSeqno rq) r b (nextRequestSweep rq) (nextStarveRetry rq).
Definition set_sweep rq t := mkRequests (pendingSeqnos rq) (pendingByAsker rq) (askedSeqno rq) (starveRetries rq) (starveBy rq) t (nextStarveRetry rq).
Definition set_nextRetry rq t := mkRequests (pendingSeqnos rq) (pendingByAsker rq) (askedSeqno rq) (starveRetries rq) (starveBy rq) (nextRequestSweep rq) t.

(** ** Pending requests *)

Definition noteRequestSweep (rq : requests) (at_ : Z) : requests :=
  set_sweep rq (earlier (nextRequestSweep rq) (at_ + seqnoRequestSuppress)).

Definition releaseSeqnoRequest (rq : requests) (entry : pendingSeqno) : requests :=
  set_pending rq (pendingSeqnos rq) (decr (pendingByAsker rq) (pdAsker entry)).

Definition recordSeqnoRequest (rq : requests) (index : sourceKey) (seqno : Z) (asker : string) (now : Z) : requests :=
  let rq := match pendingSeqnos rq !! index with Some previous => releaseSeqnoRequest rq previous | None => rq end in
  let rq := set_pending rq (<[index := mkPending seqno now asker]> (pendingSeqnos rq)) (pendingByAsker rq) in
  let rq := set_pending rq (pendingSeqnos rq) (incr (pendingByAsker rq) asker) in
  noteRequestSweep rq now.

Definition allowSeqnoRequest (rq : requests) (index : sourceKey) (seqno : Z) (asker : string) (now : Z) : bool * requests :=
  let pending := pendingSeqnos rq !! index in
  let recent := match pending with
                | Some p => (now <? sentAt p + seqnoRequestSuppress) && negb (seqnoGT seqno (pdSeqno p))
                | None => false end in
  let own := match pending with Some p => bool_decide (pdAsker p = asker) | None => false end in
  if recent then (false, rq)
  else if (maxPendingSeqnoPerNeighbor <=? count (pendingByAsker rq) asker) && negb own then (false, rq)
  else if isNone pending && (maxPendingSeqno <=? Z.of_nat (size (pendingSeqnos rq))) then (false, rq)
  else (true, recordSeqnoRequest rq index seqno asker now).

(** One turn of each loop of [sweepRequestsLocked]. *)
Definition sweepPending (now : Z) (rq : requests) (index : sourceKey) : requests :=
  match pendingSeqnos rq !! index with
  | None => rq
  | Some pending =>
      if negb (now <? sentAt pending + seqnoRequestSuppress) then
        let rq := releaseSeqnoRequest rq pending in
        set_pending rq (delete index (pendingSeqnos rq)) (pendingByAsker rq)
      else noteRequestSweep rq (sentAt pending)
  end.

Definition sweepAsked (now : Z) (rq : requests) (index : askedKey) : requests :=
  match askedSeqno rq !! index with
  | None => rq
  | Some at_ =>
      if negb (now <? at_ + seqnoRequestSuppress) then set_asked rq (delete index (askedSeqno rq))
      else noteRequestSweep rq at_
  end.

Definition sweepRequestsLocked (rq : requests) (now : Z) (order : list sourceKey) (askedOrder : list askedKey) : requests :=
  fold_left (sweepAsked now) askedOrder (fold_left (sweepPending now) order (set_sweep rq 0)).

Definition allowAsk (rq : requests) (n : nat) (key : routeKey) (routerID : list Z) (now : Z) : bool * requests :=
  let index := (mkSourceKey key routerID, n) in
  let recent := match askedSeqno rq !! index with
                | Some at_ => now <? at_ + seqnoRequestSuppress
                | None => false end in
  if recent then (false, rq)
  else (true, noteRequestSweep (set_asked rq (<[index := now]> (askedSeqno rq))) now).

(** What [removePeer] does to the records. *)
Definition forgetAsked (rq : requests) (n : nat) (order : list askedKey) : requests :=
  fold_left (λ rq index, if bool_decide (index.2 = n) then set_asked rq (delete index (askedSeqno rq)) else rq) order rq.

(** ** Retries of this node's own requests *)

Definition rememberStarved (rq : requests) (key : routeKey) (routerID : list Z) (seqno : Z) (asker : string) (now : Z) : requests :=
  let id := mkSourceKey key routerID in
  match starveRetries rq !! id with
  | Some retry =>
      let retry := mkRetry (rtKey retry) (rtRouterID retry) seqno (attempts retry) (now + seqnoRetryInitial) (rtAsker retry) in
      set_nextRetry (set_retries rq (<[id := retry]> (starveRetries rq)) (starveBy rq))
        (earlier (nextStarveRetry rq) (nextAt retry))
  | None =>
      if (maxStarveRetries <=? Z.of_nat (size (starveRetries rq)))
         || (maxStarveRetriesPerNeighbor <=? count (starveBy rq) asker) then rq
      else
        let retry := mkRetry key routerID seqno 0 (now + seqnoRetryInitial) asker in
        let rq := set_retries rq (<[id := retry]> (starveRetries rq)) (starveBy rq) in
        let rq := set_nextRetry rq (earlier (nextStarveRetry rq) (now + seqnoRetryInitial)) in
        set_retries rq (starveRetries rq) (incr (starveBy rq) asker)
  end.

Definition forgetStarved (rq : requests) (id : sourceKey) (retry : starveRetry) : requests :=
  set_retries rq (delete id (starveRetries rq)) (decr (starveBy rq) (rtAsker retry)).

(** A request to make: the neighbor to ask, the source and the number. *)
Record ask := mkAsk { askNeighbor : nat; askKey : routeKey; askRouterID : list Z; askSeqno : Z }.

(** What [starvedActions] and [seqnoRequestTo] do to the records for one starved
    prefix. *)
Definition starvedAsk (rq : requests) (n : nat) (key : routeKey) (routerID : list Z) (seqno : Z) (peer : string) (now : Z) :
    requests * list ask :=
  match allowAsk rq n key routerID now with
  | (false, rq) => (rq, [])
  | (true, rq) =>
      let rq := (allowSeqnoRequest rq (mkSourceKey key routerID) seqno "" now).2 in
      (rememberStarved rq key routerID seqno peer now, [mkAsk n key routerID seqno])
  end.

Section retry.
(** Whether a prefix has a route selected, and the neighbors that are alive and
    hold a route to it, in the order the turn for a source visits them. *)
Variable selectedNow : routeKey → bool.
Variable holders : sourceKey → routeKey → list nat.

(** [seqnoRequestTo] records the request whatever [allowSeqnoRequest] answers. *)
Definition retryAsk (retry : starveRetry) (now : Z) (s : requests * list ask) (n : nat) : requests * list ask :=
  let '(rq, asks) := s in
  match allowAsk rq n (rtKey retry) (rtRouterID retry) now with
  | (false, rq) => (rq, asks)
  | (true, rq) =>
      ((allowSeqnoRequest rq (mkSourceKey (rtKey retry) (rtRouterID retry)) (rtSeqno retry) "" now).2,
       asks ++ [mkAsk n (rtKey retry) (rtRouterID retry) (rtSeqno retry)])
  end.

Definition retryStep (now : Z) (s : requests * list ask) (id : sourceKey) : requests * list ask :=
  let '(rq, asks) := s in
  match starveRetries rq !! id with
  | None => s
  | Some retry =>
      if selectedNow (rtKey retry) then (forgetStarved rq id retry, asks)
      else if now <? nextAt retry then (set_nextRetry rq (earlier (nextStarveRetry rq) (nextAt retry)), asks)
      else if seqnoRequestRetries <=? attempts retry then (forgetStarved rq id retry, asks)
      else
        let k := attempts retry + 1 in
        let retry := mkRetry (rtKey retry) (rtRouterID retry) (rtSeqno retry) k
                       (now + Z.shiftl seqnoRetryInitial (k - 1)) (rtAsker retry) in
        let rq := set_retries rq (<[id := retry]> (starveRetries rq)) (starveBy rq) in
        let rq := set_nextRetry rq (earlier (nextStarveRetry rq) (nextAt retry)) in
        fold_left (retryAsk retry now) (holders id (rtKey retry)) (rq, asks)
  end.

Definition retryStarvedLocked (rq : requests) (now : Z) (order : list sourceKey) : requests * list ask :=
  fold_left (retryStep now) order (set_nextRetry rq 0, []).

End retry.

(** ** The records are bounded and looked at in time *)

(** A wake-up at [t] is set and not later than [d]. *)
Definition timely (t d : Z) : Prop := 0 < t ≤ d.

Lemma timely_new t d : 0 ≤ t → 0 < d → timely (earlier t d) d.
Proof. intros Ht Hd. apply (earlier_bounds t d Ht Hd). Qed.

Lemma timely_old t d x : 0 ≤ t → 0 < d → timely t x → timely (earlier t d) x.
Proof. intros Ht Hd [H1 H2]. destruct (earlier_bounds t d Ht Hd) as [H3 H4]. specialize (H4 H1). unfold timely. lia. Qed.

Lemma earlier_nonneg t d : 0 ≤ t → 0 < d → 0 ≤ earlier t d.
Proof. intros Ht Hd. destruct (earlier_bounds t d Ht Hd). lia. Qed.

(** The shares agree with the tables, and nobody has more than their share. *)
Record shares_ok (rq : requests) : Prop := {
  so_pending : counted (λ kv : sourceKey * pendingSeqno, pdAsker kv.2) (pendingSeqnos rq) (pendingByAsker rq);
  so_starve : counted (λ kv : sourceKey * starveRetry, rtAsker kv.2) (starveRetries rq) (starveBy rq);
  so_pending_size : Z.of_nat (size (pendingSeqnos rq)) ≤ maxPendingSeqno;
  so_starve_size : Z.of_nat (size (starveRetries rq)) ≤ maxStarveRetries;
  so_pending_share : ∀ asker, count (pendingByAsker rq) asker ≤ maxPendingSeqnoPerNeighbor;
  so_starve_share : ∀ asker, count (starveBy rq) asker ≤ maxStarveRetriesPerNeighbor
}.

(** The sweep of the suppression records comes in time for all of them but
    those in [K] and [A], which a loop has yet to visit. *)
Record wakeups_ok (K : list sourceKey) (A : list askedKey) (rq : requests) : Prop := {
  sw_next : 0 ≤ nextRequestSweep rq;
  sw_pending : ∀ i p, pendingSeqnos rq !! i = Some p → 0 < sentAt p ∧
    (i ∈ K ∨ timely (nextRequestSweep rq) (sentAt p + seqnoRequestSuppress));
  sw_asked : ∀ i at_, askedSeqno rq !! i = Some at_ → 0 < at_ ∧
    (i ∈ A ∨ timely (nextRequestSweep rq) (at_ + seqnoRequestSuppress))
}.

(** Likewise for the retries, none of which has been used up. *)
Record retries_ok (K : list sourceKey) (rq : requests) : Prop := {
  re_next : 0 ≤ nextStarveRetry rq;
  re_each : ∀ id r, starveRetries rq !! id = Some r → id = mkSourceKey (rtKey r) (rtRouterID r) ∧
    0 ≤ attempts r ≤ seqnoRequestRetries ∧ 0 < nextAt r ∧ (id ∈ K ∨ timely (nextStarveRetry rq) (nextAt r))
}.

Lemma count_incr_le (m : gmap string Z) k a n : (∀ x, count m x ≤ n) → count m k + 1 ≤ n → count (incr m k) a ≤ n.
Proof.
  intros Hm Hk. unfold incr, count at 1. destruct (decide (k = a)) as [<-|Hne].
  - rewrite lookup_insert_eq. done.
  - rewrite lookup_insert_ne by done. apply Hm.
Qed.

Lemma count_decr_le (m : gmap string Z) k a n : 0 ≤ n → (∀ x, count m x ≤ n) → count (decr m k) a ≤ n.
Proof.
  intros Hn Hm. unfold decr. destruct (Z.leb_spec (count m k) 1); unfold count at 1; destruct (decide (k = a)) as [<-|Hne].
  - by rewrite lookup_delete_eq.
  - rewrite lookup_delete_ne by done. apply Hm.
  - rewrite lookup_insert_eq. cbn. specialize (Hm k). lia.
  - rewrite lookup_insert_ne by done. apply Hm.
Qed.

Lemma count_decr_eq {I V} `{Countable I} (f : I * V → string) src m i e :
  counted f src m → src !! i = Some e → count (decr m (f (i, e))) (f (i, e)) = count m (f (i, e)) - 1.
Proof.
  intros Hc Hs. pose proof (counted_decr f src m i e Hc Hs) as Hd. rewrite (counted_count f _ _ _ Hd), (counted_count f _ _ _ Hc).
  rewrite (tally_delete f src i e _ Hs). by rewrite decide_True.
Qed.

(** *** Pending requests *)

Lemma noteSweep_ok K A rq at_ : wakeups_ok K A rq → 0 < at_ → wakeups_ok K A (noteRequestSweep rq at_).
Proof.
  intros [H1 H2 H3] Ha. assert (0 < at_ + seqnoRequestSuppress) by (unfold seqnoRequestSuppress, Second, Millisecond; lia).
  split; cbn [noteRequestSweep set_sweep nextRequestSweep pendingSeqnos askedSeqno].
  - by apply earlier_nonneg.
  - intros i p Hp. destruct (H2 i p Hp) as [? [?|?]]; split; auto. right. by apply timely_old.
  - intros i t Ht. destruct (H3 i t Ht) as [? [?|?]]; split; auto. right. by apply timely_old.
Qed.

Lemma noteSweep_timely rq at_ : 0 ≤ nextRequestSweep rq → 0 < at_ →
  timely (nextRequestSweep (noteRequestSweep rq at_)) (at_ + seqnoRequestSuppress).
Proof. intros H1 Ha. apply timely_new; [done|]. unfold seqnoRequestSuppress, Second, Millisecond. lia. Qed.

Lemma record_shares rq index seqno asker now : shares_ok rq →
  (count (pendingByAsker rq) asker < maxPendingSeqnoPerNeighbor ∨
     ∃ p, pendingSeqnos rq !! index = Some p ∧ pdAsker p = asker) →
  (pendingSeqnos rq !! index = None → Z.of_nat (size (pendingSeqnos rq)) < maxPendingSeqno) →
  shares_ok (recordSeqnoRequest rq index seqno asker now).
Proof.
  intros [H1 H2 H3 H4 H5 H6] Hs Hz. unfold recordSeqnoRequest. set (p' := mkPending seqno now asker).
  assert (0 ≤ maxPendingSeqnoPerNeighbor) as Hpos by done.
  destruct (pendingSeqnos rq !! index) as [p|] eqn:E; split; cbn; try done.
  - apply (counted_move _ _ _ index p p' H1 E).
  - rewrite map_size_insert_Some by (by eexists). done.
  - intros a. apply count_incr_le; [intros; by apply count_decr_le|].
    pose proof (count_decr_eq _ _ _ index p H1 E) as Hd. cbn in Hd. destruct Hs as [Hs|(? & [= <-] & <-)].
    + pose proof (count_decr_le (pendingByAsker rq) (pdAsker p) asker (maxPendingSeqnoPerNeighbor - 1)) as Hl.
      destruct (decide (pdAsker p = asker)) as [<-|Hne]; [lia|].
      assert (count (decr (pendingByAsker rq) (pdAsker p)) asker = count (pendingByAsker rq) asker) as ->; [|lia].
      unfold decr, count. destruct (_ <=? 1); by rewrite ?lookup_delete_ne, ?lookup_insert_ne.
    + rewrite Hd. specialize (H5 (pdAsker p)). lia.
  - apply (counted_incr _ _ _ index p' H1 E).
  - rewrite map_size_insert_None by done. specialize (Hz eq_refl). lia.
  - intros a. apply count_incr_le; [done|]. destruct Hs as [?|(? & ? & _)]; [lia | done].
Qed.

Lemma record_sweep K A rq index seqno asker now : 0 < now → wakeups_ok K A rq →
  wakeups_ok K A (recordSeqnoRequest rq index seqno asker now).
Proof.
  intros Hn Hs. unfold recordSeqnoRequest. set (rq1 := match pendingSeqnos rq !! index with Some _ => _ | None => _ end).
  assert (pendingSeqnos rq1 = pendingSeqnos rq ∧ askedSeqno rq1 = askedSeqno rq ∧ nextRequestSweep rq1 = nextRequestSweep rq)
    as (E1 & E2 & E3) by (unfold rq1; by destruct (pendingSeqnos rq !! index)).
  destruct (noteSweep_ok K A rq now Hs Hn) as [H1 H2 H3]. split; cbn in *; rewrite ?E1, ?E2, ?E3; try done.
  intros i p. destruct (decide (index = i)) as [<-|Hne].
  - rewrite lookup_insert_eq. intros [= <-]. cbn. split; [done|]. right. by apply (noteSweep_timely rq), Hn; apply Hs.
  - rewrite lookup_insert_ne by done. apply H2.
Qed.

Lemma record_retries K rq index seqno asker now : retries_ok K rq → retries_ok K (recordSeqnoRequest rq index seqno asker now).
Proof. intros [H1 H2]. unfold recordSeqnoRequest. by destruct (pendingSeqnos rq !! index); split. Qed.

Record requests_ok (K : list sourceKey) (A : list askedKey) (R : list sourceKey) (rq : requests) : Prop := {
  ro_shares : shares_ok rq;
  ro_sweep : wakeups_ok K A rq;
  ro_retries : retries_ok R rq
}.

Lemma noRequests_ok : requests_ok [] [] [] noRequests.
Proof.
  split; split; try done; cbn; intros *; try (by rewrite lookup_empty); unfold tally; cbn.
  all: by rewrite map_filter_empty, map_size_empty, lookup_empty.
Qed.

Lemma allowSeqnoRequest_ok K A R rq index seqno asker now : 0 < now → requests_ok K A R rq →
  requests_ok K A R (allowSeqnoRequest rq index seqno asker now).2.
Proof.
  intros Hn Hok. unfold allowSeqnoRequest. destruct (match pendingSeqnos rq !! index with Some p => _ | None => false end); [done|].
  destruct (_ && _) eqn:E1; [done|]. destruct (isNone _ && _) eqn:E2; [done|]. cbn [snd]. destruct Hok as [H1 H2 H3].
  split; [apply record_shares; [done|..] | by apply record_sweep | by apply record_retries].
  - apply andb_false_iff in E1 as [E1|E1]; [left; bool_props; lia|]. apply negb_false_iff in E1. right.
    destruct (pendingSeqnos rq !! index) as [p|]; [|done]. exists p. by apply bool_decide_eq_true in E1.
  - intros Hnone. rewrite Hnone in E2. cbn in E2. bool_props. lia.
Qed.

Lemma allowAsk_ok K A R rq n key rid now : 0 < now → requests_ok K A R rq → requests_ok K A R (allowAsk rq n key rid now).2.
Proof.
  intros Hn Hok. unfold allowAsk. destruct (match askedSeqno rq !! _ with Some _ => _ | None => _ end); [done|].
  cbn [snd]. destruct Hok as [[] H2 []]. split; [done | | done].
  destruct (noteSweep_ok K A rq now H2 Hn) as [G1 G2 G3]. split; cbn in *; try done. intros i t.
  destruct (decide ((mkSourceKey key rid, n) = i)) as [<-|Hne].
  - rewrite lookup_insert_eq. intros [= <-]. split; [done|]. right. apply (noteSweep_timely rq); [apply H2 | done].
  - rewrite lookup_insert_ne by done. apply G3.
Qed.

(** *** The sweep *)

Lemma sweepPending_ok now index K A R rq : requests_ok (index :: K) A R rq → requests_ok K A R (sweepPending now rq index).
Proof.
  intros [[S1 S2 S3 S4 S5 S6] Hs [R1 R2]]. unfold sweepPending. destruct (pendingSeqnos rq !! index) as [p|] eqn:E.
  - destruct (_ <? _) eqn:Et; cbn [negb].
    + split; [done | | done]. destruct Hs as [H1 H2 H3]. destruct (H2 index p E) as [Hp _].
      destruct (noteSweep_ok (index :: K) A rq (sentAt p)) as [G1 G2 G3]; [done | done |]. split; try done.
      intros i q Hi. destruct (G2 i q Hi) as [Hq [[->|Hk]%elem_of_cons|Ht]]; split; auto. right.
      cbn in Hi. rewrite E in Hi. injection Hi as <-. by apply noteSweep_timely.
    + split; [split; cbn; try done | | done].
      * apply (counted_decr _ _ _ index p S1 E).
      * rewrite map_size_delete, E. lia.
      * intros a. by apply count_decr_le.
      * destruct Hs as [H1 H2 H3]. split; cbn; try done. intros i q Hi. apply lookup_delete_Some in Hi as [Hne Hi].
        destruct (H2 i q Hi) as [Hq [[->|Hk]%elem_of_cons|Ht]]; split; auto. done.
  - split; [done | | done]. destruct Hs as [H1 H2 H3]. split; try done. intros i q Hi.
    destruct (H2 i q Hi) as [Hq [[->|Hk]%elem_of_cons|Ht]]; split; auto. by rewrite E in Hi.
Qed.

Lemma sweepAsked_ok now index K A R rq : requests_ok K (index :: A) R rq → requests_ok K A R (sweepAsked now rq index).
Proof.
  intros [[] Hs []]. unfold sweepAsked. destruct (askedSeqno rq !! index) as [t|] eqn:E; (split; [by destruct (negb _) || done | | by destruct (negb _) || done]).
  - destruct (_ <? _) eqn:Et; cbn [negb]; destruct Hs as [H1 H2 H3].
    + destruct (H3 index t E) as [Hp _]. destruct (noteSweep_ok K (index :: A) rq t) as [G1 G2 G3]; [done | done |]. split; try done.
      intros i q Hi. destruct (G3 i q Hi) as [Hq [[->|Hk]%elem_of_cons|Ht]]; split; auto. right.
      cbn in Hi. rewrite E in Hi. injection Hi as <-. by apply noteSweep_timely.
    + split; cbn; try done. intros i q Hi. apply lookup_delete_Some in Hi as [Hne Hi].
      destruct (H3 i q Hi) as [Hq [[->|Hk]%elem_of_cons|Ht]]; split; auto. done.
  - destruct Hs as [H1 H2 H3]. split; try done. intros i q Hi.
    destruct (H3 i q Hi) as [Hq [[->|Hk]%elem_of_cons|Ht]]; split; auto. by rewrite E in Hi.
Qed.

(** A loop over a map visits its keys. *)
Definition keysOf {K V} `{Countable K} (m : gmap K V) (order : list K) : Prop := ∀ k v, m !! k = Some v → k ∈ order.

Lemma sweepRequests_ok now R rq order askedOrder : keysOf (pendingSeqnos rq) order → keysOf (askedSeqno rq) askedOrder →
  requests_ok [] [] R rq → requests_ok [] [] R (sweepRequestsLocked rq now order askedOrder).
Proof.
  intros Hk Ha [[] [H1 H2 H3] []]. unfold sweepRequestsLocked.
  assert (requests_ok order askedOrder R (set_sweep rq 0)) as Hs.
  { split; [done | split; cbn | done]; [done | |]; intros i x Hi; split; eauto; [by eapply H2 | by eapply H3]. }
  revert Hs. generalize (set_sweep rq 0) as rq0. clear. induction order as [|i order IH]; intros rq0 Hs; cbn [fold_left].
  - revert rq0 Hs. induction askedOrder as [|i A IH]; intros rq0 Hs; [done|]. cbn [fold_left]. apply IH. by apply sweepAsked_ok.
  - apply IH. by apply sweepPending_ok.
Qed.

Lemma forgetAsked_ok n order : ∀ K A R rq, requests_ok K A R rq → requests_ok K A R (forgetAsked rq n order).
Proof.
  unfold forgetAsked. induction order as [|i order IH]; intros K A R rq Hok; [done|]. cbn [fold_left]. apply IH.
  case_bool_decide; [|done]. destruct Hok as [[] [H1 H2 H3] []]. split; [done | split; cbn; try done | done].
  intros j t Hj. apply lookup_delete_Some in Hj as [_ Hj]. by apply H3.
Qed.

(** *** Retries *)

Lemma rememberStarved_ok K A R rq key rid seqno asker now : 0 < now → requests_ok K A R rq →
  requests_ok K A R (rememberStarved rq key rid seqno asker now).
Proof.
  intros Hn [[S1 S2 S3 S4 S5 S6] [] [R1 R2]]. unfold rememberStarved. set (id := mkSourceKey key rid).
  assert (0 < now + seqnoRetryInitial) as Hpos by (unfold seqnoRetryInitial, Second, Millisecond; lia).
  destruct (starveRetries rq !! id) as [r|] eqn:E.
  - split; [split; cbn; try done | done | split; cbn; [by apply earlier_nonneg|]].
    + by eapply counted_same.
    + by rewrite map_size_insert_Some by (by eexists).
    + intros j q Hj. destruct (decide (id = j)) as [<-|Hne].
      * rewrite lookup_insert_eq in Hj. injection Hj as <-. cbn. destruct (R2 id r E) as (H1 & H2 & _).
        split_and!; try done; try lia. right. by apply timely_new.
      * rewrite lookup_insert_ne in Hj by done. destruct (R2 j q Hj) as (H1 & H2 & H3 & [H4|H4]); split_and!; auto; try lia.
        right. by apply timely_old.
  - destruct (_ || _) eqn:Eb; [split; split; done|]. apply orb_false_iff in Eb as [E1 E2]. bool_props.
    split; [split; cbn; try done | done | split; cbn; [by apply earlier_nonneg|]].
    + apply (counted_incr _ _ _ id (mkRetry key rid seqno 0 (now + seqnoRetryInitial) asker) S2 E).
    + rewrite map_size_insert_None by done. lia.
    + intros a. apply count_incr_le; [done | lia].
    + intros j q Hj. destruct (decide (id = j)) as [<-|Hne].
      * rewrite lookup_insert_eq in Hj. injection Hj as <-. cbn. split_and!; try done. right. by apply timely_new.
      * rewrite lookup_insert_ne in Hj by done. destruct (R2 j q Hj) as (H1 & H2 & H3 & [H4|H4]); split_and!; auto; try lia.
        right. by apply timely_old.
Qed.

Lemma forgetStarved_ok K A R rq id r : starveRetries rq !! id = Some r → requests_ok K A (id :: R) rq →
  requests_ok K A R (forgetStarved rq id r).
Proof.
  intros E [[S1 S2 S3 S4 S5 S6] [] [R1 R2]]. split; [split; cbn; try done | done | split; cbn; [done|]].
  - apply (counted_decr _ _ _ id r S2 E).
  - rewrite map_size_delete, E. lia.
  - intros a. by apply count_decr_le.
  - intros j q Hj. apply lookup_delete_Some in Hj as [Hne Hj]. destruct (R2 j q Hj) as (H1 & H2 & H3 & [[->|Hk]%elem_of_cons|H4]);
      split_and!; auto; try lia. done.
Qed.

Section retries.
Variables (selectedNow : routeKey → bool) (holders : sourceKey → routeKey → list nat).

Lemma allowSeqnoRequest_frame rq index seqno asker now : let rq' := (allowSeqnoRequest rq index seqno asker now).2 in
  starveRetries rq' = starveRetries rq ∧ starveBy rq' = starveBy rq ∧ nextStarveRetry rq' = nextStarveRetry rq ∧ askedSeqno rq' = askedSeqno rq.
Proof.
  unfold allowSeqnoRequest, recordSeqnoRequest. destruct (match pendingSeqnos rq !! index with Some p => _ | None => false end); [done|].
  destruct (_ && _); [done|]. destruct (isNone _ && _); [done|]. by destruct (pendingSeqnos rq !! index).
Qed.

Lemma allowAsk_frame rq n key rid now : let rq' := (allowAsk rq n key rid now).2 in
  starveRetries rq' = starveRetries rq ∧ starveBy rq' = starveBy rq ∧ nextStarveRetry rq' = nextStarveRetry rq ∧ pendingSeqnos rq' = pendingSeqnos rq.
Proof. unfold allowAsk. by destruct (match askedSeqno rq !! _ with Some _ => _ | None => _ end). Qed.

Lemma retryAsk_ok r now n K A R s : 0 < now → requests_ok K A R s.1 →
  requests_ok K A R (retryAsk r now s n).1 ∧ starveRetries (retryAsk r now s n).1 = starveRetries s.1.
Proof.
  intros Hn Hok. destruct s as [rq asks]. unfold retryAsk. cbn [fst] in *.
  pose proof (allowAsk_ok K A R rq n (rtKey r) (rtRouterID r) now Hn Hok) as H1.
  pose proof (allowAsk_frame rq n (rtKey r) (rtRouterID r) now) as (F1 & _).
  destruct (allowAsk _ _ _ _ _) as [[] rq']; cbn [fst snd] in *; [|done].
  split; [by apply allowSeqnoRequest_ok|]. rewrite <- F1. apply allowSeqnoRequest_frame.
Qed.

Lemma retryAsks_ok r now ns : 0 < now → ∀ K A R s, requests_ok K A R s.1 →
  requests_ok K A R (fold_left (retryAsk r now) ns s).1 ∧ starveRetries (fold_left (retryAsk r now) ns s).1 = starveRetries s.1.
Proof.
  intros Hn. induction ns as [|n ns IH]; intros K A R s Hok; [done|]. cbn [fold_left].
  destruct (retryAsk_ok r now n K A R s Hn Hok) as [H1 H2]. rewrite <- H2. by apply IH.
Qed.

(** What a turn makes of a retry. *)
Definition retried (now : Z) (r : starveRetry) : option starveRetry :=
  if selectedNow (rtKey r) then None
  else if now <? nextAt r then Some r
  else if seqnoRequestRetries <=? attempts r then None
  else Some (mkRetry (rtKey r) (rtRouterID r) (rtSeqno r) (attempts r + 1) (now + seqnoRetryInitial * 2 ^ attempts r) (rtAsker r)).

Lemma nextRetry_ok K A R rq id r r' : starveRetries rq !! id = Some r → requests_ok K A (id :: R) rq →
  rtKey r' = rtKey r → rtRouterID r' = rtRouterID r → rtAsker r' = rtAsker r → 0 ≤ attempts r' ≤ seqnoRequestRetries → 0 < nextAt r' →
  requests_ok K A R (set_nextRetry (set_retries rq (<[id := r']> (starveRetries rq)) (starveBy rq)) (earlier (nextStarveRetry rq) (nextAt r'))).
Proof.
  intros E [[S1 S2 S3 S4 S5 S6] [] [R1 R2]] Hk Hi Ha Hat Hn. split; [split; cbn; try done | done | split; cbn; [by apply earlier_nonneg|]].
  - eapply counted_same; [done | done |]. cbn. congruence.
  - by rewrite map_size_insert_Some by (by eexists).
  - intros j q Hj. destruct (decide (id = j)) as [<-|Hne].
    + rewrite lookup_insert_eq in Hj. injection Hj as <-. destruct (R2 id r E) as (H1 & _).
      split_and!; try done; try lia; [by rewrite Hk, Hi|]. right. by apply timely_new.
    + rewrite lookup_insert_ne in Hj by done.
      destruct (R2 j q Hj) as (H1 & H2 & H3 & [[->|Hin]%elem_of_cons|H4]); split_and!; auto; try lia; [done|].
      right. by apply timely_old.
Qed.

Lemma retryStep_ok now id K A R s : 0 < now → requests_ok K A (id :: R) s.1 →
  let s' := retryStep selectedNow holders now s id in
  requests_ok K A R s'.1 ∧ starveRetries s'.1 !! id = (starveRetries s.1 !! id ≫= retried now) ∧
  ∀ j, j ≠ id → starveRetries s'.1 !! j = starveRetries s.1 !! j.
Proof.
  destruct s as [rq asks]. intros Hn Hok. cbn [fst] in *. unfold retryStep. destruct (starveRetries rq !! id) as [r|] eqn:E; cbn [fst mbind option_bind].
  - destruct (re_each _ _ (ro_retries _ _ _ _ Hok) id r E) as (Hid & Ha & Hna & _). unfold retried.
    destruct (selectedNow (rtKey r)).
    { split_and!; [by apply forgetStarved_ok | by cbn; rewrite lookup_delete_eq | intros; cbn; by rewrite lookup_delete_ne]. }
    destruct (Z.ltb_spec now (nextAt r)) as [Hlt|Hge].
    { split_and!; [|done|done]. pose proof (nextRetry_ok K A R rq id r r E Hok eq_refl eq_refl eq_refl Ha Hna) as Hr.
      rewrite insert_id in Hr by done. done. }
    destruct (Z.leb_spec seqnoRequestRetries (attempts r)) as [Hmax|Hless].
    { split_and!; [by apply forgetStarved_ok | by cbn; rewrite lookup_delete_eq | intros; cbn; by rewrite lookup_delete_ne]. }
    cbv zeta. rewrite Z.add_simpl_r, Z.shiftl_mul_pow2 by lia. set (r' := mkRetry _ _ _ _ _ _).
    assert (0 < nextAt r') as Hpos.
    { cbn. unfold seqnoRetryInitial, Second, Millisecond. pose proof (Z.pow_pos_nonneg 2 (attempts r) ltac:(lia) ltac:(lia)). lia. }
    pose proof (nextRetry_ok K A R rq id r r' E Hok eq_refl eq_refl eq_refl ltac:(cbn; lia) Hpos) as Hr.
    destruct (retryAsks_ok r' now (holders id (rtKey r')) Hn K A R (_, asks) Hr) as [G1 G2]. cbn [set_retries nextStarveRetry]. rewrite G2. split_and!; [done|..].
    + cbn. by rewrite lookup_insert_eq.
    + intros j Hj. cbn. by rewrite lookup_insert_ne.
  - split_and!; [|by rewrite E|done]. destruct Hok as [[] [] [R1 R2]]. split; [done | done | split; [done|]].
    intros j q Hj. destruct (R2 j q Hj) as (H1 & H2 & H3 & [[->|Hin]%elem_of_cons|H4]); split_and!; auto; try lia. by rewrite E in Hj.
Qed.

Lemma retryLoop_ok now order : 0 < now → NoDup order → ∀ K A s, requests_ok K A order s.1 →
  let s' := fold_left (retryStep selectedNow holders now) order s in
  requests_ok K A [] s'.1 ∧
  ∀ id, starveRetries s'.1 !! id = if decide (id ∈ order) then starveRetries s.1 !! id ≫= retried now else starveRetries s.1 !! id.
Proof.
  intros Hn. induction 1 as [|id order Hnin Hnd IH]; intros K A s Hok; cbn [fold_left]; [done|].
  destruct (retryStep_ok now id K A order s Hn Hok) as (H1 & H2 & H3).
  destruct (IH K A _ H1) as [G1 G2]. split; [done|]. intros j. rewrite G2.
  destruct (decide (j = id)) as [->|Hne].
  - rewrite decide_False by done. rewrite decide_True by apply list_elem_of_here. done.
  - rewrite H3 by done. destruct (decide (j ∈ order)) as [Hj|Hj]; [rewrite decide_True by by apply list_elem_of_further; done|].
    + done.
    + rewrite decide_False; [done|]. by intros [?|?]%elem_of_cons.
Qed.

Lemma retryStarved_ok now rq order : 0 < now → NoDup order → keysOf (starveRetries rq) order → requests_ok [] [] [] rq →
  let rq' := (retryStarvedLocked selectedNow holders rq now order).1 in
  requests_ok [] [] [] rq' ∧ ∀ id, starveRetries rq' !! id = starveRetries rq !! id ≫= retried now.
Proof.
  intros Hn Hnd Hk [[] [] [R1 R2]].
  destruct (retryLoop_ok now order Hn Hnd [] [] (set_nextRetry rq 0, [])) as [G1 G2].
  { split; [done | done | split; [done|]]. intros id r Hr. destruct (R2 id r Hr) as (? & ? & ? & _). split_and!; try done; try lia.
    left. by eapply Hk. }
  split; [done|]. intros id. unfold retryStarvedLocked. rewrite G2. cbn [fst set_nextRetry starveRetries].
  destruct (decide (id ∈ order)); [done|]. destruct (starveRetries rq !! id) as [r|] eqn:E; [|done].
  exfalso. by eapply Hk in E.
Qed.

End retries.

Lemma starvedAsk_ok K A R rq n key rid seqno peer now : 0 < now → requests_ok K A R rq →
  requests_ok K A R (starvedAsk rq n key rid seqno peer now).1.
Proof.
  intros Hn Hok. unfold starvedAsk. pose proof (allowAsk_ok K A R rq n key rid now Hn Hok) as H1.
  destruct (allowAsk rq n key rid now) as [[] rq']; [|done]. by apply rememberStarved_ok, allowSeqnoRequest_ok.
Qed.

(** ** Runs

    What the speaker does to the records, with the time and what it has sent: the
    requests it forwarded and the ones it made itself, each with its source, its
    sequence number and its time, newest first. *)

Record history := mkHistory_ {
  records : requests;
  clock : Z;
  forwarded : list (sourceKey * Z * Z);
  asked : list (askedKey * Z * Z);
  gone : gset nat
}.

(** What a list of requests adds to the log at time [now]. *)
Definition asksAt (now : Z) (asks : list ask) : list (askedKey * Z * Z) :=
  (λ a, (mkSourceKey (askKey a) (askRouterID a), askNeighbor a, askSeqno a, now)) <$> asks.

Inductive turn : history → history → Prop :=
| TTick h t : clock h ≤ t → turn h (mkHistory_ (records h) t (forwarded h) (asked h) (gone h))
| TForward h index seqno asker rq :
    allowSeqnoRequest (records h) index seqno asker (clock h) = (true, rq) →
    turn h (mkHistory_ rq (clock h) ((index, seqno, clock h) :: forwarded h) (asked h) (gone h))
| TRefuse h index seqno asker rq :
    allowSeqnoRequest (records h) index seqno asker (clock h) = (false, rq) →
    turn h (mkHistory_ rq (clock h) (forwarded h) (asked h) (gone h))
| TStarved h n key rid seqno peer rq asks : n ∉ gone h →
    starvedAsk (records h) n key rid seqno peer (clock h) = (rq, asks) →
    turn h (mkHistory_ rq (clock h) (forwarded h) (rev (asksAt (clock h) asks) ++ asked h) (gone h))
| TRetry h selectedNow holders order rq asks : NoDup order → keysOf (starveRetries (records h)) order →
    (∀ id key n, n ∈ holders id key → n ∉ gone h) →
    retryStarvedLocked selectedNow holders (records h) (clock h) order = (rq, asks) →
    turn h (mkHistory_ rq (clock h) (forwarded h) (rev (asksAt (clock h) asks) ++ asked h) (gone h))
| TSweep h order askedOrder : keysOf (pendingSeqnos (records h)) order → keysOf (askedSeqno (records h)) askedOrder →
    turn h (mkHistory_ (sweepRequestsLocked (records h) (clock h) order askedOrder) (clock h) (forwarded h) (asked h) (gone h))
| TRemove h n order :
    turn h (mkHistory_ (forgetAsked (records h) n order) (clock h) (forwarded h) (asked h) ({[n]} ∪ gone h)).

Definition begun (t : Z) : history := mkHistory_ noRequests t [] [] ∅.

(** The second number is newer than the first. *)
Definition newer (a b : Z) : Prop := seqnoGT b a = true.

(** The latest request of a log for a source. *)
Fixpoint latest (i : sourceKey) (l : list (sourceKey * Z * Z)) : option (Z * Z) :=
  match l with
  | [] => None
  | (j, s, t) :: l => if decide (j = i) then Some (s, t) else latest i l
  end.

(** A request forwarded after another for the same source is at least
    [seqnoRequestSuppress] after it, or asks for a newer number: newer than the one
    forwarded before it, or than one this node asked for itself in between. *)
Definition spaced_from (al : list (askedKey * Z * Z)) (i : sourceKey) (s0 t0 s t : Z) : Prop :=
  t0 + seqnoRequestSuppress ≤ t ∨ newer s0 s ∨
  ∃ n s' t', (i, n, s', t') ∈ al ∧ t0 ≤ t' ≤ t ∧ newer s' s.

Fixpoint forwards_spaced (al : list (askedKey * Z * Z)) (l : list (sourceKey * Z * Z)) : Prop :=
  match l with
  | [] => True
  | (i, s, t) :: l => (∀ s0 t0, latest i l = Some (s0, t0) → spaced_from al i s0 t0 s t) ∧ forwards_spaced al l
  end.

Fixpoint asks_spaced (l : list (askedKey * Z * Z)) : Prop :=
  match l with
  | [] => True
  | (i, _, t) :: l => (∀ s0 t0, (i, s0, t0) ∈ l → t0 + seqnoRequestSuppress ≤ t) ∧ asks_spaced l
  end.

Lemma forwards_spaced_mono al al' l : al ⊆ al' → forwards_spaced al l → forwards_spaced al' l.
Proof.
  intros Hs. induction l as [|[[i s] t] l IH]; cbn [forwards_spaced]; [done|]. intros [H1 H2]. split; [|by apply IH].
  intros s0 t0 [?|[?|(n & s' & t' & Hin & ?)]]%H1; [by left | by right; left|]. right. right. exists n, s', t'. split; [by apply Hs | done].
Qed.

Lemma allow_inv rq index seqno asker now b rq' : allowSeqnoRequest rq index seqno asker now = (b, rq') →
  if b then pendingSeqnos rq' = <[index := mkPending seqno now asker]> (pendingSeqnos rq) ∧
    ∀ p, pendingSeqnos rq !! index = Some p → now < sentAt p + seqnoRequestSuppress → newer (pdSeqno p) seqno
  else rq' = rq.
Proof.
  unfold allowSeqnoRequest, recordSeqnoRequest. destruct (pendingSeqnos rq !! index) as [p|] eqn:E.
  - destruct (_ && negb (seqnoGT _ _)) eqn:E1; [by intros [= <- <-]|]. destruct (_ && negb (bool_decide _)); [by intros [= <- <-]|].
    cbn. intros [= <- <-]. split; [done|]. intros ? [= <-] Hlt. apply Z.ltb_lt in Hlt. rewrite Hlt in E1. cbn in E1. by apply negb_false_iff in E1.
  - destruct (_ && negb false); [by intros [= <- <-]|]. cbn [isNone andb]. destruct (_ <=? _); [by intros [= <- <-]|].
    cbn. intros [= <- <-]. done.
Qed.

Lemma ask_inv rq n key rid now b rq' : allowAsk rq n key rid now = (b, rq') →
  let i := (mkSourceKey key rid, n) in
  if b then askedSeqno rq' = <[i := now]> (askedSeqno rq) ∧ (∀ t, askedSeqno rq !! i = Some t → t + seqnoRequestSuppress ≤ now) ∧
    pendingSeqnos rq' = pendingSeqnos rq
  else rq' = rq.
Proof.
  unfold allowAsk. cbn zeta. destruct (askedSeqno rq !! (mkSourceKey key rid, n)) as [t|] eqn:E.
  - destruct (Z.ltb_spec now (t + seqnoRequestSuppress)); intros [= <- <-]; [done|]. split_and!; [done | | done]. by intros ? [= <-].
  - intros [= <- <-]. done.
Qed.

(** A request forwarded or made less than [seqnoRequestSuppress] ago is still on
    record, or one of this node's own that came after it. *)
Definition fwd_mem (now : Z) (rq : requests) (al : list (askedKey * Z * Z)) (l : list (sourceKey * Z * Z)) : Prop :=
  ∀ i s t, latest i l = Some (s, t) → t ≤ now ∧ (now < t + seqnoRequestSuppress →
    ∃ p, pendingSeqnos rq !! i = Some p ∧ t ≤ sentAt p ≤ now ∧
      (pdSeqno p = s ∨ ∃ n, (i, n, pdSeqno p, sentAt p) ∈ al)).
Definition ask_mem (now : Z) (rq : requests) (g : gset nat) (l : list (askedKey * Z * Z)) : Prop :=
  ∀ i s t, (i, s, t) ∈ l → t ≤ now ∧ (i.2 ∉ g → now < t + seqnoRequestSuppress →
    ∃ t', askedSeqno rq !! i = Some t' ∧ t ≤ t').

(** A request that is let through keeps to the spacing. *)
Lemma allow_spaced now rq al l index seqno asker rq' : allowSeqnoRequest rq index seqno asker now = (true, rq') → fwd_mem now rq al l →
  ∀ s0 t0, latest index l = Some (s0, t0) → spaced_from al index s0 t0 seqno now.
Proof.
  intros [_ Hn]%allow_inv Hm s0 t0 Hl. destruct (Hm _ _ _ Hl) as [Hle Hrec].
  destruct (Z.le_gt_cases (t0 + seqnoRequestSuppress) now) as [|Hgt]; [by left|]. right.
  destruct (Hrec Hgt) as (p & Hp & [Hs1 Hs2] & Hcase). specialize (Hn p Hp ltac:(lia)).
  destruct Hcase as [<-|[n Hin]]; [by left|]. right. exists n, (pdSeqno p), (sentAt p). done.
Qed.

(** Of this node's own: it is in the log. *)
Lemma allow_own now rq al l index n seqno asker b rq' : allowSeqnoRequest rq index seqno asker now = (b, rq') →
  (index, n, seqno, now) ∈ al → fwd_mem now rq al l → fwd_mem now rq' al l.
Proof.
  intros Ha%allow_inv Hin Hm. destruct b; [|by subst]. destruct Ha as [Hp _]. intros i s t Hl.
  destruct (Hm i s t Hl) as [Hle Hrec]. split; [done|]. intros Hlt. rewrite Hp.
  destruct (decide (index = i)) as [<-|Hne]; [|by rewrite lookup_insert_ne; auto].
  rewrite lookup_insert_eq. eexists. split; [done|]. cbn. split; [lia|]. right. by exists n.
Qed.

(** Of a neighbor: it is forwarded. *)
Lemma allow_forward now rq al l index seqno asker rq' : allowSeqnoRequest rq index seqno asker now = (true, rq') →
  fwd_mem now rq al l → fwd_mem now rq' al ((index, seqno, now) :: l).
Proof.
  intros [Hp _]%allow_inv Hm i s t. cbn [latest]. rewrite Hp. destruct (decide (index = i)) as [<-|Hne].
  - intros [= <- <-]. split; [lia|]. intros _. rewrite lookup_insert_eq. eexists. split; [done|]. cbn. split; [lia | by left].
  - rewrite lookup_insert_ne by done. apply Hm.
Qed.

Lemma fwd_mem_log now rq al al' l : al ⊆ al' → fwd_mem now rq al l → fwd_mem now rq al' l.
Proof.
  intros Hs Hm i s t Hl. destruct (Hm i s t Hl) as [Hle Hrec]. split; [done|]. intros Hlt.
  destruct (Hrec Hlt) as (p & Hp & Ht & [?|[n Hin]]); exists p; (split; [done|]); (split; [done|]); [by left|]. right. exists n. by apply Hs.
Qed.

Lemma ask_log now rq g l n key rid s rq' : allowAsk rq n key rid now = (true, rq') → n ∉ g → ask_mem now rq g l → asks_spaced l →
  let l' := (mkSourceKey key rid, n, s, now) :: l in ask_mem now rq' g l' ∧ asks_spaced l'.
Proof.
  intros Ha%ask_inv Hg Hm Hs. cbn zeta in Ha. destruct Ha as (Hp & Hn & _). cbn zeta.
  assert (∀ s0 t0, (mkSourceKey key rid, n, s0, t0) ∈ l → t0 + seqnoRequestSuppress ≤ now) as Hsp.
  { intros s0 t0 Hin. destruct (Hm _ _ _ Hin) as [Hle Hrec]. destruct (Z.le_gt_cases (t0 + seqnoRequestSuppress) now) as [|Hgt]; [done|].
    destruct (Hrec Hg Hgt) as (t' & Ht' & Hle'). specialize (Hn _ Ht'). lia. }
  split; [|done]. intros i s1 t [[= -> -> ->]|Hin]%elem_of_cons.
  - split; [lia|]. intros _ _. rewrite Hp, lookup_insert_eq. by eexists.
  - destruct (Hm i s1 t Hin) as [Hle Hrec]. split; [done|]. intros Hig Hlt. rewrite Hp.
    destruct (decide ((mkSourceKey key rid, n) = i)) as [<-|Hne]; [|by rewrite lookup_insert_ne; auto].
    rewrite lookup_insert_eq. eexists. split; [done|]. done.
Qed.

Lemma allow_asked rq index seqno asker now : askedSeqno (allowSeqnoRequest rq index seqno asker now).2 = askedSeqno rq.
Proof. apply allowSeqnoRequest_frame. Qed.

Lemma ask_mem_ext now rq rq' g l : askedSeqno rq' = askedSeqno rq → ask_mem now rq g l → ask_mem now rq' g l.
Proof. intros E Hm i s t Hin. rewrite E. by apply (Hm i s). Qed.

Lemma fwd_mem_ext now rq rq' al l : pendingSeqnos rq' = pendingSeqnos rq → fwd_mem now rq al l → fwd_mem now rq' al l.
Proof. intros E Hm i s t Hin. rewrite E. by apply Hm. Qed.

(** The two halves together, for the operations that make requests themselves. *)
Record mem (now : Z) (g : gset nat) (fl : list (sourceKey * Z * Z)) (rq : requests) (al : list (askedKey * Z * Z)) : Prop := {
  mem_fwd : fwd_mem now rq al fl;
  mem_ask : ask_mem now rq g al;
  mem_spaced : asks_spaced al;
  mem_forwards : forwards_spaced al fl
}.

(** Asking: nothing, or one request with its records. *)
Lemma asking_mem now g fl rq al n key rid seqno b rq1 rq' : n ∉ g → mem now g fl rq al → allowAsk rq n key rid now = (b, rq1) →
  pendingSeqnos rq' = pendingSeqnos (if b then (allowSeqnoRequest rq1 (mkSourceKey key rid) seqno "" now).2 else rq1) →
  askedSeqno rq' = askedSeqno rq1 →
  mem now g fl rq' (if b then (mkSourceKey key rid, n, seqno, now) :: al else al).
Proof.
  intros Hg [H1 H2 H3 H4] Ha Ep Ea. destruct b.
  - destruct (ask_log now rq g al n key rid seqno rq1 Ha Hg H2 H3) as [G1 G2]. apply ask_inv in Ha as (_ & _ & F).
    destruct (allowSeqnoRequest rq1 (mkSourceKey key rid) seqno "" now) as [b2 rq2] eqn:E2. cbn [snd] in Ep.
    assert (al ⊆ (mkSourceKey key rid, n, seqno, now) :: al) as Hsub by set_solver.
    assert (fwd_mem now rq2 ((mkSourceKey key rid, n, seqno, now) :: al) fl) as G3.
    { eapply allow_own; [exact E2 | by left|]. eapply fwd_mem_ext; [exact F|]. by eapply fwd_mem_log. }
    split; [by eapply fwd_mem_ext | by eapply ask_mem_ext | done | by eapply forwards_spaced_mono].
  - apply ask_inv in Ha as ->. split; [by eapply fwd_mem_ext | by eapply ask_mem_ext | done | done].
Qed.

Lemma rememberStarved_frame rq key rid seqno peer now : let rq' := rememberStarved rq key rid seqno peer now in
  pendingSeqnos rq' = pendingSeqnos rq ∧ askedSeqno rq' = askedSeqno rq.
Proof. unfold rememberStarved. destruct (starveRetries rq !! _); [done|]. by destruct (_ || _). Qed.

Lemma retryAsk_mem r now g fl al s n : n ∉ g → mem now g fl s.1 (rev (asksAt now s.2) ++ al) →
  let s' := retryAsk r now s n in mem now g fl s'.1 (rev (asksAt now s'.2) ++ al).
Proof.
  destruct s as [rq asks]. intros Hg Hm. unfold retryAsk. cbn [fst snd] in *.
  destruct (allowAsk rq n (rtKey r) (rtRouterID r) now) as [b rq1] eqn:E.
  pose proof (asking_mem now g fl rq _ n (rtKey r) (rtRouterID r) (rtSeqno r) b rq1
    (if b then (allowSeqnoRequest rq1 (mkSourceKey (rtKey r) (rtRouterID r)) (rtSeqno r) "" now).2 else rq1) Hg Hm E eq_refl) as Ha.
  destruct b; cbn [fst snd]; [|by apply Ha].
  unfold asksAt. rewrite fmap_app, rev_app_distr. cbn. apply Ha. apply allow_asked.
Qed.

Lemma retryAsks_mem r now g fl al ns : Forall (λ n, n ∉ g) ns → ∀ s, mem now g fl s.1 (rev (asksAt now s.2) ++ al) →
  let s' := fold_left (retryAsk r now) ns s in mem now g fl s'.1 (rev (asksAt now s'.2) ++ al).
Proof.
  induction 1 as [|n ns Hn _ IH]; intros s Hm; [done|]. cbn [fold_left]. apply IH. by apply retryAsk_mem.
Qed.

Lemma retryStep_mem sel holders now g fl al s id : (∀ i key n, n ∈ holders i key → n ∉ g) →
  mem now g fl s.1 (rev (asksAt now s.2) ++ al) →
  let s' := retryStep sel holders now s id in mem now g fl s'.1 (rev (asksAt now s'.2) ++ al).
Proof.
  intros Hg. destruct s as [rq asks]. unfold retryStep. cbn [fst snd]. intros Hm.
  destruct (starveRetries rq !! id) as [r|]; [|done].
  destruct (sel (rtKey r)); [by destruct Hm; split|]. destruct (_ <? _); [by destruct Hm; split|].
  destruct (_ <=? _); [by destruct Hm; split|]. cbv zeta. apply retryAsks_mem; [|by destruct Hm; split].
  apply Forall_forall. intros n. apply Hg.
Qed.

Lemma sweep_keeps now order askedOrder : ∀ rq,
  let rq' := sweepRequestsLocked rq now order askedOrder in
  (∀ i p, pendingSeqnos rq !! i = Some p → now < sentAt p + seqnoRequestSuppress → pendingSeqnos rq' !! i = Some p) ∧
  (∀ i t, askedSeqno rq !! i = Some t → now < t + seqnoRequestSuppress → askedSeqno rq' !! i = Some t).
Proof.
  intros rq. unfold sweepRequestsLocked. set (rq0 := set_sweep rq 0).
  change (pendingSeqnos rq) with (pendingSeqnos rq0). change (askedSeqno rq) with (askedSeqno rq0). clearbody rq0. clear rq.
  revert rq0. induction order as [|j order IH]; intros rq; cbn [fold_left].
  - revert rq. induction askedOrder as [|j A IH]; intros rq; cbn [fold_left]; [done|].
    destruct (IH (sweepAsked now rq j)) as [G1 G2]. unfold sweepAsked in *. destruct (askedSeqno rq !! j) as [t|] eqn:E; [|done].
    destruct (Z.ltb_spec now (t + seqnoRequestSuppress)); cbn [negb] in *; [done|]. split; [done|].
    intros i t' Hi Hlt. apply G2; [|done]. cbn. rewrite lookup_delete_ne; [done|]. intros <-. rewrite E in Hi. injection Hi as <-. lia.
  - destruct (IH (sweepPending now rq j)) as [G1 G2]. unfold sweepPending in *. destruct (pendingSeqnos rq !! j) as [p|] eqn:E; [|done].
    destruct (Z.ltb_spec now (sentAt p + seqnoRequestSuppress)); cbn [negb] in *; [done|]. split; [|done].
    intros i p' Hi Hlt. apply G1; [|done]. cbn. rewrite lookup_delete_ne; [done|]. intros <-. rewrite E in Hi. injection Hi as <-. lia.
Qed.

Lemma forget_keeps n order : ∀ rq, let rq' := forgetAsked rq n order in
  pendingSeqnos rq' = pendingSeqnos rq ∧ ∀ i, i.2 ≠ n → askedSeqno rq' !! i = askedSeqno rq !! i.
Proof.
  unfold forgetAsked. induction order as [|j order IH]; intros rq; cbn [fold_left]; [done|].
  destruct (IH (if bool_decide (j.2 = n) then set_asked rq (delete j (askedSeqno rq)) else rq)) as [G1 G2].
  case_bool_decide as Ej; [|done]. split; [done|]. intros i Hi. rewrite G2 by done. cbn. apply lookup_delete_ne. by intros <-.
Qed.

(** What holds of every run. *)
Record run_ok (h : history) : Prop := {
  run_clock : 0 < clock h;
  run_requests : requests_ok [] [] [] (records h);
  run_mem : mem (clock h) (gone h) (forwarded h) (records h) (asked h)
}.

Lemma turn_ok h h' : run_ok h → turn h h' → run_ok h'.
Proof.
  intros [Hc Hr Hm]. destruct 1 as [h t Ht|h index seqno asker rq Ha|h index seqno asker rq Ha|h n key rid seqno peer rq asks Hg Ha
    |h sel holders order rq asks Hnd Hk Hg Ha|h order ao Hk1 Hk2|h n order].
  - destruct Hm as [H1 H2 H3 H4]. split; cbn; [lia | done |]. split; [| |done|done].
    + intros i s t0 Hl. destruct (H1 i s t0 Hl) as [? H5]. split; [lia|]. intros. destruct H5 as (p & ? & ? & ?); [lia|]. exists p. split_and!; try done; lia.
    + intros i s t0 Hin. destruct (H2 i s t0 Hin) as [? H5]. split; [lia|]. intros. apply H5; [done | lia].
  - destruct Hm as [H1 H2 H3 H4]. pose proof (allow_spaced _ _ _ _ _ _ _ _ Ha H1) as Hsp. pose proof (allow_forward _ _ _ _ _ _ _ _ Ha H1) as H1'.
    assert (rq = (allowSeqnoRequest (records h) index seqno asker (clock h)).2) as -> by (by rewrite Ha).
    split; cbn [clock records forwarded asked gone]; [done | by apply allowSeqnoRequest_ok |]. split; [done | | done | by split].
    eapply ask_mem_ext; [|done]. apply allow_asked.
  - apply allow_inv in Ha. subst rq. done.
  - pose proof (starvedAsk_ok [] [] [] (records h) n key rid seqno peer (clock h) Hc Hr) as Hs. rewrite Ha in Hs. split; cbn; [done | done |].
    unfold starvedAsk in Ha. destruct (allowAsk (records h) n key rid (clock h)) as [b rq1] eqn:E.
    destruct (rememberStarved_frame (allowSeqnoRequest rq1 (mkSourceKey key rid) seqno "" (clock h)).2 key rid seqno peer (clock h)) as [F1 F2].
    pose proof (asking_mem _ _ _ _ _ n key rid seqno b rq1 rq Hg Hm E) as Hx.
    destruct b; injection Ha as <- <-; apply Hx; try done. rewrite F2. apply allow_asked.
  - destruct (retryStarved_ok sel holders (clock h) (records h) order Hc Hnd Hk Hr) as [Hs _]. rewrite Ha in Hs.
    split; cbn; [done | done |]. unfold retryStarvedLocked in Ha.
    assert (∀ s, mem (clock h) (gone h) (forwarded h) s.1 (rev (asksAt (clock h) s.2) ++ asked h) →
      let s' := fold_left (retryStep sel holders (clock h)) order s in
      mem (clock h) (gone h) (forwarded h) s'.1 (rev (asksAt (clock h) s'.2) ++ asked h)) as Hloop.
    { clear -Hg. induction order as [|id order IH]; intros s Hs; [done|]. cbn [fold_left]. apply IH. by apply retryStep_mem. }
    specialize (Hloop (set_nextRetry (records h) 0, [])). rewrite Ha in Hloop. apply Hloop. by destruct Hm; split.
  - split; cbn; [done | by apply sweepRequests_ok |]. destruct Hm as [H1 H2 H3 H4].
    destruct (sweep_keeps (clock h) order ao (records h)) as [G1 G2]. split; [| |done|done].
    + intros i s t Hl. destruct (H1 i s t Hl) as [Hle Hrec]. split; [done|]. intros Hlt. destruct (Hrec Hlt) as (p & Hp & Hs & Hn).
      exists p. split; [|done]. apply G1; [done | lia].
    + intros i s t Hin. destruct (H2 i s t Hin) as [Hle Hrec]. split; [done|]. intros Hi Hlt. destruct (Hrec Hi Hlt) as (t' & Ht & Hs).
      exists t'. split; [|done]. apply G2; [done | lia].
  - split; cbn; [done | by apply forgetAsked_ok |]. destruct Hm as [H1 H2 H3 H4].
    destruct (forget_keeps n order (records h)) as [G1 G2]. split; [by eapply fwd_mem_ext | | done | done].
    intros i s t Hin. destruct (H2 i s t Hin) as [Hle Hrec]. split; [done|]. intros Hi. rewrite G2 by set_solver. apply Hrec. set_solver.
Qed.

Lemma run_invariant t h : 0 < t → rtc turn (begun t) h → run_ok h.
Proof.
  intros Ht Hr. assert (run_ok (begun t)) as Hb.
  { split; cbn; [done | apply noRequests_ok |]. split; [by intros ??? [=] | intros ??? []%not_elem_of_nil | done | done]. }
  revert Hb. induction Hr as [|h1 h2 h3 Hs _ IH]; [done|]. intros Hb. by apply IH, (turn_ok h1).
Qed.

(** C19: sequence number requests cannot storm. Whatever neighbors ask and however
    routes come and go, a request is forwarded for a source at least two seconds
    after the one forwarded for it before, or it asks for a number newer than that
    one's, or than that of a request of this node's own since; a neighbor is never
    asked about the same source twice within two seconds; and the requests
    remembered stay within the table's size and each neighbor's share of it. *)
Theorem requests_spaced t h :
  0 < t → rtc turn (begun t) h →
  forwards_spaced (asked h) (forwarded h) ∧ asks_spaced (asked h) ∧
  Z.of_nat (size (pendingSeqnos (records h))) ≤ maxPendingSeqno ∧
  Z.of_nat (size (starveRetries (records h))) ≤ maxStarveRetries ∧
  (∀ asker, Z.of_nat (size (filter (λ kv : sourceKey * pendingSeqno, pdAsker kv.2 = asker) (pendingSeqnos (records h)))) ≤ maxPendingSeqnoPerNeighbor) ∧
  (∀ asker, Z.of_nat (size (filter (λ kv : sourceKey * starveRetry, rtAsker kv.2 = asker) (starveRetries (records h)))) ≤ maxStarveRetriesPerNeighbor).
Proof.
  intros Ht Hr. destruct (run_invariant t h Ht Hr) as [_ [[S1 S2 S3 S4 S5 S6] _ _] [_ _ Hsp Hf]].
  split_and!; try done; intros asker.
  - specialize (S5 asker). rewrite (counted_count _ _ _ _ S1) in S5. done.
  - specialize (S6 asker). rewrite (counted_count _ _ _ _ S2) in S6. done.
Qed.

(** a starved prefix is retried, and not for ever. A turn leaves alone a retry
    that is not due, forgets one whose prefix has a route again or that has been
    made four times, and otherwise counts it and doubles the wait; the wake-ups
    the speaker sleeps on are never later than the next retry or the end of a
    suppression. *)
Theorem retries_exact t h selectedNow holders order :
  0 < t → rtc turn (begun t) h → NoDup order → keysOf (starveRetries (records h)) order →
  let rq := (retryStarvedLocked selectedNow holders (records h) (clock h) order).1 in
  (∀ id, starveRetries rq !! id = starveRetries (records h) !! id ≫= retried selectedNow (clock h)) ∧
  (∀ id r, starveRetries rq !! id = Some r → attempts r ≤ seqnoRequestRetries ∧ timely (nextStarveRetry rq) (nextAt r)) ∧
  (∀ i p, pendingSeqnos rq !! i = Some p → timely (nextRequestSweep rq) (sentAt p + seqnoRequestSuppress)) ∧
  (∀ i at_, askedSeqno rq !! i = Some at_ → timely (nextRequestSweep rq) (at_ + seqnoRequestSuppress)).
Proof.
  intros Ht Hr Hnd Hk. pose proof (run_invariant t h Ht Hr) as [Hc Hok _].
  destruct (retryStarved_ok selectedNow holders (clock h) (records h) order Hc Hnd Hk Hok) as [[_ [W1 W2 W3] [R1 R2]] Hx].
  split_and!; [done|..].
  - intros id r Hi. destruct (R2 id r Hi) as (_ & [_ ?] & _ & [[]%not_elem_of_nil|?]). done.
  - intros i p Hi. destruct (W2 i p Hi) as (_ & [[]%not_elem_of_nil|?]). done.
  - intros i p Hi. destruct (W3 i p Hi) as (_ & [[]%not_elem_of_nil|?]). done.
Qed.
