(* ===== verification/BabelState.v ===== *)
(** * The state of the speaker: internal/babel/speaker.go

    The fields of [Speaker] and the updates of single fields of it and of a
    neighbor. A neighbor is a pointer into [heap]; the session it belongs to is
    known by its ID and by the pointer [peers] holds. The counters that only feed
    the log are left out, and so is the mesh, whose forwarding table is the log of
    calls the route table keeps.

    The order in which Go visits a map is arbitrary: [order] is any choice of it,
    a fresh one for every path, which names the loop. *)

From stdpp Require Import functions.
From S2P Require Import Prelude Netip BabelTlv BabelRaw BabelMetric BabelRoute BabelUpdate BabelPack BabelRequest BabelTable.

(** ** Iteration *)

Class MapOrder := {
  order : list positive → ∀ {K V : Type} `{Countable K}, gmap K V → list K;
  order_nodup : ∀ k K V `{Countable K} (m : gmap K V), NoDup (order k m);
  order_all : ∀ k K V `{Countable K} (m : gmap K V) x, x ∈ order k m ↔ is_Some (m !! x)
}.

Definition orderSet {MO : MapOrder} (k : list positive) {K} `{Countable K} (X : gset K) : list K := order k (gset_to_gmap tt X).

(** ** A neighbor's fields *)

Definition set_addr (n : neighborState) x_addr : neighborState :=
  mkNeighbor (peerID n) x_addr (alive n) (lastHelloTime n) (BabelMetric.helloInterval n) (unicastHelloTime n)
  (unicastHelloInterval n) (multicastHistory n) (nextHelloDue n) (heard n) (theirHelloTxTS n) (theirHelloRxTS n)
  (haveTheirHello n) (sentHello n) (ownHelloSeqno n) (owed n) (reportedCost n) (haveReportedCost n) (ihuExpiry n)
  (measuredRTT n) (haveRTT n) (rttExpiry n) (lastFullDump n) (advertised n).
Definition set_alive (n : neighborState) x_alive : neighborState :=
  mkNeighbor (peerID n) (addr n) x_alive (lastHelloTime n) (BabelMetric.helloInterval n) (unicastHelloTime n)
  (unicastHelloInterval n) (multicastHistory n) (nextHelloDue n) (heard n) (theirHelloTxTS n) (theirHelloRxTS n)
  (haveTheirHello n) (sentHello n) (ownHelloSeqno n) (owed n) (reportedCost n) (haveReportedCost n) (ihuExpiry n)
  (measuredRTT n) (haveRTT n) (rttExpiry n) (lastFullDump n) (advertised n).
Definition set_unicast (n : neighborState) x_unicastHelloTime x_unicastHelloInterval : neighborState :=
  mkNeighbor (peerID n) (addr n) (alive n) (lastHelloTime n) (BabelMetric.helloInterval n) x_unicastHelloTime
  x_unicastHelloInterval (multicastHistory n) (nextHelloDue n) (heard n) (theirHelloTxTS n) (theirHelloRxTS n)
  (haveTheirHello n) (sentHello n) (ownHelloSeqno n) (owed n) (reportedCost n) (haveReportedCost n) (ihuExpiry n)
  (measuredRTT n) (haveRTT n) (rttExpiry n) (lastFullDump n) (advertised n).
Definition set_multicast (n : neighborState) x_lastHelloTime x_helloInterval x_nextHelloDue x_heard : neighborState :=
  mkNeighbor (peerID n) (addr n) (alive n) x_lastHelloTime x_helloInterval (unicastHelloTime n)
  (unicastHelloInterval n) (multicastHistory n) x_nextHelloDue x_heard (theirHelloTxTS n) (theirHelloRxTS n)
  (haveTheirHello n) (sentHello n) (ownHelloSeqno n) (owed n) (reportedCost n) (haveReportedCost n) (ihuExpiry n)
  (measuredRTT n) (haveRTT n) (rttExpiry n) (lastFullDump n) (advertised n).
Definition set_history (n : neighborState) x_multicastHistory : neighborState :=
  mkNeighbor (peerID n) (addr n) (alive n) (lastHelloTime n) (BabelMetric.helloInterval n) (unicastHelloTime n)
  (unicastHelloInterval n) x_multicastHistory (nextHelloDue n) (heard n) (theirHelloTxTS n) (theirHelloRxTS n)
  (haveTheirHello n) (sentHello n) (ownHelloSeqno n) (owed n) (reportedCost n) (haveReportedCost n) (ihuExpiry n)
  (measuredRTT n) (haveRTT n) (rttExpiry n) (lastFullDump n) (advertised n).
Definition set_due (n : neighborState) x_nextHelloDue : neighborState :=
  mkNeighbor (peerID n) (addr n) (alive n) (lastHelloTime n) (BabelMetric.helloInterval n) (unicastHelloTime n)
  (unicastHelloInterval n) (multicastHistory n) x_nextHelloDue (heard n) (theirHelloTxTS n) (theirHelloRxTS n)
  (haveTheirHello n) (sentHello n) (ownHelloSeqno n) (owed n) (reportedCost n) (haveReportedCost n) (ihuExpiry n)
  (measuredRTT n) (haveRTT n) (rttExpiry n) (lastFullDump n) (advertised n).
Definition set_theirs (n : neighborState) x_theirHelloTxTS x_theirHelloRxTS x_haveTheirHello : neighborState :=
  mkNeighbor (peerID n) (addr n) (alive n) (lastHelloTime n) (BabelMetric.helloInterval n) (unicastHelloTime n)
  (unicastHelloInterval n) (multicastHistory n) (nextHelloDue n) (heard n) x_theirHelloTxTS x_theirHelloRxTS
  x_haveTheirHello (sentHello n) (ownHelloSeqno n) (owed n) (reportedCost n) (haveReportedCost n) (ihuExpiry n)
  (measuredRTT n) (haveRTT n) (rttExpiry n) (lastFullDump n) (advertised n).
Definition set_own (n : neighborState) x_sentHello x_ownHelloSeqno : neighborState :=
  mkNeighbor (peerID n) (addr n) (alive n) (lastHelloTime n) (BabelMetric.helloInterval n) (unicastHelloTime n)
  (unicastHelloInterval n) (multicastHistory n) (nextHelloDue n) (heard n) (theirHelloTxTS n) (theirHelloRxTS n)
  (haveTheirHello n) x_sentHello x_ownHelloSeqno (owed n) (reportedCost n) (haveReportedCost n) (ihuExpiry n)
  (measuredRTT n) (haveRTT n) (rttExpiry n) (lastFullDump n) (advertised n).
Definition set_owed (n : neighborState) x_owed : neighborState :=
  mkNeighbor (peerID n) (addr n) (alive n) (lastHelloTime n) (BabelMetric.helloInterval n) (unicastHelloTime n)
  (unicastHelloInterval n) (multicastHistory n) (nextHelloDue n) (heard n) (theirHelloTxTS n) (theirHelloRxTS n)
  (haveTheirHello n) (sentHello n) (ownHelloSeqno n) x_owed (reportedCost n) (haveReportedCost n) (ihuExpiry n)
  (measuredRTT n) (haveRTT n) (rttExpiry n) (lastFullDump n) (advertised n).
Definition set_reported (n : neighborState) x_reportedCost x_haveReportedCost x_ihuExpiry : neighborState :=
  mkNeighbor (peerID n) (addr n) (alive n) (lastHelloTime n) (BabelMetric.helloInterval n) (unicastHelloTime n)
  (unicastHelloInterval n) (multicastHistory n) (nextHelloDue n) (heard n) (theirHelloTxTS n) (theirHelloRxTS n)
  (haveTheirHello n) (sentHello n) (ownHelloSeqno n) (owed n) x_reportedCost x_haveReportedCost x_ihuExpiry
  (measuredRTT n) (haveRTT n) (rttExpiry n) (lastFullDump n) (advertised n).
Definition set_haveReported (n : neighborState) x_haveReportedCost : neighborState :=
  mkNeighbor (peerID n) (addr n) (alive n) (lastHelloTime n) (BabelMetric.helloInterval n) (unicastHelloTime n)
  (unicastHelloInterval n) (multicastHistory n) (nextHelloDue n) (heard n) (theirHelloTxTS n) (theirHelloRxTS n)
  (haveTheirHello n) (sentHello n) (ownHelloSeqno n) (owed n) (reportedCost n) x_haveReportedCost (ihuExpiry n)
  (measuredRTT n) (haveRTT n) (rttExpiry n) (lastFullDump n) (advertised n).
Definition set_rtt (n : neighborState) x_measuredRTT x_haveRTT x_rttExpiry : neighborState :=
  mkNeighbor (peerID n) (addr n) (alive n) (lastHelloTime n) (BabelMetric.helloInterval n) (unicastHelloTime n)
  (unicastHelloInterval n) (multicastHistory n) (nextHelloDue n) (heard n) (theirHelloTxTS n) (theirHelloRxTS n)
  (haveTheirHello n) (sentHello n) (ownHelloSeqno n) (owed n) (reportedCost n) (haveReportedCost n) (ihuExpiry n)
  x_measuredRTT x_haveRTT x_rttExpiry (lastFullDump n) (advertised n).
Definition set_haveRTT (n : neighborState) x_haveRTT : neighborState :=
  mkNeighbor (peerID n) (addr n) (alive n) (lastHelloTime n) (BabelMetric.helloInterval n) (unicastHelloTime n)
  (unicastHelloInterval n) (multicastHistory n) (nextHelloDue n) (heard n) (theirHelloTxTS n) (theirHelloRxTS n)
  (haveTheirHello n) (sentHello n) (ownHelloSeqno n) (owed n) (reportedCost n) (haveReportedCost n) (ihuExpiry n)
  (measuredRTT n) x_haveRTT (rttExpiry n) (lastFullDump n) (advertised n).
Definition set_fullDump (n : neighborState) x_lastFullDump : neighborState :=
  mkNeighbor (peerID n) (addr n) (alive n) (lastHelloTime n) (BabelMetric.helloInterval n) (unicastHelloTime n)
  (unicastHelloInterval n) (multicastHistory n) (nextHelloDue n) (heard n) (theirHelloTxTS n) (theirHelloRxTS n)
  (haveTheirHello n) (sentHello n) (ownHelloSeqno n) (owed n) (reportedCost n) (haveReportedCost n) (ihuExpiry n)
  (measuredRTT n) (haveRTT n) (rttExpiry n) x_lastFullDump (advertised n).
Definition set_advertised (n : neighborState) x_advertised : neighborState :=
  mkNeighbor (peerID n) (addr n) (alive n) (lastHelloTime n) (BabelMetric.helloInterval n) (unicastHelloTime n)
  (unicastHelloInterval n) (multicastHistory n) (nextHelloDue n) (heard n) (theirHelloTxTS n) (theirHelloRxTS n)
  (haveTheirHello n) (sentHello n) (ownHelloSeqno n) (owed n) (reportedCost n) (haveReportedCost n) (ihuExpiry n)
  (measuredRTT n) (haveRTT n) (rttExpiry n) (lastFullDump n) x_advertised.

(** [&neighborState{peer: peer, ...}] *)
Definition newNeighbor (id : string) : neighborState :=
  mkNeighbor id AddrInvalid false 0 0 0 0 noHistory 0 false 0 0 false false 0 ∅ 0 false 0 0 false 0 0 ∅.

(** ** The speaker *)

(** What a speaker is configured with. *)
Record settings := mkSettings {
  hello : Z;
  update_ : Z;
  cost : CostParams;
  routerID : list Z;
  linkLocal : Addr;
  packetSize : Z;
  noTransit : bool
}.

Section state.
Context {FL : Float}.

Record speaker := mkSpeaker {
  heap : nat → neighborState;
  peers : nat → nat;
  next : nat;
  neighbors : gmap string nat;
  originate : gset routeKey;
  table : routeTable;
  rqs : requests;
  originSeqno : Z;
  raisedSeqno : bool;
  updatePending : bool;
  changed : bool;
  lost : list (nat * tlvUndo);
  lostWoke : Z;
  nextHello : Z;
  nextUpdate : Z;
  sleepUntil : Z;
  retryAt : Z;
  passes : Z
}.

Definition set_heap (s : speaker) x_heap : speaker :=
  mkSpeaker x_heap (peers s) (next s) (neighbors s) (originate s) (table s) (rqs s) (originSeqno s) (raisedSeqno
  s) (updatePending s) (changed s) (lost s) (lostWoke s) (nextHello s) (nextUpdate s) (sleepUntil s) (retryAt s)
  (passes s).
Definition set_neighbors (s : speaker) x_neighbors : speaker :=
  mkSpeaker (heap s) (peers s) (next s) x_neighbors (originate s) (table s) (rqs s) (originSeqno s) (raisedSeqno
  s) (updatePending s) (changed s) (lost s) (lostWoke s) (nextHello s) (nextUpdate s) (sleepUntil s) (retryAt s)
  (passes s).
Definition set_originate (s : speaker) x_originate : speaker :=
  mkSpeaker (heap s) (peers s) (next s) (neighbors s) x_originate (table s) (rqs s) (originSeqno s) (raisedSeqno
  s) (updatePending s) (changed s) (lost s) (lostWoke s) (nextHello s) (nextUpdate s) (sleepUntil s) (retryAt s)
  (passes s).
Definition set_table (s : speaker) x_table : speaker :=
  mkSpeaker (heap s) (peers s) (next s) (neighbors s) (originate s) x_table (rqs s) (originSeqno s) (raisedSeqno
  s) (updatePending s) (changed s) (lost s) (lostWoke s) (nextHello s) (nextUpdate s) (sleepUntil s) (retryAt s)
  (passes s).
Definition set_rqs (s : speaker) x_rqs : speaker :=
  mkSpeaker (heap s) (peers s) (next s) (neighbors s) (originate s) (table s) x_rqs (originSeqno s) (raisedSeqno
  s) (updatePending s) (changed s) (lost s) (lostWoke s) (nextHello s) (nextUpdate s) (sleepUntil s) (retryAt s)
  (passes s).
Definition set_seqno (s : speaker) x_originSeqno x_raisedSeqno : speaker :=
  mkSpeaker (heap s) (peers s) (next s) (neighbors s) (originate s) (table s) (rqs s) x_originSeqno x_raisedSeqno
  (updatePending s) (changed s) (lost s) (lostWoke s) (nextHello s) (nextUpdate s) (sleepUntil s) (retryAt s)
  (passes s).
Definition set_raised (s : speaker) x_raisedSeqno : speaker :=
  mkSpeaker (heap s) (peers s) (next s) (neighbors s) (originate s) (table s) (rqs s) (originSeqno s)
  x_raisedSeqno (updatePending s) (changed s) (lost s) (lostWoke s) (nextHello s) (nextUpdate s) (sleepUntil s)
  (retryAt s) (passes s).
Definition set_updatePending (s : speaker) x_updatePending : speaker :=
  mkSpeaker (heap s) (peers s) (next s) (neighbors s) (originate s) (table s) (rqs s) (originSeqno s)
  (raisedSeqno s) x_updatePending (changed s) (lost s) (lostWoke s) (nextHello s) (nextUpdate s) (sleepUntil s)
  (retryAt s) (passes s).
Definition set_changed (s : speaker) x_changed : speaker :=
  mkSpeaker (heap s) (peers s) (next s) (neighbors s) (originate s) (table s) (rqs s) (originSeqno s)
  (raisedSeqno s) (updatePending s) x_changed (lost s) (lostWoke s) (nextHello s) (nextUpdate s) (sleepUntil s)
  (retryAt s) (passes s).
Definition set_lost (s : speaker) x_lost x_lostWoke : speaker :=
  mkSpeaker (heap s) (peers s) (next s) (neighbors s) (originate s) (table s) (rqs s) (originSeqno s)
  (raisedSeqno s) (updatePending s) (changed s) x_lost x_lostWoke (nextHello s) (nextUpdate s) (sleepUntil s)
  (retryAt s) (passes s).
Definition set_nextHello (s : speaker) x_nextHello : speaker :=
  mkSpeaker (heap s) (peers s) (next s) (neighbors s) (originate s) (table s) (rqs s) (originSeqno s)
  (raisedSeqno s) (updatePending s) (changed s) (lost s) (lostWoke s) x_nextHello (nextUpdate s) (sleepUntil s)
  (retryAt s) (passes s).
Definition set_nextUpdate (s : speaker) x_nextUpdate : speaker :=
  mkSpeaker (heap s) (peers s) (next s) (neighbors s) (originate s) (table s) (rqs s) (originSeqno s)
  (raisedSeqno s) (updatePending s) (changed s) (lost s) (lostWoke s) (nextHello s) x_nextUpdate (sleepUntil s)
  (retryAt s) (passes s).
Definition set_sleep (s : speaker) x_sleepUntil : speaker :=
  mkSpeaker (heap s) (peers s) (next s) (neighbors s) (originate s) (table s) (rqs s) (originSeqno s)
  (raisedSeqno s) (updatePending s) (changed s) (lost s) (lostWoke s) (nextHello s) (nextUpdate s) x_sleepUntil
  (retryAt s) (passes s).
Definition set_retryAt (s : speaker) x_retryAt : speaker :=
  mkSpeaker (heap s) (peers s) (next s) (neighbors s) (originate s) (table s) (rqs s) (originSeqno s)
  (raisedSeqno s) (updatePending s) (changed s) (lost s) (lostWoke s) (nextHello s) (nextUpdate s) (sleepUntil s)
  x_retryAt (passes s).
Definition set_passes (s : speaker) x_passes : speaker :=
  mkSpeaker (heap s) (peers s) (next s) (neighbors s) (originate s) (table s) (rqs s) (originSeqno s)
  (raisedSeqno s) (updatePending s) (changed s) (lost s) (lostWoke s) (nextHello s) (nextUpdate s) (sleepUntil s)
  (retryAt s) x_passes.

(** A write to the neighbor at [n]. *)
Definition onNeighbor (s : speaker) (n : nat) (f : neighborState → neighborState) : speaker :=
  set_heap s (<[n := f (heap s n)]> (heap s)).

Definition wake (s : speaker) : speaker := set_changed s true.

End state.
