(* ===== verification/BabelSpeaker.v ===== *)
(** * The speaker: internal/babel/speaker.go, receive.go and send.go

    Every operation that runs under the speaker's lock, composed as the code
    composes it: what a packet of a neighbor does and what it is answered, what
    the run loop says and when it wakes, and the changes of neighbors and of
    originated routes. An encoder that would panic makes the operation a [Panic].
    Reading the clock is an argument; the path [k] names the loops over maps. *)

From stdpp Require Import functions.
From S2P Require Import Prelude Netip BabelTlv BabelRaw BabelMetric BabelRoute BabelUpdate BabelPack BabelRequest BabelTable BabelState.

(** [err != nil] is handled by [none]; a panic is not. *)
Definition attempt {A B} (m : res A) (none : res B) (f : A → res B) : res B :=
  match m with Ok a => f a | Err _ => none | Panic => Panic end.

(** A loop with a body that may panic. *)
Fixpoint foldM {A S} (f : S → A → res S) (l : list A) (s : S) : res S :=
  match l with
  | [] => Ok s
  | a :: l => s ← f s a; foldM f l s
  end.

(** [time.Time.UnixMicro]; the zero time is the first year. *)
Definition unixEpoch : Z := 62135596800 * Second.
Definition UnixMicro (t : Z) : Z := (t - unixEpoch) / Microsecond.

(** [time.Duration(x) * 10 * time.Millisecond] *)
Definition centisOf (x : Z) : Z := x * 10 * Millisecond.

Definition rttTimestampHorizon : Z := 3 * 60 * Second.
Definition validTimestampGap (gap : Z) : bool := (0 <=? gap) && (gap <=? rttTimestampHorizon).

Definition updateAE (p : Prefix) : Z := if Is4 (prefix_addr p) then AEIPv4ViaIPv6 else AEIPv6.
Definition aeFor (p : Prefix) : Z := if Is4 (prefix_addr p) then AEIPv4 else AEIPv6.

Definition updateTLVs (key : routeKey) (adv : advertisement) (interval : Z) : res (list RawTLV) :=
  u ← EncodeUpdate (mkUpdate (updateAE (dest key)) (Bits (dest key)) (u16 (Z.quot interval (10 * Millisecond)))
        (advSeqno adv) (advMetric adv) (AsSlice (prefix_addr (dest key))) (replicate 8 0) false false (source key));
  Ok [EncodeRouterID (advRouterID adv); u].

(** ** routes.go, originatedKey *)

Record OriginatedRoute := mkOriginated { Destination : Prefix; Source : Prefix }.

Definition originatedKey (r : OriginatedRoute) : option routeKey :=
  let dest := Destination r in
  let source := Source r in
  if negb (IsValid dest) then None
  else if IsValid source && (0 <? Bits source) then
    if negb (eqb (Is4 (prefix_addr source)) (Is4 (prefix_addr dest))) then None
    else Some (mkKey (Masked source) (Masked dest))
  else Some (mkKey PrefixZero (Masked dest)).

Section speaker.
Context {FL : Float} {MO : MapOrder} (cfg : settings).

Implicit Types (s : speaker) (k : list positive) (now : Z) (n : nat).

(** ** The route table, over this speaker's neighbors *)

(** The entries of the table in the order a walk visits them, each with the order
    of its routes. *)
Definition walkOrders k (touch : keyEntry → option keyEntry) (rt : routeTable) : list (routeKey * list nat) :=
  (λ key, (key, match entries rt !! key with
                | Some e => order (encode key :: 2%positive :: k) (routes (default e (touch e)))
                | None => [] end)) <$> order (1%positive :: k) (entries rt).

Definition tUpdate k s n key adv holdTime now : speaker :=
  set_table s (update (heap s) (table s) n key adv holdTime now (order k (routes (withRoute (table s) n key)))).
Definition tRecompute k s n now : speaker :=
  set_table s (recomputeNeighbor (heap s) (table s) n now (walkOrders k (holding n) (table s))).
Definition tExpire k s n now : speaker :=
  set_table s (expireNeighbor (heap s) (table s) n now (walkOrders k (dropping n) (table s))).
Definition tRetract k s n now : speaker :=
  set_table s (retractNeighbor (heap s) (table s) n now (walkOrders k (retractEntry n now) (table s))).
Definition tSweep k s now : speaker :=
  set_table s (sweepExpired (heap s) (table s) now (walkOrders k Some (table s)) (order (3%positive :: k) (sources (table s)))).

(** The neighbors, in the order a loop visits them. *)
Definition inTurn k s : list nat := omap (λ id, neighbors s !! id) (order k (neighbors s)).

(** ** send.go: what is advertised *)

Definition advertisementFor s key : option (advertisement * option nat) :=
  if bool_decide (key ∈ originate s) then Some (mkAdv (routerID cfg) (originSeqno s) 0, None)
  else if noTransit cfg then None
  else
    match entries (table s) !! key with
    | None => None
    | Some entry =>
        let sel := selected entry in
        match selNeighbor sel with
        | Some via => Some (mkAdv (selRouterID sel) (selSeqno sel) (selCost sel), Some via)
        | None => Some (mkAdv (retractID entry) (retractSeqno entry) MetricInfinity, None)
        end
    end.

Definition selectedPeer s key : string :=
  match entries (table s) !! key with
  | Some e => match selNeighbor (selected e) with Some n => peerID (heap s n) | None => "" end
  | None => ""
  end.

(** The advertisement of [key] to [n], split horizon included. *)
Definition advertisementTo s n key : advertisement :=
  let '(adv, nextHop) := default (mkAdv (routerID cfg) (originSeqno s) MetricInfinity, None) (advertisementFor s key) in
  if bool_decide (nextHop = Some n) then mkAdv (advRouterID adv) (advSeqno adv) MetricInfinity else adv.

Definition advertiseTo s n key (force : bool) now : res (speaker * list RawTLV * bool) :=
  let adv := advertisementTo s n key in
  if advMetric adv =? MetricInfinity then
    let sent := bool_decide (key ∈ advertised (heap s n)) in
    if negb sent && negb force then Ok (s, [], false)
    else
      let s := if sent then onNeighbor s n (λ x, set_advertised x (advertised x ∖ {[key]})) else s in
      tlvs ← updateTLVs key adv (update_ cfg);
      Ok (s, tlvs, sent)
  else
    let s := set_table s (observe (table s) key adv (selectedPeer s key) now) in
    let s := onNeighbor s n (λ x, set_advertised x ({[key]} ∪ advertised x)) in
    tlvs ← updateTLVs key adv (update_ cfg);
    Ok (s, tlvs, false).

(** Each key once, in the order the three loops first meet it. *)
Definition advertisableKeys k s : list routeKey :=
  rev (fold_left (λ seen key, if bool_decide (key ∈ seen) then seen else key :: seen)
    (orderSet (1%positive :: k) (originate s) ++ order (2%positive :: k) (entries (table s))
     ++ concat ((λ n, orderSet (encode n :: 4%positive :: k) (advertised (heap s n))) <$> inTurn (3%positive :: k) s)) []).

(** One turn of the loop of [dumpFor]. *)
Definition dumpStep n now (st : speaker * list RawTLV * list tlvUndo) (key : routeKey) : res (speaker * list RawTLV * list tlvUndo) :=
  let '(s, tlvs, rollback) := st in
  r ← advertiseTo s n key false now;
  let '(s, advertised, spent) := r in
  if (length advertised =? 0)%nat then Ok (s, tlvs, rollback)
  else Ok (s, tlvs ++ advertised, rollback ++ [mkUndo (length tlvs) key spent]).

Definition dumpFor s n (keys : list routeKey) now : res (speaker * list RawTLV * list tlvUndo) :=
  foldM (dumpStep n now) keys (s, [], []).

(** The dump for [n] as an action, when there is something to say. *)
Definition dumpAction n (tlvs : list RawTLV) (rollback : list tlvUndo) : list sendAction :=
  if (length tlvs =? 0)%nat then [] else [mkAction n multicastGroup priorityDump tlvs rollback []].

Definition updateActionsFor k s (keys : list routeKey) now : res (speaker * list sendAction) :=
  if (length keys =? 0)%nat then Ok (s, [])
  else
    foldM (λ st n, let '(s, actions) := st in
      d ← dumpFor s n keys now;
      let '(s, tlvs, rollback) := d in
      Ok (s, actions ++ dumpAction n tlvs rollback)) (inTurn k s) (s, []).

Definition updateActions k s now : res (speaker * list sendAction) :=
  let keys := advertisableKeys (1%positive :: k) s in
  let s := set_table s (takeDirty (table s)).1 in
  let s := fold_left (λ s n, onNeighbor s n (λ x, set_owed x ∅)) (inTurn (2%positive :: k) s) s in
  updateActionsFor (3%positive :: k) s keys now.

Definition oweKey s n key : speaker := onNeighbor s n (λ x, set_owed x ({[key]} ∪ owed x)).

Definition triggeredActions k s now : res (speaker * list sendAction) :=
  let dirtyKeys := orderSet (1%positive :: k) (dirty (table s)) in
  let s := set_table s (takeDirty (table s)).1 in
  let s := fold_left (λ s key, fold_left (λ s n, oweKey s n key) (inTurn (encode key :: 2%positive :: k) s) s) dirtyKeys s in
  foldM (λ st n, let '(s, actions) := st in
    if bool_decide (owed (heap s n) = ∅) then Ok st
    else
      let keys := orderSet (encode n :: 4%positive :: k) (owed (heap s n)) in
      let s := onNeighbor s n (λ x, set_owed x ∅) in
      d ← dumpFor s n keys now;
      let '(s, tlvs, rollback) := d in
      Ok (s, actions ++ dumpAction n tlvs rollback)) (inTurn (3%positive :: k) s) (s, []).

Definition oweAgain s n (undo : tlvUndo) : speaker :=
  let s := if spent undo then onNeighbor s n (λ x, set_advertised x ({[undoKey undo]} ∪ advertised x)) else s in
  if negb (isNone (entries (table s) !! undoKey undo)) || bool_decide (undoKey undo ∈ originate s)
     || bool_decide (undoKey undo ∈ advertised (heap s n))
  then oweKey s n (undoKey undo) else s.

(** ** send.go: Hellos and requests *)

Definition helloAction s n now : speaker * sendAction :=
  let centis := u16 (Z.quot (hello cfg) (10 * Millisecond)) in
  let s := onNeighbor s n (λ x, set_own x true (u16 (ownHelloSeqno x + 1))) in
  let x := heap s n in
  let rxcost := if heard x && negb (isAlive x now) then MetricInfinity else rxCost (cost cfg) (multicastHistory x) in
  let ihu := if haveTheirHello x then mkIHU rxcost centis (theirHelloTxTS x) (theirHelloRxTS x) true
             else mkIHU rxcost centis 0 0 false in
  (s, mkAction n multicastGroup priorityHello
        [EncodeHello (mkHello (ownHelloSeqno x) centis false 0 true); EncodeIHU ihu] [] [n]).

(** The closure a Hello carries. *)
Definition takeHelloBack s n : speaker := onNeighbor s n (λ x, set_own x false (u16 (ownHelloSeqno x - 1))).

(** The action of a request this node makes or forwards. *)
Definition requestAction s n key (rid : list Z) (seqno hops : Z) : res sendAction :=
  t ← EncodeSeqnoRequest (mkSeqnoRequest (aeFor (dest key)) (dest key) (source key) seqno hops rid);
  Ok (mkAction n (destination (heap s n)) priorityRequest [t] [] []).

Definition seqnoRequestAction s n (asker : string) key rid seqno hops now : res (speaker * option sendAction) :=
  match allowSeqnoRequest (rqs s) (mkSourceKey key rid) seqno asker now with
  | (false, rq) => Ok (set_rqs s rq, None)
  | (true, rq) => a ← requestAction s n key rid seqno hops; Ok (set_rqs s rq, Some a)
  end.

(** One turn of the loop of [starvedActions]. *)
Definition starvedStep now (st : speaker * list sendAction) (r : starveRequest) : res (speaker * list sendAction) :=
  let '(s, actions) := st in
  let n := starveNeighbor r in
  if negb (bool_decide (neighbors s !! peerID (heap s n) = Some n)) then Ok st
  else
    match starvedAsk (rqs s) n (starveKey r) (starveRouterID r) (starveSeqno r) (peerID (heap s n)) now with
    | (rq, []) => Ok (set_rqs s rq, actions)
    | (rq, _ :: _) =>
        a ← requestAction s n (starveKey r) (starveRouterID r) (starveSeqno r) seqnoRequestHopCount;
        Ok (set_rqs s rq, actions ++ [a])
    end.

Definition starvedActions s now : res (speaker * list sendAction) :=
  let '(rt, requests) := takeStarved (table s) in
  foldM (starvedStep now) requests (set_table s rt, []).

Definition hasSelected s key : bool :=
  match entries (table s) !! key with Some e => negb (isNone (selNeighbor (selected e))) | None => false end.

(** The neighbors a retry asks: alive, with a route to the prefix. *)
Definition askable k s (id : sourceKey) key : list nat :=
  List.filter (λ n, alive (heap s n) && negb (isNone (route (table s) n key))) (inTurn (encode id :: k) s).

Definition retryActions k s now : res (speaker * list sendAction) :=
  let '(rq, asks) := retryStarvedLocked (hasSelected s) (askable (2%positive :: k) s) (rqs s) now
                       (order (1%positive :: k) (starveRetries (rqs s))) in
  actions ← foldM (λ l a, t ← requestAction s (askNeighbor a) (askKey a) (askRouterID a) (askSeqno a) seqnoRequestHopCount;
                          Ok (l ++ [t])) asks [];
  Ok (set_rqs s rq, actions).

(** ** receive.go *)

Definition sendTLVs s n key (tlvs : list RawTLV) (spent : bool) : list sendAction :=
  if (length tlvs =? 0)%nat then []
  else [mkAction n (destination (heap s n)) priorityRequest tlvs [mkUndo 0 key spent] []].

Definition routeReply k s n (request : RouteRequest) now : res (speaker * list sendAction) :=
  if rrAE request =? AEWildcard then
    if negb (lastFullDump (heap s n) =? 0) && (now - lastFullDump (heap s n) <? update_ cfg) then Ok (s, [])
    else
      let s := onNeighbor s n (λ x, set_fullDump x now) in
      d ← dumpFor s n (advertisableKeys k s) now;
      let '(s, tlvs, rollback) := d in
      Ok (s, if (length tlvs =? 0)%nat then []
             else [mkAction n (destination (heap s n)) priorityRequest tlvs rollback []])
  else
    let key := mkKey (rrSource request) (rrPrefix request) in
    r ← advertiseTo s n key true now;
    let '(s, tlvs, spent) := r in
    Ok (s, sendTLVs s n key tlvs spent).

(** [m == nil || n.peer.ID < m.peer.ID] *)
Definition firstByID s (m : option nat) n : option nat :=
  match m with
  | None => Some n
  | Some m => if String.ltb (peerID (heap s n)) (peerID (heap s m)) then Some n else Some m
  end.

(** One turn of the loop of [forwardTarget]: the table, whose warning a refused
    origin may set, and the two candidates. *)
Definition targetStep s key (entry : keyEntry) (from_ : nat)
    (st : routeTable * option nat * option nat) n : routeTable * option nat * option nat :=
  let '(rt, feas, unfeas) := st in
  match routes entry !! n with
  | None => st
  | Some r =>
      if bool_decide (n = from_) || (rxMetric r =? MetricInfinity) then st
      else
        let ok := feasible rt key (advertisedOf r) (peerID (heap s n)) in
        let rt := feasibleWarned rt key (advertisedOf r) (peerID (heap s n)) in
        if ok then (rt, firstByID s feas n, unfeas) else (rt, feas, firstByID s unfeas n)
  end.

Definition forwardTarget k s key (from_ : nat) : speaker * option nat :=
  match entries (table s) !! key with
  | None => (s, None)
  | Some entry =>
      match selNeighbor (selected entry) with
      | Some sel =>
          if negb (bool_decide (sel = from_)) then (s, Some sel)
          else
            let '(rt, feas, unfeas) := fold_left (targetStep s key entry from_) (order k (routes entry)) (table s, None, None) in
            (set_table s rt, match feas with Some _ => feas | None => unfeas end)
      | None =>
          let '(rt, feas, unfeas) := fold_left (targetStep s key entry from_) (order k (routes entry)) (table s, None, None) in
          (set_table s rt, match feas with Some _ => feas | None => unfeas end)
      end
  end.

(** Whether the selected route answers the request. *)
Definition answers s n key (request : SeqnoRequest) : bool :=
  match entries (table s) !! key with
  | Some entry =>
      let sel := selected entry in
      match selNeighbor sel with
      | Some via => negb (bool_decide (via = n)) &&
          (negb (bool_decide (selRouterID sel = srRouterID request)) || negb (seqnoGT (srSeqno request) (selSeqno sel)))
      | None => false
      end
  | None => false
  end.

Definition seqnoReply k s n (request : SeqnoRequest) now : res (speaker * list sendAction) :=
  let key := mkKey (srSource request) (srPrefix request) in
  if bool_decide (key ∈ originate s) then
    let s := if bool_decide (srRouterID request = routerID cfg) && seqnoGT (srSeqno request) (originSeqno s) && negb (raisedSeqno s)
             then
               let s := set_seqno s (u16 (originSeqno s + 1)) true in
               set_table s (set_dirty (table s) (originate s ∪ dirty (table s)))
             else s in
    r ← advertiseTo s n key true now;
    let '(s, tlvs, spent) := r in
    Ok (s, sendTLVs s n key tlvs spent)
  else if answers s n key request then
    r ← advertiseTo s n key true now;
    let '(s, tlvs, spent) := r in
    Ok (s, sendTLVs s n key tlvs spent)
  else if bool_decide (srRouterID request = routerID cfg) || (srHopCount request <? 2) then Ok (s, [])
  else
    let '(s, target) := forwardTarget k s key n in
    match target with
    | None => Ok (s, [])
    | Some target =>
        r ← seqnoRequestAction s target (peerID (heap s n)) key (srRouterID request) (srSeqno request)
              (u8 (srHopCount request - 1)) now;
        let '(s, action) := r in
        Ok (s, match action with Some a => [a] | None => [] end)
    end.

(** The transmit timestamp of the first Hello that carries one. *)
Fixpoint firstHelloTS (tlvs : list RawTLV) : res (option Z) :=
  match tlvs with
  | [] => Ok None
  | t :: rest =>
      if isType TLVHello t then
        attempt (DecodeHello (Body t)) (firstHelloTS rest)
          (λ h, if helloHasTS h then Ok (Some (TxTS h)) else firstHelloTS rest)
      else firstHelloTS rest
  end.

Definition hearHello (h : Hello) (recvTS now : Z) (x : neighborState) : neighborState :=
  let x := set_alive x true in
  let interval := centisOf (BabelTlv.helloInterval h) in
  let x := if BabelTlv.helloInterval h =? 0 then x
           else if Unicast h then set_unicast x now interval
           else set_multicast x now interval (now + (interval + Z.quot interval 2)) true in
  let x := if Unicast h then x
           else match record (multicastHistory x) (helloSeqno h) with
                | Some hist => set_history x hist
                | None => set_history x (default noHistory (record noHistory (helloSeqno h)))
                end in
  if helloHasTS h then set_theirs x (TxTS h) recvTS true else x.

Definition hearIHU (ihu : IHU) (helloTS : option Z) (recvTS now : Z) (x : neighborState) : neighborState :=
  let x := set_reported x (BabelTlv.RxCost ihu) true (now + deadTimeout (centisOf (ihuInterval ihu))) in
  match helloTS with
  | Some helloTxTS =>
      let there := microDelta recvTS (OriginTS ihu) in
      let back := microDelta helloTxTS (ReceiveTS ihu) in
      if ihuHasTS ihu && validTimestampGap there && validTimestampGap back && (0 <? there - back) then
        set_rtt x (if haveRTT x then Z.quot (836 * measuredRTT x + 164 * (there - back)) 1000 else there - back) true (ihuExpiry x)
      else x
  | None => x
  end.

(** The variables of the loop over the TLVs of a packet. *)
Record reader := mkReader {
  rdSpeaker : speaker;
  rdActions : list sendAction;
  rdPrefix : PrefixDecoder;
  rdID : option (list Z);
  rdIPv4NextHop : bool;
  rdLink : bool
}.

Definition with_speaker (r : reader) s : reader := mkReader s (rdActions r) (rdPrefix r) (rdID r) (rdIPv4NextHop r) (rdLink r).
Definition answer (r : reader) (sa : speaker * list sendAction) : reader :=
  mkReader sa.1 (rdActions r ++ sa.2) (rdPrefix r) (rdID r) (rdIPv4NextHop r) (rdLink r).

(** An Update that was decoded, with the router-id in effect. *)
Definition applyUpdate k s n now (id : option (list Z)) (v4NextHop : bool) (u : Update) : speaker :=
  if AE u =? AEWildcard then tRetract k s n now
  else if (AE u =? AEIPv4) && negb v4NextHop && negb (Metric u =? MetricInfinity) then s
  else
    match AddrFromSlice (UPrefix u) with
    | None => s
    | Some addr =>
        let dest := Masked (PrefixFrom (Unmap addr) (Plen u)) in
        if negb (IsValid dest)
           || (IsValid (SourcePrefix u) && negb (eqb (Is4 (prefix_addr (SourcePrefix u))) (Is4 (prefix_addr dest)))) then s
        else
          let key := mkKey (SourcePrefix u) dest in
          if bool_decide (key ∈ originate s) then s
          else
            let hold := deadTimeout (centisOf (Interval u)) in
            match id with
            | None =>
                if negb (Metric u =? MetricInfinity) then s
                else
                  let '(rid, seqno) := match route (table s) n key with
                                       | Some r => (riRouterID r, riSeqno r)
                                       | None => (replicate 8 0, Seqno u) end in
                  tUpdate k s n key (mkAdv rid seqno (Metric u)) hold now
            | Some rid =>
                if bool_decide (rid = routerID cfg) then s
                else tUpdate k s n key (mkAdv rid (Seqno u) (Metric u)) hold now
            end
    end.

(** One TLV of the packet, the [i]th. *)
Definition readTLV k n (helloTS : option Z) (recvTS now : Z) (r : reader) (t : RawTLV) : res reader :=
  let s := rdSpeaker r in
  let link s := mkReader s (rdActions r) (rdPrefix r) (rdID r) (rdIPv4NextHop r) true in
  if isType TLVHello t then
    attempt (DecodeHello (Body t)) (Ok r) (λ h,
      if (BabelTlv.helloInterval h =? 0) && negb (now <? helloExpiry (heap s n)) then Ok r
      else Ok (link (onNeighbor s n (hearHello h recvTS now))))
  else if isType TLVIHU t then
    attempt (DecodeIHU (Body t)) (Ok r) (λ ia, let '(ihu, addr) := ia in
      if negb (bool_decide (addr = [])) && negb (bool_decide (AddrFromSlice addr = Some (linkLocal cfg))) then Ok r
      else if ihuInterval ihu =? 0 then Ok r
      else Ok (link (onNeighbor s n (hearIHU ihu helloTS recvTS now))))
  else if isType TLVNextHop t then
    attempt (DecodeNextHop (Body t)) (Ok r) (λ h, let '(_, ae, _) := h in
      Ok (if ae =? AEIPv4 then mkReader s (rdActions r) (rdPrefix r) (rdID r) true (rdLink r) else r))
  else if isType TLVRouterID t then
    attempt (DecodeRouterID (Body t)) (Ok r) (λ h,
      Ok (mkReader s (rdActions r) (rdPrefix r) (Some h.1) (rdIPv4NextHop r) (rdLink r)))
  else if isType TLVUpdate t then
    attempt (Decode (rdPrefix r) (Body t)) (Ok r) (λ du, let '(d, u) := du in
      let id := if HasRouterID u then Some (RouterID u) else rdID r in
      let r := mkReader s (rdActions r) d id (rdIPv4NextHop r) (rdLink r) in
      if Ignore u then Ok r
      else Ok (with_speaker r (applyUpdate k s n now id (rdIPv4NextHop r) u)))
  else if isType TLVAckReq t then
    attempt (DecodeAckReq (Body t)) (Ok r) (λ nonce,
      if addr_valid (addr (heap s n))
      then Ok (answer r (s, [mkAction n (addr (heap s n)) priorityRequest [EncodeAck nonce] [] []]))
      else Ok r)
  else if isType TLVRouteRequest t then
    attempt (DecodeRouteRequest (Body t)) (Ok r) (λ request, sa ← routeReply k s n request now; Ok (answer r sa))
  else if isType TLVSeqnoRequest t then
    attempt (DecodeSeqnoRequest (Body t)) (Ok r) (λ request, sa ← seqnoReply k s n request now; Ok (answer r sa))
  else Ok r.

Fixpoint readTLVs k n helloTS recvTS now (i : positive) (tlvs : list RawTLV) (r : reader) : res reader :=
  match tlvs with
  | [] => Ok r
  | t :: rest => r ← readTLV (i :: k) n helloTS recvTS now r t; readTLVs k n helloTS recvTS now (Pos.succ i) rest r
  end.

Definition handlePacketLocked k s n (raw : list Z) now : res (speaker * list sendAction) :=
  attempt (DecodePacket raw) (Ok (s, [])) (λ tlvs,
    let s := set_raised s false in
    let recvTS := u32 (UnixMicro now) in
    helloTS ← firstHelloTS tlvs;
    r ← readTLVs (1%positive :: k) n helloTS recvTS now 1 tlvs (mkReader s [] newPrefixDecoder None false false);
    let s := if rdLink r then tRecompute (2%positive :: k) (rdSpeaker r) n now else rdSpeaker r in
    sa ← starvedActions s now;
    Ok (sa.1, rdActions r ++ sa.2)).

End speaker.

(** ** speaker.go *)

Section running.
Context {FL : Float} {MO : MapOrder} {SD : Sender} (cfg : settings).

Implicit Types (s : speaker) (k : list positive) (now : Z) (n : nat).

Definition sendRetryInterval : Z := Z.max (Z.quot (hello cfg) 4) Millisecond.

Definition noteSendRetryLocked s now : speaker := set_retryAt s (earlier (retryAt s) (now + sendRetryInterval)).

(** One merged action of [emitLocked]: the queue, the speaker, the packets that
    took a place and whether anything was refused. *)
Record emission := mkEmission { emQueue : queue; emSpeaker : speaker; emPackets : list reservedPacket; emRefused : bool }.

Definition emitStep (e : emission) (action : sendAction) : emission :=
  let '(q, reserved, lost, whole) := reserveBatchesTo (linkLocal cfg) (packetSize cfg) (emQueue e) action in
  let s := fold_left (λ s u, oweAgain s (actNeighbor action) u) lost (emSpeaker e) in
  if whole then mkEmission q s (emPackets e ++ reserved) (emRefused e)
  else mkEmission q (fold_left takeHelloBack (whenRefused action) s) (emPackets e ++ reserved) true.

(** [later] is the clock when a refusal is noted. *)
Definition emitLocked (q : queue) s (actions : list sendAction) (later : Z) : queue * speaker * list reservedPacket :=
  let e := fold_left emitStep (sortStable (coalesce actions)) (mkEmission q s [] false) in
  (emQueue e, if emRefused e then noteSendRetryLocked (emSpeaker e) later else emSpeaker e, emPackets e).

(** The report of one packet the transport lost, on the sender's goroutine; a
    packet with no undo has no report. *)
Definition noteLost s n (undo : list tlvUndo) now : speaker :=
  if (length undo =? 0)%nat then s
  else
    let soon := now - lostWoke s <? sendRetryInterval in
    let s := set_lost s (lost s ++ ((λ u, (n, u)) <$> undo)) (if soon then lostWoke s else now) in
    if soon then s else wake s.

Definition applyLostLocked s : speaker :=
  fold_left (λ s e, oweAgain s e.1 e.2) (lost s) (set_lost s [] (lostWoke s)).

Definition pendingWorkLocked s : bool :=
  updatePending s || negb (bool_decide (dirty (table s) = ∅)) || negb (bool_decide (starved (table s) = [])).

(** What one neighbor adds to the deadline. *)
Definition neighborDeadline (deadline : Z) (x : neighborState) : Z :=
  let deadline := if alive x then
      let deadline := earlier deadline (helloExpiry x) in
      if nextHelloDue x =? 0 then deadline else earlier deadline (nextHelloDue x)
    else deadline in
  let deadline := if haveReportedCost x then earlier deadline (ihuExpiry x) else deadline in
  if haveRTT x then earlier deadline (rttExpiry x) else deadline.

Definition deadlineLocked k s : Z :=
  let deadline := earlier (earlier (nextHello s) (nextUpdate s)) (nextExpiry (table s)) in
  let deadline := earlier (earlier deadline (nextStarveRetry (rqs s))) (retryAt s) in
  let deadline := earlier deadline (nextRequestSweep (rqs s)) in
  fold_left (λ d n, neighborDeadline d (heap s n)) (inTurn k s) deadline.

Definition wakeForPacketLocked k s : speaker :=
  if pendingWorkLocked s || (sleepUntil s =? 0) || (deadlineLocked k s <? sleepUntil s) then wake s else s.

(** The missed Hellos of a neighbor, at most [historyDepth] a pass. *)
Fixpoint missHellos (fuel : nat) now (x : neighborState) : neighborState :=
  match fuel with
  | O => x
  | S fuel =>
      if (0 <? BabelMetric.helloInterval x) && negb (nextHelloDue x =? 0) && negb (now <? nextHelloDue x)
      then missHellos fuel now
             (set_due (set_history x (missed (multicastHistory x))) (nextHelloDue x + BabelMetric.helloInterval x))
      else x
  end.

Definition sweepNeighbor now (x : neighborState) : neighborState :=
  let x := missHellos (Z.to_nat historyDepth) now x in
  let x := if alive x && negb (isAlive x now) then forgetLink (set_haveReported (set_alive x false) false) else x in
  let x := if haveReportedCost x && negb (now <? ihuExpiry x) then set_haveReported x false else x in
  if haveRTT x && negb (now <? rttExpiry x) then set_haveRTT x false else x.

Definition sweepExpiredLocked k s now : speaker :=
  let s := fold_left (λ s n, onNeighbor s n (sweepNeighbor now)) (inTurn (1%positive :: k) s) s in
  let s := tSweep (2%positive :: k) s now in
  set_rqs s (sweepRequestsLocked (rqs s) now (order (3%positive :: k) (pendingSeqnos (rqs s)))
    (order (4%positive :: k) (askedSeqno (rqs s)))).

(** The Hellos of a pass. *)
Definition helloActions k s now (due : bool) : speaker * list sendAction :=
  fold_left (λ st n, let '(s, actions) := st in
    if due || negb (sentHello (heap s n))
    then let '(s, a) := helloAction cfg s n now in (s, actions ++ [a]) else st) (inTurn k s) (s, []).

(** One pass of [Run] under the lock: the packets to send, and the time to sleep
    until. *)
Definition pass k (q : queue) s now later : res (queue * speaker * list reservedPacket) :=
  let s := set_passes (set_retryAt s 0) (u64 (passes s + 1)) in
  let s := applyLostLocked s in
  let s := sweepExpiredLocked (1%positive :: k) s now in
  let helloDue := negb (now <? nextHello s) in
  let s := if helloDue then set_nextHello s (now + hello cfg) else s in
  let '(s, hellos) := helloActions (2%positive :: k) s now helloDue in
  su ← (if negb (now <? nextUpdate s) || updatePending s then
          sa ← updateActions cfg (3%positive :: k) s now;
          let s := set_updatePending sa.1 false in
          Ok (if negb (now <? nextUpdate s) then set_nextUpdate s (now + update_ cfg) else s, sa.2)
        else triggeredActions cfg (3%positive :: k) s now);
  ss ← starvedActions su.1 now;
  sr ← retryActions (4%positive :: k) ss.1 now;
  let '(q, s, packets) := emitLocked q sr.1 (hellos ++ su.2 ++ ss.2 ++ sr.2) later in
  Ok (q, set_sleep s (deadlineLocked (5%positive :: k) s), packets).

(** [Run] before its first pass. *)
Definition startRun s now : speaker := set_nextUpdate (set_nextHello s now) now.

Definition flushUpdates k (q : queue) s now later : res (queue * speaker * list reservedPacket) :=
  sa ← updateActions cfg (1%positive :: k) s now;
  let '(q, s, packets) := emitLocked q sa.1 sa.2 later in
  Ok (q, wakeForPacketLocked (2%positive :: k) s, packets).

(** ** Neighbors and originated routes *)

Definition AddPeer k s (id : string) (peer : nat) now : speaker * nat :=
  let s := match neighbors s !! id with Some old => tExpire k s old now | None => s end in
  let n := next s in
  let s := mkSpeaker (<[n := newNeighbor id]> (heap s)) (<[n := peer]> (peers s)) (S n) (<[id := n]> (neighbors s)) (originate s)
             (table s) (rqs s) (originSeqno s) (raisedSeqno s) true (changed s) (lost s) (lostWoke s) (nextHello s)
             (nextUpdate s) (sleepUntil s) (retryAt s) (passes s) in
  (wake s, n).

Definition removePeer k s n now : speaker :=
  let id := peerID (heap s n) in
  if negb (bool_decide (neighbors s !! id = Some n)) then s
  else
    let s := set_neighbors s (delete id (neighbors s)) in
    let s := set_rqs s (forgetAsked (rqs s) n (order (1%positive :: k) (askedSeqno (rqs s)))) in
    wake (tExpire (2%positive :: k) s n now).

(** Whether the packet was Babel's, with what it made of the speaker. *)
Definition Receive k (q : queue) s (id : string) (peer : nat) (raw : list Z) now later :
    res (bool * queue * speaker * list reservedPacket) :=
  isBabel ← isBabelPacket raw;
  if negb isBabel then Ok (false, q, s, [])
  else
    attempt (parsePacket raw (linkLocal cfg)) (Ok (false, q, s, [])) (λ sp, let '(src, payload) := sp in
      match neighbors s !! id with
      | Some n =>
          if negb (peers s n =? peer)%nat then Ok (true, q, s, [])
          else
            let s := onNeighbor s n (λ x, set_addr x src) in
            sa ← handlePacketLocked cfg (1%positive :: k) s n payload now;
            let '(q, s, packets) := emitLocked q sa.1 sa.2 later in
            Ok (true, q, wakeForPacketLocked (2%positive :: k) s, packets)
      | None => Ok (true, q, s, [])
      end).

(** The calls on the mesh's forwarding table are logged with the table's own. *)
Definition adoptOriginatedLocked s key : speaker :=
  let rt := set_entries (table s) (delete key (entries (table s))) in
  set_table s (add_log rt (EInstall key noSelection)).

Definition releaseOriginatedLocked s key : speaker := set_table s (add_log (table s) (EForget key)).

Definition OriginateFrom s (r : OriginatedRoute) : speaker :=
  match originatedKey r with
  | None => s
  | Some key =>
      let s := set_originate s ({[key]} ∪ originate s) in
      wake (set_updatePending (adoptOriginatedLocked s key) true)
  end.

Definition SetOriginated k s (routes : list OriginatedRoute) : speaker :=
  let wanted : gset routeKey := list_to_set (omap originatedKey routes) in
  let changed := negb (size wanted =? size (originate s))%nat
                 || existsb (λ key, negb (bool_decide (key ∈ wanted))) (orderSet (1%positive :: k) (originate s)) in
  if negb changed then s
  else
    let s := fold_left (λ s key, if bool_decide (key ∈ wanted) then s else releaseOriginatedLocked s key)
               (orderSet (2%positive :: k) (originate s)) s in
    let s := set_originate s wanted in
    let s := fold_left adoptOriginatedLocked (orderSet (3%positive :: k) wanted) s in
    wake (set_updatePending s true).

End running.

(** ** routes.go and New *)

Record Announce := mkAnnounce { anPrefix : Prefix; anFrom : Prefix }.
Record Routes := mkRoutes { rsAnnounce : list Announce; rsTransit : option bool }.

Definition Transits (r : Routes) : bool := default true (rsTransit r).
Definition Originated (r : Routes) : list OriginatedRoute := (λ a, mkOriginated (anPrefix a) (anFrom a)) <$> rsAnnounce r.

Definition maskedDefault (p : Prefix) : res unit :=
  if negb (Bits p =? 0) || IsUnspecified (prefix_addr p) then Ok tt
  else Err "babel: cap.route announce announces a default route".

Definition validateAnnounce (a : Announce) : res unit :=
  _ ← (if IsValid (anPrefix a) then maskedDefault (anPrefix a) else Ok tt);
  _ ← (if IsValid (anFrom a) then maskedDefault (anFrom a) else Ok tt);
  let source := anFrom a in
  if negb (IsValid source) then Ok tt
  else if Bits source =? 0 then Err "babel: cap.route announce: a source covering every address"
  else if negb (eqb (Is4 (prefix_addr source)) (Is4 (prefix_addr (anPrefix a))))
  then Err "babel: cap.route announce: mismatched address families"
  else if Is4 (prefix_addr (anPrefix a)) then Err "babel: cap.route announce: source-specific routes are IPv6 only"
  else Ok tt.

Definition validateRoutes (r : Routes) : res unit :=
  foldM (λ _ a, validateAnnounce a) (rsAnnounce r) tt.

Record Runtime := mkRuntime { rnRouterID : list Z; rnLinkLocal : Addr; rnPacketSize : Z }.

Definition DefaultMTU : Z := 1400.

(** [randomID] and [randomLocal] are the bytes drawn where the configuration has
    none. An address of the model has no zone. *)
Definition resolve (r : Runtime) (randomID randomLocal : list Z) : res Runtime :=
  let id := if bool_decide (rnRouterID r = replicate 8 0) then randomID else rnRouterID r in
  let local := if addr_valid (rnLinkLocal r) then rnLinkLocal r
               else Addr6 (be_of ([0xfe; 0x80; 0; 0; 0; 0; 0; 0] ++ randomLocal)) in
  let size := if rnPacketSize r =? 0 then DefaultMTU - Z.of_nat ipv6HeaderLen - Z.of_nat udpHeaderLen else rnPacketSize r in
  if negb (Is6 local) || negb (IsLinkLocalUnicast local)
  then Err "babel: local address must be an unzoned IPv6 link-local address"
  else if (size <? 63) || (65535 - Z.of_nat udpHeaderLen <? size) then Err "babel: packet size out of range"
  else Ok (mkRuntime id local size).

Section new.
Context {FL : Float} {MO : MapOrder}.

Definition emptySpeaker (cfg : settings) : speaker :=
  mkSpeaker (λ _, newNeighbor "") (λ _, O) O ∅ ∅ (newRouteTable (3 * hello cfg) (RxCost (cost cfg)) (cost cfg) true)
    noRequests 1 false false false [] 0 0 0 0 0 0.

Definition New (k : list positive) (c : Config) (routes : Routes) (rt : Runtime) (randomID randomLocal : list Z) :
    res (settings * speaker) :=
  _ ← Validate c;
  _ ← validateRoutes routes;
  rt ← resolve rt randomID randomLocal;
  let cfg := mkSettings (HelloInterval c) (UpdateInterval c) (CostEffective c) (rnRouterID rt) (rnLinkLocal rt)
               (rnPacketSize rt) (negb (Transits routes)) in
  Ok (cfg, SetOriginated k (emptySpeaker cfg) (Originated routes)).

End new.
