(* ===== verification/BabelSound.v ===== *)
(** * The speaker stays sound, whatever its neighbors send

    An invariant of the speaker and its preservation by every operation. Along
    the way no operation panics: the encoders are only ever given prefixes they
    can encode, although prefixes come from packets. *)

From stdpp Require Import functions.
From S2P Require Import Prelude Netip BabelTlv BabelUpdate BabelRaw BabelMetric BabelRoute BabelSelect BabelTable BabelHeld BabelPack BabelRequest BabelState BabelSpeaker.

(** * The prefixes the speaker can name: no encoder panics on them

    [EncodeUpdate] and [EncodeSeqnoRequest] slice the bytes of a prefix and panic
    on a source prefix of the wrong family or of no length. Every prefix the
    decoders accept, and every prefix the speaker makes from a configuration, can
    be sent. *)

Definition sendable (p : Prefix) : Prop :=
  IsValid p = true ∧ addr_valid (prefix_addr p) = true ∧ 0 ≤ Bits p ≤ BitLen (prefix_addr p).

Definition key_ok (key : routeKey) : Prop :=
  sendable (dest key) ∧
  (IsValid (source key) = false ∨
   sendable (source key) ∧ 0 < Bits (source key) ∧ Is4 (prefix_addr (source key)) = Is4 (prefix_addr (dest key))).

Lemma PrefixFrom_sendable a b : IsValid (PrefixFrom a b) = true → sendable (PrefixFrom a b).
Proof.
  intros Hv. split; [done|]. rewrite PrefixFrom_valid in Hv. apply andb_true_iff in Hv as [[Ha H0]%andb_true_iff H1].
  unfold Bits, PrefixFrom. rewrite Ha, H0, H1. cbn. bool_props. split; [done | lia].
Qed.

Lemma AddrPrefix_sendable a b : IsValid (AddrPrefix a b) = true → sendable (AddrPrefix a b) ∧ Is4 (prefix_addr (AddrPrefix a b)) = Is4 a ∧
  Bits (AddrPrefix a b) = b.
Proof.
  unfold AddrPrefix. destruct (negb (addr_valid a) || (b <? 0) || (BitLen a <? b)) eqn:E; [done|].
  intros Hv. split; [by apply PrefixFrom_sendable|]. apply orb_false_iff in E as [[E1 E2]%orb_false_iff E3]. bool_props.
  destruct a; cbn in *; try done; (split; [done|]); unfold Bits, PrefixFrom; cbn; rewrite !(proj2 (Z.leb_le _ _)) by lia; cbn; lia.
Qed.

Lemma Masked_sendable p : IsValid (Masked p) = true → sendable (Masked p).
Proof. apply AddrPrefix_sendable. Qed.

Lemma sendable_masked p : sendable p → sendable (Masked p) ∧ Bits (Masked p) = Bits p ∧ Is4 (prefix_addr (Masked p)) = Is4 (prefix_addr p).
Proof.
  intros (Hv & Ha & Hb). assert (IsValid (Masked p) = true) as Hm.
  { unfold Masked, AddrPrefix. rewrite Ha, (proj2 (Z.ltb_ge _ _)), (proj2 (Z.ltb_ge _ _)) by lia. cbn [negb orb].
    rewrite PrefixFrom_valid. destruct (prefix_addr p); cbn in *; [done|..]; rewrite !(proj2 (Z.leb_le _ _)) by lia; done. }
  unfold Masked in *. destruct (AddrPrefix_sendable _ _ Hm) as (H1 & H2 & H3). done.
Qed.

Definition sliceLen (p : Prefix) : nat := if Is4 (prefix_addr p) then 4%nat else 16%nat.

Lemma sendable_slice p : sendable p → length (AsSlice (prefix_addr p)) = sliceLen p ∧ (prefixByteLen (Bits p) ≤ sliceLen p)%nat.
Proof.
  intros (_ & Ha & Hb). unfold sliceLen. destruct (prefix_addr p); [done|..]; cbn [Is4 AsSlice BitLen] in *; rewrite length_be_to;
    (split; [done|]); apply prefixByteLen_le; lia.
Qed.

Lemma sendable_bytes p : sendable p → ∃ raw, slice (AsSlice (prefix_addr p)) 0 (prefixByteLen (Bits p)) = Ok raw ∧ (length raw ≤ sliceLen p)%nat.
Proof.
  intros [Hl Hn]%sendable_slice. eexists. rewrite slice_ok by lia. split; [done|]. rewrite length_take, length_drop. lia.
Qed.

(** The source sub-TLV under the encoding of the destination's family. *)
Lemma key_source_good key ae : key_ok key → isAE4 ae = Is4 (prefix_addr (dest key)) →
  ∃ src, encodeSource ae (source key) = Ok src ∧ (length src ≤ 19)%nat.
Proof.
  intros [Hd [Hs|(Hs & Hpos & Hf)]] Hae; unfold encodeSource.
  - rewrite Hs. exists []. split; [done | cbn; lia].
  - assert (IsValid (source key) = true) as -> by apply Hs. unfold encodeSourcePrefix.
    rewrite (proj2 (Z.eqb_neq _ _)), Hf, Hae, eqb_reflx by lia. cbn [negb orb].
    destruct (sendable_bytes _ Hs) as (raw & -> & Hl). rbind. eexists. split; [done|].
    cbn. rewrite length_app. cbn. unfold sliceLen in Hl. destruct (Is4 _); lia.
Qed.

Lemma isAE4_update p : isAE4 (updateAE p) = Is4 (prefix_addr p).
Proof. unfold updateAE. by destruct (Is4 _). Qed.
Lemma isAE4_for p : isAE4 (aeFor p) = Is4 (prefix_addr p).
Proof. unfold aeFor. by destruct (Is4 _). Qed.

(** An Update of the speaker is encoded, in 47 bytes at most. *)
Lemma updateTLVs_ok key adv interval : key_ok key → length (advRouterID adv) = 8%nat →
  ∃ u, updateTLVs key adv interval = Ok [EncodeRouterID (advRouterID adv); u] ∧ Type_ u = TLVUpdate ∧ (length (Body u) ≤ 45)%nat.
Proof.
  intros Hk Hl. unfold updateTLVs, EncodeUpdate. cbn [AE Plen UPrefix Interval Seqno Metric SourcePrefix].
  destruct Hk as [Hd Hs]. destruct (sendable_slice _ Hd) as [Hlen Hn]. destruct (sendable_bytes _ Hd) as (raw & Hraw & Hlr).
  assert ((if isAE4 (updateAE (dest key)) then Ok (default [] (To4 (AsSlice (prefix_addr (dest key)))))
    else if updateAE (dest key) =? AEIPv6 then Ok (default [] (To16 (AsSlice (prefix_addr (dest key))))) else Panic)
    = Ok (AsSlice (prefix_addr (dest key)))) as ->.
  { rewrite isAE4_update. unfold sliceLen in Hlen. destruct (Is4 (prefix_addr (dest key))) eqn:E4.
    - unfold To4. by rewrite bool_decide_eq_true_2.
    - unfold updateAE. rewrite E4, Z.eqb_refl. unfold To16. rewrite bool_decide_eq_false_2, bool_decide_eq_true_2 by lia. done. }
  rbind. rewrite Hraw. rbind. fold (encodeSource (updateAE (dest key)) (source key)).
  destruct (key_source_good key (updateAE (dest key)) (conj Hd Hs) (isAE4_update _)) as (src & -> & Hls). rbind.
  eexists. split; [done|]. split; [done|]. cbn [Body]. rewrite !length_app, !length_be_to. cbn [length].
  unfold sliceLen in Hlr. destruct (Is4 (prefix_addr (dest key))); lia.
Qed.

Lemma request_ok key rid seqno hops : key_ok key → ∃ t,
  EncodeSeqnoRequest (mkSeqnoRequest (aeFor (dest key)) (dest key) (source key) seqno hops rid) = Ok t ∧
  Type_ t = TLVSeqnoRequest ∧ (length (Body t) ≤ 41 + length rid)%nat.
Proof.
  intros Hk. pose proof Hk as [Hd _]. unfold EncodeSeqnoRequest. cbn [srPrefix srSource srAE srSeqno srHopCount srRouterID].
  destruct (sendable_masked _ Hd) as (Hm & Hb & H4). destruct (sendable_bytes _ Hm) as (raw & -> & Hlr). rbind.
  destruct (key_source_good key (aeFor (dest key)) Hk (isAE4_for _)) as (src & -> & Hls). rbind.
  eexists. split; [done|]. split; [done|]. cbn [Body]. rewrite !length_app, !length_be_to. cbn [length].
  unfold sliceLen in Hlr. destruct (Is4 _); lia.
Qed.

(** ** What the decoders accept *)

Lemma decodeSourcePrefix_key ae body p : decodeSourcePrefix ae body = Ok (Some p) → bytes_ok body →
  sendable p ∧ 0 < Bits p ∧ Is4 (prefix_addr p) = isAE4 ae.
Proof.
  unfold decodeSourcePrefix. destruct (Nat.ltb_spec (length body) 1); [done|]. intros (plen & Hp & Hd)%bind_ok_inv Hb.
  destruct (Z.eqb_spec plen 0); [done|]. destruct (_ <? _)%nat; [done|]. apply bind_ok_inv in Hd as (raw & _ & Hd).
  assert (0 ≤ plen) as Hpos.
  { apply idx_inv in Hp. unfold bytes_ok in Hb. rewrite Forall_forall in Hb. apply (Hb plen). by eapply list_elem_of_lookup_2. }
  assert (∀ a w, BitLen a = w → addr_valid a = true → plen ≤ w →
    sendable (Masked (PrefixFrom a plen)) ∧ 0 < Bits (Masked (PrefixFrom a plen)) ∧ Is4 (prefix_addr (Masked (PrefixFrom a plen))) = Is4 a) as Hm.
  { intros a w Hw Ha Hle. assert (sendable (PrefixFrom a plen)) as Hs.
    { apply PrefixFrom_sendable. rewrite PrefixFrom_valid, Ha, !(proj2 (Z.leb_le _ _)) by lia. done. }
    destruct (sendable_masked _ Hs) as (H1 & H2 & H3). split_and!; [done | | done]. rewrite H2.
    unfold Bits, PrefixFrom. cbn. rewrite Ha, !(proj2 (Z.leb_le _ _)) by lia. cbn. lia. }
  destruct (isAE4 ae).
  - destruct (Z.ltb_spec 32 plen); [done|]. injection Hd as <-. apply (Hm (Addr4 _) 32); [done | done | lia].
  - destruct (ae =? AEIPv6); [|done]. destruct (Z.ltb_spec 128 plen); [done|]. injection Hd as <-. apply (Hm (Addr6 _) 128); [done | done | lia].
Qed.

Lemma subs_bytes b subs : bytes_ok b → decodeSubTLVs b = Ok subs → Forall (λ s, bytes_ok (subBody s)) subs.
Proof.
  intros Hb. unfold decodeSubTLVs, decodeTLVFrames. intros (fs & Hf & [= <-])%bind_ok_inv.
  destruct (decodeFrames_sound _ _ _ Hb Hf) as [Hs _]. apply List.Forall_map. eapply Forall_impl; [exact Hs|]. by intros f [_ ?].
Qed.

(** A source prefix as it comes out of a decoder. *)
Definition source_good (p : Prefix) : Prop := IsValid p = false ∨ sendable p ∧ 0 < Bits p.

Lemma requestSubs_good ae subs : Forall (λ s, bytes_ok (subBody s)) subs → ∀ p q, source_good p → requestSubs ae subs p = Ok q → source_good q.
Proof.
  induction 1 as [|s subs Hs _ IH]; intros p q Hp; cbn [requestSubs]; [by intros [= <-]|].
  destruct (_ <? _); [by apply IH|]. destruct (negb _); [done|]. destruct (IsValid p); [done|].
  intros (sp & Hsp & Hq)%bind_ok_inv. destruct sp as [p'|]; [|done]. apply (IH p'); [|done].
  destruct (decodeSourcePrefix_key _ _ _ Hsp Hs) as (? & ? & _). by right.
Qed.

Lemma bytes_from b lo r : bytes_ok b → from b lo = Ok r → bytes_ok r.
Proof. unfold from. apply bytes_ok_slice. Qed.

Lemma decodeRequestPrefix_key ae plen raw p sp : bytes_ok raw → decodeRequestPrefix ae plen raw = Ok (p, sp) →
  (ae = AEWildcard ∧ p = PrefixZero) ∨ key_ok (mkKey sp p).
Proof.
  intros Hb. unfold decodeRequestPrefix. destruct (Z.eqb_spec ae AEWildcard) as [->|Hae].
  { destruct (negb _); [done|]. intros (_ & _ & [= <- <-])%bind_ok_inv. by left. }
  destruct (_ && _); [done|]. cbv zeta. destruct (_ || _); [done|].
  intros (rest & Hr & (src & Hs & (given & _ & Hp)%bind_ok_inv)%bind_ok_inv)%bind_ok_inv.
  set (prefix := Masked _) in *. destruct (IsValid prefix) eqn:Hv; cbn [negb] in Hp; [|done].
  destruct (_ && _) eqn:Ef; [done|]. injection Hp as <- <-. right.
  apply bind_ok_inv in Hs as (subs & Hsubs & Hq). assert (source_good src) as Hg.
  { refine (requestSubs_good ae subs _ PrefixZero src (or_introl eq_refl) Hq). eapply subs_bytes; [|exact Hsubs]. by eapply bytes_from. }
  split; [by apply Masked_sendable|]. cbn [source dest]. destruct Hg as [?|[H1 H2]]; [by left|]. right. split_and!; [done | done|].
  destruct H1 as (H1 & _). rewrite H1 in Ef. cbn [andb] in Ef. apply negb_false_iff, eqb_prop in Ef. done.
Qed.

Lemma DecodeRouteRequest_key body r : bytes_ok body → DecodeRouteRequest body = Ok r →
  rrAE r = AEWildcard ∨ key_ok (mkKey (rrSource r) (rrPrefix r)).
Proof.
  intros Hb. unfold DecodeRouteRequest. destruct (_ <? _)%nat; [done|].
  intros (ae & _ & (plen & _ & (raw & Hraw & ([p sp] & Hp & [= <-])%bind_ok_inv)%bind_ok_inv)%bind_ok_inv)%bind_ok_inv.
  destruct (decodeRequestPrefix_key _ _ _ _ _ (bytes_from _ _ _ Hb Hraw) Hp) as [[? _]|?]; [by left | by right].
Qed.

Lemma DecodeSeqnoRequest_key body r : bytes_ok body → DecodeSeqnoRequest body = Ok r →
  key_ok (mkKey (srSource r) (srPrefix r)) ∧ length (srRouterID r) = 8%nat.
Proof.
  intros Hb. unfold DecodeSeqnoRequest. destruct (_ <? _)%nat; [done|].
  intros (ae & _ & (plen & _ & (raw & Hraw & ([p sp] & Hp & Hd)%bind_ok_inv)%bind_ok_inv)%bind_ok_inv)%bind_ok_inv.
  cbn [fst snd] in Hd. destruct (IsValid p) eqn:Ev; cbn [negb] in Hd; [|done].
  apply bind_ok_inv in Hd as (seqno & _ & (hop & _ & (id & Hid & [= <-])%bind_ok_inv)%bind_ok_inv).
  cbn. split; [|by apply slice_length in Hid]. destruct (decodeRequestPrefix ae plen raw) as [[p' sp']| |] eqn:E; [|done|done].
  injection Hp as -> ->. destruct (decodeRequestPrefix_key _ _ _ _ _ (bytes_from _ _ _ Hb Hraw) E) as [[_ ->]|?]; done.
Qed.

Lemma derivedRouterID_length ae ip : length (derivedRouterID ae ip) = 8%nat.
Proof. unfold derivedRouterID. rewrite length_app, length_replicate, length_drop. lia. Qed.

Lemma updateSubs_good ae subs : Forall (λ s, bytes_ok (subBody s)) subs → ∀ count u v,
  source_good (SourcePrefix u) → updateSubs ae subs count u = Ok v →
  source_good (SourcePrefix v) ∧ RouterID v = RouterID u ∧ Interval v = Interval u.
Proof.
  induction 1 as [|s subs Hs _ IH]; intros count u v Hu; cbn [updateSubs]; [by intros [= <-]|].
  destruct (_ <? _); [by apply IH|]. destruct (negb _); [by apply (IH _ (set_ignore u))|].
  cbv zeta. destruct (_ <? _); [by apply (IH _ (set_ignore u))|].
  intros (sp & Hsp & Hq)%bind_ok_inv. destruct sp as [p'|]; [|by apply (IH _ (set_ignore u)) in Hq].
  apply (IH _ (set_source u p')) in Hq; [done|]. cbn. destruct (decodeSourcePrefix_key _ _ _ Hsp Hs) as (? & ? & _). by right.
Qed.

Lemma Decode_good d body d' u : bytes_ok body → Decode d body = Ok (d', u) →
  source_good (SourcePrefix u) ∧ length (RouterID u) = 8%nat ∧ 0 ≤ Interval u < 2 ^ 16.
Proof.
  intros Hb. unfold Decode. destruct (_ <? _)%nat; [done|].
  intros (ae & _ & (fl & _ & (pl & _ & (om & _ & (iv & Hiv & (sq & _ & (me & _ & (sent & Hsent & Hd)%bind_ok_inv)%bind_ok_inv)%bind_ok_inv)%bind_ok_inv)%bind_ok_inv)%bind_ok_inv)%bind_ok_inv)%bind_ok_inv.
  pose proof (get_be_bound _ _ _ _ Hb Hiv) as Hivb. change (256 ^ Z.of_nat 2) with (2 ^ 16) in Hivb.
  unfold decodeUpdate in Hd. apply bind_ok_inv in Hd as (_ & _ & Hd). cbv zeta in Hd.
  destruct (_ <? _)%nat; [done|]. destruct (_ <? _)%nat; [done|].
  apply bind_ok_inv in Hd as (given & _ & Hd). apply bind_ok_inv in Hd as ([d1 ip] & _ & Hd).
  apply bind_ok_inv in Hd as (rest & Hrest & Hd).
  set (u0 := mkUpdate _ _ _ _ _ _ _ _ _ _) in *.
  assert (length (RouterID u0) = 8%nat) as Hid.
  { unfold u0. cbn. destruct (_ && _); [apply derivedRouterID_length | done]. }
  destruct (decodeSubTLVs rest) as [subs| |] eqn:Es; [| |done].
  - apply bind_ok_inv in Hd as (v & Hv & [= <- <-]). eapply updateSubs_good in Hv as (H1 & -> & ->); [done | | by left].
    eapply subs_bytes; [|exact Es]. eapply bytes_from; [|exact Hrest]. by eapply bytes_from.
  - injection Hd as <- <-. split_and!; [by left | done | apply Hivb..].
Qed.

Lemma DecodeRouterID_length body id ig : DecodeRouterID body = Ok (id, ig) → length id = 8%nat.
Proof.
  unfold DecodeRouterID. destruct (_ <? _)%nat; [done|]. intros (x & Hx & (rest & _ & Hd)%bind_ok_inv)%bind_ok_inv.
  apply slice_length in Hx. by destruct (decodeOptionalSubTLVs rest); simplify_eq.
Qed.

(** ** What is originated *)

Lemma originatedKey_ok r key : originatedKey r = Some key → prefix_ok (Destination r) → prefix_ok (Source r) → key_ok key.
Proof.
  intros Ho Hd Hs. unfold originatedKey in Ho. destruct (IsValid (Destination r)) eqn:Ev; cbn [negb] in Ho; [|done].
  assert (∀ p, IsValid p = true → prefix_ok p → sendable (Masked p) ∧ Bits (Masked p) = Bits p ∧ Is4 (prefix_addr (Masked p)) = Is4 (prefix_addr p)) as Hm.
  { intros p Hv Hp. apply sendable_masked. split; [done|]. destruct Hp as [_ [Hz|[Ha Hb]]]; unfold IsValid, Bits in *; [rewrite Hz in Hv; done|].
    split; [done | lia]. }
  destruct (Hm _ Ev Hd) as (H1 & H2 & H3).
  destruct (IsValid (Source r)) eqn:Es; cbn [andb] in Ho.
  - destruct (Z.ltb_spec 0 (Bits (Source r))).
    + destruct (eqb _ _) eqn:Ef; [|done]. injection Ho as <-. apply eqb_prop in Ef. destruct (Hm _ Es Hs) as (G1 & G2 & G3).
      split; [done|]. right. cbn. rewrite G2, G3, H3. done.
    + injection Ho as <-. split; [done|]. by left.
  - injection Ho as <-. split; [done|]. by left.
Qed.

(** ** Computations that return *)

(** [m] returns, without an error or a panic, something that satisfies [P]. *)
Definition returns {A} (m : res A) (P : A → Prop) : Prop := match m with Ok a => P a | _ => False end.

Lemma returns_ok {A} (a : A) (P : A → Prop) : P a → returns (Ok a) P.
Proof. done. Qed.

Lemma returns_bind {A B} (m : res A) (f : A → res B) (P : A → Prop) Q :
  returns m P → (∀ a, P a → returns (f a) Q) → returns (m ≫= f) Q.
Proof. destruct m; cbn; [intros Ha Hf; by apply Hf | done..]. Qed.

Lemma returns_attempt {A B} (m : res A) (none : res B) (f : A → res B) Q :
  safe m → returns none Q → (∀ a, m = Ok a → returns (f a) Q) → returns (attempt m none f) Q.
Proof. destruct m; cbn; [auto | done |]. intros Hs. by destruct Hs. Qed.

Lemma returns_impl {A} (m : res A) (P Q : A → Prop) : returns m P → (∀ a, P a → Q a) → returns m Q.
Proof. destruct m; cbn; auto. Qed.

Lemma returns_foldM {A S} (f : S → A → res S) (P : S → Prop) l : ∀ s, P s →
  (∀ s a, a ∈ l → P s → returns (f s a) P) → returns (foldM f l s) P.
Proof.
  induction l as [|a l IH]; intros s Hs Hf; cbn [foldM]; [done|].
  apply (returns_bind _ _ P); [apply Hf; [apply list_elem_of_here | done]|].
  intros s' Hs'. apply IH; [done|]. intros s2 b Hb. apply Hf. by apply list_elem_of_further.
Qed.

Lemma fold_left_inv {A S} (f : S → A → S) (P : S → Prop) l : ∀ s, P s → (∀ s a, a ∈ l → P s → P (f s a)) → P (fold_left f l s).
Proof.
  induction l as [|a l IH]; intros s Hs Hf; cbn [fold_left]; [done|].
  apply IH; [apply Hf; [apply list_elem_of_here | done]|]. intros s2 b Hb. apply Hf. by apply list_elem_of_further.
Qed.

Section sound.
Context {FL : Float} {MO : MapOrder} (cfg : settings).

Implicit Types (s : speaker) (k : list positive) (now : Z) (n : nat).

(** ** The invariant *)

Definition registered s n : Prop := ∃ id, neighbors s !! id = Some n.

(** What may be advertised or asked about. *)
Definition name_ok (key : routeKey) (rid : list Z) : Prop := key_ok key ∧ length rid = 8%nat.

(** A route the table may hold: for a prefix this node does not originate, from
    another node, through a neighbor of the present. *)
Definition route_ok s (key : routeKey) n (rid : list Z) : Prop :=
  name_ok key rid ∧ rid ≠ routerID cfg ∧ (key ∉ originate s) ∧ registered s n.

Record speaker_ok s : Prop := {
  si_table : table_ok (table s);
  si_good : table_good (route_ok s) name_ok (table s);
  si_mesh : ∀ key, key ∈ originate s → forwarding (log (table s)) !! key = Some None;
  si_reg : ∀ id n, neighbors s !! id = Some n → peerID (heap s n) = id ∧ (n < next s)%nat;
  si_requests : requests_ok [] [] [] (rqs s);
  si_retries : ∀ id r, starveRetries (rqs s) !! id = Some r → name_ok (rtKey r) (rtRouterID r);
  si_originate : ∀ key, key ∈ originate s → key_ok key;
  si_advertised : ∀ n key, key ∈ advertised (heap s n) → key_ok key;
  si_lost : ∀ n u, (n, u) ∈ lost s → key_ok (undoKey u);
  si_self : length (routerID cfg) = 8%nat
}.

Lemma route_name s key n rid : route_ok s key n rid → name_ok key rid.
Proof. by intros [? _]. Qed.

Lemma route_zero s key n rid : route_ok s key n rid → name_ok key (replicate 8 0).
Proof. by intros [[? _] _]. Qed.

(** *** Iteration *)

Lemma order_visits k (e : keyEntry) : visits (order k (routes e)) e.
Proof. split; [apply order_nodup | apply order_all]. Qed.

Lemma walkOrders_walks k touch rt : walks touch rt (walkOrders k touch rt).
Proof.
  unfold walkOrders. split.
  - rewrite <- list_fmap_compose. cbn. rewrite list_fmap_id. apply order_nodup.
  - intros key Hk. rewrite <- list_fmap_compose. cbn. rewrite list_fmap_id. by apply order_all.
  - intros key o e e' Hin He Ht. apply list_elem_of_fmap in Hin as (key' & [= <- ->] & _).
    rewrite He, Ht. cbn. apply order_visits.
Qed.

Lemma inTurn_registered k s n : n ∈ inTurn k s ↔ registered s n.
Proof.
  unfold inTurn, registered. rewrite list_elem_of_omap. split.
  - intros (id & _ & Hn). by exists id.
  - intros (id & Hn). exists id. split; [|done]. apply order_all. by rewrite Hn.
Qed.

Lemma order_keysOf k {K V} `{Countable K} (m : gmap K V) : keysOf m (order k m).
Proof. intros x v Hx. apply order_all. by rewrite Hx. Qed.

(** *** Changes that leave the invariant alone *)

(** A write to the neighbors that moves no peer and names no new prefix. *)
Lemma heap_ok s h : speaker_ok s → (∀ n, peerID (h n) = peerID (heap s n)) →
  (∀ n key, key ∈ advertised (h n) → key_ok key) → speaker_ok (set_heap s h).
Proof.
  intros [] Hp Ha. split; try done. intros id n Hn. cbn. rewrite Hp. auto.
Qed.

Lemma onNeighbor_ok s n f : speaker_ok s → peerID (f (heap s n)) = peerID (heap s n) →
  (∀ key, key ∈ advertised (f (heap s n)) → key_ok key) → speaker_ok (onNeighbor s n f).
Proof.
  intros Hok Hp Ha. apply heap_ok; [done | |]; intros m; destruct (decide (n = m)) as [<-|Hne];
    rewrite ?fn_lookup_insert, ?fn_lookup_insert_ne by done; try done. by apply (si_advertised _ Hok).
Qed.

(** The same for a change that keeps the prefixes told. *)
Lemma onNeighbor_same s n f : speaker_ok s → peerID (f (heap s n)) = peerID (heap s n) →
  advertised (f (heap s n)) = advertised (heap s n) → speaker_ok (onNeighbor s n f).
Proof. intros Hok Hp Ha. apply onNeighbor_ok; [done | done |]. rewrite Ha. by apply (si_advertised _ Hok). Qed.

(** A new route table. *)
Lemma set_table_ok s rt (K : routeKey → Prop) : speaker_ok s → table_ok rt → table_good (route_ok s) name_ok rt →
  untouched K (table s) rt → (∀ key, K key → key ∉ originate s) → speaker_ok (set_table s rt).
Proof.
  intros [] Ht Hg Hu HK. split; try done. intros key Hk. cbn. destruct (Hu key) as [_ ->]; [|auto].
  intros Hx. by apply (HK key Hx).
Qed.

Lemma set_rqs_ok s rq : speaker_ok s → requests_ok [] [] [] rq →
  (∀ id r, starveRetries rq !! id = Some r → name_ok (rtKey r) (rtRouterID r)) → speaker_ok (set_rqs s rq).
Proof. intros [] H1 H2. by split. Qed.

Lemma scalars_ok s : speaker_ok s →
  (∀ x, speaker_ok (set_raised s x)) ∧ (∀ x, speaker_ok (set_updatePending s x)) ∧ (∀ x, speaker_ok (set_changed s x)) ∧
  (∀ x, speaker_ok (set_nextHello s x)) ∧ (∀ x, speaker_ok (set_nextUpdate s x)) ∧ (∀ x, speaker_ok (set_sleep s x)) ∧
  (∀ x, speaker_ok (set_retryAt s x)) ∧ (∀ x, speaker_ok (set_passes s x)) ∧ (∀ x y, speaker_ok (set_seqno s x y)).
Proof. intros []. split_and!; intros; by split. Qed.

(** *** The route table's operations *)

(** A prefix with an entry is not originated. *)
Lemma entry_not_originated s key : speaker_ok s → is_Some (entries (table s) !! key) → key ∉ originate s.
Proof.
  intros Hok [e He]. destruct (ok_entries _ (si_table _ Hok) key e He) as [(_ & (n & r & Hr) & _) _].
  destruct (tg_entries _ _ _ (si_good _ Hok) key e He) as [Hg _]. by destruct (Hg n r Hr) as (_ & _ & ? & _).
Qed.

Lemma entry_key s key : speaker_ok s → is_Some (entries (table s) !! key) → key_ok key.
Proof. intros Hok [e He]. by destruct (tg_entries _ _ _ (si_good _ Hok) key e He) as [_ [? _]]. Qed.

Lemma tUpdate_ok k s n key adv holdTime now : speaker_ok s → 0 < now → 0 ≤ holdTime →
  route_ok s key n (advRouterID adv) → speaker_ok (tUpdate k s n key adv holdTime now).
Proof.
  intros Hok Hn Hh Hr. unfold tUpdate. pose proof (order_visits k (withRoute (table s) n key)) as Hv.
  destruct (update_good (heap s) (route_ok s) name_ok (route_name s) (route_zero s) (table s) n key adv holdTime now _ Hv (si_good _ Hok) Hr) as [H1 H2].
  eapply set_table_ok; [done | | done | done | by intros ? ->; apply Hr].
  apply BabelTable.update_ok; [done | done | by apply si_table | done].
Qed.

Lemma tRecompute_ok k s n now : speaker_ok s → 0 < now → speaker_ok (tRecompute k s n now).
Proof.
  intros Hok Hn. unfold tRecompute. pose proof (walkOrders_walks k (holding n) (table s)) as Hw.
  destruct (recompute_good (heap s) (route_ok s) name_ok (route_name s) (table s) n now _ Hw (si_good _ Hok)) as [H1 H2].
  eapply set_table_ok; [done | | done | done | intros; by apply entry_not_originated].
  apply recompute_ok; [done | by apply si_table | done].
Qed.

Lemma tExpire_ok k s n now : speaker_ok s → 0 < now → speaker_ok (tExpire k s n now).
Proof.
  intros Hok Hn. unfold tExpire. pose proof (walkOrders_walks k (dropping n) (table s)) as Hw.
  destruct (expire_good (heap s) (route_ok s) name_ok (route_name s) (table s) n now _ Hw (si_good _ Hok)) as [H1 H2].
  eapply set_table_ok; [done | | done | done | intros; by apply entry_not_originated].
  apply expire_ok; [done | by apply si_table | done].
Qed.

Lemma tRetract_ok k s n now : speaker_ok s → 0 < now → speaker_ok (tRetract k s n now).
Proof.
  intros Hok Hn. unfold tRetract. pose proof (walkOrders_walks k (retractEntry n now) (table s)) as Hw.
  destruct (retract_good (heap s) (route_ok s) name_ok (route_name s) (table s) n now _ Hw (si_good _ Hok)) as [H1 H2].
  eapply set_table_ok; [done | | done | done | intros; by apply entry_not_originated].
  apply retract_ok; [done | by apply si_table | done].
Qed.

Lemma tSweep_ok k s now : speaker_ok s → 0 < now → speaker_ok (tSweep k s now).
Proof.
  intros Hok Hn. unfold tSweep. pose proof (walkOrders_walks k Some (table s)) as Hw.
  destruct (sweep_good (heap s) (route_ok s) name_ok (route_name s) (table s) now _ (order (3%positive :: k) (sources (table s))) Hw (si_good _ Hok)) as [H1 H2].
  eapply set_table_ok; [done | | done | done | intros; by apply entry_not_originated].
  apply sweep_ok; [done | by apply si_table | done].
Qed.

(** A change of the table that is none of its entries, starved requests or calls. *)
Lemma quiet_table_ok s rt : speaker_ok s → entries rt = entries (table s) → retracted rt = retracted (table s) →
  nextExpiryAt rt = nextExpiryAt (table s) → log rt = log (table s) → (∀ r, r ∈ starved rt → r ∈ starved (table s)) →
  speaker_ok (set_table s rt).
Proof.
  intros Hok E1 E2 E3 E4 E5. apply (set_table_ok s rt (λ _, False)); [done | | | by apply untouched_same | done].
  - eapply table_ok_ext; [..|apply (si_table _ Hok)]; done.
  - destruct (si_good _ Hok) as [H1 H2]. split; [by rewrite E1|]. intros r Hr. by apply H2, E5.
Qed.

Lemma observe_ok' s key adv from_ now : speaker_ok s → speaker_ok (set_table s (observe (table s) key adv from_ now)).
Proof.
  intros Hok. destruct (observe_frame (table s) key adv from_ now) as (E1 & E2 & E3 & E4).
  destruct (observe_good (route_ok s) name_ok (table s) key adv from_ now (si_good _ Hok)) as (_ & _ & _ & E5 & _).
  apply quiet_table_ok; try done. intros r. by rewrite E5.
Qed.

(** ** Actions *)

Definition tlv_small (t : RawTLV) : Prop :=
  Type_ t ≠ TLVPad1 ∧ (length (Body t) ≤ if isType TLVUpdate t then 45 else 57)%nat.

(** What the builders make: an action the packing handles, its TLVs within the
    smallest packet size, its undos of prefixes that can be named. *)
Record action_sound (a : sendAction) : Prop := {
  as_ok : action_ok a;
  as_small : Forall tlv_small (actTlvs a);
  as_keys : Forall (λ u, key_ok (undoKey u)) (actRollback a)
}.

(** One Update with its Router-Id. *)
Definition update_group (tlvs : list RawTLV) : Prop := ∃ rid u,
  length rid = 8%nat ∧ Type_ u = TLVUpdate ∧ (length (Body u) ≤ 45)%nat ∧ tlvs = [EncodeRouterID rid; u].

Lemma update_group_small tlvs : update_group tlvs → grouped tlvs ∧ Forall tlv_small tlvs ∧ length tlvs = 2%nat.
Proof.
  intros (rid & u & Hl & Hu & Hb & ->). split_and!; [by repeat constructor | | done].
  constructor; [|constructor; [|constructor]]; split; [done | | by rewrite Hu | by rewrite isType_true].
  cbn [EncodeRouterID Body]. rewrite length_app, Hl. cbn [length]. destruct (isType TLVUpdate _); lia.
Qed.

(** The post-condition of an operation that makes actions. *)
Definition sounds (sa : speaker * list sendAction) : Prop := speaker_ok sa.1 ∧ Forall action_sound sa.2.

Lemma advertisementFor_ok s key adv via : speaker_ok s → advertisementFor cfg s key = Some (adv, via) →
  key_ok key ∧ length (advRouterID adv) = 8%nat.
Proof.
  intros Hok. unfold advertisementFor. case_bool_decide as Ho.
  { intros [= <- <-]. split; [by apply (si_originate _ Hok) | apply (si_self _ Hok)]. }
  destruct (noTransit cfg); [done|]. destruct (entries (table s) !! key) as [e|] eqn:E; [|done].
  destruct (tg_entries _ _ _ (si_good _ Hok) key e E) as [Hr Hi]. pose proof (ok_entries _ (si_table _ Hok) key e E) as [(_ & _ & Hsel) _].
  destruct (selNeighbor (selected e)) as [m|] eqn:Es; intros [= <- <-]; cbn.
  - destruct (Hsel m Es) as (r & Hm & _ & Hid & _). rewrite Hid. apply (Hr m r Hm).
  - apply Hi.
Qed.

Lemma advertisementTo_ok s n key : speaker_ok s → length (advRouterID (advertisementTo cfg s n key)) = 8%nat ∧
  (advMetric (advertisementTo cfg s n key) ≠ MetricInfinity → key_ok key).
Proof.
  intros Hok. unfold advertisementTo. destruct (advertisementFor cfg s key) as [[adv via]|] eqn:E; cbn [default].
  - destruct (advertisementFor_ok s key adv via Hok E) as [H1 H2]. cbn [id]. by case_bool_decide.
  - cbn [id]. rewrite bool_decide_eq_false_2 by done. cbn. split; [apply (si_self _ Hok) | done].
Qed.

Lemma advertiseTo_ok s n key force now : speaker_ok s → (force = true → key_ok key) →
  returns (advertiseTo cfg s n key force now) (λ r, speaker_ok r.1.1 ∧ (r.1.2 = [] ∨ key_ok key ∧ update_group r.1.2)).
Proof.
  intros Hok Hforce. unfold advertiseTo. destruct (advertisementTo_ok s n key Hok) as [Hid Hfin].
  set (adv := advertisementTo cfg s n key) in *. clearbody adv.
  assert (∀ s' (b : bool), speaker_ok s' → key_ok key → returns (tlvs ← updateTLVs key adv (update_ cfg); Ok (s', tlvs, b))
    (λ r : speaker * list RawTLV * bool, speaker_ok r.1.1 ∧ (r.1.2 = [] ∨ key_ok key ∧ update_group r.1.2))) as Henc.
  { intros s' b Hs' Hk. destruct (updateTLVs_ok key adv (update_ cfg) Hk Hid) as (u & -> & Hu & Hl). cbn.
    split; [done|]. right. split; [done|]. by exists (advRouterID adv), u. }
  destruct (Z.eqb_spec (advMetric adv) MetricInfinity) as [Hinf|Hne].
  - case_bool_decide as Hsent; cbn [negb andb].
    + pose proof (si_advertised _ Hok n key Hsent) as Hk. apply Henc; [|done].
      apply onNeighbor_ok; [done | done |]. cbn. intros key' Hin. apply (si_advertised _ Hok n). set_solver.
    + destruct force; cbn [negb]; [by apply Henc; auto|]. cbn. auto.
  - specialize (Hfin Hne). apply Henc; [|done]. apply onNeighbor_ok; [by apply observe_ok' | done |].
    cbn. intros key' [->%elem_of_singleton|Hin]%elem_of_union; [done|]. by apply (si_advertised _ Hok n).
Qed.

(** A dump in the making: a whole number of Updates, each with its undo. *)
Record dump_ok (st : speaker * list RawTLV * list tlvUndo) : Prop := {
  dm_speaker : speaker_ok st.1.1;
  dm_grouped : grouped st.1.2;
  dm_small : Forall tlv_small st.1.2;
  dm_sorted : ascending st.2;
  dm_inside : Forall (λ u, (firstTLV u < length st.1.2)%nat) st.2;
  dm_keys : Forall (λ u, key_ok (undoKey u)) st.2
}.

Lemma dumpFor_ok s n keys now : speaker_ok s → returns (dumpFor cfg s n keys now) dump_ok.
Proof.
  intros Hok. unfold dumpFor. apply returns_foldM; [by split; cbn; try done; apply grouped_nil || constructor|].
  intros [[s1 tlvs] rollback] key _ [H1 H2 H3 H4 H5 H6]. cbn [fst snd] in *. unfold dumpStep.
  eapply returns_bind; [by apply advertiseTo_ok|]. intros [[s2 advs] sp] [Hs2 Ha]. cbn [fst snd] in *.
  destruct (Nat.eqb_spec (length advs) 0) as [Hz|Hnz]; [by split|].
  destruct Ha as [->|[Hk Hg]]; [done|]. destruct (update_group_small _ Hg) as (G1 & G2 & G3). split; cbn [fst snd]; try done.
  - by apply grouped_app.
  - by apply Forall_app.
  - pose proof (ascending_app rollback [mkUndo 0 key sp] (length tlvs) H4) as Ha. apply Ha; [|done]. by repeat constructor.
  - rewrite length_app, G3. apply Forall_app. split; [eapply Forall_impl; [exact H5|]; intros ??; cbn in *; lia|].
    constructor; [cbn; lia | constructor].
  - apply Forall_app. split; [done|]. by constructor.
Qed.

Lemma dump_sound n dest p st rb : dump_ok st → st.1.2 ≠ [] → rb = st.2 → action_sound (mkAction n dest p st.1.2 rb []).
Proof. intros [] Hne ->. split; [split|..]; done. Qed.

Lemma dumpAction_sound n st : dump_ok st → Forall action_sound (dumpAction n st.1.2 st.2).
Proof.
  intros Hd. unfold dumpAction. destruct (Nat.eqb_spec (length st.1.2) 0) as [|Hne]; [constructor|].
  constructor; [|constructor]. apply dump_sound; [done | | done]. by destruct (st.1.2).
Qed.

Lemma dumpLoop_ok (keys : speaker → nat → list routeKey) (before : speaker → nat → speaker) (skip : speaker → nat → bool) now l s :
  speaker_ok s → (∀ s n, speaker_ok s → speaker_ok (before s n)) →
  returns (foldM (λ st n, let '(s, actions) := st in
    if skip s n then Ok st
    else d ← dumpFor cfg (before s n) n (keys s n) now;
         let '(s, tlvs, rollback) := d in Ok (s, actions ++ dumpAction n tlvs rollback)) l (s, [])) sounds.
Proof.
  intros Hok Hb. apply returns_foldM; [by split; [|constructor]|]. intros [s1 acts] n _ [H1 H2]. cbn [fst snd] in *.
  destruct (skip s1 n); [by split|]. eapply returns_bind; [by apply dumpFor_ok, Hb|].
  intros st Hst. pose proof (dumpAction_sound n st Hst) as Ha. destruct st as [[s2 tlvs] rb]. cbn in *.
  split; [apply (dm_speaker _ Hst)|]. by apply Forall_app.
Qed.

Lemma clearOwed_ok s l : speaker_ok s → speaker_ok (fold_left (λ s n, onNeighbor s n (λ x, set_owed x ∅)) l s).
Proof. intros Hok. apply fold_left_inv; [done|]. intros s' n _ Hs'. by apply onNeighbor_same. Qed.

Lemma takeDirty_ok s : speaker_ok s → speaker_ok (set_table s (takeDirty (table s)).1).
Proof. intros Hok. by apply quiet_table_ok. Qed.

Lemma updateActions_ok k s now : speaker_ok s → returns (updateActions cfg k s now) sounds.
Proof.
  intros Hok. unfold updateActions, updateActionsFor. destruct (_ =? _)%nat.
  { cbn. split; [|constructor]. by apply clearOwed_ok, takeDirty_ok. }
  apply (dumpLoop_ok (λ _ _, advertisableKeys (1%positive :: k) s) (λ s _, s) (λ _ _, false)); [|done].
  by apply clearOwed_ok, takeDirty_ok.
Qed.

Lemma oweKey_ok s n key : speaker_ok s → speaker_ok (oweKey s n key).
Proof. intros Hok. by apply onNeighbor_same. Qed.

Lemma triggeredActions_ok k s now : speaker_ok s → returns (triggeredActions cfg k s now) sounds.
Proof.
  intros Hok. unfold triggeredActions.
  pose proof (dumpLoop_ok (λ s n, orderSet (encode n :: 4%positive :: k) (owed (heap s n)))
    (λ s n, onNeighbor s n (λ x, set_owed x ∅)) (λ s n, bool_decide (owed (heap s n) = ∅)) now) as Hl.
  apply Hl; [|intros s' n Hs'; by apply onNeighbor_same].
  apply fold_left_inv; [by apply takeDirty_ok|]. intros s1 key _ H1. apply fold_left_inv; [done|].
  intros s2 n _ H2. by apply oweKey_ok.
Qed.

Lemma oweAgain_ok s n u : speaker_ok s → key_ok (undoKey u) → speaker_ok (oweAgain s n u).
Proof.
  intros Hok Hk. unfold oweAgain. set (s1 := if spent u then _ else s).
  assert (speaker_ok s1) as H1.
  { unfold s1. destruct (spent u); [|done]. apply onNeighbor_ok; [done | done |]. cbn.
    intros key [->%elem_of_singleton|Hin]%elem_of_union; [done|]. by apply (si_advertised _ Hok n). }
  destruct (_ || _); [by apply oweKey_ok | done].
Qed.

(** ** Hellos and requests *)

(** An action of TLVs that are neither Updates nor Router-Ids. *)
Lemma plain_action_sound n dest p tlvs wr : tlvs ≠ [] →
  Forall (λ t, Type_ t ≠ TLVRouterID ∧ Type_ t ≠ TLVUpdate ∧ tlv_small t) tlvs → action_sound (mkAction n dest p tlvs [] wr).
Proof.
  intros Hne Hf. split; [split|..]; cbn; try done; try constructor.
  - clear Hne. induction Hf as [|t l (H1 & H2 & _) _ IH]; [constructor | by apply grouped_other].
  - eapply Forall_impl; [exact Hf|]. by intros t (_ & _ & ?).
Qed.

Lemma requestAction_ok s n key rid seqno hops : name_ok key rid → returns (requestAction s n key rid seqno hops) action_sound.
Proof.
  intros [Hk Hl]. unfold requestAction. destruct (request_ok key rid seqno hops Hk) as (t & -> & Ht & Hb). cbn.
  apply plain_action_sound; [done|]. constructor; [|constructor]. rewrite Ht. split_and!; [done | done |]. split; [by rewrite Ht|].
  rewrite isType_false by (by rewrite Ht). lia.
Qed.

Lemma encodeHello_small h : Type_ (EncodeHello h) = TLVHello ∧ tlv_small (EncodeHello h).
Proof.
  split; [done|]. split; [done|]. rewrite isType_false by done. unfold EncodeHello. cbn [Body].
  destruct (helloHasTS h); rewrite !length_app, ?length_be_to; cbn; lia.
Qed.

Lemma encodeIHU_small i : Type_ (EncodeIHU i) = TLVIHU ∧ tlv_small (EncodeIHU i).
Proof.
  split; [done|]. split; [done|]. rewrite isType_false by done. unfold EncodeIHU. cbn [Body].
  destruct (ihuHasTS i); rewrite !length_app, ?length_be_to; cbn; lia.
Qed.

Lemma helloAction_ok s n now : speaker_ok s → speaker_ok (helloAction cfg s n now).1 ∧ action_sound (helloAction cfg s n now).2.
Proof.
  intros Hok. unfold helloAction. cbn [fst snd]. split; [by apply onNeighbor_same|]. apply plain_action_sound; [done|].
  constructor; [|constructor; [|constructor]].
  - split_and!; [done | done | apply encodeHello_small].
  - split_and!; [done | done | apply encodeIHU_small].
Qed.

Definition retries_named (rq : requests) : Prop := ∀ id r, starveRetries rq !! id = Some r → name_ok (rtKey r) (rtRouterID r).

Lemma seqnoRequestAction_ok s n asker key rid seqno hops now : speaker_ok s → 0 < now → name_ok key rid →
  returns (seqnoRequestAction s n asker key rid seqno hops now)
    (λ r, speaker_ok r.1 ∧ Forall action_sound (match r.2 with Some a => [a] | None => [] end)).
Proof.
  intros Hok Hn Hk. unfold seqnoRequestAction.
  pose proof (allowSeqnoRequest_ok [] [] [] (rqs s) (mkSourceKey key rid) seqno asker now Hn (si_requests _ Hok)) as Hrq.
  destruct (allowSeqnoRequest_frame (rqs s) (mkSourceKey key rid) seqno asker now) as (F & _).
  destruct (allowSeqnoRequest _ _ _ _ _) as [[] rq]; cbn [snd] in *.
  - eapply returns_bind; [by apply requestAction_ok|]. intros a Ha. cbn. split; [|by constructor].
    apply set_rqs_ok; [done | done |]. rewrite F. apply (si_retries _ Hok).
  - cbn. split; [|constructor]. apply set_rqs_ok; [done | done |]. rewrite F. apply (si_retries _ Hok).
Qed.

Lemma starvedAsk_named rq n key rid seqno peer now : retries_named rq → name_ok key rid → retries_named (starvedAsk rq n key rid seqno peer now).1.
Proof.
  intros Hr Hk. unfold starvedAsk. destruct (allowAsk_frame rq n key rid now) as (F & _).
  destruct (allowAsk rq n key rid now) as [b rq1]. cbn [snd] in F. destruct b; cbn [fst]; [|by intros id r; rewrite F; apply Hr].
  destruct (allowSeqnoRequest_frame rq1 (mkSourceKey key rid) seqno "" now) as (F2 & _).
  set (rq2 := (allowSeqnoRequest _ _ _ _ _).2) in *. clearbody rq2.
  assert (retries_named rq2) as H2 by (intros id r; rewrite F2, F; apply Hr). clear -H2 Hk.
  unfold rememberStarved. destruct (starveRetries rq2 !! mkSourceKey key rid) as [r|] eqn:E.
  - intros id r'. cbn. intros [[<- <-]|[_ Hi]]%lookup_insert_Some; [|by apply (H2 id)]. cbn. by apply (H2 _ r E).
  - destruct (_ || _); [done|]. intros id r'. cbn. intros [[<- <-]|[_ Hi]]%lookup_insert_Some; [done | by apply (H2 id)].
Qed.

Lemma starvedActions_ok s now : speaker_ok s → 0 < now → returns (starvedActions s now) sounds.
Proof.
  intros Hok Hn. unfold starvedActions. cbn [takeStarved].
  assert (∀ r, r ∈ starved (table s) → name_ok (starveKey r) (starveRouterID r)) as Hs by apply (tg_starved _ _ _ (si_good _ Hok)).
  apply returns_foldM; [split; [|constructor]|].
  { apply quiet_table_ok; try done. cbn. by intros r ?%not_elem_of_nil. }
  intros [s1 acts] r Hr [H1 H2]. cbn [fst snd] in *. specialize (Hs r Hr). unfold starvedStep. destruct (negb _); [by split|].
  pose proof (starvedAsk_ok [] [] [] (rqs s1) (starveNeighbor r) (starveKey r) (starveRouterID r) (starveSeqno r)
    (peerID (heap s1 (starveNeighbor r))) now Hn (si_requests _ H1)) as Hrq.
  pose proof (starvedAsk_named (rqs s1) (starveNeighbor r) (starveKey r) (starveRouterID r) (starveSeqno r)
    (peerID (heap s1 (starveNeighbor r))) now (si_retries _ H1) Hs) as Hnm.
  destruct (starvedAsk _ _ _ _ _ _ _) as [rq [|a l]]; cbn [fst] in *.
  - split; [by apply set_rqs_ok | done].
  - eapply returns_bind; [by apply requestAction_ok|]. intros act Ha. cbn. split; [by apply set_rqs_ok|].
    apply Forall_app. split; [done | by constructor].
Qed.

(** The requests of the retries are for the retries' own sources. *)
Lemma retry_asks_named sel holders now order rq : retries_named rq →
  let r := retryStarvedLocked sel holders rq now order in
  retries_named r.1 ∧ Forall (λ a, name_ok (askKey a) (askRouterID a)) r.2.
Proof.
  intros Hr. unfold retryStarvedLocked.
  apply (fold_left_inv _ (λ s : requests * list ask, retries_named s.1 ∧ Forall (λ a, name_ok (askKey a) (askRouterID a)) s.2)); [by split; [|constructor]|].
  intros [rq1 asks] id _ [H1 H2]. cbn [fst snd] in *. unfold retryStep. destruct (starveRetries rq1 !! id) as [r|] eqn:E; [|by split].
  assert (∀ rq', starveRetries rq' = delete id (starveRetries rq1) → retries_named rq') as Hdel.
  { intros rq' Hd j q. rewrite Hd. intros [_ Hj]%lookup_delete_Some. by apply (H1 j). }
  destruct (sel (rtKey r)); [split; [by apply Hdel | done]|]. destruct (_ <? _); [by split|].
  destruct (_ <=? _); [split; [by apply Hdel | done]|]. cbv zeta. set (r' := mkRetry _ _ _ _ _ _).
  apply (fold_left_inv _ (λ s : requests * list ask, retries_named s.1 ∧ Forall (λ a, name_ok (askKey a) (askRouterID a)) s.2)).
  - split; [|done]. intros j q. cbn. intros [[<- <-]|[_ Hj]]%lookup_insert_Some; [by apply (H1 id r) | by apply (H1 j)].
  - intros [rq2 asks2] n _ [G1 G2]. cbn [fst snd] in *. unfold retryAsk.
    destruct (allowAsk_frame rq2 n (rtKey r') (rtRouterID r') now) as (F & _).
    destruct (allowAsk _ _ _ _ _) as [b rq3]. cbn [snd] in F. destruct b; cbn [fst snd].
    + split.
      * intros j q. rewrite (proj1 (allowSeqnoRequest_frame _ _ _ _ _)), F. apply G1.
      * apply Forall_app. split; [done|]. constructor; [|constructor]. cbn. by apply (H1 id r).
    + split; [|done]. intros j q. rewrite F. apply G1.
Qed.

Lemma retryActions_ok k s now : speaker_ok s → 0 < now → returns (retryActions k s now) sounds.
Proof.
  intros Hok Hn. unfold retryActions. set (ord := order (1%positive :: k) (starveRetries (rqs s))).
  destruct (retryStarved_ok (hasSelected s) (askable (2%positive :: k) s) now (rqs s) ord Hn (order_nodup _ _ _ _) (order_keysOf _ _) (si_requests _ Hok)) as [Hrq _].
  destruct (retry_asks_named (hasSelected s) (askable (2%positive :: k) s) now ord (rqs s) (si_retries _ Hok)) as [Hnm Has].
  destruct (retryStarvedLocked _ _ _ _ _) as [rq asks]. cbn [fst snd] in *.
  apply (returns_bind _ _ (Forall action_sound)).
  - apply returns_foldM; [constructor|]. intros acts a Ha H1. rewrite Forall_forall in Has.
    eapply returns_bind; [by apply requestAction_ok, Has|]. intros t Ht. cbn. apply Forall_app. split; [done | by constructor].
  - intros acts Ha. cbn. split; [by apply set_rqs_ok | done].
Qed.

(** ** What is kept *)

(** Nobody joins or leaves, and nothing else is originated. *)
Definition kept s s' : Prop := neighbors s' = neighbors s ∧ originate s' = originate s.

Lemma kept_trans s1 s2 s3 : kept s1 s2 → kept s2 s3 → kept s1 s3.
Proof. intros [E1 E2] [E3 E4]. split; congruence. Qed.

Lemma foldM_kept {A S} (f : S → A → res S) (g : S → speaker) l : (∀ x a y, f x a = Ok y → kept (g x) (g y)) →
  ∀ x y, foldM f l x = Ok y → kept (g x) (g y).
Proof.
  intros Hf. induction l as [|a l IH]; intros x y; cbn [foldM]; [by intros [= <-]|].
  intros (z & H1 & H2)%bind_ok_inv. eapply kept_trans; [by eapply Hf | by eapply IH].
Qed.

Lemma advertiseTo_kept s n key force now r : advertiseTo cfg s n key force now = Ok r → kept s r.1.1.
Proof.
  unfold advertiseTo. destruct (_ =? _).
  - destruct (_ && _); [by intros [= <-]|]. intros (u & _ & [= <-])%bind_ok_inv. cbn. by destruct (bool_decide _).
  - intros (u & _ & [= <-])%bind_ok_inv. done.
Qed.

Lemma dumpFor_kept s n keys now st : dumpFor cfg s n keys now = Ok st → kept s st.1.1.
Proof.
  unfold dumpFor. apply (foldM_kept _ (λ st : speaker * list RawTLV * list tlvUndo, st.1.1)).
  intros [[s1 tlvs] rb] key st'. unfold dumpStep. intros ([[s2 advs] sp] & Ha & Hd)%bind_ok_inv.
  apply advertiseTo_kept in Ha. cbn in *. destruct (_ =? _)%nat; by injection Hd as <-.
Qed.

(** ** Answers *)

Definition answered s (sa : speaker * list sendAction) : Prop := sounds sa ∧ kept s sa.1.

Lemma returns_and {A} (m : res A) (P Q : A → Prop) : returns m P → (∀ a, m = Ok a → Q a) → returns m (λ a, P a ∧ Q a).
Proof. destruct m; cbn; auto. Qed.

Lemma sendTLVs_sound s n key tlvs sp : tlvs = [] ∨ key_ok key ∧ update_group tlvs → Forall action_sound (sendTLVs s n key tlvs sp).
Proof.
  intros Hg. unfold sendTLVs. destruct (Nat.eqb_spec (length tlvs) 0) as [|Hne]; [constructor|].
  destruct Hg as [->|[Hk Hg]]; [done|]. destruct (update_group_small _ Hg) as (G1 & G2 & G3).
  constructor; [|constructor]. split; [split|..]; cbn; try done.
  - by intros ->.
  - by repeat constructor.
  - constructor; [cbn; lia | constructor].
  - by constructor.
Qed.

(** The answer to a question about one prefix. *)
Lemma forced_ok s n key now : speaker_ok s → key_ok key →
  returns (r ← advertiseTo cfg s n key true now; let '(s, tlvs, spent) := r in Ok (s, sendTLVs s n key tlvs spent)) (answered s).
Proof.
  intros Hok Hk. eapply returns_bind; [apply returns_and; [by apply advertiseTo_ok | intros r Hr; by apply (advertiseTo_kept _ _ _ _ _ _ Hr)]|].
  intros [[s' tlvs] sp] [[H1 H2] H3]. cbn in *. split; [split; [done|]; by apply sendTLVs_sound | done].
Qed.

Lemma routeReply_ok k s n request now : speaker_ok s → rrAE request = AEWildcard ∨ key_ok (mkKey (rrSource request) (rrPrefix request)) →
  returns (routeReply cfg k s n request now) (answered s).
Proof.
  intros Hok Hr. unfold routeReply. destruct (Z.eqb_spec (rrAE request) AEWildcard) as [E|E].
  - destruct (_ && _); [by split; [split; [|constructor]|]|].
    assert (speaker_ok (onNeighbor s n (λ x, set_fullDump x now))) as H1 by by apply onNeighbor_same.
    eapply returns_bind; [apply returns_and; [by apply dumpFor_ok | intros st Hst; by apply (dumpFor_kept _ _ _ _ _ Hst)]|].
    intros st [Hd Hk]. pose proof (dump_sound n (destination (heap st.1.1 n)) priorityRequest st st.2 Hd) as Ha.
    destruct st as [[s' tlvs] rb]. cbn in *. split; [|done]. split; [apply (dm_speaker _ Hd)|].
    destruct (Nat.eqb_spec (length tlvs) 0) as [|Hne]; [constructor|]. constructor; [|constructor]. apply Ha; [by intros ->|done].
  - destruct Hr as [?|Hk]; [done|]. by apply forced_ok.
Qed.

Lemma targetSteps_quiet s key entry from_ l : ∀ st, let st' := fold_left (targetStep s key entry from_) l st in
  entries st'.1.1 = entries st.1.1 ∧ retracted st'.1.1 = retracted st.1.1 ∧ nextExpiryAt st'.1.1 = nextExpiryAt st.1.1 ∧
  log st'.1.1 = log st.1.1 ∧ starved st'.1.1 = starved st.1.1.
Proof.
  induction l as [|n l IH]; intros st; cbn [fold_left]; [done|].
  destruct (IH (targetStep s key entry from_ st n)) as (-> & -> & -> & -> & ->). destruct st as [[rt f] u]. unfold targetStep.
  destruct (routes entry !! n); [|done]. destruct (_ || _); [done|]. unfold feasibleWarned. by destruct (feasible _ _ _ _), (bool_decide _).
Qed.

Lemma forwardTarget_ok k s key from_ : speaker_ok s → speaker_ok (forwardTarget k s key from_).1 ∧ kept s (forwardTarget k s key from_).1.
Proof.
  intros Hok. unfold forwardTarget. destruct (entries (table s) !! key) as [e|]; [|done].
  pose proof (targetSteps_quiet s key e from_ (order k (routes e)) (table s, None, None)) as Hq.
  destruct (fold_left _ _ _) as [[rt f] u]. cbn in Hq. destruct Hq as (E1 & E2 & E3 & E4 & E5).
  assert (speaker_ok (set_table s rt)) as Hs by (apply quiet_table_ok; try done; intros r; by rewrite E5).
  destruct (selNeighbor (selected e)); [destruct (negb _)|]; done.
Qed.

Lemma seqnoReply_ok k s n request now : speaker_ok s → 0 < now →
  name_ok (mkKey (srSource request) (srPrefix request)) (srRouterID request) →
  returns (seqnoReply cfg k s n request now) (answered s).
Proof.
  intros Hok Hn [Hk Hl]. unfold seqnoReply. case_bool_decide.
  { set (s1 := if _ && _ then _ else s).
    assert (speaker_ok s1 ∧ kept s s1) as [H1 H2].
    { unfold s1. destruct (_ && _); [|done]. split; [|done]. apply quiet_table_ok; try done. by apply scalars_ok. }
    eapply returns_impl; [by apply forced_ok|]. intros sa [? ?]. split; [done|]. by eapply kept_trans. }
  destruct (answers _ _ _ _); [by apply forced_ok|]. destruct (_ || _); [by split; [split; [|constructor]|]|].
  destruct (forwardTarget_ok k s (mkKey (srSource request) (srPrefix request)) n Hok) as [H1 H2].
  destruct (forwardTarget _ _ _ _) as [s1 t]. cbn [fst] in *. destruct t as [t|]; [|by split; [split; [|constructor]|]].
  eapply returns_bind; [apply returns_and; [by apply seqnoRequestAction_ok|]|].
  - intros r Hr. exact (conj Hr H2).
  - intros [s2 a] [[H3 H4] [H5 H6]]. cbn in *. split; [by split|]. eapply kept_trans; [done|].
    unfold seqnoRequestAction in H5. destruct (allowSeqnoRequest _ _ _ _ _) as [[] rq].
    + apply bind_ok_inv in H5 as (x & _ & [= <- _]). done.
    + by injection H5 as <- _.
Qed.

(** ** Packets *)

(** A retraction of a route the neighbor does not have changes nothing. *)
Lemma update_unknown (nb : nat → neighborState) rt n key adv hold now ord : advMetric adv = MetricInfinity → route rt n key = None →
  update nb rt n key adv hold now ord = rt.
Proof.
  intros Hm Hr. unfold update, feasibleWarned, feasible. rewrite Hm. cbn [negb Z.eqb MetricInfinity Pos.eqb andb orb].
  unfold route in Hr. destruct (entries rt !! key) as [e|]; [|done]. cbn in Hr. by rewrite Hr.
Qed.

Lemma deadTimeout_nonneg i : 0 ≤ i < 2 ^ 16 → 0 ≤ deadTimeout (centisOf i).
Proof.
  intros Hi. unfold deadTimeout, centisOf, Millisecond. unfold signed.
  rewrite Z.mod_small by lia. destruct (Z.ltb_spec (i * 10 * 1000000 * 7) (2 ^ (64 - 1))); [apply Z.quot_pos; lia | lia].
Qed.

Lemma applyUpdate_ok k s n now id v4 u : speaker_ok s → 0 < now → registered s n →
  match id with Some rid => length rid = 8%nat | None => True end → source_good (SourcePrefix u) → 0 ≤ Interval u < 2 ^ 16 →
  speaker_ok (applyUpdate cfg k s n now id v4 u) ∧ kept s (applyUpdate cfg k s n now id v4 u).
Proof.
  intros Hok Hn Hreg Hid Hsrc Hiv. unfold applyUpdate. destruct (_ =? _); [split; [by apply tRetract_ok | done]|].
  destruct (_ && _ && _); [done|]. destruct (AddrFromSlice _) as [a|]; [|done].
  set (d := Masked _). destruct (IsValid d) eqn:Ed; cbn [negb orb]; [|done].
  destruct (_ && _) eqn:Ef; [done|]. case_bool_decide as Ho; [done|].
  assert (key_ok (mkKey (SourcePrefix u) d)) as Hk.
  { split; [by apply Masked_sendable|]. cbn. destruct Hsrc as [?|[Hs Hp]]; [by left|]. right. split_and!; [done | done|].
    destruct Hs as (Hv & _). rewrite Hv in Ef. by apply negb_false_iff, eqb_prop in Ef. }
  pose proof (deadTimeout_nonneg _ Hiv) as Hh. destruct id as [rid|].
  - case_bool_decide as Er; [done|]. split; [|done]. apply tUpdate_ok; try done.
  - destruct (Z.eqb_spec (Metric u) MetricInfinity) as [Hm|]; cbn [negb]; [|done].
    destruct (route (table s) n (mkKey (SourcePrefix u) d)) as [r|] eqn:Er.
    + split; [|done]. apply tUpdate_ok; try done. cbn. unfold route in Er. destruct (entries (table s) !! _) as [e|] eqn:Ee; [|done].
      cbn in Er. by apply (tg_entries _ _ _ (si_good _ Hok) _ e Ee).
    + unfold tUpdate. rewrite update_unknown by done. by destruct s.
Qed.

Lemma hear_same h r now x : peerID (hearHello h r now x) = peerID x ∧ advertised (hearHello h r now x) = advertised x.
Proof.
  unfold hearHello. destruct (BabelTlv.helloInterval h =? 0), (Unicast h), (helloHasTS h); cbn; try done;
    destruct (record _ _); done.
Qed.

Lemma hearIHU_same i ts r now x : peerID (hearIHU i ts r now x) = peerID x ∧ advertised (hearIHU i ts r now x) = advertised x.
Proof. unfold hearIHU. destruct ts; [|done]. by destruct (_ && _). Qed.

Record reader_ok n (r : reader) : Prop := {
  ro_speaker : speaker_ok (rdSpeaker r);
  ro_registered : registered (rdSpeaker r) n;
  ro_actions : Forall action_sound (rdActions r);
  ro_decoder : decoder_ok (rdPrefix r);
  ro_id : match rdID r with Some rid => length rid = 8%nat | None => True end
}.

Lemma registered_kept s s' n : kept s s' → registered s n → registered s' n.
Proof. intros [E _]. unfold registered. by rewrite E. Qed.

Lemma link_ok n r f : reader_ok n r → (∀ x, peerID (f x) = peerID x ∧ advertised (f x) = advertised x) →
  reader_ok n (mkReader (onNeighbor (rdSpeaker r) n f) (rdActions r) (rdPrefix r) (rdID r) (rdIPv4NextHop r) true).
Proof. intros [] Hf. split; cbn; try done. apply onNeighbor_same; [done | apply Hf..]. Qed.

Lemma answer_ok n r sa : reader_ok n r → answered (rdSpeaker r) sa → reader_ok n (answer r sa).
Proof.
  intros [] [[H1 H2] H3]. split; cbn; try done; [by eapply registered_kept | by apply Forall_app].
Qed.

Lemma readTLV_ok k n hts rts now r t : 0 < now → bytes_ok (Body t) → reader_ok n r →
  returns (readTLV cfg k n hts rts now r t) (reader_ok n).
Proof.
  intros Hn Hb Hr. pose proof Hr as [Hs Hreg Ha Hd Hid].
  pose proof (DecodeHello_safe (Body t)). pose proof (DecodeIHU_safe (Body t)). pose proof (DecodeRouterID_safe (Body t)).
  pose proof (DecodeNextHop_safe (Body t)). pose proof (DecodeAckReq_safe (Body t)). pose proof (DecodeRouteRequest_safe (Body t) Hb).
  pose proof (DecodeSeqnoRequest_safe (Body t) Hb). destruct (Decode_total (rdPrefix r) (Body t) Hd Hb) as [S8 S9].
  unfold readTLV. destruct (isType TLVHello t).
  { apply returns_attempt; [done | done |]. intros h _. destruct (_ && _); [done|]. apply link_ok; [done|]. intros; apply hear_same. }
  destruct (isType TLVIHU t).
  { apply returns_attempt; [done | done |]. intros [ihu a] _. destruct (_ && _); [done|]. destruct (_ =? _); [done|].
    apply link_ok; [done|]. intros; apply hearIHU_same. }
  destruct (isType TLVNextHop t).
  { apply returns_attempt; [done | done |]. intros [[a ae] ig] _. cbn. by destruct (_ =? _). }
  destruct (isType TLVRouterID t).
  { apply returns_attempt; [done | done |]. intros [id ig] Hdec. split; cbn; try done. by eapply DecodeRouterID_length. }
  destruct (isType TLVUpdate t).
  { apply returns_attempt; [done | done |]. intros [d u] Hdec. destruct (Decode_good _ _ _ _ Hb Hdec) as (G1 & G2 & G3).
    pose proof (S9 _ _ Hdec) as Hd'. set (id := if HasRouterID u then _ else _).
    assert (match id with Some rid => length rid = 8%nat | None => True end) as Hid' by (unfold id; by destruct (HasRouterID u)).
    destruct (Ignore u); [by split|].
    destruct (applyUpdate_ok k (rdSpeaker r) n now id (rdIPv4NextHop r) u) as [A1 A2]; try done.
    split; cbn; try done. by eapply registered_kept. }
  destruct (isType TLVAckReq t).
  { apply returns_attempt; [done | done |]. intros nonce _. destruct (addr_valid _); [|done]. apply answer_ok; [done|].
    split; [split; [done|]|done]. constructor; [|constructor]. apply plain_action_sound; [done|]. constructor; [|constructor].
    split_and!; [done | done|]. split; [done|]. cbn. lia. }
  destruct (isType TLVRouteRequest t).
  { apply returns_attempt; [done | done |]. intros request Hdec. eapply returns_bind; [apply routeReply_ok; [done|]|].
    - by eapply DecodeRouteRequest_key.
    - intros sa Hsa. by apply answer_ok. }
  destruct (isType TLVSeqnoRequest t); [|done].
  apply returns_attempt; [done | done |]. intros request Hdec. eapply returns_bind; [apply seqnoReply_ok; [done | done|]|].
  - by eapply DecodeSeqnoRequest_key.
  - intros sa Hsa. by apply answer_ok.
Qed.

Lemma readTLVs_ok k n hts rts now tlvs : 0 < now → Forall (λ t, bytes_ok (Body t)) tlvs → ∀ i r, reader_ok n r →
  returns (readTLVs cfg k n hts rts now i tlvs r) (reader_ok n).
Proof.
  intros Hn. induction 1 as [|t tlvs Ht _ IH]; intros i r Hr; cbn [readTLVs]; [done|].
  eapply returns_bind; [by apply readTLV_ok|]. intros r' Hr'. by apply IH.
Qed.

Lemma packet_bytes raw tlvs : bytes_ok raw → DecodePacket raw = Ok tlvs → Forall (λ t, bytes_ok (Body t)) tlvs.
Proof.
  intros Hb Hd. unfold DecodePacket in Hd. destruct (_ <? _)%nat; [done|].
  apply bind_ok_inv in Hd as (b0 & _ & Hd). destruct (negb _); [done|].
  apply bind_ok_inv in Hd as (b1 & _ & Hd). destruct (negb _); [done|].
  apply bind_ok_inv in Hd as (len & _ & Hd). destruct (_ <? _); [done|].
  apply bind_ok_inv in Hd as (body & Hs & Hd). apply bind_ok_inv in Hd as (out & Ho & [= <-]).
  destruct (decodeFrames_sound _ _ _ (bytes_ok_slice _ _ _ _ Hb Hs) Ho) as [Hf _]. apply List.Forall_map.
  eapply Forall_impl; [exact Hf|]. by intros f [_ ?].
Qed.

Lemma firstHelloTS_returns tlvs : returns (firstHelloTS tlvs) (λ _, True).
Proof.
  induction tlvs as [|t tlvs IH]; [done|]. cbn [firstHelloTS]. destruct (isType _ _); [|done].
  apply returns_attempt; [apply DecodeHello_safe | done |]. intros h _. by destruct (helloHasTS h).
Qed.

Lemma starvedActions_kept s now sa : starvedActions s now = Ok sa → kept s sa.1.
Proof.
  unfold starvedActions. cbn [takeStarved].
  intros Hf. assert (kept (set_table s (set_starved (table s) [])) sa.1) as Hk; [|exact Hk]. revert Hf.
  apply (foldM_kept _ (λ st : speaker * list sendAction, st.1)).
  intros [s1 acts] r y. unfold starvedStep. destruct (negb _); [by intros [= <-]|].
  destruct (starvedAsk _ _ _ _ _ _ _) as [rq [|a l]]; [by intros [= <-]|]. by intros (x & _ & [= <-])%bind_ok_inv.
Qed.

Lemma handlePacket_ok k s n raw now : speaker_ok s → 0 < now → bytes_ok raw → registered s n →
  returns (handlePacketLocked cfg k s n raw now) sounds.
Proof.
  intros Hok Hn Hb Hreg. unfold handlePacketLocked.
  apply returns_attempt; [apply DecodePacket_safe | by split; [|constructor] |]. intros tlvs Hd.
  eapply returns_bind; [apply firstHelloTS_returns|]. intros hts _.
  eapply returns_bind; [apply readTLVs_ok; [done | by eapply packet_bytes|]|].
  - split; cbn; [by apply scalars_ok | done | constructor | apply newPrefixDecoder_ok | done].
  - intros r [H1 H2 H3 H4 H5]. eapply returns_bind; [apply starvedActions_ok; [|done]|].
    + destruct (rdLink r); [by apply tRecompute_ok | done].
    + intros sa [G1 G2]. split; [done|]. by apply Forall_app.
Qed.

End sound.
