(* ===== verification/BabelPeers.v ===== *)
(** * What the speaker's operations keep

    Emission, and the changes of neighbors and originated prefixes. *)

From stdpp Require Import functions.
From S2P Require Import Prelude Netip BabelTlv BabelUpdate BabelRaw BabelMetric BabelRoute BabelSelect BabelTable BabelHeld BabelPack BabelRequest BabelState BabelSpeaker BabelSound.

(** * Runs of the speaker

    What the run loop and the receive path emit, the changes of neighbors and of
    originated routes, and every sequence of these and of packets lost in the
    transport: no operation panics, and the speaker stays sound. *)

(** ** Emission *)

Lemma elem_of_carried {B} (f : sendAction → list B) τ l x : x ∈ carried f τ l ↔ ∃ a, a ∈ l ∧ targetOf a = τ ∧ x ∈ f a.
Proof.
  unfold carried. rewrite list_elem_of_In, in_concat. split.
  - intros (y & Hy & Hx). apply list_elem_of_In, list_elem_of_fmap in Hy as (a & -> & Ha).
    apply list_elem_of_In, List.filter_In in Ha as [Ha Ht]. apply bool_decide_eq_true in Ht.
    exists a. by rewrite <- !list_elem_of_In in *.
  - intros (a & Ha & Ht & Hx). exists (f a). split; [|by apply list_elem_of_In].
    apply list_elem_of_In, list_elem_of_fmap. exists a. split; [done|]. apply list_elem_of_In, List.filter_In.
    split; [by apply list_elem_of_In | by apply bool_decide_eq_true].
Qed.

Lemma coalesce_sound actions : Forall action_sound actions → Forall action_sound (coalesce actions).
Proof.
  intros Ha. assert (Forall action_ok actions) as Hok by (eapply Forall_impl; [exact Ha|]; by intros ? []).
  destruct (coalesce_carried actTlvs (λ _ _ _ _, eq_refl) actions Hok) as (H1 & _ & H2).
  destruct (coalesce_carried resolved resolved_merge actions Hok) as (_ & _ & H3).
  rewrite Forall_forall in Ha, H1. apply Forall_forall. intros m Hm. split; [by apply H1|..].
  - apply Forall_forall. intros t Ht. assert (t ∈ carried actTlvs (targetOf m) (coalesce actions)) as Hc by (apply elem_of_carried; eauto).
    rewrite H2 in Hc. apply elem_of_carried in Hc as (a & Hin & _ & Hta). pose proof (as_small _ (Ha a Hin)) as Hs.
    rewrite Forall_forall in Hs. by apply Hs.
  - apply Forall_forall. intros u Hu.
    assert ((undoKey u, spent u, actTlvs m !! firstTLV u) ∈ carried resolved (targetOf m) (coalesce actions)) as Hc.
    { apply elem_of_carried. exists m. split_and!; [done | done|]. apply list_elem_of_fmap. eauto. }
    rewrite H3 in Hc. apply elem_of_carried in Hc as (a & Hin & _ & Hr).
    apply list_elem_of_fmap in Hr as (u' & [= E _ _] & Hu'). rewrite E. pose proof (as_keys _ (Ha a Hin)) as Hs.
    rewrite Forall_forall in Hs. by apply Hs.
Qed.

Lemma Forall_withPriority (P : sendAction → Prop) p l : Forall P l → Forall P (withPriority p l).
Proof.
  rewrite !Forall_forall. intros Hl a Ha. apply Hl. apply list_elem_of_In, List.filter_In in Ha as [Ha _]. by apply list_elem_of_In.
Qed.

Lemma sortStable_Forall (P : sendAction → Prop) l : Forall P l → Forall P (sortStable l).
Proof. intros Hl. rewrite sortStable_order, !Forall_app. split_and!; by apply Forall_withPriority. Qed.

(** The TLVs of a sound action leave room in a packet of the smallest size. *)
Lemma sound_roomy limit a : action_sound a → 63 ≤ limit → roomy limit (actTlvs a).
Proof.
  intros [_ Hs _] Hl. eapply Forall_impl; [exact Hs|]. intros t [H1 H2]. split; [done|].
  unfold headerLen. destruct (isType TLVUpdate t); cbn [encodedLen fold_right EncodeRouterID Body];
    rewrite ?length_app, ?length_replicate; cbn [length]; lia.
Qed.

Section run.
Context {FL : Float} {MO : MapOrder} {SD : Sender} (cfg : settings).

Implicit Types (s : speaker) (k : list positive) (now : Z) (n : nat).

Abbreviation speaker_ok := (speaker_ok cfg).

(** Packets whose undos name prefixes. *)
Definition packets_ok (ps : list reservedPacket) : Prop := Forall (λ p, Forall (λ u, key_ok (undoKey u)) (rpUndo p)) ps.

Lemma undosOf_keys a p : action_sound a → Forall (λ u, key_ok (undoKey u)) (undosOf a p).
Proof.
  intros [_ _ Hk]. rewrite Forall_forall in *. intros u Hu. apply Hk. unfold undosOf, undosIn in Hu.
  apply list_elem_of_In, List.filter_In in Hu as [Hu _]. by apply list_elem_of_In.
Qed.

Lemma concat_Forall {A B} (P : B → Prop) (f : A → list B) l : (∀ a, Forall P (f a)) → Forall P (concat (f <$> l)).
Proof. intros Hf. induction l as [|a l IH]; [constructor|]. cbn. by apply Forall_app. Qed.

Lemma emitStep_ok e a : speaker_ok (emSpeaker e) → packets_ok (emPackets e) → action_sound a →
  speaker_ok (emSpeaker (emitStep cfg e a)) ∧ packets_ok (emPackets (emitStep cfg e a)).
Proof.
  intros Hs Hp Ha. unfold emitStep. destruct Ha as [Hok Hsm Hk]. pose proof Hok as [A1 A2 A3 A4].
  destruct (reserve_pieces (linkLocal cfg) (packetSize cfg) (emQueue e) a A2 A3 A4) as (granted & q' & _ & -> & _).
  assert (action_sound a) as Ha by done.
  set (lost := concat (refused a <$> _)). set (reserved := concat _).
  assert (Forall (λ u, key_ok (undoKey u)) lost) as Hl.
  { apply concat_Forall. intros [p g]. unfold refused. destruct g; [constructor|]. by apply undosOf_keys. }
  assert (packets_ok reserved) as Hr.
  { apply concat_Forall. intros [p g]. unfold placed. cbn. destruct g; [|constructor]. constructor; [|constructor]. by apply undosOf_keys. }
  assert (speaker_ok (fold_left (λ s u, oweAgain s (actNeighbor a) u) lost (emSpeaker e))) as H1.
  { apply fold_left_inv; [done|]. intros s u Hu H. rewrite Forall_forall in Hl. by apply oweAgain_ok, Hl. }
  destruct (forallb _ _); cbn [emSpeaker emPackets]; (split; [|by apply Forall_app]); [done|].
  apply fold_left_inv; [done|]. intros s n _ H. by apply onNeighbor_same.
Qed.

Definition emitted (r : queue * speaker * list reservedPacket) : Prop := speaker_ok r.1.2 ∧ packets_ok r.2.

Lemma emitLocked_ok q s actions later : speaker_ok s → Forall action_sound actions → emitted (emitLocked cfg q s actions later).
Proof.
  intros Hs Ha. unfold emitLocked, emitted. cbn [fst snd].
  assert (speaker_ok (emSpeaker (fold_left (emitStep cfg) (sortStable (coalesce actions)) (mkEmission q s [] false))) ∧
    packets_ok (emPackets (fold_left (emitStep cfg) (sortStable (coalesce actions)) (mkEmission q s [] false)))) as [H1 H2].
  { apply (fold_left_inv _ (λ e, speaker_ok (emSpeaker e) ∧ packets_ok (emPackets e))); [by split; [|constructor]|].
    intros e a Hin [E1 E2]. apply emitStep_ok; [done | done|].
    pose proof (sortStable_Forall _ _ (coalesce_sound _ Ha)) as Hf. rewrite Forall_forall in Hf. by apply Hf. }
  split; [|done]. destruct (emRefused _); [|done]. by apply scalars_ok.
Qed.

(** ** Lost packets *)

Lemma set_lost_ok s l w : speaker_ok s → (∀ n u, (n, u) ∈ l → key_ok (undoKey u)) → speaker_ok (set_lost s l w).
Proof. intros [] Hl. by split. Qed.

Lemma noteLost_ok s n undo now : speaker_ok s → Forall (λ u, key_ok (undoKey u)) undo → speaker_ok (noteLost cfg s n undo now).
Proof.
  intros Hs Hu. unfold noteLost. destruct (_ =? _)%nat; [done|]. set (s1 := set_lost s _ _).
  assert (speaker_ok s1) as H1.
  { apply set_lost_ok; [done|]. intros m u [Hin|Hin]%elem_of_app; [by eapply si_lost|].
    apply list_elem_of_fmap in Hin as (u' & [= -> ->] & Hin). rewrite Forall_forall in Hu. by apply Hu. }
  destruct (_ <? _); [done|]. by apply scalars_ok.
Qed.

Lemma applyLost_ok s : speaker_ok s → speaker_ok (applyLostLocked s).
Proof.
  intros Hs. unfold applyLostLocked. apply fold_left_inv.
  - apply set_lost_ok; [done|]. by intros ? ? ?%not_elem_of_nil.
  - intros s1 [n u] Hin H1. apply oweAgain_ok; [done|]. exact (si_lost _ _ Hs n u Hin).
Qed.

(** ** The pass *)

Lemma missHollos_same fuel now : ∀ x, peerID (missHellos fuel now x) = peerID x ∧ advertised (missHellos fuel now x) = advertised x.
Proof.
  induction fuel as [|fuel IH]; intros x; [done|]. cbn [missHellos]. destruct (_ && _ && _); [|done].
  match goal with |- context [missHellos fuel now ?y] => destruct (IH y) as [-> ->] end. done.
Qed.

Lemma sweepNeighbor_same now x : peerID (sweepNeighbor now x) = peerID x ∧ advertised (sweepNeighbor now x) = advertised x.
Proof.
  unfold sweepNeighbor. destruct (missHollos_same (Z.to_nat historyDepth) now x) as [H1 H2].
  set (y := missHellos _ now x) in *. clearbody y.
  set (y1 := if alive y && _ then _ else y). assert (peerID y1 = peerID y ∧ advertised y1 = advertised y) as [E1 E2] by (unfold y1; by destruct (_ && _)).
  clearbody y1. set (y2 := if haveReportedCost y1 && _ then _ else y1).
  assert (peerID y2 = peerID y1 ∧ advertised y2 = advertised y1) as [F1 F2] by (unfold y2; by destruct (_ && _)).
  clearbody y2. destruct (_ && _); cbn; split; congruence.
Qed.

Lemma sweepExpired_ok k s now : speaker_ok s → 0 < now → speaker_ok (sweepExpiredLocked k s now).
Proof.
  intros Hs Hn. unfold sweepExpiredLocked. set (s1 := fold_left _ _ s).
  assert (speaker_ok s1) as H1.
  { apply fold_left_inv; [done|]. intros s' n _ Hs'. apply onNeighbor_same; [done | apply sweepNeighbor_same..]. }
  clearbody s1. pose proof (tSweep_ok cfg (2%positive :: k) s1 now H1 Hn) as H2. set (s2 := tSweep _ s1 now) in *. clearbody s2.
  apply set_rqs_ok; [done | |].
  - apply sweepRequests_ok; [apply order_keysOf | apply order_keysOf | apply (si_requests _ _ H2)].
  - assert (∀ o ao rq, starveRetries (sweepRequestsLocked rq now o ao) = starveRetries rq) as Hf.
    { intros o ao rq. unfold sweepRequestsLocked. apply (fold_left_inv _ (λ r, starveRetries r = starveRetries rq)).
      - apply (fold_left_inv _ (λ r, starveRetries r = starveRetries rq)); [done|]. intros r i _ <-. unfold sweepPending.
        destruct (pendingSeqnos r !! i); [|done]. by destruct (negb _).
      - intros r i _ <-. unfold sweepAsked. destruct (askedSeqno r !! i); [|done]. by destruct (negb _). }
    rewrite Hf. apply (si_retries _ _ H2).
Qed.

Lemma helloActions_ok k s now due : speaker_ok s → sounds cfg (helloActions cfg k s now due).
Proof.
  intros Hs. unfold helloActions. apply fold_left_inv; [by split; [|constructor]|].
  intros [s1 acts] n _ [H1 H2]. cbn [fst snd] in *. destruct (_ || _); [|by split].
  destruct (helloAction_ok cfg s1 n now H1) as [G1 G2]. destruct (helloAction cfg s1 n now) as [s2 a]. cbn in *.
  split; [done|]. apply Forall_app. split; [done | by constructor].
Qed.

Lemma pass_ok k q s now later : speaker_ok s → 0 < now → returns (pass cfg k q s now later) emitted.
Proof.
  intros Hs Hn. unfold pass.
  set (s1 := applyLostLocked _). assert (speaker_ok s1) as H1 by (apply applyLost_ok; do 2 apply scalars_ok; done). clearbody s1.
  pose proof (sweepExpired_ok (1%positive :: k) s1 now H1 Hn) as H2. set (s2 := sweepExpiredLocked _ s1 now) in *. clearbody s2.
  set (s3 := if negb (now <? nextHello s2) then _ else s2).
  assert (speaker_ok s3) as H3 by (unfold s3; destruct (negb _); [by apply scalars_ok | done]). clearbody s3.
  pose proof (helloActions_ok (2%positive :: k) s3 now (negb (now <? nextHello s2)) H3) as H4.
  destruct (helloActions _ _ s3 now _) as [s4 hellos]. destruct H4 as [H4 Hh]. cbn [fst snd] in *.
  apply (returns_bind _ _ (sounds cfg)).
  { destruct (_ || _); [|by apply triggeredActions_ok]. eapply returns_bind; [by apply updateActions_ok|].
    intros sa [G1 G2]. split; [|done]. cbn [fst]. destruct (negb _); repeat apply scalars_ok; done. }
  intros su [H5 Hu]. eapply returns_bind; [by apply starvedActions_ok|]. intros ss [H6 Hss].
  eapply returns_bind; [by apply retryActions_ok|]. intros sr [H7 Hr].
  pose proof (emitLocked_ok q sr.1 (hellos ++ su.2 ++ ss.2 ++ sr.2) later H7) as He.
  destruct (emitLocked _ _ _ _ _) as [[q' s5] packets]. cbn.
  destruct He as [E1 E2]; [by repeat (apply Forall_app; split)|]. split; [by apply scalars_ok | done].
Qed.

Lemma wakeForPacket_ok k s : speaker_ok s → speaker_ok (wakeForPacketLocked k s).
Proof. intros Hs. unfold wakeForPacketLocked. destruct (_ || _); [by apply scalars_ok | done]. Qed.

Lemma flushUpdates_ok k q s now later : speaker_ok s → returns (flushUpdates cfg k q s now later) emitted.
Proof.
  intros Hs. unfold flushUpdates. eapply returns_bind; [by apply updateActions_ok|]. intros sa [H1 H2].
  pose proof (emitLocked_ok q sa.1 sa.2 later H1 H2) as He. destruct (emitLocked _ _ _ _ _) as [[q' s'] packets].
  destruct He as [E1 E2]. split; [by apply wakeForPacket_ok | done].
Qed.

(** ** What arrives *)

Lemma isBabelPacket_returns raw : returns (isBabelPacket raw) (λ _, True).
Proof.
  unfold isBabelPacket, ipv6HeaderLen, udpHeaderLen. destruct (Nat.ltb_spec (length raw) (40 + 8)); [done|].
  destruct (lookup_lt_is_Some_2 raw 0) as [b0 H0]; [lia|]. destruct (lookup_lt_is_Some_2 raw 6) as [b6 H6]; [lia|].
  unfold idx, get_be. rewrite H0, H6. rbind. destruct (negb _); [done|]. destruct (negb _); [done|]. by rewrite slice_ok by lia.
Qed.

Definition received (r : bool * queue * speaker * list reservedPacket) : Prop := speaker_ok r.1.2 ∧ packets_ok r.2.

Lemma Receive_ok k q s id peer raw now later : speaker_ok s → 0 < now → bytes_ok raw →
  returns (Receive cfg k q s id peer raw now later) received.
Proof.
  intros Hs Hn Hb. unfold Receive. eapply returns_bind; [apply isBabelPacket_returns|]. intros isBabel _.
  assert (∀ b, received (b, q, s, [])) as Hsame by (intros b; by split; [|constructor]).
  destruct (negb isBabel); [apply Hsame|]. destruct (parse_inv raw (linkLocal cfg) Hb) as (Hsafe & _ & Hpay).
  apply returns_attempt; [done | apply Hsame |]. intros [src payload] Hp.
  destruct (Hpay src payload Hp) as (dst & udp & _ & Eu & Ep & _).
  destruct (neighbors s !! id) as [n|] eqn:En; [|apply Hsame]. destruct (negb _); [apply Hsame|].
  assert (speaker_ok (onNeighbor s n (λ x, set_addr x src))) as H1 by by apply onNeighbor_same.
  eapply returns_bind; [apply handlePacket_ok; [done | done | | by exists id]|].
  { rewrite Ep, Eu. by do 2 apply Forall_drop. }
  intros sa [H2 H3]. pose proof (emitLocked_ok q sa.1 sa.2 later H2 H3) as He.
  destruct (emitLocked _ _ _ _ _) as [[q' s'] packets]. destruct He as [E1 E2]. split; [by apply wakeForPacket_ok | done].
Qed.

End run.

(** * Who is there and what is originated

    The operations that change the neighbors or the originated prefixes keep the
    speaker sound: a session that is replaced or removed takes its routes with it,
    and an originated prefix is nobody else's. *)

(** ** Changes of the invariant's parameters *)

Section change.
Context {FL : Float} {MO : MapOrder} (cfg : settings).

Implicit Types (s : speaker) (k : list positive) (now : Z) (n : nat).

Abbreviation speaker_ok := (speaker_ok cfg).
Abbreviation route_ok := (route_ok cfg).

Lemma good_change s s' rt rt' : table_good (route_ok s) name_ok rt → starved rt' = starved rt →
  (∀ key e, entries rt' !! key = Some e → entries rt !! key = Some e) →
  (∀ key n rid, holds rt' key n → route_ok s key n rid → route_ok s' key n rid) → table_good (route_ok s') name_ok rt'.
Proof.
  intros [H1 H2] Es He Hr. split; [|intros r; rewrite Es; apply H2]. intros key e Hk.
  destruct (H1 key e (He key e Hk)) as [G1 G2]. split; [|done]. intros n r Hn. apply Hr; [|by apply G1].
  exists r. unfold route. by rewrite Hk.
Qed.

(** ** Neighbors *)

Lemma tExpire_drops k s n now key : ¬ holds (table (tExpire k s n now)) key n.
Proof. apply expire_drops, walkOrders_walks. Qed.

Lemma holds_registered s key n : speaker_ok s → holds (table s) key n → registered s n.
Proof.
  intros Hok [r Hr]. unfold route in Hr. destruct (entries (table s) !! key) as [e|] eqn:E; [|done].
  by apply (proj1 (tg_entries _ _ _ (si_good _ _ Hok) key e E) n r Hr).
Qed.

Lemma registered_once s id id' n : speaker_ok s → neighbors s !! id = Some n → neighbors s !! id' = Some n → id = id'.
Proof. intros Hok H1%(si_reg _ _ Hok) H2%(si_reg _ _ Hok). destruct H1 as [<- _], H2 as [<- _]. done. Qed.

Lemma AddPeer_ok k s id peer now : speaker_ok s → 0 < now → speaker_ok (AddPeer k s id peer now).1.
Proof.
  intros Hok Hn. unfold AddPeer. cbn [fst].
  set (s1 := match neighbors s !! id with Some old => tExpire k s old now | None => s end).
  assert (speaker_ok s1 ∧ ∀ key n, holds (table s1) key n → ∃ id', id' ≠ id ∧ neighbors s1 !! id' = Some n) as [H1 Hh].
  { assert (speaker_ok s1) as H1 by (unfold s1; destruct (neighbors s !! id); [by apply tExpire_ok | done]). split; [done|].
    intros key n Hk. destruct (holds_registered s1 key n H1 Hk) as [id' Hid]. exists id'. split; [|done]. intros ->.
    revert Hk Hid. unfold s1. destruct (neighbors s !! id) as [old|] eqn:E; [|congruence].
    cbn. rewrite E. intros Hk [= <-]. by apply (tExpire_drops k s old now key). }
  clearbody s1. destruct H1 as [T1 T2 T3 T4 T5 T6 T7 T8 T9 T10]. split; cbn; try done.
  - eapply (good_change s1); [done..|]. intros key n rid Hk (A1 & A2 & A3 & _). split_and!; [done..|].
    destruct (Hh key n Hk) as (id' & Hne & Hid). exists id'. cbn. by rewrite lookup_insert_ne.
  - intros id' m. destruct (decide (id = id')) as [<-|Hne].
    + rewrite lookup_insert_eq. intros [= <-]. rewrite fn_lookup_insert. cbn. split; [done | lia].
    + rewrite lookup_insert_ne by done. intros Hm. destruct (T4 _ _ Hm) as [P1 P2].
      rewrite fn_lookup_insert_ne by lia. split; [done | lia].
  - intros m key. destruct (decide (next s1 = m)) as [<-|Hne]; [rewrite fn_lookup_insert; cbn; set_solver|].
    rewrite fn_lookup_insert_ne by done. apply T8.
Qed.

Lemma removePeer_ok k s n now : speaker_ok s → 0 < now → speaker_ok (removePeer k s n now).
Proof.
  intros Hok Hn. unfold removePeer. set (id := peerID (heap s n)). case_bool_decide as Hid; cbn [negb]; [|done].
  set (rq := forgetAsked _ _ _).
  pose proof (tExpire_ok cfg (2%positive :: k) s n now Hok Hn) as H1.
  pose proof (tExpire_drops (2%positive :: k) s n now) as Hd.
  change (speaker_ok (wake (set_rqs (set_neighbors (tExpire (2%positive :: k) s n now) (delete id (neighbors s))) rq))).
  assert (requests_ok [] [] [] rq) as Hrq by apply forgetAsked_ok, (si_requests _ _ Hok).
  assert (starveRetries rq = starveRetries (rqs s)) as Hf.
  { unfold rq, forgetAsked. apply (fold_left_inv _ (λ r, starveRetries r = starveRetries (rqs s))); [done|].
    intros r i _ <-. by destruct (bool_decide _). }
  set (s1 := tExpire _ s n now) in *.
  assert (neighbors s1 = neighbors s) as En by done. clearbody s1 rq.
  destruct H1 as [T1 T2 T3 T4 T5 T6 T7 T8 T9 T10]. split; cbn; try done.
  - eapply (good_change s1); [done..|]. intros key m rid Hk (A1 & A2 & A3 & id' & Hm). split_and!; [done..|]. exists id'. cbn.
    rewrite lookup_delete_ne; [by rewrite <- En|]. intros <-. rewrite En, Hid in Hm. injection Hm as <-. by apply (Hd key).
  - intros id' m [_ Hm]%lookup_delete_Some. apply T4. by rewrite En.
  - intros i r. rewrite Hf. apply (si_retries _ _ Hok).
Qed.

(** ** Originated prefixes *)

Definition adopted rt (O : routeKey → Prop) rt' : Prop :=
  table_ok rt' ∧ starved rt' = starved rt ∧ (∀ key e, entries rt' !! key = Some e → entries rt !! key = Some e ∧ ¬ O key) ∧
  (∀ key, O key → forwarding (log rt') !! key = Some None).

Lemma adopt_log s key key' : forwarding (log (table (adoptOriginatedLocked s key))) !! key' =
  if decide (key = key') then Some None else forwarding (log (table s)) !! key'.
Proof.
  unfold adoptOriginatedLocked. cbn [table set_table log add_log]. rewrite forwarding_snoc. cbn [fold_left apply_event].
  case_decide as Hd; [subst key'; by rewrite lookup_insert_eq | by rewrite lookup_insert_ne].
Qed.

(** The calls of the two operations on the mesh, in the table's log. *)
Lemma adopt_table s key : table_ok (table s) → table_ok (table (adoptOriginatedLocked s key)).
Proof.
  intros [T1 T2 T3 T4]. split; cbn; [|done| |].
  - intros key' e [_ He]%lookup_delete_Some. by apply (T1 key').
  - etrans; [|exact T3]. apply inj_le, map_subseteq_size, delete_subseteq.
  - intros key'. unfold sentTo, selectedNeighbor. cbn. rewrite forwarding_snoc. cbn.
    destruct (decide (key = key')) as [<-|Hne]; [by rewrite lookup_insert_eq, lookup_delete_eq|].
    rewrite lookup_insert_ne, lookup_delete_ne by done. apply T4.
Qed.

Lemma adopts_ok l : ∀ s, table_ok (table s) → let s' := fold_left adoptOriginatedLocked l s in
  (∃ rt, s' = set_table s rt) ∧ adopted (table s) (λ key, key ∈ l) (table s').
Proof.
  induction l as [|key l IH]; intros s Hs; cbn [fold_left].
  { split; [exists (table s); by destruct s|]. split_and!; [done | done | |].
    - intros key e He. split; [done | apply not_elem_of_nil].
    - by intros key []%not_elem_of_nil. }
  destruct (IH _ (adopt_table s key Hs)) as [[rt E] (A1 & A2 & A3 & A4)]. split; [by exists rt|]. split_and!; [done | done | |].
  - intros key' e He. destruct (A3 key' e He) as [H1 H2]. cbn in H1. apply lookup_delete_Some in H1 as [Hne H1]. split; [done|].
    intros [->|Hin]%elem_of_cons; [done | by apply H2].
  - intros key' Hin. destruct (decide (key' ∈ l)) as [Hl|Hl]; [by apply A4|].
    apply elem_of_cons in Hin as [->|Hin]; [|done]. clear IH A1 A2 A3 A4 E.
    assert (forwarding (log (table (adoptOriginatedLocked s key))) !! key = Some None) as H0
      by (rewrite adopt_log, decide_True by done; done).
    revert H0 Hl. generalize (adoptOriginatedLocked s key). clear. intros s. revert s.
    induction l as [|k l IH]; intros s H0 Hl; cbn [fold_left]; [done|]. apply not_elem_of_cons in Hl as [Hne Hl].
    apply IH; [|done]. by rewrite adopt_log, decide_False.
Qed.

(** What was originated has no entry, so letting it go keeps the table. *)
Lemma release_table s key : table_ok (table s) → entries (table s) !! key = None → table_ok (table (releaseOriginatedLocked s key)).
Proof.
  intros [T1 T2 T3 T4] Hk. split; cbn; [done | done | done |].
  intros key'. unfold sentTo. cbn. rewrite forwarding_snoc. cbn. destruct (decide (key = key')) as [<-|Hne].
  - rewrite lookup_delete_eq. unfold selectedNeighbor. cbn. by rewrite Hk.
  - rewrite lookup_delete_ne by done. apply T4.
Qed.

Lemma releases_ok (wanted : gset routeKey) l : ∀ s, table_ok (table s) → (∀ key, key ∈ l → entries (table s) !! key = None) →
  let s' := fold_left (λ s key, if bool_decide (key ∈ wanted) then s else releaseOriginatedLocked s key) l s in
  (∃ rt, s' = set_table s rt) ∧ table_ok (table s') ∧ starved (table s') = starved (table s) ∧ entries (table s') = entries (table s).
Proof.
  induction l as [|key l IH]; intros s Hs Hl; cbn [fold_left]; [split; [exists (table s); by destruct s | done]|].
  case_bool_decide.
  - apply IH; [done|]. intros; by apply Hl, list_elem_of_further.
  - destruct (IH (releaseOriginatedLocked s key)) as [[rt E] (R1 & R2 & R3)].
    + apply release_table; [done|]. by apply Hl, list_elem_of_here.
    + intros; by apply Hl, list_elem_of_further.
    + split; [by exists rt | done].
Qed.

(** Every prefix of [O] is originated, and was not before or is adopted anew. *)
Lemma originate_ok s rt (O : gset routeKey) : speaker_ok s → (∀ key, key ∈ O → key_ok key) →
  adopted (table s) (λ key, key ∈ O) rt → speaker_ok (set_table (set_originate s O) rt).
Proof.
  intros [T1 T2 T3 T4 T5 T6 T7 T8 T9 T10] HO (A1 & A2 & A3 & A4). split; cbn; try done.
  eapply (good_change s); [done | done | by intros key e He; apply (A3 key e He) |].
  intros key n rid [r Hr] (B1 & B2 & B3 & B4). split_and!; [done | done | | done].
  unfold route in Hr. destruct (entries rt !! key) as [e|] eqn:E; [|done]. by apply (A3 key e E).
Qed.

Lemma OriginateFrom_ok s r : speaker_ok s → prefix_ok (Destination r) → prefix_ok (Source r) → speaker_ok (OriginateFrom s r).
Proof.
  intros Hok Hd Hs. unfold OriginateFrom. destruct (originatedKey r) as [key|] eqn:E; [|done].
  pose proof (originatedKey_ok r key E Hd Hs) as Hk.
  change (speaker_ok (wake (set_updatePending (set_table (set_originate s ({[key]} ∪ originate s))
    (table (adoptOriginatedLocked s key))) true))).
  unfold wake. do 2 apply scalars_ok. apply originate_ok; [done | |].
  - intros key' [->%elem_of_singleton|Hin]%elem_of_union; [done | by apply (si_originate _ _ Hok)].
  - split_and!; [apply adopt_table, (si_table _ _ Hok) | done | |].
    + cbn. intros key' e [Hne He]%lookup_delete_Some. split; [done|].
      intros [->%elem_of_singleton|Hin]%elem_of_union; [done|]. by apply (entry_not_originated _ s key' Hok).
    + intros key' Hin. rewrite adopt_log. case_decide as Hne; [done|]. apply (si_mesh _ _ Hok). set_solver.
Qed.

Definition originated_ok (r : OriginatedRoute) : Prop := prefix_ok (Destination r) ∧ prefix_ok (Source r).

Lemma SetOriginated_ok k s routes : speaker_ok s → Forall originated_ok routes → speaker_ok (SetOriginated k s routes).
Proof.
  intros Hok Hr. unfold SetOriginated. set (wanted := list_to_set _). destruct (negb _); [done|].
  set (s1 := fold_left _ (orderSet (2%positive :: k) _) s).
  destruct (releases_ok wanted (orderSet (2%positive :: k) (originate s)) s (si_table _ _ Hok)) as [[rt1 E1] (R1 & R2 & R3)].
  { intros key Hin. apply eq_None_not_Some. intros He. apply (entry_not_originated _ s key Hok He).
    unfold orderSet in Hin. apply order_all in Hin as [[] Hin]. by apply lookup_gset_to_gmap_Some in Hin as [? _]. }
  fold s1 in E1, R1, R2, R3. clearbody s1. subst s1. cbn in R1, R2, R3.
  set (s2 := set_originate _ wanted). set (l := orderSet (3%positive :: k) wanted).
  destruct (adopts_ok l s2 R1) as [[rt2 E2] (A1 & A2 & A3 & A4)].
  cbv zeta in *. rewrite E2 in *. unfold wake. do 2 apply scalars_ok.
  change (speaker_ok (set_table (set_originate s wanted) rt2)).
  assert (∀ key, key ∈ l ↔ key ∈ wanted) as Hl.
  { intros key. unfold l, orderSet. rewrite order_all. split.
    - intros [[] Hin]. by apply lookup_gset_to_gmap_Some in Hin as [? _].
    - intros Hin. exists tt. by apply lookup_gset_to_gmap_Some. }
  apply originate_ok; [done | |].
  - intros key. unfold wanted. rewrite elem_of_list_to_set, list_elem_of_omap. intros (r & Hin & Ho).
    rewrite Forall_forall in Hr. destruct (Hr r Hin). by eapply originatedKey_ok.
  - cbn in *. split_and!; [done | by rewrite A2 | |].
    + intros key e He. destruct (A3 key e He) as [H1 H2]. split; [by rewrite <- R3|]. by rewrite <- Hl.
    + intros key Hin. by apply A4, Hl.
Qed.

End change.
