(* ===== verification/BabelWorld.v ===== *)
(** * The speaker over time

    A speaker, what it handed to the transport, and where its run loop is; what
    can happen to it, one critical section at a time, in any order. Whatever
    happens, no operation panics, and what a routing daemon promises of its
    tables holds; and the run loop never sleeps past anything that falls due. *)

From stdpp Require Import functions.
From S2P Require Import Prelude Netip BabelTlv BabelRaw BabelMetric BabelRoute BabelSelect BabelTable BabelHeld BabelUpdate BabelPack BabelRequest BabelState BabelSpeaker BabelSound BabelPeers.

(** ** The machine *)

(** The run loop: not started, about to run a pass, or waiting for its timer or
    for [changed]. *)
Inductive phase := Idle | Awake | Asleep.

Inductive operation :=
| OStart (now : Z)
| OWake (timer : bool)
| OPass (now later : Z)
| OReceive (id : string) (peer : nat) (raw : list Z) (now later : Z)
| OFlush (now later : Z)
| OLost (i : nat) (now : Z)
| OSent (i : nat)
| OAddPeer (id : string) (peer : nat) (now : Z)
| ORemovePeer (n : nat) (now : Z)
| OOriginate (r : OriginatedRoute)
| OSetOriginated (routes : list OriginatedRoute).

Section world.
Context {FL : Float} {MO : MapOrder} {SD : Sender} (cfg : settings).

Implicit Types (s : speaker) (k : list positive) (now : Z) (n : nat).

Record world := mkWorld { wSpeaker : speaker; wQueue : queue; wFlight : list reservedPacket; wPhase : phase }.

Definition with_state (w : world) s : world := mkWorld s (wQueue w) (wFlight w) (wPhase w).
Definition with_emission (w : world) (r : queue * speaker * list reservedPacket) (p : phase) : world :=
  mkWorld r.1.2 r.1.1 (wFlight w ++ r.2) p.

Definition perform k (w : world) (op : operation) : res world :=
  let s := wSpeaker w in
  match op with
  | OStart now =>
      match wPhase w with
      | Idle => Ok (mkWorld (startRun s now) (wQueue w) (wFlight w) Awake)
      | _ => Ok w
      end
  | OWake timer =>
      match wPhase w with
      | Asleep => if timer then Ok (mkWorld s (wQueue w) (wFlight w) Awake)
                  else if changed s then Ok (mkWorld (set_changed s false) (wQueue w) (wFlight w) Awake) else Ok w
      | _ => Ok w
      end
  | OPass now later =>
      match wPhase w with
      | Awake => r ← pass cfg k (wQueue w) s now later; Ok (with_emission w r Asleep)
      | _ => Ok w
      end
  | OReceive id peer raw now later =>
      r ← Receive cfg k (wQueue w) s id peer raw now later;
      let '(_, q, s, packets) := r in Ok (with_emission w (q, s, packets) (wPhase w))
  | OFlush now later => r ← flushUpdates cfg k (wQueue w) s now later; Ok (with_emission w r (wPhase w))
  | OLost i now =>
      match wFlight w !! i with
      | Some p => Ok (mkWorld (noteLost cfg s (rpNeighbor p) (rpUndo p) now) (wQueue w) (delete i (wFlight w)) (wPhase w))
      | None => Ok w
      end
  | OSent i => Ok (mkWorld s (wQueue w) (delete i (wFlight w)) (wPhase w))
  | OAddPeer id peer now => Ok (with_state w (AddPeer k s id peer now).1)
  | ORemovePeer n now => Ok (with_state w (removePeer k s n now))
  | OOriginate r => Ok (with_state w (OriginateFrom s r))
  | OSetOriginated routes => Ok (with_state w (SetOriginated k s routes))
  end.

(** The operations one after the other, the [i]th under its own path. *)
Fixpoint runOps (i : positive) (ops : list operation) (w : world) : res world :=
  match ops with
  | [] => Ok w
  | op :: ops => w ← perform [i] w op; runOps (Pos.succ i) ops w
  end.

(** What a caller passes: times of the present, bytes, prefixes as net/netip
    makes them. *)
Definition operation_ok (op : operation) : Prop :=
  match op with
  | OStart _ | OWake _ | OLost _ _ | OSent _ => True
  | OPass now _ | OAddPeer _ _ now | ORemovePeer _ now => 0 < now
  | OReceive _ _ raw now _ => bytes_ok raw ∧ 0 < now
  | OFlush _ _ => True
  | OOriginate r => originated_ok r
  | OSetOriginated routes => Forall originated_ok routes
  end.

(** ** Soundness *)

Record world_ok (w : world) : Prop := {
  wo_speaker : speaker_ok cfg (wSpeaker w);
  wo_flight : packets_ok (wFlight w)
}.

Lemma with_emission_ok w r p : world_ok w → emitted cfg r → world_ok (with_emission w r p).
Proof. intros [H1 H2] [H3 H4]. split; [done|]. by apply Forall_app. Qed.

Lemma packets_delete i ps : packets_ok ps → packets_ok (delete i ps).
Proof. apply Forall_delete. Qed.

Lemma perform_ok k w op : operation_ok op → world_ok w → returns (perform k w op) world_ok.
Proof.
  intros Hop Hw. pose proof Hw as [Hs Hf]. destruct op; cbn [perform operation_ok] in *.
  - destruct (wPhase w); [|done..]. split; [|done]. cbn. unfold startRun. by do 2 apply scalars_ok.
  - destruct (wPhase w); [done..|]. destruct timer; [by split|]. destruct (changed _); [|done]. split; [|done]. by apply scalars_ok.
  - destruct (wPhase w); [done| |done]. eapply returns_bind; [by apply pass_ok|]. intros r Hr. by apply with_emission_ok.
  - destruct Hop as [Hb Hn]. eapply returns_bind; [by apply Receive_ok|]. intros [[[b q] s] ps] [H1 H2]. by apply with_emission_ok.
  - eapply returns_bind; [by apply flushUpdates_ok|]. intros r Hr. by apply with_emission_ok.
  - destruct (wFlight w !! i) as [p|] eqn:E; [|done]. split; [|by apply packets_delete].
    apply noteLost_ok; [done|]. by eapply (Forall_lookup_1 _ _ _ _ Hf).
  - split; [done | by apply packets_delete].
  - split; [by apply AddPeer_ok | done].
  - split; [by apply removePeer_ok | done].
  - destruct Hop as [Hd Hsrc]. split; [by apply OriginateFrom_ok | done].
  - split; [by apply SetOriginated_ok | done].
Qed.

Lemma runOps_ok ops : Forall operation_ok ops → ∀ i w, world_ok w → returns (runOps i ops w) world_ok.
Proof.
  induction 1 as [|op ops Hop _ IH]; intros i w Hw; cbn [runOps]; [done|].
  eapply returns_bind; [by apply perform_ok|]. intros w' Hw'. by apply IH.
Qed.

(** What the routing daemon promises, in terms of its tables and of the calls it
    made on the mesh. *)
Record promises s : Prop := {
  (* what this node originates is unreachable here and learned from nobody *)
  pr_ours : ∀ key, key ∈ originate s → entries (table s) !! key = None ∧ forwarding (log (table s)) !! key = Some None;
  (* traffic is only handed to a session that is there, on the usable route it has *)
  pr_forward : ∀ key n, forwarding (log (table s)) !! key = Some (Some n) →
    ∃ id r, neighbors s !! id = Some n ∧ peerID (heap s n) = id ∧ route (table s) n key = Some r ∧ rxMetric r ≠ MetricInfinity;
  (* every route names another node and a prefix that can be told to a neighbor *)
  pr_routes : ∀ key n r, route (table s) n key = Some r →
    riRouterID r ≠ routerID cfg ∧ length (riRouterID r) = 8%nat ∧ key_ok key ∧ ∃ id, neighbors s !! id = Some n;
  (* what neighbors can make the tables hold is bounded *)
  pr_bounded : Z.of_nat (size (entries (table s))) ≤ maxRouteKeys ∧
    Z.of_nat (size (pendingSeqnos (rqs s))) ≤ maxPendingSeqno ∧ Z.of_nat (size (starveRetries (rqs s))) ≤ maxStarveRetries
}.

Lemma speaker_promises s : speaker_ok cfg s → promises s.
Proof.
  intros Hok. pose proof Hok as [T G M R Q _ _ _ _ _]. split.
  - intros key Hin. split; [|by apply M]. apply eq_None_not_Some. intros He. by apply (entry_not_originated _ s key Hok He).
  - intros key n Hf. pose proof (ok_fwd _ T key) as Hs. unfold sentTo in Hs. rewrite Hf in Hs. cbn in Hs.
    unfold selectedNeighbor in Hs. destruct (entries (table s) !! key) as [e|] eqn:E; [|done]. cbn in Hs.
    destruct (ok_entries _ T key e E) as [(_ & _ & Hsel) _]. destruct (Hsel n (eq_sym Hs)) as (r & Hr & Hm & _).
    destruct (proj1 (tg_entries _ _ _ G key e E) n r Hr) as (_ & _ & _ & id & Hid). exists id, r.
    split_and!; [done | by apply (R id) | unfold route; by rewrite E | done].
  - intros key n r Hr. unfold route in Hr. destruct (entries (table s) !! key) as [e|] eqn:E; [|done]. cbn in Hr.
    by destruct (proj1 (tg_entries _ _ _ G key e E) n r Hr) as ([? ?] & ? & _ & ?).
  - split; [apply T | split; apply Q].
Qed.

(** ** The start *)

Lemma emptySpeaker_ok : length (routerID cfg) = 8%nat → speaker_ok cfg (emptySpeaker cfg).
Proof.
  intros Hid. assert (requests_ok [] [] [] noRequests) as Hr by apply noRequests_ok. split; cbn; try done.
  - split; [done|]. by intros r ?%not_elem_of_nil.
  - by intros n u ?%not_elem_of_nil.
Qed.

End world.

(** What a configuration holds: addresses as net/netip makes them, and router-ids
    of eight bytes. *)
Definition routes_made (routes : Routes) : Prop := Forall (λ a, prefix_ok (anPrefix a) ∧ prefix_ok (anFrom a)) (rsAnnounce routes).

Lemma New_ok {FL : Float} {MO : MapOrder} k c routes rt randomID randomLocal cfg s :
  routes_made routes → length (rnRouterID rt) = 8%nat → length randomID = 8%nat →
  New k c routes rt randomID randomLocal = Ok (cfg, s) → speaker_ok cfg s ∧ 63 ≤ packetSize cfg.
Proof.
  intros Hr Hl Hl' Hn. unfold New in Hn. apply bind_ok_inv in Hn as ([] & _ & Hn). apply bind_ok_inv in Hn as ([] & _ & Hn).
  apply bind_ok_inv in Hn as (rt' & Hres & [= Hc <-]). rewrite Hc.
  assert (length (rnRouterID rt') = 8%nat ∧ 63 ≤ rnPacketSize rt') as [H1 H2].
  { unfold resolve in Hres. destruct (_ || _); [done|]. destruct (_ || _) eqn:Es; [done|]. apply orb_false_iff in Es as [Es _].
    injection Hres as <-. cbn. apply Z.ltb_ge in Es. split; [by case_bool_decide | done]. }
  subst cfg. split; [|done]. apply SetOriginated_ok; [by apply emptySpeaker_ok|].
  unfold Originated. apply List.Forall_map. eapply Forall_impl; [exact Hr|]. by intros a [? ?].
Qed.

Section claims.
Context {FL : Float} {MO : MapOrder} {SD : Sender}.

(** C4: the speaker keeps its promises whatever happens to it. From a fresh
    speaker, any sequence of passes, packets with any bytes from any session,
    flushes, losses in the transport, sessions that come, are replaced and go, and
    changes of what is originated, is carried out without a panic; then nothing
    originated is learned from anybody, the mesh sends traffic only to sessions
    that are there and on usable routes, every route names another node, and the
    tables neighbors fill are bounded. *)
Theorem speaker_sound k c routes rt randomID randomLocal cfg s q ops :
  New k c routes rt randomID randomLocal = Ok (cfg, s) →
  routes_made routes → length (rnRouterID rt) = 8%nat → length randomID = 8%nat → Forall operation_ok ops →
  ∃ w, runOps cfg 1 ops (mkWorld s q [] Idle) = Ok w ∧ promises cfg (wSpeaker w).
Proof.
  intros Hn H1 H2 H3 Hops. destruct (New_ok _ _ _ _ _ _ _ _ H1 H2 H3 Hn) as [Hs _].
  pose proof (runOps_ok cfg ops Hops 1 (mkWorld s q [] Idle)) as Hh.
  destruct (runOps _ _ _ _) as [w|e|]; [|by destruct Hh; [split; [|constructor]]..].
  exists w. split; [done|]. apply speaker_promises. apply Hh. by split; [|constructor].
Qed.

End claims.
