(* ===== verification/BabelSleep.v ===== *)
(** * The run loop wakes in time

    A pass leaves no work behind, and the time it sleeps until is no later than
    anything that falls due; whatever comes in meanwhile either moves nothing
    forward or wakes the loop. *)

From stdpp Require Import functions.
From S2P Require Import Prelude Netip BabelTlv BabelRaw BabelMetric BabelRoute BabelSelect BabelTable BabelHeld BabelUpdate BabelPack BabelRequest BabelState BabelSpeaker BabelSound BabelPeers BabelWorld.

(** ** Deadlines *)

(** [t] is not after [d]; the zero time is no time. *)
Definition before (t d : Z) : Prop := d ≠ 0 → t ≠ 0 ∧ t ≤ d.

Lemma earlier_left t d : before (earlier t d) t.
Proof. intros Ht. unfold earlier. destruct (Z.eqb_spec t 0), (Z.eqb_spec d 0), (Z.ltb_spec d t); cbn [orb andb negb]; lia. Qed.

Lemma earlier_right t d : before (earlier t d) d.
Proof. intros Hd. unfold earlier. destruct (Z.eqb_spec t 0), (Z.eqb_spec d 0), (Z.ltb_spec d t); cbn [orb andb negb]; lia. Qed.

Lemma before_trans x y z : before x y → before y z → before x z.
Proof. intros H1 H2 Hz. destruct (H2 Hz) as [Hy ?]. destruct (H1 Hy). lia. Qed.

Lemma before_refl x : before x x.
Proof. by intros ?. Qed.

(** [earlier_of] is the same as a term of a deadline, present or not. *)
Lemma before_if (b : bool) t d : before (if b then earlier t d else t) t.
Proof. destruct b; [apply earlier_left | apply before_refl]. Qed.

Section sleep.
Context {FL : Float} {MO : MapOrder} {SD : Sender} (cfg : settings).

Implicit Types (s : speaker) (k : list positive) (now : Z) (n : nat).

(** What falls due at a neighbor: the end of its Hellos, the next Hello expected,
    the end of its IHU and of its RTT. *)
Definition neighbor_due (x : neighborState) (d : Z) : Prop :=
  (alive x = true ∧ (d = helloExpiry x ∨ d = nextHelloDue x)) ∨
  (haveReportedCost x = true ∧ d = ihuExpiry x) ∨ (haveRTT x = true ∧ d = rttExpiry x).

(** What falls due at the speaker. *)
Definition speaker_due s (d : Z) : Prop :=
  d ∈ [nextHello s; nextUpdate s; nextExpiry (table s); nextStarveRetry (rqs s); retryAt s; nextRequestSweep (rqs s)] ∨
  ∃ n, registered s n ∧ neighbor_due (heap s n) d.

Definition covers_due s (t : Z) : Prop := ∀ d, speaker_due s d → before t d.

Lemma neighborDeadline_before t x : before (neighborDeadline t x) t ∧ ∀ d, neighbor_due x d → before (neighborDeadline t x) d.
Proof.
  unfold neighborDeadline.
  set (t1 := if alive x then _ else t). set (t2 := if haveReportedCost x then earlier t1 (ihuExpiry x) else t1).
  assert (before t1 t ∧ (alive x = true → before t1 (helloExpiry x) ∧ before t1 (nextHelloDue x))) as [H1 H1'].
  { unfold t1. destruct (alive x); [|by split; [apply before_refl|]].
    destruct (Z.eqb_spec (nextHelloDue x) 0) as [Hz|].
    - split; [apply earlier_left|]. intros _. split; [apply earlier_right|]. by intros ?.
    - split; [eapply before_trans; apply earlier_left|]. intros _. split; [|apply earlier_right].
      eapply before_trans; [apply earlier_left | apply earlier_right]. }
  clearbody t1.
  assert (before t2 t1 ∧ (haveReportedCost x = true → before t2 (ihuExpiry x))) as [H2 H2'].
  { unfold t2. split; [apply before_if|]. intros ->. apply earlier_right. }
  clearbody t2. split; [eapply before_trans; [apply before_if|]; by eapply before_trans|].
  intros d [[Ha Hd]|[[Hr ->]|[Hr ->]]].
  - destruct (H1' Ha). eapply before_trans; [apply before_if|]. eapply before_trans; [done|]. by destruct Hd as [->| ->].
  - eapply before_trans; [apply before_if|]. by apply H2'.
  - rewrite Hr. apply earlier_right.
Qed.

Lemma deadline_covers k s : covers_due s (deadlineLocked k s).
Proof.
  unfold deadlineLocked. set (t0 := earlier (earlier _ (retryAt s)) _).
  assert (∀ ns t, let t' := fold_left (λ d n, neighborDeadline d (heap s n)) ns t in
    before t' t ∧ ∀ n d, n ∈ ns → neighbor_due (heap s n) d → before t' d) as Hf.
  { induction ns as [|n ns IH]; intros t; cbn [fold_left]; [split; [apply before_refl|]; by intros n d ?%not_elem_of_nil|].
    destruct (IH (neighborDeadline t (heap s n))) as [I1 I2]. destruct (neighborDeadline_before t (heap s n)) as [N1 N2].
    split; [by eapply before_trans|]. intros m d [->|Hm]%elem_of_cons Hd; [by eapply before_trans, N2 | by apply (I2 m)]. }
  destruct (Hf (inTurn k s) t0) as [H1 H2]. intros d [Hd|(n & Hn & Hd)]; [|by apply (H2 n); [apply inTurn_registered|]].
  eapply before_trans; [exact H1|]. unfold t0.
  repeat (apply elem_of_cons in Hd as [->|Hd]); [..|by apply not_elem_of_nil in Hd].
  all: repeat first [apply earlier_right | eapply before_trans; [apply earlier_left|]].
  apply before_refl.
Qed.

(** ** Work *)

(** Nothing is waiting for a pass, and nothing falls due before [sleepUntil], which
    is some time. *)
Definition rested s : Prop := pendingWorkLocked s = false ∧ covers_due s (sleepUntil s) ∧ sleepUntil s ≠ 0.

(** The loop may sleep, or will be woken. *)
Definition ready s : Prop := changed s = true ∨ rested s.

Lemma wakeForPacket_ready k s : ready (wakeForPacketLocked k s).
Proof.
  unfold wakeForPacketLocked. destruct (_ || _) eqn:E; [by left|]. right.
  apply orb_false_iff in E as [E Ed]. apply orb_false_iff in E as [Ew Es]. apply Z.eqb_neq in Es. apply Z.ltb_ge in Ed.
  split; [done|]. split; [|done]. intros d Hd Hz. destruct (deadline_covers k s d Hd Hz). lia.
Qed.

Definition same_work s s' : Prop := updatePending s' = updatePending s ∧ dirty (table s') = dirty (table s) ∧
  starved (table s') = starved (table s) ∧ nextHello s' = nextHello s.

#[local] Instance same_work_preorder : PreOrder same_work.
Proof. split; [done|]. intros s1 s2 s3 (E1 & E2 & E3 & E4) (F1 & F2 & F3 & F4). split_and!; congruence. Qed.

Lemma foldM_rel {A S} (R : speaker → speaker → Prop) `{!PreOrder R} (f : S → A → res S) (g : S → speaker) l :
  (∀ x a y, f x a = Ok y → R (g x) (g y)) → ∀ x y, foldM f l x = Ok y → R (g x) (g y).
Proof.
  intros Hf. induction l as [|a l IH]; intros x y; cbn [foldM]; [by intros [= <-]|].
  intros (z & H1 & H2)%bind_ok_inv. etrans; [by eapply Hf | by eapply IH].
Qed.

Lemma fold_rel {A S} (R : speaker → speaker → Prop) `{!PreOrder R} (f : S → A → S) (g : S → speaker) l :
  (∀ x a, R (g x) (g (f x a))) → ∀ x, R (g x) (g (fold_left f l x)).
Proof. intros Hf. induction l as [|a l IH]; intros x; cbn [fold_left]; [done|]. etrans; [apply Hf | apply IH]. Qed.

Lemma advertiseTo_work s n key force now r : advertiseTo cfg s n key force now = Ok r → same_work s r.1.1.
Proof.
  unfold advertiseTo. destruct (_ =? _).
  - destruct (_ && _); [by intros [= <-]|]. intros (u & _ & [= <-])%bind_ok_inv. cbn. by destruct (bool_decide _).
  - intros (u & _ & [= <-])%bind_ok_inv. split_and!; [done|..]; cbn; unfold observe; repeat case_match; done.
Qed.

Lemma dumpFor_work s n keys now st : dumpFor cfg s n keys now = Ok st → same_work s st.1.1.
Proof.
  unfold dumpFor. apply (foldM_rel same_work _ (λ st : speaker * list RawTLV * list tlvUndo, st.1.1)).
  intros [[s1 tlvs] rb] key st'. unfold dumpStep. intros ([[s2 advs] sp] & Ha & Hd)%bind_ok_inv.
  apply advertiseTo_work in Ha. cbn in *. destruct (_ =? _)%nat; by injection Hd as <-.
Qed.

Lemma updateActionsFor_work k s keys now sa : updateActionsFor cfg k s keys now = Ok sa → same_work s sa.1.
Proof.
  unfold updateActionsFor. destruct (_ =? _)%nat; [by intros [= <-]|].
  apply (foldM_rel same_work _ (λ st : speaker * list sendAction, st.1)).
  intros [s1 acts] n y ([[s2 tlvs] rb] & Hd & [= <-])%bind_ok_inv. by apply dumpFor_work in Hd.
Qed.

Lemma updateActions_work k s now sa : updateActions cfg k s now = Ok sa →
  updatePending sa.1 = updatePending s ∧ dirty (table sa.1) = ∅ ∧ starved (table sa.1) = starved (table s) ∧ nextHello sa.1 = nextHello s.
Proof.
  unfold updateActions. intros Ha%updateActionsFor_work. destruct Ha as (-> & -> & -> & ->).
  set (s1 := set_table s _). assert (same_work s1 (fold_left (λ s n, onNeighbor s n (λ x, set_owed x ∅)) (inTurn (2%positive :: k) s1) s1))
    as (E1 & E2 & E3 & E4) by by apply (fold_rel same_work _ id). by rewrite E1, E2, E3, E4.
Qed.

Lemma triggeredActions_work k s now sa : triggeredActions cfg k s now = Ok sa →
  updatePending sa.1 = updatePending s ∧ dirty (table sa.1) = ∅ ∧ starved (table sa.1) = starved (table s) ∧ nextHello sa.1 = nextHello s.
Proof.
  unfold triggeredActions. set (s1 := set_table s _). set (s2 := fold_left _ _ s1). intros Hf.
  assert (same_work s1 s2) as H12.
  { apply (fold_rel same_work _ id). intros x key. by apply (fold_rel same_work _ id). }
  assert (same_work s2 sa.1) as H2.
  { revert Hf. apply (foldM_rel same_work _ (λ st : speaker * list sendAction, st.1)). intros [s3 acts] n y.
    case_bool_decide; [by intros [= <-]|]. intros ([[s4 tlvs] rb] & Hd & [= <-])%bind_ok_inv.
    apply dumpFor_work in Hd. etrans; [|exact Hd]. done. }
  destruct (transitivity H12 H2) as (-> & -> & -> & ->). done.
Qed.

Lemma starvedActions_work s now sa : starvedActions s now = Ok sa →
  updatePending sa.1 = updatePending s ∧ dirty (table sa.1) = dirty (table s) ∧ starved (table sa.1) = [] ∧ nextHello sa.1 = nextHello s.
Proof.
  unfold starvedActions. cbn [takeStarved]. intros Hf.
  assert (same_work (set_table s (set_starved (table s) [])) sa.1) as (-> & -> & -> & ->); [|done].
  revert Hf. apply (foldM_rel same_work _ (λ st : speaker * list sendAction, st.1)).
  intros [s1 acts] r y. unfold starvedStep. destruct (negb _); [by intros [= <-]|].
  destruct (starvedAsk _ _ _ _ _ _ _) as [rq [|a l]]; [by intros [= <-]|]. by intros (x & _ & [= <-])%bind_ok_inv.
Qed.

Lemma oweAgain_work s n u : same_work s (oweAgain s n u).
Proof. unfold oweAgain. destruct (spent u), (_ || _); done. Qed.

Lemma emitLocked_work q s actions later : same_work s (emitLocked cfg q s actions later).1.2.
Proof.
  unfold emitLocked. cbn [fst snd].
  assert (same_work s (emSpeaker (fold_left (emitStep cfg) (sortStable (coalesce actions)) (mkEmission q s [] false)))) as H.
  { apply (fold_rel same_work _ emSpeaker _) with (x := mkEmission q s [] false). intros e a. unfold emitStep.
    destruct (reserveBatchesTo _ _ _ _) as [[[q' reserved] lost] whole].
    assert (same_work (emSpeaker e) (fold_left (λ s u, oweAgain s (actNeighbor a) u) lost (emSpeaker e))) as H1
      by (apply (fold_rel same_work _ id); intros; apply oweAgain_work).
    destruct whole; [exact H1|]. etrans; [exact H1|]. by apply (fold_rel same_work _ id). }
  by destruct (emRefused _).
Qed.

Lemma helloActions_hello k s now due : nextHello (helloActions cfg k s now due).1 = nextHello s.
Proof.
  unfold helloActions. assert (∀ ns st, nextHello (fold_left (λ st n, let '(s, actions) := st in
    if due || negb (sentHello (heap s n))
    then let '(s, a) := helloAction cfg s n now in (s, actions ++ [a]) else st) ns st).1 = nextHello st.1) as Hf.
  { induction ns as [|n ns IH]; intros [s1 acts]; cbn [fold_left]; [done|]. rewrite IH. by destruct (due || _). }
  apply Hf.
Qed.

(** A pass drains what it finds, and sleeps no longer than it may. *)
Lemma pass_rested k q s now later r : 0 < hello cfg → 0 < now → pass cfg k q s now later = Ok r → rested r.1.2.
Proof.
  intros Hpos Hnow. unfold pass. set (s0 := sweepExpiredLocked _ _ _). clearbody s0. set (due := negb (now <? nextHello s0)).
  set (s1 := if due then _ else s0). assert (0 < nextHello s1) as Hh1.
  { unfold s1, due. destruct (Z.ltb_spec now (nextHello s0)); cbn [negb]; [lia|]. change (0 < now + hello cfg). lia. }
  pose proof (helloActions_hello (2%positive :: k) s1 now due) as Hh2. destruct (helloActions _ _ _ _ _) as [s2 hellos]. cbn [fst] in Hh2.
  intros (su & Hu & Hp)%bind_ok_inv. apply bind_ok_inv in Hp as (ss & Hs & Hp). apply bind_ok_inv in Hp as (sr & Hr & Hp).
  assert (updatePending su.1 = false ∧ dirty (table su.1) = ∅ ∧ nextHello su.1 = nextHello s2) as (U1 & U2 & U3).
  { destruct (_ || _) eqn:E.
    - apply bind_ok_inv in Hu as (sa & Ha & [= <-]). apply updateActions_work in Ha as (_ & A2 & _ & A4). cbn. by destruct (negb (now <? nextUpdate sa.1)).
    - apply orb_false_iff in E as [_ E]. apply triggeredActions_work in Hu as (-> & -> & _ & ->). done. }
  apply starvedActions_work in Hs as (S1 & S2 & S3 & S4).
  assert (same_work ss.1 sr.1) as (R1 & R2 & R3 & R4).
  { unfold retryActions in Hr. destruct (retryStarvedLocked _ _ _ _ _) as [rq asks]. apply bind_ok_inv in Hr as (acts & _ & [= <-]). done. }
  pose proof (emitLocked_work q sr.1 (hellos ++ su.2 ++ ss.2 ++ sr.2) later) as He.
  destruct (emitLocked _ _ _ _ _) as [[q' s'] ps]. destruct He as (E1 & E2 & E3 & E4). cbn in *. injection Hp as <-. cbn.
  split; [|split].
  - unfold pendingWorkLocked. cbn. rewrite E1, E2, E3, R1, R2, R3, S1, S2, S3, U1, U2. done.
  - intros d Hd. apply (deadline_covers (5%positive :: k) s' d). exact Hd.
  - cbn. apply (deadline_covers (5%positive :: k) s' (nextHello s')); [|lia]. left. apply list_elem_of_here.
Qed.

(** ** The loop over time *)

(** A change of fields that have nothing to do with what is due. *)
Lemma rested_frame s s' : same_work s s' → sleepUntil s' = sleepUntil s → (∀ d, speaker_due s' d → speaker_due s d) → rested s → rested s'.
Proof.
  intros (E1 & E2 & E3 & _) Es Hd (R1 & R2 & R3). unfold rested. rewrite Es. split; [|split; [|done]].
  - unfold pendingWorkLocked in *. by rewrite E1, E2, E3.
  - intros d Hd'. by apply R2, Hd.
Qed.

Lemma noteLost_ready s n undo now : ready s → ready (noteLost cfg s n undo now).
Proof.
  intros Hr. unfold noteLost. destruct (_ =? _)%nat; [done|]. destruct (_ <? _); [|by left].
  destruct Hr as [Hc|Hr]; [by left|]. right. by eapply rested_frame.
Qed.

Definition loop_ok (w : world) : Prop := wPhase w = Asleep → ready (wSpeaker w).

Lemma Receive_ready k q s id peer raw now later r : ready s → Receive cfg k q s id peer raw now later = Ok r → ready r.1.2.
Proof.
  intros Hr. unfold Receive. intros (b & _ & Hf)%bind_ok_inv. destruct (negb b); [by injection Hf as <-|].
  unfold attempt in Hf. destruct (parsePacket raw (linkLocal cfg)) as [[src payload]|e|]; [|by injection Hf as <- | done].
  destruct (neighbors s !! id) as [n|]; [|by injection Hf as <-]. destruct (negb _); [by injection Hf as <-|].
  apply bind_ok_inv in Hf as (sa & _ & Hf). destruct (emitLocked _ _ _ _ _) as [[q' s'] ps]. injection Hf as <-.
  apply wakeForPacket_ready.
Qed.

(** A loss soon after one that woke the loop wakes nobody and moves no deadline: its
    bookkeeping waits for whatever pass comes next. *)
Lemma lost_waits k s n undo now : undo ≠ [] → now - lostWoke s < sendRetryInterval cfg →
  let s' := noteLost cfg s n undo now in
  lost s' = lost s ++ ((λ u, (n, u)) <$> undo) ∧ changed s' = changed s ∧ pendingWorkLocked s' = pendingWorkLocked s ∧
  deadlineLocked k s' = deadlineLocked k s.
Proof. intros Hu Hs. unfold noteLost. destruct undo; [done|]. by rewrite (proj2 (Z.ltb_lt _ _) Hs). Qed.

Lemma perform_loop k w op w' : 0 < hello cfg → operation_ok op → loop_ok w → perform cfg k w op = Ok w' → loop_ok w'.
Proof.
  intros Hpos Hop Hw. unfold loop_ok in *. destruct op; cbn [perform].
  - destruct (wPhase w) eqn:E; intros [= <-]; [done | by rewrite E | auto].
  - destruct (wPhase w) eqn:E; [by intros [= <-]; rewrite E..|]. destruct timer; [by intros [= <-]|].
    destruct (changed _) eqn:Ec; intros [= <-]; [done|]. intros _. by apply Hw.
  - destruct (wPhase w) eqn:E; [by intros [= <-]; rewrite E | | by intros [= <-]; auto].
    intros (r & Hp & [= <-])%bind_ok_inv. intros _. right. by eapply pass_rested.
  - intros ([[[b q] s] ps] & Hr & [= <-])%bind_ok_inv. cbn. intros Hp. by apply (Receive_ready _ _ _ _ _ _ _ _ _ (Hw Hp) Hr).
  - intros (r & Hf & [= <-])%bind_ok_inv. cbn. intros Hp. unfold flushUpdates in Hf. apply bind_ok_inv in Hf as (sa & _ & Hf).
    destruct (emitLocked _ _ _ _ _) as [[q' s'] ps]. injection Hf as <-. apply wakeForPacket_ready.
  - destruct (wFlight w !! i) as [p|]; intros [= <-]; [|done]. cbn. intros Hp. by apply noteLost_ready, Hw.
  - by intros [= <-].
  - intros [= <-]. by left.
  - intros [= <-]. cbn. intros Hp. unfold removePeer. destruct (negb _); [by apply Hw | by left].
  - intros [= <-]. cbn. intros Hp. unfold OriginateFrom. destruct (originatedKey r); [by left | by apply Hw].
  - intros [= <-]. cbn. intros Hp. unfold SetOriginated. destruct (negb _); [by apply Hw | by left].
Qed.

Lemma runOps_loop ops : 0 < hello cfg → Forall operation_ok ops → ∀ i w w', loop_ok w → runOps cfg i ops w = Ok w' → loop_ok w'.
Proof.
  intros Hpos. induction 1 as [|op ops Hop _ IH]; intros i w w' Hw; cbn [runOps]; [by intros [= <-]|].
  intros (w1 & Hp & Hh)%bind_ok_inv. eapply IH; [|exact Hh]. by eapply perform_loop.
Qed.

(** What sleeping in time means for what the tables hold. *)
Record in_time s : Prop := {
  it_wakes : sleepUntil s ≠ 0;
  it_work : updatePending s = false ∧ dirty (table s) = ∅ ∧ starved (table s) = [];
  it_sends : before (sleepUntil s) (nextHello s) ∧ before (sleepUntil s) (nextUpdate s) ∧ before (sleepUntil s) (retryAt s);
  it_routes : ∀ key n r, route (table s) n key = Some r → sleepUntil s ≠ 0 ∧ sleepUntil s ≤ expiresAt r;
  it_links : ∀ id n d, neighbors s !! id = Some n → neighbor_due (heap s n) d → before (sleepUntil s) d;
  it_retries : ∀ id r, starveRetries (rqs s) !! id = Some r → sleepUntil s ≠ 0 ∧ sleepUntil s ≤ nextAt r;
  it_forwarded : ∀ id p, pendingSeqnos (rqs s) !! id = Some p → sleepUntil s ≠ 0 ∧ sleepUntil s ≤ sentAt p + seqnoRequestSuppress;
  it_asked : ∀ i t, askedSeqno (rqs s) !! i = Some t → sleepUntil s ≠ 0 ∧ sleepUntil s ≤ t + seqnoRequestSuppress
}.

Lemma before_timely t x d : before t x → timely x d → t ≠ 0 ∧ t ≤ d.
Proof. unfold timely. intros Hb Ht. destruct Hb; lia. Qed.

Lemma rested_in_time s : speaker_ok cfg s → rested s → in_time s.
Proof.
  intros Hok (Hw & Hc & Hz). unfold pendingWorkLocked in Hw. apply orb_false_iff in Hw as [Hw W3]. apply orb_false_iff in Hw as [W1 W2].
  apply negb_false_iff, bool_decide_eq_true in W2, W3.
  assert (∀ d, d ∈ [nextHello s; nextUpdate s; nextExpiry (table s); nextStarveRetry (rqs s); retryAt s; nextRequestSweep (rqs s)] →
    before (sleepUntil s) d) as Hd by (intros d Hd; apply Hc; by left).
  assert (before (sleepUntil s) (nextRequestSweep (rqs s))) as Hq by (apply Hd; do 5 apply list_elem_of_further; apply list_elem_of_here).
  destruct (si_requests _ _ Hok) as [_ [_ Q1 Q2] [_ Q3]]. split.
  - done.
  - done.
  - split_and!; apply Hd; [apply list_elem_of_here | apply list_elem_of_further, list_elem_of_here |
      do 4 apply list_elem_of_further; apply list_elem_of_here].
  - intros key n r Hr. unfold route in Hr. destruct (entries (table s) !! key) as [e|] eqn:E; [|done]. cbn in Hr.
    eapply before_timely; [apply (Hd (nextExpiry (table s))); do 2 apply list_elem_of_further; apply list_elem_of_here|].
    apply (proj2 (ok_entries _ (si_table _ _ Hok) key e E) n r Hr).
  - intros id n d Hn Hdue. apply Hc. right. exists n. split; [by exists id | done].
  - intros id r Hr. destruct (Q3 id r Hr) as (_ & _ & _ & [[]%not_elem_of_nil|Ht]).
    eapply before_timely; [apply (Hd (nextStarveRetry (rqs s))); do 3 apply list_elem_of_further; apply list_elem_of_here | done].
  - intros id p Hp. destruct (Q1 id p Hp) as (_ & [[]%not_elem_of_nil|Ht]). by eapply before_timely.
  - intros i t Ht. destruct (Q2 i t Ht) as (_ & [[]%not_elem_of_nil|Hx]). by eapply before_timely.
Qed.

End sleep.

Lemma New_hello {FL : Float} {MO : MapOrder} k c routes rt randomID randomLocal cfg s :
  New k c routes rt randomID randomLocal = Ok (cfg, s) → 0 < hello cfg.
Proof.
  unfold New. intros ([] & Hv & Hn)%bind_ok_inv. apply bind_ok_inv in Hn as (_ & _ & Hn). apply bind_ok_inv in Hn as (rt' & _ & [= <- _]). cbn.
  unfold Validate in Hv. destruct (badInterval (HelloInterval c)) eqn:E; [done|]. unfold badInterval in E. bool_props. unfold Millisecond in *. lia.
Qed.

Section claims.
Context {FL : Float} {MO : MapOrder} {SD : Sender}.


End claims.
