(* ===== verification/BabelSpeakWitness.v ===== *)
(** * A speaker at work

    The theorems on the speaker at a small mesh: a node that originates one
    prefix hears a neighbor, learns a prefix from it, and tells what it has. Maps
    are visited in the order of their trees, and the transport always has room
    but for the packets to one peer. *)

From S2P Require Import Prelude Netip BabelTlv BabelRaw BabelMetric BabelRoute BabelSelect BabelTable BabelHeld BabelUpdate BabelRouteWitness BabelPack BabelRequest BabelState BabelSpeaker BabelSound BabelPeers BabelWorld BabelSleep.

#[local] Existing Instance wholeFloat.

#[local] Program Instance treeOrder : MapOrder := {
  order := λ _ K V eqK countK m, (@map_to_list K V (gmap K V) _ m).*1
}.
Next Obligation. intros. apply NoDup_fst_map_to_list. Qed.
Next Obligation.
  intros k K V ?? m x. cbn. rewrite list_elem_of_fmap. split.
  - intros ([y v] & -> & Hin). apply elem_of_map_to_list in Hin. by exists v.
  - intros [v Hv]. exists (x, v). by rewrite elem_of_map_to_list.
Qed.

(** What took a place, by neighbor; the neighbor 9 has a closed sender. *)
#[local] Instance roomySender : Sender := {
  queue := list (nat * list Z);
  place := nat;
  nowMicros := λ q, (Z.of_nat (length q), q);
  ReserveRawOrDrop := λ q n raw, if (n =? 9)%nat then (None, q) else (Some (length q), (n, raw) :: q)
}.

Definition noQueue : queue := ([] : list (nat * list Z)).

(** ** Packing *)

Definition updateA : RawTLV := mkTLV TLVUpdate (replicate 20 1).
Definition updateB : RawTLV := mkTLV TLVUpdate (replicate 20 2).
Definition twoUpdates : list RawTLV := [EncodeRouterID routerA; updateA; EncodeRouterID routerA; updateB].

Lemma twoUpdates_grouped : grouped twoUpdates.
Proof. by repeat constructor. Qed.

Lemma packets_faithful_witness :
  length (pieces 50 twoUpdates) = 2%nat ∧ (length <$> (pcBatch <$> pieces 100 twoUpdates)) = [3%nat] ∧
  concat ((λ p, reading None (pcBatch p)) <$> pieces 50 twoUpdates) = reading None twoUpdates.
Proof.
  split; [vm_compute; reflexivity|]. split; [vm_compute; reflexivity|].
  apply (packets_faithful 50 twoUpdates twoUpdates_grouped).
  repeat (constructor; [split; [done | vm_compute; done]|]). constructor.
Defined.

Definition dumpTo (n : nat) (key : routeKey) : sendAction :=
  mkAction n multicastGroup priorityDump [EncodeRouterID routerA; updateA] [mkUndo 0 key true] [].

Lemma dumpTo_ok n key : action_ok (dumpTo n key).
Proof. split; [done | by repeat constructor | by repeat constructor | by repeat constructor]. Qed.

Lemma undos_follow_packets_witness :
  (reserveBatchesTo peerAddr 1000 noQueue (dumpTo 9 keyA)).1.2 = [mkUndo 0 keyA true] ∧
  ∃ granted q', length granted = length (pieces 1000 (actTlvs (dumpTo 1 keyA))) ∧
    reserveBatchesTo peerAddr 1000 noQueue (dumpTo 1 keyA) =
      (q', concat (placed (dumpTo 1 keyA) <$> zip (pieces 1000 (actTlvs (dumpTo 1 keyA))) granted),
       concat (refused (dumpTo 1 keyA) <$> zip (pieces 1000 (actTlvs (dumpTo 1 keyA))) granted), forallb isGranted granted) ∧
    concat (undosOf (dumpTo 1 keyA) <$> pieces 1000 (actTlvs (dumpTo 1 keyA))) = actRollback (dumpTo 1 keyA).
Proof.
  split; [vm_compute; reflexivity|].
  apply (undos_follow_packets peerAddr 1000 noQueue (dumpTo 1 keyA)); by repeat constructor.
Defined.

Lemma coalesce_faithful_witness :
  length (coalesce [dumpTo 1 keyA; dumpTo 2 keyA; dumpTo 1 keyA]) = 2%nat ∧
  carried actTlvs (targetOf (dumpTo 1 keyA)) (coalesce [dumpTo 1 keyA; dumpTo 2 keyA; dumpTo 1 keyA]) =
    [EncodeRouterID routerA; updateA; EncodeRouterID routerA; updateA].
Proof.
  split; [vm_compute; reflexivity|].
  assert (Forall action_ok [dumpTo 1 keyA; dumpTo 2 keyA; dumpTo 1 keyA]) as Ha by (repeat constructor; apply dumpTo_ok).
  destruct (coalesce_faithful _ Ha) as (_ & _ & Hc). destruct (Hc (targetOf (dumpTo 1 keyA))) as (-> & _).
  vm_compute. reflexivity.
Defined.

(** ** Requests *)

Definition sourceA : sourceKey := mkSourceKey keyA routerA.

(** A request of this node's own, and one forwarded. *)
Definition afterAsk : history :=
  let sa := starvedAsk noRequests 1 keyA routerA 8 "a" Second in
  mkHistory_ sa.1 Second [] (rev (asksAt Second sa.2) ++ []) ∅.

Definition afterBoth : history :=
  mkHistory_ (allowSeqnoRequest (records afterAsk) (mkSourceKey keyA (replicate 8 9)) 8 "b" Second).2 Second
    [(mkSourceKey keyA (replicate 8 9), 8, Second)] (asked afterAsk) ∅.

Lemma afterBoth_reached : rtc turn (begun Second) afterBoth.
Proof.
  eapply rtc_l; [apply (TStarved (begun Second) 1 keyA routerA 8 "a"); [set_solver | reflexivity]|].
  eapply rtc_l; [|apply rtc_refl]. apply (TForward afterAsk (mkSourceKey keyA (replicate 8 9)) 8 "b"). vm_compute. reflexivity.
Qed.

Lemma requests_spaced_witness :
  length (forwarded afterBoth) = 1%nat ∧ length (asked afterBoth) = 1%nat ∧ asks_spaced (asked afterBoth) ∧
  Z.of_nat (size (pendingSeqnos (records afterBoth))) ≤ maxPendingSeqno.
Proof.
  split; [vm_compute; reflexivity|]. split; [vm_compute; reflexivity|].
  destruct (requests_spaced Second afterBoth) as (_ & H1 & H2 & _); [done | exact afterBoth_reached|]. by split.
Defined.

Lemma retries_exact_witness :
  let turned := retryStarvedLocked (λ _, false) (λ _ _, [1%nat]) (records afterBoth) (clock afterBoth)
                  (order [] (starveRetries (records afterBoth))) in
  length turned.2 = 0%nat ∧ (attempts <$> starveRetries turned.1 !! sourceA) = Some 0.
Proof.
  split; [vm_compute; reflexivity|].
  destruct (retries_exact Second afterBoth (λ _, false) (λ _ _, [1%nat]) (order [] (starveRetries (records afterBoth)))) as (H1 & _).
  - done.
  - exact afterBoth_reached.
  - apply order_nodup.
  - apply order_keysOf.
  - rewrite H1. vm_compute. reflexivity.
Defined.

(** ** A speaker at work *)

Definition announced : Prefix := PrefixFrom (Addr6 (0x20010db8 * 2 ^ 96)) 32.
Definition learned : Prefix := PrefixFrom (Addr6 (0x20010db9 * 2 ^ 96)) 32.
Definition keyLearned : routeKey := mkKey PrefixZero learned.

(** fe80::1, and fe80::2 as its peer *)
Definition ours : Runtime := mkRuntime (replicate 7 0 ++ [1]) (Addr6 (0xfe80 * 2 ^ 112 + 1)) 0.

Definition started : settings * speaker :=
  match New [] emptyConfig (mkRoutes [mkAnnounce announced PrefixZero] None) ours (replicate 8 0) (replicate 8 0) with
  | Ok cs => cs
  | _ => (mkSettings 0 0 DefaultCostParams [] AddrInvalid 0 false, emptySpeaker (mkSettings 0 0 DefaultCostParams [] AddrInvalid 0 false))
  end.

(** What the neighbor says: it is there, it hears us, and it has a prefix. *)
Definition said : list RawTLV :=
  [EncodeHello (mkHello 1 400 false 0 false); EncodeIHU (mkIHU 96 1200 0 0 false)] ++
  match updateTLVs keyLearned (mkAdv routerA 5 0) (16 * Second) with Ok tlvs => tlvs | _ => [] end.

Definition saidPacket : list Z := buildPacket peerAddr multicastGroup (EncodePacket said).

Definition t0 : Z := 100 * Second.

Definition aDay : list operation :=
  [OStart t0; OAddPeer "a" 7 t0; OPass t0 t0; OSent 0; OReceive "a" 7 saidPacket (t0 + Second) (t0 + Second);
   OWake false; OPass (t0 + Second) (t0 + Second)].

Definition dayAfter : res world := runOps started.1 1 aDay (mkWorld started.2 noQueue [] Idle).

(** The prefix is learned, traffic for it goes to the neighbor, and two packets
    were sent. *)
Example day_learns :
  (w ← dayAfter; Ok (forwarding (log (table (wSpeaker w))) !! keyLearned, length (wQueue w))) = Ok (Some (Some 0%nat), 2%nat).
Proof. vm_compute. reflexivity. Qed.

Lemma started_new : New [] emptyConfig (mkRoutes [mkAnnounce announced PrefixZero] None) ours (replicate 8 0) (replicate 8 0) = Ok started.
Proof.
  assert (match New [] emptyConfig (mkRoutes [mkAnnounce announced PrefixZero] None) ours (replicate 8 0) (replicate 8 0) with Ok _ => true | _ => false end = true)
    as H by (vm_compute; reflexivity).
  unfold started. destruct (New _ _ _ _ _ _); done.
Qed.

Lemma announced_made : routes_made (mkRoutes [mkAnnounce announced PrefixZero] None).
Proof. constructor; [|constructor]. split; [apply PrefixFrom_ok; by vm_compute | apply PrefixZero_ok]. Qed.

Lemma aDay_ok : Forall operation_ok aDay.
Proof.
  assert (bytes_ok saidPacket) as Hb by (apply (bool_decide_unpack _); vm_compute; done).
  unfold aDay. repeat (apply Forall_cons; split); try done.
Qed.

Lemma speaker_sound_witness :
  ∃ w, dayAfter = Ok w ∧ promises started.1 (wSpeaker w).
Proof.
  destruct started as [cfg s] eqn:E. unfold dayAfter. rewrite E.
  apply (speaker_sound [] emptyConfig (mkRoutes [mkAnnounce announced PrefixZero] None) ours (replicate 8 0) (replicate 8 0)).
  - exact (eq_trans started_new (f_equal Ok E)).
  - apply announced_made.
  - done.
  - done.
  - apply aDay_ok.
Defined.

