(* ===== verification/IkeMessage.v ===== *)
(** * IKEv2 messages: ike/header.go, ike/payload.go and the codes of ike/const.go

    The header, the chain of payloads and the message around them. The chain is
    walked by the Next Payload pointers a peer chose, so each loop takes fuel:
    every turn consumes at least the four bytes of a generic header, and one more
    than the bytes at hand is enough. Running out of fuel is a [Panic], which no
    input reaches. *)

From S2P Require Import Prelude.

(** ** const.go *)

Definition IKE_SA_INIT : Z := 34.
Definition IKE_AUTH : Z := 35.
Definition CREATE_CHILD_SA : Z := 36.
Definition INFORMATIONAL : Z := 37.

Definition FlagInitiator : Z := Z.shiftl 1 3.
Definition FlagVersion : Z := Z.shiftl 1 4.
Definition FlagResponse : Z := Z.shiftl 1 5.

Definition PayloadNone : Z := 0.
Definition PayloadSA : Z := 33.
Definition PayloadKE : Z := 34.
Definition PayloadIDi : Z := 35.
Definition PayloadIDr : Z := 36.
Definition PayloadAUTH : Z := 39.
Definition PayloadNonce : Z := 40.
Definition PayloadN : Z := 41.
Definition PayloadD : Z := 42.
Definition PayloadTSi : Z := 44.
Definition PayloadTSr : Z := 45.
Definition PayloadSK : Z := 46.

Definition ProtoIKE : Z := 1.
Definition ProtoAH : Z := 2.
Definition ProtoESP : Z := 3.

(** ** header.go *)

Definition HeaderLen : nat := 28.

Record Header := mkHeader {
  SPIInitiator : Z;
  SPIResponder : Z;
  NextPayload : Z;
  MajorVersion : Z;
  MinorVersion : Z;
  ExchangeType : Z;
  Flags : Z;
  MessageID : Z;
  Length : Z
}.

Definition IsResponse (h : Header) : bool := negb (Z.land (Flags h) FlagResponse =? 0).
Definition IsInitiator (h : Header) : bool := negb (Z.land (Flags h) FlagInitiator =? 0).

(** The version written is always 2.0. *)
Definition encodeHeader (h : Header) : list Z :=
  be_to 8 (SPIInitiator h) ++ be_to 8 (SPIResponder h) ++
  [NextPayload h; 32; ExchangeType h; Flags h] ++ be_to 4 (MessageID h) ++ be_to 4 (Length h).

Definition decodeHeader (b : list Z) : res Header :=
  if (length b <? HeaderLen)%nat then Err "ike: short header"
  else
    spii ← get_be 8 b 0;
    spir ← get_be 8 b 8;
    next ← idx b 16;
    version ← idx b 17;
    exchange ← idx b 18;
    flags ← idx b 19;
    id ← get_be 4 b 20;
    len ← get_be 4 b 24;
    Ok (mkHeader spii spir next (Z.shiftr version 4) (Z.land version 15) exchange flags id len).

(** ** payload.go *)

Definition genericPayloadHeaderLen : nat := 4.

Record RawPayload := mkPayload { Type_ : Z; Critical : bool; Body : list Z }.

Record Message := mkMessage { header : Header; Payloads : list RawPayload; skHeaderOffset : nat }.

Fixpoint validateResponseCriticalFlags (payloads : list RawPayload) : res unit :=
  match payloads with
  | [] => Ok tt
  | p :: rest => if Critical p then Err "ike: response payload type sets the critical flag"
                 else validateResponseCriticalFlags rest
  end.

(** The type of the payload that follows. *)
Definition firstType (payloads : list RawPayload) : Z :=
  match payloads with [] => PayloadNone | p :: _ => Type_ p end.

Fixpoint encodePayloadChain (payloads : list RawPayload) : list Z :=
  match payloads with
  | [] => []
  | p :: rest =>
      ([firstType rest; if Critical p then 128 else 0]
       ++ be_to 2 (u16 (Z.of_nat (genericPayloadHeaderLen + length (Body p)))))
      ++ Body p ++ encodePayloadChain rest
  end.

Definition encode (m : Message) (reserveTrailer : nat) : list Z :=
  let body := encodePayloadChain (Payloads m) in
  let h := header m in
  let h := mkHeader (SPIInitiator h) (SPIResponder h) (firstType (Payloads m)) (MajorVersion h) (MinorVersion h)
             (ExchangeType h) (Flags h) (MessageID h)
             (u32 (Z.of_nat (HeaderLen + length body + reserveTrailer))) in
  encodeHeader h ++ body.

Definition Encode (m : Message) : list Z := encode m 0.

(** One generic header and its body, the type that follows, and the rest. *)
Definition takePayload (next : Z) (rest : list Z) : res (RawPayload * Z * list Z) :=
  if (length rest <? genericPayloadHeaderLen)%nat then Err "ike: truncated payload header"
  else
    plLen ← get_be 2 rest 2;
    if (plLen <? Z.of_nat genericPayloadHeaderLen) || (Z.of_nat (length rest) <? plLen)
    then Err "ike: invalid payload length"
    else
      flags ← idx rest 1;
      body ← slice rest genericPayloadHeaderLen (Z.to_nat plLen);
      next' ← idx rest 0;
      rest' ← from rest (Z.to_nat plLen);
      Ok (mkPayload next (negb (Z.land flags 128 =? 0)) body, next', rest').

Fixpoint walkChain (fuel : nat) (next : Z) (rest : list Z) : res (list RawPayload) :=
  if next =? PayloadNone
  then if (0 <? length rest)%nat then Err "ike: trailing bytes after payload chain" else Ok []
  else
    match fuel with
    | O => Panic
    | S fuel =>
        '(p, next', rest') ← takePayload next rest;
        ps ← walkChain fuel next' rest';
        Ok (p :: ps)
    end.

Definition decodePayloadChain (first : Z) (b : list Z) : res (list RawPayload) := walkChain (S (length b)) first b.

(** The loop of [DecodeMessage]: it ends at an SK payload, which must end the
    message, and yields the offset of that payload's header. *)
Fixpoint walkMessage (fuel : nat) (total : nat) (next : Z) (rest : list Z) : res (list RawPayload * nat) :=
  if next =? PayloadNone
  then if (0 <? length rest)%nat then Err "ike: trailing bytes after payload chain" else Ok ([], O)
  else
    match fuel with
    | O => Panic
    | S fuel =>
        '(p, next', rest') ← takePayload next rest;
        if next =? PayloadSK
        then if (0 <? length rest')%nat then Err "ike: trailing bytes after SK payload"
             else Ok ([p], (total - length rest)%nat)
        else
          '(ps, off) ← walkMessage fuel total next' rest';
          Ok (p :: ps, off)
    end.

Definition DecodeMessage (b : list Z) : res Message :=
  h ← decodeHeader b;
  if Length h <? Z.of_nat HeaderLen then Err "ike: header length is smaller than header size"
  else if negb (Length h =? Z.of_nat (length b)) then Err "ike: header length does not match packet size"
  else
    rest ← slice b HeaderLen (Z.to_nat (Length h));
    '(ps, off) ← walkMessage (S (length rest)) (Z.to_nat (Length h)) (NextPayload h) rest;
    Ok (mkMessage h ps off).

Fixpoint findPayload (ps : list RawPayload) (t : Z) : option RawPayload :=
  match ps with
  | [] => None
  | p :: rest => if Type_ p =? t then Some p else findPayload rest t
  end.

Definition find (m : Message) (t : Z) : option RawPayload := findPayload (Payloads m) t.

(** ** Payloads *)

Definition payload_ok (p : RawPayload) : Prop :=
  0 < Type_ p < 256 ∧ Z.of_nat (length (Body p)) < 2 ^ 16 - 4.

Lemma length_payload p rest : length (([firstType rest; if Critical p then 128 else 0]
    ++ be_to 2 (u16 (Z.of_nat (genericPayloadHeaderLen + length (Body p)))))) = genericPayloadHeaderLen.
Proof. by rewrite length_app, length_be_to. Qed.

(** A generic header is read back, whatever follows the body. *)
Lemma takePayload_encode p ps trailer : payload_ok p →
  takePayload (Type_ p) (([firstType ps; if Critical p then 128 else 0]
       ++ be_to 2 (u16 (Z.of_nat (genericPayloadHeaderLen + length (Body p))))) ++ Body p ++ trailer) =
    Ok (p, firstType ps, trailer).
Proof.
  intros [Ht Hl]. unfold takePayload. rewrite u16_id by (unfold genericPayloadHeaderLen; lia).
  set (n := Z.of_nat (genericPayloadHeaderLen + length (Body p))).
  set (hd := [firstType ps; if Critical p then 128 else 0]). set (b := (hd ++ be_to 2 n) ++ Body p ++ trailer).
  assert (length b = 4 + length (Body p) + length trailer)%nat as Hb
    by (unfold b, hd; rewrite !length_app, length_be_to; cbn; lia).
  destruct (Nat.ltb_spec (length b) genericPayloadHeaderLen) as [H|_]; [unfold genericPayloadHeaderLen in H; lia|].
  assert (get_be 2 b 2 = Ok n) as ->.
  { unfold b. rewrite <- app_assoc. rewrite get_be_app by done. rewrite Z.mod_small; [done|]. unfold n, genericPayloadHeaderLen. cbn. lia. }
  rbind. assert (Z.to_nat n = 4 + length (Body p))%nat as Hn by (unfold n, genericPayloadHeaderLen; lia).
  destruct (Z.ltb_spec n (Z.of_nat genericPayloadHeaderLen)) as [H|_]; [unfold n, genericPayloadHeaderLen in H; lia|].
  destruct (Z.ltb_spec (Z.of_nat (length b)) n) as [H|_]; [unfold n, genericPayloadHeaderLen in H; lia|]. cbn [orb].
  change (idx b 1) with (Ok (if Critical p then 128 else 0)). change (idx b 0) with (Ok (firstType ps)). rbind.
  rewrite Hn. unfold b at 1. rewrite (slice_app_exact (hd ++ be_to 2 n) (Body p) trailer)
    by (unfold hd, genericPayloadHeaderLen; rewrite length_app, length_be_to; cbn; lia). rbind.
  fold b. rewrite from_ok by lia. rbind. f_equal. f_equal; [f_equal|].
  - destruct p as [t c bd]. cbn. f_equal. by destruct c.
  - unfold b. rewrite app_assoc. replace (4 + length (Body p))%nat with (length ((hd ++ be_to 2 n) ++ Body p))
      by (unfold hd; rewrite !length_app, length_be_to; cbn; lia). apply drop_app_length.
Qed.

(** [takePayload] returns, and what it takes is what was there. *)
Lemma takePayload_safe next rest : safe (takePayload next rest).
Proof.
  unfold takePayload, genericPayloadHeaderLen. destruct (Nat.ltb_spec (length rest) 4); [done|].
  apply safe_bind; [apply safe_get_be; lia | intros n _].
  destruct (_ || _) eqn:E; [done|]. bool_props. solve_safe.
Qed.

Lemma takePayload_inv next rest p next' rest' : takePayload next rest = Ok (p, next', rest') →
  Type_ p = next ∧ rest !! 0%nat = Some next' ∧ ∃ hd, length hd = 4%nat ∧ rest = hd ++ Body p ++ rest'.
Proof.
  unfold takePayload, genericPayloadHeaderLen. destruct (Nat.ltb_spec (length rest) 4); [done|].
  intros (n & Hn & H1)%bind_ok_inv. destruct (_ || _) eqn:E; [done|]. bool_props.
  apply bind_ok_inv in H1 as (fl & _ & H1). apply bind_ok_inv in H1 as (bd & Hbd & H1).
  apply bind_ok_inv in H1 as (nx & Hnx & H1). apply bind_ok_inv in H1 as (rs & Hrs & H1). injection H1 as <- <- <-.
  split; [done|]. split; [unfold idx in Hnx; destruct (rest !! 0%nat); congruence|].
  apply slice_inv in Hbd as (? & ? & ->). rewrite from_ok in Hrs by lia. injection Hrs as <-. cbn [Body].
  exists (take 4 rest). split; [rewrite length_take; lia|].
  rewrite <- (take_drop 4 rest) at 1. f_equal. rewrite <- (take_drop (Z.to_nat n - 4) (drop 4 rest)) at 1. f_equal.
  rewrite drop_drop. f_equal. lia.
Qed.

(** ** Chains *)

Lemma walkChain_encode ps : Forall payload_ok ps → ∀ fuel, (length ps ≤ fuel)%nat →
  walkChain fuel (firstType ps) (encodePayloadChain ps) = Ok ps.
Proof.
  induction 1 as [|p ps Hp _ IH]; intros fuel Hf; [by destruct fuel|].
  destruct fuel as [|fuel]; [cbn in Hf; lia|]. cbn [walkChain firstType encodePayloadChain].
  rewrite (proj2 (Z.eqb_neq (Type_ p) PayloadNone)) by (destruct Hp; unfold PayloadNone; lia).
  rewrite takePayload_encode by done. rbind. rewrite IH by (cbn in Hf; lia). done.
Qed.

Lemma walkChain_safe fuel : ∀ next rest, (length rest < fuel)%nat → safe (walkChain fuel next rest).
Proof.
  induction fuel as [|fuel IH]; intros next rest Hf; [lia|]. cbn [walkChain].
  destruct (next =? PayloadNone); [by destruct (0 <? length rest)%nat|].
  apply safe_bind; [apply takePayload_safe|]. intros [[p n'] r'] Ht.
  apply takePayload_inv in Ht as (_ & _ & hd & Hh & ->). rewrite !length_app in Hf.
  apply safe_bind; [apply IH; lia | done].
Qed.

Lemma length_chain_le ps : (length ps ≤ length (encodePayloadChain ps))%nat.
Proof. induction ps as [|p ps IH]; cbn; [lia|]. rewrite !length_app. lia. Qed.


(** ** Messages *)

(** SK, if present, comes last. *)
Definition sk_last (ps : list RawPayload) : Prop :=
  ∀ l1 p l2, ps = l1 ++ p :: l2 → Type_ p = PayloadSK → l2 = [].

Lemma sk_last_tail p ps : sk_last (p :: ps) → sk_last ps.
Proof. intros H l1 q l2 ->. apply (H (p :: l1) q l2). done. Qed.

(** Where the header of the SK payload starts, [start] being where the chain does. *)
Fixpoint skAt (start : nat) (ps : list RawPayload) : nat :=
  match ps with
  | [] => O
  | p :: rest => if Type_ p =? PayloadSK then start else skAt (start + genericPayloadHeaderLen + length (Body p)) rest
  end.

Lemma length_chain_cons p ps :
  length (encodePayloadChain (p :: ps)) = (genericPayloadHeaderLen + length (Body p) + length (encodePayloadChain ps))%nat.
Proof. cbn [encodePayloadChain]. rewrite !length_app, length_be_to. cbn. lia. Qed.

Lemma walkMessage_encode ps : Forall payload_ok ps → sk_last ps → ∀ fuel total, (length ps ≤ fuel)%nat →
  (length (encodePayloadChain ps) ≤ total)%nat →
  walkMessage fuel total (firstType ps) (encodePayloadChain ps) = Ok (ps, skAt (total - length (encodePayloadChain ps)) ps).
Proof.
  induction 1 as [|p ps Hp Hps IH]; intros Hsk fuel total Hf Ht; [by destruct fuel|].
  destruct fuel as [|fuel]; [cbn in Hf; lia|].
  assert (walkMessage (S fuel) total (firstType (p :: ps)) (encodePayloadChain (p :: ps)) =
    if Type_ p =? PayloadSK
    then if (0 <? length (encodePayloadChain ps))%nat then Err "ike: trailing bytes after SK payload"
         else Ok ([p], (total - length (encodePayloadChain (p :: ps)))%nat)
    else '(q, off) ← walkMessage fuel total (firstType ps) (encodePayloadChain ps); Ok (p :: q, off)) as ->.
  { cbn [walkMessage firstType]. rewrite (proj2 (Z.eqb_neq (Type_ p) PayloadNone)) by (destruct Hp; unfold PayloadNone; lia).
    cbn [encodePayloadChain]. by rewrite takePayload_encode. }
  cbn [skAt]. destruct (Z.eqb_spec (Type_ p) PayloadSK) as [E|E].
  - assert (ps = []) as -> by exact (Hsk [] p ps eq_refl E). done.
  - rewrite length_chain_cons in Ht |- *. rewrite IH; [|by eapply sk_last_tail|cbn in Hf; lia|lia]. rbind. f_equal. f_equal.
    f_equal. lia.
Qed.

Lemma walkMessage_safe fuel total : ∀ next rest, (length rest < fuel)%nat → safe (walkMessage fuel total next rest).
Proof.
  induction fuel as [|fuel IH]; intros next rest Hf; [lia|]. cbn [walkMessage].
  destruct (next =? PayloadNone); [by destruct (0 <? length rest)%nat|].
  apply safe_bind; [apply takePayload_safe|]. intros [[p n'] r'] Ht.
  apply takePayload_inv in Ht as (_ & _ & hd & Hh & ->). rewrite !length_app in Hf.
  destruct (next =? PayloadSK); [by destruct (0 <? length r')%nat|].
  apply safe_bind; [apply IH; lia|]. by intros [? ?].
Qed.

(** The offset points at the header of the SK payload, whose body is the rest. *)
Lemma walkMessage_offset fuel total : ∀ next rest ps off pre,
  walkMessage fuel total next rest = Ok (ps, off) → total = (length pre + length rest)%nat →
  ∀ sk, findPayload ps PayloadSK = Some sk →
    drop (off + genericPayloadHeaderLen) (pre ++ rest) = Body sk ∧ (off + genericPayloadHeaderLen ≤ total)%nat ∧
    (length pre ≤ off)%nat.
Proof.
  induction fuel as [|fuel IH]; intros next rest ps off pre; cbn [walkMessage];
    destruct (next =? PayloadNone); try (destruct (0 <? length rest)%nat; [done|]; by intros [= <- <-]).
  intros Hw Htot sk Hsk. apply bind_ok_inv in Hw as ([[p n'] r'] & Ht & Hw).
  apply takePayload_inv in Ht as (Hty & Hn & hd & Hh & ->).
  destruct (Z.eqb_spec next PayloadSK) as [E|E].
  - destruct (Nat.ltb_spec 0 (length r')) as [|Hr]; [done|]. injection Hw as <- <-.
    destruct r'; [|cbn in Hr; lia]. cbn in Hsk. rewrite Hty, E, Z.eqb_refl in Hsk. injection Hsk as <-.
    replace (total - length (hd ++ Body p ++ []))%nat with (length pre) by lia. rewrite app_nil_r in *.
    unfold genericPayloadHeaderLen. split_and!.
    + rewrite app_assoc. replace (length pre + 4)%nat with (length (pre ++ hd)) by (rewrite length_app; lia). apply drop_app_length.
    + rewrite Htot, length_app. lia.
    + lia.
  - apply bind_ok_inv in Hw as ([ps' off'] & Hw & [= <- <-]). cbn in Hsk. rewrite Hty, (proj2 (Z.eqb_neq _ _) E) in Hsk.
    destruct (IH n' r' ps' off' (pre ++ hd ++ Body p) Hw) with (sk := sk) as (H1 & H2 & H3); [rewrite Htot, !length_app; lia | done |].
    rewrite <- !app_assoc in H1. rewrite !length_app in H3. split_and!; [done | done | lia].
Qed.

(** The SK payload of a decoded message ends it, at the recorded offset. *)
Lemma decoded_sk b m sk : DecodeMessage b = Ok m → find m PayloadSK = Some sk →
  b = take (skHeaderOffset m + genericPayloadHeaderLen) b ++ Body sk ∧
  (HeaderLen ≤ skHeaderOffset m)%nat ∧ (skHeaderOffset m + genericPayloadHeaderLen ≤ length b)%nat.
Proof.
  intros Hm Hsk. unfold DecodeMessage in Hm. apply bind_ok_inv in Hm as (h & _ & Hm).
  destruct (Z.ltb_spec (Length h) (Z.of_nat HeaderLen)) as [|Hl]; [done|].
  destruct (Z.eqb_spec (Length h) (Z.of_nat (length b))) as [E|]; [|done]. cbn [negb] in Hm. rewrite E, Nat2Z.id in *.
  apply bind_ok_inv in Hm as (rest & Hr & Hm). apply slice_inv in Hr as (Hr1 & Hr2 & Hr).
  rewrite take_ge in Hr by (rewrite length_drop; lia).
  apply bind_ok_inv in Hm as ([ps off] & Hw & [= <-]). cbn [skHeaderOffset find Payloads] in *.
  destruct (walkMessage_offset _ (length b) _ _ _ _ (take HeaderLen b) Hw) with (sk := sk) as (H1 & H2 & H3); [|done|].
  { rewrite Hr, length_take, length_drop. lia. }
  rewrite Hr, take_drop in H1. rewrite length_take in H3. split_and!; [|lia|lia].
  rewrite <- H1. symmetry. apply take_drop.
Qed.

(** The fields a header has on the wire. *)
Definition header_ok (h : Header) : Prop :=
  0 ≤ SPIInitiator h < 2 ^ 64 ∧ 0 ≤ SPIResponder h < 2 ^ 64 ∧ 0 ≤ MessageID h < 2 ^ 32.

Definition sealedHeader (h : Header) (next len : Z) : Header :=
  mkHeader (SPIInitiator h) (SPIResponder h) next 2 0 (ExchangeType h) (Flags h) (MessageID h) len.

Lemma length_encodeHeader h : length (encodeHeader h) = HeaderLen.
Proof. unfold encodeHeader. by rewrite !length_app, !length_be_to. Qed.

Lemma decodeHeader_encode h rest : header_ok h → 0 ≤ Length h < 2 ^ 32 →
  decodeHeader (encodeHeader h ++ rest) = Ok (sealedHeader h (NextPayload h) (Length h)).
Proof.
  intros (H1 & H2 & H3) H4. unfold decodeHeader. rewrite length_app, length_encodeHeader.
  destruct (Nat.ltb_spec (HeaderLen + length rest) HeaderLen) as [|_]; [lia|].
  assert (∀ n a v c b lo, b = a ++ be_to n v ++ c → length a = lo → 0 ≤ v < 256 ^ Z.of_nat n → get_be n b lo = Ok v) as Hg.
  { intros n a v c b lo -> Hl Hv. rewrite get_be_app by done. by rewrite Z.mod_small. }
  unfold encodeHeader.
  set (s1 := be_to 8 (SPIInitiator h)). set (s2 := be_to 8 (SPIResponder h)).
  set (mid := [NextPayload h; 32; ExchangeType h; Flags h]).
  set (s3 := be_to 4 (MessageID h)). set (s4 := be_to 4 (Length h)).
  assert (length s1 = 8%nat ∧ length s2 = 8%nat ∧ length s3 = 4%nat) as (L1 & L2 & L3) by (unfold s1, s2, s3; by rewrite !length_be_to).
  set (b := (s1 ++ s2 ++ mid ++ s3 ++ s4) ++ rest).
  rewrite (Hg 8%nat [] (SPIInitiator h) (s2 ++ mid ++ s3 ++ s4 ++ rest) b 0%nat); [|unfold b; by rewrite <- !app_assoc|done|cbn; lia].
  rewrite (Hg 8%nat s1 (SPIResponder h) (mid ++ s3 ++ s4 ++ rest) b 8%nat); [|unfold b; by rewrite <- !app_assoc|done|cbn; lia].
  rewrite (Hg 4%nat (s1 ++ s2 ++ mid) (MessageID h) (s4 ++ rest) b 20%nat); [|unfold b; by rewrite <- !app_assoc|by rewrite !length_app, L1, L2|cbn; lia].
  rewrite (Hg 4%nat (s1 ++ s2 ++ mid ++ s3) (Length h) rest b 24%nat); [|unfold b; by rewrite <- !app_assoc|by rewrite !length_app, L1, L2, L3|cbn; lia].
  assert (∀ i x, mid !! i = Some x → idx b (16 + i) = Ok x) as Hi.
  { intros i x Hx. unfold idx, b. rewrite <- !app_assoc. rewrite lookup_app_r by lia. rewrite lookup_app_r by lia.
    rewrite L1, L2. replace (16 + i - 8 - 8)%nat with i by lia. rewrite lookup_app_l by (by apply lookup_lt_Some in Hx). by rewrite Hx. }
  pose proof (Hi 0%nat _ eq_refl) as I0. pose proof (Hi 1%nat _ eq_refl) as I1. pose proof (Hi 2%nat _ eq_refl) as I2.
  pose proof (Hi 3%nat _ eq_refl) as I3. cbn [Nat.add] in I0, I1, I2, I3. rbind. rewrite I0, I1, I2, I3. done.
Qed.

(** C5: the IKE message codec round trip. A message whose payloads fit their
    length fields, with nothing after an SK payload, decodes to the same payloads
    in order, the header it was given (version 2.0, the first payload's type and
    the total length filled in), and the offset of its SK payload's header. *)
Theorem message_roundtrip m :
  header_ok (header m) → Forall payload_ok (Payloads m) → sk_last (Payloads m) →
  Z.of_nat (HeaderLen + length (encodePayloadChain (Payloads m))) < 2 ^ 32 →
  DecodeMessage (Encode m) =
    Ok (mkMessage (sealedHeader (header m) (firstType (Payloads m)) (Z.of_nat (length (Encode m))))
          (Payloads m) (skAt HeaderLen (Payloads m))) ∧
  decodePayloadChain (firstType (Payloads m)) (encodePayloadChain (Payloads m)) = Ok (Payloads m).
Proof.
  intros Hh Hp Hsk Hlen. split; [|apply walkChain_encode; [done | pose proof (length_chain_le (Payloads m)); lia]].
  set (body := encodePayloadChain (Payloads m)) in *.
  set (h := mkHeader (SPIInitiator (header m)) (SPIResponder (header m)) (firstType (Payloads m)) (MajorVersion (header m))
    (MinorVersion (header m)) (ExchangeType (header m)) (Flags (header m)) (MessageID (header m))
    (Z.of_nat (HeaderLen + length body))).
  assert (Encode m = encodeHeader h ++ body) as ->.
  { unfold Encode, encode, h. fold body. cbv zeta. by rewrite Nat.add_0_r, u32_id by lia. }
  assert (length (encodeHeader h ++ body) = HeaderLen + length body)%nat as Hl by (by rewrite length_app, length_encodeHeader).
  unfold DecodeMessage. rewrite decodeHeader_encode by (done || cbn [Length h]; lia). rbind.
  cbn [Length sealedHeader NextPayload h]. rewrite Hl.
  destruct (Z.ltb_spec (Z.of_nat (HeaderLen + length body)) (Z.of_nat HeaderLen)); [lia|].
  rewrite Z.eqb_refl. cbn [negb]. rewrite Nat2Z.id. rewrite <- (app_nil_r body) at 1.
  rewrite (slice_app_exact (encodeHeader h) body []) by (rewrite ?length_encodeHeader; done). rbind.
  pose proof (length_chain_le (Payloads m)) as Hc. fold body in Hc.
  unfold body at 3. rewrite (walkMessage_encode (Payloads m)) by (done || fold body; lia). rbind. fold body.
  f_equal. f_equal. f_equal. lia.
Qed.

(** A request with a notify in the clear and an SK payload. *)
Definition sampleMessage : Message :=
  mkMessage (mkHeader 1 2 0 0 0 INFORMATIONAL FlagInitiator 7 0)
    [mkPayload PayloadN true [0; 0; 64; 0]; mkPayload PayloadSK false (replicate 24 9)] 0.

Lemma message_roundtrip_witness :
  DecodeMessage (Encode sampleMessage) =
    Ok (mkMessage (mkHeader 1 2 PayloadN 2 0 INFORMATIONAL FlagInitiator 7 64) (Payloads sampleMessage) 36).
Proof.
  apply (message_roundtrip sampleMessage).
  - unfold header_ok. cbn. lia.
  - repeat constructor; unfold PayloadN, PayloadSK; cbn; lia.
  - intros l1 p l2 H Hp. destruct l1 as [|q [|r [|]]]; cbn in H; try discriminate H; injection H as; subst; done.
  - vm_compute. reflexivity.
Defined.
