(* ===== verification/IkePayload.v ===== *)
(** * IKEv2 payload bodies: ike/payloads_misc.go

    Key exchange, nonce, notify, delete, identification and traffic selector
    payloads, and the check of ike/child_proposal.go that the selectors a peer
    answers with are the two full ranges this node asks for. *)

From S2P Require Import Prelude Netip IkeMessage.

(** ** Key exchange, nonce, notify *)

Definition EncodeKE (group : Z) (pub : list Z) : list Z := be_to 2 group ++ [0; 0] ++ pub.

Definition DecodeKE (body : list Z) : res (Z * list Z) :=
  if (length body <? 4)%nat then Err "ike: short KE payload"
  else group ← get_be 2 body 0; pub ← from body 4; Ok (group, pub).

Definition EncodeNonce (n : list Z) : list Z := n.
Definition DecodeNonce (body : list Z) : list Z := body.

Record Notify := mkNotify { nProtocol : Z; nSPI : list Z; nType : Z; nData : list Z }.

Definition EncodeNotify (n : Notify) : list Z :=
  [nProtocol n; u8 (Z.of_nat (length (nSPI n)))] ++ be_to 2 (nType n) ++ nSPI n ++ nData n.

Definition DecodeNotify (body : list Z) : res Notify :=
  if (length body <? 4)%nat then Err "ike: short notify payload"
  else
    sz ← idx body 1;
    let spiSize := Z.to_nat sz in
    if (length body <? 4 + spiSize)%nat then Err "ike: notify SPI truncated"
    else
      proto ← idx body 0;
      spi ← slice body 4 (4 + spiSize);
      ty ← get_be 2 body 2;
      data ← from body (4 + spiSize);
      Ok (mkNotify proto spi ty data).

(** ** Delete *)

Record Delete := mkDelete { dProtocol : Z; SPIs : list (list Z) }.

Definition EncodeDelete (d : Delete) : list Z :=
  let spiSize := match SPIs d with [] => O | s :: _ => length s end in
  [dProtocol d; u8 (Z.of_nat spiSize)] ++ be_to 2 (u16 (Z.of_nat (length (SPIs d)))) ++ concat (SPIs d).

(** [for rest := body[4:]; len(rest) > 0; rest = rest[spiSize:]]; the length check
    before it makes every turn advance. *)
Fixpoint splitSPIs (fuel : nat) (spiSize : nat) (rest : list Z) : res (list (list Z)) :=
  if (0 <? length rest)%nat then
    match fuel with
    | O => Panic
    | S fuel =>
        spi ← slice rest 0 spiSize;
        rest' ← from rest spiSize;
        out ← splitSPIs fuel spiSize rest';
        Ok (spi :: out)
    end
  else Ok [].

Definition DecodeDelete (body : list Z) : res Delete :=
  if (length body <? 4)%nat then Err "ike: short delete payload"
  else
    protocol ← idx body 0;
    sz ← idx body 1;
    count ← get_be 2 body 2;
    let spiSize := Z.to_nat sz in
    _ ← (if protocol =? ProtoIKE then
           if negb (sz =? 0) || negb (count =? 0) then Err "ike: IKE delete payload contains SPIs" else Ok tt
         else if (protocol =? ProtoAH) || (protocol =? ProtoESP) then
           if negb (sz =? 4) then Err "ike: Child SA delete SPI size, want 4" else Ok tt
         else Err "ike: invalid delete protocol");
    if negb (Z.of_nat (length body) =? 4 + sz * count) then Err "ike: invalid delete payload length"
    else
      rest ← from body 4;
      spis ← splitSPIs (length rest) spiSize rest;
      Ok (mkDelete protocol spis).

(** ** Identification *)

Definition EncodeID (idType : Z) (data : list Z) : list Z := [idType; 0; 0; 0] ++ data.

Definition DecodeID (body : list Z) : res (Z * list Z) :=
  if (length body <? 4)%nat then Err "ike: short ID payload"
  else t ← idx body 0; data ← from body 4; Ok (t, data).

(** ** Traffic selectors *)

Definition TS_IPV4_ADDR_RANGE : Z := 7.
Definition TS_IPV6_ADDR_RANGE : Z := 8.

Record TrafficSelector := mkTS {
  tsType : Z; tsProtocol : Z; StartPort : Z; EndPort : Z; StartAddr : list Z; EndAddr : list Z
}.

#[export] Instance TrafficSelector_eq_dec : EqDecision TrafficSelector.
Proof. solve_decision. Defined.

Definition FullRangeV4 : TrafficSelector := mkTS TS_IPV4_ADDR_RANGE 0 0 65535 (replicate 4 0) (replicate 4 255).
Definition FullRangeV6 : TrafficSelector := mkTS TS_IPV6_ADDR_RANGE 0 0 65535 (replicate 16 0) (replicate 16 255).

(** An address as the selector's type spells it; a nil slice is empty. *)
Definition addrFor (ty : Z) (ip : list Z) : list Z :=
  default [] (if ty =? TS_IPV6_ADDR_RANGE then To16 ip else To4 ip).

Definition encodeSelector (ts : TrafficSelector) : list Z :=
  let addr := addrFor (tsType ts) (StartAddr ts) in
  let alen := length addr in
  [tsType ts; tsProtocol ts] ++ be_to 2 (u16 (Z.of_nat (8 + 2 * alen))) ++ be_to 2 (StartPort ts) ++ be_to 2 (EndPort ts)
  ++ addr ++ gocopy (replicate alen 0) (addrFor (tsType ts) (EndAddr ts)).

Definition EncodeTS (selectors : list TrafficSelector) : list Z :=
  [u8 (Z.of_nat (length selectors)); 0; 0; 0] ++ concat (List.map encodeSelector selectors).

Definition takeSelector (rest : list Z) : res (TrafficSelector * list Z) :=
  if (length rest <? 8)%nat then Err "ike: truncated traffic selector"
  else
    tlen ← get_be 2 rest 2;
    if (tlen <? 8) || (Z.of_nat (length rest) <? tlen) || negb ((tlen - 8) mod 2 =? 0) then Err "ike: invalid TS length"
    else
      ty ← idx rest 0;
      proto ← idx rest 1;
      sp ← get_be 2 rest 4;
      ep ← get_be 2 rest 6;
      let alen := Z.to_nat ((tlen - 8) / 2) in
      if (ty =? TS_IPV4_ADDR_RANGE) && negb (alen =? 4)%nat || (ty =? TS_IPV6_ADDR_RANGE) && negb (alen =? 16)%nat
      then Err "ike: traffic selector address length does not match its type"
      else
        sa ← slice rest 8 (8 + alen);
        ea ← slice rest (8 + alen) (8 + 2 * alen);
        rest' ← from rest (Z.to_nat tlen);
        Ok (mkTS ty proto sp ep sa ea, rest').

(** [for range count] *)
Fixpoint takeSelectors (count : nat) (rest : list Z) : res (list TrafficSelector * list Z) :=
  match count with
  | O => Ok ([], rest)
  | S count =>
      '(ts, rest) ← takeSelector rest;
      '(out, rest) ← takeSelectors count rest;
      Ok (ts :: out, rest)
  end.

Definition DecodeTS (body : list Z) : res (list TrafficSelector) :=
  if (length body <? 4)%nat then Err "ike: short TS payload"
  else
    count ← idx body 0;
    rest ← from body 4;
    '(out, rest) ← takeSelectors (Z.to_nat count) rest;
    if (0 <? length rest)%nat then Err "ike: trailing data after traffic selectors" else Ok out.

(** ** child_proposal.go: the selectors of this profile *)

Definition fullRangeSelectors : list Z := EncodeTS [FullRangeV4; FullRangeV6].

(** The loop over the two selectors, with [v4] and [v6] what was seen. *)
Fixpoint checkSelectors (selectors : list TrafficSelector) (v4 v6 : bool) : bool :=
  match selectors with
  | [] => v4 && v6
  | ts :: rest =>
      let bad (expected : TrafficSelector) :=
        negb (tsProtocol ts =? 0) || negb (StartPort ts =? 0) || negb (EndPort ts =? 65535)
        || negb (bool_decide (StartAddr ts = StartAddr expected)) || negb (bool_decide (EndAddr ts = EndAddr expected)) in
      if tsType ts =? TS_IPV4_ADDR_RANGE then
        if v4 then false else if bad FullRangeV4 then false else checkSelectors rest true v6
      else if tsType ts =? TS_IPV6_ADDR_RANGE then
        if v6 then false else if bad FullRangeV6 then false else checkSelectors rest v4 true
      else false
  end.

Definition isFullRangeSelectors (body : list Z) : bool :=
  match DecodeTS body with
  | Ok selectors => if negb (length selectors =? 2)%nat then false else checkSelectors selectors false false
  | _ => false
  end.

Definition validateFullRangeSelectors (tsi tsr : option RawPayload) : res unit :=
  match tsi, tsr with
  | Some i, Some r =>
      if negb (isFullRangeSelectors (Body i)) then Err "ike: unsupported initiator traffic selectors"
      else if negb (isFullRangeSelectors (Body r)) then Err "ike: unsupported responder traffic selectors"
      else Ok tt
  | _, _ => Err "ike: Child SA exchange is missing traffic selectors"
  end.

(** ** Round trips *)

Lemma DecodeKE_encode group pub : 0 ≤ group < 2 ^ 16 → DecodeKE (EncodeKE group pub) = Ok (group, pub).
Proof.
  intros Hg. unfold DecodeKE, EncodeKE. rewrite !length_app, length_be_to.
  destruct (Nat.ltb_spec (2 + (length [0; 0] + length pub)) 4) as [H|_]; [cbn in H; lia|].
  pose proof (get_be_app 2 [] group ([0; 0] ++ pub) 0 eq_refl) as Hgb. rewrite app_nil_l in Hgb.
  rewrite Hgb, Z.mod_small by (cbn; lia). rbind.
  rewrite from_ok by (rewrite !length_app, length_be_to; cbn; lia). rbind. f_equal.
Qed.

Lemma DecodeID_encode t data : DecodeID (EncodeID t data) = Ok (t, data).
Proof. unfold DecodeID, EncodeID. cbn [length app]. by rewrite from_ok by (cbn; lia). Qed.

Lemma DecodeNotify_encode n : 0 ≤ nType n < 2 ^ 16 → (length (nSPI n) < 256)%nat → DecodeNotify (EncodeNotify n) = Ok n.
Proof.
  intros Ht Hs. unfold DecodeNotify, EncodeNotify.
  set (b := [nProtocol n; _] ++ _). assert (length b = 4 + length (nSPI n) + length (nData n))%nat as Hb
    by (unfold b; rewrite !length_app, length_be_to; cbn; lia).
  destruct (Nat.ltb_spec (length b) 4); [lia|]. change (idx b 1) with (Ok (u8 (Z.of_nat (length (nSPI n))))). rbind.
  replace (u8 (Z.of_nat (length (nSPI n)))) with (Z.of_nat (length (nSPI n))) by (symmetry; apply Z.mod_small; lia).
  rewrite Nat2Z.id. destruct (Nat.ltb_spec (length b) (4 + length (nSPI n))); [lia|].
  change (idx b 0) with (Ok (nProtocol n)). rbind.
  assert (get_be 2 b 2 = Ok (nType n)) as -> by (unfold b; rewrite get_be_app by done; by rewrite Z.mod_small by (cbn; lia)).
  assert (slice b 4 (4 + length (nSPI n)) = Ok (nSPI n)) as ->.
  { unfold b. rewrite app_assoc. apply (slice_app_exact _ (nSPI n)); rewrite ?length_app, ?length_be_to; cbn; lia. }
  rbind. rewrite from_ok by lia. rbind. f_equal. destruct n as [pr sp ty da]. cbn [nProtocol nSPI nType nData] in *. f_equal.
  unfold b. rewrite !app_assoc. apply (drop_app_length' (([pr; _] ++ _) ++ sp)).
  rewrite !length_app, length_be_to. cbn. lia.
Qed.

(** SPIs of the size their protocol fixes. *)
Definition delete_ok (d : Delete) : Prop :=
  (dProtocol d = ProtoIKE ∧ SPIs d = []) ∨
  ((dProtocol d = ProtoAH ∨ dProtocol d = ProtoESP) ∧ SPIs d ≠ [] ∧ Forall (λ s, length s = 4%nat) (SPIs d) ∧
   Z.of_nat (length (SPIs d)) < 2 ^ 16).

Lemma splitSPIs_concat spis : Forall (λ s, length s = 4%nat) spis → ∀ fuel, (length spis ≤ fuel)%nat →
  splitSPIs fuel 4 (concat spis) = Ok spis.
Proof.
  induction 1 as [|s spis Hs _ IH]; intros fuel Hf; [by destruct fuel|].
  destruct fuel as [|fuel]; [cbn in Hf; lia|]. cbn [splitSPIs concat].
  destruct (Nat.ltb_spec 0 (length (s ++ concat spis))) as [_|H]; [|rewrite length_app in H; lia].
  pose proof (slice_app_exact [] s (concat spis) 0 4 eq_refl ltac:(cbn; lia)) as Hsl. rewrite app_nil_l in Hsl.
  rewrite Hsl. rbind. rewrite from_ok by (rewrite length_app; lia). rbind.
  rewrite drop_app_length' by done. rewrite IH by (cbn in Hf; lia). done.
Qed.

Lemma length_concat4 spis : Forall (λ s : list Z, length s = 4%nat) spis → length (concat spis) = (4 * length spis)%nat.
Proof. induction 1; cbn; [done|]. rewrite length_app. lia. Qed.

Lemma DecodeDelete_encode d : delete_ok d → DecodeDelete (EncodeDelete d) = Ok d.
Proof.
  destruct d as [pr spis]. unfold delete_ok. cbn [dProtocol SPIs]. intros [[-> ->]|(Hp & Hne & Hf & Hn)]; [vm_compute; done|].
  unfold EncodeDelete, DecodeDelete. cbn [dProtocol SPIs].
  destruct spis as [|s0 spis']; [done|]. set (spis := s0 :: spis') in *.
  assert (length s0 = 4%nat) as -> by (by inversion Hf). rewrite u16_id by lia.
  set (b := [pr; _] ++ _). pose proof (length_concat4 _ Hf) as Hc.
  assert (length b = 4 + 4 * length spis)%nat as Hb by (unfold b; rewrite !length_app, length_be_to, Hc; cbn; lia).
  destruct (Nat.ltb_spec (length b) 4); [lia|].
  change (idx b 0) with (Ok pr). change (idx b 1) with (Ok 4). rbind.
  assert (get_be 2 b 2 = Ok (Z.of_nat (length spis))) as ->
    by (unfold b; rewrite get_be_app by done; by rewrite Z.mod_small by (change (256 ^ Z.of_nat 2) with (2 ^ 16); lia)).
  rbind. change (Z.to_nat 4) with 4%nat.
  rewrite (proj2 (Z.eqb_neq pr ProtoIKE)) by (unfold ProtoAH, ProtoESP, ProtoIKE in *; lia).
  assert ((pr =? ProtoAH) || (pr =? ProtoESP) = true) as ->
    by (destruct Hp as [-> | ->]; done). cbn [negb]. change (4 =? 4) with true. cbn [negb]. rbind.
  rewrite (proj2 (Z.eqb_eq (Z.of_nat (length b)) _)) by lia. cbn [negb].
  rewrite from_ok by lia. rbind. change (drop 4 b) with (concat spis).
  rewrite splitSPIs_concat; [done | done | lia].
Qed.

(** A selector whose addresses have the width of its type. *)
Definition selector_ok (ts : TrafficSelector) : Prop :=
  0 ≤ StartPort ts < 2 ^ 16 ∧ 0 ≤ EndPort ts < 2 ^ 16 ∧
  ((tsType ts = TS_IPV4_ADDR_RANGE ∧ length (StartAddr ts) = 4%nat ∧ length (EndAddr ts) = 4%nat) ∨
   (tsType ts = TS_IPV6_ADDR_RANGE ∧ length (StartAddr ts) = 16%nat ∧ length (EndAddr ts) = 16%nat)).

Lemma addrFor_id ts a : selector_ok ts → a = StartAddr ts ∨ a = EndAddr ts → addrFor (tsType ts) a = a.
Proof.
  intros (_ & _ & [(-> & H1 & H2)|(-> & H1 & H2)]) Ha; unfold addrFor, To4, To16, TS_IPV4_ADDR_RANGE, TS_IPV6_ADDR_RANGE.
  - change (7 =? 8) with false. rewrite bool_decide_eq_true_2 by (destruct Ha; by subst). done.
  - change (8 =? 8) with true. rewrite bool_decide_eq_false_2 by (destruct Ha; subst; lia).
    rewrite bool_decide_eq_true_2 by (destruct Ha; by subst). done.
Qed.

Lemma takeSelector_encode ts rest : selector_ok ts → takeSelector (encodeSelector ts ++ rest) = Ok (ts, rest).
Proof.
  intros Hok. unfold encodeSelector. rewrite (addrFor_id ts (StartAddr ts)), (addrFor_id ts (EndAddr ts)) by auto.
  destruct Hok as (Hsp & Hep & Hty). set (n := length (StartAddr ts)).
  assert (length (EndAddr ts) = n ∧ (n = 4 ∨ n = 16)%nat ∧ (tsType ts = 7 → n = 4%nat) ∧ (tsType ts = 8 → n = 16%nat)) as (He & Hn & H7 & H8).
  { unfold n, TS_IPV4_ADDR_RANGE, TS_IPV6_ADDR_RANGE in *. destruct Hty as [(E & H1 & H2)|(E & H1 & H2)];
      rewrite E, H1, H2; split_and!; auto; lia. }
  assert (gocopy (replicate n 0) (EndAddr ts) = EndAddr ts) as ->.
  { unfold gocopy. rewrite length_replicate, take_ge, He, drop_ge, app_nil_r by (rewrite ?length_replicate; lia). done. }
  rewrite u16_id by lia. set (len := Z.of_nat (8 + 2 * n)).
  set (p1 := [tsType ts; tsProtocol ts]). set (b := _ ++ rest).
  assert (b = p1 ++ be_to 2 len ++ be_to 2 (StartPort ts) ++ be_to 2 (EndPort ts) ++ StartAddr ts ++ EndAddr ts ++ rest) as Eb
    by (unfold b; by rewrite <- !app_assoc).
  assert (length b = 8 + 2 * n + length rest)%nat as Hb
    by (rewrite Eb; unfold p1; rewrite !length_app, !length_be_to, He; cbn; lia).
  clearbody b. unfold takeSelector. destruct (Nat.ltb_spec (length b) 8); [lia|].
  assert (get_be 2 b 2 = Ok len) as -> by (rewrite Eb, get_be_app by done; rewrite Z.mod_small; [done | unfold len; cbn; lia]).
  assert (get_be 2 b 4 = Ok (StartPort ts)) as ->.
  { rewrite Eb, (app_assoc p1). rewrite get_be_app by (rewrite length_app, length_be_to; done). by rewrite Z.mod_small by (cbn; lia). }
  assert (get_be 2 b 6 = Ok (EndPort ts)) as ->.
  { rewrite Eb, (app_assoc p1), (app_assoc (p1 ++ _)). rewrite get_be_app by (rewrite !length_app, !length_be_to; done).
    by rewrite Z.mod_small by (cbn; lia). }
  assert (idx b 0 = Ok (tsType ts) ∧ idx b 1 = Ok (tsProtocol ts)) as [-> ->] by (by rewrite Eb). rbind.
  assert ((len <? 8) || (Z.of_nat (length b) <? len) || negb ((len - 8) mod 2 =? 0) = false) as ->.
  { assert ((len - 8) mod 2 = 0) as -> by (unfold len; destruct Hn as [-> | ->]; reflexivity).
    destruct (Z.ltb_spec len 8); [unfold len in *; lia|]. destruct (Z.ltb_spec (Z.of_nat (length b)) len); [unfold len in *; lia|]. done. }
  assert (Z.to_nat ((len - 8) / 2) = n) as -> by (unfold len; destruct Hn as [-> | ->]; reflexivity).
  assert ((tsType ts =? TS_IPV4_ADDR_RANGE) && negb (n =? 4)%nat || (tsType ts =? TS_IPV6_ADDR_RANGE) && negb (n =? 16)%nat = false) as ->.
  { unfold TS_IPV4_ADDR_RANGE, TS_IPV6_ADDR_RANGE. destruct (Z.eqb_spec (tsType ts) 7), (Z.eqb_spec (tsType ts) 8);
      [lia | by rewrite H7 | by rewrite H8 | done]. }
  set (pre := p1 ++ be_to 2 len ++ be_to 2 (StartPort ts) ++ be_to 2 (EndPort ts)).
  assert (length pre = 8%nat) as Hpre by (unfold pre; by rewrite !length_app, !length_be_to).
  assert (b = pre ++ StartAddr ts ++ EndAddr ts ++ rest) as Eb' by (rewrite Eb; unfold pre; by rewrite <- !app_assoc).
  assert (slice b 8 (8 + n) = Ok (StartAddr ts)) as -> by (rewrite Eb'; apply slice_app_exact; [done | fold n; lia]).
  assert (slice b (8 + n) (8 + 2 * n) = Ok (EndAddr ts)) as ->
    by (rewrite Eb', app_assoc; apply slice_app_exact; rewrite length_app; fold n; lia).
  rbind. rewrite from_ok by (unfold len; lia). rbind.
  assert (drop (Z.to_nat len) b = rest) as ->.
  { rewrite Eb', !app_assoc. apply drop_app_length'. rewrite !length_app. fold n. unfold len. lia. }
  by destruct ts.
Qed.

Lemma takeSelectors_encode sels rest : Forall selector_ok sels →
  takeSelectors (length sels) (concat (List.map encodeSelector sels) ++ rest) = Ok (sels, rest).
Proof.
  induction 1 as [|ts sels Hts _ IH]; [done|]. cbn [takeSelectors length List.map concat].
  rewrite <- app_assoc, takeSelector_encode by done. rbind. by rewrite IH.
Qed.

Lemma DecodeTS_encode sels : Forall selector_ok sels → (length sels < 256)%nat → DecodeTS (EncodeTS sels) = Ok sels.
Proof.
  intros Hok Hl. unfold DecodeTS, EncodeTS. set (c := concat _).
  destruct (Nat.ltb_spec (length ([u8 (Z.of_nat (length sels)); 0; 0; 0] ++ c)) 4) as [H|_]; [cbn in H; lia|].
  change (idx (_ ++ c) 0) with (Ok (u8 (Z.of_nat (length sels)))). rbind.
  rewrite from_ok by (cbn; lia). rbind. change (drop 4 (_ ++ c)) with c.
  replace (u8 (Z.of_nat (length sels))) with (Z.of_nat (length sels)) by (symmetry; apply Z.mod_small; lia).
  rewrite Nat2Z.id. unfold c. rewrite <- (app_nil_r (concat _)), takeSelectors_encode by done. done.
Qed.

(** the payload bodies round trip. Key exchange, identification, notify,
    delete and traffic selector payloads whose fields fit decode to what was
    encoded. *)
Theorem payload_bodies_roundtrip group pub idType data n d sels :
  0 ≤ group < 2 ^ 16 → 0 ≤ nType n < 2 ^ 16 → (length (nSPI n) < 256)%nat → delete_ok d →
  Forall selector_ok sels → (length sels < 256)%nat →
  DecodeKE (EncodeKE group pub) = Ok (group, pub) ∧
  DecodeID (EncodeID idType data) = Ok (idType, data) ∧
  DecodeNotify (EncodeNotify n) = Ok n ∧
  DecodeDelete (EncodeDelete d) = Ok d ∧
  DecodeTS (EncodeTS sels) = Ok sels.
Proof.
  intros. split_and!; [by apply DecodeKE_encode | apply DecodeID_encode | by apply DecodeNotify_encode |
    by apply DecodeDelete_encode | by apply DecodeTS_encode].
Qed.

(** ** The selectors this node accepts *)

Lemma checkSelectors_exact s1 s2 : checkSelectors [s1; s2] false false = true ↔
  (s1 = FullRangeV4 ∧ s2 = FullRangeV6) ∨ (s1 = FullRangeV6 ∧ s2 = FullRangeV4).
Proof.
  split; [|intros [[-> ->]|[-> ->]]; vm_compute; done].
  destruct s1 as [t1 p1 a1 b1 c1 d1], s2 as [t2 p2 a2 b2 c2 d2]. cbn [checkSelectors tsType tsProtocol StartPort EndPort StartAddr EndAddr].
  unfold FullRangeV4, FullRangeV6. cbn [StartAddr EndAddr].
  destruct (Z.eqb_spec t1 TS_IPV4_ADDR_RANGE) as [->|]; [|destruct (Z.eqb_spec t1 TS_IPV6_ADDR_RANGE) as [->|]; [|done]].
  all: destruct (_ || _) eqn:E1; [done|]; bool_props; subst.
  all: destruct (Z.eqb_spec t2 TS_IPV4_ADDR_RANGE) as [->|]; [|destruct (Z.eqb_spec t2 TS_IPV6_ADDR_RANGE) as [->|]; [|done]]; try done.
  all: destruct (_ || _) eqn:E2; [done|]; bool_props; subst; auto.
Qed.

Lemma isFullRange_iff body : isFullRangeSelectors body = true ↔
  DecodeTS body = Ok [FullRangeV4; FullRangeV6] ∨ DecodeTS body = Ok [FullRangeV6; FullRangeV4].
Proof.
  unfold isFullRangeSelectors. destruct (DecodeTS body) as [sels|e|]; [|split; [done | by intros [?|?]]..].
  destruct (Nat.eqb_spec (length sels) 2) as [Hl|Hl]; cbn [negb].
  2: { split; [done|]. intros [[= ->]|[= ->]]; done. }
  destruct sels as [|s1 [|s2 [|]]]; try done. rewrite checkSelectors_exact. split.
  - intros [[-> ->]|[-> ->]]; auto.
  - intros [[= -> ->]|[= -> ->]]; auto.
Qed.

(** What this node offers is what it accepts. *)
Lemma fullRange_offered : isFullRangeSelectors fullRangeSelectors = true.
Proof. vm_compute. done. Qed.

(** ** No payload makes a decoder panic *)

Lemma splitSPIs_safe k : ∀ fuel rest, (0 < k)%nat → (length rest ≤ fuel)%nat → (∃ m, length rest = k * m)%nat → safe (splitSPIs fuel k rest).
Proof.
  intros fuel. induction fuel as [|fuel IH]; intros rest Hk Hf [m Hm]; cbn [splitSPIs];
    destruct (Nat.ltb_spec 0 (length rest)); try done; [lia|].
  destruct m as [|m]; [lia|]. assert (k ≤ length rest)%nat by nia.
  apply safe_bind; [apply safe_slice; lia | intros spi _]. rewrite from_ok by lia. rbind.
  apply safe_bind; [|done]. apply IH; [done | rewrite length_drop; lia |]. exists m. rewrite length_drop. nia.
Qed.

Lemma DecodeDelete_safe body : bytes_ok body → safe (DecodeDelete body).
Proof.
  intros Hok. unfold DecodeDelete. destruct (Nat.ltb_spec (length body) 4); [done|].
  apply safe_bind; [apply safe_idx; lia | intros pr _]. apply safe_bind; [apply safe_idx; lia | intros sz Hsz].
  apply safe_bind; [apply safe_get_be; lia | intros cnt Hcnt].
  pose proof (get_be_bound _ _ _ _ Hok Hcnt) as Hcb.
  destruct (Z.eqb_spec pr ProtoIKE) as [->|].
  - destruct (Z.eqb_spec sz 0) as [->|]; [|done]. destruct (Z.eqb_spec cnt 0) as [->|]; [|done]. cbn [negb orb]. rbind.
    destruct (Z.eqb_spec (Z.of_nat (length body)) (4 + 0 * 0)) as [E|]; [|done]. cbn [negb].
    rewrite from_ok by lia. rbind. rewrite drop_ge by lia. done.
  - destruct ((pr =? ProtoAH) || (pr =? ProtoESP)); [|done]. destruct (Z.eqb_spec sz 4) as [->|]; [|done]. cbn [negb]. rbind.
    destruct (Z.eqb_spec (Z.of_nat (length body)) (4 + 4 * cnt)) as [E|]; [|done]. cbn [negb].
    rewrite from_ok by lia. rbind. change (Z.to_nat 4) with 4%nat.
    apply safe_bind; [|done]. apply splitSPIs_safe; [lia | done |]. exists (Z.to_nat cnt). rewrite length_drop. lia.
Qed.

Lemma takeSelector_safe rest : bytes_ok rest → safe (takeSelector rest) ∧
  ∀ ts rest', takeSelector rest = Ok (ts, rest') → bytes_ok rest'.
Proof.
  intros Hok. unfold takeSelector. destruct (Nat.ltb_spec (length rest) 8); [done|].
  destruct (get_be 2 rest 2) as [tlen|e|] eqn:Et; [|done|by destruct (safe_get_be 2 rest 2 ltac:(lia))]. rbind.
  destruct (_ || _ || _) eqn:E; [done|]. bool_props.
  destruct (idx rest 0) as [ty|e|] eqn:E0; [|done|by destruct (safe_idx rest 0 ltac:(lia))]. rbind.
  destruct (idx rest 1) as [pr|e|] eqn:E1; [|done|by destruct (safe_idx rest 1 ltac:(lia))]. rbind.
  destruct (get_be 2 rest 4) as [sp|e|] eqn:E4; [|done|by destruct (safe_get_be 2 rest 4 ltac:(lia))]. rbind.
  destruct (get_be 2 rest 6) as [ep|e|] eqn:E6; [|done|by destruct (safe_get_be 2 rest 6 ltac:(lia))]. rbind.
  destruct (_ || _); [done|]. assert (8 + 2 * Z.to_nat ((tlen - 8) / 2) ≤ length rest)%nat by divlia.
  rewrite !slice_ok by lia. rbind. rewrite from_ok by lia. rbind. split; [done|].
  intros ts rest' [= <- <-]. by apply Forall_drop.
Qed.

Lemma takeSelectors_safe count : ∀ rest, bytes_ok rest → safe (takeSelectors count rest).
Proof.
  induction count as [|count IH]; intros rest Hok; [done|]. cbn [takeSelectors].
  destruct (takeSelector_safe rest Hok) as [H1 H2]. destruct (takeSelector rest) as [[ts r']|e|]; [|done|done]. rbind.
  apply safe_bind; [apply IH; by eapply H2|]. by intros [? ?].
Qed.

Lemma DecodeTS_safe body : bytes_ok body → safe (DecodeTS body).
Proof.
  intros Hok. unfold DecodeTS. destruct (Nat.ltb_spec (length body) 4); [done|].
  apply safe_bind; [apply safe_idx; lia | intros count _]. rewrite from_ok by lia. rbind.
  apply safe_bind; [apply takeSelectors_safe; by apply Forall_drop|]. intros [? ?] _. by destruct (0 <? _)%nat.
Qed.

Lemma DecodeNotify_safe body : safe (DecodeNotify body).
Proof.
  unfold DecodeNotify. destruct (Nat.ltb_spec (length body) 4); [done|].
  apply safe_bind; [apply safe_idx; lia | intros sz _].
  destruct (Nat.ltb_spec (length body) (4 + Z.to_nat sz)); [done|]. solve_safe.
Qed.

Lemma DecodeKE_safe body : safe (DecodeKE body).
Proof. unfold DecodeKE. destruct (Nat.ltb_spec (length body) 4); [done|]. solve_safe. Qed.

Lemma DecodeID_safe body : safe (DecodeID body).
Proof. unfold DecodeID. destruct (Nat.ltb_spec (length body) 4); [done|]. solve_safe. Qed.

Lemma payload_bodies_roundtrip_witness :
  DecodeDelete (EncodeDelete (mkDelete ProtoESP [[1; 2; 3; 4]])) = Ok (mkDelete ProtoESP [[1; 2; 3; 4]]) ∧
  DecodeTS fullRangeSelectors = Ok [FullRangeV4; FullRangeV6].
Proof.
  destruct (payload_bodies_roundtrip 31 [5; 6] 9 [7] (mkNotify 0 [] 16384 []) (mkDelete ProtoESP [[1; 2; 3; 4]])
    [FullRangeV4; FullRangeV6]) as (_ & _ & _ & H1 & H2).
  - lia.
  - cbn. lia.
  - cbn. lia.
  - right. split; [by right|]. split; [done|]. split; [by repeat constructor | cbn; lia].
  - apply Forall_cons. split; [split_and!; cbn; [lia..|by left]|]. apply Forall_singleton. split_and!; cbn; [lia..|by right].
  - cbn. lia.
  - split; [exact H1 | exact H2].
Defined.
