(* ===== verification/IkeSa.v ===== *)
(** * IKEv2 security association payloads: ike/payloads_sa.go

    Proposals of transforms with attributes, three nested lists whose lengths and
    more-to-come flags a peer chose. The loops over attributes and proposals take
    fuel, the bytes at hand being enough because every turn consumes some; running
    out is a [Panic], which no input reaches. *)

From S2P Require Import Prelude IkeMessage IkePayload.

Definition AttrKeyLength : Z := 14.

Record Transform := mkTransform {
  trType : Z; trID : Z; KeyLengthBits : Z; UnsupportedAttributes : bool
}.

#[export] Instance Transform_eq_dec : EqDecision Transform.
Proof. solve_decision. Defined.

Definition encodeAttrs (t : Transform) : list Z :=
  if negb (KeyLengthBits t =? 0) then be_to 2 (Z.lor 32768 AttrKeyLength) ++ be_to 2 (KeyLengthBits t) else [].

Definition encodeTransform (t : Transform) (last : bool) : list Z :=
  let attrs := encodeAttrs t in
  [if last then 0 else 3; 0] ++ be_to 2 (u16 (Z.of_nat (8 + length attrs))) ++ [trType t; 0] ++ be_to 2 (trID t) ++ attrs.

(** The loop over the attributes; [have] is [haveKeyLength]. *)
Fixpoint decodeAttrs (fuel : nat) (t : Transform) (have : bool) (attrs : list Z) : res Transform :=
  if (0 <? length attrs)%nat then
    match fuel with
    | O => Panic
    | S fuel =>
        if (length attrs <? 4)%nat then Err "ike: truncated transform attribute"
        else
          at_ ← get_be 2 attrs 0;
          if negb (Z.land at_ 32768 =? 0) then
            let attributeType := Z.land at_ 32767 in
            v ← get_be 2 attrs 2;
            rest ← from attrs 4;
            if negb (attributeType =? AttrKeyLength) || have
            then decodeAttrs fuel (mkTransform (trType t) (trID t) (KeyLengthBits t) true) have rest
            else decodeAttrs fuel (mkTransform (trType t) (trID t) v (UnsupportedAttributes t || (v =? 0))) true rest
          else
            valueLength ← get_be 2 attrs 2;
            let len := (4 + Z.to_nat valueLength)%nat in
            if (length attrs <? len)%nat then Err "ike: invalid transform attribute length"
            else
              rest ← from attrs len;
              decodeAttrs fuel (mkTransform (trType t) (trID t) (KeyLengthBits t) true) have rest
    end
  else Ok t.

Definition decodeTransform (b : list Z) : res (Transform * bool * list Z) :=
  if (length b <? 8)%nat then Err "ike: short transform"
  else
    b0 ← idx b 0;
    if negb (b0 =? 0) && negb (b0 =? 3) then Err "ike: invalid transform last/more value"
    else
      let more := b0 =? 3 in
      tlen ← get_be 2 b 2;
      if (tlen <? 8) || (Z.of_nat (length b) <? tlen) then Err "ike: invalid transform length"
      else
        ty ← idx b 4;
        id ← get_be 2 b 6;
        attrs ← slice b 8 (Z.to_nat tlen);
        t ← decodeAttrs (length attrs) (mkTransform ty id 0 false) false attrs;
        rest ← from b (Z.to_nat tlen);
        Ok (t, more, rest).

Record Proposal := mkProposal { Number : Z; Protocol : Z; SPI : list Z; Transforms : list Transform }.

Fixpoint encodeTransforms (ts : list Transform) : list Z :=
  match ts with
  | [] => []
  | t :: rest => encodeTransform t (match rest with [] => true | _ => false end) ++ encodeTransforms rest
  end.

Definition encodeProposal (p : Proposal) (last : bool) : list Z :=
  let tbody := encodeTransforms (Transforms p) in
  [if last then 0 else 2; 0] ++ be_to 2 (u16 (Z.of_nat (8 + length (SPI p) + length tbody)))
  ++ [Number p; Protocol p; u8 (Z.of_nat (length (SPI p))); u8 (Z.of_nat (length (Transforms p)))]
  ++ SPI p ++ tbody.

(** [for i := range numTrans], [n] transforms still to come. *)
Fixpoint takeTransforms (n : nat) (rest : list Z) : res (list Transform * list Z) :=
  match n with
  | O => Ok ([], rest)
  | S n =>
      '(t, more, next) ← decodeTransform rest;
      if (0 <? n)%nat && negb more then Err "ike: proposal ended before transform count"
      else if (n =? 0)%nat && more then Err "ike: proposal has more transforms than declared"
      else '(ts, rest) ← takeTransforms n next; Ok (t :: ts, rest)
  end.

Definition decodeProposal (b : list Z) : res (Proposal * bool * list Z) :=
  if (length b <? 8)%nat then Err "ike: short proposal"
  else
    b0 ← idx b 0;
    if negb (b0 =? 0) && negb (b0 =? 2) then Err "ike: invalid proposal last/more value"
    else
      let more := b0 =? 2 in
      plen ← get_be 2 b 2;
      if (plen <? 8) || (Z.of_nat (length b) <? plen) then Err "ike: invalid proposal length"
      else
        number ← idx b 4;
        protocol ← idx b 5;
        spiSize ← idx b 6;
        numTrans ← idx b 7;
        rest ← slice b 8 (Z.to_nat plen);
        if (length rest <? Z.to_nat spiSize)%nat then Err "ike: proposal SPI truncated"
        else
          spi ← slice rest 0 (Z.to_nat spiSize);
          rest ← from rest (Z.to_nat spiSize);
          '(ts, rest) ← takeTransforms (Z.to_nat numTrans) rest;
          if (0 <? length rest)%nat then Err "ike: trailing bytes in proposal"
          else next ← from b (Z.to_nat plen); Ok (mkProposal number protocol spi ts, more, next).

Fixpoint EncodeSA (proposals : list Proposal) : list Z :=
  match proposals with
  | [] => []
  | p :: rest => encodeProposal p (match rest with [] => true | _ => false end) ++ EncodeSA rest
  end.

Fixpoint takeProposals (fuel : nat) (rest : list Z) : res (list Proposal) :=
  if (0 <? length rest)%nat then
    match fuel with
    | O => Panic
    | S fuel =>
        '(p, more, next) ← decodeProposal rest;
        if negb more && (0 <? length next)%nat then Err "ike: trailing bytes after last proposal"
        else if more && negb (0 <? length next)%nat then Err "ike: proposal chain ends with more flag"
        else props ← takeProposals fuel next; Ok (p :: props)
    end
  else Ok [].

Definition DecodeSA (body : list Z) : res (list Proposal) := takeProposals (length body) body.

(** ** Round trip *)

Definition transform_ok (t : Transform) : Prop :=
  0 ≤ trID t < 2 ^ 16 ∧ 0 ≤ KeyLengthBits t < 2 ^ 16 ∧ UnsupportedAttributes t = false.

Definition proposal_ok (p : Proposal) : Prop :=
  Forall transform_ok (Transforms p) ∧ (length (SPI p) < 256)%nat ∧ (length (Transforms p) < 256)%nat.

Lemma length_encodeAttrs t : (length (encodeAttrs t) = 0 ∨ length (encodeAttrs t) = 4)%nat.
Proof. unfold encodeAttrs. destruct (negb _); [right | left]; by rewrite ?length_app, ?length_be_to. Qed.

Lemma decodeAttrs_encode t : transform_ok t →
  decodeAttrs (length (encodeAttrs t)) (mkTransform (trType t) (trID t) 0 false) false (encodeAttrs t) = Ok t.
Proof.
  intros (_ & Hk & Hu). destruct t as [ty id k u]. cbn [trType trID KeyLengthBits UnsupportedAttributes] in *. subst u.
  unfold encodeAttrs. cbn [KeyLengthBits]. destruct (Z.eqb_spec k 0) as [->|Hne]; cbn [negb]; [done|].
  set (b := be_to 2 (Z.lor 32768 AttrKeyLength) ++ be_to 2 k).
  assert (length b = 4%nat) as Hb by done. rewrite Hb. cbn [decodeAttrs]. rewrite Hb. cbn [Nat.ltb Nat.leb].
  assert (get_be 2 b 0 = Ok 32782) as -> by done.
  assert (get_be 2 b 2 = Ok k) as ->.
  { unfold b. rewrite <- (app_nil_r (be_to 2 k)). rewrite get_be_app by done. by rewrite Z.mod_small by (cbn; lia). }
  rbind. change (Z.land 32782 32768 =? 0) with false. change (Z.land 32782 32767 =? AttrKeyLength) with true. cbn [negb orb].
  rewrite from_ok by lia. rbind. change (drop 4 b) with (@nil Z). cbn [decodeAttrs length Nat.ltb Nat.leb].
  by rewrite (proj2 (Z.eqb_neq k 0)).
Qed.

Lemma length_encodeTransform t last : length (encodeTransform t last) = (8 + length (encodeAttrs t))%nat.
Proof. unfold encodeTransform. rewrite !length_app, !length_be_to. cbn. lia. Qed.

Lemma decodeTransform_encode t last rest : transform_ok t →
  decodeTransform (encodeTransform t last ++ rest) = Ok (t, negb last, rest).
Proof.
  intros Hok. pose proof (length_encodeAttrs t) as Ha. pose proof (decodeAttrs_encode t Hok) as Hd.
  pose proof (length_encodeTransform t last) as Hl. unfold decodeTransform.
  rewrite length_app, Hl. destruct (Nat.ltb_spec (8 + length (encodeAttrs t) + length rest) 8); [lia|].
  set (len := Z.of_nat (8 + length (encodeAttrs t))). set (attrs := encodeAttrs t) in *.
  set (b := encodeTransform t last ++ rest).
  assert (b = [if last then 0 else 3; 0] ++ be_to 2 len ++ ([trType t; 0] ++ be_to 2 (trID t)) ++ attrs ++ rest) as Eb
    by (unfold b, encodeTransform; fold attrs; rewrite u16_id by lia; fold len; by rewrite <- !app_assoc).
  assert (idx b 0 = Ok (if last then 0 else 3) ∧ idx b 4 = Ok (trType t)) as [-> ->] by done. rbind.
  assert (negb ((if last then 0 else 3) =? 0) && negb ((if last then 0 else 3) =? 3) = false) as -> by (by destruct last).
  assert (((if last then 0 else 3) =? 3) = negb last) as -> by (by destruct last).
  assert (length b = 8 + length attrs + length rest)%nat as Hb
    by (rewrite Eb, !length_app, !length_be_to; cbn; lia).
  clearbody b. assert (get_be 2 b 2 = Ok len) as ->
    by (rewrite Eb, get_be_app by done; rewrite Z.mod_small; [done | unfold len; change (256 ^ Z.of_nat 2) with 65536; lia]).
  rbind. destruct (Z.ltb_spec len 8); [unfold len in *; lia|].
  destruct (Z.ltb_spec (Z.of_nat (8 + length attrs + length rest)) len); [unfold len in *; lia|]. cbn [orb].
  set (pre := [if last then 0 else 3; 0] ++ be_to 2 len ++ [trType t; 0]).
  assert (b = pre ++ be_to 2 (trID t) ++ attrs ++ rest) as Eb' by (rewrite Eb; unfold pre; by rewrite <- !app_assoc).
  assert (get_be 2 b 6 = Ok (trID t)) as ->.
  { rewrite Eb', get_be_app by done. destruct Hok as (? & _ & _). by rewrite Z.mod_small by (cbn; lia). }
  assert (slice b 8 (Z.to_nat len) = Ok attrs) as ->.
  { rewrite Eb', app_assoc. apply slice_app_exact; rewrite length_app, length_be_to; unfold pre, len; cbn; lia. }
  rbind. rewrite Hd. rbind. rewrite from_ok by (unfold len; lia). rbind. f_equal. f_equal.
  rewrite Eb', !app_assoc. apply drop_app_length'. rewrite !length_app, length_be_to. unfold pre, len. cbn. lia.
Qed.

Lemma takeTransforms_encode ts : Forall transform_ok ts →
  ∀ rest, takeTransforms (length ts) (encodeTransforms ts ++ rest) = Ok (ts, rest).
Proof.
  induction 1 as [|t ts Ht _ IH]; intros rest; [done|]. cbn [takeTransforms length encodeTransforms].
  rewrite <- app_assoc, decodeTransform_encode by done. rbind. rewrite IH. by destruct ts.
Qed.

Lemma length_encodeProposal p last : length (encodeProposal p last) = (8 + length (SPI p) + length (encodeTransforms (Transforms p)))%nat.
Proof. unfold encodeProposal. rewrite !length_app, !length_be_to. cbn. lia. Qed.

Lemma decodeProposal_encode p last rest : proposal_ok p → Z.of_nat (length (encodeProposal p last)) < 2 ^ 16 →
  decodeProposal (encodeProposal p last ++ rest) = Ok (p, negb last, rest).
Proof.
  intros (Ht & Hs & Hn) Hlen. pose proof (length_encodeProposal p last) as Hl. unfold decodeProposal.
  rewrite length_app, Hl. set (body := encodeTransforms (Transforms p)) in *.
  destruct (Nat.ltb_spec (8 + length (SPI p) + length body + length rest) 8); [lia|].
  set (len := Z.of_nat (8 + length (SPI p) + length body)). set (lb := if last then 0 else 2).
  set (nums := [Number p; Protocol p; u8 (Z.of_nat (length (SPI p))); u8 (Z.of_nat (length (Transforms p)))]).
  set (b := encodeProposal p last ++ rest).
  assert (b = [lb; 0] ++ be_to 2 len ++ nums ++ (SPI p ++ body) ++ rest) as Eb
    by (unfold b, encodeProposal; fold body lb nums; rewrite u16_id by lia; fold len; by rewrite <- !app_assoc).
  assert (length b = 8 + length (SPI p) + length body + length rest)%nat as Hb
    by (unfold b; rewrite length_app, Hl; lia).
  clearbody b. assert (idx b 0 = Ok lb ∧ idx b 4 = Ok (Number p) ∧ idx b 5 = Ok (Protocol p) ∧
    idx b 6 = Ok (u8 (Z.of_nat (length (SPI p)))) ∧ idx b 7 = Ok (u8 (Z.of_nat (length (Transforms p)))))
    as (-> & -> & -> & -> & ->) by (by rewrite Eb). rbind.
  assert (negb (lb =? 0) && negb (lb =? 2) = false) as -> by (unfold lb; by destruct last).
  assert ((lb =? 2) = negb last) as -> by (unfold lb; by destruct last).
  assert (get_be 2 b 2 = Ok len) as ->
    by (rewrite Eb, get_be_app by done; rewrite Z.mod_small; [done | unfold len; change (256 ^ Z.of_nat 2) with 65536; lia]).
  rbind. destruct (Z.ltb_spec len 8); [unfold len in *; lia|].
  destruct (Z.ltb_spec (Z.of_nat (8 + length (SPI p) + length body + length rest)) len); [unfold len in *; lia|]. cbn [orb].
  set (pre := [lb; 0] ++ be_to 2 len ++ nums). assert (length pre = 8%nat) as Hpre by done.
  assert (b = pre ++ (SPI p ++ body) ++ rest) as Eb' by (rewrite Eb; unfold pre; by rewrite <- !app_assoc).
  assert (slice b 8 (Z.to_nat len) = Ok (SPI p ++ body)) as ->
    by (rewrite Eb'; apply slice_app_exact; rewrite ?length_app; unfold len; lia).
  rbind. replace (u8 (Z.of_nat (length (SPI p)))) with (Z.of_nat (length (SPI p))) by (symmetry; apply Z.mod_small; lia).
  replace (u8 (Z.of_nat (length (Transforms p)))) with (Z.of_nat (length (Transforms p))) by (symmetry; apply Z.mod_small; lia).
  rewrite !Nat2Z.id. destruct (Nat.ltb_spec (length (SPI p ++ body)) (length (SPI p))) as [Hx|_]; [rewrite length_app in Hx; lia|].
  pose proof (slice_app_exact [] (SPI p) body 0 (length (SPI p)) eq_refl eq_refl) as Hsl. rewrite app_nil_l in Hsl. rewrite Hsl. rbind.
  rewrite (from_ok (SPI p ++ body)) by (rewrite length_app; lia). rbind. rewrite drop_app_length.
  unfold body. rewrite <- (app_nil_r (encodeTransforms _)), takeTransforms_encode by done. rbind. cbn [length Nat.ltb Nat.leb].
  rewrite from_ok by (unfold len; lia). rbind. f_equal. f_equal; [by destruct p|].
  rewrite Eb', app_assoc. apply drop_app_length'. rewrite !length_app. unfold len. lia.
Qed.

Lemma takeProposals_encode ps : Forall proposal_ok ps →
  Forall (λ p, Z.of_nat (length (encodeProposal p true)) < 2 ^ 16) ps →
  ∀ fuel, (length ps ≤ fuel)%nat → takeProposals fuel (EncodeSA ps) = Ok ps.
Proof.
  induction 1 as [|p ps Hp _ IH]; intros Hl fuel Hf; [by destruct fuel|]. inversion Hl as [|?? Hl1 Hl2]; subst.
  destruct fuel as [|fuel]; [cbn in Hf; lia|]. cbn [takeProposals EncodeSA].
  set (last := match ps with [] => true | _ => false end).
  pose proof (length_encodeProposal p last) as H1. pose proof (length_encodeProposal p true) as H2.
  destruct (Nat.ltb_spec 0 (length (encodeProposal p last ++ EncodeSA ps))) as [_|H]; [|rewrite length_app in H; lia].
  rewrite decodeProposal_encode by (done || lia). rbind.
  destruct ps as [|q ps]; [by destruct fuel|]. assert ((0 <? length (EncodeSA (q :: ps)))%nat = true) as ->.
  { apply Nat.ltb_lt. cbn [EncodeSA]. rewrite length_app, length_encodeProposal. lia. }
  unfold last. cbn [negb andb]. rewrite IH by (done || cbn in Hf |- *; lia). done.
Qed.

Lemma length_EncodeSA ps : (length ps ≤ length (EncodeSA ps))%nat.
Proof. induction ps as [|p ps IH]; cbn [EncodeSA length]; [lia|]. rewrite length_app, length_encodeProposal. lia. Qed.

(** the SA payload codec round trip. Any list of proposals whose parts fit
    their length and count fields, with any number of transforms and key lengths,
    decodes to the same proposals. *)
Theorem sa_roundtrip ps :
  Forall proposal_ok ps → Forall (λ p, Z.of_nat (length (encodeProposal p true)) < 2 ^ 16) ps →
  DecodeSA (EncodeSA ps) = Ok ps.
Proof. intros Hp Hl. apply takeProposals_encode; [done | done | apply length_EncodeSA]. Qed.

(** ** No bytes make a decoder panic *)

Lemma decodeAttrs_safe fuel : ∀ t have attrs, (length attrs ≤ fuel)%nat → safe (decodeAttrs fuel t have attrs).
Proof.
  induction fuel as [|fuel IH]; intros t have attrs Hf; cbn [decodeAttrs];
    destruct (Nat.ltb_spec 0 (length attrs)); try done; [lia|].
  destruct (Nat.ltb_spec (length attrs) 4); [done|].
  apply safe_bind; [apply safe_get_be; lia | intros at_ _]. destruct (negb _).
  - apply safe_bind; [apply safe_get_be; lia | intros v _]. rewrite from_ok by lia. rbind.
    destruct (_ || have); apply IH; rewrite length_drop; lia.
  - apply safe_bind; [apply safe_get_be; lia | intros v _].
    destruct (Nat.ltb_spec (length attrs) (4 + Z.to_nat v)); [done|]. rewrite from_ok by lia. rbind.
    apply IH. rewrite length_drop. lia.
Qed.

Lemma decodeTransform_safe b : safe (decodeTransform b).
Proof.
  unfold decodeTransform. destruct (Nat.ltb_spec (length b) 8); [done|].
  apply safe_bind; [apply safe_idx; lia | intros b0 _]. destruct (_ && _); [done|].
  apply safe_bind; [apply safe_get_be; lia | intros tlen _]. destruct (_ || _) eqn:E; [done|]. bool_props.
  apply safe_bind; [apply safe_idx; lia | intros ty _]. apply safe_bind; [apply safe_get_be; lia | intros id _].
  apply safe_bind; [apply safe_slice; lia | intros attrs _]. apply safe_bind; [by apply decodeAttrs_safe | intros t _].
  apply safe_bind; [apply safe_from; lia | done].
Qed.

Lemma takeTransforms_safe n : ∀ rest, safe (takeTransforms n rest).
Proof.
  induction n as [|n IH]; intros rest; [done|]. cbn [takeTransforms].
  apply safe_bind; [apply decodeTransform_safe|]. intros [[t more] next] _.
  destruct (_ && _); [done|]. destruct (_ && _); [done|]. apply safe_bind; [apply IH|]. by intros [? ?].
Qed.

Lemma decodeProposal_safe b : safe (decodeProposal b) ∧
  ∀ p more next, decodeProposal b = Ok (p, more, next) → (length next < length b)%nat.
Proof.
  unfold decodeProposal. destruct (Nat.ltb_spec (length b) 8); [done|].
  destruct (idx b 0) as [b0|e|] eqn:E0; [|done|by destruct (safe_idx b 0 ltac:(lia))]. rbind.
  destruct (_ && _); [done|].
  destruct (get_be 2 b 2) as [plen|e|] eqn:Ep; [|done|by destruct (safe_get_be 2 b 2 ltac:(lia))]. rbind.
  destruct (_ || _) eqn:E; [done|]. bool_props.
  destruct (idx b 4) as [nu|e|] eqn:E4; [|done|by destruct (safe_idx b 4 ltac:(lia))]. rbind.
  destruct (idx b 5) as [pr|e|] eqn:E5; [|done|by destruct (safe_idx b 5 ltac:(lia))]. rbind.
  destruct (idx b 6) as [sz|e|] eqn:E6; [|done|by destruct (safe_idx b 6 ltac:(lia))]. rbind.
  destruct (idx b 7) as [nt|e|] eqn:E7; [|done|by destruct (safe_idx b 7 ltac:(lia))]. rbind.
  rewrite slice_ok by lia. rbind. set (rest := take _ _).
  destruct (Nat.ltb_spec (length rest) (Z.to_nat sz)); [done|].
  rewrite slice_ok by lia. rbind. rewrite (from_ok rest) by lia. rbind.
  pose proof (takeTransforms_safe (Z.to_nat nt) (drop (Z.to_nat sz) rest)) as Hs.
  destruct (takeTransforms _ _) as [[ts r']|e|]; rbind; [|split; done|by destruct Hs].
  destruct (0 <? length r')%nat; [done|]. rewrite from_ok by lia. rbind. split; [done|].
  intros p more next [= <- <- <-]. rewrite length_drop. lia.
Qed.

Lemma takeProposals_safe fuel : ∀ rest, (length rest ≤ fuel)%nat → safe (takeProposals fuel rest).
Proof.
  induction fuel as [|fuel IH]; intros rest Hf; cbn [takeProposals];
    destruct (Nat.ltb_spec 0 (length rest)); try done; [lia|].
  destruct (decodeProposal_safe rest) as [H1 H2]. destruct (decodeProposal rest) as [[[p more] next]|e|]; rbind; [|done|by destruct H1].
  specialize (H2 p more next eq_refl). destruct (_ && _); [done|]. destruct (_ && _); [done|].
  apply safe_bind; [apply IH; lia | done].
Qed.

Lemma DecodeMessage_safe b : safe (DecodeMessage b).
Proof.
  unfold DecodeMessage, decodeHeader. destruct (Nat.ltb_spec (length b) HeaderLen) as [|Hl]; [done|]. unfold HeaderLen in Hl.
  apply safe_bind; [solve_safe|]. intros h _. destruct (Length h <? _); [done|].
  destruct (Z.eqb_spec (Length h) (Z.of_nat (length b))) as [->|]; [|done]. cbn [negb]. rewrite Nat2Z.id.
  apply safe_bind; [apply safe_slice; unfold HeaderLen; lia | intros rest _].
  apply safe_bind; [apply walkMessage_safe; lia|]. by intros [? ?].
Qed.

(** nothing a peer sends makes the IKE codecs panic, and they return on
    every input: messages, payload chains, SA, key exchange, identification,
    notify, delete and traffic selector payloads. An accepted message with an SK
    payload has it last, at the recorded offset, so the bytes authenticated in
    front of the ciphertext are exactly everything before the body. *)
Theorem ike_decoders_total b :
  bytes_ok b →
  safe (DecodeMessage b) ∧ (∀ first, safe (decodePayloadChain first b)) ∧ safe (DecodeSA b) ∧ safe (DecodeKE b) ∧
  safe (DecodeID b) ∧ safe (DecodeNotify b) ∧ safe (DecodeDelete b) ∧ safe (DecodeTS b) ∧
  ∀ m sk, DecodeMessage b = Ok m → find m PayloadSK = Some sk →
    b = take (skHeaderOffset m + genericPayloadHeaderLen) b ++ Body sk ∧
    (HeaderLen ≤ skHeaderOffset m)%nat ∧ (skHeaderOffset m + genericPayloadHeaderLen ≤ length b)%nat.
Proof.
  intros Hb. split_and!; [apply DecodeMessage_safe | intros; apply walkChain_safe; lia | by apply takeProposals_safe |
    apply DecodeKE_safe | apply DecodeID_safe | apply DecodeNotify_safe | by apply DecodeDelete_safe | by apply DecodeTS_safe |].
  intros m sk. apply decoded_sk.
Qed.

(** An offer of two ciphers, and an alternative. *)
Definition sampleOffer : list Proposal :=
  [mkProposal 1 ProtoESP [0; 0; 1; 0] [mkTransform 1 20 128 false; mkTransform 1 28 0 false; mkTransform 5 0 0 false];
   mkProposal 2 ProtoESP [0; 0; 1; 1] []].

Lemma sa_roundtrip_witness : length (EncodeSA sampleOffer) = 52%nat ∧ DecodeSA (EncodeSA sampleOffer) = Ok sampleOffer.
Proof.
  split; [vm_compute; reflexivity|]. apply (sa_roundtrip sampleOffer).
  - repeat constructor; cbn; lia.
  - repeat constructor; vm_compute; reflexivity.
Defined.

Lemma ike_decoders_total_witness :
  ∃ m sk, DecodeMessage (Encode sampleMessage) = Ok m ∧ find m PayloadSK = Some sk ∧
    Encode sampleMessage = take (skHeaderOffset m + genericPayloadHeaderLen) (Encode sampleMessage) ++ Body sk.
Proof.
  eexists _, _. split; [vm_compute; reflexivity|]. split; [vm_compute; reflexivity|].
  apply (ike_decoders_total (Encode sampleMessage)); [|vm_compute; reflexivity|vm_compute; reflexivity].
  apply (bool_decide_unpack _). vm_compute. exact I.
Defined.
