(* ===== verification/IkeDer.v ===== *)
(** * Identities in DER: ike/der.go

    The encoder and decoder for the distinguished names that identify peers. Go
    strings are their bytes. *)

From S2P Require Import Prelude.

(** ** Encoding *)

(** The loop of [derLen], from the low octet up; eight turns empty an int. *)
Fixpoint lenOctets (fuel : nat) (n : Z) (b : list Z) : list Z :=
  match fuel with
  | O => b
  | S fuel => if 0 <? n then lenOctets fuel (Z.shiftr n 8) (Z.land n 255 :: b) else b
  end.

Definition derLen (n : Z) : list Z :=
  if n <? 128 then [n]
  else let b := lenOctets 8 n [] in Z.lor 128 (u8 (Z.of_nat (length b))) :: b.

Definition derTLV (tag : Z) (content : list Z) : list Z :=
  [tag] ++ derLen (Z.of_nat (length content)) ++ content.

Definition derUTF8String (s : list Z) : list Z := derTLV 12 s.
Definition derPrintableString (s : list Z) : list Z := derTLV 19 s.
Definition derSequence (parts : list (list Z)) : list Z := derTLV 48 (concat parts).
Definition derSet (parts : list (list Z)) : list Z := derTLV 49 (concat parts).

Definition oidOrganizationName : list Z := [6; 3; 85; 4; 10].
Definition oidCommonName : list Z := [6; 3; 85; 4; 3].
Definition oidSerialNumber : list Z := [6; 3; 85; 4; 5].
Definition OIDEd25519 : list Z := [6; 3; 43; 101; 112].

Definition rdn (oid value : list Z) : list Z := derSet [derSequence [oid; value]].

Definition EncodeIdentityDN (organization commonName serialNumber : list Z) : list Z :=
  derSequence [rdn oidOrganizationName (derUTF8String organization);
               rdn oidCommonName (derUTF8String commonName);
               rdn oidSerialNumber (derPrintableString serialNumber)].

Definition Ed25519AlgorithmIdentifier : list Z := derSequence [OIDEd25519].

(** ** Decoding *)

(** [value = value<<8 | uint64(octet)] over the length octets. *)
Definition lenValue (octets : list Z) : Z := fold_left (fun v o => Z.lor (u64 (Z.shiftl v 8)) o) octets 0.

(** Tag, content, and what follows. *)
Definition derElement (b : list Z) : res (Z * list Z * list Z) :=
  if (length b <? 2)%nat then Err "ike: truncated DER element"
  else
    tag ← idx b 0;
    b ← from b 1;
    l0 ← idx b 0;
    b ← from b 1;
    '(len, b) ←
      (if negb (Z.land l0 128 =? 0) then
         let count := Z.to_nat (Z.land l0 127) in
         if (count =? 0)%nat || (4 <? count)%nat || (length b <? count)%nat then Err "ike: unsupported DER length"
         else
           b0 ← idx b 0;
           if b0 =? 0 then Err "ike: non-minimal DER length"
           else
             octets ← slice b 0 count;
             let value := lenValue octets in
             b ← from b count;
             if value <? 128 then Err "ike: non-minimal DER length"
             else if Z.of_nat (length b) <? value then Err "ike: truncated DER content"
             else Ok (value, b)
       else Ok (l0, b));
    if Z.of_nat (length b) <? len then Err "ike: truncated DER content"
    else
      content ← slice b 0 (Z.to_nat len);
      rest ← from b (Z.to_nat len);
      Ok (tag, content, rest).

(** The whole element, its content and what follows. *)
Definition derElementRaw (b : list Z) : res (list Z * list Z * list Z) :=
  '(_, content, rest) ← derElement b;
  raw ← slice b 0 (length b - length rest);
  Ok (raw, content, rest).

Definition derAttribute (b : list Z) : res (list Z * list Z) :=
  '(setTag, set, rest) ← derElement b;
  if negb (setTag =? 49) || (0 <? length rest)%nat then Err "ike: identity RDN is not a single SET"
  else
    '(seqTag, seq, rest) ← derElement set;
    if negb (seqTag =? 48) || (0 <? length rest)%nat then Err "ike: identity RDN does not hold exactly one attribute"
    else
      '(oid, _, seq) ← derElementRaw seq;
      '(valueTag, content, rest) ← derElement seq;
      if (0 <? length rest)%nat then Err "ike: identity attribute has trailing data"
      else if (valueTag =? 12) || (valueTag =? 19) then Ok (oid, content)
      else Err "ike: identity attribute has string type".

(** The three targets, each with its value once seen. *)
Record targets := mkTargets { tOrg : option (list Z); tCN : option (list Z); tSerial : option (list Z) }.

Definition assign (t : targets) (oid value : list Z) : res targets :=
  if bool_decide (oid = oidOrganizationName) then
    match tOrg t with Some _ => Err "ike: identity repeats an attribute"
                    | None => Ok (mkTargets (Some value) (tCN t) (tSerial t)) end
  else if bool_decide (oid = oidCommonName) then
    match tCN t with Some _ => Err "ike: identity repeats an attribute"
                   | None => Ok (mkTargets (tOrg t) (Some value) (tSerial t)) end
  else if bool_decide (oid = oidSerialNumber) then
    match tSerial t with Some _ => Err "ike: identity repeats an attribute"
                       | None => Ok (mkTargets (tOrg t) (tCN t) (Some value)) end
  else Err "ike: identity carries an attribute type this profile does not use".

(** The loop over the RDNs; each turn consumes at least two bytes. *)
Fixpoint readRDNs (fuel : nat) (seq : list Z) (t : targets) (count : nat) : res (targets * nat) :=
  if (0 <? length seq)%nat then
    match fuel with
    | O => Panic
    | S fuel =>
        '(_, _, next) ← derElement seq;
        one ← slice seq 0 (length seq - length next);
        '(oid, value) ← derAttribute one;
        t ← assign t oid value;
        readRDNs fuel next t (S count)
    end
  else Ok (t, count).

Definition DecodeIdentityDN (b : list Z) : res (list Z * list Z * list Z) :=
  '(tag, seq, rest) ← derElement b;
  if negb (tag =? 48) || (0 <? length rest)%nat then Err "ike: identity is not a single RDNSequence"
  else
    '(t, count) ← readRDNs (length seq) seq (mkTargets None None None) 0;
    if negb (count =? 3)%nat then Err "ike: identity has the wrong number of attributes"
    else Ok (default [] (tOrg t), default [] (tCN t), default [] (tSerial t)).

(** ** Lengths *)

Lemma lenOctets_app fuel : ∀ n b, lenOctets fuel n b = lenOctets fuel n [] ++ b.
Proof.
  induction fuel as [|fuel IH]; intros n b; cbn [lenOctets]; [done|]. destruct (0 <? n); [|done].
  rewrite IH, (IH _ [_]). by rewrite <- app_assoc.
Qed.

Lemma lenOctets_step fuel n : 0 < n → lenOctets (S fuel) n [] = lenOctets fuel (n / 256) [] ++ [n mod 256].
Proof.
  intros Hn. cbn [lenOctets]. rewrite (proj2 (Z.ltb_lt 0 n)) by done. rewrite lenOctets_app, Z.shiftr_div_pow2 by lia.
  change (2 ^ 8) with 256. f_equal. f_equal. apply (Z.land_ones n 8). lia.
Qed.

(** The octets are the big-endian digits, without a leading zero. *)
Lemma lenOctets_spec fuel : ∀ n, 0 ≤ n < 256 ^ Z.of_nat fuel →
  be_of (lenOctets fuel n []) = n ∧ bytes_ok (lenOctets fuel n []) ∧
  (0 < n → ∃ x l, lenOctets fuel n [] = x :: l ∧ x ≠ 0) ∧
  (∀ k, (k ≤ fuel)%nat → n < 256 ^ Z.of_nat k → (length (lenOctets fuel n []) ≤ k)%nat).
Proof.
  induction fuel as [|fuel IH]; intros n Hn.
  { cbn in Hn. assert (n = 0) as -> by lia. cbn. split_and!; [done | constructor | lia | lia]. }
  rewrite Nat2Z.inj_succ, Z.pow_succ_r in Hn by lia.
  destruct (Z.eq_dec n 0) as [->|Hne]; [cbn; split_and!; [done | constructor | lia | lia]|].
  rewrite lenOctets_step by lia. destruct (IH (n / 256)) as (H1 & H2 & H3 & H4).
  { split; [apply Z.div_pos; lia | apply Z.div_lt_upper_bound; lia]. }
  split_and!.
  - rewrite be_of_app, H1. cbn. pose proof (Z.div_mod n 256). unfold be_of. cbn. lia.
  - apply bytes_ok_app. split; [done|]. repeat constructor; apply Z.mod_pos_bound; lia.
  - intros _. destruct (Z.eq_dec (n / 256) 0) as [E|E].
    + rewrite E. exists (n mod 256), []. split; [by destruct fuel|]. pose proof (Z.div_mod n 256). lia.
    + destruct H3 as (x & l & -> & Hx); [pose proof (Z.div_pos n 256); lia|]. exists x, (l ++ [n mod 256]). done.
  - intros [|k] Hk Hlt; [cbn in Hlt; lia|]. rewrite length_app. cbn [length].
    specialize (H4 k ltac:(lia)). rewrite Nat2Z.inj_succ, Z.pow_succ_r in Hlt by lia.
    pose proof (Z.div_lt_upper_bound n 256 (256 ^ Z.of_nat k)). lia.
Qed.

(** Digits without a leading zero are determined by their value. *)
Lemma digits_length x l : bytes_ok (x :: l) → x ≠ 0 →
  256 ^ Z.of_nat (length l) ≤ be_of (x :: l) < 256 ^ Z.of_nat (S (length l)).
Proof.
  intros Hok Hx. split; [|apply (be_of_bound (x :: l)); done].
  rewrite be_of_cons. apply Forall_cons in Hok as [Hb Hok]. pose proof (be_of_bound l Hok). unfold byte_ok in Hb. nia.
Qed.

Lemma digits_unique l1 l2 : bytes_ok l1 → bytes_ok l2 → head l1 ≠ Some 0 → head l2 ≠ Some 0 → l1 ≠ [] → l2 ≠ [] →
  be_of l1 = be_of l2 → l1 = l2.
Proof.
  destruct l1 as [|x1 l1], l2 as [|x2 l2]; try done. intros H1 H2 Hx1 Hx2 _ _ E.
  pose proof (digits_length x1 l1 H1 ltac:(cbn in Hx1; congruence)) as D1.
  pose proof (digits_length x2 l2 H2 ltac:(cbn in Hx2; congruence)) as D2. rewrite <- E in D2.
  assert (length l1 = length l2) as El.
  { assert (Z.of_nat (length l1) < Z.of_nat (S (length l2))) by (apply (Z.pow_lt_mono_r_iff 256); lia).
    assert (Z.of_nat (length l2) < Z.of_nat (S (length l1))) by (apply (Z.pow_lt_mono_r_iff 256); lia). lia. }
  rewrite <- (be_to_be_of _ H1), <- (be_to_be_of _ H2), E. cbn [length]. by rewrite El.
Qed.

Lemma byte_cases (P : Z → bool) : forallb (λ n, P (Z.of_nat n)) (seq 0 256) = true → ∀ x, byte_ok x → P x = true.
Proof.
  intros H x Hx. rewrite forallb_forall in H. unfold byte_ok in Hx. rewrite <- (Z2Nat.id x) by lia.
  apply H, in_seq. lia.
Qed.

Lemma byte_flag x : byte_ok x → (Z.land x 128 =? 0) = (x <? 128) ∧ (128 ≤ x → Z.land x 127 = x - 128).
Proof.
  intros Hx.
  pose proof (byte_cases (λ x, eqb (Z.land x 128 =? 0) (x <? 128)) ltac:(vm_compute; done) x Hx) as H1.
  pose proof (byte_cases (λ x, (x <? 128) || (Z.land x 127 =? x - 128)) ltac:(vm_compute; done) x Hx) as H2.
  split; [by apply eqb_prop|]. intros Hl. apply orb_true_iff in H2 as [H2|H2]; bool_props; lia.
Qed.

Lemma lenValue_be_of l : bytes_ok l → (length l ≤ 4)%nat → lenValue l = be_of l.
Proof.
  intros Hok Hl. unfold lenValue, be_of.
  enough (∀ l v, bytes_ok l → (length l ≤ 7)%nat → 0 ≤ v < 256 ^ Z.of_nat (7 - length l) →
    fold_left (λ v o, Z.lor (u64 (Z.shiftl v 8)) o) l v = fold_left (λ acc b, acc * 256 + b) l v) as He.
  { apply He; [done | lia |]. split; [lia|]. apply Z.pow_pos_nonneg; lia. }
  clear. induction l as [|x l IH]; intros v Hok Hl Hv; [done|]. cbn [fold_left].
  apply Forall_cons in Hok as [Hx Hok]. cbn [length] in *. unfold byte_ok in Hx.
  assert (256 ^ Z.of_nat (7 - length l) = 256 * 256 ^ Z.of_nat (7 - S (length l))) as Ep.
  { rewrite <- Z.pow_succ_r by lia. f_equal. lia. }
  assert (256 ^ Z.of_nat (7 - S (length l)) ≤ 256 ^ 6) as Hb by (apply Z.pow_le_mono_r; lia).
  assert (Z.lor (u64 (Z.shiftl v 8)) x = v * 256 + x) as ->.
  { rewrite Z.shiftl_mul_pow2 by lia. rewrite u64_id by (change (256 ^ 6) with (2 ^ 48) in Hb; lia).
    change (2 ^ 8) with 256. rewrite <- Z.lxor_lor, <- Z.add_nocarry_lxor; [done|..];
      apply (Z.bits_inj_0 (Z.land (v * 256) x)); intros i; rewrite Z.land_spec;
      (destruct (Z.ltb_spec i 8);
       [replace (v * 256) with (Z.shiftl v 8) by (rewrite Z.shiftl_mul_pow2; lia); rewrite Z.shiftl_spec_low by lia; done |
        rewrite (Z.bits_above_log2 x i); [by rewrite andb_false_r | lia |
          destruct (Z.eq_dec x 0) as [->|]; [cbn; lia|]; apply Z.log2_lt_pow2; [lia|];
          apply Z.lt_le_trans with (2 ^ 8); [lia | apply Z.pow_le_mono_r; lia]]]). }
  apply IH; [done | lia | lia].
Qed.

(** ** Elements *)

(** A length as [derLen] writes it is read back as the code reads it. *)
Lemma derLen_long n : 128 ≤ n < 2 ^ 32 → ∃ x l, derLen n = (128 + Z.of_nat (length (x :: l))) :: x :: l ∧
  x ≠ 0 ∧ bytes_ok (x :: l) ∧ (length (x :: l) ≤ 4)%nat ∧ be_of (x :: l) = n.
Proof.
  intros Hn. destruct (lenOctets_spec 8 n) as (H1 & H2 & H3 & H4); [cbn; lia|].
  destruct H3 as (x & l & E & Hx); [lia|]. specialize (H4 4%nat ltac:(lia) ltac:(cbn; lia)).
  exists x, l. unfold derLen. rewrite (proj2 (Z.ltb_ge n 128)) by lia. cbv zeta. rewrite E in *. split_and!; try done.
  f_equal. set (k := length (x :: l)) in *. assert (k = 1 ∨ k = 2 ∨ k = 3 ∨ k = 4)%nat as Hk by (unfold k in *; cbn [length] in *; lia).
  clearbody k. destruct Hk as [-> |[-> |[-> | ->]]]; reflexivity.
Qed.

Lemma derElement_tlv tag content rest : Z.of_nat (length content) < 2 ^ 32 →
  derElement (derTLV tag content ++ rest) = Ok (tag, content, rest).
Proof.
  intros Hl. unfold derTLV. rewrite <- !app_assoc. set (n := Z.of_nat (length content)) in *.
  assert (slice (content ++ rest) 0 (Z.to_nat n) = Ok content) as Hs.
  { pose proof (slice_app_exact [] content rest 0 (length content) eq_refl eq_refl) as H. unfold n. by rewrite Nat2Z.id. }
  assert (from (content ++ rest) (Z.to_nat n) = Ok rest) as Hf.
  { unfold n. rewrite Nat2Z.id, from_ok by (rewrite length_app; lia). by rewrite drop_app_length. }
  assert ((Z.of_nat (length (content ++ rest)) <? n) = false) as Hb by (apply Z.ltb_ge; rewrite length_app; unfold n; lia).
  destruct (Z.ltb_spec n 128) as [Hsm|Hlg].
  - assert (derLen n = [n]) as -> by (unfold derLen; by rewrite (proj2 (Z.ltb_lt n 128))).
    unfold derElement. cbn [app]. rewrite (proj2 (Nat.ltb_ge _ 2)) by (cbn [length]; lia).
    change (idx (tag :: n :: content ++ rest) 0) with (Ok tag). rbind.
    rewrite (from_ok (tag :: n :: content ++ rest)) by (cbn; lia). rbind. cbn [drop]; rewrite ?drop_0.
    change (idx (n :: content ++ rest) 0) with (Ok n). rbind.
    rewrite (from_ok (n :: content ++ rest)) by (cbn; lia). rbind. cbn [drop]; rewrite ?drop_0.
    destruct (byte_flag n) as [-> _]; [unfold byte_ok, n in *; lia|]. rewrite (proj2 (Z.ltb_lt n 128)) by done. cbn [negb]. rbind.
    rewrite Hb, Hs. rbind. by rewrite Hf.
  - destruct (derLen_long n ltac:(lia)) as (x & l & -> & Hx & Hok & H4 & Hv). set (k := length (x :: l)) in *.
    unfold derElement. cbn [app]. rewrite (proj2 (Nat.ltb_ge _ 2)) by (cbn [length]; lia).
    set (l0 := 128 + Z.of_nat k). set (tl := x :: l ++ content ++ rest).
    change (idx (tag :: l0 :: tl) 0) with (Ok tag). rbind.
    rewrite (from_ok (tag :: l0 :: tl)) by (cbn; lia). rbind. cbn [drop]; rewrite ?drop_0.
    change (idx (l0 :: tl) 0) with (Ok l0). rbind. rewrite (from_ok (l0 :: tl)) by (cbn; lia). rbind. cbn [drop]; rewrite ?drop_0.
    assert (byte_ok l0) as Hl0 by (unfold byte_ok, l0; lia).
    destruct (byte_flag l0 Hl0) as [-> Hl7]. rewrite (proj2 (Z.ltb_ge l0 128)) by (unfold l0; lia). cbn [negb].
    rewrite Hl7 by (unfold l0; lia). replace (Z.to_nat (l0 - 128)) with k by (unfold l0; lia).
    assert (1 ≤ k)%nat as Hk1 by (unfold k; cbn; lia).
    assert (tl = (x :: l) ++ content ++ rest) as Etl by done.
    assert ((k =? 0)%nat || (4 <? k)%nat || (length tl <? k)%nat = false) as ->.
    { rewrite Etl, length_app. fold k. rewrite !orb_false_iff, Nat.eqb_neq, !Nat.ltb_ge. lia. }
    change (idx tl 0) with (Ok x). rbind. rewrite (proj2 (Z.eqb_neq x 0)) by done.
    assert (slice tl 0 k = Ok (x :: l)) as -> by (rewrite Etl; exact (slice_app_exact [] (x :: l) (content ++ rest) 0 k eq_refl eq_refl)).
    rbind. rewrite (from_ok tl) by (rewrite Etl, length_app; fold k; lia). rbind.
    assert (drop k tl = content ++ rest) as -> by (rewrite Etl; apply drop_app_length).
    rewrite lenValue_be_of, Hv by done. rewrite (proj2 (Z.ltb_ge n 128)) by done. rewrite Hb. rbind.
    rewrite Hb, Hs. rbind. by rewrite Hf.
Qed.

(** Only that spelling is accepted. *)
Lemma derElement_inv b tag content rest : bytes_ok b → derElement b = Ok (tag, content, rest) →
  b = derTLV tag content ++ rest ∧ Z.of_nat (length content) < 2 ^ 32.
Proof.
  intros Hok. unfold derElement. destruct (Nat.ltb_spec (length b) 2); [done|].
  destruct b as [|t [|l0 b]]; [cbn in *; lia..|]. change (idx (t :: l0 :: b) 0) with (Ok t). rbind.
  rewrite (from_ok (t :: l0 :: b)) by (cbn; lia). rbind. cbn [drop]; rewrite ?drop_0. change (idx (l0 :: b) 0) with (Ok l0). rbind.
  rewrite (from_ok (l0 :: b)) by (cbn; lia). rbind. cbn [drop]; rewrite ?drop_0.
  apply Forall_cons in Hok as [_ Hok]. apply Forall_cons in Hok as [Hl0 Hok]. destruct (byte_flag l0 Hl0) as [-> Hl7].
  intros Hd. apply bind_ok_inv in Hd as ([len b2] & Hlen & Hd).
  destruct (Z.ltb_spec (Z.of_nat (length b2)) len) as [|Hb2]; [done|].
  apply bind_ok_inv in Hd as (c & Hc & Hd). apply bind_ok_inv in Hd as (r & Hr & [= <- <- <-]).
  apply slice_inv in Hc as (Hc1 & Hc2 & ->). rewrite from_ok in Hr by done. injection Hr as <-.
  rewrite Nat.sub_0_r. cbn [drop]; rewrite ?drop_0.
  enough (0 ≤ len ∧ len < 2 ^ 32 ∧ l0 :: b = derLen len ++ b2) as (H0 & H1 & H2).
  { assert (length (take (Z.to_nat len) b2) = Z.to_nat len) as Ht by (rewrite length_take; lia).
    split; [|rewrite Ht; lia]. unfold derTLV. rewrite Ht, Z2Nat.id, <- !app_assoc by lia. rewrite take_drop.
    cbn [app]. by rewrite H2. }
  destruct (Z.ltb_spec l0 128) as [Hs|Hg]; cbn [negb] in Hlen.
  - injection Hlen as <- <-. unfold byte_ok in Hl0. split_and!; [lia | lia |]. unfold derLen. by rewrite (proj2 (Z.ltb_lt l0 128)).
  - rewrite Hl7 in Hlen by done. set (k := Z.to_nat (l0 - 128)) in *.
    destruct (_ || _) eqn:Ek; [done|]. apply orb_false_iff in Ek as [Ek Ek3]. apply orb_false_iff in Ek as [Ek1 Ek2].
    apply Nat.eqb_neq in Ek1. apply Nat.ltb_ge in Ek2, Ek3.
    apply bind_ok_inv in Hlen as (b0 & Hb0 & Hlen). destruct (Z.eqb_spec b0 0) as [|Hne]; [done|].
    apply bind_ok_inv in Hlen as (oc & Hoc & Hlen). apply slice_inv in Hoc as (_ & _ & ->).
    rewrite Nat.sub_0_r in Hlen. cbn [drop] in Hlen; rewrite ?drop_0 in Hlen. rewrite from_ok in Hlen by done. cbn [mbind res_bind] in Hlen.
    rewrite lenValue_be_of in Hlen by (try apply Forall_take; try done; rewrite length_take; lia).
    set (oc := take k b) in *. assert (length oc = k) as Hoc by (unfold oc; rewrite length_take; lia).
    destruct (Z.ltb_spec (be_of oc) 128) as [|Hv]; [done|]. destruct (_ <? be_of oc); [done|]. injection Hlen as <- <-.
    assert (bytes_ok oc) as Hoo by (by apply Forall_take).
    pose proof (be_of_bound oc Hoo) as Hbd. rewrite Hoc in Hbd.
    assert (256 ^ Z.of_nat k ≤ 2 ^ 32) by (change (2 ^ 32) with (256 ^ 4); apply Z.pow_le_mono_r; lia).
    split_and!; [lia | lia |]. destruct (derLen_long (be_of oc) ltac:(lia)) as (x & l & -> & Hx & Hxl & _ & Hbe).
    assert (oc = x :: l) as Eo.
    { apply digits_unique; try done; [|cbn; congruence|intros ->; done].
      unfold oc. destruct b as [|y b']; [cbn in Ek3; lia|]. destruct k as [|k']; [done|]. cbn in Hb0 |- *. congruence. }
    rewrite <- Eo, Hoc. cbn [app]. f_equal; [unfold k, byte_ok in *; lia|]. unfold oc. by rewrite take_drop.
Qed.

(** ** Names *)

Lemma length_derTLV tag c : Z.of_nat (length c) < 2 ^ 32 →
  (length c + 2 ≤ length (derTLV tag c) ≤ length c + 6)%nat.
Proof.
  intros Hl. unfold derTLV. rewrite !length_app. cbn [length].
  destruct (Z.ltb_spec (Z.of_nat (length c)) 128) as [Hs|Hg].
  - unfold derLen. rewrite (proj2 (Z.ltb_lt _ 128)) by done. cbn. lia.
  - destruct (derLen_long (Z.of_nat (length c)) ltac:(lia)) as (x & l & -> & _ & _ & H4 & _). cbn [length] in *. lia.
Qed.

Lemma derElementRaw_tlv tag c rest : Z.of_nat (length c) < 2 ^ 32 →
  derElementRaw (derTLV tag c ++ rest) = Ok (derTLV tag c, c, rest).
Proof.
  intros Hl. unfold derElementRaw. rewrite derElement_tlv by done. rbind.
  replace (length (derTLV tag c ++ rest) - length rest)%nat with (length (derTLV tag c)) by (rewrite length_app; lia).
  pose proof (slice_app_exact [] (derTLV tag c) rest 0 (length (derTLV tag c)) eq_refl eq_refl) as Hs.
  rewrite app_nil_l in Hs. by rewrite Hs.
Qed.

(** One attribute, with its OID a DER element of its own. *)
Lemma derAttribute_rdn o tag v : (length o ≤ 100)%nat → tag = 12 ∨ tag = 19 → Z.of_nat (length v) < 2 ^ 31 →
  derAttribute (rdn (derTLV 6 o) (derTLV tag v)) = Ok (derTLV 6 o, v).
Proof.
  intros Ho Ht Hv. pose proof (length_derTLV 6 o ltac:(lia)). pose proof (length_derTLV tag v ltac:(lia)).
  unfold derAttribute, rdn, derSet, derSequence. cbn [concat]. rewrite !app_nil_r.
  set (inner := derTLV 6 o ++ derTLV tag v).
  assert (Z.of_nat (length inner) < 2 ^ 31 + 200) as Hi by (unfold inner; rewrite length_app; lia).
  pose proof (length_derTLV 48 inner ltac:(lia)).
  rewrite <- (app_nil_r (derTLV 49 _)), derElement_tlv by lia. rbind. cbn [length Nat.ltb Nat.leb]. change (49 =? 49) with true. cbn [negb orb].
  rewrite <- (app_nil_r (derTLV 48 _)), derElement_tlv by lia. rbind. change (48 =? 48) with true. cbn [negb orb length Nat.ltb Nat.leb].
  unfold inner. rewrite derElementRaw_tlv by lia. rbind.
  rewrite <- (app_nil_r (derTLV tag v)), derElement_tlv by lia. rbind. cbn [length Nat.ltb Nat.leb].
  by destruct Ht as [-> | ->].
Qed.

Lemma readRDNs_step fuel o tag v t t' count rest :
  (length o ≤ 100)%nat → tag = 12 ∨ tag = 19 → Z.of_nat (length v) < 2 ^ 31 →
  assign t (derTLV 6 o) v = Ok t' →
  readRDNs (S fuel) (rdn (derTLV 6 o) (derTLV tag v) ++ rest) t count = readRDNs fuel rest t' (S count).
Proof.
  intros Ho Ht Hv Ha. pose proof (length_derTLV 6 o ltac:(lia)). pose proof (length_derTLV tag v ltac:(lia)).
  pose proof (derAttribute_rdn o tag v Ho Ht Hv) as Hd. unfold rdn, derSet in *. set (inner := concat [_]) in *.
  assert (Z.of_nat (length inner) < 2 ^ 32) as Hi.
  { unfold inner, derSequence. cbn [concat]. rewrite !app_nil_r.
    pose proof (length_derTLV 48 (derTLV 6 o ++ derTLV tag v)) as Hx. rewrite length_app in Hx. lia. }
  pose proof (length_derTLV 49 inner Hi). cbn [readRDNs].
  destruct (Nat.ltb_spec 0 (length (derTLV 49 inner ++ rest))) as [_|Hz]; [|rewrite length_app in Hz; lia].
  rewrite derElement_tlv by done. rbind.
  replace (length (derTLV 49 inner ++ rest) - length rest)%nat with (length (derTLV 49 inner)) by (rewrite length_app; lia).
  pose proof (slice_app_exact [] (derTLV 49 inner) rest 0 (length (derTLV 49 inner)) eq_refl eq_refl) as Hs.
  rewrite app_nil_l in Hs. rewrite Hs. rbind. rewrite Hd. rbind. by rewrite Ha.
Qed.

Lemma DecodeIdentityDN_encode o c s : Z.of_nat (length o + length c + length s) < 2 ^ 31 →
  DecodeIdentityDN (EncodeIdentityDN o c s) = Ok (o, c, s).
Proof.
  intros Hl. unfold EncodeIdentityDN, DecodeIdentityDN, derSequence, derUTF8String, derPrintableString.
  set (body := concat _).
  assert (body = rdn oidOrganizationName (derTLV 12 o) ++ rdn oidCommonName (derTLV 12 c) ++ rdn oidSerialNumber (derTLV 19 s) ++ []) as Eb by done.
  assert (∀ oid tag v, length oid = 5%nat → Z.of_nat (length v) < 2 ^ 31 → (length (rdn oid (derTLV tag v)) ≤ length v + 30)%nat ∧
    (2 ≤ length (rdn oid (derTLV tag v)))%nat) as Hr.
  { intros oid tag v Ho Hv. unfold rdn, derSet, derSequence. cbn [concat]. rewrite !app_nil_r.
    pose proof (length_derTLV tag v ltac:(lia)). pose proof (length_derTLV 48 (oid ++ derTLV tag v) ltac:(rewrite length_app; lia)) as H48.
    rewrite length_app in H48. pose proof (length_derTLV 49 (derTLV 48 (oid ++ derTLV tag v)) ltac:(lia)). lia. }
  pose proof (Hr oidOrganizationName 12 o eq_refl ltac:(lia)). pose proof (Hr oidCommonName 12 c eq_refl ltac:(lia)).
  pose proof (Hr oidSerialNumber 19 s eq_refl ltac:(lia)).
  assert (6 ≤ length body ≤ length o + length c + length s + 90)%nat as Hbl by (rewrite Eb, !length_app; cbn [length]; lia).
  rewrite <- (app_nil_r (derTLV 48 body)), derElement_tlv by lia. rbind. change (48 =? 48) with true. cbn [negb orb length Nat.ltb Nat.leb].
  destruct (length body) as [|[|[|f]]] eqn:Ef; [lia..|]. rewrite Eb.
  change oidOrganizationName with (derTLV 6 [85; 4; 10]). change oidCommonName with (derTLV 6 [85; 4; 3]).
  change oidSerialNumber with (derTLV 6 [85; 4; 5]).
  erewrite readRDNs_step; [|cbn; lia|by left|lia|reflexivity].
  erewrite readRDNs_step; [|cbn; lia|by left|lia|reflexivity].
  erewrite readRDNs_step; [|cbn; lia|by right|lia|reflexivity].
  by destruct f.
Qed.

(** ** No bytes make the decoder panic *)

Lemma derElement_safe b : safe (derElement b) ∧ ∀ t c r, derElement b = Ok (t, c, r) → (length c + length r + 2 ≤ length b)%nat.
Proof.
  unfold derElement. destruct (Nat.ltb_spec (length b) 2); [done|].
  destruct b as [|t [|l0 b]]; [cbn in *; lia..|]. change (idx (t :: l0 :: b) 0) with (Ok t). rbind.
  rewrite (from_ok (t :: l0 :: b)) by (cbn; lia). rbind. cbn [drop]; rewrite ?drop_0. change (idx (l0 :: b) 0) with (Ok l0). rbind.
  rewrite (from_ok (l0 :: b)) by (cbn; lia). rbind. cbn [drop]; rewrite ?drop_0.
  match goal with |- context [?m ≫= _] => assert (safe m ∧ ∀ len b2, m = Ok (len, b2) → (length b2 ≤ length b)%nat) as [Hm Hm2] end.
  { destruct (negb _); [|split; [done|]; by intros ? ? [= <- <-]].
    destruct (_ || _) eqn:Ek; [done|]. apply orb_false_iff in Ek as [Ek Ek3]. apply orb_false_iff in Ek as [Ek1 Ek2].
    apply Nat.eqb_neq in Ek1. apply Nat.ltb_ge in Ek2, Ek3. set (k := Z.to_nat _) in *.
    destruct (idx b 0) as [b0| |] eqn:E0; [|done|by destruct (safe_idx b 0 ltac:(lia))]. rbind. destruct (b0 =? 0); [done|].
    rewrite slice_ok by lia. rbind. rewrite from_ok by lia. rbind.
    destruct (_ <? 128); [done|]. destruct (_ <? _); [done|]. split; [done|]. intros ? ? [= <- <-]. rewrite length_drop. lia. }
  match goal with |- context [?m ≫= _] => destruct m as [[len b2]| |] eqn:E end; rbind; [|done|by destruct Hm].
  specialize (Hm2 len b2 eq_refl). destruct (Z.ltb_spec (Z.of_nat (length b2)) len); [done|].
  rewrite slice_ok by lia. rbind. rewrite from_ok by lia. rbind. split; [done|].
  intros t' c r [= <- <- <-]. rewrite length_take, !length_drop. cbn [length]. lia.
Qed.

Ltac step_element :=
  match goal with |- context [derElement ?b] =>
    let H1 := fresh "Hsafe" in let H2 := fresh "Hlen" in let t := fresh "t" in let c := fresh "c" in let r := fresh "r" in
    destruct (derElement_safe b) as [H1 H2]; destruct (derElement b) as [[[t c] r]| |] eqn:?;
    rbind; [specialize (H2 t c r eq_refl) | done | by destruct H1] end.

Lemma derAttribute_safe b : safe (derAttribute b).
Proof.
  unfold derAttribute, derElementRaw. step_element. destruct (_ || _); [done|]. step_element. destruct (_ || _); [done|].
  step_element. rewrite slice_ok by lia. rbind. step_element. destruct (0 <? _)%nat; [done|]. by destruct (_ || _).
Qed.

Lemma readRDNs_safe fuel : ∀ seq t count, (length seq ≤ fuel)%nat → safe (readRDNs fuel seq t count).
Proof.
  induction fuel as [|fuel IH]; intros seq t count Hf; cbn [readRDNs]; destruct (Nat.ltb_spec 0 (length seq)); try done; [lia|].
  step_element. rewrite slice_ok by lia. rbind. apply safe_bind; [apply derAttribute_safe|]. intros [oid v] _.
  apply safe_bind; [|intros; apply IH; lia]. unfold assign. repeat case_bool_decide; [destruct (tOrg t) | destruct (tCN t) | destruct (tSerial t) |]; done.
Qed.

(** peer identities have one spelling per element and survive the wire. The
    DER reader accepts an element exactly when it is the shortest encoding the
    writer produces for that tag and content, so two byte strings never decode to
    the same element; a distinguished name decodes to the organization, common
    name and serial number it was built from; and no bytes make the reader panic. *)
Theorem identity_canonical b tag content rest :
  bytes_ok b →
  (derElement b = Ok (tag, content, rest) ↔
     b = derTLV tag content ++ rest ∧ Z.of_nat (length content) < 2 ^ 32) ∧
  safe (DecodeIdentityDN b) ∧
  ∀ o c s, Z.of_nat (length o + length c + length s) < 2 ^ 31 →
    DecodeIdentityDN (EncodeIdentityDN o c s) = Ok (o, c, s).
Proof.
  intros Hb. split_and!.
  - split; [by apply derElement_inv|]. intros [-> Hl]. by apply derElement_tlv.
  - unfold DecodeIdentityDN. step_element. destruct (_ || _); [done|].
    apply safe_bind; [by apply readRDNs_safe|]. intros [t' n] _. by destruct (negb _).
  - intros. by apply DecodeIdentityDN_encode.
Qed.

Lemma identity_canonical_witness :
  derElement [12; 2; 104; 105; 7] = Ok (12, [104; 105], [7]) ∧
  DecodeIdentityDN (EncodeIdentityDN [97] [98; 99] [49]) = Ok ([97], [98; 99], [49]).
Proof.
  assert (bytes_ok [12; 2; 104; 105; 7]) as Hb by (repeat constructor; lia).
  destruct (identity_canonical [12; 2; 104; 105; 7] 12 [104; 105] [7] Hb) as (H1 & _ & H3). split.
  - apply H1. split; [vm_compute; reflexivity | cbn; lia].
  - apply H3. cbn. lia.
Defined.
