(* ===== verification/IkeSk.v ===== *)
(** * The encrypted payload and the key schedule: ike/sk.go and ike/crypto.go

    The SK payload over an AEAD and the keys that feed it. The AEAD constructions
    are the parameters of [Esp]; the keyed hash behind the PRF is a parameter too,
    with the output length its documentation promises. Elliptic curves and the
    random source are not modelled. *)

From S2P Require Import Prelude Esp IkeMessage.

(** ** const.go and crypto.go *)

Definition ENCR_AES_GCM_16 : Z := 20.
Definition ENCR_CHACHA20_POLY1305 : Z := 28.
Definition PRF_HMAC_SHA2_256 : Z := 5.
Definition PRF_HMAC_SHA2_384 : Z := 6.

Definition PRFOutputLen (prfID : Z) : nat :=
  if prfID =? PRF_HMAC_SHA2_256 then 32%nat else if prfID =? PRF_HMAC_SHA2_384 then 48%nat else O.

(** HMAC over the hash a PRF names. *)
Class Hmac := { hmac : Z → list Z → list Z → list Z }.
Class HmacLaws (H : Hmac) : Prop := {
  hmac_length prfID key data : PRFOutputLen prfID ≠ O → length (hmac prfID key data) = PRFOutputLen prfID
}.

Section keys.
Context {H : Hmac}.

(** An unknown PRF panics. *)
Definition prf (prfID : Z) (key data : list Z) : res (list Z) :=
  if (prfID =? PRF_HMAC_SHA2_256) || (prfID =? PRF_HMAC_SHA2_384) then Ok (hmac prfID key data) else Panic.

(** [for counter := byte(1); len(out) < length; counter++] *)
Fixpoint prfLoop (fuel : nat) (prfID : Z) (key seed out t : list Z) (counter : Z) (len : nat) : res (list Z) :=
  if (length out <? len)%nat then
    match fuel with
    | O => Panic
    | S fuel =>
        t ← prf prfID key (t ++ seed ++ [counter]);
        prfLoop fuel prfID key seed (out ++ t) t (u8 (counter + 1)) len
    end
  else Ok out.

Definition prfPlus (prfID : Z) (key seed : list Z) (len : nat) : res (list Z) :=
  out ← prfLoop len prfID key seed [] [] 1 len;
  slice out 0 len.

Record AEADParams := mkAEADParams { KeyLen : nat; SaltLen : nat; IVLen : nat; ICVLen : nat }.

Definition aeadParams (encrID keyLenBits : Z) : res AEADParams :=
  if encrID =? ENCR_AES_GCM_16 then
    let kl := keyLenBits / 8 in
    if negb (kl =? 16) && negb (kl =? 24) && negb (kl =? 32) then Err "ike: invalid AES-GCM key length"
    else Ok (mkAEADParams (Z.to_nat kl) 4 8 16)
  else if encrID =? ENCR_CHACHA20_POLY1305 then
    if negb (keyLenBits =? 0) && negb (keyLenBits =? 256) then Err "ike: invalid ChaCha20-Poly1305 key length"
    else Ok (mkAEADParams 32 4 8 16)
  else Err "ike: unsupported encryption transform".

Record SASuite := mkSuite { suEncrID : Z; suEncrKeyBits : Z; suPRFID : Z; suDHGroup : Z }.

Record IKEKeys := mkKeys { Suite : SASuite; SKd : list Z; SKei : list Z; SKer : list Z; SKpi : list Z; SKpr : list Z }.

Definition deriveIKEKeys (suite : SASuite) (skeyseed ni nr : list Z) (spiI spiR : Z) : res IKEKeys :=
  ap ← aeadParams (suEncrID suite) (suEncrKeyBits suite);
  let prfLen := PRFOutputLen (suPRFID suite) in
  if (prfLen =? 0)%nat then Err "ike: unsupported PRF"
  else
    let seed := ni ++ nr ++ be_to 8 spiI ++ be_to 8 spiR in
    let skLen := (KeyLen ap + SaltLen ap)%nat in
    let total := (prfLen + 2 * skLen + 2 * prfLen)%nat in
    stream ← prfPlus (suPRFID suite) skeyseed seed total;
    d ← slice stream 0 prfLen;
    ei ← slice stream prfLen (prfLen + skLen);
    er ← slice stream (prfLen + skLen) (prfLen + 2 * skLen);
    pi ← slice stream (prfLen + 2 * skLen) (prfLen + 2 * skLen + prfLen);
    pr ← slice stream (prfLen + 2 * skLen + prfLen) (prfLen + 2 * skLen + 2 * prfLen);
    Ok (mkKeys suite d ei er pi pr).

Definition DeriveIKEKeys (suite : SASuite) (sharedSecret ni nr : list Z) (spiI spiR : Z) : res IKEKeys :=
  skeyseed ← prf (suPRFID suite) (ni ++ nr) sharedSecret;
  deriveIKEKeys suite skeyseed ni nr spiI spiR.

Definition DeriveRekeyedIKEKeys (oldPRFID : Z) (oldSKd : list Z) (suite : SASuite) (sharedSecret ni nr : list Z)
    (spiI spiR : Z) : res IKEKeys :=
  if (PRFOutputLen oldPRFID =? 0)%nat then Err "ike: unsupported previous PRF"
  else
    skeyseed ← prf oldPRFID oldSKd (sharedSecret ++ ni ++ nr);
    deriveIKEKeys suite skeyseed ni nr spiI spiR.

Definition childSAKeymat (prfID : Z) (skD sharedSecret ni nr : list Z) (encrID encrKeyBits : Z) : res (list Z * list Z) :=
  ap ← aeadParams encrID encrKeyBits;
  let each := (KeyLen ap + SaltLen ap)%nat in
  stream ← prfPlus prfID skD (sharedSecret ++ ni ++ nr) (2 * each);
  a ← slice stream 0 each;
  b ← from stream each;
  Ok (a, b).

Definition ChildSAKeymat (prfID : Z) (skD ni nr : list Z) (encrID encrKeyBits : Z) : res (list Z * list Z) :=
  childSAKeymat prfID skD [] ni nr encrID encrKeyBits.
End keys.

(** ** sk.go *)

Section sk.
Context {C : Crypto}.

Definition newAEAD (encrID : Z) (key : list Z) : res AEAD :=
  if encrID =? ENCR_AES_GCM_16 then NewAESGCM key
  else if encrID =? ENCR_CHACHA20_POLY1305 then NewChaCha20Poly1305 key
  else Err "ike: unsupported encryption transform".

Definition encryptMessagePlaintextIV (suite : SASuite) (key : list Z) (hdr : Header) (cleartext : list RawPayload)
    (innerFirst : Z) (plain iv : list Z) : res (list Z) :=
  ap ← aeadParams (suEncrID suite) (suEncrKeyBits suite);
  if negb (length key =? KeyLen ap + SaltLen ap)%nat then Err "ike: key length does not match suite"
  else
    encKey ← slice key 0 (KeyLen ap);
    aead ← newAEAD (suEncrID suite) encKey;
    salt ← from key (KeyLen ap);
    if negb (length iv =? IVLen ap)%nat then Err "ike: IV length does not match suite"
    else
      let nonce := salt ++ iv in
      let cleartextBytes := encodePayloadChain cleartext in
      let ciphertextLen := (length plain + ICVLen ap)%nat in
      let skHdr := [innerFirst; 0] ++ be_to 2 (u16 (Z.of_nat (genericPayloadHeaderLen + IVLen ap + ciphertextLen))) in
      let firstOuter := match cleartext with [] => PayloadSK | p :: _ => Type_ p end in
      let h := mkHeader (SPIInitiator hdr) (SPIResponder hdr) firstOuter (MajorVersion hdr) (MinorVersion hdr)
                 (ExchangeType hdr) (Flags hdr) (MessageID hdr)
                 (u32 (Z.of_nat (HeaderLen + length cleartextBytes + length skHdr + IVLen ap + ciphertextLen))) in
      let headerBytes := encodeHeader h in
      let aad := headerBytes ++ cleartextBytes ++ skHdr in
      ciphertext ← aeadSeal aead nonce plain aad;
      Ok (headerBytes ++ cleartextBytes ++ skHdr ++ iv ++ ciphertext).

Definition encryptMessageIV (suite : SASuite) (key : list Z) (hdr : Header) (cleartext inner : list RawPayload)
    (iv : list Z) : res (list Z) :=
  encryptMessagePlaintextIV suite key hdr cleartext (firstType inner) (encodePayloadChain inner ++ [0]) iv.

(** [ikeContext.encrypt]: the counter of the context, and the message. *)
Definition encrypt (suite : SASuite) (sendIV : Z) (key : list Z) (hdr : Header) (cleartext inner : list RawPayload)
    : Z * res (list Z) :=
  let value := u64 (sendIV + 1) in
  (value, if value =? 0 then Err "ike: AEAD IV space exhausted"
          else encryptMessageIV suite key hdr cleartext inner (be_to 8 value)).

(** The type of the first inner payload, and the plaintext once it is authentic. *)
Definition decryptMessagePlaintext (suite : SASuite) (key raw : list Z) (m : Message) : res (Z * list Z) :=
  match find m PayloadSK with
  | None => Err "ike: message has no SK payload"
  | Some sk =>
      ap ← aeadParams (suEncrID suite) (suEncrKeyBits suite);
      if negb (length key =? KeyLen ap + SaltLen ap)%nat then Err "ike: key length does not match suite"
      else if (length (Body sk) <? IVLen ap + ICVLen ap)%nat then Err "ike: SK payload too short"
      else
        encKey ← slice key 0 (KeyLen ap);
        aead ← newAEAD (suEncrID suite) encKey;
        salt ← from key (KeyLen ap);
        iv ← slice (Body sk) 0 (IVLen ap);
        ciphertext ← from (Body sk) (IVLen ap);
        aad ← slice raw 0 (skHeaderOffset m + genericPayloadHeaderLen);
        plain ← aeadOpen aead (salt ++ iv) ciphertext aad;
        skGenericHeader ← slice raw (skHeaderOffset m) (skHeaderOffset m + genericPayloadHeaderLen);
        first ← idx skGenericHeader 0;
        Ok (first, plain)
  end.

Definition decodeMessagePlaintext (innerFirst : Z) (plain : list Z) : res (list RawPayload) :=
  if (length plain =? 0)%nat then Err "ike: empty SK plaintext"
  else
    pad ← idx plain (length plain - 1);
    let padLen := Z.to_nat pad in
    if (length plain <? padLen + 1)%nat then Err "ike: invalid SK padding"
    else
      inner ← slice plain 0 (length plain - 1 - padLen);
      decodePayloadChain innerFirst inner.

Definition DecryptMessage (suite : SASuite) (key raw : list Z) (m : Message) : res (list RawPayload) :=
  '(innerFirst, plain) ← decryptMessagePlaintext suite key raw m;
  decodeMessagePlaintext innerFirst plain.
End sk.

(** ** Parameters of a suite *)

Lemma aeadParams_inv id bits ap : aeadParams id bits = Ok ap →
  (KeyLen ap = 16 ∨ KeyLen ap = 24 ∨ KeyLen ap = 32)%nat ∧ SaltLen ap = 4%nat ∧ IVLen ap = 8%nat ∧ ICVLen ap = 16%nat ∧
  (id = ENCR_AES_GCM_16 ∨ id = ENCR_CHACHA20_POLY1305 ∧ KeyLen ap = 32%nat).
Proof.
  unfold aeadParams. destruct (Z.eqb_spec id ENCR_AES_GCM_16) as [->|].
  - destruct (Z.eqb_spec (bits / 8) 16) as [->|]; [|destruct (Z.eqb_spec (bits / 8) 24) as [->|]; [|destruct (Z.eqb_spec (bits / 8) 32) as [->|]]];
      cbn [negb andb]; try done; intros [= <-]; cbn; split_and!; auto; lia.
  - destruct (Z.eqb_spec id ENCR_CHACHA20_POLY1305) as [->|]; [|done]. destruct (_ && _); [done|]. intros [= <-]. cbn.
    split_and!; auto; lia.
Qed.

Section proofs.
Context {C : Crypto} {CL : CryptoLaws C}.

Lemma newAEAD_ok id bits ap key : aeadParams id bits = Ok ap → length key = KeyLen ap →
  ∃ a, newAEAD id key = Ok a ∧ aead_ok a.
Proof.
  intros (Hk & _ & _ & _ & Hid)%aeadParams_inv Hl. unfold newAEAD. destruct Hid as [-> |[-> H32]].
  - rewrite Z.eqb_refl. apply aesgcm_ok. lia.
  - change (ENCR_CHACHA20_POLY1305 =? ENCR_AES_GCM_16) with false. rewrite Z.eqb_refl. apply chacha_ok. lia.
Qed.

(** The header of an encrypted message. *)
Definition skHeader (hdr : Header) (first len : Z) : Header :=
  mkHeader (SPIInitiator hdr) (SPIResponder hdr) first (MajorVersion hdr) (MinorVersion hdr) (ExchangeType hdr) (Flags hdr)
    (MessageID hdr) len.

(** What encryption produces, as one equation. *)
Lemma encrypt_eq suite ap key hdr cleartext inner iv :
  aeadParams (suEncrID suite) (suEncrKeyBits suite) = Ok ap → length key = (KeyLen ap + SaltLen ap)%nat → length iv = 8%nat →
  Z.of_nat (length (encodePayloadChain inner)) < 2 ^ 16 - 29 →
  Z.of_nat (HeaderLen + length (encodePayloadChain cleartext)) < 2 ^ 31 →
  ∃ a ct, newAEAD (suEncrID suite) (take (KeyLen ap) key) = Ok a ∧ aead_ok a ∧
    length ct = (length (encodePayloadChain inner) + 17)%nat ∧
    let pre := encodeHeader (skHeader hdr (match cleartext with [] => PayloadSK | p :: _ => Type_ p end)
                 (Z.of_nat (HeaderLen + length (encodePayloadChain cleartext) + 4 + 8 + length ct)))
               ++ encodePayloadChain cleartext
               ++ ([firstType inner; 0] ++ be_to 2 (u16 (Z.of_nat (genericPayloadHeaderLen + length (iv ++ ct))))) in
    encryptMessageIV suite key hdr cleartext inner iv = Ok (pre ++ iv ++ ct) ∧
    aeadOpen a (drop (KeyLen ap) key ++ iv) ct pre = Ok (encodePayloadChain inner ++ [0]).
Proof.
  intros Hap Hk Hiv Hin Hcl. destruct (aeadParams_inv _ _ _ Hap) as (Hkl & Hsl & Hivl & Hicv & _).
  destruct (newAEAD_ok _ _ _ (take (KeyLen ap) key) Hap) as (a & Ha & Haok); [rewrite length_take; lia|].
  set (plain := encodePayloadChain inner ++ [0]).
  assert (length plain = length (encodePayloadChain inner) + 1)%nat as Hpl by (unfold plain; rewrite length_app; done).
  set (ctl := (length plain + 16)%nat).
  set (pre := encodeHeader (skHeader hdr (match cleartext with [] => PayloadSK | p :: _ => Type_ p end)
                 (Z.of_nat (HeaderLen + length (encodePayloadChain cleartext) + 4 + 8 + ctl)))
               ++ encodePayloadChain cleartext
               ++ ([firstType inner; 0] ++ be_to 2 (u16 (Z.of_nat (genericPayloadHeaderLen + 8 + ctl))))).
  assert (length (drop (KeyLen ap) key ++ iv) = 12%nat) as Hno by (rewrite length_app, length_drop; lia).
  destruct (seal_total a Haok (drop (KeyLen ap) key ++ iv) plain pre Hno) as (ct & Hct & Hctl & Hop); [lia|].
  exists a, ct. split_and!; [done | done | lia |]. cbv zeta. rewrite length_app, Hiv, Hctl.
  replace (genericPayloadHeaderLen + (8 + (length plain + 16)))%nat with (genericPayloadHeaderLen + 8 + ctl)%nat by (unfold ctl; lia).
  fold ctl. fold pre. split; [|done].
  unfold encryptMessageIV, encryptMessagePlaintextIV. fold plain. rewrite Hap. rbind.
  rewrite Hk, Nat.eqb_refl. cbn [negb]. rewrite slice_ok by lia. rbind. rewrite Nat.sub_0_r. cbn [drop]; rewrite ?drop_0. rewrite Ha. rbind.
  rewrite from_ok by lia. rbind. rewrite Hivl, Hiv, Nat.eqb_refl. cbn [negb]. rewrite Hicv. fold ctl.
  assert (length ([firstType inner; 0] ++ be_to 2 (u16 (Z.of_nat (genericPayloadHeaderLen + 8 + ctl)))) = 4%nat) as -> by done.
  rewrite u32_id by (unfold ctl; lia). fold (skHeader hdr (match cleartext with [] => PayloadSK | p :: _ => Type_ p end)
    (Z.of_nat (HeaderLen + length (encodePayloadChain cleartext) + 4 + 8 + ctl))).
  fold pre. rewrite Hct. rbind. f_equal. unfold pre. by rewrite <- !app_assoc.
Qed.

Lemma decodeMessagePlaintext_encode inner : Forall payload_ok inner →
  decodeMessagePlaintext (firstType inner) (encodePayloadChain inner ++ [0]) = Ok inner.
Proof.
  intros Hok. unfold decodeMessagePlaintext. rewrite length_app. cbn [length].
  destruct (Nat.eqb_spec (length (encodePayloadChain inner) + 1) 0); [lia|].
  replace (length (encodePayloadChain inner) + 1 - 1)%nat with (length (encodePayloadChain inner)) by lia.
  assert (idx (encodePayloadChain inner ++ [0]) (length (encodePayloadChain inner)) = Ok 0) as ->
    by (unfold idx; by rewrite list_lookup_middle). rbind. change (Z.to_nat 0) with O.
  destruct (Nat.ltb_spec (length (encodePayloadChain inner) + 1) (0 + 1)); [lia|]. rewrite Nat.sub_0_r.
  pose proof (slice_app_exact [] (encodePayloadChain inner) [0] 0 (length (encodePayloadChain inner)) eq_refl eq_refl) as Hs.
  rewrite app_nil_l in Hs. rewrite Hs. rbind. apply walkChain_encode; [done|]. pose proof (length_chain_le inner). lia.
Qed.

(** A message of one SK payload is taken apart again. *)
Lemma DecodeMessage_sk hdr len body inner : header_ok hdr → len = Z.of_nat (28 + 4 + length body) →
  Z.of_nat (length body) < 2 ^ 16 - 4 →
  DecodeMessage (encodeHeader (skHeader hdr PayloadSK len) ++
      ([firstType inner; 0] ++ be_to 2 (u16 (Z.of_nat (genericPayloadHeaderLen + length body)))) ++ body) =
    Ok (mkMessage (sealedHeader hdr PayloadSK len) [mkPayload PayloadSK false body] 28).
Proof.
  intros Hh Hlen Hb. set (p := mkPayload PayloadSK false body). set (sk := ([firstType inner; 0] ++ _) ++ body).
  assert (length sk = 4 + length body)%nat as Hsl by (unfold sk; rewrite !length_app, length_be_to; cbn; lia).
  assert (length (encodeHeader (skHeader hdr PayloadSK len) ++ sk) = 28 + length sk)%nat as Hl by (rewrite length_app, length_encodeHeader; done).
  unfold DecodeMessage. rewrite decodeHeader_encode by (done || cbn [Length skHeader]; lia). rbind.
  cbn [Length sealedHeader NextPayload skHeader]. rewrite Hl. destruct (Z.ltb_spec len (Z.of_nat HeaderLen)) as [Hx|_]; [unfold HeaderLen in Hx; lia|].
  rewrite (proj2 (Z.eqb_eq len _)) by lia. cbn [negb].
  pose proof (slice_app_exact (encodeHeader (skHeader hdr PayloadSK len)) sk [] HeaderLen (Z.to_nat len)
    (length_encodeHeader _) ltac:(rewrite length_encodeHeader; unfold HeaderLen; lia)) as Hs.
  rewrite app_nil_r in Hs. rewrite Hs. rbind.
  assert (takePayload PayloadSK sk = Ok (p, firstType inner, [])) as Ht.
  { pose proof (takePayload_encode p inner []) as Ht. cbn [Type_ Critical Body p] in Ht. rewrite app_nil_r in Ht. apply Ht.
    unfold payload_ok, p. cbn [Type_ Body]. unfold PayloadSK. lia. }
  cbn [walkMessage]. change (PayloadSK =? PayloadNone) with false. change (PayloadSK =? PayloadSK) with true. cbv beta iota.
  rewrite Ht. rbind. rewrite Hsl. change (0 <? length (@nil Z))%nat with false. cbv beta iota. rbind. f_equal. f_equal. lia.
Qed.

(** Cleartext payloads are chained to nothing, so what follows them is refused. *)
Lemma walkMessage_cleartext ps extra : Forall payload_ok ps → Forall (λ p, Type_ p ≠ PayloadSK) ps → extra ≠ [] →
  ∀ fuel total, (length ps ≤ fuel)%nat →
  walkMessage fuel total (firstType ps) (encodePayloadChain ps ++ extra) = Err "ike: trailing bytes after payload chain".
Proof.
  intros Hok Hsk He. induction Hok as [|p ps Hp Hok IH]; intros fuel total Hf.
  - destruct extra; [done|]. by destruct fuel.
  - destruct fuel as [|fuel]; [cbn in Hf; lia|]. inversion Hsk; subst. cbn [walkMessage firstType encodePayloadChain].
    rewrite (proj2 (Z.eqb_neq (Type_ p) PayloadNone)) by (destruct Hp; unfold PayloadNone; lia).
    rewrite <- !(app_assoc _ _ extra), takePayload_encode by done. rbind.
    rewrite (proj2 (Z.eqb_neq (Type_ p) PayloadSK)) by done. rewrite IH by (done || cbn in Hf; lia). done.
Qed.

Lemma DecodeMessage_cleartext hdr len ps extra : header_ok hdr → Forall payload_ok ps → Forall (λ p, Type_ p ≠ PayloadSK) ps →
  extra ≠ [] → len = Z.of_nat (HeaderLen + length (encodePayloadChain ps ++ extra)) → len < 2 ^ 32 →
  DecodeMessage (encodeHeader (skHeader hdr (firstType ps) len) ++ encodePayloadChain ps ++ extra) =
    Err "ike: trailing bytes after payload chain".
Proof.
  intros Hh Hok Hsk He Hlen Hlt. set (rest := encodePayloadChain ps ++ extra) in *. unfold DecodeMessage.
  rewrite decodeHeader_encode by (done || cbn [Length skHeader]; lia). rbind. cbn [Length sealedHeader NextPayload skHeader].
  destruct (Z.ltb_spec len (Z.of_nat HeaderLen)); [lia|]. rewrite length_app, length_encodeHeader.
  rewrite (proj2 (Z.eqb_eq len _)) by done. cbn [negb].
  pose proof (slice_app_exact (encodeHeader (skHeader hdr (firstType ps) len)) rest [] HeaderLen (Z.to_nat len)
    (length_encodeHeader _) ltac:(rewrite length_encodeHeader; lia)) as Hs.
  rewrite app_nil_r in Hs. rewrite Hs. rbind. pose proof (length_chain_le ps).
  unfold rest. rewrite walkMessage_cleartext; [done | done | done | done |]. rewrite length_app. lia.
Qed.

(** An encrypted message on its own, as the receiver takes it apart. *)
Lemma sealed_opens suite ap key hdr inner iv :
  aeadParams (suEncrID suite) (suEncrKeyBits suite) = Ok ap → length key = (KeyLen ap + SaltLen ap)%nat → length iv = 8%nat →
  header_ok hdr → Z.of_nat (length (encodePayloadChain inner)) < 2 ^ 16 - 29 →
  ∃ raw, encryptMessageIV suite key hdr [] inner iv = Ok raw ∧
    decodeHeader raw = Ok (sealedHeader hdr PayloadSK (Z.of_nat (length raw))) ∧
    ∃ m, DecodeMessage raw = Ok m ∧ header m = sealedHeader hdr PayloadSK (Z.of_nat (length raw)) ∧
      (∃ body, Payloads m = [mkPayload PayloadSK false body]) ∧
      decryptMessagePlaintext suite key raw m = Ok (firstType inner, encodePayloadChain inner ++ [0]).
Proof.
  intros Hap Hk Hiv Hh Hinl. destruct (aeadParams_inv _ _ _ Hap) as (Hkl & Hsl & Hivl & Hicv & _).
  destruct (encrypt_eq suite ap key hdr [] inner iv Hap Hk Hiv Hinl) as (a & ct & Ha & Haok & Hct & Henc & Hop); [cbn; lia|].
  eexists. split; [exact Henc|]. change (encodePayloadChain []) with (@nil Z) in *. rewrite !app_nil_l in *.
  change (length (@nil Z)) with O in *. rewrite !Nat.add_0_r in *.
  set (len := Z.of_nat (HeaderLen + 4 + 8 + length ct)) in *. set (skh := [firstType inner; 0] ++ _) in *.
  assert (len = Z.of_nat (28 + 4 + length (iv ++ ct))) as Hlen by (unfold len, HeaderLen; rewrite length_app; lia).
  pose proof (DecodeMessage_sk hdr len (iv ++ ct) inner Hh Hlen) as Hd. fold skh in Hd.
  set (front := encodeHeader (skHeader hdr PayloadSK len) ++ skh) in *.
  assert (length front = 32%nat) as Hfl by (unfold front; rewrite length_app, length_encodeHeader; unfold skh; done).
  assert (Z.of_nat (length (front ++ iv ++ ct)) = len) as -> by (rewrite length_app, Hfl, Hlen; lia).
  split.
  { unfold front. rewrite <- app_assoc. rewrite decodeHeader_encode; [done | done|]. cbn [Length skHeader]. rewrite Hlen, length_app. lia. }
  eexists. split; [unfold front; rewrite <- app_assoc; apply Hd; rewrite length_app; lia|]. split; [done|]. split; [by eexists|].
  unfold decryptMessagePlaintext. cbn [find findPayload Payloads Type_]. change (PayloadSK =? PayloadSK) with true.
  cbn [Body skHeaderOffset]. rewrite Hap. rbind. rewrite Hk, Nat.eqb_refl. cbn [negb]. rewrite Hivl, Hicv.
  destruct (Nat.ltb_spec (length (iv ++ ct)) (8 + 16)) as [Hx|_]; [rewrite length_app in Hx; lia|].
  rewrite (slice_ok key) by lia. rbind. rewrite Nat.sub_0_r, drop_0, Ha. rbind. rewrite (from_ok key) by lia. rbind.
  pose proof (slice_app_exact [] iv ct 0 8 eq_refl ltac:(cbn; lia)) as Hs1. rewrite app_nil_l in Hs1. rewrite Hs1. rbind.
  rewrite (from_ok (iv ++ ct)) by (rewrite length_app; lia). rbind. rewrite (drop_app_length' iv ct 8) by done.
  pose proof (slice_app_exact [] front (iv ++ ct) 0 (28 + genericPayloadHeaderLen) eq_refl ltac:(cbn [length]; rewrite Hfl; done)) as Hs2.
  rewrite app_nil_l in Hs2. rewrite Hs2. rbind. rewrite Hop. rbind.
  assert (slice (front ++ iv ++ ct) 28 (28 + genericPayloadHeaderLen) = Ok skh) as ->.
  { unfold front. rewrite <- app_assoc. apply slice_app_exact; rewrite length_encodeHeader; [done|]. unfold skh. done. }
  rbind. change (idx skh 0) with (Ok (firstType inner)). by rbind.
Qed.

(** C2: the encrypted payload. With a key of the suite's length, any payloads that
    fit encrypt to a message that decodes and decrypts, under the same key, to
    exactly those payloads, its header that of the sender with version, type and
    length filled in. Only the AEAD decides what is accepted: whenever decryption
    of a decoded message succeeds, its last bytes are the sealing of that
    plaintext, under the nonce it carries, over everything in front of them. A
    message given cleartext payloads to carry before the encrypted one cannot be
    decoded at all: their chain ends before the SK payload. *)
Theorem sk_exact suite ap key hdr cleartext inner iv :
  aeadParams (suEncrID suite) (suEncrKeyBits suite) = Ok ap → length key = (KeyLen ap + SaltLen ap)%nat → length iv = 8%nat →
  header_ok hdr → Forall payload_ok inner → Z.of_nat (length (encodePayloadChain inner)) < 2 ^ 16 - 29 →
  Forall payload_ok cleartext → Forall (λ p, Type_ p ≠ PayloadSK) cleartext →
  Z.of_nat (HeaderLen + length (encodePayloadChain cleartext)) < 2 ^ 31 →
  (∃ raw, encryptMessageIV suite key hdr cleartext inner iv = Ok raw ∧
    if (length cleartext =? 0)%nat
    then ∃ m, DecodeMessage raw = Ok m ∧ DecryptMessage suite key raw m = Ok inner ∧
           header m = sealedHeader hdr PayloadSK (Z.of_nat (length raw))
    else DecodeMessage raw = Err "ike: trailing bytes after payload chain") ∧
  (∀ raw m first plain, DecodeMessage raw = Ok m → bytes_ok raw → decryptMessagePlaintext suite key raw m = Ok (first, plain) →
    ∃ a nonce front ct, newAEAD (suEncrID suite) (take (KeyLen ap) key) = Ok a ∧ raw = front ++ nonce ++ ct ∧ length nonce = 8%nat ∧
      aeadSeal a (drop (KeyLen ap) key ++ nonce) plain front = Ok ct).
Proof.
  intros Hap Hk Hiv Hh Hin Hinl Hcl Hsk Hcll. destruct (aeadParams_inv _ _ _ Hap) as (Hkl & Hsl & Hivl & Hicv & _).
  destruct (encrypt_eq suite ap key hdr cleartext inner iv Hap Hk Hiv Hinl Hcll) as (a & ct & Ha & Haok & Hct & Henc & Hop).
  split.
  - destruct cleartext as [|p cleartext].
    + destruct (sealed_opens suite ap key hdr inner iv Hap Hk Hiv Hh Hinl) as (raw & Hr & Hdec & m & Hm & Hmh & _ & Hp).
      exists raw. split; [done|]. exists m. split; [done|]. split; [|done]. unfold DecryptMessage. rewrite Hp. rbind.
      by apply decodeMessagePlaintext_encode.
    + eexists. split; [exact Henc|]. change (length (p :: cleartext) =? 0)%nat with false. cbv beta iota. rewrite <- app_assoc.
      rewrite <- (app_assoc (encodePayloadChain _)).
      apply DecodeMessage_cleartext; [done | done | done | done | |].
      * rewrite !length_app, length_be_to. cbn [length]. rewrite Hiv. lia.
      * lia.
  - intros raw m first plain Hm Hb Hd. unfold decryptMessagePlaintext in Hd. destruct (find m PayloadSK) as [sk|] eqn:Ef; [|done].
    rewrite Hap in Hd. cbn [mbind res_bind] in Hd. rewrite Hk, Nat.eqb_refl in Hd. cbn [negb] in Hd. rewrite Hivl, Hicv in Hd.
    destruct (Nat.ltb_spec (length (Body sk)) (8 + 16)) as [|Hlb]; [done|].
    rewrite (slice_ok key) in Hd by lia. cbn [mbind res_bind] in Hd. rewrite Nat.sub_0_r, drop_0, Ha in Hd. cbn [mbind res_bind] in Hd.
    rewrite (from_ok key) in Hd by lia. cbn [mbind res_bind] in Hd.
    rewrite (slice_ok (Body sk)), (from_ok (Body sk)) in Hd by lia. cbn [mbind res_bind] in Hd. rewrite drop_0 in Hd.
    apply bind_ok_inv in Hd as (aad & Haad & Hd). apply bind_ok_inv in Hd as (pl & Hpl & Hd).
    apply bind_ok_inv in Hd as (gh & _ & Hd). apply bind_ok_inv in Hd as (f0 & _ & [= _ <-]).
    apply slice_inv in Haad as (_ & Hle & ->). rewrite Nat.sub_0_r, drop_0 in *.
    rewrite Nat.sub_0_r in Hpl. destruct (decoded_sk raw m sk Hm Ef) as (Hraw & _ & _).
    exists a, (take 8 (Body sk)), (take (skHeaderOffset m + genericPayloadHeaderLen) raw), (drop 8 (Body sk)).
    split_and!; [done | rewrite take_drop; exact Hraw | rewrite length_take; lia |].
    apply (open_sealed a Haok); [rewrite length_app, length_drop, length_take; lia | exact Hpl].
Qed.

End proofs.

(** ** Keys *)

Section schedule.
Context {H : Hmac} {HL : HmacLaws H}.

Lemma prf_ok prfID key data : PRFOutputLen prfID ≠ O → ∃ t, prf prfID key data = Ok t ∧ length t = PRFOutputLen prfID.
Proof.
  intros Hp. exists (hmac prfID key data). split; [|by apply hmac_length]. unfold prf, PRFOutputLen in *.
  destruct (prfID =? PRF_HMAC_SHA2_256), (prfID =? PRF_HMAC_SHA2_384); done.
Qed.

Lemma prfLoop_ok prfID key seed len : PRFOutputLen prfID ≠ O → ∀ fuel out t counter, (len ≤ length out + fuel)%nat →
  ∃ out', prfLoop fuel prfID key seed out t counter len = Ok out' ∧ (len ≤ length out')%nat ∧ out `prefix_of` out'.
Proof.
  intros Hp. induction fuel as [|fuel IH]; intros out t counter Hf; cbn [prfLoop];
    destruct (Nat.ltb_spec (length out) len); try (by eexists); [lia|].
  destruct (prf_ok prfID key (t ++ seed ++ [counter]) Hp) as (t' & -> & Ht). rbind.
  destruct (IH (out ++ t') t' (u8 (counter + 1))) as (out' & -> & H1 & H2); [rewrite length_app; lia|].
  exists out'. split_and!; [done | done |]. etrans; [|exact H2]. by exists t'.
Qed.

Lemma prfPlus_ok prfID key seed len : PRFOutputLen prfID ≠ O → ∃ s, prfPlus prfID key seed len = Ok s ∧ length s = len.
Proof.
  intros Hp. unfold prfPlus. destruct (prfLoop_ok prfID key seed len Hp len [] [] 1 ltac:(cbn; lia)) as (out & -> & Hl & _). rbind.
  rewrite slice_ok by lia. eexists. split; [done|]. rewrite drop_0, length_take. lia.
Qed.

(** The keys an IKE SA needs, of the lengths its suite fixes. *)
Definition keys_ok (suite : SASuite) (ap : AEADParams) (k : IKEKeys) : Prop :=
  Suite k = suite ∧ length (SKd k) = PRFOutputLen (suPRFID suite) ∧
  length (SKei k) = (KeyLen ap + SaltLen ap)%nat ∧ length (SKer k) = (KeyLen ap + SaltLen ap)%nat ∧
  length (SKpi k) = PRFOutputLen (suPRFID suite) ∧ length (SKpr k) = PRFOutputLen (suPRFID suite).

Lemma deriveIKEKeys_ok suite ap seed ni nr i r : aeadParams (suEncrID suite) (suEncrKeyBits suite) = Ok ap →
  PRFOutputLen (suPRFID suite) ≠ O → ∃ k, deriveIKEKeys suite seed ni nr i r = Ok k ∧ keys_ok suite ap k.
Proof.
  intros Hap Hp. unfold deriveIKEKeys. rewrite Hap. rbind. destruct (Nat.eqb_spec (PRFOutputLen (suPRFID suite)) 0) as [|_]; [done|].
  set (n := PRFOutputLen (suPRFID suite)) in *. set (k := (KeyLen ap + SaltLen ap)%nat).
  destruct (prfPlus_ok (suPRFID suite) seed (ni ++ nr ++ be_to 8 i ++ be_to 8 r) (n + 2 * k + 2 * n) Hp) as (s & -> & Hl). rbind.
  rewrite !slice_ok by lia. rbind. eexists. split; [done|]. unfold keys_ok. cbn [Suite SKd SKei SKer SKpi SKpr].
  rewrite !length_take, !length_drop. fold k. split_and!; try done; lia.
Qed.

(** the key schedule never fails on a supported suite, and fits it. Whatever
    the shared secret and the nonces, deriving the keys of an IKE SA, fresh or
    rekeyed, and of a Child SA returns; every key has the length the suite fixes,
    so the encryption keys are exactly what the encrypted payload and the ESP
    security association require. An unsupported cipher or PRF is an error. *)
Theorem keys_fit suite oldPRF oldSKd secret ni nr spiI spiR :
  (∀ ap, aeadParams (suEncrID suite) (suEncrKeyBits suite) = Ok ap → PRFOutputLen (suPRFID suite) ≠ O →
    (∃ k, DeriveIKEKeys suite secret ni nr spiI spiR = Ok k ∧ keys_ok suite ap k) ∧
    (PRFOutputLen oldPRF ≠ O → ∃ k, DeriveRekeyedIKEKeys oldPRF oldSKd suite secret ni nr spiI spiR = Ok k ∧ keys_ok suite ap k) ∧
    (∃ a b, childSAKeymat (suPRFID suite) oldSKd secret ni nr (suEncrID suite) (suEncrKeyBits suite) = Ok (a, b) ∧
      length a = (KeyLen ap + SaltLen ap)%nat ∧ length b = (KeyLen ap + SaltLen ap)%nat)) ∧
  (∀ e, aeadParams (suEncrID suite) (suEncrKeyBits suite) = Err e →
    (PRFOutputLen oldPRF ≠ O → DeriveRekeyedIKEKeys oldPRF oldSKd suite secret ni nr spiI spiR = Err e) ∧
    childSAKeymat (suPRFID suite) oldSKd secret ni nr (suEncrID suite) (suEncrKeyBits suite) = Err e) ∧
  (PRFOutputLen oldPRF = O → DeriveRekeyedIKEKeys oldPRF oldSKd suite secret ni nr spiI spiR = Err "ike: unsupported previous PRF").
Proof.
  split_and!.
  - intros ap Hap Hp. split_and!.
    + unfold DeriveIKEKeys. destruct (prf_ok (suPRFID suite) (ni ++ nr) secret Hp) as (t & -> & _). rbind. by apply deriveIKEKeys_ok.
    + intros Ho. unfold DeriveRekeyedIKEKeys. destruct (Nat.eqb_spec (PRFOutputLen oldPRF) 0); [done|].
      destruct (prf_ok oldPRF oldSKd (secret ++ ni ++ nr) Ho) as (t & -> & _). rbind. by apply deriveIKEKeys_ok.
    + unfold childSAKeymat. rewrite Hap. rbind. set (k := (KeyLen ap + SaltLen ap)%nat).
      destruct (prfPlus_ok (suPRFID suite) oldSKd (secret ++ ni ++ nr) (2 * k) Hp) as (s & -> & Hl). rbind.
      rewrite slice_ok, from_ok by lia. rbind. eexists _, _. split; [done|]. rewrite length_take, !length_drop. lia.
  - intros e He. split.
    + intros Ho. unfold DeriveRekeyedIKEKeys, deriveIKEKeys. destruct (Nat.eqb_spec (PRFOutputLen oldPRF) 0); [done|].
      destruct (prf_ok oldPRF oldSKd (secret ++ ni ++ nr) Ho) as (t & -> & _). rbind. by rewrite He.
    + unfold childSAKeymat. by rewrite He.
  - intros Ho. unfold DeriveRekeyedIKEKeys. by rewrite Ho.
Qed.

End schedule.
