(* ===== verification/IkeWitness.v ===== *)
(** * Concrete instances for the IKE cryptography

    The AEAD of [EspWitness] and a keyed sum in place of HMAC meet the laws, and
    the theorems of [IkeSk] are applied to a suite with a 128-bit key. *)

From S2P Require Import Prelude Esp EspWitness IkeMessage IkeSk.

#[local] Instance toyHmac : Hmac :=
  {| hmac := fun prfID key data => be_to (PRFOutputLen prfID) (be_of key + 5 * be_of data + 1) |}.

#[local] Instance toyHmacLaws : HmacLaws toyHmac.
Proof. split. intros. apply length_be_to. Qed.

Definition toySuite : SASuite := mkSuite ENCR_AES_GCM_16 128 PRF_HMAC_SHA2_256 31.
Definition toyRequest : Header := mkHeader 11 12 0 0 0 INFORMATIONAL FlagInitiator 3 0.
Definition toyInner : list RawPayload := [mkPayload PayloadD false [1; 0; 0; 0]].

Lemma sk_exact_witness :
  ∃ raw m, encryptMessageIV toySuite toyKey toyRequest [] toyInner (be_to 8 1) = Ok raw ∧
    DecodeMessage raw = Ok m ∧ DecryptMessage toySuite toyKey raw m = Ok toyInner.
Proof.
  destruct (sk_exact toySuite (mkAEADParams 16 4 8 16) toyKey toyRequest [] toyInner (be_to 8 1)) as [(raw & He & m & Hm & Hd & _) _].
  - reflexivity.
  - reflexivity.
  - reflexivity.
  - unfold header_ok. cbn. lia.
  - repeat constructor; unfold PayloadD; cbn; lia.
  - vm_compute. reflexivity.
  - constructor.
  - constructor.
  - vm_compute. reflexivity.
  - exists raw, m. split; [exact He|]. split; [exact Hm | exact Hd].
Defined.

Lemma keys_fit_witness :
  ∃ k, DeriveIKEKeys toySuite [1; 2] [3] [4] 5 6 = Ok k ∧ keys_ok toySuite (mkAEADParams 16 4 8 16) k.
Proof.
  destruct (keys_fit toySuite PRF_HMAC_SHA2_256 [9] [1; 2] [3] [4] 5 6) as (H & _ & _).
  apply (H (mkAEADParams 16 4 8 16)); [reflexivity | vm_compute; discriminate].
Defined.
