(* ===== verification/IkeProposal.v ===== *)
(** * Negotiation: ike/child_proposal.go and the proposals of the exchanges

    What this node offers, which of a peer's offers it takes, and what it accepts
    as the answer to its own: IKE SAs (selectIKEProposal of responder.go,
    suiteFromProposal of initiator.go), Child SAs (child_proposal.go,
    espRekeyProposal, responderChild.proposal and the response of
    handleChildRekey) and rekeyed IKE SAs (selectIKERekeyProposal). An
    [*invalidKEError] is a value of its own: the exchange answers with the group
    it names. *)

From S2P Require Import Prelude Esp IkeMessage IkePayload IkeSa IkeSk.

Definition TransEncr : Z := 1.
Definition TransPRF : Z := 2.
Definition TransInteg : Z := 3.
Definition TransDH : Z := 4.
Definition TransESN : Z := 5.
Definition INTEG_NONE : Z := 0.
Definition DH_ECP_256 : Z := 19.
Definition DH_ECP_384 : Z := 20.
Definition DH_CURVE25519 : Z := 31.
Definition ESN_NO : Z := 0.

(** A transform with no attribute this node does not know. *)
Definition tr (type id bits : Z) : Transform := mkTransform type id bits false.
Definition zeroTransform : Transform := tr 0 0 0.

(** The outcome of a selection: a value, or an [*invalidKEError]. *)
Inductive selection (A : Type) := Selected (a : A) | InvalidKE (group : Z).
Arguments Selected {A} a.
Arguments InvalidKE {A} group.

(** ** What this node offers *)

Definition ikeProposal : Proposal :=
  mkProposal 1 ProtoIKE []
    [tr TransEncr ENCR_AES_GCM_16 256; tr TransEncr ENCR_AES_GCM_16 128; tr TransEncr ENCR_CHACHA20_POLY1305 0;
     tr TransPRF PRF_HMAC_SHA2_384 0; tr TransPRF PRF_HMAC_SHA2_256 0;
     tr TransDH DH_CURVE25519 0; tr TransDH DH_ECP_384 0; tr TransDH DH_ECP_256 0].

Definition espProposal (spi : list Z) : Proposal :=
  mkProposal 1 ProtoESP spi
    [tr TransEncr ENCR_AES_GCM_16 256; tr TransEncr ENCR_AES_GCM_16 128; tr TransEncr ENCR_CHACHA20_POLY1305 0;
     tr TransESN ESN_NO 0].

Definition canonicalEncryptionTransform (t : Transform) : res Transform :=
  if negb (trType t =? TransEncr) then Err "ike: expected an encryption transform"
  else if UnsupportedAttributes t then Err "ike: encryption transform has unsupported attributes"
  else if (trID t =? ENCR_CHACHA20_POLY1305) && negb (KeyLengthBits t =? 0) then
    Err "ike: ChaCha20-Poly1305 has a fixed key length"
  else
    _ ← aeadParams (trID t) (KeyLengthBits t);
    Ok (if trID t =? ENCR_CHACHA20_POLY1305 then mkTransform (trType t) (trID t) 256 (UnsupportedAttributes t) else t).

Definition canonicalChildCipher (child : ChildSA) : res Transform :=
  let bits := if EncrID child =? ENCR_CHACHA20_POLY1305 then 0 else EncrKeyBits child in
  canonicalEncryptionTransform (tr TransEncr (EncrID child) bits).

(** [candidate.ID == expected.ID && candidate.KeyLengthBits == expected.KeyLengthBits] *)
Definition sameCipher (a b : Transform) : bool := (trID a =? trID b) && (KeyLengthBits a =? KeyLengthBits b).

(** [canonical, err := ...; err == nil && ...] *)
Definition canonicalIs (offered want : Transform) : bool :=
  match canonicalEncryptionTransform offered with Ok c => sameCipher c want | _ => false end.

Definition espRekeyProposal (spi : list Z) (old : ChildSA) : Proposal :=
  let p := espProposal spi in
  match canonicalChildCipher old with
  | Ok want =>
      mkProposal (Number p) (Protocol p) (SPI p)
        (List.filter (λ t, negb (trType t =? TransEncr) || canonicalIs t want) (Transforms p))
  | _ => p
  end.

Definition ikeRekeyProposal (spi : list Z) (prfID : Z) : Proposal :=
  mkProposal (Number ikeProposal) (Protocol ikeProposal) spi
    (List.filter (λ t, negb (trType t =? TransPRF) || (trID t =? prfID)) (Transforms ikeProposal)).

Definition supportedIKEGroup (group : Z) : bool :=
  existsb (λ t, (trType t =? TransDH) && (trID t =? group)) (Transforms ikeProposal).

(** The position of [group] among the groups offered; [preference] so far. *)
Fixpoint groupPosition (ts : list Transform) (group preference : Z) : Z :=
  match ts with
  | [] => preference
  | t :: rest =>
      if negb (trType t =? TransDH) then groupPosition rest group preference
      else if trID t =? group then preference
      else groupPosition rest group (preference + 1)
  end.

Definition ikeGroupPreference (group : Z) : Z := groupPosition (Transforms ikeProposal) group 0.

(** ** Diffie-Hellman groups *)

(** The two loops over the groups offered: [preferredDH] and [matchingDH]. *)
Fixpoint matchDH (wants transforms : list Transform) (keGroup : Z) (preferred matching : Transform) : Transform * Transform :=
  match wants with
  | [] => (preferred, matching)
  | want :: wants =>
      if negb (trType want =? TransDH) then matchDH wants transforms keGroup preferred matching
      else if bool_decide (want ∈ transforms)
      then matchDH wants transforms keGroup (if trType preferred =? 0 then want else preferred)
             (if trID want =? keGroup then want else matching)
      else matchDH wants transforms keGroup preferred matching
  end.

Definition selectDHTransform (transforms : list Transform) (keGroup : Z) (optional : bool) : Transform * Z * bool :=
  let haveDH := existsb (λ t, trType t =? TransDH) transforms in
  let haveNone := bool_decide (tr TransDH 0 0 ∈ transforms) in
  let '(preferredDH, matchingDH) := matchDH (Transforms ikeProposal) transforms keGroup zeroTransform zeroTransform in
  if negb (trType matchingDH =? 0) then (matchingDH, trID preferredDH, true)
  else if optional && negb haveDH then (zeroTransform, 0, true)
  else if optional && haveNone then (tr TransDH 0 0, 0, true)
  else (zeroTransform, trID preferredDH, false).

(** ** Child SAs: the answer to an offer of ours *)

(** One transform of each type; what was seen so far. *)
Fixpoint scanAnswer (ts : list Transform) (encryption : option Transform) (haveESN : bool) :
    res (option Transform * bool) :=
  match ts with
  | [] => Ok (encryption, haveESN)
  | t :: rest =>
      if trType t =? TransEncr then
        match encryption with
        | Some _ => Err "ike: Child SA proposal has duplicate encryption transforms"
        | None => e ← canonicalEncryptionTransform t; scanAnswer rest (Some e) haveESN
        end
      else if trType t =? TransESN then
        if haveESN || negb (trID t =? ESN_NO) || negb (KeyLengthBits t =? 0) || UnsupportedAttributes t
        then Err "ike: Child SA proposal has an unsupported ESN transform"
        else scanAnswer rest encryption true
      else Err "ike: Child SA proposal has transform type"
  end.

Definition offeredCipher (t : Transform) : bool :=
  existsb (λ o, (trType o =? TransEncr) && canonicalIs o t) (Transforms (espProposal [])).

Definition decodeChildProposal (body : list Z) (expected : option ChildSA) : res (Proposal * Transform * Z) :=
  match DecodeSA body with
  | Panic => Panic
  | Ok [p] =>
      if negb (Number p =? 1) || negb (Protocol p =? ProtoESP) || negb (length (SPI p) =? 4)%nat
         || negb (length (Transforms p) =? 2)%nat
      then Err "ike: invalid Child SA proposal shape"
      else
        remoteSPI ← get_be 4 (SPI p) 0;
        if remoteSPI =? 0 then Err "ike: Child SA proposal has a zero SPI"
        else
          '(enc, esn) ← scanAnswer (Transforms p) None false;
          match enc, esn with
          | Some encryption, true =>
              match expected with
              | Some child =>
                  match canonicalChildCipher child with
                  | Ok want =>
                      if sameCipher encryption want then Ok (p, encryption, remoteSPI)
                      else Err "ike: Child SA proposal changed encryption transform"
                  | Err _ => Err "ike: Child SA proposal changed encryption transform"
                  | Panic => Panic
                  end
              | None =>
                  if offeredCipher encryption then Ok (p, encryption, remoteSPI)
                  else Err "ike: Child SA proposal selected an unoffered transform"
              end
          | _, _ => Err "ike: incomplete Child SA proposal"
          end
  | _ => Err "ike: invalid Child SA proposal"
  end.

(** ** Child SAs: a peer's offer *)

Record childProposalSelection := mkSelection {
  selProposal : Proposal; selEncryption : Transform; selDH : Transform; selInteg : Transform; selRemoteSPI : Z }.

Definition childEncryptionAccepted (candidate : Transform) (expected : option Transform) : bool :=
  match expected with
  | Some want => sameCipher candidate want
  | None => offeredCipher candidate
  end.

(** What the loop over the transforms of one proposal has seen. *)
Record offer := mkOffer {
  ofEncryption : option Transform; ofESN : bool; ofInteg : option Transform; ofIntegOffered : bool; ofUnacceptable : bool }.

Definition scanTransform (want : option Transform) (o : offer) (t : Transform) : offer :=
  if trType t =? TransEncr then
    match canonicalEncryptionTransform t, ofEncryption o with
    | Ok candidate, None =>
        if childEncryptionAccepted candidate want
        then mkOffer (Some candidate) (ofESN o) (ofInteg o) (ofIntegOffered o) (ofUnacceptable o) else o
    | _, _ => o
    end
  else if trType t =? TransESN then
    mkOffer (ofEncryption o) (ofESN o || (trID t =? ESN_NO) && (KeyLengthBits t =? 0) && negb (UnsupportedAttributes t))
      (ofInteg o) (ofIntegOffered o) (ofUnacceptable o)
  else if trType t =? TransDH then o
  else if trType t =? TransInteg then
    mkOffer (ofEncryption o) (ofESN o)
      (match ofInteg o with
       | Some i => Some i
       | None => if (trID t =? INTEG_NONE) && negb (UnsupportedAttributes t) then Some t else None
       end) true (ofUnacceptable o)
  else mkOffer (ofEncryption o) (ofESN o) (ofInteg o) (ofIntegOffered o) true.

Definition scanOffer (want : option Transform) (ts : list Transform) : offer :=
  foldl (scanTransform want) (mkOffer None false None false false) ts.

(** [p.Number == 0 || p.Protocol != ProtoESP || ...]: the proposals passed over. *)
Definition childShape (p : Proposal) : bool :=
  negb (Number p =? 0) && (Protocol p =? ProtoESP) && (length (SPI p) =? 4)%nat && negb (be_of (SPI p) =? 0).

(** A complete set of parameters but for the group: encryption and integrity. *)
Definition childSuite (want : option Transform) (p : Proposal) : option (Transform * Transform) :=
  let o := scanOffer want (Transforms p) in
  if ofUnacceptable o || ofIntegOffered o && negb (bool_decide (is_Some (ofInteg o))) then None
  else match ofEncryption o with
       | Some e => if ofESN o then Some (e, default zeroTransform (ofInteg o)) else None
       | None => None
       end.

Fixpoint selectChild (want : option Transform) (keGroup : Z) (props : list Proposal) (preferredDH : Z) :
    res (selection childProposalSelection) :=
  match props with
  | [] => if negb (preferredDH =? 0) then Ok (InvalidKE preferredDH) else Err "ike: no acceptable Child SA proposal"
  | p :: rest =>
      if negb (childShape p) then selectChild want keGroup rest preferredDH
      else
        match childSuite want p with
        | Some (encryption, integ) =>
            let '(dh, preferred, ok) := selectDHTransform (Transforms p) keGroup true in
            if ok then Ok (Selected (mkSelection p encryption dh integ (be_of (SPI p))))
            else selectChild want keGroup rest (if preferredDH =? 0 then preferred else preferredDH)
        | None => selectChild want keGroup rest preferredDH
        end
  end.

Definition selectChildRequestProposal (body : list Z) (expected : option ChildSA) (keGroup : Z) :
    res (selection childProposalSelection) :=
  match DecodeSA body with
  | Panic => Panic
  | Err _ => Err "ike: invalid Child SA proposal"
  | Ok props =>
      want ← match expected with
             | None => Ok None
             | Some child => c ← canonicalChildCipher child; Ok (Some c)
             end;
      selectChild want keGroup props 0
  end.

(** [responderChild.proposal]: the answer in IKE_AUTH, and the one
    [handleChildRekey] sends, which orders the last two transforms the other way. *)
Definition echoedCipher (encryption : Transform) : Transform :=
  if trID encryption =? ENCR_CHACHA20_POLY1305
  then mkTransform (trType encryption) (trID encryption) 0 (UnsupportedAttributes encryption) else encryption.

Definition echoed (t : Transform) : list Transform := if negb (trType t =? 0) then [t] else [].

Definition authAnswer (sel : childProposalSelection) (spi : list Z) : Proposal :=
  mkProposal (Number (selProposal sel)) ProtoESP spi
    ([echoedCipher (selEncryption sel); tr TransESN ESN_NO 0] ++ echoed (selDH sel) ++ echoed (selInteg sel)).

Definition rekeyAnswer (sel : childProposalSelection) (spi : list Z) : Proposal :=
  mkProposal (Number (selProposal sel)) ProtoESP spi
    ([echoedCipher (selEncryption sel); tr TransESN ESN_NO 0] ++ echoed (selInteg sel) ++ echoed (selDH sel)).

(** ** IKE SAs *)

(** One transform of each type, each of them offered. *)
Fixpoint selectTransforms (ts : list Transform) (selected : gmap Z Transform) : res (gmap Z Transform) :=
  match ts with
  | [] => Ok selected
  | t :: rest =>
      if negb (trType t =? TransEncr) && negb (trType t =? TransPRF) && negb (trType t =? TransDH)
      then Err "ike: unexpected selected transform type"
      else if bool_decide (is_Some (selected !! trType t)) then Err "ike: duplicate selected transform type"
      else if negb (bool_decide (t ∈ Transforms ikeProposal)) then Err "ike: responder selected unoffered transform"
      else selectTransforms rest (<[trType t := t]> selected)
  end.

Definition suiteFromProposal (p : Proposal) : res SASuite :=
  if negb (Number p =? 1) || negb (Protocol p =? ProtoIKE) || negb (length (SPI p) =? 0)%nat
     || negb (length (Transforms p) =? 3)%nat
  then Err "ike: invalid selected IKE proposal shape"
  else
    selected ← selectTransforms (Transforms p) ∅;
    match selected !! TransEncr, selected !! TransPRF, selected !! TransDH with
    | Some encr, Some prfT, Some dhT => Ok (mkSuite (trID encr) (KeyLengthBits encr) (trID prfT) (trID dhT))
    | _, _, _ => Err "ike: incomplete selected IKE proposal"
    end.

(** The loop over the types of a proposal for an IKE SA: [None] when it names one
    this node does not know, else the integrity transform it can take, and
    whether one was offered. *)
Definition scanInteg (s : option (option Transform * bool)) (t : Transform) : option (option Transform * bool) :=
  match s with
  | None => None
  | Some (integ, offered) =>
      if (trType t =? TransEncr) || (trType t =? TransPRF) || (trType t =? TransDH) then Some (integ, offered)
      else if trType t =? TransInteg then
        Some (match integ with
              | Some i => Some i
              | None => if (trID t =? INTEG_NONE) && negb (UnsupportedAttributes t) then Some t else None
              end, true)
      else None
  end.

(** The integrity transform to echo, if the proposal can be taken at all. *)
Definition ikeIntegrity (ts : list Transform) : option (option Transform) :=
  match foldl scanInteg (Some (None, false)) ts with
  | None => None
  | Some (integ, offered) => if offered && negb (bool_decide (is_Some integ)) then None else Some integ
  end.

(** [pick]: the first of ours, of this type, that the peer offers too. *)
Definition pick (ours theirs : list Transform) (want : Z) : option Transform :=
  List.find (λ c, (trType c =? want) && bool_decide (c ∈ theirs)) ours.

Fixpoint selectIKE (keGroup : Z) (proposals : list Proposal) (preferredGroup : Z) : res (selection (Proposal * SASuite)) :=
  match proposals with
  | [] => if negb (preferredGroup =? 0) then Ok (InvalidKE preferredGroup) else Err "ike: no acceptable IKE SA proposal"
  | p :: rest =>
      if (Number p =? 0) || negb (Protocol p =? ProtoIKE) || negb (length (SPI p) =? 0)%nat
      then selectIKE keGroup rest preferredGroup
      else
        match ikeIntegrity (Transforms p) with
        | None => selectIKE keGroup rest preferredGroup
        | Some integ =>
            let ours := Transforms ikeProposal in
            match pick ours (Transforms p) TransEncr, pick ours (Transforms p) TransPRF, pick ours (Transforms p) TransDH with
            | Some encr, Some prfT, Some dhT =>
                if negb (trID dhT =? keGroup)
                then selectIKE keGroup rest (if preferredGroup =? 0 then trID dhT else preferredGroup)
                else
                  Ok (Selected (mkProposal (Number p) ProtoIKE [] ([encr; prfT; dhT] ++ option_list integ),
                        mkSuite (trID encr) (KeyLengthBits encr) (trID prfT) (trID dhT)))
            | _, _, _ => selectIKE keGroup rest preferredGroup
            end
        end
  end.

Definition selectIKEProposal (body : list Z) (keGroup : Z) : res (selection (Proposal * SASuite)) :=
  match DecodeSA body with
  | Panic => Panic
  | Err _ => Err "ike: invalid IKE SA proposal"
  | Ok proposals => selectIKE keGroup proposals 0
  end.

(** The transforms, the suite and the preferred group; [None] for not [ok]. *)
Definition selectIKERekeyProposal (p : Proposal) (keGroup prfID : Z) : option (list Transform * SASuite) * Z :=
  match ikeIntegrity (Transforms p) with
  | None => (None, 0)
  | Some integ =>
      let ours := Transforms (ikeRekeyProposal [] prfID) in
      match pick ours (Transforms p) TransEncr, pick ours (Transforms p) TransPRF with
      | Some encr, Some prfT =>
          let '(matchingDH, preferredDH, ok) := selectDHTransform (Transforms p) keGroup false in
          if negb ok then (None, preferredDH)
          else
            match suiteFromProposal (mkProposal 1 ProtoIKE [] [encr; prfT; matchingDH]) with
            | Ok suite => (Some ([encr; prfT; matchingDH] ++ option_list integ, suite), preferredDH)
            | _ => (None, 0)
            end
      | _, _ => (None, 0)
      end
  end.

(** The loop of [handleIKERekey] over the proposals: the transforms, the suite and
    the proposal taken, or the group to ask for, 0 for none. *)
Fixpoint selectIKERekey (keGroup prfID : Z) (props : list Proposal) (preferredGroup : Z) :
    (list Transform * SASuite * Proposal) + Z :=
  match props with
  | [] => inr preferredGroup
  | p :: rest =>
      if (Number p =? 0) || negb (Protocol p =? ProtoIKE) || negb (length (SPI p) =? 8)%nat || (be_of (SPI p) =? 0)
      then selectIKERekey keGroup prfID rest preferredGroup
      else
        match selectIKERekeyProposal p keGroup prfID with
        | (Some (selected, suite), _) => inl (selected, suite, p)
        | (None, preferred) =>
            selectIKERekey keGroup prfID rest
              (if negb (preferred =? 0) &&
                  ((preferredGroup =? 0) || (ikeGroupPreference preferred <? ikeGroupPreference preferredGroup))
               then preferred else preferredGroup)
        end
  end.

(** ** Nonces *)

Definition validNonce (nonce : list Z) : bool := (16 <=? length nonce)%nat && (length nonce <=? 256)%nat.
Definition validNonceFor (nonce : list Z) (prfID : Z) : bool :=
  validNonce nonce && (PRFOutputLen prfID / 2 <=? length nonce)%nat.

(** What [RekeyIKE] makes of the SA and nonce of the answer to its own offer: the
    suite and the SPI. *)
Definition acceptIKERekey (body nonce : list Z) (offered : Proposal) (group : Z) : res (SASuite * Z) :=
  match DecodeSA body with
  | Panic => Panic
  | Ok [p] =>
      if negb (Number p =? 1) || negb (Protocol p =? ProtoIKE) || negb (length (SPI p) =? 8)%nat
         || negb (length (Transforms p) =? 3)%nat
      then Err "ike: invalid IKE SA rekey proposal"
      else
        match suiteFromProposal (mkProposal (Number p) (Protocol p) [] (Transforms p)) with
        | Ok suite =>
            if negb (suDHGroup suite =? group) then Err "ike: IKE SA rekey chose DH group"
            else if negb (validNonceFor nonce (suPRFID suite)) then Err "ike: IKE SA rekey nonce length is short for the negotiated PRF"
            else if negb (forallb (λ t, bool_decide (t ∈ Transforms offered)) (Transforms p))
            then Err "ike: IKE SA rekey chose unsupported transform"
            else
              spiR ← get_be 8 (SPI p) 0;
              if spiR =? 0 then Err "ike: IKE SA rekey returned zero SPI" else Ok (suite, spiR)
        | Err _ => Err "ike: invalid IKE SA rekey transforms"
        | Panic => Panic
        end
  | _ => Err "ike: invalid IKE SA rekey proposal"
  end.

(** ** The payloads of a Child SA exchange *)

Record childExchangePayloads := mkChildPayloads {
  cxSA : option RawPayload; cxNonce : option RawPayload; cxKE : option RawPayload;
  cxTSi : option RawPayload; cxTSr : option RawPayload; cxNotifies : list Notify }.

(** [setUnique] *)
Definition setUnique (dst : option RawPayload) (p : RawPayload) : res (option RawPayload) :=
  match dst with
  | Some _ => Err "ike: duplicate payload type in Child SA exchange"
  | None => Ok (Some p)
  end.

Definition parseChildPayload (out : childExchangePayloads) (p : RawPayload) : res childExchangePayloads :=
  if Type_ p =? PayloadSA then
    x ← setUnique (cxSA out) p; Ok (mkChildPayloads x (cxNonce out) (cxKE out) (cxTSi out) (cxTSr out) (cxNotifies out))
  else if Type_ p =? PayloadNonce then
    x ← setUnique (cxNonce out) p; Ok (mkChildPayloads (cxSA out) x (cxKE out) (cxTSi out) (cxTSr out) (cxNotifies out))
  else if Type_ p =? PayloadTSi then
    x ← setUnique (cxTSi out) p; Ok (mkChildPayloads (cxSA out) (cxNonce out) (cxKE out) x (cxTSr out) (cxNotifies out))
  else if Type_ p =? PayloadTSr then
    x ← setUnique (cxTSr out) p; Ok (mkChildPayloads (cxSA out) (cxNonce out) (cxKE out) (cxTSi out) x (cxNotifies out))
  else if Type_ p =? PayloadN then
    n ← DecodeNotify (Body p);
    Ok (mkChildPayloads (cxSA out) (cxNonce out) (cxKE out) (cxTSi out) (cxTSr out) (cxNotifies out ++ [n]))
  else if Type_ p =? PayloadKE then
    x ← setUnique (cxKE out) p; Ok (mkChildPayloads (cxSA out) (cxNonce out) x (cxTSi out) (cxTSr out) (cxNotifies out))
  else if Critical p then Err "ike: unsupported critical payload type"
  else Ok out.

Fixpoint parseChildPayloads (payloads : list RawPayload) (out : childExchangePayloads) : res childExchangePayloads :=
  match payloads with
  | [] => Ok out
  | p :: rest => out ← parseChildPayload out p; parseChildPayloads rest out
  end.

Definition parseChildExchangePayloads (payloads : list RawPayload) : res childExchangePayloads :=
  parseChildPayloads payloads (mkChildPayloads None None None None None []).

Definition validateCompleteChildExchange (p : childExchangePayloads) (prfID : Z) : res unit :=
  match cxSA p, cxNonce p, cxTSi p, cxTSr p with
  | Some _, Some n, Some _, Some _ =>
      if validNonceFor (Body n) prfID then Ok tt else Err "ike: incomplete Child SA exchange"
  | _, _, _, _ => Err "ike: incomplete Child SA exchange"
  end.

Definition decodeChildExchangePayloads (payloads : list RawPayload) (prfID : Z) : res childExchangePayloads :=
  out ← parseChildExchangePayloads payloads;
  _ ← validateCompleteChildExchange out prfID;
  Ok out.

(** A [*childNegotiationRejectedError] is a value: the notify it carries. *)
Definition decodeChildNegotiationResponse (response : list RawPayload) (prfID : Z) :
    res (childExchangePayloads + Notify) :=
  payloads ← parseChildExchangePayloads response;
  match List.find (λ n, nType n <? 16384) (cxNotifies payloads) with
  | Some n => Ok (inr n)
  | None =>
      _ ← validateCompleteChildExchange payloads prfID;
      match cxKE payloads with
      | Some _ => Err "ike: Child SA response includes unrequested KE"
      | None => Ok (inl payloads)
      end
  end.

Definition N_REKEY_SA : Z := 16393.

(** What [negotiateChild] makes of the response: the cipher, the peer's SPI and
    nonce, or the notify that rejects. *)
Definition acceptChild (response : list RawPayload) (prfID : Z) (old : option ChildSA) :
    res ((Transform * Z * list Z) + Notify) :=
  r ← decodeChildNegotiationResponse response prfID;
  match r with
  | inr n => Ok (inr n)
  | inl payloads =>
      match cxSA payloads, cxNonce payloads with
      | Some sa, Some nonce =>
          '(_, encr, remoteSPI) ← decodeChildProposal (Body sa) old;
          _ ← validateFullRangeSelectors (cxTSi payloads) (cxTSr payloads);
          Ok (inl (encr, remoteSPI, Body nonce))
      | _, _ => Panic
      end
  end.
