(* ===== verification/IkeSelect.v ===== *)
(** * What negotiation selects

    The selections of [IkeProposal] against a declarative reading of the offer:
    which proposal is taken, with which transforms, and what a refusal means. Two
    nodes that run this code agree on the outcome. *)

From S2P Require Import Prelude Esp IkeMessage IkePayload IkeSa IkeSk IkeProposal.

(** ** Groups *)

(** The most preferred of our groups in an offer, 0 for none. *)
Definition preferredGroup (ts : list Transform) : Z :=
  if bool_decide (tr TransDH DH_CURVE25519 0 ∈ ts) then DH_CURVE25519
  else if bool_decide (tr TransDH DH_ECP_384 0 ∈ ts) then DH_ECP_384
  else if bool_decide (tr TransDH DH_ECP_256 0 ∈ ts) then DH_ECP_256 else 0.

Definition namesGroup (ts : list Transform) : bool := existsb (λ t, trType t =? TransDH) ts.

Lemma supported_groups g : supportedIKEGroup g = true ↔ g = DH_CURVE25519 ∨ g = DH_ECP_384 ∨ g = DH_ECP_256.
Proof.
  unfold supportedIKEGroup, ikeProposal, tr. cbn [existsb Transforms trType trID].
  change (TransEncr =? TransDH) with false. change (TransPRF =? TransDH) with false. change (TransDH =? TransDH) with true.
  cbn [andb orb]. rewrite orb_false_r, !orb_true_iff, !Z.eqb_eq. naive_solver.
Qed.

Lemma matchDH_eq ts g :
  matchDH (Transforms ikeProposal) ts g zeroTransform zeroTransform =
    (if preferredGroup ts =? 0 then zeroTransform else tr TransDH (preferredGroup ts) 0,
     if supportedIKEGroup g && bool_decide (tr TransDH g 0 ∈ ts) then tr TransDH g 0 else zeroTransform).
Proof.
  unfold ikeProposal. cbn [Transforms matchDH trType trID tr]. unfold preferredGroup.
  change (mkTransform TransDH DH_CURVE25519 0 false) with (tr TransDH DH_CURVE25519 0).
  change (mkTransform TransDH DH_ECP_384 0 false) with (tr TransDH DH_ECP_384 0).
  change (mkTransform TransDH DH_ECP_256 0 false) with (tr TransDH DH_ECP_256 0).
  change (TransEncr =? TransDH) with false. change (TransPRF =? TransDH) with false. change (TransDH =? TransDH) with true.
  cbn [negb]. destruct (supportedIKEGroup g) eqn:Eg.
  - apply supported_groups in Eg as [-> |[-> | ->]];
      destruct (bool_decide (tr TransDH DH_CURVE25519 0 ∈ ts)), (bool_decide (tr TransDH DH_ECP_384 0 ∈ ts)),
        (bool_decide (tr TransDH DH_ECP_256 0 ∈ ts)); reflexivity.
  - assert (¬ (g = DH_CURVE25519 ∨ g = DH_ECP_384 ∨ g = DH_ECP_256)) as Hg by (rewrite <- supported_groups; congruence).
    rewrite !(proj2 (Z.eqb_neq _ g)) by naive_solver.
    destruct (bool_decide (tr TransDH DH_CURVE25519 0 ∈ ts)), (bool_decide (tr TransDH DH_ECP_384 0 ∈ ts)),
        (bool_decide (tr TransDH DH_ECP_256 0 ∈ ts)); reflexivity.
Qed.

Lemma selectDH_eq ts g opt :
  selectDHTransform ts g opt =
    if supportedIKEGroup g && bool_decide (tr TransDH g 0 ∈ ts) then (tr TransDH g 0, preferredGroup ts, true)
    else if opt && negb (namesGroup ts) then (zeroTransform, 0, true)
    else if opt && bool_decide (tr TransDH 0 0 ∈ ts) then (tr TransDH 0 0, 0, true)
    else (zeroTransform, preferredGroup ts, false).
Proof.
  unfold selectDHTransform. rewrite matchDH_eq. fold (namesGroup ts).
  assert (trID (if preferredGroup ts =? 0 then zeroTransform else tr TransDH (preferredGroup ts) 0) = preferredGroup ts) as ->.
  { destruct (Z.eqb_spec (preferredGroup ts) 0) as [->|]; done. }
  by destruct (supportedIKEGroup g && _).
Qed.

Lemma preferredGroup_spec ts : preferredGroup ts ≠ 0 →
  supportedIKEGroup (preferredGroup ts) = true ∧ tr TransDH (preferredGroup ts) 0 ∈ ts.
Proof.
  unfold preferredGroup. rewrite supported_groups. repeat case_bool_decide; intros; split; auto; done.
Qed.

Lemma preferredGroup_zero ts g : preferredGroup ts = 0 → supportedIKEGroup g = true → tr TransDH g 0 ∉ ts.
Proof.
  unfold preferredGroup. rewrite supported_groups. repeat case_bool_decide; try done. by intros _ [-> |[-> | ->]].
Qed.

(** ** One proposal for a Child SA *)

Definition acceptedCipher (want : option Transform) (t : Transform) : option Transform :=
  match canonicalEncryptionTransform t with
  | Ok c => if childEncryptionAccepted c want then Some c else None
  | _ => None
  end.

Definition takesInteg (t : Transform) : bool :=
  (trType t =? TransInteg) && (trID t =? INTEG_NONE) && negb (UnsupportedAttributes t).

Definition knownType (t : Transform) : bool :=
  (trType t =? TransEncr) || (trType t =? TransESN) || (trType t =? TransDH) || (trType t =? TransInteg).

Lemma canonical_encr t c : canonicalEncryptionTransform t = Ok c → trType t = TransEncr.
Proof. unfold canonicalEncryptionTransform. destruct (Z.eqb_spec (trType t) TransEncr); [done|]. done. Qed.

Lemma head_snoc {A} (l : list A) x : head (l ++ [x]) = Some (default x (head l)).
Proof. by destruct l. Qed.

Lemma find_snoc {A} (f : A → bool) l x :
  List.find f (l ++ [x]) = match List.find f l with Some y => Some y | None => if f x then Some x else None end.
Proof. induction l as [|y l IH]; cbn; [by destruct (f x)|]. destruct (f y); [done | apply IH]. Qed.

Lemma esn_iff t : t = tr TransESN ESN_NO 0 ↔
  (trType t =? TransESN) && ((trID t =? ESN_NO) && (KeyLengthBits t =? 0) && negb (UnsupportedAttributes t)) = true.
Proof.
  destruct t as [ty id bits u]. cbn [trType trID KeyLengthBits UnsupportedAttributes].
  rewrite !andb_true_iff, negb_true_iff, !Z.eqb_eq. unfold tr. split; [by intros [= -> -> -> ->] | by intros (-> & (-> & ->) & ->)].
Qed.

(** The loop over the transforms, field by field. *)
Lemma scanOffer_eq want ts :
  scanOffer want ts =
    mkOffer (head (omap (acceptedCipher want) ts)) (bool_decide (tr TransESN ESN_NO 0 ∈ ts)) (List.find takesInteg ts)
      (existsb (λ t, trType t =? TransInteg) ts) (existsb (λ t, negb (knownType t)) ts).
Proof.
  induction ts as [|t ts IH] using rev_ind; [by rewrite bool_decide_eq_false_2 by (by intros ?%elem_of_nil)|].
  unfold scanOffer in *. rewrite foldl_app, IH. cbn [foldl]. clear IH.
  rewrite omap_app, find_snoc, !existsb_app. cbn [omap list_omap existsb]. rewrite !orb_false_r.
  assert (bool_decide (tr TransESN ESN_NO 0 ∈ ts ++ [t]) =
    bool_decide (tr TransESN ESN_NO 0 ∈ ts) ||
    ((trType t =? TransESN) && ((trID t =? ESN_NO) && (KeyLengthBits t =? 0) && negb (UnsupportedAttributes t)))) as ->.
  { apply eq_bool_prop_intro. rewrite orb_True, bool_decide_spec, bool_decide_spec, elem_of_app, list_elem_of_singleton.
    rewrite Is_true_true, <- esn_iff. naive_solver. }
  unfold scanTransform, takesInteg, knownType, acceptedCipher.
  cbn [ofEncryption ofESN ofInteg ofIntegOffered ofUnacceptable].
  destruct (Z.eqb_spec (trType t) TransEncr) as [E|E].
  - rewrite E. change (TransEncr =? TransESN) with false. change (TransEncr =? TransInteg) with false.
    cbn [negb andb orb]. rewrite !orb_false_r. 
    destruct (canonicalEncryptionTransform t) as [c|e|]; [destruct (childEncryptionAccepted c want)|..];
      rewrite ?app_nil_r, ?head_snoc; destruct (head _), (List.find _ _); done.
  - assert (match canonicalEncryptionTransform t with Ok c => if childEncryptionAccepted c want then Some c else None | _ => None end = None) as ->.
    { destruct (canonicalEncryptionTransform t) eqn:Ec; [|done..]. by apply canonical_encr in Ec. }
    rewrite app_nil_r. cbn [orb].
    destruct (Z.eqb_spec (trType t) TransESN) as [E1|E1].
    { rewrite E1. change (TransESN =? TransInteg) with false. cbn [andb orb negb]. rewrite !orb_false_r. by destruct (List.find _ _). }
    cbn [andb orb]. rewrite orb_false_r. destruct (Z.eqb_spec (trType t) TransDH) as [E2|E2].
    { rewrite E2. change (TransDH =? TransInteg) with false. cbn [andb orb negb]. rewrite !orb_false_r. by destruct (List.find _ _). }
    cbn [orb]. destruct (Z.eqb_spec (trType t) TransInteg) as [E3|E3]; cbn [andb negb]; rewrite ?orb_true_r, ?orb_false_r; [done|].
    by destruct (List.find _ _).
Qed.

(** A proposal a Child SA can be taken from, with the cipher [e] and the
    integrity transform [i] to echo: it names no type of transform this node does
    not know; [e] is the first of its ciphers that is accepted; it offers no
    extended sequence numbers; and of integrity it offers nothing, or NONE. *)
Record suitable (want : option Transform) (p : Proposal) (e i : Transform) : Prop := {
  su_shape : Number p ≠ 0 ∧ Protocol p = ProtoESP ∧ length (SPI p) = 4%nat ∧ be_of (SPI p) ≠ 0;
  su_known : Forall (λ t, trType t ∈ [TransEncr; TransESN; TransDH; TransInteg]) (Transforms p);
  su_cipher : ∃ pre t post, Transforms p = pre ++ t :: post ∧ canonicalEncryptionTransform t = Ok e ∧
    childEncryptionAccepted e want = true ∧
    (∀ t' c, t' ∈ pre → canonicalEncryptionTransform t' = Ok c → childEncryptionAccepted c want = false);
  su_esn : tr TransESN ESN_NO 0 ∈ Transforms p;
  su_integ : (i = zeroTransform ∧ ∀ t, t ∈ Transforms p → trType t ≠ TransInteg) ∨
    (i ∈ Transforms p ∧ takesInteg i = true) }.

Lemma omap_head {A B} (f : A → option B) l y :
  head (omap f l) = Some y ↔ ∃ pre x post, l = pre ++ x :: post ∧ f x = Some y ∧ ∀ x', x' ∈ pre → f x' = None.
Proof.
  induction l as [|x l IH]; cbn [omap list_omap].
  { split; [done|]. intros ([|] & ? & ? & ? & _); done. }
  destruct (f x) as [z|] eqn:E; cbn [head].
  - split.
    + intros [= ->]. exists [], x, l. split_and!; try done. by intros ? ?%elem_of_nil.
    + intros (pre & x' & post & El & Ey & Hn). destruct pre as [|x0 pre]; cbn in El; simplify_eq; [done|].
      by rewrite Hn in E by (apply elem_of_cons; by left).
  - change (head _ = Some y) with (head (omap f l) = Some y). rewrite IH. split.
    + intros (pre & x' & post & -> & Ey & Hn). exists (x :: pre), x', post. split_and!; try done.
      intros x0 [->|]%elem_of_cons; auto.
    + intros (pre & x' & post & El & Ey & Hn). destruct pre as [|x0 pre]; cbn in El; simplify_eq.
      eexists _, _, _. split_and!; [done | done |]. intros ? ?. apply Hn, elem_of_cons. by right.
Qed.

Lemma acceptedCipher_Some want t e :
  acceptedCipher want t = Some e ↔ canonicalEncryptionTransform t = Ok e ∧ childEncryptionAccepted e want = true.
Proof.
  unfold acceptedCipher. destruct (canonicalEncryptionTransform t) as [c|x|]; [|naive_solver..].
  destruct (childEncryptionAccepted c want) eqn:E; [naive_solver|]. split; [done|]. intros ([= ->] & ?). congruence.
Qed.

Lemma acceptedCipher_None want t :
  acceptedCipher want t = None ↔ ∀ c, canonicalEncryptionTransform t = Ok c → childEncryptionAccepted c want = false.
Proof.
  unfold acceptedCipher. destruct (canonicalEncryptionTransform t) as [c|x|]; [|by split|by split].
  destruct (childEncryptionAccepted c want) eqn:E; split; try done.
  - intros H. by rewrite H in E.
  - by intros _ ? [= <-].
Qed.

Lemma knownType_iff t : knownType t = true ↔ trType t ∈ [TransEncr; TransESN; TransDH; TransInteg].
Proof.
  unfold knownType. rewrite !orb_true_iff, !Z.eqb_eq, !elem_of_cons, elem_of_nil. naive_solver.
Qed.

Lemma unknown_iff ts : existsb (λ t, negb (knownType t)) ts = false ↔
  Forall (λ t, trType t ∈ [TransEncr; TransESN; TransDH; TransInteg]) ts.
Proof.
  induction ts as [|t ts IH]; cbn [existsb]; [by split; constructor|].
  rewrite orb_false_iff, negb_false_iff, knownType_iff, IH, Forall_cons. done.
Qed.

Lemma namesType_iff k ts : existsb (λ t, trType t =? k) ts = false ↔ ∀ t, t ∈ ts → trType t ≠ k.
Proof.
  induction ts as [|t ts IH]; cbn [existsb]; [split; [by intros _ ? ?%elem_of_nil | done]|].
  rewrite orb_false_iff, IH, Z.eqb_neq. setoid_rewrite elem_of_cons. naive_solver.
Qed.

Lemma childShape_iff p : childShape p = true ↔
  Number p ≠ 0 ∧ Protocol p = ProtoESP ∧ length (SPI p) = 4%nat ∧ be_of (SPI p) ≠ 0.
Proof.
  unfold childShape. rewrite !andb_true_iff, !negb_true_iff, !Z.eqb_neq, Z.eqb_eq, Nat.eqb_eq. naive_solver.
Qed.

Lemma find_elem {A} (f : A → bool) l x : List.find f l = Some x → x ∈ l ∧ f x = true.
Proof. intros [? ?]%List.find_some. by rewrite list_elem_of_In. Qed.

Lemma childSuite_sound want p e i : childShape p = true → childSuite want p = Some (e, i) → suitable want p e i.
Proof.
  rewrite childShape_iff. unfold childSuite. rewrite scanOffer_eq. cbn [ofEncryption ofESN ofInteg ofIntegOffered ofUnacceptable].
  intros Hs. destruct (existsb (λ t, negb (knownType t)) _) eqn:Ek; [done|]. cbn [orb].
  destruct (existsb (λ t, trType t =? TransInteg) _ && _) eqn:Ei; [done|].
  destruct (head _) as [c|] eqn:Ec; [|done]. destruct (bool_decide (tr TransESN ESN_NO 0 ∈ _)) eqn:Ee; [apply bool_decide_eq_true in Ee|done]. intros [= -> <-].
  split; [done | by apply unknown_iff | | done |].
  - apply omap_head in Ec as (pre & t & post & Ep & [Hc Ha]%acceptedCipher_Some & Hn).
    exists pre, t, post. split_and!; try done. intros t' c Hin. by apply acceptedCipher_None, Hn.
  - destruct (List.find takesInteg (Transforms p)) as [t|] eqn:Ef.
    + right. by apply find_elem in Ef.
    + left. split; [done|]. apply namesType_iff. rewrite bool_decide_eq_false_2 in Ei by (by intros [? ?]).
      by rewrite andb_true_r in Ei.
Qed.

Lemma childSuite_complete want p e i : suitable want p e i → childShape p = true ∧ ∃ i', childSuite want p = Some (e, i').
Proof.
  intros [Hs Hk (pre & t & post & Ep & Hc & Ha & Hn) He Hi]. split; [by apply childShape_iff|].
  unfold childSuite. rewrite scanOffer_eq. cbn [ofEncryption ofESN ofInteg ofIntegOffered ofUnacceptable].
  rewrite (proj2 (unknown_iff _)) by done. cbn [orb].
  assert (head (omap (acceptedCipher want) (Transforms p)) = Some e) as ->.
  { apply omap_head. exists pre, t, post. split_and!; [done | by apply acceptedCipher_Some |].
    intros t' Hin. apply acceptedCipher_None. intros c. by apply Hn. }
  rewrite (bool_decide_eq_true_2 _ He).
  assert (existsb (λ t, trType t =? TransInteg) (Transforms p) &&
    negb (bool_decide (is_Some (List.find takesInteg (Transforms p)))) = false) as ->; [|by eexists].
  destruct Hi as [[_ Hi]|[Hi Ht]].
  - by rewrite (proj2 (namesType_iff _ _) Hi).
  - rewrite andb_false_iff. right. rewrite negb_false_iff. apply bool_decide_eq_true_2.
    destruct (List.find takesInteg (Transforms p)) eqn:Ef; [by eexists|].
    rewrite list_elem_of_In in Hi. pose proof (List.find_none _ _ Ef i Hi). congruence.
Qed.

(** The group fits: the KE payload is in a group offered and supported, or the
    offer lets the exchange go without one. *)
Definition groupFits (p : Proposal) (g : Z) (dh : Transform) : Prop :=
  (supportedIKEGroup g = true ∧ tr TransDH g 0 ∈ Transforms p ∧ dh = tr TransDH g 0) ∨
  (dh = zeroTransform ∧ ∀ t, t ∈ Transforms p → trType t ≠ TransDH) ∨
  (dh = tr TransDH 0 0 ∧ tr TransDH 0 0 ∈ Transforms p).

Lemma selectDH_child p g dh pref ok :
  selectDHTransform (Transforms p) g true = (dh, pref, ok) →
  if ok then groupFits p g dh
  else (∀ dh', ¬ groupFits p g dh') ∧ pref = preferredGroup (Transforms p).
Proof.
  rewrite selectDH_eq. cbn [andb]. destruct (supportedIKEGroup g && _) eqn:E1.
  { intros [= <- <- <-]. apply andb_true_iff in E1 as [? E1]. apply bool_decide_eq_true in E1. left. done. }
  destruct (namesGroup (Transforms p)) eqn:E2; cbn [negb].
  2:{ intros [= <- <- <-]. right. left. split; [done|]. by apply namesType_iff. }
  destruct (bool_decide (tr TransDH 0 0 ∈ _)) eqn:E3; [apply bool_decide_eq_true in E3 | apply bool_decide_eq_false in E3];
    intros [= <- <- <-]; [by right; right|]. split; [|done].
  intros dh' [(Hs & Hin & _)|[(_ & Hn)|(_ & Hz)]]; [|apply namesType_iff in Hn; unfold namesGroup in E2; congruence | done].
  rewrite Hs in E1. cbn [andb] in E1. by apply bool_decide_eq_false in E1.
Qed.

(** ** The whole offer *)

Definition fits (want : option Transform) (g : Z) (p : Proposal) : Prop :=
  ∃ e i dh, suitable want p e i ∧ groupFits p g dh.

(** Whether one proposal can be used at all, as the code and the reading see it. *)
Lemma childSuite_cases want p :
  (∃ e i, childShape p = true ∧ childSuite want p = Some (e, i) ∧ suitable want p e i) ∨
  ((∀ e i, ¬ suitable want p e i) ∧ (childShape p = false ∨ childSuite want p = None)).
Proof.
  destruct (childShape p) eqn:Es.
  - destruct (childSuite want p) as [[e i]|] eqn:Ec.
    + left. exists e, i. split_and!; [done | done | by apply childSuite_sound].
    + right. split; [|by right]. intros e i (_ & ? & ?)%childSuite_complete. congruence.
  - right. split; [|by left]. intros e i (? & _)%childSuite_complete. congruence.
Qed.

Lemma selectChild_skip want g p rest pd :
  (∀ e i, ¬ suitable want p e i) → selectChild want g (p :: rest) pd = selectChild want g rest pd.
Proof.
  intros Hn. destruct (childSuite_cases want p) as [(e & i & _ & _ & H)|[_ [E|E]]]; [by apply Hn in H|..];
    cbn [selectChild]; rewrite E; cbn [negb]; [done|]. by destruct (negb (childShape p)).
Qed.

(** A suitable proposal is taken, or passed over for its group. *)
Lemma selectChild_suitable want g p rest pd e i :
  suitable want p e i →
  (∃ e i dh, suitable want p e i ∧ groupFits p g dh ∧
     selectChild want g (p :: rest) pd = Ok (Selected (mkSelection p e dh i (be_of (SPI p))))) ∨
  (¬ fits want g p ∧
     selectChild want g (p :: rest) pd = selectChild want g rest (if pd =? 0 then preferredGroup (Transforms p) else pd)).
Proof.
  intros H. destruct (childSuite_cases want p) as [(e' & i' & Es & Ec & Hs)|[Hn _]]; [|by apply Hn in H].
  cbn [selectChild]. rewrite Es, Ec. cbn [negb].
  destruct (selectDHTransform (Transforms p) g true) as [[dh pref] ok] eqn:Ed.
  pose proof (selectDH_child _ _ _ _ _ Ed) as Hd. destruct ok; [left | right].
  - by exists e', i', dh.
  - destruct Hd as [Hd ->]. split; [|done]. intros (? & ? & dh' & _ & Hx). by eapply Hd.
Qed.

Lemma suitable_dec want p : (∃ e i, suitable want p e i) ∨ (∀ e i, ¬ suitable want p e i).
Proof. destruct (childSuite_cases want p) as [(e & i & _ & _ & H)|[H _]]; [left; by exists e, i | by right]. Qed.

(** The group asked for when nothing fits: our preferred one in the first
    suitable proposal that has one. *)
Inductive asked (want : option Transform) : list Proposal → Z → Prop :=
| asked_here p rest k : (∃ e i, suitable want p e i) → preferredGroup (Transforms p) = k → k ≠ 0 → asked want (p :: rest) k
| asked_later p rest k : ((∃ e i, suitable want p e i) → preferredGroup (Transforms p) = 0) → asked want rest k →
    asked want (p :: rest) k.

Lemma selectChild_spec want g props pd :
  match selectChild want g props pd with
  | Panic => False
  | Ok (Selected s) => ∃ pre post, props = pre ++ selProposal s :: post ∧ Forall (λ p, ¬ fits want g p) pre ∧
      suitable want (selProposal s) (selEncryption s) (selInteg s) ∧ groupFits (selProposal s) g (selDH s) ∧
      selRemoteSPI s = be_of (SPI (selProposal s))
  | Ok (InvalidKE k) => Forall (λ p, ¬ fits want g p) props ∧ k ≠ 0 ∧ (if pd =? 0 then asked want props k else k = pd)
  | Err _ => Forall (λ p, ¬ fits want g p) props ∧ pd = 0 ∧ ∀ k, ¬ asked want props k
  end.
Proof.
  revert pd. induction props as [|p rest IH]; intros pd.
  { cbn [selectChild]. destruct (Z.eqb_spec pd 0) as [->|]; cbn [negb]; [|by split_and!].
    split_and!; [constructor | done |]. intros k H. by inversion H. }
  destruct (suitable_dec want p) as [(e & i & Hs)|Hn].
  - destruct (selectChild_suitable want g p rest pd e i Hs) as [(e' & i' & dh & Hs' & Hg & ->)|[Hnf ->]].
    { exists [], rest. by split_and!. }
    specialize (IH (if pd =? 0 then preferredGroup (Transforms p) else pd)).
    destruct (selectChild want g rest _) as [[s|k]|x|]; [| | |done].
    + destruct IH as (pre & post & -> & Hpre & IH). exists (p :: pre), post. split; [done|]. split; [by constructor | exact IH].
    + destruct IH as (Hf & Hk & IH). split_and!; [by constructor | done |].
      destruct (Z.eqb_spec pd 0) as [->|Hpd].
      * destruct (Z.eqb_spec (preferredGroup (Transforms p)) 0) as [E0|]; [by apply asked_later|].
        subst k. apply asked_here; [by exists e, i | done | done].
      * by rewrite (proj2 (Z.eqb_neq pd 0)) in IH.
    + destruct IH as (Hf & Hk & IH). split_and!; [by constructor | destruct (Z.eqb_spec pd 0); done |].
      intros k Ha. inversion Ha; subst; [|by eapply IH].
      destruct (Z.eqb_spec pd 0); congruence.
  - rewrite selectChild_skip by done. specialize (IH pd).
    assert (¬ fits want g p) as Hnf by (intros (e & i & dh & H & _); by apply Hn in H).
    destruct (selectChild want g rest pd) as [[s|k]|x|] eqn:E; [| | |done].
    + destruct IH as (pre & post & -> & Hpre & IH). exists (p :: pre), post. split; [done|]. split; [by constructor | exact IH].
    + destruct IH as (Hf & Hk & IH). split_and!; [by constructor | done |]. destruct (pd =? 0); [|done].
      apply asked_later; [|done]. intros (e & i & H). by apply Hn in H.
    + destruct IH as (Hf & Hk & IH). split_and!; [by constructor | done |]. intros k Ha.
      inversion Ha as [? ? ? (e & i & H)|]; subst; [by apply Hn in H | by eapply IH].
Qed.

(** Retried in the group asked for, the same offer is taken. *)
Lemma asked_selected want g props k pd :
  asked want props k → Forall (λ p, ¬ fits want g p) props →
  ∃ s, selectChild want k props pd = Ok (Selected s) ∧ selDH s = tr TransDH k 0 ∧
    suitable want (selProposal s) (selEncryption s) (selInteg s).
Proof.
  intros Ha. revert pd. induction Ha as [p rest k (e & i & Hs) Hk Hk0|p rest k Hp Ha IH]; intros pd [Hnf Hf]%Forall_cons.
  - destruct (preferredGroup_spec (Transforms p)) as [Hsup Hin]; [congruence|]. rewrite Hk in Hsup, Hin.
    destruct (childSuite_cases want p) as [(e' & i' & Es & Ec & Hs')|[Hn _]]; [|by apply Hn in Hs].
    exists (mkSelection p e' (tr TransDH k 0) i' (be_of (SPI p))). split; [|by split].
    cbn [selectChild]. rewrite Es, Ec. cbn [negb].
    by rewrite selectDH_eq, Hsup, (bool_decide_eq_true_2 _ Hin).
  - destruct (suitable_dec want p) as [(e & i & Hs)|Hn]; [|rewrite selectChild_skip by done; by apply IH].
    destruct (selectChild_suitable want k p rest pd e i Hs) as [(e' & i' & dh & Hs' & Hg & _)|[_ ->]]; [|by apply IH].
    exfalso. apply Hnf. exists e', i'. destruct Hg as [(Hsup & Hin & _)|Hg].
    + exfalso. eapply preferredGroup_zero; [apply Hp; by exists e, i | exact Hsup | done].
    + exists dh. split; [done|]. by right.
Qed.

(** The cipher a request is held to: that of the SA it replaces, if any. *)
Definition wanted (expected : option ChildSA) (want : option Transform) : Prop :=
  match expected with
  | None => want = None
  | Some child => ∃ t, canonicalChildCipher child = Ok t ∧ want = Some t
  end.

(** What a responder takes from an offer of Child SAs. It selects the first
    proposal that can be used as a whole, with its first acceptable cipher; every
    transform it will echo was offered. If none fits the KE payload but one would
    in another group, it asks for that group, which it supports; and the same
    offer sent again in that group is then taken, so one retry is enough.
    Otherwise nothing in the offer could ever have been taken. *)
Theorem child_selection_exact body expected g props want :
  DecodeSA body = Ok props → wanted expected want →
  match selectChildRequestProposal body expected g with
  | Panic => False
  | Ok (Selected s) => ∃ pre post, props = pre ++ selProposal s :: post ∧ Forall (λ p, ¬ fits want g p) pre ∧
      suitable want (selProposal s) (selEncryption s) (selInteg s) ∧ groupFits (selProposal s) g (selDH s) ∧
      selRemoteSPI s = be_of (SPI (selProposal s))
  | Ok (InvalidKE k) => Forall (λ p, ¬ fits want g p) props ∧ supportedIKEGroup k = true ∧
      ∃ s, selectChildRequestProposal body expected k = Ok (Selected s) ∧ selDH s = tr TransDH k 0
  | Err _ => ∀ k p, p ∈ props → ¬ fits want k p
  end.
Proof.
  intros Hd Hw.
  assert (∀ k, selectChildRequestProposal body expected k = selectChild want k props 0) as E.
  { intros k. unfold selectChildRequestProposal. rewrite Hd. destruct expected as [c|]; cbn [wanted] in Hw; [|by subst].
    destruct Hw as (t & -> & ->). done. }
  rewrite E. pose proof (selectChild_spec want g props 0) as P.
  destruct (selectChild want g props 0) as [[s|k]|x|]; [done | | | done].
  - destruct P as (Hf & Hk & Ha). change (0 =? 0) with true in Ha. cbv iota in Ha. split_and!; [done | |].
    + clear -Ha. induction Ha as [p rest k _ Hk Hk0|]; [|done]. rewrite <- Hk. apply preferredGroup_spec. congruence.
    + destruct (asked_selected want g props k 0 Ha Hf) as (s & ? & ? & _). exists s. by rewrite E.
  - destruct P as (Hf & _ & Ha). intros k p Hin Hfit. rewrite Forall_forall in Hf.
    destruct Hfit as (e & i & dh & Hs & [(Hsup & Hg & _)|Hg]); [|apply (Hf p Hin); exists e, i, dh; by split; [|right]].
    clear Hf Hd E. induction props as [|q rest IH]; [by apply elem_of_nil in Hin|].
    destruct (decide (preferredGroup (Transforms q) = 0)) as [E0|E0].
    + apply elem_of_cons in Hin as [->|Hin]; [by eapply preferredGroup_zero|].
      apply IH; try done. intros k' Hk'. apply (Ha k'). by apply asked_later.
    + destruct (suitable_dec want q) as [Hq|Hq]; [by eapply Ha, asked_here|].
      apply elem_of_cons in Hin as [->|Hin]; [by eapply Hq|].
      apply IH; try done. intros k' Hk'. apply (Ha k'). apply asked_later; [|done]. intros (e' & i' & H). by apply Hq in H.
Qed.

(** ** IKE SAs *)

Lemma DecodeSA_one p : proposal_ok p → Z.of_nat (length (encodeProposal p true)) < 2 ^ 16 → DecodeSA (EncodeSA [p]) = Ok [p].
Proof.
  intros Hp Hl. apply takeProposals_encode; [by apply Forall_singleton | by apply Forall_singleton | apply length_EncodeSA].
Qed.

Lemma pick_spec ours theirs want c : pick ours theirs want = Some c → c ∈ ours ∧ c ∈ theirs ∧ trType c = want.
Proof.
  unfold pick. intros [Hin Hc]%find_elem. apply andb_true_iff in Hc as [Ht%Z.eqb_eq Hb]. bool_props. done.
Qed.

(** A suite both ends can derive keys for. *)
Definition usable (s : SASuite) : Prop :=
  (∃ ap, aeadParams (suEncrID s) (suEncrKeyBits s) = Ok ap) ∧ PRFOutputLen (suPRFID s) ≠ O ∧ supportedIKEGroup (suDHGroup s) = true.

Lemma ours_usable encr prfT dhT :
  encr ∈ Transforms ikeProposal → prfT ∈ Transforms ikeProposal → dhT ∈ Transforms ikeProposal →
  trType encr = TransEncr → trType prfT = TransPRF → trType dhT = TransDH →
  usable (mkSuite (trID encr) (KeyLengthBits encr) (trID prfT) (trID dhT)).
Proof.
  intros He Hp Hd Te Tp Td. unfold usable. cbn [suEncrID suEncrKeyBits suPRFID suDHGroup]. split_and!.
  - unfold ikeProposal in He. cbn [Transforms] in He. rewrite !elem_of_cons, elem_of_nil in He.
    destruct_or! He; subst; try done; eexists; vm_compute; reflexivity.
  - unfold ikeProposal in Hp. cbn [Transforms] in Hp. rewrite !elem_of_cons, elem_of_nil in Hp.
    destruct_or! Hp; subst; done.
  - unfold ikeProposal in Hd. cbn [Transforms] in Hd. rewrite !elem_of_cons, elem_of_nil in Hd.
    destruct_or! Hd; subst; done.
Qed.

(** Three transforms of ours, one of each type, are a suite. *)
Lemma suite_of_ours n encr prfT dhT :
  n = 1 → encr ∈ Transforms ikeProposal → prfT ∈ Transforms ikeProposal → dhT ∈ Transforms ikeProposal →
  trType encr = TransEncr → trType prfT = TransPRF → trType dhT = TransDH →
  suiteFromProposal (mkProposal n ProtoIKE [] [encr; prfT; dhT]) =
    Ok (mkSuite (trID encr) (KeyLengthBits encr) (trID prfT) (trID dhT)).
Proof.
  intros -> He Hp Hd Te Tp Td. unfold suiteFromProposal. cbn [Number Protocol SPI Transforms length].
  cbn [selectTransforms]. rewrite Te, Tp, Td.
  rewrite (bool_decide_eq_true_2 _ He), (bool_decide_eq_true_2 _ Hp), (bool_decide_eq_true_2 _ Hd).
  assert (∀ m : gmap Z Transform, ∀ k, m !! k = None → bool_decide (is_Some (m !! k)) = false) as Hno.
  { intros m k E. apply bool_decide_eq_false_2. rewrite E. by intros [? ?]. }
  rewrite !Hno by done. cbn [negb]. rbind. done.
Qed.

(** The transforms a proposal for an IKE SA would be taken with. *)
Definition ikeChoice (p : Proposal) : option (Transform * Transform * Transform * option Transform) :=
  if (Number p =? 0) || negb (Protocol p =? ProtoIKE) || negb (length (SPI p) =? 0)%nat then None
  else
    match ikeIntegrity (Transforms p), pick (Transforms ikeProposal) (Transforms p) TransEncr,
      pick (Transforms ikeProposal) (Transforms p) TransPRF, pick (Transforms ikeProposal) (Transforms p) TransDH with
    | Some integ, Some encr, Some prfT, Some dhT => Some (encr, prfT, dhT, integ)
    | _, _, _, _ => None
    end.

Definition taken (p : Proposal) (c : Transform * Transform * Transform * option Transform) : Proposal * SASuite :=
  let '(encr, prfT, dhT, integ) := c in
  (mkProposal (Number p) ProtoIKE [] ([encr; prfT; dhT] ++ option_list integ),
   mkSuite (trID encr) (KeyLengthBits encr) (trID prfT) (trID dhT)).

Lemma selectIKE_cons g p rest pd :
  selectIKE g (p :: rest) pd =
    match ikeChoice p with
    | None => selectIKE g rest pd
    | Some (encr, prfT, dhT, integ) =>
        if negb (trID dhT =? g) then selectIKE g rest (if pd =? 0 then trID dhT else pd)
        else Ok (Selected (taken p (encr, prfT, dhT, integ)))
    end.
Proof.
  cbn [selectIKE]. unfold ikeChoice. destruct (_ || _); [done|]. destruct (ikeIntegrity _); [|done].
  destruct (pick _ _ TransEncr); [|done]. destruct (pick _ _ TransPRF); [|done]. by destruct (pick _ _ TransDH).
Qed.

Lemma ikeChoice_spec p encr prfT dhT integ : ikeChoice p = Some (encr, prfT, dhT, integ) →
  Number p ≠ 0 ∧ (encr ∈ Transforms ikeProposal ∧ encr ∈ Transforms p ∧ trType encr = TransEncr) ∧
  (prfT ∈ Transforms ikeProposal ∧ prfT ∈ Transforms p ∧ trType prfT = TransPRF) ∧
  (dhT ∈ Transforms ikeProposal ∧ dhT ∈ Transforms p ∧ trType dhT = TransDH).
Proof.
  unfold ikeChoice. destruct (Z.eqb_spec (Number p) 0); [done|]. cbn [orb]. destruct (_ || _); [done|].
  destruct (ikeIntegrity _); [|done]. destruct (pick _ _ TransEncr) eqn:E1; [|done].
  destruct (pick _ _ TransPRF) eqn:E2; [|done]. destruct (pick _ _ TransDH) eqn:E3; [|done]. intros [= -> -> -> ->].
  split; [done|]. split; [|split]; by eapply pick_spec.
Qed.

Lemma dh_nonzero dhT : dhT ∈ Transforms ikeProposal → trType dhT = TransDH → trID dhT ≠ 0.
Proof.
  unfold ikeProposal. cbn [Transforms]. rewrite !elem_of_cons, elem_of_nil. intros H Ht. destruct_or! H; subst; done.
Qed.

(** The selection, and what a request for another group is good for. *)
Lemma selectIKE_spec g props pd :
  match selectIKE g props pd with
  | Panic => False
  | Ok (Selected r) => ∃ p encr prfT dhT integ, p ∈ props ∧ ikeChoice p = Some (encr, prfT, dhT, integ) ∧ trID dhT = g ∧
      r = taken p (encr, prfT, dhT, integ)
  | Ok (InvalidKE k) => k ≠ 0 ∧ if pd =? 0
      then k ≠ g ∧ ∀ pd', ∃ p encr prfT dhT integ, p ∈ props ∧ ikeChoice p = Some (encr, prfT, dhT, integ) ∧ trID dhT = k ∧
             selectIKE k props pd' = Ok (Selected (taken p (encr, prfT, dhT, integ)))
      else k = pd
  | Err _ => pd = 0 ∧ ∀ p, p ∈ props → ikeChoice p = None
  end.
Proof.
  revert pd. induction props as [|p rest IH]; intros pd.
  { cbn [selectIKE]. destruct (Z.eqb_spec pd 0) as [->|]; cbn [negb]; [|done]. split; [done|]. by intros ? ?%elem_of_nil. }
  rewrite selectIKE_cons. destruct (ikeChoice p) as [[[[encr prfT] dhT] integ]|] eqn:Ec.
  - destruct (Z.eqb_spec (trID dhT) g) as [Eg|Eg]; cbn [negb].
    { exists p, encr, prfT, dhT, integ. split_and!; try done. apply elem_of_cons. by left. }
    destruct (ikeChoice_spec _ _ _ _ _ Ec) as (_ & _ & _ & Hin & _ & Ht). pose proof (dh_nonzero dhT Hin Ht) as Hnz.
    specialize (IH (if pd =? 0 then trID dhT else pd)). destruct (selectIKE g rest _) as [[r|k]|x|]; [| | |done].
    + destruct IH as (q & e' & p' & d' & i' & ? & ? & ? & ->). exists q, e', p', d', i'. split_and!; try done. apply elem_of_cons. by right.
    + destruct IH as [Hk IH]. split; [done|]. destruct (Z.eqb_spec pd 0) as [->|Hpd].
      * rewrite (proj2 (Z.eqb_neq (trID dhT) 0) Hnz) in IH. subst k. split; [done|]. intros pd'.
        exists p, encr, prfT, dhT, integ. split_and!; try done; [apply elem_of_cons; by left|].
        by rewrite selectIKE_cons, Ec, Z.eqb_refl.
      * by rewrite (proj2 (Z.eqb_neq pd 0)) in IH.
    + destruct IH as [IH _]. destruct (Z.eqb_spec pd 0); done.
  - specialize (IH pd). destruct (selectIKE g rest pd) as [[r|k]|x|]; [| | |done].
    + destruct IH as (q & e' & p' & d' & i' & ? & ? & ? & ->). exists q, e', p', d', i'. split_and!; try done. apply elem_of_cons. by right.
    + destruct IH as [Hk IH]. split; [done|]. destruct (pd =? 0); [|done]. destruct IH as [Hg IH]. split; [done|]. intros pd'.
      destruct (IH pd') as (q & e' & p' & d' & i' & ? & ? & ? & E). exists q, e', p', d', i'. split_and!; try done; [apply elem_of_cons; by right|].
      by rewrite selectIKE_cons, Ec.
    + destruct IH as [-> IH]. split; [done|]. intros q [->|Hq]%elem_of_cons; [done | by apply IH].
Qed.

Lemma DecodeSA_safe body : safe (DecodeSA body).
Proof. by apply takeProposals_safe. Qed.

(** What a responder takes from an offer of IKE SAs: a suite in the group of the
    KE payload that both ends can derive keys for, from transforms of ours that
    were offered, and which an initiator accepts as the same suite; or it asks
    for another group, supported and offered, in which the same offer is taken. *)
Theorem ike_selection_exact body g :
  match selectIKEProposal body g with
  | Panic => False
  | Ok (Selected (p, s)) => suDHGroup s = g ∧ usable s ∧
      (Number p = 1 → length (Transforms p) = 3%nat → suiteFromProposal p = Ok s) ∧
      ∃ props q, DecodeSA body = Ok props ∧ q ∈ props ∧ Number q = Number p ∧ Forall (λ t, t ∈ Transforms q) (take 3 (Transforms p))
  | Ok (InvalidKE k) => supportedIKEGroup k = true ∧ k ≠ g ∧
      ∃ p s, selectIKEProposal body k = Ok (Selected (p, s)) ∧ suDHGroup s = k
  | Err _ => ∀ props p, DecodeSA body = Ok props → p ∈ props → ikeChoice p = None
  end.
Proof.
  unfold selectIKEProposal. destruct (DecodeSA body) as [props|x|] eqn:Ed; [|done|by destruct (DecodeSA_safe body)].
  pose proof (selectIKE_spec g props 0) as P. destruct (selectIKE g props 0) as [[[p s]|k]|x|]; [| | |done].
  - destruct P as (q & encr & prfT & dhT & integ & Hq & Hc & <- & [= -> ->]).
    destruct (ikeChoice_spec _ _ _ _ _ Hc) as (Hn & (He & He' & Te) & (Hp & Hp' & Tp) & (Hd & Hd' & Td)).
    cbn [suDHGroup Number Transforms]. split_and!; [done | by apply ours_usable | |].
    + intros Hn1 Hl. destruct integ; [done|]. by apply suite_of_ours.
    + exists props, q. split_and!; try done. by repeat constructor.
  - destruct P as [Hk [Hg P]]. destruct (P 0) as (q & encr & prfT & dhT & integ & Hq & Hc & <- & E).
    destruct (ikeChoice_spec _ _ _ _ _ Hc) as (Hn & (He & He' & Te) & (Hp & Hp' & Tp) & (Hd & Hd' & Td)).
    split_and!; [|done|].
    + destruct (ours_usable encr prfT dhT) as (_ & _ & ?); done.
    + eexists _, _. by rewrite E.
  - intros props' p' [= <-]. apply P.
Qed.

(** ** Two nodes agree *)

(** The SA each end rekeys, if any: the same cipher, one of those offered. *)
Definition sameChild (old child : option ChildSA) : Prop :=
  match old, child with
  | None, None => True
  | Some o, Some c => EncrID o = EncrID c ∧ EncrKeyBits o = EncrKeyBits c ∧
      (EncrID o, EncrKeyBits o) ∈ [(ENCR_AES_GCM_16, 256); (ENCR_AES_GCM_16, 128); (ENCR_CHACHA20_POLY1305, 256)]
  | _, _ => False
  end.

Definition childOffer (spi : list Z) (old : option ChildSA) : Proposal :=
  match old with None => espProposal spi | Some o => espRekeyProposal spi o end.

Lemma get_be_whole n v : 0 ≤ v < 256 ^ Z.of_nat n → get_be n (be_to n v) 0 = Ok v.
Proof.
  intros H. pose proof (get_be_app n [] v [] 0 eq_refl) as E. rewrite app_nil_l, app_nil_r in E. rewrite E. by rewrite Z.mod_small.
Qed.

(** A Child SA exchange whose offer has the transforms [ts], to an end that wants
    [want] and answers [encr]. *)
Lemma child_exchange old child want ts e spiI spiR :
  0 < spiI < 2 ^ 32 → 0 < spiR < 2 ^ 32 → wanted child want →
  Forall transform_ok ts → (length ts < 5)%nat → (length (encodeTransforms ts) < 100)%nat →
  childSuite want (mkProposal 1 ProtoESP (be_to 4 spiI) ts) = Some (e, zeroTransform) → namesGroup ts = false →
  transform_ok (echoedCipher e) →
  scanAnswer [echoedCipher e; tr TransESN ESN_NO 0] None false = Ok (Some e, true) →
  match old with
  | Some o => ∃ w, canonicalChildCipher o = Ok w ∧ sameCipher e w = true
  | None => offeredCipher e = true
  end →
  ∃ s, selectChildRequestProposal (EncodeSA [mkProposal 1 ProtoESP (be_to 4 spiI) ts]) child 0 = Ok (Selected s) ∧
    selRemoteSPI s = spiI ∧ selDH s = zeroTransform ∧ selEncryption s = e ∧
    ∀ answer, answer = authAnswer s (be_to 4 spiR) ∨ answer = rekeyAnswer s (be_to 4 spiR) →
      decodeChildProposal (EncodeSA [answer]) old = Ok (answer, e, spiR).
Proof.
  intros Hi Hr Hw Hts Hl Hlt Hs Hng Hech Hscan Hold. set (p := mkProposal 1 ProtoESP (be_to 4 spiI) ts) in *.
  exists (mkSelection p e zeroTransform zeroTransform spiI). split_and!; try done.
  - unfold selectChildRequestProposal. rewrite (DecodeSA_one p).
    2:{ split_and!; [done | cbn; lia | cbn [Transforms p]; lia]. }
    2:{ rewrite length_encodeProposal. cbn [SPI Transforms p]. rewrite length_be_to. lia. }
    assert (match child with None => Ok None | Some c => c ← canonicalChildCipher c; Ok (Some c) end = Ok want) as ->.
    { destruct child as [c|]; cbn [wanted] in Hw; [|by subst]. destruct Hw as (t & -> & ->). done. }
    rbind. cbn [selectChild].
    assert (be_of (SPI p) = spiI) as Esp by (cbn [SPI p]; rewrite be_of_be_to_small; [done | cbn; lia]).
    assert (childShape p = true) as -> by (apply childShape_iff; rewrite Esp; cbn; lia).
    cbn [negb]. rewrite Hs. cbn [Transforms p]. rewrite selectDH_eq, Hng. cbn [negb andb].
    change (supportedIKEGroup 0) with false. cbn [andb]. by rewrite Esp.
  - intros answer Ha.
    assert (answer = mkProposal 1 ProtoESP (be_to 4 spiR) [echoedCipher e; tr TransESN ESN_NO 0]) as -> by (by destruct Ha as [-> | ->]).
    set (a := mkProposal 1 ProtoESP (be_to 4 spiR) [echoedCipher e; tr TransESN ESN_NO 0]).
    unfold decodeChildProposal. rewrite (DecodeSA_one a).
    2:{ split_and!; [|cbn; lia | cbn; lia]. constructor; [done|]. constructor; [|constructor]. split_and!; cbn; lia || done. }
    2:{ rewrite length_encodeProposal. cbn [SPI Transforms a encodeTransforms]. rewrite length_be_to, !length_app.
        unfold encodeTransform. rewrite !length_app, !length_be_to. cbn [length].
        destruct (length_encodeAttrs (echoedCipher e)) as [-> | ->], (length_encodeAttrs (tr TransESN ESN_NO 0)) as [-> | ->]; lia. }
    cbn [Number Protocol SPI Transforms a length]. rewrite length_be_to. change (_ || _) with false. cbv beta iota.
    rewrite get_be_whole by (cbn; lia). rbind. rewrite (proj2 (Z.eqb_neq spiR 0)) by lia. rewrite Hscan. rbind.
    destruct old as [o|]; [|by rewrite Hold]. destruct Hold as (w & -> & ->). done.
Qed.

(** The ciphers of an offer, and what is taken from it. *)
Definition cipherOffer (ts : list Transform) (want : option Transform) (e : Transform) : Prop :=
  Forall transform_ok ts ∧ (length ts < 5)%nat ∧ (length (encodeTransforms ts) < 100)%nat ∧
  (∀ spi, childSuite want (mkProposal 1 ProtoESP spi ts) = Some (e, zeroTransform)) ∧ namesGroup ts = false ∧
  transform_ok (echoedCipher e) ∧ scanAnswer [echoedCipher e; tr TransESN ESN_NO 0] None false = Ok (Some e, true) ∧
  ∃ ap, aeadParams (trID e) (KeyLengthBits e) = Ok ap.

Ltac cipher_offer :=
  split; [repeat constructor; cbn; lia || done|]; split; [vm_compute; lia|]; split; [vm_compute; lia|];
  split; [intros spi; reflexivity|]; split; [reflexivity|]; split; [split_and!; cbn; lia || done|];
  split; [reflexivity | eexists; reflexivity].

Lemma offer_fresh :
  cipherOffer (Transforms (espProposal [])) None (tr TransEncr ENCR_AES_GCM_16 256).
Proof. cipher_offer. Qed.

Lemma offer_pinned id bits :
  (id, bits) ∈ [(ENCR_AES_GCM_16, 256); (ENCR_AES_GCM_16, 128); (ENCR_CHACHA20_POLY1305, 256)] →
  cipherOffer [echoedCipher (tr TransEncr id bits); tr TransESN ESN_NO 0] (Some (tr TransEncr id bits)) (tr TransEncr id bits).
Proof.
  rewrite !elem_of_cons, elem_of_nil. intros [[= -> ->]|[[= -> ->]|[[= -> ->]|[]]]]; cipher_offer.
Qed.

Lemma pinned_offer id bits l r ki ko spi :
  (id, bits) ∈ [(ENCR_AES_GCM_16, 256); (ENCR_AES_GCM_16, 128); (ENCR_CHACHA20_POLY1305, 256)] →
  canonicalChildCipher (mkChildSA id bits l r ki ko) = Ok (tr TransEncr id bits) ∧
  espRekeyProposal spi (mkChildSA id bits l r ki ko) =
    mkProposal 1 ProtoESP spi [echoedCipher (tr TransEncr id bits); tr TransESN ESN_NO 0].
Proof. rewrite !elem_of_cons, elem_of_nil. intros [[= -> ->]|[[= -> ->]|[[= -> ->]|[]]]]; by split. Qed.

Lemma child_agrees old child spiI spiR :
  0 < spiI < 2 ^ 32 → 0 < spiR < 2 ^ 32 → sameChild old child →
  ∃ s, selectChildRequestProposal (EncodeSA [childOffer (be_to 4 spiI) old]) child 0 = Ok (Selected s) ∧
    selRemoteSPI s = spiI ∧ selDH s = zeroTransform ∧
    (∃ ap, aeadParams (trID (selEncryption s)) (KeyLengthBits (selEncryption s)) = Ok ap) ∧
    (∀ o, old = Some o → trID (selEncryption s) = EncrID o ∧ KeyLengthBits (selEncryption s) = EncrKeyBits o) ∧
    ∀ answer, answer = authAnswer s (be_to 4 spiR) ∨ answer = rekeyAnswer s (be_to 4 spiR) →
      decodeChildProposal (EncodeSA [answer]) old = Ok (answer, selEncryption s, spiR).
Proof.
  intros Hi Hr Hs. destruct old as [o|], child as [c|]; cbn [sameChild] in Hs; try done; cbn [childOffer].
  - destruct o as [id bits l r ki ko], c as [id' bits' l' r' ki' ko']. cbn [EncrID EncrKeyBits] in Hs. destruct Hs as (<- & <- & Hin).
    destruct (offer_pinned _ _ Hin) as (H1 & H2 & H3 & H4 & H5 & H6 & H7 & H8).
    destruct (pinned_offer id bits l r ki ko (be_to 4 spiI) Hin) as [Hc ->].
    set (e := tr TransEncr id bits) in *.
    destruct (child_exchange (Some (mkChildSA id bits l r ki ko)) (Some (mkChildSA id bits l' r' ki' ko')) (Some e)
      [echoedCipher e; tr TransESN ESN_NO 0] e spiI spiR) as (s & ? & ? & ? & He & ?); try done.
    { exists e. split; [|done]. by apply (pinned_offer _ _ _ _ _ _ []). }
    { eexists. split; [exact Hc|]. unfold sameCipher. by rewrite !Z.eqb_refl. }
    exists s. rewrite He. split_and!; try done. by intros ? [= <-].
  - destruct offer_fresh as (H1 & H2 & H3 & H4 & H5 & H6 & H7 & H8).
    change (espProposal (be_to 4 spiI)) with (mkProposal 1 ProtoESP (be_to 4 spiI) (Transforms (espProposal []))).
    destruct (child_exchange None None None _ _ spiI spiR Hi Hr eq_refl H1 H2 H3 (H4 (be_to 4 spiI)) H5 H6 H7)
      as (s & ? & ? & ? & He & ?); [vm_compute; reflexivity|]. exists s. rewrite He. by split_and!.
Qed.

#[local] Instance transform_ok_dec t : Decision (transform_ok t).
Proof. unfold transform_ok. apply _. Defined.

(** A rekeyed IKE SA, in a group of ours and with the PRF kept. *)
Lemma ike_rekey_agrees spiI spiR prfID g nonce :
  length nonce = 32%nat →
  0 < spiI < 2 ^ 64 → 0 < spiR < 2 ^ 64 → prfID = PRF_HMAC_SHA2_256 ∨ prfID = PRF_HMAC_SHA2_384 → supportedIKEGroup g = true →
  let offer := ikeRekeyProposal (be_to 8 spiI) prfID in
  ∃ ts s, DecodeSA (EncodeSA [offer]) = Ok [offer] ∧ selectIKERekey g prfID [offer] 0 = inl (ts, s, offer) ∧
    be_of (SPI offer) = spiI ∧ usable s ∧ suPRFID s = prfID ∧ suDHGroup s = g ∧
    acceptIKERekey (EncodeSA [mkProposal (Number offer) ProtoIKE (be_to 8 spiR) ts]) nonce offer g = Ok (s, spiR).
Proof.
  intros Hnl Hi Hr Hprf Hg offer.
  exists [tr TransEncr ENCR_AES_GCM_16 256; tr TransPRF prfID 0; tr TransDH g 0], (mkSuite ENCR_AES_GCM_16 256 prfID g).
  assert (be_of (SPI offer) = spiI) as Esp by (unfold offer, ikeRekeyProposal; cbn [SPI]; apply be_of_be_to_small; cbn; lia).
  assert (length (SPI offer) = 8%nat) as Hsl by (apply length_be_to).
  assert (∃ ts, Transforms offer = ts ∧ Forall transform_ok ts ∧ (length ts < 8)%nat ∧ (length (encodeTransforms ts) < 200)%nat ∧
    selectIKERekeyProposal (mkProposal 1 ProtoIKE [] ts) g prfID =
      (Some ([tr TransEncr ENCR_AES_GCM_16 256; tr TransPRF prfID 0; tr TransDH g 0], mkSuite ENCR_AES_GCM_16 256 prfID g), DH_CURVE25519) ∧
    suiteFromProposal (mkProposal 1 ProtoIKE [] [tr TransEncr ENCR_AES_GCM_16 256; tr TransPRF prfID 0; tr TransDH g 0]) =
      Ok (mkSuite ENCR_AES_GCM_16 256 prfID g) ∧
    Forall (λ t, t ∈ ts) [tr TransEncr ENCR_AES_GCM_16 256; tr TransPRF prfID 0; tr TransDH g 0] ∧
    Forall transform_ok [tr TransEncr ENCR_AES_GCM_16 256; tr TransPRF prfID 0; tr TransDH g 0] ∧
    usable (mkSuite ENCR_AES_GCM_16 256 prfID g)) as (ts & Ets & Hok & Hl & Hlt & Hsel & Hsuite & Hin & Hok3 & Hus).
  { eexists. split; [reflexivity|]. unfold offer. clear -Hprf Hg. apply supported_groups in Hg.
    destruct Hprf as [-> | ->], Hg as [-> |[-> | ->]];
      (split_and!; [| vm_compute; lia | vm_compute; lia | reflexivity | reflexivity | | |
        split; [eexists; reflexivity | by split]]); apply (bool_decide_unpack _); vm_compute; exact I. }
  split_and!; try done.
  - apply DecodeSA_one; [split_and!; rewrite ?Ets; [done | lia | lia]|]. rewrite length_encodeProposal, Hsl, Ets. lia.
  - cbn [selectIKERekey]. rewrite Esp, Hsl. rewrite (proj2 (Z.eqb_neq spiI 0)) by lia.
    change (Number offer =? 0) with false. change (Protocol offer =? ProtoIKE) with true. change (8 =? 8)%nat with true. cbn [negb orb].
    assert (selectIKERekeyProposal offer g prfID = selectIKERekeyProposal (mkProposal 1 ProtoIKE [] ts) g prfID) as ->
      by (unfold selectIKERekeyProposal; cbn [Transforms]; by rewrite Ets).
    by rewrite Hsel.
  - set (a := mkProposal _ _ _ _). unfold acceptIKERekey. rewrite (DecodeSA_one a).
    2:{ split_and!; [done | unfold a; cbn [SPI]; rewrite length_be_to; lia | cbn; lia]. }
    2:{ rewrite length_encodeProposal. unfold a. cbn [SPI Transforms]. rewrite length_be_to. clear -Hprf Hg.
        apply supported_groups in Hg. destruct Hprf as [-> | ->], Hg as [-> |[-> | ->]]; vm_compute; reflexivity. }
    unfold a. cbn [Number Protocol SPI Transforms length]. rewrite length_be_to. change (Number offer) with 1. change (_ || _) with false. cbv beta iota.
    rewrite Hsuite. cbn [suDHGroup suPRFID]. rewrite Z.eqb_refl. cbn [negb]. rewrite Ets.
    assert (validNonceFor nonce prfID = true) as -> by (unfold validNonceFor, validNonce; rewrite Hnl; by destruct Hprf as [-> | ->]).
    cbn [negb].
    assert (forallb (λ t, bool_decide (t ∈ ts)) [tr TransEncr ENCR_AES_GCM_16 256; tr TransPRF prfID 0; tr TransDH g 0] = true) as ->.
    { apply forallb_forall. intros t Ht%list_elem_of_In. apply bool_decide_eq_true_2. rewrite Forall_forall in Hin. by apply Hin. }
    cbn [negb]. rewrite get_be_whole by (cbn; lia). rbind. by rewrite (proj2 (Z.eqb_neq spiR 0)) by lia.
Qed.

(** C16: two nodes of this program agree on every SA they negotiate. What the
    responder selects from the initiator's first offer, the initiator accepts as
    the same suite. For a Child SA, new or replacing one of the same cipher, the
    responder takes the offer without a group and learns the initiator's SPI, and
    the initiator reads the same cipher and the responder's SPI from its answer,
    in IKE_AUTH or CREATE_CHILD_SA; a rekey keeps the cipher. An IKE SA rekeyed in
    any group of ours ends with the same suite, and the same PRF, on both sides. *)
Theorem negotiations_agree old child spiI spiR ikeI ikeR prfID g nonce :
  length nonce = 32%nat →
  0 < spiI < 2 ^ 32 → 0 < spiR < 2 ^ 32 → sameChild old child → 0 < ikeI < 2 ^ 64 → 0 < ikeR < 2 ^ 64 →
  prfID = PRF_HMAC_SHA2_256 ∨ prfID = PRF_HMAC_SHA2_384 → supportedIKEGroup g = true →
  (∃ p s, selectIKEProposal (EncodeSA [ikeProposal]) DH_CURVE25519 = Ok (Selected (p, s)) ∧
     DecodeSA (EncodeSA [p]) = Ok [p] ∧ suiteFromProposal p = Ok s ∧ usable s) ∧
  (∃ s, selectChildRequestProposal (EncodeSA [childOffer (be_to 4 spiI) old]) child 0 = Ok (Selected s) ∧
     selRemoteSPI s = spiI ∧ selDH s = zeroTransform ∧
     (∃ ap, aeadParams (trID (selEncryption s)) (KeyLengthBits (selEncryption s)) = Ok ap) ∧
     (∀ o, old = Some o → trID (selEncryption s) = EncrID o ∧ KeyLengthBits (selEncryption s) = EncrKeyBits o) ∧
     ∀ answer, answer = authAnswer s (be_to 4 spiR) ∨ answer = rekeyAnswer s (be_to 4 spiR) →
       decodeChildProposal (EncodeSA [answer]) old = Ok (answer, selEncryption s, spiR)) ∧
  (let offer := ikeRekeyProposal (be_to 8 ikeI) prfID in
   ∃ ts s, DecodeSA (EncodeSA [offer]) = Ok [offer] ∧ selectIKERekey g prfID [offer] 0 = inl (ts, s, offer) ∧
     be_of (SPI offer) = ikeI ∧ usable s ∧ suPRFID s = prfID ∧ suDHGroup s = g ∧
     acceptIKERekey (EncodeSA [mkProposal (Number offer) ProtoIKE (be_to 8 ikeR) ts]) nonce offer g = Ok (s, ikeR)).
Proof.
  intros H0 H1 H2 H3 H4 H5 H6 H7. split; [|split; [by apply child_agrees | by apply ike_rekey_agrees]].
  eexists _, _. split; [vm_compute; reflexivity|]. split; [vm_compute; reflexivity|]. split; [vm_compute; reflexivity|].
  split; [eexists; reflexivity | by split].
Qed.

(** ** Witnesses *)

(** A peer that offers a group this node prefers and sends a KE payload in
    another: a legacy cipher and an AEAD, an integrity algorithm and NONE. *)
Definition mixedOffer : list Proposal :=
  [mkProposal 1 ProtoESP [0; 0; 1; 0] [tr TransEncr 12 128; tr TransESN ESN_NO 0];
   mkProposal 2 ProtoESP [0; 0; 2; 0]
     [tr TransEncr 12 256; tr TransEncr ENCR_AES_GCM_16 128; tr TransInteg 12 0; tr TransInteg INTEG_NONE 0;
      tr TransDH DH_ECP_256 0; tr TransDH DH_ECP_384 0; tr TransESN ESN_NO 0]].

Lemma child_selection_exact_witness :
  selectChildRequestProposal (EncodeSA mixedOffer) None DH_CURVE25519 = Ok (InvalidKE DH_ECP_384) ∧
  ∃ s, selectChildRequestProposal (EncodeSA mixedOffer) None DH_ECP_384 = Ok (Selected s) ∧ selDH s = tr TransDH DH_ECP_384 0.
Proof.
  assert (selectChildRequestProposal (EncodeSA mixedOffer) None DH_CURVE25519 = Ok (InvalidKE DH_ECP_384)) as E
    by (vm_compute; reflexivity).
  split; [exact E|].
  pose proof (child_selection_exact (EncodeSA mixedOffer) None DH_CURVE25519 mixedOffer None ltac:(vm_compute; reflexivity) eq_refl) as P.
  rewrite E in P. destruct P as (_ & _ & P). exact P.
Defined.

Definition chachaChild : ChildSA := mkChildSA ENCR_CHACHA20_POLY1305 256 1000 2000 [] [].

Lemma negotiations_agree_witness :
  ∃ s, selectChildRequestProposal (EncodeSA [espRekeyProposal (be_to 4 3000) chachaChild]) (Some chachaChild) 0 = Ok (Selected s) ∧
    trID (selEncryption s) = ENCR_CHACHA20_POLY1305 ∧
    decodeChildProposal (EncodeSA [rekeyAnswer s (be_to 4 4000)]) (Some chachaChild) =
      Ok (rekeyAnswer s (be_to 4 4000), selEncryption s, 4000).
Proof.
  destruct (negotiations_agree (Some chachaChild) (Some chachaChild) 3000 4000 1 2 PRF_HMAC_SHA2_256 DH_ECP_256 (replicate 32 9))
    as (_ & (s & E & _ & _ & _ & Ho & Ha) & _).
  - reflexivity.
  - lia.
  - lia.
  - split; [reflexivity|]. split; [reflexivity|]. apply (bool_decide_unpack _). vm_compute. exact I.
  - lia.
  - lia.
  - left. reflexivity.
  - reflexivity.
  - exists s. split; [exact E|]. split; [exact (proj1 (Ho chachaChild eq_refl)) | apply Ha; right; reflexivity].
Defined.
