(* ===== verification/TransHub.v ===== *)
(** * The transport hub, transport/mux.go

    One UDP port carries every session. The hub tells keepalives, IKE and ESP
    apart, routes each datagram by its SPI to the peer that registered it, and
    queues it there; what nothing wants and what a full queue refuses is counted.

    One read of the socket is one step: with a receive loop per socket the tests
    of a queue's length are repeated by the send, whose refusal is counted the
    same way. Endpoints are opaque; a mux is known by its index. Waiting with a
    deadline is left out: an empty queue is [None]. *)

From S2P Require Import Prelude Store.

Definition nonESPMarkerLen : nat := 4.
Definition natKeepaliveByte : Z := 0xff.
Definition espSendBatch : nat := 128.
Definition espChanSize : nat := 1024.
Definition espQueueBytes : Z := 8 * 2 ^ 20.
(** [make(chan Datagram, 16)] and [make(chan Unclaimed, 64)] *)
Definition ikeChanSize : nat := 16.
Definition listenSize : nat := 64.

(** A datagram and where it came from; [None] is the nil endpoint. *)
Definition datagram : Type := list Z * option Z.

Record espDatagramBatch := mkEspBatch { batchTicket : Z; batchPackets : list (list Z); batchBytes : Z }.

Record Mux := mkMux {
  endpoint : option Z;
  ikeCh : list datagram;
  espCh : list espDatagramBatch;
  espQueued : Z;
  espTicket : Z;
  espPending : list (list Z);
  muxClosed : bool }.

Record Hub := mkHub {
  ike : gmap Z nat;
  esp : gmap Z nat;
  muxes : list Mux;
  listen : option (list datagram);
  hubClosed : bool;
  dropped : Z;
  refused : Z;
  keepalives : Z }.

Definition newHub : Hub := mkHub ∅ ∅ [] None false 0 0 0.

Definition set_tables (h : Hub) (i e : gmap Z nat) : Hub :=
  mkHub i e (muxes h) (listen h) (hubClosed h) (dropped h) (refused h) (keepalives h).
Definition set_muxes (h : Hub) (l : list Mux) : Hub :=
  mkHub (ike h) (esp h) l (listen h) (hubClosed h) (dropped h) (refused h) (keepalives h).
Definition set_listen (h : Hub) (l : option (list datagram)) : Hub :=
  mkHub (ike h) (esp h) (muxes h) l (hubClosed h) (dropped h) (refused h) (keepalives h).
Definition add_dropped (h : Hub) (n : Z) : Hub :=
  mkHub (ike h) (esp h) (muxes h) (listen h) (hubClosed h) (u64 (dropped h + n)) (refused h) (keepalives h).
Definition add_refused (h : Hub) (n : Z) : Hub :=
  mkHub (ike h) (esp h) (muxes h) (listen h) (hubClosed h) (dropped h) (u64 (refused h + n)) (keepalives h).
Definition add_keepalives (h : Hub) (n : Z) : Hub :=
  mkHub (ike h) (esp h) (muxes h) (listen h) (hubClosed h) (dropped h) (refused h) (u64 (keepalives h + n)).

(** ** Registration *)

(** [NewMux] and [NewMuxTo]: the new mux is the last. *)
Definition NewMux (h : Hub) (ep : option Z) : res Hub :=
  if hubClosed h then Err "transport: hub closed"
  else Ok (set_muxes h (muxes h ++ [mkMux ep [] [] 0 0 [] false])).

Definition Listen (h : Hub) : Hub :=
  match listen h with None => set_listen h (Some []) | Some _ => h end.

Definition isClosed (h : Hub) (m : nat) : bool :=
  match muxes h !! m with Some x => muxClosed x | None => true end || hubClosed h.

(** A table of SPIs: [owner != nil && owner != m] refuses. *)
Definition claim (t : gmap Z nat) (spi : Z) (m : nat) : option (gmap Z nat) :=
  match t !! spi with
  | Some owner => if (owner =? m)%nat then Some (<[spi := m]> t) else None
  | None => Some (<[spi := m]> t)
  end.

Definition unclaim (t : gmap Z nat) (spi : Z) (m : nat) : gmap Z nat :=
  match t !! spi with
  | Some owner => if (owner =? m)%nat then delete spi t else t
  | None => t
  end.

Definition RegisterIKE (h : Hub) (m : nat) (spi : Z) : res Hub :=
  if spi =? 0 then Err "transport: IKE SPI must be nonzero"
  else if isClosed h m then Err "transport: closed"
  else match claim (ike h) spi m with
       | Some t => Ok (set_tables h t (esp h))
       | None => Err "transport: IKE SPI already registered"
       end.

Definition UnregisterIKE (h : Hub) (m : nat) (spi : Z) : Hub := set_tables h (unclaim (ike h) spi m) (esp h).

Definition RegisterESP (h : Hub) (m : nat) (spi : Z) : res Hub :=
  if spi =? 0 then Err "transport: ESP SPI must be nonzero"
  else if isClosed h m then Err "transport: closed"
  else match claim (esp h) spi m with
       | Some t => Ok (set_tables h (ike h) t)
       | None => Err "transport: ESP SPI already registered"
       end.

Definition UnregisterESP (h : Hub) (m : nat) (spi : Z) : Hub := set_tables h (ike h) (unclaim (esp h) spi m).

Definition close_mux (x : Mux) : Mux :=
  mkMux (endpoint x) (ikeCh x) (espCh x) (espQueued x) (espTicket x) (espPending x) true.

(** [Mux.Close], of a mux that does not own its hub. *)
Definition CloseMux (h : Hub) (m : nat) : Hub :=
  match muxes h !! m with
  | None => h
  | Some x =>
      if muxClosed x then h
      else set_muxes (set_tables h (filter (λ e, e.2 ≠ m) (ike h)) (filter (λ e, e.2 ≠ m) (esp h))) (<[m := close_mux x]> (muxes h))
  end.

(** [Hub.fail]: once. *)
Definition CloseHub (h : Hub) : Hub :=
  if hubClosed h then h
  else mkHub ∅ ∅ (map close_mux (muxes h)) (listen h) true (dropped h) (refused h) (keepalives h).

Definition AdoptEndpoint (h : Hub) (m : nat) (ep : option Z) : Hub :=
  match muxes h !! m with
  | None => h
  | Some x => set_muxes h (<[m := mkMux ep (ikeCh x) (espCh x) (espQueued x) (espTicket x) (espPending x) (muxClosed x)]> (muxes h))
  end.

(** ** Receiving *)

(** [uint64(raw[4])<<56 | ... | uint64(raw[11])] *)
Definition spi64 (raw : list Z) : res Z :=
  b4 ← idx raw 4; b5 ← idx raw 5; b6 ← idx raw 6; b7 ← idx raw 7;
  b8 ← idx raw 8; b9 ← idx raw 9; b10 ← idx raw 10; b11 ← idx raw 11;
  Ok (Z.lor (Z.lor (Z.lor (Z.lor (Z.lor (Z.lor (Z.lor (Z.shiftl b4 56) (Z.shiftl b5 48)) (Z.shiftl b6 40))
        (Z.shiftl b7 32)) (Z.shiftl b8 24)) (Z.shiftl b9 16)) (Z.shiftl b10 8)) b11).

(** [uint32(raw[0])<<24 | ... | uint32(raw[3])] *)
Definition spi32 (raw : list Z) : res Z :=
  b0 ← idx raw 0; b1 ← idx raw 1; b2 ← idx raw 2; b3 ← idx raw 3;
  Ok (Z.lor (Z.lor (Z.lor (Z.shiftl b0 24) (Z.shiftl b1 16)) (Z.shiftl b2 8)) b3).

Inductive verdict :=
| Keepalive
| Unwanted
| ToIKE (m : nat)
| ToListen
| ToESP (m : nat).

Definition classify (h : Hub) (d : datagram) : res verdict :=
  let raw := d.1 in
  keepalive ← (if (length raw =? 1)%nat then b ← idx raw 0; Ok (b =? natKeepaliveByte) else Ok false);
  if keepalive : bool then Ok Keepalive
  else if (length raw <? nonESPMarkerLen)%nat then Ok Unwanted
  else
    b0 ← idx raw 0; b1 ← idx raw 1; b2 ← idx raw 2; b3 ← idx raw 3;
    if Z.lor (Z.lor (Z.lor b0 b1) b2) b3 =? 0 then
      if (length raw <? nonESPMarkerLen + 8)%nat then Ok Unwanted
      else
        spi ← spi64 raw;
        match ike h !! spi with
        | Some m => Ok (ToIKE m)
        | None =>
            match listen h, d.2 with
            | Some _, Some _ => Ok ToListen
            | _, _ => Ok Unwanted
            end
        end
    else
      spi ← spi32 raw;
      match esp h !! spi with
      | Some m => Ok (ToESP m)
      | None => Ok Unwanted
      end.

(** What the loop over one read sets aside. *)
Record sorted := mkSorted {
  espBatches : gmap nat (list (list Z));
  ikeDatagrams : list (nat * datagram);
  unclaimed : list datagram;
  unwanted : Z;
  alive : Z }.

Definition sortOne (s : sorted) (v : verdict) (d : datagram) : sorted :=
  match v with
  | Keepalive => mkSorted (espBatches s) (ikeDatagrams s) (unclaimed s) (unwanted s) (alive s + 1)
  | Unwanted => mkSorted (espBatches s) (ikeDatagrams s) (unclaimed s) (unwanted s + 1) (alive s)
  | ToIKE m => mkSorted (espBatches s) (ikeDatagrams s ++ [(m, d)]) (unclaimed s) (unwanted s) (alive s)
  | ToListen => mkSorted (espBatches s) (ikeDatagrams s) (unclaimed s ++ [d]) (unwanted s) (alive s)
  | ToESP m => mkSorted (<[m := default [] (espBatches s !! m) ++ [d.1]]> (espBatches s)) (ikeDatagrams s) (unclaimed s) (unwanted s) (alive s)
  end.

Fixpoint sortRead (h : Hub) (ds : list datagram) (s : sorted) : res sorted :=
  match ds with
  | [] => Ok s
  | d :: ds => v ← classify h d; sortRead h ds (sortOne s v d)
  end.

(** The message without its marker. *)
Definition stripped (d : datagram) : datagram := (drop nonESPMarkerLen d.1, d.2).

(** One IKE datagram for mux [m]. *)
Definition queueIKE (h : Hub) (m : nat) (d : datagram) : Hub :=
  match muxes h !! m with
  | None => h
  | Some x =>
      if (length (ikeCh x) =? ikeChanSize)%nat then add_dropped h 1
      else set_muxes h (<[m := mkMux (endpoint x) (ikeCh x ++ [stripped d]) (espCh x) (espQueued x) (espTicket x) (espPending x) (muxClosed x)]> (muxes h))
  end.

Definition queueUnclaimed (h : Hub) (d : datagram) : Hub :=
  match listen h with
  | None => h
  | Some l => if (length l =? listenSize)%nat then add_refused h 1 else set_listen h (Some (l ++ [stripped d]))
  end.

(** The copy of a batch into one allocation: the storage and the views. *)
Fixpoint packLoop (storage : list Z) (offset : nat) (packets : list (list Z)) : list Z * list (nat * nat) :=
  match packets with
  | [] => (storage, [])
  | p :: rest =>
      let storage := overwrite storage offset p in
      let '(storage, views) := packLoop storage (offset + length p) rest in
      (storage, (offset, length p) :: views)
  end.

Definition total (packets : list (list Z)) : nat := sum_list_with length packets.

Definition packReceivedBatch (packets : list (list Z)) : list (list Z) :=
  let '(storage, views) := packLoop (replicate (total packets) 0) 0 packets in
  map (λ v, read storage v.1 v.2) views.

Definition hasRoomForESP (x : Mux) (bytes : Z) : bool :=
  (length (espCh x) <? espChanSize)%nat && (espQueued x + bytes <=? espQueueBytes).

(** The mux when it took the batch. *)
Definition dispatchESP (x : Mux) (packets : list (list Z)) (bytes : Z) : option Mux :=
  if espQueueBytes <? espQueued x + bytes then None
  else if (length (espCh x) <? espChanSize)%nat
  then Some (mkMux (endpoint x) (ikeCh x) (espCh x ++ [mkEspBatch (espTicket x) packets bytes]) (espQueued x + bytes)
               (u64 (espTicket x + 1)) (espPending x) (muxClosed x))
  else None.

Definition queueESP (h : Hub) (m : nat) (packets : list (list Z)) : Hub :=
  let bytes := Z.of_nat (total packets) in
  match muxes h !! m with
  | None => h
  | Some x =>
      match (if hasRoomForESP x bytes then dispatchESP x (packReceivedBatch packets) bytes else None) with
      | Some x' => set_muxes h (<[m := x']> (muxes h))
      | None => add_dropped h (Z.of_nat (length packets))
      end
  end.

(** One read: [refusedIn] datagrams the socket layer could not use, [ds] the
    others; [order] is how the map of ESP batches is visited. *)
Definition receiveRead (h : Hub) (refusedIn : Z) (ds : list datagram) (order : list nat) : res Hub :=
  let h := add_refused h refusedIn in
  s ← sortRead h ds (mkSorted ∅ [] [] 0 0);
  let h := add_refused (add_keepalives h (alive s)) (unwanted s) in
  let h := foldl (λ h e, queueIKE h e.1 e.2) h (ikeDatagrams s) in
  let h := foldl queueUnclaimed h (unclaimed s) in
  Ok (foldl (λ h m, match espBatches s !! m with Some packets => queueESP h m packets | None => h end) h order).

(** ** The peers' side *)

Definition RecvIKE (h : Hub) (m : nat) : option (Hub * datagram) :=
  x ← muxes h !! m;
  match ikeCh x with
  | [] => None
  | d :: rest => Some (set_muxes h (<[m := mkMux (endpoint x) rest (espCh x) (espQueued x) (espTicket x) (espPending x) (muxClosed x)]> (muxes h)), d)
  end.

(** [takeESP]: the batch leaves the queue and its bytes the budget. *)
Definition takeESP (x : Mux) : option (Mux * espDatagramBatch) :=
  match espCh x with
  | [] => None
  | b :: rest => Some (mkMux (endpoint x) (ikeCh x) rest (espQueued x - batchBytes b) (espTicket x) (espPending x) (muxClosed x), b)
  end.

Definition RecvESPBatchConcurrent (h : Hub) (m : nat) : option (Hub * (Z * list (list Z))) :=
  x ← muxes h !! m;
  '(x, b) ← takeESP x;
  Some (set_muxes h (<[m := x]> (muxes h)), (batchTicket b, batchPackets b)).

Definition set_pending (x : Mux) (l : list (list Z)) : Mux :=
  mkMux (endpoint x) (ikeCh x) (espCh x) (espQueued x) (espTicket x) l (muxClosed x).

(** The mux with packets pending, taking a batch when none are. *)
Definition refillESP (x : Mux) : option Mux :=
  if (length (espPending x) =? 0)%nat
  then match takeESP x with Some (x, b) => Some (set_pending x (batchPackets b)) | None => None end
  else Some x.

(** [RecvESP]; an empty batch, which the hub never queues, would index out of range. *)
Definition RecvESP (h : Hub) (m : nat) : option (Hub * res (list Z)) :=
  x ← muxes h !! m;
  x ← refillESP x;
  Some (set_muxes h (<[m := set_pending x (drop 1 (espPending x))]> (muxes h)), idx (espPending x) 0).

Definition AcceptUnclaimed (h : Hub) : option (Hub * datagram) :=
  match listen h with
  | Some (d :: rest) => Some (set_listen h (Some rest), d)
  | _ => None
  end.

(** [RecvESPBatch]: [room] is the capacity of [dst], each turn moving packets
    into it or a batch out of the queue; nothing to return yet is [None]. *)
Fixpoint recvLoop (fuel : nat) (x : Mux) (room : nat) (dst : list (list Z)) : option (Mux * list (list Z)) :=
  match fuel with
  | O => None
  | S fuel =>
      if (length dst <? room)%nat then
        match refillESP x with
        | None => if (length dst =? 0)%nat then None else Some (x, dst)
        | Some x =>
            let n := Nat.min (room - length dst) (length (espPending x)) in
            recvLoop fuel (set_pending x (drop n (espPending x))) room (dst ++ take n (espPending x))
        end
      else Some (x, dst)
  end.

Definition RecvESPBatch (h : Hub) (m : nat) (capDst : nat) : option (Hub * list (list Z)) :=
  x ← muxes h !! m;
  '(x, dst) ← recvLoop (2 + espSendBatch + capDst + length (espCh x)) x (if (capDst =? 0)%nat then espSendBatch else capDst) [];
  Some (set_muxes h (<[m := x]> (muxes h)), dst).

(** ** Sending *)

(** What [SendIKE] and [SendIKETo] hand the socket. *)
Definition markIKE (b : list Z) : list Z := overwrite (replicate (nonESPMarkerLen + length b) 0) nonESPMarkerLen b.

(** [SendESPBatch]: [send] is the socket's answer to each call, the calls made
    are returned with the error. *)
Fixpoint sendLoop (fuel : nat) (send : nat → option string) (calls : list (list (list Z))) (bufs : list (list Z))
  : list (list (list Z)) * res unit :=
  match fuel with
  | O => (calls, Ok ())
  | S fuel =>
      if (length bufs =? 0)%nat then (calls, Ok ())
      else
        let n := Nat.min (length bufs) espSendBatch in
        match send (length calls) with
        | Some e => (calls ++ [take n bufs], Err ("transport: send ESP batch: " +:+ e))
        | None => sendLoop fuel send (calls ++ [take n bufs]) (drop n bufs)
        end
  end.

Definition SendESPBatch (h : Hub) (m : nat) (send : nat → option string) (bufs : list (list Z)) : list (list (list Z)) * res unit :=
  if (length bufs =? 0)%nat then ([], Ok ())
  else if isClosed h m then ([], Err "transport: closed")
  else sendLoop (S (length bufs)) send [] bufs.
