(* ===== verification/TransRead.v ===== *)
(** * What one read of the socket does

    [dest] says where a datagram belongs from its bytes and the tables alone.
    The loop of the hub agrees with it, packs a peer's packets without changing
    them, appends to every queue exactly what belongs there while there is room,
    and counts the rest. *)

From S2P Require Import Prelude Store TransHub.

#[export] Instance verdict_eq_dec : EqDecision verdict.
Proof. solve_decision. Defined.

(** ** Where a datagram belongs *)

Definition dest (h : Hub) (d : datagram) : verdict :=
  if bool_decide (d.1 = [natKeepaliveByte]) then Keepalive
  else if (length d.1 <? 4)%nat then Unwanted
  else if bool_decide (take 4 d.1 = [0; 0; 0; 0]) then
    if (length d.1 <? 12)%nat then Unwanted
    else match ike h !! be_of (take 8 (drop 4 d.1)) with
         | Some m => ToIKE m
         | None => if bool_decide (is_Some (listen h) ∧ is_Some d.2) then ToListen else Unwanted
         end
  else match esp h !! be_of (take 4 d.1) with Some m => ToESP m | None => Unwanted end.

Definition bound_for (h : Hub) (v : verdict) (ds : list datagram) : list datagram := filter (λ d, dest h d = v) ds.

(** ** The SPIs *)

Lemma lor_add a b k : 0 ≤ k → 0 ≤ b < 2 ^ k → Z.lor (a * 2 ^ k) b = a * 2 ^ k + b.
Proof.
  intros Hk Hb. assert (Z.land (a * 2 ^ k) b = 0) as Hz.
  { rewrite <- (Z.mod_small b (2 ^ k)), <- Z.shiftl_mul_pow2 by done. apply Z.bits_inj'. intros n Hn.
    rewrite Z.land_spec, Z.bits_0, Z.shiftl_spec by done.
    destruct (decide (n < k)); [by rewrite (Z.testbit_neg_r a) by lia|].
    rewrite (Z.mod_pow2_bits_high b) by lia. apply andb_false_r. }
  rewrite <- Z.lxor_lor by done. by rewrite Z.add_nocarry_lxor.
Qed.

(** One more byte below the ones already placed. *)
Lemma lor_byte a b j k : j = k + 8 → 0 ≤ k → byte_ok b → Z.lor (Z.shiftl a j) (Z.shiftl b k) = Z.shiftl (a * 256 + b) k.
Proof.
  intros -> Hk [Hb0 Hb1]. pose proof (Z.pow_pos_nonneg 2 k ltac:(lia) Hk).
  rewrite !Z.shiftl_mul_pow2, lor_add by (rewrite ?Z.pow_add_r by lia; nia).
  rewrite Z.pow_add_r by lia. nia.
Qed.

(** A list long enough, as its first elements and the rest. *)
Lemma split_at {A} n (l : list A) : (n ≤ length l)%nat → ∃ a b, l = a ++ b ∧ length a = n.
Proof. intros. exists (take n l), (drop n l). rewrite take_drop, length_take. split; [done|lia]. Qed.

Lemma spi32_be raw : bytes_ok raw → (4 ≤ length raw)%nat → spi32 raw = Ok (be_of (take 4 raw)).
Proof.
  intros Hb Hl. destruct (split_at 4 raw Hl) as (a&b&->&Ha).
  apply bytes_ok_app in Hb as [Hb _]. rewrite take_app_length' by done.
  destruct a as [|b0 [|b1 [|b2 [|b3 [|]]]]]; try done. repeat (apply Forall_cons in Hb as [? Hb]).
  unfold spi32. cbn [app idx lookup list_lookup mbind res_bind]. f_equal.
  rewrite (lor_byte b0 b1 24 16), (lor_byte _ b2 16 8) by done.
  rewrite <- (Z.shiftl_0_r b3) at 1. rewrite (lor_byte _ b3 8 0), Z.shiftl_0_r by done. done.
Qed.

Lemma spi64_be raw : bytes_ok raw → (12 ≤ length raw)%nat → spi64 raw = Ok (be_of (take 8 (drop 4 raw))).
Proof.
  intros Hb Hl. destruct (split_at 4 raw ltac:(lia)) as (z&r&->&Hz). rewrite length_app, Hz in Hl.
  destruct (split_at 8 r ltac:(lia)) as (a&b&->&Ha). rewrite drop_app_length', take_app_length' by done.
  apply bytes_ok_app in Hb as [_ Hb]. apply bytes_ok_app in Hb as [Hb _].
  destruct z as [|z0 [|z1 [|z2 [|z3 [|]]]]]; try done.
  destruct a as [|b0 [|b1 [|b2 [|b3 [|b4 [|b5 [|b6 [|b7 [|]]]]]]]]]; try done.
  repeat (apply Forall_cons in Hb as [? Hb]).
  unfold spi64. cbn [app idx lookup list_lookup mbind res_bind]. f_equal.
  rewrite (lor_byte b0 b1 56 48), (lor_byte _ b2 48 40), (lor_byte _ b3 40 32), (lor_byte _ b4 32 24), (lor_byte _ b5 24 16), (lor_byte _ b6 16 8) by done.
  rewrite <- (Z.shiftl_0_r b7) at 1. rewrite (lor_byte _ b7 8 0), Z.shiftl_0_r by done. done.
Qed.

Lemma classify_dest h d : bytes_ok d.1 → classify h d = Ok (dest h d).
Proof.
  destruct d as [raw ep]. simpl. intros Hb. unfold classify, dest. simpl.
  destruct raw as [|b0 raw]; [done|].
  destruct raw as [|b1 raw].
  { simpl. destruct (Z.eqb_spec b0 natKeepaliveByte) as [->|?]; [by rewrite bool_decide_eq_true_2|].
    rewrite bool_decide_eq_false_2 by congruence. done. }
  rewrite (bool_decide_eq_false_2 (b0 :: b1 :: raw = [natKeepaliveByte])) by congruence.
  cbn [length Nat.eqb mbind res_bind]. change nonESPMarkerLen with 4%nat. change (4 + 8)%nat with 12%nat.
  destruct (Nat.ltb_spec (S (S (length raw))) 4) as [|Hl]; [done|].
  destruct raw as [|b2 [|b3 raw]]; simpl in Hl; try lia.
  cbn [idx lookup list_lookup mbind res_bind].
  assert ((Z.lor (Z.lor (Z.lor b0 b1) b2) b3 =? 0) = bool_decide (take 4 (b0 :: b1 :: b2 :: b3 :: raw) = [0; 0; 0; 0])) as ->.
  { apply eq_bool_prop_intro. rewrite Is_true_true, bool_decide_spec, Z.eqb_eq, !Z.lor_eq_0_iff. cbn [take].
    split; [by intros [[[-> ->] ->] ->] | by intros [= -> -> -> ->]]. }
  destruct (bool_decide _).
  - cbn [length]. destruct (Nat.ltb_spec (S (S (S (S (length raw))))) 12); [done|].
    rewrite spi64_be by (simpl; auto with lia). cbn [mbind res_bind].
    destruct (ike h !! _); [done|]. destruct (listen h), ep; try done; by rewrite bool_decide_eq_true_2 || rewrite bool_decide_eq_false_2 by naive_solver.
  - rewrite spi32_be by (simpl; auto with lia). cbn [mbind res_bind]. by destruct (esp h !! _).
Qed.

(** ** Packing *)

Lemma packLoop_spec ps st off :
  (off + total ps ≤ length st)%nat →
  length (packLoop st off ps).1 = length st ∧
  (∀ lo n, (lo + n ≤ off)%nat → read (packLoop st off ps).1 lo n = read st lo n) ∧
  map (λ v, read (packLoop st off ps).1 v.1 v.2) (packLoop st off ps).2 = ps.
Proof.
  revert st off. induction ps as [|p ps IH]; intros st off Hl; [done|].
  unfold total in *. cbn [sum_list_with] in Hl. cbn [packLoop].
  destruct (IH (overwrite st off p) (off + length p)%nat) as (Hlen&Hlow&Hmap); [rewrite length_overwrite; lia|].
  destruct (packLoop (overwrite st off p) (off + length p) ps) as [st' vs]. cbn [fst snd map] in *.
  rewrite length_overwrite in Hlen by lia. split; [done|split].
  - intros lo n Hn. rewrite Hlow by lia. apply read_overwrite_other; lia.
  - rewrite Hlow by lia. rewrite read_overwrite by lia. by rewrite Hmap.
Qed.

Lemma packReceivedBatch_id ps : packReceivedBatch ps = ps.
Proof.
  unfold packReceivedBatch. pose proof (packLoop_spec ps (replicate (total ps) 0) 0) as H.
  destruct (packLoop _ _ _) as [st vs]. apply H. rewrite length_replicate. lia.
Qed.

(** ** Sorting *)

Definition is_ike (h : Hub) (d : datagram) : option (nat * datagram) :=
  match dest h d with ToIKE m => Some (m, d) | _ => None end.

Lemma sortRead_spec h ds s :
  Forall (λ d, bytes_ok d.1) ds →
  ∃ s', sortRead h ds s = Ok s' ∧
    (∀ m, espBatches s' !! m =
      match bound_for h (ToESP m) ds with [] => espBatches s !! m | l => Some (default [] (espBatches s !! m) ++ l.*1) end) ∧
    ikeDatagrams s' = ikeDatagrams s ++ omap (is_ike h) ds ∧
    unclaimed s' = unclaimed s ++ bound_for h ToListen ds ∧
    unwanted s' = unwanted s + Z.of_nat (length (bound_for h Unwanted ds)) ∧
    alive s' = alive s + Z.of_nat (length (bound_for h Keepalive ds)).
Proof.
  intros Hb. revert s. induction Hb as [|d ds Hd Hb IH]; intros s.
  { exists s. simpl. rewrite !app_nil_r. split_and!; try done; lia. }
  cbn [sortRead]. rewrite classify_dest by done. rbind.
  destruct (IH (sortOne s (dest h d) d)) as (s'&Heq&He&Hi&Hu&Hw&Ha). exists s'. split; [done|].
  assert (∀ v, bound_for h v (d :: ds) = if decide (dest h d = v) then d :: bound_for h v ds else bound_for h v ds) as Hc
    by (intros v; unfold bound_for; by rewrite filter_cons).
  cbn [omap list_omap]. unfold is_ike at 1. rewrite Hi, Hu, Hw, Ha, !Hc. setoid_rewrite Hc. setoid_rewrite He. clear Hc He Hi Hu Hw Ha Heq.
  destruct (dest h d) as [| |m| |m]; cbn [sortOne espBatches ikeDatagrams unclaimed unwanted alive]; split_and!;
    try (intros m'; rewrite ?decide_False by done; done);
    try (rewrite decide_True by done || rewrite decide_False by done; rewrite <- ?app_assoc; (done || cbn [length]; lia));
    rewrite <- ?app_assoc; try done.
  intros m'. destruct (decide (ToESP m = ToESP m')) as [[= <-]|Hne].
  - rewrite lookup_insert_eq. simpl. destruct (bound_for h (ToESP m) ds); [done|]. by rewrite <- app_assoc.
  - by rewrite lookup_insert_ne by congruence.
Qed.

(** ** The queues *)

Definition with_ike (x : Mux) (q : list datagram) : Mux :=
  mkMux (endpoint x) q (espCh x) (espQueued x) (espTicket x) (espPending x) (muxClosed x).

(** The entries of a list of work that are for mux [m]. *)
Definition mine (m : nat) (l : list (nat * datagram)) : list datagram :=
  omap (λ e, if decide (e.1 = m) then Some e.2 else None) l.

(** What reading leaves alone. *)
Definition frame (h : Hub) := (ike h, esp h, hubClosed h).

Lemma take_snoc_full {A} n (q l : list A) (d : A) :
  (length q ≤ n)%nat → take n (take n (q ++ [d]) ++ l) = take n (q ++ d :: l).
Proof.
  intros Hq. destruct (decide (length q = n)) as [<-|].
  - by rewrite take_app_length, take_app_length, take_app_length.
  - rewrite (take_ge (q ++ [d])) by (rewrite length_app; simpl; lia). by rewrite <- app_assoc.
Qed.

(** A bounded queue: append when there is room. *)
Lemma enqueue_take {A} n (q : list A) (d : A) :
  (length q ≤ n)%nat → (if (length q =? n)%nat then q else q ++ [d]) = take n (q ++ [d]).
Proof.
  intros Hq. destruct (Nat.eqb_spec (length q) n) as [<-|]; [by rewrite take_app_length|].
  by rewrite take_ge by (rewrite length_app; simpl; lia).
Qed.

Lemma with_ike_id x : with_ike x (ikeCh x) = x.
Proof. by destruct x. Qed.

Lemma queueIKE_lookup h m d k :
  (∀ x, muxes h !! m = Some x → (length (ikeCh x) ≤ ikeChanSize)%nat) →
  muxes (queueIKE h m d) !! k =
  (λ x, if decide (m = k) then with_ike x (take ikeChanSize (ikeCh x ++ [stripped d])) else x) <$> muxes h !! k.
Proof.
  intros Hok. unfold queueIKE. destruct (muxes h !! m) as [x|] eqn:Hm.
  2: { destruct (muxes h !! k) eqn:Hk; [|done]. simpl. rewrite decide_False by congruence. done. }
  specialize (Hok x eq_refl).
  assert (∀ y, muxes h !! k = Some y → m = k → y = x) as Hyx by (intros; subst; congruence).
  destruct (Nat.eqb_spec (length (ikeCh x)) ikeChanSize) as [Hf|Hf]; cbn [muxes add_dropped set_muxes].
  - destruct (muxes h !! k) as [y|] eqn:Hk; [simpl|done]. destruct (decide (m = k)); [|done].
    rewrite (Hyx y) by done. rewrite <- enqueue_take by lia. rewrite Hf, Nat.eqb_refl. by rewrite with_ike_id.
  - destruct (decide (m = k)) as [<-|].
    + rewrite list_lookup_insert_eq by (by eapply lookup_lt_Some). rewrite Hm. simpl.
      rewrite <- enqueue_take by lia. by apply Nat.eqb_neq in Hf as ->.
    + rewrite list_lookup_insert_ne by done. by destruct (muxes h !! k).
Qed.

Lemma queueIKE_frame h m d : frame (queueIKE h m d) = frame h ∧ listen (queueIKE h m d) = listen h.
Proof. unfold queueIKE. destruct (muxes h !! m); [|done]. by destruct (_ =? _)%nat. Qed.

Lemma queueIKE_all l h :
  (∀ m x, muxes h !! m = Some x → (length (ikeCh x) ≤ ikeChanSize)%nat) →
  let h' := foldl (λ h e, queueIKE h e.1 e.2) h l in
  frame h' = frame h ∧ listen h' = listen h ∧
  ∀ k, muxes h' !! k = (λ x, with_ike x (take ikeChanSize (ikeCh x ++ (stripped <$> mine k l)))) <$> muxes h !! k.
Proof.
  revert h. induction l as [|[m d] l IH]; intros h Hok; simpl.
  - split; [done|split; [done|]]. intros k. destruct (muxes h !! k) as [x|] eqn:Hk; [|done].
    simpl. rewrite app_nil_r, take_ge, with_ike_id by (by eapply Hok). done.
  - destruct (queueIKE_frame h m d) as [Hf Hls].
    destruct (IH (queueIKE h m d)) as (IHf&IHl&IHk).
    { intros k x Hx. rewrite queueIKE_lookup in Hx by (intros; by eapply Hok).
      destruct (muxes h !! k) as [y|] eqn:Hk; [|done]. simplify_eq/=. specialize (Hok _ _ Hk).
      destruct (decide (m = k)); [|done]. cbn [with_ike ikeCh]. rewrite length_take. lia. }
    rewrite IHf, IHl, Hf, Hls. split; [done|split; [done|]]. intros k.
    rewrite IHk, queueIKE_lookup by (intros; by eapply Hok).
    destruct (muxes h !! k) as [x|] eqn:Hk; [|done]. simpl. f_equal.
    unfold mine; cbn [omap list_omap fst snd]. destruct (decide (m = k)); [|done].
    cbn [with_ike ikeCh fmap list_fmap]. rewrite take_snoc_full by (by eapply Hok). done.
Qed.

Lemma queueUnclaimed_all l h :
  (∀ q, listen h = Some q → (length q ≤ listenSize)%nat) →
  let h' := foldl queueUnclaimed h l in
  frame h' = frame h ∧ muxes h' = muxes h ∧
  listen h' = (λ q, take listenSize (q ++ (stripped <$> l))) <$> listen h.
Proof.
  revert h. induction l as [|d l IH]; intros h Hok; simpl.
  - split; [done|split; [done|]]. destruct (listen h) as [q|] eqn:Hq; [|done]. simpl.
    by rewrite app_nil_r, take_ge by (by apply Hok).
  - assert (frame (queueUnclaimed h d) = frame h ∧ muxes (queueUnclaimed h d) = muxes h ∧
      listen (queueUnclaimed h d) = (λ q, take listenSize (q ++ [stripped d])) <$> listen h) as (Hf&Hm&Hl).
    { unfold queueUnclaimed. destruct (listen h) as [q|] eqn:Hq; [|by rewrite Hq].
      simpl. rewrite <- enqueue_take by (by apply Hok). destruct (_ =? _)%nat; [|done]. simpl. by rewrite Hq. }
    destruct (IH (queueUnclaimed h d)) as (IHf&IHm&IHl).
    { intros q. rewrite Hl. destruct (listen h); [|done]. intros [= <-]. rewrite length_take. lia. }
    rewrite IHf, IHm, IHl, Hf, Hm, Hl. split; [done|split; [done|]].
    destruct (listen h) as [q|] eqn:Hq; [|done]. simpl. by rewrite take_snoc_full by (by apply Hok).
Qed.

(** A mux after it was offered a batch. *)
Definition offered (x : Mux) (ps : list (list Z)) : Mux :=
  let bytes := Z.of_nat (total ps) in
  if hasRoomForESP x bytes
  then mkMux (endpoint x) (ikeCh x) (espCh x ++ [mkEspBatch (espTicket x) ps bytes]) (espQueued x + bytes)
         (u64 (espTicket x + 1)) (espPending x) (muxClosed x)
  else x.

Lemma dispatch_offered x ps :
  let bytes := Z.of_nat (total ps) in
  (if hasRoomForESP x bytes then dispatchESP x (packReceivedBatch ps) bytes else None) =
  if hasRoomForESP x bytes then Some (offered x ps) else None.
Proof.
  simpl. rewrite packReceivedBatch_id. unfold dispatchESP, offered.
  destruct (hasRoomForESP x _) eqn:Hr; [|done]. unfold hasRoomForESP in Hr. apply andb_true_iff in Hr as [-> Hb].
  bool_props. by rewrite (proj2 (Z.ltb_ge _ _)) by lia.
Qed.

Lemma queueESP_lookup h m ps k :
  muxes (queueESP h m ps) !! k = (λ x, if decide (m = k) then offered x ps else x) <$> muxes h !! k.
Proof.
  unfold queueESP. destruct (muxes h !! m) as [x|] eqn:Hm.
  2: { destruct (muxes h !! k) eqn:Hk; [|done]. simpl. by rewrite decide_False by congruence. }
  rewrite dispatch_offered. destruct (hasRoomForESP x _) eqn:Hr; cbn [muxes set_muxes add_dropped].
  - destruct (decide (m = k)) as [<-|]; [rewrite list_lookup_insert_eq by (by eapply lookup_lt_Some); by rewrite Hm|].
    rewrite list_lookup_insert_ne by done. by destruct (muxes h !! k).
  - destruct (muxes h !! k) as [y|] eqn:Hk; [simpl|done]. destruct (decide (m = k)) as [<-|]; [|done].
    replace y with x by congruence. unfold offered. by rewrite Hr.
Qed.

Lemma queueESP_frame h m ps : frame (queueESP h m ps) = frame h ∧ listen (queueESP h m ps) = listen h.
Proof. unfold queueESP. destruct (muxes h !! m); [|done]. rewrite dispatch_offered. by destruct (hasRoomForESP _ _). Qed.

Definition queueBatch (s : sorted) (h : Hub) (m : nat) : Hub :=
  match espBatches s !! m with Some packets => queueESP h m packets | None => h end.

Lemma queueBatch_all s order h :
  NoDup order →
  let h' := foldl (queueBatch s) h order in
  frame h' = frame h ∧ listen h' = listen h ∧
  ∀ k, muxes h' !! k =
    (λ x, if decide (k ∈ order) then match espBatches s !! k with Some ps => offered x ps | None => x end else x) <$> muxes h !! k.
Proof.
  intros Hnd. revert h. induction Hnd as [|m order Hm Hnd IH]; intros h; simpl.
  - split; [done|split; [done|]]. intros k. by destruct (muxes h !! k).
  - destruct (IH (queueBatch s h m)) as (IHf&IHl&IHk). rewrite IHf, IHl.
    assert (frame (queueBatch s h m) = frame h ∧ listen (queueBatch s h m) = listen h) as [-> ->].
    { unfold queueBatch. destruct (espBatches s !! m); [apply queueESP_frame|done]. }
    split; [done|split; [done|]]. intros k. rewrite IHk. unfold queueBatch.
    destruct (espBatches s !! m) as [ps|] eqn:Hs.
    + rewrite queueESP_lookup. destruct (muxes h !! k) as [x|]; [simpl|done].
      destruct (decide (m = k)) as [<-|].
      * rewrite decide_False, decide_True by set_solver. by rewrite Hs.
      * destruct (decide (k ∈ order)); [by rewrite decide_True by set_solver | by rewrite decide_False by set_solver].
    + destruct (muxes h !! k) as [x|]; [simpl|done].
      destruct (decide (k ∈ order)); [by rewrite decide_True by set_solver|].
      destruct (decide (k ∈ m :: order)) as [Hin|]; [|done]. apply elem_of_cons in Hin as [->|]; [by rewrite Hs|done].
Qed.

(** ** One read *)

(** The order the map of batches is visited in: every peer with packets, once. *)
Definition visits (h : Hub) (ds : list datagram) (order : list nat) : Prop :=
  NoDup order ∧ ∀ m, m ∈ order ↔ bound_for h (ToESP m) ds ≠ [].

(** The bounds of the queues, which every operation keeps. *)
Definition bounded (h : Hub) : Prop :=
  (∀ m x, muxes h !! m = Some x → (length (ikeCh x) ≤ ikeChanSize)%nat) ∧
  (∀ q, listen h = Some q → (length q ≤ listenSize)%nat).

Lemma mine_is_ike h ds m : mine m (omap (is_ike h) ds) = bound_for h (ToIKE m) ds.
Proof.
  unfold bound_for. induction ds as [|d ds IH]; [done|]. rewrite filter_cons. cbn [omap list_omap]. unfold is_ike at 1.
  destruct (dest h d) as [| |m'| |m']; try (rewrite decide_False by done; done).
  unfold mine; cbn [omap list_omap fst snd]. fold (mine m (omap (is_ike h) ds)). rewrite IH.
  destruct (decide (m' = m)) as [->|]; [by rewrite decide_True | by rewrite decide_False by congruence].
Qed.

(** The mux after a read that sorted as [h] says. *)
Definition mux_after (h : Hub) (ds : list datagram) (m : nat) (x : Mux) : Mux :=
  let x := with_ike x (take ikeChanSize (ikeCh x ++ (stripped <$> bound_for h (ToIKE m) ds))) in
  match bound_for h (ToESP m) ds with [] => x | l => offered x l.*1 end.

Lemma bound_for_counters h h' v ds : frame h' = frame h → listen h' = listen h → bound_for h' v ds = bound_for h v ds.
Proof.
  intros [= Hi He _] Hl. unfold bound_for. apply list_filter_iff. intros d. unfold dest. by rewrite Hi, He, Hl.
Qed.

Lemma receiveRead_spec h r ds order :
  bounded h → Forall (λ d, bytes_ok d.1) ds → visits h ds order →
  ∃ h', receiveRead h r ds order = Ok h' ∧ frame h' = frame h ∧
    (∀ m, muxes h' !! m = mux_after h ds m <$> muxes h !! m) ∧
    listen h' = (λ q, take listenSize (q ++ (stripped <$> bound_for h ToListen ds))) <$> listen h.
Proof.
  intros [Hike Hls] Hb [Hnd Hord]. unfold receiveRead.
  destruct (sortRead_spec (add_refused h r) ds (mkSorted ∅ [] [] 0 0) Hb) as (s&Hs&He&Hi&Hu&_&_).
  rewrite Hs. rbind. eexists. split; [done|].
  simpl in Hi, Hu. rewrite Hi, Hu. clear Hs Hi Hu.
  set (h0 := add_refused (add_keepalives (add_refused h r) (alive s)) (unwanted s)).
  destruct (queueIKE_all (omap (is_ike (add_refused h r)) ds) h0 Hike) as (F1&L1&M1).
  set (h1 := foldl _ h0 _) in *.
  destruct (queueUnclaimed_all (bound_for (add_refused h r) ToListen ds) h1) as (F2&M2&L2); [by rewrite L1|].
  set (h2 := foldl queueUnclaimed h1 _) in *.
  change (foldl _ h2 order) with (foldl (queueBatch s) h2 order).
  destruct (queueBatch_all s order h2 Hnd) as (F3&L3&M3).
  rewrite F3, F2, F1, L3, L2, L1. split; [done|split].
  2: { rewrite (bound_for_counters h) by done. done. }
  intros m. rewrite M3, M2, M1, He, mine_is_ike, !(bound_for_counters h) by done. cbn [espBatches]. rewrite lookup_empty.
  change (muxes h0) with (muxes h). destruct (muxes h !! m) as [x|] eqn:Hx; [|done]. simpl. f_equal. unfold mux_after.
  destruct (bound_for h (ToESP m) ds) eqn:Hne.
  - destruct (decide _) as [Hin|]; [|done]. by apply Hord in Hin.
  - rewrite decide_True; [done|]. apply Hord. by rewrite Hne.
Qed.

(** ** The counters *)

Definition load (x : Mux) : nat := length (ikeCh x) + sum_list_with (λ b, length (batchPackets b)) (espCh x).

Definition waiting (h : Hub) : nat := sum_list_with load (muxes h) + length (default [] (listen h)).

(** Every datagram the hub has read and not yet handed on, or has counted. *)
Definition weight (h : Hub) : Z := Z.of_nat (waiting h) + dropped h + refused h + keepalives h.

(** Every registered SPI belongs to a mux of the hub. *)
Definition owned (h : Hub) : Prop :=
  (∀ spi m, ike h !! spi = Some m → is_Some (muxes h !! m)) ∧ (∀ spi m, esp h !! spi = Some m → is_Some (muxes h !! m)).

Lemma u64_plus a b : u64 (a + u64 b) = u64 (a + b).
Proof. apply Zplus_mod_idemp_r. Qed.

Lemma u64_plus_l a b : u64 (u64 a + b) = u64 (a + b).
Proof. apply Zplus_mod_idemp_l. Qed.

Lemma u64_trans a b c n m : u64 b = u64 (a + n) → u64 c = u64 (b + m) → u64 c = u64 (a + (n + m)).
Proof. intros H1 ->. rewrite Z.add_comm, <- u64_plus, H1, u64_plus. f_equal. lia. Qed.

Lemma weight_dropped h n : u64 (weight (add_dropped h n)) = u64 (weight h + n).
Proof. unfold weight. simpl. unfold waiting. simpl. set (a := Z.of_nat _).
  replace (a + _ + _ + _) with (a + refused h + keepalives h + u64 (dropped h + n)) by lia. rewrite u64_plus. f_equal. lia. Qed.

Lemma weight_refused h n : u64 (weight (add_refused h n)) = u64 (weight h + n).
Proof. unfold weight. simpl. unfold waiting. simpl. set (a := Z.of_nat _).
  replace (a + _ + _ + _) with (a + dropped h + keepalives h + u64 (refused h + n)) by lia. rewrite u64_plus. f_equal. lia. Qed.

Lemma weight_keepalives h n : u64 (weight (add_keepalives h n)) = u64 (weight h + n).
Proof. unfold weight. simpl. unfold waiting. simpl. set (a := Z.of_nat _).
  replace (a + _ + _ + _) with (a + dropped h + refused h + u64 (keepalives h + n)) by lia. rewrite u64_plus. f_equal. lia. Qed.

Lemma sum_insert {A} (f : A → nat) (l : list A) i x y :
  l !! i = Some x → (sum_list_with f (<[i := y]> l) + f x = sum_list_with f l + f y)%nat.
Proof. revert i. induction l as [|z l IH]; intros [|i] H; simplify_eq/=; [lia|]. specialize (IH _ H). lia. Qed.

Lemma weight_mux h m x y n :
  muxes h !! m = Some x → load y = (load x + n)%nat → u64 (weight (set_muxes h (<[m := y]> (muxes h)))) = u64 (weight h + Z.of_nat n).
Proof.
  intros Hx Hl. f_equal. unfold weight, waiting. simpl. pose proof (sum_insert load (muxes h) m x y Hx). lia.
Qed.

Lemma queueIKE_weight h m d : is_Some (muxes h !! m) → u64 (weight (queueIKE h m d)) = u64 (weight h + 1).
Proof.
  intros [x Hx]. unfold queueIKE. rewrite Hx. destruct (_ =? _)%nat; [apply weight_dropped|].
  apply (weight_mux h m x _ 1); [done|]. unfold load. simpl. rewrite length_app. simpl. lia.
Qed.

Lemma queueUnclaimed_weight h d : is_Some (listen h) → u64 (weight (queueUnclaimed h d)) = u64 (weight h + 1).
Proof.
  intros [q Hq]. unfold queueUnclaimed. rewrite Hq. destruct (_ =? _)%nat; [apply weight_refused|].
  f_equal. unfold weight, waiting. simpl. rewrite Hq. simpl. rewrite length_app. simpl. lia.
Qed.

Lemma queueESP_weight h m ps : is_Some (muxes h !! m) → u64 (weight (queueESP h m ps)) = u64 (weight h + Z.of_nat (length ps)).
Proof.
  intros [x Hx]. unfold queueESP. rewrite Hx, dispatch_offered.
  destruct (hasRoomForESP x _) eqn:Hr; [|apply weight_dropped].
  apply (weight_mux h m x); [done|]. unfold load, offered. rewrite Hr. simpl. rewrite sum_list_with_app. simpl. lia.
Qed.

(** A fold whose steps each add their share adds the sum. *)
Lemma weight_foldl {A} (step : Hub → A → Hub) (n : A → nat) (P : Hub → A → Prop) l h :
  (∀ h a, P h a → u64 (weight (step h a)) = u64 (weight h + Z.of_nat (n a))) →
  (∀ h a b, P h a → P h b → P (step h a) b) → Forall (P h) l →
  u64 (weight (foldl step h l)) = u64 (weight h + Z.of_nat (sum_list_with n l)).
Proof.
  intros Hstep Hkeep. revert h. induction l as [|a l IH]; intros h Hl; simpl; [f_equal; lia|].
  apply Forall_cons in Hl as [Ha Hl]. rewrite Nat2Z.inj_add. eapply u64_trans; [by apply Hstep|].
  apply IH. eapply Forall_impl; [exact Hl|]. intros b Hb. by apply Hkeep.
Qed.

Definition tally (h : Hub) := (refused h, keepalives h).

Lemma queueIKE_tally l h : tally (foldl (λ h e, queueIKE h e.1 e.2) h l) = tally h.
Proof.
  revert h. induction l as [|[m d] l IH]; intros h; [done|]. cbn [foldl fst snd]. rewrite IH. unfold queueIKE.
  destruct (muxes h !! m); [|done]. by destruct (_ =? _)%nat.
Qed.

Lemma queueBatch_tally s l h : tally (foldl (queueBatch s) h l) = tally h.
Proof.
  revert h. induction l as [|m l IH]; intros h; [done|]. cbn [foldl]. rewrite IH. unfold queueBatch, queueESP.
  destruct (espBatches s !! m); [|done]. destruct (muxes h !! m); [|done].
  rewrite dispatch_offered. by destruct (hasRoomForESP _ _).
Qed.

Lemma queueUnclaimed_tally l h q :
  listen h = Some q → (length q ≤ listenSize)%nat →
  keepalives (foldl queueUnclaimed h l) = keepalives h ∧
  u64 (refused (foldl queueUnclaimed h l)) = u64 (refused h + Z.of_nat (length q + length l - listenSize)).
Proof.
  revert h q. induction l as [|d l IH]; intros h q Hq Hl; simpl.
  { split; [done|]. f_equal. lia. }
  unfold queueUnclaimed at 2 4. rewrite Hq. destruct (Nat.eqb_spec (length q) listenSize) as [Hf|Hf].
  - destruct (IH (add_refused h 1) q) as [-> ->]; [done..|]. split; [done|]. simpl.
    rewrite Z.add_comm, u64_plus. f_equal. lia.
  - destruct (IH (set_listen h (Some (q ++ [stripped d]))) (q ++ [stripped d])) as [-> ->];
      [done | rewrite length_app; simpl; lia |]. split; [done|]. simpl. f_equal. rewrite length_app. simpl. lia.
Qed.

Lemma dest_range h d : owned h → Forall (λ m, is_Some (muxes h !! m)) (match dest h d with ToIKE m | ToESP m => [m] | _ => [] end).
Proof.
  intros [Hi He]. unfold dest. repeat case_match; try done; repeat constructor; naive_solver.
Qed.

Lemma ike_in_range h ds : owned h → Forall (λ e, is_Some (muxes h !! e.1)) (omap (is_ike h) ds).
Proof.
  intros Ho. apply Forall_forall. intros [m d] (d'&Hd&Hm)%list_elem_of_omap. pose proof (dest_range h d' Ho) as H.
  unfold is_ike in Hm. destruct (dest h d'); try done. simplify_eq. rewrite Forall_singleton in H. done.
Qed.

Lemma listen_some h ds : bound_for h ToListen ds ≠ [] → is_Some (listen h).
Proof.
  unfold bound_for. induction ds as [|d ds IH]; [done|]. rewrite filter_cons. destruct (decide _) as [E|]; [intros _|done].
  unfold dest in E. repeat case_match; try done. case_bool_decide; naive_solver.
Qed.

Lemma sum_bump {A} `{EqDecision A} (f : A → nat) (m : A) l :
  NoDup l → m ∈ l → sum_list_with (λ k, if decide (m = k) then S (f k) else f k) l = S (sum_list_with f l).
Proof.
  intros Hnd. induction Hnd as [|k l Hk Hnd IH]; [by intros ?%not_elem_of_nil|]. intros Hm. simpl.
  destruct (decide (m = k)) as [<-|Hne].
  - simpl. do 2 f_equal. clear IH Hm Hnd. induction l as [|j l IH]; [done|]. simpl.
    rewrite decide_False by set_solver. rewrite IH by set_solver. done.
  - rewrite IH by set_solver. lia.
Qed.

Lemma sum_list_with_ext {A} (f g : A → nat) l : (∀ a, a ∈ l → f a = g a) → sum_list_with f l = sum_list_with g l.
Proof. intros H. induction l as [|a l IH]; [done|]. simpl. rewrite H, IH by set_solver. done. Qed.

(** Every datagram of a read is in exactly one of the piles. *)
Lemma sorted_all h ds order :
  NoDup order → (∀ m, bound_for h (ToESP m) ds ≠ [] → m ∈ order) →
  (length (omap (is_ike h) ds) + length (bound_for h ToListen ds) + length (bound_for h Unwanted ds) +
   length (bound_for h Keepalive ds) + sum_list_with (λ m, length (bound_for h (ToESP m) ds)) order)%nat = length ds.
Proof.
  intros Hnd. unfold bound_for. induction ds as [|d ds IH]; intros Hall.
  { simpl. induction order; [done|]. simpl. apply IHorder; [by apply NoDup_cons in Hnd as []|]. set_solver. }
  assert (∀ m, filter (λ d, dest h d = ToESP m) ds ≠ [] → m ∈ order) as Hds.
  { intros m Hm. apply Hall. rewrite filter_cons. by destruct (decide _). }
  specialize (IH Hds). cbn [omap list_omap length]. rewrite !filter_cons. unfold is_ike at 1.
  rewrite (sum_list_with_ext _ (λ k, if decide (dest h d = ToESP k) then S (length (filter (λ d, dest h d = ToESP k) ds)) else length (filter (λ d, dest h d = ToESP k) ds)))
    by (intros k _; rewrite filter_cons; by destruct (decide _)).
  assert (∀ m, dest h d = ToESP m → m ∈ order) as Hm.
  { intros m Hm. apply Hall. rewrite filter_cons, decide_True by done. done. }
  destruct (dest h d) as [| |m| |m]; try (rewrite (sum_list_with_ext _ (λ k, length (filter (λ d, dest h d = ToESP k) ds))) by (intros; by rewrite decide_False));
    simpl; try lia.
  rewrite (sum_list_with_ext _ (λ k, if decide (m = k) then S (length (filter (λ d, dest h d = ToESP k) ds)) else length (filter (λ d, dest h d = ToESP k) ds))).
  2: { intros k _. destruct (decide (m = k)) as [->|]; [by rewrite decide_True | by rewrite decide_False by congruence]. }
  rewrite sum_bump by auto. lia.
Qed.

Definition batchSize (s : sorted) (m : nat) : nat := length (default [] (espBatches s !! m)).

Lemma lookup_queueIKE h m d k : is_Some (muxes h !! k) → is_Some (muxes (queueIKE h m d) !! k).
Proof.
  intros [x Hx]. unfold queueIKE. destruct (muxes h !! m) as [y|]; [|by rewrite Hx]. destruct (_ =? _)%nat; simpl; [by rewrite Hx|].
  apply lookup_lt_is_Some. rewrite length_insert. by eapply lookup_lt_Some.
Qed.

Lemma queueIKE_sum l h :
  Forall (λ e, is_Some (muxes h !! e.1)) l →
  u64 (weight (foldl (λ h e, queueIKE h e.1 e.2) h l)) = u64 (weight h + Z.of_nat (length l)).
Proof.
  intros Hl. replace (length l) with (sum_list_with (λ _ : nat * datagram, 1%nat) l) by (induction l; simpl; auto with lia).
  apply (weight_foldl _ _ (λ h e, is_Some (muxes h !! e.1))); [| |done].
  - intros h' [m d] Hm. by apply queueIKE_weight.
  - intros h' [m d] [k d'] _ Hk. by apply lookup_queueIKE.
Qed.

Lemma queueUnclaimed_sum l h :
  (l ≠ [] → is_Some (listen h)) → u64 (weight (foldl queueUnclaimed h l)) = u64 (weight h + Z.of_nat (length l)).
Proof.
  intros Hl. replace (length l) with (sum_list_with (λ _ : datagram, 1%nat) l) by (clear; induction l; simpl; auto with lia).
  apply (weight_foldl _ _ (λ h _, is_Some (listen h))).
  - intros h' d Hd. by apply queueUnclaimed_weight.
  - intros h' d _ [q Hq] _. unfold queueUnclaimed. rewrite Hq. destruct (_ =? _)%nat; simpl; by rewrite ?Hq.
  - apply Forall_forall. intros d Hd. apply Hl. by intros ->%not_elem_of_nil || (intros ->; by apply not_elem_of_nil in Hd).
Qed.

Lemma queueBatch_sum s l h :
  Forall (λ m, is_Some (muxes h !! m)) l →
  u64 (weight (foldl (queueBatch s) h l)) = u64 (weight h + Z.of_nat (sum_list_with (batchSize s) l)).
Proof.
  intros Hl. apply (weight_foldl _ _ (λ h m, is_Some (muxes h !! m))); [| |done].
  - intros h' m Hm. unfold queueBatch, batchSize. destruct (espBatches s !! m); [by apply queueESP_weight|]. simpl. f_equal. lia.
  - intros h' m k _ [x Hx]. unfold queueBatch. destruct (espBatches s !! m); [|by rewrite Hx]. rewrite queueESP_lookup, Hx. by eexists.
Qed.

Lemma bound_for_member h v ds : bound_for h v ds ≠ [] → ∃ d, dest h d = v.
Proof.
  unfold bound_for. induction ds as [|d ds IH]; [done|]. rewrite filter_cons. destruct (decide _) as [E|]; [by exists d|done].
Qed.

Lemma visited_owned h ds order :
  owned h → (∀ m, m ∈ order → bound_for h (ToESP m) ds ≠ []) → Forall (λ m, is_Some (muxes h !! m)) order.
Proof.
  intros Ho Hord. apply Forall_forall. intros m [d Hd]%Hord%bound_for_member.
  pose proof (dest_range h d Ho) as H. rewrite Hd in H. by rewrite Forall_singleton in H.
Qed.

(** The accept queue's overflow, listening or not. *)
Lemma queueUnclaimed_overflow h ds h1 :
  listen h1 = listen h → (∀ q, listen h = Some q → (length q ≤ listenSize)%nat) →
  let l := bound_for h ToListen ds in
  keepalives (foldl queueUnclaimed h1 l) = keepalives h1 ∧
  u64 (refused (foldl queueUnclaimed h1 l)) = u64 (refused h1 + Z.of_nat (length (default [] (listen h)) + length l - listenSize)).
Proof.
  intros L1 Hls. destruct (listen h) as [q|] eqn:Hq; [apply queueUnclaimed_tally; [done|by apply Hls]|].
  destruct (bound_for h ToListen ds) as [|d l] eqn:Hd; [simpl; split; [done|f_equal; lia]|].
  destruct (listen_some h ds) as [? Hn]; [by rewrite Hd|congruence].
Qed.

Lemma receiveRead_counts h r ds order h' :
  bounded h → owned h → Forall (λ d, bytes_ok d.1) ds → visits h ds order → receiveRead h r ds order = Ok h' →
  u64 (weight h') = u64 (weight h + (r + Z.of_nat (length ds))) ∧
  u64 (keepalives h') = u64 (keepalives h + Z.of_nat (length (bound_for h Keepalive ds))) ∧
  u64 (refused h') = u64 (refused h + (r + Z.of_nat (length (bound_for h Unwanted ds))) +
    Z.of_nat (length (default [] (listen h)) + length (bound_for h ToListen ds) - listenSize)).
Proof.
  intros [Hike Hls] Ho Hb [Hnd Hord] Hrd. unfold receiveRead in Hrd.
  destruct (sortRead_spec (add_refused h r) ds (mkSorted ∅ [] [] 0 0) Hb) as (s&Hs&He&Hi&Hu&Hw&Ha).
  rewrite Hs in Hrd. cbn [mbind res_bind] in Hrd. injection Hrd as <-. simpl in Hi, Hu, Hw, Ha. rewrite Hi, Hu.
  assert (∀ v, bound_for (add_refused h r) v ds = bound_for h v ds) as Hbf by (intros; by apply bound_for_counters).
  rewrite Hbf in Hu, Hw, Ha. rewrite Hbf. setoid_rewrite Hbf in He. 
  assert (omap (is_ike (add_refused h r)) ds = omap (is_ike h) ds) as -> by done.
  pose proof (visited_owned h ds order Ho (λ m Hm, proj1 (Hord m) Hm)) as Hom.
  assert (sum_list_with (batchSize s) order = sum_list_with (λ m, length (bound_for h (ToESP m) ds)) order) as Hsum.
  { apply sum_list_with_ext. intros m _. unfold batchSize. rewrite He. simpl. rewrite lookup_empty.
    destruct (bound_for h (ToESP m) ds); simpl; [done|]. by rewrite length_fmap. }
  pose proof (sorted_all h ds order Hnd (λ m Hm, proj2 (Hord m) Hm)) as Htot.
  set (h0 := add_refused (add_keepalives (add_refused h r) (alive s)) (unwanted s)).
  destruct (queueIKE_all (omap (is_ike h) ds) h0 Hike) as (F1&L1&M1).
  pose proof (queueIKE_sum (omap (is_ike h) ds) h0 (ike_in_range h ds Ho)) as W1.
  pose proof (queueIKE_tally (omap (is_ike h) ds) h0) as T1.
  set (h1 := foldl _ h0 _) in *.
  pose proof (queueUnclaimed_sum (bound_for h ToListen ds) h1) as W2. rewrite L1 in W2. specialize (W2 (listen_some h ds)).
  destruct (queueUnclaimed_all (bound_for h ToListen ds) h1) as (F2&M2&L2); [by rewrite L1|].
  destruct (queueUnclaimed_overflow h ds h1 L1 Hls) as [K2 R2].
  set (h2 := foldl queueUnclaimed h1 _) in *.
  change (foldl _ h2 order) with (foldl (queueBatch s) h2 order).
  pose proof (queueBatch_tally s order h2) as T3.
  assert (Forall (λ m, is_Some (muxes h2 !! m)) order) as Hom2.
  { eapply Forall_impl; [exact Hom|]. intros m [x Hx]. rewrite M2, M1. change (muxes h0) with (muxes h). rewrite Hx. by eexists. }
  pose proof (queueBatch_sum s order h2 Hom2) as W3.
  unfold tally in T1, T3. injection T1 as R1 K1. injection T3 as R3 K3. rewrite K3, R3, K2, K1, R2, R1.
  split_and!.
  - assert (u64 (weight h0) = u64 (weight h + (r + (alive s + unwanted s)))) as W0.
    { eapply u64_trans; [apply weight_refused|]. eapply u64_trans; [apply weight_keepalives|]. apply weight_refused. }
    pose proof (u64_trans _ _ _ _ _ W0 (u64_trans _ _ _ _ _ W1 (u64_trans _ _ _ _ _ W2 W3))) as W. rewrite W. f_equal. unfold datagram in *. lia.
  - subst h0. simpl. rewrite Ha. unfold u64. by rewrite Z.mod_mod by lia.
  - subst h0. simpl. rewrite Hw, u64_plus_l, <- Z.add_assoc, u64_plus_l. f_equal. lia.
Qed.
