(* ===== verification/TransFlow.v ===== *)
(** * The hub as a state machine

    The invariant of the hub and its queues, that every operation keeps it, and
    what follows over any run: a peer's reader is handed exactly the packets the
    hub accepted for it, once each and in order. *)

From S2P Require Import Prelude Store TransHub TransRead.

(** ** The invariant *)

(** Tickets count the batches of a queue without a gap. *)
Definition tickets_ok (x : Mux) : Prop :=
  ∀ i b, espCh x !! i = Some b → batchTicket b = u64 (espTicket x - Z.of_nat (length (espCh x)) + Z.of_nat i).

Definition batch_ok (b : espDatagramBatch) : Prop :=
  batchPackets b ≠ [] ∧ batchBytes b = Z.of_nat (total (batchPackets b)).

Definition charged (l : list espDatagramBatch) : Z := foldr (λ b n, batchBytes b + n) 0 l.

Record mux_ok (x : Mux) : Prop := mkMuxOk {
  mo_ike : (length (ikeCh x) ≤ ikeChanSize)%nat;
  mo_esp : (length (espCh x) ≤ espChanSize)%nat;
  mo_charge : espQueued x = charged (espCh x);
  mo_budget : espQueued x ≤ espQueueBytes;
  mo_batches : Forall batch_ok (espCh x);
  mo_tickets : tickets_ok x;
  mo_next : 0 ≤ espTicket x < 2 ^ 64 }.

Definition table_ok (h : Hub) (t : gmap Z nat) : Prop := map_Forall (λ spi m, spi ≠ 0 ∧ isClosed h m = false) t.

Record hub_ok (h : Hub) : Prop := mkHubOk {
  ho_ike : table_ok h (ike h);
  ho_esp : table_ok h (esp h);
  ho_muxes : Forall mux_ok (muxes h);
  ho_listen : ∀ q, listen h = Some q → (length q ≤ listenSize)%nat }.

(** ** Muxes *)

Lemma charged_app l k : charged (l ++ k) = charged l + charged k.
Proof. unfold charged. induction l; simpl; [done|lia]. Qed.

Lemma charged_nonneg l : Forall batch_ok l → 0 ≤ charged l.
Proof. induction 1 as [|b l [_ Hb] _ IH]; simpl; lia. Qed.

Lemma u64_shift a b : u64 (u64 a - b) = u64 (a - b).
Proof. unfold u64. apply Zminus_mod_idemp_l. Qed.

Lemma with_ike_ok x q : mux_ok x → (length q ≤ ikeChanSize)%nat → mux_ok (with_ike x q).
Proof. by intros [] ?. Qed.

Lemma set_pending_ok x l : mux_ok x → mux_ok (set_pending x l).
Proof. by intros []. Qed.

Lemma offered_ok x ps : mux_ok x → ps ≠ [] → mux_ok (offered x ps).
Proof.
  intros Hx Hne. unfold offered. destruct (hasRoomForESP x _) eqn:Hr; [|done].
  unfold hasRoomForESP in Hr. apply andb_true_iff in Hr as [Hl%Nat.ltb_lt Hb]. bool_props.
  destruct Hx as [Hi He Hc _ Hf Ht Hn]. split; simpl.
  - done.
  - rewrite length_app. simpl. lia.
  - rewrite charged_app. simpl. lia.
  - done.
  - apply Forall_app. split; [done|]. by apply Forall_singleton.
  - intros i b Hib. cbn [espCh espTicket] in *. rewrite length_app, Nat2Z.inj_add. cbn [length].
    replace (u64 (espTicket x + 1) - _ + _) with (u64 (espTicket x + 1) - (Z.of_nat (length (espCh x)) + 1 - Z.of_nat i)) by lia.
    rewrite u64_shift. apply lookup_snoc_Some in Hib as [[Hi' Hib]|[-> <-]].
    + rewrite (Ht _ _ Hib). f_equal. lia.
    + cbn [batchTicket]. rewrite u64_id; lia.
  - apply u64_bound.
Qed.

Lemma takeESP_ok x y b : mux_ok x → takeESP x = Some (y, b) → mux_ok y ∧ espCh x = b :: espCh y ∧ espPending y = espPending x.
Proof.
  unfold takeESP. destruct (espCh x) as [|b' rest] eqn:Hx; [done|]. intros [Hi He Hc Hb Hf Ht Hn] [= <- ->].
  rewrite Hx in *. apply Forall_cons in Hf as [[Hbn Hbb] Hf]. simpl in He, Hc. split; [|done].
  split; simpl; try done; try lia.
  intros i c Hic. simpl in *. rewrite (Ht (S i) c); [|by rewrite Hx]. rewrite Hx. simpl. f_equal. lia.
Qed.

(** ** Reading a peer's packets *)

Definition stream (x : Mux) : list (list Z) := espPending x ++ concat (batchPackets <$> espCh x).

(** What reading packets leaves alone. *)
Definition mux_frame (x : Mux) := (endpoint x, ikeCh x, espTicket x, muxClosed x).

Lemma takeESP_frame x y b : takeESP x = Some (y, b) → mux_frame y = mux_frame x.
Proof. unfold takeESP. destruct (espCh x); [done|]. by intros [= <- <-]. Qed.

Lemma stream_nonempty x : mux_ok x → espPending x = [] → takeESP x = None → stream x = [].
Proof. unfold takeESP, stream. intros _ ->. by destruct (espCh x). Qed.

(** A turn of the loop starts from a mux with packets pending and the same stream. *)
Lemma refill x :
  mux_ok x →
  match refillESP x with
  | None => stream x = []
  | Some y => mux_ok y ∧ stream y = stream x ∧ espPending y ≠ [] ∧ mux_frame y = mux_frame x
  end.
Proof.
  intros Hx. unfold refillESP. destruct (espPending x) as [|p ps] eqn:Hp; simpl; [|by rewrite Hp].
  destruct (takeESP x) as [[y b]|] eqn:Ht; [|by apply stream_nonempty].
  destruct (takeESP_ok x y b Hx Ht) as (Hy&Hc&_). pose proof (takeESP_frame x y b Ht).
  split; [by apply set_pending_ok|]. unfold stream. rewrite Hp, Hc. simpl. split; [done|]. split; [|done].
  pose proof (mo_batches x Hx) as Hf. rewrite Hc in Hf. by apply Forall_cons in Hf as [[] _].
Qed.

Lemma recvLoop_spec fuel x room dst :
  mux_ok x → (length dst ≤ room)%nat → (0 < room)%nat → (room - length dst < fuel)%nat →
  let out := dst ++ take (room - length dst) (stream x) in
  match recvLoop fuel x room dst with
  | None => out = []
  | Some (y, got) => got = out ∧ out ≠ [] ∧ mux_ok y ∧ stream y = drop (room - length dst) (stream x) ∧ mux_frame y = mux_frame x
  end.
Proof.
  revert x dst. induction fuel as [|fuel IH]; intros x dst Hx Hd Hr Hf; [lia|]. cbn [recvLoop].
  destruct (Nat.ltb_spec (length dst) room) as [Hlt|Hge].
  2: { replace (room - length dst)%nat with 0%nat by lia. simpl. rewrite app_nil_r. split_and!; try done.
       intros ->. simpl in *. lia. }
  pose proof (refill x Hx) as Hre. destruct (refillESP x) as [y|].
  2: { rewrite Hre, take_nil, app_nil_r, drop_nil. destruct dst; simpl; [done|]. by rewrite Hre. }
  destruct Hre as (Hy&Hs&Hp&Hm). set (n := Nat.min _ _).
  assert (0 < n ≤ length (espPending y))%nat as Hn by (subst n; destruct (espPending y); [done|simpl; lia]).
  assert (n ≤ room - length dst)%nat as Hnr by lia.
  specialize (IH (set_pending y (drop n (espPending y))) (dst ++ take n (espPending y))). cbn zeta in IH.
  rewrite length_app, length_take, Nat.min_l in IH by lia.
  assert (take n (espPending y) ++ take (room - (length dst + n)) (stream (set_pending y (drop n (espPending y)))) = take (room - length dst) (stream x)
    ∧ drop (room - (length dst + n)) (stream (set_pending y (drop n (espPending y)))) = drop (room - length dst) (stream x)) as [Ht Hdr].
  { assert (stream x = take n (espPending y) ++ stream (set_pending y (drop n (espPending y)))) as ->
      by (rewrite <- Hs; unfold stream; cbn [set_pending espPending espCh]; by rewrite app_assoc, take_drop).
    replace (room - length dst)%nat with (n + (room - (length dst + n)))%nat by lia.
    rewrite take_app_add', drop_app_add' by (rewrite length_take; lia). done. }
  cbn zeta. rewrite <- app_assoc, Ht, Hdr in IH.
  destruct (recvLoop fuel _ room _) as [[z got]|].
  - destruct IH as (IH1&IH2&IH3&IH4&IH5); [by apply set_pending_ok | lia.. |]. split_and!; try done. by rewrite IH5.
  - apply IH; [by apply set_pending_ok | lia..].
Qed.

(** ** The invariant under each operation *)

Lemma isClosed_update h m x y k :
  muxes h !! m = Some x → muxClosed y = muxClosed x → isClosed (set_muxes h (<[m := y]> (muxes h))) k = isClosed h k.
Proof.
  intros Hx Hc. unfold isClosed. simpl. f_equal. destruct (decide (m = k)) as [<-|].
  - by rewrite list_lookup_insert_eq, Hx by (by eapply lookup_lt_Some).
  - by rewrite list_lookup_insert_ne by done.
Qed.

Lemma spi_table_ext h h' t : (∀ k, isClosed h k = false → isClosed h' k = false) → table_ok h t → table_ok h' t.
Proof. intros Hc Ht spi m Hm. destruct (Ht spi m Hm). auto. Qed.

Lemma update_mux_ok h m x y :
  hub_ok h → muxes h !! m = Some x → mux_ok y → muxClosed y = muxClosed x → hub_ok (set_muxes h (<[m := y]> (muxes h))).
Proof.
  intros [] Hx Hy Hc. split; simpl; try done; try (eapply spi_table_ext; [|done]; intros; by erewrite isClosed_update).
  by apply Forall_insert.
Qed.

Lemma NewMux_ok h ep h' : hub_ok h → NewMux h ep = Ok h' → hub_ok h'.
Proof.
  unfold NewMux. intros [Hi He Hm Hl]. destruct (hubClosed h) eqn:Hh; [done|]. intros [= <-].
  assert (∀ k, isClosed h k = false → isClosed (set_muxes h (muxes h ++ [mkMux ep [] [] 0 0 [] false])) k = false) as Hcl.
  { intros k. unfold isClosed. simpl. destruct (muxes h !! k) eqn:Hk; [|done]. by rewrite (lookup_app_l_Some _ _ _ _ Hk). }
  split; simpl; try done; try (by eapply spi_table_ext).
  apply Forall_app. split; [done|]. apply Forall_singleton. split; simpl; try done; lia.
Qed.

Lemma claim_ok h t spi m t' : table_ok h t → spi ≠ 0 → isClosed h m = false → claim t spi m = Some t' → table_ok h t'.
Proof.
  intros Ht Hs Hm. unfold claim. destruct (t !! spi) as [o|]; [destruct (_ =? _)%nat; [|done]|]; intros [= <-];
    by apply map_Forall_insert_2.
Qed.

Lemma unclaim_ok h t spi m : table_ok h t → table_ok h (unclaim t spi m).
Proof. intros Ht. unfold unclaim. destruct (t !! spi); [|done]. destruct (_ =? _)%nat; [|done]. by apply map_Forall_delete. Qed.

Lemma RegisterIKE_ok h m spi h' : hub_ok h → RegisterIKE h m spi = Ok h' → hub_ok h'.
Proof.
  unfold RegisterIKE. intros []. destruct (Z.eqb_spec spi 0); [done|]. destruct (isClosed h m) eqn:Hc; [done|].
  destruct (claim _ _ _) eqn:Hcl; [|done]. intros [= <-]. split; simpl; try done; eapply (spi_table_ext h); try done. by eapply claim_ok, Hcl.
Qed.

Lemma RegisterESP_ok h m spi h' : hub_ok h → RegisterESP h m spi = Ok h' → hub_ok h'.
Proof.
  unfold RegisterESP. intros []. destruct (Z.eqb_spec spi 0); [done|]. destruct (isClosed h m) eqn:Hc; [done|].
  destruct (claim _ _ _) eqn:Hcl; [|done]. intros [= <-]. split; simpl; try done; eapply (spi_table_ext h); try done. by eapply claim_ok, Hcl.
Qed.

Lemma close_mux_ok x : mux_ok x → mux_ok (close_mux x).
Proof. by intros []. Qed.

Lemma CloseMux_ok h m : hub_ok h → hub_ok (CloseMux h m).
Proof.
  intros Hh. unfold CloseMux. destruct (muxes h !! m) as [x|] eqn:Hx; [|done]. destruct (muxClosed x); [done|].
  destruct Hh as [Hi He Hm Hl].
  assert (∀ t, table_ok h t → table_ok (set_muxes (set_tables h (filter (λ e, e.2 ≠ m) (ike h)) (filter (λ e, e.2 ≠ m) (esp h))) (<[m := close_mux x]> (muxes h))) (filter (λ e, e.2 ≠ m) t)) as Ht.
  { intros t Ht spi k [Hk Hne]%map_lookup_filter_Some. destruct (Ht spi k Hk) as [? Ho]. split; [done|].
    unfold isClosed in *. simpl in *. by rewrite list_lookup_insert_ne by congruence. }
  split; simpl; auto. apply Forall_insert; [done|]. apply close_mux_ok. by eapply Forall_lookup_1.
Qed.

Lemma CloseHub_ok h : hub_ok h → hub_ok (CloseHub h).
Proof.
  intros Hh. unfold CloseHub. destruct (hubClosed h); [done|]. destruct Hh as [_ _ Hm Hl].
  split; simpl; try done. apply Forall_fmap. eapply Forall_impl; [exact Hm|]. intros x. apply close_mux_ok.
Qed.

Lemma AdoptEndpoint_ok h m ep : hub_ok h → hub_ok (AdoptEndpoint h m ep).
Proof.
  intros Hh. unfold AdoptEndpoint. destruct (muxes h !! m) as [x|] eqn:Hx; [|done]. apply (update_mux_ok h m x); try done.
  pose proof (Forall_lookup_1 _ _ _ _ (ho_muxes h Hh) Hx) as []. by split.
Qed.

Lemma hub_ok_bounded h : hub_ok h → bounded h.
Proof. intros []. split; [|done]. intros m x Hx. by apply (Forall_lookup_1 _ _ _ _ ho_muxes0 Hx). Qed.

Lemma table_owned h t spi m : table_ok h t → t !! spi = Some m → is_Some (muxes h !! m).
Proof. intros Ht Hm. destruct (Ht spi m Hm) as [_ Hc]. unfold isClosed in Hc. by destruct (muxes h !! m). Qed.

Lemma hub_ok_owned h : hub_ok h → owned h.
Proof. intros []. split; intros ??; by apply table_owned. Qed.

Lemma mux_after_ok h ds m x : mux_ok x → mux_ok (mux_after h ds m x) ∧ muxClosed (mux_after h ds m x) = muxClosed x.
Proof.
  intros Hx. unfold mux_after. set (y := with_ike _ _).
  assert (mux_ok y) as Hy by (apply with_ike_ok; [done|]; rewrite length_take; lia).
  destruct (bound_for h (ToESP m) ds) as [|d l]; [done|]. split; [by apply offered_ok|].
  unfold offered. by destruct (hasRoomForESP _ _).
Qed.

Lemma receiveRead_ok h r ds order h' :
  hub_ok h → Forall (λ d, bytes_ok d.1) ds → visits h ds order → receiveRead h r ds order = Ok h' → hub_ok h'.
Proof.
  intros Hh Hb Hv Hr. destruct (receiveRead_spec h r ds order (hub_ok_bounded h Hh) Hb Hv) as (k&Hk&Hf&Hm&Hl).
  rewrite Hr in Hk. injection Hk as <-. destruct Hh as [Hi He Hms Hls]. injection Hf as Hfi Hfe Hfc.
  assert (∀ m, isClosed h' m = isClosed h m) as Hc.
  { intros m. unfold isClosed. rewrite Hm, Hfc. destruct (muxes h !! m) as [x|] eqn:Hx; [|done]. simpl.
    by rewrite (proj2 (mux_after_ok h ds m x (Forall_lookup_1 _ _ _ _ Hms Hx))). }
  split.
  - rewrite Hfi. eapply (spi_table_ext h); [|done]. intros m. by rewrite Hc.
  - rewrite Hfe. eapply (spi_table_ext h); [|done]. intros m. by rewrite Hc.
  - apply Forall_lookup_2. intros m y. rewrite Hm. destruct (muxes h !! m) as [x|] eqn:Hx; [|done]. intros [= <-].
    apply mux_after_ok. by eapply Forall_lookup_1.
  - intros q. rewrite Hl. destruct (listen h); [|done]. intros [= <-]. rewrite length_take. lia.
Qed.

(** ** Steps *)

(** What a step shows: the datagrams it read, the packets it handed a reader. *)
Inductive event :=
| Quiet
| Reads (ds : list datagram)
| Gives (m : nat) (ps : list (list Z)).

Inductive hub_step (h : Hub) : event → Hub → Prop :=
| step_new ep h' : NewMux h ep = Ok h' → hub_step h Quiet h'
| step_listen : hub_step h Quiet (Listen h)
| step_register_ike m spi h' : RegisterIKE h m spi = Ok h' → hub_step h Quiet h'
| step_unregister_ike m spi : hub_step h Quiet (UnregisterIKE h m spi)
| step_register_esp m spi h' : RegisterESP h m spi = Ok h' → hub_step h Quiet h'
| step_unregister_esp m spi : hub_step h Quiet (UnregisterESP h m spi)
| step_close_mux m : hub_step h Quiet (CloseMux h m)
| step_close_hub : hub_step h Quiet (CloseHub h)
| step_adopt m ep : hub_step h Quiet (AdoptEndpoint h m ep)
| step_read r ds order h' :
    Forall (λ d, bytes_ok d.1) ds → visits h ds order → receiveRead h r ds order = Ok h' → hub_step h (Reads ds) h'
| step_recv_ike m h' d : RecvIKE h m = Some (h', d) → hub_step h Quiet h'
| step_accept h' d : AcceptUnclaimed h = Some (h', d) → hub_step h Quiet h'
| step_recv m h' p : RecvESP h m = Some (h', Ok p) → hub_step h (Gives m [p]) h'
| step_recv_batch m n h' ps : RecvESPBatch h m n = Some (h', ps) → hub_step h (Gives m ps) h'
| step_recv_concurrent m x h' t ps :
    muxes h !! m = Some x → espPending x = [] →  (* never mixed with the other two *)
    RecvESPBatchConcurrent h m = Some (h', (t, ps)) → hub_step h (Gives m ps) h'.

(** Reading a peer's packets: the packets lead its stream. *)
Definition hands (h : Hub) (m : nat) (ps : list (list Z)) (h' : Hub) : Prop :=
  ∃ x y, muxes h !! m = Some x ∧ mux_ok y ∧ mux_frame y = mux_frame x ∧ stream x = ps ++ stream y ∧
    h' = set_muxes h (<[m := y]> (muxes h)).

Lemma RecvESP_hands h m h' r : hub_ok h → RecvESP h m = Some (h', r) → ∃ p, r = Ok p ∧ hands h m [p] h'.
Proof.
  intros Hh. unfold RecvESP. destruct (muxes h !! m) as [x|] eqn:Hx; simpl; [|done].
  pose proof (refill x (Forall_lookup_1 _ _ _ _ (ho_muxes h Hh) Hx)) as Hre.
  destruct (refillESP x) as [y|]; simpl; [|done]. destruct Hre as (Hy&Hs&Hp&Hf). intros [= <- <-].
  destruct (espPending y) as [|p ps] eqn:Hpy; [done|]. exists p. split; [done|].
  exists x, (set_pending y ps). split_and!; try done; [by apply set_pending_ok|].
  rewrite <- Hs. unfold stream. by rewrite Hpy.
Qed.

Lemma RecvESPBatch_hands h m n h' ps : hub_ok h → RecvESPBatch h m n = Some (h', ps) → hands h m ps h'.
Proof.
  intros Hh. unfold RecvESPBatch. destruct (muxes h !! m) as [x|] eqn:Hx; cbn [mbind option_bind]; [|done].
  set (room := if (n =? 0)%nat then espSendBatch else n).
  assert (0 < room ≤ espSendBatch + n)%nat as Hroom by (subst room; destruct (Nat.eqb_spec n 0); unfold espSendBatch; lia).
  pose proof (recvLoop_spec (2 + espSendBatch + n + length (espCh x)) x room []
    (Forall_lookup_1 _ _ _ _ (ho_muxes h Hh) Hx)) as Hl. cbn zeta in Hl. cbn [length app] in Hl.
  rewrite Nat.sub_0_r in Hl. destruct (recvLoop _ x room []) as [[y got]|]; cbn [mbind option_bind]; [|done].
  destruct Hl as (->&_&Hy&Hs&Hf); [lia..|]. intros [= <- <-].
  exists x, y. split_and!; try done. by rewrite Hs, take_drop.
Qed.

Lemma RecvESPBatchConcurrent_hands h m x h' t ps :
  hub_ok h → muxes h !! m = Some x → espPending x = [] → RecvESPBatchConcurrent h m = Some (h', (t, ps)) → hands h m ps h'.
Proof.
  intros Hh Hx Hp. unfold RecvESPBatchConcurrent. rewrite Hx. simpl. destruct (takeESP x) as [[y b]|] eqn:Ht; simpl; [|done].
  intros [= <- <- <-]. pose proof (takeESP_frame x y b Ht).
  destruct (takeESP_ok x y b (Forall_lookup_1 _ _ _ _ (ho_muxes h Hh) Hx) Ht) as (Hy&Hc&Hpy).
  exists x, y. split_and!; try done. unfold stream. by rewrite Hc, Hp, Hpy, Hp.
Qed.

Lemma hands_ok h m ps h' : hub_ok h → hands h m ps h' → hub_ok h'.
Proof. intros Hh (x&y&Hx&Hy&Hf&_&->). apply (update_mux_ok h m x); try done. by injection Hf. Qed.

Lemma hub_step_ok h e h' : hub_ok h → hub_step h e h' → hub_ok h'.
Proof.
  intros Hh Hs. destruct Hs as [| |??? Hr| | | | | | | |m h' d Hr|h' d Hr| | |].
  - by eapply NewMux_ok.
  - unfold Listen. destruct (listen h) eqn:Hl; [done|]. destruct Hh. split; try done. simpl. intros q [= <-]. simpl. lia.
  - by eapply RegisterIKE_ok.
  - destruct Hh. split; try done. simpl. by eapply (spi_table_ext h), unclaim_ok.
  - by eapply RegisterESP_ok.
  - destruct Hh. split; try done. simpl. by eapply (spi_table_ext h), unclaim_ok.
  - by apply CloseMux_ok.
  - by apply CloseHub_ok.
  - by apply AdoptEndpoint_ok.
  - by eapply receiveRead_ok.
  - unfold RecvIKE in Hr. destruct (muxes h !! m) as [x|] eqn:Hx; [|done]. simpl in Hr.
    destruct (ikeCh x) as [|d' rest] eqn:Hq; [done|]. injection Hr as <- <-. apply (update_mux_ok h m x); try done.
    pose proof (Forall_lookup_1 _ _ _ _ (ho_muxes h Hh) Hx) as Hmx. apply (with_ike_ok x rest); [done|].
    pose proof (mo_ike x Hmx) as Hi. rewrite Hq in Hi. simpl in Hi. lia.
  - unfold AcceptUnclaimed in Hr. destruct (listen h) as [[|d' rest]|] eqn:Hl; try done. injection Hr as <- <-.
    destruct Hh as [? ? ? Hls]. split; try done. simpl. intros q [= <-]. specialize (Hls _ Hl). simpl in Hls. lia.
  - destruct (RecvESP_hands h m h' (Ok p) Hh H) as (?&_&?). by eapply hands_ok.
  - eapply hands_ok; [done|]. by eapply RecvESPBatch_hands.
  - eapply hands_ok; [done|]. by eapply RecvESPBatchConcurrent_hands.
Qed.

(** ** Order of delivery *)

(** The packets mux [m] holds for its reader. *)
Definition held (m : nat) (h : Hub) : list (list Z) := match muxes h !! m with Some x => stream x | None => [] end.

(** The packets a step puts in mux [m]'s queue: those of the read that name an
    SPI of [m], all of them or none. *)
Definition taken (m : nat) (h : Hub) (e : event) : list (list Z) :=
  match e, muxes h !! m with
  | Reads ds, Some x => let ps := (bound_for h (ToESP m) ds).*1 in if hasRoomForESP x (Z.of_nat (total ps)) then ps else []
  | _, _ => []
  end.

(** The packets a step hands mux [m]'s reader. *)
Definition given (m : nat) (e : event) : list (list Z) :=
  match e with Gives k ps => if decide (k = m) then ps else [] | _ => [] end.

Lemma held_update h m x y k :
  muxes h !! m = Some x → stream y = stream x → held k (set_muxes h (<[m := y]> (muxes h))) = held k h.
Proof.
  intros Hx Hs. unfold held. simpl. destruct (decide (m = k)) as [<-|]; [|by rewrite list_lookup_insert_ne by done].
  by rewrite list_lookup_insert_eq, Hx by (by eapply lookup_lt_Some).
Qed.

Lemma stream_mux_after h ds m x :
  stream (mux_after h ds m x) =
  stream x ++ (let ps := (bound_for h (ToESP m) ds).*1 in if hasRoomForESP x (Z.of_nat (total ps)) then ps else []).
Proof.
  unfold mux_after. set (q := take _ _). destruct (bound_for h (ToESP m) ds) as [|d l].
  - simpl. unfold stream. simpl. destruct (hasRoomForESP x _); by rewrite app_nil_r.
  - cbv zeta. set (ps := (d :: l).*1). unfold offered. change (hasRoomForESP (with_ike x q)) with (hasRoomForESP x).
    destruct (hasRoomForESP x _); unfold stream; simpl; [|by rewrite app_nil_r].
    by rewrite fmap_app, concat_app, app_assoc; simpl; rewrite app_nil_r.
Qed.

Lemma hands_held h m ps h' k : hands h m ps h' → held k h = given k (Gives m ps) ++ held k h'.
Proof.
  intros (x&y&Hx&_&_&Hs&->). unfold held, given. simpl. destruct (decide (m = k)) as [<-|]; [|by rewrite list_lookup_insert_ne by done].
  by rewrite list_lookup_insert_eq, Hx by (by eapply lookup_lt_Some).
Qed.

Lemma held_step h e h' m : hub_ok h → hub_step h e h' → held m h ++ taken m h e = given m e ++ held m h'.
Proof.
  intros Hh Hs. destruct Hs as [ep h' Hn| | | | | |k| |k ep|r ds order h' Hb Hv Hr|k h' d Hr|h' d Hr| | |];
    simpl; rewrite ?app_nil_r; try done.
  - unfold NewMux in Hn. destruct (hubClosed h); [done|]. injection Hn as <-. unfold held. simpl.
    destruct (muxes h !! m) as [x|] eqn:Hx; [by rewrite (lookup_app_l_Some _ _ _ _ Hx)|].
    destruct ((muxes h ++ _) !! m) as [x|] eqn:Hy; [|done].
    apply lookup_snoc_Some in Hy as [[_ Hy]|[_ <-]]; [congruence|done].
  - unfold Listen. by destruct (listen h).
  - unfold RegisterIKE in H. destruct (_ =? _); [done|]. destruct (isClosed h m0); [done|].
    destruct (claim _ _ _); [|done]. by injection H as <-.
  - unfold RegisterESP in H. destruct (_ =? _); [done|]. destruct (isClosed h m0); [done|].
    destruct (claim _ _ _); [|done]. by injection H as <-.
  - unfold CloseMux. destruct (muxes h !! k) as [x|] eqn:Hx; [|done]. destruct (muxClosed x); [done|].
    symmetry. by apply (held_update (set_tables h _ _) k x).
  - unfold CloseHub. destruct (hubClosed h); [done|]. unfold held. simpl.
    rewrite list_lookup_fmap. by destruct (muxes h !! m).
  - unfold AdoptEndpoint. destruct (muxes h !! k) as [x|] eqn:Hx; [|done]. symmetry. by apply (held_update h k x).
  - destruct (receiveRead_spec h r ds order (hub_ok_bounded h Hh) Hb Hv) as (h2&Hr2&_&Hm&_).
    rewrite Hr in Hr2. injection Hr2 as <-. unfold held. rewrite Hm. destruct (muxes h !! m) as [x|]; [|done].
    simpl. by rewrite stream_mux_after.
  - unfold RecvIKE in Hr. destruct (muxes h !! k) as [x|] eqn:Hx; [|done]. simpl in Hr.
    destruct (ikeCh x) as [|d' rest]; [done|]. injection Hr as <- <-. symmetry. by apply (held_update h k x).
  - unfold AcceptUnclaimed in Hr. destruct (listen h) as [[|d' rest]|]; try done. by injection Hr as <- <-.
  - destruct (RecvESP_hands h m0 h' (Ok p) Hh H) as (?&[= <-]&Hd). by apply hands_held.
  - apply hands_held. by eapply RecvESPBatch_hands.
  - apply hands_held. by eapply RecvESPBatchConcurrent_hands.
Qed.

(** A run of the hub from its opening, with what mux [m] accepted and was handed. *)
Inductive run (m : nat) : Hub → list (list Z) → list (list Z) → Prop :=
| run_open : run m newHub [] []
| run_step h e h' got out : run m h got out → hub_step h e h' → run m h' (got ++ taken m h e) (out ++ given m e).

Lemma newHub_ok : hub_ok newHub.
Proof. split; simpl; try done; apply map_Forall_empty. Qed.

Lemma run_ok m h got out : run m h got out → hub_ok h ∧ got = out ++ held m h.
Proof.
  induction 1 as [|h e h' got out Hr [Hh IH] Hs]; [split; [apply newHub_ok|done]|]. split; [by eapply hub_step_ok|].
  rewrite IH, <- !app_assoc. f_equal. by apply held_step.
Qed.

(** ** Theorems *)

(** C22: one read of the socket, whatever bytes it holds, never panics and
    appends to each queue exactly the datagrams that belong there: to a peer's IKE
    queue, without the marker, those whose initiator SPI it registered, as far as
    its sixteen places go; to a peer's ESP queue one batch, in order and unchanged,
    of those whose SPI it registered, when the queue has a place and eight megabytes
    are not exceeded, and otherwise none of them; to the accept queue the IKE
    datagrams no peer claims, up to sixty-four. The tables are left alone. *)
Theorem read_delivers h r ds order :
  hub_ok h → Forall (λ d, bytes_ok d.1) ds → visits h ds order →
  ∃ h', receiveRead h r ds order = Ok h' ∧ ike h' = ike h ∧ esp h' = esp h ∧
    listen h' = (λ q, take 64 (q ++ ((λ d, (drop 4 d.1, d.2)) <$> bound_for h ToListen ds))) <$> listen h ∧
    ∀ m x, muxes h !! m = Some x →
      let ps := (bound_for h (ToESP m) ds).*1 in
      let room := bool_decide (ps ≠ [] ∧ (length (espCh x) < 1024)%nat ∧ espQueued x + Z.of_nat (total ps) ≤ 8388608) in
      ∃ x', muxes h' !! m = Some x' ∧
        ikeCh x' = take 16 (ikeCh x ++ ((λ d, (drop 4 d.1, d.2)) <$> bound_for h (ToIKE m) ds)) ∧
        espCh x' = espCh x ++ (if room then [mkEspBatch (espTicket x) ps (Z.of_nat (total ps))] else []) ∧
        espTicket x' = (if room then u64 (espTicket x + 1) else espTicket x) ∧
        espPending x' = espPending x ∧ endpoint x' = endpoint x ∧ muxClosed x' = muxClosed x.
Proof.
  intros Hh Hb Hv. destruct (receiveRead_spec h r ds order (hub_ok_bounded h Hh) Hb Hv) as (h'&Hr&Hf&Hm&Hl).
  exists h'. injection Hf as -> -> _. split_and!; try done.
  intros m x Hx ps room. exists (mux_after h ds m x). rewrite Hm, Hx. split; [done|]. subst ps room. unfold mux_after.
  destruct (bound_for h (ToESP m) ds) as [|d l].
  - rewrite bool_decide_eq_false_2 by (by intros []). simpl. by rewrite app_nil_r.
  - set (ps := (d :: l).*1). unfold offered. set (y := with_ike x _).
    assert (hasRoomForESP y (Z.of_nat (total ps)) =
      bool_decide (ps ≠ [] ∧ (length (espCh x) < 1024)%nat ∧ espQueued x + Z.of_nat (total ps) ≤ 8388608)) as ->.
    { apply eq_bool_prop_intro. rewrite bool_decide_spec, Is_true_true. unfold hasRoomForESP.
      rewrite andb_true_iff, Nat.ltb_lt, Z.leb_le. split; [by intros [??] | by intros (_&?&?)]. }
    destruct (bool_decide _); [done|]. by rewrite app_nil_r.
Qed.

(** no datagram is lost uncounted. After a read, the datagrams queued and the
    three counters together have grown by exactly what was read and what the
    socket layer could not use (modulo the counters' 64 bits); the keepalive
    counter by the keepalives; the refused counter by what nothing claimed, what
    the socket layer refused and what the accept queue had no room for. *)
Theorem read_accounts h r ds order h' :
  hub_ok h → Forall (λ d, bytes_ok d.1) ds → visits h ds order → receiveRead h r ds order = Ok h' →
  u64 (weight h') = u64 (weight h + r + Z.of_nat (length ds)) ∧
  u64 (keepalives h') = u64 (keepalives h + Z.of_nat (length (bound_for h Keepalive ds))) ∧
  u64 (refused h') = u64 (refused h + r + Z.of_nat (length (bound_for h Unwanted ds)) +
    Z.of_nat (length (default [] (listen h)) + length (bound_for h ToListen ds) - 64)).
Proof.
  intros Hh Hb Hv Hr.
  destruct (receiveRead_counts h r ds order h' (hub_ok_bounded h Hh) (hub_ok_owned h Hh) Hb Hv Hr) as (Hw&Hk&Hf).
  rewrite Hw, Hk, Hf. change listenSize with 64%nat. split_and!; [f_equal; lia|done|f_equal; lia].
Qed.

(** over any run of the hub from its opening - muxes opened and closed, SPIs
    registered and released, reads, and the three kinds of receive in any
    interleaving, the concurrent one never on a mux with packets pending - what a
    peer's reader has been handed followed by what its queue still holds is exactly
    the sequence of packets accepted for it: none lost, doubled or reordered. *)
Theorem packets_in_order m h got out : run m h got out → got = out ++ held m h.
Proof. intros Hr. by apply run_ok in Hr as [_ ->]. Qed.

(** C36: every hub a run reaches is well formed: a registered SPI is not zero and
    belongs to an open mux of an open hub, no queue exceeds its bound, a mux's
    byte charge is the size of the packets queued and within eight megabytes, no
    batch is empty, and the tickets of the batches queued are consecutive and end
    just before the next one. On such a hub a receive never panics and returns
    exactly when packets are held. *)
Theorem hub_reachable m h got out :
  run m h got out → hub_ok h ∧ ∀ k, (k < length (muxes h))%nat → match RecvESP h k with Some (_, r) => is_ok r = true | None => held k h = [] end.
Proof.
  intros [Hh _]%run_ok. split; [done|]. intros k Hk. destruct (RecvESP h k) as [[h' r]|] eqn:Hr.
  - by destruct (RecvESP_hands h k h' r Hh Hr) as (p&->&_).
  - unfold RecvESP in Hr. unfold held. destruct (muxes h !! k) as [x|] eqn:Hx; [|done]. simpl in Hr.
    pose proof (refill x (Forall_lookup_1 _ _ _ _ (ho_muxes h Hh) Hx)) as Hre. by destruct (refillESP x).
Qed.

(** ** Witnesses *)

Definition hubOf (r : res Hub) : Hub := match r with Ok h => h | _ => newHub end.

(** Two peers; the first owns IKE SPI 1 and ESP SPI 0x01020304, the second ESP
    SPI 0x01020305. *)
Definition w1 : Hub := hubOf (NewMux (hubOf (NewMux newHub (Some 7))) (Some 8)).
Definition w2 : Hub := hubOf (RegisterIKE (Listen w1) 0 1).
Definition w3 : Hub := hubOf (RegisterESP (hubOf (RegisterESP w2 0 0x01020304)) 1 0x01020305).

(** A keepalive, a message for the first peer, packets for both, an IKE message
    nobody claims, a packet nobody claims. *)
Definition wRead : list datagram :=
  [([0xff], Some 7); ([0;0;0;0; 0;0;0;0;0;0;0;1; 42], Some 7); ([1;2;3;4; 10], Some 7); ([1;2;3;5; 20], Some 8);
   ([1;2;3;4; 11], Some 7); ([0;0;0;0; 0;0;0;0;0;0;0;2; 43], Some 9); ([9;9;9;9; 30], Some 9)].

Lemma wRead_bytes : Forall (λ d : datagram, bytes_ok d.1) wRead.
Proof. repeat constructor; unfold byte_ok; simpl; lia. Defined.

Lemma w_run m : run m w3 [] [].
Proof.
  apply (run_step m (hubOf (RegisterESP w2 0 0x01020304)) Quiet w3 [] []); [|by apply (step_register_esp _ 1 0x01020305)].
  apply (run_step m w2 Quiet _ [] []); [|by apply (step_register_esp _ 0 0x01020304)].
  apply (run_step m (Listen w1) Quiet _ [] []); [|by apply (step_register_ike _ 0 1)].
  apply (run_step m w1 Quiet _ [] []); [|by apply step_listen].
  apply (run_step m (hubOf (NewMux newHub (Some 7))) Quiet _ [] []); [|by apply (step_new _ (Some 8))].
  apply (run_step m newHub Quiet _ [] []); [|by apply (step_new _ (Some 7))].
  apply run_open.
Defined.

Lemma wRead_visits : visits w3 wRead [1%nat; 0%nat].
Proof.
  split; [repeat constructor; set_solver|]. intros [|[|m]]; split; try (intros _; by vm_compute); try set_solver.
Defined.

Definition w4 : Hub := hubOf (receiveRead w3 2 wRead [1%nat; 0%nat]).

Lemma read_delivers_witness :
  ∃ h', receiveRead w3 2 wRead [1%nat; 0%nat] = Ok h' ∧
    ∃ x, muxes h' !! 0%nat = Some x ∧ espCh x = [mkEspBatch 0 [[1;2;3;4; 10]; [1;2;3;4; 11]] 10].
Proof.
  destruct (read_delivers w3 2 wRead [1%nat; 0%nat] (proj1 (run_ok 0 _ _ _ (w_run 0))) wRead_bytes wRead_visits) as (h'&Hr&_&_&_&Hm).
  exists h'. split; [done|]. destruct (Hm 0%nat _ eq_refl) as (x&Hx&_&He&_). exists x. split; [done|]. rewrite He. vm_compute. reflexivity.
Defined.

Lemma read_accounts_witness : u64 (weight w4) = 9 ∧ u64 (keepalives w4) = 1 ∧ u64 (refused w4) = 3.
Proof.
  pose proof (read_accounts w3 2 wRead [1%nat; 0%nat] w4 (proj1 (run_ok 0 _ _ _ (w_run 0))) wRead_bytes wRead_visits eq_refl) as H.
  exact H.
Defined.

(** The first peer reads its first packet. *)
Lemma w_run_read : ∃ h, run 0 h [[1;2;3;4; 10]; [1;2;3;4; 11]] [[1;2;3;4; 10]].
Proof.
  eexists. eapply (run_step 0 w4 (Gives 0 [[1;2;3;4; 10]]) _ [[1;2;3;4; 10]; [1;2;3;4; 11]] []).
  - eapply (run_step 0 w3 (Reads wRead) w4 [] []); [apply w_run|]. apply (step_read _ 2 _ [1%nat; 0%nat]); [apply wRead_bytes|apply wRead_visits|done].
  - by eapply step_recv.
Defined.

Lemma packets_in_order_witness : ∃ h, [[1;2;3;4; 10]; [1;2;3;4; 11]] = [[1;2;3;4; 10]] ++ held 0 h.
Proof. destruct w_run_read as [h Hr]. exists h. exact (packets_in_order 0 h _ _ Hr). Defined.

Lemma hub_reachable_witness : hub_ok w3 ∧ held 0 w3 = [].
Proof. destruct (hub_reachable 0 w3 [] [] (w_run 0)) as [Hh Hk]. split; [exact Hh|]. exact (Hk 0%nat ltac:(vm_compute; lia)). Defined.
