(* ===== verification/Tunnel.v ===== *)
(** * One session's security associations, internal/client/tunnel.go

    The set of SAs a tunnel carries traffic with: [install] and [retire] publish
    a new set, [reserve] takes sequence numbers of the outbound one, [decryptBatch]
    hands every packet of a socket batch to the SA its SPI names. Inbound SAs are
    pointers into the heap of [Esp]. A goroutine that asks for a replacement is
    reported by the call that starts it; [rekeyDone] is its end. *)

From S2P Require Import Prelude Netip Store Replay Esp EspSeal EspOpen Packet.
Import ReplayWindow.

Record tunnelSAs := mkTunnelSAs {
  outbound : option OutboundSA;
  outboundSPI : Z;
  inbound : gmap Z nat }.

Record tunnel := mkTunnel {
  sas : option tunnelSAs;
  sheap : gmap nat InboundSA;
  replayWindowOf : Z;
  rekeying : bool;
  rekey : bool;  (* whether the callback is set *)
  askedAt : Z }.

Definition rekeyAskInterval : Z := 250 * 10 ^ 6.
Definition errNoChildSA : string := "peer has no active Child SA".
Definition errUnknownSPI : string := "no matching inbound ESP SA".

(** [&tunnel{...}] with [askedAt] primed one interval in the past. *)
Definition newTunnel (window : Z) (withRekey : bool) : tunnel :=
  mkTunnel None ∅ window false withRekey (- rekeyAskInterval).

Definition fatalReserveError (err : option string) : bool :=
  match err with
  | None => false
  | Some e => negb (bool_decide (e = errNoChildSA)) && negb (bool_decide (e = ErrSequenceExhausted))
  end.

Definition set_sas (t : tunnel) (s : option tunnelSAs) (h : gmap nat InboundSA) : tunnel :=
  mkTunnel s h (replayWindowOf t) (rekeying t) (rekey t) (askedAt t).

(** The tunnel, and whether an attempt was started. *)
Definition requestRekey (t : tunnel) (now : Z) : tunnel * bool :=
  if negb (rekey t) || rekeying t then (t, false)
  else if now - askedAt t <? rekeyAskInterval then (t, false)
  else (mkTunnel (sas t) (sheap t) (replayWindowOf t) true (rekey t) now, true).

Definition rekeyDone (t : tunnel) : tunnel :=
  mkTunnel (sas t) (sheap t) (replayWindowOf t) false (rekey t) (askedAt t).

Section crypto.
Context `{C : Crypto}.

(** The new SA is allocated at a pointer the heap does not hold. *)
Definition install (t : tunnel) (child : ChildSA) : res tunnel :=
  out ← NewOutbound child;
  in_ ← NewInbound child [WithReplayWindow (replayWindowOf t)];
  let out := SetRekeyCallback out in
  let inbound := match sas t with Some current => inbound current | None => ∅ end in
  match inbound !! LocalSPI child with
  | Some _ => Err "inbound ESP SPI already installed"
  | None =>
      let p := fresh (dom (sheap t)) in
      Ok (set_sas t (Some (mkTunnelSAs (Some out) (LocalSPI child) (<[LocalSPI child := p]> inbound))) (<[p := in_]> (sheap t)))
  end.
End crypto.

(** The SA stays in the heap: batches in flight may still hold it. *)
Definition retire (t : tunnel) (spi : Z) : res tunnel :=
  match sas t with
  | None => Err "retiring inbound ESP SPI was not installed"
  | Some current =>
      match inbound current !! spi with
      | None => Err "retiring inbound ESP SPI was not installed"
      | Some _ =>
          let next := mkTunnelSAs (outbound current) (outboundSPI current) (delete spi (inbound current)) in
          let next := if outboundSPI next =? spi then mkTunnelSAs None 0 (inbound next) else next in
          Ok (set_sas t (Some next) (sheap t))
      end
  end.

Definition set_outbound (t : tunnel) (current : tunnelSAs) (o : OutboundSA) : tunnel :=
  set_sas t (Some (mkTunnelSAs (Some o) (outboundSPI current) (inbound current))) (sheap t).

(** The tunnel, the attempts started, and the numbers reserved. The SA itself may
    ask, past its proactive mark, before the refusal asks again. *)
Definition reserve (t : tunnel) (count now : Z) : tunnel * list bool * res SequenceRange :=
  match sas t with
  | Some current =>
      match outbound current with
      | Some o =>
          match ReserveSequenceRange o count with
          | (o, asked, r) =>
              let t := set_outbound t current o in
              let '(t, a1) := if asked then (let '(t, a) := requestRekey t now in (t, [a])) else (t, []) in
              match r with
              | Err e =>
                  let '(t, a2) := if bool_decide (e = ErrSequenceExhausted) then (let '(t, a) := requestRekey t now in (t, [a])) else (t, []) in
                  (t, a1 ++ a2, Err e)
              | r => (t, a1, r)
              end
          end
      | None => let '(t, a) := requestRekey t now in (t, [a], Err errNoChildSA)
      end
  | None => let '(t, a) := requestRekey t now in (t, [a], Err errNoChildSA)
  end.

(** [for end < len(packets) && len(packets[end]) >= 4 && ... == spi { end++ }] *)
Fixpoint sameSPI (spi : Z) (packets : list (list Z)) : res nat :=
  match packets with
  | [] => Ok 0%nat
  | p :: rest =>
      if (length p <? 4)%nat then Ok 0%nat
      else s ← get_be 4 p 0; if s =? spi then n ← sameSPI spi rest; Ok (S n) else Ok 0%nat
  end.

(** The SA a packet is for. *)
Definition saFor (s : option tunnelSAs) (raw : list Z) : res (option (Z * nat)) :=
  match s with
  | None => Ok None
  | Some current =>
      if (length raw <? 4)%nat then Ok None
      else spi ← get_be 4 raw 0; Ok ((λ p, (spi, p)) <$> inbound current !! spi)
  end.

(** Every turn takes at least one packet: [fuel] is their number. *)
Fixpoint decryptLoop (fuel : nat) (t : tunnel) (packets : list (list Z)) (results : list AuthenticatedPacket)
  : res (list AuthenticatedPacket) :=
  match packets with
  | [] => Ok results
  | raw :: rest =>
      match fuel with
      | O => Ok results
      | S fuel =>
          sa ← saFor (sas t) raw;
          match sa with
          | Some (spi, p) =>
              n ← sameSPI spi rest;
              match sheap t !! p with
              | None => Panic
              | Some inb =>
                  results ← AuthenticateBatchInPlace p inb (take (S n) packets) results;
                  decryptLoop fuel t (drop (S n) packets) results
              end
          | None => decryptLoop fuel t rest (results ++ [mkAuth None 0 false 0 [] (Some errUnknownSPI)])
          end
      end
  end.

Definition decryptBatch (t : tunnel) (packets : list (list Z)) (results : list AuthenticatedPacket)
  : res (list AuthenticatedPacket) := decryptLoop (length packets) t packets results.

Definition validateESPTunnelPayload (plain : list Z) (nextHeader : Z) : res (list Z * bool) :=
  if nextHeader =? NextHeaderNone then Ok ([], false)
  else
    '(inner, version) ← Payload plain;
    if ((nextHeader =? NextHeaderIPv4) && (version =? 4)) || ((nextHeader =? NextHeaderIPv6) && (version =? 6))
    then Ok (inner, true) else Err "invalid IP tunnel payload for ESP Next Header".

(** ** Decrypting a batch *)

(** What one packet yields, on its own. *)
Definition decrypted (t : tunnel) (raw : list Z) (a : AuthenticatedPacket) : Prop :=
  match saFor (sas t) raw with
  | Ok (Some (_, p)) => ∃ inb, sheap t !! p = Some inb ∧ batchEntry p inb raw a
  | _ => a = mkAuth None 0 false 0 [] (Some errUnknownSPI)
  end.

(** Every inbound SA a tunnel points to is in the heap, usable and for the SPI
    it is installed under. *)
Definition tunnel_ok (t : tunnel) : Prop :=
  ∀ s, sas t = Some s → ∀ spi p, inbound s !! spi = Some p →
    ∃ inb, sheap t !! p = Some inb ∧ inbound_ok inb ∧ window_ok (iwindow inb) ∧ ispi inb = spi.

Lemma get_be_ok n b lo : (lo + n ≤ length b)%nat → get_be n b lo = Ok (be_of (take n (drop lo b))).
Proof. intros. unfold get_be. rewrite slice_ok by lia. rbind. by replace (lo + n - lo)%nat with n by lia. Qed.

Lemma saFor_total s raw : ∃ o, saFor s raw = Ok o.
Proof.
  unfold saFor. destruct s; [|by eexists]. destruct (Nat.ltb_spec (length raw) 4); [by eexists|].
  rewrite get_be_ok by lia. by eexists.
Qed.

Lemma sameSPI_spec s spi p packets :
  inbound s !! spi = Some p →
  ∃ n, sameSPI spi packets = Ok n ∧ (n ≤ length packets)%nat ∧ Forall (λ raw, saFor (Some s) raw = Ok (Some (spi, p))) (take n packets).
Proof.
  intros Hp. induction packets as [|raw packets IH]; simpl.
  { exists 0%nat. split; [done|]. split; [lia|constructor]. }
  destruct (Nat.ltb_spec (length raw) 4) as [|Hl]; [exists 0%nat; split; [done|]; split; [lia|constructor]|].
  rewrite get_be_ok by lia. rbind. destruct (Z.eqb_spec (be_of (take 4 (drop 0 raw))) spi) as [Hs|].
  - destruct IH as (n&->&Hn&Hf). rbind. exists (S n). split; [done|]. split; [lia|]. simpl. constructor; [|done].
    unfold saFor. rewrite (proj2 (Nat.ltb_ge _ _)) by lia. rewrite get_be_ok by lia. rbind. by rewrite Hs, Hp.
  - exists 0%nat. split; [done|]. split; [lia|constructor].
Qed.

Lemma decryptLoop_spec fuel t packets results :
  tunnel_ok t → Forall bytes_ok packets → (length packets ≤ fuel)%nat →
  ∃ out, decryptLoop fuel t packets results = Ok (results ++ out) ∧ Forall2 (decrypted t) packets out.
Proof.
  intros Ht. revert packets results. induction fuel as [|fuel IH]; intros packets results Hb Hf.
  { destruct packets; [|simpl in Hf; lia]. exists []. rewrite app_nil_r. split; [done|constructor]. }
  destruct packets as [|raw rest]; [exists []; rewrite app_nil_r; split; [done|constructor]|].
  cbn [decryptLoop]. destruct (saFor_total (sas t) raw) as [o Ho]. rewrite Ho. rbind. simpl in Hf.
  destruct o as [[spi p]|].
  - unfold saFor in Ho. destruct (sas t) as [s|] eqn:Hs; [|done].
    destruct (Nat.ltb_spec (length raw) 4); [done|]. rewrite get_be_ok in Ho by lia. rbind. simpl in Ho.
    destruct (inbound s !! _) as [p'|] eqn:Hp; [|done]. simpl in Ho. injection Ho as Hspi ->. rewrite Hspi in Hp.
    destruct (sameSPI_spec s spi p rest Hp) as (n&->&Hn&Hall). rbind.
    destruct (Ht s Hs spi p Hp) as (inb&Hh&Hio&Hw&_). rewrite Hh.
    destruct (authenticate_batch_spec p inb (take (S n) (raw :: rest)) results Hio Hw) as (out&->&Ho2); [by apply Forall_take|].
    rbind. destruct (IH (drop (S n) (raw :: rest)) (results ++ out)) as (out'&->&Hout'); [by apply Forall_drop | rewrite length_drop; simpl; lia |].
    exists (out ++ out'). rewrite app_assoc. split; [done|].
    rewrite <- (take_drop (S n) (raw :: rest)) at 1. apply Forall2_app; [|done].
    assert (Forall (λ raw, saFor (sas t) raw = Ok (Some (spi, p))) (take (S n) (raw :: rest))) as Hsa.
    { rewrite Hs. simpl. constructor; [|done]. unfold saFor. rewrite (proj2 (Nat.ltb_ge _ _)) by lia.
      rewrite get_be_ok by lia. rbind. rewrite Hspi. simpl in Hspi. by rewrite Hp. }
    clear -Ho2 Hsa Hh. induction Ho2 as [|r a rs as_ Hra _ IH]; [constructor|].
    apply Forall_cons in Hsa as [Hr Hsa]. constructor; [|by apply IH]. unfold decrypted. rewrite Hr. by exists inb.
  - apply Forall_cons in Hb as [_ Hb]. destruct (IH rest (results ++ [mkAuth None 0 false 0 [] (Some errUnknownSPI)]) Hb) as (out&->&Hout); [lia|].
    exists (mkAuth None 0 false 0 [] (Some errUnknownSPI) :: out). rewrite <- app_assoc. split; [done|].
    constructor; [|done]. unfold decrypted. by rewrite Ho.
Qed.

(** ** Installing and retiring *)

Section laws.
Context `{CL : CryptoLaws}.

Lemma NewInbound_ok child W inb :
  0 ≤ W → NewInbound child [WithReplayWindow W] = Ok inb → inbound_ok inb ∧ window_ok (iwindow inb) ∧ ispi inb = LocalSPI child.
Proof.
  intros HW. unfold NewInbound. intros ([ae p] & Hn & Ho)%bind_ok_inv.
  destruct (newESPAEAD_ok _ _ _ _ _ Hn) as (Ha & Hiv & Hicv & Hk). cbn [fst snd] in *.
  rewrite from_ok in Ho by lia. injection Ho as <-. cbn. split_and!; [|destruct (decide (W = 0)) as [->|] | done].
  - split; cbn; try done. rewrite length_drop. lia.
  - by left.
  - right. exists []. apply new_inv. assert (0 < MaxReplayWindow) by done. lia.
Qed.

(** A new SA comes beside the old ones and takes over sending. *)
Lemma install_spec t child t' :
  tunnel_ok t → 0 ≤ replayWindowOf t → install t child = Ok t' →
  tunnel_ok t' ∧ replayWindowOf t' = replayWindowOf t ∧
  ∃ s o p, sas t' = Some s ∧ outbound s = Some o ∧ ospi o = RemoteSPI child ∧ outboundSPI s = LocalSPI child ∧
    inbound s = <[LocalSPI child := p]> (from_option inbound ∅ (sas t)) ∧ from_option inbound ∅ (sas t) !! LocalSPI child = None.
Proof.
  intros Ht HW. unfold install. intros (out & Hout & H)%bind_ok_inv. apply bind_ok_inv in H as (inb & Hin & H).
  destruct (NewInbound_ok child _ inb HW Hin) as (Hio & Hwo & Hspi).
  assert (match sas t with Some current => inbound current | None => ∅ end = from_option inbound ∅ (sas t)) as Heq by done.
  rewrite Heq in H. destruct (from_option inbound ∅ (sas t) !! LocalSPI child) eqn:Hnone; [done|]. injection H as <-.
  set (p := fresh (dom (sheap t))). assert (sheap t !! p = None) as Hp by (apply not_elem_of_dom, is_fresh).
  split; [|split; [done|]].
  - intros s [= <-] spi q Hq. cbn [inbound sheap set_sas] in *. destruct (decide (spi = LocalSPI child)) as [->|Hne].
    + rewrite lookup_insert_eq in Hq. injection Hq as <-. exists inb. by rewrite lookup_insert_eq.
    + rewrite lookup_insert_ne in Hq by done. destruct (sas t) as [s|] eqn:Hs; [|done].
      destruct (Ht s Hs spi q Hq) as (i & Hi & Hrest). exists i. by rewrite lookup_insert_ne by congruence.
  - eexists _, _, p. split; [done|]. split_and!; try done. unfold NewOutbound in Hout.
    apply bind_ok_inv in Hout as (ap & _ & Hout). apply bind_ok_inv in Hout as (salt & _ & Hout). by injection Hout as <-.
Qed.

End laws.

Lemma retire_spec t spi t' :
  tunnel_ok t → retire t spi = Ok t' →
  tunnel_ok t' ∧ replayWindowOf t' = replayWindowOf t ∧
  ∃ s s', sas t = Some s ∧ sas t' = Some s' ∧ inbound s' = delete spi (inbound s) ∧
    (outbound s', outboundSPI s') = if outboundSPI s =? spi then (None, 0) else (outbound s, outboundSPI s).
Proof.
  intros Ht. unfold retire. destruct (sas t) as [s|] eqn:Hs; [|done]. destruct (inbound s !! spi) eqn:Hp; [|done].
  intros [= <-]. split; [|split; [done|]].
  - intros s' [= <-] spi' q Hq.
    assert (delete spi (inbound s) !! spi' = Some q) as [_ Hq']%lookup_delete_Some by (revert Hq; simpl; by destruct (_ =? _)).
    by apply (Ht s Hs).
  - eexists _, _. split; [done|]. split; [done|]. cbn. by destruct (_ =? _).
Qed.

Lemma retire_installed t s spi : sas t = Some s → is_Some (inbound s !! spi) → is_ok (retire t spi) = true.
Proof. intros Hs [p Hp]. unfold retire. by rewrite Hs, Hp. Qed.

(** decrypting a socket batch gives every packet what it would get alone, in
    order: the outcome of the SA installed under its SPI, or the error of an
    unknown one. Cutting the batch into runs of one SPI changes nothing, and no
    bytes make it panic. *)
Theorem decrypt_batch_exact t packets results :
  tunnel_ok t → Forall bytes_ok packets →
  ∃ out, decryptBatch t packets results = Ok (results ++ out) ∧ Forall2 (decrypted t) packets out.
Proof. intros Ht Hb. by apply decryptLoop_spec. Qed.
