(* ===== verification/TunnelRecv.v ===== *)
(** * The receive pipeline, internal/client/receive.go

    Workers take batches off the mux under its tickets, decrypt them in parallel
    and hand them to one emitter, which restores the order of the tickets. The
    channels are bounded and the batch objects are pooled; a state is what the
    channels hold, where each worker stands, and the emitter's map. The contents
    of a pooled object do not survive its reuse, so the pool is a number. *)

From S2P Require Import Prelude Esp.

(** Where a worker stands: at [<-free], in the receive, decrypting, at
    [completed <-], or gone. *)
Inductive worker :=
| Waiting
| Holding
| Busy (ticket : Z) (packets : list (list Z))
| Done (ticket : Z) (results : list AuthenticatedPacket)
| Stopped.

Record pipe := mkPipe {
  queueSize : nat;
  queue : list (Z * list (list Z));  (* the mux's batches *)
  free : nat;
  workers : list worker;
  completed : list (Z * list AuthenticatedPacket);
  pending : gmap Z (list AuthenticatedPacket);
  next : Z;
  emitted : list AuthenticatedPacket }.

(** [receiveESP] with more than one worker, before anything arrived. *)
Definition newPipe (n : nat) : pipe := mkPipe (2 * n) [] (2 * n) (replicate n Waiting) [] ∅ 0 [].

(** The merge of the batches that are next in order: each turn takes one out of
    the map, whose size bounds the turns. *)
Fixpoint merge (fuel : nat) (pending : gmap Z (list AuthenticatedPacket)) (next : Z) (merged : list AuthenticatedPacket) (free : nat)
  : gmap Z (list AuthenticatedPacket) * Z * list AuthenticatedPacket * nat :=
  match fuel with
  | O => (pending, next, merged, free)
  | S fuel =>
      match pending !! next with
      | None => (pending, next, merged, free)
      | Some results => merge fuel (delete next pending) (u64 (next + 1)) (merged ++ results) (S free)
      end
  end.

(** One turn of [emitInboundBatches]: a batch, as many more as were ready up to
    the channel's capacity, and what they complete. *)
Definition emitTurn (s : pipe) (more : nat) : option pipe :=
  match completed s with
  | [] => None
  | _ =>
      let n := S (Nat.min more (queueSize s)) in
      let pending := foldl (λ m b, <[b.1 := b.2]> m) (pending s) (take n (completed s)) in
      let '(pending, next, merged, free) := merge (S (size pending)) pending (next s) [] (free s) in
      Some (mkPipe (queueSize s) (queue s) free (workers s) (drop n (completed s)) pending next (emitted s ++ merged))
  end.

Definition set_worker (s : pipe) (i : nat) (w : worker) : pipe :=
  mkPipe (queueSize s) (queue s) (free s) (<[i := w]> (workers s)) (completed s) (pending s) (next s) (emitted s).

(** [batch := <-free] *)
Definition takeFree (s : pipe) (i : nat) : option pipe :=
  match workers s !! i, free s with
  | Some Waiting, S f =>
      Some (mkPipe (queueSize s) (queue s) f (<[i := Holding]> (workers s)) (completed s) (pending s) (next s) (emitted s))
  | _, _ => None
  end.

(** [mux.RecvESPBatchConcurrent()] *)
Definition recvBatch (s : pipe) (i : nat) : option pipe :=
  match workers s !! i, queue s with
  | Some Holding, (ticket, packets) :: q =>
      Some (mkPipe (queueSize s) q (free s) (<[i := Busy ticket packets]> (workers s)) (completed s) (pending s) (next s) (emitted s))
  | _, _ => None
  end.

(** The mux is gone: the batch returns to the pool. *)
Definition stopWorker (s : pipe) (i : nat) : option pipe :=
  match workers s !! i with
  | Some Holding =>
      Some (mkPipe (queueSize s) (queue s) (S (free s)) (<[i := Stopped]> (workers s)) (completed s) (pending s) (next s) (emitted s))
  | _ => None
  end.

(** [batch.results = decrypt(packets, batch.results)] *)
Definition finishDecrypt (s : pipe) (i : nat) (results : list AuthenticatedPacket) : option pipe :=
  match workers s !! i with
  | Some (Busy ticket _) => Some (set_worker s i (Done ticket results))
  | _ => None
  end.

(** [completed <- batch], which blocks while the channel is full. *)
Definition sendCompleted (s : pipe) (i : nat) : option pipe :=
  match workers s !! i with
  | Some (Done ticket results) =>
      if (length (completed s) <? queueSize s)%nat
      then Some (mkPipe (queueSize s) (queue s) (free s) (<[i := Waiting]> (workers s)) (completed s ++ [(ticket, results)]) (pending s) (next s) (emitted s))
      else None
  | _ => None
  end.

Definition arrive (s : pipe) (ticket : Z) (packets : list (list Z)) : pipe :=
  mkPipe (queueSize s) (queue s ++ [(ticket, packets)]) (free s) (workers s) (completed s) (pending s) (next s) (emitted s).

(** ** Steps *)

Section pipeline.
(** What decrypting a batch may yield; the SAs change between batches. *)
Variable decrypts : list (list Z) → list AuthenticatedPacket → Prop.

Inductive pipe_step (s : pipe) : pipe → Prop :=
| ps_take i s' : takeFree s i = Some s' → pipe_step s s'
| ps_recv i s' : recvBatch s i = Some s' → pipe_step s s'
| ps_decrypt i ticket packets results s' :
    workers s !! i = Some (Busy ticket packets) → decrypts packets results → finishDecrypt s i results = Some s' → pipe_step s s'
| ps_send i s' : sendCompleted s i = Some s' → pipe_step s s'
| ps_emit more s' : emitTurn s more = Some s' → pipe_step s s'.

(** A run with the batches that arrived so far, in order: the mux numbers them
    from zero without a gap, and may close under a worker that waits on it. *)
Inductive pipe_run (n : nat) : pipe → list (list (list Z)) → Prop :=
| pr_open : pipe_run n (newPipe n) []
| pr_step s s' hist : pipe_run n s hist → pipe_step s s' → pipe_run n s' hist
| pr_stop s i s' hist : pipe_run n s hist → stopWorker s i = Some s' → pipe_run n s' hist
| pr_arrive s hist packets : pipe_run n s hist → pipe_run n (arrive s (u64 (Z.of_nat (length hist))) packets) (hist ++ [packets]).

(** ** The invariant *)

(** A batch on its way: its ticket, and its packets or already their results. *)
Definition item : Type := Z * (list (list Z) + list AuthenticatedPacket).

Definition inHand (w : worker) : list item :=
  match w with Busy t ps => [(t, inl ps)] | Done t r => [(t, inr r)] | _ => [] end.

Definition ready (b : Z * list AuthenticatedPacket) : item := (b.1, inr b.2).

Definition shelf (m : gmap Z (list AuthenticatedPacket)) : list item := ready <$> map_to_list m.

(** Everything between the mux and the emitter. *)
Definition flight (s : pipe) : list item := concat (inHand <$> workers s) ++ (ready <$> completed s) ++ shelf (pending s).

Definition holds (w : worker) : nat := match w with Holding => 1 | _ => 0 end.

(** The item that batch number [e.1] is. *)
Definition numbered (e : nat * (list (list Z) + list AuthenticatedPacket)) : item := (u64 (Z.of_nat e.1), e.2).

Definition sound (hist : list (list (list Z))) (e : nat * (list (list Z) + list AuthenticatedPacket)) : Prop :=
  ∃ ps, hist !! e.1 = Some ps ∧ match e.2 with inl ps' => ps' = ps | inr r => decrypts ps r end.

(** Of the batches that arrived, the first [E] are emitted, those up to [N] are
    on their way, each exactly once, and the rest wait in the mux. *)
Definition on_way (hist : list (list (list Z))) (E N : nat) (items : list item) : Prop :=
  ∃ L, items ≡ₚ numbered <$> L ∧ L.*1 ≡ₚ List.seq E (N - E) ∧ Forall (sound hist) L.

Definition queued (hist : list (list (list Z))) (N : nat) : list (Z * list (list Z)) :=
  imap (λ i ps, (u64 (Z.of_nat (N + i)), ps)) (drop N hist).

Record pipe_ok (s : pipe) (hist : list (list (list Z))) (E N : nat) : Prop := mkPipeOk {
  po_order : (E ≤ N ≤ length hist)%nat;
  po_queue : queue s = queued hist N;
  po_next : next s = u64 (Z.of_nat E);
  po_flight : on_way hist E N (flight s);
  po_emitted : ∃ rs, emitted s = concat rs ∧ Forall2 decrypts (take E hist) rs;
  po_pool : (free s + sum_list_with holds (workers s) + length (flight s) = queueSize s)%nat;
  po_merged : pending s !! next s = None;
  po_small : Z.of_nat (queueSize s) < 2 ^ 64 }.

(** ** Items on their way *)

Lemma fmap_cons_perm {A B} (f : A → B) x rest L :
  x :: rest ≡ₚ f <$> L → ∃ y L0, f y = x ∧ L ≡ₚ y :: L0 ∧ rest ≡ₚ f <$> L0.
Proof.
  intros Hp. assert (x ∈ f <$> L) as (y&->&Hy)%list_elem_of_fmap by (rewrite <- Hp; left).
  apply list_elem_of_split in Hy as (l1&l2&->). exists y, (l1 ++ l2). split; [done|].
  rewrite <- Permutation_middle. split; [done|]. rewrite fmap_app, fmap_cons, <- Permutation_middle in Hp.
  apply Permutation_cons_inv in Hp. by rewrite Hp, fmap_app.
Qed.

Lemma on_way_perm hist E N l l' : l ≡ₚ l' → on_way hist E N l → on_way hist E N l'.
Proof. intros Hp (L&HL&Hs&Hok). exists L. split; [by rewrite <- Hp|done]. Qed.

Lemma on_way_length hist E N l : on_way hist E N l → length l = (N - E)%nat.
Proof. intros (L&HL&Hs&_). rewrite HL, length_fmap, <- (length_fmap fst L), Hs. apply length_seq. Qed.

Lemma u64_nat_inj i j : u64 (Z.of_nat i) = u64 (Z.of_nat j) → (i ≤ j)%nat → Z.of_nat (j - i) < 2 ^ 64 → i = j.
Proof.
  unfold u64. intros He Hle Hd. pose proof (Z.div_mod (Z.of_nat i) (2 ^ 64) ltac:(lia)). pose proof (Z.div_mod (Z.of_nat j) (2 ^ 64) ltac:(lia)). nia.
Qed.

(** A new batch joins. *)
Lemma on_way_add hist E N ps l :
  (E ≤ N)%nat → hist !! N = Some ps → on_way hist E N l → on_way hist E (S N) ((u64 (Z.of_nat N), inl ps) :: l).
Proof.
  intros Hle Hps (L&HL&Hs&Hok). exists ((N, inl ps) :: L). split_and!.
  - by rewrite HL.
  - simpl. rewrite Hs. replace (S N - E)%nat with ((N - E) + 1)%nat by lia. rewrite seq_app. simpl.
    replace (E + (N - E))%nat with N by lia. apply Permutation_cons_append.
  - constructor; [by exists ps|done].
Qed.

(** A batch is decrypted. *)
Lemma on_way_decrypt hist E N t ps r l :
  decrypts ps r → on_way hist E N ((t, inl ps) :: l) → on_way hist E N ((t, inr r) :: l).
Proof.
  intros Hd (L&HL&Hs&Hok). destruct (fmap_cons_perm numbered _ _ _ HL) as ([k v]&L0&[= Hk ->]&Hp&Hl).
  exists ((k, inr r) :: L0). rewrite Hp in Hs, Hok. apply Forall_cons in Hok as [(ps'&Hh&Hv) Hok]. simpl in Hv. subst ps'. split_and!.
  - by rewrite fmap_cons, <- Hl, <- Hk.
  - done.
  - constructor; [|done]. by exists ps.
Qed.

(** The next batch leaves. *)
Lemma on_way_leave hist E N r l :
  Z.of_nat (N - E) < 2 ^ 64 → on_way hist E N ((u64 (Z.of_nat E), inr r) :: l) →
  (E < N)%nat ∧ on_way hist (S E) N l ∧ ∃ ps, hist !! E = Some ps ∧ decrypts ps r.
Proof.
  intros Hsm (L&HL&Hs&Hok). destruct (fmap_cons_perm numbered _ _ _ HL) as ([k v]&L0&[= Hk ->]&Hp&Hl).
  rewrite Hp in Hs, Hok. apply Forall_cons in Hok as [Hv Hok].
  assert (k ∈ List.seq E (N - E)) as Hin by (rewrite <- Hs; left). apply elem_of_seq in Hin.
  assert (E = k) as <- by (apply u64_nat_inj; [done|lia|lia]).
  split; [lia|]. split; [|done]. exists L0. split_and!; try done.
  replace (N - E)%nat with (S (N - S E)) in Hs by lia. simpl in Hs. by apply Permutation_cons_inv in Hs.
Qed.

Lemma on_way_nodup hist E N l : Z.of_nat (N - E) < 2 ^ 64 → on_way hist E N l → NoDup l.*1.
Proof.
  intros Hsm (L&HL&Hs&_). rewrite HL. rewrite <- list_fmap_compose.
  assert (∀ K : list (nat * (list (list Z) + list AuthenticatedPacket)), NoDup K.*1 → (∀ k, k ∈ K.*1 → (E ≤ k < E + (N - E))%nat) → NoDup ((fst ∘ numbered) <$> K)) as Hg.
  { induction K as [|[k v] K IH]; intros Hnd Hr; [constructor|]. simpl in Hnd. apply NoDup_cons in Hnd as [Hni Hnd].
    rewrite fmap_cons. apply NoDup_cons. split; [|apply IH; [done|]; intros j Hj; apply Hr; simpl; by right].
    intros ([j v']&Hj&Hin)%list_elem_of_fmap. simpl in Hj. apply Hni.
    assert (j ∈ K.*1) as Hjk by (apply list_elem_of_fmap; by exists (j, v')).
    pose proof (Hr k ltac:(simpl; left)). pose proof (Hr j ltac:(simpl; by right)).
    destruct (decide (k ≤ j)%nat).
    - by assert (k = j) as -> by (apply u64_nat_inj; [done|lia|lia]).
    - by assert (j = k) as <- by (apply u64_nat_inj; [done|lia|lia]). }
  apply Hg; [rewrite Hs; apply NoDup_seq|]. intros k. rewrite Hs. rewrite elem_of_seq. lia.
Qed.

(** ** The emitter *)

Lemma shelf_delete m t r : m !! t = Some r → shelf m ≡ₚ (t, inr r) :: shelf (delete t m).
Proof. intros Hm. unfold shelf. rewrite <- (map_to_list_delete m t r Hm). done. Qed.

Lemma shelf_insert m t r : t ∉ (shelf m).*1 → shelf (<[t := r]> m) ≡ₚ (t, inr r) :: shelf m.
Proof.
  intros Hni. assert (m !! t = None) as Hn.
  { destruct (m !! t) as [r'|] eqn:Hm; [|done]. exfalso. apply Hni. rewrite (shelf_delete m t r' Hm). left. }
  unfold shelf. by rewrite map_to_list_insert.
Qed.

Lemma shelf_all bs m :
  NoDup ((ready <$> bs) ++ shelf m).*1 → shelf (foldl (λ m b, <[b.1 := b.2]> m) m bs) ≡ₚ (ready <$> bs) ++ shelf m.
Proof.
  revert m. induction bs as [|[t r] bs IH]; intros m Hnd; [done|]. simpl in *. apply NoDup_cons in Hnd as [Hni Hnd].
  rewrite fmap_app in Hni, Hnd. pose proof (proj2 (proj1 (not_elem_of_app _ _ _) Hni)) as Hs.
  rewrite IH; [rewrite shelf_insert by done; by rewrite <- Permutation_middle|].
  rewrite fmap_app, (shelf_insert m t r Hs), fmap_cons, <- Permutation_middle. by apply NoDup_cons.
Qed.

Lemma merge_spec hist N others fuel :
  ∀ pe nx mg fr E,
  (size pe < fuel)%nat → (E ≤ N)%nat → Z.of_nat (N - E) < 2 ^ 64 → nx = u64 (Z.of_nat E) → on_way hist E N (others ++ shelf pe) →
  ∃ pe' E' rs fr', merge fuel pe nx mg fr = (pe', u64 (Z.of_nat E'), mg ++ concat rs, fr') ∧
    (E ≤ E' ≤ N)%nat ∧ on_way hist E' N (others ++ shelf pe') ∧ Forall2 decrypts (take (E' - E) (drop E hist)) rs ∧
    (fr' = fr + (E' - E))%nat ∧ pe' !! u64 (Z.of_nat E') = None.
Proof.
  induction fuel as [|fuel IH]; intros pe nx mg fr E Hsz Hle Hsm -> Hw; [lia|]. cbn [merge].
  destruct (pe !! u64 (Z.of_nat E)) as [r|] eqn:Hpe.
  2: { exists pe, E, [], fr. rewrite app_nil_r, Nat.sub_diag. split_and!; try done; lia. }
  assert (on_way hist E N ((u64 (Z.of_nat E), inr r) :: others ++ shelf (delete (u64 (Z.of_nat E)) pe))) as Hw'.
  { eapply on_way_perm; [|exact Hw]. rewrite (shelf_delete pe _ r Hpe). by rewrite <- Permutation_middle. }
  destruct (on_way_leave hist E N r _ Hsm Hw') as (Hlt&Hw2&ps&Hps&Hd).
  destruct (IH (delete (u64 (Z.of_nat E)) pe) (u64 (u64 (Z.of_nat E) + 1)) (mg ++ r) (S fr) (S E)) as (pe'&E'&rs&fr'&Hm&HE&Hw3&Hrs&Hfr&Hn).
  - rewrite map_size_delete, Hpe. assert (size pe ≠ 0%nat) by (intros Hz%map_size_empty_inv; rewrite Hz in Hpe; done). simpl. lia.
  - lia.
  - lia.
  - unfold u64. rewrite Zplus_mod_idemp_l. f_equal. lia.
  - done.
  - exists pe', E', (r :: rs), fr'. rewrite Hm, <- app_assoc. split; [done|]. split; [lia|]. split; [done|].
    split; [|split; [lia|done]]. replace (E' - E)%nat with (S (E' - S E)) by lia.
    rewrite (drop_S hist ps E Hps). simpl. by constructor.
Qed.

(** ** Steps keep the invariant *)

Lemma hand_insert ws i w w' :
  ws !! i = Some w → ∃ rest, concat (inHand <$> ws) ≡ₚ inHand w ++ rest ∧ concat (inHand <$> <[i := w']> ws) ≡ₚ inHand w' ++ rest.
Proof.
  intros Hi. exists (concat (inHand <$> take i ws ++ drop (S i) ws)).
  assert (∀ x, <[i := x]> ws = take i ws ++ x :: drop (S i) ws) as Hins
    by (intros x; rewrite insert_take_drop by (by eapply lookup_lt_Some); done).
  rewrite <- (list_insert_id ws i w Hi) at 1. rewrite !Hins, !fmap_app, !concat_app. simpl.
  split; by rewrite !app_assoc, (Permutation_app_comm (concat _) (inHand _)).
Qed.

Lemma holds_insert ws i w w' :
  ws !! i = Some w → (sum_list_with holds (<[i := w']> ws) + holds w = sum_list_with holds ws + holds w')%nat.
Proof. revert i. induction ws as [|x ws IH]; intros [|i] Hi; simplify_eq/=; [lia|]. specialize (IH _ Hi). lia. Qed.

Lemma take_ok s i s' hist E N : takeFree s i = Some s' → pipe_ok s hist E N → pipe_ok s' hist E N.
Proof.
  unfold takeFree. destruct (workers s !! i) as [[| | | |]|] eqn:Hi; try done. destruct (free s) as [|f] eqn:Hf; [done|].
  intros [= <-] [Ho Hq Hn Hw He Hp Hm Hs]. destruct (hand_insert _ i _ Holding Hi) as (rest&H1&H2). simpl in H1, H2.
  pose proof (holds_insert _ i _ Holding Hi) as Hh. simpl in Hh.
  assert (flight (mkPipe (queueSize s) (queue s) f (<[i := Holding]> (workers s)) (completed s) (pending s) (next s) (emitted s)) ≡ₚ flight s) as Hfl
    by (unfold flight; simpl; by rewrite H1, H2).
  split; simpl; try done.
  - by apply (on_way_perm _ _ _ (flight s)).
  - rewrite Hfl. rewrite Hf in Hp. lia.
Qed.

Lemma queued_cons hist N t ps q : queued hist N = (t, ps) :: q → t = u64 (Z.of_nat N) ∧ hist !! N = Some ps ∧ q = queued hist (S N).
Proof.
  unfold queued. destruct (drop N hist) as [|x l] eqn:Hd; [done|]. simpl.
  assert (hist !! N = Some x ∧ drop (S N) hist = l) as [Hx Hl].
  { split; [rewrite <- (Nat.add_0_r N), <- lookup_drop, Hd; done|]. rewrite <- Nat.add_1_r, <- drop_drop, Hd. done. }
  rewrite Nat.add_0_r. intros [= <- <- <-]. split; [done|]. split; [done|]. rewrite Hl. apply imap_ext. intros j y _. simpl. do 3 f_equal. lia.
Qed.

Lemma recv_ok s i s' hist E N : recvBatch s i = Some s' → pipe_ok s hist E N → pipe_ok s' hist E (S N).
Proof.
  unfold recvBatch. destruct (workers s !! i) as [[| | | |]|] eqn:Hi; try done. destruct (queue s) as [|[t ps] q] eqn:Hq0; [done|].
  intros [= <-] [Ho Hq Hn Hw He Hp Hm Hs]. destruct (hand_insert _ i _ (Busy t ps) Hi) as (rest&H1&H2). simpl in H1, H2.
  pose proof (holds_insert _ i _ (Busy t ps) Hi) as Hh. simpl in Hh. rewrite Hq0 in Hq. symmetry in Hq.
  destruct (queued_cons _ _ _ _ _ Hq) as (->&Hps&->).
  assert (flight (mkPipe (queueSize s) (queued hist (S N)) (free s) (<[i := Busy (u64 (Z.of_nat N)) ps]> (workers s)) (completed s) (pending s) (next s) (emitted s))
    ≡ₚ (u64 (Z.of_nat N), inl ps) :: flight s) as Hfl by (unfold flight; simpl; by rewrite H1, H2).
  split; simpl; try done.
  - apply lookup_lt_Some in Hps. lia.
  - eapply on_way_perm; [symmetry; exact Hfl|]. apply on_way_add; [lia|done|done].
  - rewrite Hfl. simpl. lia.
Qed.

Lemma stop_ok s i s' hist E N : stopWorker s i = Some s' → pipe_ok s hist E N → pipe_ok s' hist E N.
Proof.
  unfold stopWorker. destruct (workers s !! i) as [[| | | |]|] eqn:Hi; try done.
  intros [= <-] [Ho Hq Hn Hw He Hp Hm Hs]. destruct (hand_insert _ i _ Stopped Hi) as (rest&H1&H2). simpl in H1, H2.
  pose proof (holds_insert _ i _ Stopped Hi) as Hh. simpl in Hh.
  assert (flight (mkPipe (queueSize s) (queue s) (S (free s)) (<[i := Stopped]> (workers s)) (completed s) (pending s) (next s) (emitted s)) ≡ₚ flight s) as Hfl
    by (unfold flight; simpl; by rewrite H1, H2).
  split; simpl; try done.
  - by apply (on_way_perm _ _ _ (flight s)).
  - rewrite Hfl. lia.
Qed.

Lemma decrypt_ok s i t ps r s' hist E N :
  workers s !! i = Some (Busy t ps) → decrypts ps r → finishDecrypt s i r = Some s' → pipe_ok s hist E N → pipe_ok s' hist E N.
Proof.
  intros Hi Hd. unfold finishDecrypt. rewrite Hi. intros [= <-] [Ho Hq Hn Hw He Hp Hm Hs].
  destruct (hand_insert _ i _ (Done t r) Hi) as (rest&H1&H2). simpl in H1, H2.
  pose proof (holds_insert _ i _ (Done t r) Hi) as Hh. simpl in Hh.
  assert (flight s ≡ₚ (t, inl ps) :: rest ++ (ready <$> completed s) ++ shelf (pending s)) as Hf1 by (unfold flight; by rewrite H1).
  assert (flight (set_worker s i (Done t r)) ≡ₚ (t, inr r) :: rest ++ (ready <$> completed s) ++ shelf (pending s)) as Hf2 by (unfold flight; simpl; by rewrite H2).
  split; simpl; try done.
  - eapply on_way_perm; [symmetry; exact Hf2|]. eapply on_way_decrypt; [done|]. by eapply on_way_perm.
  - rewrite Hf2. rewrite Hf1 in Hp. simpl in *. lia.
Qed.

Lemma send_ok s i s' hist E N : sendCompleted s i = Some s' → pipe_ok s hist E N → pipe_ok s' hist E N.
Proof.
  unfold sendCompleted. destruct (workers s !! i) as [[| | |t r|]|] eqn:Hi; try done. destruct (_ <? _)%nat; [|done].
  intros [= <-] [Ho Hq Hn Hw He Hp Hm Hs]. destruct (hand_insert _ i _ Waiting Hi) as (rest&H1&H2). simpl in H1, H2.
  pose proof (holds_insert _ i _ Waiting Hi) as Hh. simpl in Hh.
  assert (flight (mkPipe (queueSize s) (queue s) (free s) (<[i := Waiting]> (workers s)) (completed s ++ [(t, r)]) (pending s) (next s) (emitted s)) ≡ₚ flight s) as Hfl.
  { unfold flight. simpl. rewrite H1, H2, fmap_app. simpl. rewrite <- !app_assoc. simpl. by rewrite <- !Permutation_middle. }
  split; simpl; try done.
  - by apply (on_way_perm _ _ _ (flight s)).
  - rewrite Hfl. lia.
Qed.

Lemma emit_ok s more s' hist E N : emitTurn s more = Some s' → pipe_ok s hist E N → ∃ E', pipe_ok s' hist E' N.
Proof.
  unfold emitTurn. destruct (completed s) as [|b0 bs0] eqn:Hc0; [done|]. set (n := S (Nat.min _ _)). set (bs := b0 :: bs0) in *.
  intros Hem [Ho Hq Hn Hw He Hp Hm Hs]. set (pe := foldl _ _ _) in Hem.
  assert (Z.of_nat (N - E) < 2 ^ 64) as Hsm by (pose proof (on_way_length _ _ _ _ Hw); lia).
  set (others := concat (inHand <$> workers s) ++ (ready <$> drop n bs)).
  assert (flight s ≡ₚ others ++ (ready <$> take n bs) ++ shelf (pending s)) as Hfl.
  { unfold flight, others. rewrite Hc0. rewrite <- (take_drop n bs) at 1. rewrite fmap_app, <- !app_assoc. apply Permutation_app_head.
    by rewrite !app_assoc, (Permutation_app_comm (ready <$> take n bs) (ready <$> drop n bs)). }
  assert (shelf pe ≡ₚ (ready <$> take n bs) ++ shelf (pending s)) as Hsh.
  { apply shelf_all. pose proof (on_way_nodup _ _ _ _ Hsm Hw) as Hnd. rewrite Hfl, fmap_app in Hnd. by apply NoDup_app in Hnd as (_&_&Hnd). }
  rewrite Hfl in Hp. eapply on_way_perm in Hw; [|rewrite Hfl, <- Hsh; reflexivity].
  destruct (merge_spec hist N others (S (size pe)) pe (next s) [] (free s) E) as (pe'&E'&rs&fr'&Hmg&HE&Hw'&Hrs&Hfr&Hnone); [lia|lia|done|done|done|].
  rewrite Hmg in Hem. injection Hem as <-. exists E'.
  pose proof (on_way_length _ _ _ _ Hw) as Hl1. pose proof (on_way_length _ _ _ _ Hw') as Hl2.
  set (s2 := mkPipe _ _ fr' _ _ _ _ _).
  assert (flight s2 ≡ₚ others ++ shelf pe') as Hf2 by (unfold flight, others, s2; cbn [workers completed pending]; by rewrite <- app_assoc).
  split; try done; try lia.
  - by eapply on_way_perm.
  - destruct He as (rs0&Hem&Hf0). exists (rs0 ++ rs). cbn [s2 emitted]. rewrite Hem, concat_app. split; [done|].
    replace (take E' hist) with (take E hist ++ take (E' - E) (drop E hist)); [by apply Forall2_app|].
    rewrite take_take_drop. f_equal. lia.
  - rewrite Hf2. cbn [s2 free workers queueSize]. rewrite length_app in Hl1, Hl2, Hp |- *. rewrite Hsh in Hl1. lia.
Qed.

Lemma pipe_step_ok s s' hist E N : pipe_step s s' → pipe_ok s hist E N → ∃ E' N', pipe_ok s' hist E' N'.
Proof.
  intros Hs Hok. destruct Hs as [| | | |more s' He].
  - exists E, N. by eapply take_ok.
  - exists E, (S N). by eapply recv_ok.
  - exists E, N. by eapply decrypt_ok.
  - exists E, N. by eapply send_ok.
  - destruct (emit_ok s more s' hist E N He Hok) as [E' ?]. by exists E', N.
Qed.

Lemma queued_snoc hist N ps : (N ≤ length hist)%nat → queued (hist ++ [ps]) N = queued hist N ++ [(u64 (Z.of_nat (length hist)), ps)].
Proof.
  intros Hl. unfold queued. rewrite drop_app_le by done. rewrite imap_app. f_equal. simpl. do 3 f_equal. rewrite length_drop. lia.
Qed.

Lemma sound_more hist ps e : sound hist e → sound (hist ++ [ps]) e.
Proof. intros (q&Hq&Hv). exists q. split; [by apply lookup_app_l_Some|done]. Qed.

Lemma arrive_ok s hist ps E N : pipe_ok s hist E N → pipe_ok (arrive s (u64 (Z.of_nat (length hist))) ps) (hist ++ [ps]) E N.
Proof.
  intros [Ho Hq Hn Hw He Hp Hm Hs]. split; simpl; try done.
  - rewrite length_app. simpl. lia.
  - rewrite Hq, queued_snoc; [done|lia].
  - destruct Hw as (L&HL&HE&Hok). exists L. split; [done|]. split; [done|]. eapply Forall_impl; [exact Hok|]. intros e. apply sound_more.
  - destruct He as (rs&Hem&Hf). exists rs. split; [done|]. by rewrite take_app_le by lia.
Qed.

Lemma newPipe_ok n : Z.of_nat (2 * n) < 2 ^ 64 → pipe_ok (newPipe n) [] 0 0.
Proof.
  intros Hn. assert (concat (inHand <$> replicate n Waiting) = []) as Hf by (clear; induction n; done).
  assert (sum_list_with holds (replicate n Waiting) = 0%nat) as Hh by (clear; induction n; done).
  split; try done.
  - exists []. unfold flight. simpl. by rewrite Hf.
  - by exists [].
  - unfold flight. cbn [newPipe workers completed pending free queueSize]. rewrite Hf, Hh. unfold shelf. rewrite map_to_list_empty. simpl. lia.
Qed.

Lemma pipe_run_ok n s hist : Z.of_nat (2 * n) < 2 ^ 64 → pipe_run n s hist → ∃ E N, pipe_ok s hist E N.
Proof.
  intros Hn. induction 1 as [|s s' hist _ (E&N&Hok) Hs|s i s' hist _ (E&N&Hok) Hs|s hist ps _ (E&N&Hok)].
  - exists 0%nat, 0%nat. by apply newPipe_ok.
  - by eapply pipe_step_ok.
  - exists E, N. by eapply stop_ok.
  - exists E, N. by apply arrive_ok.
Qed.

(** ** Progress *)

Definition toGo (w : worker) : nat := match w with Waiting => 2 | Holding => 1 | Busy _ _ => 5 | Done _ _ => 4 | Stopped => 0 end.

(** An upper bound of the steps left before everything that arrived is out. *)
Definition load (s : pipe) : nat := 5 * length (queue s) + sum_list_with toGo (workers s) + length (completed s).

Lemma toGo_insert ws i w w' :
  ws !! i = Some w → (sum_list_with toGo (<[i := w']> ws) + toGo w = sum_list_with toGo ws + toGo w')%nat.
Proof. revert i. induction ws as [|x ws IH]; intros [|i] Hi; simplify_eq/=; [lia|]. specialize (IH _ Hi). lia. Qed.

Lemma step_load s s' : pipe_step s s' → (load s' < load s)%nat.
Proof.
  unfold load. intros [i s2 H|i s2 H|i t ps r s2 Hi _ H|i s2 H|more s2 H].
  - unfold takeFree in H. destruct (workers s !! i) as [[| | | |]|] eqn:Hi; try done. destruct (free s); [done|].
    injection H as <-. pose proof (toGo_insert _ i _ Holding Hi). simpl in *. lia.
  - unfold recvBatch in H. destruct (workers s !! i) as [[| | | |]|] eqn:Hi; try done. destruct (queue s) as [|[t ps] q]; [done|].
    injection H as <-. pose proof (toGo_insert _ i _ (Busy t ps) Hi). simpl in *. lia.
  - unfold finishDecrypt in H. rewrite Hi in H. injection H as <-. pose proof (toGo_insert _ i _ (Done t r) Hi). simpl in *. lia.
  - unfold sendCompleted in H. destruct (workers s !! i) as [[| | |t r|]|] eqn:Hi; try done. destruct (_ <? _)%nat; [|done].
    injection H as <-. pose proof (toGo_insert _ i _ Waiting Hi). simpl in *. rewrite length_app. simpl. lia.
  - unfold emitTurn in H. destruct (completed s) as [|b bs]; [done|]. set (n := S (Nat.min _ _)) in H.
    destruct (merge _ _ _ _ _) as [[[pe nx] mg] fr]. injection H as <-. cbn [queue workers completed]. rewrite length_drop. simpl. lia.
Qed.

Lemma hand_length ws i w : ws !! i = Some w → (length (inHand w) ≤ length (concat (inHand <$> ws)))%nat.
Proof. intros Hi. destruct (hand_insert ws i w w Hi) as (rest&->&_). rewrite length_app. lia. Qed.

(** When no step is left, no worker has a batch and nothing is completed. *)
Lemma stuck_idle s hist E N :
  (∀ ps, ∃ r, decrypts ps r) → pipe_ok s hist E N → (∀ s', ¬ pipe_step s s') →
  completed s = [] ∧ ∀ i w, workers s !! i = Some w → inHand w = [].
Proof.
  intros Htot Hok Hst. split.
  - destruct (completed s) as [|b bs] eqn:Hc; [done|exfalso].
    destruct (emitTurn s 0) as [s'|] eqn:He; [by apply (Hst s'), (ps_emit _ 0)|]. unfold emitTurn in He. rewrite Hc in He.
    by destruct (merge _ _ _ _ _) as [[[? ?] ?] ?].
  - intros i [| |t ps|t r|] Hi; try done; exfalso.
    + destruct (Htot ps) as [r Hr]. eapply Hst, (ps_decrypt _ i t ps r); [done|done|]. unfold finishDecrypt. by rewrite Hi.
    + pose proof (po_pool _ _ _ _ Hok) as Hp. pose proof (hand_length _ _ _ Hi) as Hl. unfold flight in Hp. rewrite !length_app, length_fmap in Hp. simpl in Hl.
      eapply Hst, (ps_send _ i). unfold sendCompleted. rewrite Hi. rewrite (proj2 (Nat.ltb_lt _ _)) by lia. done.
Qed.

Lemma idle_hands ws : (∀ i w, ws !! i = Some w → inHand w = []) → concat (inHand <$> ws) = [].
Proof. induction ws as [|w ws IH]; intros H; [done|]. simpl. rewrite (H 0%nat w eq_refl). apply IH. intros i x Hx. by apply (H (S i)). Qed.

(** Then nothing is on its way at all. *)
Lemma stuck_empty s hist E N :
  (∀ ps, ∃ r, decrypts ps r) → pipe_ok s hist E N → (∀ s', ¬ pipe_step s s') → flight s = [] ∧ E = N.
Proof.
  intros Htot Hok Hst. destruct (stuck_idle s hist E N Htot Hok Hst) as [Hc Hi].
  pose proof (idle_hands _ Hi) as Hh. assert (flight s = shelf (pending s)) as Hf by (unfold flight; by rewrite Hh, Hc).
  pose proof (po_flight _ _ _ _ Hok) as Hw. pose proof (on_way_length _ _ _ _ Hw) as Hl. pose proof (po_order _ _ _ _ Hok) as Ho.
  destruct (decide (E = N)) as [<-|Hne]; [split; [|done]; apply nil_length_inv; lia|exfalso].
  destruct Hw as (L&HL&HE&_). assert (E ∈ L.*1) as (e&He&Hin)%list_elem_of_fmap by (rewrite HE; apply elem_of_seq; lia).
  assert (numbered e ∈ shelf (pending s)) as Hsh by (rewrite <- Hf, HL; by apply list_elem_of_fmap_2).
  apply list_elem_of_fmap in Hsh as ([t r]&Heq&Hmt). apply elem_of_map_to_list in Hmt. injection Heq as Ht _. simpl in Ht.
  pose proof (po_merged _ _ _ _ Hok) as Hm. rewrite (po_next _ _ _ _ Hok), He in Hm. congruence.
Qed.

Lemma stuck_queue s hist E N :
  (∀ ps, ∃ r, decrypts ps r) → (0 < queueSize s)%nat → pipe_ok s hist E N → (∀ s', ¬ pipe_step s s') →
  (∃ i w, workers s !! i = Some w ∧ w ≠ Stopped) → queue s = [].
Proof.
  intros Htot Hq Hok Hst (i&w&Hi&Hns). destruct (queue s) as [|[t ps] q] eqn:Hqq; [done|exfalso].
  destruct (stuck_empty s hist E N Htot Hok Hst) as [Hf _]. destruct (stuck_idle s hist E N Htot Hok Hst) as [_ Hid].
  assert (∀ k, workers s !! k ≠ Some Holding) as Hnh.
  { intros k Hk. eapply Hst, (ps_recv _ k). unfold recvBatch. by rewrite Hk, Hqq. }
  assert (sum_list_with holds (workers s) = 0%nat) as Hz.
  { revert Hnh. clear. induction (workers s) as [|x l IH]; intros H; [done|]. simpl. rewrite IH by (intros k; apply (H (S k))).
    specialize (H 0%nat). simpl in H. by destruct x. }
  pose proof (po_pool _ _ _ _ Hok) as Hp. rewrite Hf, Hz in Hp. simpl in Hp.
  destruct w; [|by apply (Hnh i)|by specialize (Hid _ _ Hi)|by specialize (Hid _ _ Hi)|done].
  destruct (free s) as [|f] eqn:Hfr; [lia|]. eapply Hst, (ps_take _ i). unfold takeFree. by rewrite Hi, Hfr.
Qed.

Lemma queued_nil hist N : queued hist N = [] → (length hist ≤ N)%nat.
Proof. unfold queued. intros Hq%(f_equal length). rewrite length_imap, length_drop in Hq. simpl in Hq. lia. Qed.

Lemma run_size n s hist : pipe_run n s hist → queueSize s = (2 * n)%nat.
Proof.
  induction 1 as [|s s' hist _ IH Hs|s i s' hist _ IH Hs|]; try done; rewrite <- IH; clear IH.
  - destruct Hs as [i s' H|i s' H|i t ps r s' Hi _ H|i s' H|more s' H].
    + unfold takeFree in H. repeat case_match; try done. by injection H as <-.
    + unfold recvBatch in H. repeat case_match; try done. by injection H as <-.
    + unfold finishDecrypt in H. rewrite Hi in H. by injection H as <-.
    + unfold sendCompleted in H. repeat case_match; try done. by injection H as <-.
    + unfold emitTurn in H. destruct (completed s); [done|]. destruct (merge _ _ _ _ _) as [[[? ?] ?] ?]. by injection H as <-.
  - unfold stopWorker in Hs. repeat case_match; try done. by injection Hs as <-.
Qed.

(** C12: whatever order the workers finish in, what the receiver has emitted is
    the results of the batches of the mux, from the first and in the order the
    socket read them: none skipped, repeated or out of order. The pooled batch
    objects are never more than twice the workers, so neither returning one to the
    pool nor handing one to the emitter ever blocks. *)
Theorem emission_in_order n s hist :
  Z.of_nat (2 * n) < 2 ^ 64 → pipe_run n s hist →
  ∃ E rs, (E ≤ length hist)%nat ∧ emitted s = concat rs ∧ Forall2 decrypts (take E hist) rs ∧
    (free s + length (completed s) ≤ 2 * n)%nat.
Proof.
  intros Hn Hr. destruct (pipe_run_ok n s hist Hn Hr) as (E&N&[Ho _ _ _ (rs&He&Hf) Hp _ _]). exists E, rs.
  split; [lia|]. split; [done|]. split; [done|]. rewrite (run_size n s hist Hr) in Hp. unfold flight in Hp.
  rewrite !length_app, length_fmap in Hp. lia.
Qed.

(** C31: the pipeline never stalls. Every step brings it closer to having emitted
    everything that arrived, so without new arrivals it comes to rest; and at rest
    nothing is held back: no batch is in a worker, a channel or the emitter's map,
    and unless every worker was stopped the mux is empty and the results of every
    batch that arrived have been emitted, in order. *)
Theorem pipeline_drains n s hist :
  Z.of_nat (2 * n) < 2 ^ 64 → (∀ ps, ∃ r, decrypts ps r) → pipe_run n s hist →
  (∀ s', pipe_step s s' → (load s' < load s)%nat) ∧
  ((∀ s', ¬ pipe_step s s') → flight s = [] ∧
     ((∃ i w, workers s !! i = Some w ∧ w ≠ Stopped) → (0 < n)%nat →
      queue s = [] ∧ ∃ rs, emitted s = concat rs ∧ Forall2 decrypts hist rs)).
Proof.
  intros Hn Htot Hr. split; [intros s'; apply step_load|]. intros Hst. destruct (pipe_run_ok n s hist Hn Hr) as (E&N&Hok).
  destruct (stuck_empty s hist E N Htot Hok Hst) as [Hf ->]. split; [done|]. intros Hw Hpos.
  assert (queue s = []) as Hq by (apply (stuck_queue s hist N N); try done; rewrite (run_size n s hist Hr); lia). split; [done|].
  destruct Hok as [Ho Hqq _ _ (rs&He&Hfa) _ _ _]. exists rs. split; [done|]. rewrite Hq in Hqq. symmetry in Hqq.
  apply queued_nil in Hqq. by rewrite take_ge in Hfa by done.
Qed.
End pipeline.
