(* ===== verification/TunnelWitness.v ===== *)
(** * Concrete instances for the tunnel and its receive pipeline *)

From S2P Require Import Prelude Netip Store Replay Esp EspSeal EspOpen EspWitness Packet Tunnel TunnelRecv.

(** A tunnel with one Child SA, inbound SPI 17. *)
Definition oneSA : tunnel := match install (newTunnel 64 true) alice with Ok t => t | _ => newTunnel 64 true end.

Lemma oneSA_ok : tunnel_ok oneSA.
Proof.
  assert (is_ok (install (newTunnel 64 true) alice) = true) as H by (vm_compute; reflexivity).
  unfold oneSA. destruct (install (newTunnel 64 true) alice) as [t| |] eqn:Hi; [|discriminate H..].
  apply (install_spec (newTunnel 64 true) alice t); [done..|exact Hi].
Qed.

(** Two packets for SPI 17 that are too short to authenticate, one for no SA. *)
Definition shortBatch : list (list Z) := [[0;0;0;17; 0;0;0;1]; [0;0;0;17; 0;0;0;2]; [9;9;9;9]].

Lemma decrypt_batch_exact_witness :
  ∃ out, decryptBatch oneSA shortBatch [] = Ok out ∧ Forall2 (decrypted oneSA) shortBatch out.
Proof.
  destruct (decrypt_batch_exact oneSA shortBatch [] oneSA_ok) as (out&Hd&Hf).
  - repeat constructor; unfold byte_ok; simpl; lia.
  - exists out. split; [exact Hd|exact Hf].
Defined.

(** The batches decrypted with no SA installed at all. *)
Definition bare (ps : list (list Z)) (r : list AuthenticatedPacket) : Prop := decryptBatch (newTunnel 64 true) ps [] = Ok r.

Lemma bare_total ps : ∃ r, bare ps r.
Proof.
  unfold bare, decryptBatch. generalize (@nil AuthenticatedPacket) as acc. generalize (le_n (length ps)). generalize (length ps) at 2 3 as fuel.
  induction ps as [|p ps IH]; intros fuel Hf acc; [destruct fuel; by eexists|].
  destruct fuel as [|fuel]; [simpl in Hf; lia|]. cbn [decryptLoop]. apply IH. simpl in Hf. lia.
Defined.

Definition or (s : pipe) (o : option pipe) : pipe := match o with Some s => s | None => s end.

Definition unknown1 : list AuthenticatedPacket := [mkAuth None 0 false 0 [] (Some errUnknownSPI)].

(** Two batches arrive; the second is decrypted first. *)
Definition p1 : pipe := arrive (arrive (newPipe 2) 0 [[1]]) 1 [[2]].
Definition p2 : pipe := or p1 (takeFree p1 0).
Definition p3 : pipe := or p2 (takeFree p2 1).
Definition p4 : pipe := or p3 (recvBatch p3 0).
Definition p5 : pipe := or p4 (recvBatch p4 1).
Definition p6 : pipe := or p5 (finishDecrypt p5 1 unknown1).
Definition p7 : pipe := or p6 (sendCompleted p6 1).
Definition p8 : pipe := or p7 (emitTurn p7 0).
Definition p9 : pipe := or p8 (finishDecrypt p8 0 unknown1).
Definition p10 : pipe := or p9 (sendCompleted p9 0).
Definition p11 : pipe := or p10 (emitTurn p10 5).

Lemma p11_run : pipe_run bare 2 p11 [[[1]]; [[2]]].
Proof.
  apply (pr_step _ _ p10); [|apply (ps_emit _ _ 5); reflexivity].
  apply (pr_step _ _ p9); [|apply (ps_send _ _ 0); reflexivity].
  apply (pr_step _ _ p8); [|apply (ps_decrypt _ _ 0 0 [[1]] unknown1); reflexivity].
  apply (pr_step _ _ p7); [|apply (ps_emit _ _ 0); reflexivity].
  apply (pr_step _ _ p6); [|apply (ps_send _ _ 1); reflexivity].
  apply (pr_step _ _ p5); [|apply (ps_decrypt _ _ 1 1 [[2]] unknown1); reflexivity].
  apply (pr_step _ _ p4); [|apply (ps_recv _ _ 1); reflexivity].
  apply (pr_step _ _ p3); [|apply (ps_recv _ _ 0); reflexivity].
  apply (pr_step _ _ p2); [|apply (ps_take _ _ 1); reflexivity].
  apply (pr_step _ _ p1); [|apply (ps_take _ _ 0); reflexivity].
  apply (pr_arrive _ 2 (arrive (newPipe 2) 0 [[1]]) [[[1]]] [[2]]). apply (pr_arrive _ 2 (newPipe 2) [] [[1]]). apply pr_open.
Defined.

Lemma emission_in_order_witness :
  emitted p11 = unknown1 ++ unknown1 ∧ ∃ E rs, (E ≤ 2)%nat ∧ emitted p11 = concat rs ∧ Forall2 bare (take E [[[1]]; [[2]]]) rs.
Proof.
  split; [reflexivity|]. destruct (emission_in_order bare 2 p11 [[[1]]; [[2]]] ltac:(done) p11_run) as (E&rs&HE&He&Hf&_).
  exists E, rs. split; [exact HE|]. split; [exact He|exact Hf].
Defined.

Lemma pipeline_drains_witness :
  emitted p11 = unknown1 ++ unknown1 ∧ ∀ s', pipe_step bare p11 s' → (load s' < load p11)%nat.
Proof. split; [reflexivity|]. exact (proj1 (pipeline_drains bare 2 p11 [[[1]]; [[2]]] ltac:(done) bare_total p11_run)). Defined.
