(* ===== verification/IkeChild.v ===== *)
(** * The Child SAs of a session, ike/child_state.go

    A session has an active Child SA, at most one replaced SA that waits for the
    peer's Delete, and replaced SAs whose inbound keys drain on a timer. Every one
    of them holds an inbound SPI in the transport hub and a key in the tunnel; the
    operations below change the three together. A world is the hub, the session
    and its tunnel; an operation returns the world it leaves, on errors too. *)

From S2P Require Import Prelude Netip Store Esp TransHub Tunnel.

Definition noChild : ChildSA := mkChildSA 0 0 0 0 [] [].

Definition childRetirement : Type := Z * Z.  (* spi, expiresAt *)

Record Session := mkSession {
  mux : nat;
  Child : ChildSA;
  retiring : ChildSA;
  retiringBy : Z;
  retired : list childRetirement;
  childRetireDelay : Z;
  handlers : bool }.  (* whether SetChildHandler and SetChildRetireHandler were called *)

Record World := mkWorld { hub : Hub; sess : Session; tun : tunnel }.

Definition retirementDeadline : Z := 30 * 10 ^ 9.

Definition set_child (s : Session) (c : ChildSA) : Session :=
  mkSession (mux s) c (retiring s) (retiringBy s) (retired s) (childRetireDelay s) (handlers s).
Definition set_retiring (s : Session) (c : ChildSA) (by_ : Z) : Session :=
  mkSession (mux s) (Child s) c by_ (retired s) (childRetireDelay s) (handlers s).
Definition set_retired (s : Session) (l : list childRetirement) : Session :=
  mkSession (mux s) (Child s) (retiring s) (retiringBy s) l (childRetireDelay s) (handlers s).
Definition set_sess (w : World) (s : Session) : World := mkWorld (hub w) s (tun w).

Definition canReplaceChild (s : Session) (localSPI : Z) : res unit :=
  if negb (LocalSPI (retiring s) =? 0) then Err "ike: Child SA is still awaiting retirement"
  else if localSPI =? LocalSPI (Child s) then Err "ike: Child SA SPI is already active"
  else if existsb (λ r, localSPI =? r.1) (retired s) then Err "ike: Child SA SPI is still draining"
  else Ok ().

(** The session once [child] is active at [now]. *)
Definition promote (s : Session) (child : ChildSA) (now : Z) : Session :=
  let old := Child s in
  let s := set_child s child in
  if negb (LocalSPI old =? 0) then set_retiring s old (now + retirementDeadline) else s.

Section crypto.
Context `{C : Crypto}.

Definition replaceChild (w : World) (child : ChildSA) (now : Z) : World * res unit :=
  let s := sess w in
  match canReplaceChild s (LocalSPI child) with
  | Ok _ =>
      match RegisterESP (hub w) (mux s) (LocalSPI child) with
      | Ok h =>
          match (if handlers s then install (tun w) child else Ok (tun w)) with
          | Ok t => (mkWorld h (promote s child now) t, Ok ())
          | Err e => (mkWorld (UnregisterESP h (mux s) (LocalSPI child)) s (tun w), Err e)
          | Panic => (mkWorld h s (tun w), Panic)
          end
      | Err e => (w, Err e)
      | Panic => (w, Panic)
      end
  | Err e => (w, Err e)
  | Panic => (w, Panic)
  end.

(** The session as NewSession and the responder make it. *)
Definition newSession (m : nat) : Session := mkSession m noChild noChild 0 [] (5 * 10 ^ 9) false.

(** How [serveSession] wires the session to its tunnel. *)
Definition serve (w : World) : res World :=
  t ← install (tun w) (Child (sess w));
  let s := sess w in
  Ok (mkWorld (hub w) (mkSession (mux s) (Child s) (retiring s) (retiringBy s) (retired s) (childRetireDelay s) true) t).

(** The first Child SA, of IKE_AUTH, on the mux [m] of [h]. *)
Definition openSession (h : Hub) (m : nat) (child : ChildSA) (window now : Z) : res World :=
  match replaceChild (mkWorld h (newSession m) (newTunnel window true)) child now with
  | (w, Ok _) => serve w
  | (_, Err e) => Err e
  | (_, Panic) => Panic
  end.
End crypto.

Definition retireInboundLocked (w : World) (spi : Z) (replaced : bool) (now : Z) : World * res unit :=
  let s := sess w in
  if replaced && (0 <? childRetireDelay s)
  then (set_sess w (set_retired s (retired s ++ [(spi, now + childRetireDelay s)])), Ok ())
  else
    match (if handlers s then retire (tun w) spi else Ok (tun w)) with
    | Ok t => (mkWorld (UnregisterESP (hub w) (mux s) spi) s t, Ok ())
    | Err e => (w, Err e)
    | Panic => (w, Panic)
    end.

Definition retireChild (w : World) (remoteSPI now : Z) : World * res unit :=
  let r := retiring (sess w) in
  if LocalSPI r =? 0 then (w, Ok ())
  else if negb (RemoteSPI r =? remoteSPI) then (w, Err "ike: no retiring Child SA with remote SPI")
  else match retireInboundLocked w (LocalSPI r) true now with
       | (w, Ok _) => (set_sess w (set_retiring (sess w) noChild (retiringBy (sess w))), Ok ())
       | we => we
       end.

(** [None] is the zero time. *)
Definition nextRetirement (s : Session) : option Z :=
  let earliest := match retired s with [] => None | r :: _ => Some r.2 end in
  if negb (LocalSPI (retiring s) =? 0) && match earliest with None => true | Some e => retiringBy s <? e end
  then Some (retiringBy s) else earliest.

(** The loop that drops the SAs whose time has come; each turn takes one off
    the list it starts with. *)
Fixpoint expireLoop (due : list childRetirement) (w : World) (now clock : Z) : World * res unit :=
  match due with
  | [] => (w, Ok ())
  | r :: due =>
      if now <? r.2 then (w, Ok ())
      else match retireInboundLocked w r.1 false clock with
           | (w, Ok _) => expireLoop due (set_sess w (set_retired (sess w) (drop 1 (retired (sess w))))) now clock
           | (w, Err e) => (w, Err ("ike: expire retired Child SA: " +:+ e))
           | we => we
           end
  end.

(** [clock] is what [time.Now] reads while the call runs. *)
Definition expireRetiredChildren (w : World) (now clock : Z) : World * res unit :=
  let r := retiring (sess w) in
  if negb (LocalSPI r =? 0) && negb (now <? retiringBy (sess w)) then
    match retireInboundLocked w (LocalSPI r) true clock with
    | (w, Ok _) =>
        let w := set_sess w (set_retiring (sess w) noChild (retiringBy (sess w))) in
        expireLoop (retired (sess w)) w now clock
    | (w, Err e) => (w, Err ("ike: retire an undeleted Child SA: " +:+ e))
    | we => we
    end
  else expireLoop (retired (sess w)) w now clock.

Definition forgetChild (w : World) (child : ChildSA) (now : Z) : World * res unit :=
  let c := Child (sess w) in
  if LocalSPI c =? 0 then (w, Ok ())
  else if negb (LocalSPI c =? LocalSPI child) || negb (RemoteSPI c =? RemoteSPI child)
  then (w, Err "ike: Child SA changed while handling CHILD_SA_NOT_FOUND")
  else match retireInboundLocked w (LocalSPI child) false now with
       | (w, Ok _) => (set_sess w (set_child (sess w) noChild), Ok ())
       | we => we
       end.

Fixpoint deleteLoop (w : World) (remoteSPIs : list Z) (localSPIs : list Z) (now : Z) : World * res (list Z) :=
  match remoteSPIs with
  | [] => (w, Ok localSPIs)
  | remoteSPI :: rest =>
      let c := Child (sess w) in
      let r := retiring (sess w) in
      if negb (LocalSPI c =? 0) && (RemoteSPI c =? remoteSPI) then
        match retireInboundLocked w (LocalSPI c) false now with
        | (w, Ok _) => deleteLoop (set_sess w (set_child (sess w) noChild)) rest (localSPIs ++ [LocalSPI c]) now
        | (w, Err e) => (w, Err e)
        | (w, Panic) => (w, Panic)
        end
      else if negb (LocalSPI r =? 0) && (RemoteSPI r =? remoteSPI) then
        match retireInboundLocked w (LocalSPI r) true now with
        | (w, Ok _) => deleteLoop (set_sess w (set_retiring (sess w) noChild (retiringBy (sess w)))) rest (localSPIs ++ [LocalSPI r]) now
        | (w, Err e) => (w, Err e)
        | (w, Panic) => (w, Panic)
        end
      else deleteLoop w rest localSPIs now
  end.

Definition deleteChildren (w : World) (remoteSPIs : list Z) (now : Z) : World * res (list Z) := deleteLoop w remoteSPIs [] now.

(** ** The invariant *)

Definition slot (c : ChildSA) : list Z := if LocalSPI c =? 0 then [] else [LocalSPI c].

(** The inbound SPIs the session answers to. *)
Definition live (s : Session) : list Z := slot (Child s) ++ slot (retiring s) ++ (retired s).*1.

(** The SPIs are distinct and not zero; the hub delivers exactly them to the
    session's mux; the tunnel has keys for exactly them; it sends with the active
    SA, or not at all. *)
Record wired (w : World) : Prop := mkWired {
  wi_handlers : handlers (sess w) = true;
  wi_nodup : NoDup (live (sess w));
  wi_zero : 0 ∉ live (sess w);
  wi_hub : ∀ spi, esp (hub w) !! spi = Some (mux (sess w)) ↔ spi ∈ live (sess w);
  wi_tunnel : tunnel_ok (tun w) ∧ 0 ≤ replayWindowOf (tun w);
  wi_keys : ∃ sa, sas (tun w) = Some sa ∧ dom (inbound sa) = list_to_set (live (sess w)) ∧
    outboundSPI sa = LocalSPI (Child (sess w)) ∧ (outbound sa = None ↔ LocalSPI (Child (sess w)) = 0) }.

(** Deadlines are in order and not far off. *)
Record timely (clock : Z) (s : Session) : Prop := mkTimely {
  ti_delay : 0 < childRetireDelay s;
  ti_sorted : StronglySorted Z.le (retired s).*2;
  ti_retired : Forall (λ r, r.2 ≤ clock + childRetireDelay s) (retired s);
  ti_retiring : LocalSPI (retiring s) ≠ 0 → retiringBy s ≤ clock + retirementDeadline }.

Definition world_ok (clock : Z) (w : World) : Prop := wired w ∧ timely clock (sess w).
