(* ===== verification/IkeChildRun.v ===== *)
(** * The life of a session's Child SAs

    Any sequence of rekeys from either side, Deletes, timer runs and activity of
    other sessions on the hub, at times that do not run backwards. *)

From S2P Require Import Prelude Netip Store Esp EspOpen EspWitness TransHub Tunnel IkeChild.

(** * The Child SA invariant

    Every operation of [IkeChild] keeps the hub, the session and the tunnel in
    step, never fails to retire what it means to, and leaves nothing behind when
    it refuses. *)

(** ** Changing the set of live SPIs *)

Lemma wired_perm w s' :
  wired w → live (sess w) ≡ₚ live s' → Child s' = Child (sess w) → mux s' = mux (sess w) → handlers s' = handlers (sess w) →
  wired (set_sess w s').
Proof.
  intros [Hh Hnd Hz Hhub Ht (sa&Hsa&Hd&Ho&Hn)] Hp Hc Hm Hhd. split; simpl.
  - congruence.
  - by rewrite <- Hp.
  - by rewrite <- Hp.
  - intros spi. rewrite Hm, Hhub, Hp. done.
  - done.
  - exists sa. rewrite Hc. split_and!; try done. rewrite Hd. by rewrite Hp.
Qed.

Lemma child_apart s spi : NoDup (live s) → 0 ∉ live s → spi ∈ slot (retiring s) ++ (retired s).*1 → LocalSPI (Child s) ≠ spi.
Proof.
  unfold live. intros Hnd Hz Hin Heq. unfold slot at 1 in Hnd. unfold slot at 1 in Hz.
  destruct (Z.eqb_spec (LocalSPI (Child s)) 0) as [E|E]; [simpl in Hz; apply Hz; rewrite <- E, Heq; done|].
  simpl in Hnd. apply NoDup_cons in Hnd as [Hni _]. by rewrite Heq in Hni.
Qed.

(** Removing one SPI at once. *)
Lemma retire_now w spi now s' :
  wired w → live (sess w) ≡ₚ spi :: live s' → mux s' = mux (sess w) → handlers s' = handlers (sess w) →
  (LocalSPI (Child s') = LocalSPI (Child (sess w)) ∧ LocalSPI (Child (sess w)) ≠ spi ∨
   LocalSPI (Child s') = 0 ∧ LocalSPI (Child (sess w)) = spi) →
  ∃ w', retireInboundLocked w spi false now = (w', Ok ()) ∧ sess w' = sess w ∧ wired (set_sess w' s').
Proof.
  intros [Hh Hnd Hz Hhub [Ht HW] (sa&Hsa&Hd&Ho&Hn)] Hp Hm Hhd Hc. unfold retireInboundLocked. simpl. rewrite Hh.
  assert (spi ∈ live (sess w)) as Hin by (rewrite Hp; left).
  assert (is_Some (inbound sa !! spi)) as Hins by (apply elem_of_dom; rewrite Hd; set_solver).
  pose proof (retire_installed (tun w) sa spi Hsa Hins) as Hok.
  destruct (retire (tun w) spi) as [t| |] eqn:Hr; try done.
  destruct (retire_spec (tun w) spi t Ht Hr) as (Ht'&HW'&sa0&sa'&Hsa0&Hsa'&Hi&Hout). rewrite Hsa in Hsa0. injection Hsa0 as <-.
  rewrite Hp in Hnd. apply NoDup_cons in Hnd as [Hni Hnd]. eexists. split; [done|]. split; [done|]. split; simpl.
  - congruence.
  - done.
  - rewrite Hp in Hz. set_solver.
  - intros k. unfold unclaim. pose proof (proj2 (Hhub spi) Hin) as Hspi. rewrite Hspi, Nat.eqb_refl, Hm.
    rewrite lookup_delete_Some, Hhub, Hp, elem_of_cons. split; [by intros [? [?|?]]|]. intros Hk. split; [by intros <-|by right].
  - split; [done|lia].
  - exists sa'. split; [done|]. split_and!.
    + rewrite Hi, dom_delete_L, Hd, Hp. simpl. set_solver.
    + destruct (Z.eqb_spec (outboundSPI sa) spi); injection Hout as Hon Hos; rewrite Hos; destruct Hc as [[-> Hc]|[-> Hc]]; congruence.
    + destruct (Z.eqb_spec (outboundSPI sa) spi); injection Hout as Hon Hos; rewrite Hon; destruct Hc as [[-> Hc]|[-> Hc]]; try done; congruence.
Qed.

Lemma slot_some c : LocalSPI c ≠ 0 → slot c = [LocalSPI c].
Proof. unfold slot. by destruct (Z.eqb_spec (LocalSPI c) 0). Qed.

(** The replaced SA goes to the drain. *)
Lemma retire_replaced w clock now :
  world_ok clock w → clock ≤ now → LocalSPI (retiring (sess w)) ≠ 0 →
  ∃ w', retireInboundLocked w (LocalSPI (retiring (sess w))) true now = (w', Ok ()) ∧
    Child (sess w') = Child (sess w) ∧ retired (sess w') = retired (sess w) ++ [(LocalSPI (retiring (sess w)), now + childRetireDelay (sess w))] ∧
    childRetireDelay (sess w') = childRetireDelay (sess w) ∧
    world_ok now (set_sess w' (set_retiring (sess w') noChild (retiringBy (sess w')))).
Proof.
  intros [Hw [Hdl Hs Hr Hrt]] Hcl Hne. unfold retireInboundLocked. rewrite (proj2 (Z.ltb_lt _ _)) by done. simpl.
  eexists. split; [done|]. split_and!; try done. split.
  - apply (wired_perm w (set_retiring (set_retired (sess w) (retired (sess w) ++ [(LocalSPI (retiring (sess w)), now + childRetireDelay (sess w))])) noChild
      (retiringBy (sess w)))); try done. unfold live. simpl.
    rewrite (slot_some (retiring (sess w))) by done. rewrite fmap_app. simpl.
    apply Permutation_app_head. rewrite (Permutation_app_comm _ [_]). done.
  - split; simpl; try done.
    + rewrite fmap_app. simpl. apply StronglySorted_app_2; [|done|by repeat constructor].
      intros x1 x2 (r&->&Hin)%list_elem_of_fmap ->%list_elem_of_singleton.
      pose proof (proj1 (Forall_forall _ _) Hr r Hin) as Hle. simpl in Hle. lia.
    + apply Forall_app. split; [|by apply Forall_singleton; simpl; lia].
      eapply Forall_impl; [exact Hr|]. intros r Hle. simpl in Hle. lia.
Qed.

(** ** Expiry *)

(** Dropping what is due, from a list in order, leaves only what is not. *)
Lemma expireLoop_spec due w now clock clk :
  retired (sess w) = due → world_ok clk w →
  ∃ w', expireLoop due w now clock = (w', Ok ()) ∧ world_ok clk w' ∧ Child (sess w') = Child (sess w) ∧
    retiring (sess w') = retiring (sess w) ∧ retiringBy (sess w') = retiringBy (sess w) ∧
    ∃ gone, due = gone ++ retired (sess w') ∧ Forall (λ r, r.2 ≤ now) gone ∧ Forall (λ r, now < r.2) (retired (sess w')).
Proof.
  revert w. induction due as [|r due IH]; intros w Hd Hok; cbn [expireLoop].
  { exists w. split; [done|]. split; [done|]. split_and!; try done. exists []. rewrite Hd. by repeat constructor. }
  destruct Hok as [Hw Hti]. pose proof Hti as [Hdl Hs Hr Hrt]. rewrite Hd in Hs, Hr. simpl in Hs. apply StronglySorted_inv in Hs as [Hs Hall].
  destruct (Z.ltb_spec now r.2) as [Hlt|Hge].
  { exists w. split; [done|]. split; [done|]. split_and!; try done. exists []. rewrite Hd. split; [done|]. split; [constructor|].
    constructor; [done|]. rewrite Forall_fmap in Hall. eapply Forall_impl; [exact Hall|]. intros q Hq. simpl in Hq. lia. }
  assert (live (sess w) ≡ₚ r.1 :: live (set_retired (sess w) due)) as Hp.
  { unfold live. simpl. rewrite Hd. simpl. rewrite !app_assoc. by rewrite <- Permutation_middle. }
  destruct (retire_now w r.1 clock (set_retired (sess w) due) Hw Hp) as (w1&Hr1&Hs1&Hw1); try done.
  { left. split; [done|]. apply child_apart; [apply Hw|apply Hw|]. rewrite Hd. set_solver. }
  rewrite Hr1. rewrite Hs1, Hd. simpl. rewrite drop_0.
  destruct (IH (set_sess w1 (set_retired (sess w) due))) as (w'&He&Hok'&Hc&Hrt'&Hrb&gone&Hg&Hgf&Hleft); [done| |].
  { split; [done|]. apply Forall_cons in Hr as [_ Hr]. by split. }
  exists w'. split; [done|]. split; [done|]. split_and!; try done. exists (r :: gone). rewrite Hg at 1. split; [done|].
  split; [by constructor; [lia|]|done].
Qed.

Lemma timely_later clock clock' s : clock ≤ clock' → timely clock s → timely clock' s.
Proof.
  intros Hc [Hd Hs Hr Hrt]. split; try done.
  - eapply Forall_impl; [exact Hr|]. intros r Hle. simpl in Hle. lia.
  - intros Hne. specialize (Hrt Hne). lia.
Qed.

Lemma world_later clock clock' w : clock ≤ clock' → world_ok clock w → world_ok clock' w.
Proof. intros ? [? ?]. split; [done|]. by eapply timely_later. Qed.

Lemma expire_spec w now clock clk :
  world_ok clk w → clk ≤ clock → now ≤ clock →
  ∃ w', expireRetiredChildren w now clock = (w', Ok ()) ∧ world_ok clock w' ∧ Child (sess w') = Child (sess w) ∧
    (LocalSPI (retiring (sess w')) ≠ 0 → now < retiringBy (sess w') ≤ clk + retirementDeadline) ∧
    Forall (λ r, now < r.2) (retired (sess w')).
Proof.
  intros Hok Hclk Hnow. unfold expireRetiredChildren. pose proof (ti_retiring _ _ (proj2 Hok)) as Hby.
  destruct (Z.eqb_spec (LocalSPI (retiring (sess w))) 0) as [Hz|Hne]; cbn [negb andb].
  - destruct (expireLoop_spec (retired (sess w)) w now clock clk eq_refl Hok) as (w'&He&Hok'&Hc&Hr&_&gone&_&_&Hf).
    exists w'. split; [done|]. split; [by apply (world_later clk)|]. split; [done|]. split; [by rewrite Hr|done].
  - specialize (Hby Hne). destruct (Z.ltb_spec now (retiringBy (sess w))) as [Hlt|Hge]; cbn [negb].
    + destruct (expireLoop_spec (retired (sess w)) w now clock clk eq_refl Hok) as (w'&He&Hok'&Hc&Hr&Hb&gone&_&_&Hf).
      exists w'. split; [done|]. split; [by apply (world_later clk)|]. split; [done|]. split; [|done]. intros _. rewrite Hb. lia.
    + destruct (retire_replaced w clk clock Hok Hclk Hne) as (w1&Hr1&Hc1&_&_&Hok1). rewrite Hr1. cbv zeta.
      set (w2 := set_sess w1 _) in *.
      destruct (expireLoop_spec (retired (sess w2)) w2 now clock clock eq_refl Hok1) as (w'&He&Hok'&Hc&Hr&_&gone&_&_&Hf).
      exists w'. split; [done|]. split; [done|]. split; [by rewrite Hc|]. split; [rewrite Hr; by intros []|done].
Qed.

(** ** Replacement *)

Lemma canReplace_fresh s spi :
  spi ≠ 0 → canReplaceChild s spi = Ok () ↔ LocalSPI (retiring s) = 0 ∧ spi ∉ live s.
Proof.
  intros Hz. unfold canReplaceChild. destruct (Z.eqb_spec (LocalSPI (retiring s)) 0) as [Hr|Hr]; cbn [negb]; [|naive_solver].
  unfold live. assert (slot (retiring s) = []) as -> by (unfold slot; by rewrite Hr).
  assert (spi ∈ slot (Child s) ↔ spi = LocalSPI (Child s)) as Hsl.
  { unfold slot. destruct (Z.eqb_spec (LocalSPI (Child s)) 0); set_solver. }
  assert (existsb (λ r : Z * Z, spi =? r.1) (retired s) = bool_decide (spi ∈ (retired s).*1)) as ->.
  { apply eq_bool_prop_intro. rewrite bool_decide_spec, Is_true_true, existsb_exists, list_elem_of_fmap.
    setoid_rewrite Z.eqb_eq. split; intros (r&?&?); exists r; [split; [done|] | split; [|done]]; by apply list_elem_of_In. }
  destruct (Z.eqb_spec spi (LocalSPI (Child s))) as [->|Hne].
  - split; [done|]. intros [_ Hni]. set_solver.
  - case_bool_decide as Hin; split; try done; [intros [_ Hni]; set_solver|]. intros _. split; [done|]. simpl. set_solver.
Qed.

Lemma RegisterESP_inv h m spi h' :
  RegisterESP h m spi = Ok h' → spi ≠ 0 ∧ esp h' = <[spi := m]> (esp h) ∧ (esp h !! spi = None ∨ esp h !! spi = Some m) ∧
    h' = set_tables h (ike h) (<[spi := m]> (esp h)).
Proof.
  unfold RegisterESP. destruct (Z.eqb_spec spi 0); [done|]. destruct (isClosed h m); [done|].
  unfold claim. destruct (esp h !! spi) as [o|]; [destruct (Nat.eqb_spec o m) as [->|]; [|done]|]; intros [= <-]; split_and!; auto.
Qed.

(** A handler that fails after the registration leaves the table as it was. *)
Lemma unregister_undo h m spi h' :
  RegisterESP h m spi = Ok h' → esp h !! spi ≠ Some m → UnregisterESP h' m spi = h.
Proof.
  intros (_&_&Hn&->)%RegisterESP_inv Hne. destruct Hn as [Hn|Hn]; [|done]. unfold UnregisterESP, unclaim. simpl.
  rewrite lookup_insert_eq, Nat.eqb_refl. rewrite delete_insert_id by done. by destruct h.
Qed.

Section laws.
Context `{CL : CryptoLaws}.

Lemma newESPAEAD_safe id bits key : safe (newESPAEAD id bits key).
Proof.
  unfold newESPAEAD. destruct (id =? ENCRAESGCM16).
  - cbn [keyLen saltLen]. set (k := Z.to_nat (bits / 8)). destruct (negb _ && _ && _) eqn:Ek; [done|].
    destruct (negb (length key =? k + 4)%nat) eqn:El; [done|]. apply negb_false_iff, Nat.eqb_eq in El.
    rewrite slice_ok by lia. rbind. destruct (aesgcm_ok (take (k - 0) (drop 0 key))) as (a & -> & _); [|done].
    rewrite length_take, length_drop. destruct (Nat.eqb_spec k 16), (Nat.eqb_spec k 24), (Nat.eqb_spec k 32); simpl in Ek; try done; lia.
  - destruct (id =? ENCRChaCha20Poly1305); [|done]. cbn [keyLen saltLen]. destruct (_ && _); [done|].
    destruct (negb (length key =? 32 + 4)%nat) eqn:El; [done|]. apply negb_false_iff, Nat.eqb_eq in El.
    rewrite slice_ok by lia. rbind. destruct (chacha_ok (take (32 - 0) (drop 0 key))) as (a & -> & _); [|done].
    rewrite length_take, length_drop. lia.
Qed.

Lemma install_safe t child : safe (install t child).
Proof.
  unfold install. apply safe_bind; [|intros out _; apply safe_bind; [|intros in_ _]].
  - unfold NewOutbound. apply safe_bind; [apply newESPAEAD_safe|]. intros [a p] Hn. apply EspOpen.newESPAEAD_ok in Hn as (_&_&_&Hk).
    cbn [snd] in *. rewrite from_ok by lia. done.
  - unfold NewInbound. apply safe_bind; [apply newESPAEAD_safe|]. intros [a p] Hn. apply EspOpen.newESPAEAD_ok in Hn as (_&_&_&Hk).
    cbn [snd] in *. rewrite from_ok by lia. done.
  - by destruct (_ !! _).
Qed.

Lemma live_promote s child now :
  LocalSPI (retiring s) = 0 → LocalSPI child ≠ 0 → live (promote s child now) = LocalSPI child :: live s.
Proof.
  intros Hr Hc. unfold promote, live. assert (slot (retiring s) = []) as Hsr by (unfold slot; by rewrite Hr).
  destruct (Z.eqb_spec (LocalSPI (Child s)) 0) as [Hz|Hz]; simpl; rewrite (slot_some child) by done; simpl.
  - rewrite Hsr. by unfold slot; rewrite Hz.
  - by rewrite Hsr.
Qed.

(** A replacement either happens whole or leaves everything as it was. *)
Lemma replaceChild_spec w child now clk :
  world_ok clk w → clk ≤ now →
  match replaceChild w child now with
  | (w', Ok _) => world_ok now w' ∧ Child (sess w') = child ∧ (LocalSPI child ∉ live (sess w)) ∧ live (sess w') = LocalSPI child :: live (sess w)
  | (w', Err _) => w' = w
  | (_, Panic) => False
  end.
Proof.
  intros [Hw Ht] Hn. unfold replaceChild.
  destruct (canReplaceChild (sess w) (LocalSPI child)) as [[]|e|] eqn:Hcan; [|done|].
  2: { unfold canReplaceChild in Hcan. repeat case_match; done. }
  destruct (RegisterESP (hub w) (mux (sess w)) (LocalSPI child)) as [h|e|] eqn:Hreg; [|done|].
  2: { unfold RegisterESP in Hreg. repeat case_match; done. }
  pose proof (RegisterESP_inv _ _ _ _ Hreg) as (Hz&He&_&_). apply (canReplace_fresh (sess w)) in Hcan as [Hr Hni]; [|done].
  assert (esp (hub w) !! LocalSPI child ≠ Some (mux (sess w))) as Hown by (by intros ?%(wi_hub w Hw)).
  rewrite (wi_handlers w Hw). pose proof (install_safe (tun w) child) as Hsafe.
  destruct (install (tun w) child) as [t|e|] eqn:Hin; [|rewrite (unregister_undo _ _ _ _ Hreg Hown); by destruct w|done].
  destruct Hw as [Hh Hnd Hzl Hhub [Hto HW] (sa&Hsa&Hd&Ho&Hon)].
  destruct (install_spec (tun w) child t Hto HW Hin) as (Ht'&HW'&s'&o&p&Hs'&Hos&_&Hspi&Hinb&_).
  pose proof (live_promote (sess w) child now Hr Hz) as Hlive. split_and!.
  - split.
    + split; cbn [sess hub tun].
      * unfold promote. by destruct (negb _).
      * rewrite Hlive. by apply NoDup_cons.
      * rewrite Hlive. set_solver.
      * intros spi. assert (mux (promote (sess w) child now) = mux (sess w)) as -> by (unfold promote; by destruct (negb _)).
        rewrite He, Hlive, elem_of_cons, <- Hhub. destruct (decide (spi = LocalSPI child)) as [->|Hne].
        -- rewrite lookup_insert_eq. naive_solver.
        -- rewrite lookup_insert_ne by done. naive_solver.
      * split; [done|lia].
      * exists s'. split; [done|]. assert (Child (promote (sess w) child now) = child) as -> by (unfold promote; by destruct (negb _)).
        split_and!; [|done|naive_solver]. rewrite Hinb, Hsa, dom_insert_L. cbn [from_option]. by rewrite Hd, Hlive.
    + destruct Ht as [Hdl Hs Hrt _]. unfold promote. cbn [sess]. destruct (negb _); split; simpl; try done;
        try (eapply Forall_impl; [exact Hrt|]; intros r Hle; simpl in Hle; lia); lia.
  - cbn [sess]. unfold promote. by destruct (negb _).
  - done.
  - done.
Qed.
End laws.

(** ** Deletion *)

(** The active SA goes at once, with no replacement to wait for. *)
Lemma retire_active w clk now :
  world_ok clk w → clk ≤ now → LocalSPI (Child (sess w)) ≠ 0 →
  ∃ w', retireInboundLocked w (LocalSPI (Child (sess w))) false now = (w', Ok ()) ∧ sess w' = sess w ∧
    world_ok now (set_sess w' (set_child (sess w) noChild)).
Proof.
  intros [Hw Ht] Hn Hne.
  destruct (retire_now w (LocalSPI (Child (sess w))) now (set_child (sess w) noChild) Hw) as (w'&Hr&Hs&Hw'); try done.
  - unfold live. simpl. by rewrite (slot_some (Child (sess w))) by done.
  - by right.
  - exists w'. split; [done|]. split; [done|]. split; [done|]. eapply (timely_later clk); [done|]. by destruct Ht.
Qed.

(** The session after the SA that waits for its Delete is moved to the drain. *)
Lemma live_after_replaced w clk now :
  world_ok clk w → clk ≤ now → LocalSPI (retiring (sess w)) ≠ 0 →
  ∃ w', retireInboundLocked w (LocalSPI (retiring (sess w))) true now = (w', Ok ()) ∧
    world_ok now (set_sess w' (set_retiring (sess w') noChild (retiringBy (sess w')))) ∧ Child (sess w') = Child (sess w).
Proof. intros Hok Hn Hne. destruct (retire_replaced w clk now Hok Hn Hne) as (w'&?&?&_&_&?). by exists w'. Qed.

Lemma retireChild_spec w remote clk now :
  world_ok clk w → clk ≤ now →
  match retireChild w remote now with
  | (w', Ok _) => world_ok now w' ∧ LocalSPI (retiring (sess w')) = 0 ∧ Child (sess w') = Child (sess w)
  | (w', Err _) => w' = w ∧ RemoteSPI (retiring (sess w)) ≠ remote
  | (_, Panic) => False
  end.
Proof.
  intros Hok Hn. unfold retireChild. destruct (Z.eqb_spec (LocalSPI (retiring (sess w))) 0) as [Hz|Hne].
  { split; [by apply (world_later clk)|done]. }
  destruct (Z.eqb_spec (RemoteSPI (retiring (sess w))) remote); cbn [negb]; [|done].
  destruct (live_after_replaced w clk now Hok Hn Hne) as (w'&->&Hok'&Hc). done.
Qed.

Lemma forgetChild_spec w child clk now :
  world_ok clk w → clk ≤ now →
  match forgetChild w child now with
  | (w', Ok _) => world_ok now w' ∧ LocalSPI (Child (sess w')) = 0
  | (w', Err _) => w' = w ∧ (LocalSPI child, RemoteSPI child) ≠ (LocalSPI (Child (sess w)), RemoteSPI (Child (sess w)))
  | (_, Panic) => False
  end.
Proof.
  intros Hok Hn. unfold forgetChild. destruct (Z.eqb_spec (LocalSPI (Child (sess w))) 0) as [Hz|Hne].
  { split; [by apply (world_later clk)|done]. }
  destruct (Z.eqb_spec (LocalSPI (Child (sess w))) (LocalSPI child)) as [Hl|Hl]; cbn [negb orb]; [|split; [done|congruence]].
  destruct (Z.eqb_spec (RemoteSPI (Child (sess w))) (RemoteSPI child)) as [Hr|Hr]; cbn [negb]; [|split; [done|congruence]].
  rewrite <- Hl. destruct (retire_active w clk now Hok Hn Hne) as (w'&->&Hs&Hok'). by rewrite Hs.
Qed.

(** What a Delete may do to a session: each of the two SAs stays or goes. *)
Definition shed (w w' : World) (out : list Z) : Prop :=
  (Child (sess w') = Child (sess w) ∨ Child (sess w') = noChild) ∧
  (retiring (sess w') = retiring (sess w) ∨ retiring (sess w') = noChild) ∧
  out ⊆ slot (Child (sess w)) ++ slot (retiring (sess w)).

(** One turn of the loop. *)
Lemma delete_turn r rest w acc now :
  world_ok now w →
  ∃ w' out, deleteLoop w (r :: rest) acc now = deleteLoop w' rest (acc ++ out) now ∧ world_ok now w' ∧ shed w w' out ∧
    (LocalSPI (Child (sess w')) ≠ 0 → RemoteSPI (Child (sess w')) ≠ r).
Proof.
  intros Hok. cbn [deleteLoop].
  destruct (decide (LocalSPI (Child (sess w)) ≠ 0 ∧ RemoteSPI (Child (sess w)) = r)) as [[Hcz Hcr]|Hc].
  { rewrite (proj2 (Z.eqb_neq _ _) Hcz), (proj2 (Z.eqb_eq _ _) Hcr). cbn [negb andb].
    destruct (retire_active w now now Hok (Z.le_refl _) Hcz) as (w1&->&Hs&Hok1). rewrite Hs.
    eexists _, [_]. split; [done|]. split; [done|]. split; [|done]. split; [by right|]. split; [by left|].
    rewrite slot_some by done. set_solver. }
  replace (negb (LocalSPI (Child (sess w)) =? 0) && (RemoteSPI (Child (sess w)) =? r)) with false
    by (destruct (Z.eqb_spec (LocalSPI (Child (sess w))) 0), (Z.eqb_spec (RemoteSPI (Child (sess w))) r); simpl; tauto).
  destruct (decide (LocalSPI (retiring (sess w)) ≠ 0 ∧ RemoteSPI (retiring (sess w)) = r)) as [[Hrz Hrr]|Hr].
  { rewrite (proj2 (Z.eqb_neq _ _) Hrz), (proj2 (Z.eqb_eq _ _) Hrr). cbn [negb andb].
    destruct (live_after_replaced w now now Hok (Z.le_refl _) Hrz) as (w1&->&Hok1&Hc1).
    eexists _, [_]. split; [done|]. split; [done|]. split; [|cbn; rewrite Hc1; tauto]. split; [by left|]. split; [by right|].
    rewrite (slot_some (retiring (sess w))) by done. set_solver. }
  replace (negb (LocalSPI (retiring (sess w)) =? 0) && (RemoteSPI (retiring (sess w)) =? r)) with false
    by (destruct (Z.eqb_spec (LocalSPI (retiring (sess w))) 0), (Z.eqb_spec (RemoteSPI (retiring (sess w))) r); simpl; tauto).
  exists w, []. rewrite app_nil_r. split; [done|]. split; [done|]. split; [|tauto]. split; [by left|]. split; [by left|]. set_solver.
Qed.

Lemma slot_shed (c c' : ChildSA) : c' = c ∨ c' = noChild → slot c' ⊆ slot c.
Proof. intros [->| ->]; [done|]. apply list_subseteq_nil. Qed.

Lemma shed_trans w1 w2 w3 o1 o2 : shed w1 w2 o1 → shed w2 w3 o2 → shed w1 w3 (o1 ++ o2).
Proof.
  intros (Hc1&Hr1&Ho1) (Hc2&Hr2&Ho2). pose proof (slot_shed _ _ Hc1) as Hsc. pose proof (slot_shed _ _ Hr1) as Hsr.
  split; [destruct Hc2 as [->| ->]; auto|]. split; [destruct Hr2 as [->| ->]; auto|].
  intros x [Hx|Hx]%elem_of_app; [by apply Ho1|]. apply Ho2 in Hx. apply elem_of_app in Hx as [Hx|Hx]; apply elem_of_app; auto.
Qed.

(** A Delete never fails; no active SA is one the peer named. *)
Lemma deleteLoop_spec remotes w acc now :
  world_ok now w →
  ∃ w' out, deleteLoop w remotes acc now = (w', Ok (acc ++ out)) ∧ world_ok now w' ∧ shed w w' out ∧
    (LocalSPI (Child (sess w')) ≠ 0 → RemoteSPI (Child (sess w')) ∉ remotes).
Proof.
  revert w acc. induction remotes as [|r rest IH]; intros w acc Hok.
  { exists w, []. rewrite app_nil_r. split; [done|]. split; [done|]. split; [|set_solver]. split; [by left|]. split; [by left|]. set_solver. }
  destruct (delete_turn r rest w acc now Hok) as (w1&o1&->&Hok1&Hs1&Hr1).
  destruct (IH w1 (acc ++ o1) Hok1) as (w'&o2&->&Hok'&Hs2&Hr2). exists w', (o1 ++ o2). rewrite app_assoc.
  split; [done|]. split; [done|]. split; [by eapply shed_trans|]. intros Hne. apply not_elem_of_cons. split; [|by apply Hr2].
  destruct Hs2 as ([Hc|Hc]&_&_); rewrite Hc in *; [by apply Hr1 | done].
Qed.

(** ** Other sessions *)

(** Nothing another mux does to the hub touches this session's SPIs. *)
Definition elsewhere (m : nat) (h h' : Hub) : Prop := ∀ spi, esp h' !! spi = Some m ↔ esp h !! spi = Some m.

Lemma register_elsewhere h k m spi h' : k ≠ m → RegisterESP h k spi = Ok h' → elsewhere m h h'.
Proof.
  intros Hk (_&He&Hn&_)%RegisterESP_inv j. rewrite He. destruct (decide (spi = j)) as [<-|]; [|by rewrite lookup_insert_ne].
  rewrite lookup_insert_eq. destruct Hn as [->| ->]; naive_solver.
Qed.

Lemma unregister_elsewhere h k m spi : k ≠ m → elsewhere m h (UnregisterESP h k spi).
Proof.
  intros Hk j. unfold UnregisterESP, unclaim. simpl. destruct (esp h !! spi) as [o|] eqn:Ho; [|done].
  destruct (Nat.eqb_spec o k) as [->|]; [|done]. rewrite lookup_delete_Some. naive_solver.
Qed.

Lemma close_elsewhere h k m : k ≠ m → elsewhere m h (CloseMux h k).
Proof.
  intros Hk j. unfold CloseMux. destruct (muxes h !! k); [|done]. destruct (muxClosed _); [done|]. simpl.
  rewrite map_lookup_filter_Some. naive_solver.
Qed.

Lemma elsewhere_ok w h' clk : world_ok clk w → elsewhere (mux (sess w)) (hub w) h' → world_ok clk (mkWorld h' (sess w) (tun w)).
Proof. intros [[] Ht] He. split; [|done]. split; try done. intros spi. simpl. by rewrite (He spi). Qed.

Section run.
Context `{CL : CryptoLaws}.

Inductive child_run : Z → World → Prop :=
| cr_open h m child window now w :
    0 ≤ window → (∀ spi, esp h !! spi ≠ Some m) → openSession h m child window now = Ok w → child_run now w
| cr_replace c w child now w' r : child_run c w → c ≤ now → replaceChild w child now = (w', r) → child_run now w'
| cr_retire c w remote now w' r : child_run c w → c ≤ now → retireChild w remote now = (w', r) → child_run now w'
| cr_expire c w now clock w' r : child_run c w → c ≤ clock → now ≤ clock → expireRetiredChildren w now clock = (w', r) → child_run clock w'
| cr_forget c w child now w' r : child_run c w → c ≤ now → forgetChild w child now = (w', r) → child_run now w'
| cr_delete c w remotes now w' r : child_run c w → c ≤ now → deleteChildren w remotes now = (w', r) → child_run now w'
| cr_elsewhere c w h' : child_run c w → elsewhere (mux (sess w)) (hub w) h' → child_run c (mkWorld h' (sess w) (tun w)).

Lemma openSession_ok h m child window now w :
  0 ≤ window → (∀ spi, esp h !! spi ≠ Some m) → openSession h m child window now = Ok w → world_ok now w.
Proof.
  intros HW Hf. unfold openSession, replaceChild. cbn [sess hub tun newSession mux handlers].
  destruct (canReplaceChild _ _) as [[]|e|] eqn:Hcan; [|done..]. destruct (RegisterESP h m (LocalSPI child)) as [h'|e|] eqn:Hreg; [|done..].
  unfold serve. cbn [sess tun hub]. destruct (RegisterESP_inv _ _ _ _ Hreg) as (Hz&He&_&_).
  assert (promote (newSession m) child now = mkSession m child noChild 0 [] (5 * 10 ^ 9) false) as Hp by done.
  rewrite Hp. cbn [Child mux retiring retiringBy retired childRetireDelay].
  intros (t&Hi&[= <-])%bind_ok_inv.
  destruct (install_spec (newTunnel window true) child t) as (Ht&HWt&s'&o&p&Hs&Hos&_&Hspi&Hinb&_); [done..|].
  split; [|split; cbn; try done; by repeat constructor].
  assert (live (mkSession m child noChild 0 [] (5 * 10 ^ 9) true) = [LocalSPI child]) as Hlv
    by (unfold live; cbn [Child retiring retired]; by rewrite (slot_some child)).
  split; cbn [sess hub tun mux Child handlers]; rewrite ?Hlv.
  - done.
  - apply NoDup_singleton.
  - set_solver.
  - intros spi. rewrite He. destruct (decide (spi = LocalSPI child)) as [->|Hne].
    + rewrite lookup_insert_eq. set_solver.
    + rewrite lookup_insert_ne by done. pose proof (Hf spi). set_solver.
  - split; [done|]. by rewrite HWt.
  - exists s'. split; [done|]. split_and!; [|done|naive_solver]. rewrite Hinb, dom_insert_L. set_solver.
Qed.

Lemma child_run_ok c w : child_run c w → world_ok c w.
Proof.
  induction 1 as [h m child window now w HW Hf Ho|c w child now w' r _ IH Hn Hr|c w remote now w' r _ IH Hn Hr
    |c w now clock w' r _ IH Hc Hn Hr|c w child now w' r _ IH Hn Hr|c w remotes now w' r _ IH Hn Hr|c w h' _ IH He].
  - by eapply openSession_ok.
  - pose proof (replaceChild_spec w child now c IH Hn) as Hs. rewrite Hr in Hs.
    destruct r; [by destruct Hs | subst; by apply (world_later c) | done].
  - pose proof (retireChild_spec w remote c now IH Hn) as Hs. rewrite Hr in Hs.
    destruct r; [by destruct Hs | destruct Hs; subst; by apply (world_later c) | done].
  - destruct (expire_spec w now clock c IH Hc Hn) as (w1&He&Hok&_). rewrite Hr in He. by injection He as -> _.
  - pose proof (forgetChild_spec w child c now IH Hn) as Hs. rewrite Hr in Hs.
    destruct r; [by destruct Hs | destruct Hs; subst; by apply (world_later c) | done].
  - destruct (deleteLoop_spec remotes w [] now (world_later c now w Hn IH)) as (w1&out&He&Hok&_). unfold deleteChildren in Hr. rewrite Hr in He.
    by injection He as -> _.
  - by apply elsewhere_ok.
Qed.

(** at every point of a session's life its inbound SPIs - the active Child
    SA's, the replaced one's that awaits its Delete, those that drain - are
    distinct and not zero; the hub delivers to the session exactly these; the
    tunnel has keys for exactly these; and it sends with the active SA and only
    with it. So no packet of the peer is delivered without a key, no key outlives
    its SPI, and an SPI is never reused while its previous keys are installed. *)
Theorem child_sas_in_step c w :
  child_run c w →
  NoDup (live (sess w)) ∧ (0 ∉ live (sess w)) ∧ tunnel_ok (tun w) ∧
  (∀ spi, esp (hub w) !! spi = Some (mux (sess w)) ↔ spi ∈ live (sess w)) ∧
  ∃ sa, sas (tun w) = Some sa ∧ (∀ spi, is_Some (inbound sa !! spi) ↔ spi ∈ live (sess w)) ∧
    outboundSPI sa = LocalSPI (Child (sess w)) ∧ (outbound sa = None ↔ LocalSPI (Child (sess w)) = 0).
Proof.
  intros [[_ Hnd Hz Hh [Ht _] (sa&Hs&Hd&Ho&Hn)] _]%child_run_ok. split_and!; try done. exists sa. split_and!; try done; try apply Hn.
  intros spi. rewrite <- elem_of_dom, Hd. apply elem_of_list_to_set.
Qed.

(** C23: what can go wrong, and what it leaves. Taking SAs out never fails: the
    timer and a Delete always succeed, whatever SPIs the peer names, and after a
    Delete the active SA is none it named. Retiring and forgetting refuse only an
    SA that is not the one they were asked for; they and a refused replacement -
    the SPI in use here or elsewhere, an earlier SA still waiting, keys that do
    not fit the cipher - change nothing at all. Nothing panics. *)
Theorem child_ops_atomic c w now :
  child_run c w → c ≤ now →
  (∀ child, match replaceChild w child now with (w', Ok _) => Child (sess w') = child | (w', Err _) => w' = w | (_, Panic) => False end) ∧
  (∀ remote, match retireChild w remote now with
             | (w', Ok _) => LocalSPI (retiring (sess w')) = 0
             | (w', Err _) => w' = w ∧ RemoteSPI (retiring (sess w)) ≠ remote
             | (_, Panic) => False end) ∧
  (∀ child, match forgetChild w child now with
            | (w', Ok _) => LocalSPI (Child (sess w')) = 0
            | (w', Err _) => w' = w ∧ (LocalSPI child, RemoteSPI child) ≠ (LocalSPI (Child (sess w)), RemoteSPI (Child (sess w)))
            | (_, Panic) => False end) ∧
  (∀ remotes, ∃ w' out, deleteChildren w remotes now = (w', Ok out) ∧ out ⊆ live (sess w) ∧
    (LocalSPI (Child (sess w')) ≠ 0 → RemoteSPI (Child (sess w')) ∉ remotes)) ∧
  (∃ w', expireRetiredChildren w now now = (w', Ok ())).
Proof.
  intros Hok%child_run_ok Hn. split_and!.
  - intros child. pose proof (replaceChild_spec w child now c Hok Hn) as Hs.
    destruct (replaceChild w child now) as [w' [[]| |]]; [by destruct Hs as (_&?&_)|done|done].
  - intros remote. pose proof (retireChild_spec w remote c now Hok Hn) as Hs.
    destruct (retireChild w remote now) as [w' [[]| |]]; [by destruct Hs as (_&?&_)|done|done].
  - intros child. pose proof (forgetChild_spec w child c now Hok Hn) as Hs.
    destruct (forgetChild w child now) as [w' [[]| |]]; [by destruct Hs|done|done].
  - intros remotes. destruct (deleteLoop_spec remotes w [] now (world_later c now w Hn Hok)) as (w'&out&Hd&_&(_&_&Ho)&Hr).
    exists w', out. split; [done|]. split; [|done]. intros x Hx. apply Ho in Hx. unfold live. set_solver.
  - destruct (expire_spec w now now c Hok Hn (Z.le_refl _)) as (w'&He&_). by exists w'.
Qed.

(** The times at which the session has something to do. *)
Definition deadlines (s : Session) : list Z :=
  (if LocalSPI (retiring s) =? 0 then [] else [retiringBy s]) ++ (retired s).*2.

Lemma nextRetirement_min s : StronglySorted Z.le (retired s).*2 →
  match nextRetirement s with Some d => d ∈ deadlines s ∧ Forall (Z.le d) (deadlines s) | None => deadlines s = [] end.
Proof.
  intros Hs. unfold nextRetirement, deadlines.
  destruct (retired s) as [|r l]; simpl in *; destruct (Z.eqb_spec (LocalSPI (retiring s)) 0); simpl; try done.
  - split; [set_solver|]. by repeat constructor.
  - apply StronglySorted_inv in Hs as [_ Hs]. split; [set_solver|]. by constructor.
  - apply StronglySorted_inv in Hs as [_ Hs]. destruct (Z.ltb_spec (retiringBy s) r.2).
    + split; [set_solver|]. repeat constructor; try lia. eapply Forall_impl; [exact Hs|]. simpl. lia.
    + split; [set_solver|]. repeat constructor; try lia. done.
Qed.

(** the timer is exact and a rekey is never locked out for long. The control
    loop's next wake-up is the earliest deadline of the session; once the timer
    has run at [now], every deadline left is later than [now], so it never spins;
    and a replaced SA the peer never deletes blocks the next rekey for thirty
    seconds at most, after which any SPI not in use is accepted. *)
Theorem rekey_lockout_bounded c w now :
  child_run c w → c ≤ now →
  match nextRetirement (sess w) with
  | Some d => d ∈ deadlines (sess w) ∧ Forall (Z.le d) (deadlines (sess w))
  | None => deadlines (sess w) = []
  end ∧
  ∃ w', expireRetiredChildren w now now = (w', Ok ()) ∧ Forall (Z.lt now) (deadlines (sess w')) ∧
    (c + retirementDeadline ≤ now → ∀ spi, spi ≠ 0 → spi ∉ live (sess w') → canReplaceChild (sess w') spi = Ok ()).
Proof.
  intros Hok%child_run_ok Hn. split; [apply nextRetirement_min, Hok|].
  destruct (expire_spec w now now c Hok Hn (Z.le_refl _)) as (w'&He&Hok'&_&Hr&Hf). exists w'. split; [done|]. split.
  - unfold deadlines. apply Forall_app. split; [|by rewrite Forall_fmap].
    destruct (Z.eqb_spec (LocalSPI (retiring (sess w'))) 0); [constructor|]. apply Forall_singleton. by apply Hr.
  - intros Hlate spi Hz Hni. apply canReplace_fresh; [done|]. split; [|done].
    destruct (decide (LocalSPI (retiring (sess w')) = 0)) as [|Hne]; [done|]. specialize (Hr Hne). lia.
Qed.

End run.

(** ** Witnesses *)

Definition bump (c : ChildSA) (k : Z) : ChildSA :=
  mkChildSA (EncrID c) (EncrKeyBits c) (LocalSPI c + k) (RemoteSPI c + k) (InboundKey c) (OutboundKey c).

Definition h0 : Hub := match NewMux newHub (Some 7) with Ok h => h | _ => newHub end.

Definition wOpen : World := match openSession h0 0 alice 64 0 with Ok w => w | _ => mkWorld h0 (newSession 0) (newTunnel 64 true) end.

(** A rekey ten seconds in: SPI 17 awaits its Delete, 18 is active. *)
Definition wRekeyed : World := (replaceChild wOpen (bump alice 1) (10 * 10 ^ 9)).1.

Lemma wOpen_opens : openSession h0 0 alice 64 0 = Ok wOpen.
Proof.
  assert (is_ok (openSession h0 0 alice 64 0) = true) as H by (vm_compute; reflexivity).
  unfold wOpen. destruct (openSession h0 0 alice 64 0); [done..|discriminate H].
Defined.

Lemma wRekeyed_run : child_run (10 * 10 ^ 9) wRekeyed.
Proof.
  apply (cr_replace 0 wOpen (bump alice 1) (10 * 10 ^ 9) wRekeyed (replaceChild wOpen (bump alice 1) (10 * 10 ^ 9)).2); [|lia|apply surjective_pairing].
  apply (cr_open h0 0 alice 64 0); [lia | intros spi; change (esp h0) with (∅ : gmap Z nat); by rewrite lookup_empty | apply wOpen_opens].
Defined.

Lemma child_sas_in_step_witness :
  live (sess wRekeyed) = [18; 17] ∧ NoDup (live (sess wRekeyed)) ∧ esp (hub wRekeyed) !! 17 = Some 0%nat.
Proof.
  destruct (child_sas_in_step (10 * 10 ^ 9) wRekeyed wRekeyed_run) as (Hnd&_&_&Hh&_). split; [vm_compute; reflexivity|]. split; [exact Hnd|].
  apply (Hh 17). apply (bool_decide_unpack _). vm_compute. reflexivity.
Defined.

(** The peer deletes SPI 17's pair and names one nobody has. *)
Lemma child_ops_atomic_witness :
  ∃ w' out, deleteChildren wRekeyed [258; 999] (11 * 10 ^ 9) = (w', Ok out) ∧ out ⊆ [18; 17].
Proof.
  destruct (child_ops_atomic (10 * 10 ^ 9) wRekeyed (11 * 10 ^ 9) wRekeyed_run ltac:(lia)) as (_&_&_&Hd&_).
  destruct (Hd [258; 999]) as (w'&out&He&Ho&_). exists w', out. split; [exact He|].
  assert (live (sess wRekeyed) = [18; 17]) as <- by (vm_compute; reflexivity). exact Ho.
Defined.

Lemma rekey_lockout_bounded_witness :
  ∃ w', expireRetiredChildren wRekeyed (40 * 10 ^ 9) (40 * 10 ^ 9) = (w', Ok ()) ∧ canReplaceChild (sess w') 19 = Ok ().
Proof.
  destruct (rekey_lockout_bounded (10 * 10 ^ 9) wRekeyed (40 * 10 ^ 9) wRekeyed_run ltac:(lia)) as (_&w'&He&_&Hc).
  exists w'. split; [exact He|]. apply Hc; [vm_compute; congruence | lia |].
  assert (w' = (expireRetiredChildren wRekeyed (40 * 10 ^ 9) (40 * 10 ^ 9)).1) as -> by (by rewrite He).
  apply (bool_decide_unpack _). vm_compute. reflexivity.
Defined.
