(* ===== verification/IkeSession.v ===== *)
(** * An IKE session and its SAs, ike/initiator.go and ike/liveness.go

    A session keeps up to three IKE SAs: the current one, one that a rekeying
    replaced and that waits for its Delete, and the loser of a simultaneous
    rekeying. Every one is a pointer into [ctxs]; its initiator SPI is routed to
    the session's mux for as long as one of the three holds it. Child SAs, the hub
    and the tunnel are the world of IkeChild. Times are nanoseconds, the zero time
    is 0; [now] is the clock at the call. *)

From stdpp Require Import functions.
From S2P Require Import Prelude Netip Store Esp IkeMessage IkePayload IkeSa IkeSk IkeProposal TransHub Tunnel IkeChild.

Definition Second_ : Z := 10 ^ 9.

(** ** Data *)

Record ikeContext := mkContext {
  cxSuite : SASuite;
  skD : list Z;
  skei : list Z;
  sker : list Z;
  skpi : list Z;
  skpr : list Z;
  spiI : Z;
  spiR : Z;
  responder : bool;
  sendIV : Z;
  nextLocalMID : Z;
  nextPeerMID : Z;
  lastPeerResponseID : Z;
  lastPeerResponse : list Z
}.

Record ikeRekey := mkRekey {
  rkOld : nat;
  rkSpiI : Z;
  rkNonce : list Z;
  peerNonce : list Z;
  peerResponseNonce : list Z
}.

Record ikeSession := mkIke {
  world : World;
  ctxs : nat → ikeContext;
  nctx : nat;
  current : nat;
  old : option nat;
  collision : option nat;
  oldBy : Z;
  collisionBy : Z;
  localRekey : option ikeRekey;
  childRekeying : bool;
  lastPeerChildRekey : Z;
  lastPeerIKERekey : Z;
  started : Z
}.

Definition muxOf (s : ikeSession) : nat := mux (sess (world s)).

Definition set_world (s : ikeSession) (w : World) : ikeSession :=
  mkIke w (ctxs s) (nctx s) (current s) (old s) (collision s) (oldBy s) (collisionBy s) (localRekey s) (childRekeying s)
    (lastPeerChildRekey s) (lastPeerIKERekey s) (started s).
Definition set_ctxs (s : ikeSession) (c : nat → ikeContext) : ikeSession :=
  mkIke (world s) c (nctx s) (current s) (old s) (collision s) (oldBy s) (collisionBy s) (localRekey s) (childRekeying s)
    (lastPeerChildRekey s) (lastPeerIKERekey s) (started s).
Definition set_current (s : ikeSession) (c : nat) : ikeSession :=
  mkIke (world s) (ctxs s) (nctx s) c (old s) (collision s) (oldBy s) (collisionBy s) (localRekey s) (childRekeying s)
    (lastPeerChildRekey s) (lastPeerIKERekey s) (started s).
Definition set_old (s : ikeSession) (o : option nat) (by_ : Z) : ikeSession :=
  mkIke (world s) (ctxs s) (nctx s) (current s) o (collision s) by_ (collisionBy s) (localRekey s) (childRekeying s)
    (lastPeerChildRekey s) (lastPeerIKERekey s) (started s).
Definition set_collision (s : ikeSession) (c : option nat) (by_ : Z) : ikeSession :=
  mkIke (world s) (ctxs s) (nctx s) (current s) (old s) c (oldBy s) by_ (localRekey s) (childRekeying s)
    (lastPeerChildRekey s) (lastPeerIKERekey s) (started s).
Definition set_localRekey (s : ikeSession) (r : option ikeRekey) : ikeSession :=
  mkIke (world s) (ctxs s) (nctx s) (current s) (old s) (collision s) (oldBy s) (collisionBy s) r (childRekeying s)
    (lastPeerChildRekey s) (lastPeerIKERekey s) (started s).
Definition set_childRekeying (s : ikeSession) (b : bool) : ikeSession :=
  mkIke (world s) (ctxs s) (nctx s) (current s) (old s) (collision s) (oldBy s) (collisionBy s) (localRekey s) b
    (lastPeerChildRekey s) (lastPeerIKERekey s) (started s).
Definition set_lastRekeys (s : ikeSession) (child ike : Z) : ikeSession :=
  mkIke (world s) (ctxs s) (nctx s) (current s) (old s) (collision s) (oldBy s) (collisionBy s) (localRekey s) (childRekeying s)
    child ike (started s).

(** [&ikeContext{...}] *)
Definition newContext (s : ikeSession) (c : ikeContext) : ikeSession * nat :=
  (mkIke (world s) (<[nctx s := c]> (ctxs s)) (S (nctx s)) (current s) (old s) (collision s) (oldBy s) (collisionBy s) (localRekey s)
     (childRekeying s) (lastPeerChildRekey s) (lastPeerIKERekey s) (started s), nctx s).

(** A write through the pointer [c]. *)
Definition onContext (s : ikeSession) (c : nat) (f : ikeContext → ikeContext) : ikeSession :=
  set_ctxs s (<[c := f (ctxs s c)]> (ctxs s)).

Definition set_sendIV (x : ikeContext) (v : Z) : ikeContext :=
  mkContext (cxSuite x) (skD x) (skei x) (sker x) (skpi x) (skpr x) (spiI x) (spiR x) (responder x) v (nextLocalMID x)
    (nextPeerMID x) (lastPeerResponseID x) (lastPeerResponse x).
Definition set_localMID (x : ikeContext) (v : Z) : ikeContext :=
  mkContext (cxSuite x) (skD x) (skei x) (sker x) (skpi x) (skpr x) (spiI x) (spiR x) (responder x) (sendIV x) v
    (nextPeerMID x) (lastPeerResponseID x) (lastPeerResponse x).
Definition set_answered (x : ikeContext) (mid id : Z) (raw : list Z) : ikeContext :=
  mkContext (cxSuite x) (skD x) (skei x) (sker x) (skpi x) (skpr x) (spiI x) (spiR x) (responder x) (sendIV x) (nextLocalMID x)
    mid id raw.

Definition onHub (s : ikeSession) (f : Hub → Hub) : ikeSession :=
  set_world s (IkeChild.mkWorld (f (hub (world s))) (sess (world s)) (tun (world s))).

(** [s.mux.Close()] *)
Definition closeSession (s : ikeSession) : ikeSession := onHub s (λ h, CloseMux h (muxOf s)).

(** ** The SAs a session holds *)

Definition retainedContextDeadline : Z := 120 * Second_.

(** [{s.current, s.old, s.collision}], without the nil ones. *)
Definition held (s : ikeSession) : list nat := current s :: option_list (old s) ++ option_list (collision s).

Definition routedLocked (s : ikeSession) (spi : Z) : bool := existsb (λ c, spiI (ctxs s c) =? spi) (held s).

Definition releaseSPILocked (s : ikeSession) (spi : Z) : ikeSession :=
  if routedLocked s spi then s else onHub s (λ h, UnregisterIKE h (muxOf s) spi).

Definition releaseDisplacedLocked (s : ikeSession) (displaced : option nat) : ikeSession :=
  match displaced with
  | None => s
  | Some d => if routedLocked s (spiI (ctxs s d)) then s else releaseSPILocked s (spiI (ctxs s d))
  end.

Definition retainOldLocked (s : ikeSession) (ctx : nat) (now : Z) : ikeSession :=
  releaseDisplacedLocked (set_old s (Some ctx) (now + retainedContextDeadline)) (old s).

Definition retainCollisionLocked (s : ikeSession) (ctx : nat) (now : Z) : ikeSession :=
  releaseDisplacedLocked (set_collision s (Some ctx) (now + retainedContextDeadline)) (collision s).

(** What becomes of one retained SA: its pointer, its deadline, and whether it is
    dropped. *)
Definition expireHeld (ctx : option nat) (by_ now : Z) : option nat * Z * list nat :=
  match ctx with
  | None => (None, by_, [])
  | Some c =>
      if by_ =? 0 then (Some c, now + retainedContextDeadline, [])
      else if negb (now <? by_) then (None, by_, [c]) else (Some c, by_, [])
  end.

Definition expireRetainedContexts (s : ikeSession) (now : Z) : ikeSession :=
  let '(o, ob, d1) := expireHeld (old s) (oldBy s) now in
  let '(c, cb, d2) := expireHeld (collision s) (collisionBy s) now in
  let s := set_collision (set_old s o ob) c cb in
  fold_left (λ s ctx, releaseSPILocked s (spiI (ctxs s ctx))) (d1 ++ d2) s.

(** [None] is the zero time. *)
Definition nextRetainedExpiry (s : ikeSession) : option Z :=
  let earliest := match old s with Some _ => oldBy s | None => 0 end in
  let earliest := match collision s with
                  | Some _ => if negb (collisionBy s =? 0) && ((earliest =? 0) || (collisionBy s <? earliest))
                              then collisionBy s else earliest
                  | None => earliest end in
  if earliest =? 0 then None else Some earliest.

Definition removeRetainedContext (s : ikeSession) (ctx : nat) : ikeSession * bool :=
  if bool_decide (old s = Some ctx) then (releaseSPILocked (set_old s None (oldBy s)) (spiI (ctxs s ctx)), true)
  else if bool_decide (collision s = Some ctx)
  then (releaseSPILocked (set_collision s None (collisionBy s)) (spiI (ctxs s ctx)), true)
  else (s, false).

Definition adoptCollisionOnPeerDelete (s : ikeSession) (ctx : nat) : ikeSession * bool :=
  match collision s, localRekey s with
  | Some c, Some _ =>
      if negb (ctx =? current s)%nat then (s, false)
      else (releaseSPILocked (set_localRekey (set_collision (set_current s c) None (collisionBy s)) None) (spiI (ctxs s ctx)), true)
  | _, _ => (s, false)
  end.

Definition contextRetired (s : ikeSession) (ctx : nat) : bool :=
  negb (ctx =? current s)%nat && negb (bool_decide (old s = Some ctx)) && negb (bool_decide (collision s = Some ctx)).

Definition contextForHeader (s : ikeSession) (hdr : Header) : option nat :=
  List.find (λ c, (SPIInitiator hdr =? spiI (ctxs s c)) && (SPIResponder hdr =? spiR (ctxs s c))) (held s).

(** ** Rate limits of the peer's rekeyings *)

Definition minPeerChildRekeyInterval : Z := Second_.
Definition minPeerIKERekeyInterval : Z := Second_.

(** Whether the peer may rekey, and the last time one was allowed, one nanosecond
    up so that zero says never. *)
Definition allowPeerRekey (last started interval now : Z) : bool * Z :=
  let now := now - started in
  if negb (last =? 0) && (now - (last - 1) <? interval) then (false, last) else (true, now + 1).

Definition allowPeerChildRekey (s : ikeSession) (now : Z) : bool * ikeSession :=
  let '(ok, last) := allowPeerRekey (lastPeerChildRekey s) (started s) minPeerChildRekeyInterval now in
  (ok, set_lastRekeys s last (lastPeerIKERekey s)).

Definition allowPeerIKERekey (s : ikeSession) (now : Z) : bool * ikeSession :=
  let '(ok, last) := allowPeerRekey (lastPeerIKERekey s) (started s) minPeerIKERekeyInterval now in
  (ok, set_lastRekeys s (lastPeerChildRekey s) last).

(** ** Keys of a context *)

Definition localEncryptionKey (x : ikeContext) : list Z := if responder x then sker x else skei x.
Definition peerEncryptionKey (x : ikeContext) : list Z := if responder x then skei x else sker x.

(** ** Diffie-Hellman, ike/crypto.go *)

(** Package crypto/ecdh: a private key drawn with some randomness, the bytes of
    its public key, and the shared secret with the bytes of another's. Curves are
    known by their group. *)
Class ECDH := {
  GenerateKey : Z → list Z → list Z;
  PublicKeyBytes : Z → list Z → list Z;
  ECDHShared : Z → list Z → list Z → res (list Z)
}.

(** Two key pairs of a curve share a secret; a public key of a NIST curve starts
    with the byte of an uncompressed point; a bad public key is an error. *)
Class ECDHLaws (E : ECDH) : Prop := {
  ecdh_agree : ∀ g a b, ∃ z, ECDHShared g (GenerateKey g a) (PublicKeyBytes g (GenerateKey g b)) = Ok z ∧
    ECDHShared g (GenerateKey g b) (PublicKeyBytes g (GenerateKey g a)) = Ok z;
  ecdh_point : ∀ g a, g ≠ DH_CURVE25519 → ∃ xy, PublicKeyBytes g (GenerateKey g a) = 4 :: xy;
  ecdh_public : ∀ g a, bytes_ok (PublicKeyBytes g (GenerateKey g a)) ∧ (1 < length (PublicKeyBytes g (GenerateKey g a)) < 200)%nat;
  ecdh_safe : ∀ g k p, safe (ECDHShared g k p)
}.

Record DHKeyPair := mkDH { Group : Z; priv : list Z }.

Section dh.
Context {E : ECDH}.

Definition GenerateDH (group : Z) (random : list Z) : res DHKeyPair :=
  if (group =? DH_CURVE25519) || (group =? DH_ECP_256) || (group =? DH_ECP_384)
  then Ok (mkDH group (GenerateKey group random))
  else Err "ike: unsupported DH group".

Definition PublicBytes (kp : DHKeyPair) : res (list Z) :=
  let b := PublicKeyBytes (Group kp) (priv kp) in
  if Group kp =? DH_CURVE25519 then Ok b else from b 1.

Definition SharedSecret (kp : DHKeyPair) (peerPublic : list Z) : res (list Z) :=
  ECDHShared (Group kp) (priv kp) (if Group kp =? DH_CURVE25519 then peerPublic else 4 :: peerPublic).

End dh.
