(* ===== verification/IkeServe.v ===== *)
(** * Answering a peer: ike/liveness.go, child_rekey.go and ike_rekey.go

    The handlers of a peer's requests to rekey a Child SA or the IKE SA. A handler's
    answer is the response and the error Go returns with it. What is drawn at random
    is an argument, [entropy]. *)

From stdpp Require Import functions.
From S2P Require Import Prelude Netip Store Esp IkeMessage IkePayload IkeSa IkeSk IkeProposal TransHub Tunnel IkeChild IkeSession.

Definition maxMessageID : Z := 2 ^ 32 - 1.

Definition N_UNSUPPORTED_CRITICAL_PAYLOAD : Z := 1.
Definition N_INVALID_SYNTAX : Z := 7.
Definition N_NO_PROPOSAL_CHOSEN : Z := 14.
Definition N_INVALID_KE_PAYLOAD : Z := 17.
Definition N_NO_ADDITIONAL_SAS : Z := 35.
Definition N_TEMPORARY_FAILURE : Z := 43.
Definition N_CHILD_SA_NOT_FOUND : Z := 44.

Definition supportedPayloadType (t : Z) : bool :=
  bool_decide (t ∈ [PayloadSA; PayloadKE; PayloadIDi; PayloadIDr; PayloadAUTH; PayloadNonce; PayloadN; PayloadD; PayloadTSi; PayloadTSr]).

(** [([]byte, error)], where both may be set. *)
Definition answer : Type := option (list Z) * option string.

(** What a handler draws: the randomness of a key pair, a nonce, and SPIs that are
    drawn again while they are zero. *)
Record entropy := mkEntropy { enDH : list Z; enNonce : list Z; enSPI32 : Z; enSPI64 : Z }.

Definition nilBody (p : option RawPayload) : list Z := match p with Some p => Body p | None => [] end.

Section serve.
Context {C : Crypto} {H : Hmac} {E : ECDH}.

(** ** Responses *)

Definition responseFlags (x : ikeContext) : Z := if responder x then FlagResponse else Z.lor FlagResponse FlagInitiator.
Definition requestFlags (x : ikeContext) : Z := if responder x then 0 else FlagInitiator.

Definition response (s : ikeSession) (ctx : nat) (msgID exchange : Z) (inner : list RawPayload) : ikeSession * res answer :=
  let x := ctxs s ctx in
  let hdr := mkHeader (spiI x) (spiR x) 0 0 0 exchange (responseFlags x) msgID 0 in
  let '(iv, raw) := encrypt (cxSuite x) (sendIV x) (localEncryptionKey x) hdr [] inner in
  (onContext s ctx (λ x, set_sendIV x iv),
   match raw with
   | Ok raw => Ok (Some raw, None)
   | Err e => Ok (None, Some ("ike: build response: " +:+ e))
   | Panic => Panic
   end).

Definition notifyPayload (n : Notify) : RawPayload := mkPayload PayloadN false (EncodeNotify n).

Definition responseNotifyData (s : ikeSession) (ctx : nat) (msgID exchange notifyType : Z) (data : list Z) : ikeSession * res answer :=
  response s ctx msgID exchange [notifyPayload (mkNotify 0 [] notifyType data)].

Definition responseNotify (s : ikeSession) (ctx : nat) (msgID exchange notifyType : Z) : ikeSession * res answer :=
  responseNotifyData s ctx msgID exchange notifyType [].

Definition responseNotifySA (s : ikeSession) (ctx : nat) (msgID exchange notifyType protocol : Z) (spi : list Z) : ikeSession * res answer :=
  response s ctx msgID exchange [notifyPayload (mkNotify protocol spi notifyType [])].

Definition invalidKENotifyData (group : Z) : list Z := be_to 2 group.

(** ** handleChildRekey *)

(** The last REKEY_SA notify of a request. *)
Fixpoint findRekey (inner : list RawPayload) (rekey : option Notify) : res (option Notify) :=
  match inner with
  | [] => Ok rekey
  | p :: rest =>
      if negb (Type_ p =? PayloadN) then findRekey rest rekey
      else n ← DecodeNotify (Body p); findRekey rest (if nType n =? N_REKEY_SA then Some n else rekey)
  end.

(** What the selected DH transform adds to the keys, and to the response. *)
Definition childSecret (sel : childProposalSelection) (peerPublic random : list Z) : res (option (list Z * option (list Z))) :=
  if negb (trID (selDH sel) =? 0) then
    dh ← GenerateDH (trID (selDH sel)) random;
    match SharedSecret dh peerPublic with
    | Ok z => pub ← PublicBytes dh; Ok (Some (z, Some pub))
    | Err _ => Ok None
    | Panic => Panic
    end
  else Ok (Some ([], None)).

(** From the selection on: the keys, the Child SA and the response. *)
Definition installChild (s : ikeSession) (ctx : nat) (msgID : Z) (payloads : childExchangePayloads) (sel : childProposalSelection)
    (sharedSecret : list Z) (localPublic : option (list Z)) (ent : entropy) (now : Z) : ikeSession * res answer :=
  let x := ctxs s ctx in
  let encr := selEncryption sel in
  let spi := be_to 4 (enSPI32 ent) in
  match childSAKeymat (suPRFID (cxSuite x)) (skD x) sharedSecret (nilBody (cxNonce payloads)) (enNonce ent) (trID encr) (KeyLengthBits encr) with
  | Ok (initKey, respKey) =>
      match replaceChild (world s) (mkChildSA (trID encr) (KeyLengthBits encr) (enSPI32 ent) (selRemoteSPI sel) initKey respKey) now with
      | (w, Ok _) =>
          response (set_world s w) ctx msgID CREATE_CHILD_SA
            ([mkPayload PayloadSA false (EncodeSA [rekeyAnswer sel spi]); mkPayload PayloadNonce false (EncodeNonce (enNonce ent))]
             ++ match localPublic with Some pub => [mkPayload PayloadKE false (EncodeKE (trID (selDH sel)) pub)] | None => [] end
             ++ [mkPayload PayloadTSi false (nilBody (cxTSi payloads)); mkPayload PayloadTSr false (nilBody (cxTSr payloads))])
      | (w, Err _) => responseNotify (set_world s w) ctx msgID CREATE_CHILD_SA N_TEMPORARY_FAILURE
      | (w, Panic) => (set_world s w, Panic)
      end
  | Err _ => responseNotify s ctx msgID CREATE_CHILD_SA N_TEMPORARY_FAILURE
  | Panic => (s, Panic)
  end.

(** The group and public value of the KE payload, zero and nil without one;
    [None] is refused. *)
Definition childKE (payloads : childExchangePayloads) : res (option (Z * list Z)) :=
  match cxKE payloads with
  | None => Ok (Some (0, []))
  | Some ke =>
      match DecodeKE (Body ke) with
      | Ok (group, pub) => Ok (if group =? 0 then None else Some (group, pub))
      | Err _ => Ok None
      | Panic => Panic
      end
  end.

(** From the selectors on, with the Child SA that is rekeyed. *)
Definition selectChildAnswer (s : ikeSession) (ctx : nat) (msgID : Z) (payloads : childExchangePayloads) (expected : option ChildSA)
    (ent : entropy) (now : Z) : ikeSession * res answer :=
  let refuse t := responseNotify s ctx msgID CREATE_CHILD_SA t in
  match validateFullRangeSelectors (cxTSi payloads) (cxTSr payloads) with
  | Panic => (s, Panic)
  | Err _ => refuse N_NO_PROPOSAL_CHOSEN
  | Ok _ =>
      match childKE payloads with
      | Panic => (s, Panic)
      | Err _ | Ok None => refuse N_NO_PROPOSAL_CHOSEN
      | Ok (Some (group, peerPublic)) =>
          match selectChildRequestProposal (nilBody (cxSA payloads)) expected group with
          | Panic => (s, Panic)
          | Err _ => refuse N_NO_PROPOSAL_CHOSEN
          | Ok (InvalidKE g) => responseNotifyData s ctx msgID CREATE_CHILD_SA N_INVALID_KE_PAYLOAD (invalidKENotifyData g)
          | Ok (Selected sel) =>
              match childSecret sel peerPublic (enDH ent) with
              | Panic => (s, Panic)
              | Err _ => refuse N_TEMPORARY_FAILURE
              | Ok None => refuse N_NO_PROPOSAL_CHOSEN
              | Ok (Some (z, pub)) => installChild s ctx msgID payloads sel z pub ent now
              end
          end
      end
  end.

Definition handleChildRekey (s : ikeSession) (ctx : nat) (msgID : Z) (inner : list RawPayload) (ent : entropy) (now : Z) :
    ikeSession * res answer :=
  let refuse t := responseNotify s ctx msgID CREATE_CHILD_SA t in
  if negb (ctx =? current s)%nat || negb (bool_decide (localRekey s = None)) || negb (LocalSPI (retiring (sess (world s))) =? 0)
  then refuse N_TEMPORARY_FAILURE
  else
    match findRekey inner None with
    | Panic => (s, Panic)
    | Err _ => refuse N_NO_PROPOSAL_CHOSEN
    | Ok rekey =>
        let child := Child (sess (world s)) in
        if bool_decide (rekey = None) && (negb (LocalSPI child =? 0) || negb (RemoteSPI child =? 0)) then refuse N_NO_ADDITIONAL_SAS
        else
          match decodeChildExchangePayloads inner (suPRFID (cxSuite (ctxs s ctx))) with
          | Panic => (s, Panic)
          | Err _ => refuse N_NO_PROPOSAL_CHOSEN
          | Ok payloads =>
              match rekey with
              | None => selectChildAnswer s ctx msgID payloads None ent now
              | Some n =>
                  if childRekeying s then refuse N_TEMPORARY_FAILURE
                  else if negb (nProtocol n =? ProtoESP) || negb (length (nSPI n) =? 4)%nat then refuse N_NO_PROPOSAL_CHOSEN
                  else if (LocalSPI child =? 0) || negb (be_of (nSPI n) =? RemoteSPI child)
                  then responseNotifySA s ctx msgID CREATE_CHILD_SA N_CHILD_SA_NOT_FOUND (nProtocol n) (nSPI n)
                  else
                    match allowPeerChildRekey s now with
                    | (false, s) => responseNotify s ctx msgID CREATE_CHILD_SA N_TEMPORARY_FAILURE
                    | (true, s) => selectChildAnswer s ctx msgID payloads (Some child) ent now
                    end
              end
          end
    end.

(** ** handleIKERekey *)

(** The one SA, nonce and KE payload of a request; [None] is refused. *)
Fixpoint rekeyPayloads (inner : list RawPayload) (sa nonce ke : option RawPayload) : option (RawPayload * RawPayload * RawPayload) :=
  match inner with
  | [] => match sa, nonce, ke with Some a, Some b, Some c => Some (a, b, c) | _, _, _ => None end
  | p :: rest =>
      if Type_ p =? PayloadSA then match sa with Some _ => None | None => rekeyPayloads rest (Some p) nonce ke end
      else if Type_ p =? PayloadNonce then match nonce with Some _ => None | None => rekeyPayloads rest sa (Some p) ke end
      else if Type_ p =? PayloadKE then match ke with Some _ => None | None => rekeyPayloads rest sa nonce (Some p) end
      else if (Type_ p =? PayloadTSi) || (Type_ p =? PayloadTSr) then None
      else rekeyPayloads rest sa nonce ke
  end.

(** From the selection on: the keys, the new SA and the response. *)
Definition installIKE (s : ikeSession) (ctx : nat) (msgID : Z) (nonce : list Z) (group : Z) (peerPublic : list Z)
    (selected : list Transform) (suite : SASuite) (p : Proposal) (ent : entropy) (now : Z) : ikeSession * res answer :=
  let refuse t := responseNotify s ctx msgID CREATE_CHILD_SA t in
  let x := ctxs s ctx in
  let spi := be_of (SPI p) in
  let taken := routedLocked s spi || match localRekey s with Some r => rkSpiI r =? spi | None => false end in
  if taken || (spi =? spiI x) || (spi =? spiR x) then refuse N_NO_PROPOSAL_CHOSEN
  else
    match GenerateDH group (enDH ent) with
    | Panic => (s, Panic)
    | Err _ => refuse N_TEMPORARY_FAILURE
    | Ok dh =>
        match SharedSecret dh peerPublic with
        | Panic => (s, Panic)
        | Err _ => refuse N_NO_PROPOSAL_CHOSEN
        | Ok shared =>
            match DeriveRekeyedIKEKeys (suPRFID (cxSuite x)) (skD x) suite shared nonce (enNonce ent) spi (enSPI64 ent) with
            | Panic => (s, Panic)
            | Err _ => refuse N_TEMPORARY_FAILURE
            | Ok keys =>
                match RegisterIKE (hub (world s)) (muxOf s) spi with
                | Panic => (s, Panic)
                | Err _ => refuse N_TEMPORARY_FAILURE
                | Ok h =>
                    let s := onHub s (λ _, h) in
                    let '(s, c) := newContext s (mkContext suite (SKd keys) (SKei keys) (SKer keys) (SKpi keys) (SKpr keys)
                                     spi (enSPI64 ent) true 0 0 0 0 []) in
                    let s := match localRekey s with
                             | Some r => if (rkOld r =? ctx)%nat
                                         then retainCollisionLocked
                                                (set_localRekey s (Some (mkRekey (rkOld r) (rkSpiI r) (rkNonce r) nonce (enNonce ent)))) c now
                                         else set_current (retainOldLocked s ctx now) c
                             | None => set_current (retainOldLocked s ctx now) c
                             end in
                    match PublicBytes dh with
                    | Ok pub =>
                        response s ctx msgID CREATE_CHILD_SA
                          [mkPayload PayloadSA false (EncodeSA [mkProposal (Number p) ProtoIKE (be_to 8 (enSPI64 ent)) selected]);
                           mkPayload PayloadNonce false (EncodeNonce (enNonce ent)); mkPayload PayloadKE false (EncodeKE group pub)]
                    | _ => (s, Panic)
                    end
                end
            end
        end
    end.

Definition handleIKERekey (s : ikeSession) (ctx : nat) (msgID : Z) (inner : list RawPayload) (ent : entropy) (now : Z) :
    ikeSession * res answer :=
  let refuse s t := responseNotify s ctx msgID CREATE_CHILD_SA t in
  let accept := (ctx =? current s)%nat && (bool_decide (old s = None) || negb (bool_decide (localRekey s = None)))
                && bool_decide (collision s = None) in
  if negb accept || childRekeying s || negb (LocalSPI (retiring (sess (world s))) =? 0) then refuse s N_TEMPORARY_FAILURE
  else
    match allowPeerIKERekey s now with
    | (false, s) => refuse s N_TEMPORARY_FAILURE
    | (true, s) =>
        match rekeyPayloads inner None None None with
        | None => refuse s N_NO_PROPOSAL_CHOSEN
        | Some (sa, nonce, ke) =>
            if negb (validNonce (Body nonce)) then refuse s N_NO_PROPOSAL_CHOSEN
            else
              match DecodeSA (Body sa) with
              | Panic => (s, Panic)
              | Err _ | Ok [] => refuse s N_NO_PROPOSAL_CHOSEN
              | Ok props =>
                  match DecodeKE (Body ke) with
                  | Panic => (s, Panic)
                  | Err _ => refuse s N_NO_PROPOSAL_CHOSEN
                  | Ok (group, peerPublic) =>
                      if (length peerPublic =? 0)%nat then refuse s N_NO_PROPOSAL_CHOSEN
                      else
                        match selectIKERekey group (suPRFID (cxSuite (ctxs s ctx))) props 0 with
                        | inr preferred =>
                            if preferred =? 0 then refuse s N_NO_PROPOSAL_CHOSEN
                            else responseNotifyData s ctx msgID CREATE_CHILD_SA N_INVALID_KE_PAYLOAD (invalidKENotifyData preferred)
                        | inl (selected, suite, p) =>
                            if negb (validNonceFor (Body nonce) (suPRFID suite)) then refuse s N_NO_PROPOSAL_CHOSEN
                            else installIKE s ctx msgID (Body nonce) group peerPublic selected suite p ent now
                        end
                  end
              end
        end
    end.

End serve.
