(* ===== verification/IkeExchange.v ===== *)
(** * Exchanges over a session: ike/liveness.go

    [handleRequest] answers a request of the peer; [dispatch] takes a datagram,
    [startRequest] begins an exchange of our own and [sendPending] repeats it.
    [took] is the socket's answer to the one datagram a call may send. A result
    that Go puts on the request's channel is a value of the outcome. *)

From stdpp Require Import functions.
From S2P Require Import Prelude Netip Store Esp IkeMessage IkePayload IkeSa IkeSk IkeProposal TransHub Tunnel IkeChild IkeSession IkeServe.

Definition requestTimeout : Z := 2 * Second_.
Definition maxRetransmits : Z := 5.
Definition maxRetransmitsWhileBusy : Z := 20.
Definition defaultDPDInterval : Z := 10 * Second_.
Definition dpdRetryDelay : Z := Second_.

Record localRequest := mkRequest {
  rqExchange : Z;
  rqInner : list RawPayload;
  rqContext : option nat;
  rqDpd : bool
}.

Record pendingRequest := mkPending {
  pnRequest : localRequest;
  pnContext : nat;
  pnMsgID : Z;
  pnRaw : list Z;
  pnAttempts : Z;
  pnSent : Z;
  pnDeadline : Z
}.

(** A message given to the socket: its SA, whether it is a response, its Message
    ID, its bytes, and whether the socket took it. *)
Record message := mkSent { msCtx : nat; msResponse : bool; msID : Z; msRaw : list Z; msTook : bool }.

(** What one datagram does: the session and the pending request after it, what is
    sent and where, what the pending request gets, and the answer of [dispatch]. *)
Record outcome := mkOutcome {
  ocSession : ikeSession;
  ocPending : option pendingRequest;
  ocSent : option (message * option Z);
  ocResult : option (res (list RawPayload));
  ocAuthentic : bool
}.

Definition findType (payloads : list RawPayload) (t : Z) : option RawPayload := List.find (λ p, Type_ p =? t) payloads.

Section exchange.
Context {C : Crypto} {H : Hmac} {E : ECDH}.

(** ** handleRequest *)

(** The payloads of a request up to the first Delete of the IKE SA: the Deletes
    before it, and whether it is there; [Err] is a Delete that does not decode. *)
Fixpoint findDeletes (inner : list RawPayload) (deletes : list Delete) : res (list Delete * bool) :=
  match inner with
  | [] => Ok (deletes, false)
  | p :: rest =>
      if negb (Type_ p =? PayloadD) then findDeletes rest deletes
      else d ← DecodeDelete (Body p);
           if dProtocol d =? ProtoIKE then Ok (deletes, true) else findDeletes rest (deletes ++ [d])
  end.

Fixpoint readSPIs (spis : list (list Z)) : res (list Z) :=
  match spis with
  | [] => Ok []
  | spi :: rest => v ← get_be 4 spi 0; vs ← readSPIs rest; Ok (v :: vs)
  end.

(** [for _, d := range deletes]: the world, and our SPIs of the Child SAs gone. *)
Fixpoint deleteESP (w : World) (deletes : list Delete) (responseSPIs : list (list Z)) (now : Z) : World * res (list (list Z)) :=
  match deletes with
  | [] => (w, Ok responseSPIs)
  | d :: rest =>
      if negb (dProtocol d =? ProtoESP) then deleteESP w rest responseSPIs now
      else
        match readSPIs (SPIs d) with
        | Ok remoteSPIs =>
            match deleteChildren w remoteSPIs now with
            | (w, Ok localSPIs) => deleteESP w rest (responseSPIs ++ map (be_to 4) localSPIs) now
            | (w, Err e) => (w, Err e)
            | (w, Panic) => (w, Panic)
            end
        | _ => (w, Panic)
        end
  end.

(** A response, and the error [e] if it was built. *)
Definition withError (r : ikeSession * res answer) (e : string) : ikeSession * res answer :=
  match r with
  | (s, Ok (Some raw, None)) => (s, Ok (Some raw, Some e))
  | (s, Ok (_, re)) => (s, Ok (None, re))
  | (s, x) => (s, x)
  end.

Definition handleInformational (s : ikeSession) (ctx : nat) (msgID : Z) (inner : list RawPayload) (now : Z) : ikeSession * res answer :=
  match findDeletes inner [] with
  | Panic => (s, Panic)
  | Err e => withError (responseNotify s ctx msgID INFORMATIONAL N_INVALID_SYNTAX) e
  | Ok (_, true) =>
      match response s ctx msgID INFORMATIONAL [] with
      | (s, Ok (Some raw, None)) =>
          match removeRetainedContext s ctx with
          | (s, true) => (s, Ok (Some raw, None))
          | (s, false) =>
              match adoptCollisionOnPeerDelete s ctx with
              | (s, true) => (s, Ok (Some raw, None))
              | (s, false) => (s, Ok (Some raw, Some "peer deleted IKE SA"))
              end
          end
      | (s, Ok (_, e)) => (s, Ok (None, e))
      | (s, x) => (s, x)
      end
  | Ok (deletes, false) =>
      match deleteESP (world s) deletes [] now with
      | (w, Ok spis) =>
          response (set_world s w) ctx msgID INFORMATIONAL
            (if (0 <? length spis)%nat then [mkPayload PayloadD false (EncodeDelete (mkDelete ProtoESP spis))] else [])
      | (w, Err e) => (set_world s w, Ok (None, Some e))
      | (w, Panic) => (set_world s w, Panic)
      end
  end.

Definition handleRequest (s : ikeSession) (ctx : nat) (hdr : Header) (inner : list RawPayload) (ent : entropy) (now : Z) :
    ikeSession * res answer :=
  match List.find (λ p, Critical p && negb (supportedPayloadType (Type_ p))) inner with
  | Some p => responseNotifyData s ctx (MessageID hdr) (ExchangeType hdr) N_UNSUPPORTED_CRITICAL_PAYLOAD [u8 (Type_ p)]
  | None =>
      if ExchangeType hdr =? INFORMATIONAL then handleInformational s ctx (MessageID hdr) inner now
      else if ExchangeType hdr =? CREATE_CHILD_SA then
        match findType inner PayloadSA with
        | None => handleChildRekey s ctx (MessageID hdr) inner ent now
        | Some sa =>
            match DecodeSA (Body sa) with
            | Panic => (s, Panic)
            | Ok (p :: _) => if Protocol p =? ProtoIKE then handleIKERekey s ctx (MessageID hdr) inner ent now
                             else handleChildRekey s ctx (MessageID hdr) inner ent now
            | _ => handleChildRekey s ctx (MessageID hdr) inner ent now
            end
        end
      else withError (responseNotify s ctx (MessageID hdr) (ExchangeType hdr) N_INVALID_SYNTAX) "ike: unsupported exchange type"
  end.

(** ** dispatch *)

(** Whether a response is the one the pending request waits for. *)
Definition matches (x : ikeContext) (ctx : nat) (hdr : Header) (pending : option pendingRequest) : bool :=
  match pending with
  | None => false
  | Some p => Bool.eqb (IsInitiator hdr) (responder x) && (pnContext p =? ctx)%nat && (MessageID hdr =? pnMsgID p)
              && (ExchangeType hdr =? rqExchange (pnRequest p))
  end.

(** From [AdoptEndpoint] on: a request with the next Message ID. *)
Definition serveRequest (s : ikeSession) (ctx : nat) (hdr : Header) (plain : Z * list Z) (source : option Z)
    (pending : option pendingRequest) (took : bool) (ent : entropy) (now : Z) : res outcome :=
  let s := onHub s (λ h, AdoptEndpoint h (muxOf s) source) in
  match decodeMessagePlaintext plain.1 plain.2 with
  | Panic => Panic
  | Err _ =>
      let '(s, r) := responseNotify s ctx (MessageID hdr) (ExchangeType hdr) N_INVALID_SYNTAX in
      a ← r;
      Ok (mkOutcome (closeSession s) pending (match a with (Some raw, None) => Some (mkSent ctx true (MessageID hdr) raw took, source) | _ => None end) None true)
  | Ok inner =>
      let '(s, r) := handleRequest s ctx hdr inner ent now in
      a ← r;
      match a with
      | (resp, Some _) => Ok (mkOutcome (closeSession s) pending (option_map (λ raw, (mkSent ctx true (MessageID hdr) raw took, source)) resp) None true)
      | (resp, None) =>
          let raw := default [] resp in
          let s := onContext s ctx (λ x, set_answered x (u32 (nextPeerMID x + 1)) (MessageID hdr) raw) in
          Ok (mkOutcome (if took then s else closeSession s) pending (Some (mkSent ctx true (MessageID hdr) raw took, source)) None true)
      end
  end.

(** A request that is authentic: the next one, the last one again, or neither. *)
Definition takeRequest (s : ikeSession) (ctx : nat) (hdr : Header) (plain : Z * list Z) (source : option Z)
    (pending : option pendingRequest) (took : bool) (ent : entropy) (now : Z) : res outcome :=
  let x := ctxs s ctx in
  if negb (MessageID hdr =? nextPeerMID x) then
    if (0 <? nextPeerMID x) && (MessageID hdr =? nextPeerMID x - 1) && (lastPeerResponseID x =? MessageID hdr)
    then Ok (mkOutcome (if took then s else closeSession s) pending (Some (mkSent ctx true (MessageID hdr) (lastPeerResponse x) took, source)) None false)
    else Ok (mkOutcome s pending None None false)
  else if nextPeerMID x =? maxMessageID then Ok (mkOutcome (closeSession s) pending None None true)
  else serveRequest s ctx hdr plain source pending took ent now.

(** The response the pending request waits for, when it is authentic. *)
Definition takeResponse (s : ikeSession) (outer : Message) (plain : Z * list Z) : res outcome :=
  match decodeMessagePlaintext plain.1 plain.2 with
  | Panic => Panic
  | Err e => Ok (mkOutcome (closeSession s) None None (Some (Err ("ike: malformed authenticated response: " +:+ e))) true)
  | Ok inner =>
      match validateResponseCriticalFlags (Payloads outer), validateResponseCriticalFlags inner with
      | Ok _, Ok _ => Ok (mkOutcome s None None (Some (Ok inner)) true)
      | Err e, _ | Ok _, Err e => Ok (mkOutcome s None None (Some (Err e)) true)
      | _, _ => Panic
      end
  end.

Definition dispatch (s : ikeSession) (raw : list Z) (source : option Z) (pending : option pendingRequest) (took : bool)
    (ent : entropy) (now : Z) : res outcome :=
  let drop := Ok (mkOutcome s pending None None false) in
  match decodeHeader raw with
  | Panic => Panic
  | Err _ => drop
  | Ok hdr =>
      if negb (MajorVersion hdr =? 2) || negb (Length hdr =? u32 (Z.of_nat (length raw))) then drop
      else
        match contextForHeader s hdr with
        | None => drop
        | Some ctx =>
            let x := ctxs s ctx in
            if (if IsResponse hdr then negb (matches x ctx hdr pending) else negb (Bool.eqb (IsInitiator hdr) (responder x))) then drop
            else
              match DecodeMessage raw with
              | Panic => Panic
              | Err _ => drop
              | Ok outer =>
                  match decryptMessagePlaintext (cxSuite x) (peerEncryptionKey x) raw outer with
                  | Panic => Panic
                  | Err _ => drop
                  | Ok plain =>
                      if IsResponse hdr then takeResponse s outer plain
                      else takeRequest s ctx hdr plain source pending took ent now
                  end
              end
        end
  end.

(** ** Requests of our own *)

Definition retransmitDelay (attempt : Z) : Z :=
  if attempt <=? 1 then requestTimeout else Z.shiftl requestTimeout (Z.min (attempt - 1) (maxRetransmits - 1)).

Definition sendPending (p : pendingRequest) (now : Z) : pendingRequest :=
  let nextAttempt := Z.min (pnAttempts p + 1) maxRetransmits in
  mkPending (pnRequest p) (pnContext p) (pnMsgID p) (pnRaw p) nextAttempt (pnSent p + 1) (now + retransmitDelay nextAttempt).

Definition pendingRetransmitsExhausted (p : pendingRequest) (peerAlive : bool) : bool :=
  if pnAttempts p <? maxRetransmits then false
  else if rqDpd (pnRequest p) || negb peerAlive then true
  else maxRetransmitsWhileBusy <=? pnSent p.

Definition errMessageIDExhausted : string := "ike: Message ID space exhausted".

(** The session, what is sent, and the request that now waits. *)
Definition startRequest (s : ikeSession) (req : localRequest) (took : bool) (now : Z) :
    ikeSession * option message * res pendingRequest :=
  let ctx := default (current s) (rqContext req) in
  let x := ctxs s ctx in
  if (rqExchange req =? CREATE_CHILD_SA) && negb (ctx =? current s)%nat
  then (s, None, Err "ike: IKE SA changed before Child SA exchange started")
  else if nextLocalMID x =? maxMessageID then (s, None, Err errMessageIDExhausted)
  else
    let msgID := nextLocalMID x in
    let hdr := mkHeader (spiI x) (spiR x) 0 0 0 (rqExchange req) (requestFlags x) msgID 0 in
    let '(iv, r) := encrypt (cxSuite x) (sendIV x) (localEncryptionKey x) hdr [] (rqInner req) in
    let s := onContext s ctx (λ x, set_sendIV x iv) in
    match r with
    | Ok raw =>
        let pending := sendPending (mkPending req ctx msgID raw 0 0 0) now in
        if took then (onContext s ctx (λ x, set_localMID x (u32 (msgID + 1))), Some (mkSent ctx false msgID raw true), Ok pending)
        else (s, Some (mkSent ctx false msgID raw false), Err "transport: send")
    | Err e => (s, None, Err e)
    | Panic => (s, None, Panic)
    end.

(** [DeleteIKE] of a session that is not served: the request is sent once. *)
Definition sendUnansweredRequest (s : ikeSession) (inner : list RawPayload) (took : bool) : ikeSession * option message * res unit :=
  let ctx := current s in
  let x := ctxs s ctx in
  let hdr := mkHeader (spiI x) (spiR x) 0 0 0 INFORMATIONAL (requestFlags x) (nextLocalMID x) 0 in
  let '(iv, r) := encrypt (cxSuite x) (sendIV x) (localEncryptionKey x) hdr [] inner in
  let s := onContext s ctx (λ x, set_sendIV x iv) in
  match r with
  | Ok raw => (onContext s ctx (λ x, set_localMID x (u32 (nextLocalMID x + 1))), Some (mkSent ctx false (nextLocalMID x) raw took),
               if took then Ok tt else Err "transport: send")
  | Err e => (s, None, Err ("ike: build IKE Delete: " +:+ e))
  | Panic => (s, None, Panic)
  end.

End exchange.
