(* ===== verification/IkeRekey.v ===== *)
(** * Rekeying our end: ike/ike_rekey.go and ike/child_rekey.go

    [RekeyIKE] and [RekeyChild] run beside the loop that serves the session and
    wait for it at every exchange. A call is a [proc]: it has returned, or it asks
    for an exchange and says what it does with the session of the time the answer
    comes, at the time [now], and with the answer. *)

From stdpp Require Import functions.
From S2P Require Import Prelude Netip Store Esp IkeMessage IkePayload IkeSa IkeSk IkeProposal TransHub Tunnel IkeChild IkeSession IkeServe IkeExchange.

Inductive proc :=
| Done (s : ikeSession) (r : res unit)
| Ask (s : ikeSession) (ctx : nat) (exchange : Z) (inner : list RawPayload) (k : ikeSession → Z → res (list RawPayload) → proc).

(** ** Nonces *)

(** [bytes.Compare(a, b) < 0] *)
Fixpoint bytesLess (a b : list Z) : bool :=
  match a, b with
  | _, [] => false
  | [], _ :: _ => true
  | x :: a, y :: b => (x <? y) || ((x =? y) && bytesLess a b)
  end.

Definition lowestNonceBelongsToFirst (firstI firstR secondI secondR : list Z) : bool :=
  (fold_left (λ best candidate, if bytesLess candidate.1 best.1 then candidate else best)
     [(firstR, true); (secondI, false); (secondR, false)] (firstI, true)).2.

(** ** RekeyIKE *)

(** The group an INVALID_KE_PAYLOAD asks for, zero without one. *)
Fixpoint retryGroup (response : list RawPayload) : res Z :=
  match response with
  | [] => Ok 0
  | p :: rest =>
      if negb (Type_ p =? PayloadN) then retryGroup rest
      else
        match DecodeNotify (Body p) with
        | Ok n =>
            if negb (nType n =? N_INVALID_KE_PAYLOAD) then retryGroup rest
            else if negb (length (nData n) =? 2)%nat then Err "ike: invalid IKE SA rekey INVALID_KE_PAYLOAD data"
            else get_be 2 (nData n) 0
        | Err e => Err ("ike: invalid IKE SA rekey notify: " +:+ e)
        | Panic => Panic
        end
  end.

(** The last SA, nonce and KE payload of a response no notify of which is an
    error. *)
Fixpoint rekeyAnswerPayloads (response : list RawPayload) (sa nonce ke : option RawPayload) : res (RawPayload * RawPayload * RawPayload) :=
  match response with
  | [] => match sa, nonce, ke with
          | Some a, Some b, Some c => Ok (a, b, c)
          | _, _, _ => Err "ike: incomplete IKE SA rekey response" end
  | p :: rest =>
      if Type_ p =? PayloadN then
        match DecodeNotify (Body p) with
        | Ok n => if nType n <? 16384 then Err "ike: IKE SA rekey rejected" else rekeyAnswerPayloads rest sa nonce ke
        | Err e => Err ("ike: invalid IKE SA rekey notify: " +:+ e)
        | Panic => Panic
        end
      else if Type_ p =? PayloadSA then rekeyAnswerPayloads rest (Some p) nonce ke
      else if Type_ p =? PayloadNonce then rekeyAnswerPayloads rest sa (Some p) ke
      else if Type_ p =? PayloadKE then rekeyAnswerPayloads rest sa nonce (Some p)
      else rekeyAnswerPayloads rest sa nonce ke
  end.

Definition deleteIKEPayload : RawPayload := mkPayload PayloadD false (EncodeDelete (mkDelete ProtoIKE [])).
Definition deleteESPPayload (spi : list Z) : RawPayload := mkPayload PayloadD false (EncodeDelete (mkDelete ProtoESP [spi])).

(** [return] in [RekeyIKE], with its deferred function. *)
Definition returnRekey (s : ikeSession) (old : nat) (r : res unit) : proc :=
  Done match localRekey s with
       | Some l => if (rkOld l =? old)%nat then set_localRekey s None else s
       | None => s
       end r.

(** What a rekeying of the IKE SA draws: its SPI, its nonce, and the randomness of
    a key pair for each attempt. *)
Record rekeyDraw := mkDraw { rdSPI : Z; rdNonce : list Z; rdDH : nat → list Z }.

Section rekey.
Context {C : Crypto} {H : Hmac} {E : ECDH}.

(** The keys and SPIs of the SA the peer's response makes with our request. *)
Definition acceptRekey (x : ikeContext) (d : rekeyDraw) (group : Z) (dh : DHKeyPair) (response : list RawPayload) :
    res (ikeContext * list Z) :=
  '(sa, nonce, ke) ← rekeyAnswerPayloads response None None None;
  '(suite, spi) ← acceptIKERekey (Body sa) (Body nonce) (ikeRekeyProposal (be_to 8 (rdSPI d)) (suPRFID (cxSuite x))) group;
  match DecodeKE (Body ke) with
  | Panic => Panic
  | Err _ => Err "ike: IKE SA rekey KE group mismatch"
  | Ok (peerGroup, peerPublic) =>
      if negb (peerGroup =? group) then Err "ike: IKE SA rekey KE group mismatch"
      else
        shared ← SharedSecret dh peerPublic;
        keys ← DeriveRekeyedIKEKeys (suPRFID (cxSuite x)) (skD x) suite shared (rdNonce d) (Body nonce) (rdSPI d) spi;
        Ok (mkContext suite (SKd keys) (SKei keys) (SKer keys) (SKpi keys) (SKpr keys) (rdSPI d) spi false 0 0 0 0 [], Body nonce)
  end.

(** The losing candidate: the peer's SA is current, ours is deleted. *)
Definition yieldRekey (s : ikeSession) (old winner : nat) (new : ikeContext) (now : Z) : proc :=
  match RegisterIKE (hub (world s)) (muxOf s) (spiI new) with
  | Panic => returnRekey s old Panic
  | Err e => returnRekey s old (Err ("ike: register redundant IKE SA: " +:+ e))
  | Ok h =>
      let '(s, c) := newContext (onHub s (λ _, h)) new in
      let s := retainCollisionLocked (set_current (retainOldLocked s old now) winner) c now in
      Ask s c INFORMATIONAL [deleteIKEPayload] (λ s now answer,
         let s := if bool_decide (collision s = Some c) then set_collision s None (collisionBy s) else s in
         let s := releaseSPILocked s (spiI new) in
         returnRekey s old
           match answer with
           | Ok _ => Ok tt
           | Err e => Err ("ike: delete redundant local IKE SA: " +:+ e)
           | Panic => Panic
           end)
  end.

(** The winning candidate, or the only one: it is current, the old SA is deleted. *)
Definition finishRekey (s : ikeSession) (old : nat) (new : ikeContext) (now : Z) : proc :=
  match RegisterIKE (hub (world s)) (muxOf s) (spiI new) with
  | Panic => returnRekey s old Panic
  | Err e => returnRekey s old (Err ("ike: register rekeyed IKE SA: " +:+ e))
  | Ok h =>
      let '(s, c) := newContext (onHub s (λ _, h)) new in
      let s := set_current (retainOldLocked s old now) c in
      Ask s old INFORMATIONAL [deleteIKEPayload] (λ s now answer,
         let s := if bool_decide (IkeSession.old s = Some old) then set_old s None (oldBy s) else s in
         returnRekey (releaseSPILocked s (spiI (ctxs s old))) old (Ok tt))
  end.

(** From the response on. *)
Definition concludeRekey (s : ikeSession) (old : nat) (d : rekeyDraw) (group : Z) (dh : DHKeyPair) (response : list RawPayload)
    (now : Z) : proc :=
  match acceptRekey (ctxs s old) d group dh response with
  | Panic => returnRekey s old Panic
  | Err e => returnRekey s old (Err e)
  | Ok (new, nonce) =>
      match collision s with
      | Some c =>
          match localRekey s with
          | None => returnRekey s old Panic
          | Some l =>
              if lowestNonceBelongsToFirst (rdNonce d) nonce (peerNonce l) (peerResponseNonce l)
              then yieldRekey s old c new now else finishRekey s old new now
          end
      | None => finishRekey s old new now
      end
  end.

(** The request of an attempt, in the group [group]. *)
Definition rekeyRequest (x : ikeContext) (d : rekeyDraw) (group : Z) (pub : list Z) : list RawPayload :=
  [mkPayload PayloadSA false (EncodeSA [ikeRekeyProposal (be_to 8 (rdSPI d)) (suPRFID (cxSuite x))]);
   mkPayload PayloadNonce false (EncodeNonce (rdNonce d)); mkPayload PayloadKE false (EncodeKE group pub)].

(** [for attempt := range 2]; [more] attempts are left after this one. *)
Fixpoint attemptRekey (more : nat) (s : ikeSession) (old : nat) (d : rekeyDraw) (group : Z) : proc :=
  match GenerateDH group (rdDH d more) with
  | Panic => returnRekey s old Panic
  | Err e => returnRekey s old (Err ("ike: generate IKE SA rekey DH key: " +:+ e))
  | Ok dh =>
      match PublicBytes dh with
      | Ok pub =>
          Ask s (current s) CREATE_CHILD_SA (rekeyRequest (ctxs s old) d group pub) (λ s now answer,
             match answer with
             | Panic => returnRekey s old Panic
             | Err e => returnRekey s old (Err ("ike: IKE SA rekey request: " +:+ e))
             | Ok response =>
                 match retryGroup response with
                 | Panic => returnRekey s old Panic
                 | Err e => returnRekey s old (Err e)
                 | Ok retry =>
                     if retry =? 0 then concludeRekey s old d group dh response now
                     else
                       match more with
                       | O => returnRekey s old (Err "ike: IKE SA rekey rejected: requested unsupported DH group")
                       | S more =>
                           if supportedIKEGroup retry then attemptRekey more s old d retry
                           else returnRekey s old (Err "ike: IKE SA rekey rejected: requested unsupported DH group")
                       end
                 end
             end)
      | _ => returnRekey s old Panic
      end
  end.

(** [rdSPI d] is drawn again while it is zero or an SPI of the SA that is
    replaced. *)
Definition RekeyIKE (s : ikeSession) (d : rekeyDraw) : proc :=
  let old := current s in
  attemptRekey 1 (set_localRekey s (Some (mkRekey old (rdSPI d) (rdNonce d) [] []))) old d DH_CURVE25519.

(** ** RekeyChild *)

(** What [negotiateChild] returns to: an error may be the peer's rejection, a
    [*childNegotiationRejectedError] with its notify. *)
Definition childReturn : Type := ikeSession → Z → res unit + Notify → proc.

(** [orphaned]: the peer is told to delete what its response promised. *)
Definition orphaned (s : ikeSession) (spi : list Z) (cause : string) (ret : childReturn) : proc :=
  Ask s (current s) INFORMATIONAL [deleteESPPayload spi] (λ s now _, ret s now (inl (Err cause))).

(** Whether every Delete of a response decodes. *)
Fixpoint checkDeletes (deleted : list RawPayload) : res unit :=
  match deleted with
  | [] => Ok tt
  | p :: rest =>
      if negb (Type_ p =? PayloadD) then checkDeletes rest
      else match DecodeDelete (Body p) with
           | Ok _ => checkDeletes rest
           | Err e => Err ("ike: invalid Child SA retire response: " +:+ e)
           | Panic => Panic
           end
  end.

(** The Child SA that was replaced is deleted and retired. *)
Definition retireReplaced (s : ikeSession) (old : ChildSA) (ret : childReturn) : proc :=
  Ask s (current s) INFORMATIONAL [deleteESPPayload (be_to 4 (LocalSPI old))] (λ s now answer,
     let '(w, r) := retireChild (world s) (RemoteSPI old) now in
     let s := set_world s w in
     match answer, r with
     | _, Panic | Panic, _ => ret s now (inl Panic)
     | Ok _, Err e => ret s now (inl (Err e))
     | Err e, _ => ret s now (inl (Err ("ike: retire replaced Child SA: " +:+ e)))
     | Ok deleted, Ok _ => ret s now (inl (checkDeletes deleted))
     end).

(** The Child SA the response makes with our request. *)
Definition acceptedChild (x : ikeContext) (old : option ChildSA) (ent : entropy) (response : list RawPayload) : res (ChildSA + Notify) :=
  r ← acceptChild response (suPRFID (cxSuite x)) old;
  match r with
  | inr n => Ok (inr n)
  | inl (encr, remoteSPI, nonce) =>
      '(initKey, respKey) ← ChildSAKeymat (suPRFID (cxSuite x)) (skD x) (enNonce ent) nonce (trID encr) (KeyLengthBits encr);
      Ok (inl (mkChildSA (trID encr) (KeyLengthBits encr) (enSPI32 ent) remoteSPI respKey initKey))
  end.

Definition childRequest (old : option ChildSA) (ent : entropy) : list RawPayload :=
  let spi := be_to 4 (enSPI32 ent) in
  let ts := EncodeTS [FullRangeV4; FullRangeV6] in
  match old with
  | Some o => [notifyPayload (mkNotify ProtoESP (be_to 4 (LocalSPI o)) N_REKEY_SA [])]
  | None => []
  end ++
  [mkPayload PayloadSA false (EncodeSA [match old with Some o => espRekeyProposal spi o | None => espProposal spi end]);
   mkPayload PayloadNonce false (EncodeNonce (enNonce ent)); mkPayload PayloadTSi false ts; mkPayload PayloadTSr false ts].

(** [enSPI32 ent] is drawn again while it is zero or the SPI that is replaced. *)
Definition negotiateChild (s : ikeSession) (now : Z) (old : option ChildSA) (ent : entropy) (ret : childReturn) : proc :=
  let context := current s in
  match canReplaceChild (sess (world s)) (enSPI32 ent) with
  | Panic => ret s now (inl Panic)
  | Err e => ret s now (inl (Err e))
  | Ok _ =>
      Ask s context CREATE_CHILD_SA (childRequest old ent) (λ s now answer,
         match answer with
         | Panic => ret s now (inl Panic)
         | Err e => ret s now (inl (Err ("ike: Child SA negotiation request: " +:+ e)))
         | Ok response =>
             match acceptedChild (ctxs s context) old ent response with
             | Panic => ret s now (inl Panic)
             | Err e => orphaned s (be_to 4 (enSPI32 ent)) e ret
             | Ok (inr n) => ret s now (inr n)
             | Ok (inl child) =>
                 match replaceChild (world s) child now with
                 | (w, Panic) => ret (set_world s w) now (inl Panic)
                 | (w, Err e) => orphaned (set_world s w) (be_to 4 (enSPI32 ent)) e ret
                 | (w, Ok _) =>
                     match old with
                     | None => ret (set_world s w) now (inl (Ok tt))
                     | Some o => retireReplaced (set_world s w) o ret
                     end
                 end
             end
         end)
  end.

(** [return] in [rekeyChild], with its deferred store. *)
Definition returnChild : childReturn := λ s _ r,
  Done (set_childRekeying s false) match r with inl r => r | inr _ => Err "ike: Child SA negotiation rejected" end.

Definition rekeyChild (s : ikeSession) (now : Z) (alreadyRunningIsSuccess : bool) (ent ent' : entropy) : proc :=
  if childRekeying s
  then Done s (if alreadyRunningIsSuccess then Ok tt else Err "ike: Child SA rekey already in progress")
  else
    let s := set_childRekeying s true in
    let old := Child (sess (world s)) in
    if (LocalSPI old =? 0) && (RemoteSPI old =? 0) then negotiateChild s now None ent returnChild
    else if (LocalSPI old =? 0) || (RemoteSPI old =? 0) then returnChild s now (inl (Err "ike: no Child SA to rekey"))
    else
      negotiateChild s now (Some old) ent (λ s now r,
        match r with
        | inl r => returnChild s now (inl r)
        | inr n =>
            if negb (nType n =? N_CHILD_SA_NOT_FOUND) then returnChild s now (inr n)
            else if negb (nProtocol n =? ProtoESP) || negb (length (nSPI n) =? 4)%nat || negb (be_of (nSPI n) =? LocalSPI old)
            then returnChild s now (inl (Err "ike: invalid CHILD_SA_NOT_FOUND response"))
            else
              match forgetChild (world s) old now with
              | (w, Ok _) => negotiateChild (set_world s w) now None ent' returnChild
              | (w, Err e) => returnChild (set_world s w) now (inl (Err ("ike: forget missing peer Child SA: " +:+ e)))
              | (w, Panic) => returnChild (set_world s w) now (inl Panic)
              end
        end).

Definition RekeyChild (s : ikeSession) (now : Z) (ent ent' : entropy) : proc := rekeyChild s now false ent ent'.
Definition RekeyChildProactively (s : ikeSession) (now : Z) (ent ent' : entropy) : proc := rekeyChild s now true ent ent'.

(** [DeleteIKE] of a session that is served. *)
Definition DeleteIKE (s : ikeSession) : proc :=
  Ask s (current s) INFORMATIONAL [deleteIKEPayload] (λ s _ answer,
     Done s match answer with Ok _ => Ok tt | Err e => Err e | Panic => Panic end).

End rekey.
