(* ===== verification/IkeRun.v ===== *)
(** * The loop of a session: ike/liveness.go

    [turn] is one pass of the loop of [Run]. Between passes a rekeying that is due
    begins, or a call from outside: they are served one at a time, as the session's
    mutex has them. The loop leaves the answer of an exchange in a channel; the call
    that waits takes it up in a step of its own, [resume], before or after any
    number of further passes. Every reading of the clock, the jitter, the traffic
    mark and what ends the wait are inputs. *)

From stdpp Require Import functions.
From S2P Require Import Prelude Netip Store Esp IkeMessage IkePayload IkeSa IkeSk IkeProposal TransHub Tunnel IkeChild IkeSession IkeServe IkeExchange IkeRekey.

(** ** Schedules *)

Record runConfig := mkRunConfig {
  childRekeyInterval : Z;
  ikeRekeyInterval : Z;
  rekeyMargin : Z;
  rekeyJitter : Z;
  rekeyRetryInitial : Z;
  rekeyRetryMax : Z;
  dpdEvery : Z
}.

Definition validRekeyTiming (interval margin jitter : Z) : bool :=
  (interval =? 0) || ((margin <? interval) && (jitter <? interval - margin)).

Definition SetRekeyIntervals (c : runConfig) (child ike : Z) : res runConfig :=
  if (child <? 0) || (ike <? 0) then Err "ike: rekey intervals must be nonnegative when set"
  else if negb (validRekeyTiming child (rekeyMargin c) (rekeyJitter c)) || negb (validRekeyTiming ike (rekeyMargin c) (rekeyJitter c))
  then Err "ike: rekey margin plus jitter must be less than each enabled interval"
  else Ok (mkRunConfig child ike (rekeyMargin c) (rekeyJitter c) (rekeyRetryInitial c) (rekeyRetryMax c) (dpdEvery c)).

Definition SetRekeyTiming (c : runConfig) (margin jitter : Z) : res runConfig :=
  if (margin <? 0) || (jitter <? 0) then Err "ike: rekey margin and jitter must be nonnegative"
  else if negb (validRekeyTiming (childRekeyInterval c) margin jitter) || negb (validRekeyTiming (ikeRekeyInterval c) margin jitter)
  then Err "ike: rekey margin plus jitter must be less than each enabled interval"
  else Ok (mkRunConfig (childRekeyInterval c) (ikeRekeyInterval c) margin jitter (rekeyRetryInitial c) (rekeyRetryMax c) (dpdEvery c)).

Definition SetRekeyRetry (c : runConfig) (initial max : Z) : res runConfig :=
  if (initial <=? 0) || (max <=? 0) then Err "ike: rekey retry delays must be positive"
  else if max <? initial then Err "ike: initial rekey retry delay must not exceed maximum"
  else Ok (mkRunConfig (childRekeyInterval c) (ikeRekeyInterval c) (rekeyMargin c) (rekeyJitter c) initial max (dpdEvery c)).

(** [source] is the session's source of jitter, or the random one. *)
Definition rekeyDelay (c : runConfig) (source : Z → res Z) (interval : Z) : res Z :=
  match source (rekeyJitter c) with
  | Ok jitter =>
      if (jitter <? 0) || (rekeyJitter c <? jitter) then Err "ike: invalid rekey jitter"
      else
        let delay := interval - rekeyMargin c - jitter in
        if delay <=? 0 then Err "ike: nonpositive rekey delay" else Ok delay
  | Err e => Err ("ike: generate rekey jitter: " +:+ e)
  | Panic => Panic
  end.

(** [for failures > 1] *)
Fixpoint backoff (failures : nat) (delay max : Z) : Z :=
  match failures with
  | S (S _ as failures) => if max ÷ 2 <=? delay then max else backoff failures (delay * 2) max
  | _ => delay
  end.

Definition rekeyRetryDelay (c : runConfig) (source : Z → res Z) (failures : nat) : res Z :=
  let delay := backoff failures (rekeyRetryInitial c) (rekeyRetryMax c) in
  match source (delay ÷ 2) with
  | Ok jitter => Ok (if (jitter <? 0) || (delay ÷ 2 <? jitter) then delay else delay - jitter)
  | Err _ => Ok delay
  | Panic => Panic
  end.

(** The timer and [deadline] are one: [None] once the timer has been taken.
    [run] is [RekeyIKE] or [RekeyChild]. *)
Record rekeySchedule := mkSchedule { rsIKE : bool; rsInterval : Z; rsDeadline : option Z; rsDue : bool; rsFailures : nat }.

Definition newRekeySchedule (c : runConfig) (source : Z → res Z) (ike : bool) (interval now : Z) : res (option rekeySchedule) :=
  if interval <=? 0 then Ok None
  else delay ← rekeyDelay c source interval; Ok (Some (mkSchedule ike interval (Some (now + delay)) false 0)).

Definition poll (now : Z) (r : rekeySchedule) : rekeySchedule :=
  match rsDeadline r with
  | Some t => if now <? t then r else mkSchedule (rsIKE r) (rsInterval r) None true (rsFailures r)
  | None => r
  end.

Definition reset (r : rekeySchedule) (delay now : Z) (failures : nat) : rekeySchedule :=
  mkSchedule (rsIKE r) (rsInterval r) (Some (now + delay)) (rsDue r) failures.

(** The first schedule that is due, which it no longer is. *)
Fixpoint firstDue (schedules : list rekeySchedule) : option (nat * list rekeySchedule) :=
  match schedules with
  | [] => None
  | r :: rest =>
      if rsDue r then Some (O, mkSchedule (rsIKE r) (rsInterval r) (rsDeadline r) false (rsFailures r) :: rest)
      else '(i, rest) ← firstDue rest; Some (S i, r :: rest)
  end.

Definition nextDueRekey (schedules : list rekeySchedule) (running : option nat) : option (nat * list rekeySchedule) :=
  match running with Some _ => None | None => firstDue schedules end.

Definition dpdInterval (c : runConfig) : Z := if 0 <? dpdEvery c then dpdEvery c else defaultDPDInterval.

(** ** The state of the loop *)

(** [rnCall] waits for an exchange, which is in the channel while [rnQueued], and
    whose answer is in its result channel once it is [rnAnswer]; [rnScheduled] says that it is the call of [rnRunning], whose result, once it
    has one, is [rnResult]. *)
Record runState := mkRun {
  rnSession : ikeSession;
  rnPending : option pendingRequest;
  rnLast : Z;
  rnSchedules : list rekeySchedule;
  rnRunning : option nat;
  rnResult : option (res unit);
  rnCall : option proc;
  rnQueued : bool;
  rnAnswer : option (res (list RawPayload));
  rnScheduled : bool
}.

Definition set_session (st : runState) (s : ikeSession) : runState :=
  mkRun s (rnPending st) (rnLast st) (rnSchedules st) (rnRunning st) (rnResult st) (rnCall st) (rnQueued st) (rnAnswer st) (rnScheduled st).
Definition set_rnPending (st : runState) (p : option pendingRequest) : runState :=
  mkRun (rnSession st) p (rnLast st) (rnSchedules st) (rnRunning st) (rnResult st) (rnCall st) (rnQueued st) (rnAnswer st) (rnScheduled st).
Definition set_last (st : runState) (t : Z) : runState :=
  mkRun (rnSession st) (rnPending st) t (rnSchedules st) (rnRunning st) (rnResult st) (rnCall st) (rnQueued st) (rnAnswer st) (rnScheduled st).
Definition set_schedules (st : runState) (l : list rekeySchedule) (running : option nat) (result : option (res unit)) : runState :=
  mkRun (rnSession st) (rnPending st) (rnLast st) l running result (rnCall st) (rnQueued st) (rnAnswer st) (rnScheduled st).

(** A call that has got as far as [p]. *)
Definition proceed (st : runState) (p : proc) : runState :=
  match p with
  | Done s r => mkRun s (rnPending st) (rnLast st) (rnSchedules st) (rnRunning st) (if rnScheduled st then Some r else rnResult st) None false None false
  | Ask s _ _ _ _ => mkRun s (rnPending st) (rnLast st) (rnSchedules st) (rnRunning st) (rnResult st) (Some p) true None (rnScheduled st)
  end.

Definition set_answer (st : runState) (r : option (res (list RawPayload))) : runState :=
  mkRun (rnSession st) (rnPending st) (rnLast st) (rnSchedules st) (rnRunning st) (rnResult st) (rnCall st) (rnQueued st) r (rnScheduled st).

(** [result <- requestResult{...}], for the pending request [p]: a liveness probe
    has nobody who waits. *)
Definition deliver (st : runState) (dpd : bool) (answer : option (res (list RawPayload))) : runState :=
  match answer, rnCall st with
  | Some r, Some (Ask _ _ _ _ _) => if dpd then st else set_answer st (Some r)
  | _, _ => st
  end.

(** [<-result], and the call goes on from the session as it is then. *)
Definition resume (st : runState) (now : Z) : runState :=
  match rnAnswer st, rnCall st with
  | Some r, Some (Ask _ _ _ _ k) => proceed st (k (rnSession st) now r)
  | _, _ => st
  end.

(** What was given to the socket, in order. *)
Definition sent : Type := list message.

(** The loop goes on, or returns. *)
Inductive verdictRun := Continue | Return (e : string).

(** ** A pass of the loop *)

Inductive wake :=
| WDatagram (raw : list Z) (source : option Z) (took : bool) (ent : entropy)
| WDone
| WAgain
| WTimer (traffic took : bool).

(** The clock at the top, whether ESP was seen, the socket's answer to a request
    that is taken from the channel, the jitter, how the wait ends, and when. *)
Record turnInput := mkTurn { inNow : Z; inTraffic : bool; inTook : bool; inJitter : Z → res Z; inWake : wake; inAt : Z }.

Section run.
Context {C : Crypto} {H : Hmac} {E : ECDH} (cfg : runConfig).

(** [startDueRekey] *)
Definition startDueRekey (st : runState) : runState :=
  match nextDueRekey (rnSchedules st) (rnRunning st) with
  | Some (i, l) => set_schedules st l (Some i) (rnResult st)
  | None => st
  end.

(** [case result := <-rekeyResult]; the flag says that the pass ends here. *)
Definition takeResult (st : runState) (source : Z → res Z) (now : Z) : res (runState * bool) :=
  match rnResult st, rnRunning st with
  | Some r, Some i =>
      match rnSchedules st !! i with
      | None => Panic
      | Some sc =>
          match r with
          | Panic => Panic
          | Err _ =>
              delay ← rekeyRetryDelay cfg source (S (rsFailures sc));
              Ok (startDueRekey (set_schedules st (<[i := reset sc delay now (S (rsFailures sc))]> (rnSchedules st)) None None), true)
          | Ok _ =>
              delay ← rekeyDelay cfg source (rsInterval sc);
              Ok (startDueRekey (set_schedules st (<[i := reset sc delay now 0]> (rnSchedules st)) None None), false)
          end
      end
  | _, _ => Ok (st, false)
  end.

(** [case req := <-s.requests]; [Some e] is the error [Run] returns. *)
Definition pickRequest (st : runState) (took : bool) (now : Z) : res (runState * sent * option string) :=
  match rnPending st, rnCall st with
  | None, Some (Ask _ ctx exchange inner k) =>
      if negb (rnQueued st) then Ok (st, [], None)
      else
        let st := mkRun (rnSession st) None (rnLast st) (rnSchedules st) (rnRunning st) (rnResult st) (rnCall st) false (rnAnswer st) (rnScheduled st) in
        let '(s, raw, r) := startRequest (rnSession st) (mkRequest exchange inner (Some ctx) false) took now in
        let st := set_session st s in
        let out := option_list raw in
        match r with
        | Ok p => Ok (set_rnPending st (Some p), out, None)
        | Err e => if (e =? errMessageIDExhausted)%string then Ok (set_session st (closeSession s), out, Some e)
                   else Ok (deliver st false (Some (Err e)), out, None)
        | Panic => Panic
        end
  | _, _ => Ok (st, [], None)
  end.

(** When the wait ends at the latest. *)
Definition earlier (a : option Z) (b : Z) : Z := match a with Some t => if t <? b then t else b | None => b end.

Definition wakeAt (st : runState) : Z :=
  let deadline := match rnPending st with Some p => pnDeadline p | None => rnLast st + dpdInterval cfg end in
  let deadline := fold_left (λ d r, earlier (rsDeadline r) d) (rnSchedules st) deadline in
  let deadline := earlier (nextRetirement (sess (world (rnSession st)))) deadline in
  earlier (nextRetainedExpiry (rnSession st)) deadline.

(** The retransmission, or the end, of the request [p]. *)
Definition retransmit (st : runState) (p : pendingRequest) (now : Z) : runState * sent * verdictRun :=
  if pendingRetransmitsExhausted p (now - rnLast st <? dpdInterval cfg)
  then (set_session st (closeSession (rnSession st)), [], Return "ike: peer unresponsive")
  else (set_rnPending st (Some (sendPending p now)), [mkSent (pnContext p) false (pnMsgID p) (pnRaw p) true], Continue).

(** The liveness probe. *)
Definition probe (st : runState) (took : bool) (now : Z) : res (runState * sent * verdictRun) :=
  let '(s, raw, r) := startRequest (rnSession st) (mkRequest INFORMATIONAL [] None true) took now in
  let st := set_session st s in
  let out := option_list raw in
  match r with
  | Ok p => Ok (set_rnPending st (Some p), out, Continue)
  | Err _ => Ok (set_rnPending (set_last st (now - dpdInterval cfg + dpdRetryDelay)) None, out, Continue)
  | Panic => Panic
  end.

(** After [case <-timer.C]. *)
Definition onTimer (st : runState) (traffic took : bool) (now : Z) : res (runState * sent * verdictRun) :=
  match rnPending st with
  | Some p =>
      if contextRetired (rnSession st) (pnContext p)
      then Ok (deliver (set_rnPending st None) (rqDpd (pnRequest p)) (Some (Err "ike: the IKE SA carrying this exchange was replaced")),
               [], Continue)
      else if negb (now <? pnDeadline p) then Ok (retransmit st p now)
      else Ok (if traffic then set_last st now else st, [], Continue)
  | None =>
      let st := if traffic then set_last st now else st in
      if negb (now <? rnLast st + dpdInterval cfg) then probe st took now else Ok (st, [], Continue)
  end.

(** [case datagram := <-s.mux.IKE()] *)
Definition onDatagram (st : runState) (raw : list Z) (source : option Z) (took : bool) (ent : entropy) (now : Z) :
    res (runState * sent * verdictRun) :=
  o ← dispatch (rnSession st) raw source (rnPending st) took ent now;
  let dpd := match rnPending st with Some p => rqDpd (pnRequest p) | None => false end in
  let st := set_rnPending (set_session st (ocSession o)) (ocPending o) in
  let st := deliver st dpd (ocResult o) in
  let st := if ocAuthentic o then set_last st now else st in
  Ok (st, match ocSent o with Some (m, _) => [m] | None => [] end, Continue).

(** From the wait on. *)
Definition await (st : runState) (i : turnInput) : res (runState * sent * verdictRun) :=
  match inWake i with
  | WDatagram raw source took ent => onDatagram st raw source took ent (inAt i)
  | WDone => Ok (st, [], Return "transport: closed")
  | WAgain => Ok (st, [], Continue)
  | WTimer traffic took => onTimer st traffic took (inAt i)
  end.

(** One pass; [inAt] is not before [inNow]. *)
Definition turn (st : runState) (i : turnInput) : res (runState * sent * verdictRun) :=
  match expireRetiredChildren (world (rnSession st)) (inNow i) (inNow i) with
  | (w, Panic) => Panic
  | (w, Err e) => Ok (set_session st (closeSession (set_world (rnSession st) w)), [], Return e)
  | (w, Ok _) =>
      let st := set_session st (expireRetainedContexts (set_world (rnSession st) w) (inNow i)) in
      match takeResult st (inJitter i) (inNow i) with
      | Panic => Panic
      | Err e => Ok (set_session st (closeSession (rnSession st)), [], Return e)
      | Ok (st, true) => Ok (st, [], Continue)
      | Ok (st, false) =>
          let st := set_schedules st (map (poll (inNow i)) (rnSchedules st)) (rnRunning st) (rnResult st) in
          let st := startDueRekey st in
          let st := if inTraffic i then set_last st (inNow i) else st in
          '(st, out, e) ← pickRequest st (inTook i) (inNow i);
          match e with
          | Some e => Ok (st, out, Return e)
          | None => '(st, out', v) ← await st i; Ok (st, out ++ out', v)
          end
      end
  end.

(** ** Calls *)

Inductive call :=
| CallRekeyIKE (d : rekeyDraw)
| CallRekeyChild (proactive : bool) (now : Z) (ent ent' : entropy)
| CallDeleteIKE.

Definition begin (s : ikeSession) (c : call) : proc :=
  match c with
  | CallRekeyIKE d => RekeyIKE s d
  | CallRekeyChild proactive now ent ent' => rekeyChild s now proactive ent ent'
  | CallDeleteIKE => DeleteIKE s
  end.

(** A call begins while no other does: of the schedule that runs, or from outside. *)
Definition beginCall (st : runState) (c : call) (scheduled : bool) : runState :=
  match rnCall st with
  | Some _ => st
  | None =>
      proceed (mkRun (rnSession st) (rnPending st) (rnLast st) (rnSchedules st) (rnRunning st) (rnResult st) None false None scheduled)
        (begin (rnSession st) c)
  end.

(** What [Run] fills in. *)
Definition withDefaults (c : runConfig) : runConfig :=
  if (rekeyRetryInitial c =? 0) && (rekeyRetryMax c =? 0)
  then mkRunConfig (childRekeyInterval c) (ikeRekeyInterval c) (rekeyMargin c) (rekeyJitter c) (5 * Second_) (300 * Second_) (dpdEvery c)
  else c.

(** The loop before its first pass. *)
Definition startRun (s : ikeSession) (source : Z → res Z) (now : Z) : res runState :=
  child ← newRekeySchedule cfg source false (childRekeyInterval cfg) now;
  ike ← newRekeySchedule cfg source true (ikeRekeyInterval cfg) now;
  Ok (mkRun s None now (option_list child ++ option_list ike) None None None false None false).

End run.
