(* ===== verification/IkeInv.v ===== *)
(** * The invariant of an IKE session

    While the session's mux is open the hub delivers to it exactly the initiator
    SPIs of the IKE SAs it holds, and exactly the inbound SPIs of its Child SAs;
    every IKE SA it ever had has a PRF it can derive keys with. *)

From stdpp Require Import functions.
From S2P Require Import Prelude Netip Store Esp IkeMessage IkePayload IkeSa IkeSk IkeProposal IkeSelect TransHub Tunnel IkeChild IkeChildRun IkeSession IkeServe IkeExchange IkeRekey.

(** * What an exchange computes does not panic

    The keys, the encrypted payload and the negotiations of ike/liveness.go,
    child_rekey.go and ike_rekey.go return on every datagram, and what they take
    from one is no longer than it. *)

(** A test that refuses, in the hypothesis [H] that the code went on. *)
Ltac passed H := match type of H with (if ?b then _ else _) = _ => destruct b eqn:?; [done|] end.

(** ** Payloads *)

(** The payloads of a chain are parts of it. *)
Lemma walkChain_parts fuel : ∀ next b ps, walkChain fuel next b = Ok ps →
  (length (encodePayloadChain ps) ≤ length b)%nat ∧ (bytes_ok b → Forall (λ p, bytes_ok (Body p)) ps).
Proof.
  induction fuel as [|fuel IH]; intros next b ps; cbn [walkChain].
  { destruct (next =? PayloadNone); [|done]. destruct (_ <? _)%nat; [done|]. intros [= <-]. split; [cbn; lia | by constructor]. }
  destruct (next =? PayloadNone). { destruct (_ <? _)%nat; [done|]. intros [= <-]. split; [cbn; lia | by constructor]. }
  intros ([[p next'] rest] & Ht & Hr)%bind_ok_inv. apply bind_ok_inv in Hr as (ps' & Hw & [= <-]).
  apply takePayload_inv in Ht as (_ & _ & hd & Hhd & ->). destruct (IH _ _ _ Hw) as [Hl Hb]. split.
  - cbn [encodePayloadChain]. rewrite !length_app, length_be_to. cbn [length]. lia.
  - intros [_ [Hp Hrest]%Forall_app]%Forall_app. constructor; [done|]. by apply Hb.
Qed.

Lemma plaintext_parts first plain inner : decodeMessagePlaintext first plain = Ok inner →
  (length (encodePayloadChain inner) ≤ length plain)%nat ∧ (bytes_ok plain → Forall (λ p, bytes_ok (Body p)) inner).
Proof.
  unfold decodeMessagePlaintext. destruct (_ =? _)%nat; [done|]. intros (pad & _ & H1)%bind_ok_inv. passed H1.
  apply bind_ok_inv in H1 as (b & Hb & H2). apply slice_inv in Hb as (_ & Hl & ->).
  apply walkChain_parts in H2 as [H2 H3]. rewrite drop_0 in *. rewrite length_take in H2. split; [lia|].
  intros Hp. apply H3. by apply Forall_take.
Qed.

Lemma plaintext_safe first plain : safe (decodeMessagePlaintext first plain).
Proof.
  unfold decodeMessagePlaintext. destruct (Nat.eqb_spec (length plain) 0); [done|].
  apply safe_bind; [apply safe_idx; lia | intros pad _]. destruct (Nat.ltb_spec (length plain) (Z.to_nat pad + 1)); [done|].
  apply safe_bind; [apply safe_slice; lia | intros b _]. apply walkChain_safe. lia.
Qed.

Lemma part_length p ps : p ∈ ps → (length (Body p) ≤ length (encodePayloadChain ps))%nat.
Proof.
  induction ps as [|q ps IH]; [by intros []%not_elem_of_nil|]. cbn [encodePayloadChain]. rewrite !length_app.
  intros [->|Hp]%elem_of_cons; [lia|]. apply IH in Hp. lia.
Qed.

Lemma criticalFlags_safe ps : safe (validateResponseCriticalFlags ps).
Proof. induction ps as [|p ps IH]; [done|]. cbn [validateResponseCriticalFlags]. by destruct (Critical p). Qed.

Lemma findDeletes_safe inner : Forall (λ p, bytes_ok (Body p)) inner → ∀ acc, safe (findDeletes inner acc).
Proof.
  induction 1 as [|p inner Hp _ IH]; intros acc; [done|]. cbn [findDeletes]. destruct (negb _); [apply IH|].
  apply safe_bind; [by apply DecodeDelete_safe|]. intros d _. destruct (_ =? _); [done|]. apply IH.
Qed.

(** The SPIs of a Delete for Child SAs have four bytes. *)
Lemma splitSPIs_size k fuel : ∀ rest spis, splitSPIs fuel k rest = Ok spis → Forall (λ s, length s = k) spis.
Proof.
  induction fuel as [|fuel IH]; intros rest spis; cbn [splitSPIs]; destruct (_ <? _)%nat; try done; try (intros [= <-]; by constructor).
  intros (s & Hs & H1)%bind_ok_inv. apply bind_ok_inv in H1 as (r & _ & H1). apply bind_ok_inv in H1 as (l & Hl & [= <-]).
  constructor; [|by eapply IH]. apply slice_length in Hs. lia.
Qed.

Lemma DecodeDelete_size body d : DecodeDelete body = Ok d → dProtocol d = ProtoESP → Forall (λ s, length s = 4%nat) (SPIs d).
Proof.
  unfold DecodeDelete. destruct (_ <? _)%nat; [done|]. intros (pr & _ & H1)%bind_ok_inv.
  apply bind_ok_inv in H1 as (sz & _ & H1). apply bind_ok_inv in H1 as (cnt & _ & H1). apply bind_ok_inv in H1 as ([] & Hsz & H1).
  passed H1. apply bind_ok_inv in H1 as (rest & _ & H1). apply bind_ok_inv in H1 as (spis & Hs & [= <-]).
  cbn [dProtocol SPIs]. intros ->. change (ProtoESP =? ProtoIKE) with false in Hsz. change (ProtoESP =? ProtoESP) with true in Hsz.
  rewrite orb_true_r in Hsz. destruct (Z.eqb_spec sz 4) as [->|]; [|done]. by eapply splitSPIs_size.
Qed.

Lemma findDeletes_size inner : ∀ acc ds b, findDeletes inner acc = Ok (ds, b) →
  Forall (λ d, dProtocol d = ProtoESP → Forall (λ s, length s = 4%nat) (SPIs d)) acc →
  Forall (λ d, dProtocol d = ProtoESP → Forall (λ s, length s = 4%nat) (SPIs d)) ds.
Proof.
  induction inner as [|p inner IH]; intros acc ds b; cbn [findDeletes]; [by intros [= <- _]|].
  destruct (negb _); [apply IH|]. intros (d & Hd & H1)%bind_ok_inv. destruct (_ =? _); [by injection H1 as <- _|].
  intros Hacc. eapply IH; [exact H1|]. apply Forall_app. split; [done|]. apply Forall_singleton. by eapply DecodeDelete_size.
Qed.

Lemma readSPIs_safe spis : Forall (λ s, length s = 4%nat) spis → ∃ vs, readSPIs spis = Ok vs.
Proof.
  induction 1 as [|s spis Hs _ [vs Hvs]]; [by eexists|]. cbn [readSPIs]. unfold get_be. rewrite slice_ok by lia. rbind. rewrite Hvs. by eexists.
Qed.

(** ** The encrypted payload *)

Section sk.
Context {C : Crypto} {CL : CryptoLaws C}.

(** A sealed message: its IV is where the counter says. *)
Definition ivOf (raw : list Z) : list Z := take 8 (drop 32 raw).

Lemma encrypt_sealed suite iv key hdr inner :
  Z.of_nat (length (encodePayloadChain inner)) < 2 ^ 20 →
  let '(iv', r) := encrypt suite iv key hdr [] inner in
  iv' = u64 (iv + 1) ∧ safe r ∧ ∀ raw, r = Ok raw → iv' ≠ 0 ∧ ivOf raw = be_to 8 iv' ∧ (32 < length raw)%nat.
Proof.
  intros Hl. unfold encrypt. split; [done|]. destruct (Z.eqb_spec (u64 (iv + 1)) 0) as [|Hne]; [done|].
  unfold encryptMessageIV, encryptMessagePlaintextIV. set (v := be_to 8 _).
  destruct (aeadParams _ _) as [ap|e|] eqn:Hap; [|done|].
  2: { unfold aeadParams in Hap. repeat case_match; done. }
  rbind. destruct (aeadParams_inv _ _ _ Hap) as (Hkl & Hsl & Hivl & Hicv & _).
  destruct (Nat.eqb_spec (length key) (KeyLen ap + SaltLen ap)) as [Hk|]; [|done]. cbn [negb].
  rewrite slice_ok, from_ok by lia. rbind.
  destruct (newAEAD_ok _ _ _ (take (KeyLen ap - 0) (drop 0 key)) Hap) as (a & Ha & Haok); [rewrite drop_0, length_take; lia|].
  rewrite Ha. rbind. rewrite Hivl. assert (length v = 8%nat) as Hv by apply length_be_to. rewrite Hv. cbn [Nat.eqb negb].
  match goal with |- context [aeadSeal a ?n ?p ?d] => destruct (seal_total a Haok n p d) as (ct & -> & Hct & _) end.
  { rewrite length_app, length_drop, Hv. lia. }
  { rewrite length_app. cbn [length]. lia. }
  rbind. split; [done|]. match goal with |- context [Ok ?b = Ok _] => set (out := b) end.
  intros raw [= <-]. split; [done|]. unfold out. clear out. rewrite app_nil_l. split.
  - unfold ivOf. rewrite (app_assoc (encodeHeader _)). rewrite drop_app_length'.
    + rewrite take_app_length'; [done | by rewrite Hv].
    + rewrite !length_app, length_encodeHeader, length_be_to. done.
  - rewrite !length_app, length_encodeHeader, length_be_to, Hv. cbn [length HeaderLen]. unfold HeaderLen. lia.
Qed.

Lemma decrypt_safe suite key raw m : DecodeMessage raw = Ok m → safe (decryptMessagePlaintext suite key raw m) ∧
  ∀ first plain, decryptMessagePlaintext suite key raw m = Ok (first, plain) →
    (length plain ≤ length raw)%nat ∧ (bytes_ok raw → bytes_ok plain).
Proof.
  intros Hm. unfold decryptMessagePlaintext. destruct (find m PayloadSK) as [sk|] eqn:Ef; [|done].
  destruct (aeadParams _ _) as [ap|e|] eqn:Hap; [|done|].
  2: { unfold aeadParams in Hap. repeat case_match; done. }
  rbind. destruct (aeadParams_inv _ _ _ Hap) as (Hkl & Hsl & Hivl & Hicv & _).
  destruct (Nat.eqb_spec (length key) (KeyLen ap + SaltLen ap)) as [Hk|]; [|done]. cbn [negb].
  destruct (Nat.ltb_spec (length (Body sk)) (IVLen ap + ICVLen ap)) as [|Hb]; [done|].
  destruct (decoded_sk raw m sk Hm Ef) as (Hraw & Ho1 & Ho2). unfold genericPayloadHeaderLen in *.
  rewrite (slice_ok key), (from_ok key) by lia. rbind.
  destruct (newAEAD_ok _ _ _ (take (KeyLen ap - 0) (drop 0 key)) Hap) as (a & Ha & Haok); [rewrite drop_0, length_take; lia|].
  rewrite Ha. rbind. rewrite (slice_ok (Body sk)), (from_ok (Body sk)), !(slice_ok raw) by lia. rbind.
  match goal with |- context [aeadOpen a ?n ?c ?d] => assert (length n = 12%nat) as Hno; [|
    pose proof (open_safe a Haok n c d Hno) as Hs; pose proof (open_plain a Haok n c d) as Hp; destruct (aeadOpen a n c d) as [plain|e|] eqn:Eo;
    [|done|done]] end.
  { rewrite length_app, length_take, !length_drop. lia. }
  rbind. specialize (Hp _ Hno eq_refl) as [Hp1 Hp2].
  match goal with |- context [idx ?l 0] => destruct (idx l 0) as [f|e|] eqn:Ei; [|done|] end.
  2: { apply safe_idx in Ei; [done|]. rewrite length_take, length_drop. lia. }
  rbind. split; [done|]. intros ? ? [= <- <-]. rewrite length_drop in Hp1. split.
  - assert (length raw = (skHeaderOffset m + 4 + length (Body sk))%nat) by (rewrite Hraw at 1; rewrite length_app, length_take; lia). lia.
  - intros Hby. apply Hp2, Forall_drop. rewrite Hraw in Hby. by apply Forall_app in Hby as [_ Hby].
Qed.

End sk.

(** ** Keys *)

Section keys.
Context {H : Hmac} {HL : HmacLaws H}.

Lemma aeadParams_safe id bits : safe (aeadParams id bits).
Proof. unfold aeadParams. by repeat case_match. Qed.

Lemma deriveIKEKeys_safe suite seed ni nr i r : safe (deriveIKEKeys suite seed ni nr i r).
Proof.
  destruct (aeadParams (suEncrID suite) (suEncrKeyBits suite)) as [ap|e|] eqn:Hap.
  - destruct (decide (PRFOutputLen (suPRFID suite) = O)) as [Hz|Hp].
    + unfold deriveIKEKeys. rewrite Hap. rbind. by rewrite Hz.
    + by destruct (deriveIKEKeys_ok suite ap seed ni nr i r Hap Hp) as (k & -> & _).
  - unfold deriveIKEKeys. by rewrite Hap.
  - by destruct (aeadParams_safe _ _ Hap).
Qed.

Lemma DeriveRekeyed_safe old skd suite z ni nr i r : safe (DeriveRekeyedIKEKeys old skd suite z ni nr i r).
Proof.
  unfold DeriveRekeyedIKEKeys. destruct (Nat.eqb_spec (PRFOutputLen old) 0) as [|Ho]; [done|].
  destruct (prf_ok old skd (z ++ ni ++ nr) Ho) as (t & -> & _). rbind. apply deriveIKEKeys_safe.
Qed.

Lemma childSAKeymat_safe prfID skd z ni nr id bits : PRFOutputLen prfID ≠ O → safe (childSAKeymat prfID skd z ni nr id bits).
Proof.
  intros Hp. unfold childSAKeymat. destruct (aeadParams id bits) as [ap|e|] eqn:Hap; [|done|by destruct (aeadParams_safe _ _ Hap)]. rbind.
  destruct (prfPlus_ok prfID skd (z ++ ni ++ nr) (2 * (KeyLen ap + SaltLen ap)) Hp) as (s & -> & Hl). rbind.
  by rewrite slice_ok, from_ok by lia.
Qed.

End keys.

Section dh.
Context {E : ECDH} {EL : ECDHLaws E}.

Lemma GenerateDH_safe g r : safe (GenerateDH g r).
Proof. unfold GenerateDH. by destruct (_ || _). Qed.

Lemma GenerateDH_public g r dh : GenerateDH g r = Ok dh →
  dh = mkDH g (GenerateKey g r) ∧ ∃ pub, PublicBytes dh = Ok pub ∧ (length pub < 200)%nat ∧ bytes_ok pub ∧ pub ≠ [] ∧
    PublicKeyBytes g (GenerateKey g r) = (if g =? DH_CURVE25519 then pub else 4 :: pub).
Proof.
  unfold GenerateDH. destruct (_ || _); [|done]. intros [= <-]. split; [done|]. unfold PublicBytes. cbn [Group priv].
  destruct (ecdh_public g r) as [Hb Hl]. destruct (Z.eqb_spec g DH_CURVE25519) as [->|Hg].
  - eexists. split; [done|]. split_and!; [lia | done | by intros Hn; rewrite Hn in Hl; cbn in Hl; lia | done].
  - destruct (ecdh_point g r Hg) as [xy Hxy]. rewrite Hxy in *. rewrite from_ok by (cbn in *; lia). exists xy. cbn [length] in Hl.
    split_and!; [done | lia | by inversion Hb | by intros ->; cbn in Hl; lia | done].
Qed.

Lemma SharedSecret_safe dh p : safe (SharedSecret dh p).
Proof. apply ecdh_safe. Qed.

(** Two ends that hold each other's public values share a secret. *)
Lemma SharedSecret_agree g a b da db pa pb : GenerateDH g a = Ok da → GenerateDH g b = Ok db → PublicBytes da = Ok pa → PublicBytes db = Ok pb →
  ∃ z, SharedSecret da pb = Ok z ∧ SharedSecret db pa = Ok z.
Proof.
  intros Ha Hb Hpa Hpb. destruct (GenerateDH_public _ _ _ Ha) as (-> & pa' & Hpa' & _ & _ & _ & Ea).
  destruct (GenerateDH_public _ _ _ Hb) as (-> & pb' & Hpb' & _ & _ & _ & Eb).
  assert (pa' = pa) as -> by congruence. assert (pb' = pb) as -> by congruence.
  unfold SharedSecret. cbn [Group priv]. rewrite <- Ea, <- Eb. apply ecdh_agree.
Qed.

End dh.

(** ** Negotiations *)

Lemma canonicalEncryption_safe t : safe (canonicalEncryptionTransform t).
Proof.
  unfold canonicalEncryptionTransform.
  repeat (match goal with |- safe (if ?b then _ else _) => destruct b; [done|] end).
  apply safe_bind; [apply aeadParams_safe | done].
Qed.

Lemma canonicalChild_safe c : safe (canonicalChildCipher c).
Proof. apply canonicalEncryption_safe. Qed.

Lemma selectChild_safe want g props : ∀ pd, safe (selectChild want g props pd).
Proof.
  induction props as [|p props IH]; intros pd; cbn [selectChild]; [by destruct (negb _)|].
  destruct (negb _); [apply IH|]. destruct (childSuite want p) as [[e i]|]; [|apply IH].
  destruct (selectDHTransform _ _ _) as [[dh pref] ok]. destruct ok; [done | apply IH].
Qed.

Lemma selectChildRequest_safe body expected g : safe (selectChildRequestProposal body expected g).
Proof.
  unfold selectChildRequestProposal. destruct (DecodeSA body) as [props|e|] eqn:Ed; [|done|by destruct (DecodeSA_safe body)].
  apply safe_bind; [|intros want _; apply selectChild_safe]. destruct expected as [c|]; [|done].
  apply safe_bind; [apply canonicalChild_safe | done].
Qed.

Lemma scanAnswer_safe ts : ∀ e b, safe (scanAnswer ts e b).
Proof.
  induction ts as [|t ts IH]; intros e b; cbn [scanAnswer]; [done|]. destruct (_ =? _).
  - destruct e; [done|]. apply safe_bind; [apply canonicalEncryption_safe | intros; apply IH].
  - destruct (_ =? _); [|done]. destruct (_ || _); [done | apply IH].
Qed.

Lemma decodeChildProposal_safe body expected : safe (decodeChildProposal body expected).
Proof.
  unfold decodeChildProposal. destruct (DecodeSA body) as [[|p [|]]|e|] eqn:Ed; try done; [|by destruct (DecodeSA_safe body)].
  destruct (_ || _) eqn:Eb; [done|]. bool_props.
  apply safe_bind; [apply safe_get_be | intros v _]. { repeat match goal with H : (_ =? _)%nat = true |- _ => apply Nat.eqb_eq in H end. lia. }
  destruct (_ =? _); [done|]. apply safe_bind; [apply scanAnswer_safe|]. intros [[e|] []] _; try done.
  destruct expected as [c|]; [|by destruct (offeredCipher e)].
  pose proof (canonicalChild_safe c). destruct (canonicalChildCipher c); [by destruct (sameCipher _ _) | done | done].
Qed.

Lemma parseChild_safe ps : ∀ out, safe (parseChildPayloads ps out).
Proof.
  induction ps as [|p ps IH]; intros out; [done|]. cbn [parseChildPayloads]. apply safe_bind; [|intros; apply IH]. unfold parseChildPayload, setUnique.
  repeat (match goal with |- safe (if ?b then _ else _) => destruct b end; try (apply safe_bind; [by case_match | done])); try done.
  apply safe_bind; [apply DecodeNotify_safe | done].
Qed.

Lemma validateComplete_ok p prfID r : validateCompleteChildExchange p prfID = Ok r →
  is_Some (cxSA p) ∧ is_Some (cxNonce p) ∧ is_Some (cxTSi p) ∧ is_Some (cxTSr p).
Proof. unfold validateCompleteChildExchange. by repeat case_match. Qed.

Lemma validateComplete_safe p prfID : safe (validateCompleteChildExchange p prfID).
Proof. unfold validateCompleteChildExchange. by repeat case_match. Qed.

Lemma decodeChildExchange_safe ps prfID : safe (decodeChildExchangePayloads ps prfID).
Proof. apply safe_bind; [apply parseChild_safe|]. intros out _. apply safe_bind; [apply validateComplete_safe | done]. Qed.

(** A selected suite has a PRF this node knows. *)
Lemma selectTransforms_ours ts : ∀ m m', selectTransforms ts m = Ok m' →
  (∀ k t, m !! k = Some t → t ∈ Transforms ikeProposal ∧ trType t = k) →
  ∀ k t, m' !! k = Some t → t ∈ Transforms ikeProposal ∧ trType t = k.
Proof.
  induction ts as [|t ts IH]; intros m m'; cbn [selectTransforms]; [by intros [= <-]|].
  intros Hs Hm. passed Hs. passed Hs. passed Hs. bool_props.
  eapply IH; [exact Hs|]. intros k u. destruct (decide (k = trType t)) as [->|Hne].
  - rewrite lookup_insert_eq. by intros [= <-].
  - rewrite lookup_insert_ne by done. apply Hm.
Qed.

Lemma suiteFromProposal_prf p s : suiteFromProposal p = Ok s → PRFOutputLen (suPRFID s) ≠ O.
Proof.
  unfold suiteFromProposal. destruct (_ || _); [done|]. intros (m & Hm & Hs)%bind_ok_inv.
  pose proof (selectTransforms_ours _ _ _ Hm ltac:(by intros k t; rewrite lookup_empty) TransPRF) as Hp.
  destruct (m !! TransEncr) as [e|]; [|done]. destruct (m !! TransPRF) as [t|]; [|done]. destruct (m !! TransDH) as [d|]; [|done].
  injection Hs as <-. cbn [suPRFID]. destruct (Hp t eq_refl) as [Hin Ht].
  unfold ikeProposal in Hin. cbn [Transforms] in Hin. rewrite !elem_of_cons, elem_of_nil in Hin.
  by repeat (destruct Hin as [->|Hin]; [try done; vm_compute in Ht; done|]).
Qed.

Lemma suiteFromProposal_safe p : safe (suiteFromProposal p).
Proof.
  unfold suiteFromProposal. destruct (_ || _); [done|]. apply safe_bind; [|intros m _; by repeat case_match].
  generalize (∅ : gmap Z Transform). induction (Transforms p) as [|t ts IH]; intros m; cbn [selectTransforms]; [done|].
  repeat (match goal with |- safe (if ?b then _ else _) => destruct b; [done|] end). apply IH.
Qed.

Lemma selectIKERekey_prf g prfID props : ∀ pd ts s p, selectIKERekey g prfID props pd = inl (ts, s, p) →
  PRFOutputLen (suPRFID s) ≠ O ∧ p ∈ props ∧ (length ts ≤ 4)%nat ∧ length (SPI p) = 8%nat.
Proof.
  induction props as [|q props IH]; intros pd ts s p; cbn [selectIKERekey]; [done|].
  destruct (_ || _) eqn:Eb. { intros (? & ? & ? & ?)%IH. split_and!; try done. by right. }
  destruct (selectIKERekeyProposal q g prfID) as [[[ts' s']|] pref] eqn:Es.
  2: { intros (? & ? & ? & ?)%IH. split_and!; try done. by right. }
  intros [= -> -> ->]. bool_props. unfold selectIKERekeyProposal in Es. destruct (ikeIntegrity _) as [integ|]; [|done].
  destruct (pick _ _ TransEncr) as [e|]; [|done]. destruct (pick _ _ TransPRF) as [pt|]; [|done].
  destruct (selectDHTransform _ _ _) as [[dh pr] ok]. destruct ok; [|done]. cbn [negb] in Es.
  destruct (suiteFromProposal _) as [s0| |] eqn:Esu; [|done..]. injection Es as <- <- _. split_and!.
  - by eapply suiteFromProposal_prf.
  - by left.
  - by destruct integ; cbn; lia.
  - by apply Nat.eqb_eq.
Qed.

Lemma acceptIKERekey_safe body nonce offered g : safe (acceptIKERekey body nonce offered g) ∧
  ∀ s spi, acceptIKERekey body nonce offered g = Ok (s, spi) → PRFOutputLen (suPRFID s) ≠ O.
Proof.
  unfold acceptIKERekey. destruct (DecodeSA body) as [[|p [|]]|e|] eqn:Ed; try done; [|by destruct (DecodeSA_safe body)].
  destruct (_ || _) eqn:Eb; [done|]. bool_props.
  pose proof (suiteFromProposal_safe (mkProposal (Number p) (Protocol p) [] (Transforms p))) as Hs.
  destruct (suiteFromProposal _) as [s| |] eqn:Es; [|done|done].
  repeat (match goal with |- safe (if ?b then _ else _) ∧ _ => destruct b; [done|] end).
  repeat match goal with H : (_ =? _)%nat = true |- _ => apply Nat.eqb_eq in H end.
  unfold get_be. rewrite slice_ok by lia. rbind. destruct (_ =? 0); [done|]. split; [done|]. intros ? ? [= <- _].
  by eapply suiteFromProposal_prf.
Qed.

(** What a Child SA exchange takes is among its payloads. *)
Definition parts (out : childExchangePayloads) (ps : list RawPayload) : Prop :=
  ∀ p, cxSA out = Some p ∨ cxNonce out = Some p ∨ cxTSi out = Some p ∨ cxTSr out = Some p → p ∈ ps.

Lemma parseChild_parts ps : ∀ out out' seen, parseChildPayloads ps out = Ok out' → parts out seen → parts out' (seen ++ ps).
Proof.
  induction ps as [|p ps IH]; intros out out' seen; cbn [parseChildPayloads]; [intros [= <-] Hp; by rewrite app_nil_r|].
  intros (o & Ho & Hr)%bind_ok_inv Hp. replace (seen ++ p :: ps) with ((seen ++ [p]) ++ ps) by (by rewrite <- app_assoc).
  apply (IH o); [done|]. clear IH Hr. unfold parseChildPayload, setUnique in Ho. unfold parts in *.
  repeat (match type of Ho with (if ?b then _ else _) = _ => destruct b end; [
    try (apply bind_ok_inv in Ho as (y & Hy & [= <-]); try (case_match; [done|]; injection Hy as <-);
         cbn [cxSA cxNonce cxKE cxTSi cxTSr cxNotifies]; intros q Hq; apply elem_of_app; specialize (Hp q);
         assert (q ∈ [p] ↔ q = p) as Hqp by apply list_elem_of_singleton; naive_solver)|]).
  - done.
  - injection Ho as <-. intros q Hq. apply elem_of_app. left. by apply Hp.
Qed.

Lemma decodeChildExchange_parts ps prfID out : decodeChildExchangePayloads ps prfID = Ok out →
  parts out ps ∧ is_Some (cxSA out) ∧ is_Some (cxNonce out) ∧ is_Some (cxTSi out) ∧ is_Some (cxTSr out).
Proof.
  intros (o & Ho & H1)%bind_ok_inv. apply bind_ok_inv in H1 as (u & Hu & [= <-]). split; [|by eapply validateComplete_ok].
  apply (parseChild_parts ps _ _ [] Ho). intros p Hp. cbn in Hp. naive_solver.
Qed.

Lemma findRekey_safe inner : ∀ r, safe (findRekey inner r).
Proof.
  induction inner as [|p inner IH]; intros r; [done|]. cbn [findRekey]. destruct (negb _); [apply IH|].
  apply safe_bind; [apply DecodeNotify_safe | intros; apply IH].
Qed.

Lemma childKE_safe p : ∃ r, childKE p = Ok r.
Proof.
  unfold childKE. destruct (cxKE p) as [ke|]; [|by eexists]. pose proof (DecodeKE_safe (Body ke)).
  destruct (DecodeKE (Body ke)) as [[g pub]| |]; [by eexists.. | done].
Qed.

Lemma retryGroup_safe ps : safe (retryGroup ps).
Proof.
  induction ps as [|p ps IH]; [done|]. cbn [retryGroup]. destruct (negb _); [apply IH|]. pose proof (DecodeNotify_safe (Body p)).
  destruct (DecodeNotify (Body p)) as [n| |]; [|done|done]. destruct (negb _); [apply IH|].
  destruct (Nat.eqb_spec (length (nData n)) 2); [|done]. apply safe_get_be. lia.
Qed.

Lemma rekeyAnswerPayloads_safe ps : ∀ a b c, safe (rekeyAnswerPayloads ps a b c).
Proof.
  induction ps as [|p ps IH]; intros a b c; cbn [rekeyAnswerPayloads]; [by destruct a, b, c|].
  destruct (_ =? PayloadN). { pose proof (DecodeNotify_safe (Body p)). destruct (DecodeNotify (Body p)); [|done|done]. destruct (_ <? _); [done | apply IH]. }
  repeat (match goal with |- safe (if ?b then _ else _) => destruct b; [apply IH|] end). apply IH.
Qed.

Lemma checkDeletes_safe ps : Forall (λ p, bytes_ok (Body p)) ps → safe (checkDeletes ps).
Proof.
  induction 1 as [|p ps Hp _ IH]; [done|]. cbn [checkDeletes]. destruct (negb _); [done|]. pose proof (DecodeDelete_safe (Body p) Hp).
  by destruct (DecodeDelete (Body p)).
Qed.

Section accept.
Context {C : Crypto} {H : Hmac} {HL : HmacLaws H} {E : ECDH} {EL : ECDHLaws E}.

Lemma childSecret_safe sel peer random : safe (childSecret sel peer random) ∧
  ∀ z pub, childSecret sel peer random = Ok (Some (z, Some pub)) → (length pub < 200)%nat.
Proof.
  unfold childSecret. destruct (negb _); [|by split; [|intros ? ? [=]]]. pose proof (GenerateDH_safe (trID (selDH sel)) random).
  destruct (GenerateDH _ random) as [dh| |] eqn:Ed; [|done|done]. rbind. pose proof (SharedSecret_safe dh peer).
  destruct (SharedSecret dh peer); [|done|done]. destruct (GenerateDH_public _ _ _ Ed) as (_ & pub & -> & Hl & _). rbind.
  split; [done|]. by intros ? ? [= _ <-].
Qed.

Lemma acceptRekey_safe x d g dh ps : safe (acceptRekey x d g dh ps) ∧
  ∀ new nonce, acceptRekey x d g dh ps = Ok (new, nonce) → PRFOutputLen (suPRFID (cxSuite new)) ≠ O ∧ spiI new = rdSPI d.
Proof.
  unfold acceptRekey. pose proof (rekeyAnswerPayloads_safe ps None None None).
  destruct (rekeyAnswerPayloads _ _ _ _) as [[[sa nonce] ke]| |]; [|done|done]. rbind.
  match goal with |- context [acceptIKERekey ?a ?b ?c ?g] => destruct (acceptIKERekey_safe a b c g) as [Hs Hp]; destruct (acceptIKERekey a b c g) as [[s spi]| |] end;
    [|done|done]. rbind.
  pose proof (DecodeKE_safe (Body ke)). destruct (DecodeKE (Body ke)) as [[pg pub]| |]; [|done|done]. destruct (negb _); [done|].
  pose proof (SharedSecret_safe dh pub). destruct (SharedSecret dh pub) as [z| |]; [|done|done]. rbind.
  match goal with |- context [DeriveRekeyedIKEKeys ?a ?b ?c ?d ?e ?f ?g ?h] => pose proof (DeriveRekeyed_safe a b c d e f g h); destruct (DeriveRekeyedIKEKeys a b c d e f g h) as [k| |] end;
    [|done|done]. rbind. split; [done|]. intros ? ? [= <- _]. split; [by eapply Hp | done].
Qed.

Lemma acceptedChild_safe x old ent ps : PRFOutputLen (suPRFID (cxSuite x)) ≠ O → safe (acceptedChild x old ent ps).
Proof.
  intros Hp. unfold acceptedChild. apply safe_bind.
  - unfold acceptChild. apply safe_bind.
    + unfold decodeChildNegotiationResponse. apply safe_bind; [apply parseChild_safe|]. intros out _.
      destruct (List.find _ _); [done|]. apply safe_bind; [apply validateComplete_safe|]. intros _ _. by destruct (cxKE out).
    + intros [out|n] Ho; [|done]. unfold decodeChildNegotiationResponse in Ho. apply bind_ok_inv in Ho as (o & _ & Ho).
      destruct (List.find _ _); [done|]. apply bind_ok_inv in Ho as (u & Hu & Ho). destruct (cxKE o); [done|]. injection Ho as <-.
      destruct (validateComplete_ok _ _ _ Hu) as ([sa ->] & [no ->] & _ & _). apply safe_bind; [apply decodeChildProposal_safe|].
      intros [[p e] spi] _. apply safe_bind; [|done]. unfold validateFullRangeSelectors. by repeat case_match.
  - intros [[[e spi] nonce]|n] _; [|done]. apply safe_bind; [by apply childSAKeymat_safe | by intros [? ?]].
Qed.

End accept.

(** ** Lengths *)

Lemma length_transforms ts : (length (encodeTransforms ts) ≤ 12 * length ts)%nat.
Proof.
  induction ts as [|t ts IH]; [done|]. cbn [encodeTransforms length]. rewrite length_app, length_encodeTransform.
  destruct (length_encodeAttrs t) as [-> | ->]; lia.
Qed.

Lemma length_EncodeSA_one p : (length (EncodeSA [p]) ≤ 8 + length (SPI p) + 12 * length (Transforms p))%nat.
Proof. cbn [EncodeSA]. rewrite app_nil_r, length_encodeProposal. pose proof (length_transforms (Transforms p)). lia. Qed.

Lemma length_EncodeNotify n : length (EncodeNotify n) = (4 + length (nSPI n) + length (nData n))%nat.
Proof. unfold EncodeNotify. rewrite !length_app, length_be_to. cbn [length]. lia. Qed.

Lemma length_EncodeKE g pub : length (EncodeKE g pub) = (4 + length pub)%nat.
Proof. unfold EncodeKE. rewrite !length_app, length_be_to. cbn [length]. lia. Qed.

(** ** Child SAs, of a mux that may be closed *)

(** A closed mux has no SPIs; the session and its tunnel go on as on some hub that
    still had them. *)
Definition openWorld (w : World) : Prop := isClosed (hub w) (mux (sess w)) = false.
Definition fits (clk : Z) (w : World) : Prop :=
  (openWorld w → world_ok clk w) ∧ ∃ h, world_ok clk (mkWorld h (sess w) (tun w)).

(** The operations that take Child SAs out look at the hub only to unregister. *)
Definition alike (w1 w2 : World) : Prop := sess w1 = sess w2 ∧ tun w1 = tun w2.
Definition blind {A} (f : World → World * res A) : Prop :=
  ∀ w1 w2, alike w1 w2 → alike (f w1).1 (f w2).1 ∧ (f w1).2 = (f w2).2.

(** What Child SA operations leave alone. *)
Definition aside (w w' : World) : Prop :=
  ike (hub w') = ike (hub w) ∧ muxes (hub w') = muxes (hub w) ∧ hubClosed (hub w') = hubClosed (hub w) ∧ mux (sess w') = mux (sess w).

Lemma aside_refl w : aside w w.
Proof. done. Qed.

Lemma aside_trans w1 w2 w3 : aside w1 w2 → aside w2 w3 → aside w1 w3.
Proof. unfold aside. intros (?&?&?&?) (?&?&?&?). split_and!; congruence. Qed.

Lemma aside_open w w' : aside w w' → openWorld w' ↔ openWorld w.
Proof. intros (_&Hm&Hc&Hx). unfold openWorld, isClosed. by rewrite Hm, Hc, Hx. Qed.

Lemma retireInbound_blind spi replaced now : blind (λ w, retireInboundLocked w spi replaced now).
Proof.
  intros [h1 s1 t1] [h2 s2 t2] [Hs Ht]. cbn in Hs, Ht. subst. unfold retireInboundLocked. cbn [sess tun hub].
  destruct (replaced && _); [done|]. by destruct (if handlers s2 then _ else _).
Qed.

Lemma retireInbound_aside w spi replaced now : aside w (retireInboundLocked w spi replaced now).1.
Proof.
  destruct w as [h s t]. unfold retireInboundLocked. cbn [sess tun hub]. destruct (replaced && _); [done|].
  by destruct (if handlers s then _ else _).
Qed.

Lemma retireChild_blind remote now : blind (λ w, retireChild w remote now).
Proof.
  intros w1 w2 Hw. unfold retireChild. pose proof Hw as [<- _]. destruct (_ =? 0); [done|]. destruct (negb _); [done|].
  destruct (retireInbound_blind (LocalSPI (retiring (sess w1))) true now w1 w2 Hw) as [[Hs Ht] Hr].
  destruct (retireInboundLocked w1 _ _ _) as [w1' r1], (retireInboundLocked w2 _ _ _) as [w2' r2]. cbn [fst snd] in *. subst r2.
  destruct r1; cbn [fst snd]; [|done|done]. unfold set_sess. cbn [sess tun]. rewrite Hs. done.
Qed.

Lemma retireChild_aside w remote now : aside w (retireChild w remote now).1.
Proof.
  unfold retireChild. destruct (_ =? 0); [done|]. destruct (negb _); [done|].
  pose proof (retireInbound_aside w (LocalSPI (retiring (sess w))) true now) as Ha. by destruct (retireInboundLocked w _ _ _) as [w' []].
Qed.

Lemma forgetChild_blind child now : blind (λ w, forgetChild w child now).
Proof.
  intros w1 w2 Hw. unfold forgetChild. pose proof Hw as [<- _]. destruct (_ =? 0); [done|]. destruct (_ || _); [done|].
  destruct (retireInbound_blind (LocalSPI child) false now w1 w2 Hw) as [[Hs Ht] Hr].
  destruct (retireInboundLocked w1 _ _ _) as [w1' r1], (retireInboundLocked w2 _ _ _) as [w2' r2]. cbn [fst snd] in *. subst r2.
  destruct r1; cbn [fst snd]; [|done|done]. unfold set_sess. cbn [sess tun]. rewrite Hs. done.
Qed.

Lemma forgetChild_aside w child now : aside w (forgetChild w child now).1.
Proof.
  unfold forgetChild. destruct (_ =? 0); [done|]. destruct (_ || _); [done|].
  pose proof (retireInbound_aside w (LocalSPI child) false now) as Ha. by destruct (retireInboundLocked w _ _ _) as [w' []].
Qed.

Lemma deleteChildren_blind remotes now : blind (λ w, deleteChildren w remotes now).
Proof.
  unfold deleteChildren. generalize (@nil Z) as acc.
  induction remotes as [|r rest IH]; intros acc w1 w2 Hw; [done|]. cbn [deleteLoop]. pose proof Hw as [Hs0 _]. rewrite <- Hs0.
  destruct (negb _ && _).
  - destruct (retireInbound_blind (LocalSPI (Child (sess w1))) false now w1 w2 Hw) as [[Hs Ht] Hr].
    destruct (retireInboundLocked w1 _ _ _) as [w1' r1], (retireInboundLocked w2 _ _ _) as [w2' r2]. cbn [fst snd] in *. subst r2.
    destruct r1; [|done|done]. apply IH. split; cbn [set_sess sess tun]; congruence.
  - destruct (negb _ && _); [|by apply IH].
    destruct (retireInbound_blind (LocalSPI (retiring (sess w1))) true now w1 w2 Hw) as [[Hs Ht] Hr].
    destruct (retireInboundLocked w1 _ _ _) as [w1' r1], (retireInboundLocked w2 _ _ _) as [w2' r2]. cbn [fst snd] in *. subst r2.
    destruct r1; [|done|done]. apply IH. split; cbn [set_sess sess tun]; congruence.
Qed.

Lemma deleteChildren_aside w remotes now : aside w (deleteChildren w remotes now).1.
Proof.
  unfold deleteChildren. generalize (@nil Z) as acc. revert w. induction remotes as [|r rest IH]; intros w acc; [done|]. cbn [deleteLoop].
  destruct (negb _ && _).
  - pose proof (retireInbound_aside w (LocalSPI (Child (sess w))) false now) as Ha.
    destruct (retireInboundLocked w _ _ _) as [w' []]; [|done|done]. eapply aside_trans; [|apply IH]. exact Ha.
  - destruct (negb _ && _); [|apply IH]. pose proof (retireInbound_aside w (LocalSPI (retiring (sess w))) true now) as Ha.
    destruct (retireInboundLocked w _ _ _) as [w' []]; [|done|done]. eapply aside_trans; [|apply IH]. exact Ha.
Qed.

Lemma expireLoop_blind due now clock : blind (λ w, expireLoop due w now clock).
Proof.
  induction due as [|r due IH]; intros w1 w2 Hw; [done|]. cbn [expireLoop]. destruct (_ <? _); [done|].
  destruct (retireInbound_blind r.1 false clock w1 w2 Hw) as [[Hs Ht] Hr].
  destruct (retireInboundLocked w1 _ _ _) as [w1' r1], (retireInboundLocked w2 _ _ _) as [w2' r2]. cbn [fst snd] in *. subst r2.
  destruct r1; [|done|done]. apply IH. split; cbn [set_sess sess tun]; congruence.
Qed.

Lemma expireLoop_aside due : ∀ w now clock, aside w (expireLoop due w now clock).1.
Proof.
  induction due as [|r due IH]; intros w now clock; [done|]. cbn [expireLoop]. destruct (_ <? _); [done|].
  pose proof (retireInbound_aside w r.1 false clock) as Ha. destruct (retireInboundLocked w _ _ _) as [w' []]; [|done|done].
  eapply aside_trans; [|apply IH]. exact Ha.
Qed.

Lemma expire_blind now clock : blind (λ w, expireRetiredChildren w now clock).
Proof.
  intros w1 w2 Hw. unfold expireRetiredChildren. pose proof Hw as [Hs0 _]. rewrite <- Hs0.
  destruct (negb _ && _); [|by apply expireLoop_blind].
  destruct (retireInbound_blind (LocalSPI (retiring (sess w1))) true clock w1 w2 Hw) as [[Hs Ht] Hr].
  destruct (retireInboundLocked w1 _ _ _) as [w1' r1], (retireInboundLocked w2 _ _ _) as [w2' r2]. cbn [fst snd] in *. subst r2.
  destruct r1; [|done|done]. cbn [set_sess sess]. rewrite <- Hs. apply expireLoop_blind. split; cbn [set_sess sess tun]; congruence.
Qed.

Lemma expire_aside w now clock : aside w (expireRetiredChildren w now clock).1.
Proof.
  unfold expireRetiredChildren. destruct (negb _ && _); [|apply expireLoop_aside].
  pose proof (retireInbound_aside w (LocalSPI (retiring (sess w))) true clock) as Ha.
  destruct (retireInboundLocked w _ _ _) as [w' []]; [|done|done]. eapply aside_trans; [|apply expireLoop_aside]. exact Ha.
Qed.

Lemma fits_op {A} (f : World → World * res A) (P : res A → Prop) clk now w :
  blind f → (∀ w, aside w (f w).1) → (∀ w, world_ok clk w → world_ok now (f w).1 ∧ P (f w).2) →
  fits clk w → fits now (f w).1 ∧ P (f w).2 ∧ aside w (f w).1.
Proof.
  intros Hb Ha Hf [Ho [h Hh]]. set (g := mkWorld h (sess w) (tun w)) in *. destruct (Hb w g) as [[Hs Ht] Hr]; [done|].
  destruct (Hf g Hh) as [Hg HP]. split_and!; [split | by rewrite Hr | apply Ha].
  - intros Hop. apply Hf, Ho. by apply (aside_open w _ (Ha w)).
  - exists (hub (f g).1). rewrite Hs, Ht. by destruct (f g).1.
Qed.

Lemma fits_later clk now w : clk ≤ now → fits clk w → fits now w.
Proof. intros Hn [Ho [h Hh]]. split; [intros Hop; eapply world_later; [exact Hn | by apply Ho]|]. exists h. by eapply world_later. Qed.

Lemma fits_retire clk now w remote : clk ≤ now → fits clk w →
  fits now (retireChild w remote now).1 ∧ safe (retireChild w remote now).2 ∧ aside w (retireChild w remote now).1.
Proof.
  intros Hn. apply (fits_op (λ w, retireChild w remote now) safe); [apply retireChild_blind | intros; apply retireChild_aside|].
  intros w0 Hw. pose proof (retireChild_spec w0 remote clk now Hw Hn) as Hs.
  destruct (retireChild w0 remote now) as [w' []]; cbn [fst snd]; [by destruct Hs | | done].
  destruct Hs as [-> _]. split; [by eapply world_later | done].
Qed.

Lemma fits_forget clk now w child : clk ≤ now → fits clk w →
  fits now (forgetChild w child now).1 ∧ safe (forgetChild w child now).2 ∧ aside w (forgetChild w child now).1.
Proof.
  intros Hn. apply (fits_op (λ w, forgetChild w child now) safe); [apply forgetChild_blind | intros; apply forgetChild_aside|].
  intros w0 Hw. pose proof (forgetChild_spec w0 child clk now Hw Hn) as Hs.
  destruct (forgetChild w0 child now) as [w' []]; cbn [fst snd]; [by destruct Hs | | done].
  destruct Hs as [-> _]. split; [by eapply world_later | done].
Qed.

Lemma fits_delete clk now w remotes : clk ≤ now → fits clk w →
  fits now (deleteChildren w remotes now).1 ∧ (∃ out, (deleteChildren w remotes now).2 = Ok out) ∧ aside w (deleteChildren w remotes now).1.
Proof.
  intros Hn. apply (fits_op (λ w, deleteChildren w remotes now) (λ r, ∃ out, r = Ok out)); [apply deleteChildren_blind | intros; apply deleteChildren_aside|].
  intros w0 Hw. destruct (deleteLoop_spec remotes w0 [] now (world_later clk now w0 Hn Hw)) as (w'&out&He&Hok&_).
  unfold deleteChildren. rewrite He. split; [done|]. by eexists.
Qed.

Lemma fits_expire clk now w : clk ≤ now → fits clk w →
  fits now (expireRetiredChildren w now now).1 ∧ (expireRetiredChildren w now now).2 = Ok () ∧ aside w (expireRetiredChildren w now now).1.
Proof.
  intros Hn. apply (fits_op (λ w, expireRetiredChildren w now now) (λ r, r = Ok ())); [apply expire_blind | intros; apply expire_aside|].
  intros w0 Hw. destruct (expire_spec w0 now now clk Hw Hn (Z.le_refl _)) as (w'&He&Hok&_). by rewrite He.
Qed.

Lemma fits_replace `{CL : CryptoLaws} clk now w child : clk ≤ now → fits clk w →
  fits now (replaceChild w child now).1 ∧ safe (replaceChild w child now).2 ∧ aside w (replaceChild w child now).1.
Proof.
  intros Hn Hf. destruct (isClosed (hub w) (mux (sess w))) eqn:Ho.
  - unfold replaceChild. destruct (canReplaceChild _ _) as [u| |] eqn:Hc.
    + unfold RegisterESP. rewrite Ho. assert (∀ b : bool, ∃ e, (if b then Err "transport: ESP SPI must be nonzero" else Err "transport: closed") = (Err e : res Hub))
        as Hb by (intros []; by eexists). destruct (Hb (LocalSPI child =? 0)) as [e ->]. cbn [fst snd]. split_and!; [by eapply fits_later | done | done].
    + split_and!; [by eapply fits_later | done | done].
    + unfold canReplaceChild in Hc. repeat case_match; done.
  - destruct Hf as [Hop _]. specialize (Hop Ho). pose proof (replaceChild_spec w child now clk Hop Hn) as Hs.
    destruct (replaceChild w child now) as [w' r] eqn:Er. cbn [fst snd]. destruct r as [u|e|]; [|subst w'|done].
    + destruct Hs as (Hok&Hc&_). split_and!; [|done|].
      * split; [done|]. exists (hub w'). by destruct w'.
      * unfold replaceChild in Er. destruct (canReplaceChild _ _); [|done..]. destruct (RegisterESP _ _ _) as [h| |] eqn:Ereg; [|done..].
        destruct (if handlers (sess w) then _ else _); [|done..]. injection Er as <-. unfold RegisterESP in Ereg. repeat case_match; try done.
        injection Ereg as <-. unfold aside. cbn [hub sess set_tables ike muxes hubClosed]. split_and!; try done. unfold promote. by destruct (negb _).
    + split_and!; [|done|done]. eapply fits_later; [done|]. split; [done|]. exists (hub w). by destruct w.
Qed.

(** How many Child SAs a Delete can still take. *)
Definition slots (s : Session) : nat := length (slot (Child s)) + length (slot (retiring s)).

Lemma retireInbound_slots w spi replaced now w' r : retireInboundLocked w spi replaced now = (w', r) →
  Child (sess w') = Child (sess w) ∧ retiring (sess w') = retiring (sess w).
Proof.
  destruct w as [h s t]. unfold retireInboundLocked. cbn [sess tun hub]. destruct (replaced && _); [by intros [= <- _]|].
  destruct (if handlers s then retire t spi else Ok t); by intros [= <- _].
Qed.

Lemma deleteLoop_slots remotes now : ∀ w acc w' out, deleteLoop w remotes acc now = (w', Ok out) →
  (length out + slots (sess w') ≤ length acc + slots (sess w))%nat.
Proof.
  induction remotes as [|r rest IH]; intros w acc w' out; cbn [deleteLoop]; [by intros [= <- <-]|].
  destruct (negb (LocalSPI (Child (sess w)) =? 0) && (RemoteSPI (Child (sess w)) =? r)) eqn:E1.
  - destruct (retireInboundLocked w _ _ _) as [w1 []] eqn:Er; [|done..]. intros Hd%IH. apply retireInbound_slots in Er as [Hc Hr].
    bool_props. rewrite length_app in Hd. unfold slots in *. cbn [set_sess sess set_child Child retiring length] in *. rewrite Hr in *.
    rewrite (slot_some (Child (sess w))) by done. change (length (slot noChild)) with O in *. cbn [length]. lia.
  - destruct (negb (LocalSPI (retiring (sess w)) =? 0) && (RemoteSPI (retiring (sess w)) =? r)) eqn:E2; [|apply IH].
    destruct (retireInboundLocked w _ _ _) as [w1 []] eqn:Er; [|done..]. intros Hd%IH. apply retireInbound_slots in Er as [Hc Hr].
    bool_props. rewrite length_app in Hd. unfold slots in *. cbn [set_sess sess set_retiring Child retiring length] in *. rewrite Hc in *.
    rewrite (slot_some (retiring (sess w))) by done. change (length (slot noChild)) with O in *. cbn [length]. lia.
Qed.

Lemma fits_deleteESP clk now ds : clk ≤ now → Forall (λ d, dProtocol d = ProtoESP → Forall (λ s, length s = 4%nat) (SPIs d)) ds →
  ∀ w acc, fits clk w → Forall (λ s, length s = 4%nat) acc →
  ∃ w' out, deleteESP w ds acc now = (w', Ok out) ∧ fits now w' ∧ aside w w' ∧ Forall (λ s, length s = 4%nat) out ∧
    (length out + slots (sess w') ≤ length acc + slots (sess w))%nat.
Proof.
  intros Hn Hds w acc Hf. apply (fits_later clk now w Hn) in Hf. revert w acc Hf. clear clk Hn.
  induction Hds as [|d ds Hd _ IH]; intros w acc Hf Hacc; cbn [deleteESP].
  { exists w, acc. split_and!; [done..|lia]. }
  destruct (Z.eqb_spec (dProtocol d) ProtoESP) as [Hp|]; cbn [negb]; [|by apply IH].
  destruct (readSPIs_safe (SPIs d) (Hd Hp)) as [vs ->].
  destruct (fits_delete now now w vs (Z.le_refl _) Hf) as (Hf' & [out Ho] & Ha).
  destruct (deleteChildren w vs now) as [w1 r1] eqn:Ed. cbn [fst snd] in *. subst r1.
  apply deleteLoop_slots in Ed as Hsl. cbn [length] in Hsl.
  destruct (IH w1 (acc ++ map (be_to 4) out) Hf') as (w' & out' & -> & Hf2 & Ha2 & H4 & Hl).
  { apply Forall_app. split; [done|]. apply Forall_map, Forall_forall. intros x _. apply length_be_to. }
  exists w', out'. split_and!; [done | done | by eapply aside_trans | done|]. rewrite length_app, length_map in Hl. lia.
Qed.

Lemma slots_two s : (slots s ≤ 2)%nat.
Proof. unfold slots, slot. destruct (_ =? _), (_ =? _); cbn; lia. Qed.
