(* ===== verification/IkeKeep.v ===== *)
(** * What the session's own state changes keep

    [session_ok] is the invariant, [later] what a call that waits for an answer may
    count on: no IKE SA comes back, none changes its keys or SPIs, and the SA that
    is being rekeyed stays current until it goes, the peer's SA in its place. *)

From stdpp Require Import functions.
From S2P Require Import Prelude Netip Store Esp IkeMessage IkePayload IkeSa IkeSk IkeProposal IkeSelect TransHub Tunnel IkeChild IkeChildRun IkeSession IkeServe IkeExchange IkeRekey IkeInv.

Definition opened (s : ikeSession) : Prop := openWorld (world s).

(** The initiator SPIs of the SAs a session holds. *)
Definition spis (s : ikeSession) : list Z := map (λ c, spiI (ctxs s c)) (held s).

(** What is claimed of the hub's IKE table is claimed where [tidy] holds: a call
    that takes up its answer when its SA is gone already puts that SA back. *)
Class Tidy := tidy : Prop.

Section tidy.
Context {T : Tidy}.

(** The hub's IKE table has the session's SPIs, and at most [X] beside them. *)
Definition routed (s : ikeSession) (X : list Z) : Prop :=
  tidy → opened s → (∀ spi, spi ∈ spis s → ike (hub (world s)) !! spi = Some (muxOf s)) ∧
                    (∀ spi, ike (hub (world s)) !! spi = Some (muxOf s) → spi ∈ spis s ∨ spi ∈ X).

(** What never changes in an SA. *)
Definition fixed (x : ikeContext) : SASuite * list Z * list Z * list Z * Z * Z * bool :=
  (cxSuite x, skD x, skei x, sker x, spiI x, spiR x, responder x).

Definition usablePRF (x : ikeContext) : Prop := PRFOutputLen (suPRFID (cxSuite x)) ≠ O.

Record contexts_ok (s : ikeSession) : Prop := mkContextsOk {
  co_held : ∀ c, c ∈ held s → (c < nctx s)%nat;
  co_prf : ∀ c, (c < nctx s)%nat → usablePRF (ctxs s c) }.

Record session_ok (clk : Z) (s : ikeSession) : Prop := mkSessionOk {
  so_contexts : contexts_ok s;
  so_nodup : NoDup (held s);
  so_routed : routed s [];
  so_world : fits clk (world s) }.

(** Our rekeying replaces the SA that is current, and its SPI is not yet one of the
    session's. *)
Definition rekeys (s : ikeSession) (c : nat) (spi : Z) : Prop :=
  current s = c ∧ (∃ l, localRekey s = Some l ∧ rkOld l = c ∧ rkSpiI l = spi) ∧ spi ∉ spis s.

(** The SA our rekeying was to replace is gone: the peer deleted it, and its own
    new SA is current. *)
Definition raced (s : ikeSession) (c : nat) : Prop := (c ∉ held s) ∧ localRekey s = None ∧ collision s = None.

Record later (s s' : ikeSession) : Prop := mkLater {
  lt_nctx : (nctx s ≤ nctx s')%nat;
  lt_fixed : ∀ c, (c < nctx s)%nat → fixed (ctxs s' c) = fixed (ctxs s c);
  lt_mux : muxOf s' = muxOf s;
  lt_open : opened s' → opened s;
  lt_gone : ∀ c, (c < nctx s)%nat → c ∈ held s' → c ∈ held s;
  lt_rekey : ∀ c spi, rekeys s c spi → rekeys s' c spi ∨ raced s' c;
  lt_raced : ∀ c, (c < nctx s)%nat → raced s c → raced s' c }.

Definition keeps (now : Z) (s s' : ikeSession) : Prop := session_ok now s' ∧ later s s'.

Lemma current_held s : current s ∈ held s.
Proof. by left. Qed.

Lemma later_refl s : later s s.
Proof. split; auto. Qed.

Lemma later_trans s1 s2 s3 : contexts_ok s1 → later s1 s2 → later s2 s3 → later s1 s3.
Proof.
  intros Hc [H1 H2 H3 H0 H4 H5 H6] [K1 K2 K3 K0 K4 K5 K6]. split.
  - lia.
  - intros c Hlt. rewrite K2 by lia. by apply H2.
  - congruence.
  - auto.
  - intros c Hlt Hin. apply H4; [done|]. apply K4; [lia | done].
  - intros c spi Hr. pose proof Hr as [Hcur _]. assert (c < nctx s1)%nat by (apply Hc; rewrite <- Hcur; apply current_held).
    destruct (H5 c spi Hr) as [Hr2|Hr2]; [by apply K5 | right]. apply K6; [lia | done].
  - intros c Hlt Hr. apply K6; [lia|]. by apply H6.
Qed.

Lemma keeps_trans n1 n2 s1 s2 s3 : contexts_ok s1 → keeps n1 s1 s2 → keeps n2 s2 s3 → keeps n2 s1 s3.
Proof. intros Hc [_ H1] [H2 H3]. split; [done|]. by eapply later_trans. Qed.

Lemma keeps_refl clk s : session_ok clk s → keeps clk s s.
Proof. intros H. split; [done | apply later_refl]. Qed.

Lemma fixed_spi x y : fixed x = fixed y → spiI x = spiI y ∧ spiR x = spiR y ∧ cxSuite x = cxSuite y ∧ skD x = skD y ∧
  skei x = skei y ∧ sker x = sker y ∧ responder x = responder y.
Proof. unfold fixed. by intros [= -> -> -> -> -> -> ->]. Qed.

(** A change that leaves the SAs in their places. *)
Record steady (s s' : ikeSession) : Prop := mkSteady {
  st_nctx : nctx s' = nctx s;
  st_current : current s' = current s;
  st_old : old s' = old s;
  st_collision : collision s' = collision s;
  st_fixed : ∀ c, fixed (ctxs s' c) = fixed (ctxs s c) }.

Lemma steady_held s s' : steady s s' → held s' = held s ∧ spis s' = spis s.
Proof.
  intros [_ Hc Ho Hx Hf]. assert (held s' = held s) as Hh by (unfold held; congruence). split; [done|]. unfold spis. rewrite Hh.
  apply map_ext. intros c. by destruct (fixed_spi _ _ (Hf c)).
Qed.

Lemma steady_contexts s s' : steady s s' → contexts_ok s → contexts_ok s'.
Proof.
  intros Hs [H1 H2]. destruct (steady_held s s' Hs) as [Hh _]. destruct Hs as [Hn _ _ _ Hf]. split.
  - intros c. rewrite Hh, Hn. apply H1.
  - intros c. rewrite Hn. intros Hlt%H2. unfold usablePRF. by destruct (fixed_spi _ _ (Hf c)) as (_&_&->&_).
Qed.

Lemma steady_later s s' : steady s s' → muxOf s' = muxOf s → (opened s' → opened s) → (localRekey s = None → localRekey s' = None) →
  (∀ l, localRekey s = Some l → ∃ l', localRekey s' = Some l' ∧ rkOld l' = rkOld l ∧ rkSpiI l' = rkSpiI l) → later s s'.
Proof.
  intros Hs Hm Hop Hno Hl. destruct (steady_held s s' Hs) as [Hh Hsp]. destruct Hs as [Hn Hc _ Hx Hf]. split.
  - lia.
  - intros c _. apply Hf.
  - done.
  - done.
  - intros c _. by rewrite Hh.
  - intros c spi (Hcur & (l&Hr&Hold&Hspi) & Hni). left. split; [congruence|]. split; [|by rewrite Hsp].
    destruct (Hl l Hr) as (l'&?&?&?). exists l'. split_and!; congruence.
  - intros c _ (R1 & R2 & R3). split_and!; [by rewrite Hh | by apply Hno | congruence].
Qed.

(** A steady change of everything but the IKE table. *)
Lemma keeps_steady clk now s s' : session_ok clk s → clk ≤ now → steady s s' → localRekey s' = localRekey s →
  (opened s' → opened s ∧ ike (hub (world s')) = ike (hub (world s))) → muxOf s' = muxOf s → fits now (world s') → keeps now s s'.
Proof.
  intros [Hc Hnd Hr Hw] Hn Hs Hl Hike Hm Hf. split; [split|].
  - by eapply steady_contexts.
  - by destruct (steady_held s s' Hs) as [-> _].
  - intros Ht [Ho He]%Hike. destruct (steady_held s s' Hs) as [_ Hsp]. rewrite Hsp, He, Hm. by apply Hr.
  - done.
  - apply steady_later; [done | done | by intros [? _]%Hike | congruence|]. intros l Hr'. rewrite Hl. by exists l.
Qed.

Lemma steady_refl s : steady s s.
Proof. by split. Qed.

Lemma keeps_onContext clk s c f : session_ok clk s → (∀ x, fixed (f x) = fixed x) → keeps clk s (onContext s c f).
Proof.
  intros H Hf. apply (keeps_steady clk); try done; [|by destruct H]. split; try done. intros c'. unfold onContext, set_ctxs. cbn [ctxs].
  destruct (decide (c = c')) as [<-|]; [by rewrite fn_lookup_insert, Hf | by rewrite fn_lookup_insert_ne].
Qed.

Lemma keeps_world clk now s w : session_ok clk s → clk ≤ now → fits now w → aside (world s) w → keeps now s (set_world s w).
Proof.
  intros H Hn Hf Ha. apply (keeps_steady clk); try done.
  - intros Ho. split; [by apply (aside_open _ _ Ha)|]. by destruct Ha as (He&_).
  - by destruct Ha as (_&_&_&Hm).
Qed.

Lemma CloseMux_closed h m : isClosed (CloseMux h m) m = true.
Proof.
  unfold CloseMux. destruct (muxes h !! m) as [x|] eqn:E; [|unfold isClosed; by rewrite E].
  destruct (muxClosed x) eqn:Ex; [unfold isClosed; by rewrite E, Ex|]. unfold isClosed. cbn [muxes set_muxes set_tables].
  rewrite list_lookup_insert_eq by (by eapply lookup_lt_Some). done.
Qed.

Lemma keeps_close clk s : session_ok clk s → keeps clk s (closeSession s).
Proof.
  intros H. apply (keeps_steady clk); try done.
  - unfold opened, openWorld, closeSession, onHub, muxOf. cbn [world hub sess set_world]. by rewrite CloseMux_closed.
  - destruct H as [_ _ _ [_ Hh]]. split; [|done]. unfold openWorld, closeSession, onHub, muxOf. cbn [world hub sess set_world]. by rewrite CloseMux_closed.
Qed.

Lemma keeps_endpoint clk s ep : session_ok clk s → keeps clk s (onHub s (λ h, AdoptEndpoint h (muxOf s) ep)).
Proof.
  intros H. assert (isClosed (AdoptEndpoint (hub (world s)) (muxOf s) ep) (muxOf s) = isClosed (hub (world s)) (muxOf s) ∧
    ike (AdoptEndpoint (hub (world s)) (muxOf s) ep) = ike (hub (world s)) ∧ esp (AdoptEndpoint (hub (world s)) (muxOf s) ep) = esp (hub (world s))) as (H1&H2&H3).
  { unfold AdoptEndpoint. destruct (muxes _ !! _) as [x|] eqn:E; [|done]. cbn [ike esp set_muxes]. split; [|done]. unfold isClosed. cbn [muxes set_muxes hubClosed].
    rewrite E, list_lookup_insert_eq by (by eapply lookup_lt_Some). done. }
  apply (keeps_steady clk); try done.
  - unfold opened, openWorld, onHub, muxOf in *. cbn [world hub sess set_world]. by rewrite H1, H2.
  - destruct H as [_ _ _ [Ho [g Hg]]]. split; [|by exists g]. unfold openWorld, onHub, muxOf in *. cbn [world hub sess set_world]. rewrite H1. intros Hop.
    specialize (Ho Hop). apply (elsewhere_ok (world s) _ clk Ho). intros spi. by rewrite H3.
Qed.

Lemma session_later clk now s : clk ≤ now → session_ok clk s → session_ok now s.
Proof. intros Hn [Hc Hnd Hr Hw]. split; try done. by eapply fits_later. Qed.

(** ** Moving SAs between the three places *)

(** The invariant, but for [X], SPIs that are still to be released. *)
Definition pre (clk : Z) (s : ikeSession) (X : list Z) : Prop := contexts_ok s ∧ routed s X ∧ fits clk (world s).

Lemma pre_nil clk s : pre clk s [] ∧ NoDup (held s) ↔ session_ok clk s.
Proof. split; [intros ((?&?&?)&?); by split | intros [? ? ? ?]; split; [by split_and! | done]]. Qed.

Lemma routed_move s s' X X' : world s' = world s → routed s X →
  (∀ spi, spi ∈ spis s' → spi ∈ spis s ∨ (opened s → ike (hub (world s)) !! spi = Some (muxOf s))) →
  (∀ spi, spi ∈ spis s ∨ spi ∈ X → spi ∈ spis s' ∨ spi ∈ X') → routed s' X'.
Proof.
  intros Hw Hr H1 H2 Ht Ho. unfold opened, muxOf in *. rewrite Hw in *. destruct (Hr Ht Ho) as [Ha Hb]. split.
  - intros spi Hin. destruct (H1 spi Hin) as [Hs|Hs]; [by apply Ha | by apply Hs].
  - intros spi Hin. by apply H2, Hb.
Qed.

Lemma elem_of_spis s spi : spi ∈ spis s ↔ ∃ c, c ∈ held s ∧ spiI (ctxs s c) = spi.
Proof. unfold spis. rewrite list_elem_of_fmap. naive_solver. Qed.

Lemma routedLocked_iff s spi : routedLocked s spi = true ↔ spi ∈ spis s.
Proof.
  unfold routedLocked. rewrite existsb_exists, elem_of_spis. split.
  - intros (c & Hc%list_elem_of_In & He%Z.eqb_eq). by exists c.
  - intros (c & Hc%list_elem_of_In & <-). exists c. split; [done | apply Z.eqb_refl].
Qed.

(** The hub without an SPI of the session. *)
Lemma unregister_hub h m spi : isClosed (UnregisterIKE h m spi) m = isClosed h m ∧ esp (UnregisterIKE h m spi) = esp h ∧
  ∀ k, ike (UnregisterIKE h m spi) !! k = Some m ↔ ike h !! k = Some m ∧ k ≠ spi.
Proof.
  unfold UnregisterIKE. split; [done|]. split; [done|]. intros k. cbn [ike set_tables]. unfold unclaim.
  destruct (ike h !! spi) as [owner|] eqn:E; [|naive_solver]. destruct (Nat.eqb_spec owner m) as [->|Hne].
  - rewrite lookup_delete_Some. naive_solver.
  - naive_solver.
Qed.

Lemma fits_hub clk s f : (isClosed (f (hub (world s))) (muxOf s) = false → isClosed (hub (world s)) (muxOf s) = false) → esp (f (hub (world s))) = esp (hub (world s)) →
  fits clk (world s) → fits clk (world (onHub s f)).
Proof.
  intros Hc He [Ho [g Hg]]. split; [|by exists g]. unfold openWorld, onHub, muxOf in *. cbn [world hub sess set_world]. intros Hop%Hc.
  apply (elsewhere_ok (world s) _ clk (Ho Hop)). intros spi. by rewrite He.
Qed.

(** What releasing changes. *)
Record releases (s s' : ikeSession) : Prop := mkReleases {
  rl_ctxs : ctxs s' = ctxs s; rl_nctx : nctx s' = nctx s; rl_current : current s' = current s; rl_old : old s' = old s;
  rl_collision : collision s' = collision s; rl_local : localRekey s' = localRekey s; rl_mux : muxOf s' = muxOf s;
  rl_open : opened s' ↔ opened s }.

Lemma releases_refl s : releases s s.
Proof. by split. Qed.

Lemma releases_trans s1 s2 s3 : releases s1 s2 → releases s2 s3 → releases s1 s3.
Proof. intros [] []. split; try congruence. tauto. Qed.

Lemma releases_steady s s' : releases s s' → steady s s'.
Proof. intros []. split; try done. intros c. congruence. Qed.

Lemma release_pre clk s spi X : pre clk s (spi :: X) → pre clk (releaseSPILocked s spi) X ∧ releases s (releaseSPILocked s spi).
Proof.
  intros (Hc & Hr & Hf). unfold releaseSPILocked. destruct (routedLocked s spi) eqn:E.
  - apply routedLocked_iff in E. split; [|apply releases_refl]. split_and!; try done.
    apply (routed_move s s (spi :: X)); [done | done | by left|]. intros k [Hk|Hk]; [by left|]. apply elem_of_cons in Hk as [->|Hk]; auto.
  - assert (spi ∉ spis s) as Hni by (rewrite <- routedLocked_iff, E; done).
    destruct (unregister_hub (hub (world s)) (muxOf s) spi) as (Hcl & Hes & Hik).
    split; [|split; try done; unfold opened, openWorld, onHub, muxOf in *; cbn [world hub sess set_world]; by rewrite Hcl]. split_and!.
    + by apply (steady_contexts s).
    + intros Ht Ho. unfold opened, openWorld, onHub, muxOf in *. cbn [world hub sess set_world] in *. rewrite Hcl in Ho.
      destruct (Hr Ht Ho) as [Ha Hb]. split.
      * intros k Hk. apply Hik. split; [by apply Ha|]. by intros ->.
      * intros k [Hk Hne]%Hik. destruct (Hb k Hk) as [|Hx]; [by left|]. apply elem_of_cons in Hx as [->|]; [done | by right].
    + apply fits_hub; [by rewrite Hcl | done | done].
Qed.

Lemma displaced_pre clk s d X : pre clk s (option_list (spiI ∘ ctxs s <$> d) ++ X) →
  pre clk (releaseDisplacedLocked s d) X ∧ releases s (releaseDisplacedLocked s d).
Proof.
  destruct d as [d|]; cbn [fmap option_fmap option_map option_list releaseDisplacedLocked app]; [|intros; split; [done | apply releases_refl]].
  intros Hp. apply release_pre in Hp as Hp'. unfold compose in Hp'. destruct (routedLocked s (spiI (ctxs s d))) eqn:E; [|done].
  unfold releaseSPILocked in Hp'. by rewrite E in Hp'.
Qed.

(** ** The new SA of a rekeying *)

Lemma register_hub h m spi h' : RegisterIKE h m spi = Ok h' →
  isClosed h m = false ∧ isClosed h' m = isClosed h m ∧ esp h' = esp h ∧ ∀ k, ike h' !! k = Some m ↔ ike h !! k = Some m ∨ k = spi.
Proof.
  unfold RegisterIKE. destruct (_ =? 0); [done|]. destruct (isClosed h m) eqn:Ec; [done|]. unfold claim.
  destruct (ike h !! spi) as [o|] eqn:E; [destruct (Nat.eqb_spec o m) as [->|]; [|done]|]; intros [= <-]; split_and!; try done; intros k; cbn [ike set_tables];
    destruct (decide (k = spi)) as [->|]; rewrite ?lookup_insert_eq, ?lookup_insert_ne by done; naive_solver.
Qed.

Lemma RegisterIKE_safe h m spi : safe (RegisterIKE h m spi).
Proof. unfold RegisterIKE. by repeat case_match. Qed.

(** A registered SPI and the SA it is for, which is in none of the places yet. *)
Lemma registered_pre clk s x h : session_ok clk s → usablePRF x → RegisterIKE (hub (world s)) (muxOf s) (spiI x) = Ok h →
  let '(s', c) := newContext (onHub s (λ _, h)) x in
  pre clk s' [spiI x] ∧ c = nctx s ∧ nctx s' = S c ∧ ctxs s' c = x ∧ (c ∉ held s') ∧
  held s' = held s ∧ current s' = current s ∧ old s' = old s ∧ collision s' = collision s ∧ localRekey s' = localRekey s ∧ muxOf s' = muxOf s ∧
  (∀ k, (k < c)%nat → ctxs s' k = ctxs s k) ∧ (opened s' → ike (hub (world s')) !! spiI x = Some (muxOf s')).
Proof.
  intros [[Hh Hp] Hnd Hr Hf] Hx Hreg. destruct (register_hub _ _ _ _ Hreg) as (Hop & Hcl & Hes & Hik). unfold newContext, onHub. cbn [set_world ctxs nctx].
  assert (nctx s ∉ held s) as Hfresh by (intros Hin%Hh; lia).
  assert (∀ c, c ∈ held s → <[nctx s := x]> (ctxs s) c = ctxs s c) as Hold by (intros c Hin%Hh; apply fn_lookup_insert_ne; lia).
  split; [split_and!|split_and!; try done].
  - split.
    + intros c Hin. cbn [nctx]. specialize (Hh c Hin). lia.
    + intros c Hlt. cbn [nctx ctxs] in *. destruct (decide (c = nctx s)) as [->|]; [by rewrite fn_lookup_insert|].
      rewrite fn_lookup_insert_ne by done. apply Hp. lia.
  - intros Ht Ho. unfold opened, openWorld, muxOf, spis in *. cbn [world hub sess] in *.
    change (held _) with (held s). cbn [ctxs]. destruct (Hr Ht Hop) as [Ha Hb]. split.
    + intros k (c & -> & Hin)%list_elem_of_fmap. rewrite Hold by done. apply Hik. left. apply Ha. apply list_elem_of_fmap. by exists c.
    + intros k [Hk| ->]%Hik; [|right; by left]. destruct (Hb k Hk) as [(c & -> & Hin)%list_elem_of_fmap|[]%not_elem_of_nil].
      left. apply list_elem_of_fmap. exists c. by rewrite Hold.
  - apply (fits_hub clk s (λ _, h)); [by rewrite Hcl | done | done].
  - apply fn_lookup_insert.
  - intros k Hk. apply fn_lookup_insert_ne. lia.
  - intros Ho. apply Hik. by right.
Qed.

Lemma spis_ctx s c : c ∈ held s → spiI (ctxs s c) ∈ spis s.
Proof. intros Hc. apply elem_of_spis. by exists c. Qed.

Lemma in_option_list {A} (x : A) o : x ∈ option_list o ↔ o = Some x.
Proof.
  destruct o as [y|]; unfold option_list; cbn [option_rect]; [rewrite list_elem_of_singleton | rewrite elem_of_nil]; [|done].
  split; [by intros -> | by intros [= ->]].
Qed.

Lemma held_parts s c : c ∈ held s ↔ c = current s ∨ old s = Some c ∨ collision s = Some c.
Proof. unfold held. by rewrite elem_of_cons, elem_of_app, !in_option_list. Qed.

Lemma nodup_held s : NoDup (held s) ↔
  old s ≠ Some (current s) ∧ collision s ≠ Some (current s) ∧ ∀ o, old s = Some o → collision s ≠ Some o.
Proof.
  unfold held. rewrite NoDup_cons, NoDup_app, elem_of_app, !in_option_list.
  assert (∀ o : option nat, NoDup (option_list o)) as Hn by (intros [x|]; [apply NoDup_singleton | constructor]).
  split; [intros (H1 & _ & H2 & _) | intros (H1 & H2 & H3)]; split_and!; try (by apply Hn); try tauto.
  - intros o Ho Hc. apply (H2 o); by apply in_option_list.
  - intros o Ho%in_option_list Hc%in_option_list. by apply (H3 o).
Qed.

(** Moves keep the SAs themselves. *)
Record moves (s s' : ikeSession) : Prop := mkMoves {
  mv_ctxs : ctxs s' = ctxs s; mv_nctx : nctx s' = nctx s; mv_local : localRekey s' = localRekey s; mv_mux : muxOf s' = muxOf s;
  mv_open : opened s' ↔ opened s }.

Lemma releases_moves s s' : releases s s' → moves s s'.
Proof. intros []. by split. Qed.

Lemma moves_trans s1 s2 s3 : moves s1 s2 → moves s2 s3 → moves s1 s3.
Proof. intros [] []. split; try congruence. tauto. Qed.

(** Changing places: every SA now held was held or has a registered SPI, and what
    is left to release is in [X']. *)
Lemma pre_move clk s s' X X' : world s' = world s → ctxs s' = ctxs s → nctx s' = nctx s → pre clk s X →
  (∀ c, c ∈ held s' → c ∈ held s ∨ (c < nctx s)%nat ∧ (opened s → ike (hub (world s)) !! spiI (ctxs s c) = Some (muxOf s))) →
  (∀ c, c ∈ held s → c ∈ held s' ∨ spiI (ctxs s c) ∈ X') → (∀ spi, spi ∈ X → spi ∈ X' ∨ spi ∈ spis s') → pre clk s' X'.
Proof.
  intros Hw Hx Hn ([Hh Hp] & Hr & Hf) H1 H2 H3. split_and!; [split| |by rewrite Hw].
  - intros c Hc. rewrite Hn. destruct (H1 c Hc) as [?%Hh|[? _]]; lia.
  - intros c. rewrite Hn, Hx. apply Hp.
  - apply (routed_move s s' X); [done | done | |].
    + intros spi (c & Hc & <-)%elem_of_spis. rewrite Hx. destruct (H1 c Hc) as [Hs|[_ Hs]]; [left; by apply spis_ctx | by right].
    + intros spi [(c & Hc & <-)%elem_of_spis|Hin].
      * destruct (H2 c Hc) as [Hs|Hs]; [left; rewrite <- Hx; by apply spis_ctx | by right].
      * destruct (H3 spi Hin); auto.
Qed.

(** Releasing one SPI keeps the others. *)
Lemma displaced_ike s d k : spiI <$> (ctxs s <$> d) ≠ Some k → opened (releaseDisplacedLocked s d) →
  opened s ∧ (ike (hub (world s)) !! k = Some (muxOf s) → ike (hub (world (releaseDisplacedLocked s d))) !! k = Some (muxOf s)).
Proof.
  destruct d as [d|]; cbn [releaseDisplacedLocked]; [|done]. intros Hk. destruct (routedLocked s _); [done|].
  unfold releaseSPILocked. destruct (routedLocked s _); [done|].
  destruct (unregister_hub (hub (world s)) (muxOf s) (spiI (ctxs s d))) as (Hcl & _ & Hik).
  unfold opened, openWorld, onHub, muxOf in *. cbn [world hub sess set_world] in *. rewrite Hcl. intros Ho. split; [done|]. intros Hin. apply Hik.
  split; [done|]. intros ->. by apply Hk.
Qed.

(** The current SA is retained, ahead of the new SA [c]. *)
Lemma retain_old clk s c now :
  pre clk s [spiI (ctxs s c)] → spiI (ctxs s c) ∉ spis s → (opened s → ike (hub (world s)) !! spiI (ctxs s c) = Some (muxOf s)) →
  let s' := retainOldLocked s (current s) now in
  pre clk s' [spiI (ctxs s' c)] ∧ moves s s' ∧ current s' = current s ∧ old s' = Some (current s) ∧ collision s' = collision s ∧
  (opened s' → ike (hub (world s')) !! spiI (ctxs s' c) = Some (muxOf s')).
Proof.
  intros Hp Hni Hreg s'. unfold s', retainOldLocked. set (s1 := set_old s (Some (current s)) _).
  assert (pre clk s1 (option_list (spiI ∘ ctxs s1 <$> old s) ++ [spiI (ctxs s c)])) as Hp1.
  { apply (pre_move clk s s1 [spiI (ctxs s c)]); try done.
    - intros k. rewrite !held_parts. cbn. naive_solver.
    - intros k. rewrite !held_parts. cbn. intros [->|[Ho|Hc]]; [by left; left | right | left; by right; right].
      rewrite Ho. cbn. by left.
    - intros spi Hin. left. apply elem_of_app. by right. }
  destruct (displaced_pre clk s1 (old s) _ Hp1) as [Hp2 Hrl].
  pose proof (displaced_ike s1 (old s) (spiI (ctxs s c))) as Hike. set (s2 := releaseDisplacedLocked s1 (old s)) in *.
  destruct Hrl as [R1 R2 R3 R4 R5 R6 R7 R8]. cbn in R1, R2, R3, R4, R5, R6. rewrite R1. split_and!; try done.
  intros Ho2. rewrite R7. destruct Hike as [Ho1 Hk]; [|done|by apply Hk, Hreg].
  destruct (old s) as [o|] eqn:Eo; cbn; [|done]. intros [= Heq]. apply Hni. rewrite <- Heq. apply spis_ctx, held_parts. auto.
Qed.

(** The new SA [c] takes the place of the current one, which is retained. *)
Lemma retain_current clk s c now :
  pre clk s [spiI (ctxs s c)] → NoDup (held s) → (c < nctx s)%nat → spiI (ctxs s c) ∉ spis s →
  (opened s → ike (hub (world s)) !! spiI (ctxs s c) = Some (muxOf s)) →
  let s' := set_current (retainOldLocked s (current s) now) c in
  session_ok clk s' ∧ moves s s' ∧ current s' = c ∧ old s' = Some (current s) ∧ collision s' = collision s.
Proof.
  intros Hp Hnd Hlt Hni Hreg s'. assert (c ∉ held s) as Hnh by (intros Hin; by apply Hni, spis_ctx). unfold s'.
  destruct (retain_old clk s c now Hp Hni Hreg) as (Hp2 & [R1 R2 R6 R7 R8] & R3 & R4 & R5 & Hreg2). set (s2 := retainOldLocked s (current s) now) in *.
  assert (∀ k, k ∈ held (set_current s2 c) ↔ k = c ∨ k = current s ∨ collision s = Some k) as Hheld.
  { intros k. rewrite held_parts. cbn [set_current current old collision]. rewrite R4, R5. naive_solver. }
  split; [apply pre_nil; split|by split_and!].
  - apply (pre_move clk s2 _ [spiI (ctxs s2 c)]); try done.
    + intros k. rewrite Hheld, held_parts, R3, R4, R5, R2. intros [->|[->|Hk]]; [by right | by left; left | by left; right; right].
    + intros k. rewrite Hheld, held_parts, R3, R4, R5. naive_solver.
    + intros spi ->%list_elem_of_singleton. right. apply elem_of_spis. exists c. split; [apply Hheld; by left | done].
  - apply nodup_held. cbn [set_current current old collision]. rewrite R4, R5. apply nodup_held in Hnd as (N1 & N2 & N3).
    rewrite held_parts in Hnh. split_and!; [intros [= ?]; apply Hnh; auto | intros ?; apply Hnh; auto | by intros o [= <-]].
Qed.

(** The new SA [c] is kept beside the current one. *)
Lemma retain_collision clk s c now :
  pre clk s [spiI (ctxs s c)] → NoDup (current s :: option_list (old s)) → (c < nctx s)%nat → c ∉ current s :: option_list (old s) →
  (opened s → ike (hub (world s)) !! spiI (ctxs s c) = Some (muxOf s)) →
  let s' := retainCollisionLocked s c now in
  session_ok clk s' ∧ moves s s' ∧ current s' = current s ∧ old s' = old s ∧ collision s' = Some c.
Proof.
  intros Hp Hnd Hlt Hnh Hreg s'. unfold s', retainCollisionLocked. set (s1 := set_collision s (Some c) _).
  assert (pre clk s1 (option_list (spiI ∘ ctxs s1 <$> collision s) ++ [])) as Hp1.
  { apply (pre_move clk s s1 [spiI (ctxs s c)]); try done.
    - intros k. rewrite !held_parts. cbn. intros [->|[?|[= <-]]]; [by left; left | left; by right; left | by right].
    - intros k. rewrite !held_parts. cbn. intros [->|[?|Hc]]; [by left; left | left; by right; left | right].
      rewrite Hc. cbn. by left.
    - intros spi ->%list_elem_of_singleton. right. apply (spis_ctx s1), held_parts. by right; right. }
  destruct (displaced_pre clk s1 (collision s) _ Hp1) as [Hp2 [R1 R2 R3 R4 R5 R6 R7 R8]]. cbn in R1, R2, R3, R4, R5, R6.
  split; [apply pre_nil; split; [done|]|by split_and!].
  apply nodup_held. rewrite R3, R4, R5. rewrite NoDup_cons in Hnd. rewrite not_elem_of_cons in Hnh. rewrite in_option_list in *.
  destruct Hnd as [Hnd _], Hnh as [Hn1 Hn2]. split_and!; [done | by intros [= ?] | intros o Ho [= ->]; by apply Hn2].
Qed.

(** The SA beside it takes the place of the current one, and the new SA [c] goes
    beside. *)
Lemma retain_winner clk s w c now :
  pre clk s [spiI (ctxs s c)] → NoDup (held s) → (c < nctx s)%nat → spiI (ctxs s c) ∉ spis s → collision s = Some w →
  (opened s → ike (hub (world s)) !! spiI (ctxs s c) = Some (muxOf s)) →
  let s' := retainCollisionLocked (set_current (retainOldLocked s (current s) now) w) c now in
  session_ok clk s' ∧ moves s s' ∧ current s' = w ∧ old s' = Some (current s) ∧ collision s' = Some c.
Proof.
  intros Hp Hnd Hlt Hni Hw Hreg s'. assert (c ∉ held s) as Hnh by (intros Hin; by apply Hni, spis_ctx). unfold s'.
  destruct (retain_old clk s c now Hp Hni Hreg) as (Hp2 & [R1 R2 R6 R7 R8] & R3 & R4 & R5 & Hreg2). set (s2 := retainOldLocked s (current s) now) in *.
  apply nodup_held in Hnd as (N1 & N2 & N3). rewrite held_parts in Hnh. rewrite Hw in *.
  destruct (retain_collision clk (set_current s2 w) c now) as (Hok & [M1 M2 M3 M4 M5] & C1 & C2 & C3); cbn [set_current current old ctxs nctx] in *; rewrite ?R4.
  - apply (pre_move clk s2 _ [spiI (ctxs s2 c)]); try done.
    + intros k. rewrite !held_parts. cbn [set_current current old collision]. rewrite R3, R4, R5. naive_solver.
    + intros k. rewrite !held_parts. cbn [set_current current old collision]. rewrite R3, R4, R5. naive_solver.
    + intros spi Hin. by left.
  - apply NoDup_cons. split; [|apply NoDup_singleton]. intros ?%in_option_list. by apply N2.
  - lia.
  - rewrite not_elem_of_cons, in_option_list. split; [intros Hx; apply Hnh; right; right; by rewrite Hx | intros Hx; apply Hnh; left; congruence].
  - done.
  - change (muxOf (set_current s2 w)) with (muxOf s2) in M4. cbn [set_current localRekey] in M3.
    change (opened (set_current s2 w)) with (opened s2) in M5.
    split; [done|]. split; [split; try congruence; tauto|]. split_and!; congruence.
Qed.

(** ** Dropping SAs *)

(** A change that only lets SAs go. *)
Lemma later_drop s s' : ctxs s' = ctxs s → nctx s' = nctx s → muxOf s' = muxOf s → (opened s' → opened s) → (∀ c, c ∈ held s' → c ∈ held s) →
  (current s' = current s ∧ localRekey s' = localRekey s ∨ raced s' (current s)) →
  (localRekey s = None → localRekey s' = None) → (collision s = None → collision s' = None) → later s s'.
Proof.
  intros Hx Hn Hm Hop Hh Hc Hno Hnc. split.
  - lia.
  - intros c _. by rewrite Hx.
  - done.
  - done.
  - intros c _. apply Hh.
  - intros c spi (<- & Hl & Hni). destruct Hc as [[E1 E2]|Hr]; [left|by right]. split; [done|]. rewrite E2. split; [done|].
    intros (k & Hk & <-)%elem_of_spis. apply Hni. rewrite Hx. by apply spis_ctx, Hh.
  - intros c _ (R1 & R2 & R3). split_and!; [by intros ?%Hh | by apply Hno | by apply Hnc].
Qed.

Lemma keeps_drop clk s s1 c : session_ok clk s → world s1 = world s → ctxs s1 = ctxs s → nctx s1 = nctx s → c ∈ held s →
  (∀ k, k ∈ held s1 → k ∈ held s) → (∀ k, k ∈ held s → k ∈ held s1 ∨ k = c) → NoDup (held s1) →
  (current s1 = current s ∧ localRekey s1 = localRekey s ∨ raced s1 (current s)) →
  (localRekey s = None → localRekey s1 = None) → (collision s = None → collision s1 = None) → keeps clk s (releaseSPILocked s1 (spiI (ctxs s1 c))).
Proof.
  intros Hok Hw Hx Hn Hc H1 H2 Hnd H3 H4 H5. pose proof Hok as [Hco _ Hr Hf]. 
  assert (pre clk s1 [spiI (ctxs s1 c)]) as Hp.
  { apply (pre_move clk s s1 []); try done.
    - intros k Hk. left. by apply H1.
    - intros k Hk. destruct (H2 k Hk) as [| ->]; [by left|]. right. rewrite Hx. by left.
    - intros spi []%not_elem_of_nil. }
  destruct (release_pre clk s1 _ [] Hp) as [Hp' [R1 R2 R3 R4 R5 R6 R7 R8]]. set (s2 := releaseSPILocked s1 _) in *.
  assert (held s2 = held s1) as Hh by (unfold held; congruence). split.
  - apply pre_nil. by rewrite Hh.
  - assert (muxOf s1 = muxOf s) as Hm by (unfold muxOf; by rewrite Hw).
    apply later_drop; [congruence | congruence | congruence | intros Ho%R8; unfold opened in *; by rewrite <- Hw | by rewrite Hh| | |]; unfold raced;
      rewrite ?Hh, ?R3, ?R5, ?R6; done.
Qed.

Lemma keeps_remove clk s ctx : session_ok clk s → keeps clk s (removeRetainedContext s ctx).1.
Proof.
  intros Hok. pose proof (so_nodup _ _ Hok) as Hnd. apply nodup_held in Hnd as (N1 & N2 & N3). unfold removeRetainedContext.
  case_bool_decide as Ho; [|case_bool_decide as Hk; [|by apply keeps_refl]]; cbn [fst].
  - apply (keeps_drop clk s (set_old s None (oldBy s)) ctx); try done.
    + rewrite held_parts. auto.
    + intros k. rewrite !held_parts. cbn. naive_solver.
    + intros k. rewrite !held_parts. cbn. naive_solver.
    + apply nodup_held. cbn. by split_and!.
    + by left.
  - apply (keeps_drop clk s (set_collision s None (collisionBy s)) ctx); try done.
    + rewrite held_parts. auto.
    + intros k. rewrite !held_parts. cbn. naive_solver.
    + intros k. rewrite !held_parts. cbn. naive_solver.
    + apply nodup_held. cbn. by split_and!.
    + by left.
Qed.

Lemma keeps_adopt clk s ctx : session_ok clk s → keeps clk s (adoptCollisionOnPeerDelete s ctx).1.
Proof.
  intros Hok. pose proof (so_nodup _ _ Hok) as Hnd. apply nodup_held in Hnd as (N1 & N2 & N3). unfold adoptCollisionOnPeerDelete.
  destruct (collision s) as [c|] eqn:Ec; [|by apply keeps_refl]. destruct (localRekey s) as [l|] eqn:El; [|by apply keeps_refl].
  destruct (Nat.eqb_spec ctx (current s)) as [->|]; cbn [negb fst]; [|by apply keeps_refl].
  apply (keeps_drop clk s (set_localRekey (set_collision (set_current s c) None (collisionBy s)) None) (current s)); try done.
  - apply current_held.
  - intros k. rewrite !held_parts. cbn. naive_solver.
  - intros k. rewrite !held_parts. cbn. naive_solver.
  - apply nodup_held. cbn. split_and!; [|done|done]. intros Ho. by apply (N3 c).
  - right. split; [|done]. rewrite held_parts. cbn. intros [Heq|[Ho|[=]]]; [by rewrite Heq in N2 | done].
Qed.

Lemma fold_release clk ds : ∀ s X, pre clk s (map (λ c, spiI (ctxs s c)) ds ++ X) →
  pre clk (fold_left (λ s ctx, releaseSPILocked s (spiI (ctxs s ctx))) ds s) X ∧
  releases s (fold_left (λ s ctx, releaseSPILocked s (spiI (ctxs s ctx))) ds s).
Proof.
  induction ds as [|d ds IH]; intros s X Hp; cbn [fold_left map app] in *; [split; [done | apply releases_refl]|].
  destruct (release_pre clk s _ _ Hp) as [Hp' Hr]. pose proof Hr as [R1 _ _ _ _ _ _ _].
  destruct (IH (releaseSPILocked s (spiI (ctxs s d))) X) as [Hp2 Hr2]; [by rewrite R1|]. split; [done|]. by eapply releases_trans.
Qed.

Lemma expireHeld_spec o by_ now : let '(o', by', ds) := expireHeld o by_ now in
  (∀ c, o' = Some c → o = Some c) ∧ (∀ c, o = Some c → o' = Some c ∨ c ∈ ds) ∧ (∀ c, c ∈ ds → o = Some c).
Proof.
  unfold expireHeld. destruct o as [c|].
  - destruct (_ =? 0); [|destruct (negb _)]; split_and!; intros k; rewrite ?list_elem_of_singleton, ?elem_of_nil; naive_solver.
  - split_and!; intros k; rewrite ?elem_of_nil; naive_solver.
Qed.

Lemma keeps_expire clk s now : session_ok clk s →
  keeps clk s (expireRetainedContexts s now) ∧ ctxs (expireRetainedContexts s now) = ctxs s ∧ nctx (expireRetainedContexts s now) = nctx s ∧
  (opened (expireRetainedContexts s now) ↔ opened s).
Proof.
  intros Hok. pose proof (so_nodup _ _ Hok) as Hnd. apply nodup_held in Hnd as (N1 & N2 & N3). unfold expireRetainedContexts.
  pose proof (expireHeld_spec (old s) (oldBy s) now) as Ho. destruct (expireHeld (old s) (oldBy s) now) as [[o ob] d1]. destruct Ho as (O1 & O2 & O3).
  pose proof (expireHeld_spec (collision s) (collisionBy s) now) as Hc. destruct (expireHeld (collision s) (collisionBy s) now) as [[c cb] d2].
  destruct Hc as (C1 & C2 & C3). set (s1 := set_collision (set_old s o ob) c cb).
  assert (pre clk s1 (map (λ c, spiI (ctxs s1 c)) (d1 ++ d2) ++ [])) as Hp.
  { apply (pre_move clk s s1 []); try done; [by destruct Hok | | |intros spi []%not_elem_of_nil].
    - intros k. rewrite !held_parts. cbn. naive_solver.
    - intros k. rewrite !held_parts. cbn. intros [->|[Hk|Hk]]; [by left; left| |].
      + destruct (O2 k Hk) as [|Hd]; [left; by right; left|]. right. rewrite app_nil_r. apply list_elem_of_fmap. exists k. split; [done|]. apply elem_of_app. by left.
      + destruct (C2 k Hk) as [|Hd]; [left; by right; right|]. right. rewrite app_nil_r. apply list_elem_of_fmap. exists k. split; [done|]. apply elem_of_app. by right. }
  destruct (fold_release clk (d1 ++ d2) s1 [] Hp) as [Hp' [R1 R2 R3 R4 R5 R6 R7 R8]]. set (s2 := fold_left _ _ _) in *.
  assert (held s2 = held s1) as Hh by (unfold held; congruence). split; [|done]. split.
  - apply pre_nil. split; [done|]. apply nodup_held. rewrite R3, R4, R5. cbn. split_and!.
    + intros E%O1. done.
    + intros E%C1. done.
    + intros k Ho%O1 Hc%C1. by apply (N3 k).
  - apply later_drop; [done | done | done | by intros ?%R8 | |left; by rewrite R3, R6 | by rewrite R6 |].
    + rewrite Hh. intros k. rewrite !held_parts. cbn. naive_solver.
    + rewrite R5. cbn. intros Hno. destruct c as [c|]; [|done]. by rewrite (C1 c) in Hno.
Qed.

End tidy.
