(* ===== verification/IkeHandle.v ===== *)
(** * What the handlers and a datagram can do

    Every handler, and every outcome of [dispatch] and [startRequest], keeps the
    invariant and does not panic. *)

From stdpp Require Import functions.
From S2P Require Import Prelude Netip Store Esp IkeMessage IkePayload IkeSa IkeSk IkeProposal IkeSelect TransHub Tunnel IkeChild IkeChildRun IkeSession IkeServe IkeExchange IkeRekey IkeInv IkeKeep.

(** * Every answer keeps the invariant

    Whatever a request of the peer says, its handler returns, keeps [session_ok]
    and seals exactly one message, under the SA of the request. *)

Section tidy.
Context {T : Tidy}.

(** An SA as a rekeying makes it. *)
Definition fresh (x : ikeContext) : Prop :=
  sendIV x = 0 ∧ nextLocalMID x = 0 ∧ nextPeerMID x = 0 ∧ lastPeerResponse x = [].

(** No SA changes; new ones are fresh. *)
Definition quiet (s s' : ikeSession) : Prop :=
  (∀ c, (c < nctx s)%nat → ctxs s' c = ctxs s c) ∧ (∀ c, (nctx s ≤ c < nctx s')%nat → fresh (ctxs s' c)).

(** The counter of an SA after it sealed a message. *)
Definition stepIV (x : ikeContext) : Z := u64 (sendIV x + 1).

(** One message was sealed under [ctx], and is in [r] if it could be. *)
Record handled (now : Z) (ctx : nat) (s s' : ikeSession) (r : res answer) : Prop := mkHandled {
  hd_keeps : keeps now s s';
  hd_ok : ∃ a, r = Ok a;
  hd_others : ∀ c, (c < nctx s)%nat → c ≠ ctx → ctxs s' c = ctxs s c;
  hd_fresh : ∀ c, (nctx s ≤ c < nctx s')%nat → fresh (ctxs s' c);
  hd_ctx : ctxs s' ctx = set_sendIV (ctxs s ctx) (stepIV (ctxs s ctx));
  hd_raw : ∀ raw e, r = Ok (Some raw, e) → stepIV (ctxs s ctx) ≠ 0 ∧ ivOf raw = be_to 8 (stepIV (ctxs s ctx)) ∧ (32 < length raw)%nat;
  hd_some : r ≠ Ok (None, None) }.

Definition handles (now : Z) (ctx : nat) (s : ikeSession) (p : ikeSession * res answer) : Prop := handled now ctx s p.1 p.2.

Lemma handled_after now ctx s s1 p : contexts_ok s → (ctx < nctx s)%nat → later s s1 → quiet s s1 → handles now ctx s1 p → handles now ctx s p.
Proof.
  destruct p as [s' r]. unfold handles. cbn [fst snd]. intros Hc Hlt Hl [Q1 Q2] [[K1 K2] H1 H2 H3 H4 H5 H6].
  pose proof (lt_nctx _ _ Hl). pose proof (lt_nctx _ _ K2). rewrite Q1 in H4, H5 by done. split; try done.
  - split; [done|]. by eapply later_trans.
  - intros c Hlt' Hne. rewrite H2 by (done || lia). by apply Q1.
  - intros c Hr. destruct (decide (c < nctx s1)%nat) as [Hx|Hx]; [|apply H3; lia]. rewrite H2 by lia. apply Q2. lia.
Qed.

Lemma quiet_refl s : quiet s s.
Proof. split; [done | intros c ?; lia]. Qed.

Lemma quiet_moves s s' : ctxs s' = ctxs s → nctx s' = nctx s → quiet s s'.
Proof. intros Hx Hn. split; [by intros c _; rewrite Hx | intros c; rewrite Hn; lia]. Qed.

Section handlers.
Context {C : Crypto} {CL : CryptoLaws C} {H : Hmac} {HL : HmacLaws H} {E : ECDH} {EL : ECDHLaws E}.

(** ** Responses *)

Definition small (ps : list RawPayload) : Prop := Z.of_nat (length (encodePayloadChain ps)) < 2 ^ 20.

Lemma response_handles clk s ctx msgID exchange inner : session_ok clk s → small inner → handles clk ctx s (response s ctx msgID exchange inner).
Proof.
  intros Hok Hl. unfold response. set (hdr := mkHeader _ _ _ _ _ _ _ _ _).
  pose proof (encrypt_sealed (cxSuite (ctxs s ctx)) (sendIV (ctxs s ctx)) (localEncryptionKey (ctxs s ctx)) hdr inner Hl) as He.
  destruct (encrypt _ _ _ _ _ _) as [iv r]. destruct He as (-> & Hs & Hraw). unfold handles. cbn [fst snd].
  split.
  - by apply keeps_onContext.
  - destruct r; [by eexists.. | done].
  - intros c _ Hne. unfold onContext, set_ctxs. cbn [ctxs]. by apply fn_lookup_insert_ne.
  - intros c. cbn [onContext set_ctxs nctx]. lia.
  - unfold onContext, set_ctxs. cbn [ctxs]. apply fn_lookup_insert.
  - intros raw e. destruct r as [b| |]; [|done..]. intros [= <- _]. by apply Hraw.
  - by destruct r.
Qed.

Lemma small_one p : Z.of_nat (length (Body p)) < 2 ^ 19 → small [p].
Proof. intros Hl. unfold small. cbn [encodePayloadChain]. rewrite !length_app, length_be_to. cbn [length]. lia. Qed.

Lemma notifyData_handles clk s ctx msgID exchange t data : session_ok clk s → (length data ≤ 4)%nat →
  handles clk ctx s (responseNotifyData s ctx msgID exchange t data).
Proof. intros Hok Hl. apply response_handles; [done|]. apply small_one. cbn [Body notifyPayload]. rewrite length_EncodeNotify. cbn [nSPI nData length]. lia. Qed.

Lemma notify_handles clk s ctx msgID exchange t : session_ok clk s → handles clk ctx s (responseNotify s ctx msgID exchange t).
Proof. intros Hok. apply notifyData_handles; [done | cbn; lia]. Qed.

Lemma notifySA_handles clk s ctx msgID exchange t pr spi : session_ok clk s → length spi = 4%nat →
  handles clk ctx s (responseNotifySA s ctx msgID exchange t pr spi).
Proof. intros Hok Hl. apply response_handles; [done|]. apply small_one. cbn [Body notifyPayload]. rewrite length_EncodeNotify. cbn [nSPI nData length]. lia. Qed.

(** ** handleChildRekey *)

Definition entropy_ok (ent : entropy) : Prop := length (enNonce ent) = 32%nat.

(** The payloads of a request that came in a datagram. *)
Definition inner_ok (inner : list RawPayload) : Prop :=
  Z.of_nat (length (encodePayloadChain inner)) < 2 ^ 16 ∧ Forall (λ p, bytes_ok (Body p)) inner.

Lemma inner_part inner p : inner_ok inner → p ∈ inner → Z.of_nat (length (Body p)) < 2 ^ 16.
Proof. intros [Hl _] Hp. apply part_length in Hp. lia. Qed.

(** What is answered once the state has changed to [s1]. *)
Lemma handles_after clk now s s1 ctx p : session_ok clk s → (ctx < nctx s)%nat → keeps now s s1 → quiet s s1 →
  (session_ok now s1 → handles now ctx s1 p) → handles now ctx s p.
Proof. intros Hok Hlt [K1 K2] Hq Hp. apply (handled_after now ctx s s1); [apply Hok | done | done | done|]. by apply Hp. Qed.

Lemma handles_later clk now s ctx p : clk ≤ now → session_ok clk s → (session_ok now s → handles now ctx s p) → handles now ctx s p.
Proof. intros Hn Hok Hp. by apply Hp, (session_later clk). Qed.

Lemma installChild_handles clk s ctx msgID payloads sel z pub ent now inner :
  session_ok clk s → clk ≤ now → (ctx < nctx s)%nat → entropy_ok ent → inner_ok inner → parts payloads inner →
  (∀ p, pub = Some p → (length p < 200)%nat) → handles now ctx s (installChild s ctx msgID payloads sel z pub ent now).
Proof.
  intros Hok Hn Hlt Hent Hin Hparts Hpub. unfold installChild.
  pose proof (co_prf _ (so_contexts _ _ Hok) ctx Hlt) as Hprf.
  match goal with |- context [childSAKeymat ?a ?b ?c ?d ?e ?f ?g] => pose proof (childSAKeymat_safe a b c d e f g Hprf) as Hs;
    destruct (childSAKeymat a b c d e f g) as [[ik rk]|e0|] end; [|by apply (handles_later clk); [| |intros; apply notify_handles]|done].
  set (child := mkChildSA _ _ _ _ _ _). destruct (fits_replace clk now (world s) child Hn (so_world _ _ Hok)) as (Hf & Hsafe & Ha).
  destruct (replaceChild (world s) child now) as [w [u|e0|]]; cbn [fst snd] in *; [| |done];
    (apply (handles_after clk now s (set_world s w)); [done | done | by apply (keeps_world clk) | by apply quiet_moves | intros Hok1]).
  2: { by apply notify_handles. }
  apply response_handles; [done|]. unfold small.
  assert (∀ o, cxTSi payloads = o ∨ cxTSr payloads = o → Z.of_nat (length (nilBody o)) < 2 ^ 16) as Hts.
  { intros [p|] Ho; [|cbn; lia]. apply (inner_part inner); [done|]. apply Hparts. tauto. }
  pose proof (Hts _ (or_introl eq_refl)) as H1. pose proof (Hts _ (or_intror eq_refl)) as H2.
  assert (length (EncodeSA [rekeyAnswer sel (be_to 4 (enSPI32 ent))]) ≤ 60)%nat as H3.
  { etrans; [apply length_EncodeSA_one|]. unfold rekeyAnswer, echoed. cbn [SPI Transforms]. rewrite length_be_to.
    destruct (negb _), (negb _); cbn [length app]; lia. }
  unfold entropy_ok in Hent. destruct pub as [pb|]; [specialize (Hpub pb eq_refl)|];
    cbn [app]; rewrite !length_chain_cons; cbn [length Body encodePayloadChain]; unfold EncodeNonce; rewrite ?length_EncodeKE, Hent; unfold genericPayloadHeaderLen; lia.
Qed.

Lemma selectChild_handles clk s ctx msgID payloads expected ent now inner :
  session_ok clk s → clk ≤ now → (ctx < nctx s)%nat → entropy_ok ent → inner_ok inner → parts payloads inner →
  handles now ctx s (selectChildAnswer s ctx msgID payloads expected ent now).
Proof.
  intros Hok Hn Hlt Hent Hin Hparts. unfold selectChildAnswer.
  assert (∀ t, handles now ctx s (responseNotify s ctx msgID CREATE_CHILD_SA t)) as Href
    by (intros t; apply (handles_later clk); [done | done | intros; by apply notify_handles]).
  destruct (validateFullRangeSelectors _ _) as [u|e|] eqn:Ev; [|done|unfold validateFullRangeSelectors in Ev; repeat case_match; done].
  destruct (childKE_safe payloads) as [r ->]. destruct r as [[g peer]|]; [|done].
  pose proof (selectChildRequest_safe (nilBody (cxSA payloads)) expected g) as Hs.
  destruct (selectChildRequestProposal _ expected g) as [[sel|g']|e|]; [| |done|done].
  - destruct (childSecret_safe sel peer (enDH ent)) as [Hs2 Hpub]. destruct (childSecret sel peer (enDH ent)) as [[[z pub]|]|e|] eqn:Ec; [|done|done|done].
    apply (installChild_handles clk _ _ _ _ _ _ _ _ _ inner); try done. intros p ->. by eapply Hpub.
  - apply (handles_later clk); [done | done | intros; apply notifyData_handles; [done|]]. unfold invalidKENotifyData. rewrite length_be_to. lia.
Qed.

Lemma keeps_lastRekeys clk s a b : session_ok clk s → keeps clk s (set_lastRekeys s a b).
Proof. intros Hok. apply (keeps_steady clk); try done. by destruct Hok. Qed.

Lemma childRekey_handles clk s ctx msgID inner ent now :
  session_ok clk s → clk ≤ now → (ctx < nctx s)%nat → entropy_ok ent → inner_ok inner →
  handles now ctx s (handleChildRekey s ctx msgID inner ent now).
Proof.
  intros Hok Hn Hlt Hent Hin. unfold handleChildRekey.
  assert (∀ t, handles now ctx s (responseNotify s ctx msgID CREATE_CHILD_SA t)) as Href
    by (intros t; apply (handles_later clk); [done | done | intros; by apply notify_handles]).
  destruct (_ || _); [done|]. pose proof (findRekey_safe inner None) as Hf. destruct (findRekey inner None) as [rekey|e|]; [|done|done].
  destruct (_ && _); [done|]. pose proof (decodeChildExchange_safe inner (suPRFID (cxSuite (ctxs s ctx)))) as Hd.
  destruct (decodeChildExchangePayloads _ _) as [payloads|e|] eqn:Ed; [|done|done].
  destruct (decodeChildExchange_parts _ _ _ Ed) as [Hparts _].
  destruct rekey as [n|]; [|by apply (selectChild_handles clk _ _ _ _ _ _ _ inner)].
  destruct (childRekeying s); [done|]. destruct (negb (nProtocol n =? ProtoESP) || _) eqn:Eg; [done|]. bool_props.
  destruct (_ || _).
  { apply (handles_later clk); [done | done | intros; apply notifySA_handles; [done|]]. by apply Nat.eqb_eq. }
  unfold allowPeerChildRekey. destruct (allowPeerRekey _ _ _ _) as [ok last].
  assert (keeps now s (set_lastRekeys s last (lastPeerIKERekey s))) as Hk by (by apply keeps_lastRekeys, (session_later clk)).
  destruct ok; (eapply (handles_after clk); [done | done | exact Hk | by apply quiet_moves|]); intros Hok1.
  - apply (selectChild_handles now _ _ _ _ _ _ _ inner); try done. 
  - by apply notify_handles.
Qed.

(** ** handleIKERekey *)

(** The SA [x] of a rekeying of the peer's, at [c], registered and placed. *)
Lemma placed_later s s1 s2 c spi : contexts_ok s → c = nctx s → nctx s1 = S c → (∀ k, (k < c)%nat → ctxs s1 k = ctxs s k) → muxOf s1 = muxOf s →
  ctxs s2 = ctxs s1 → nctx s2 = nctx s1 → muxOf s2 = muxOf s1 → opened s → spiI (ctxs s1 c) = spi → (∀ k, k ∈ held s2 → k ∈ held s ∨ k = c) →
  (∀ l, localRekey s = Some l → rkOld l = current s → rkSpiI l ≠ spi ∧ current s2 = current s ∧
    ∃ l', localRekey s2 = Some l' ∧ rkOld l' = rkOld l ∧ rkSpiI l' = rkSpiI l) →
  (localRekey s = None → localRekey s2 = None ∧ collision s2 = collision s) → later s s2.
Proof.
  intros Hco Hc Hn Hx Hm Hx2 Hn2 Hm2 Hop Hspi Hh Hl Hno. split.
  - lia.
  - intros k Hk. rewrite Hx2, Hx by lia. done.
  - congruence.
  - done.
  - intros k Hk Hin. destruct (Hh k Hin) as [|Heq]; [done | lia].
  - intros k sp (<- & (l & El & Eo & Es) & Hni). left. destruct (Hl l El Eo) as (Hne & Hcur & l' & El' & Eo' & Es').
    split; [done|]. split; [exists l'; split_and!; congruence|]. intros (j & Hj & Ej)%elem_of_spis. rewrite Hx2 in Ej.
    destruct (Hh j Hj) as [Hjs|Hjc].
    + apply Hni. rewrite <- Ej, Hx; [by apply spis_ctx|]. apply Hco in Hjs. lia.
    + subst j. congruence.
  - intros k Hk (R1 & R2 & R3). destruct (Hno R2) as [E1 E2]. split_and!; [|done|congruence]. intros [?|Heq]%Hh; [done | lia].
Qed.

Lemma installIKE_handles clk s ctx msgID nonce group peer selected suite p ent now :
  session_ok clk s → clk ≤ now → ctx = current s → collision s = None → entropy_ok ent → PRFOutputLen (suPRFID suite) ≠ O → (length selected ≤ 4)%nat →
  handles now ctx s (installIKE s ctx msgID nonce group peer selected suite p ent now).
Proof.
  intros Hok Hn Hctx Hcol Hent Hprf Hsel. apply (session_later clk now) in Hok; [|done]. clear clk Hn. unfold installIKE.
  assert (ctx < nctx s)%nat as Hlt by (apply (so_contexts _ _ Hok); rewrite Hctx; apply current_held).
  assert (∀ t, handles now ctx s (responseNotify s ctx msgID CREATE_CHILD_SA t)) as Href by (intros; by apply notify_handles).
  set (spi := be_of (SPI p)). destruct (_ || _ || _) eqn:Et; [done|]. bool_props.
  pose proof (GenerateDH_safe group (enDH ent)). destruct (GenerateDH group (enDH ent)) as [dh|e|] eqn:Edh; [|done|done].
  pose proof (SharedSecret_safe dh peer). destruct (SharedSecret dh peer) as [z|e|]; [|done|done].
  match goal with |- context [DeriveRekeyedIKEKeys ?a ?b ?c ?d ?e ?f ?g ?h] => pose proof (DeriveRekeyed_safe a b c d e f g h); destruct (DeriveRekeyedIKEKeys a b c d e f g h) as [k|e0|] end; [|done|done].
  pose proof (RegisterIKE_safe (hub (world s)) (muxOf s) spi). destruct (RegisterIKE _ _ spi) as [h|e|] eqn:Er; [|done|done].
  set (x := mkContext suite _ _ _ _ _ spi _ _ _ _ _ _ _).
  destruct (register_hub _ _ _ _ Er) as (Hopen & _).
  pose proof (registered_pre now s x h Hok Hprf Er) as Hreg. destruct (newContext (onHub s (λ _, h)) x) as [s1 c].
  destruct Hreg as (Hp & Hc & Hn1 & Hx1 & Hnh & Hh1 & Hcur1 & Hold1 & Hcol1 & Hlr1 & Hm1 & Hctx1 & Hike).
  assert (spi ∉ spis s) as Hni by (rewrite <- routedLocked_iff; congruence).
  assert (spi ∉ spis s1) as Hni1.
  { intros (j & Hj & Ej)%elem_of_spis. rewrite Hh1 in Hj. apply Hni. rewrite <- Ej, Hctx1; [by apply spis_ctx|]. apply (so_contexts _ _ Hok) in Hj. lia. }
  set (s2 := match localRekey s1 with Some r => _ | None => _ end).
  assert (keeps now s s2 ∧ ctxs s2 = ctxs s1 ∧ nctx s2 = nctx s1) as (Hk & Hx2 & Hn2).
  { assert (NoDup (held s1)) as Hnd by (rewrite Hh1; apply Hok). pose proof (co_held _ (proj1 Hp)) as Hheld1.
    assert (let s' := set_current (retainOldLocked s1 ctx now) c in (∀ l, localRekey s = Some l → rkOld l ≠ ctx) → keeps now s s' ∧ ctxs s' = ctxs s1 ∧ nctx s' = nctx s1) as Hretain.
    { intros s' Hno. unfold s'. replace ctx with (current s1) by congruence.
      destruct (retain_current now s1 c now) as (Hok2 & [M1 M2 M3 M4 M5] & P1 & P2 & P3); rewrite ?Hx1; try done; [lia|].
      split; [|done]. split; [done|]. apply (placed_later s s1 _ c spi); try done; [by destruct Hok | by rewrite Hx1| | |].
      - intros j. rewrite !held_parts, P1, P2, P3. rewrite Hcur1, Hcol1. naive_solver.
      - intros l El Eo. destruct (Hno l El). congruence.
      - intros El. rewrite M3, P3. split; congruence. }
    unfold s2. rewrite Hlr1. destruct (localRekey s) as [l|] eqn:El; [|by apply Hretain]. destruct (Nat.eqb_spec (rkOld l) ctx) as [Heq|Hne].
    2: { apply Hretain. by intros ? [= <-]. }
    set (s1' := set_localRekey s1 _).
    destruct (retain_collision now s1' c now) as (Hok2 & [M1 M2 M3 M4 M5] & P1 & P2 & P3).
    - change (ctxs s1') with (ctxs s1). rewrite Hx1. apply (pre_move now s1 s1' [spiI x]); try done; intros j Hj; by left.
    - change (current s1') with (current s1). change (old s1') with (old s1). apply nodup_held in Hnd as (N1 & _).
      apply NoDup_cons. split; [by rewrite in_option_list|]. destruct (old s1); [apply NoDup_singleton | constructor].
    - change (nctx s1') with (nctx s1). lia.
    - change (current s1') with (current s1). change (old s1') with (old s1). rewrite not_elem_of_cons, in_option_list. rewrite held_parts in Hnh.
      split; [intros ?; apply Hnh; auto | intros ?; apply Hnh; auto].
    - change (ctxs s1') with (ctxs s1). rewrite Hx1. apply Hike.
    - split; [|done]. split; [done|]. apply (placed_later s s1 _ c spi); try done; [by destruct Hok | by rewrite Hx1 | | |].
      + intros j. rewrite !held_parts, P1, P2, P3. change (current s1') with (current s1). change (old s1') with (old s1). rewrite Hcur1, Hold1. naive_solver.
      + intros l' El' Eo'. assert (l' = l) as -> by congruence. rewrite El in *.
        split; [by apply Z.eqb_neq|]. split; [rewrite P1; exact Hcur1|]. rewrite M3. eexists. split; [reflexivity|]. by split.
      + congruence. }
  destruct (GenerateDH_public _ _ _ Edh) as (_ & pub & -> & Hpl & _).
  apply (handles_after now now s s2); [done | done | done | |].
  - split.
    + intros j Hj. rewrite Hx2. apply Hctx1. lia.
    + intros j Hj. rewrite Hx2. assert (j = c) as -> by lia. rewrite Hx1. done.
  - intros Hok2. apply response_handles; [done|]. unfold small, entropy_ok in *. rewrite !length_chain_cons. cbn [length Body encodePayloadChain].
    pose proof (length_EncodeSA_one (mkProposal (Number p) ProtoIKE (be_to 8 (enSPI64 ent)) selected)) as Hl. cbn [SPI Transforms] in Hl.
    rewrite length_be_to in Hl. unfold EncodeNonce. rewrite length_EncodeKE, Hent. unfold genericPayloadHeaderLen. lia.
Qed.

Lemma ikeRekey_handles clk s ctx msgID inner ent now :
  session_ok clk s → clk ≤ now → (ctx < nctx s)%nat → entropy_ok ent → handles now ctx s (handleIKERekey s ctx msgID inner ent now).
Proof.
  intros Hok Hn Hlt Hent. apply (session_later clk now) in Hok; [|done]. clear clk Hn. unfold handleIKERekey.
  destruct (_ || _) eqn:Ea; [by apply notify_handles|]. bool_props. unfold allowPeerIKERekey. destruct (allowPeerRekey _ _ _ _) as [ok last].
  set (s1 := set_lastRekeys s (lastPeerChildRekey s) last).
  assert (keeps now s s1) as Hk by (by apply keeps_lastRekeys).
  destruct ok; (apply (handles_after now now s s1); [done | done | exact Hk | by apply quiet_moves|]); intros Hok1; [|by apply notify_handles].
  assert (∀ t, handles now ctx s1 (responseNotify s1 ctx msgID CREATE_CHILD_SA t)) as Href by (intros; by apply notify_handles).
  destruct (rekeyPayloads inner None None None) as [[[sa nonce] ke]|]; [|done]. destruct (negb (validNonce (Body nonce))); [done|].
  destruct (DecodeSA (Body sa)) as [[|q props]|e|] eqn:Ed; [done| |done|by destruct (DecodeSA_safe (Body sa))].
  pose proof (DecodeKE_safe (Body ke)). destruct (DecodeKE (Body ke)) as [[g pub]|e|]; [|done|done].
  destruct (length pub =? 0)%nat; [done|]. destruct (selectIKERekey g _ (q :: props) 0) as [[[selected suite] p]|pg] eqn:Es.
  - destruct (selectIKERekey_prf _ _ _ _ _ _ _ Es) as (Hprf & _ & Hl & _).
    destruct (negb (validNonceFor (Body nonce) (suPRFID suite))); [done|].
    apply (installIKE_handles now); try done. by apply Nat.eqb_eq.
  - destruct (_ =? 0); [done|]. apply notifyData_handles; [done|]. unfold invalidKENotifyData. rewrite length_be_to. lia.
Qed.

(** ** handleRequest *)

Lemma withError_handles now ctx s p e : handles now ctx s p → handles now ctx s (withError p e).
Proof.
  destruct p as [s' r]. unfold handles. cbn [fst snd]. intros [H1 H2 H3 H4 H5 H6 H7]. unfold withError.
  destruct H2 as [[[raw|] [e'|]] ->]; cbn [fst snd]; split; try done; try by eexists.
  intros b e' [= <- _]. by eapply H6.
Qed.

(** What follows a response and leaves the SAs as they are. *)
Lemma handles_then now ctx s s1 s2 r : contexts_ok s → handled now ctx s s1 r → keeps now s1 s2 → ctxs s2 = ctxs s1 → nctx s2 = nctx s1 →
  ∀ e, (∀ raw, r = Ok (Some raw, None) → handled now ctx s s2 (Ok (Some raw, e))).
Proof.
  intros Hc [H1 H2 H3 H4 H5 H6 H7] Hk Hx Hn e raw ->. split; try done; try by eexists.
  - by eapply keeps_trans.
  - by rewrite Hx.
  - by rewrite Hx, Hn.
  - by rewrite Hx.
  - intros b e' [= <- _]. by eapply H6.
Qed.

Lemma removed_same s ctx : ctxs (removeRetainedContext s ctx).1 = ctxs s ∧ nctx (removeRetainedContext s ctx).1 = nctx s.
Proof.
  unfold removeRetainedContext, releaseSPILocked. case_bool_decide; [by destruct (routedLocked _ _)|]. case_bool_decide; [by destruct (routedLocked _ _) | done].
Qed.

Lemma adopted_same s ctx : ctxs (adoptCollisionOnPeerDelete s ctx).1 = ctxs s ∧ nctx (adoptCollisionOnPeerDelete s ctx).1 = nctx s.
Proof.
  unfold adoptCollisionOnPeerDelete, releaseSPILocked. destruct (collision s); [|done]. destruct (localRekey s); [|done].
  destruct (negb _); [done|]. by destruct (routedLocked _ _).
Qed.

Lemma informational_handles clk s ctx msgID inner now :
  session_ok clk s → clk ≤ now → (ctx < nctx s)%nat → inner_ok inner → handles now ctx s (handleInformational s ctx msgID inner now).
Proof.
  intros Hok Hn Hlt [Hl Hb]. apply (session_later clk now) in Hok; [|done]. clear clk Hn. unfold handleInformational.
  pose proof (findDeletes_safe inner Hb []) as Hs. destruct (findDeletes inner []) as [[ds b]|e|] eqn:Ef; [| |done].
  2: { apply withError_handles. by apply notify_handles. }
  destruct b.
  - assert (handles now ctx s (response s ctx msgID INFORMATIONAL [])) as Hr by (apply response_handles; [done | by unfold small; cbn]).
    destruct (response s ctx msgID INFORMATIONAL []) as [s1 r]. unfold handles in Hr. cbn [fst snd] in Hr. pose proof (so_contexts _ _ Hok) as Hc.
    pose proof (hd_keeps _ _ _ _ _ Hr) as [Hok1 _].
    destruct (hd_ok _ _ _ _ _ Hr) as [[[raw|] [e|]] ->].
    1,3,4: pose proof Hr as [H1 H2 H3 H4 H5 H6 H7]; split; try done; by eexists.
    destruct (removed_same s1 ctx) as [X1 X2]. pose proof (keeps_remove now s1 ctx Hok1) as K1.
    destruct (removeRetainedContext s1 ctx) as [s2 []]; cbn [fst] in *.
    { by apply (handles_then now ctx s s1 s2 _ Hc Hr). }
    destruct (adopted_same s2 ctx) as [Y1 Y2]. pose proof (keeps_adopt now s2 ctx (proj1 K1)) as K2.
    assert (keeps now s1 (adoptCollisionOnPeerDelete s2 ctx).1) as K3 by (eapply keeps_trans; [apply Hok1 | exact K1 | exact K2]).
    destruct (adoptCollisionOnPeerDelete s2 ctx) as [s3 []]; cbn [fst] in *; (eapply (handles_then now ctx s s1 s3 _ Hc Hr); [done | congruence | congruence | done]).
  - pose proof (findDeletes_size inner [] ds false Ef ltac:(constructor)) as Hd.
    destruct (fits_deleteESP now now ds (Z.le_refl _) Hd (world s) [] (so_world _ _ Hok) ltac:(constructor)) as (w & out & -> & Hf & Ha & H4 & Hlo).
    apply (handles_after now now s (set_world s w)); [done | done | by apply (keeps_world now) | by apply quiet_moves | intros Hok1].
    apply response_handles; [done|]. pose proof (slots_two (sess (world s))). cbn [length] in Hlo.
    destruct (_ <? _)%nat; [|by unfold small; cbn]. apply small_one. cbn [Body]. unfold EncodeDelete. rewrite !length_app, length_be_to. cbn [length SPIs].
    assert (length (concat out) ≤ 4 * length out)%nat as Hcl by (clear -H4; induction H4 as [|o out Ho _ IH]; cbn [concat length]; rewrite ?length_app; lia). lia.
Qed.

Lemma request_handles clk s ctx hdr inner ent now :
  session_ok clk s → clk ≤ now → (ctx < nctx s)%nat → entropy_ok ent → inner_ok inner → handles now ctx s (handleRequest s ctx hdr inner ent now).
Proof.
  intros Hok Hn Hlt Hent Hin. unfold handleRequest.
  destruct (List.find _ inner) as [p|]. { apply (handles_later clk); [done | done | intros; apply notifyData_handles; [done | cbn; lia]]. }
  destruct (_ =? INFORMATIONAL); [by apply (informational_handles clk)|].
  destruct (_ =? CREATE_CHILD_SA). 2: { apply withError_handles. apply (handles_later clk); [done | done | intros; by apply notify_handles]. }
  destruct (findType inner PayloadSA) as [sa|]; [|by apply (childRekey_handles clk)].
  destruct (DecodeSA (Body sa)) as [[|q props]|e|] eqn:Ed; [by apply (childRekey_handles clk) | |by apply (childRekey_handles clk)|by destruct (DecodeSA_safe (Body sa))].
  destruct (_ =? _); [by apply (ikeRekey_handles clk) | by apply (childRekey_handles clk)].
Qed.

End handlers.

(** * What a datagram can do

    [dispatches] lists the outcomes of [dispatch], and [starting] those of
    [startRequest]; both keep the invariant, and neither panics. *)

(** The session, or the same closed. *)
Definition maybeClosed (s s' : ikeSession) : Prop := s' = s ∨ s' = closeSession s.

Lemma keeps_maybe now s s1 s' : contexts_ok s → keeps now s s1 → maybeClosed s1 s' → keeps now s s'.
Proof. intros Hc Hk [->| ->]; [done|]. eapply keeps_trans; [done | exact Hk |]. apply keeps_close, Hk. Qed.

(** A peer's next request has been answered: the SA remembers the answer. *)
Definition answeredAs (s : ikeSession) (ctx : nat) (id : Z) (raw : list Z) : ikeSession :=
  onContext s ctx (λ x, set_answered x (u32 (nextPeerMID x + 1)) id raw).

Inductive dispatches (now : Z) (s : ikeSession) (pending : option pendingRequest) : outcome → Prop :=
| d_dropped : dispatches now s pending (mkOutcome s pending None None false)
| d_repeated ctx source took s' : ctx ∈ held s → 0 < nextPeerMID (ctxs s ctx) → maybeClosed s s' →
    lastPeerResponseID (ctxs s ctx) = nextPeerMID (ctxs s ctx) - 1 →
    dispatches now s pending
      (mkOutcome s' pending (Some (mkSent ctx true (nextPeerMID (ctxs s ctx) - 1) (lastPeerResponse (ctxs s ctx)) took, source)) None false)
| d_exhausted : dispatches now s pending (mkOutcome (closeSession s) pending None None true)
| d_answered ctx source took s1 s' raw : ctx ∈ held s → nextPeerMID (ctxs s ctx) ≠ maxMessageID →
    handled now ctx s s1 (Ok (Some raw, None)) → maybeClosed (answeredAs s1 ctx (nextPeerMID (ctxs s ctx)) raw) s' →
    dispatches now s pending (mkOutcome s' pending (Some (mkSent ctx true (nextPeerMID (ctxs s ctx)) raw took, source)) None true)
| d_failed ctx source took s1 r resp : ctx ∈ held s → nextPeerMID (ctxs s ctx) ≠ maxMessageID → handled now ctx s s1 r →
    (∀ raw, resp = Some raw → ∃ e, r = Ok (Some raw, e)) →
    dispatches now s pending
      (mkOutcome (closeSession s1) pending (option_map (λ raw, (mkSent ctx true (nextPeerMID (ctxs s ctx)) raw took, source)) resp) None true)
| d_response p s' result : pending = Some p → pnContext p ∈ held s → maybeClosed s s' → safe result →
    (∀ inner, result = Ok inner → inner_ok inner) → dispatches now s pending (mkOutcome s' None None (Some result) true).

Section dispatch.
Context {C : Crypto} {CL : CryptoLaws C} {H : Hmac} {HL : HmacLaws H} {E : ECDH} {EL : ECDHLaws E}.

(** A datagram as the socket delivers it. *)
Definition datagram_ok (raw : list Z) : Prop := Z.of_nat (length raw) < 2 ^ 16 ∧ bytes_ok raw.

Lemma contextFor_held s hdr ctx : contextForHeader s hdr = Some ctx → ctx ∈ held s.
Proof. intros [Hin _]%List.find_some. by apply list_elem_of_In. Qed.

Lemma decodeHeader_safe raw : safe (decodeHeader raw).
Proof. unfold decodeHeader. destruct (Nat.ltb_spec (length raw) HeaderLen); [done|]. unfold HeaderLen in *. solve_safe. Qed.

Lemma serveRequest_spec now s ctx hdr plain source pending took ent :
  session_ok now s → ctx ∈ held s → MessageID hdr = nextPeerMID (ctxs s ctx) → nextPeerMID (ctxs s ctx) ≠ maxMessageID →
  entropy_ok ent → Z.of_nat (length plain.2) < 2 ^ 16 → bytes_ok plain.2 →
  ∃ o, serveRequest s ctx hdr plain source pending took ent now = Ok o ∧ dispatches now s pending o.
Proof.
  intros Hok Hctx Hid Hmax Hent Hl Hb. unfold serveRequest. pose proof (co_held _ (so_contexts _ _ Hok) _ Hctx) as Hlt.
  set (s0 := onHub s _). assert (keeps now s s0) as Hk0 by (by apply keeps_endpoint). rewrite Hid.
  pose proof (plaintext_safe plain.1 plain.2) as Hs. destruct (decodeMessagePlaintext plain.1 plain.2) as [inner|e|] eqn:Ep; [| |done].
  - destruct (plaintext_parts _ _ _ Ep) as [Hp1 Hp2]. assert (inner_ok inner) as Hin by (split; [lia | by apply Hp2]).
    assert (handles now ctx s (handleRequest s0 ctx hdr inner ent now)) as Hh.
    { apply (handles_after now now s s0); [done | done | done | by apply quiet_moves|]. intros Hok0. by apply (request_handles now). }
    destruct (handleRequest s0 ctx hdr inner ent now) as [s1 r]. unfold handles in Hh. cbn [fst snd] in Hh.
    destruct (hd_ok _ _ _ _ _ Hh) as [[resp e] ->]. pose proof (hd_some _ _ _ _ _ Hh) as Hsome. rbind. destruct e as [e|].
    + eexists. split; [done|]. apply (d_failed _ _ _ ctx source took s1 (Ok (resp, Some e)) resp); try done. intros raw ->. by eexists.
    + destruct resp as [raw|]; [|done]. eexists. split; [done|]. cbn [default]. eapply (d_answered _ _ _ ctx source took s1); try done.
      destruct took; [by left | by right].
  - assert (handles now ctx s (responseNotify s0 ctx (nextPeerMID (ctxs s ctx)) (ExchangeType hdr) N_INVALID_SYNTAX)) as Hh.
    { apply (handles_after now now s s0); [done | done | done | by apply quiet_moves|]. intros Hok0. by apply notify_handles. }
    destruct (responseNotify s0 ctx _ _ _) as [s1 r]. unfold handles in Hh. cbn [fst snd] in Hh.
    destruct (hd_ok _ _ _ _ _ Hh) as [[resp e'] ->]. rbind. eexists. split; [done|].
    pose proof (d_failed now s pending ctx source took s1 _ (match e' with None => resp | Some _ => None end) Hctx Hmax Hh) as Hd.
    destruct resp as [raw|], e' as [x|]; cbn [option_map] in Hd; apply Hd; intros b; try done; intros [= <-]; by eexists.
Qed.

Lemma dispatch_spec clk now s raw source pending took ent :
  session_ok clk s → clk ≤ now → datagram_ok raw → entropy_ok ent →
  ∃ o, dispatch s raw source pending took ent now = Ok o ∧ dispatches now s pending o.
Proof.
  intros Hok Hn [Hl Hb] Hent. apply (session_later clk now) in Hok; [|done]. clear clk Hn. unfold dispatch.
  assert (∃ o, Ok (mkOutcome s pending None None false) = Ok o ∧ dispatches now s pending o) as Hdrop by (eexists; split; [done | constructor]).
  pose proof (decodeHeader_safe raw) as Hsh. destruct (decodeHeader raw) as [hdr|e|]; [|done|done]. destruct (_ || _); [done|].
  destruct (contextForHeader s hdr) as [ctx|] eqn:Ec; [|done]. apply contextFor_held in Ec as Hctx.
  destruct (if IsResponse hdr then _ else _) eqn:Em; [done|].
  pose proof (DecodeMessage_safe raw) as Hsm. destruct (DecodeMessage raw) as [outer|e|] eqn:Eo; [|done|done].
  destruct (decrypt_safe (cxSuite (ctxs s ctx)) (peerEncryptionKey (ctxs s ctx)) raw outer Eo) as [Hsd Hd].
  destruct (decryptMessagePlaintext _ _ raw outer) as [[first plain]|e|]; [|done|done]. destruct (Hd _ _ eq_refl) as [Hpl Hpb]. specialize (Hpb Hb).
  destruct (IsResponse hdr).
  - apply negb_false_iff in Em. unfold matches in Em. destruct pending as [p|]; [|done]. bool_props.
    assert (pnContext p = ctx) as Hpc by (by apply Nat.eqb_eq). unfold takeResponse. cbn [fst snd].
    pose proof (plaintext_safe first plain) as Hs. destruct (decodeMessagePlaintext first plain) as [inner|e|] eqn:Ep; [| |done].
    + destruct (plaintext_parts _ _ _ Ep) as [Hp1 Hp2].
      pose proof (criticalFlags_safe (Payloads outer)). pose proof (criticalFlags_safe inner).
      destruct (validateResponseCriticalFlags (Payloads outer)), (validateResponseCriticalFlags inner); try done;
        (eexists; split; [done|]; eapply (d_response _ _ _ p); [done | by rewrite Hpc | by left | done|]); try by intros ? [=].
      intros ? [= <-]. split; [lia | by apply Hp2].
    + eexists. split; [done|]. eapply (d_response _ _ _ p); [done | by rewrite Hpc | by right | done | by intros ? [=]].
  - unfold takeRequest. destruct (Z.eqb_spec (MessageID hdr) (nextPeerMID (ctxs s ctx))) as [Hid|Hid]; cbn [negb].
    + destruct (Z.eqb_spec (nextPeerMID (ctxs s ctx)) maxMessageID) as [|Hmax].
      * eexists. split; [done|]. constructor.
      * apply serveRequest_spec; cbn [snd]; try done. lia.
    + destruct (_ && _ && _) eqn:Eg; [|done]. bool_props. eexists. split; [done|].
      replace (MessageID hdr) with (nextPeerMID (ctxs s ctx) - 1) by lia. constructor; [done | done | by destruct took; [left | right] | lia].
Qed.

Lemma dispatches_keeps now s pending o : session_ok now s → dispatches now s pending o → keeps now s (ocSession o).
Proof.
  intros Hok Hd. pose proof (so_contexts _ _ Hok) as Hc. pose proof (keeps_refl _ _ Hok) as Hr.
  destruct Hd; cbn [ocSession]; try match goal with Hh : handled _ _ _ _ _ |- _ => pose proof (hd_keeps _ _ _ _ _ Hh) as Hk end.
  - done.
  - by eapply keeps_maybe.
  - by apply keeps_close.
  - eapply keeps_maybe; [done | | done]. eapply keeps_trans; [done | exact Hk|]. apply keeps_onContext; [apply Hk | done].
  - eapply keeps_maybe; [done | exact Hk | by right].
  - by eapply keeps_maybe.
Qed.

(** ** Requests of our own *)

(** The message [m] was sealed under [ctx], as a request. *)
Record starting (s s' : ikeSession) (ctx : nat) (took : bool) (m : option message) (r : res pendingRequest) : Prop := mkStarting {
  sg_others : ∀ c, c ≠ ctx → ctxs s' c = ctxs s c;
  sg_nctx : nctx s' = nctx s;
  sg_pending : ∀ p, r = Ok p → took = true ∧ pnContext p = ctx ∧ pnMsgID p = nextLocalMID (ctxs s ctx) ∧
    m = Some (mkSent ctx false (pnMsgID p) (pnRaw p) true) ∧
    ctxs s' ctx = set_localMID (set_sendIV (ctxs s ctx) (stepIV (ctxs s ctx))) (u32 (nextLocalMID (ctxs s ctx) + 1));
  sg_failed : (∀ p, r ≠ Ok p) → ctxs s' ctx = ctxs s ctx ∨ ctxs s' ctx = set_sendIV (ctxs s ctx) (stepIV (ctxs s ctx));
  sg_message : ∀ x, m = Some x → msCtx x = ctx ∧ msResponse x = false ∧ msID x = nextLocalMID (ctxs s ctx) ∧ msID x ≠ maxMessageID ∧
    sendIV (ctxs s' ctx) = stepIV (ctxs s ctx) ∧ stepIV (ctxs s ctx) ≠ 0 ∧ ivOf (msRaw x) = be_to 8 (stepIV (ctxs s ctx)) ∧
    (msTook x = true → ∃ p, r = Ok p) }.

Lemma startRequest_spec clk s req took now : session_ok clk s → clk ≤ now → small (rqInner req) → (∀ c, rqContext req = Some c → (c < nctx s)%nat) →
  let '(s', m, r) := startRequest s req took now in
  let ctx := default (current s) (rqContext req) in
  keeps now s s' ∧ safe r ∧ starting s s' ctx took m r ∧
  (∀ p, r = Ok p → pnRequest p = req ∧ pnAttempts p = 1 ∧ pnSent p = 1 ∧ pnDeadline p = now + requestTimeout) ∧ localRekey s' = localRekey s ∧
  held s' = held s ∧ world s' = world s.
Proof.
  intros Hok Hn Hl Hc. apply (session_later clk now) in Hok; [|done]. clear clk Hn. unfold startRequest. set (ctx := default _ _).
  pose proof (keeps_refl _ _ Hok) as Hk.
  assert (∀ r, (∀ p, r ≠ Ok p) → starting s s ctx took None r) as Hnone by (intros r Hr; split; try done; [by intros p Hp%Hr | by left]).
  destruct (_ && _); [split_and!; try done; by apply Hnone|]. destruct (_ =? _) eqn:Emax; [split_and!; try done; by apply Hnone|].
  set (hdr := mkHeader _ _ _ _ _ _ _ _ _).
  pose proof (encrypt_sealed (cxSuite (ctxs s ctx)) (sendIV (ctxs s ctx)) (localEncryptionKey (ctxs s ctx)) hdr (rqInner req) Hl) as He.
  destruct (encrypt _ _ _ _ _ _) as [iv r]. destruct He as (-> & Hs & Hraw). bool_props.
  set (s1 := onContext s ctx _).
  assert (keeps now s s1) as Hk1 by (by apply keeps_onContext).
  assert (ctxs s1 ctx = set_sendIV (ctxs s ctx) (stepIV (ctxs s ctx))) as Hx1 by (unfold s1, onContext, set_ctxs; cbn [ctxs]; by rewrite fn_lookup_insert).
  assert (∀ c, c ≠ ctx → ctxs s1 c = ctxs s c) as Ho1 by (intros c Hne; unfold s1, onContext, set_ctxs; cbn [ctxs]; by rewrite fn_lookup_insert_ne).
  destruct r as [raw|e|]; [|split_and!; try done; split; try done; by right|done].
  destruct (Hraw raw eq_refl) as (Hiv0 & Hiv & _). destruct took.
  - set (s2 := onContext s1 ctx _).
    assert (ctxs s2 ctx = set_localMID (set_sendIV (ctxs s ctx) (stepIV (ctxs s ctx))) (u32 (nextLocalMID (ctxs s ctx) + 1))) as Hx2
      by (unfold s2, onContext, set_ctxs; cbn [ctxs]; by rewrite fn_lookup_insert, Hx1).
    split_and!; try done.
    + eapply keeps_trans; [apply Hok | exact Hk1 |]. apply keeps_onContext; [apply Hk1 | done].
    + split; try done.
      * intros c Hne. unfold s2, onContext, set_ctxs. cbn [ctxs]. by rewrite fn_lookup_insert_ne, Ho1.
      * by intros p [= <-].
      * intros Hno. by destruct (Hno _ eq_refl).
      * intros x [= <-]. cbn [msCtx msResponse msID msRaw msTook]. rewrite Hx2. split_and!; try done. intros _. by eexists.
    + intros p [= <-]. by split_and!.
  - split_and!; try done. split; try done; [by right|].
    intros x [= <-]. cbn [msCtx msResponse msID msRaw msTook]. rewrite Hx1. by split_and!.
Qed.

End dispatch.

End tidy.
