(* ===== verification/IkeProc.v ===== *)
(** * Rekeyings keep the invariant

    [fine] is what a call may be at any of its waits: the invariant holds, and
    whatever the loop does meanwhile the call goes on to a state that is fine. It
    returns after finitely many exchanges, by induction. *)

From stdpp Require Import functions.
From S2P Require Import Prelude Netip Store Esp IkeMessage IkePayload IkeSa IkeSk IkeProposal IkeSelect TransHub Tunnel IkeChild IkeChildRun IkeSession IkeServe IkeExchange IkeRekey IkeInv IkeKeep IkeHandle.

Section tidy.
Context {T : Tidy}.

Definition procSession (p : proc) : ikeSession := match p with Done s _ => s | Ask s _ _ _ _ => s end.

(** What a call changes: no SA there was. *)
Definition extends (s s' : ikeSession) : Prop :=
  quiet s s' ∧ (nctx s ≤ nctx s')%nat ∧ muxOf s' = muxOf s ∧ (opened s' ↔ opened s).

(** Of the requests a call makes, only one that rekeys the IKE SA has a KE payload. *)
Definition rekeysIKE (inner : list RawPayload) : bool := existsb (λ p, Type_ p =? PayloadKE) inner.

(** The session when the answer to what was asked, on [ctx], in [s], is taken up. *)
Record meanwhile (clk : Z) (s : ikeSession) (ctx : nat) (inner : list RawPayload) (s' : ikeSession) (now : Z) (r : res (list RawPayload)) : Prop := mkMeanwhile {
  mw_time : clk ≤ now;
  mw_ok : session_ok now s';
  mw_later : later s s';
  mw_safe : safe r;
  mw_inner : ∀ ps, r = Ok ps → inner_ok ps ∧ (tidy → rekeysIKE inner = true → ctx ∈ held s') }.

Inductive fine : Z → proc → Prop :=
| fine_done clk s r : session_ok clk s → safe r → fine clk (Done s r)
| fine_ask clk s ctx exchange inner k : session_ok clk s → (ctx < nctx s)%nat → small inner →
    (∀ s' now r, meanwhile clk s ctx inner s' now r → fine now (k s' now r)) →
    (∀ s' now r, meanwhile clk s ctx inner s' now r → extends s' (procSession (k s' now r))) →
    fine clk (Ask s ctx exchange inner k).

(** A call that is fine and has not changed the SAs of [s]. *)
Definition goes (clk : Z) (s : ikeSession) (p : proc) : Prop := fine clk p ∧ extends s (procSession p).

Lemma goes_ask clk s s0 ctx exchange inner k : session_ok clk s → (ctx < nctx s)%nat → small inner → extends s0 s →
  (∀ s' now r, meanwhile clk s ctx inner s' now r → goes now s' (k s' now r)) → goes clk s0 (Ask s ctx exchange inner k).
Proof. intros Hok Hlt Hl He Hk. split; [|done]. constructor; try done; intros s' now r Hm; by destruct (Hk s' now r Hm). Qed.

Lemma extends_refl s : extends s s.
Proof. split; [apply quiet_refl | done]. Qed.

Lemma extends_trans s1 s2 s3 : extends s1 s2 → extends s2 s3 → extends s1 s3.
Proof.
  intros ([Q1 Q2] & N1 & M1 & O1) ([P1 P2] & N2 & M2 & O2). split_and!; [split|lia|congruence|by rewrite O2].
  - intros c Hc. rewrite P1 by lia. by apply Q1.
  - intros c Hc. destruct (decide (c < nctx s2)%nat); [rewrite P1 by done; apply Q2; lia | apply P2; lia].
Qed.

Lemma extends_same s s' : ctxs s' = ctxs s → nctx s' = nctx s → muxOf s' = muxOf s → (opened s' ↔ opened s) → extends s s'.
Proof. intros Hx Hn Hm Ho. split_and!; [by apply quiet_moves | lia | done | done]. Qed.

Lemma goes_after clk s s1 p : extends s s1 → goes clk s1 p → goes clk s p.
Proof. intros He [Hf Hp]. split; [done|]. by eapply extends_trans. Qed.

(** Only the places, the SAs and the world matter to the invariant. *)
Lemma session_same clk s s' : world s' = world s → ctxs s' = ctxs s → nctx s' = nctx s → held s' = held s → session_ok clk s → session_ok clk s'.
Proof.
  intros Hw Hx Hn Hh [[H1 H2] H3 H4 H5]. split; [split| | |].
  - intros c. rewrite Hh, Hn. apply H1.
  - intros c. rewrite Hn, Hx. apply H2.
  - by rewrite Hh.
  - unfold routed, opened, muxOf, spis in *. by rewrite Hw, Hh, Hx.
  - by rewrite Hw.
Qed.

Lemma release_session clk s spi : session_ok clk s → session_ok clk (releaseSPILocked s spi).
Proof.
  intros Hok. destruct (release_pre clk s spi []) as [Hp Hr].
  - apply (pre_move clk s s []); try done; [by destruct Hok | by left | by left | intros k []%not_elem_of_nil].
  - apply pre_nil. split; [done|]. destruct (steady_held _ _ (releases_steady _ _ Hr)) as [-> _]. apply Hok.
Qed.

Lemma release_extends s spi : extends s (releaseSPILocked s spi).
Proof. unfold releaseSPILocked. destruct (routedLocked s spi); by apply extends_same. Qed.

(** Dropping an SA from its place, before its SPI is released. *)
Lemma drop_session clk s s1 c : session_ok clk s → world s1 = world s → ctxs s1 = ctxs s → nctx s1 = nctx s → c ∈ held s →
  (∀ k, k ∈ held s1 → k ∈ held s) → (∀ k, k ∈ held s → k ∈ held s1 ∨ k = c) → NoDup (held s1) → session_ok clk (releaseSPILocked s1 (spiI (ctxs s c))).
Proof.
  intros Hok Hw Hx Hn Hc H1 H2 Hnd. destruct (release_pre clk s1 (spiI (ctxs s c)) []) as [Hp Hr].
  - apply (pre_move clk s s1 []); try done; [by destruct Hok | | |intros k []%not_elem_of_nil].
    + intros k Hk. left. by apply H1.
    + intros k Hk. destruct (H2 k Hk) as [|Heq]; [by left|]. right. rewrite Heq. by left.
  - apply pre_nil. split; [done|]. by destruct (steady_held _ _ (releases_steady _ _ Hr)) as [-> _].
Qed.

Section calls.
Context {C : Crypto} {CL : CryptoLaws C} {H : Hmac} {HL : HmacLaws H} {E : ECDH} {EL : ECDHLaws E}.

(** ** RekeyIKE *)

Lemma return_goes clk s old r : session_ok clk s → safe r → goes clk s (returnRekey s old r).
Proof.
  intros Hok Hs. unfold returnRekey. split; [constructor; [|done]|]; destruct (localRekey s) as [l|]; try done; try apply extends_refl.
  - destruct (rkOld l =? old)%nat; [|done]. by apply (session_same clk s).
  - cbn [procSession]. destruct (rkOld l =? old)%nat; [by apply extends_same | apply extends_refl].
Qed.


Lemma registered_open s x h : RegisterIKE (hub (world s)) (muxOf s) (spiI x) = Ok h → opened (newContext (onHub s (λ _, h)) x).1 ↔ opened s.
Proof. intros (_ & Hc & _)%register_hub. unfold opened, openWorld, newContext, onHub, muxOf in *. cbn [fst world hub sess set_world]. by rewrite Hc. Qed.

(** The SA [c] of our rekeying takes the place of whatever is current, and the SA
    it was to replace, gone by then, comes back beside it. *)
Lemma retain_gone clk s X old c now : (tidy → False) → pre clk s X → raced s old → (old < nctx s)%nat → (c < nctx s)%nat → c ≠ old →
  let s' := set_current (retainOldLocked s old now) c in session_ok clk s' ∧ moves s s'.
Proof.
  intros Hno (Hc & _ & Hf) (R1 & R2 & R3) Ho Hlt Hne s'. unfold s', retainOldLocked. set (s1 := set_old s (Some old) _).
  assert (∀ k, k ∈ held (set_current s1 c) ↔ k = c ∨ k = old) as Hh.
  { intros k. rewrite held_parts. cbn. rewrite R3. naive_solver. }
  assert (pre clk s1 (option_list (spiI ∘ ctxs s1 <$> IkeSession.old s) ++ [])) as Hp1.
  { split_and!; [split|by intros ?%Hno|done].
    - intros k. rewrite held_parts. cbn. rewrite R3. intros [->|[[= <-]|[=]]]; [apply Hc, current_held | done].
    - apply Hc. }
  destruct (displaced_pre clk s1 (IkeSession.old s) _ Hp1) as [(_ & _ & Hf2) Hrl]. set (s2 := releaseDisplacedLocked s1 _) in *.
  pose proof Hrl as [L1 L2 L3 L4 L5 L6 L7 L8]. cbn in L1, L2, L4, L5, L6.
  assert (held (set_current s2 c) = held (set_current s1 c)) as Hh2 by (unfold held; cbn; rewrite L4, L5; done).
  split; [split; [split| |by intros ?%Hno|done] | by split].
  - intros k. rewrite Hh2, Hh. cbn. rewrite L2. intros [->| ->]; done.
  - intros k. cbn. rewrite L1, L2. apply Hc.
  - rewrite Hh2. apply nodup_held. cbn. rewrite R3. split_and!; [congruence | done | done].
Qed.

(** The SA a rekeying replaces is current, or gone. *)
Definition replaces (s : ikeSession) (old : nat) (spi : Z) : Prop := rekeys s old spi ∨ (tidy → False) ∧ raced s old.

Lemma finishRekey_goes clk s old new now : session_ok clk s → clk ≤ now → usablePRF new → fresh new → (old < nctx s)%nat →
  old = current s ∧ spiI new ∉ spis s ∨ (tidy → False) ∧ raced s old → goes now s (finishRekey s old new now).
Proof.
  intros Hok Hn Hprf Hfr Hlt Hni. apply (session_later clk now) in Hok; [|done]. clear clk Hn. unfold finishRekey.
  pose proof (RegisterIKE_safe (hub (world s)) (muxOf s) (spiI new)). destruct (RegisterIKE _ _ _) as [h|e|] eqn:Er; [|by apply return_goes|done].
  pose proof (registered_open s new h Er) as Ho1. pose proof (registered_pre now s new h Hok Hprf Er) as Hreg. destruct (newContext (onHub s (λ _, h)) new) as [s1 c].
  destruct Hreg as (Hp & Hc & Hn1 & Hx1 & Hnh & Hh1 & Hcur1 & Hold1 & Hcol1 & Hlr1 & Hm1 & Hctx1 & Hike).
  assert (session_ok now (set_current (retainOldLocked s1 old now) c) ∧ moves s1 (set_current (retainOldLocked s1 old now) c)) as [Hok2 [M1 M2 M3 M4 M5]].
  { destruct Hni as [[-> Hni]|[Hno (R1 & R2 & R3)]].
    - assert (spiI new ∉ spis s1) as Hni1.
      { intros (j & Hj & Ej)%elem_of_spis. rewrite Hh1 in Hj. apply Hni. rewrite <- Ej, Hctx1; [by apply spis_ctx|]. apply (so_contexts _ _ Hok) in Hj. lia. }
      rewrite <- Hcur1. destruct (retain_current now s1 c now) as (Hok2 & Hmv & _); rewrite ?Hx1; try done; [by rewrite Hh1; apply Hok | lia].
    - apply (retain_gone now s1 [spiI new]); try done; [|lia|lia|lia]. unfold raced. rewrite Hh1, Hlr1, Hcol1. done. }
  set (s2 := set_current _ c) in *.
  apply goes_ask; [done | lia | by unfold small; cbn | |].
  2: {
    intros s' now' r [Hn' Hok' Hl' Hsr _].
    pose proof (so_nodup _ _ Hok') as Hnd. apply nodup_held in Hnd as (N1 & N2 & N3).
    case_bool_decide as Ho.
    + set (t := set_old s' None (oldBy s')). change (ctxs t) with (ctxs s').
      apply (goes_after now' s' (releaseSPILocked t (spiI (ctxs s' old)))); [eapply extends_trans; [|apply release_extends]; by apply extends_same|].
      apply return_goes; [|done]. apply (drop_session now' s' _ old); try done.
      * rewrite held_parts. auto.
      * intros k. rewrite !held_parts. cbn. naive_solver.
      * intros k. rewrite !held_parts. cbn. naive_solver.
      * apply nodup_held. cbn. by split_and!.
    + eapply (goes_after now' s'); [apply release_extends|]. apply return_goes; [by apply release_session | done]. }
  split_and!; [split| lia | congruence | by rewrite M5].
  + intros k Hk. rewrite M1. apply Hctx1. lia.
  + intros k Hk. rewrite M1. assert (k = c) as -> by lia. by rewrite Hx1.
Qed.

Lemma yieldRekey_goes clk s w new now : session_ok clk s → clk ≤ now → usablePRF new → fresh new → spiI new ∉ spis s → collision s = Some w →
  goes now s (yieldRekey s (current s) w new now).
Proof.
  intros Hok Hn Hprf Hfr Hni Hw. apply (session_later clk now) in Hok; [|done]. clear clk Hn. unfold yieldRekey. set (old := current s).
  pose proof (RegisterIKE_safe (hub (world s)) (muxOf s) (spiI new)). destruct (RegisterIKE _ _ _) as [h|e|] eqn:Er; [|by apply return_goes|done].
  pose proof (registered_open s new h Er) as Ho1. pose proof (registered_pre now s new h Hok Hprf Er) as Hreg. destruct (newContext (onHub s (λ _, h)) new) as [s1 c].
  destruct Hreg as (Hp & Hc & Hn1 & Hx1 & Hnh & Hh1 & Hcur1 & Hold1 & Hcol1 & Hlr1 & Hm1 & Hctx1 & Hike).
  assert (spiI new ∉ spis s1) as Hni1.
  { intros (j & Hj & Ej)%elem_of_spis. rewrite Hh1 in Hj. apply Hni. rewrite <- Ej, Hctx1; [by apply spis_ctx|]. apply (so_contexts _ _ Hok) in Hj. lia. }
  replace old with (current s1) by done.
  destruct (retain_winner now s1 w c now) as (Hok2 & [M1 M2 M3 M4 M5] & P1 & P2 & P3); rewrite ?Hx1; try done;
    [by rewrite Hh1; apply Hok | lia | congruence|].
  set (s2 := retainCollisionLocked _ c now) in *.
  apply goes_ask; [done | lia | by unfold small; cbn | |].
  2: {
    intros s' now' r [Hn' Hok' Hl' Hsr _].
    pose proof (so_nodup _ _ Hok') as Hnd. apply nodup_held in Hnd as (N1 & N2 & N3).
    assert (safe (match r with Ok _ => Ok tt | Err e => Err ("ike: delete redundant local IKE SA: " +:+ e) | Panic => Panic end)) as Hsr' by (by destruct r).
    case_bool_decide as Ho.
    + set (t := set_collision s' None (collisionBy s')).
      apply (goes_after now' s' (releaseSPILocked t (spiI new))); [eapply extends_trans; [|apply release_extends]; by apply extends_same|].
      apply return_goes; [|done]. assert (spiI new = spiI (ctxs s' c)) as ->.
      { destruct (fixed_spi _ _ (lt_fixed _ _ Hl' c ltac:(lia))) as [-> _]. by rewrite M1, Hx1. }
      apply (drop_session now' s' _ c); try done.
      * rewrite held_parts. auto.
      * intros k. rewrite !held_parts. cbn. naive_solver.
      * intros k. rewrite !held_parts. cbn. naive_solver.
      * apply nodup_held. cbn. by split_and!.
    + eapply (goes_after now' s'); [apply release_extends|]. apply return_goes; [by apply release_session | done]. }
  split_and!; [split| lia | congruence | by rewrite M5].
  + intros k Hk. rewrite M1. apply Hctx1. lia.
  + intros k Hk. rewrite M1. assert (k = c) as -> by lia. by rewrite Hx1.
Qed.

(** The SA that is rekeyed is current when the answer is taken up and the nonces of
    a collision are there, or it is gone and there is no collision. *)
Lemma concludeRekey_goes clk s old d group dh response now : session_ok clk s → clk ≤ now → (old < nctx s)%nat → replaces s old (rdSPI d) →
  goes now s (concludeRekey s old d group dh response now).
Proof.
  intros Hok Hn Hlt Hrep. unfold concludeRekey.
  destruct (acceptRekey_safe (ctxs s old) d group dh response) as [Hs Hp].
  destruct (acceptRekey _ d group dh response) as [[new nonce]|e|] eqn:Ea; [|apply return_goes; [by apply (session_later clk) | done]|done].
  destruct (Hp _ _ eq_refl) as [Hprf Hspi].
  assert (fresh new) as Hfr.
  { unfold acceptRekey in Ea. apply bind_ok_inv in Ea as ([[sa no] ke] & _ & Ea). apply bind_ok_inv in Ea as ([su sp] & _ & Ea).
    destruct (DecodeKE _) as [[pg pub]| |]; [|done..]. passed Ea. apply bind_ok_inv in Ea as (z & _ & Ea). apply bind_ok_inv in Ea as (k & _ & Ea).
    by injection Ea as <- _. }
  destruct Hrep as [(Hcur & (l & El & _) & Hni)|[Hno Hr]].
  2: { pose proof Hr as (_ & _ & ->). apply (finishRekey_goes clk); try done. by right. }
  rewrite <- Hspi in Hni. destruct (collision s) as [w|] eqn:Ec; [|apply (finishRekey_goes clk); try done; by left].
  rewrite El. destruct (lowestNonceBelongsToFirst _ _ _ _); [subst old; by apply (yieldRekey_goes clk) | apply (finishRekey_goes clk); try done; by left].
Qed.

Definition draw_ok (d : rekeyDraw) : Prop := length (rdNonce d) = 32%nat.

Lemma rekeyRequest_small x d group pub : draw_ok d → (length pub < 200)%nat → small (rekeyRequest x d group pub).
Proof.
  intros Hd Hpl. unfold small, rekeyRequest. rewrite !length_chain_cons. cbn [length Body encodePayloadChain].
  pose proof (length_EncodeSA_one (ikeRekeyProposal (be_to 8 (rdSPI d)) (suPRFID (cxSuite x)))) as Hl. unfold ikeRekeyProposal in *.
  pose proof (List.filter_length_le (λ t, negb (trType t =? TransPRF) || (trID t =? suPRFID (cxSuite x))) (Transforms ikeProposal)) as Hfl.
  change (length (Transforms ikeProposal)) with 8%nat in Hfl. cbn [SPI Transforms] in Hl. rewrite length_be_to in Hl.
  unfold EncodeNonce. rewrite length_EncodeKE, Hd. unfold genericPayloadHeaderLen. cbn [Transforms ikeProposal] in *. lia.
Qed.

(** The answer to an attempt finds the SA where it was, or gone. *)
Lemma replaces_later s s' old spi : later s s' → (old < nctx s)%nat → (tidy → current s ∈ held s') → replaces s old spi → replaces s' old spi.
Proof.
  intros Hl Hlt Hh [Hr|[Hno Hr]]; [|right; split; [done | by apply (lt_raced _ _ Hl)]].
  destruct (lt_rekey _ _ Hl old spi Hr) as [?|Hr']; [by left | right; split; [|done]]. intros Ht. destruct Hr as [<- _], Hr' as [Hni _]. by apply Hni, Hh.
Qed.

Lemma attemptRekey_goes d : draw_ok d → ∀ more clk s old group, session_ok clk s → (old < nctx s)%nat → replaces s old (rdSPI d) →
  goes clk s (attemptRekey more s old d group).
Proof.
  intros Hd more. induction more as [more IH] using lt_wf_ind. intros clk s old group Hok Hlt Hrk.
  destruct more as [|more']; cbn [attemptRekey];
    (match goal with |- context [GenerateDH group ?r] => pose proof (GenerateDH_safe group r) as Hs; destruct (GenerateDH group r) as [dh|e|] eqn:Edh end;
    [|by apply return_goes|done]); destruct (GenerateDH_public _ _ _ Edh) as (_ & pub & -> & Hpl & _);
    (apply goes_ask; [done | apply (so_contexts _ _ Hok), current_held | by apply rekeyRequest_small | apply extends_refl |]);
    intros s' now r [Hn' Hok' Hl' Hsr Hin]; (destruct r as [response|e|]; [|by apply return_goes|done]);
    destruct (Hin _ eq_refl) as [_ Hheld]; pose proof (replaces_later s s' old _ Hl' Hlt (λ Ht, Hheld Ht eq_refl) Hrk) as Hrk';
    assert (old < nctx s')%nat as Hlt' by (pose proof (lt_nctx _ _ Hl'); lia);
    pose proof (retryGroup_safe response) as Hsg; (destruct (retryGroup response) as [retry|e|]; [|by apply return_goes|done]);
    (destruct (retry =? 0); [by apply (concludeRekey_goes now)|]).
  - by apply return_goes.
  - destruct (supportedIKEGroup retry); [|by apply return_goes]. apply IH; [lia | done | done | done].
Qed.

Lemma RekeyIKE_goes clk s d : session_ok clk s → draw_ok d → rdSPI d ∉ spis s → goes clk s (RekeyIKE s d).
Proof.
  intros Hok Hd Hni. unfold RekeyIKE. set (s1 := set_localRekey s _). apply (goes_after clk s s1); [by apply extends_same|].
  apply attemptRekey_goes; [done | by apply (session_same clk s) | apply (so_contexts _ _ Hok), current_held|]. left. split; [done|]. split; [|done]. eexists. by split_and!.
Qed.

(** ** RekeyChild *)

(** What [negotiateChild] is given to return to. *)
Definition returns_fine (ret : childReturn) : Prop :=
  ∀ clk s r, session_ok clk s → (∀ x, r = inl x → safe x) → goes clk s (ret s clk r).

Lemma world_goes clk now s w p : session_ok clk s → clk ≤ now → fits now w → aside (world s) w →
  (session_ok now (set_world s w) → goes now (set_world s w) p) → goes now s p.
Proof.
  intros Hok Hn Hf Ha Hp. destruct (keeps_world clk now s w Hok Hn Hf Ha) as [Hok1 _]. apply (goes_after now s (set_world s w)); [|by apply Hp].
  apply extends_same; [done | done| |by apply (aside_open _ _ Ha)]. by destruct Ha as (_ & _ & _ & Hm).
Qed.

Lemma small_deleteESP n v : small [deleteESPPayload (be_to n v)] ∨ (100 < n)%nat.
Proof.
  destruct (decide (n ≤ 100)%nat) as [Hle|]; [left | right; lia]. apply small_one. cbn [Body deleteESPPayload]. unfold EncodeDelete. cbn [dProtocol SPIs concat].
  rewrite !length_app, !length_be_to. cbn [length]. lia.
Qed.

Lemma orphaned_goes clk s v cause ret : session_ok clk s → returns_fine ret → goes clk s (orphaned s (be_to 4 v) cause ret).
Proof.
  intros Hok Hret. unfold orphaned. apply goes_ask; [done | apply (so_contexts _ _ Hok), current_held | by destruct (small_deleteESP 4 v); [|lia] | apply extends_refl |].
  intros s' now r [_ Hok' _ _ _]. apply Hret; [done|]. by intros x [= <-].
Qed.

Lemma retireReplaced_goes clk s old ret : session_ok clk s → returns_fine ret → goes clk s (retireReplaced s old ret).
Proof.
  intros Hok Hret. unfold retireReplaced.
  apply goes_ask; [done | apply (so_contexts _ _ Hok), current_held | by destruct (small_deleteESP 4 (LocalSPI old)); [|lia] | apply extends_refl |].
  intros s' now r [_ Hok' _ Hsr Hin]. destruct (fits_retire now now (world s') (RemoteSPI old) (Z.le_refl _) (so_world _ _ Hok')) as (Hf & Hs & Ha).
  destruct (retireChild (world s') (RemoteSPI old) now) as [w x]. cbn [fst snd] in *.
  apply (world_goes now now s' w); try done. intros Hok1. destruct r as [deleted|e|], x as [u|e'|]; try done; apply Hret; try done; intros y [= <-]; try done.
  apply checkDeletes_safe. by destruct (Hin _ eq_refl) as [[_ Hb] _].
Qed.

Lemma childRequest_small old ent : entropy_ok ent → small (childRequest old ent).
Proof.
  intros He. unfold small, childRequest, entropy_ok in *.
  assert (length (EncodeTS [FullRangeV4; FullRangeV6]) = 60)%nat as Ht by reflexivity.
  assert (∀ o, length (EncodeSA [match o with Some o => espRekeyProposal (be_to 4 (enSPI32 ent)) o | None => espProposal (be_to 4 (enSPI32 ent)) end]) ≤ 60)%nat as Hsa.
  { intros o. etrans; [apply length_EncodeSA_one|].
    assert (length (SPI (match o with Some o => espRekeyProposal (be_to 4 (enSPI32 ent)) o | None => espProposal (be_to 4 (enSPI32 ent)) end)) = 4%nat ∧
      (length (Transforms (match o with Some o => espRekeyProposal (be_to 4 (enSPI32 ent)) o | None => espProposal (be_to 4 (enSPI32 ent)) end)) ≤ 4)%nat) as [-> Hx]; [|lia].
    destruct o as [o|]; [|done]. unfold espRekeyProposal. destruct (canonicalChildCipher o); [|done..]. cbn [SPI Transforms]. split; [done|].
    etrans; [apply List.filter_length_le|]. cbn. lia. }
  specialize (Hsa old). destruct old as [o|]; cbn [app]; rewrite !length_chain_cons; cbn [length Body encodePayloadChain notifyPayload];
    rewrite ?length_EncodeNotify; cbn [nSPI nData length]; rewrite ?length_be_to; unfold EncodeNonce, genericPayloadHeaderLen; rewrite Ht, He; lia.
Qed.

Lemma negotiateChild_goes clk s old ent ret : session_ok clk s → entropy_ok ent → returns_fine ret → goes clk s (negotiateChild s clk old ent ret).
Proof.
  intros Hok He Hret. unfold negotiateChild. destruct (canReplaceChild _ _) as [u|e|] eqn:Hc.
  2: { apply Hret; [done | by intros x [= <-]]. }
  2: { unfold canReplaceChild in Hc. repeat case_match; done. }
  assert (current s < nctx s)%nat as Hlt by (apply (so_contexts _ _ Hok), current_held).
  apply goes_ask; [done | done | by apply childRequest_small | apply extends_refl |].
  intros s' now r [Hn Hok' Hl' Hsr Hin]. destruct r as [response|e|]; [|apply Hret; [done | by intros x [= <-]]|done].
  assert (usablePRF (ctxs s' (current s))) as Hprf by (apply (co_prf _ (so_contexts _ _ Hok')); pose proof (lt_nctx _ _ Hl'); lia).
  pose proof (acceptedChild_safe (ctxs s' (current s)) old ent response Hprf) as Hs.
  destruct (acceptedChild _ old ent response) as [[child|n]|e|]; [|apply Hret; [done | by intros x [=]]|by apply orphaned_goes|done].
  destruct (fits_replace now now (world s') child (Z.le_refl _) (so_world _ _ Hok')) as (Hf & Hsafe & Ha).
  destruct (replaceChild (world s') child now) as [w [u'|e|]]; cbn [fst snd] in *; [| |done]; (apply (world_goes now now s' w); try done; intros Hok1).
  - destruct old as [o|]; [by apply retireReplaced_goes | apply Hret; [done | by intros x [= <-]]].
  - by apply orphaned_goes.
Qed.

Lemma returnChild_fine : returns_fine returnChild.
Proof.
  intros clk s r Hok Hr. unfold returnChild. split; [constructor; [by apply (session_same clk s)|] | by apply extends_same].
  destruct r as [x|n]; [by apply Hr | done].
Qed.

Lemma rekeyChild_goes clk s b ent ent' : session_ok clk s → entropy_ok ent → entropy_ok ent' → goes clk s (rekeyChild s clk b ent ent').
Proof.
  intros Hok He He'. unfold rekeyChild. destruct (childRekeying s).
  { split; [constructor; [done | by destruct b] | apply extends_refl]. }
  set (s1 := set_childRekeying s true). apply (goes_after clk s s1); [by apply extends_same|].
  assert (session_ok clk s1) as Hok1 by (by apply (session_same clk s)). pose proof returnChild_fine as Hrf.
  destruct (_ && _); [by apply negotiateChild_goes|]. destruct (_ || _); [apply Hrf; [done | by intros x [= <-]]|].
  apply negotiateChild_goes; [done | done|]. intros now s2 r Hok2 Hr. destruct r as [x|n]; [by apply Hrf|].
  destruct (negb _); [apply Hrf; [done | by intros x [=]]|]. destruct (_ || _); [apply Hrf; [done | by intros x [= <-]]|].
  destruct (fits_forget now now (world s2) (Child (sess (world s1))) (Z.le_refl _) (so_world _ _ Hok2)) as (Hf & Hs & Ha).
  destruct (forgetChild (world s2) _ now) as [w [u|e|]]; cbn [fst snd] in *; [| |done]; (apply (world_goes now now s2 w); try done; intros Hok3).
  - by apply negotiateChild_goes.
  - apply Hrf; [done | by intros x [= <-]].
Qed.

Lemma DeleteIKE_goes clk s : session_ok clk s → goes clk s (DeleteIKE s).
Proof.
  intros Hok. unfold DeleteIKE. apply goes_ask; [done | apply (so_contexts _ _ Hok), current_held | by unfold small; cbn | apply extends_refl |].
  intros s' now r [_ Hok' _ Hsr _]. split; [constructor; [done | by destruct r] | apply extends_refl].
Qed.

End calls.

End tidy.
