(* ===== verification/IkeEngine.v ===== *)
(** * A pass of the loop

    What a session has sent, and what one pass of its loop keeps. *)

From stdpp Require Import functions.
From S2P Require Import Prelude Netip Store Esp IkeMessage IkePayload IkeSa IkeSk IkeProposal IkeSelect TransHub Tunnel IkeChild IkeChildRun IkeSession IkeServe IkeExchange IkeRekey IkeRun IkeInv IkeKeep IkeHandle IkeProc.

(** * What a session has sent

    The messages given to the socket, beside the counters of the SAs: IVs, the
    Message IDs of the peer's requests and of our own. *)

Section tidy.
Context {T : Tidy}.

(** Every message has an IV its SA has counted, and two with one IV are the same. *)
Record ivs (B : Z) (s : ikeSession) (log : list message) : Prop := mkIvs {
  iv_counted : ∀ m, m ∈ log → (msCtx m < nctx s)%nat ∧ ∃ n, 0 < n ≤ sendIV (ctxs s (msCtx m)) ∧ ivOf (msRaw m) = be_to 8 n;
  iv_unique : ∀ m m', m ∈ log → m' ∈ log → msCtx m = msCtx m' → ivOf (msRaw m) = ivOf (msRaw m') → msRaw m = msRaw m';
  iv_bound : ∀ c, (c < nctx s)%nat → 0 ≤ sendIV (ctxs s c) ≤ B }.

(** A request of the peer has one answer, and the SA remembers the last. *)
Record answers (s : ikeSession) (log : list message) : Prop := mkAnswers {
  an_one : ∀ m m', m ∈ log → m' ∈ log → msCtx m = msCtx m' → msResponse m = true → msResponse m' = true → msID m = msID m' → msRaw m = msRaw m';
  an_past : opened s → ∀ m, m ∈ log → msResponse m = true → msID m < nextPeerMID (ctxs s (msCtx m));
  an_last : ∀ c, (c < nctx s)%nat → 0 < nextPeerMID (ctxs s c) → lastPeerResponseID (ctxs s c) = nextPeerMID (ctxs s c) - 1 →
    ∃ m, m ∈ log ∧ msCtx m = c ∧ msResponse m = true ∧ msID m = lastPeerResponseID (ctxs s c) ∧ msRaw m = lastPeerResponse (ctxs s c);
  an_range : ∀ c, (c < nctx s)%nat → 0 ≤ nextPeerMID (ctxs s c) ≤ maxMessageID }.

(** A Message ID is used for one request of ours. *)
Record asks (s : ikeSession) (log : list message) : Prop := mkAsks {
  as_one : ∀ m m', m ∈ log → m' ∈ log → msCtx m = msCtx m' → msResponse m = false → msResponse m' = false → msTook m = true → msTook m' = true →
    msID m = msID m' → msRaw m = msRaw m';
  as_past : ∀ m, m ∈ log → msResponse m = false → msTook m = true → msID m < nextLocalMID (ctxs s (msCtx m));
  as_range : ∀ c, (c < nctx s)%nat → 0 ≤ nextLocalMID (ctxs s c) ≤ maxMessageID }.

(** The request that waits has been sent. *)
Definition pendingLogged (log : list message) (pending : option pendingRequest) : Prop :=
  ∀ p, pending = Some p → mkSent (pnContext p) false (pnMsgID p) (pnRaw p) true ∈ log.

Record logged (B : Z) (s : ikeSession) (pending : option pendingRequest) (log : list message) : Prop := mkLogged {
  lg_ivs : ivs B s log; lg_answers : answers s log; lg_asks : asks s log; lg_pending : pendingLogged log pending }.

(** ** Steps that seal nothing *)

(** The SAs keep their counters. *)
Definition still (s s' : ikeSession) : Prop :=
  (nctx s ≤ nctx s')%nat ∧ (∀ c, (c < nctx s)%nat → ctxs s' c = ctxs s c) ∧ (∀ c, (nctx s ≤ c < nctx s')%nat → fresh (ctxs s' c)) ∧ (opened s' → opened s).

Lemma extends_still s s' : extends s s' → still s s'.
Proof. intros ([Q1 Q2] & Hn & _ & Ho). split_and!; [done | done | done | apply Ho]. Qed.

Lemma logged_still B s s' pending log : 0 ≤ B → still s s' → logged B s pending log → logged B s' pending log.
Proof.
  intros HB (Hn & Hx & Hf & Ho) [[I1 I2 I3] [A1 A2 A3 A4] [K1 K2 K3] Hp].
  assert (∀ m, m ∈ log → (msCtx m < nctx s)%nat) as Hlt by (intros m Hm; by apply I1).
  assert (∀ c, (c < nctx s')%nat → ctxs s' c = ctxs s c ∧ (c < nctx s)%nat ∨ fresh (ctxs s' c)) as Hc.
  { intros c Hc. destruct (decide (c < nctx s)%nat); [left; split; [by apply Hx | done] | right; apply Hf; lia]. }
  split; [split|split|split|done]; try done.
  - intros m Hm. destruct (I1 m Hm) as [Hl Hi]. rewrite Hx by done. split; [lia | done].
  - intros c Hl. destruct (Hc c Hl) as [[-> ?]|(-> & _)]; [by apply I3 | lia].
  - intros Hop m Hm Hr. rewrite Hx by (by apply Hlt). apply A2; [by apply Ho | done | done].
  - intros c Hl. destruct (Hc c Hl) as [[-> ?]|(_ & _ & -> & _)]; [by apply A3 | lia].
  - intros c Hl. destruct (Hc c Hl) as [[-> ?]|(_ & _ & -> & _)]; [by apply A4 | unfold maxMessageID; lia].
  - intros m Hm Hr Ht. rewrite Hx by (by apply Hlt). by apply K2.
  - intros c Hl. destruct (Hc c Hl) as [[-> ?]|(_ & -> & _)]; [by apply K3 | unfold maxMessageID; lia].
Qed.

Lemma logged_bound B B' s pending log : B ≤ B' → logged B s pending log → logged B' s pending log.
Proof. intros HB [[I1 I2 I3] HA HK Hp]. split; try done. split; try done. intros c Hc. specialize (I3 c Hc). lia. Qed.

Lemma logged_pending B s pending pending' log : pendingLogged log pending' → logged B s pending log → logged B s pending' log.
Proof. intros Hp [HI HA HK _]. by split. Qed.

(** A message like one that was sent. *)
Lemma logged_again B s pending log m m0 : m0 ∈ log → msCtx m = msCtx m0 → msRaw m = msRaw m0 → msResponse m = msResponse m0 → msID m = msID m0 →
  (msResponse m = false → msTook m0 = true) → logged B s pending log → logged B s pending (log ++ [m]).
Proof.
  intros Hm0 Ec Er Ek Ei Et [[I1 I2 I3] [A1 A2 A3 A4] [K1 K2 K3] Hp].
  assert (∀ x, x ∈ log ++ [m] → x ∈ log ∨ x = m) as Hin by (intros x [?|?%list_elem_of_singleton]%elem_of_app; auto).
  split; [split|split|split|].
  - intros x [Hx| ->]%Hin; [by apply I1|]. rewrite Ec, Er. by apply I1.
  - intros x x' [Hx| ->]%Hin [Hx'| ->]%Hin; rewrite ?Ec, ?Er; by apply I2.
  - done.
  - intros x x' [Hx| ->]%Hin [Hx'| ->]%Hin; rewrite ?Ec, ?Er, ?Ek, ?Ei; by apply A1.
  - intros Ho x [Hx| ->]%Hin; rewrite ?Ec, ?Ek, ?Ei; by apply A2.
  - intros c Hc H0 Hl. destruct (A3 c Hc H0 Hl) as (x & Hx & ?). exists x. split; [|done]. apply elem_of_app. by left.
  - done.
  - intros x x' [Hx| ->]%Hin [Hx'| ->]%Hin; rewrite ?Ec, ?Er, ?Ek, ?Ei; intros E1 E2 E3 E4 E5 E6; [by apply K1 | | |done].
    + apply (K1 x m0); try done. apply Et. by rewrite Ek.
    + apply (K1 m0 x'); try done. apply Et. by rewrite Ek.
  - intros x [Hx| ->]%Hin; rewrite ?Ec, ?Ek, ?Ei; [by apply K2|]. intros E1 _. apply K2; [done | done|]. apply Et. by rewrite Ek.
  - done.
  - intros p E. apply elem_of_app. left. by apply Hp.
Qed.

(** ** A message that is sealed *)

Lemma be8_inj a b : 0 ≤ a < 2 ^ 64 → 0 ≤ b < 2 ^ 64 → be_to 8 a = be_to 8 b → a = b.
Proof. intros Ha Hb E. rewrite <- (be_of_be_to_small 8 a), <- (be_of_be_to_small 8 b) by (cbn; lia). by rewrite E. Qed.

(** One SA has counted one message more. *)
Record seals (B : Z) (ctx : nat) (s s' : ikeSession) : Prop := mkSeals {
  sl_ctx : (ctx < nctx s)%nat;
  sl_nctx : (nctx s ≤ nctx s')%nat;
  sl_others : ∀ c, (c < nctx s)%nat → c ≠ ctx → ctxs s' c = ctxs s c;
  sl_fresh : ∀ c, (nctx s ≤ c < nctx s')%nat → fresh (ctxs s' c);
  sl_open : opened s' → opened s;
  sl_iv : sendIV (ctxs s' ctx) = sendIV (ctxs s ctx) + 1 }.

Lemma seals_cases B ctx s s' c : seals B ctx s s' → (c < nctx s')%nat → (c < nctx s)%nat ∧ c ≠ ctx ∧ ctxs s' c = ctxs s c ∨ c = ctx ∨ fresh (ctxs s' c).
Proof.
  intros [H1 H2 H3 H4 H5 H6] Hc. destruct (decide (c = ctx)) as [->|Hne]; [auto|]. destruct (decide (c < nctx s)%nat); [left; by auto | right; right; apply H4; lia].
Qed.

Lemma ivs_seals B s log ctx s' ms : ivs B s log → 0 ≤ B → B + 1 < 2 ^ 64 → seals B ctx s s' →
  (∀ m, ms = Some m → msCtx m = ctx ∧ ivOf (msRaw m) = be_to 8 (sendIV (ctxs s ctx) + 1)) → ivs (B + 1) s' (log ++ option_list ms).
Proof.
  intros [I1 I2 I3] HB HB' Hs Hms. pose proof Hs as [H1 H2 H3 H4 H5 H6]. pose proof (I3 ctx H1) as Hb.
  assert (∀ x, x ∈ log ++ option_list ms → x ∈ log ∨ ms = Some x) as Hin by (intros x [?|?%in_option_list]%elem_of_app; auto).
  assert (∀ m m', m ∈ log → ms = Some m' → msCtx m = msCtx m' → ivOf (msRaw m) ≠ ivOf (msRaw m')) as Hnew.
  { intros m m' Hm Em Ec Ei. destruct (Hms m' Em) as [Ec' Ei']. destruct (I1 m Hm) as (_ & n & Hn & En). rewrite Ec, Ec' in Hn. rewrite En, Ei' in Ei.
    apply be8_inj in Ei; lia. }
  split.
  - intros m [Hm|Em]%Hin.
    + destruct (I1 m Hm) as (Hl & n & Hn & En). split; [lia|]. exists n. split; [|done].
      destruct (decide (msCtx m = ctx)) as [Ec|Ec]; [rewrite Ec in *; rewrite H6; lia | by rewrite H3].
    + destruct (Hms m Em) as [-> Ei]. split; [lia|]. exists (sendIV (ctxs s ctx) + 1). rewrite H6. split; [lia | done].
  - intros m m' [Hm|Em]%Hin [Hm'|Em']%Hin Ec Ei.
    + by apply I2.
    + by destruct (Hnew m m' Hm Em' Ec).
    + by destruct (Hnew m' m Hm' Em (eq_sym Ec)).
    + congruence.
  - intros c Hc. destruct (seals_cases B ctx s s' c Hs Hc) as [(? & ? & ->)|[->|(-> & _)]]; [specialize (I3 c ltac:(done)); lia | rewrite H6; lia | lia].
Qed.

(** The parts of an SA that belong to the peer's requests, and to ours. *)
Definition peerSide (x : ikeContext) : Z * Z * list Z := (nextPeerMID x, lastPeerResponseID x, lastPeerResponse x).

(** A sealed request of ours leaves the peer's side. *)
Lemma answers_request B s log ctx s' ms : answers s log → ivs B s log → seals B ctx s s' → peerSide (ctxs s' ctx) = peerSide (ctxs s ctx) →
  (∀ m, ms = Some m → msResponse m = false) → answers s' (log ++ option_list ms).
Proof.
  intros [A1 A2 A3 A4] [I1 _ _] Hs Hp Hms. pose proof Hs as [H1 H2 H3 H4 H5 H6]. unfold peerSide in Hp. injection Hp as P1 P2 P3.
  assert (∀ x, x ∈ log ++ option_list ms → msResponse x = true → x ∈ log) as Hin.
  { intros x [?|E%in_option_list]%elem_of_app Hr; [done|]. rewrite (Hms x E) in Hr. done. }
  split.
  - intros m m' Hm Hm' Ec Er Er'. apply A1; auto.
  - intros Ho m Hm Hr. specialize (Hin m Hm Hr). specialize (A2 (H5 Ho) m Hin Hr). destruct (I1 m Hin) as [Hl _].
    destruct (decide (msCtx m = ctx)) as [Ec|Ec]; [rewrite Ec in *; by rewrite P1 | by rewrite H3].
  - intros c Hc. assert ((c < nctx s)%nat → 0 < nextPeerMID (ctxs s c) → lastPeerResponseID (ctxs s c) = nextPeerMID (ctxs s c) - 1 →
      ∃ m, m ∈ log ++ option_list ms ∧ msCtx m = c ∧ msResponse m = true ∧ msID m = lastPeerResponseID (ctxs s c) ∧ msRaw m = lastPeerResponse (ctxs s c)) as Hk.
    { intros Hl H0 Hlast. destruct (A3 c Hl H0 Hlast) as (m & Hm & ?). exists m. split; [apply elem_of_app; by left | done]. }
    destruct (seals_cases B ctx s s' c Hs Hc) as [(? & ? & ->)|[->|(_ & _ & -> & _)]]; [by apply Hk | rewrite P1, P2, P3; by apply Hk | lia].
  - intros c Hc. destruct (seals_cases B ctx s s' c Hs Hc) as [(? & ? & ->)|[->|(_ & _ & -> & _)]]; [by apply A4 | rewrite P1; by apply A4 | unfold maxMessageID; lia].
Qed.

(** A sealed answer leaves ours. *)
Lemma asks_response B s log ctx s' ms : asks s log → ivs B s log → seals B ctx s s' → nextLocalMID (ctxs s' ctx) = nextLocalMID (ctxs s ctx) →
  (∀ m, ms = Some m → msResponse m = true) → asks s' (log ++ option_list ms).
Proof.
  intros [K1 K2 K3] [I1 _ _] Hs Hp Hms. pose proof Hs as [H1 H2 H3 H4 H5 H6].
  assert (∀ x, x ∈ log ++ option_list ms → msResponse x = false → x ∈ log) as Hin.
  { intros x [?|E%in_option_list]%elem_of_app Hr; [done|]. rewrite (Hms x E) in Hr. done. }
  split.
  - intros m m' Hm Hm' Ec Er Er'. apply K1; auto.
  - intros m Hm Hr Ht. specialize (Hin m Hm Hr). specialize (K2 m Hin Hr Ht). destruct (I1 m Hin) as [Hl _].
    destruct (decide (msCtx m = ctx)) as [Ec|Ec]; [rewrite Ec in *; by rewrite Hp | by rewrite H3].
  - intros c Hc. destruct (seals_cases B ctx s s' c Hs Hc) as [(? & ? & ->)|[->|(_ & -> & _)]]; [by apply K3 | rewrite Hp; by apply K3 | unfold maxMessageID; lia].
Qed.

(** The answer to the peer's next request, which is then past, or the last. *)
Lemma answers_response B s log ctx s' ms : answers s log → ivs B s log → seals B ctx s s' → opened s →
  (∀ m, ms = Some m → msCtx m = ctx ∧ msResponse m = true ∧ msID m = nextPeerMID (ctxs s ctx)) →
  nextPeerMID (ctxs s ctx) ≠ maxMessageID →
  (¬ opened s' ∧ peerSide (ctxs s' ctx) = peerSide (ctxs s ctx) ∨
   ∃ m, ms = Some m ∧ peerSide (ctxs s' ctx) = (nextPeerMID (ctxs s ctx) + 1, msID m, msRaw m)) →
  answers s' (log ++ option_list ms).
Proof.
  intros [A1 A2 A3 A4] [I1 _ _] Hs Hop Hms Hmax Hside. pose proof Hs as [H1 H2 H3 H4 H5 H6]. pose proof (A4 ctx H1) as Hr0.
  assert (∀ x, x ∈ log ++ option_list ms → x ∈ log ∨ ms = Some x) as Hin by (intros x [?|?%in_option_list]%elem_of_app; auto).
  assert (∀ m m', m ∈ log → ms = Some m' → msCtx m = msCtx m' → msResponse m = true → msID m ≠ msID m') as Hnew.
  { intros m m' Hm Em Ec Er Ei. destruct (Hms m' Em) as (Ec' & _ & Ei'). specialize (A2 Hop m Hm Er). rewrite Ec, Ec' in A2. lia. }
  split.
  - intros m m' [Hm|Em]%Hin [Hm'|Em']%Hin Ec Er Er' Ei.
    + by apply A1.
    + by destruct (Hnew m m' Hm Em' Ec Er).
    + by destruct (Hnew m' m Hm' Em (eq_sym Ec) Er').
    + congruence.
  - intros Ho m Hm Hr. destruct Hside as [[Hno _]|(m0 & E0 & Hp)]; [by destruct Hno|]. unfold peerSide in Hp. injection Hp as P1 P2 P3.
    apply Hin in Hm as [Hm|Em].
    + specialize (A2 Hop m Hm Hr). destruct (I1 m Hm) as [Hl _]. destruct (decide (msCtx m = ctx)) as [Ec|Ec]; [rewrite Ec in *; lia | by rewrite H3].
    + destruct (Hms m Em) as (-> & _ & ->). lia.
  - intros c Hc.
    assert ((c < nctx s)%nat → 0 < nextPeerMID (ctxs s c) → lastPeerResponseID (ctxs s c) = nextPeerMID (ctxs s c) - 1 →
      ∃ m, m ∈ log ++ option_list ms ∧ msCtx m = c ∧ msResponse m = true ∧ msID m = lastPeerResponseID (ctxs s c) ∧ msRaw m = lastPeerResponse (ctxs s c)) as Hk.
    { intros Hl H0 Hlast. destruct (A3 c Hl H0 Hlast) as (m & Hm & ?). exists m. split; [apply elem_of_app; by left | done]. }
    destruct (seals_cases B ctx s s' c Hs Hc) as [(? & ? & ->)|[->|(_ & _ & -> & _)]]; [by apply Hk | | lia].
    unfold peerSide in Hside. destruct Hside as [[_ [= -> -> ->]]|(m0 & E0 & [= -> -> ->])]; [by apply Hk|]. intros _ _. exists m0.
    destruct (Hms m0 E0) as (? & ? & ?). split_and!; try done. apply elem_of_app. right. by apply in_option_list.
  - intros c Hc. destruct (seals_cases B ctx s s' c Hs Hc) as [(? & ? & ->)|[->|(_ & _ & -> & _)]]; [by apply A4 | | unfold maxMessageID; lia].
    unfold peerSide in Hside. destruct Hside as [[_ [= -> _ _]]|(m0 & _ & [= -> _ _])]; lia.
Qed.

(** A request of ours, which takes its Message ID once the socket took it. *)
Lemma asks_request B s log ctx s' ms : asks s log → ivs B s log → seals B ctx s s' →
  (∀ m, ms = Some m → msCtx m = ctx ∧ msResponse m = false ∧ msID m = nextLocalMID (ctxs s ctx) ∧ msID m ≠ maxMessageID) →
  ((∀ m, ms = Some m → msTook m = false) ∧ nextLocalMID (ctxs s' ctx) = nextLocalMID (ctxs s ctx) ∨
   (∃ m, ms = Some m) ∧ nextLocalMID (ctxs s' ctx) = nextLocalMID (ctxs s ctx) + 1) →
  asks s' (log ++ option_list ms).
Proof.
  intros [K1 K2 K3] [I1 _ _] Hs Hms Hside. pose proof Hs as [H1 H2 H3 H4 H5 H6]. pose proof (K3 ctx H1) as Hr0.
  assert (∀ x, x ∈ log ++ option_list ms → x ∈ log ∨ ms = Some x) as Hin by (intros x [?|?%in_option_list]%elem_of_app; auto).
  assert (∀ m m', m ∈ log → ms = Some m' → msCtx m = msCtx m' → msResponse m = false → msTook m = true → msID m ≠ msID m') as Hnew.
  { intros m m' Hm Em Ec Er Et Ei. destruct (Hms m' Em) as (Ec' & _ & Ei' & _). specialize (K2 m Hm Er Et). rewrite Ec, Ec' in K2. lia. }
  split.
  - intros m m' [Hm|Em]%Hin [Hm'|Em']%Hin Ec Er Er' Et Et' Ei.
    + by apply K1.
    + by destruct (Hnew m m' Hm Em' Ec Er Et).
    + by destruct (Hnew m' m Hm' Em (eq_sym Ec) Er' Et').
    + congruence.
  - intros m [Hm|Em]%Hin Hr Ht.
    + specialize (K2 m Hm Hr Ht). destruct (I1 m Hm) as [Hl _]. destruct (decide (msCtx m = ctx)) as [Ec|Ec]; [|by rewrite H3].
      rewrite Ec in *. destruct Hside as [[_ ->]|[_ ->]]; lia.
    + destruct (Hms m Em) as (-> & _ & -> & _). destruct Hside as [[Hno _]|[_ ->]]; [|lia]. rewrite (Hno m Em) in Ht. done.
  - intros c Hc. destruct (seals_cases B ctx s s' c Hs Hc) as [(? & ? & ->)|[->|(_ & -> & _)]]; [by apply K3 | | unfold maxMessageID; lia].
    destruct Hside as [[_ ->]|[[m Em] ->]]; [lia|]. destruct (Hms m Em) as (_ & _ & Ei & Hne). rewrite Ei in Hne. lia.
Qed.

(** ** Datagrams and requests *)

Lemma stepIV_eq B x : 0 ≤ sendIV x ≤ B → B + 1 < 2 ^ 64 → stepIV x = sendIV x + 1.
Proof. intros Hb HB. unfold stepIV, u64. apply Z.mod_small. lia. Qed.

Lemma still_close s : still s (closeSession s).
Proof.
  split_and!; try done; [intros c ?; cbn in *; lia|]. unfold opened, openWorld, closeSession, onHub, muxOf. cbn [world hub sess set_world].
  by rewrite CloseMux_closed.
Qed.

Lemma still_refl s : still s s.
Proof. split_and!; try done. intros c ?. lia. Qed.

Lemma still_maybe s s' : maybeClosed s s' → still s s'.
Proof. intros [->| ->]; [apply still_refl | apply still_close]. Qed.

Lemma closed_not s : ¬ opened (closeSession s).
Proof. unfold opened, openWorld, closeSession, onHub, muxOf. cbn [world hub sess set_world]. by rewrite CloseMux_closed. Qed.

Lemma handled_seals B now ctx s s1 r s' : ivs B s [] → B + 1 < 2 ^ 64 → (ctx < nctx s)%nat → handled now ctx s s1 r → nctx s' = nctx s1 →
  (∀ c, c ≠ ctx → ctxs s' c = ctxs s1 c) → sendIV (ctxs s' ctx) = sendIV (ctxs s1 ctx) → (opened s' → opened s1) → seals B ctx s s'.
Proof.
  intros [_ _ I3] HB Hlt [[_ Hl] _ H1 H2 H3 _ _] Hn Hx Hiv Ho. pose proof (lt_nctx _ _ Hl) as Hm. split; try done.
  - lia.
  - intros c Hc Hne. rewrite Hx by done. by apply H1.
  - intros c Hc. rewrite Hx by lia. apply H2. lia.
  - intros Hop%Ho. by apply (lt_open _ _ Hl).
  - rewrite Hiv, H3. cbn [set_sendIV sendIV]. by apply (stepIV_eq B); [apply I3|].
Qed.

Lemma ivs_nil B s log : ivs B s log → ivs B s [].
Proof. intros [_ _ I3]. split; [intros m []%not_elem_of_nil | intros m m' []%not_elem_of_nil | done]. Qed.

Lemma pendingLogged_app log ms pending : pendingLogged log pending → pendingLogged (log ++ ms) pending.
Proof. intros Hp p E. apply elem_of_app. left. by apply Hp. Qed.

(** The messages of an outcome. *)
Definition sentBy (o : outcome) : list message := match ocSent o with Some (m, _) => [m] | None => [] end.

Lemma logged_dispatch B now s pending log o : logged B s pending log → session_ok now s → opened s → 0 ≤ B → B + 1 < 2 ^ 64 →
  dispatches now s pending o → logged (B + 1) (ocSession o) (ocPending o) (log ++ sentBy o).
Proof.
  intros Hlog Hok Hop HB HB' Hd. pose proof Hlog as [HI HA HK Hp]. unfold sentBy.
  destruct Hd as [|ctx source took s' Hctx Hpos Hmc Hlast| |ctx source took s1 s' raw Hctx Hmax Hh Hmc|ctx source took s1 r resp Hctx Hmax Hh Hresp
    |p s' result Hpend Hctx Hmc Hs Hin]; cbn [ocSession ocPending ocSent option_map].
  - rewrite app_nil_r. by apply (logged_bound B); [lia|].
  - apply (logged_bound B); [lia|]. apply (logged_still B s); [done | by apply still_maybe|].
    destruct (an_last _ _ HA ctx) as (m0 & Hm0 & E1 & E2 & E3 & E4); [by apply (so_contexts _ _ Hok) | done | done|].
    apply (logged_again B s pending log _ m0); cbn [msCtx msRaw msResponse msID]; try done; congruence.
  - rewrite app_nil_r. apply (logged_bound B); [lia|]. apply (logged_still B s); [done | apply still_close | done].
  - pose proof (co_held _ (so_contexts _ _ Hok) _ Hctx) as Hlt. set (m := mkSent ctx true _ raw took).
    set (s2 := answeredAs s1 ctx (nextPeerMID (ctxs s ctx)) raw) in *.
    assert (ctxs s2 ctx = set_answered (ctxs s1 ctx) (u32 (nextPeerMID (ctxs s1 ctx) + 1)) (nextPeerMID (ctxs s ctx)) raw) as Hx2
      by (unfold s2, answeredAs, onContext, set_ctxs; cbn [ctxs]; by rewrite fn_lookup_insert).
    rewrite (hd_ctx _ _ _ _ _ Hh) in Hx2. cbn [set_sendIV nextPeerMID] in Hx2. pose proof (an_range _ _ HA ctx Hlt) as Hr.
    assert (u32 (nextPeerMID (ctxs s ctx) + 1) = nextPeerMID (ctxs s ctx) + 1) as Eu by (apply Z.mod_small; unfold maxMessageID in *; lia).
    rewrite Eu in Hx2.
    assert (seals B ctx s s2) as Hs.
    { apply (handled_seals B now ctx s s1 _ s2 (ivs_nil _ _ _ HI) HB' Hlt Hh); [done | | |done].
      - intros c Hne. unfold s2, answeredAs, onContext, set_ctxs. cbn [ctxs]. by rewrite fn_lookup_insert_ne.
      - rewrite Hx2, (hd_ctx _ _ _ _ _ Hh). done. }
    destruct (hd_raw _ _ _ _ _ Hh raw None eq_refl) as (_ & Hiv & _). rewrite (stepIV_eq B) in Hiv; [|by apply (iv_bound _ _ _ HI) | done].
    apply (logged_still (B + 1) s2); [lia | by apply still_maybe|]. change [m] with (option_list (Some m)). split.
    + apply (ivs_seals B s log ctx); try done. by intros ? [= <-].
    + apply (answers_response B s log ctx); try done; [by intros ? [= <-]|]. right. exists m. split; [done|]. by rewrite Hx2.
    + apply (asks_response B s log ctx); try done; [by rewrite Hx2 | by intros ? [= <-]].
    + by apply pendingLogged_app.
  - pose proof (co_held _ (so_contexts _ _ Hok) _ Hctx) as Hlt. set (ms := (λ raw, mkSent ctx true (nextPeerMID (ctxs s ctx)) raw took) <$> resp).
    replace (match option_map _ resp with Some (m, _) => [m] | None => [] end) with (option_list ms) by (by destruct resp).
    assert (seals B ctx s (closeSession s1)) as Hs.
    { apply (handled_seals B now ctx s s1 _ _ (ivs_nil _ _ _ HI) HB' Hlt Hh); try done. by intros ?%closed_not. }
    assert (∀ m, ms = Some m → msCtx m = ctx ∧ msResponse m = true ∧ msID m = nextPeerMID (ctxs s ctx) ∧ ivOf (msRaw m) = be_to 8 (sendIV (ctxs s ctx) + 1)) as Hms.
    { intros m Em. destruct resp as [raw|]; [|done]. injection Em as <-. destruct (Hresp raw eq_refl) as [e Er].
      destruct (hd_raw _ _ _ _ _ Hh raw e Er) as (_ & Hiv & _). rewrite (stepIV_eq B) in Hiv; [done | by apply (iv_bound _ _ _ HI) | done]. }
    assert (ctxs (closeSession s1) ctx = set_sendIV (ctxs s ctx) (stepIV (ctxs s ctx))) as Hx by apply (hd_ctx _ _ _ _ _ Hh).
    split.
    + apply (ivs_seals B s log ctx); try done. intros m (? & ? & ? & ?)%Hms. done.
    + apply (answers_response B s log ctx); try done; [intros m (? & ? & ? & ?)%Hms; done|]. left. split; [apply closed_not|]. by rewrite Hx.
    + apply (asks_response B s log ctx); try done; [by rewrite Hx | intros m (? & ? & ? & ?)%Hms; done].
    + by apply pendingLogged_app.
  - rewrite app_nil_r. apply (logged_bound B); [lia|]. apply (logged_still B s); [done | by apply still_maybe|].
    apply (logged_pending B s pending); [|done]. by intros q [=].
Qed.

Lemma logged_start B s pending log s' ctx took ms r : logged B s pending log → 0 ≤ B → B + 1 < 2 ^ 64 → (ctx < nctx s)%nat → later s s' →
  starting s s' ctx took ms r → logged (B + 1) s' (match r with Ok p => Some p | _ => pending end) (log ++ option_list ms).
Proof.
  intros Hlog HB HB' Hlt Hl [G1 G2 G3 G4 G5]. pose proof Hlog as [HI HA HK Hp].
  pose proof (stepIV_eq B (ctxs s ctx) (iv_bound _ _ _ HI ctx Hlt) HB') as Ei.
  pose proof (as_range _ _ HK ctx Hlt) as Hr.
  assert (pendingLogged (log ++ option_list ms) (match r with Ok p => Some p | _ => pending end)) as Hp'.
  { destruct r as [p|e|]; [|by apply pendingLogged_app|by apply pendingLogged_app]. intros q [= <-]. destruct (G3 p eq_refl) as (_ & <- & _ & -> & _).
    apply elem_of_app. right. by left. }
  assert (ctxs s' ctx = ctxs s ctx → ms = None → logged (B + 1) s' (match r with Ok p => Some p | _ => pending end) (log ++ option_list ms)) as Hsame.
  { intros E ->. cbn [option_list option_rect]. change (option_list None) with (@nil message) in *. rewrite app_nil_r in *. apply (logged_pending _ _ pending); [done|]. apply (logged_bound B); [lia|].
    apply (logged_still B s); [done | | done]. split_and!; [lia | | |by apply Hl].
    - intros c _. destruct (decide (c = ctx)) as [->|]; [done | by apply G1].
    - intros c Hc. lia. }
  assert (sendIV (ctxs s' ctx) = sendIV (ctxs s ctx) + 1 → seals B ctx s s') as Hseal.
  { intros E. split; try done; [lia | | |by apply Hl].
    - intros c _. apply G1.
    - intros c Hc. lia. }
  assert (∀ m, ms = Some m → msCtx m = ctx ∧ ivOf (msRaw m) = be_to 8 (sendIV (ctxs s ctx) + 1)) as Hms.
  { intros m Em. destruct (G5 m Em) as (? & _ & _ & _ & _ & _ & Hiv & _). by rewrite Ei in Hiv. }
  assert ((∃ p, r = Ok p) ∨ ∀ p, r ≠ Ok p) as [[p Ep]|Hno] by (destruct r; naive_solver).
  - destruct (G3 p Ep) as (Et & Ec & Eid & Em & Ex).
    assert (msID (mkSent ctx false (pnMsgID p) (pnRaw p) true) ≠ maxMessageID) as Hne by (by destruct (G5 _ Em) as (_ & _ & _ & ? & _)).
    cbn [msID] in Hne. rewrite Eid in Hne.
    assert (u32 (nextLocalMID (ctxs s ctx) + 1) = nextLocalMID (ctxs s ctx) + 1) as Eu by (apply Z.mod_small; unfold maxMessageID in *; lia).
    assert (seals B ctx s s') as Hs by (apply Hseal; rewrite Ex; cbn; done).
    split; [| | |done].
    + by apply (ivs_seals B s log ctx).
    + apply (answers_request B s log ctx); try done; [by rewrite Ex|]. intros m E. by destruct (G5 m E) as (_ & ? & _).
    + apply (asks_request B s log ctx); try done.
      * intros m E. by destruct (G5 m E) as (? & ? & ? & ? & _).
      * right. split; [by eexists|]. rewrite Ex. cbn. done.
  - destruct (G4 Hno) as [Ex|Ex].
    + destruct ms as [m|] eqn:Em; [|by apply Hsame]. exfalso. destruct (G5 m eq_refl) as (_ & _ & _ & _ & E & _). rewrite Ex in E. lia.
    + assert (seals B ctx s s') as Hs by (apply Hseal; rewrite Ex; cbn; done).
      split; [| | |done].
      * by apply (ivs_seals B s log ctx).
      * apply (answers_request B s log ctx); try done; [by rewrite Ex|]. intros m E. by destruct (G5 m E) as (_ & ? & _).
      * apply (asks_request B s log ctx); try done.
        -- intros m E. by destruct (G5 m E) as (? & ? & ? & ? & _).
        -- left. split; [|by rewrite Ex]. intros m E. destruct (msTook m) eqn:Et; [|done]. destruct (G5 m E) as (_ & _ & _ & _ & _ & _ & _ & Ht).
           destruct (Ht Et) as [p Ep]. by destruct (Hno p).
Qed.

(** * A pass of the loop keeps the invariant

    [run_ok] joins the invariant of the session with the call and the request that
    wait; [turn_spec] is a whole pass, whatever ends its wait. *)

(** A call that waits goes on from wherever the session is when it takes up its
    answer. *)
Definition waiting (clk : Z) (s : ikeSession) (ctx : nat) (inner : list RawPayload) (k : ikeSession → Z → res (list RawPayload) → proc) : Prop :=
  ∀ s' now r, meanwhile clk s ctx inner s' now r → goes now s' (k s' now r).

Definition probes (pending : option pendingRequest) : Prop := ∀ p, pending = Some p → rqDpd (pnRequest p) = true.

(** An answer is no panic, and its payloads are parts of a datagram. *)
Definition answer_ok (r : res (list RawPayload)) : Prop := safe r ∧ ∀ ps, r = Ok ps → inner_ok ps.

(** The call and the request that waits belong together: the request is in the
    channel, or pending, or answered. *)
Definition linked (st : runState) : Prop :=
  match rnCall st, rnAnswer st with
  | Some (Ask _ ctx _ _ _), None =>
      if rnQueued st then probes (rnPending st)
      else ∃ p, rnPending st = Some p ∧ rqDpd (pnRequest p) = false ∧ pnContext p = ctx
  | Some (Ask _ ctx _ _ _), Some r => rnQueued st = false ∧ probes (rnPending st) ∧ answer_ok r
  | _, r => probes (rnPending st) ∧ r = None
  end.

Record run_ok (clk : Z) (st : runState) : Prop := mkRunOk {
  ro_session : session_ok clk (rnSession st);
  ro_call : match rnCall st with
            | Some (Ask _ ctx _ inner k) => waiting clk (rnSession st) ctx inner k ∧ (ctx < nctx (rnSession st))%nat ∧ small inner
            | Some (Done _ _) => False
            | None => True
            end;
  ro_linked : linked st;
  ro_result : ∀ r, rnResult st = Some r → safe r;
  ro_running : ∀ i, rnRunning st = Some i → (i < length (rnSchedules st))%nat }.

Lemma waiting_later clk now s s' ctx inner k : session_ok clk s → clk ≤ now → later s s' → waiting clk s ctx inner k → waiting now s' ctx inner k.
Proof.
  intros Hok Hn Hl Hw s2 now2 r [T1 T2 T3 T4 T5]. apply Hw. split; try done; [lia|]. eapply later_trans; [apply Hok | exact Hl | done].
Qed.

Lemma fine_waiting clk s ctx exchange inner k : fine clk (Ask s ctx exchange inner k) → session_ok clk s ∧ waiting clk s ctx inner k ∧ (ctx < nctx s)%nat ∧ small inner.
Proof. inversion 1; subst. split_and!; try done. intros s' now r Hm. split; auto. Qed.

(** A step of the loop that leaves the call alone. *)
Lemma run_session clk now st s' : run_ok clk st → clk ≤ now → keeps now (rnSession st) s' → run_ok now (set_session st s').
Proof.
  intros [H1 H2 H3 H4 H5] Hn [K1 K2]. split; try done. cbn [rnCall rnSession set_session].
  destruct (rnCall st) as [[|s0 ctx ex inner k]|]; [done| |done]. destruct H2 as (W1 & W2 & W3). split_and!; [|pose proof (lt_nctx _ _ K2); lia|done].
  by apply (waiting_later clk now (rnSession st)).
Qed.

Lemma run_later clk now st : clk ≤ now → run_ok clk st → run_ok now st.
Proof.
  intros Hn Hok. replace st with (set_session st (rnSession st)) by (by destruct st). apply (run_session clk); [done | done|].
  apply keeps_refl, (session_later clk); [done | by apply Hok].
Qed.

(** A call that goes on, or begins. *)
Lemma run_proceed now st p : (∀ r, rnResult st = Some r → safe r) → (∀ i, rnRunning st = Some i → (i < length (rnSchedules st))%nat) → probes (rnPending st) →
  fine now p → run_ok now (proceed st p).
Proof.
  intros Hr Hi Hp Hf. destruct p as [s r|s ctx ex inner k]; cbn [proceed].
  - inversion Hf; subst. split; try done. cbn [rnResult]. destruct (rnScheduled st); [by intros ? [= <-] | done].
  - apply fine_waiting in Hf as (H1 & H2 & H3 & H4). by split.
Qed.

(** The peer's answer to a rekeying of the IKE SA waits to be taken up, and the SA
    it came on is gone. *)
Definition overtaken (st : runState) : bool :=
  match rnAnswer st, rnCall st with
  | Some (Ok _), Some (Ask _ ctx _ inner _) => rekeysIKE inner && contextRetired (rnSession st) ctx
  | _, _ => false
  end.

Lemma retired_held s ctx : contextRetired s ctx = false ↔ ctx ∈ held s.
Proof.
  unfold contextRetired. rewrite held_parts, !andb_false_iff, !negb_false_iff, Nat.eqb_eq, !bool_decide_eq_true. tauto.
Qed.

(** The call takes up its answer, not overtaken where that matters. *)
Lemma run_resume clk now st : run_ok clk st → clk ≤ now → (tidy → overtaken st = false) →
  let st' := resume st now in run_ok now st' ∧ extends (rnSession st) (rnSession st') ∧ rnPending st' = rnPending st.
Proof.
  intros Hok Hn Hh. apply (run_later clk now) in Hok; [|done]. pose proof Hok as [H1 H2 H3 H4 H5]. unfold resume, overtaken, linked in *.
  destruct (rnAnswer st) as [r|]; [|by split; [|split; [apply extends_refl|]]].
  destruct (rnCall st) as [[s0 r0|s0 ctx ex inner k]|]; [done| |by split; [|split; [apply extends_refl|]]].
  destruct H3 as (_ & Hp & Hs & Hin). destruct (proj1 H2 (rnSession st) now r) as [Hf He].
  { split; try done; [apply later_refl|]. intros ps ->. split; [by apply Hin|]. intros Ht Hr. specialize (Hh Ht). rewrite Hr in Hh. by apply retired_held. }
  split; [by apply run_proceed|]. by destruct (k (rnSession st) now r).
Qed.

(** The request that waits gets its answer. *)
Lemma run_deliver now st p r : run_ok now st → rnPending st = Some p → answer_ok r →
  let st' := deliver (set_rnPending st None) (rqDpd (pnRequest p)) (Some r) in
  run_ok now st' ∧ rnSession st' = rnSession st ∧ rnPending st' = None.
Proof.
  intros [H1 H2 H3 H4 H5] Hp Ha. unfold deliver. cbn [rnCall set_rnPending]. unfold linked in H3. rewrite Hp in H3.
  destruct (rqDpd (pnRequest p)) eqn:Ed.
  - assert (run_ok now (set_rnPending st None)) as Hok.
    { split; try done. unfold linked. cbn [rnCall rnQueued rnAnswer rnPending set_rnPending].
      destruct (rnCall st) as [[|s0 ctx ex inner k]|]; [done| |by destruct H3]. destruct (rnAnswer st); [by destruct H3 as (? & _ & ?)|].
      destruct (rnQueued st); [done|]. destruct H3 as (q & [= <-] & Hd & _). congruence. }
    by destruct (rnCall st) as [[]|].
  - assert (∀ q, probes (Some p) → q) as Hno by (intros q Hq; specialize (Hq p eq_refl); congruence).
    destruct (rnCall st) as [[s0 r0|s0 ctx ex inner k]|] eqn:Ec; [done| |by destruct H3 as [Hq _]; apply (Hno _ Hq)].
    destruct (rnAnswer st) eqn:Er; [by destruct H3 as (_ & Hq & _); apply (Hno _ Hq)|]. destruct (rnQueued st) eqn:Eq; [by apply (Hno _ H3)|].
    split; [|done]. split; cbn [rnSession rnCall rnResult rnRunning rnSchedules set_answer set_rnPending]; try done; [by rewrite Ec|].
    unfold linked. cbn [rnCall rnAnswer rnQueued rnPending set_answer set_rnPending]. rewrite Ec. done.
Qed.

Section run.
Context {C : Crypto} {CL : CryptoLaws C} {H : Hmac} {HL : HmacLaws H} {E : ECDH} {EL : ECDHLaws E} (cfg : runConfig).

(** What a part of a pass leaves: the loop goes on, or returns. *)
Definition leaves (B now : Z) (log : list message) (st : runState) (v : verdictRun) : Prop :=
  (match v with Continue => run_ok now st | Return _ => session_ok now (rnSession st) end) ∧ logged B (rnSession st) (rnPending st) log.

Definition verdictOf (e : option string) : verdictRun := match e with Some e => Return e | None => Continue end.

Lemma pickRequest_spec B clk now st took log : run_ok clk st → clk ≤ now → logged B (rnSession st) (rnPending st) log → 0 ≤ B → B + 1 < 2 ^ 64 →
  ∃ st' out e, pickRequest st took now = Ok (st', out, e) ∧ leaves (B + 1) now (log ++ out) st' (verdictOf e) ∧ (e = None → opened (rnSession st) → opened (rnSession st')).
Proof.
  intros Hok Hn Hlog HB HB'. apply (run_later clk now) in Hok; [|done]. clear clk Hn. unfold pickRequest.
  assert (∃ st' out e, Ok (st, [], None) = Ok (st', out, e) ∧ leaves (B + 1) now (log ++ out) st' (verdictOf e) ∧ (e = None → opened (rnSession st) → opened (rnSession st'))) as Hstay.
  { exists st, [], None. split; [done|]. split; [|done]. rewrite app_nil_r. split; [done|]. by apply (logged_bound B); [lia|]. }
  destruct (rnPending st) as [p|] eqn:Ep; [by rewrite <- Ep in *|].
  destruct (rnCall st) as [[s0 r0|s0 ctx ex inner k]|] eqn:Ec; [done| |done]. destruct (rnQueued st) eqn:Eq; cbn [negb]; [|done]. clear Hstay.
  pose proof Hok as [H1 H2 H3 H4 H5]. rewrite Ec in H2. destruct H2 as (Hw & Hlt & Hsm).
  assert (rnAnswer st = None) as Ea.
  { unfold linked in H3. rewrite Ec, Eq in H3. by destruct (rnAnswer st); [destruct H3|]. }
  pose proof (startRequest_spec now (rnSession st) (mkRequest ex inner (Some ctx) false) took now H1 (Z.le_refl _) Hsm) as Hs. cbn [rqContext rqInner default] in Hs.
  specialize (Hs ltac:(by intros c [= <-])). cbn [rnSession]. destruct (startRequest (rnSession st) _ took now) as [[s' m] r].
  destruct Hs as (Hk & Hsr & Hst & Hpn & _ & _ & Hwd). pose proof (logged_start B _ _ _ _ _ _ _ _ Hlog HB HB' Hlt (proj2 Hk) Hst) as Hlog'.
  assert (opened (rnSession st) ↔ opened s') as Hopen by (unfold opened; by rewrite Hwd). destruct r as [p|e|]; [| |done].
  - eexists _, _, None. split; [done|]. split; [|intros _; apply Hopen]. split; [|done]. split; cbn [rnSession rnCall set_session set_rnPending rnQueued rnPending rnResult rnRunning rnSchedules]; try done.
    + apply Hk.
    + split_and!; [|pose proof (lt_nctx _ _ (proj2 Hk)); lia|done]. apply (waiting_later now now (rnSession st)); [done | lia | apply Hk | done].
    + unfold linked. cbn [rnCall set_session set_rnPending rnQueued rnAnswer rnPending]. rewrite Ea. exists p. destruct (Hpn p eq_refl) as (-> & _). destruct (sg_pending _ _ _ _ _ _ Hst p eq_refl) as (_ & -> & _). done.
  - destruct (e =? errMessageIDExhausted)%string.
    + eexists _, _, (Some e). split; [done|]. cbn [rnSession set_session]. split; [|done]. split; cbn [verdictOf rnSession set_session rnPending].
      * apply (keeps_close now s'), Hk.
      * apply (logged_still _ s'); [lia | apply still_close | done].
    + unfold deliver. cbn [rnCall set_session]. eexists _, _, None. split; [done|]. cbn [rnSession set_session set_answer]. split; [|intros _; apply Hopen].
      split; [|done]. split; cbn [rnSession rnCall rnResult rnRunning rnSchedules set_session set_answer]; try done.
      * apply Hk.
      * split_and!; [|pose proof (lt_nctx _ _ (proj2 Hk)); lia|done]. apply (waiting_later now now (rnSession st)); [done | lia | apply Hk | done].
Qed.

Lemma run_last now st t : run_ok now st → run_ok now (set_last st t).
Proof. by intros [H1 H2 H3 H4 H5]. Qed.

Lemma set_same_pending st s : set_rnPending (set_session st s) (rnPending st) = set_session st s.
Proof. by destruct st. Qed.

Lemma datagram_spec B clk now st raw source took ent log : run_ok clk st → clk ≤ now → logged B (rnSession st) (rnPending st) log → 0 ≤ B → B + 1 < 2 ^ 64 →
  opened (rnSession st) → datagram_ok raw → entropy_ok ent →
  ∃ st' out v, onDatagram st raw source took ent now = Ok (st', out, v) ∧ leaves (B + 1) now (log ++ out) st' v.
Proof.
  intros Hok Hn Hlog HB HB' Hop Hd Hent. apply (run_later clk now) in Hok; [|done]. clear clk Hn. unfold onDatagram.
  destruct (dispatch_spec now now (rnSession st) raw source (rnPending st) took ent (ro_session _ _ Hok) (Z.le_refl _) Hd Hent) as (o & -> & Ho). rbind.
  pose proof (logged_dispatch B now _ _ _ _ Hlog (ro_session _ _ Hok) Hop HB HB' Ho) as Hlog'.
  pose proof (dispatches_keeps _ _ _ _ (ro_session _ _ Hok) Ho) as Hk. fold (sentBy o).
  pose proof (run_session now now st (ocSession o) Hok (Z.le_refl _) Hk) as Hok1.
  set (dpd := match rnPending st with Some p => _ | None => _ end). set (st1 := set_rnPending _ _).
  assert (let st' := deliver st1 dpd (ocResult o) in run_ok now st' ∧ rnSession st' = ocSession o ∧ rnPending st' = ocPending o) as (D1 & D2 & D3).
  { destruct Ho as [| | | | |p s' result Hp Hctx Hmc Hs Hin]; cbn [ocResult ocSession ocPending] in *.
    1-5: unfold deliver, st1; cbn [ocPending]; rewrite set_same_pending; done.
    assert (dpd = rqDpd (pnRequest p)) as -> by (unfold dpd; by rewrite Hp).
    unfold st1. by destruct (run_deliver now (set_session st s') p result Hok1) as (R1 & R2 & R3). }
  eexists _, _, Continue. split; [done|]. split.
  - destruct (ocAuthentic o); [by apply run_last | done].
  - rewrite <- D2, <- D3 in Hlog'. by destruct (ocAuthentic o).
Qed.

Lemma probe_spec B now st took log : run_ok now st → rnPending st = None → logged B (rnSession st) (rnPending st) log → 0 ≤ B → B + 1 < 2 ^ 64 →
  ∃ st' out v, probe cfg st took now = Ok (st', out, v) ∧ leaves (B + 1) now (log ++ out) st' v.
Proof.
  intros Hok Ep Hlog HB HB'. unfold probe. pose proof (ro_session _ _ Hok) as Hs0.
  pose proof (startRequest_spec now (rnSession st) (mkRequest INFORMATIONAL [] None true) took now Hs0 (Z.le_refl _)) as Hs. cbn [rqContext rqInner default] in Hs.
  specialize (Hs ltac:(by unfold small; cbn) ltac:(done)). destruct (startRequest (rnSession st) _ took now) as [[s' m] r].
  destruct Hs as (Hk & Hsr & Hst & Hpn & _). pose proof (co_held _ (so_contexts _ _ Hs0) _ (current_held _)) as Hlt.
  pose proof (logged_start B _ _ _ _ _ _ _ _ Hlog HB HB' Hlt (proj2 Hk) Hst) as Hlog'.
  pose proof (run_session now now st s' Hok (Z.le_refl _) Hk) as Hok1. pose proof Hok1 as [H1 H2 H3 H4 H5].
  assert (∀ t p, probes p → run_ok now (set_rnPending (set_last (set_session st s') t) p) ∧ run_ok now (set_rnPending (set_session st s') p)) as Hset.
  { intros t p Hp. assert (linked (set_rnPending (set_session st s') p)) as Hl.
    { unfold linked in *. cbn [rnCall rnQueued rnAnswer rnPending set_rnPending set_session] in *. rewrite Ep in H3. destruct (rnCall st) as [[|s0 ctx ex inner k]|]; [done| |by destruct H3].
      destruct (rnAnswer st); [by destruct H3 as (? & _ & ?)|]. destruct (rnQueued st); [done|]. destruct H3 as (q & Hq & _). done. }
    by split; split. }
  destruct r as [p|e|]; [| |done]; eexists _, _, Continue; (split; [done|]); split; cbn [rnSession rnPending set_rnPending set_session set_last].
  - apply (Hset 0). intros q [= <-]. by destruct (Hpn p eq_refl) as (-> & _).
  - done.
  - by apply Hset.
  - by rewrite Ep in Hlog'.
Qed.

Lemma timer_spec B clk now st traffic took log : run_ok clk st → clk ≤ now → logged B (rnSession st) (rnPending st) log → 0 ≤ B → B + 1 < 2 ^ 64 →
  ∃ st' out v, onTimer cfg st traffic took now = Ok (st', out, v) ∧ leaves (B + 1) now (log ++ out) st' v.
Proof.
  intros Hok Hn Hlog HB HB'. apply (run_later clk now) in Hok; [|done]. clear clk Hn. unfold onTimer.
  assert (logged (B + 1) (rnSession st) (rnPending st) log) as Hlog1 by (apply (logged_bound B); [lia | done]).
  assert (∀ b : bool, let st1 := if b then set_last st now else st in run_ok now st1 ∧ rnSession st1 = rnSession st ∧ rnPending st1 = rnPending st) as Hb.
  { intros []; [|done]. split; [by apply run_last | done]. }
  destruct (Hb traffic) as (T1 & T2 & T3). set (st1 := if traffic then _ else _) in *. destruct (rnPending st) as [p|] eqn:Ep.
  - destruct (contextRetired _ _) eqn:Er; [|destruct (negb _)].
    + destruct (run_deliver now st p (Err "ike: the IKE SA carrying this exchange was replaced") Hok Ep) as (D1 & D2 & D3); [by split; [|intros ps [=]]|].
      eexists _, _, Continue. split; [done|]. rewrite app_nil_r. split; [done|]. rewrite D2, D3. apply (logged_pending _ _ (Some p)); [by intros q [=] | done].
    + unfold retransmit. assert (mkSent (pnContext p) false (pnMsgID p) (pnRaw p) true ∈ log) as Hin by (by apply (lg_pending _ _ _ _ Hlog)).
      destruct (pendingRetransmitsExhausted _ _).
      * eexists _, _, (Return _). split; [done|]. rewrite app_nil_r. split; cbn [rnSession set_session rnPending].
        -- apply (keeps_close now (rnSession st)), Hok.
        -- rewrite Ep. apply (logged_still _ (rnSession st)); [lia | apply still_close | done].
      * eexists _, _, Continue. split; [done|]. split.
        -- pose proof Hok as [H1 H2 H3 H4 H5]. assert (probes (Some p) → probes (Some (sendPending p now))) as Hq by (intros Hq q [= <-]; by apply (Hq p)).
           split; try done. unfold linked in *. cbn [rnCall rnQueued rnAnswer rnPending set_rnPending] in *. rewrite Ep in H3.
           destruct (rnCall st) as [[|s0 ctx ex inner k]|]; [done| |by destruct H3; split; [apply Hq|]].
           destruct (rnAnswer st); [by destruct H3 as (? & ? & ?); split_and!; [|apply Hq|]|]. destruct (rnQueued st); [by apply Hq|].
           destruct H3 as (q & [= <-] & ? & ?). by exists (sendPending p now).
        -- cbn [rnSession rnPending set_rnPending]. apply (logged_pending _ _ (Some p)).
           ++ intros q [= <-]. apply elem_of_app. by left.
           ++ by apply (logged_again _ _ _ _ _ (mkSent (pnContext p) false (pnMsgID p) (pnRaw p) true)).
    + eexists _, _, Continue. split; [done|]. rewrite app_nil_r. split; [done|]. by rewrite T2, T3.
  - destruct (negb _).
    + rewrite <- T2 in *. apply probe_spec; try done. by rewrite T3.
    + eexists _, _, Continue. split; [done|]. rewrite app_nil_r. split; [done|]. by rewrite T2, T3.
Qed.


(** ** Schedules *)

Lemma run_schedules now st l running result : run_ok now st → (∀ r, result = Some r → safe r) → (∀ i, running = Some i → (i < length l)%nat) →
  run_ok now (set_schedules st l running result).
Proof. by intros [H1 H2 H3 H4 H5] Hr Hi. Qed.

Lemma firstDue_length l : ∀ i l', firstDue l = Some (i, l') → length l' = length l ∧ (i < length l)%nat.
Proof.
  induction l as [|r l IH]; intros i l'; cbn [firstDue]; [done|]. destruct (rsDue r).
  - intros [= <- <-]. cbn [length]. lia.
  - intros ([j l0] & Hj & [= <- <-])%bind_Some. destruct (IH _ _ Hj). cbn [length]. lia.
Qed.

Lemma startDue_spec now st : run_ok now st →
  run_ok now (startDueRekey st) ∧ rnSession (startDueRekey st) = rnSession st ∧ rnPending (startDueRekey st) = rnPending st.
Proof.
  intros Hok. unfold startDueRekey. destruct (nextDueRekey _ _) as [[i l]|] eqn:En; [|done]. split; [|done]. apply run_schedules; [done | apply Hok|].
  unfold nextDueRekey in En. destruct (rnRunning st); [done|]. apply firstDue_length in En as [Hl Hi]. intros j [= <-]. lia.
Qed.

Definition jitter_ok (source : Z → res Z) : Prop := ∀ x, safe (source x).

Lemma takeResult_spec now st source : run_ok now st → jitter_ok source →
  match takeResult cfg st source now with
  | Ok (st', _) => run_ok now st' ∧ rnSession st' = rnSession st ∧ rnPending st' = rnPending st
  | Err _ => True
  | Panic => False
  end.
Proof.
  intros Hok Hj. unfold takeResult. destruct (rnResult st) as [r|] eqn:Er; [|done]. destruct (rnRunning st) as [i|] eqn:Ei; [|done].
  destruct (lookup_lt_is_Some_2 _ _ (ro_running _ _ Hok i Ei)) as [sc ->]. pose proof (ro_result _ _ Hok r Er) as Hs.
  assert (∀ l, length l = length (rnSchedules st) → let st' := startDueRekey (set_schedules st l None None) in
    run_ok now st' ∧ rnSession st' = rnSession st ∧ rnPending st' = rnPending st) as Hd by (intros l _; by apply (startDue_spec now (set_schedules st l None None)), run_schedules).
  destruct r as [u|e|]; [| |done].
  - unfold rekeyDelay. specialize (Hj (rekeyJitter cfg)). destruct (source (rekeyJitter cfg)) as [j| |]; [|done|done].
    destruct (_ || _); [done|]. destruct (_ <=? _); [done|]. rbind. apply Hd, length_insert.
  - unfold rekeyRetryDelay. set (d := backoff _ _ _). specialize (Hj (d ÷ 2)). destruct (source (d ÷ 2)) as [j|e'|]; [| |done]; rbind; apply Hd, length_insert.
Qed.

(** ** A pass *)

Record turn_ok (clk : Z) (i : turnInput) : Prop := mkTurnOk {
  to_now : clk ≤ inNow i;
  to_at : inNow i ≤ inAt i;
  to_jitter : jitter_ok (inJitter i);
  to_wake : match inWake i with WDatagram raw _ _ ent => datagram_ok raw ∧ entropy_ok ent | _ => True end }.

Lemma leaves_later B now now' log st v : now ≤ now' → leaves B now log st v → leaves B now' log st v.
Proof. intros Hn [Hs Hl]. split; [|done]. destruct v; [by apply (run_later now) | by apply (session_later now)]. Qed.

Lemma await_spec B clk st i log : run_ok clk st → clk ≤ inAt i → turn_ok clk i → logged B (rnSession st) (rnPending st) log → 0 ≤ B → B + 1 < 2 ^ 64 →
  opened (rnSession st) → ∃ st' out v, await cfg st i = Ok (st', out, v) ∧ leaves (B + 1) (inAt i) (log ++ out) st' v.
Proof.
  intros Hok Hn [_ _ _ Hw] Hlog HB HB' Hop. unfold await. destruct (inWake i) as [raw source took ent| | |traffic took].
  - destruct Hw. by apply (datagram_spec B clk).
  - eexists _, _, (Return _). split; [done|]. rewrite app_nil_r. split; [apply (session_later clk); [done | apply Hok]|]. by apply (logged_bound B); [lia|].
  - eexists _, _, Continue. split; [done|]. rewrite app_nil_r. split; [by apply (run_later clk)|]. by apply (logged_bound B); [lia|].
  - by apply (timer_spec B clk).
Qed.

Lemma turn_spec B clk st i log : run_ok clk st → turn_ok clk i → logged B (rnSession st) (rnPending st) log → 0 ≤ B → B + 2 < 2 ^ 64 → opened (rnSession st) →
  ∃ st' out v, turn cfg st i = Ok (st', out, v) ∧ leaves (B + 2) (inAt i) (log ++ out) st' v.
Proof.
  intros Hok Hi Hlog HB HB' Hop. pose proof Hi as [Hn Ha Hj _]. unfold turn.
  destruct (fits_expire clk (inNow i) (world (rnSession st)) Hn (so_world _ _ (ro_session _ _ Hok))) as (Hf & Hr & Hasi).
  destruct (expireRetiredChildren _ _ _) as [w r]. cbn [fst snd] in Hf, Hr, Hasi. subst r.
  pose proof (keeps_world clk (inNow i) (rnSession st) w (ro_session _ _ Hok) Hn Hf Hasi) as Hk1. set (s1 := set_world (rnSession st) w) in *.
  destruct (keeps_expire (inNow i) s1 (inNow i) (proj1 Hk1)) as (Hk2 & Hx2 & Hn2 & Ho2). set (s2 := expireRetainedContexts s1 (inNow i)) in *.
  assert (opened s2 ↔ opened (rnSession st)) as Hop2 by (rewrite Ho2; apply (aside_open _ _ Hasi)).
  assert (still (rnSession st) s2) as Hst.
  { apply extends_still, extends_same; [done | done | | done]. rewrite (lt_mux _ _ (proj2 Hk2)). apply (lt_mux _ _ (proj2 Hk1)). }
  assert (run_ok (inNow i) (set_session st s2)) as Hok2.
  { apply (run_session clk); [done | done|]. by eapply keeps_trans; [apply Hok | exact Hk1 |]. }
  assert (logged B s2 (rnPending st) log) as Hlog2 by (by apply (logged_still B (rnSession st))).
  pose proof (takeResult_spec (inNow i) (set_session st s2) (inJitter i) Hok2 Hj) as Ht.
  destruct (takeResult cfg _ _ _) as [[st3 again]|e|]; [|clear Ht|done].
  2: { eexists _, _, (Return e). split; [done|]. rewrite app_nil_r. split; cbn [rnSession set_session rnPending].
       - apply (session_later (inNow i)); [done|]. apply (keeps_close (inNow i) s2), Hk2.
       - apply (logged_bound B); [lia|]. apply (logged_still B s2); [done | apply still_close | done]. }
  destruct Ht as (Hok3 & Hs3 & Hp3). cbn [rnSession rnPending set_session] in Hs3, Hp3. destruct again.
  { eexists _, _, Continue. split; [done|]. rewrite app_nil_r. split; [by apply (run_later (inNow i))|]. apply (logged_bound B); [lia|]. by rewrite Hs3, Hp3. }
  set (st4 := set_schedules st3 _ _ _).
  assert (run_ok (inNow i) st4) as Hok4 by (apply run_schedules; [done | apply Hok3 | rewrite length_map; apply Hok3]).
  destruct (startDue_spec (inNow i) st4 Hok4) as (Hok5 & Hs5 & Hp5). set (st5 := if inTraffic i then _ else _).
  assert (run_ok (inNow i) st5 ∧ rnSession st5 = s2 ∧ rnPending st5 = rnPending st) as (Hok6 & Hs6 & Hp6).
  { unfold st5. destruct (inTraffic i); cbn [set_last rnSession rnPending]; rewrite Hs5, Hp5; (split; [by try apply run_last | by split]). }
  destruct (pickRequest_spec B (inNow i) (inNow i) st5 (inTook i) log Hok6) as (st7 & out & e & -> & [Hv Hlog7] & Ho7); [lia | by rewrite Hs6, Hp6 | done | lia|]. rbind.
  destruct e as [e|]; cbn [verdictOf] in Hv.
  - eexists _, _, (Return e). split; [done|]. apply (leaves_later _ (inNow i)); [done|]. split; [done|]. apply (logged_bound (B + 1)); [lia | done].
  - destruct (await_spec (B + 1) (inNow i) st7 i (log ++ out)) as (st8 & out' & v & -> & Hl); try done; [|lia|lia| |].
    + destruct Hi. by split.
    + apply Ho7; [done|]. rewrite Hs6. by apply Hop2.
    + rbind. eexists _, _, _. split; [done|]. rewrite app_assoc. by replace (B + 2) with (B + 1 + 1) by lia.
Qed.

End run.

End tidy.
