(* ===== verification/IkeLife.v ===== *)
(** * The life of a session

    Any sequence of passes of the loop, whatever datagrams come, of calls that
    begin or take up an answer, at once or any number of passes later, and of what
    other sessions do to the hub, at times that do not run backwards. What a call
    does from its answer to its next request is one step. Passes begin while the session's mux is open: one that begins
    later only drains what was queued, and its sends fail. *)

From stdpp Require Import functions.
From S2P Require Import Prelude Netip Store Esp IkeMessage IkePayload IkeSa IkeSk IkeProposal IkeSelect TransHub Tunnel IkeChild IkeChildRun IkeSession IkeServe IkeExchange IkeRekey IkeRun IkeInv IkeKeep IkeHandle IkeProc IkeEngine.

(** ** The beginning *)

(** [&Session{...}], with [current] the SA of IKE_SA_INIT. *)
Definition newIkeSession (w : World) (x : ikeContext) (now : Z) : ikeSession :=
  mkIke w (λ _, x) 1 0 None None 0 0 None false 0 0 now.

(** The SA after IKE_AUTH, for which it sealed the one message [m]. *)
Record established (x : ikeContext) (m : message) : Prop := mkEstablished {
  es_prf : usablePRF x;
  es_iv : sendIV x = 1 ∧ ivOf (msRaw m) = be_to 8 1;
  es_message : msCtx m = O ∧ msID m = 1 ∧ msResponse m = responder x;
  es_ids : if responder x then nextLocalMID x = 0 ∧ nextPeerMID x = 2 ∧ lastPeerResponseID x = 1 ∧ lastPeerResponse x = msRaw m
           else nextLocalMID x = 2 ∧ nextPeerMID x = 0 }.

(** ** Steps *)

(** What a call is given: nonces of their length, an SPI not in use here. *)
Definition call_ok (now : Z) (s : ikeSession) (c : call) : Prop :=
  match c with
  | CallRekeyIKE d => draw_ok d ∧ rdSPI d ∉ spis s
  | CallRekeyChild _ t ent ent' => t = now ∧ entropy_ok ent ∧ entropy_ok ent'
  | CallDeleteIKE => True
  end.

(** A schedule begins the call it is for, once. *)
Definition mayBegin (st : runState) (c : call) : Prop :=
  ∃ i sc, rnRunning st = Some i ∧ rnResult st = None ∧ rnSchedules st !! i = Some sc ∧
    match c with CallRekeyIKE _ => rsIKE sc = true | CallRekeyChild b _ _ _ => rsIKE sc = false ∧ b = false | CallDeleteIKE => False end.

(** What others may do to the hub: close the mux, or leave its SPIs. *)
Definition apart (m : nat) (h h' : Hub) : Prop :=
  isClosed h' m = false → isClosed h m = false ∧ (∀ spi, ike h' !! spi = Some m ↔ ike h !! spi = Some m) ∧ elsewhere m h h'.

Section life.
Context {C : Crypto} {CL : CryptoLaws C} {H : Hmac} {HL : HmacLaws H} {E : ECDH} {EL : ECDHLaws E} (cfg : runConfig) (strict : bool).

(** The passes so far, the clock, what was sent, the loop, and how its last pass
    ended. In the [strict] lives no call is overtaken: it takes up the answer to a
    rekeying of the IKE SA before the peer's Delete of that SA is served. *)
Inductive runs : nat → Z → list message → runState → verdictRun → Prop :=
| rn_start h m x child window opened_ w msg source now st :
    0 ≤ window → isClosed h m = false → (∀ spi, esp h !! spi ≠ Some m) → (∀ spi, ike h !! spi = Some m ↔ spi = spiI x) →
    openSession h m child window opened_ = Ok w → opened_ ≤ now → established x msg →
    startRun cfg (newIkeSession w x opened_) source now = Ok st → runs 0 now [msg] st Continue
| rn_turn n clk log st i st' out v :
    runs n clk log st Continue → opened (rnSession st) → turn_ok clk i → turn cfg st i = Ok (st', out, v) →
    runs (S n) (inAt i) (log ++ out) st' v
| rn_call n clk log st c scheduled now :
    runs n clk log st Continue → clk ≤ now → call_ok now (rnSession st) c → (scheduled = true → mayBegin st c) →
    runs n now log (beginCall st c scheduled) Continue
| rn_resume n clk log st now :
    runs n clk log st Continue → clk ≤ now → (strict = true → overtaken st = false) → runs n now log (resume st now) Continue
| rn_elsewhere n clk log st h' :
    runs n clk log st Continue → apart (muxOf (rnSession st)) (hub (world (rnSession st))) h' →
    runs n clk log (set_session st (onHub (rnSession st) (λ _, h'))) Continue.

(** ** Each step keeps the invariant *)

#[local] Instance strictly : Tidy := strict = true.

Lemma open_hub h m child window now w : openSession h m child window now = Ok w →
  ike (hub w) = ike h ∧ isClosed (hub w) m = isClosed h m ∧ mux (sess w) = m.
Proof.
  unfold openSession, replaceChild. cbn [sess hub tun newSession mux handlers].
  destruct (canReplaceChild _ _) as [[]|e|]; [|done..]. destruct (RegisterESP h m (LocalSPI child)) as [h'|e|] eqn:Hreg; [|done..].
  unfold serve. cbn [sess tun hub]. intros (t & _ & [= <-])%bind_ok_inv. cbn [hub sess mux]. unfold RegisterESP in Hreg.
  repeat case_match; try done. injection Hreg as <-. by split_and!.
Qed.

Lemma start_ok h m x child window opened_ w now source st : 0 ≤ window → isClosed h m = false → (∀ spi, esp h !! spi ≠ Some m) →
  (∀ spi, ike h !! spi = Some m ↔ spi = spiI x) → openSession h m child window opened_ = Ok w → opened_ ≤ now → usablePRF x →
  startRun cfg (newIkeSession w x opened_) source now = Ok st → run_ok now st ∧ rnSession st = newIkeSession w x opened_ ∧ rnPending st = None.
Proof.
  intros HW Hcl He Hi Ho Hn Hx. unfold startRun. intros (c1 & _ & H1)%bind_ok_inv. apply bind_ok_inv in H1 as (c2 & _ & [= <-]).
  destruct (open_hub _ _ _ _ _ _ Ho) as (Hike & Hcl' & Hm). pose proof (openSession_ok _ _ _ _ _ _ HW He Ho) as Hw.
  split; [|done]. split; try done. cbn [rnSession]. split.
  - split; [|done]. intros c ->%list_elem_of_singleton. cbn. lia.
  - apply NoDup_singleton.
  - intros _ _. unfold muxOf. cbn [newIkeSession world]. rewrite Hm, Hike. split.
    + intros spi ->%list_elem_of_singleton. by apply Hi.
    + intros spi ->%Hi. left. apply list_elem_of_singleton. done.
  - cbn [newIkeSession world]. apply (fits_later opened_); [done|]. split; [done|]. exists (hub w). by destruct w.
Qed.

Lemma start_logged w x now msg : established x msg → logged 1 (newIkeSession w x now) None [msg].
Proof.
  intros [_ [I1 I2] (M1 & M2 & M3) Hids].
  assert (∀ m m', m ∈ [msg] → m' ∈ [msg] → msRaw m = msRaw m') as H1 by (by intros m m' ->%list_elem_of_singleton ->%list_elem_of_singleton).
  assert (∀ m, m ∈ [msg] → m = msg) as H2 by (by intros m ->%list_elem_of_singleton).
  split; [split|split|split|done]; cbn [newIkeSession nctx ctxs].
  - intros m ->%H2. split; [lia|]. exists 1. split; [lia | done].
  - intros m m' Hm Hm' _ _. by apply H1.
  - lia.
  - intros m m' Hm Hm' _ _ _ _. by apply H1.
  - intros _ m ->%H2 Hr. rewrite M3 in Hr. rewrite Hr in Hids. lia.
  - intros c Hc Hp Hl. assert (c = O) as -> by lia. exists msg. split; [by apply list_elem_of_singleton|]. destruct (responder x); [|lia].
    destruct Hids as (_ & _ & L1 & L2). split_and!; congruence.
  - intros c _. destruct (responder x); unfold maxMessageID; lia.
  - intros m m' Hm Hm' _ _ _ _ _ _. by apply H1.
  - intros m ->%H2 Hr _. rewrite M3 in Hr. rewrite Hr in Hids. lia.
  - intros c _. destruct (responder x); unfold maxMessageID; lia.
Qed.

Lemma begin_goes now s c : session_ok now s → call_ok now s c → goes now s (begin s c).
Proof.
  intros Hok Hc. destruct c as [d|b t ent ent'|]; cbn [begin call_ok] in *.
  - destruct Hc. by apply RekeyIKE_goes.
  - destruct Hc as (-> & ? & ?). by apply rekeyChild_goes.
  - by apply DeleteIKE_goes.
Qed.

Lemma call_spec clk now st c scheduled : run_ok clk st → clk ≤ now → call_ok now (rnSession st) c →
  let st' := beginCall st c scheduled in run_ok now st' ∧ extends (rnSession st) (rnSession st') ∧ rnPending st' = rnPending st.
Proof.
  intros Hok Hn Hc. apply (run_later clk now) in Hok; [|done]. unfold beginCall. destruct (rnCall st) as [p|] eqn:Ec.
  { split; [done|]. split; [apply extends_refl | done]. }
  destruct (begin_goes now (rnSession st) c (ro_session _ _ Hok) Hc) as [Hf He]. split.
  - apply run_proceed; try done; try apply Hok. pose proof (ro_linked _ _ Hok) as Hl. unfold linked in Hl. rewrite Ec in Hl. by destruct Hl.
  - by destruct (begin (rnSession st) c).
Qed.

Lemma elsewhere_keeps clk s h' : session_ok clk s → apart (muxOf s) (hub (world s)) h' → keeps clk s (onHub s (λ _, h')).
Proof.
  intros [Hc Hnd Hr Hw] Ha. assert (steady s (onHub s (λ _, h'))) as Hst by done. split; [split|].
  - by apply (steady_contexts s).
  - done.
  - intros Ht Ho. destruct (Ha Ho) as (Ho' & Hi & _). destruct (Hr Ht Ho') as [R1 R2]. split.
    + intros spi Hin. apply Hi. by apply R1.
    + intros spi Hin%Hi. by apply R2.
  - destruct Hw as [Ho Hh]. split; [|done]. intros Hop. destruct (Ha Hop) as (Ho' & _ & He). by apply (elsewhere_ok (world s)), He; apply Ho.
  - apply steady_later; [done | done | |done|].
    + intros Ho. by destruct (Ha Ho).
    + intros l Hl. by exists l.
Qed.

Lemma runs_leaves n clk log st v : runs n clk log st v → Z.of_nat n < 2 ^ 62 → leaves (2 * Z.of_nat n + 1) clk log st v.
Proof.
  induction 1 as [h m x child window opened_ w msg source now st HW Hcl He Hi Ho Hn Hx Hs
    |n clk log st i st' out v _ IH Hop Hi Ht|n clk log st c scheduled now _ IH Hn Hc _|n clk log st now _ IH Hn Ho|n clk log st h' _ IH Ha]; intros Hb.
  - destruct (start_ok _ _ _ _ _ _ _ _ _ _ HW Hcl He Hi Ho Hn (es_prf _ _ Hx) Hs) as (Hok & Es & Ep). split; [done|]. rewrite Es, Ep.
    by apply start_logged.
  - destruct IH as [Hok Hlog]; [lia|]. destruct (turn_spec cfg _ clk st i log Hok Hi Hlog) as (st2 & out2 & v2 & Ht2 & Hl); [lia | lia | done|].
    rewrite Ht in Ht2. injection Ht2 as -> -> ->. by replace (2 * Z.of_nat (S n) + 1) with (2 * Z.of_nat n + 1 + 2) by lia.
  - destruct IH as [Hok Hlog]; [done|]. destruct (call_spec clk now st c scheduled Hok Hn Hc) as (Hok' & Hx & Hp). split; [done|]. rewrite Hp.
    apply (logged_still _ (rnSession st)); [lia | by apply extends_still | done].
  - destruct IH as [Hok Hlog]; [done|]. destruct (run_resume clk now st Hok Hn Ho) as (Hok' & Hx & Hp). split; [done|]. rewrite Hp.
    apply (logged_still _ (rnSession st)); [lia | by apply extends_still | done].
  - destruct IH as [Hok Hlog]; [done|]. pose proof (elsewhere_keeps clk _ _ (ro_session _ _ Hok) Ha) as Hk. split.
    + by apply (run_session clk).
    + apply (logged_still _ (rnSession st)); [lia | | done]. split_and!; try done; [cbn; lia|]. intros Ho. by destruct (Ha Ho).
Qed.

(** ** What holds at every point of a session's life *)

(** C7: At every point of a session's life - whatever datagrams came, rekeyings either
    side began and how they collided, Deletes, timeouts and losses, and however late
    a call took up an answer - the IKE SAs it holds are distinct and at most three;
    while its mux is open the hub delivers to it exactly the inbound SPIs of its
    Child SAs, and its tunnel has keys for exactly these; no call has ended in a
    panic, and the next pass, whatever it meets, does not panic. In a strict life,
    in which no call takes up the answer to its rekeying of the IKE SA after that SA
    was deleted, the hub also delivers to it exactly the initiator SPIs of the IKE
    SAs it holds; [IkeMeet.late_delete_overrides] shows that one of the others
    loses its current SA. *)
Theorem ike_session_in_step n clk log st v :
  runs n clk log st v → Z.of_nat n < 2 ^ 62 - 1 →
  let s := rnSession st in
  NoDup (held s) ∧ (length (held s) ≤ 3)%nat ∧
  (opened s →
    (strict = true → ∀ spi, ike (hub (world s)) !! spi = Some (muxOf s) ↔ spi ∈ spis s) ∧
    (∀ spi, esp (hub (world s)) !! spi = Some (muxOf s) ↔ spi ∈ live (sess (world s))) ∧
    ∃ sa, sas (tun (world s)) = Some sa ∧ ∀ spi, is_Some (inbound sa !! spi) ↔ spi ∈ live (sess (world s))) ∧
  (v = Continue → rnResult st ≠ Some Panic ∧
    (opened s → ∀ i, turn_ok clk i → ∃ st' out v', turn cfg st i = Ok (st', out, v'))).
Proof.
  intros Hr Hn s. destruct (runs_leaves n clk log st v Hr) as [Hv Hlog]; [lia|].
  assert (session_ok clk s) as [Hc Hnd Hro [Hw _]] by (by destruct v; [apply Hv|]). split_and!.
  - done.
  - unfold held. destruct (old s), (collision s); cbn; lia.
  - intros Ho. destruct (Hw Ho) as [[_ _ _ Hh _ (sa & Hs & Hd & _)] _]. split_and!.
    + intros Ht spi. destruct (Hro Ht Ho) as [R1 R2]. split; [|apply R1]. intros [?|[]%not_elem_of_nil]%R2. done.
    + done.
    + exists sa. split; [done|]. intros spi. rewrite <- elem_of_dom, Hd. apply elem_of_list_to_set.
  - intros ->. split; [intros Hp; by destruct (ro_result _ _ Hv _ Hp)|]. intros Ho i Hi.
    destruct (turn_spec cfg _ clk st i log Hv Hi Hlog) as (st' & out & v' & Ht & _); [lia | lia | done|]. by exists st', out, v'.
Qed.

(** C6: Over the whole life of a session, however late its calls take up their
    answers, among everything it gave to the socket: two messages of one IKE SA that
    carry the same AEAD initialization vector are the same bytes, so no nonce seals
    two messages; a request of the peer has one answer, which a repetition of the
    request gets again, byte for byte; and a Message ID is used for one request of
    ours, so what is sent again while it waits is the same bytes. *)
Theorem exchanges_once n clk log st v m m' :
  runs n clk log st v → Z.of_nat n < 2 ^ 62 → m ∈ log → m' ∈ log → msCtx m = msCtx m' →
  (ivOf (msRaw m) = ivOf (msRaw m') → msRaw m = msRaw m') ∧
  (msResponse m = msResponse m' → msID m = msID m' → (msResponse m = false → msTook m = true ∧ msTook m' = true) → msRaw m = msRaw m').
Proof.
  intros Hr Hn Hm Hm' Hc. destruct (runs_leaves n clk log st v Hr Hn) as [_ [[_ Hu _] [Ha _ _ _] [Hk _ _] _]]. split; [by apply Hu|].
  intros Er Ei Et. destruct (msResponse m) eqn:Em.
  - by apply Ha.
  - destruct (Et eq_refl). by apply Hk.
Qed.

End life.
