(* ===== verification/IkeMeet.v ===== *)
(** * Two sessions that rekey their IKE SA

    One of them rekeys, or both at once: both end up with the same new SA. *)

From stdpp Require Import functions.
From S2P Require Import Prelude Netip Store Esp IkeMessage IkePayload IkeSa IkeSk IkeProposal IkeSelect TransHub Tunnel IkeChild IkeSession IkeServe IkeExchange IkeRekey IkeInv IkeKeep IkeHandle IkeProc.

(** * Both ends of a rekeying

    What one session sends, the other takes apart; a rekeying of the IKE SA
    between two of them, and two that meet. *)

(** ** Two ends of an SA *)

(** What two ends of an SA have in common; one of them began it. *)
Definition mirrored (x y : ikeContext) : Prop :=
  (cxSuite x, skD x, skei x, sker x, spiI x, spiR x) = (cxSuite y, skD y, skei y, sker y, spiI y, spiR y) ∧ responder x = negb (responder y).

(** An SA that can seal [n] more messages. *)
Record sealing (n : Z) (x : ikeContext) : Prop := mkSealing {
  se_keys : ∃ ap, aeadParams (suEncrID (cxSuite x)) (suEncrKeyBits (cxSuite x)) = Ok ap ∧
    length (skei x) = (KeyLen ap + SaltLen ap)%nat ∧ length (sker x) = (KeyLen ap + SaltLen ap)%nat;
  se_spis : 0 ≤ spiI x < 2 ^ 64 ∧ 0 ≤ spiR x < 2 ^ 64;
  se_iv : 0 ≤ sendIV x < 2 ^ 64 - n }.

Lemma mirrored_sym x y : mirrored x y → mirrored y x.
Proof. intros [E Hr]. split; [done|]. rewrite Hr. by rewrite negb_involutive. Qed.

Lemma mirrored_keys x y : mirrored x y → cxSuite y = cxSuite x ∧ skD y = skD x ∧ spiI y = spiI x ∧ spiR y = spiR x ∧
  peerEncryptionKey y = localEncryptionKey x ∧ responder y = negb (responder x).
Proof. intros [[= -> -> Ei Er -> ->] Hr]. unfold peerEncryptionKey, localEncryptionKey. rewrite Hr, Ei, Er. by destruct (responder y). Qed.

Lemma mirrored_fixed x x' y y' : fixed x' = fixed x → fixed y' = fixed y → mirrored x y → mirrored x' y'.
Proof. intros Hx%fixed_spi Hy%fixed_spi [[= E1 E2 E3 E4 E5 E6] Hr]. unfold mirrored. naive_solver congruence. Qed.

Section pair.
Context {C : Crypto} {CL : CryptoLaws C} {H : Hmac} {HL : HmacLaws H} {E : ECDH} {EL : ECDHLaws E}.

(** A message, as the end [y] of its SA takes it apart. *)
Definition arrives (y : ikeContext) (exchange flags id : Z) (inner : list RawPayload) (raw : list Z) : Prop :=
  ∃ hdr m plain, decodeHeader raw = Ok hdr ∧ MajorVersion hdr = 2 ∧ Length hdr = u32 (Z.of_nat (length raw)) ∧
    SPIInitiator hdr = spiI y ∧ SPIResponder hdr = spiR y ∧ ExchangeType hdr = exchange ∧ Flags hdr = flags ∧ MessageID hdr = id ∧
    DecodeMessage raw = Ok m ∧ (∃ body, Payloads m = [mkPayload PayloadSK false body]) ∧
    decryptMessagePlaintext (cxSuite y) (peerEncryptionKey y) raw m = Ok plain ∧ decodeMessagePlaintext plain.1 plain.2 = Ok inner.

Lemma sealed_arrives x y exchange flags id inner : sealing 1 x → mirrored x y → 0 ≤ id < 2 ^ 32 → Forall payload_ok inner →
  (length (encodePayloadChain inner) < 1000)%nat →
  ∃ raw, encrypt (cxSuite x) (sendIV x) (localEncryptionKey x) (mkHeader (spiI x) (spiR x) 0 0 0 exchange flags id 0) [] inner = (sendIV x + 1, Ok raw) ∧
    arrives y exchange flags id inner raw.
Proof.
  intros [(ap & Hap & Hk1 & Hk2) [Hs1 Hs2] Hiv] Hm Hid Hin Hl. destruct (mirrored_keys x y Hm) as (Ey & _ & Ei & Er & Ek & _).
  set (hdr := mkHeader _ _ _ _ _ _ _ _ _).
  assert (length (localEncryptionKey x) = (KeyLen ap + SaltLen ap)%nat) as Hk by (unfold localEncryptionKey; by destruct (responder x)).
  destruct (sealed_opens (cxSuite x) ap (localEncryptionKey x) hdr inner (be_to 8 (sendIV x + 1)) Hap Hk)
    as (raw & Henc & Hdec & m & Hm' & _ & Hp & Hd); [apply length_be_to | unfold header_ok, hdr; cbn; lia | lia|].
  assert (Z.of_nat (length raw) < 2 ^ 32) as Hlr.
  { destruct (encrypt_eq (cxSuite x) ap (localEncryptionKey x) hdr [] inner (be_to 8 (sendIV x + 1)) Hap Hk) as (a & ct & _ & _ & Hct & Henc' & _);
      [apply length_be_to | lia | cbn; lia|]. rewrite Henc' in Henc. cbv zeta in Henc. apply (f_equal (λ r, match r with Ok l => length l | _ => O end)) in Henc.
    cbv beta iota in Henc. rewrite <- Henc, !length_app, length_encodeHeader, !length_be_to, Hct. cbn [length encodePayloadChain]. unfold HeaderLen. lia. }
  exists raw. unfold encrypt. rewrite u64_id by lia. rewrite (proj2 (Z.eqb_neq _ 0)) by lia. rewrite Henc. split; [done|].
  eexists _, m, _. split; [exact Hdec|]. cbn [MajorVersion Length SPIInitiator SPIResponder ExchangeType Flags MessageID sealedHeader hdr].
  split; [done|]. split; [by rewrite u32_id by lia|]. split_and!; try done.
  - rewrite Ey, Ek. exact Hd.
  - by apply decodeMessagePlaintext_encode.
Qed.

(** ** Where it goes *)

Lemma context_current s hdr : SPIInitiator hdr = spiI (ctxs s (current s)) → SPIResponder hdr = spiR (ctxs s (current s)) →
  contextForHeader s hdr = Some (current s).
Proof. intros Hi Hr. unfold contextForHeader, held. cbn [List.find]. by rewrite Hi, Hr, !Z.eqb_refl. Qed.

Lemma dispatch_request s x exchange id inner raw source pending took ent now :
  mirrored x (ctxs s (current s)) → arrives (ctxs s (current s)) exchange (requestFlags x) id inner raw →
  id = nextPeerMID (ctxs s (current s)) → id ≠ maxMessageID →
  ∃ hdr, MessageID hdr = id ∧ ExchangeType hdr = exchange ∧
  dispatch s raw source pending took ent now =
    let '(s', r) := handleRequest (onHub s (λ h, AdoptEndpoint h (muxOf s) source)) (current s) hdr inner ent now in
    a ← r;
    match a with
    | (resp, Some _) => Ok (mkOutcome (closeSession s') pending (option_map (λ raw, (mkSent (current s) true id raw took, source)) resp) None true)
    | (resp, None) =>
        let s' := onContext s' (current s) (λ x, set_answered x (u32 (nextPeerMID x + 1)) id (default [] resp)) in
        Ok (mkOutcome (if took then s' else closeSession s') pending (Some (mkSent (current s) true id (default [] resp) took, source)) None true)
    end.
Proof.
  intros Hm (hdr & m & plain & Hh & Hv & Hl & Hi & Hr & Hx & Hf & Hid & Hd & _ & Hp & Hin) Hnext Hmax.
  destruct (mirrored_keys _ _ Hm) as (_ & _ & _ & _ & _ & Hrole). exists hdr. split; [done|]. split; [done|]. unfold dispatch. rewrite Hh, Hv, Hl, Z.eqb_refl.
  change (negb (2 =? 2)) with false. cbn [negb orb].
  rewrite (context_current s hdr Hi Hr), Hd, Hp. unfold IsResponse, IsInitiator. rewrite Hf. unfold requestFlags. rewrite Hrole.
  assert (∀ b : bool, (negb (Z.land (if b then 0 else FlagInitiator) FlagResponse =? 0)) = false ∧
    (negb (Bool.eqb (negb (Z.land (if b then 0 else FlagInitiator) FlagInitiator =? 0)) (negb b))) = false) as Hb by (by intros []).
  destruct (Hb (responder x)) as [-> ->]. unfold takeRequest. rewrite Hid, <- Hnext, !Z.eqb_refl. cbn [negb].
  rewrite (proj2 (Z.eqb_neq id maxMessageID)) by done. unfold serveRequest. rewrite Hin, Hid. done.
Qed.

Lemma dispatch_response s x exchange id inner raw source p took ent now :
  mirrored x (ctxs s (current s)) → arrives (ctxs s (current s)) exchange (responseFlags x) id inner raw →
  pnContext p = current s → pnMsgID p = id → rqExchange (pnRequest p) = exchange → Forall (λ q, Critical q = false) inner →
  dispatch s raw source (Some p) took ent now = Ok (mkOutcome s None None (Some (Ok inner)) true).
Proof.
  intros Hm (hdr & m & plain & Hh & Hv & Hl & Hi & Hr & Hx & Hf & Hid & Hd & (body & Hpl) & Hp & Hin) Hc Hpid Hpx Hcrit.
  destruct (mirrored_keys _ _ Hm) as (_ & _ & _ & _ & _ & Hrole). unfold dispatch. rewrite Hh, Hv, Hl, Z.eqb_refl.
  change (negb (2 =? 2)) with false. cbn [negb orb].
  rewrite (context_current s hdr Hi Hr), Hd, Hp. unfold matches, IsResponse, IsInitiator. rewrite Hf, Hc, Hpid, Hpx, Hid, Hx, !Z.eqb_refl, Nat.eqb_refl, Hrole.
  unfold responseFlags.
  assert (∀ b : bool, (negb (Z.land (if b then FlagResponse else Z.lor FlagResponse FlagInitiator) FlagResponse =? 0)) = true ∧
    Bool.eqb (negb (Z.land (if b then FlagResponse else Z.lor FlagResponse FlagInitiator) FlagInitiator =? 0)) (negb b) = true) as Hb by (by intros []).
  destruct (Hb (responder x)) as [-> ->]. cbn [andb negb]. unfold takeResponse. rewrite Hin, Hpl.
  assert (∀ l, Forall (λ q, Critical q = false) l → validateResponseCriticalFlags l = Ok tt) as Hv'.
  { induction 1 as [|q l Hq _ IH]; cbn [validateResponseCriticalFlags]; [done | by rewrite Hq]. }
  rewrite !Hv'; [done | done | by constructor].
Qed.

(** ** The answer to a rekeying *)

Definition offering (x : ikeContext) (d : rekeyDraw) : Prop :=
  draw_ok d ∧ 0 < rdSPI d < 2 ^ 64 ∧ (suPRFID (cxSuite x) = PRF_HMAC_SHA2_256 ∨ suPRFID (cxSuite x) = PRF_HMAC_SHA2_384).

(** A session that takes a rekeying of the peer's to the SPI [spi] now. *)
Record willing (s : ikeSession) (spi : Z) (ent : entropy) (now : Z) : Prop := mkWilling {
  wl_place : (old s = None ∨ localRekey s ≠ None) ∧ collision s = None;
  wl_child : childRekeying s = false ∧ LocalSPI (retiring (sess (world s))) = 0;
  wl_rate : (allowPeerIKERekey s now).1 = true;
  wl_spi : (spi ∉ spis s) ∧ spi ≠ spiR (ctxs s (current s)) ∧ (∀ l, localRekey s = Some l → rkOld l = current s ∧ rkSpiI l ≠ spi);
  wl_hub : opened s ∧ ike (hub (world s)) !! spi = None;
  wl_entropy : entropy_ok ent ∧ 0 < enSPI64 ent < 2 ^ 64 }.

(** What such a session answers with [answer] does: the SA it makes, and what the
    peer makes of the answer. *)
Record served (s s2 : ikeSession) (x : ikeContext) (d : rekeyDraw) (g : Z) (dh : DHKeyPair) (ent : entropy) (answer : list RawPayload) : Prop := mkServed {
  sv_nctx : nctx s2 = S (nctx s);
  sv_ctxs : ∀ k, (k < nctx s)%nat → ctxs s2 k = ctxs s k;
  sv_new : ∃ new, acceptRekey x d g dh answer = Ok (new, enNonce ent) ∧ mirrored new (ctxs s2 (nctx s)) ∧ sealing (2 ^ 63) new ∧ sealing (2 ^ 63) (ctxs s2 (nctx s)) ∧
    spiI new = rdSPI d;
  sv_payloads : Forall payload_ok answer ∧ (length (encodePayloadChain answer) < 1000)%nat ∧ Forall (λ q, Critical q = false) answer ∧
    retryGroup answer = Ok 0;
  sv_mux : muxOf s2 = muxOf s;
  sv_open : opened s2;
  sv_hub : ike (hub (world s2)) = <[rdSPI d := muxOf s]> (ike (hub (world s)));
  sv_places : match localRekey s with
    | None => current s2 = nctx s ∧ old s2 = Some (current s) ∧ collision s2 = None ∧ localRekey s2 = None
    | Some l => current s2 = current s ∧ old s2 = old s ∧ collision s2 = Some (nctx s) ∧
        localRekey s2 = Some (mkRekey (rkOld l) (rkSpiI l) (rkNonce l) (rdNonce d) (enNonce ent))
    end }.

Lemma register_free h m spi : spi ≠ 0 → isClosed h m = false → ike h !! spi = None → RegisterIKE h m spi = Ok (set_tables h (<[spi := m]> (ike h)) (esp h)).
Proof. intros Hz Hc Hf. unfold RegisterIKE, claim. by rewrite (proj2 (Z.eqb_neq spi 0)), Hc, Hf by done. Qed.

(** Keys from one exchange, on both sides. *)
Lemma rekey_keys prfID skd suite z ni nr i r : usable suite → PRFOutputLen prfID ≠ O → ∃ k ap, DeriveRekeyedIKEKeys prfID skd suite z ni nr i r = Ok k ∧
  aeadParams (suEncrID suite) (suEncrKeyBits suite) = Ok ap ∧ keys_ok suite ap k.
Proof.
  intros (Hap & Hp & _) Ho. destruct Hap as [ap Hap]. unfold DeriveRekeyedIKEKeys. destruct (Nat.eqb_spec (PRFOutputLen prfID) 0); [done|].
  destruct (prf_ok prfID skd (z ++ ni ++ nr) Ho) as (t & -> & _). rbind. destruct (deriveIKEKeys_ok suite ap t ni nr i r Hap) as (k & -> & Hk); [done|].
  by exists k, ap.
Qed.

Lemma nonces_valid n prfID : length n = 32%nat → prfID = PRF_HMAC_SHA2_256 ∨ prfID = PRF_HMAC_SHA2_384 → validNonce n = true ∧ validNonceFor n prfID = true.
Proof. intros Hn Hx. unfold validNonceFor, validNonce. rewrite Hn. by destruct Hx as [-> | ->]. Qed.

Lemma group_small g : supportedIKEGroup g = true → 0 ≤ g < 2 ^ 16.
Proof. intros [->|[->| ->]]%supported_groups; vm_compute; split; congruence. Qed.

(** The payloads of the request are there, and its offer is taken. *)
Lemma request_selected s x d g pub msgID ent now ts suite :
  let offer := ikeRekeyProposal (be_to 8 (rdSPI d)) (suPRFID (cxSuite x)) in
  offering x d → supportedIKEGroup g = true → pub ≠ [] → willing s (rdSPI d) ent now → cxSuite (ctxs s (current s)) = cxSuite x →
  DecodeSA (EncodeSA [offer]) = Ok [offer] → selectIKERekey g (suPRFID (cxSuite x)) [offer] 0 = inl (ts, suite, offer) → suPRFID suite = suPRFID (cxSuite x) →
  ∃ last, handleIKERekey s (current s) msgID (rekeyRequest x d g pub) ent now =
    installIKE (set_lastRekeys s (lastPeerChildRekey s) last) (current s) msgID (rdNonce d) g pub ts suite offer ent now.
Proof.
  intros offer (Hd & Hspi & Hprf) Hg Hpub [[Hold Hcol] [Hch Hret] Hrate _ _ _] Es Hdec Hsel Hsp.
  unfold handleIKERekey. rewrite Nat.eqb_refl, (bool_decide_true (collision s = None)) by done.
  assert (bool_decide (old s = None) || negb (bool_decide (localRekey s = None)) = true) as ->.
  { destruct Hold as [Ho|Hl]; [by rewrite bool_decide_true | rewrite (bool_decide_false (localRekey s = None)) by done; apply orb_true_r]. }
  rewrite Hch, Hret. cbn [negb andb orb]. change (negb (0 =? 0)) with false. cbv iota.
  unfold allowPeerIKERekey in *. destruct (allowPeerRekey _ _ _ _) as [ok last]. cbn [fst] in Hrate. subst ok. exists last.
  set (s1 := set_lastRekeys s _ last). change (ctxs s1) with (ctxs s).
  unfold rekeyRequest. cbn [rekeyPayloads Type_]. change (PayloadNonce =? PayloadSA) with false. change (PayloadKE =? PayloadSA) with false.
  change (PayloadKE =? PayloadNonce) with false. rewrite !Z.eqb_refl. cbn [Body]. unfold EncodeNonce.
  destruct (nonces_valid (rdNonce d) (suPRFID suite) Hd) as [-> Hvf]; [by rewrite Hsp|]. cbn [negb]. fold offer. rewrite Hdec.
  rewrite (DecodeKE_encode g pub) by (by apply group_small). destruct pub as [|p0 pub0]; [done|]. cbn [length Nat.eqb]. by rewrite Es, Hsel, Hvf.
Qed.

(** The payloads of the answer. *)
Definition rekeyAnswerOf (d : rekeyDraw) (prfID : Z) (ent : entropy) (ts : list Transform) (g : Z) (pub : list Z) : list RawPayload :=
  [mkPayload PayloadSA false (EncodeSA [mkProposal (Number (ikeRekeyProposal (be_to 8 (rdSPI d)) prfID)) ProtoIKE (be_to 8 (enSPI64 ent)) ts]);
   mkPayload PayloadNonce false (EncodeNonce (enNonce ent)); mkPayload PayloadKE false (EncodeKE g pub)].

Lemma answer_accepted x d g dh ent ts suite pub z k :
  let offer := ikeRekeyProposal (be_to 8 (rdSPI d)) (suPRFID (cxSuite x)) in
  supportedIKEGroup g = true → SharedSecret dh pub = Ok z →
  acceptIKERekey (EncodeSA [mkProposal (Number offer) ProtoIKE (be_to 8 (enSPI64 ent)) ts]) (enNonce ent) offer g = Ok (suite, enSPI64 ent) →
  DeriveRekeyedIKEKeys (suPRFID (cxSuite x)) (skD x) suite z (rdNonce d) (enNonce ent) (rdSPI d) (enSPI64 ent) = Ok k →
  acceptRekey x d g dh (rekeyAnswerOf d (suPRFID (cxSuite x)) ent ts g pub) =
    Ok (mkContext suite (SKd k) (SKei k) (SKer k) (SKpi k) (SKpr k) (rdSPI d) (enSPI64 ent) false 0 0 0 0 [], enNonce ent).
Proof.
  intros offer Hg Hz Hacc Hk. unfold acceptRekey, rekeyAnswerOf. cbn [rekeyAnswerPayloads Type_]. change (PayloadSA =? PayloadN) with false.
  change (PayloadNonce =? PayloadN) with false. change (PayloadKE =? PayloadN) with false. change (PayloadNonce =? PayloadSA) with false.
  change (PayloadKE =? PayloadSA) with false. change (PayloadKE =? PayloadNonce) with false. rewrite !Z.eqb_refl. rbind. cbn [Body]. fold offer.
  unfold EncodeNonce. rewrite Hacc. rbind. rewrite DecodeKE_encode, Z.eqb_refl by (by apply group_small). cbn [negb]. rewrite Hz. rbind. rewrite Hk. by rbind.
Qed.

Lemma answer_parts d prfID ent ts g pub : entropy_ok ent → (length ts ≤ 4)%nat → (length pub < 200)%nat →
  let answer := rekeyAnswerOf d prfID ent ts g pub in
  Forall payload_ok answer ∧ (length (encodePayloadChain answer) < 1000)%nat ∧ Forall (λ q, Critical q = false) answer ∧ retryGroup answer = Ok 0.
Proof.
  intros Hent Hts Hp answer. unfold entropy_ok in Hent. unfold answer, rekeyAnswerOf. set (p := mkProposal _ _ _ _).
  pose proof (length_EncodeSA_one p) as Hl. unfold p in Hl at 2 3. cbn [SPI Transforms] in Hl. rewrite length_be_to in Hl. split_and!.
  - apply (Forall_impl (λ q, Z.of_nat (length (Body q)) < 400 ∧ 0 < Type_ q < 256)); [|intros q [Hq1 Hq2]; split; lia].
    repeat constructor; cbn [Body Type_]; unfold EncodeNonce, PayloadSA, PayloadNonce, PayloadKE; rewrite ?length_EncodeKE; lia.
  - rewrite !length_chain_cons. cbn [length Body encodePayloadChain]. unfold EncodeNonce. rewrite length_EncodeKE. unfold genericPayloadHeaderLen. lia.
  - by repeat constructor.
  - done.
Qed.

Lemma rekey_served s x d g r dh pub msgID ent now : (current s < nctx s)%nat → mirrored x (ctxs s (current s)) → offering x d → supportedIKEGroup g = true →
  GenerateDH g r = Ok dh → PublicBytes dh = Ok pub → willing s (rdSPI d) ent now →
  ∃ s2 answer, handleIKERekey s (current s) msgID (rekeyRequest x d g pub) ent now = response s2 (current s) msgID CREATE_CHILD_SA answer ∧
    served s s2 x d g dh ent answer.
Proof.
  intros Hcur Hm Hoff Hg Hdh Hpub Hwill. pose proof Hoff as (Hd & Hspi & Hprf). pose proof Hwill as [[Hold Hcol] _ _ (Hsp1 & Hsp2 & Hlr) [Hop Hfree] [Hent He64]].
  destruct (mirrored_keys _ _ Hm) as (Es & Ed & _ & _ & _ & _).
  destruct (ike_rekey_agrees (rdSPI d) (enSPI64 ent) (suPRFID (cxSuite x)) g (enNonce ent) Hent Hspi He64 Hprf Hg) as (ts & suite & Hdec & Hsel & Hbe & Hus & Hsp & Hsg & Hacc).
  destruct (GenerateDH_public _ _ _ Hdh) as (_ & pub' & Hpub' & Hpl & _ & Hpn & _). assert (pub' = pub) as -> by congruence.
  destruct (request_selected s x d g pub msgID ent now ts suite Hoff Hg Hpn Hwill Es Hdec Hsel Hsp) as [last ->].
  set (s1 := set_lastRekeys s _ last). unfold installIKE. change (ctxs s1) with (ctxs s). rewrite Hbe.
  assert (routedLocked s1 (rdSPI d) || match localRekey s1 with Some r0 => rkSpiI r0 =? rdSPI d | None => false end
    || (rdSPI d =? spiI (ctxs s (current s))) || (rdSPI d =? spiR (ctxs s (current s))) = false) as ->.
  { rewrite !orb_false_iff. split_and!.
    - apply not_true_iff_false. change (routedLocked s1) with (routedLocked s). by rewrite routedLocked_iff.
    - change (localRekey s1) with (localRekey s). destruct (localRekey s) as [l|]; [|done]. apply Z.eqb_neq. by apply (Hlr l).
    - apply Z.eqb_neq. intros He. apply Hsp1. rewrite He. apply spis_ctx, current_held.
    - by apply Z.eqb_neq. }
  assert (∃ dh', GenerateDH g (enDH ent) = Ok dh') as [dh' Hdh'] by (unfold GenerateDH in *; destruct (_ || _); [by eexists | done]).
  rewrite Hdh'. destruct (GenerateDH_public _ _ _ Hdh') as (_ & pubB & HpubB & HplB & _ & _ & _).
  destruct (SharedSecret_agree g r (enDH ent) dh dh' pub pubB Hdh Hdh' Hpub HpubB) as (z & HzA & HzB). rewrite HzB.
  destruct (rekey_keys (suPRFID (cxSuite x)) (skD x) suite z (rdNonce d) (enNonce ent) (rdSPI d) (enSPI64 ent) Hus) as (k & ap & Hk & Hap & _ & _ & K1 & K2 & _);
    [by destruct Hprf as [-> | ->]|].
  rewrite Es, Ed, Hk. change (hub (world s1)) with (hub (world s)). change (muxOf s1) with (muxOf s). rewrite register_free by (lia || done).
  set (h := set_tables _ _ _). unfold newContext. cbn [fst snd]. set (y' := mkContext suite _ _ _ _ _ _ _ _ _ _ _ _ _). rewrite HpubB.
  set (sN := mkIke _ _ _ _ _ _ _ _ _ _ _ _ _). set (s2 := match localRekey sN with Some _ => _ | None => _ end). cbv zeta.
  exists s2, (rekeyAnswerOf d (suPRFID (cxSuite x)) ent ts g pubB). split; [reflexivity|].
  assert (nctx s2 = S (nctx s) ∧ ctxs s2 = <[nctx s := y']> (ctxs s) ∧ world s2 = mkWorld h (sess (world s)) (tun (world s)) ∧
    match localRekey s with
    | None => current s2 = nctx s ∧ old s2 = Some (current s) ∧ collision s2 = None ∧ localRekey s2 = None
    | Some l => current s2 = current s ∧ old s2 = old s ∧ collision s2 = Some (nctx s) ∧
        localRekey s2 = Some (mkRekey (rkOld l) (rkSpiI l) (rkNonce l) (rdNonce d) (enNonce ent))
    end) as (N1 & N2 & N3 & N4).
  { unfold s2. change (localRekey sN) with (localRekey s). destruct (localRekey s) as [l|] eqn:El.
    - destruct (Hlr l eq_refl) as [-> _]. rewrite Nat.eqb_refl. unfold retainCollisionLocked. change (collision (set_localRekey sN _)) with (collision s). by rewrite Hcol.
    - assert (old s = None) as Ho by (by destruct Hold). unfold retainOldLocked. change (old sN) with (old s). by rewrite Ho. }
  split; try done.
  - intros j Hj. rewrite N2. apply fn_lookup_insert_ne. lia.
  - eexists. rewrite N2, fn_lookup_insert. split; [by apply (answer_accepted x d g dh ent ts suite pubB z k)|]. split; [done|].
    split_and!; [split; cbn; [by exists ap | split; lia | lia].. | done].
  - destruct (selectIKERekey_prf _ _ _ _ _ _ _ Hsel) as (_ & _ & Hts & _). by apply answer_parts.
  - unfold muxOf. by rewrite N3.
  - unfold opened, openWorld. rewrite N3. exact Hop.
  - by rewrite N3.
Qed.

(** ** Sessions between exchanges *)

(** Only the counters of SAs differ. *)
Definition recounted (s s' : ikeSession) : Prop :=
  s' = set_ctxs s (ctxs s') ∧ ∀ c, fixed (ctxs s' c) = fixed (ctxs s c).

Lemma recounted_onContext s c f : (∀ x, fixed (f x) = fixed x) → recounted s (onContext s c f).
Proof.
  intros Hf. split; [done|]. intros k. unfold onContext, set_ctxs. cbn [ctxs].
  destruct (decide (c = k)) as [<-|]; [by rewrite fn_lookup_insert, Hf | by rewrite fn_lookup_insert_ne].
Qed.

Lemma recounted_trans s1 s2 s3 : recounted s1 s2 → recounted s2 s3 → recounted s1 s3.
Proof. intros [E1 F1] [E2 F2]. split; [|intros c; by rewrite F2]. rewrite E2, E1. done. Qed.

Lemma recounted_spis s s' : recounted s s' → spis s' = spis s.
Proof.
  intros [E1 F]. unfold spis. assert (held s' = held s) as -> by (by rewrite E1). apply map_ext. intros c. by destruct (fixed_spi _ _ (F c)).
Qed.

Lemma willing_recounted s s' spi ent now : recounted s s' → willing s spi ent now → willing s' spi ent now.
Proof.
  intros Hr [H1 H2 H3 H4 H5 H6]. pose proof (recounted_spis _ _ Hr) as Hs. destruct Hr as [E1 F]. split; try done; try (rewrite E1; done).
  { unfold allowPeerIKERekey in *. rewrite E1. cbn [lastPeerIKERekey started set_ctxs]. by destruct (allowPeerRekey _ _ _ _). }
  rewrite Hs. assert (current s' = current s) as -> by (by rewrite E1). assert (localRekey s' = localRekey s) as -> by (by rewrite E1).
  by destruct (fixed_spi _ _ (F (current s))) as (_ & -> & _).
Qed.

Lemma adopt_hub h m ep : isClosed (AdoptEndpoint h m ep) m = isClosed h m ∧ ike (AdoptEndpoint h m ep) = ike h.
Proof.
  unfold AdoptEndpoint. destruct (muxes h !! m) as [y|] eqn:Em; [|done]. split; [|done]. unfold isClosed. cbn [muxes set_muxes hubClosed].
  by rewrite Em, list_lookup_insert_eq by (by eapply lookup_lt_Some).
Qed.

Lemma willing_endpoint s ep spi ent now : willing s spi ent now → willing (onHub s (λ h, AdoptEndpoint h (muxOf s) ep)) spi ent now.
Proof.
  intros [H1 H2 H3 H4 [H5 H5'] H6]. destruct (adopt_hub (hub (world s)) (muxOf s) ep) as [Ho Hi]. split; try done.
  { unfold allowPeerIKERekey in *. cbn [lastPeerIKERekey started onHub set_world]. by destruct (allowPeerRekey _ _ _ _). }
  unfold opened, openWorld, muxOf in *. cbn [onHub set_world world hub sess]. by rewrite Ho, Hi.
Qed.

Lemma served_endpoint s ep s2 x d g dh ent answer : served (onHub s (λ h, AdoptEndpoint h (muxOf s) ep)) s2 x d g dh ent answer → served s s2 x d g dh ent answer.
Proof.
  destruct (adopt_hub (hub (world s)) (muxOf s) ep) as [_ Hi]. intros [H1 H2 H3 H4 H5 H6 H7 H8]. split; try done.
  rewrite H7. change (muxOf (onHub s _)) with (muxOf s). cbn [onHub set_world world hub sess]. by rewrite Hi.
Qed.

(** ** One exchange *)

(** What a call asks, as it is sent: the session, the message, the request that
    waits and how the call goes on. *)
Definition asked (p : proc) (now : Z) : option (ikeSession * message * pendingRequest * (ikeSession → Z → res (list RawPayload) → proc)) :=
  match p with
  | Ask s ctx exchange inner k =>
      match startRequest s (mkRequest exchange inner (Some ctx) false) true now with
      | (s', Some m, Ok q) => Some (s', m, q, k)
      | _ => None
      end
  | Done _ _ => None
  end.

(** What a session answers to a datagram. *)
Definition answered (s : ikeSession) (m : message) (source : option Z) (pending : option pendingRequest) (ent : entropy) (now : Z) : option (ikeSession * message) :=
  match dispatch s (msRaw m) source pending true ent now with
  | Ok o => match ocSent o with Some (m', _) => Some (ocSession o, m') | None => None end
  | _ => None
  end.

(** The answer as the loop leaves it for the call that waits. *)
Definition taken (s : ikeSession) (m : message) (source : option Z) (q : pendingRequest) (ent : entropy) (now : Z) : option (ikeSession * res (list RawPayload)) :=
  match dispatch s (msRaw m) source (Some q) true ent now with
  | Ok o => match ocResult o with Some r => Some (ocSession o, r) | None => None end
  | _ => None
  end.

(** How a call goes on that takes it up at once. *)
Definition resumed (s : ikeSession) (m : message) (source : option Z) (q : pendingRequest) (k : ikeSession → Z → res (list RawPayload) → proc) (ent : entropy) (now : Z) : option proc :=
  '(s', r) ← taken s m source q ent now; Some (k s' now r).

Lemma request_sent s y exchange inner now : let x := ctxs s (current s) in
  sealing 1 x → mirrored x y → 0 ≤ nextLocalMID x < maxMessageID → Forall payload_ok inner → (length (encodePayloadChain inner) < 1000)%nat →
  ∃ s' raw q, startRequest s (mkRequest exchange inner (Some (current s)) false) true now = (s', Some (mkSent (current s) false (nextLocalMID x) raw true), Ok q) ∧
    arrives y exchange (requestFlags x) (nextLocalMID x) inner raw ∧
    pnContext q = current s ∧ pnMsgID q = nextLocalMID x ∧ rqExchange (pnRequest q) = exchange ∧ recounted s s' ∧
    nextPeerMID (ctxs s' (current s)) = nextPeerMID x ∧ sendIV (ctxs s' (current s)) = sendIV x + 1.
Proof.
  intros x Hse Hm Hid Hin Hl. unfold maxMessageID in Hid.
  destruct (sealed_arrives x y exchange (requestFlags x) (nextLocalMID x) inner Hse Hm ltac:(lia) Hin Hl) as (raw & Henc & Harr).
  unfold startRequest. cbn [rqContext rqExchange rqInner]. change (default (current s) (Some (current s))) with (current s). rewrite Nat.eqb_refl. cbn [negb].
  rewrite andb_false_r. cbv zeta. fold x.
  rewrite (proj2 (Z.eqb_neq (nextLocalMID x) maxMessageID)) by (unfold maxMessageID; lia). rewrite Henc. eexists _, raw, _. split; [reflexivity|]. split; [done|]. split_and!; try done.
  - eapply recounted_trans; by apply recounted_onContext.
  - unfold onContext, set_ctxs. cbn [ctxs current]. by rewrite !fn_lookup_insert.
  - unfold onContext, set_ctxs. cbn [ctxs current]. by rewrite !fn_lookup_insert.
Qed.

End pair.

Section meet.
Context {C : Crypto} {CL : CryptoLaws C} {H : Hmac} {HL : HmacLaws H} {E : ECDH} {EL : ECDHLaws E}.

Lemma arrives_fixed y y' exchange flags id inner raw : fixed y' = fixed y → arrives y exchange flags id inner raw → arrives y' exchange flags id inner raw.
Proof. intros (Ei & Er & Es & _ & E1 & E2 & E3)%fixed_spi Ha. unfold arrives, peerEncryptionKey in *. by rewrite Ei, Er, Es, E1, E2, E3. Qed.

(** The request of a rekeying is answered. *)
Lemma rekey_answered s x d g r dh pub id raw source pending ent now : let y := ctxs s (current s) in
  (current s < nctx s)%nat → mirrored x y → sealing 1 y → offering x d → supportedIKEGroup g = true → GenerateDH g r = Ok dh → PublicBytes dh = Ok pub →
  willing s (rdSPI d) ent now → arrives y CREATE_CHILD_SA (requestFlags x) id (rekeyRequest x d g pub) raw → id = nextPeerMID y → 0 ≤ id < maxMessageID →
  ∃ s' s2 answer raw2,
    dispatch s raw source pending true ent now = Ok (mkOutcome s' pending (Some (mkSent (current s) true id raw2 true, source)) None true) ∧
    served s s2 x d g dh ent answer ∧ recounted s2 s' ∧ (∀ c, c ≠ current s → ctxs s' c = ctxs s2 c) ∧
    arrives x CREATE_CHILD_SA (responseFlags y) id answer raw2.
Proof.
  intros y Hcur Hm Hse Hoff Hg Hdh Hpub Hw Harr Hid Hr.
  destruct (dispatch_request s x CREATE_CHILD_SA id (rekeyRequest x d g pub) raw source pending true ent now Hm Harr Hid) as (hdr & Eid & Eex & ->); [lia|].
  set (sE := onHub s _). destruct (rekey_served sE x d g r dh pub id ent now) as (s2 & answer & Eh & Hsv); try done; [by apply willing_endpoint|].
  assert (handleRequest sE (current s) hdr (rekeyRequest x d g pub) ent now = handleIKERekey sE (current s) id (rekeyRequest x d g pub) ent now) as ->.
  { unfold handleRequest. rewrite Eid, Eex. change (List.find _ (rekeyRequest x d g pub)) with (@None RawPayload). change (CREATE_CHILD_SA =? INFORMATIONAL) with false.
    rewrite Z.eqb_refl. change (findType (rekeyRequest x d g pub) PayloadSA) with (Some (mkPayload PayloadSA false (EncodeSA [ikeRekeyProposal (be_to 8 (rdSPI d)) (suPRFID (cxSuite x))]))).
    cbn [Body]. destruct Hoff as (_ & Hspi & Hprf). destruct (wl_entropy _ _ _ _ Hw) as [He1 He2].
    destruct (ike_rekey_agrees (rdSPI d) (enSPI64 ent) (suPRFID (cxSuite x)) g (enNonce ent) He1 Hspi He2 Hprf Hg) as (ts & suite & -> & _). done. }
  change (current sE) with (current s) in Eh. rewrite Eh. unfold response. pose proof (served_endpoint _ _ _ _ _ _ _ _ _ Hsv) as Hsv'.
  rewrite (sv_ctxs _ _ _ _ _ _ _ _ Hsv') by done. fold y. destruct (sv_payloads _ _ _ _ _ _ _ _ Hsv') as (P1 & P2 & _).
  destruct (sealed_arrives y x CREATE_CHILD_SA (responseFlags y) id answer Hse (mirrored_sym _ _ Hm)) as (raw2 & -> & Harr2); [unfold maxMessageID in *; lia | done | done|].
  cbv beta iota. rbind. cbn [default]. eexists _, s2, answer, raw2. split; [reflexivity|]. split; [done|]. split; [|split; [|done]].
  - eapply recounted_trans; by apply recounted_onContext.
  - intros c Hc. unfold onContext, set_ctxs. cbn [ctxs]. by rewrite !fn_lookup_insert_ne.
Qed.

(** ** The end of a rekeying *)

(** Releasing SPIs changes the hub alone. *)
Lemma displaced_same s d : ∃ w, releaseDisplacedLocked s d = set_world s w.
Proof.
  unfold releaseDisplacedLocked, releaseSPILocked. destruct d as [c|]; [|by exists (world s); destruct s].
  destruct (routedLocked s (spiI (ctxs s c))); [by exists (world s); destruct s | by eexists].
Qed.

Definition yields (s : ikeSession) (d : rekeyDraw) (nonce : list Z) : option nat :=
  match collision s, localRekey s with
  | Some w, Some l => if lowestNonceBelongsToFirst (rdNonce d) nonce (peerNonce l) (peerResponseNonce l) then Some w else None
  | _, _ => None
  end.

Lemma rekey_concluded s c d g dh answer new nonce now : acceptRekey (ctxs s c) d g dh answer = Ok (new, nonce) →
  (collision s ≠ None → localRekey s ≠ None) → spiI new ≠ 0 → opened s → ike (hub (world s)) !! spiI new = None →
  let s' := procSession (concludeRekey s c d g dh answer now) in
  old s' = Some c ∧ current s' = default (nctx s) (yields s d nonce) ∧ ctxs s' = <[nctx s := new]> (ctxs s) ∧
  (yields s d nonce = None → collision s' = collision s).
Proof.
  intros Hacc Hcl Hz Hop Hfree. unfold concludeRekey, yields. rewrite Hacc.
  assert (let s' := procSession (finishRekey s c new now) in old s' = Some c ∧ current s' = nctx s ∧ ctxs s' = <[nctx s := new]> (ctxs s) ∧ collision s' = collision s) as Hfin.
  { unfold finishRekey. rewrite register_free by done. unfold newContext. cbn [procSession]. unfold retainOldLocked. cbn [old set_old].
    match goal with |- context [releaseDisplacedLocked ?u ?v] => destruct (displaced_same u v) as [w ->] end. done. }
  destruct Hfin as (F1 & F2 & F3 & F4). destruct (collision s) as [w|] eqn:Ec; [|done]. destruct (localRekey s) as [l|]; [|by destruct Hcl].
  destruct (lowestNonceBelongsToFirst _ _ _ _); [|done]. unfold yieldRekey. rewrite register_free by done. unfold newContext. cbn [procSession].
  unfold retainCollisionLocked, retainOldLocked. repeat match goal with |- context [releaseDisplacedLocked ?u ?v] => destruct (displaced_same u v) as [? ->] end. done.
Qed.

(** ** Nonces *)

Lemma bytesLess_irrefl a : bytesLess a a = false.
Proof. induction a as [|x a IH]; cbn [bytesLess]; [done|]. by rewrite IH, Z.ltb_irrefl, andb_false_r. Qed.

Lemma bytesLess_trans a : ∀ b c, bytesLess a b = true → bytesLess b c = true → bytesLess a c = true.
Proof.
  induction a as [|x a IH]; intros [|y b] [|z c]; cbn [bytesLess]; try done. rewrite !orb_true_iff, !andb_true_iff, !Z.ltb_lt, !Z.eqb_eq.
  intros [?|[-> ?]] [?|[? ?]]; [left; lia | left; lia | left; lia |]. right. split; [done | by eapply IH].
Qed.

Lemma bytesLess_total a : ∀ b, a ≠ b → bytesLess a b = true ∨ bytesLess b a = true.
Proof.
  induction a as [|x a IH]; intros [|y b] Hne; cbn [bytesLess]; try done; [by left | by right|]. rewrite !orb_true_iff, !andb_true_iff, !Z.ltb_lt, !Z.eqb_eq.
  destruct (Z.lt_total x y) as [?|[->|?]]; [by left; left | | by right; left]. destruct (IH b) as [?|?]; [congruence | by left; right | by right; right].
Qed.

Lemma bytesLess_asym a b : bytesLess a b = true → bytesLess b a = false.
Proof. intros H1. apply not_true_iff_false. intros H2. pose proof (bytesLess_trans _ _ _ H1 H2) as H3. by rewrite bytesLess_irrefl in H3. Qed.

(** The lower of two nonces. *)
Definition lower (a b : list Z) : list Z := if bytesLess b a then b else a.

Lemma lower_one a b : lower a b = a ∨ lower a b = b.
Proof. unfold lower. destruct (bytesLess b a); auto. Qed.

Lemma lower_least a b v : bytesLess v (lower a b) = true → bytesLess v a = true ∧ bytesLess v b = true.
Proof.
  unfold lower. destruct (bytesLess b a) eqn:Eb; intros Hv.
  - split; [by eapply bytesLess_trans | done].
  - split; [done|]. destruct (decide (a = b)) as [->|Hne]; [done|]. destruct (bytesLess_total a b Hne) as [?|?]; [by eapply bytesLess_trans | congruence].
Qed.

Lemma lowest_lower fI fR sI sR : lowestNonceBelongsToFirst fI fR sI sR = negb (bytesLess sI (lower fI fR)) && negb (bytesLess sR (lower fI fR)).
Proof.
  unfold lowestNonceBelongsToFirst, lower. cbn [fold_left fst snd]. destruct (bytesLess fR fI); cbn [fst snd].
  - destruct (bytesLess sI fR); cbn [fst snd negb andb]; [by destruct (bytesLess sR sI) | by destruct (bytesLess sR fR)].
  - destruct (bytesLess sI fI); cbn [fst snd negb andb]; [by destruct (bytesLess sR sI) | by destruct (bytesLess sR fI)].
Qed.

(** Of two candidates whose nonces differ exactly one has the lowest, whichever
    side looks. *)
Lemma lowest_decides fI fR sI sR : fI ≠ sI → fI ≠ sR → fR ≠ sI → fR ≠ sR →
  lowestNonceBelongsToFirst fI fR sI sR = negb (lowestNonceBelongsToFirst sI sR fI fR).
Proof.
  intros N1 N2 N3 N4. rewrite !lowest_lower.
  assert (lower fI fR ≠ sI ∧ lower fI fR ≠ sR) as [M1 M2] by (destruct (lower_one fI fR) as [-> | ->]; done).
  destruct (bytesLess_total _ _ M1) as [L1|L1].
  - destruct (bytesLess_total _ _ M2) as [L2|L2].
    + rewrite (bytesLess_asym _ _ L1), (bytesLess_asym _ _ L2). assert (bytesLess (lower fI fR) (lower sI sR) = true) as L by (by destruct (lower_one sI sR) as [-> | ->]).
      destruct (lower_one fI fR) as [Hl|Hl]; rewrite Hl in L; rewrite L; [done|]. by rewrite andb_false_r.
    + rewrite L2, andb_false_r. apply lower_least in L2 as [L3 L4].
      assert (∀ v, bytesLess sR v = true → bytesLess v (lower sI sR) = false) as Hv.
      { intros v Hv. apply not_true_iff_false. intros [_ Hx]%lower_least. by rewrite (bytesLess_asym _ _ Hv) in Hx. }
      by rewrite (Hv fI L3), (Hv fR L4).
  - rewrite L1. apply lower_least in L1 as [L3 L4].
    assert (∀ v, bytesLess sI v = true → bytesLess v (lower sI sR) = false) as Hv.
    { intros v Hv. apply not_true_iff_false. intros [Hx _]%lower_least. by rewrite (bytesLess_asym _ _ Hv) in Hx. }
    by rewrite (Hv fI L3), (Hv fR L4).
Qed.

(** ** The request and the answer *)

Definition begun (a : ikeSession) (d : rekeyDraw) : ikeSession := set_localRekey a (Some (mkRekey (current a) (rdSPI d) (rdNonce d) [] [])).

(** How the call goes on. *)
Definition concludes (k : ikeSession → Z → res (list RawPayload) → proc) (c : nat) (d : rekeyDraw) (dh : DHKeyPair) : Prop :=
  ∀ s now answer, retryGroup answer = Ok 0 → k s now (Ok answer) = concludeRekey s c d DH_CURVE25519 dh answer now.

Lemma request_parts x d pub : draw_ok d → (length pub < 200)%nat → let inner := rekeyRequest x d DH_CURVE25519 pub in
  Forall payload_ok inner ∧ (length (encodePayloadChain inner) < 1000)%nat.
Proof.
  intros Hd Hpl inner. unfold draw_ok in Hd. unfold inner, rekeyRequest. set (p := ikeRekeyProposal _ _).
  assert (length (EncodeSA [p]) ≤ 120)%nat as Hl.
  { pose proof (length_EncodeSA_one p) as Hl. assert (length (SPI p) = 8%nat) as Hs by apply length_be_to. rewrite Hs in Hl.
    pose proof (List.filter_length_le (λ t, negb (trType t =? TransPRF) || (trID t =? suPRFID (cxSuite x))) (Transforms ikeProposal)) as Hf.
    change (length (Transforms ikeProposal)) with 8%nat in Hf. change (length (Transforms p) ≤ 8)%nat in Hf. lia. }
  split.
  - repeat constructor; cbn [Body Type_]; unfold EncodeNonce, PayloadSA, PayloadNonce, PayloadKE; rewrite ?length_EncodeKE; lia.
  - rewrite !length_chain_cons. cbn [length Body encodePayloadChain]. unfold EncodeNonce. rewrite length_EncodeKE. unfold genericPayloadHeaderLen. lia.
Qed.

Lemma rekey_asked a d y now : let x := ctxs a (current a) in
  sealing 1 x → mirrored x y → 0 ≤ nextLocalMID x < maxMessageID → offering x d →
  ∃ a1 raw q k dh pub, asked (RekeyIKE a d) now = Some (a1, mkSent (current a) false (nextLocalMID x) raw true, q, k) ∧
    GenerateDH DH_CURVE25519 (rdDH d 1) = Ok dh ∧ PublicBytes dh = Ok pub ∧
    arrives y CREATE_CHILD_SA (requestFlags x) (nextLocalMID x) (rekeyRequest x d DH_CURVE25519 pub) raw ∧
    (pnContext q = current a ∧ pnMsgID q = nextLocalMID x ∧ rqExchange (pnRequest q) = CREATE_CHILD_SA) ∧ recounted (begun a d) a1 ∧
    (nextPeerMID (ctxs a1 (current a)) = nextPeerMID x ∧ sendIV (ctxs a1 (current a)) = sendIV x + 1) ∧ concludes k (current a) d dh.
Proof.
  intros x Hse Hm Hid (Hd & Hspi & Hprf). unfold RekeyIKE. fold (begun a d). cbn [attemptRekey]. change (ctxs (begun a d) (current a)) with x.
  change (current (begun a d)) with (current a). assert (∃ dh, GenerateDH DH_CURVE25519 (rdDH d 1) = Ok dh) as [dh Hdh] by (by eexists).
  rewrite Hdh. destruct (GenerateDH_public _ _ _ Hdh) as (_ & pub & Hpub & Hpl & _). rewrite Hpub.
  destruct (request_parts x d pub Hd Hpl) as [P1 P2]. unfold asked.
  destruct (request_sent (begun a d) y CREATE_CHILD_SA (rekeyRequest x d DH_CURVE25519 pub) now Hse Hm Hid P1 P2) as (s' & raw & q & Hst & Harr & Q1 & Q2 & Q3 & Hre & Hp & Hiv).
  change (current (begun a d)) with (current a) in *. change (ctxs (begun a d)) with (ctxs a) in *. rewrite Hst. eexists s', raw, q, _, dh, pub. split_and!; try done.
  intros s now' answer Hrt. by rewrite Hrt.
Qed.

Lemma rekey_resumed s y c d dh q k answer raw m source ent now : let x := ctxs s (current s) in
  current s = c → mirrored x y → arrives x CREATE_CHILD_SA (responseFlags y) (pnMsgID q) answer raw → msRaw m = raw →
  pnContext q = c → rqExchange (pnRequest q) = CREATE_CHILD_SA → Forall (λ q, Critical q = false) answer → retryGroup answer = Ok 0 → concludes k c d dh →
  taken s m source q ent now = Some (s, Ok answer) ∧ resumed s m source q k ent now = Some (concludeRekey s c d DH_CURVE25519 dh answer now).
Proof.
  intros x Hc Hm Harr Hraw Hq Hx Hcr Hrt Hk. unfold resumed, taken. rewrite Hraw.
  rewrite (dispatch_response s y CREATE_CHILD_SA (pnMsgID q) answer raw source q true ent now (mirrored_sym _ _ Hm) Harr); [|congruence | done | done | done].
  cbn [ocResult ocSession]. split; [done|]. cbn. by rewrite Hk.
Qed.

(** What else a session may do while the answer waits to be taken up: its SAs stay
    where they are, and no SPI is registered. *)
Record undisturbed (s s' : ikeSession) : Prop := mkUndisturbed {
  un_places : current s' = current s ∧ collision s' = collision s ∧ localRekey s' = localRekey s;
  un_nctx : (nctx s ≤ nctx s')%nat;
  un_fixed : ∀ c, (c < nctx s)%nat → fixed (ctxs s' c) = fixed (ctxs s c);
  un_open : opened s → opened s';
  un_free : ∀ spi, ike (hub (world s)) !! spi = None → ike (hub (world s')) !! spi = None }.

Lemma undisturbed_refl s : undisturbed s s.
Proof. by split. Qed.

Lemma accept_fixed x x' d g dh answer : fixed x' = fixed x → acceptRekey x' d g dh answer = acceptRekey x d g dh answer.
Proof. intros (_ & _ & Es & Ed & _)%fixed_spi. unfold acceptRekey. by rewrite Es, Ed. Qed.

(** ** One side rekeys *)

(** The two ends of a session whose SA is about to be rekeyed: the next request of
    [a] is the one [b] waits for. *)
Record facing (a b : ikeSession) : Prop := mkFacing {
  fa_mirrored : mirrored (ctxs a (current a)) (ctxs b (current b));
  fa_sealing : sealing 2 (ctxs a (current a)) ∧ sealing 2 (ctxs b (current b));
  fa_held : (current a < nctx a)%nat ∧ (current b < nctx b)%nat;
  fa_id : nextLocalMID (ctxs a (current a)) = nextPeerMID (ctxs b (current b)) ∧ 0 ≤ nextLocalMID (ctxs a (current a)) < maxMessageID }.

Lemma sealing_less n n' x : n' ≤ n → sealing n x → sealing n' x.
Proof. intros Hn [H1 H2 H3]. split; try done. lia. Qed.

(** C11: One side rekeys the IKE SA and the other is willing: the request it sends is
    answered, the answer is taken, and both now use the same new SA - the same
    suite, keys and SPIs, one as its initiator and one as its responder, both able
    to seal - and keep the one it replaced until it is deleted. *)
Theorem rekeyed_alike a b d ent now source source' ent' :
  facing a b → offering (ctxs a (current a)) d → willing b (rdSPI d) ent now → localRekey b = None →
  collision a = None → opened a → ike (hub (world a)) !! rdSPI d = None →
  ∃ a1 m q k b1 m' p,
    asked (RekeyIKE a d) now = Some (a1, m, q, k) ∧ answered b m source None ent now = Some (b1, m') ∧
    resumed a1 m' source' q k ent' now = Some p ∧
    let a2 := procSession p in
    mirrored (ctxs a2 (current a2)) (ctxs b1 (current b1)) ∧ spiI (ctxs a2 (current a2)) = rdSPI d ∧
    sealing 1 (ctxs a2 (current a2)) ∧ sealing 1 (ctxs b1 (current b1)) ∧ old a2 = Some (current a) ∧ old b1 = Some (current b).
Proof.
  intros [Hm [Sa Sb] [La Lb] [Hid Hr]] Hoff Hw Hlb Hca Hoa Hfa.
  apply (sealing_less 2 1) in Sa, Sb; [|lia..].
  destruct (rekey_asked a d (ctxs b (current b)) now Sa Hm Hr Hoff) as (a1 & raw & q & k & dh & pub & Hask & Hdh & Hpub & Harr & (Q1 & Q2 & Q3) & [Ea Fa] & _ & Hk).
  destruct (rekey_answered b (ctxs a (current a)) d DH_CURVE25519 _ dh pub _ raw source None ent now Lb Hm Sb Hoff eq_refl Hdh Hpub Hw Harr Hid Hr)
    as (b1 & b2 & answer & raw2 & Hdis & Hsv & [Eb Fb] & Cb & Harr2).
  pose proof Hsv as [V1 V2 (new & Hacc & Hmn & Sn & Sn' & Hsp) (_ & _ & P3 & P4) V5 V6 V7 V8]. rewrite Hlb in V8. destruct V8 as (W1 & W2 & _).
  assert (current a1 = current a ∧ nctx a1 = nctx a ∧ collision a1 = None ∧ world a1 = world a) as (A1 & A2 & A3 & A4) by (rewrite Ea; done).
  assert (current b1 = nctx b ∧ old b1 = Some (current b)) as [B1 B2] by (rewrite Eb; cbn [set_ctxs current old]; by rewrite W1).
  exists a1, (mkSent (current a) false (nextLocalMID (ctxs a (current a))) raw true), q, k, b1, (mkSent (current b) true (nextLocalMID (ctxs a (current a))) raw2 true).
  exists (concludeRekey a1 (current a) d DH_CURVE25519 dh answer now). split; [done|]. split; [unfold answered; cbn [msRaw]; by rewrite Hdis|].
  pose proof (Fa (current a)) as Fx. change (ctxs (begun a d)) with (ctxs a) in Fx.
  split.
  { eapply (rekey_resumed a1 (ctxs b (current b)) (current a) d dh q k answer raw2); try done; rewrite A1.
    - by apply (mirrored_fixed (ctxs a (current a)) _ (ctxs b (current b)) _ Fx eq_refl).
    - rewrite Q2. by apply (arrives_fixed (ctxs a (current a))). }
  destruct (rekey_concluded a1 (current a) d DH_CURVE25519 dh answer new (enNonce ent) now) as (R1 & R2 & R3 & _).
  { by rewrite (accept_fixed _ _ _ _ _ _ Fx). } { by rewrite A3. } { rewrite Hsp. destruct Hoff as (_ & ? & _). lia. }
  { unfold opened. by rewrite A4. } { by rewrite A4, Hsp. }
  cbv zeta. unfold yields in R2. rewrite A3 in R2. cbn [default] in R2. rewrite R2, R3, fn_lookup_insert, B1.
  assert (fixed (ctxs b1 (nctx b)) = fixed (ctxs b2 (nctx b))) as Fn by apply Fb.
  split_and!; try done.
  - by apply (mirrored_fixed new _ (ctxs b2 (nctx b)) _ eq_refl Fn).
  - by apply (sealing_less (2 ^ 63)); [lia|].
  - rewrite Cb by lia. by apply (sealing_less (2 ^ 63)); [lia|].
Qed.

(** ** Both sides rekey at once *)

Lemma willing_begun a d spi ent now : rdSPI d ≠ spi → willing a spi ent now → willing (begun a d) spi ent now.
Proof.
  intros Hne [H1 H2 H3 (H4 & H5 & _) H6 H7]. split; try done.
  - split; [by right | apply H1].
  - unfold allowPeerIKERekey in *. cbn [begun set_localRekey lastPeerIKERekey started]. by destruct (allowPeerRekey _ _ _ _).
  - split; [done|]. split; [done|]. by intros l [= <-].
Qed.

(** A session that has asked to rekey to [rdSPI d], and answered the request of the
    peer's to rekey to [rdSPI e]. *)
Record crossed (a a2 : ikeSession) (y : ikeContext) (d e : rekeyDraw) (dh : DHKeyPair) (ent : entropy) (answer : list RawPayload) : Prop := mkCrossed {
  cr_current : current a2 = current a;
  cr_nctx : nctx a2 = S (nctx a);
  cr_collision : collision a2 = Some (nctx a);
  cr_local : localRekey a2 = Some (mkRekey (current a) (rdSPI d) (rdNonce d) (rdNonce e) (enNonce ent));
  cr_fixed : fixed (ctxs a2 (current a)) = fixed (ctxs a (current a));
  cr_new : ∃ new, acceptRekey y e DH_CURVE25519 dh answer = Ok (new, enNonce ent) ∧ mirrored new (ctxs a2 (nctx a)) ∧ spiI new = rdSPI e;
  cr_answer : Forall (λ q, Critical q = false) answer ∧ retryGroup answer = Ok 0;
  cr_open : opened a2;
  cr_hub : ike (hub (world a2)) = <[rdSPI e := muxOf a]> (ike (hub (world a))) }.

Lemma rekey_crossed a a1 y d e r dh pub id raw source pending ent now m : let x := ctxs a (current a) in
  (current a < nctx a)%nat → mirrored y x → sealing 2 x → recounted (begun a d) a1 →
  nextPeerMID (ctxs a1 (current a)) = nextPeerMID x → sendIV (ctxs a1 (current a)) = sendIV x + 1 →
  willing a (rdSPI e) ent now → rdSPI d ≠ rdSPI e → offering y e → GenerateDH DH_CURVE25519 r = Ok dh → PublicBytes dh = Ok pub →
  arrives x CREATE_CHILD_SA (requestFlags y) id (rekeyRequest y e DH_CURVE25519 pub) raw → msRaw m = raw → id = nextPeerMID x → 0 ≤ id < maxMessageID →
  ∃ a2 answer raw2, answered a1 m source pending ent now = Some (a2, mkSent (current a) true id raw2 true) ∧
    arrives y CREATE_CHILD_SA (responseFlags x) id answer raw2 ∧ crossed a a2 y d e dh ent answer.
Proof.
  intros x Hlt Hm [K1 K2 K3] [Ea Fa] Hp Hiv Hw Hne Hoff Hdh Hpub Harr Hraw Hid Hr.
  assert (current a1 = current a ∧ nctx a1 = nctx a ∧ localRekey a1 = localRekey (begun a d) ∧ muxOf a1 = muxOf a ∧ world a1 = world a) as (A1 & A2 & A3 & A4 & A5) by (rewrite Ea; done).
  assert (fixed (ctxs a1 (current a1)) = fixed x) as Fx by (rewrite A1; apply Fa). pose proof (fixed_spi _ _ Fx) as (X1 & X2 & X3 & _ & X4 & X5 & X6).
  destruct (rekey_answered a1 y e DH_CURVE25519 r dh pub id raw source pending ent now) as (a2 & s2 & answer & raw2 & Hdis & Hsv & [E2 F2] & Cs & Harr2); try done.
  { by rewrite A1, A2. }
  { by apply (mirrored_fixed y _ x). }
  { split; rewrite ?X1, ?X2, ?X3, ?X4, ?X5; try done. rewrite A1, Hiv. lia. }
  { apply (willing_recounted (begun a d)); [done|]. by apply willing_begun. }
  { by apply (arrives_fixed x). }
  { by rewrite A1, Hp. }
  exists a2, answer, raw2. unfold answered. rewrite Hraw, Hdis, A1. split; [done|].
  split; [unfold responseFlags in *; by rewrite X6 in Harr2|].
  destruct Hsv as [V1 V2 (new & Hacc & Hmn & _ & _ & Hsp) (_ & _ & P3 & P4) V5 V6 V7 V8]. rewrite A3 in V8. cbn [begun set_localRekey localRekey] in V8.
  destruct V8 as (W1 & W2 & W3 & W4). rewrite A2 in *.
  assert (current a2 = current s2 ∧ nctx a2 = nctx s2 ∧ collision a2 = collision s2 ∧ localRekey a2 = localRekey s2 ∧ world a2 = world s2) as (B1 & B2 & B3 & B4 & B5) by (rewrite E2; done).
  split; [congruence | congruence | congruence | by rewrite B4, W4 | | | done | unfold opened in *; by rewrite B5 | by rewrite B5, V7, A4, A5].
  - rewrite F2, V2 by done. apply Fa.
  - exists new. split; [done|]. split; [|done]. rewrite Cs; [done | lia].
Qed.

(** What one end of a crossing does once it takes up its answer: it has its own
    candidate, and goes over to the peer's or not. *)
Lemma crossed_concludes a a2 a4 y d e dh dh' ent ent' answer answer' now : (current a < nctx a)%nat → crossed a a2 y d e dh ent answer → undisturbed a2 a4 →
  rdSPI d ≠ rdSPI e → rdSPI d ≠ 0 → ike (hub (world a)) !! rdSPI d = None →
  (∃ new, acceptRekey (ctxs a (current a)) d DH_CURVE25519 dh' answer' = Ok (new, enNonce ent') ∧ spiI new = rdSPI d) →
  let loses := lowestNonceBelongsToFirst (rdNonce d) (enNonce ent') (rdNonce e) (enNonce ent) in
  let s := procSession (concludeRekey a4 (current a) d DH_CURVE25519 dh' answer' now) in
  old s = Some (current a) ∧
  (loses = true → fixed (ctxs s (current s)) = fixed (ctxs a2 (nctx a))) ∧
  (loses = false → ∀ new, acceptRekey (ctxs a (current a)) d DH_CURVE25519 dh' answer' = Ok (new, enNonce ent') → ctxs s (current s) = new).
Proof.
  intros Hlt [C1 C2 C3 C4 C5 _ _ C8 C9] [(U1 & U2 & U3) U4 U5 U6 U7] Hne Hz Hfree (new & Hacc & Hspi) loses s.
  assert (acceptRekey (ctxs a4 (current a)) d DH_CURVE25519 dh' answer' = Ok (new, enNonce ent')) as Hacc4.
  { rewrite (accept_fixed (ctxs a2 (current a))) by (apply U5; lia). by rewrite (accept_fixed _ _ _ _ _ _ C5). }
  destruct (rekey_concluded a4 (current a) d DH_CURVE25519 dh' answer' new (enNonce ent') now Hacc4) as (R1 & R2 & R3 & _).
  { by rewrite U3, C4. } { by rewrite Hspi. } { by apply U6. } { apply U7. by rewrite Hspi, C9, lookup_insert_ne. }
  fold s in R1, R2, R3. unfold yields in R2. rewrite U2, U3, C3, C4 in R2. cbn [peerNonce peerResponseNonce] in R2. fold loses in R2.
  split; [done|]. rewrite R3, R2. split; intros ->; cbn [default from_option id].
  - rewrite fn_lookup_insert_ne by lia. apply U5. lia.
  - intros new' Hn. rewrite fn_lookup_insert. congruence.
Qed.

(** Both ends of a crossing end with the same SA. *)
Lemma crossed_choice a b a2 b2 a4 b4 dA dB dhA dhB entA entB answerA answerB nowA nowB :
  (current a < nctx a)%nat → (current b < nctx b)%nat →
  crossed a a2 (ctxs b (current b)) dA dB dhB entA answerA → crossed b b2 (ctxs a (current a)) dB dA dhA entB answerB →
  undisturbed a2 a4 → undisturbed b2 b4 → rdSPI dA ≠ rdSPI dB → rdSPI dA ≠ 0 → rdSPI dB ≠ 0 →
  ike (hub (world a)) !! rdSPI dA = None → ike (hub (world b)) !! rdSPI dB = None →
  rdNonce dA ≠ rdNonce dB → rdNonce dA ≠ enNonce entA → enNonce entB ≠ rdNonce dB → enNonce entB ≠ enNonce entA →
  let a5 := procSession (concludeRekey a4 (current a) dA DH_CURVE25519 dhA answerB nowA) in
  let b5 := procSession (concludeRekey b4 (current b) dB DH_CURVE25519 dhB answerA nowB) in
  mirrored (ctxs a5 (current a5)) (ctxs b5 (current b5)) ∧ old a5 = Some (current a) ∧ old b5 = Some (current b).
Proof.
  intros La Lb CA CB UA UB Hne Za Zb FA FB N1 N2 N3 N4 a5 b5.
  pose proof CA as [_ _ _ _ _ (newB & AccB & MirB & SpB) _ _ _]. pose proof CB as [_ _ _ _ _ (newA & AccA & MirA & SpA) _ _ _].
  destruct (crossed_concludes a a2 a4 _ dA dB dhB dhA entA entB answerA answerB nowA La CA UA Hne Za FA ltac:(by exists newA)) as (OA & YA & WA).
  destruct (crossed_concludes b b2 b4 _ dB dA dhA dhB entB entA answerB answerA nowB Lb CB UB (not_eq_sym Hne) Zb FB ltac:(by exists newB)) as (OB & YB & WB).
  split; [|done]. fold a5 in YA, WA. fold b5 in YB, WB. rewrite (lowest_decides (rdNonce dA) (enNonce entB) (rdNonce dB) (enNonce entA)) in YA, WA by done.
  destruct (lowestNonceBelongsToFirst (rdNonce dB) (enNonce entA) (rdNonce dA) (enNonce entB)); cbn [negb] in *.
  - rewrite (WA eq_refl newA AccA). by apply (mirrored_fixed newA _ (ctxs b2 (nctx b))); [| apply YB |].
  - rewrite (WB eq_refl newB AccB). apply mirrored_sym. by apply (mirrored_fixed newB _ (ctxs a2 (nctx a))); [| apply YA |].
Qed.

(** C10: Both sides rekey the IKE SA at once, each answering the other's request while
    its own waits, and each end has the other's answer. Whenever the two calls take
    up their answers, and whatever their sessions did before, as long as no Delete
    or expiry has moved an SA there: unless their nonces are equal both choose the
    same one of the two candidates, so that the two ends use the same new SA -
    suite, keys and SPIs - and keep the one it replaced until it is deleted. A
    Delete of the replaced SA served before the losing call takes up its answer is
    the case of [late_delete_overrides]. *)
Theorem crossed_alike a b dA dB entA entB now source source' :
  facing a b → facing b a → offering (ctxs a (current a)) dA → offering (ctxs b (current b)) dB →
  willing a (rdSPI dB) entA now → willing b (rdSPI dA) entB now → rdSPI dA ≠ rdSPI dB →
  ike (hub (world a)) !! rdSPI dA = None → ike (hub (world b)) !! rdSPI dB = None →
  rdNonce dA ≠ rdNonce dB → rdNonce dA ≠ enNonce entA → enNonce entB ≠ rdNonce dB → enNonce entB ≠ enNonce entA →
  ∃ a1 mA qA kA b1 mB qB kB a2 mA' b2 mB' a3 rA b3 rB,
    asked (RekeyIKE a dA) now = Some (a1, mA, qA, kA) ∧ asked (RekeyIKE b dB) now = Some (b1, mB, qB, kB) ∧
    answered a1 mB source (Some qA) entA now = Some (a2, mA') ∧ answered b1 mA source' (Some qB) entB now = Some (b2, mB') ∧
    taken a2 mB' source qA entA now = Some (a3, rA) ∧ taken b2 mA' source' qB entB now = Some (b3, rB) ∧
    ∀ a4 nowA b4 nowB, undisturbed a3 a4 → undisturbed b3 b4 →
    let a5 := procSession (kA a4 nowA rA) in let b5 := procSession (kB b4 nowB rB) in
    mirrored (ctxs a5 (current a5)) (ctxs b5 (current b5)) ∧ old a5 = Some (current a) ∧ old b5 = Some (current b).
Proof.
  intros [Hm [Sa Sb] [La Lb] [IdA RA]] [Hm' _ _ [IdB RB]] OA OB WA WB Hne FA FB N1 N2 N3 N4.
  set (x := ctxs a (current a)) in *. set (y := ctxs b (current b)) in *.
  destruct (rekey_asked a dA y now) as (a1 & rawA & qA & kA & dhA & pubA & HaskA & HdhA & HpubA & ArrA & (QA1 & QA2 & QA3) & RecA & [PA IA] & KA); try done; [by apply (sealing_less 2); [lia|]|].
  destruct (rekey_asked b dB x now) as (b1 & rawB & qB & kB & dhB & pubB & HaskB & HdhB & HpubB & ArrB & (QB1 & QB2 & QB3) & RecB & [PB IB] & KB); try done; [by apply (sealing_less 2); [lia|]|].
  destruct (rekey_crossed a a1 y dA dB (rdDH dB 1) dhB pubB (nextLocalMID y) rawB source (Some qA) entA now (mkSent (current b) false (nextLocalMID y) rawB true))
    as (a2 & answerA & rawA2 & HansA & ArrA2 & CA); try done.
  destruct (rekey_crossed b b1 x dB dA (rdDH dA 1) dhA pubA (nextLocalMID x) rawA source' (Some qB) entB now (mkSent (current a) false (nextLocalMID x) rawA true))
    as (b2 & answerB & rawB2 & HansB & ArrB2 & CB); try done.
  pose proof CA as [CA1 _ _ _ CA5 _ [CrA RtA] _ _]. pose proof CB as [CB1 _ _ _ CB5 _ [CrB RtB] _ _].
  exists a1, (mkSent (current a) false (nextLocalMID x) rawA true), qA, kA, b1, (mkSent (current b) false (nextLocalMID y) rawB true), qB, kB.
  exists a2, (mkSent (current a) true (nextLocalMID y) rawA2 true), b2, (mkSent (current b) true (nextLocalMID x) rawB2 true).
  exists a2, (Ok answerB), b2, (Ok answerA).
  do 4 (split; [done|]).
  split.
  { eapply (rekey_resumed a2 y (current a) dA dhA qA kA answerB rawB2); try done; rewrite CA1.
    - by apply (mirrored_fixed x _ y).
    - rewrite QA2. by apply (arrives_fixed x). }
  split.
  { eapply (rekey_resumed b2 x (current b) dB dhB qB kB answerA rawA2); try done; rewrite CB1.
    - by apply (mirrored_fixed y _ x).
    - rewrite QB2. by apply (arrives_fixed y). }
  intros a4 nowA b4 nowB UA UB. cbv zeta. rewrite (KA _ _ _ RtB), (KB _ _ _ RtA).
  destruct OA as (_ & ZA & _), OB as (_ & ZB & _). eapply (crossed_choice a b a2 b2 a4 b4 dA dB dhA dhB entA entB); try done; lia.
Qed.

(** The answer to our rekeying has come, but the call has not looked at the session
    yet, when the peer deletes the SA both rekeyed: the loop adopts the peer's new
    SA, and the call then puts its own in its place, though the peer's has won. The
    adopted SA is in none of the places any more. *)
Lemma late_delete_overrides s w l d g dh answer new nonce now : let c := current s in
  collision s = Some w → localRekey s = Some l → w ≠ c → (w < nctx s)%nat → acceptRekey (ctxs s c) d g dh answer = Ok (new, nonce) →
  spiI new ≠ 0 → opened s → ike (hub (world s)) !! spiI new = None →
  let s1 := (adoptCollisionOnPeerDelete s c).1 in let s2 := procSession (concludeRekey s1 c d g dh answer now) in
  current s1 = w ∧ current s2 = nctx s ∧ ctxs s2 (current s2) = new ∧ w ∉ held s2.
Proof.
  intros c Hw Hl Hne Hlt Hacc Hz Hop Hfree s1 s2. unfold s2. assert (∃ u, s1 = set_world (set_localRekey (set_collision (set_current s w) None (collisionBy s)) None) u ∧
    isClosed (hub u) (mux (sess u)) = false ∧ ike (hub u) !! spiI new = None) as (u & -> & Hu1 & Hu2).
  { unfold s1, adoptCollisionOnPeerDelete. rewrite Hw, Hl. fold c. rewrite Nat.eqb_refl. cbn [negb fst]. unfold releaseSPILocked.
    destruct (routedLocked _ _); [by exists (world s)|]. eexists. split; [reflexivity|].
    destruct (unregister_hub (hub (world s)) (muxOf s) (spiI (ctxs s c))) as (Hc & _). split; [exact (eq_trans Hc Hop)|].
    cbn [hub onHub set_world world ike UnregisterIKE set_tables]. unfold unclaim. change (hub (world _)) with (hub (world s)).
    destruct (ike (hub (world s)) !! spiI (ctxs s c)) as [m|]; [|done]. destruct (m =? _)%nat; [|done]. by apply lookup_delete_None; right. }
  set (s1' := set_world _ u). destruct (rekey_concluded s1' c d g dh answer new nonce now Hacc) as (R1 & R2 & R3 & R4); try done.
  change (nctx s1') with (nctx s) in *. assert (yields s1' d nonce = None) as Hy by done. rewrite Hy in R2, R4. cbn [default] in R2.
  specialize (R4 eq_refl). change (collision s1') with (@None nat) in R4. split; [done|]. split; [done|]. rewrite R2, R3. split; [by rewrite fn_lookup_insert|].
  unfold held. rewrite R1, R2, R4. rewrite not_elem_of_cons. split; [lia|]. by intros ?%list_elem_of_singleton.
Qed.

End meet.
