(* ===== verification/IkeEnds.v ===== *)
(** * Calls end

    However its exchanges are answered, a call returns after a few of them; and a
    request that waits is sent a bounded number of times. *)

From S2P Require Import Prelude Netip Store Esp IkeMessage IkePayload IkeSa IkeSk IkeProposal TransHub Tunnel IkeChild IkeSession IkeServe IkeExchange IkeRekey IkeRun.

Section ends.
Context {C : Crypto} {H : Hmac} {E : ECDH}.

(** A call that goes on with one answer after another, each with the session and
    the clock it comes at. *)
Fixpoint carried (p : proc) (answers : list (ikeSession * Z * res (list RawPayload))) : proc :=
  match p, answers with
  | Ask _ _ _ _ k, (s, now, r) :: rest => carried (k s now r) rest
  | _, _ => p
  end.

Definition returned (p : proc) : bool := match p with Done _ _ => true | Ask _ _ _ _ _ => false end.

(** A call of at most [n] exchanges. *)
Fixpoint within (n : nat) (p : proc) : Prop :=
  match p, n with
  | Done _ _, _ => True
  | Ask _ _ _ _ k, S n => ∀ s now r, within n (k s now r)
  | Ask _ _ _ _ _, O => False
  end.

Lemma within_done n s r : within n (Done s r).
Proof. by destruct n. Qed.

Lemma within_ask n s ctx ex inner k : (∀ s' now r, within n (k s' now r)) → within (S n) (Ask s ctx ex inner k).
Proof. done. Qed.

Lemma within_carried n : ∀ p answers, within n p → (n ≤ length answers)%nat → returned (carried p answers) = true.
Proof.
  induction n as [|n IH]; intros [s r|s ctx ex inner k] answers Hw Hl; cbn [within] in Hw; try done; try by destruct answers.
  destruct answers as [|[[s' now] r] rest]; [cbn in Hl; lia|]. cbn [carried]. apply IH; [done | cbn in Hl; lia].
Qed.

Lemma within_return n s c r : within n (returnRekey s c r).
Proof. apply within_done. Qed.

Lemma within_finish n s c new now : within (S n) (finishRekey s c new now).
Proof. unfold finishRekey. destruct (RegisterIKE _ _ _); [|apply within_return..]. unfold newContext. cbn [within]. intros. apply within_return. Qed.

Lemma within_yield n s c w new now : within (S n) (yieldRekey s c w new now).
Proof. unfold yieldRekey. destruct (RegisterIKE _ _ _); [|apply within_return..]. unfold newContext. cbn [within]. intros. apply within_return. Qed.

Lemma within_conclude n s c d g dh ps now : within (S n) (concludeRekey s c d g dh ps now).
Proof.
  unfold concludeRekey. destruct (acceptRekey _ _ _ _ _) as [[new nonce]| |]; [|apply within_return..].
  destruct (collision s); [|apply within_finish]. destruct (localRekey s); [|apply within_return]. destruct (lowestNonceBelongsToFirst _ _ _ _); [apply within_yield | apply within_finish].
Qed.

Lemma within_attempt more : ∀ s c d g, within (2 + more) (attemptRekey more s c d g).
Proof.
  induction more as [|more IH]; intros s c d g; cbn [attemptRekey Nat.add];
    (destruct (GenerateDH _ _) as [dh| |]; [|apply within_return..]); (destruct (PublicBytes dh); [|apply within_return..]); intros s' now r;
    (destruct r as [ps| |]; [|apply within_return..]); (destruct (retryGroup ps) as [retry| |]; [|apply within_return..]);
    (destruct (retry =? 0); [apply within_conclude|]); [apply within_return|]. destruct (supportedIKEGroup retry); [apply IH | apply within_return].
Qed.

(** [ret] takes at most [n] exchanges more. *)
Definition continues (n : nat) (ret : childReturn) : Prop := ∀ s now r, within n (ret s now r).

Lemma within_more n : ∀ m p, (n ≤ m)%nat → within n p → within m p.
Proof.
  induction n as [|n IH]; intros m [s r|s ctx ex inner k] Hm; try by destruct m. destruct m as [|m]; [lia|]. cbn [within].
  intros Hk s' now r. apply IH; [lia | done].
Qed.

Lemma within_negotiate n s now o ent ret : continues n ret → within (2 + n) (negotiateChild s now o ent ret).
Proof.
  intros Hret. assert (∀ m s now r, (n ≤ m)%nat → within m (ret s now r)) as Hret1 by (intros; by apply (within_more n); [|apply Hret]).
  assert (∀ s spi e, within (S n) (orphaned s spi e ret)) as Ho by (intros; unfold orphaned; apply within_ask; intros; apply Hret).
  assert (∀ s o, within (S n) (retireReplaced s o ret)) as Hr.
  { intros s0 o0. unfold retireReplaced. apply within_ask. intros s1 now1 r. destruct (retireChild _ _ _) as [w x]. destruct r, x; apply Hret. }
  unfold negotiateChild. destruct (canReplaceChild _ _); [|apply Hret1; lia..]. apply (within_ask (S n)). intros s' now' r. destruct r as [ps| |]; [|apply Hret1; lia..]. destruct (acceptedChild _ _ _ _) as [[child|nt]| |]; [|apply Hret1; lia | apply Ho | apply Hret1; lia].
  destruct (replaceChild _ _ _) as [w []]; [|apply Ho | apply Hret1; lia]. destruct o; [apply Hr | apply Hret1; lia].
Qed.

Lemma within_child s now b ent ent' : within 4 (rekeyChild s now b ent ent').
Proof.
  assert (∀ n, continues n returnChild) as Hrc by (intros n s' now' r; apply within_done).
  unfold rekeyChild. destruct (childRekeying s); [done|]. destruct (_ && _); [apply (within_more 2); [lia|]; by apply within_negotiate|].
  destruct (_ || _); [apply Hrc|]. apply within_negotiate. intros s' now' r. destruct r as [r|nt]; [apply Hrc|].
  destruct (negb (nType nt =? N_CHILD_SA_NOT_FOUND)); [apply Hrc|]. destruct (_ || _); [apply Hrc|].
  destruct (forgetChild _ _ _) as [w []]; [by apply within_negotiate | apply Hrc..].
Qed.

(** ** Retransmissions *)

(** The request that waits, first sent at [first] and again at [times]. *)
Definition resent (req : localRequest) (ctx : nat) (id : Z) (raw : list Z) (first : Z) (times : list Z) : pendingRequest :=
  fold_left sendPending times (sendPending (mkPending req ctx id raw 0 0 0) first).

Lemma resent_counts req ctx id raw first times : let p := resent req ctx id raw first times in
  pnRequest p = req ∧ pnRaw p = raw ∧ pnSent p = 1 + Z.of_nat (length times) ∧ pnAttempts p = Z.min (1 + Z.of_nat (length times)) maxRetransmits ∧
  pnDeadline p = List.last times first + retransmitDelay (pnAttempts p).
Proof.
  unfold resent. induction times as [|t l IH] using rev_ind; [done|]. rewrite fold_left_app, length_app, List.last_last. cbn [fold_left sendPending length pnRequest pnRaw pnSent pnAttempts pnDeadline] in *.
  destruct IH as (-> & -> & -> & -> & _). unfold maxRetransmits. split_and!; [done | done | lia | lia|]. done.
Qed.

(** C17: However its exchanges are answered, or fail, and whatever the session has come
    to meanwhile, a call returns: a rekeying of the IKE SA after at most three
    exchanges, one of a Child SA after at most four, a deletion after one. And an
    exchange does not wait for ever: a request is given up after twenty sends, and
    after five when nothing else was heard of the peer or it is a liveness probe,
    62 seconds after the first when the timer is on time; every time it is the
    same bytes. *)
Theorem calls_end (s : ikeSession) (c : call) answers req ctx id raw first times :
  (4 ≤ length answers)%nat →
  returned (carried (begin s c) answers) = true ∧ (∀ d, c = CallRekeyIKE d → returned (carried (begin s c) (take 3 answers)) = true) ∧
  let p := resent req ctx id raw first times in
  pnRaw p = raw ∧
  (∀ alive, pendingRetransmitsExhausted p alive = true ↔
    5 ≤ 1 + Z.of_nat (length times) ∧ (rqDpd req = true ∨ alive = false ∨ 20 ≤ 1 + Z.of_nat (length times))) ∧
  (List.map (λ t, t - first) times = List.map (λ n, n * Second_) [2; 6; 14; 30] → pnDeadline p = first + 62 * Second_).
Proof.
  intros Hl. split; [|split].
  - apply (within_carried 4); [|done]. destruct c as [d|b t ent ent'|]; cbn [begin].
    + apply (within_more 3); [lia|]. apply within_attempt.
    + apply within_child.
    + unfold DeleteIKE. cbn [within]. done.
  - intros d ->. apply (within_carried 3); [apply (within_attempt 1) | rewrite length_take; lia].
  - intros p. destruct (resent_counts req ctx id raw first times) as (P1 & P2 & P3 & P4 & P5). fold p in P1, P2, P3, P4, P5. split; [done|]. split.
    + intros alive. unfold pendingRetransmitsExhausted. rewrite P1, P3, P4. unfold maxRetransmits, maxRetransmitsWhileBusy.
      destruct (Z.ltb_spec (Z.min (1 + Z.of_nat (length times)) 5) 5); [split; [done | lia]|].
      destruct (rqDpd req); [split; [intros _; split; [lia | by left] | done]|]. destruct alive; cbn [orb negb].
      * rewrite Z.leb_le. split; [intros; split; [lia | by right; right] | intros [_ [?|[?|?]]]; done].
      * split; [intros _; split; [lia | by right; left] | done].
    + intros Ht. destruct times as [|t1 [|t2 [|t3 [|t4 [|]]]]]; try done. cbn [List.map] in Ht. injection Ht as ? ? ? ?.
      rewrite P5, P4. cbn [length List.last]. change (retransmitDelay (Z.min (1 + Z.of_nat 4) maxRetransmits)) with (32 * Second_). lia.
Qed.

End ends.

(** ** When the loop wakes *)

Lemma earlier_le a b : earlier a b ≤ b ∧ ∀ t, a = Some t → earlier a b ≤ t.
Proof. destruct a as [x|]; cbn [earlier]; [|split; [lia | done]]. destruct (Z.ltb_spec x b); split; try lia; intros t [= <-]; lia. Qed.

Lemma schedules_le l : ∀ d, fold_left (λ d r, earlier (rsDeadline r) d) l d ≤ d ∧
  ∀ r t, r ∈ l → rsDeadline r = Some t → fold_left (λ d r, earlier (rsDeadline r) d) l d ≤ t.
Proof.
  induction l as [|r l IH]; intros d; cbn [fold_left]; [split; [lia | by intros r t ?%not_elem_of_nil]|].
  destruct (IH (earlier (rsDeadline r) d)) as [I1 I2]. destruct (earlier_le (rsDeadline r) d) as [E1 E2]. split; [lia|].
  intros r' t [->|Hr]%elem_of_cons Ht; [specialize (E2 t Ht); lia | by apply (I2 r')].
Qed.

(** The wait ends no later than anything falls due: the request that waits, the
    liveness probe, a scheduled rekeying, a Child SA or an IKE SA that is kept. *)
Lemma wakeAt_least cfg st : let d := wakeAt cfg st in
  (∀ p, rnPending st = Some p → d ≤ pnDeadline p) ∧ (rnPending st = None → d ≤ rnLast st + dpdInterval cfg) ∧
  (∀ r t, r ∈ rnSchedules st → rsDeadline r = Some t → d ≤ t) ∧
  (∀ t, nextRetirement (sess (world (rnSession st))) = Some t → d ≤ t) ∧ (∀ t, nextRetainedExpiry (rnSession st) = Some t → d ≤ t).
Proof.
  intros d. unfold d, wakeAt. set (d0 := match rnPending st with Some p => _ | None => _ end). set (d1 := fold_left _ _ d0).
  destruct (schedules_le (rnSchedules st) d0) as [S1 S2]. fold d1 in S1, S2. set (d2 := earlier (nextRetirement _) d1).
  destruct (earlier_le (nextRetirement (sess (world (rnSession st)))) d1) as [R1 R2]. fold d2 in R1, R2.
  destruct (earlier_le (nextRetainedExpiry (rnSession st)) d2) as [X1 X2]. split_and!.
  - intros p Hp. unfold d0 in S1. rewrite Hp in S1. lia.
  - intros Hp. unfold d0 in S1. rewrite Hp in S1. lia.
  - intros r t Hr Ht. specialize (S2 r t Hr Ht). lia.
  - intros t Ht. specialize (R2 t Ht). lia.
  - done.
Qed.

(** ** Rekey timing *)

(** A configuration the setters made. *)
Record timing_ok (c : runConfig) : Prop := mkTimingOk {
  ti_intervals : 0 ≤ childRekeyInterval c ∧ 0 ≤ ikeRekeyInterval c;
  ti_margin : 0 ≤ rekeyMargin c ∧ 0 ≤ rekeyJitter c;
  ti_valid : validRekeyTiming (childRekeyInterval c) (rekeyMargin c) (rekeyJitter c) = true ∧
             validRekeyTiming (ikeRekeyInterval c) (rekeyMargin c) (rekeyJitter c) = true;
  ti_retry : rekeyRetryInitial c = 0 ∧ rekeyRetryMax c = 0 ∨ 0 < rekeyRetryInitial c ≤ rekeyRetryMax c }.

Inductive setting := Intervals (child ike : Z) | Timing (margin jitter : Z) | Retry (initial max : Z).
Definition set_ (c : runConfig) (s : setting) : res runConfig :=
  match s with Intervals child ike => SetRekeyIntervals c child ike | Timing m j => SetRekeyTiming c m j | Retry i x => SetRekeyRetry c i x end.

Lemma set_ok c s c' : timing_ok c → set_ c s = Ok c' → timing_ok c'.
Proof.
  intros [H1 H2 H3 H4]. destruct s as [child ike|m j|i x]; cbn [set_]; unfold SetRekeyIntervals, SetRekeyTiming, SetRekeyRetry.
  - case_match eqn:E1; [done|]. case_match eqn:E2; [done|]. intros [= <-]. bool_props. split; cbn; [lia | done | by split | done].
  - case_match eqn:E1; [done|]. case_match eqn:E2; [done|]. intros [= <-]. bool_props. split; cbn; [done | lia | by split | done].
  - case_match eqn:E1; [done|]. case_match eqn:E2; [done|]. intros [= <-]. bool_props. split; cbn; [done | done | done | right; lia].
Qed.

Lemma backoff_bounds n : ∀ d max, 0 < d ≤ max → d ≤ backoff n d max ≤ max.
Proof.
  induction n as [|[|n] IH]; intros d max Hd; cbn [backoff]; [lia | lia|]. destruct (Z.leb_spec (max ÷ 2) d) as [|Hlt]; [lia|].
  rewrite Z.quot_div_nonneg in Hlt by lia. pose proof (Z.div_lt_upper_bound max 2 max). assert (d * 2 ≤ max) by (pose proof (Z.mul_div_le max 2); lia).
  specialize (IH (d * 2) max ltac:(lia)). cbn [backoff] in IH. lia.
Qed.

(** A configuration that was set up one setting after another; a refused setting
    leaves what there was. *)
Inductive configured : runConfig → Prop :=
| cf_new dpd : configured (mkRunConfig 0 0 0 0 0 0 dpd)
| cf_set c s c' : configured c → set_ c s = Ok c' → configured c'.

Lemma configured_ok c : configured c → timing_ok c.
Proof. induction 1 as [dpd|c s c' _ IH Hs]; [split; cbn; [lia | lia | done | by left] | by eapply set_ok]. Qed.

(** C30: A session configured with settings that were accepted never stops for them:
    when a jitter is drawn within its bound, the next rekeying falls within the
    interval, at a time to come; and after any number of failures the retry waits
    at least half the initial delay and at most the greatest. *)
Theorem rekey_timing_sound c source failures :
  configured c → (∀ x, 0 ≤ x → ∃ j, source x = Ok j ∧ 0 ≤ j ≤ x) →
  let c' := withDefaults c in
  (∀ interval, interval = childRekeyInterval c ∨ interval = ikeRekeyInterval c → 0 < interval →
    ∃ delay, rekeyDelay c' source interval = Ok delay ∧ 0 < delay ≤ interval - rekeyMargin c ∧ interval - rekeyMargin c - rekeyJitter c ≤ delay) ∧
  ∃ delay, rekeyRetryDelay c' source failures = Ok delay ∧ rekeyRetryInitial c' ≤ 2 * delay ∧ 0 < delay ≤ rekeyRetryMax c'.
Proof.
  intros Hc%configured_ok Hs c'. destruct Hc as [H1 H2 [H3 H4] H5].
  assert (rekeyMargin c' = rekeyMargin c ∧ rekeyJitter c' = rekeyJitter c ∧ 0 < rekeyRetryInitial c' ≤ rekeyRetryMax c') as (M & J & R).
  { unfold c', withDefaults. destruct ((rekeyRetryInitial c =? 0) && (rekeyRetryMax c =? 0)) eqn:Ez; cbn; [unfold Second_; lia|].
    split; [done|]. split; [done|]. destruct H5 as [[E1 E2]|]; [rewrite E1, E2 in Ez; done | done]. }
  split.
  - intros interval Hi H0. assert (validRekeyTiming interval (rekeyMargin c) (rekeyJitter c) = true) as Hv by (by destruct Hi as [-> | ->]).
    unfold validRekeyTiming in Hv. rewrite (proj2 (Z.eqb_neq interval 0)) in Hv by lia. cbn [orb] in Hv. bool_props.
    destruct (Hs (rekeyJitter c)) as (j & Ej & Hj); [lia|]. unfold rekeyDelay. rewrite M, J, Ej.
    destruct (Z.ltb_spec j 0); [lia|]. destruct (Z.ltb_spec (rekeyJitter c) j); [lia|]. cbn [orb].
    destruct (Z.leb_spec (interval - rekeyMargin c - j) 0); [lia|]. eexists. split; [done|]. lia.
  - unfold rekeyRetryDelay. pose proof (backoff_bounds failures _ _ R) as Hb. set (d := backoff _ _ _) in *.
    assert (d ÷ 2 = d / 2) as Hq by (apply Z.quot_div_nonneg; lia). assert (0 ≤ 2 * (d / 2) ≤ d) as Hd by (pose proof (Z.div_pos d 2); pose proof (Z.mul_div_le d 2); lia).
    rewrite Hq.
    destruct (Hs (d / 2)) as (j & Ej & Hj); [lia|]. rewrite Ej. destruct (Z.ltb_spec j 0); [lia|]. destruct (Z.ltb_spec (d / 2) j); [lia|]. cbn [orb].
    eexists. split; [done|]. lia.
Qed.
