(* ===== verification/IkeLifeWitness.v ===== *)
(** * Concrete sessions

    The laws of Diffie-Hellman can hold, and two sessions of one SA meet what the
    theorems on sessions ask for. *)

From stdpp Require Import functions.
From S2P Require Import Prelude Netip Store Esp EspWitness IkeMessage IkePayload IkeSa IkeSk IkeWitness IkeProposal IkeSelect TransHub Tunnel TunnelWitness IkeChild IkeChildRun IkeSession IkeServe IkeExchange IkeRekey IkeRun IkeInv IkeKeep IkeHandle IkeProc IkeEngine IkeLife IkeMeet IkeEnds.

#[local] Existing Instance toyHmac.
#[local] Existing Instance toyHmacLaws.

(** Secrets are small numbers, shared by adding them. *)
#[local] Instance toyECDH : ECDH := {|
  GenerateKey := fun _ r => [be_of r mod 251];
  PublicKeyBytes := fun _ k => [4; be_of k mod 256];
  ECDHShared := fun _ k p => Ok [be_of k mod 256 + be_of (drop 1 p)] |}.

#[local] Instance toyECDHLaws : ECDHLaws toyECDH.
Proof.
  assert (∀ r, 0 ≤ be_of r mod 251 < 251) as Hr by (intros r; apply Z.mod_pos_bound; lia).
  split.
  - intros g a b. assert (∀ v, be_of [v] = v) as H1 by (intros v; unfold be_of; cbn [fold_left]; lia). pose proof (Hr a) as Ha. pose proof (Hr b) as Hb.
    eexists. split; [reflexivity|]. cbn [GenerateKey PublicKeyBytes ECDHShared toyECDH drop]. rewrite !H1, !(Z.mod_small (_ mod 251)) by lia. do 2 f_equal. lia.
  - intros g a _. by eexists.
  - intros g a. cbn [PublicKeyBytes toyECDH GenerateKey]. split; [|cbn; lia]. repeat constructor; try lia; apply Z.mod_pos_bound; lia.
  - done.
Qed.

(** ** Two sessions of one SA *)

Definition first : ikeContext := mkContext toySuite [1; 2; 3] toyKey toyKey [] [] 11 12 false 1 2 0 0 [].
Definition second : ikeContext := mkContext toySuite [1; 2; 3] toyKey toyKey [] [] 11 12 true 1 0 2 1 [].
Definition auth : message := mkSent 0 false 1 (replicate 32 0 ++ be_to 8 1) true.

Definition hubOne : Hub := set_tables h0 {[11 := 0%nat]} ∅.
Definition worldOne : World := match openSession hubOne 0 alice 64 0 with Ok w => w | _ => mkWorld hubOne (newSession 0) (newTunnel 64 true) end.

Lemma worldOne_opens : openSession hubOne 0 alice 64 0 = Ok worldOne.
Proof.
  assert (is_ok (openSession hubOne 0 alice 64 0) = true) as H by (vm_compute; reflexivity).
  unfold worldOne. destruct (openSession hubOne 0 alice 64 0); [done..|discriminate H].
Defined.

Definition sessionA : ikeSession := newIkeSession worldOne first 0.
Definition sessionB : ikeSession := newIkeSession worldOne second 0.

(** ** A pass that probes the peer *)

Definition idleConfig : runConfig := mkRunConfig 0 0 0 0 0 0 0.
Definition runStart : runState := mkRun sessionA None 0 [] None None None false None false.
Definition idleTurn : turnInput := mkTurn 0 false true (λ _, Ok 0) (WTimer false true) (10 * Second_).

Definition runProbed : runState * list message * verdictRun := match turn idleConfig runStart idleTurn with Ok r => r | _ => (runStart, [], Continue) end.

Lemma runProbed_run : runs idleConfig true 1 (10 * Second_) ([auth] ++ runProbed.1.2) runProbed.1.1 Continue.
Proof.
  assert (runProbed.2 = Continue ∧ is_ok (turn idleConfig runStart idleTurn) = true) as [Hv Hok] by (split; vm_compute; reflexivity).
  rewrite <- Hv. apply (rn_turn idleConfig true 0 0 [auth] runStart idleTurn).
  - apply (rn_start idleConfig true hubOne 0 first alice 64 0 worldOne auth (λ _, Ok 0) 0); [lia | reflexivity | | | exact worldOne_opens | lia | | reflexivity].
    + intros spi. change (esp hubOne) with (∅ : gmap Z nat). by rewrite lookup_empty.
    + intros spi. change (ike hubOne) with ({[11 := 0%nat]} : gmap Z nat). rewrite lookup_singleton_Some. naive_solver.
    + split; [vm_compute; discriminate | by split | by split_and! | done].
  - vm_compute. reflexivity.
  - split; [cbn; lia | cbn; unfold Second_; lia | intros x; discriminate | exact I].
  - unfold runProbed. destruct (turn idleConfig runStart idleTurn) as [[[s o] v]| |]; [reflexivity | discriminate Hok | discriminate Hok].
Defined.

Lemma ike_session_in_step_witness :
  NoDup (held (rnSession runProbed.1.1)) ∧ ike (hub (world (rnSession runProbed.1.1))) !! 11 = Some 0%nat ∧ length runProbed.1.2 = 1%nat.
Proof.
  destruct (ike_session_in_step idleConfig true 1 (10 * Second_) ([auth] ++ runProbed.1.2) runProbed.1.1 Continue runProbed_run ltac:(lia)) as (Hnd & _ & Ho & _).
  split; [exact Hnd|]. split; [|vm_compute; reflexivity]. destruct Ho as (Hi & _); [vm_compute; reflexivity|]. specialize (Hi eq_refl).
  assert (muxOf (rnSession runProbed.1.1) = 0%nat) as Hm by (vm_compute; reflexivity). pose proof (proj2 (Hi 11)) as Hx. rewrite Hm in Hx. apply Hx.
  apply (bool_decide_unpack _). vm_compute. reflexivity.
Defined.

(** The probe has an IV of its own. *)
Lemma exchanges_once_witness :
  ∃ probe, runProbed.1.2 = [probe] ∧ msRaw probe ≠ msRaw auth ∧ ivOf (msRaw probe) ≠ ivOf (msRaw auth).
Proof.
  assert (length runProbed.1.2 = 1%nat ∧ msCtx (List.hd auth runProbed.1.2) = O ∧
    negb (bool_decide (msRaw (List.hd auth runProbed.1.2) = msRaw auth)) = true) as (Hl & Hc & Hr) by (split_and!; vm_compute; reflexivity).
  pose proof runProbed_run as Hrun. destruct runProbed.1.2 as [|probe [|]]; cbn [length] in Hl; [discriminate Hl | | discriminate Hl].
  cbn [List.hd] in Hc, Hr. exists probe. split; [reflexivity|]. apply negb_true_iff, bool_decide_eq_false in Hr. split; [exact Hr|]. intros Hi. apply Hr.
  destruct (exchanges_once idleConfig true 1 (10 * Second_) ([auth] ++ [probe]) runProbed.1.1 Continue probe auth Hrun ltac:(lia)) as [Hx _];
    [by right; left | by left | exact Hc | exact (Hx Hi)].
Defined.

(** ** Rekeyings *)

Definition drawA : rekeyDraw := mkDraw 21 (replicate 32 1) (λ _, [3]).
Definition drawB : rekeyDraw := mkDraw 22 (replicate 32 2) (λ _, [4]).
Definition entropyA : entropy := mkEntropy [5] (replicate 32 3) 1001 31.
Definition entropyB : entropy := mkEntropy [6] (replicate 32 4) 1002 32.

Lemma face_to_face : facing sessionA sessionB ∧ facing sessionB sessionA.
Proof.
  assert (∀ n x, n ≤ 2 → x = first ∨ x = second → sealing n x) as Hs.
  { intros n x Hn Hx. split; [exists (mkAEADParams 16 4 8 16); by destruct Hx; subst | destruct Hx; subst; cbn; lia | destruct Hx; subst; cbn; lia]. }
  split; (split; [by split | split; apply Hs; auto; lia | cbn; lia | cbn; unfold maxMessageID; lia]).
Qed.

Lemma both_willing : willing sessionA 22 entropyA Second_ ∧ willing sessionB 21 entropyB Second_.
Proof.
  split; (split; [split; [by left | reflexivity] | split; vm_compute; reflexivity | vm_compute; reflexivity | | split; vm_compute; reflexivity | split; [reflexivity | cbn; lia]]);
    (split; [by intros ?%list_elem_of_singleton | split; [done | by intros l]]).
Qed.

Lemma both_offering : offering first drawA ∧ offering second drawB.
Proof. split; (split; [reflexivity | split; [cbn; lia | by left]]). Qed.

Lemma rekeyed_alike_witness :
  ∃ a1 m q k b1 m' p, asked (RekeyIKE sessionA drawA) Second_ = Some (a1, m, q, k) ∧ answered sessionB m None None entropyB Second_ = Some (b1, m') ∧
    resumed a1 m' None q k entropyA Second_ = Some p ∧ mirrored (ctxs (procSession p) (current (procSession p))) (ctxs b1 (current b1)).
Proof.
  destruct face_to_face as [Hf _]. destruct both_willing as [_ Hw]. destruct both_offering as [Ho _].
  destruct (rekeyed_alike sessionA sessionB drawA entropyB Second_ None None entropyA Hf Ho Hw eq_refl eq_refl)
    as (a1 & m & q & k & b1 & m' & p & Hask & Hans & Hres & Hm & _); [vm_compute; reflexivity | vm_compute; reflexivity|].
  exists a1, m, q, k, b1, m', p. split; [exact Hask|]. split; [exact Hans|]. split; [exact Hres | exact Hm].
Defined.

(** Both calls take up their answers, one of them later. *)
Lemma crossed_alike_witness :
  ∃ a1 mA qA kA b1 mB qB kB a3 rA b3 rB,
    asked (RekeyIKE sessionA drawA) Second_ = Some (a1, mA, qA, kA) ∧ asked (RekeyIKE sessionB drawB) Second_ = Some (b1, mB, qB, kB) ∧
    let a5 := procSession (kA a3 Second_ rA) in let b5 := procSession (kB b3 (2 * Second_) rB) in
    mirrored (ctxs a5 (current a5)) (ctxs b5 (current b5)) ∧ old a5 = Some 0%nat ∧ old b5 = Some 0%nat.
Proof.
  destruct face_to_face as [Hf Hf']. destruct both_willing as [Hw Hw']. destruct both_offering as [Ho Ho'].
  destruct (crossed_alike sessionA sessionB drawA drawB entropyA entropyB Second_ None None Hf Hf' Ho Ho' Hw Hw')
    as (a1 & mA & qA & kA & b1 & mB & qB & kB & a2 & mA' & b2 & mB' & a3 & rA & b3 & rB & HaskA & HaskB & _ & _ & _ & _ & Hm);
    [discriminate | vm_compute; reflexivity | vm_compute; reflexivity | discriminate | discriminate | discriminate | discriminate|].
  exists a1, mA, qA, kA, b1, mB, qB, kB, a3, rA, b3, rB. split; [exact HaskA|]. split; [exact HaskB|].
  exact (Hm a3 Second_ b3 (2 * Second_) (undisturbed_refl a3) (undisturbed_refl b3)).
Defined.

(** A rekeying whose every request fails. *)
Lemma calls_end_witness :
  returned (carried (RekeyIKE sessionA drawA) (replicate 4 (sessionA, 0, Err "ike: timeout"))) = true ∧
  pnDeadline (resent (mkRequest INFORMATIONAL [] None true) 0 2 [] 0 [2 * Second_; 6 * Second_; 14 * Second_; 30 * Second_]) = 62 * Second_.
Proof.
  destruct (calls_end sessionA (CallRekeyIKE drawA) (replicate 4 (sessionA, 0, Err "ike: timeout")) (mkRequest INFORMATIONAL [] None true) 0 2 [] 0
    [2 * Second_; 6 * Second_; 14 * Second_; 30 * Second_]) as (H1 & _ & _ & _ & H2); [cbn; lia|].
  split; [exact H1 | apply H2; vm_compute; reflexivity].
Defined.

(** An hour, less a minute, less up to ten seconds. *)
Definition hourly : runConfig := mkRunConfig (3600 * Second_) (14400 * Second_) (60 * Second_) (10 * Second_) 0 0 0.

Lemma rekey_timing_sound_witness :
  ∃ delay retry, rekeyDelay (withDefaults hourly) (λ x, Ok x) (3600 * Second_) = Ok delay ∧ 3530 * Second_ ≤ delay ∧
    rekeyRetryDelay (withDefaults hourly) (λ x, Ok x) 9 = Ok retry ∧ retry ≤ 300 * Second_.
Proof.
  assert (configured hourly) as Hc.
  { apply (cf_set (mkRunConfig 0 0 (60 * Second_) (10 * Second_) 0 0 0) (Intervals (3600 * Second_) (14400 * Second_))); [|vm_compute; reflexivity].
    apply (cf_set (mkRunConfig 0 0 0 0 0 0 0) (Timing (60 * Second_) (10 * Second_))); [constructor | vm_compute; reflexivity]. }
  destruct (rekey_timing_sound hourly (λ x, Ok x) 9 Hc) as (H1 & retry & Hr & _ & _ & Hm); [intros x Hx; exists x; split; [reflexivity | lia]|].
  destruct (H1 (3600 * Second_)) as (delay & Hd & _ & Hl); [by left | vm_compute; reflexivity|].
  exists delay, retry. split; [exact Hd|]. split; [exact Hl|]. split; [exact Hr | exact Hm].
Defined.
