(* ===== verification/Srv6.v ===== *)
(** * Segment routing over IPv6, package srv6

    The routing header of RFC 8754, H.Encaps, and the two endpoint behaviors End
    and End.DT46 (srv6.go), with the table of segments a node answers for
    (local.go). Every entry point takes bytes and returns bytes; code that
    rewrites a buffer in place is modelled over the backing array ([Store]) and
    returns the array it leaves behind. *)

From S2P Require Import Prelude Netip Store.

(** ** Addresses with a zone

    Paths and segment identifiers come from configuration files, where an IPv6
    address may carry a zone. Addresses read from packets have none. *)
Record NetAddr := mkNetAddr { ip : Addr; zone : string }.

#[export] Instance NetAddr_eq_dec : EqDecision NetAddr.
Proof. solve_decision. Defined.

#[export] Instance NetAddr_countable : Countable NetAddr.
Proof.
  refine (inj_countable' (λ a, (ip a, zone a)) (λ x, mkNetAddr x.1 x.2) _). by intros [].
Defined.

(** [netip.AddrFrom16] of sixteen bytes: no zone. *)
Definition AddrFrom16 (b : list Z) : Addr := Addr6 (be_of b).
Definition bare (a : Addr) : NetAddr := mkNetAddr a "".

Definition IsMulticast (a : Addr) : bool :=
  match Unmap a with
  | AddrInvalid => false
  | Addr4 v => v / 2 ^ 28 =? 14 (* 224.0.0.0/4 *)
  | Addr6 v => v / 2 ^ 120 =? 255 (* ff00::/8 *)
  end.

(** ** Constants *)

Definition ipv6HeaderLen : nat := 40.
Definition ipv4HeaderLen : nat := 20.
Definition srhFixedLen : nat := 8.
Definition addrLen : nat := 16.
Definition nextHeaderRouting : Z := 43.
Definition nextHeaderHopByHop : Z := 0.
Definition nextHeaderDestOpts : Z := 60.
Definition nextHeaderFragment : Z := 44.
Definition extensionUnit : nat := 8.
Definition maxExtensionHeaders : nat := 8.
Definition NextHeaderIPv4 : Z := 4.
Definition NextHeaderIPv6 : Z := 41.
Definition routingTypeSegment : Z := 4.
Definition MinimumIPv6MTU : nat := 1280.
Definition MaxSegments : nat := 16.
Definition DefaultHopLimit : Z := 64.

Definition ErrNotSegmentRouted : string := "srv6: packet carries no segment routing header".
Definition ErrExhausted : string := "srv6: End reached the last segment and there is nowhere to forward to".
Definition ErrHopLimit : string := "srv6: the hop limit reached zero at this waypoint".
Definition ErrHeaderInvalid : string := "srv6: the routing header does not describe itself".

(** [errors.Is]: an error made with [%w: ...] carries the sentinel's message in
    front of its own, and no other error of the package starts with one. *)
Definition Is (err target : string) : bool := String.prefix target err.

(** ** The routing header *)

(** Segments are in wire order, the reverse of the path. *)
Record Header := mkHeader {
  SegmentsLeft : Z;
  Segments : list Addr;
  Flags : Z;
  Tag : Z;
  NextHeader : Z;
  Offset : nat }.

Definition Path (h : Header) : list Addr := reverse (Segments h).

Definition Active (h : Header) : option Addr := Segments h !! Z.to_nat (SegmentsLeft h).

Definition Overhead (segments : nat) : nat := (ipv6HeaderLen + srhFixedLen + addrLen * segments)%nat.

Definition Usable (a : NetAddr) : bool :=
  Is6 (ip a) && negb (Is4In6 (ip a)) && bool_decide (zone a = "") &&
  negb (IsUnspecified (ip a)) && negb (IsMulticast (ip a)).

Definition CheckPath (source : NetAddr) (path : list NetAddr) : res () :=
  if (length path =? 0)%nat then Err "srv6: a segment list needs at least one segment"
  else if (MaxSegments <? length path)%nat then Err "srv6: more segments than this node will build"
  else if negb (Usable source) then Err "srv6: tunnel source cannot address a segment routed packet"
  else if forallb Usable path then Ok ()
  else Err "srv6: segment cannot address a segment routed packet".

Definition innerNextHeader (inner : list Z) : res Z :=
  if (length inner =? 0)%nat then Err "srv6: nothing to encapsulate"
  else
    b0 ← idx inner 0;
    let version := Z.shiftr b0 4 in
    if version =? 4 then
      if (length inner <? ipv4HeaderLen)%nat then Err "srv6: shorter than the IPv4 header it claims to be"
      else Ok NextHeaderIPv4
    else if version =? 6 then
      if (length inner <? ipv6HeaderLen)%nat then Err "srv6: shorter than the IPv6 header it claims to be"
      else Ok NextHeaderIPv6
    else Err "srv6: the packet to encapsulate is IP version".

Definition checkEncapsulation (inner : list Z) (source : NetAddr) (path : list NetAddr) : res nat :=
  _ ← CheckPath source path;
  _ ← innerNextHeader inner;
  let payload := (srhFixedLen + addrLen * length path + length inner)%nat in
  if 0xffff <? Z.of_nat payload
  then Err "srv6: more than an IPv6 payload length can carry"
  else Ok (Overhead (length path)).

(** [out[len(path)-1-i] = segment] for every [i]. *)
Fixpoint reversedLoop (n i : nat) (path out : list NetAddr) : list NetAddr :=
  match path with
  | [] => out
  | segment :: rest => reversedLoop n (S i) rest (<[(n - 1 - i)%nat := segment]> out)
  end.

Definition reversed (path : list NetAddr) : list NetAddr :=
  reversedLoop (length path) 0 path (replicate (length path) (bare AddrInvalid)).

Definition addr16 (a : Addr) : list Z := be_to 16 (As16 a).

(** [copy(srh[srhFixedLen+addrLen*i:], addr16(segment))]; the routing header is
    [s[base:limit]]. *)
Fixpoint writeSegments (s : list Z) (base limit i : nat) (segments : list NetAddr) : res (list Z) :=
  match segments with
  | [] => Ok s
  | segment :: rest =>
      s ← copyAt s (base + (srhFixedLen + addrLen * i)) limit (addr16 (ip segment));
      writeSegments s base limit (S i) rest
  end.

(** [out] is [s[off:off+olen]]; [inner] lies outside it. *)
Definition writeOuter (s : list Z) (off olen : nat) (inner : list Z)
    (source : NetAddr) (path : list NetAddr) : res (list Z) :=
  let limit := (off + olen)%nat in
  let innerNext := match innerNextHeader inner with Ok v => v | _ => 0 end in
  hopLimit ← (if innerNext =? NextHeaderIPv6 then idx inner 7 else Ok DefaultHopLimit);
  let segments := reversed path in
  let last := u8 (Z.of_nat (length segments) - 1) in
  let srhLen := (srhFixedLen + addrLen * length segments)%nat in
  s ← (if innerNext =? NextHeaderIPv6 then
         first ← slice inner 0 4; copyAt s off (off + 4) first
       else
         s ← putByte s off olen 0 0x60;
         s ← putByte s off olen 1 0;
         putBE 2 s (off + 2) limit 0);
  s ← putBE 2 s (off + 4) limit (u16 (Z.of_nat (srhLen + length inner)));
  s ← putByte s off olen 6 nextHeaderRouting;
  s ← putByte s off olen 7 hopLimit;
  s ← copyAt s (off + 8) limit (addr16 (ip source));
  destination ← idx segments (Z.to_nat last);
  s ← copyAt s (off + 24) limit (addr16 (ip destination));
  let base := (off + ipv6HeaderLen)%nat in
  _ ← slice s base limit;
  let rlen := (limit - base)%nat in
  s ← putByte s base rlen 0 innerNext;
  s ← putByte s base rlen 1 (u8 (2 * Z.of_nat (length segments)));
  s ← putByte s base rlen 2 routingTypeSegment;
  s ← putByte s base rlen 3 last;
  s ← putByte s base rlen 4 last;
  s ← putByte s base rlen 5 0;
  s ← putByte s base rlen 6 0;
  s ← putByte s base rlen 7 0;
  writeSegments s base limit 0 segments.

Definition Encapsulate (inner : list Z) (source : NetAddr) (path : list NetAddr) : res (list Z) :=
  overhead ← checkEncapsulation inner source path;
  let out := replicate (overhead + length inner) 0 in
  out ← copyAt out overhead (length out) inner;
  writeOuter out 0 overhead inner source path.

(** The array left behind and the new size. Offsets and sizes are Go [int]s. *)
Definition i64 (z : Z) : Z := signed 64 z.

Definition EncapsulateInPlace (buf : list Z) (offset size : Z) (source : NetAddr)
    (path : list NetAddr) : res (list Z * Z) :=
  if (offset <? 0) || (size <? 0) || (Z.of_nat (length buf) <? i64 (offset + size))
  then Err "srv6: a packet is not inside the buffer"
  else
    let off := Z.to_nat offset in
    let n := Z.to_nat size in
    inner ← (if i64 (offset + size) <? offset then Panic else slice buf off (off + n));
    overhead ← checkEncapsulation inner source path;
    if Z.of_nat (length buf) <? i64 (offset + Z.of_nat overhead + size)
    then Err "srv6: encapsulating needs more than the buffer has"
    else
      buf ← copyAt buf (off + overhead) (length buf) inner;
      moved ← slice buf (off + overhead) (off + overhead + n);
      _ ← slice buf off (off + overhead);
      buf ← writeOuter buf off overhead moved source path;
      Ok (buf, Z.of_nat overhead + size).

(** The walk along the extension headers: [turns] more headers at most. *)
Fixpoint findLoop (turns : nat) (raw : list Z) (next : Z) (offset : nat) : res nat :=
  match turns with
  | O => Err (ErrHeaderInvalid +:+ ": more extension headers than this node walks")
  | S turns =>
      if next =? nextHeaderRouting then Ok offset
      else if next =? nextHeaderFragment then
        Err (ErrHeaderInvalid +:+ ": a fragment carries no segment list this node can act on")
      else if negb ((next =? nextHeaderHopByHop) || (next =? nextHeaderDestOpts)) then
        Err ErrNotSegmentRouted
      else if (length raw <? offset + extensionUnit)%nat then Err ErrNotSegmentRouted
      else
        next' ← idx raw offset;
        len ← idx raw (offset + 1);
        let offset' := (offset + extensionUnit * (1 + Z.to_nat len))%nat in
        if (length raw <? offset')%nat then Err ErrNotSegmentRouted
        else findLoop turns raw next' offset'
  end.

Definition findRouting (raw : list Z) : res nat :=
  next ← idx raw 6;
  findLoop maxExtensionHeaders raw next ipv6HeaderLen.

(** [copy(segment[:], srh[srhFixedLen+addrLen*i:])] for [i] in [range count]. *)
Fixpoint readSegments (turns i : nat) (srh : list Z) : res (list Addr) :=
  match turns with
  | O => Ok []
  | S turns =>
      rest ← from srh (srhFixedLen + addrLen * i);
      segments ← readSegments turns (S i) srh;
      Ok (AddrFrom16 (gocopy (replicate 16 0) rest) :: segments)
  end.

Definition Parse (raw : list Z) : res Header :=
  if (length raw <? ipv6HeaderLen)%nat then Err ErrNotSegmentRouted
  else
    b0 ← idx raw 0;
    if negb (Z.shiftr b0 4 =? 6) then Err ErrNotSegmentRouted
    else
      offset ← findRouting raw;
      srh ← from raw offset;
      if (length srh <? srhFixedLen)%nat then
        Err "srv6: the routing header is shorter than its fixed part"
      else
        kind ← idx srh 2;
        if negb (kind =? routingTypeSegment) then Err ErrNotSegmentRouted
        else
          b1 ← idx srh 1;
          let extLen := Z.to_nat b1 in
          let total := (srhFixedLen + 8 * extLen)%nat in
          if (length srh <? total)%nat then Err "srv6: the routing header claims more bytes than are present"
          else
            b4 ← idx srh 4;
            let count := (Z.to_nat b4 + 1)%nat in
            if (extLen <? 2 * count)%nat then
              Err (ErrHeaderInvalid +:+ ": last entry needs more bytes of segments than the header carries")
            else if (MaxSegments <? count)%nat then Err "srv6: more segments than this node will act on"
            else
              next ← idx srh 0;
              segsLeft ← idx srh 3;
              flags ← idx srh 5;
              tag ← get_be 2 srh 6;
              segments ← readSegments count 0 srh;
              if (Z.of_nat count <? segsLeft) then
                Err (ErrHeaderInvalid +:+ ": segments left is past the last entry")
              else Ok (mkHeader segsLeft segments flags tag next offset).

(** The rewritten packet and the address it goes to. An error leaves the
    packet as it was. *)
Definition End_ (raw : list Z) : res (list Z * Addr) :=
  header ← Parse raw;
  if SegmentsLeft header =? 0 then Err ErrExhausted
  else
    hop ← idx raw 7;
    if hop <=? 1 then Err ErrHopLimit
    else
      raw ← putByte raw 0 (length raw) 7 (u8 (hop - 1));
      _ ← from raw (Offset header);
      let segsLeft := u8 (SegmentsLeft header - 1) in
      raw ← putByte raw (Offset header) (length raw - Offset header) 3 segsLeft;
      next ← idx (Segments header) (Z.to_nat segsLeft);
      raw ← copyAt raw 24 (length raw) (addr16 next);
      Ok (raw, next).

Definition Decap (raw : list Z) : res (list Z * Z) :=
  if (length raw <? ipv6HeaderLen)%nat then Err ErrNotSegmentRouted
  else
    b0 ← idx raw 0;
    if negb (Z.shiftr b0 4 =? 6) then Err ErrNotSegmentRouted
    else
      b6 ← idx raw 6;
      ou ← match Parse raw with
           | Ok header =>
               if negb (SegmentsLeft header =? 0) then
                 Err "srv6: an exit was reached with segments still to go"
               else
                 len ← idx raw (Offset header + 1);
                 Ok (Offset header + srhFixedLen + extensionUnit * Z.to_nat len, NextHeader header)%nat
           | Err e => if negb (Is e ErrNotSegmentRouted) then Err e else Ok (ipv6HeaderLen, b6)
           | Panic => Panic
           end;
      let '(offset, upper) := ou in
      if negb (upper =? NextHeaderIPv4) && negb (upper =? NextHeaderIPv6) then
        Err "srv6: an exit cannot deliver next header"
      else if (length raw <=? offset)%nat then Err "srv6: the packet ends where its payload should start"
      else inner ← from raw offset; Ok (inner, upper).

(** ** The segments this node answers for, local.go *)

Definition BehaviorEnd : Z := 1.
Definition BehaviorEndDT46 : Z := 2.

Record Segment := mkSegment { SID : NetAddr; Behavior : Z }.

(** [None] is the nil table. *)
Definition LocalTable : Type := option (gmap NetAddr Z).

Fixpoint addSegments (entries : gmap NetAddr Z) (segments : list Segment) : res (gmap NetAddr Z) :=
  match segments with
  | [] => Ok entries
  | segment :: rest =>
      if negb (Usable (SID segment)) then Err "srv6: cap.segment local cannot address a segment routed packet"
      else if negb (Behavior segment =? BehaviorEnd) && negb (Behavior segment =? BehaviorEndDT46)
      then Err "srv6: cap.segment local: behavior is not implemented"
      else match entries !! SID segment with
           | Some _ => Err "srv6: cap.segment local is configured as both"
           | None => addSegments (<[SID segment := Behavior segment]> entries) rest
           end
  end.

Definition NewLocalTable (segments : list Segment) : res LocalTable :=
  if (length segments =? 0)%nat then Ok None
  else entries ← addSegments ∅ segments; Ok (Some entries).

(** [Result], with the fields of each action. *)
Inductive Result :=
| ActionPass
| ActionForward (Next : Addr)
| ActionDeliver (Inner : list Z) (Family : Z)
| ActionDrop (Why : string).

#[export] Instance Result_eq_dec : EqDecision Result.
Proof. solve_decision. Defined.

(** The packet as [Handle] leaves it, and its decision. *)
Definition Handle (t : LocalTable) (raw : list Z) : res (list Z * Result) :=
  match t with
  | None => Ok (raw, ActionPass)
  | Some entries =>
      if (length raw <? ipv6HeaderLen)%nat then Ok (raw, ActionPass)
      else
        b0 ← idx raw 0;
        if negb (Z.shiftr b0 4 =? 6) then Ok (raw, ActionPass)
        else
          d ← slice raw 24 40;
          match entries !! bare (AddrFrom16 d) with
          | None => Ok (raw, ActionPass)
          | Some behavior =>
              if behavior =? BehaviorEnd then
                match End_ raw with
                | Ok (raw, next) => Ok (raw, ActionForward next)
                | Err e => Ok (raw, ActionDrop e)
                | Panic => Panic
                end
              else if behavior =? BehaviorEndDT46 then
                match Decap raw with
                | Ok (inner, family) => Ok (raw, ActionDeliver inner family)
                | Err e => Ok (raw, ActionDrop e)
                | Panic => Panic
                end
              else Ok (raw, ActionDrop "srv6: carries an unimplemented behavior")
          end
  end.

(** [actLocally] of internal/netstack/segments.go: the turns of
    [for range srv6.MaxSegments]. *)
Fixpoint actLoop (turns : nat) (t : LocalTable) (packet : list Z) (result : Result) : res (list Z * Result) :=
  match turns with
  | O => Ok (packet, result)
  | S turns =>
      match result with
      | ActionForward _ =>
          again ← Handle t packet;
          match again.2 with
          | ActionPass => Ok (again.1, result)
          | _ => actLoop turns t again.1 again.2
          end
      | _ => Ok (packet, result)
      end
  end.

Definition actLocally (t : LocalTable) (packet : list Z) : res (list Z * Result) :=
  first ← Handle t packet;
  actLoop MaxSegments t first.1 first.2.
