(* ===== verification/Srv6Walk.v ===== *)
(** * Encapsulation, the way along a path, and its end

    Theorems on package srv6 as a whole: a packet steered through a segment list
    reaches its exit unchanged, the in-place encapsulation is the allocating
    one, and acting on a node's own segments comes to an end. *)

From S2P Require Import Prelude Netip Store Srv6.

(** * What an encapsulation is on the wire, and the way along its path

    [writeOuter] leaves exactly the header [outer] describes; [wire] is such a
    packet anywhere along its path, which [Parse] reads back, [End_] moves one
    segment on and [Decap] opens. *)

(** ** Consecutive writes *)

Section writes.
Context (s : list Z) (off : nat).

Lemma putByte_next acc lo n j v :
  (lo + j = off + length acc)%nat → (j < n)%nat → (off + length acc < length s)%nat →
  putByte (overwrite s off acc) lo n j v = Ok (overwrite s off (acc ++ [v])).
Proof.
  intros E Hj Hl. rewrite putByte_ok by slen. rewrite E, overwrite_app by slen. done.
Qed.

Lemma copyAt_next acc lo hi src :
  (lo = off + length acc)%nat → (lo + length src ≤ hi)%nat → (hi ≤ length s)%nat →
  copyAt (overwrite s off acc) lo hi src = Ok (overwrite s off (acc ++ src)).
Proof.
  intros -> Hh Hl. rewrite copyAt_ok by slen. by rewrite overwrite_app by slen.
Qed.

Lemma putBE_next n acc lo hi v :
  (lo = off + length acc)%nat → (lo + n ≤ hi)%nat → (hi ≤ length s)%nat →
  putBE n (overwrite s off acc) lo hi v = Ok (overwrite s off (acc ++ be_to n v)).
Proof.
  intros -> Hh Hl. rewrite putBE_ok by slen. by rewrite overwrite_app by slen.
Qed.

End writes.

(** ** The header [writeOuter] writes *)

Lemma reversedLoop_reverse n i path out :
  (i + length path = n)%nat → length out = n →
  reversedLoop n i path out = reverse path ++ drop (n - i) out.
Proof.
  revert i out. induction path as [|x path IH]; intros i out Hi Ho; cbn [reversedLoop length] in *.
  - replace (n - i)%nat with 0%nat by lia. by rewrite reverse_nil, drop_0.
  - rewrite IH by (rewrite ?length_insert; lia). rewrite reverse_cons, <- app_assoc. f_equal.
    replace (n - S i)%nat with (n - 1 - i)%nat by lia.
    rewrite (drop_S _ x) by (by apply list_lookup_insert_eq; lia). cbn [app]. f_equal.
    rewrite drop_insert_lt by lia. f_equal. lia.
Qed.

Lemma reversed_reverse path : reversed path = reverse path.
Proof.
  unfold reversed. rewrite reversedLoop_reverse by (rewrite ?length_replicate; lia).
  by rewrite drop_ge, app_nil_r by (rewrite length_replicate; lia).
Qed.

Lemma length_addr16 a : length (addr16 a) = 16%nat.
Proof. apply length_be_to. Qed.

(** The addresses of a list, one after the other. *)
Definition addrs (l : list Addr) : list Z := concat (map addr16 l).

Lemma addrs_cons a l : addrs (a :: l) = addr16 a ++ addrs l.
Proof. done. Qed.

Lemma length_addrs l : length (addrs l) = (16 * length l)%nat.
Proof.
  induction l as [|a l IH]; [done|]. rewrite addrs_cons, length_app, length_addr16, IH. simpl. lia.
Qed.

Lemma writeSegments_ok s off acc base limit i segments :
  (base + (8 + 16 * i) = off + length acc)%nat →
  (off + length acc + 16 * length segments ≤ limit)%nat → (limit ≤ length s)%nat →
  writeSegments (overwrite s off acc) base limit i segments =
    Ok (overwrite s off (acc ++ addrs (ip <$> segments))).
Proof.
  revert acc i. induction segments as [|x l IH]; intros acc i Hb Hl Hs; cbn [writeSegments length fmap list_fmap] in *.
  - by rewrite app_nil_r.
  - rewrite copyAt_next by (unfold srhFixedLen, addrLen; rewrite ?length_addr16; lia). rbind.
    rewrite IH by (rewrite ?length_app, ?length_addr16; lia).
    rewrite addrs_cons. by rewrite app_assoc.
Qed.

(** A segment routed packet in flight. [vtc] holds the version, the traffic
    class and the flow label; [segs] is in wire order. *)
Definition wire (vtc : list Z) (plen hop : Z) (src dst : Addr) (nh left : Z)
    (segs : list Addr) (inner : list Z) : list Z :=
  vtc ++ be_to 2 plen ++ [43; hop] ++ addr16 src ++ addr16 dst ++
  [nh; u8 (2 * Z.of_nat (length segs)); 4; left; u8 (Z.of_nat (length segs) - 1); 0; 0; 0] ++
  addrs segs ++ inner.

Definition outerVtc (nh : Z) (inner : list Z) : list Z :=
  if nh =? NextHeaderIPv6 then take 4 inner else [0x60; 0; 0; 0].

Definition outerHop (nh : Z) (inner : list Z) : Z :=
  if nh =? NextHeaderIPv6 then default 0 (inner !! 7%nat) else DefaultHopLimit.

Definition pathAddrs (path : list NetAddr) : list Addr := ip <$> reverse path.

(** The header of a fresh encapsulation: the first segment of the path is the
    destination and Segments Left its index. *)
Definition outer (nh : Z) (inner : list Z) (source : NetAddr) (first : NetAddr) (rest : list NetAddr) : list Z :=
  wire (outerVtc nh inner) (u16 (Z.of_nat (8 + 16 * S (length rest) + length inner)))
    (outerHop nh inner) (ip source) (ip first) nh (Z.of_nat (length rest))
    (pathAddrs (first :: rest)) [].

Lemma innerNextHeader_cases inner :
  match innerNextHeader inner with
  | Ok nh => ∃ b0, inner !! 0%nat = Some b0 ∧
      (nh = 4 ∧ Z.shiftr b0 4 = 4 ∧ (20 ≤ length inner)%nat ∨ nh = 41 ∧ Z.shiftr b0 4 = 6 ∧ (40 ≤ length inner)%nat)
  | Err _ => True
  | Panic => False
  end.
Proof.
  unfold innerNextHeader. destruct inner as [|b0 rest] eqn:E; [done|]. rewrite <- E.
  assert (inner !! 0%nat = Some b0) as H0 by (by rewrite E).
  rewrite (proj2 (Nat.eqb_neq _ _)) by (rewrite E; simpl; lia). unfold idx. rewrite H0. rbind.
  destruct (Z.eqb_spec (Z.shiftr b0 4) 4); [|destruct (Z.eqb_spec (Z.shiftr b0 4) 6); [|done]];
    (destruct (Nat.ltb_spec (length inner) ipv4HeaderLen) || destruct (Nat.ltb_spec (length inner) ipv6HeaderLen));
    unfold ipv4HeaderLen, ipv6HeaderLen, NextHeaderIPv4, NextHeaderIPv6 in *; eauto 10;
    destruct (Nat.ltb_spec (length inner) 40); eauto 10.
Qed.

Lemma innerNextHeader_inv inner nh :
  innerNextHeader inner = Ok nh →
  ∃ b0, inner !! 0%nat = Some b0 ∧
    (nh = 4 ∧ Z.shiftr b0 4 = 4 ∧ (20 ≤ length inner)%nat ∨ nh = 41 ∧ Z.shiftr b0 4 = 6 ∧ (40 ≤ length inner)%nat).
Proof. intros H. pose proof (innerNextHeader_cases inner) as P. by rewrite H in P. Qed.

Ltac wlen Hvl := rewrite ?length_app, ?length_be_to, ?length_addr16, ?Hvl; cbn [length]; lia.

Lemma writeOuter_ok s off inner nh source first rest :
  innerNextHeader inner = Ok nh → (length rest < 16)%nat →
  (off + Overhead (S (length rest)) ≤ length s)%nat →
  writeOuter s off (Overhead (S (length rest))) inner source (first :: rest) =
    Ok (overwrite s off (outer nh inner source first rest)).
Proof.
  intros Hn Hr Hs. destruct (innerNextHeader_inv _ _ Hn) as (b0 & H0 & Hc).
  unfold writeOuter. rewrite Hn, reversed_reverse, length_reverse. cbn [length].
  unfold Overhead, ipv6HeaderLen, srhFixedLen, addrLen in *. set (n := length rest) in *.
  assert (u8 (Z.of_nat (S n) - 1) = Z.of_nat n) as -> by (unfold u8; rewrite Z.mod_small; lia).
  assert ((if nh =? NextHeaderIPv6 then idx inner 7 else Ok DefaultHopLimit) = Ok (outerHop nh inner)) as ->.
  { unfold outerHop. destruct Hc as [(-> & _)|(-> & _ & Hl)]; [done|]. cbn [Z.eqb].
    unfold idx. by destruct (lookup_lt_is_Some_2 inner 7 ltac:(lia)) as [x ->]. }
  rbind.
  assert (∀ s : list Z, (off + 4 ≤ length s)%nat → ∀ limit, (off + 4 ≤ limit ≤ length s)%nat →
    (if nh =? NextHeaderIPv6 then first ← slice inner 0 4; copyAt s off (off + 4) first
     else s ← putByte s off (40 + 8 + 16 * S n) 0 96;
          s ← putByte s off (40 + 8 + 16 * S n) 1 0;
          putBE 2 s (off + 2) limit 0) = Ok (overwrite s off (outerVtc nh inner))) as Hv.
  { clear s Hs. intros s Hs limit Hlim. unfold outerVtc. destruct Hc as [(-> & _)|(-> & _ & Hl)]; cbn [Z.eqb Pos.eqb].
    - rewrite putByte_ok, Nat.add_0_r by lia. rbind.
      rewrite putByte_next by (simpl; lia). rbind. by rewrite putBE_next by (simpl; lia).
    - rewrite slice_ok by lia. rbind. rewrite drop_0. change (4 - 0)%nat with 4%nat.
      by rewrite copyAt_ok by (rewrite ?length_take; lia). }
  assert (length (outerVtc nh inner) = 4%nat) as Hvl.
  { unfold outerVtc. destruct Hc as [(-> & _)|(-> & _ & Hl)]; [done|].
    change (length (take 4 inner) = 4%nat). rewrite length_take. lia. }
  rewrite Hv by lia. rbind. clear Hv.
  assert (idx (reverse (first :: rest)) (Z.to_nat (Z.of_nat n)) = Ok first) as Hd.
  { unfold idx. rewrite Nat2Z.id, reverse_cons, lookup_app_r by (rewrite length_reverse; unfold n; lia).
    rewrite length_reverse. unfold n. by rewrite Nat.sub_diag. }
  rewrite putBE_next by wlen Hvl. rbind.
  rewrite !putByte_next by wlen Hvl. rbind. rewrite putByte_next by wlen Hvl. rbind.
  rewrite copyAt_next by wlen Hvl. rbind. rewrite Hd. rbind. rewrite copyAt_next by wlen Hvl. rbind.
  rewrite slice_ok by (rewrite ?length_overwrite by wlen Hvl; lia). rbind.
  do 8 (rewrite putByte_next by wlen Hvl; rbind).
  rewrite writeSegments_ok by (rewrite ?length_reverse; cbn [length]; fold n; wlen Hvl).
  unfold outer, wire, pathAddrs. rewrite length_fmap, length_reverse. cbn [length]. fold n.
  rewrite app_nil_r, <- !app_assoc.
  replace (u8 (Z.of_nat (S n) - 1)) with (Z.of_nat n) by (unfold u8; rewrite Z.mod_small; lia).
  done.
Qed.

(** ** Reading a packet in flight *)

(** The fixed header and the routing header of [wire]. *)
Definition front (vtc : list Z) (plen hop : Z) (src dst : Addr) : list Z :=
  vtc ++ be_to 2 plen ++ [43; hop] ++ addr16 src ++ addr16 dst.

Definition routing (nh left : Z) (segs : list Addr) (inner : list Z) : list Z :=
  [nh; u8 (2 * Z.of_nat (length segs)); 4; left; u8 (Z.of_nat (length segs) - 1); 0; 0; 0] ++
  addrs segs ++ inner.

Lemma wire_front vtc plen hop src dst nh left segs inner :
  wire vtc plen hop src dst nh left segs inner = front vtc plen hop src dst ++ routing nh left segs inner.
Proof. unfold wire, front, routing. by rewrite <- !app_assoc. Qed.

Lemma outer_app nh inner source first rest tail :
  outer nh inner source first rest ++ tail =
  wire (outerVtc nh inner) (u16 (Z.of_nat (8 + 16 * S (length rest) + length inner)))
    (outerHop nh inner) (ip source) (ip first) nh (Z.of_nat (length rest)) (pathAddrs (first :: rest)) tail.
Proof. unfold outer, wire. by rewrite <- !app_assoc, app_nil_l. Qed.

(** An address that a routing header carries as it is. *)
Definition seg_ok (a : Addr) : Prop := Is6 a = true ∧ addr_ok a.

Lemma AddrFrom16_addr16 a : seg_ok a → AddrFrom16 (addr16 a) = a.
Proof.
  intros [H6 Hok]. destruct a as [| |v]; try done. unfold AddrFrom16, addr16. cbn [As16].
  simpl in Hok. by rewrite be_of_be_to_small.
Qed.

Lemma readSegments_ok l i pre rest :
  length pre = (8 + 16 * i)%nat → Forall seg_ok l →
  readSegments (length l) i (pre ++ addrs l ++ rest) = Ok l.
Proof.
  revert i pre. induction l as [|a l IH]; intros i pre Hp Hl; cbn [readSegments length]; [done|].
  inversion Hl as [|?? Ha Hl']; subst.
  rewrite from_ok by (rewrite !length_app; unfold srhFixedLen, addrLen; lia). rbind.
  rewrite addrs_cons, <- app_assoc.
  replace (pre ++ addr16 a ++ addrs l ++ rest) with ((pre ++ addr16 a) ++ addrs l ++ rest) by by rewrite <- app_assoc.
  rewrite IH by (try done; rewrite length_app, length_addr16, Hp; lia). rbind. do 2 f_equal.
  rewrite <- app_assoc, drop_app_length' by (unfold srhFixedLen, addrLen; lia).
  unfold gocopy. rewrite length_replicate, take_app_length' by (by rewrite length_addr16).
  rewrite drop_ge, app_nil_r by (rewrite length_app, length_addr16, length_replicate; lia).
  by apply AddrFrom16_addr16.
Qed.

Lemma length_wire vtc plen hop src dst nh left segs inner :
  length vtc = 4%nat →
  length (wire vtc plen hop src dst nh left segs inner) = (48 + 16 * length segs + length inner)%nat.
Proof.
  intros Hv. unfold wire. rewrite !length_app, length_be_to, !length_addr16, length_addrs, Hv.
  cbn [length]. lia.
Qed.

Section in_flight.
Context (vtc : list Z) (plen : Z) (src : Addr) (nh : Z) (segs : list Addr) (inner : list Z).
Context (v0 : Z) (Hv : length vtc = 4%nat) (Hv0 : vtc !! 0%nat = Some v0) (H6 : Z.shiftr v0 4 = 6).
Context (Hs : Forall seg_ok segs) (Hn : (1 ≤ length segs ≤ 16)%nat).

Abbreviation pkt hop dst left := (wire vtc plen hop src dst nh left segs inner).

Lemma vtc_shape : ∃ v1 v2 v3, vtc = [v0; v1; v2; v3].
Proof.
  destruct vtc as [|a [|b [|c [|d [|]]]]]; try done. injection Hv0 as ->. eauto.
Qed.

Lemma length_front hop dst : length (front vtc plen hop src dst) = 40%nat.
Proof. unfold front. rewrite !length_app, !length_be_to, !length_addr16, Hv. done. Qed.

Lemma wire_fixed hop dst left :
  pkt hop dst left !! 0%nat = Some v0 ∧ pkt hop dst left !! 6%nat = Some 43 ∧
  pkt hop dst left !! 7%nat = Some hop ∧ slice (pkt hop dst left) 24 40 = Ok (addr16 dst) ∧
  from (pkt hop dst left) 40 = Ok (routing nh left segs inner).
Proof.
  destruct vtc_shape as (v1 & v2 & v3 & E). split_and!; [by rewrite E; unfold wire..| |].
  - assert (length (vtc ++ be_to 2 plen ++ [43; hop] ++ addr16 src) = 24%nat) as Hl
      by (rewrite !length_app, length_be_to, length_addr16, Hv; done).
    rewrite wire_front. unfold front. rewrite !app_assoc, <- !app_assoc.
    replace (vtc ++ be_to 2 plen ++ [43; hop] ++ addr16 src ++ addr16 dst ++ routing nh left segs inner)
      with ((vtc ++ be_to 2 plen ++ [43; hop] ++ addr16 src) ++ addr16 dst ++ routing nh left segs inner)
      by (by rewrite <- !app_assoc).
    apply slice_app_exact; rewrite ?length_addr16; lia.
  - rewrite from_ok by (rewrite length_wire by done; lia). f_equal. rewrite wire_front.
    by rewrite drop_app_length' by (by rewrite length_front).
Qed.

Lemma findRouting_wire hop dst left : findRouting (pkt hop dst left) = Ok 40%nat.
Proof.
  destruct (wire_fixed hop dst left) as (_ & E & _). unfold findRouting. by rewrite (idx_Some _ _ _ E).
Qed.

Lemma Parse_wire hop dst left :
  0 ≤ left ≤ Z.of_nat (length segs) →
  Parse (pkt hop dst left) = Ok (mkHeader left segs 0 0 nh 40).
Proof.
  intros Hl. pose proof (findRouting_wire hop dst left) as Hf.
  destruct (wire_fixed hop dst left) as (E0 & _ & _ & _ & E4). unfold Parse.
  rewrite (proj2 (Nat.ltb_ge _ _)) by (rewrite length_wire by done; unfold ipv6HeaderLen; lia).
  rewrite (idx_Some _ _ _ E0). rbind. rewrite H6, Hf. cbn [Z.eqb Pos.eqb negb]. rbind. rewrite E4. rbind.
  assert (length (routing nh left segs inner) = (8 + 16 * length segs + length inner)%nat) as Hrl
    by (unfold routing; rewrite !length_app, length_addrs; simpl; lia).
  rewrite Hrl. rewrite (proj2 (Nat.ltb_ge _ _)) by (unfold srhFixedLen; lia).
  assert (readSegments (length segs) 0 (routing nh left segs inner) = Ok segs) as Hrs
    by (by apply (readSegments_ok segs 0 [_; _; _; _; _; _; _; _])).
  assert (u8 (2 * Z.of_nat (length segs)) = 2 * Z.of_nat (length segs)) as E2
    by (unfold u8; rewrite Z.mod_small; lia).
  assert (u8 (Z.of_nat (length segs) - 1) = Z.of_nat (length segs) - 1) as E1
    by (unfold u8; rewrite Z.mod_small; lia).
  assert (get_be 2 (routing nh left segs inner) 6 = Ok 0) as Et.
  { unfold get_be. rewrite slice_ok by lia. done. }
  change (idx (routing nh left segs inner) 2) with (Ok 4 : res Z).
  change (idx (routing nh left segs inner) 1) with (Ok (u8 (2 * Z.of_nat (length segs)))).
  change (idx (routing nh left segs inner) 4) with (Ok (u8 (Z.of_nat (length segs) - 1))).
  change (idx (routing nh left segs inner) 0) with (Ok nh).
  change (idx (routing nh left segs inner) 3) with (Ok left).
  change (idx (routing nh left segs inner) 5) with (Ok 0).
  cbn [mbind res_bind routingTypeSegment Z.eqb Pos.eqb negb]. rewrite E1, E2, Et. rbind.
  change (4 =? routingTypeSegment) with true. cbn [negb].
  replace (Z.to_nat (Z.of_nat (length segs) - 1) + 1)%nat with (length segs) by lia.
  rewrite !(proj2 (Nat.ltb_ge _ _)) by (unfold srhFixedLen, MaxSegments; lia).
  rewrite Hrs. rbind. by rewrite (proj2 (Z.ltb_ge _ _)) by lia.
Qed.

Lemma wire_set_hop hop hop' dst left : overwrite (pkt hop dst left) 7 [hop'] = pkt hop' dst left.
Proof.
  destruct vtc_shape as (v1 & v2 & v3 & E). unfold wire. rewrite E.
  apply (overwrite_mid [v0; v1; v2; v3; _; _; 43] [hop] [hop']); done.
Qed.

Lemma wire_set_left hop dst left left' : overwrite (pkt hop dst left) 43 [left'] = pkt hop dst left'.
Proof.
  rewrite !wire_front. unfold routing.
  pose proof (overwrite_mid (front vtc plen hop src dst ++ [nh; u8 (2 * Z.of_nat (length segs)); 4]) [left] [left']
    ([u8 (Z.of_nat (length segs) - 1); 0; 0; 0] ++ addrs segs ++ inner) 43) as P.
  rewrite <- !app_assoc in P. apply P; [|done]. by rewrite length_app, length_front.
Qed.

Lemma wire_set_dst hop dst dst' left : overwrite (pkt hop dst left) 24 (addr16 dst') = pkt hop dst' left.
Proof.
  rewrite !wire_front. unfold front.
  pose proof (overwrite_mid (vtc ++ be_to 2 plen ++ [43; hop] ++ addr16 src) (addr16 dst) (addr16 dst')
    (routing nh left segs inner) 24) as P.
  rewrite <- !app_assoc in P |- *. apply P; [|by rewrite !length_addr16].
  by rewrite !length_app, length_be_to, length_addr16, Hv.
Qed.

(** End moves a packet in flight to the next segment of its list. *)
Lemma End_wire hop dst left next :
  0 < left ≤ Z.of_nat (length segs) → 0 ≤ hop < 256 → segs !! Z.to_nat (left - 1) = Some next →
  End_ (pkt hop dst left) =
    if hop <=? 1 then Err ErrHopLimit else Ok (pkt (hop - 1) next (left - 1), next).
Proof.
  intros Hl Hh Hx. unfold End_. rewrite Parse_wire by lia. rbind. cbn [SegmentsLeft Segments Offset].
  rewrite (proj2 (Z.eqb_neq _ _)) by lia.
  destruct (wire_fixed hop dst left) as (_ & _ & E7 & _). rewrite (idx_Some _ _ _ E7). rbind.
  destruct (Z.leb_spec hop 1); [done|].
  rewrite putByte_ok by (rewrite ?length_wire by done; lia). rbind. cbn [Nat.add].
  assert (u8 (hop - 1) = hop - 1) as -> by (unfold u8; rewrite Z.mod_small; lia).
  assert (u8 (left - 1) = left - 1) as -> by (unfold u8; rewrite Z.mod_small; lia).
  rewrite wire_set_hop. rewrite from_ok by (rewrite length_wire by done; lia). rbind.
  rewrite putByte_ok by (rewrite length_wire by done; lia). rbind. cbn [Nat.add].
  rewrite wire_set_left, (idx_Some _ _ _ Hx). rbind.
  rewrite copyAt_ok by (rewrite ?length_wire by done; rewrite ?length_addr16; lia). rbind. by rewrite wire_set_dst.
Qed.

Lemma Decap_wire hop dst :
  nh = NextHeaderIPv4 ∨ nh = NextHeaderIPv6 → inner ≠ [] → Decap (pkt hop dst 0) = Ok (inner, nh).
Proof.
  intros Hk Hi. unfold Decap. destruct (wire_fixed hop dst 0) as (E0 & E6 & _ & _ & E4).
  rewrite (proj2 (Nat.ltb_ge _ _)) by (rewrite length_wire by done; unfold ipv6HeaderLen; lia).
  rewrite (idx_Some _ _ _ E0), (idx_Some _ _ _ E6), Parse_wire by lia. rbind. rewrite H6.
  cbn [Z.eqb Pos.eqb negb SegmentsLeft Offset NextHeader].
  change (40 + 1)%nat with 41%nat.
  assert (idx (pkt hop dst 0) 41 = Ok (u8 (2 * Z.of_nat (length segs)))) as ->.
  { apply idx_Some. rewrite wire_front, lookup_app_r by (rewrite length_front; lia). by rewrite length_front. }
  rbind. unfold u8, srhFixedLen, extensionUnit. rewrite Z.mod_small by lia.
  replace (negb (nh =? NextHeaderIPv4) && negb (nh =? NextHeaderIPv6)) with false
    by (destruct Hk as [-> | ->]; done).
  assert (0 < length inner)%nat by (destruct inner; [done | simpl; lia]).
  rewrite (proj2 (Nat.leb_gt _ _)) by (rewrite length_wire by done; lia).
  rewrite from_ok by (rewrite length_wire by done; lia). rbind. do 2 f_equal.
  rewrite wire_front. unfold routing. rewrite !app_assoc, drop_app_length'; [done|].
  rewrite !length_app, length_front, length_addrs. simpl. lia.
Qed.

End in_flight.

(** ** Encapsulation *)

Lemma usable_inv a : Usable a = true → addr_ok (ip a) → seg_ok (ip a) ∧ a = bare (ip a).
Proof.
  unfold Usable. destruct a as [a z]; cbn [ip zone]. intros H ?. bool_props.
  split; [by split|]. unfold bare. by f_equal.
Qed.

Lemma CheckPath_inv source path :
  CheckPath source path = Ok () →
  (1 ≤ length path ≤ 16)%nat ∧ Usable source = true ∧ Forall (λ a, Usable a = true) path.
Proof.
  unfold CheckPath, MaxSegments. destruct (Nat.eqb_spec (length path) 0); [done|].
  destruct (Nat.ltb_spec 16 (length path)); [done|]. destruct (Usable source); [cbn [negb]|done].
  destruct (forallb Usable path) eqn:E; [|done]. intros _. split_and!; [lia..|done|].
  apply List.Forall_forall. by apply forallb_forall.
Qed.

Lemma CheckPath_ok source path :
  (1 ≤ length path ≤ 16)%nat → Usable source = true → Forall (λ a, Usable a = true) path →
  CheckPath source path = Ok ().
Proof.
  intros Hl Hu Hp. unfold CheckPath, MaxSegments. rewrite (proj2 (Nat.eqb_neq _ _)), (proj2 (Nat.ltb_ge _ _)), Hu by lia.
  cbn [negb]. by rewrite (proj2 (forallb_forall _ _) (proj1 (List.Forall_forall _ _) Hp)).
Qed.

Lemma checkEncapsulation_inv inner source path oh :
  checkEncapsulation inner source path = Ok oh →
  CheckPath source path = Ok () ∧ (∃ nh, innerNextHeader inner = Ok nh) ∧
  8 + 16 * Z.of_nat (length path) + Z.of_nat (length inner) ≤ 65535 ∧ oh = Overhead (length path).
Proof.
  unfold checkEncapsulation. intros ([] & Hc & H)%bind_ok_inv. apply bind_ok_inv in H as (nh & Hn & H).
  unfold srhFixedLen, addrLen in H. destruct (Z.ltb_spec 65535 (Z.of_nat (8 + 16 * length path + length inner))); [done|].
  injection H as <-. split_and!; [done | eauto | lia | done].
Qed.

Lemma checkEncapsulation_ok inner source path nh :
  CheckPath source path = Ok () → innerNextHeader inner = Ok nh →
  8 + 16 * Z.of_nat (length path) + Z.of_nat (length inner) ≤ 65535 →
  checkEncapsulation inner source path = Ok (Overhead (length path)).
Proof.
  intros Hc Hn Hl. unfold checkEncapsulation. rewrite Hc, Hn. rbind.
  by rewrite (proj2 (Z.ltb_ge _ _)) by (unfold srhFixedLen, addrLen; lia).
Qed.

Lemma length_outer nh inner source first rest :
  length (outerVtc nh inner) = 4%nat →
  length (outer nh inner source first rest) = Overhead (S (length rest)).
Proof.
  intros Hv. unfold outer. rewrite length_wire by done. unfold pathAddrs.
  rewrite length_fmap, length_reverse. unfold Overhead, ipv6HeaderLen, srhFixedLen, addrLen. simpl. lia.
Qed.

Lemma outerVtc_shape inner nh :
  innerNextHeader inner = Ok nh →
  length (outerVtc nh inner) = 4%nat ∧ ∃ v0, outerVtc nh inner !! 0%nat = Some v0 ∧ Z.shiftr v0 4 = 6.
Proof.
  intros (b0 & H0 & [(-> & _)|(-> & Hb & Hl)])%innerNextHeader_inv; unfold outerVtc; simpl.
  - split; [done|]. exists 96. done.
  - rewrite length_take, Nat.min_l by lia. split; [done|]. exists b0. split; [|done].
    by rewrite lookup_take_lt by lia.
Qed.

(** What [Encapsulate] answers on every input. *)
Lemma Encapsulate_cases inner source path :
  match checkEncapsulation inner source path with
  | Ok _ => ∃ first rest nh, path = first :: rest ∧ innerNextHeader inner = Ok nh ∧
      Encapsulate inner source path = Ok (outer nh inner source first rest ++ inner)
  | Err e => Encapsulate inner source path = Err e
  | Panic => False
  end.
Proof.
  unfold Encapsulate. destruct (checkEncapsulation inner source path) as [oh|e|] eqn:E; [|done|].
  - destruct (checkEncapsulation_inv _ _ _ _ E) as (Hc & (nh & Hn) & Hl & ->).
    destruct (CheckPath_inv _ _ Hc) as (Hp & _). destruct path as [|first rest]; [simpl in Hp; lia|].
    exists first, rest, nh. split_and!; [done | done |]. rbind. cbn [length] in *.
    rewrite copyAt_ok by (rewrite ?length_replicate; lia). rbind.
    rewrite (writeOuter_ok _ 0 _ nh) by (try done; rewrite ?length_overwrite; rewrite ?length_replicate; lia).
    f_equal. rewrite replicate_add.
    pose proof (overwrite_mid (replicate (Overhead (S (length rest))) 0) (replicate (length inner) 0) inner []
      (Overhead (S (length rest)))) as P. rewrite !app_nil_r in P.
    rewrite P by (by rewrite length_replicate).
    apply (overwrite_mid [] _ _ inner); [done|]. rewrite length_replicate, length_outer; [done|].
    apply (outerVtc_shape _ _ Hn).
  - unfold checkEncapsulation, CheckPath in E.
    pose proof (innerNextHeader_cases inner) as P. destruct (innerNextHeader inner) as [nh|e|]; [| |done];
    repeat (match type of E with context [if ?b then _ else _] => destruct b end; try done).
Qed.

(** ** Along the path *)

(** The packet arrives at one node after another; each acts on it, and a node
    that forwards hands it to the next. *)
Fixpoint relay (nodes : list LocalTable) (raw : list Z) : res (list Z * Result) :=
  match nodes with
  | [] => Ok (raw, ActionPass)
  | [t] => Handle t raw
  | t :: rest =>
      r ← Handle t raw;
      match r.2 with ActionForward _ => relay rest r.1 | _ => Ok r end
  end.

Definition answers (t : LocalTable) (sid : NetAddr) (b : Z) : Prop :=
  ∃ entries, t = Some entries ∧ entries !! sid = Some b.

Lemma last_default {A} (l : list A) x d d' : List.last (x :: l) d = List.last (x :: l) d'.
Proof. revert x. induction l as [|y l IH]; intros x; [done|]. apply (IH y). Qed.

Section along.
Context (vtc : list Z) (plen : Z) (src : Addr) (nh : Z) (path : list Addr) (inner : list Z).
Context (v0 : Z) (Hv : length vtc = 4%nat) (Hv0 : vtc !! 0%nat = Some v0) (H6 : Z.shiftr v0 4 = 6).
Context (Hs : Forall seg_ok path) (Hn : (1 ≤ length path ≤ 16)%nat).
Context (Hk : nh = NextHeaderIPv4 ∨ nh = NextHeaderIPv6) (Hi : inner ≠ []).

Abbreviation pkt hop dst left := (wire vtc plen hop src dst nh left (reverse path) inner).

Lemma segs_ok : Forall seg_ok (reverse path) ∧ (1 ≤ length (reverse path) ≤ 16)%nat.
Proof. rewrite length_reverse. split; [by apply Forall_reverse | done]. Qed.

Lemma Handle_wire t hop dst left b :
  seg_ok dst → answers t (bare dst) b →
  Handle t (pkt hop dst left) =
    if b =? BehaviorEnd then
      match End_ (pkt hop dst left) with
      | Ok (raw, next) => Ok (raw, ActionForward next)
      | Err e => Ok (pkt hop dst left, ActionDrop e)
      | Panic => Panic
      end
    else if b =? BehaviorEndDT46 then
      match Decap (pkt hop dst left) with
      | Ok (got, family) => Ok (pkt hop dst left, ActionDeliver got family)
      | Err e => Ok (pkt hop dst left, ActionDrop e)
      | Panic => Panic
      end
    else Ok (pkt hop dst left, ActionDrop "srv6: carries an unimplemented behavior").
Proof.
  intros Hd (entries & -> & He). destruct segs_ok as [Hs' Hn']. unfold Handle.
  destruct (wire_fixed vtc plen src nh (reverse path) inner v0 Hv Hv0 Hn' hop dst left) as (E0 & _ & _ & Ed & _).
  rewrite (proj2 (Nat.ltb_ge _ _)) by (rewrite length_wire by done; unfold ipv6HeaderLen; lia).
  rewrite (idx_Some _ _ _ E0), Ed. rbind. rewrite H6. cbn [Z.eqb Pos.eqb negb].
  by rewrite AddrFrom16_addr16, He by done.
Qed.

Lemma relay_wire visited cur remaining nodes exit_ hop :
  path = visited ++ cur :: remaining → 0 ≤ hop < 256 →
  Forall2 (λ t w, answers t (bare w) BehaviorEnd) nodes (removelast (cur :: remaining)) →
  answers exit_ (bare (List.last (cur :: remaining) cur)) BehaviorEndDT46 →
  ∃ raw, relay (nodes ++ [exit_]) (pkt hop cur (Z.of_nat (length remaining))) =
    Ok (raw, if decide (remaining = [] ∨ Z.of_nat (length remaining) < hop)
             then ActionDeliver inner nh else ActionDrop ErrHopLimit).
Proof.
  destruct segs_ok as [Hs' Hn'].
  revert visited cur nodes hop. induction remaining as [|r rs IH]; intros visited cur nodes hop Hp Hh Hf Hx.
  - inversion Hf; subst nodes. change (Z.of_nat (length [])) with 0. cbn [List.last] in Hx. rewrite app_nil_l. cbn [relay].
    assert (seg_ok cur) as Hcur by (rewrite Hp in Hs; by apply Forall_app in Hs as [_ [? _]%Forall_cons]).
    exists (pkt hop cur 0). rewrite (Handle_wire exit_ hop cur 0 BehaviorEndDT46) by done. cbn [Z.eqb Pos.eqb].
    rewrite (Decap_wire vtc plen src nh (reverse path) inner v0) by done.
    rewrite decide_True by by left. done.
  - cbn [removelast] in Hf. inversion Hf as [|t ? nodes' ? Ht Hf']; subst nodes.
    assert (seg_ok cur ∧ seg_ok r) as [Hcur Hr].
    { rewrite Hp in Hs. apply Forall_app in Hs as [_ Hs]. rewrite !Forall_cons in Hs. naive_solver. }
    assert (relay ((t :: nodes') ++ [exit_]) (pkt hop cur (Z.of_nat (length (r :: rs)))) =
      (r0 ← Handle t (pkt hop cur (Z.of_nat (length (r :: rs))));
       match r0.2 with ActionForward _ => relay (nodes' ++ [exit_]) r0.1 | _ => Ok r0 end)) as ->.
    { by destruct nodes'. }
    rewrite (Handle_wire t hop cur _ BehaviorEnd) by done. change (BehaviorEnd =? BehaviorEnd) with true. cbn [length].
    assert (length path = (length visited + S (S (length rs)))%nat) as Hlen by (rewrite Hp, length_app; simpl; lia).
    rewrite (End_wire vtc plen src nh (reverse path) inner v0 Hv Hv0 H6 Hs' Hn' hop cur _ r);
      [|rewrite length_reverse; lia | done |].
    2:{ rewrite Hp. replace (visited ++ cur :: r :: rs) with ((visited ++ [cur]) ++ [r] ++ rs) by (by rewrite <- app_assoc).
        rewrite !reverse_app, <- app_assoc. rewrite lookup_app_r by (rewrite length_reverse; lia).
        rewrite length_reverse. by replace (Z.to_nat _ - _)%nat with 0%nat by lia. }
    destruct (Z.leb_spec hop 1).
    + rbind. eexists. rewrite decide_False by (intros [?|?]; [done | lia]). done.
    + rbind. cbn [fst snd]. replace (Z.of_nat (S (length rs)) - 1) with (Z.of_nat (length rs)) by lia.
      destruct (IH (visited ++ [cur]) r nodes' (hop - 1)) as [raw ->]; [by rewrite Hp, <- app_assoc | lia | done | |].
      { cbn [List.last] in Hx. by rewrite (last_default _ _ _ cur). }
      exists raw. do 2 f_equal. destruct rs as [|r' rs].
      * rewrite !decide_True; [done | right; simpl; lia | by left].
      * apply decide_ext. simpl. split; intros [?|?]; try done; right; lia.
Qed.

End along.

Lemma answers_path nodes waypoints :
  Forall (λ a, a = bare (ip a)) waypoints →
  Forall2 (λ t w, answers t w BehaviorEnd) nodes waypoints →
  Forall2 (λ t w, answers t (bare w) BehaviorEnd) nodes (ip <$> waypoints).
Proof.
  intros Hb Hf. induction Hf as [|t w nodes waypoints Ht Hf IH]; [constructor|].
  inversion Hb as [|?? Hw Hb']; subst. constructor; [by rewrite <- Hw | by apply IH].
Qed.

(** C21: Steered delivery. A packet encapsulated for a path of waypoints and an exit
    arrives at one node after another that answers for the segments in order,
    End at the waypoints and End.DT46 at the exit. The exit delivers exactly the
    inner packet and its family when the hop limit of the encapsulation (the
    inner packet's own, or 64 for IPv4) covers the waypoints, and otherwise a
    waypoint drops the packet because the hop limit ran out. *)
Theorem steered_delivery inner source waypoints exit_ nodes last out :
  bytes_ok inner →
  Forall (λ a, addr_ok (ip a)) (waypoints ++ [exit_]) →
  Encapsulate inner source (waypoints ++ [exit_]) = Ok out →
  Forall2 (λ t w, answers t w BehaviorEnd) nodes waypoints →
  answers last exit_ BehaviorEndDT46 →
  ∃ family hop raw, innerNextHeader inner = Ok family ∧ out !! 7%nat = Some hop ∧
    relay (nodes ++ [last]) out =
      Ok (raw, if decide (waypoints = [] ∨ Z.of_nat (length waypoints) < hop)
               then ActionDeliver inner family else ActionDrop ErrHopLimit).
Proof.
  intros Hb Ha He Hf Hl. pose proof (Encapsulate_cases inner source (waypoints ++ [exit_])) as P.
  destruct (checkEncapsulation inner source (waypoints ++ [exit_])) as [oh|e|] eqn:Ec; [|congruence|done].
  destruct P as (first & rest & nh & Ep & Hn & Eo). rewrite Eo in He. injection He as <-.
  destruct (checkEncapsulation_inv _ _ _ _ Ec) as (Hcp & _). destruct (CheckPath_inv _ _ Hcp) as (Hlen & _ & Hu).
  destruct (outerVtc_shape _ _ Hn) as (Hv & v0 & Hv0 & H6).
  destruct (innerNextHeader_inv _ _ Hn) as (b0 & Hb0 & Hk).
  assert (Forall (λ a, seg_ok (ip a) ∧ a = bare (ip a)) (waypoints ++ [exit_])) as Hok.
  { rewrite Forall_forall in Ha, Hu |- *. intros a Hin. by apply usable_inv; [apply Hu | apply Ha]. }
  set (path := ip <$> waypoints ++ [exit_]).
  assert (Forall seg_ok path) as Hs by (unfold path; rewrite Forall_fmap; by eapply Forall_impl; [exact Hok | intros ? []]).
  exists nh, (outerHop nh inner). rewrite outer_app.
  assert (pathAddrs (first :: rest) = reverse path) as -> by (unfold pathAddrs, path; by rewrite Ep, fmap_reverse).
  assert (path = ip first :: (ip <$> rest)) as Epath by (unfold path; by rewrite Ep).
  assert (1 ≤ length path ≤ 16)%nat as Hpl by (unfold path; by rewrite length_fmap).
  assert (0 ≤ outerHop nh inner < 256) as Hhop.
  { unfold outerHop. destruct (nh =? NextHeaderIPv6); [|unfold DefaultHopLimit; lia].
    destruct (inner !! 7%nat) as [h|] eqn:E7; simpl; [|lia]. by apply (Forall_lookup_1 _ _ _ _ Hb E7). }
  assert (length rest = length waypoints) as Elen.
  { apply (f_equal length) in Ep. rewrite length_app in Ep. simpl in Ep. lia. }
  assert (removelast (ip first :: (ip <$> rest)) = ip <$> waypoints ∧ List.last (ip first :: (ip <$> rest)) (ip first) = ip exit_) as [Er El].
  { rewrite <- Epath. unfold path. rewrite fmap_app. cbn [fmap list_fmap]. by rewrite removelast_last, last_last. }
  destruct (relay_wire (outerVtc nh inner) (u16 (Z.of_nat (8 + 16 * S (length rest) + length inner))) (ip source) nh path inner
    v0 Hv Hv0 H6 Hs Hpl) with (visited := @nil Addr) (cur := ip first) (remaining := ip <$> rest)
    (nodes := nodes) (exit_ := last) (hop := outerHop nh inner) as [raw Hr].
  - destruct Hk as [(-> & _)|(-> & _)]; [by left | by right].
  - intros ->. destruct Hk as [(_ & _ & ?)|(_ & _ & ?)]; simpl in *; lia.
  - done.
  - done.
  - rewrite Er. apply answers_path; [|done].
    apply Forall_app in Hok as [Hok _]. by eapply Forall_impl; [exact Hok | intros ? []].
  - rewrite El. apply Forall_app in Hok as [_ [[_ Hx] _]%Forall_cons]. by rewrite <- Hx.
  - exists raw. split_and!; [done | |].
    + by destruct (wire_fixed (outerVtc nh inner) (u16 (Z.of_nat (8 + 16 * S (length rest) + length inner)))
        (ip source) nh (reverse path) inner v0 Hv Hv0 ltac:(by rewrite length_reverse)
        (outerHop nh inner) (ip first) (Z.of_nat (length rest))) as (_ & _ & ? & _).
    + rewrite length_fmap in Hr. rewrite Hr. do 2 f_equal. rewrite Elen. apply decide_ext.
      split; intros [Hw|?]; auto; left; [apply fmap_nil_inv in Hw; subst rest | subst waypoints];
        [destruct waypoints | destruct rest]; done.
Qed.

(** ** In place *)

Lemma i64_id z : 0 ≤ z < 2 ^ 63 → i64 z = z.
Proof. intros H. unfold i64, signed. rewrite Z.mod_small by lia. by rewrite (proj2 (Z.ltb_lt _ _)) by lia. Qed.

Lemma overwrite_moved (buf a b : list Z) off :
  (off + length a + length b ≤ length buf)%nat →
  overwrite (overwrite buf (off + length a) b) off a = overwrite buf off (a ++ b).
Proof.
  intros H. apply list_eq. intros i.
  rewrite !lookup_overwrite by slen. rewrite length_app.
  repeat case_bool_decide; try lia; try done.
  - by rewrite lookup_app_l by lia.
  - rewrite lookup_app_r by lia. f_equal. lia.
Qed.

(** In place is the same encapsulation. For a packet inside a buffer,
    [EncapsulateInPlace] fails with the error [Encapsulate] fails with; where the
    encapsulation fits behind the offset it leaves exactly the bytes [Encapsulate]
    returns there, everything else in the buffer as it was, and returns their
    number; where it does not fit, or the packet is not inside the buffer, it
    reports an error. *)
Theorem in_place_equals_fresh buf offset size source path :
  Z.of_nat (length buf) < 2 ^ 62 → offset < 2 ^ 62 → size < 2 ^ 62 →
  if bool_decide (0 ≤ offset ∧ 0 ≤ size ∧ offset + size ≤ Z.of_nat (length buf)) then
    match Encapsulate (read buf (Z.to_nat offset) (Z.to_nat size)) source path with
    | Panic => False
    | Err e => EncapsulateInPlace buf offset size source path = Err e
    | Ok out =>
        if Z.of_nat (length buf) <? offset + Z.of_nat (length out)
        then EncapsulateInPlace buf offset size source path = Err "srv6: encapsulating needs more than the buffer has"
        else EncapsulateInPlace buf offset size source path =
               Ok (overwrite buf (Z.to_nat offset) out, Z.of_nat (length out))
    end
  else EncapsulateInPlace buf offset size source path = Err "srv6: a packet is not inside the buffer".
Proof.
  intros Hb Ho Hz. unfold EncapsulateInPlace. case_bool_decide as E.
  - destruct E as (Ho0 & Hz0 & Hin). rewrite !i64_id by lia.
    rewrite (proj2 (Z.ltb_ge offset 0)), (proj2 (Z.ltb_ge size 0)), (proj2 (Z.ltb_ge (Z.of_nat _) _)) by lia. cbn [orb].
    rewrite (proj2 (Z.ltb_ge (offset + size) offset)) by lia. rewrite slice_read by lia. rbind.
    replace (Z.to_nat offset + Z.to_nat size - Z.to_nat offset)%nat with (Z.to_nat size) by lia.
    set (off := Z.to_nat offset). set (n := Z.to_nat size). set (inner := read buf off n).
    assert (length inner = n) as Hil by (unfold inner; apply length_read; lia).
    pose proof (Encapsulate_cases inner source path) as P.
    destruct (checkEncapsulation inner source path) as [oh|e|] eqn:Ec; [|by rewrite P|done].
    destruct P as (first & rest & nh & -> & Hn & ->). rbind.
    destruct (checkEncapsulation_inv _ _ _ _ Ec) as (Hc & _ & Hl & ->). destruct (CheckPath_inv _ _ Hc) as (Hp & _).
    assert (length (outer nh inner source first rest) = Overhead (length (first :: rest))) as Hol
      by (apply length_outer, (outerVtc_shape _ _ Hn)).
    assert (Overhead (length (first :: rest)) ≤ 304)%nat as Hov by (unfold Overhead, ipv6HeaderLen, srhFixedLen, addrLen; lia).
    rewrite length_app, Hol, Hil. rewrite i64_id by lia.
    set (oh := Overhead (length (first :: rest))) in *.
    destruct (Z.ltb_spec (Z.of_nat (length buf)) (offset + Z.of_nat oh + size)) as [Hx|Hx].
    { by rewrite (proj2 (Z.ltb_lt _ _)) by lia. }
    rewrite (proj2 (Z.ltb_ge _ _)) by lia.
    rewrite copyAt_ok by lia. rbind.
    assert (length (overwrite buf (off + oh) inner) = length buf) as Hbl by (apply length_overwrite; lia).
    rewrite !slice_read by lia. rbind.
    replace (read (overwrite buf (off + oh) inner) (off + oh) (off + oh + n - (off + oh))) with inner.
    2:{ replace (off + oh + n - (off + oh))%nat with (length inner) by lia. by rewrite read_overwrite by lia. }
    rewrite (writeOuter_ok _ off inner nh source first rest); [|done | simpl in Hp; lia |].
    2:{ change (Overhead (S (length rest))) with oh. lia. }
    rbind. rewrite <- Hol at 1. rewrite overwrite_moved by lia. do 2 f_equal. lia.
  - destruct (Z.ltb_spec offset 0); [done|]. destruct (Z.ltb_spec size 0); [done|].
    rewrite i64_id by lia. by rewrite (proj2 (Z.ltb_lt _ _)) by lia.
Qed.

(** ** Witnesses *)

(** A 20-byte IPv4 packet, a waypoint, an exit and the tables that answer. *)
Definition sampleInner : list Z := [69; 0; 0; 20; 0; 0; 0; 0; 64; 17; 0; 0; 10; 0; 0; 1; 10; 0; 0; 2].
Definition sampleAddr (k : Z) : NetAddr := bare (Addr6 (0xfd00 * 2 ^ 112 + k)).
Definition sampleTable (k b : Z) : LocalTable := Some {[ sampleAddr k := b ]}.
Definition sampleOut : list Z :=
  match Encapsulate sampleInner (sampleAddr 1) [sampleAddr 2; sampleAddr 3] with Ok out => out | _ => [] end.

Lemma sampleOut_eq : Encapsulate sampleInner (sampleAddr 1) [sampleAddr 2; sampleAddr 3] = Ok sampleOut.
Proof. vm_compute. reflexivity. Qed.

Lemma sampleInner_ok : bytes_ok sampleInner.
Proof. unfold sampleInner, bytes_ok, byte_ok. repeat (apply List.Forall_cons; [lia|]). apply List.Forall_nil. Qed.

Lemma sample_answers k b : answers (sampleTable k b) (sampleAddr k) b.
Proof. eexists. split; [reflexivity|]. apply lookup_singleton_eq. Qed.

Lemma steered_delivery_witness :
  ∃ raw, relay [sampleTable 2 BehaviorEnd; sampleTable 3 BehaviorEndDT46] sampleOut =
    Ok (raw, ActionDeliver sampleInner 4).
Proof.
  destruct (steered_delivery sampleInner (sampleAddr 1) [sampleAddr 2] (sampleAddr 3)
    [sampleTable 2 BehaviorEnd] (sampleTable 3 BehaviorEndDT46) sampleOut) as (family & hop & raw & Hf & Hh & Hr).
  - apply sampleInner_ok.
  - repeat (apply List.Forall_cons; [simpl; lia|]). apply List.Forall_nil.
  - apply sampleOut_eq.
  - constructor; [apply sample_answers | constructor].
  - apply sample_answers.
  - assert (innerNextHeader sampleInner = Ok 4) as E by (vm_compute; reflexivity). rewrite E in Hf. injection Hf as <-.
    assert (sampleOut !! 7%nat = Some 64) as E7 by (vm_compute; reflexivity). rewrite E7 in Hh. injection Hh as <-.
    exists raw. rewrite decide_True in Hr by (right; simpl; lia). exact Hr.
Defined.

Lemma in_place_equals_fresh_witness :
  EncapsulateInPlace (replicate 4 7 ++ sampleInner ++ replicate 100 9) 4 20 (sampleAddr 1) [sampleAddr 2; sampleAddr 3] =
    Ok (replicate 4 7 ++ sampleOut ++ replicate 20 9, 100).
Proof.
  pose proof (in_place_equals_fresh (replicate 4 7 ++ sampleInner ++ replicate 100 9) 4 20 (sampleAddr 1)
    [sampleAddr 2; sampleAddr 3] ltac:(vm_compute; reflexivity) ltac:(lia) ltac:(lia)) as P.
  rewrite bool_decide_eq_true_2 in P by (vm_compute; repeat split; discriminate).
  change (read _ _ _) with sampleInner in P. rewrite sampleOut_eq in P.
  vm_compute (_ <? _) in P. rewrite P. vm_compute. reflexivity.
Defined.
