(* ===== verification/Srv6Local.v ===== *)
(** * Acting on any packet a peer sends

    [Parse], [End_], [Decap] and [Handle] on arbitrary bytes: they return, and a
    packet forwarded by End has one segment and one hop less. This is what makes
    the loop over a node's own segments come to an end by itself. *)

From S2P Require Import Prelude Netip Store Srv6 Srv6Walk.

(** ** The walk to the routing header *)

Lemma findLoop_cases turns raw next o :
  bytes_ok raw → (o ≤ length raw)%nat →
  match findLoop turns raw next o with
  | Ok o' => (o ≤ o' ≤ length raw)%nat
  | Err _ => True
  | Panic => False
  end.
Proof.
  intros Hb. revert next o. induction turns as [|turns IH]; intros next o Ho; cbn [findLoop]; [done|].
  destruct (next =? nextHeaderRouting); [lia|]. destruct (next =? nextHeaderFragment); [done|].
  destruct (negb _); [done|]. unfold extensionUnit. destruct (Nat.ltb_spec (length raw) (o + 8)); [done|].
  destruct (lookup_lt_is_Some_2 raw o ltac:(lia)) as [x Hx].
  destruct (lookup_lt_is_Some_2 raw (o + 1) ltac:(lia)) as [y Hy].
  rewrite (idx_Some _ _ _ Hx), (idx_Some _ _ _ Hy). rbind.
  destruct (Nat.ltb_spec (length raw) (o + 8 * (1 + Z.to_nat y))); [done|].
  specialize (IH x (o + 8 * (1 + Z.to_nat y))%nat ltac:(lia)).
  destruct (findLoop turns raw x _); [lia | done | done].
Qed.

Lemma findLoop_agree turns raw raw' next o o' :
  bytes_ok raw → length raw' = length raw → (o ≤ length raw)%nat →
  (∀ i, (o ≤ i < o')%nat → raw' !! i = raw !! i) →
  findLoop turns raw next o = Ok o' → findLoop turns raw' next o = Ok o'.
Proof.
  intros Hb Hl. revert next o. induction turns as [|turns IH]; intros next o Ho Hag; cbn [findLoop]; [done|].
  destruct (next =? nextHeaderRouting); [done|]. destruct (next =? nextHeaderFragment); [done|].
  destruct (negb _); [done|]. rewrite Hl. unfold extensionUnit. destruct (Nat.ltb_spec (length raw) (o + 8)); [done|].
  intros (x & Hx & H')%bind_ok_inv. apply bind_ok_inv in H' as (y & Hy & H').
  apply idx_inv in Hx, Hy. destruct (Nat.ltb_spec (length raw) (o + 8 * (1 + Z.to_nat y))) as [|Hle]; [done|].
  pose proof (findLoop_cases turns raw x _ Hb Hle) as P. rewrite H' in P.
  rewrite <- Hag in Hx, Hy by lia. rewrite (idx_Some _ _ _ Hx), (idx_Some _ _ _ Hy). rbind.
  rewrite (proj2 (Nat.ltb_ge _ _)) by lia. apply IH; [lia | | done]. intros i Hi. apply Hag. lia.
Qed.

Lemma findRouting_cases raw :
  bytes_ok raw → (40 ≤ length raw)%nat →
  match findRouting raw with Ok o => (40 ≤ o ≤ length raw)%nat | Err _ => True | Panic => False end.
Proof.
  intros Hb Hl. unfold findRouting. destruct (lookup_lt_is_Some_2 raw 6 ltac:(lia)) as [x Hx].
  rewrite (idx_Some _ _ _ Hx). rbind. by apply findLoop_cases.
Qed.

Lemma findRouting_agree raw raw' o :
  bytes_ok raw → (40 ≤ length raw)%nat → length raw' = length raw → raw' !! 6%nat = raw !! 6%nat →
  (∀ i, (40 ≤ i < o)%nat → raw' !! i = raw !! i) →
  findRouting raw = Ok o → findRouting raw' = Ok o.
Proof.
  intros Hb H40 Hl H6 Hag. unfold findRouting. intros (x & Hx & H)%bind_ok_inv. apply idx_inv in Hx.
  rewrite <- H6 in Hx. rewrite (idx_Some _ _ _ Hx). rbind.
  by apply (findLoop_agree _ raw).
Qed.

(** ** The segment list *)

Lemma readSegments_cases n i srh :
  (8 + 16 * (i + n) ≤ length srh)%nat → ∃ l, readSegments n i srh = Ok l ∧ length l = n.
Proof.
  revert i. induction n as [|n IH]; intros i Hl; cbn [readSegments]; [eauto|].
  rewrite from_ok by (unfold srhFixedLen, addrLen; lia). rbind.
  destruct (IH (S i)) as (l & -> & Hn); [lia|]. rbind. eexists. split; [done|]. simpl. lia.
Qed.

Lemma readSegments_agree n i srh srh' :
  length srh' = length srh → (8 ≤ length srh)%nat → drop 8 srh' = drop 8 srh →
  readSegments n i srh' = readSegments n i srh.
Proof.
  intros Hl H8 Hd. revert i. induction n as [|n IH]; intros i; cbn [readSegments]; [done|]. rewrite IH.
  unfold srhFixedLen, addrLen. destruct (Nat.le_gt_cases (8 + 16 * i) (length srh)).
  - rewrite !from_ok by lia. rewrite <- !drop_drop, Hd. done.
  - unfold from, slice. rewrite !bool_decide_eq_false_2 by lia. done.
Qed.

(** ** What [Parse] accepts *)

(** The bytes of a routing header at [Offset h] that describe themselves. *)
Record parsed (raw : list Z) (h : Header) : Prop := {
  parsed_len : (40 ≤ length raw)%nat;
  parsed_version : ∃ b0, raw !! 0%nat = Some b0 ∧ Z.shiftr b0 4 = 6;
  parsed_found : findRouting raw = Ok (Offset h);
  parsed_kind : raw !! (Offset h + 2)%nat = Some routingTypeSegment;
  parsed_fits : ∃ ext last, raw !! (Offset h + 1)%nat = Some ext ∧ raw !! (Offset h + 4)%nat = Some last ∧
    (Offset h + 8 + 8 * Z.to_nat ext ≤ length raw)%nat ∧ (2 * (Z.to_nat last + 1) ≤ Z.to_nat ext)%nat ∧
    (length (Segments h) = Z.to_nat last + 1)%nat ∧ (Z.to_nat last < 16)%nat;
  parsed_segments : readSegments (length (Segments h)) 0 (drop (Offset h) raw) = Ok (Segments h);
  parsed_left : raw !! (Offset h + 3)%nat = Some (SegmentsLeft h) ∧
    SegmentsLeft h ≤ Z.of_nat (length (Segments h));
  parsed_rest : raw !! (Offset h)%nat = Some (NextHeader h) ∧ raw !! (Offset h + 5)%nat = Some (Flags h) ∧
    get_be 2 (drop (Offset h) raw) 6 = Ok (Tag h) }.

Lemma idx_drop {A} (l : list A) o i : idx (drop o l) i = idx l (o + i).
Proof. unfold idx. by rewrite lookup_drop. Qed.

Lemma Parse_cases raw :
  bytes_ok raw →
  match Parse raw with Ok h => parsed raw h | Err _ => True | Panic => False end.
Proof.
  intros Hb. unfold Parse, ipv6HeaderLen. destruct (Nat.ltb_spec (length raw) 40) as [|H40]; [done|].
  destruct (lookup_lt_is_Some_2 raw 0 ltac:(lia)) as [b0 H0]. rewrite (idx_Some _ _ _ H0). rbind.
  destruct (Z.eqb_spec (Z.shiftr b0 4) 6) as [H6|]; [cbn [negb]|done].
  pose proof (findRouting_cases raw Hb H40) as Pf. destruct (findRouting raw) as [o|e|] eqn:Ef; [|done|done]. rbind.
  rewrite from_ok by lia. rbind. unfold srhFixedLen. rewrite length_drop.
  destruct (Nat.ltb_spec (length raw - o) 8) as [|H8]; [done|]. rewrite !idx_drop.
  assert (∀ i, (i < 8)%nat → ∃ x, raw !! (o + i)%nat = Some x ∧ idx raw (o + i) = Ok x) as Hix.
  { intros i Hi. destruct (lookup_lt_is_Some_2 raw (o + i) ltac:(lia)) as [x Hx]. exists x. by rewrite (idx_Some _ _ _ Hx). }
  destruct (Hix 2%nat ltac:(lia)) as (x2 & Hx2 & ->). rbind. destruct (Z.eqb_spec x2 routingTypeSegment) as [->|]; [cbn [negb]|done].
  destruct (Hix 1%nat ltac:(lia)) as (x1 & Hx1 & ->). rbind.
  destruct (Nat.ltb_spec (length raw - o) (8 + 8 * Z.to_nat x1)) as [|Hfit]; [done|].
  destruct (Hix 4%nat ltac:(lia)) as (x4 & Hx4 & ->). rbind.
  destruct (Nat.ltb_spec (Z.to_nat x1) (2 * (Z.to_nat x4 + 1))) as [|Hcnt]; [done|].
  unfold MaxSegments. destruct (Nat.ltb_spec 16 (Z.to_nat x4 + 1)) as [|Hmax]; [done|].
  destruct (Hix 0%nat ltac:(lia)) as (x0 & Hx0 & ->). rewrite Nat.add_0_r in Hx0. rbind.
  destruct (Hix 3%nat ltac:(lia)) as (x3 & Hx3 & ->). rbind.
  destruct (Hix 5%nat ltac:(lia)) as (x5 & Hx5 & ->). rbind.
  destruct (get_be 2 (drop o raw) 6) as [tag|e|] eqn:Et;
    [|by unfold get_be in Et; rewrite slice_ok in Et by (rewrite ?length_drop; lia)..].
  rbind. destruct (readSegments_cases (Z.to_nat x4 + 1) 0 (drop o raw)) as (l & Hl & Hll); [rewrite length_drop; lia|].
  rewrite Hl. rbind. destruct (Z.ltb_spec (Z.of_nat (Z.to_nat x4 + 1)) x3) as [|Hleft]; [done|].
  split; cbn [Offset Segments SegmentsLeft NextHeader Flags Tag]; try done; rewrite ?Hll; eauto.
  - exists x1, x4. split_and!; try done; lia.
Qed.

Lemma Parse_intro raw h : bytes_ok raw → parsed raw h → Parse raw = Ok h.
Proof.
  intros Hb [H40 (b0 & H0 & H6) Hf Hk (ext & last & H1 & H4 & Hfit & Hcnt & Hll & Hmax) Hs (H3 & Hleft) (Hnh & H5 & Ht)].
  destruct h as [left segs flags tag nh o]. cbn [Offset Segments SegmentsLeft NextHeader Flags Tag] in *.
  assert (o + 8 ≤ length raw)%nat as Ho by lia.
  unfold Parse, ipv6HeaderLen, srhFixedLen, MaxSegments.
  rewrite (proj2 (Nat.ltb_ge _ _)) by lia. rewrite (idx_Some _ _ _ H0). rbind. rewrite H6, Hf. rbind.
  cbn [Z.eqb Pos.eqb negb]. rewrite from_ok by lia. rbind. rewrite length_drop, !idx_drop, Nat.add_0_r.
  rewrite (proj2 (Nat.ltb_ge _ _)) by lia. rewrite (idx_Some _ _ _ Hk). rbind. rewrite Z.eqb_refl. cbn [negb].
  rewrite (idx_Some _ _ _ H1). rbind. rewrite (proj2 (Nat.ltb_ge _ _)) by lia. rewrite (idx_Some _ _ _ H4). rbind.
  rewrite !(proj2 (Nat.ltb_ge _ _)) by lia.
  rewrite (idx_Some _ _ _ Hnh), (idx_Some _ _ _ H3), (idx_Some _ _ _ H5), Ht. rbind.
  rewrite <- Hll, Hs. rbind. by rewrite (proj2 (Z.ltb_ge _ _)) by lia.
Qed.

(** ** End on any bytes *)

(** The packet End leaves behind. *)
Definition ended (raw : list Z) (h : Header) (hop : Z) (next : Addr) : list Z :=
  overwrite (overwrite (overwrite raw 7 [hop - 1]) (Offset h + 3) [SegmentsLeft h - 1]) 24 (addr16 next).

Lemma lookup_byte raw i x : bytes_ok raw → raw !! i = Some x → 0 ≤ x < 256.
Proof. intros Hb H. by apply (Forall_lookup_1 _ _ _ _ Hb H). Qed.

Lemma parsed_offset raw h : bytes_ok raw → parsed raw h → (40 ≤ Offset h)%nat ∧ (Offset h + 8 ≤ length raw)%nat.
Proof.
  intros Hb Hp. pose proof (findRouting_cases raw Hb (parsed_len _ _ Hp)) as P.
  rewrite (parsed_found _ _ Hp) in P. destruct (parsed_fits _ _ Hp) as (? & ? & _ & _ & ? & _). lia.
Qed.

Lemma End_cases raw :
  bytes_ok raw →
  match End_ raw with
  | Ok (raw', next) => ∃ h hop, parsed raw h ∧ raw !! 7%nat = Some hop ∧ 1 < hop < 256 ∧ 0 < SegmentsLeft h ∧
      Segments h !! Z.to_nat (SegmentsLeft h - 1) = Some next ∧ raw' = ended raw h hop next
  | Err e => Parse raw = Err e ∨ ∃ h hop, Parse raw = Ok h ∧ raw !! 7%nat = Some hop ∧
      (SegmentsLeft h = 0 ∧ e = ErrExhausted ∨ SegmentsLeft h ≠ 0 ∧ hop ≤ 1 ∧ e = ErrHopLimit)
  | Panic => False
  end.
Proof.
  intros Hb. unfold End_. pose proof (Parse_cases raw Hb) as P.
  destruct (Parse raw) as [h|e|] eqn:E; [|by left|done]. rbind.
  destruct (parsed_left _ _ P) as (H3 & Hle). pose proof (lookup_byte _ _ _ Hb H3) as Hlb.
  destruct (parsed_offset _ _ Hb P) as (H40 & H8). pose proof (parsed_len _ _ P).
  destruct (parsed_fits _ _ P) as (_ & last & _ & _ & _ & _ & Hll & Hmax).
  destruct (lookup_lt_is_Some_2 raw 7 ltac:(lia)) as [hop Hhop].
  destruct (Z.eqb_spec (SegmentsLeft h) 0); [right; eauto 10|]. pose proof (lookup_byte _ _ _ Hb Hhop).
  rewrite (idx_Some _ _ _ Hhop). rbind. destruct (Z.leb_spec hop 1); [right; eauto 10|].
  rewrite putByte_ok by lia. rbind. cbn [Nat.add].
  assert (u8 (hop - 1) = hop - 1) as -> by (unfold u8; rewrite Z.mod_small; lia).
  assert (u8 (SegmentsLeft h - 1) = SegmentsLeft h - 1) as -> by (unfold u8; rewrite Z.mod_small; lia).
  rewrite from_ok by slen. rbind. rewrite putByte_ok by slen. rbind.
  destruct (lookup_lt_is_Some_2 (Segments h) (Z.to_nat (SegmentsLeft h - 1)) ltac:(lia)) as [next Hnext].
  rewrite (idx_Some _ _ _ Hnext). rbind. rewrite copyAt_ok by (slen; unfold addr16; slen). rbind.
  exists h, hop. split_and!; try done; lia.
Qed.

Section ended.
Context (raw : list Z) (h : Header) (hop : Z) (next : Addr).
Context (Hb : bytes_ok raw) (Hp : parsed raw h) (Hh : 1 < hop < 256) (Hl : 0 < SegmentsLeft h).

Lemma length_ended : length (ended raw h hop next) = length raw.
Proof.
  pose proof (parsed_offset _ _ Hb Hp). pose proof (parsed_len _ _ Hp). unfold ended.
  rewrite !length_overwrite; unfold addr16; slen.
Qed.

Lemma lookup_ended i :
  ended raw h hop next !! i =
    if bool_decide (24 ≤ i < 40)%nat then addr16 next !! (i - 24)%nat
    else if bool_decide (i = Offset h + 3)%nat then Some (SegmentsLeft h - 1)
    else if bool_decide (i = 7)%nat then Some (hop - 1) else raw !! i.
Proof.
  pose proof (parsed_offset _ _ Hb Hp). pose proof (parsed_len _ _ Hp).
  assert (length (addr16 next) = 16%nat) as H16 by apply length_be_to. unfold ended.
  rewrite lookup_overwrite by (rewrite H16; slen). rewrite H16.
  repeat case_bool_decide; try lia; try done; rewrite lookup_overwrite by slen; cbn [length];
    case_bool_decide; try lia; subst; rewrite ?Nat.sub_diag; try done;
    try (replace (i - (Offset h + 3))%nat with 0%nat by lia; done);
    rewrite lookup_overwrite by slen; cbn [length]; case_bool_decide; try lia; try done.
Qed.

Lemma ended_bytes : bytes_ok (ended raw h hop next).
Proof.
  pose proof (lookup_byte _ _ _ Hb (proj1 (parsed_left _ _ Hp))) as Hlb.
  apply Forall_lookup. intros i x. rewrite lookup_ended. repeat case_bool_decide.
  - apply (Forall_lookup_1 _ _ _ _ (be_to_ok 16 (As16 next))).
  - intros [= <-]. unfold byte_ok. lia.
  - intros [= <-]. unfold byte_ok. lia.
  - apply (Forall_lookup_1 _ _ _ _ Hb).
Qed.

(** The rewritten packet parses as before, one segment further along. *)
Lemma ended_parsed :
  parsed (ended raw h hop next)
    (mkHeader (SegmentsLeft h - 1) (Segments h) (Flags h) (Tag h) (NextHeader h) (Offset h)).
Proof.
  destruct (parsed_offset _ _ Hb Hp) as [H40 H8]. pose proof length_ended as Hlen.
  pose proof Hp as [P40 (b0 & H0 & H6) Hf Hk (ext & last & H1 & H4 & Hfit & Hcnt & Hll & Hmax) Hs (H3 & Hleft) (Hnh & H5 & Ht)].
  assert (∀ i, (i < 24 ∨ 40 ≤ i)%nat → i ≠ 7%nat → i ≠ (Offset h + 3)%nat → ended raw h hop next !! i = raw !! i) as Hag.
  { intros i ? ? ?. rewrite lookup_ended. by rewrite !bool_decide_eq_false_2 by lia. }
  assert (∀ k, (4 ≤ k)%nat → drop k (drop (Offset h) (ended raw h hop next)) = drop k (drop (Offset h) raw)) as Hdrop.
  { intros k Hk4. apply list_eq. intros i. rewrite !lookup_drop. apply Hag; lia. }
  split; cbn [Offset Segments SegmentsLeft NextHeader Flags Tag].
  - lia.
  - exists b0. by rewrite Hag by lia.
  - apply (findRouting_agree raw); try done; [by apply Hag; lia|]. intros i Hi. apply Hag; lia.
  - by rewrite Hag by lia.
  - exists ext, last. rewrite !Hag by lia. split_and!; try done; lia.
  - rewrite <- Hs. apply readSegments_agree; rewrite ?length_drop; [lia | lia | by apply Hdrop; lia].
  - split; [|lia]. rewrite lookup_ended. by rewrite bool_decide_eq_false_2, bool_decide_eq_true_2 by lia.
  - rewrite !Hag by lia. split_and!; try done. rewrite <- Ht. unfold get_be.
    rewrite !slice_ok by (rewrite ?length_drop; lia). rbind. do 2 f_equal. by rewrite Hdrop by lia.
Qed.

End ended.

(** ** Exits and the table *)

Lemma Decap_cases raw :
  bytes_ok raw →
  match Decap raw with
  | Ok (inner, family) => (family = 4 ∨ family = 41) ∧ ∃ k, (k < length raw)%nat ∧ inner = drop k raw
  | Err _ => True
  | Panic => False
  end.
Proof.
  intros Hb. unfold Decap, ipv6HeaderLen. destruct (Nat.ltb_spec (length raw) 40) as [|H40]; [done|].
  destruct (lookup_lt_is_Some_2 raw 0 ltac:(lia)) as [b0 H0]. rewrite (idx_Some _ _ _ H0). rbind.
  destruct (negb _); [done|]. destruct (lookup_lt_is_Some_2 raw 6 ltac:(lia)) as [b6 H6].
  rewrite (idx_Some _ _ _ H6). rbind. pose proof (Parse_cases raw Hb) as P.
  assert (∀ ou : nat * Z,
    match (let '(offset, upper) := ou in
      if negb (upper =? NextHeaderIPv4) && negb (upper =? NextHeaderIPv6) then Err "srv6: an exit cannot deliver next header"
      else if (length raw <=? offset)%nat then Err "srv6: the packet ends where its payload should start"
      else inner ← from raw offset; Ok (inner, upper)) with
    | Ok (inner, family) => (family = 4 ∨ family = 41) ∧ ∃ k, (k < length raw)%nat ∧ inner = drop k raw
    | Err _ => True
    | Panic => False
    end) as Hou.
  { intros [offset upper]. unfold NextHeaderIPv4, NextHeaderIPv6.
    destruct (Z.eqb_spec upper 4), (Z.eqb_spec upper 41); cbn [negb andb]; try done;
      (destruct (Nat.leb_spec (length raw) offset); [done|]; rewrite from_ok by lia; rbind; eauto). }
  destruct (Parse raw) as [h|e|]; [|destruct (negb (Is e ErrNotSegmentRouted)); [done|]; rbind; apply (Hou (40%nat, b6))|done].
  destruct (negb (SegmentsLeft h =? 0)); [done|].
  destruct (parsed_fits _ _ P) as (ext & _ & H1 & _). rewrite (idx_Some _ _ _ H1). rbind. apply (Hou (_, _)).
Qed.

(** What [Handle] does to any packet: it is untouched unless a waypoint forwards
    it, and then it is what End left behind. *)
Lemma Handle_cases t raw :
  bytes_ok raw →
  ∃ raw' r, Handle t raw = Ok (raw', r) ∧
    match r with
    | ActionForward next => ∃ h hop, parsed raw h ∧ raw !! 7%nat = Some hop ∧ 1 < hop < 256 ∧ 0 < SegmentsLeft h ∧
        Segments h !! Z.to_nat (SegmentsLeft h - 1) = Some next ∧ raw' = ended raw h hop next
    | _ => raw' = raw
    end.
Proof.
  intros Hb. unfold Handle, ipv6HeaderLen. destruct t as [entries|]; [|by exists raw, ActionPass].
  destruct (Nat.ltb_spec (length raw) 40) as [|H40]; [by exists raw, ActionPass|].
  destruct (lookup_lt_is_Some_2 raw 0 ltac:(lia)) as [b0 H0]. rewrite (idx_Some _ _ _ H0). rbind.
  destruct (negb _); [by exists raw, ActionPass|]. rewrite slice_ok by lia. rbind.
  destruct (entries !! _) as [b|]; [|by exists raw, ActionPass].
  destruct (b =? BehaviorEnd); [|destruct (b =? BehaviorEndDT46)].
  - pose proof (End_cases raw Hb) as P. destruct (End_ raw) as [[raw' next]|e|]; [|by eexists _, (ActionDrop e)|done].
    by exists raw', (ActionForward next).
  - pose proof (Decap_cases raw Hb) as P. destruct (Decap raw) as [[inner family]|e|]; [by eexists _, (ActionDeliver _ _)|by eexists _, (ActionDrop e)|done].
  - by eexists _, (ActionDrop _).
Qed.

Definition isForward (r : Result) : bool := match r with ActionForward _ => true | _ => false end.

Lemma actLoop_done turns t raw r : isForward r = false → actLoop turns t raw r = Ok (raw, r).
Proof. by destruct turns, r. Qed.

(** With as many turns as segments remain the loop settles, and further turns
    change nothing. *)
Lemma actLoop_settles turns t raw r h :
  bytes_ok raw → parsed raw h → SegmentsLeft h < Z.of_nat turns → isForward r = true →
  ∃ raw' r', (∀ more, (turns ≤ more)%nat → actLoop more t raw r = Ok (raw', r')) ∧
    r' ≠ ActionPass ∧ bytes_ok raw' ∧ length raw' = length raw ∧
    (isForward r' = true → Handle t raw' = Ok (raw', ActionPass)).
Proof.
  revert raw r h. induction turns as [|turns IH]; intros raw r h Hb Hp Hl Hr.
  { pose proof (lookup_byte _ _ _ Hb (proj1 (parsed_left _ _ Hp))). lia. }
  assert (∃ next, r = ActionForward next) as [next ->] by (destruct r; try done; eauto).
  destruct (Handle_cases t raw Hb) as (raw1 & r1 & E1 & H1).
  assert (∀ more, (S turns ≤ more)%nat → actLoop more t raw (ActionForward next) =
    match r1 with ActionPass => Ok (raw1, ActionForward next) | _ => actLoop (pred more) t raw1 r1 end) as Hstep.
  { intros [|more] Hm; [lia|]. cbn [actLoop pred]. rewrite E1. rbind. cbn [fst snd]. by destruct r1. }
  destruct r1 as [|next1|inner family|why]; [| |subst raw1..].
  - subst raw1. exists raw, (ActionForward next). split_and!; try done.
  - destruct H1 as (h1 & hop & Hp1 & Hhop & Hh & Hpos & Hnext & ->).
    assert (h1 = h) as -> by (apply (Parse_intro raw) in Hp, Hp1; congruence).
    destruct (IH (ended raw h hop next1) (ActionForward next1) _ (ended_bytes raw h hop next1 Hb Hp1 Hh Hpos)
      (ended_parsed raw h hop next1 Hb Hp1)) as (raw' & r' & Hall & Hnp & Hb' & Hlen & Hset);
      [cbn [SegmentsLeft]; lia | done |].
    exists raw', r'. split_and!; try done; [|by rewrite Hlen, length_ended by done].
    intros more Hm. rewrite Hstep by done. apply Hall. lia.
  - exists raw, (ActionDeliver inner family). split_and!; try done. intros more Hm. by rewrite Hstep, actLoop_done.
  - exists raw, (ActionDrop why). split_and!; try done. intros more Hm. by rewrite Hstep, actLoop_done.
Qed.

(** What the loop settles on, whatever bound of at least [MaxSegments] it has. *)
Lemma acting_settles t raw :
  bytes_ok raw →
  ∃ raw' r, (∀ more, (MaxSegments ≤ more)%nat → (first ← Handle t raw; actLoop more t first.1 first.2) = Ok (raw', r)) ∧
    bytes_ok raw' ∧ length raw' = length raw ∧
    (∀ next, r = ActionForward next → Handle t raw' = Ok (raw', ActionPass)) ∧
    (r = ActionPass → raw' = raw ∧ Handle t raw = Ok (raw, ActionPass)).
Proof.
  intros Hb. destruct (Handle_cases t raw Hb) as (raw1 & r1 & -> & H1). rbind. cbn [fst snd].
  destruct (isForward r1) eqn:Ef.
  - assert (∃ next, r1 = ActionForward next) as [next ->] by (destruct r1; try done; eauto).
    destruct H1 as (h & hop & Hp & Hhop & Hh & Hpos & Hnext & ->).
    assert (SegmentsLeft h ≤ 16).
    { destruct (parsed_left _ _ Hp) as [_ ?]. destruct (parsed_fits _ _ Hp) as (? & ? & _ & _ & _ & _ & ? & ?). lia. }
    destruct (actLoop_settles MaxSegments t (ended raw h hop next) (ActionForward next) _
      (ended_bytes raw h hop next Hb Hp Hh Hpos) (ended_parsed raw h hop next Hb Hp))
      as (raw' & r' & Hall & Hnp & Hb' & Hlen & Hset); [cbn [SegmentsLeft]; unfold MaxSegments; lia | done |].
    exists raw', r'. split_and!; try done.
    + by rewrite Hlen, length_ended.
    + intros next' ->. by apply Hset.
  - assert (raw1 = raw) as -> by (by destruct r1). exists raw, r1. split_and!; try done.
    + intros more _. by apply actLoop_done.
    + by intros next ->.
    + by intros ->.
Qed.

(** C35: Acting on a node's own segments ends by itself. Whatever bytes a peer sends
    and whatever segments the node answers for, the loop returns without a
    panic; its bound of MaxSegments turns never cuts it short, since more turns
    give the same answer; and a packet it forwards is not addressed to a segment
    of this node any more. *)
Theorem acting_terminates t raw :
  bytes_ok raw →
  ∃ raw' r, actLocally t raw = Ok (raw', r) ∧ bytes_ok raw' ∧ length raw' = length raw ∧
    (∀ more, (MaxSegments ≤ more)%nat →
      (first ← Handle t raw; actLoop more t first.1 first.2) = actLocally t raw) ∧
    (∀ next, r = ActionForward next → Handle t raw' = Ok (raw', ActionPass)) ∧
    (r = ActionPass → raw' = raw ∧ Handle t raw = Ok (raw, ActionPass)).
Proof.
  intros Hb. destruct (acting_settles t raw Hb) as (raw' & r & Hall & H). exists raw', r.
  assert (actLocally t raw = Ok (raw', r)) as -> by (by apply Hall). destruct H as (? & ? & ? & ?). by split_and!.
Qed.

(** A waypoint, on every input. A packet [Parse] refuses is refused with the
    same error; one at its last segment with ErrExhausted; one whose hop limit is
    spent with ErrHopLimit. Any other moves on: only the hop limit, Segments Left
    and the destination change, to the segment the list names, and the packet
    parses as before with one segment less to go. *)
Theorem waypoint_exact raw :
  bytes_ok raw →
  match Parse raw with
  | Panic => False
  | Err e => End_ raw = Err e
  | Ok h => ∃ hop, raw !! 7%nat = Some hop ∧
      if SegmentsLeft h =? 0 then End_ raw = Err ErrExhausted
      else if hop <=? 1 then End_ raw = Err ErrHopLimit
      else ∃ raw' next, End_ raw = Ok (raw', next) ∧
        Segments h !! Z.to_nat (SegmentsLeft h - 1) = Some next ∧
        slice raw' 24 40 = Ok (addr16 next) ∧ raw' !! 7%nat = Some (hop - 1) ∧
        Parse raw' = Ok (mkHeader (SegmentsLeft h - 1) (Segments h) (Flags h) (Tag h) (NextHeader h) (Offset h)) ∧
        ∀ i, (i < 24 ∨ 40 ≤ i)%nat → i ≠ 7%nat → i ≠ (Offset h + 3)%nat → raw' !! i = raw !! i
  end.
Proof.
  intros Hb. pose proof (Parse_cases raw Hb) as P. pose proof (End_cases raw Hb) as Q.
  destruct (Parse raw) as [h|e|] eqn:E; [|unfold End_; by rewrite E|done].
  pose proof (parsed_len _ _ P). destruct (lookup_lt_is_Some_2 raw 7 ltac:(lia)) as [hop Hhop]. exists hop. split; [done|].
  destruct (End_ raw) as [[raw' next]|e|] eqn:Ee; [| |done].
  2:{ destruct Q as [?|(h' & hop' & [= <-] & Hhop' & Q)]; [done|]. simplify_eq.
      destruct Q as [(-> & ->)|(? & ? & ->)]; [done|].
      by rewrite (proj2 (Z.eqb_neq _ _)), (proj2 (Z.leb_le _ _)) by lia. }
  destruct Q as (h' & hop' & Hp & Hhop' & Hh & Hpos & Hnext & ->).
  assert (h' = h) as -> by (apply (Parse_intro raw) in Hp; congruence). assert (hop' = hop) as -> by congruence.
  rewrite (proj2 (Z.eqb_neq _ _)), (proj2 (Z.leb_gt _ _)) by lia.
  pose proof (length_ended raw h hop next Hb Hp) as Hlen. pose proof (parsed_offset _ _ Hb Hp).
  eexists _, next. split_and!; [done | done | | | |].
  - rewrite slice_read by lia. f_equal. apply list_eq. intros i. rewrite lookup_read. case_bool_decide.
    + rewrite (lookup_ended raw h hop next Hb Hp), bool_decide_eq_true_2 by lia. f_equal. lia.
    + symmetry. apply lookup_ge_None_2. unfold addr16. rewrite length_be_to. lia.
  - rewrite (lookup_ended raw h hop next Hb Hp). do 2 rewrite bool_decide_eq_false_2 by lia. by rewrite bool_decide_eq_true_2.
  - apply Parse_intro; [by apply ended_bytes | by apply ended_parsed].
  - intros i ? ? ?. rewrite (lookup_ended raw h hop next Hb Hp). by rewrite !bool_decide_eq_false_2 by lia.
Qed.

(** No packet makes this node panic: parsing, the two behaviors and the table
    return on any bytes; a packet not addressed to one of this node's segments
    passes untouched, and what an exit delivers is the tail of the packet. *)
Theorem packets_safe t raw :
  bytes_ok raw →
  safe (Parse raw) ∧ safe (End_ raw) ∧ safe (Decap raw) ∧
  (∀ inner family, Decap raw = Ok (inner, family) → inner ≠ [] ∧ inner `suffix_of` raw) ∧
  ∃ raw' r, Handle t raw = Ok (raw', r) ∧ length raw' = length raw ∧ (isForward r = false → raw' = raw) ∧
    ((r = ActionPass) ↔ ∀ entries d b, t = Some entries → slice raw 24 40 = Ok d →
       (∃ b0, raw !! 0%nat = Some b0 ∧ Z.shiftr b0 4 = 6) → entries !! bare (AddrFrom16 d) ≠ Some b).
Proof.
  intros Hb. pose proof (Parse_cases raw Hb) as P. pose proof (End_cases raw Hb) as Q. pose proof (Decap_cases raw Hb) as D.
  split_and!; [intros E; by rewrite E in * ..| |].
  - intros inner family E. rewrite E in D. destruct D as (_ & k & Hk & ->). split.
    + intros E0%(f_equal length). rewrite length_drop in E0. simpl in E0. lia.
    + exists (take k raw). by rewrite take_drop.
  - destruct (Handle_cases t raw Hb) as (raw' & r & E & H). exists raw', r. split_and!; [done | | |].
    + destruct r; try (by subst). destruct H as (h & hop & Hp & _ & Hh & Hl & _ & ->). by apply length_ended.
    + by destruct r.
    + clear H. unfold Handle in E. destruct t as [entries|]; [|injection E as <- <-; by split; [intros _ ?|]].
      unfold ipv6HeaderLen in E. destruct (Nat.ltb_spec (length raw) 40) as [|H40].
      { injection E as <- <-. split; [|done]. intros _ ? d b _ (? & ? & _)%slice_inv. lia. }
      destruct (lookup_lt_is_Some_2 raw 0 ltac:(lia)) as [b0 H0]. rewrite (idx_Some _ _ _ H0) in E. cbn [mbind res_bind] in E.
      destruct (Z.eqb_spec (Z.shiftr b0 4) 6) as [H6|H6]; cbn [negb] in E.
      2:{ injection E as <- <-. split; [|done]. intros _ ? d b _ _ (b0' & ? & ?). congruence. }
      rewrite slice_ok in E |- * by lia. cbn [mbind res_bind] in E.
      destruct (entries !! _) as [b|] eqn:Eb.
      * split.
        -- intros ->. exfalso. revert E.
           destruct (b =? BehaviorEnd); [|destruct (b =? BehaviorEndDT46)]; [..|done].
           ++ by destruct (End_ raw) as [[]| |].
           ++ by destruct (Decap raw) as [[]| |].
        -- intros Hno. exfalso. eapply (Hno entries); [done | done | by exists b0 | exact Eb].
      * injection E as <- <-. split; [|done]. intros _ m d b Hm Hd _ Hx.
        assert (take (40 - 24) (drop 24 raw) = d) as <- by congruence. congruence.
Qed.

(** ** Witnesses *)

Lemma sampleOut_ok : bytes_ok sampleOut.
Proof. unfold bytes_ok, byte_ok. apply (bool_decide_unpack _). vm_compute. exact I. Qed.

(** A node that answers for both segments of the sample path. *)
Definition sampleBoth : LocalTable :=
  Some (<[sampleAddr 2 := BehaviorEnd]> {[ sampleAddr 3 := BehaviorEndDT46 ]}).

Lemma acting_terminates_witness :
  ∃ raw', actLocally sampleBoth sampleOut = Ok (raw', ActionDeliver sampleInner 4) ∧ length raw' = length sampleOut.
Proof.
  destruct (acting_terminates sampleBoth sampleOut sampleOut_ok) as (raw' & r & E & _ & Hl & _).
  assert (∃ raw, actLocally sampleBoth sampleOut = Ok (raw, ActionDeliver sampleInner 4)) as [raw Er]
    by (eexists; vm_compute; reflexivity).
  rewrite Er in E. injection E as <- <-. exists raw. split; [exact Er | exact Hl].
Defined.

Lemma waypoint_exact_witness :
  ∃ raw', End_ sampleOut = Ok (raw', ip (sampleAddr 3)) ∧
    Parse raw' = Ok (mkHeader 0 [ip (sampleAddr 3); ip (sampleAddr 2)] 0 0 4 40).
Proof.
  pose proof (waypoint_exact sampleOut sampleOut_ok) as P.
  assert (Parse sampleOut = Ok (mkHeader 1 [ip (sampleAddr 3); ip (sampleAddr 2)] 0 0 4 40)) as E
    by (vm_compute; reflexivity).
  rewrite E in P. destruct P as (hop & H7 & P).
  assert (sampleOut !! 7%nat = Some 64) as E7 by (vm_compute; reflexivity). rewrite E7 in H7. injection H7 as <-.
  cbn [SegmentsLeft Z.eqb Z.leb Z.compare Pos.compare Pos.compare_cont] in P.
  destruct P as (raw' & next & Ee & Hn & _ & _ & Hp & _). injection Hn as <-. exists raw'. split; [exact Ee | exact Hp].
Defined.

Lemma packets_safe_witness : safe (Decap sampleOut) ∧ safe (Parse (take 45 sampleOut)).
Proof.
  split; [apply (packets_safe sampleBoth sampleOut sampleOut_ok)|].
  apply (packets_safe None (take 45 sampleOut)). apply Forall_take, sampleOut_ok.
Defined.

(** A routing header behind a hop-by-hop header is found and acted on. *)
Definition behindOptions : list Z :=
  take 4 sampleOut ++ be_to 2 68 ++ [0; 64] ++ take 32 (drop 8 sampleOut) ++
  [43; 0; 1; 4; 0; 0; 0; 0] ++ drop 40 sampleOut.

Example routing_behind_options : Offset <$> (match Parse behindOptions with Ok h => Some h | _ => None end) = Some 48%nat.
Proof. vm_compute. reflexivity. Qed.
