(* ===== verification/Srv6Icmp.v ===== *)
(** * ICMPv6 errors for refused packets, srv6/icmp.go

    The message that answers a packet a waypoint refused, with its checksum and
    the rules of RFC 4443 that keep one refused packet from turning into many. *)

From S2P Require Import Prelude Checksum Netip Store Packet Srv6 Srv6Walk Srv6Local.

Definition icmpv6Next : Z := 58.
Definition icmpTimeExceeded : Z := 3.
Definition icmpHopLimitInTranst : Z := 0.
Definition icmpParameterProblem : Z := 4.
Definition icmpErroneousHeader : Z := 0.
Definition icmpHeaderLen : nat := 8.
Definition segmentsLeftInHeader : nat := 3.

(** [for i := 0; i+1 < len(b); i += 2]: whole 16-bit words, at the width of a
    uint32. *)
Fixpoint sumPairs (carrying : Z) (b : list Z) : Z :=
  match b with
  | x :: y :: rest => sumPairs (u32 (carrying + be_of [x; y])) rest
  | _ => carrying
  end.

(** [for carrying>>16 != 0]; a uint32 needs two turns ([foldCarry_done]). *)
Fixpoint foldCarry (turns : nat) (carrying : Z) : Z :=
  match turns with
  | O => carrying
  | S turns =>
      if negb (Z.shiftr carrying 16 =? 0)
      then foldCarry turns (u32 (Z.land carrying 0xffff + Z.shiftr carrying 16))
      else carrying
  end.

Definition ones (carrying : Z) (b : list Z) : Z :=
  let carrying := sumPairs carrying b in
  let carrying :=
    if (length b mod 2 =? 1)%nat
    then u32 (carrying + u32 (Z.shiftl (default 0 (b !! (length b - 1)%nat)) 8))
    else carrying in
  foldCarry 2 carrying.

(** The pseudo-header of RFC 8200 section 8.1, as the array holds it. *)
Definition pseudoHeader (source destination : Addr) (n : nat) : list Z :=
  addr16 source ++ addr16 destination ++ be_to 4 (u32 (Z.of_nat n)) ++ [0; 0; 0; icmpv6Next].

Definition icmpChecksum (source destination : Addr) (body : list Z) : Z :=
  let sum := ones 0 (pseudoHeader source destination (length body)) in
  let sum := ones sum body in
  0xffff - u16 sum.

Definition carriesICMPError (offending : list Z) : res bool :=
  next ← idx offending 6;
  np ← match findRouting offending with
       | Ok offset =>
           if (length offending <? offset + srhFixedLen)%nat then Ok None
           else
             next ← idx offending offset;
             len ← idx offending (offset + 1);
             Ok (Some (next, offset + srhFixedLen + extensionUnit * Z.to_nat len)%nat)
       | Err _ => Ok (Some (next, ipv6HeaderLen))
       | Panic => Panic
       end;
  match np with
  | None => Ok false
  | Some (next, payload) =>
      if (next =? icmpv6Next) && (payload <? length offending)%nat
      then kind ← idx offending payload; Ok (kind <? 128)
      else Ok false
  end.

Definition answerable (offending : list Z) : res bool :=
  if (length offending <? ipv6HeaderLen)%nat then Ok false
  else
    b0 ← idx offending 0;
    if negb (Z.shiftr b0 4 =? 6) then Ok false
    else
      f ← slice offending 8 24;
      t ← slice offending 24 40;
      if IsUnspecified (AddrFrom16 f) || IsMulticast (AddrFrom16 f) || IsMulticast (AddrFrom16 t)
      then Ok false
      else e ← carriesICMPError offending; Ok (negb e).

(** [None] is [nil, false]. *)
Definition icmpError (offending : list Z) (source : NetAddr) (kind code pointer : Z) : res (option (list Z)) :=
  if negb (Usable source) then Ok None
  else
    able ← answerable offending;
    if negb able then Ok None
    else
      f ← slice offending 8 24;
      let destination := AddrFrom16 f in
      let quoted := (length offending `min` (MinimumIPv6MTU - ipv6HeaderLen - icmpHeaderLen))%nat in
      let body := replicate (icmpHeaderLen + quoted) 0 in
      body ← putByte body 0 (length body) 0 kind;
      body ← putByte body 0 (length body) 1 code;
      body ← putBE 4 body 4 (length body) pointer;
      quote ← slice offending 0 quoted;
      body ← copyAt body icmpHeaderLen (length body) quote;
      let out := replicate (ipv6HeaderLen + length body) 0 in
      out ← putByte out 0 (length out) 0 0x60;
      out ← putBE 2 out 4 (length out) (u16 (Z.of_nat (length body)));
      out ← putByte out 0 (length out) 6 icmpv6Next;
      out ← putByte out 0 (length out) 7 DefaultHopLimit;
      out ← copyAt out 8 (length out) (addr16 (ip source));
      out ← copyAt out 24 (length out) (addr16 destination);
      out ← copyAt out ipv6HeaderLen (length out) body;
      out ← putBE 2 out (ipv6HeaderLen + 2) (length out) (icmpChecksum (ip source) destination body);
      Ok (Some out).

Definition TimeExceeded (offending : list Z) (source : NetAddr) : res (option (list Z)) :=
  icmpError offending source icmpTimeExceeded icmpHopLimitInTranst 0.

Definition ParameterProblem (offending : list Z) (source : NetAddr) : res (option (list Z)) :=
  if (length offending <? ipv6HeaderLen)%nat then Ok None
  else
    match findRouting offending with
    | Ok offset =>
        icmpError offending source icmpParameterProblem icmpErroneousHeader
          (u32 (Z.of_nat (offset + segmentsLeftInHeader)))
    | Err _ => Ok None
    | Panic => Panic
    end.

(** ** One's complement sums *)

(** The even part of a message and its last byte. *)
Lemma sumPairs_words c b :
  bytes_ok b → 0 ≤ c → c + 65535 * Z.of_nat (length b) < 2 ^ 32 →
  sumPairs c b = c + words (take (2 * (length b / 2)) b).
Proof.
  revert c. induction b as [|x|x y l IH] using pair_ind; intros c Hb Hc Hl.
  - cbn [sumPairs length]. simpl. lia.
  - cbn [sumPairs length]. change (1 / 2)%nat with 0%nat. simpl. lia.
  - inversion Hb as [|?? Hx Hb']; subst. inversion Hb' as [|?? Hy Hl']; subst. unfold byte_ok in *.
    cbn [length] in *. replace (S (S (length l)) / 2)%nat with (S (length l / 2))%nat.
    2:{ replace (S (S (length l))) with (length l + 1 * 2)%nat by lia. rewrite Nat.div_add by lia. lia. }
    replace (2 * S (length l / 2))%nat with (S (S (2 * (length l / 2)))) by lia.
    cbn [sumPairs take words]. assert (be_of [x; y] = x * 256 + y) as -> by (unfold be_of; simpl; lia).
    rewrite u32_id by lia. rewrite IH by (done || lia). lia.
Qed.

Lemma words_split b :
  words b = words (take (2 * (length b / 2)) b) +
    (if (length b mod 2 =? 1)%nat then default 0 (b !! (length b - 1)%nat) * 256 else 0).
Proof.
  induction b as [|x|x y l IH] using pair_ind; [done | done |].
  cbn [length]. replace (S (S (length l))) with (length l + 1 * 2)%nat by lia.
  rewrite Nat.div_add, Nat.Div0.mod_add by lia. replace (2 * (length l / 2 + 1))%nat with (S (S (2 * (length l / 2)))) by lia.
  cbn [take words]. rewrite IH at 1. destruct (Nat.eqb_spec (length l mod 2) 1) as [E|E]; [|lia].
  destruct l as [|z l']; [done|]. replace (length (z :: l') + 1 * 2 - 1)%nat with (S (S (length (z :: l') - 1))) by (simpl; lia).
  set (k := (length (z :: l') - 1)%nat). change ((x :: y :: z :: l') !! S (S k)) with ((z :: l') !! k).
  generalize (default 0 ((z :: l') !! k)). intros. lia.
Qed.

(** Two turns fold a uint32: the result has 16 bits, the value modulo 65535,
    and is zero only for zero. *)
Lemma foldCarry_done c :
  0 ≤ c < 2 ^ 32 → foldCarry 2 c = if c =? 0 then 0 else (c - 1) mod 65535 + 1.
Proof.
  intros Hc. cbn [foldCarry].
  assert (∀ d, 0 ≤ d < 2 ^ 32 → (Z.shiftr d 16 =? 0) = (d <? 65536)) as Hs.
  { intros d Hd. rewrite Z.shiftr_div_pow2 by lia. change (2 ^ 16) with 65536.
    destruct (Z.ltb_spec d 65536); [apply Z.eqb_eq | apply Z.eqb_neq]; divlia. }
  rewrite Hs by done. rewrite (proj1 (fold_step c Hc)). set (d := c mod 65536 + c / 65536).
  assert (0 ≤ d ≤ 131070 ∧ (65536 ≤ c → d < c)) as Hd by (unfold d; divlia).
  rewrite Hs, (proj1 (fold_step d ltac:(lia))) by lia.
  destruct (Z.ltb_spec c 65536); cbn [negb].
  - destruct (Z.eqb_spec c 0); [lia|]. rewrite Z.mod_small; lia.
  - destruct (Z.ltb_spec d 65536); cbn [negb]; destruct (Z.eqb_spec c 0); try lia; unfold d in *; divlia.
Qed.

Lemma ones_words c b :
  bytes_ok b → 0 ≤ c < 65536 → Z.of_nat (length b) < 2 ^ 15 →
  ones c b = foldCarry 2 (c + words b).
Proof.
  intros Hb Hc Hl. unfold ones. rewrite sumPairs_words by (done || lia).
  rewrite (words_split b). pose proof (words_len (take (2 * (length b / 2)) b)) as P.
  specialize (P ltac:(by apply Forall_take)). rewrite length_take in P.
  destruct (Nat.eqb_spec (length b mod 2) 1); [|f_equal; lia].
  assert (0 ≤ default 0 (b !! (length b - 1)%nat) < 256) as Hd.
  { destruct (b !! _) as [x|] eqn:E; simpl; [|lia]. by apply (Forall_lookup_1 _ _ _ _ Hb E). }
  rewrite Z.shiftl_mul_pow2 by lia. change (2 ^ 8) with 256.
  rewrite (u32_id (_ * 256)) by lia. rewrite u32_id by lia. f_equal. lia.
Qed.

(** A message with its checksum filled in sums to all ones. *)
Lemma icmp_checksum_verifies source destination a b :
  bytes_ok a → bytes_ok b → length a = 2%nat → Z.of_nat (length b) < 2 ^ 14 →
  let c := icmpChecksum source destination (a ++ [0; 0] ++ b) in
  0 ≤ c < 65536 ∧
  ones (ones 0 (pseudoHeader source destination (length (a ++ be_to 2 c ++ b)))) (a ++ be_to 2 c ++ b) = 0xffff.
Proof.
  intros Ha Hb Hl Hn c.
  assert (∀ n, bytes_ok (pseudoHeader source destination n) ∧ length (pseudoHeader source destination n) = 40%nat) as Hps.
  { intros n. unfold pseudoHeader, addr16. split.
    - unfold bytes_ok. rewrite !Forall_app. split_and!; [apply be_to_ok.. |].
      repeat (apply List.Forall_cons; [unfold byte_ok, icmpv6Next; lia|]). apply List.Forall_nil.
    - rewrite !length_app, !length_be_to. done. }
  set (n := length (a ++ [0; 0] ++ b)).
  assert (length (a ++ be_to 2 c ++ b) = n) as -> by (unfold n; rewrite !length_app, length_be_to; done).
  assert (Z.of_nat n < 2 ^ 15) as Hn' by (unfold n; rewrite !length_app, Hl; simpl length; lia).
  destruct (Hps n) as [Hp1 Hp2].
  assert (0 ≤ words (pseudoHeader source destination n) < 2 ^ 32) as Hw
    by (pose proof (words_len _ Hp1) as W; rewrite Hp2 in W; lia).
  set (p := ones 0 (pseudoHeader source destination n)).
  assert (0 ≤ p < 65536) as Hpb.
  { unfold p. rewrite ones_words by (done || lia || (rewrite Hp2; lia)). rewrite foldCarry_done by lia.
    destruct (_ =? 0); [lia|]. pose proof (Z.mod_pos_bound (0 + words (pseudoHeader source destination n) - 1) 65535). lia. }
  assert (bytes_ok [0; 0]) as H00 by (repeat (apply List.Forall_cons; [unfold byte_ok; lia|]); apply List.Forall_nil).
  assert (0 ≤ words a + words b < 2 ^ 31) as Hab.
  { pose proof (words_len _ Ha). pose proof (words_len _ Hb). rewrite Hl in *. lia. }
  assert (length a mod 2 = 0)%nat as Hev by (by rewrite Hl).
  assert (ones p (a ++ [0; 0] ++ b) = foldCarry 2 (p + words a + words b)) as Es.
  { rewrite ones_words; [|by rewrite !bytes_ok_app | lia | fold n; lia]. f_equal.
    rewrite words_app by done. cbn [app words]. lia. }
  assert (c = 65535 - foldCarry 2 (p + words a + words b)) as Ec.
  { unfold c, icmpChecksum. fold n. fold p. rewrite Es. rewrite u16_id; [done|].
    rewrite foldCarry_done by lia. destruct (_ =? 0); [lia|].
    pose proof (Z.mod_pos_bound (p + words a + words b - 1) 65535). lia. }
  rewrite foldCarry_done in Ec by lia.
  assert (0 ≤ c < 65536) as Hc.
  { rewrite Ec. destruct (_ =? 0); [lia|]. pose proof (Z.mod_pos_bound (p + words a + words b - 1) 65535). lia. }
  split; [done|]. fold p.
  rewrite ones_words; [|by rewrite !bytes_ok_app; split_and!; try done; apply be_to_ok | lia |
    rewrite !length_app, length_be_to in *; unfold n in Hn'; rewrite !length_app in Hn'; simpl in Hn'; lia].
  rewrite words_app by done.
  assert (words (be_to 2 c ++ b) = c + words b) as ->.
  { rewrite words_app by (by rewrite length_be_to). f_equal.
    rewrite <- (be_of_be_to_small 2 c) at 2 by (change (256 ^ Z.of_nat 2) with 65536; lia).
    unfold be_of. cbn [be_to words fold_left]. lia. }
  rewrite foldCarry_done by lia. destruct (Z.eqb_spec (p + words a + words b) 0).
  - destruct (Z.eqb_spec (p + (words a + (c + words b))) 0); [lia|]. divlia.
  - destruct (Z.eqb_spec (p + (words a + (c + words b))) 0); [divlia|]. divlia.
Qed.

(** ** The message *)

Lemma overwrite_pad s off a z :
  read s (off + length a) (length z) = z → overwrite s off a = overwrite s off (a ++ z).
Proof.
  unfold read, overwrite. intros E. rewrite length_app, <- !app_assoc. do 2 f_equal.
  rewrite <- (take_drop (length z) (drop (off + length a) s)) at 1. rewrite E, drop_drop.
  do 2 f_equal. lia.
Qed.

Lemma read_zeros n off k : (off + k ≤ n)%nat → read (replicate n 0) off k = replicate k 0.
Proof. intros H. unfold read. rewrite drop_replicate, take_replicate. f_equal. lia. Qed.

Definition icmpBody (kind code cks pointer : Z) (quote : list Z) : list Z :=
  [kind; code] ++ be_to 2 cks ++ be_to 4 pointer ++ quote.

Definition icmpBytes (kind code cks pointer : Z) (source destination : Addr) (quote : list Z) : list Z :=
  [0x60; 0; 0; 0] ++ be_to 2 (Z.of_nat (8 + length quote)) ++ [icmpv6Next; DefaultHopLimit] ++
  addr16 source ++ addr16 destination ++ icmpBody kind code cks pointer quote.

Lemma length_icmpBody kind code cks pointer quote :
  length (icmpBody kind code cks pointer quote) = (8 + length quote)%nat.
Proof. unfold icmpBody. rewrite !length_app, !length_be_to. simpl. lia. Qed.

Lemma length_icmpBytes kind code cks pointer source destination quote :
  length (icmpBytes kind code cks pointer source destination quote) = (48 + length quote)%nat.
Proof.
  unfold icmpBytes. rewrite !length_app, !length_be_to, !length_addr16, length_icmpBody. simpl. lia.
Qed.

Lemma set_checksum kind code c pointer source d quote :
  overwrite (icmpBytes kind code 0 pointer source d quote) 42 (be_to 2 c) = icmpBytes kind code c pointer source d quote.
Proof.
  unfold icmpBytes, icmpBody.
  pose proof (overwrite_mid ([96; 0; 0; 0] ++ be_to 2 (Z.of_nat (8 + length quote)) ++ [icmpv6Next; DefaultHopLimit] ++
    addr16 source ++ addr16 d ++ [kind; code]) (be_to 2 0) (be_to 2 c) (be_to 4 pointer ++ quote) 42) as P.
  rewrite <- !app_assoc in P. apply P; [|by rewrite !length_be_to]. by rewrite !length_app, !length_addr16, length_be_to.
Qed.

Lemma carriesICMPError_safe raw : bytes_ok raw → (40 ≤ length raw)%nat → ∃ b, carriesICMPError raw = Ok b.
Proof.
  intros Hb Hl. unfold carriesICMPError. destruct (lookup_lt_is_Some_2 raw 6 ltac:(lia)) as [x Hx].
  rewrite (idx_Some _ _ _ Hx). rbind. pose proof (findRouting_cases raw Hb Hl) as P.
  assert (∀ next payload, ∃ b, (if (next =? icmpv6Next) && (payload <? length raw)%nat
    then kind ← idx raw payload; Ok (kind <? 128) else Ok false) = Ok b) as Hk.
  { intros next payload. destruct (_ =? _); [|by exists false]. cbn [andb].
    destruct (Nat.ltb_spec payload (length raw)); [|by exists false].
    destruct (lookup_lt_is_Some_2 raw payload) as [k Ek]; [lia|]. rewrite (idx_Some _ _ _ Ek). rbind. eauto. }
  destruct (findRouting raw) as [o|e|]; [| |done]; [|rbind; apply Hk].
  unfold srhFixedLen. destruct (Nat.ltb_spec (length raw) (o + 8)); [rbind; eauto|].
  destruct (lookup_lt_is_Some_2 raw o ltac:(lia)) as [y Hy]. rewrite (idx_Some _ _ _ Hy). rbind.
  destruct (lookup_lt_is_Some_2 raw (o + 1) ltac:(lia)) as [z Hz]. rewrite (idx_Some _ _ _ Hz). rbind. apply Hk.
Qed.

(** The packets an error may answer: IPv6, from one interface to one interface,
    and not an ICMPv6 error. *)
Definition mayAnswer (raw : list Z) : Prop :=
  (40 ≤ length raw)%nat ∧ (∃ b0, raw !! 0%nat = Some b0 ∧ Z.shiftr b0 4 = 6) ∧
  IsUnspecified (AddrFrom16 (read raw 8 16)) = false ∧ IsMulticast (AddrFrom16 (read raw 8 16)) = false ∧
  IsMulticast (AddrFrom16 (read raw 24 16)) = false ∧ carriesICMPError raw = Ok false.

Lemma answerable_exact raw : bytes_ok raw → ∃ b, answerable raw = Ok b ∧ (b = true ↔ mayAnswer raw).
Proof.
  intros Hb. unfold answerable, mayAnswer, ipv6HeaderLen. destruct (Nat.ltb_spec (length raw) 40) as [|H40].
  { exists false. split; [done|]. split; [done | intros (? & _); lia]. }
  destruct (lookup_lt_is_Some_2 raw 0 ltac:(lia)) as [b0 H0]. rewrite (idx_Some _ _ _ H0). rbind.
  destruct (Z.eqb_spec (Z.shiftr b0 4) 6) as [H6|H6]; cbn [negb].
  2:{ exists false. split; [done|]. split; [done | intros (_ & (b & ? & ?) & _); congruence]. }
  rewrite !slice_read by lia. rbind. change (24 - 8)%nat with 16%nat. change (40 - 24)%nat with 16%nat.
  destruct (IsUnspecified _); cbn [orb]; [exists false; naive_solver|].
  destruct (IsMulticast (AddrFrom16 (read raw 8 16))); cbn [orb]; [exists false; naive_solver|].
  destruct (IsMulticast (AddrFrom16 (read raw 24 16))); [exists false; naive_solver|].
  destruct (carriesICMPError_safe raw Hb H40) as [e ->]. rbind. exists (negb e). split; [done|].
  destruct e; cbn [negb]; split; try done; [naive_solver|]. intros _. split_and!; try done. by exists b0.
Qed.

Lemma overwrite_all (s b : list Z) : length s = length b → overwrite s 0 b = b.
Proof. intros E. unfold overwrite. by rewrite take_0, drop_ge, app_nil_r by lia. Qed.

(** Side conditions of consecutive writes into [z]. *)
Ltac side := repeat first [rewrite length_overwrite by side | rewrite length_app | rewrite length_be_to | rewrite length_addr16];
  cbn [length]; lia.

(** The body, written into zeroed storage. *)
Lemma build_body {B} (k : list Z → res B) (raw quote : list Z) q kind code pointer :
  slice raw 0 q = Ok quote →
  (body ← putByte (replicate (icmpHeaderLen + q) 0) 0 (length (replicate (icmpHeaderLen + q) 0)) 0 kind;
   body ← putByte body 0 (length body) 1 code;
   body ← putBE 4 body 4 (length body) pointer;
   quote ← slice raw 0 q;
   body ← copyAt body icmpHeaderLen (length body) quote;
   k body) = k (icmpBody kind code 0 pointer quote).
Proof.
  intros Es. pose proof (slice_length _ _ _ _ Es) as Hq. rewrite Nat.sub_0_r in Hq. unfold icmpHeaderLen.
  set (z := replicate (8 + q) 0). assert (length z = (8 + q)%nat) as Hz by apply length_replicate.
  rewrite (putByte_ok _ 0) by lia. rbind. rewrite Nat.add_0_r. rewrite putByte_next by side. rbind.
  rewrite (overwrite_pad _ 0 _ [0; 0]) by (by unfold z; rewrite read_zeros by (simpl; lia)).
  rewrite putBE_next by side. rbind. rewrite Es. rbind.
  rewrite copyAt_next by side. rbind.
  rewrite overwrite_all by (rewrite !length_app, length_be_to, Hz, Hq; simpl; lia).
  unfold icmpBody. by rewrite <- !app_assoc.
Qed.

Lemma build_packet kind code pointer quote source d c :
  (length quote ≤ 1232)%nat →
  let body := icmpBody kind code 0 pointer quote in
  (out ← putByte (replicate (ipv6HeaderLen + length body) 0) 0 (length (replicate (ipv6HeaderLen + length body) 0)) 0 0x60;
   out ← putBE 2 out 4 (length out) (u16 (Z.of_nat (length body)));
   out ← putByte out 0 (length out) 6 icmpv6Next;
   out ← putByte out 0 (length out) 7 DefaultHopLimit;
   out ← copyAt out 8 (length out) (addr16 source);
   out ← copyAt out 24 (length out) (addr16 d);
   out ← copyAt out ipv6HeaderLen (length out) body;
   out ← putBE 2 out (ipv6HeaderLen + 2) (length out) c;
   Ok (Some out)) = Ok (Some (icmpBytes kind code c pointer source d quote)).
Proof.
  intros Hq body. assert (length body = (8 + length quote)%nat) as Hb by apply length_icmpBody.
  unfold ipv6HeaderLen. set (z := replicate (40 + length body) 0).
  assert (length z = (48 + length quote)%nat) as Hz by (unfold z; rewrite length_replicate; lia).
  assert (u16 (Z.of_nat (length body)) = Z.of_nat (8 + length quote)) as -> by (rewrite u16_id; lia).
  rewrite (putByte_ok _ 0) by lia. rbind. rewrite Nat.add_0_r.
  rewrite (overwrite_pad _ 0 _ [0; 0; 0]) by (by unfold z; rewrite read_zeros by (simpl; lia)).
  change ([96] ++ [0; 0; 0]) with [96; 0; 0; 0].
  rewrite putBE_next by side. rbind. rewrite putByte_next by side. rbind. rewrite putByte_next by side. rbind.
  rewrite copyAt_next by side. rbind. rewrite copyAt_next by side. rbind. rewrite copyAt_next by side. rbind.
  rewrite overwrite_all by side.
  assert ((((((([96; 0; 0; 0] ++ be_to 2 (Z.of_nat (8 + length quote))) ++ [icmpv6Next]) ++ [DefaultHopLimit]) ++
    addr16 source) ++ addr16 d) ++ body) = icmpBytes kind code 0 pointer source d quote) as ->.
  { unfold icmpBytes. rewrite <- !app_assoc. done. }
  rewrite putBE_ok by (rewrite ?length_icmpBytes; lia). rbind. by rewrite set_checksum.
Qed.

Lemma icmpError_cases raw source kind code pointer :
  bytes_ok raw →
  (Usable source = true ∧ mayAnswer raw ∧
   let quote := take 1232 raw in let d := AddrFrom16 (read raw 8 16) in
   icmpError raw source kind code pointer =
     Ok (Some (icmpBytes kind code (icmpChecksum (ip source) d (icmpBody kind code 0 pointer quote)) pointer (ip source) d quote))) ∨
  (¬ (Usable source = true ∧ mayAnswer raw) ∧ icmpError raw source kind code pointer = Ok None).
Proof.
  intros Hb. unfold icmpError. destruct (Usable source) eqn:Eu; cbn [negb]; [|right; split; [naive_solver | done]].
  destruct (answerable_exact raw Hb) as (b & -> & Hm). rbind. destruct b; cbn [negb];
    [|right; split; [intros [_ Hx]; apply Hm in Hx; done | done]].
  assert (mayAnswer raw) as Hma by (by apply Hm). left. split_and!; [done | done |].
  destruct Hma as (H40 & _). rewrite (slice_read raw 8 24) by lia. rbind.
  change (24 - 8)%nat with 16%nat. set (quote := take 1232 raw). set (d := AddrFrom16 (read raw 8 16)).
  assert (slice raw 0 (length raw `min` (MinimumIPv6MTU - ipv6HeaderLen - icmpHeaderLen)) = Ok quote) as Es.
  { change (MinimumIPv6MTU - ipv6HeaderLen - icmpHeaderLen)%nat with 1232%nat. rewrite slice_ok by lia.
    rewrite drop_0, Nat.sub_0_r. unfold quote. f_equal. destruct (Nat.le_ge_cases (length raw) 1232).
    - by rewrite Nat.min_l, !take_ge by lia.
    - by rewrite Nat.min_r by lia. }
  rewrite (build_body _ _ _ _ _ _ _ Es). apply build_packet. unfold quote. rewrite length_take. lia.
Qed.

(** ** What is sent *)

(** A well-formed answer of kind [kind] from [source] to the sender of [raw]:
    one complete IPv6 packet of at most 1280 bytes that quotes the start of the
    refused packet, whose checksum verifies, and which no node may answer with
    another error. *)
Definition goodAnswer (raw : list Z) (source : NetAddr) (kind pointer : Z) (out : list Z) : Prop :=
  (length out ≤ MinimumIPv6MTU)%nat ∧ bytes_ok out ∧
  Addrs out = Ok (ip source, AddrFrom16 (read raw 8 16), 6) ∧
  out !! 6%nat = Some icmpv6Next ∧ out !! 40%nat = Some kind ∧ get_be 4 out 44 = Ok pointer ∧
  drop 48 out = take 1232 raw ∧
  ones (ones 0 (pseudoHeader (ip source) (AddrFrom16 (read raw 8 16)) (length (drop 40 out)))) (drop 40 out) = 0xffff ∧
  answerable out = Ok false.

Section message.
Context (kind cks pointer : Z) (source destination : Addr) (quote : list Z).
Context (Hk : 0 ≤ kind < 128) (Hp : 0 ≤ pointer < 2 ^ 32).
Context (Hq : bytes_ok quote) (Hl : (length quote ≤ 1232)%nat).

Abbreviation msg := (icmpBytes kind 0 cks pointer source destination quote).

Lemma msg_bytes : bytes_ok msg.
Proof.
  unfold icmpBytes, icmpBody, bytes_ok. rewrite !Forall_app.
  split_and!; try apply be_to_ok; try done;
    repeat (apply List.Forall_cons; [unfold byte_ok, icmpv6Next, DefaultHopLimit; lia|]); apply List.Forall_nil.
Qed.

Lemma msg_body : drop 40 msg = icmpBody kind 0 cks pointer quote.
Proof.
  unfold icmpBytes. pose proof (drop_app_length' ([96; 0; 0; 0] ++ be_to 2 (Z.of_nat (8 + length quote)) ++
    [icmpv6Next; DefaultHopLimit] ++ addr16 source ++ addr16 destination) (icmpBody kind 0 cks pointer quote) 40) as P.
  rewrite <- !app_assoc in P. apply P. by rewrite !length_app, !length_addr16, length_be_to.
Qed.

Lemma msg_fields :
  msg !! 0%nat = Some 96 ∧ msg !! 6%nat = Some icmpv6Next ∧ msg !! 40%nat = Some kind ∧
  be_of (take 2 (drop 4 msg)) = Z.of_nat (8 + length quote) ∧
  take 16 (drop 8 msg) = addr16 source ∧ take 16 (drop 24 msg) = addr16 destination ∧
  get_be 4 msg 44 = Ok pointer ∧ drop 48 msg = quote.
Proof.
  assert (length (addr16 source) = 16%nat ∧ length (addr16 destination) = 16%nat) as [H1 H2]
    by (by rewrite !length_addr16).
  split_and!; try done.
  - change (take 2 (drop 4 msg)) with (be_to 2 (Z.of_nat (8 + length quote))).
    apply be_of_be_to_small. change (256 ^ Z.of_nat 2) with 65536. lia.
  - unfold get_be. rewrite slice_ok by (rewrite ?length_icmpBytes; lia). rbind.
    change (take (44 + 4 - 44) (drop 44 msg)) with (be_to 4 pointer). f_equal. by apply be_of_be_to_small.
Qed.

Lemma msg_addrs : seg_ok source → seg_ok destination → Addrs msg = Ok (source, destination, 6).
Proof.
  intros Hs Hd. destruct msg_fields as (H0 & _ & _ & Hlen & Hsrc & Hdst & _).
  pose proof (length_icmpBytes kind 0 cks pointer source destination quote) as Hml.
  destruct (addrs_exact msg msg_bytes) as (s & d & v & -> & _ & Hv & -> & ->).
  assert (claimed msg 6 = Z.of_nat (length msg)) as Hc by (unfold claimed; cbn [Z.eqb Pos.eqb]; rewrite Hlen, Hml; lia).
  assert (v = 6) as ->.
  { apply Hv; [|done]. exists 96. rewrite Hc. split_and!; [done | done | lia |]. right. split_and!; [done | lia |]. lia. }
  cbn [Z.eqb Pos.eqb]. rewrite Hsrc, Hdst. do 2 f_equal. f_equal; by apply AddrFrom16_addr16.
Qed.

(** An error never answers an error. *)
Lemma msg_unanswerable : answerable msg = Ok false.
Proof.
  destruct (answerable_exact msg msg_bytes) as (b & -> & Hm). destruct b; [|done].
  destruct (proj1 Hm eq_refl) as (_ & _ & _ & _ & _ & Hc). exfalso. revert Hc.
  destruct msg_fields as (_ & H6 & H40 & _).
  unfold carriesICMPError, findRouting. rewrite (idx_Some _ _ _ H6). rbind.
  change (findLoop maxExtensionHeaders msg icmpv6Next ipv6HeaderLen) with (Err ErrNotSegmentRouted : res nat). rbind.
  change ipv6HeaderLen with 40%nat. rewrite (proj2 (Nat.ltb_lt _ _)) by (rewrite length_icmpBytes; lia).
  rewrite andb_true_r, Z.eqb_refl, (idx_Some _ _ _ H40). rbind. by rewrite (proj2 (Z.ltb_lt _ _)) by lia.
Qed.

End message.

Lemma sender_ok raw : bytes_ok raw → (24 ≤ length raw)%nat → seg_ok (AddrFrom16 (read raw 8 16)).
Proof.
  intros Hb Hl. split; [done|]. unfold AddrFrom16. cbn [addr_ok].
  pose proof (be_of_bound (read raw 8 16)) as P. rewrite length_read in P by lia.
  apply P. by apply Forall_take, Forall_drop.
Qed.

Lemma icmpError_good raw source kind pointer :
  bytes_ok raw → addr_ok (ip source) → 0 ≤ kind < 128 → 0 ≤ pointer < 2 ^ 32 →
  (Usable source = true ∧ mayAnswer raw ∧
   ∃ out, icmpError raw source kind 0 pointer = Ok (Some out) ∧ goodAnswer raw source kind pointer out) ∨
  (¬ (Usable source = true ∧ mayAnswer raw) ∧ icmpError raw source kind 0 pointer = Ok None).
Proof.
  intros Hb Hs Hk Hp. destruct (icmpError_cases raw source kind 0 pointer Hb) as [(Hu & Hm & E)|?]; [left|by right].
  split_and!; [done | done |]. eexists. split; [exact E|]. clear E. set (d := AddrFrom16 (read raw 8 16)). set (quote := take 1232 raw).
  set (c := icmpChecksum _ _ _). pose proof Hm as (H40 & _).
  assert (bytes_ok quote ∧ (length quote ≤ 1232)%nat) as [Hq Hql] by (unfold quote; split; [by apply Forall_take | rewrite length_take; lia]).
  destruct (usable_inv _ Hu Hs) as [Hsrc _]. assert (seg_ok d) as Hd by (apply sender_ok; [done | lia]).
  destruct (msg_fields kind c pointer (ip source) d quote Hp Hql) as (_ & H6 & Hkind & _ & _ & _ & Hptr & Hdrop).
  split_and!; try done.
  - rewrite length_icmpBytes. unfold MinimumIPv6MTU. lia.
  - by apply msg_bytes.
  - by apply msg_addrs.
  - rewrite msg_body.
    destruct (icmp_checksum_verifies (ip source) d [kind; 0] (be_to 4 pointer ++ quote)) as [_ Hv].
    + repeat (apply List.Forall_cons; [unfold byte_ok; lia|]). apply List.Forall_nil.
    + apply bytes_ok_app. split; [apply be_to_ok | done].
    + done.
    + rewrite length_app, length_be_to. lia.
    + exact Hv.
  - by apply msg_unanswerable.
Qed.

(** Answers to refused packets. For any bytes, [TimeExceeded] and
    [ParameterProblem] return without a panic. They answer exactly the packets
    RFC 4443 lets an error answer (the second only where a routing header is
    found, at whose Segments Left field it points), and each answer is one
    complete IPv6 packet within the minimum MTU, from [source] to the packet's
    sender, with a checksum that verifies; it is never itself answered, so one
    refused packet causes at most one. *)
Theorem refusals_answered raw source :
  bytes_ok raw → addr_ok (ip source) → Z.of_nat (length raw) < 2 ^ 31 →
  (∃ r, TimeExceeded raw source = Ok r ∧
    match r with
    | Some out => goodAnswer raw source icmpTimeExceeded 0 out
    | None => ¬ (Usable source = true ∧ mayAnswer raw)
    end) ∧
  (∃ r, ParameterProblem raw source = Ok r ∧
    match r with
    | Some out => ∃ offset, findRouting raw = Ok offset ∧
        goodAnswer raw source icmpParameterProblem (Z.of_nat (offset + segmentsLeftInHeader)) out
    | None => ¬ (Usable source = true ∧ mayAnswer raw ∧ is_ok (findRouting raw) = true)
    end).
Proof.
  intros Hb Hs Hl. split.
  - unfold TimeExceeded, icmpTimeExceeded, icmpHopLimitInTranst.
    destruct (icmpError_good raw source 3 0 Hb Hs) as [(_ & _ & out & -> & Hg)|[Hn ->]]; [lia.. | |]; eauto.
  - unfold ParameterProblem, ipv6HeaderLen. destruct (Nat.ltb_spec (length raw) 40) as [|H40].
    { exists None. split; [done|]. intros (_ & (? & _) & _). lia. }
    pose proof (findRouting_cases raw Hb H40) as P. destruct (findRouting raw) as [o|e|]; [| |done].
    + unfold segmentsLeftInHeader. rewrite u32_id by lia. unfold icmpParameterProblem, icmpErroneousHeader.
      destruct (icmpError_good raw source 4 (Z.of_nat (o + 3)) Hb Hs) as [(_ & _ & out & -> & Hg)|[Hn ->]]; [lia.. | |].
      * exists (Some out). split; [done|]. by exists o.
      * exists None. split; [done|]. naive_solver.
    + exists None. split; [done|]. naive_solver.
Qed.

(** The sample encapsulation refused at its first waypoint. *)
Lemma refusals_answered_witness :
  ∃ out, TimeExceeded sampleOut (sampleAddr 2) = Ok (Some out) ∧ goodAnswer sampleOut (sampleAddr 2) 3 0 out.
Proof.
  destruct (refusals_answered sampleOut (sampleAddr 2) sampleOut_ok) as [(r & E & H) _];
    [simpl; lia | vm_compute; reflexivity |].
  assert (∃ out, TimeExceeded sampleOut (sampleAddr 2) = Ok (Some out)) as [out Eo] by (eexists; vm_compute; reflexivity).
  rewrite Eo in E. injection E as <-. exists out. split; [exact Eo | exact H].
Defined.
