(* ===== verification/Srv6Steer.v ===== *)
(** * Steering a node's own packets, srv6/steer.go and netstack/segments.go

    Which of this node's packets go through a segment list: the table built from
    the configuration over the routing table's trie, the MTU arithmetic that goes
    with it, and the step of the outbound path that encapsulates a packet a
    policy claims. The line a diagnostic prints for an entry is left out. *)

From S2P Require Import Prelude Netip Store Packet Sadr SadrSources SadrSpec SadrTable Srv6 Srv6Walk.

Record Policy := mkPolicy { PolicySource : NetAddr; PolicyPath : list NetAddr }.

#[export] Instance Policy_eq_dec : EqDecision Policy.
Proof. solve_decision. Defined.

Definition policyOverhead (p : option Policy) : nat :=
  match p with None => 0 | Some p => Overhead (length (PolicyPath p)) end.

Record Steer := mkSteer { From : Prefix; To : Prefix; SteerSource : NetAddr; Via : list NetAddr }.

Definition policy (s : Steer) (fallback : NetAddr) : Policy :=
  mkPolicy (if addr_valid (ip (SteerSource s)) then SteerSource s else fallback) (Via s).

Record SteerTable := mkSteerTable {
  table : Sadr.Table Policy;
  policies : list Policy;
  overhead : nat }.

Definition anyDestination (source : Prefix) : Prefix :=
  if Is4 (prefix_addr source) then PrefixFrom (Addr4 0) 0 else PrefixFrom (Addr6 0) 0.

(** The tests of one selector that is written. *)
Definition checkSelector (prefix : Prefix) : res () :=
  if negb (IsValid prefix) then Ok ()
  else if Is4In6 (prefix_addr prefix) then Err "srv6: cap.segment steer is a v4-mapped prefix, which no packet is looked up under"
  else if negb (bool_decide (Masked prefix = prefix)) then Err "srv6: cap.segment steer has bits set below its prefix length"
  else if Bits prefix =? 0 then Err "srv6: cap.segment steer selects every address of its family"
  else Ok ().

(** The refusals of one entry, in order; the destination it is stored under. *)
Definition checkSteer (entry : Steer) (p : Policy) : res Prefix :=
  if negb (addr_valid (ip (PolicySource p))) then Err "srv6: cap.segment steer names no source, its own or the block's"
  else
    _ ← CheckPath (PolicySource p) (PolicyPath p);
    if negb (IsValid (From entry)) && negb (IsValid (To entry)) then
      Err "srv6: a cap.segment steer entry selecting neither from nor to would steer every packet this node sends"
    else if IsValid (From entry) && IsValid (To entry) &&
            negb (Bool.eqb (Is4 (prefix_addr (From entry))) (Is4 (prefix_addr (To entry)))) then
      Err "srv6: cap.segment steer names two address families"
    else
      _ ← checkSelector (From entry);
      _ ← checkSelector (To entry);
      Ok (if negb (IsValid (To entry)) then anyDestination (From entry) else To entry).

Fixpoint addSteers (out : SteerTable) (seen : gset (Prefix * Prefix)) (entries : list Steer) (source : NetAddr) :
    res SteerTable :=
  match entries with
  | [] => Ok out
  | entry :: rest =>
      let p := policy entry source in
      destination ← checkSteer entry p;
      let selector := (From entry, destination) in
      if bool_decide (selector ∈ seen) then Err "srv6: two cap.segment steer entries select"
      else
        addSteers
          (mkSteerTable (Sadr.Set_ (table out) (From entry) destination p) (policies out ++ [p])
             (overhead out `max` policyOverhead (Some p)))
          ({[selector]} ∪ seen) rest source
  end.

(** [None] is the nil table. *)
Definition NewSteerTable (entries : list Steer) (source : NetAddr) : res (option SteerTable) :=
  if (length entries =? 0)%nat then Ok None
  else t ← addSteers (mkSteerTable None [] 0) ∅ entries source; Ok (Some t).

Definition Lookup (t : option SteerTable) (source destination : Addr) : option Policy :=
  match t with None => None | Some t => Sadr.Lookup (table t) source destination end.

Definition tableOverhead (t : option SteerTable) : nat :=
  match t with None => 0 | Some t => overhead t end.

Definition CheckMTU (t : option SteerTable) (device : Z) : res Z :=
  let overhead := tableOverhead t in
  if (overhead =? 0)%nat then Ok 0
  else
    let mtu := device - Z.of_nat overhead in
    if mtu <? Z.of_nat MinimumIPv6MTU then Err "srv6: cap.segment steer: the longest segment list leaves the device under the minimum IPv6 requires"
    else Ok mtu.

(** ** The capability, srv6/segments.go *)

Record SegmentsConfig := mkSegments { ConfigSource : NetAddr; Local : list Segment; Steers : list Steer }.

Definition Tables (s : SegmentsConfig) : res (LocalTable * option SteerTable) :=
  local ← NewLocalTable (Local s);
  steering ← NewSteerTable (Steers s) (ConfigSource s);
  Ok (local, steering).

Definition Validate (s : SegmentsConfig) (deviceMTU : Z) : res () :=
  if addr_valid (ip (ConfigSource s)) && negb (Usable (ConfigSource s)) then
    Err "srv6: cap.segment source cannot address a segment routed packet"
  else
    ts ← Tables s;
    if deviceMTU =? 0 then Ok ()
    else _ ← CheckMTU ts.2 deviceMTU; Ok ().

(** ** The outbound step, netstack/segments.go *)

Definition tunOffset : Z := 16.

Inductive steerAction := steerPass | steerSent | steerDrop.

(** The two counters of the mesh [steer] moves. *)
Record steerCounters := mkCounters { segmentsSteered : Z; segmentsUnsteered : Z }.

(** The mesh's steering, the counters, the buffer, the size and the action. *)
Definition steer (t : option SteerTable) (stopped : bool) (c : steerCounters) (buf : list Z) (size : Z)
    (source destination : Addr) : res (steerCounters * list Z * Z * steerAction) :=
  match t with
  | None => Ok (c, buf, size, steerPass)
  | Some _ =>
      if stopped then Ok (c, buf, size, steerPass)
      else
        match Lookup t source destination with
        | None => Ok (c, buf, size, steerPass)
        | Some p =>
            match EncapsulateInPlace buf tunOffset size (PolicySource p) (PolicyPath p) with
            | Err _ => Ok (mkCounters (segmentsSteered c) (u64 (segmentsUnsteered c + 1)), buf, size, steerDrop)
            | Ok (buf, encapsulated) => Ok (mkCounters (u64 (segmentsSteered c + 1)) (segmentsUnsteered c), buf, encapsulated, steerSent)
            | Panic => Panic
            end
        end
  end.

(** ** What the table holds *)

(** An entry as a configuration file gives it: an omitted selector is the zero
    prefix. *)
Definition steer_ok (e : Steer) : Prop :=
  prefix_ok (From e) ∧ prefix_ok (To e) ∧ (IsValid (From e) = false → From e = PrefixZero).

Definition storedUnder (e : Steer) : Prefix :=
  if negb (IsValid (To e)) then anyDestination (From e) else To e.

Lemma checkSelector_inv p : checkSelector p = Ok () → IsValid p = true → Masked p = p.
Proof.
  unfold checkSelector. intros H Hv. rewrite Hv in H. cbn [negb] in H.
  destruct (Is4In6 _); [done|]. destruct (bool_decide (Masked p = p)) eqn:E; [by bool_props | done].
Qed.

Lemma anyDestination_ok s :
  prefix_ok (anyDestination s) ∧ IsValid (anyDestination s) = true ∧ Masked (anyDestination s) = anyDestination s ∧
  Is4 (prefix_addr (anyDestination s)) = Is4 (prefix_addr s) ∧ addr_valid (prefix_addr (anyDestination s)) = true.
Proof.
  unfold anyDestination. destruct (Is4 (prefix_addr s)); split_and!; try done;
    (split; [simpl; lia|]; right; split; [done|]; simpl; lia).
Qed.

Lemma prefix_addr_valid p : prefix_ok p → IsValid p = true → addr_valid (prefix_addr p) = true.
Proof. intros [_ [H|[H _]]] Hv; [|done]. unfold IsValid in Hv. bool_props. lia. Qed.

Lemma BitLen_Is4 a b : addr_valid a = true → addr_valid b = true → Is4 a = Is4 b → BitLen a = BitLen b.
Proof. by destruct a, b. Qed.

Lemma checkSteer_inv e p D :
  steer_ok e → checkSteer e p = Ok D →
  D = storedUnder e ∧ CheckPath (PolicySource p) (PolicyPath p) = Ok () ∧ key_ok (From e) D.
Proof.
  intros (Hf & Ht & Hz). unfold checkSteer. destruct (negb (addr_valid _)); [done|].
  intros ([] & Hc & H)%bind_ok_inv. destruct (negb (IsValid (From e)) && negb (IsValid (To e))) eqn:E1; [done|].
  destruct (IsValid (From e) && IsValid (To e) && _) eqn:E2; [done|].
  apply bind_ok_inv in H as ([] & Hsf & H). apply bind_ok_inv in H as ([] & Hst & H). injection H as <-.
  split_and!; [done | done |].
  assert (Masked (From e) = From e) as Hmf.
  { destruct (IsValid (From e)) eqn:Ef; [by apply checkSelector_inv|]. rewrite (Hz eq_refl). done. }
  destruct (IsValid (To e)) eqn:Et; cbn [negb].
  - split; try done; [by apply checkSelector_inv|]. unfold Sadr.validPrefixes. rewrite Et. cbn [andb].
    destruct (IsValid (From e)) eqn:Ef; [|done]. cbn [negb orb andb] in *. apply Z.eqb_eq.
    apply BitLen_Is4; auto using prefix_addr_valid. apply negb_false_iff, eqb_prop in E2. done.
  - destruct (anyDestination_ok (From e)) as (Ho & Hv & Hm & H4 & Hav). split; try done.
    unfold Sadr.validPrefixes. rewrite Hv. cbn [andb]. destruct (IsValid (From e)) eqn:Ef; [|done].
    apply Z.eqb_eq. apply BitLen_Is4; auto using prefix_addr_valid.
Qed.

(** The map a list of entries describes. *)
Definition describes (M : gmap (Prefix * Prefix) Policy) (entries : list Steer) (source : NetAddr) : Prop :=
  ∀ S D p, M !! (S, D) = Some p ↔ ∃ e, e ∈ entries ∧ From e = S ∧ storedUnder e = D ∧ p = policy e source.

Record steerInv (out : SteerTable) (seen : gset (Prefix * Prefix)) (done : list Steer) (source : NetAddr)
    (M : gmap (Prefix * Prefix) Policy) : Prop := {
  si_refines : R (table out) M;
  si_seen : ∀ k, k ∈ seen ↔ is_Some (M !! k);
  si_map : describes M done source;
  si_paths : ∀ k p, M !! k = Some p →
    CheckPath (PolicySource p) (PolicyPath p) = Ok () ∧ (policyOverhead (Some p) ≤ overhead out)%nat }.

Lemma steerInv_empty source : steerInv (mkSteerTable None [] 0) ∅ [] source ∅.
Proof.
  split; [apply R_empty | | |].
  - intros k. rewrite lookup_empty. split; [set_solver | intros [? ?]; done].
  - intros S D p. rewrite lookup_empty. split; [done | intros (e & ?%elem_of_nil & _); done].
  - intros k p. by rewrite lookup_empty.
Qed.

Lemma addSteers_inv entries out seen done source M t :
  Forall steer_ok entries → steerInv out seen done source M → addSteers out seen entries source = Ok t →
  ∃ seen' M', steerInv t seen' (done ++ entries) source M'.
Proof.
  revert out seen done M. induction entries as [|e entries IH]; intros out seen done M Hok Hi H.
  { injection H as <-. rewrite app_nil_r. eauto. }
  inversion Hok as [|?? He Hok']; subst. cbn [addSteers] in H. apply bind_ok_inv in H as (D & Hc & H).
  destruct (checkSteer_inv _ _ _ He Hc) as (-> & Hp & Hk). case_bool_decide as Hs; [done|].
  destruct Hi as [Hr Hseen Hmap Hpaths].
  replace (done ++ e :: entries) with ((done ++ [e]) ++ entries) by (by rewrite <- app_assoc).
  set (p := policy e source) in *. set (D := storedUnder e) in *.
  assert (M !! (From e, D) = None) as Hnone.
  { apply eq_None_not_Some. by rewrite <- Hseen. }
  eapply (IH _ _ _ (<[(From e, D) := p]> M)); [done | | exact H]. split; cbn [table policies overhead].
  - pose proof (R_set (table out) M (From e) D p Hr (key_src_ok _ _ Hk) (key_dst_ok _ _ Hk)) as HR.
    unfold spec_set in HR. by rewrite (key_valid _ _ Hk), (key_src_masked _ _ Hk), (key_dst_masked _ _ Hk) in HR.
  - intros k. rewrite elem_of_union, elem_of_singleton, lookup_insert_is_Some, Hseen.
    destruct (decide ((From e, D) = k)) as [<-|]; naive_solver.
  - intros S D' p'. rewrite lookup_insert_Some. split.
    + intros [[[= <- <-] <-]|[_ (e' & ? & ?)%Hmap]]; [exists e | exists e']; rewrite elem_of_app; set_solver.
    + intros (e' & [Hin| ->%list_elem_of_singleton]%elem_of_app & HS & HD & Hpe); [right | left; by subst].
      assert (M !! (S, D') = Some p') as Hm by (apply Hmap; eauto). split; [congruence | done].
  - intros k p'. rewrite lookup_insert_Some. intros [[_ <-]|[_ Hm]].
    + split; [done | lia].
    + destruct (Hpaths _ _ Hm). split; [done | lia].
Qed.

Lemma NewSteerTable_inv entries source t :
  Forall steer_ok entries → NewSteerTable entries source = Ok (Some t) →
  ∃ seen M, steerInv t seen entries source M.
Proof.
  intros Hok. unfold NewSteerTable. destruct (_ =? 0)%nat; [done|].
  intros (t' & H & [= ->])%bind_ok_inv. by apply (addSteers_inv entries _ _ [] source ∅ t Hok (steerInv_empty source)).
Qed.

(** Steering follows the configuration. In a table [NewSteerTable] accepts, no
    entry has displaced another: the policies it holds are exactly the entries'
    own, each under the selector that was written, and [Lookup] returns the
    policy of the most specific entry that selects the packet, or none when no
    entry does. *)
Theorem steering_exact entries source t :
  Forall steer_ok entries → NewSteerTable entries source = Ok (Some t) →
  ∃ M, describes M entries source ∧
    ∀ s d, addr_ok s → addr_ok d → best M s d (Lookup (Some t) s d).
Proof.
  intros Hok H. destruct (NewSteerTable_inv _ _ _ Hok H) as (seen & M & [Hr _ Hmap _]).
  exists M. split; [done|]. intros s d Hs Hd. by apply Lookup_best.
Qed.

Lemma Lookup_policy entries source t s d p :
  Forall steer_ok entries → NewSteerTable entries source = Ok (Some t) → addr_ok s → addr_ok d →
  Lookup (Some t) s d = Some p →
  CheckPath (PolicySource p) (PolicyPath p) = Ok () ∧ (policyOverhead (Some p) ≤ overhead t)%nat.
Proof.
  intros Hok H Hs Hd Hl. destruct (NewSteerTable_inv _ _ _ Hok H) as (seen & M & [Hr _ _ Hp]).
  pose proof (Lookup_best _ _ s d Hr Hs Hd) as Hb. unfold Lookup in Hl. rewrite Hl in Hb.
  destruct Hb as (S & D & Hm & _). eauto.
Qed.

(** ** Nothing a policy claims is lost *)

Lemma addrs_inner raw s d v :
  bytes_ok raw → Addrs raw = Ok (s, d, v) → v ≠ 0 →
  (∃ nh, innerNextHeader raw = Ok nh) ∧ addr_ok s ∧ addr_ok d.
Proof.
  intros Hb E Hv. destruct (addrs_exact raw Hb) as (s' & d' & v' & E' & He & _ & -> & ->).
  rewrite E in E'. injection E' as -> -> <-. destruct (He Hv) as [(b & H0 & Hsh & _ & Hk) _].
  assert (∀ k n, (k + n ≤ length raw)%nat → 0 ≤ be_of (take n (drop k raw)) < 256 ^ Z.of_nat n) as Hbd.
  { intros k n Hl. pose proof (be_of_bound (take n (drop k raw))) as P.
    rewrite length_take, length_drop, Nat.min_l in P by lia. apply P. by apply Forall_take, Forall_drop. }
  assert (length raw ≠ 0%nat) by (destruct raw; [done | simpl; lia]).
  split; [|destruct Hk as [(-> & Hl & _)|(-> & Hl & _)]; cbn [Z.eqb Pos.eqb addr_ok]; split; apply Hbd; lia].
  unfold innerNextHeader. rewrite (proj2 (Nat.eqb_neq _ _)), (idx_Some _ _ _ H0) by done. rbind. rewrite Hsh.
  destruct Hk as [(-> & Hl & _)|(-> & Hl & _)]; cbn [Z.eqb Pos.eqb];
    rewrite (proj2 (Nat.ltb_ge _ _)) by (unfold ipv4HeaderLen, ipv6HeaderLen; lia); eauto.
Qed.

Lemma outer_addrs inner nh source first rest :
  bytes_ok inner → innerNextHeader inner = Ok nh → Usable source = true → Usable first = true →
  addr_ok (ip source) → addr_ok (ip first) → (length rest < 16)%nat →
  8 + 16 * Z.of_nat (S (length rest)) + Z.of_nat (length inner) ≤ 65535 →
  Forall (λ a, addr_ok (ip a)) rest →
  Addrs (outer nh inner source first rest ++ inner) = Ok (ip source, ip first, 6).
Proof.
  intros Hb Hn Hus Huf Hs Hf Hr Hl Hrest. destruct (outerVtc_shape _ _ Hn) as (Hv & v0 & Hv0 & H6).
  rewrite outer_app. set (segs := pathAddrs (first :: rest)). set (plen := u16 _).
  assert (length segs = S (length rest)) as Hsl by (unfold segs, pathAddrs; rewrite length_fmap, length_reverse; done).
  destruct (wire_fixed (outerVtc nh inner) plen (ip source) nh segs inner v0 Hv Hv0 ltac:(lia) (outerHop nh inner)
    (ip first) (Z.of_nat (length rest))) as (E0 & _ & _ & Ed & _).
  set (w := wire _ _ _ _ _ _ _ _ _) in *.
  assert (length w = (48 + 16 * S (length rest) + length inner)%nat) as Hw by (unfold w; rewrite length_wire by done; lia).
  assert (plen = 8 + 16 * Z.of_nat (S (length rest)) + Z.of_nat (length inner)) as Hpl by (unfold plen; rewrite u16_id; lia).
  assert (bytes_ok w) as Hbw.
  { unfold w, wire, bytes_ok. rewrite !Forall_app. split_and!; try apply be_to_ok; try done.
    - unfold outerVtc. destruct (_ =? _); [by apply Forall_take|].
      repeat (apply List.Forall_cons; [unfold byte_ok; lia|]). apply List.Forall_nil.
    - repeat (apply List.Forall_cons; [|]); try apply List.Forall_nil; [unfold byte_ok; lia|].
      unfold outerHop. destruct (_ =? _); [|unfold byte_ok, DefaultHopLimit; lia].
      destruct (inner !! 7%nat) as [x|] eqn:E7; [by apply (Forall_lookup_1 _ _ _ _ Hb E7) | simpl; unfold byte_ok; lia].
    - destruct (innerNextHeader_inv _ _ Hn) as (b0 & _ & Hk).
      repeat (apply List.Forall_cons; [unfold byte_ok, u8; rewrite ?Hsl, ?Z.mod_small; lia|]). apply List.Forall_nil.
    - unfold addrs. apply Forall_concat. apply Forall_fmap. apply Forall_true. intros a. apply be_to_ok. }
  assert (take 2 (drop 4 w) = be_to 2 plen) as Etl.
  { unfold w, wire. rewrite drop_app_length' by done.
    rewrite take_app_length' by (by rewrite length_be_to). done. }
  assert (claimed w 6 = Z.of_nat (length w)) as Hc.
  { unfold claimed. cbn [Z.eqb Pos.eqb]. rewrite Etl, be_of_be_to_small by (change (256 ^ Z.of_nat 2) with 65536; lia). lia. }
  destruct (addrs_exact w Hbw) as (s & d & v & -> & _ & Hvv & -> & ->).
  assert (v = 6) as ->.
  { apply Hvv; [|done]. exists v0. rewrite Hc. split_and!; [done | done | lia |]. right. split_and!; [done | lia | lia]. }
  cbn [Z.eqb Pos.eqb]. destruct (usable_inv _ Hus Hs) as [Hss _]. destruct (usable_inv _ Huf Hf) as [Hsf _].
  assert (take 16 (drop 8 w) = addr16 (ip source)) as ->.
  { unfold w, wire.
    pose proof (drop_app_length' (outerVtc nh inner ++ be_to 2 plen ++ [43; outerHop nh inner])
      (addr16 (ip source) ++ addr16 (ip first) ++
       [nh; u8 (2 * Z.of_nat (length segs)); 4; Z.of_nat (length rest); u8 (Z.of_nat (length segs) - 1); 0; 0; 0] ++
       addrs segs ++ inner) 8) as P.
    rewrite <- !app_assoc in P. rewrite P by (by rewrite !length_app, length_be_to, Hv).
    by rewrite take_app_length' by (by rewrite length_addr16). }
  rewrite slice_ok in Ed by lia. injection Ed as Ed. rewrite Ed.
  do 2 f_equal. f_equal; by apply AddrFrom16_addr16.
Qed.

(** Nothing a policy claims is lost. With a steering table the configuration
    yields, on a device whose MTU [CheckMTU] set, a packet that fits that MTU is
    never dropped by [steer]: it passes when no policy selects it, and otherwise
    it leaves encapsulated for that policy's path, within the device's own size,
    as one IPv6 packet from the policy's source to its first segment. *)
Theorem steer_never_drops entries source t device mtu c buf head raw tail s d v :
  Forall steer_ok entries → addr_ok (ip source) →
  Forall (λ e, addr_ok (ip (SteerSource e)) ∧ Forall (λ a, addr_ok (ip a)) (Via e)) entries →
  NewSteerTable entries source = Ok (Some t) → CheckMTU (Some t) device = Ok mtu → device ≤ 65535 →
  bytes_ok raw → Addrs raw = Ok (s, d, v) → v ≠ 0 → Z.of_nat (length raw) ≤ mtu →
  buf = head ++ raw ++ tail → length head = 16%nat → 16 + device ≤ Z.of_nat (length buf) < 2 ^ 62 →
  ∃ c' buf' size action, steer (Some t) false c buf (Z.of_nat (length raw)) s d = Ok (c', buf', size, action) ∧
    match Lookup (Some t) s d with
    | None => action = steerPass ∧ buf' = buf ∧ size = Z.of_nat (length raw)
    | Some p => action = steerSent ∧ size ≤ device ∧ size = Z.of_nat (length raw + Overhead (length (PolicyPath p))) ∧
        ∃ out, Encapsulate raw (PolicySource p) (PolicyPath p) = Ok out ∧ buf' = overwrite buf 16 out ∧
          ∃ first rest, PolicyPath p = first :: rest ∧ Addrs out = Ok (ip (PolicySource p), ip first, 6)
    end.
Proof.
  intros Hok Hsrc Haddr Ht Hm Hdev Hb Ha Hv Hsz Hbuf Hhead Hlen.
  destruct (addrs_inner raw s d v Hb Ha Hv) as ((nh & Hn) & Hsok & Hdok).
  unfold steer. destruct (Lookup (Some t) s d) as [p|] eqn:El; [|by eexists _, _, _, _].
  destruct (Lookup_policy _ _ _ _ _ _ Hok Ht Hsok Hdok El) as [Hcp Hov].
  assert (addr_ok (ip (PolicySource p)) ∧ Forall (λ a, addr_ok (ip a)) (PolicyPath p)) as [Hpa Hpp].
  { destruct (NewSteerTable_inv _ _ _ Hok Ht) as (seen & M & [Hr _ Hmap _]).
    pose proof (Lookup_best _ _ s d Hr Hsok Hdok) as Hbest. unfold Lookup in El. rewrite El in Hbest.
    destruct Hbest as (S & D & (e & Hin & _ & _ & ->)%Hmap & _). rewrite Forall_forall in Haddr.
    destruct (Haddr e Hin) as [H1 H2]. split; [|done]. unfold policy. cbn [PolicySource]. by destruct (addr_valid _). }
  destruct (CheckPath_inv _ _ Hcp) as (Hpl & Hus & Hup). unfold policyOverhead in Hov.
  assert (Z.of_nat (length raw) + Z.of_nat (Overhead (length (PolicyPath p))) ≤ device) as Hfit.
  { unfold CheckMTU, tableOverhead in Hm. destruct (Nat.eqb_spec (overhead t) 0) as [E0|E0].
    - unfold Overhead, ipv6HeaderLen in Hov. lia.
    - destruct (_ <? _); [done|]. injection Hm as <-. lia. }
  assert (8 + 16 * Z.of_nat (length (PolicyPath p)) + Z.of_nat (length raw) ≤ 65535) as Hpay
    by (unfold Overhead, ipv6HeaderLen, srhFixedLen, addrLen in Hfit; lia).
  assert (read buf (Z.to_nat tunOffset) (Z.to_nat (Z.of_nat (length raw))) = raw) as Hread.
  { rewrite Hbuf, Nat2Z.id. unfold read, tunOffset. rewrite drop_app_length' by done. apply take_app_length. }
  pose proof (in_place_equals_fresh buf tunOffset (Z.of_nat (length raw)) (PolicySource p) (PolicyPath p)
    ltac:(lia) ltac:(unfold tunOffset; lia) ltac:(unfold Overhead in *; lia)) as P.
  rewrite bool_decide_eq_true_2 in P by (unfold tunOffset; unfold Overhead, ipv6HeaderLen in Hfit; lia). rewrite Hread in P.
  pose proof (Encapsulate_cases raw (PolicySource p) (PolicyPath p)) as Q.
  rewrite (checkEncapsulation_ok _ _ _ nh Hcp Hn Hpay) in Q. destruct Q as (first & rest & nh' & Ep & Hn' & Eo).
  assert (nh' = nh) as -> by congruence. rewrite Eo in P.
  assert (length (outer nh raw (PolicySource p) first rest ++ raw) = (Overhead (length (PolicyPath p)) + length raw)%nat) as Hol.
  { rewrite length_app, length_outer by apply (outerVtc_shape _ _ Hn). by rewrite Ep. }
  rewrite Hol in P. rewrite (proj2 (Z.ltb_ge _ _)) in P by (unfold tunOffset; lia). rewrite P.
  eexists _, _, _, _. split; [done|]. split_and!; [done | lia | lia |]. eexists. split_and!; [exact Eo | done |].
  exists first, rest. split; [done|]. rewrite Ep in Hup, Hpp, Hpl, Hpay. cbn [length] in *.
  inversion Hup; inversion Hpp; subst. apply outer_addrs; try done. lia.
Qed.

(** ** Witnesses *)

(** Two entries: one by source, one more specific by both. *)
Definition from10 : Prefix := PrefixFrom (Addr4 167772160) 8.
Definition to192 : Prefix := PrefixFrom (Addr4 3221225984) 24.
Definition sampleSteers : list Steer :=
  [ mkSteer from10 PrefixZero (bare AddrInvalid) [sampleAddr 2; sampleAddr 3];
    mkSteer from10 to192 (sampleAddr 9) [sampleAddr 3] ].
Definition sampleSteerTable : SteerTable :=
  match NewSteerTable sampleSteers (sampleAddr 1) with Ok (Some t) => t | _ => mkSteerTable None [] 0 end.

Lemma sampleSteer_eq : NewSteerTable sampleSteers (sampleAddr 1) = Ok (Some sampleSteerTable).
Proof. vm_compute. reflexivity. Qed.

Lemma sampleSteers_ok : Forall steer_ok sampleSteers.
Proof.
  assert (prefix_ok from10 ∧ prefix_ok to192) as [H1 H2].
  { split; (split; [simpl; lia|]); right; (split; [reflexivity | vm_compute; split; discriminate]). }
  repeat (apply List.Forall_cons); [| |apply List.Forall_nil]; (split; [exact H1|]); (split; [|done]);
    [split; [exact I | by left] | exact H2].
Qed.

Lemma steering_exact_witness :
  ∃ M, describes M sampleSteers (sampleAddr 1) ∧
    best M (Addr4 167772161) (Addr4 3221225985) (Some (mkPolicy (sampleAddr 9) [sampleAddr 3])).
Proof.
  destruct (steering_exact sampleSteers (sampleAddr 1) sampleSteerTable sampleSteers_ok sampleSteer_eq) as (M & HM & Hb).
  exists M. split; [exact HM|].
  assert (Lookup (Some sampleSteerTable) (Addr4 167772161) (Addr4 3221225985) = Some (mkPolicy (sampleAddr 9) [sampleAddr 3])) as E
    by (vm_compute; reflexivity).
  rewrite <- E. apply Hb; simpl; lia.
Defined.

(** A packet from 10.0.0.1 to 10.0.0.2 on a device of 1400 bytes. *)
Definition sampleBuf : list Z := replicate 16 0 ++ sampleInner ++ replicate 1400 0.

Lemma steer_never_drops_witness :
  ∃ c buf, steer (Some sampleSteerTable) false (mkCounters 0 0) sampleBuf 20 (Addr4 167772161) (Addr4 167772162) =
    Ok (c, buf, 100, steerSent).
Proof.
  assert (Lookup (Some sampleSteerTable) (Addr4 167772161) (Addr4 167772162) =
    Some (mkPolicy (sampleAddr 1) [sampleAddr 2; sampleAddr 3])) as El by (vm_compute; reflexivity).
  destruct (steer_never_drops sampleSteers (sampleAddr 1) sampleSteerTable 1400 1320 (mkCounters 0 0) sampleBuf
    (replicate 16 0) sampleInner (replicate 1400 0) (Addr4 167772161) (Addr4 167772162) 4)
    as (c' & buf' & size & action & E & H).
  - exact sampleSteers_ok.
  - simpl. lia.
  - repeat (apply List.Forall_cons); [| |apply List.Forall_nil]; (split; [simpl; lia|]);
      repeat (apply List.Forall_cons; [simpl; lia|]); apply List.Forall_nil.
  - exact sampleSteer_eq.
  - vm_compute. reflexivity.
  - lia.
  - exact sampleInner_ok.
  - vm_compute. reflexivity.
  - lia.
  - simpl. lia.
  - reflexivity.
  - reflexivity.
  - vm_compute. split; [discriminate | reflexivity].
  - rewrite El in H. destruct H as (-> & _ & -> & _). exists c', buf'. exact E.
Defined.
