(* ===== verification/NetSegments.v ===== *)
(** * Segment routing on the inbound path, internal/netstack/segments.go

    The batch step that takes packets addressed to this node's own segments out
    of an inbound batch, the answers to refused packets, and the token bucket
    that bounds them. Handing packets to a peer is the caller's next step: the
    definitions return what is to be forwarded and answered, in order. Times are
    nanoseconds since the mesh started. *)

From S2P Require Import Prelude Netip Store Packet Srv6 Srv6Walk Srv6Local Srv6Icmp.

(** ** One inbound batch *)

Record forwardedSegment := mkForwarded { fwdRaw : list Z; fwdNext : Addr }.

(** [deliver] is nil until the first packet that is ours; [refused] holds the
    packets [noteSegmentDrop] and [answerRefused] are called for. *)
Record applied := mkApplied {
  deliver : option (list (list Z));
  forward : list forwardedSegment;
  segmentsDelivered : Z;
  segmentsDropped : Z;
  refused : list (list Z * string) }.

Definition take_ (raw : list (list Z)) (i : nat) (d : option (list (list Z))) : list (list Z) :=
  match d with None => take i raw | Some l => l end.

(** The body of the loop for packet [i]. *)
Definition applyOne (table : LocalTable) (raw : list (list Z)) (i : nat) (packet : list Z) (a : applied) : res applied :=
  r ← actLocally table packet;
  let '(packet', result) := r in
  match result with
  | ActionPass =>
      Ok (mkApplied ((λ l, l ++ [packet]) <$> deliver a) (forward a) (segmentsDelivered a) (segmentsDropped a) (refused a))
  | ActionDeliver inner _ =>
      Ok (mkApplied (Some (take_ raw i (deliver a) ++ [inner])) (forward a) (u64 (segmentsDelivered a + 1))
            (segmentsDropped a) (refused a))
  | ActionForward next =>
      Ok (mkApplied (Some (take_ raw i (deliver a))) (forward a ++ [mkForwarded packet' next]) (segmentsDelivered a)
            (segmentsDropped a) (refused a))
  | ActionDrop why =>
      Ok (mkApplied (Some (take_ raw i (deliver a))) (forward a) (segmentsDelivered a)
            (u64 (segmentsDropped a + 1)) (refused a ++ [(packet', why)]))
  end.

Fixpoint applyLoop (table : LocalTable) (raw : list (list Z)) (i : nat) (rest : list (list Z)) (a : applied) : res applied :=
  match rest with
  | [] => Ok a
  | packet :: rest => a ← applyOne table raw i packet a; applyLoop table raw (S i) rest a
  end.

(** What goes to the tun, and what the loop collected. *)
Definition applySegments (table : LocalTable) (raw : list (list Z)) (delivered dropped : Z) : res (list (list Z) * applied) :=
  match table with
  | None => Ok (raw, mkApplied None [] delivered dropped [])
  | Some _ =>
      a ← applyLoop table raw 0 raw (mkApplied None [] delivered dropped []);
      Ok (default raw (deliver a), a)
  end.

(** The specification: every packet on its own. *)
Definition verdict (table : LocalTable) (packet : list Z) : list Z * Result :=
  match actLocally table packet with Ok r => r | _ => (packet, ActionPass) end.

Definition toTun (table : LocalTable) (packet : list Z) : list (list Z) :=
  match (verdict table packet).2 with
  | ActionPass => [packet]
  | ActionDeliver inner _ => [inner]
  | _ => []
  end.

Definition toPeers (table : LocalTable) (packet : list Z) : list forwardedSegment :=
  match verdict table packet with (p, ActionForward next) => [mkForwarded p next] | _ => [] end.

Definition toRefuse (table : LocalTable) (packet : list Z) : list (list Z * string) :=
  match verdict table packet with (p, ActionDrop why) => [(p, why)] | _ => [] end.

Definition isDelivered (table : LocalTable) (packet : list Z) : bool :=
  match (verdict table packet).2 with ActionDeliver _ _ => true | _ => false end.

Definition isPassed (table : LocalTable) (packet : list Z) : bool :=
  match (verdict table packet).2 with ActionPass => true | _ => false end.

Definition count (p : list Z → bool) (l : list (list Z)) : Z := Z.of_nat (length (List.filter p l)).

Lemma count_snoc p l x : count p (l ++ [x]) = count p l + (if p x then 1 else 0).
Proof.
  unfold count. rewrite List.filter_app, length_app. simpl. destruct (p x); simpl; lia.
Qed.

Lemma u64_succ a b : u64 (u64 (a + b) + 1) = u64 (a + (b + 1)).
Proof. unfold u64. rewrite Zplus_mod_idemp_l. f_equal. lia. Qed.

(** What the loop has collected after the packets [done]. *)
Record collected (table : LocalTable) (done : list (list Z)) (d0 r0 : Z) (a : applied) : Prop := {
  col_deliver : deliver a = (if forallb (isPassed table) done then None else Some (flat_map (toTun table) done));
  col_forward : forward a = flat_map (toPeers table) done;
  col_refused : refused a = flat_map (toRefuse table) done;
  col_delivered : segmentsDelivered a = u64 (d0 + count (isDelivered table) done);
  col_dropped : segmentsDropped a = u64 (r0 + Z.of_nat (length (flat_map (toRefuse table) done))) }.

Lemma passed_toTun table done : forallb (isPassed table) done = true → flat_map (toTun table) done = done.
Proof.
  induction done as [|p done IH]; [done|]. cbn [forallb flat_map]. intros [Hp Hd]%andb_true_iff.
  unfold isPassed in Hp. unfold toTun at 1. destruct (verdict table p).2; try done. cbn [app]. by rewrite IH.
Qed.

Lemma applyOne_collected table raw done packet rest d0 r0 a :
  raw = done ++ packet :: rest → bytes_ok packet → collected table done d0 r0 a →
  ∃ a', applyOne table raw (length done) packet a = Ok a' ∧ collected table (done ++ [packet]) d0 r0 a'.
Proof.
  intros Hr Hb [Hd Hf Hx Hn Hm].
  destruct (acting_settles table packet Hb) as (p' & r & E & _ & _ & _ & Hpass).
  assert (actLocally table packet = Ok (p', r)) as E1 by (by apply E). clear E. rename E1 into E.
  assert (verdict table packet = (p', r)) as Hv by (unfold verdict; by rewrite E).
  assert (take (length done) raw = done) as Ht by (rewrite Hr; apply take_app_length).
  assert (flat_map (toTun table) done = take_ raw (length done) (deliver a)) as Htk.
  { rewrite Hd. destruct (forallb _ _) eqn:Ef; [|done]. cbn [take_]. by rewrite Ht, passed_toTun. }
  unfold applyOne. rewrite E. rbind.
  assert (∀ a', deliver a' = (if isPassed table packet then (λ l, l ++ [packet]) <$> deliver a
      else Some (take_ raw (length done) (deliver a) ++ toTun table packet)) →
    forward a' = forward a ++ toPeers table packet → refused a' = refused a ++ toRefuse table packet →
    segmentsDelivered a' = (if isDelivered table packet then u64 (segmentsDelivered a + 1) else segmentsDelivered a) →
    segmentsDropped a' = u64 (segmentsDropped a + Z.of_nat (length (toRefuse table packet))) →
    collected table (done ++ [packet]) d0 r0 a') as Hgoal.
  { intros a' Ed Ef Er En Em. split.
    - rewrite forallb_app, flat_map_app. cbn [forallb flat_map]. rewrite andb_true_r, app_nil_r, Ed.
      destruct (isPassed table packet) eqn:Ep; [|by rewrite andb_false_r, Htk].
      rewrite andb_true_r, Hd. destruct (forallb _ _); [done|]. cbn [fmap option_fmap option_map]. do 2 f_equal.
      unfold isPassed in Ep. unfold toTun. by destruct (verdict table packet).2.
    - rewrite flat_map_app. cbn [flat_map]. by rewrite app_nil_r, Ef, Hf.
    - rewrite flat_map_app. cbn [flat_map]. by rewrite app_nil_r, Er, Hx.
    - rewrite count_snoc, En, Hn. destruct (isDelivered table packet); [apply u64_succ | by rewrite Z.add_0_r].
    - rewrite flat_map_app, length_app. cbn [flat_map]. rewrite app_nil_r, Em, Hm. unfold u64.
      rewrite Zplus_mod_idemp_l. f_equal. lia. }
  assert (u64 (segmentsDropped a + 0) = segmentsDropped a) as H0.
  { rewrite Hm. unfold u64. by rewrite Z.add_0_r, Zmod_mod. }
  destruct r as [|next|inner family|why]; eexists; (split; [done|]); apply Hgoal;
    unfold isPassed, isDelivered, toTun, toPeers, toRefuse; rewrite Hv; cbn [fst snd deliver forward refused
      segmentsDelivered segmentsDropped length Z.of_nat]; rewrite ?app_nil_r, ?H0; done.
Qed.

Lemma applyLoop_collected table raw done rest d0 r0 a :
  raw = done ++ rest → Forall bytes_ok rest → collected table done d0 r0 a →
  ∃ a', applyLoop table raw (length done) rest a = Ok a' ∧ collected table raw d0 r0 a'.
Proof.
  revert done a. induction rest as [|packet rest IH]; intros done a Hr Hb Hc; cbn [applyLoop].
  { rewrite app_nil_r in Hr. subst. eauto. }
  inversion Hb as [|?? Hp Hb']; subst x l.
  destruct (applyOne_collected table raw done packet rest d0 r0 a Hr Hp Hc) as (a' & -> & Hc'). rbind.
  replace (S (length done)) with (length (done ++ [packet])) by (rewrite length_app; simpl; lia).
  apply IH; [|done|done]. by rewrite <- app_assoc.
Qed.

(** An inbound batch, packet by packet. Whatever bytes its packets hold, the
    batch step returns, and what it hands on is each packet's own verdict in the
    batch's order: to the tun go the packets not addressed to this node and what
    an exit opened, to the peers what a waypoint rewrote, and every refused
    packet is counted and remembered once. The replacement slice built only from
    the first packet that is ours on makes no difference. *)
Theorem batch_exact table raw delivered dropped :
  Forall bytes_ok raw → 0 ≤ delivered < 2 ^ 64 → 0 ≤ dropped < 2 ^ 64 →
  ∃ a, applySegments table raw delivered dropped = Ok (flat_map (toTun table) raw, a) ∧
    forward a = flat_map (toPeers table) raw ∧ refused a = flat_map (toRefuse table) raw ∧
    segmentsDelivered a = u64 (delivered + count (isDelivered table) raw) ∧
    segmentsDropped a = u64 (dropped + Z.of_nat (length (refused a))).
Proof.
  intros Hb Hd Hr. unfold applySegments. destruct table as [entries|].
  - destruct (applyLoop_collected (Some entries) raw [] raw delivered dropped (mkApplied None [] delivered dropped []))
      as (a & E & [Hdel Hf Hx Hn Hm]); [done | done | |].
    { split; cbn [deliver forward refused segmentsDelivered segmentsDropped flat_map forallb length]; try done.
      - unfold count. simpl. by rewrite Z.add_0_r, u64_id.
      - by rewrite Z.add_0_r, u64_id. }
    cbn [length] in E. rewrite E. rbind. exists a. rewrite <- Hx in Hm. split_and!; try done.
    do 2 f_equal. rewrite Hdel. destruct (forallb _ raw) eqn:Ef; [|done]. cbn [default]. symmetry. by apply passed_toTun.
  - assert (∀ p, verdict None p = (p, ActionPass)) as Hv by done.
    eexists. split; [|split_and!]; cbn [forward refused segmentsDelivered segmentsDropped length]; try done.
    + do 2 f_equal. symmetry. apply passed_toTun. clear. by induction raw.
    + clear. by induction raw.
    + clear. by induction raw.
    + assert (count (isDelivered None) raw = 0) as -> by (clear; induction raw; done). by rewrite Z.add_0_r, u64_id.
    + by rewrite Z.add_0_r, u64_id.
Qed.

Lemma batch_exact_witness :
  ∃ a, applySegments sampleBoth [sampleInner; sampleOut] 0 0 = Ok ([sampleInner; sampleInner], a) ∧
    segmentsDelivered a = 1.
Proof.
  destruct (batch_exact sampleBoth [sampleInner; sampleOut] 0 0) as (a & E & _ & _ & Hd & _); [|lia|lia|].
  - apply List.Forall_cons; [apply sampleInner_ok|]. apply List.Forall_cons; [apply sampleOut_ok | apply List.Forall_nil].
  - exists a. split; [|rewrite Hd; vm_compute; reflexivity]. rewrite E. vm_compute. reflexivity.
Defined.

(** ** Answers to refused packets *)

(** The message [answerRefused] builds, before the budget is asked. *)
Definition refusalAnswer (offending : list Z) (reason : string) : res (option (list Z)) :=
  d ← slice offending 24 40;
  let source := bare (AddrFrom16 d) in
  if Is reason ErrHopLimit then TimeExceeded offending source
  else if Is reason ErrHeaderInvalid then ParameterProblem offending source
  else Ok None.

Definition icmpBurst : Z := 8.
Definition icmpRefill : Z := 250 * 1000000.

(** The bucket: tokens, and when they were last drawn from. *)
Record bucket := mkBucket { icmpTokens : Z; icmpFilled : Z }.

Definition startBucket : bucket := mkBucket icmpBurst 0.

(** One call on its own. Division of int64 truncates. *)
Definition takeICMPToken (b : bucket) (now : Z) : bucket * bool :=
  let tokens := Z.min icmpBurst (icmpTokens b + Z.quot (now - icmpFilled b) icmpRefill) in
  if tokens <? 1 then (b, false) else (mkBucket (tokens - 1) now, true).

(** Calls one after the other, at the given times. *)
Fixpoint takeAll (b : bucket) (times : list Z) : bucket * list bool :=
  match times with
  | [] => (b, [])
  | now :: times =>
      let '(b, granted) := takeICMPToken b now in
      let '(b, rest) := takeAll b times in
      (b, granted :: rest)
  end.

Definition granted (l : list bool) : Z := Z.of_nat (length (List.filter id l)).

Fixpoint ascending (from : Z) (times : list Z) : Prop :=
  match times with [] => True | now :: times => from ≤ now ∧ ascending now times end.

Definition bucket_ok (b : bucket) (now : Z) : Prop := 0 ≤ icmpTokens b ≤ 8 ∧ icmpFilled b ≤ now.

(** How many answers a bucket can still give up to [until]. *)
Lemma takeAll_bound b from times until :
  bucket_ok b from → ascending from times → from ≤ until → Forall (λ t, t ≤ until) times →
  granted (takeAll b times).2 ≤ icmpTokens b + (until - icmpFilled b) / icmpRefill.
Proof.
  revert b from. induction times as [|now times IH]; intros b from [Ht Hf] Ha Hu Hall.
  { cbn [takeAll snd]. unfold granted. simpl. assert (0 ≤ (until - icmpFilled b) / icmpRefill) by (apply Z.div_pos; unfold icmpRefill; lia). lia. }
  destruct Ha as [Hn Ha]. inversion Hall as [|?? Hnu Hall']; subst. cbn [takeAll].
  unfold takeICMPToken. rewrite Z.quot_div_nonneg by (unfold icmpRefill; lia).
  set (tokens := Z.min _ _). destruct (Z.ltb_spec tokens 1) as [Hlt|Hge].
  - specialize (IH b now). destruct (takeAll b times) as [b' rest]. cbn [snd] in *. unfold granted in *. simpl.
    apply IH; [split; lia | done | lia | done].
  - specialize (IH (mkBucket (tokens - 1) now) now). cbn [icmpTokens icmpFilled] in IH.
    destruct (takeAll (mkBucket (tokens - 1) now) times) as [b' rest]. cbn [snd] in *. unfold granted in *. simpl.
    assert (Z.of_nat (length (List.filter id rest)) ≤ tokens - 1 + (until - now) / icmpRefill) as H.
    { apply IH; [split; cbn [icmpTokens icmpFilled]; unfold tokens, icmpBurst in *; lia | done | lia | done]. }
    assert ((now - icmpFilled b) / icmpRefill + (until - now) / icmpRefill ≤ (until - icmpFilled b) / icmpRefill) as Hs.
    { unfold icmpRefill. divlia. }
    unfold tokens, icmpBurst in *. lia.
Qed.

Lemma takeICMPToken_ok b from now : bucket_ok b from → from ≤ now → bucket_ok (takeICMPToken b now).1 now.
Proof.
  intros [Ht Hf] Hn. unfold takeICMPToken. rewrite Z.quot_div_nonneg by (unfold icmpRefill; lia).
  set (tokens := Z.min _ _). destruct (Z.ltb_spec tokens 1); split; cbn [fst icmpTokens icmpFilled]; unfold tokens, icmpBurst in *; lia.
Qed.

(** The budget of answers. Between the first and the last of any calls one after
    the other, at most a burst of eight and one more for every 250 milliseconds
    that passed are granted, from any state of the bucket; a bucket left alone
    long enough grants again. *)
Theorem icmp_budget b from first times :
  bucket_ok b from → from ≤ first → ascending first times →
  granted (takeAll b (first :: times)).2 ≤ icmpBurst + (List.last times first - first) / icmpRefill ∧
  ∀ now, icmpFilled b + icmpRefill ≤ now → (takeICMPToken b now).2 = true.
Proof.
  intros [Ht Hf] Hn Ha. split.
  - assert (first ≤ List.last times first ∧ Forall (λ t, t ≤ List.last times first) times) as [Hl Hall].
    { clear Hn Hf. revert first Ha. induction times as [|t times IH]; intros first Ha; [simpl; split; [lia | constructor]|].
      destruct Ha as [H1 H2]. destruct (IH t H2) as [H3 H4].
      assert (List.last (t :: times) first = List.last times t) as ->.
      { destruct times as [|u times]; [done|]. cbn [List.last] in *. apply (last_default times u first t). }
      split; [lia|]. by constructor. }
    cbn [takeAll]. unfold takeICMPToken. rewrite Z.quot_div_nonneg by (unfold icmpRefill; lia).
    set (tokens := Z.min _ _). set (until := List.last times first) in *.
    assert (0 ≤ (until - first) / icmpRefill) by (apply Z.div_pos; unfold icmpRefill; lia).
    destruct (Z.ltb_spec tokens 1) as [Hlt|Hge].
    + pose proof (takeAll_bound b first times until ltac:(split; lia) Ha Hl Hall) as P.
      assert (icmpTokens b = 0 ∧ (first - icmpFilled b) / icmpRefill = 0) as [E0 E1].
      { assert (0 ≤ (first - icmpFilled b) / icmpRefill) by (apply Z.div_pos; unfold icmpRefill; lia).
        unfold tokens, icmpBurst in Hlt. lia. }
      destruct (takeAll b times) as [b' rest]. cbn [snd] in *. unfold granted in *. simpl. unfold icmpBurst, icmpRefill in *. divlia.
    + pose proof (takeAll_bound (mkBucket (tokens - 1) first) first times until) as P.
      destruct (takeAll (mkBucket (tokens - 1) first) times) as [b' rest]. cbn [snd icmpTokens icmpFilled] in *.
      unfold granted in *. simpl. unfold tokens, icmpBurst in *.
      specialize (P ltac:(split; cbn [icmpTokens icmpFilled]; lia) Ha Hl Hall). lia.
  - intros now Hnow. unfold takeICMPToken. rewrite Z.quot_div_nonneg by (unfold icmpRefill in *; lia).
    rewrite (proj2 (Z.ltb_ge _ _)); [done|].
    assert (1 ≤ (now - icmpFilled b) / icmpRefill) by (apply Z.div_le_lower_bound; unfold icmpRefill in *; lia).
    unfold icmpBurst. lia.
Qed.

(** Ten calls at once, then one after each 250 milliseconds. *)
Lemma icmp_budget_witness :
  granted (takeAll startBucket [0; 0; 0; 0; 0; 0; 0; 0; 0; 0; 250000000; 500000000]).2 ≤ 10.
Proof.
  destruct (icmp_budget startBucket 0 0 [0; 0; 0; 0; 0; 0; 0; 0; 0; 250000000; 500000000]) as [H _].
  - split; unfold startBucket, icmpBurst; cbn [icmpTokens icmpFilled]; lia.
  - lia.
  - cbn [ascending]. repeat split; lia.
  - exact H.
Defined.

(** ** Concurrent calls

    Several decryption paths answer refused packets at once. A call reads the
    time of the last draw, reads the tokens, swaps in the new time if no other
    call has, and only then stores the tokens that are left. *)

Inductive callState :=
| Start
| Loaded (last : Z)
| Counted (last tokens : Z)
| Swapped (tokens : Z)
| Returned (granted : bool).

Definition callStep (now : Z) (b : bucket) (c : callState) : bucket * callState :=
  match c with
  | Start => (b, Loaded (icmpFilled b))
  | Loaded last =>
      let tokens := Z.min icmpBurst (icmpTokens b + Z.quot (now - last) icmpRefill) in
      (b, if tokens <? 1 then Returned false else Counted last tokens)
  | Counted last tokens =>
      if icmpFilled b =? last then (mkBucket (icmpTokens b) now, Swapped tokens) else (b, Start)
  | Swapped tokens => (mkBucket (tokens - 1) (icmpFilled b), Returned true)
  | Returned g => (b, Returned g)
  end.

(** Calls run in the order [schedule] names them, each at its own time. *)
Fixpoint interleave (nows : list Z) (b : bucket) (calls : list callState) (schedule : list nat) : bucket * list callState :=
  match schedule with
  | [] => (b, calls)
  | i :: schedule =>
      match nows !! i, calls !! i with
      | Some now, Some c => let '(b, c) := callStep now b c in interleave nows b (<[i := c]> calls) schedule
      | _, _ => interleave nows b calls schedule
      end
  end.

(** A call that is not interrupted is the sequential one. *)
Theorem call_alone b now :
  interleave [now] b [Start] [0; 0; 0; 0]%nat =
    ((takeICMPToken b now).1, [Returned (takeICMPToken b now).2]).
Proof.
  cbn [interleave lookup list_lookup callStep insert list_insert]. unfold takeICMPToken.
  set (tokens := Z.min _ _). destruct (tokens <? 1); [done|]. cbn [callStep interleave lookup list_lookup insert list_insert].
  by rewrite Z.eqb_refl.
Qed.

(** The swap covers the time and not the tokens: two calls are granted from one
    token when the second starts before the first has stored what is left. *)
Theorem icmp_race :
  (interleave [1; 1] (mkBucket 1 0) [Start; Start] [0; 0; 0; 1; 1; 1; 0; 1]%nat).2 = [Returned true; Returned true].
Proof. reflexivity. Qed.
