(* ===== verification/NetPeer.v ===== *)
(** * The ordered sender of a peer, internal/netstack/peer.go

    Packets for one peer are sealed in parallel and sent in order. A caller takes
    a place (a transmission slot, a ticket and a sequence range), fills and seals
    its batch, and puts it on a queue; one sender goroutine reorders the batches
    by ticket and hands them to the transport, until the peer is closed.

    The model is the whole concurrent system of one reserved peer: the shared
    state, the callers between their atomic steps, and the sender between its
    own. A step is one channel operation, one critical section or one transport
    call; what the environment decides (which caller runs, whether the SA has a
    sequence range, what sealing yields, whether the transport fails) is part of
    the event. A disabled event is [None]. Waiting for the transport with a
    deadline (Close) and pooled storage are left out; so are the compatibility
    peers of tests, which have no sender. *)

From S2P Require Import Prelude.

(** A packet of a batch and its next header. *)
Definition plain : Type := list Z * Z.

Record peerBatch := mkBatch {
  ticket : Z;
  raw : list plain;
  sealed : list (list Z);
  encrypted : bool;
  err : bool;
  counted : bool;
  onFailure : bool;
  failed : bool;
  control : bool }.

(** Where the sender stands: at the top of its loop; receiving without waiting,
    at most so many times more; finishing the batches it sent, whose transport
    call failed or not; giving back what is queued; done. *)
Inductive senderPhase :=
| Waiting
| Draining (left : nat)
| Finishing (ready : list peerBatch) (sendErr : bool)
| Discarding
| Abandoning (tickets : list Z)
| Done.

Definition controlQueueSize : nat := 256.

(** What became of a batch: its packets reached the transport; this peer refused
    them; the transport lost them. *)
Inductive outcome := Sent | Dropped | SendFailed.

#[export] Instance outcome_eq_dec : EqDecision outcome.
Proof. solve_decision. Defined.

Record Peer := mkPeer {
  (* capacity of the data budget *)
  queueSize : nat;
  reserved : Z;
  dropped : Z;
  sendFailed : Z;
  slots : nat;
  controlSlots : nat;
  queueClosed : bool;
  completed : list peerBatch;
  stop : bool;
  (* the sender's own *)
  phase : senderPhase;
  pending : gmap Z peerBatch;
  next : Z;
  (* callers that hold a slot and no ticket yet: how many packets, which budget *)
  taking : list (nat * bool);
  (* batches in the hands of their callers *)
  held : list peerBatch;
  (* what is recorded of the past: the transport calls that succeeded, the
     outcome of each batch with its number of packets, the packets refused
     before they had a ticket, the callbacks that ran *)
  wire : list (Z * list (list Z));
  log : list (Z * outcome * nat);
  refusals : nat;
  callbacks : list Z }.

Definition newPeer (size : nat) : Peer :=
  mkPeer (2 `max` size) 0 0 0 0 0 false [] false Waiting ∅ 0 [] [] [] [] 0 [].

(** [cap(p.completed)] *)
Definition queueCap (p : Peer) : nat := (queueSize p + controlQueueSize)%nat.

Definition budgetCap (p : Peer) (c : bool) : nat := if c then controlQueueSize else queueSize p.
Definition budget (p : Peer) (c : bool) : nat := if c then controlSlots p else slots p.

Definition set_budget (p : Peer) (c : bool) (n : nat) : Peer :=
  mkPeer (queueSize p) (reserved p) (dropped p) (sendFailed p) (if c then slots p else n)
    (if c then n else controlSlots p) (queueClosed p) (completed p) (stop p) (phase p) (pending p) (next p)
    (taking p) (held p) (wire p) (log p) (refusals p) (callbacks p).

Definition set_taking (p : Peer) (t : list (nat * bool)) : Peer :=
  mkPeer (queueSize p) (reserved p) (dropped p) (sendFailed p) (slots p) (controlSlots p) (queueClosed p)
    (completed p) (stop p) (phase p) (pending p) (next p) t (held p) (wire p) (log p) (refusals p) (callbacks p).

Definition set_held (p : Peer) (h : list peerBatch) : Peer :=
  mkPeer (queueSize p) (reserved p) (dropped p) (sendFailed p) (slots p) (controlSlots p) (queueClosed p)
    (completed p) (stop p) (phase p) (pending p) (next p) (taking p) h (wire p) (log p) (refusals p) (callbacks p).

Definition set_completed (p : Peer) (q : list peerBatch) : Peer :=
  mkPeer (queueSize p) (reserved p) (dropped p) (sendFailed p) (slots p) (controlSlots p) (queueClosed p)
    q (stop p) (phase p) (pending p) (next p) (taking p) (held p) (wire p) (log p) (refusals p) (callbacks p).

Definition set_sender (p : Peer) (ph : senderPhase) (pe : gmap Z peerBatch) (nx : Z) : Peer :=
  mkPeer (queueSize p) (reserved p) (dropped p) (sendFailed p) (slots p) (controlSlots p) (queueClosed p)
    (completed p) (stop p) ph pe nx (taking p) (held p) (wire p) (log p) (refusals p) (callbacks p).

(** [p.dropped.Add(n)] for packets refused before a ticket was taken. *)
Definition refuse (p : Peer) (n : nat) : Peer :=
  mkPeer (queueSize p) (reserved p) (u64 (dropped p + Z.of_nat n)) (sendFailed p) (slots p) (controlSlots p)
    (queueClosed p) (completed p) (stop p) (phase p) (pending p) (next p) (taking p) (held p) (wire p) (log p)
    (refusals p + n) (callbacks p).

(** A batch's outcome is decided: the counter it moves, if any. *)
Definition settle (p : Peer) (t : Z) (o : outcome) (n : nat) : Peer :=
  mkPeer (queueSize p) (reserved p)
    (match o with Dropped => u64 (dropped p + Z.of_nat n) | _ => dropped p end)
    (match o with SendFailed => u64 (sendFailed p + Z.of_nat n) | _ => sendFailed p end)
    (slots p) (controlSlots p) (queueClosed p) (completed p) (stop p) (phase p) (pending p) (next p) (taking p)
    (held p) (wire p) (log p ++ [(t, o, n)]) (refusals p) (callbacks p).

Definition set_counted (b : peerBatch) : peerBatch :=
  mkBatch (ticket b) (raw b) (sealed b) (encrypted b) (err b) true (onFailure b) (failed b) (control b).

(** ** The callers *)

(** [reserveNow] up to the slot: a closed peer and a full budget refuse. [late]
    is a caller that looked before the peer was closed. *)
Definition takeSlot (p : Peer) (count : nat) (c late : bool) : option Peer :=
  if stop p && negb late then Some (refuse p count)
  else if (budget p c <? budgetCap p c)%nat
  then Some (set_taking (set_budget p c (S (budget p c))) (taking p ++ [(count, c)]))
  else Some (refuse p count).

(** [reserveBatchWithSlot]: the ticket and the sequence range under reserveMu.
    A range that cannot be had counts the packets at once. *)
Definition takeTicket (p : Peer) (i : nat) (rangeErr : bool) : option Peer :=
  match taking p !! i with
  | None => None
  | Some (count, c) =>
      let t := reserved p in
      let b := mkBatch t [] [] false rangeErr rangeErr false false c in
      let p := mkPeer (queueSize p) (u64 (t + 1)) (dropped p) (sendFailed p) (slots p) (controlSlots p) (queueClosed p)
                 (completed p) (stop p) (phase p) (pending p) (next p) (delete i (taking p)) (held p ++ [b])
                 (wire p) (log p) (refusals p) (callbacks p) in
      Some (if rangeErr then settle p t Dropped count else p)
  end.

(** [append], and [OnFailure] on a batch its caller still holds. *)
Definition appendRaw (p : Peer) (i : nat) (x : plain) : option Peer :=
  match held p !! i with
  | Some b =>
      if encrypted b then None
      else Some (set_held p (<[i := mkBatch (ticket b) (raw b ++ [x]) (sealed b) (encrypted b) (err b) (counted b)
                                (onFailure b) (failed b) (control b)]> (held p)))
  | None => None
  end.

Definition setOnFailure (p : Peer) (i : nat) : option Peer :=
  match held p !! i with
  | Some b => Some (set_held p (<[i := mkBatch (ticket b) (raw b) (sealed b) (encrypted b) (err b) (counted b)
                                true (failed b) (control b)]> (held p)))
  | None => None
  end.

(** [encrypt]: the sealer returns one packet for each, or an error. *)
Definition encrypt (p : Peer) (i : nat) (out : option (list (list Z))) : option Peer :=
  match held p !! i with
  | Some b =>
      if encrypted b || err b then Some p
      else
        match out with
        | Some s =>
            if (length s =? length (raw b))%nat
            then Some (set_held p (<[i := mkBatch (ticket b) (raw b) s true false (counted b) (onFailure b) (failed b) (control b)]> (held p)))
            else None
        | None => Some (set_held p (<[i := mkBatch (ticket b) (raw b) [] true true (counted b) (onFailure b) (failed b) (control b)]> (held p)))
        end
  | None => None
  end.

(** [fail]: the callback, once. *)
Definition fail_ (p : Peer) (b : peerBatch) : Peer :=
  if negb (onFailure b) || failed b then p
  else
    mkPeer (queueSize p) (reserved p) (dropped p) (sendFailed p) (slots p) (controlSlots p) (queueClosed p)
      (completed p) (stop p) (phase p) (pending p) (next p) (taking p) (held p) (wire p) (log p) (refusals p)
      (callbacks p ++ [ticket b]).

(** [releaseSlot]: a receive from the budget the slot came from, which waits
    while the budget is empty. *)
Definition releaseSlot (p : Peer) (c : bool) : option Peer :=
  match budget p c with O => None | S n => Some (set_budget p c n) end.

Definition abandon (p : Peer) (b : peerBatch) : option Peer :=
  let p := if counted b then p else settle p (ticket b) Dropped (length (raw b)) in
  p ← releaseSlot p (control b);
  Some (fail_ p b).

(** [enqueue] from queueMu on; the batch has been through [encrypt]. *)
Definition enqueue (p : Peer) (i : nat) : option Peer :=
  match held p !! i with
  | Some b =>
      if negb (encrypted b || err b) then None
      else
        let p := set_held p (delete i (held p)) in
        if queueClosed p then abandon p b
        else if (length (completed p) <? queueCap p)%nat
        then Some (set_completed p (completed p ++ [b]))
        else abandon p b
  | None => None
  end.

(** ** The sender *)

(** [close(p.stop)] *)
Definition close (p : Peer) : option Peer :=
  Some (mkPeer (queueSize p) (reserved p) (dropped p) (sendFailed p) (slots p) (controlSlots p) (queueClosed p)
    (completed p) true (phase p) (pending p) (next p) (taking p) (held p) (wire p) (log p) (refusals p) (callbacks p)).

(** A receive from [p.completed] into [pending]. *)
Definition receive (p : Peer) (ph : senderPhase) : option Peer :=
  match completed p with
  | [] => None
  | b :: rest => Some (set_sender (set_completed p rest) ph (<[ticket b := b]> (pending p)) (next p))
  end.

(** [for len(packets) < 128]: the run of consecutive tickets that are here. *)
Fixpoint collect (fuel : nat) (pe : gmap Z peerBatch) (nx : Z) (packets : list (list Z)) (ready : list peerBatch) :
    gmap Z peerBatch * Z * list (list Z) * list peerBatch :=
  match fuel with
  | O => (pe, nx, packets, ready)
  | S fuel =>
      if (128 <=? length packets)%nat then (pe, nx, packets, ready)
      else
        match pe !! nx with
        | None => (pe, nx, packets, ready)
        | Some b => collect fuel (delete nx pe) (u64 (nx + 1)) (packets ++ sealed b) (ready ++ [b])
        end
  end.

Definition log_wire (p : Peer) (l : list (Z * list (list Z))) : Peer :=
  mkPeer (queueSize p) (reserved p) (dropped p) (sendFailed p) (slots p) (controlSlots p) (queueClosed p)
    (completed p) (stop p) (phase p) (pending p) (next p) (taking p) (held p) (wire p ++ l) (log p) (refusals p) (callbacks p).

(** One call of the transport for the run, when it carries anything. *)
Definition transmit (p : Peer) (sendErr : bool) : Peer :=
  let '(pe, nx, packets, ready) := collect (S (size (pending p))) (pending p) (next p) [] [] in
  let sendErr := sendErr && negb (length packets =? 0)%nat in
  log_wire (set_sender p (Finishing ready sendErr) pe nx)
    (if sendErr then [] else map (λ b, (ticket b, sealed b)) ready).

(** One batch of the run is finished. *)
Definition finish (p : Peer) (b : peerBatch) (sendErr : bool) (rest : list peerBatch) : option Peer :=
  let e := err b || sendErr in
  let p := set_sender p (Finishing rest sendErr) (pending p) (next p) in
  let p :=
    if e && negb (counted b) then
      settle p (ticket b) (if (length (sealed b) =? 0)%nat then Dropped else SendFailed) (length (raw b))
    else if e then p else settle p (ticket b) Sent (length (raw b)) in
  p ← releaseSlot p (control b);
  Some (if e then fail_ p b else p).

(** [slices.Sorted(maps.Keys(pending))] *)
Definition sortedTickets (pe : gmap Z peerBatch) : list Z := merge_sort Z.le (map_to_list pe).*1.

(** The events of the sender. *)
Inductive senderEvent :=
| Receive
| Transmit (sendErr : bool)
| Finish
| Again
| Quit.

Definition senderStep (p : Peer) (e : senderEvent) : option Peer :=
  match phase p, e with
  | Waiting, Receive =>
      match pending p !! next p with None => receive p (Draining (queueCap p)) | Some _ => None end
  | Waiting, Again =>
      match pending p !! next p with
      | Some _ => Some (set_sender p (Draining (queueCap p)) (pending p) (next p))
      | None => None
      end
  | Waiting, Quit =>
      match pending p !! next p with
      | Some _ => None
      | None =>
          if stop p then
            Some (mkPeer (queueSize p) (reserved p) (dropped p) (sendFailed p) (slots p) (controlSlots p) true
              (completed p) (stop p) Discarding (pending p) (next p) (taking p) (held p) (wire p) (log p) (refusals p) (callbacks p))
          else None
      end
  | Draining (S n), Receive => receive p (Draining n)
  | Draining O, Transmit sendErr => Some (transmit p sendErr)
  | Draining (S _), Transmit sendErr =>
      match completed p with [] => Some (transmit p sendErr) | _ :: _ => None end
  | Finishing (b :: rest) sendErr, Finish => finish p b sendErr rest
  | Finishing [] _, Again => Some (set_sender p Waiting (pending p) (next p))
  | Discarding, Receive => receive p Discarding
  | Discarding, Again =>
      match completed p with
      | [] => Some (set_sender p (Abandoning (sortedTickets (pending p))) (pending p) (next p))
      | _ :: _ => None
      end
  | Abandoning (t :: ts), Finish =>
      match pending p !! t with
      | Some b => abandon (set_sender p (Abandoning ts) (delete t (pending p)) (next p)) b
      | None => None
      end
  | Abandoning [], Again => Some (set_sender p Done (pending p) (next p))
  | _, _ => None
  end.

Inductive event :=
| TakeSlot (count : nat) (c late : bool)
| TakeTicket (i : nat) (rangeErr : bool)
| Append (i : nat) (x : plain)
| OnFailure (i : nat)
| Encrypt (i : nat) (out : option (list (list Z)))
| Enqueue (i : nat)
| Close
| Sender (e : senderEvent).

Definition step (p : Peer) (e : event) : option Peer :=
  match e with
  | TakeSlot count c late => takeSlot p count c late
  | TakeTicket i rangeErr => takeTicket p i rangeErr
  | Append i x => appendRaw p i x
  | OnFailure i => setOnFailure p i
  | Encrypt i out => encrypt p i out
  | Enqueue i => enqueue p i
  | Close => close p
  | Sender e => senderStep p e
  end.

(** Reachable in so many steps. *)
Inductive reachable (size : nat) : nat → Peer → Prop :=
| reach_new : reachable size 0 (newPeer size)
| reach_step n p e p' : reachable size n p → step p e = Some p' → reachable size (S n) p'.
