(* ===== verification/NetPeerInv.v ===== *)
(** * The ordered sender: its invariant

    [ledger] accounts for places: which batches are somewhere between their
    ticket and their outcome, the slots they hold, what has been counted and
    called back. [position] says where the sender stands in the order. Both hold
    in every reachable state. *)

From S2P Require Import Prelude NetPeer.

Definition readyOf (ph : senderPhase) : list peerBatch :=
  match ph with Finishing ready _ => ready | _ => [] end.

Definition queued (p : Peer) : list peerBatch := held p ++ completed p ++ (map_to_list (pending p)).*2.

(** Every batch that has a ticket and no end yet. *)
Definition live (p : Peer) : list peerBatch := readyOf (phase p) ++ queued p.

Definition logged (p : Peer) : list Z := (log p).*1.*1.

(** The packets of the batches with outcome [o]. *)
Definition total (o : outcome) (l : list (Z * outcome * nat)) : Z :=
  Z.of_nat (sum_list_with (λ e, if bool_decide (e.1.2 = o) then e.2 else 0%nat) l).

Definition ofBudget (c : bool) (l : list peerBatch) : nat := length (filter (λ b, control b = c) l).
Definition takingOf (c : bool) (l : list (nat * bool)) : nat := length (filter (λ x, x.2 = c) l).

Definition batch_ok (b : peerBatch) : Prop :=
  (counted b = true → err b = true) ∧ (err b = true → sealed b = []) ∧
  (err b = false → encrypted b = true → length (sealed b) = length (raw b)) ∧ failed b = false.

Record ledger (p : Peer) (l : list peerBatch) : Prop := {
  L_nodup : NoDup (ticket <$> l);
  L_range : Forall (λ b, 0 ≤ ticket b < reserved p) l;
  L_budget : ∀ c, budget p c = (takingOf c (taking p) + ofBudget c l)%nat ∧ (budget p c ≤ budgetCap p c)%nat;
  L_log : NoDup (logged p);
  L_logged : Forall (λ b, ticket b ∈ logged p ↔ counted b = true) l;
  L_cover : ∀ t, 0 ≤ t < reserved p → t ∈ ticket <$> l ∨ t ∈ logged p;
  L_logrange : ∀ t, t ∈ logged p → 0 ≤ t < reserved p;
  L_dropped : dropped p = u64 (Z.of_nat (refusals p) + total Dropped (log p));
  L_sendFailed : sendFailed p = u64 (total SendFailed (log p));
  L_calls : NoDup (callbacks p);
  L_uncalled : Forall (λ b, ticket b ∉ callbacks p) l;
  L_called : ∀ t, t ∈ callbacks p → ∃ o n, (t, o, n) ∈ log p ∧ o ≠ Sent;
  L_batches : Forall batch_ok l;
  L_early : Forall (λ b, counted b = true → ∃ n, (ticket b, Dropped, n) ∈ log p) l }.

(** ** The ledger does not depend on where a batch is *)

Lemma ofBudget_perm c l l' : l ≡ₚ l' → ofBudget c l = ofBudget c l'.
Proof. intros H. unfold ofBudget. by rewrite H. Qed.

Lemma takingOf_perm c l l' : l ≡ₚ l' → takingOf c l = takingOf c l'.
Proof. intros H. unfold takingOf. by rewrite H. Qed.

Lemma ledger_perm p l l' : l ≡ₚ l' → ledger p l → ledger p l'.
Proof.
  intros H [H1 H2 H3 H4 H5 H6 H7 H8 H9 H10 H11 H12 H13 H14]. split; try done.
  - by rewrite <- H.
  - by rewrite <- H.
  - intros c. by rewrite <- (ofBudget_perm c _ _ H).
  - by rewrite <- H.
  - intros t Ht. rewrite <- H. by apply H6.
  - by rewrite <- H.
  - by rewrite <- H.
  - by rewrite <- H.
Qed.

(** Fields the ledger reads. *)
Definition same_ledger (p q : Peer) : Prop :=
  reserved q = reserved p ∧ (∀ c, budget q c = budget p c) ∧ (∀ c, budgetCap q c = budgetCap p c) ∧
  taking q = taking p ∧ log q = log p ∧ dropped q = dropped p ∧ sendFailed q = sendFailed p ∧
  refusals q = refusals p ∧ callbacks q = callbacks p.

Lemma ledger_same p q l : same_ledger p q → ledger p l → ledger q l.
Proof.
  intros (E1 & E2 & E3 & E4 & E5 & E6 & E7 & E8 & E9) [H1 H2 H3 H4 H5 H6 H7 H8 H9 H10 H11 H12 H13 H14].
  assert (logged q = logged p) as El by (unfold logged; by rewrite E5).
  split; rewrite ?El, ?E1, ?E5, ?E6, ?E7, ?E8, ?E9; try done. intros c. rewrite E2, E3, E4. apply H3.
Qed.

Lemma same_ledger_refl p : same_ledger p p.
Proof. done. Qed.

(** A batch changes while its caller holds it. *)
Lemma ledger_update p b b' l :
  ticket b' = ticket b → control b' = control b → counted b' = counted b → batch_ok b' →
  ledger p (b :: l) → ledger p (b' :: l).
Proof.
  intros Et Ec Eco Hb [H1 H2 H3 H4 H5 H6 H7 H8 H9 H10 H11 H12 H13 H14].
  split; try done; rewrite ?fmap_cons, ?Forall_cons in *; rewrite ?Et, ?Eco; try done.
  - intros c. unfold ofBudget in *. specialize (H3 c). rewrite !filter_cons in *.
    repeat case_decide; simpl in *; congruence || done.
  - split; [done | by destruct H13].
Qed.

Lemma total_snoc o l t o' n :
  total o (l ++ [(t, o', n)]) = total o l + (if bool_decide (o' = o) then Z.of_nat n else 0).
Proof.
  unfold total. rewrite sum_list_with_app. simpl. case_bool_decide; lia.
Qed.

Lemma logged_settle p t o n : logged (settle p t o n) = logged p ++ [t].
Proof. unfold logged. cbn [log settle]. by rewrite !fmap_app. Qed.

(** A batch is counted and stays where it is. *)
Lemma ledger_count p b l n :
  counted b = false → err b = true → ledger p (b :: l) → ledger (settle p (ticket b) Dropped n) (set_counted b :: l).
Proof.
  intros Hc He [H1 H2 H3 H4 H5 H6 H7 H8 H9 H10 H11 H12 H13 H14]. rewrite fmap_cons, ?Forall_cons in *.
  destruct H5 as [H5 H5']. assert (ticket b ∉ logged p) as Hnl by (rewrite H5; congruence).
  split; rewrite ?fmap_cons, ?Forall_cons, ?logged_settle; cbn [ticket set_counted counted]; try done.
  - intros c. specialize (H3 c). unfold ofBudget in *. rewrite filter_cons in H3 |- *. cbn [control set_counted].
    by case_decide.
  - rewrite NoDup_app. split_and!; [done | | apply NoDup_singleton].
    intros x Hx ->%list_elem_of_singleton. done.
  - split.
    + rewrite elem_of_app, list_elem_of_singleton. naive_solver.
    + rewrite Forall_forall in H5' |- *. intros b' Hb'. rewrite elem_of_app, list_elem_of_singleton, <- H5' by done.
      assert (ticket b' ≠ ticket b) by (intros E; apply NoDup_cons in H1 as [Hn _]; apply Hn; rewrite <- E; by apply list_elem_of_fmap_2).
      naive_solver.
  - intros t Ht. cbn [reserved settle] in Ht. destruct (H6 t Ht); [by left | right; rewrite elem_of_app; by left].
  - intros t. rewrite elem_of_app, list_elem_of_singleton. intros [?| ->]; [by apply H7 | by destruct H2].
  - cbn [dropped refusals log settle]. rewrite total_snoc, H8, bool_decide_eq_true_2 by done. unfold u64. rewrite Zplus_mod_idemp_l. f_equal. lia.
  - cbn [sendFailed log settle]. rewrite total_snoc, H9, bool_decide_eq_false_2 by done. f_equal. lia.
  - intros t Ht. destruct (H12 t Ht) as (o & m & ? & ?). exists o, m. cbn [log settle]. rewrite elem_of_app. naive_solver.
  - split; [|by destruct H13]. destruct H13 as [(Hb1 & Hb2 & Hb3 & Hb4) _]. split_and!; done.
  - cbn [log settle]. split.
    + intros _. exists n. apply elem_of_app. right. by apply list_elem_of_singleton.
    + destruct H14 as [_ H14]. eapply Forall_impl; [exact H14|]. intros b' Hb' Hcb. destruct (Hb' Hcb) as [m Hm].
      exists m. apply elem_of_app. by left.
Qed.

(** A batch comes to its end with outcome [o]: it is counted now, unless it was
    before, its slot goes back, and its callback runs if it failed. *)
Lemma ledger_end p b l o n p1 p2 :
  ledger p (b :: l) →
  p1 = (if counted b then p else settle p (ticket b) o n) →
  releaseSlot p1 (control b) = Some p2 →
  ledger p2 l ∧ (o ≠ Sent ∨ counted b = true → ledger (fail_ p2 b) l).
Proof.
  intros [H1 H2 H3 H4 H5 H6 H7 H8 H9 H10 H11 H12 H13 H14] E1 E2. rewrite fmap_cons, ?Forall_cons in *.
  apply NoDup_cons in H1 as [Hn H1]. destruct H2 as [Hr H2], H5 as [H5 H5'], H11 as [Hu H11], H13 as [Hok H13], H14 as [He H14].
  assert (logged p1 = (if counted b then logged p else logged p ++ [ticket b]) ∧ callbacks p1 = callbacks p ∧
    reserved p1 = reserved p ∧ taking p1 = taking p ∧ (∀ c, budget p1 c = budget p c ∧ budgetCap p1 c = budgetCap p c) ∧
    log p1 = (if counted b then log p else log p ++ [(ticket b, o, n)]))
    as (Elog & Ecb & Eres & Etk & Ebud & Elg).
  { subst p1. destruct (counted b); [done|]. rewrite logged_settle. done. }
  assert (dropped p1 = u64 (Z.of_nat (refusals p1) + total Dropped (log p1)) ∧ sendFailed p1 = u64 (total SendFailed (log p1))) as [Ed Ef].
  { subst p1. destruct (counted b); [done|]. cbn [dropped sendFailed refusals log settle]. rewrite !total_snoc.
    unfold u64 in *. destruct o; cbn [bool_decide decide]; rewrite ?H8, ?H9, ?Zplus_mod_idemp_l;
      repeat case_bool_decide; try done; rewrite ?Z.add_0_r; try done; split; f_equal; lia. }
  assert (∃ k, budget p1 (control b) = S k ∧ p2 = set_budget p1 (control b) k) as (k & Ek & ->).
  { unfold releaseSlot in E2. destruct (budget p1 (control b)) as [|k]; [done|]. exists k. split; congruence. }
  assert (∀ x, x ∈ logged p1 ↔ x ∈ logged p ∨ x = ticket b) as Hlog.
  { intros x. rewrite Elog. destruct (counted b) eqn:Ec; [|by rewrite elem_of_app, list_elem_of_singleton].
    split; [by left | intros [?| ->]; [done | by apply H5]]. }
  assert (ledger (set_budget p1 (control b) k) l) as HL.
  { split; cbn [reserved taking log dropped sendFailed refusals callbacks set_budget]; rewrite ?Eres, ?Etk, ?Ecb; try done.
    - intros c. destruct (H3 c) as [Hb1 Hb2]. destruct (Ebud c) as [Eb1 Eb2]. unfold ofBudget in *. rewrite filter_cons in Hb1.
      assert (budgetCap (set_budget p1 (control b) k) c = budgetCap p c) as -> by (rewrite <- Eb2; done).
      assert (budget (set_budget p1 (control b) k) c = if bool_decide (control b = c) then k else budget p1 c) as ->.
      { unfold budget. cbn [set_budget slots controlSlots]. destruct c, (control b); done. }
      case_bool_decide as Ecc; [subst c; rewrite decide_True in Hb1 by done; cbn [length] in Hb1; lia|].
      rewrite decide_False in Hb1 by done. lia.
    - unfold logged. cbn [log set_budget]. fold (logged p1). rewrite Elog. destruct (counted b) eqn:Ec; [done|].
      rewrite NoDup_app. split_and!; [done | | apply NoDup_singleton].
      intros x Hx ->%list_elem_of_singleton. apply H5 in Hx. congruence.
    - change (logged (set_budget p1 (control b) k)) with (logged p1). rewrite Forall_forall in H5' |- *.
      intros b' Hb'. rewrite Hlog, <- H5' by done.
      assert (ticket b' ≠ ticket b) by (intros E; apply Hn; rewrite <- E; by apply list_elem_of_fmap_2). naive_solver.
    - intros t Ht. change (logged (set_budget p1 (control b) k)) with (logged p1). rewrite Hlog.
      destruct (H6 t Ht) as [[->|?]%elem_of_cons|?]; naive_solver.
    - intros t. change (logged (set_budget p1 (control b) k)) with (logged p1). rewrite Hlog.
      intros [?| ->]; [by apply H7 | done].
    - intros t Ht. destruct (H12 t Ht) as (o' & m & ? & ?). exists o', m. rewrite Elg.
      destruct (counted b); [done|]. rewrite elem_of_app. naive_solver.
    - eapply Forall_impl; [exact H14|]. intros b' Hb' Hcb. destruct (Hb' Hcb) as [m Hm]. exists m. rewrite Elg.
      destruct (counted b); [done|]. apply elem_of_app. by left. }
  split; [done|]. intros Ho. unfold fail_. destruct (negb (onFailure b) || failed b); [done|].
  destruct HL as [K1 K2 K3 K4 K5 K6 K7 K8 K9 K10 K11 K12 K13 K14].
  split; try done; cbn [callbacks set_budget] in *; rewrite ?Ecb in *.
  - rewrite NoDup_app. split_and!; [done | | apply NoDup_singleton]. intros x Hx ->%list_elem_of_singleton. done.
  - rewrite Forall_forall in K11 |- *. intros b' Hb'. rewrite elem_of_app, list_elem_of_singleton.
    intros [?|E]; [by eapply K11|]. apply Hn. rewrite <- E. by apply list_elem_of_fmap_2.
  - intros t [Ht| ->%list_elem_of_singleton]%elem_of_app; [by apply K12|]. cbn [log set_budget]. rewrite Elg.
    destruct (counted b) eqn:Ec.
    + destruct (He eq_refl) as [m Hm]. by exists Dropped, m.
    + exists o, n. split; [apply elem_of_app; right; by apply list_elem_of_singleton|]. by destruct Ho.
Qed.

(** ** Where the sender stands *)

Definition active (ph : senderPhase) : bool :=
  match ph with Waiting | Draining _ | Finishing _ _ => true | _ => false end.

Definition pendingBatches (p : Peer) : list peerBatch := (map_to_list (pending p)).*2.

Record position (p : Peer) : Prop := {
  Q_keys : ∀ t b, pending p !! t = Some b → ticket b = t;
  Q_next : 0 ≤ next p ≤ reserved p;
  Q_sorted : StronglySorted Z.lt (wire p).*1;
  Q_wire : Forall (λ t, t < next p) (wire p).*1;
  Q_queued : Forall (λ t, next p ≤ t) (ticket <$> queued p);
  Q_ready : Forall (λ b, ticket b < next p) (readyOf (phase p));
  Q_open : active (phase p) = true →
    queueClosed p = false ∧ ∀ t, next p ≤ t < reserved p → t ∈ ticket <$> queued p;
  Q_closed : active (phase p) = false →
    queueClosed p = true ∧
    match phase p with
    | Abandoning ts => ts ≡ₚ (map_to_list (pending p)).*1 ∧ completed p = []
    | Done => pending p = ∅ ∧ completed p = []
    | _ => True
    end;
  Q_sealed : Forall (λ b, encrypted b || err b = true) (completed p ++ pendingBatches p ++ readyOf (phase p));
  Q_sent : ∀ ready, phase p = Finishing ready false → Forall (λ b, ticket b ∈ (wire p).*1) ready;
  Q_log : ∀ t n, (t, Sent, n) ∈ log p → t ∈ (wire p).*1 }.

Definition inv (p : Peer) : Prop := ledger p (live p) ∧ position p.

(** A step of a caller that leaves the tickets it holds as they are. *)
Lemma position_same p q :
  next q = next p → wire q = wire p → reserved q = reserved p → log q = log p → phase q = phase p →
  queueClosed q = queueClosed p → completed q = completed p → pending q = pending p →
  ticket <$> held q = ticket <$> held p → position p → position q.
Proof.
  intros E1 E2 E3 E4 E5 E6 E7 E8 E9 [H1 H2 H3 H4 H5 H6 H7 H8 H9 H10 H11].
  assert (ticket <$> queued q = ticket <$> queued p) as Eq.
  { unfold queued. rewrite !fmap_app, E9, E7, E8. done. }
  split; unfold pendingBatches in *; rewrite ?Eq, ?E1, ?E2, ?E3, ?E4, ?E5, ?E6, ?E7, ?E8; done.
Qed.

(** ** Callers *)

Lemma ledger_refuse p l n : ledger p l → ledger (refuse p n) l.
Proof.
  intros [H1 H2 H3 H4 H5 H6 H7 H8 H9 H10 H11 H12 H13 H14]. split; try done.
  cbn [dropped refusals refuse log]. rewrite H8. unfold u64. rewrite Zplus_mod_idemp_l. f_equal. lia.
Qed.

Lemma takeSlot_inv p count c late p' : inv p → takeSlot p count c late = Some p' → inv p'.
Proof.
  intros [HL HP]. unfold takeSlot. destruct (stop p && negb late).
  { intros [= <-]. split; [by apply ledger_refuse | by eapply position_same; [..|exact HP]]. }
  destruct (Nat.ltb_spec (budget p c) (budgetCap p c)) as [Hlt|]; intros [= <-].
  - split; [|by eapply position_same; [..|exact HP]].
    destruct HL as [H1 H2 H3 H4 H5 H6 H7 H8 H9 H10 H11 H12 H13 H14]. split; try done.
    intros c'. destruct (H3 c') as [E Hc]. change (live (set_taking _ _)) with (live p).
    cbn [taking set_taking]. unfold takingOf in *. rewrite filter_app, length_app, filter_cons, filter_nil. cbn [snd].
    assert (budgetCap (set_taking (set_budget p c (S (budget p c))) (taking p ++ [(count, c)])) c' = budgetCap p c') as -> by done.
    assert (budget (set_taking (set_budget p c (S (budget p c))) (taking p ++ [(count, c)])) c' =
      if decide (c = c') then S (budget p c) else budget p c') as ->.
    { unfold budget. cbn [set_taking set_budget slots controlSlots]. destruct c, c'; done. }
    case_decide; [subst c'|]; cbn [length]; lia.
  - split; [by apply ledger_refuse | by eapply position_same; [..|exact HP]].
Qed.

(** A place is taken: the next ticket. *)
Lemma ledger_new p i count c b l :
  taking p !! i = Some (count, c) → reserved p + 1 < 2 ^ 64 → 0 ≤ reserved p →
  ticket b = reserved p → control b = c → counted b = false → batch_ok b →
  ledger p l →
  ledger (mkPeer (queueSize p) (u64 (reserved p + 1)) (dropped p) (sendFailed p) (slots p) (controlSlots p) (queueClosed p)
    (completed p) (stop p) (phase p) (pending p) (next p) (delete i (taking p)) (held p ++ [b])
    (wire p) (log p) (refusals p) (callbacks p)) (b :: l).
Proof.
  intros Hi Hr Hr0 Et Ec Eco Hok [H1 H2 H3 H4 H5 H6 H7 H8 H9 H10 H11 H12 H13 H14].
  assert (u64 (reserved p + 1) = reserved p + 1) as Eu by (apply u64_id; lia).
  assert (reserved p ∉ ticket <$> l) as Hnew.
  { intros (b' & E & Hb')%list_elem_of_fmap. rewrite Forall_forall in H2. specialize (H2 b' Hb'). lia. }
  assert (reserved p ∉ logged p) as Hnl by (intros H; apply H7 in H; lia).
  split; cbn [reserved taking log dropped sendFailed refusals callbacks]; rewrite ?fmap_cons, ?Forall_cons, ?Eu, ?Et; try done.
  - by apply NoDup_cons.
  - split; [lia|]. eapply Forall_impl; [exact H2|]. intros b'. simpl. lia.
  - intros c'. destruct (H3 c') as [E Hc]. split; [|exact Hc].
    assert (takingOf c' (taking p) = takingOf c' ((count, c) :: delete i (taking p))) as Eq.
    { apply takingOf_perm. by apply delete_Permutation. }
    change (budget _ c') with (budget p c'). rewrite E, Eq. unfold takingOf, ofBudget. rewrite !filter_cons, Ec. cbn [snd].
    repeat case_decide; simpl; try done; lia.
  - split; [|done]. split; [done | congruence].
  - intros t Ht. destruct (decide (t = reserved p)) as [->|]; [left; apply elem_of_cons; by left|].
    destruct (H6 t ltac:(lia)); [left; apply elem_of_cons; by right | by right].
  - intros t Ht. apply H7 in Ht. lia.
  - split; [|done]. intros Hc. destruct (H12 _ Hc) as (o & n & Hin & _). apply Hnl.
    unfold logged. apply list_elem_of_fmap. exists (reserved p, o). split; [done|]. apply list_elem_of_fmap. by exists (reserved p, o, n).
  - split; [congruence | done].
Qed.

Lemma live_snoc_held p q b :
  phase q = phase p → completed q = completed p → pending q = pending p → held q = held p ++ [b] → live q ≡ₚ b :: live p.
Proof.
  intros E1 E2 E3 E4. unfold live, queued. rewrite E1, E2, E3, E4, <- app_assoc. cbn [app].
  rewrite <- !Permutation_middle. done.
Qed.

Lemma takeTicket_inv p i e p' :
  reserved p + 1 < 2 ^ 64 → inv p → takeTicket p i e = Some p' → inv p' ∧ reserved p' = reserved p + 1.
Proof.
  intros Hr [HL HP]. unfold takeTicket. destruct (taking p !! i) as [[count c]|] eqn:Hi; [|done]. intros [= E].
  pose proof (Q_next _ HP) as Hn. set (b0 := mkBatch (reserved p) [] [] false e false false false c).
  assert (batch_ok b0) as Hok by (split_and!; done).
  pose proof (ledger_new p i count c b0 (live p) Hi Hr ltac:(lia) eq_refl eq_refl eq_refl Hok HL) as HL1.
  set (b := mkBatch (reserved p) [] [] false e e false false c) in E.
  set (p1 := mkPeer (queueSize p) (u64 (reserved p + 1)) (dropped p) (sendFailed p) (slots p) (controlSlots p) (queueClosed p)
                 (completed p) (stop p) (phase p) (pending p) (next p) (delete i (taking p)) (held p ++ [b])
                 (wire p) (log p) (refusals p) (callbacks p)) in E.
  assert (u64 (reserved p + 1) = reserved p + 1) as Eu by (apply u64_id; lia).
  assert (live p1 ≡ₚ b :: live p) as Hlive by (by apply live_snoc_held).
  assert (position p1) as HP1.
  { destruct HP as [H1 H2 H3 H4 H5 H6 H7 H8 H9 H10 H11].
    assert (∀ t, t ∈ ticket <$> queued p1 ↔ t ∈ ticket <$> queued p ∨ t = reserved p) as Hq.
    { intros t. unfold queued. cbn [p1 held completed pending]. rewrite !fmap_app, !elem_of_app. cbn [fmap list_fmap].
      rewrite list_elem_of_singleton. cbn [b ticket]. tauto. }
    split; try done.
    - cbn [next reserved p1]. lia.
    - apply Forall_forall. intros t [Ht| ->]%Hq; [by eapply Forall_forall in H5 | cbn [next p1]; lia].
    - intros Ha. destruct (H7 Ha) as [? Hcov]. split; [done|]. intros t Ht. apply Hq. cbn [next reserved p1] in Ht. rewrite Eu in Ht.
      destruct (decide (t = reserved p)); [by right | left; apply Hcov; lia]. }
  destruct e; subst p'; (split; [split|]).
  - eapply ledger_perm; [symmetry; exact Hlive|]. apply (ledger_count _ b0); [done | done |].
    eapply ledger_same; [|exact HL1]. done.
  - destruct HP1 as [H1 H2 H3 H4 H5 H6 H7 H8 H9 H10 H11]. split; try done.
    intros t n. cbn [settle log]. intros [?|?%list_elem_of_singleton]%elem_of_app; [by eapply H11 | done].
  - done.
  - eapply ledger_perm; [symmetry; exact Hlive|]. eapply ledger_same; [|exact HL1]. done.
  - done.
  - done.
Qed.

(** A caller changes a batch in its hands. *)
Lemma held_split p i b b' :
  held p !! i = Some b →
  live p ≡ₚ b :: live (set_held p (delete i (held p))) ∧
  live (set_held p (<[i := b']> (held p))) ≡ₚ b' :: live (set_held p (delete i (held p))).
Proof.
  intros Hi. unfold live, queued. cbn [phase held completed pending set_held]. split.
  - rewrite (delete_Permutation (held p) i b Hi) at 1. cbn [app]. by rewrite <- Permutation_middle.
  - rewrite insert_take_drop by (by eapply lookup_lt_Some). rewrite delete_take_drop.
    rewrite <- !app_assoc. cbn [app]. rewrite <- !Permutation_middle. done.
Qed.

Lemma held_change p i b b' :
  inv p → held p !! i = Some b → ticket b' = ticket b → control b' = control b → counted b' = counted b → batch_ok b' →
  inv (set_held p (<[i := b']> (held p))).
Proof.
  intros [HL HP] Hi Et Ec Eco Hok. destruct (held_split p i b b' Hi) as [H1 H2]. split.
  - eapply ledger_perm; [symmetry; exact H2|]. eapply (ledger_update _ b); [done..|].
    eapply ledger_same; [|eapply ledger_perm; [exact H1 | exact HL]]. done.
  - eapply position_same; [..|exact HP]; try done. cbn [held set_held].
    rewrite list_fmap_insert, Et. apply list_insert_id. by rewrite list_lookup_fmap, Hi.
Qed.

Lemma held_ok p i b : inv p → held p !! i = Some b → batch_ok b ∧ b ∈ live p.
Proof.
  intros [HL _] Hi. assert (b ∈ live p) as Hin.
  { unfold live, queued. rewrite !elem_of_app. right. left. by eapply list_elem_of_lookup_2. }
  split; [|done]. by eapply Forall_forall in Hin; [|exact (L_batches _ _ HL)].
Qed.

Lemma appendRaw_inv p i x p' : inv p → appendRaw p i x = Some p' → inv p'.
Proof.
  intros Hi. unfold appendRaw. destruct (held p !! i) as [b|] eqn:Hb; [|done].
  destruct (held_ok p i b Hi Hb) as [(B1 & B2 & B3 & B4) _]. destruct (encrypted b) eqn:Ee; [done|]. intros [= <-].
  eapply held_change; [done | exact Hb | done | done | done |]. split_and!; done.
Qed.

Lemma setOnFailure_inv p i p' : inv p → setOnFailure p i = Some p' → inv p'.
Proof.
  intros Hi. unfold setOnFailure. destruct (held p !! i) as [b|] eqn:Hb; [|done].
  destruct (held_ok p i b Hi Hb) as [(B1 & B2 & B3 & B4) _]. intros [= <-].
  eapply held_change; [done | exact Hb | done | done | done |]. split_and!; done.
Qed.

Lemma encrypt_inv p i out p' : inv p → encrypt p i out = Some p' → inv p'.
Proof.
  intros Hi. unfold encrypt. destruct (held p !! i) as [b|] eqn:Hb; [|done].
  destruct (held_ok p i b Hi Hb) as [(B1 & B2 & B3 & B4) _].
  destruct (encrypted b || err b) eqn:Ee; [by intros [= <-]|]. apply orb_false_iff in Ee as [Ee1 Ee2].
  destruct out as [s|].
  - destruct (Nat.eqb_spec (length s) (length (raw b))) as [El|]; [|done]. intros [= <-].
    eapply held_change; [done | exact Hb | done | done | done |]. split_and!; try done. intros Hc%B1. congruence.
  - intros [= <-]. eapply held_change; [done | exact Hb | done | done | done |]. split_and!; done.
Qed.

(** A batch on its way out holds a slot, so giving one back never waits. *)
Lemma release_ready p b l : ledger p (b :: l) → ∃ n, budget p (control b) = S n.
Proof.
  intros HL. destruct (L_budget _ _ HL (control b)) as [E _]. unfold ofBudget in E. rewrite filter_cons, decide_True in E by done.
  cbn [length] in E. exists (takingOf (control b) (taking p) + length (filter (λ b0, control b0 = control b) l))%nat. lia.
Qed.

(** Everything but the accounts is as before. *)
Definition same_place (p q : Peer) : Prop :=
  next q = next p ∧ wire q = wire p ∧ reserved q = reserved p ∧ phase q = phase p ∧ queueClosed q = queueClosed p ∧
  completed q = completed p ∧ pending q = pending p ∧ held q = held p ∧ stop q = stop p ∧ taking q = taking p ∧
  queueSize q = queueSize p.

Lemma same_place_live p q : same_place p q → live q = live p.
Proof. intros (_ & _ & _ & E1 & _ & E2 & E3 & E4 & _). unfold live, queued. by rewrite E1, E2, E3, E4. Qed.

Lemma same_place_position p q :
  same_place p q → (∀ t n, (t, Sent, n) ∈ log q → t ∈ (wire p).*1) → position p → position q.
Proof.
  intros (E1 & E2 & E3 & E4 & E5 & E6 & E7 & E8 & _) Hlog [H1 H2 H3 H4 H5 H6 H7 H8 H9 H10 H11].
  assert (queued q = queued p) as Eq by (unfold queued; by rewrite E6, E7, E8).
  split; unfold pendingBatches in *; rewrite ?Eq, ?E1, ?E2, ?E3, ?E4, ?E5, ?E6, ?E7; done.
Qed.

Lemma abandon_ledger p b l :
  ledger p (b :: l) →
  ∃ q, abandon p b = Some q ∧ ledger q l ∧ same_place p q ∧
    log q = (if counted b then log p else log p ++ [(ticket b, Dropped, length (raw b))]).
Proof.
  intros HL. unfold abandon. set (p1 := if counted b then p else settle p (ticket b) Dropped (length (raw b))).
  assert (∃ n, budget p1 (control b) = S n) as [n Hn].
  { destruct (release_ready p b l HL) as [n Hn]. exists n. unfold p1. by destruct (counted b). }
  assert (releaseSlot p1 (control b) = Some (set_budget p1 (control b) n)) as Er by (unfold releaseSlot; by rewrite Hn).
  rewrite Er. cbn [mbind option_bind]. eexists. split; [done|].
  destruct (ledger_end p b l Dropped (length (raw b)) p1 _ HL eq_refl Er) as [_ Hf].
  assert (∀ q, same_place q (fail_ q b) ∧ log (fail_ q b) = log q) as Hfail.
  { intros q. unfold fail_. by destruct (_ || _). }
  destruct (Hfail (set_budget p1 (control b) n)) as [Hsp Hlog].
  split_and!; [by apply Hf; left | |].
  - unfold same_place in *. destruct Hsp as (-> & -> & -> & -> & -> & -> & -> & -> & -> & -> & ->).
    unfold p1. by destruct (counted b).
  - rewrite Hlog. unfold p1. by destruct (counted b).
Qed.

Lemma queued_delete_held p i b :
  held p !! i = Some b → ticket <$> queued p ≡ₚ ticket b :: (ticket <$> queued (set_held p (delete i (held p)))).
Proof.
  intros Hi. unfold queued. cbn [held completed pending set_held]. rewrite (delete_Permutation (held p) i b Hi) at 1. done.
Qed.

(** Taking a batch out of its caller's hands keeps what is known of the rest;
    the ticket it had must be found again elsewhere while the queue is open. *)
Lemma position_delete_held p i b :
  position p → held p !! i = Some b → active (phase p) = false → position (set_held p (delete i (held p))).
Proof.
  intros [H1 H2 H3 H4 H5 H6 H7 H8 H9 H10 H11] Hi Ha. split; try done.
  - rewrite (queued_delete_held p i b Hi) in H5. by apply Forall_cons in H5 as [_ H5].
  - cbn [phase set_held]. congruence.
Qed.

(** The queue holds every batch that can be on its way to it. *)
Lemma queue_room p i b : inv p → held p !! i = Some b → (length (completed p) < queueCap p)%nat.
Proof.
  intros [HL HP] Hi. destruct (held_split p i b b Hi) as [Hsp _].
  destruct (L_budget _ _ HL true) as [Et Ht]. destruct (L_budget _ _ HL false) as [Ef Hf].
  assert (∀ l, (ofBudget true l + ofBudget false l)%nat = length l) as Hsum.
  { unfold ofBudget. induction l as [|x l IH]; [done|]. rewrite !filter_cons. destruct (control x); simpl; lia. }
  specialize (Hsum (live p)). assert (S (length (completed p)) ≤ length (live p))%nat.
  { rewrite Hsp. unfold live, queued. cbn [length]. rewrite !length_app. cbn [completed set_held]. lia. }
  unfold queueCap. cbn [budgetCap] in *. lia.
Qed.

Lemma enqueue_inv p i p' : inv p → enqueue p i = Some p' → inv p'.
Proof.
  intros Hinv. pose proof Hinv as [HL HP]. unfold enqueue. destruct (held p !! i) as [b|] eqn:Hi; [|done].
  destruct (negb (encrypted b || err b)) eqn:Ee; [done|]. apply negb_false_iff in Ee.
  set (q := set_held p (delete i (held p))). destruct (held_split p i b b Hi) as [Hsp _]. fold q in Hsp.
  assert (ledger q (b :: live q)) as HLq.
  { eapply ledger_same; [|eapply ledger_perm; [exact Hsp | exact HL]]. done. }
  pose proof (queue_room p i b Hinv Hi) as Hroom.
  destruct (queueClosed q) eqn:Eq.
  - intros E. destruct (abandon_ledger q b (live q) HLq) as (q' & Eq' & HL' & Hpl & Hlog).
    rewrite E in Eq'. injection Eq' as <-. split; [by rewrite (same_place_live _ _ Hpl)|].
    assert (active (phase p) = false) as Ha.
    { destruct (active (phase p)) eqn:Ea; [|done]. destruct (Q_open _ HP Ea). cbn [queueClosed q set_held] in Eq. congruence. }
    eapply same_place_position; [exact Hpl | | by apply (position_delete_held p i b)].
    intros t n Ht. apply (Q_log _ HP t n). rewrite Hlog in Ht. destruct (counted b); [done|].
    apply elem_of_app in Ht as [?|?%list_elem_of_singleton]; [done | congruence].
  - rewrite (proj2 (Nat.ltb_lt (length (completed q)) (queueCap q)) Hroom). set (q' := set_completed q (completed q ++ [b])).
    intros Hx. assert (p' = q') as -> by congruence. clear Hx.
    assert (active (phase p) = true) as Ha.
    { destruct (active (phase p)) eqn:Ea; [done|]. destruct (Q_closed _ HP Ea). cbn [queueClosed q set_held] in Eq. congruence. }
    assert (live q' ≡ₚ b :: live q) as Hl.
    { unfold live, queued. cbn [q' q held completed pending phase set_completed set_held]. rewrite <- !app_assoc. cbn [app].
      rewrite <- !Permutation_middle. done. }
    split; [eapply ledger_perm; [symmetry; exact Hl|]; eapply ledger_same; [|exact HLq]; done|].
    assert (ticket <$> queued q' ≡ₚ ticket <$> queued p) as Hq.
    { rewrite (queued_delete_held p i b Hi). fold q. unfold queued. cbn [q' q held completed pending set_completed set_held].
      rewrite !fmap_app, <- !app_assoc. cbn [fmap list_fmap app]. rewrite <- !Permutation_middle. done. }
    destruct HP as [H1 H2 H3 H4 H5 H6 H7 H8 H9 H10 H11]. split; try done.
    + change (Forall (λ t, next p ≤ t) (ticket <$> queued q')). by rewrite Hq.
    + intros _. destruct (H7 Ha) as [? Hcov]. split; [done|]. intros t Ht. rewrite Hq. by apply Hcov.
    + cbn [phase q' q set_completed set_held]. congruence.
    + unfold pendingBatches in *. cbn [completed pending phase q' q set_completed set_held]. rewrite !Forall_app in *.
      rewrite Forall_singleton. naive_solver.
Qed.

Lemma close_inv p p' : inv p → close p = Some p' → inv p'.
Proof.
  intros [HL HP] [= <-]. split; [eapply ledger_same; [|exact HL]; done|].
  eapply position_same; [..|exact HP]; done.
Qed.

(** ** The sender *)

Lemma pending_perm_insert (m : gmap Z peerBatch) t b :
  m !! t = None → (map_to_list (<[t := b]> m)).*2 ≡ₚ b :: (map_to_list m).*2.
Proof. intros H. by rewrite map_to_list_insert. Qed.

Lemma pending_perm_delete (m : gmap Z peerBatch) t b :
  m !! t = Some b → (map_to_list m).*2 ≡ₚ b :: (map_to_list (delete t m)).*2.
Proof.
  intros H. rewrite <- (insert_delete_id m t b H) at 1. apply pending_perm_insert. apply lookup_delete_eq.
Qed.

Lemma pending_elem p t b : pending p !! t = Some b → b ∈ pendingBatches p.
Proof.
  intros H. unfold pendingBatches. apply list_elem_of_fmap. exists (t, b). split; [done|]. by apply elem_of_map_to_list.
Qed.

(** A queued batch is not pending yet. *)
Lemma completed_not_pending p b rest :
  inv p → completed p = b :: rest → pending p !! ticket b = None.
Proof.
  intros [HL HP] Hc. destruct (pending p !! ticket b) as [b'|] eqn:E; [|done]. exfalso.
  pose proof (L_nodup _ _ HL) as Hn. unfold live, queued in Hn. rewrite Hc in Hn.
  rewrite !fmap_app in Hn. do 2 (apply NoDup_app in Hn as (_ & _ & Hn)). cbn [fmap list_fmap app] in Hn.
  apply NoDup_cons in Hn as [Hn _]. apply Hn. rewrite elem_of_app. right. rewrite <- (Q_keys _ HP _ _ E) at 1.
  apply list_elem_of_fmap_2. by apply (pending_elem p (ticket b)).
Qed.

Lemma receive_inv p ph p' :
  inv p → receive p ph = Some p' → readyOf (phase p) = [] → readyOf ph = [] → active ph = active (phase p) →
  (active ph = false → ph = Discarding) → (∀ r, ph ≠ Finishing r false) → inv p'.
Proof.
  intros Hinv. pose proof Hinv as [HL HP]. unfold receive. destruct (completed p) as [|b rest] eqn:Hc; [done|].
  intros E Hr1 Hr2 Ha Hd Hnf. pose proof (completed_not_pending p b rest Hinv Hc) as Hnone.
  set (q := set_sender (set_completed p rest) ph (<[ticket b := b]> (pending p)) (next p)) in E.
  assert (p' = q) as -> by congruence. clear E.
  assert (queued q ≡ₚ queued p) as Hq.
  { unfold queued. cbn [q held completed pending set_sender set_completed]. rewrite Hc, pending_perm_insert by done.
    apply Permutation_app_head. cbn [app]. by rewrite <- Permutation_middle. }
  assert (live q ≡ₚ live p) as Hlv.
  { unfold live. cbn [q phase set_sender]. by rewrite Hr1, Hr2, Hq. }
  split; [eapply ledger_perm; [symmetry; exact Hlv|]; eapply ledger_same; [|exact HL]; done|].
  destruct HP as [H1 H2 H3 H4 H5 H6 H7 H8 H9 H10 H11]. split; try done.
  - intros t b'. cbn [q pending set_sender set_completed]. rewrite lookup_insert_Some. intros [[<- <-]|[_ ?]]; [done | by apply H1].
  - change (Forall (λ t, next p ≤ t) (ticket <$> queued q)). by rewrite Hq.
  - cbn [q phase set_sender]. by rewrite Hr2.
  - intros Hact. cbn [q phase set_sender] in Hact. destruct H7 as [? Hcov]; [congruence|]. split; [done|].
    intros t Ht. rewrite Hq. by apply Hcov.
  - intros Hact. cbn [q phase set_sender] in *. rewrite (Hd Hact) in *. split; [|done].
    by destruct H8 as [? _].
  - unfold pendingBatches in *. cbn [q completed pending phase set_sender set_completed]. rewrite Hc, Hr1 in H9.
    rewrite pending_perm_insert, Hr2 by done. rewrite app_nil_r in *. cbn [app] in H9. by rewrite <- Permutation_middle.
  - intros ready Hph. by destruct (Hnf ready).
Qed.

(** The run [collect] takes: consecutive tickets from [next] on. *)
Lemma collect_spec fuel pe nx packets ready R :
  (∀ t b, pe !! t = Some b → ticket b = t ∧ t < R) → 0 ≤ nx → R < 2 ^ 64 →
  ∃ got pe', let nx' := nx + Z.of_nat (length got) in
    collect fuel pe nx packets ready = (pe', nx', packets ++ concat (map sealed got), ready ++ got) ∧
    (map_to_list pe).*2 ≡ₚ got ++ (map_to_list pe').*2 ∧ ticket <$> got = seqZ nx (Z.of_nat (length got)) ∧
    (∀ t b, pe' !! t = Some b → pe !! t = Some b) ∧
    (got ≠ [] → nx' ≤ R) ∧
    ((size pe < fuel)%nat → (128 ≤ length (packets ++ concat (map sealed got)))%nat ∨ pe' !! nx' = None).
Proof.
  intros Hpe Hnx HR. revert pe nx packets ready Hpe Hnx. induction fuel as [|fuel IH]; intros pe nx packets ready Hpe Hnx.
  { exists [], pe. cbn [collect length Z.of_nat map concat]. rewrite !app_nil_r, Z.add_0_r. split_and!; try done. lia. }
  cbn [collect]. destruct (Nat.leb_spec 128 (length packets)) as [H128|H128].
  { exists [], pe. cbn [length Z.of_nat map concat]. rewrite !app_nil_r, Z.add_0_r. split_and!; try done. intros _. by left. }
  destruct (pe !! nx) as [b|] eqn:Hb.
  2:{ exists [], pe. cbn [length Z.of_nat map concat]. rewrite !app_nil_r, Z.add_0_r. split_and!; try done. intros _. by right. }
  destruct (Hpe _ _ Hb) as [Et Hlt]. rewrite u64_id by lia.
  destruct (IH (delete nx pe) (nx + 1) (packets ++ sealed b) (ready ++ [b])) as (got & pe' & -> & Hp & Hs & Hsub & Hle & Hfin); [|lia|].
  { intros t b' Hb'. apply lookup_delete_Some in Hb' as [_ Hb']. by apply Hpe. }
  exists (b :: got), pe'. cbn [length map concat]. rewrite <- !app_assoc.
  replace (nx + 1 + Z.of_nat (length got)) with (nx + Z.of_nat (S (length got))) in * by lia. split_and!.
  - done.
  - rewrite (pending_perm_delete _ _ _ Hb), Hp. done.
  - cbn [fmap list_fmap]. rewrite Et. change (list_fmap _ _ ticket got) with (ticket <$> got). rewrite Hs.
    rewrite (seqZ_cons nx (Z.of_nat (S (length got)))) by lia. f_equal. unfold Z.succ. f_equal. lia.
  - intros t b' Hb'. apply Hsub in Hb'. by apply lookup_delete_Some in Hb' as [_ ?].
  - intros _. destruct got as [|g got]; [cbn [length]; lia | by apply Hle].
  - intros Hsz. rewrite <- !app_assoc in Hfin. apply Hfin. pose proof (map_size_delete_Some pe nx b Hb) as Hd || idtac.
    rewrite map_size_delete_Some by eauto. assert (size pe ≠ 0%nat) by (intros E%map_size_empty_inv; subst; by rewrite lookup_empty in Hb). lia.
Qed.
