(* ===== verification/NetPeerOrder.v ===== *)
(** * The ordered sender: order, accounts and progress

    The sender's steps keep the invariant, and what follows for every reachable
    state: packets leave in the order places were taken, every place ends once
    and is counted once, slots are never lost, and the sender always gets to the
    end of its work. *)

From S2P Require Import Prelude NetPeer NetPeerInv.

Lemma seqZ_elem_bound n len x : x ∈ seqZ n len ↔ n ≤ x < n + len.
Proof. apply elem_of_seqZ. Qed.

Lemma seqZ_sorted n len : StronglySorted Z.lt (seqZ n len).
Proof.
  assert (∀ k n, StronglySorted Z.lt (seqZ n (Z.of_nat k))) as H.
  { induction k as [|k IH]; intros m; [constructor|]. rewrite seqZ_cons by lia. constructor.
    - replace (Z.pred (Z.of_nat (S k))) with (Z.of_nat k) by lia. apply IH.
    - apply Forall_forall. intros x Hx%elem_of_seqZ. lia. }
  destruct (Z.le_gt_cases 0 len); [rewrite <- (Z2Nat.id len) by lia; apply H|].
  rewrite seqZ_nil by lia. constructor.
Qed.

Lemma sorted_app (l l' : list Z) k :
  StronglySorted Z.lt l → StronglySorted Z.lt l' → Forall (λ t, t < k) l → Forall (λ t, k ≤ t) l' →
  StronglySorted Z.lt (l ++ l').
Proof.
  intros Hl Hl' Hk Hk'. induction Hl as [|x l Hl IH Hx]; [done|]. inversion Hk as [|?? Hxk Hk2]; subst. cbn [app]. constructor.
  - by apply IH.
  - apply Forall_app. split; [done|]. eapply Forall_impl; [exact Hk'|]. intros y. simpl. lia.
Qed.

Lemma pending_range p : inv p → ∀ t b, pending p !! t = Some b → ticket b = t ∧ t < reserved p.
Proof.
  intros [HL HP] t b Hb. pose proof (Q_keys _ HP _ _ Hb) as E. split; [done|].
  assert (b ∈ live p) as Hin.
  { unfold live, queued. rewrite !elem_of_app. right. right. right. by eapply pending_elem. }
  pose proof (L_range _ _ HL) as Hr. rewrite Forall_forall in Hr. specialize (Hr b Hin). lia.
Qed.

(** What one transport call takes out of [pending]. *)
Lemma transmit_cases p e :
  reserved p < 2 ^ 64 → inv p →
  ∃ got pe' sendErr, transmit p e =
      log_wire (set_sender p (Finishing got sendErr) pe' (next p + Z.of_nat (length got)))
        (if sendErr then [] else map (λ b, (ticket b, sealed b)) got) ∧
    pendingBatches p ≡ₚ got ++ (map_to_list pe').*2 ∧ ticket <$> got = seqZ (next p) (Z.of_nat (length got)) ∧
    (∀ t b, pe' !! t = Some b → pending p !! t = Some b) ∧
    next p + Z.of_nat (length got) ≤ reserved p ∧
    (got = [] → pe' = pending p ∧ pending p !! next p = None) ∧
    (sendErr = true → e = true ∧ concat (map sealed got) ≠ []).
Proof.
  intros HR Hinv. pose proof Hinv as [HL HP]. unfold transmit.
  destruct (collect_spec (S (size (pending p))) (pending p) (next p) [] [] (reserved p)) as (got & pe' & E & Hp & Hs & Hsub & Hle & Hfin);
    [by apply pending_range | apply (Q_next _ HP) | done |].
  rewrite E. cbn [app]. exists got, pe'. eexists. split; [done|]. split_and!; try done.
  - destruct got; [cbn [length]; pose proof (Q_next _ HP); lia | by apply Hle].
  - intros ->. cbn [length Z.of_nat] in *. rewrite Z.add_0_r in *.
    assert (pe' = pending p) as ->.
    { apply map_eq. intros t. destruct (pe' !! t) as [b|] eqn:Eb; [symmetry; by apply Hsub|].
      destruct (pending p !! t) as [b|] eqn:Eb'; [|done]. exfalso.
      assert (b ∈ pendingBatches p) as Hin by (by eapply pending_elem). unfold pendingBatches in Hin. rewrite Hp in Hin. cbn [app] in Hin.
      apply list_elem_of_fmap in Hin as ([t' b'] & -> & Hin%elem_of_map_to_list). cbn [snd] in *.
      pose proof (Q_keys _ HP _ _ Eb') as E1. pose proof (Q_keys _ HP _ _ (Hsub _ _ Hin)) as E2. congruence. }
    split; [done|]. destruct Hfin as [Hc|Hc]; [lia | | done]. simpl in Hc. lia.
  - intros [-> Hn%negb_true_iff]%andb_true_iff. split; [done|]. intros Hc. rewrite Hc in Hn. done.
Qed.

Lemma transmit_inv p e n :
  reserved p < 2 ^ 64 → inv p → phase p = Draining n → inv (transmit p e).
Proof.
  intros HR Hinv Hph. pose proof Hinv as [HL HP].
  destruct (transmit_cases p e HR Hinv) as (got & pe' & sendErr & -> & Hp & Hs & Hsub & Hle & _ & _).
  set (q := log_wire _ _).
  assert (live q ≡ₚ live p) as Hlv.
  { unfold live, queued. cbn [q phase held completed pending readyOf log_wire set_sender]. rewrite Hph. cbn [readyOf app].
    unfold pendingBatches in Hp. rewrite Hp, (Permutation_app_swap_app got (held p)). apply Permutation_app_head.
    by rewrite (Permutation_app_swap_app got (completed p)). }
  split; [eapply ledger_perm; [symmetry; exact Hlv|]; eapply ledger_same; [|exact HL]; done|].
  assert (ticket <$> queued p ≡ₚ (ticket <$> got) ++ (ticket <$> queued q)) as Hq.
  { unfold queued. cbn [q held completed pending log_wire set_sender]. unfold pendingBatches in Hp. rewrite Hp.
    rewrite !fmap_app, (Permutation_app_swap_app (ticket <$> got) (ticket <$> held p)). apply Permutation_app_head.
    by rewrite (Permutation_app_swap_app (ticket <$> got) (ticket <$> completed p)). }
  destruct HP as [H1 H2 H3 H4 H5 H6 H7 H8 H9 H10 H11].
  assert ((map (λ b, (ticket b, sealed b)) got).*1 = seqZ (next p) (Z.of_nat (length got))) as Em.
  { rewrite <- Hs. clear. induction got as [|b got IH]; [done|]. cbn [map fmap list_fmap fst]. f_equal. exact IH. }
  assert (Forall (λ t, next p ≤ t < next p + Z.of_nat (length got)) (seqZ (next p) (Z.of_nat (length got)))) as Hrange
    by (apply Forall_forall; intros x; apply seqZ_elem_bound).
  assert (NoDup ((ticket <$> got) ++ (ticket <$> queued q))) as Hnd.
  { rewrite <- Hq. pose proof (L_nodup _ _ HL) as Hn. unfold live in Hn. rewrite fmap_app in Hn. by apply NoDup_app in Hn as (_ & _ & ?). }
  split; cbn [q phase next wire reserved queueClosed completed pending readyOf log log_wire set_sender active].
  - intros t b Hb. by apply H1, Hsub.
  - lia.
  - rewrite fmap_app. destruct sendErr; [by rewrite app_nil_r|]. rewrite Em.
    apply (sorted_app _ _ (next p)); [done | apply seqZ_sorted | done |]. eapply Forall_impl; [exact Hrange|]. simpl. lia.
  - rewrite fmap_app, Forall_app. split; [eapply Forall_impl; [exact H4|]; simpl; lia|].
    destruct sendErr; [constructor|]. rewrite Em. eapply Forall_impl; [exact Hrange|]. simpl. lia.
  - change (Forall (λ t, next p + Z.of_nat (length got) ≤ t) (ticket <$> queued q)).
    rewrite Hq, Forall_app in H5. destruct H5 as [_ H5]. rewrite Forall_forall in H5 |- *. intros t Ht. specialize (H5 t Ht).
    apply NoDup_app in Hnd as (_ & Hd & _). destruct (Z.lt_ge_cases t (next p + Z.of_nat (length got))) as [Hlt|]; [|lia].
    exfalso. apply (Hd t); [|done]. rewrite Hs. apply seqZ_elem_bound. lia.
  - assert (Forall (λ t, t < next p + Z.of_nat (length got)) (ticket <$> got)) as Hf
      by (rewrite Hs; eapply Forall_impl; [exact Hrange|]; simpl; lia).
    by rewrite Forall_fmap in Hf.
  - intros _. destruct H7 as [? Hcov]; [by rewrite Hph|]. split; [done|]. intros t Ht. change (queued (log_wire _ _)) with (queued q).
    assert (t ∈ ticket <$> queued p) as Hin by (apply Hcov; lia). rewrite Hq, elem_of_app in Hin.
    destruct Hin as [Hin|?]; [|done]. rewrite Hs in Hin. apply seqZ_elem_bound in Hin. lia.
  - done.
  - unfold pendingBatches in *. cbn [pending]. rewrite Hp in H9. rewrite Hph in H9. cbn [readyOf] in H9. rewrite app_nil_r in H9.
    rewrite !Forall_app in *. naive_solver.
  - intros ready [= -> ->]. rewrite fmap_app, Em, <- Hs. apply Forall_forall. intros b Hb. apply elem_of_app. right. by apply list_elem_of_fmap_2.
  - intros t m Ht. rewrite fmap_app, elem_of_app. left. by eapply H11.
Qed.

(** The sender moves to a phase that holds no batch of its own. *)
Lemma phase_inv p ph closed :
  inv p → readyOf (phase p) = [] → readyOf ph = [] → (∀ r, ph ≠ Finishing r false) →
  (active ph = true → closed = false ∧ active (phase p) = true) →
  (active ph = false → closed = true ∧
     match ph with
     | Abandoning ts => ts ≡ₚ (map_to_list (pending p)).*1 ∧ completed p = []
     | Done => pending p = ∅ ∧ completed p = []
     | _ => True
     end) →
  inv (mkPeer (queueSize p) (reserved p) (dropped p) (sendFailed p) (slots p) (controlSlots p) closed
        (completed p) (stop p) ph (pending p) (next p) (taking p) (held p) (wire p) (log p) (refusals p) (callbacks p)).
Proof.
  intros [HL HP] Hr1 Hr2 Hnf Hopen Hclosed. set (q := mkPeer _ _ _ _ _ _ _ _ _ _ _ _ _ _ _ _ _ _).
  assert (live q = live p) as Hlv by (unfold live; cbn [q phase]; by rewrite Hr1, Hr2).
  split; [rewrite Hlv; eapply ledger_same; [|exact HL]; done|].
  destruct HP as [H1 H2 H3 H4 H5 H6 H7 H8 H9 H10 H11].
  split; try done; cbn [q phase queueClosed completed pending] in *.
  - by rewrite Hr2.
  - intros Ha. destruct (Hopen Ha) as [-> Ha']. split; [done|]. by apply H7.
  - rewrite Hr2. by rewrite Hr1 in H9.
  - intros ready E. by destruct (Hnf ready).
Qed.

Lemma finish_inv p b rest sendErr :
  inv p → phase p = Finishing (b :: rest) sendErr →
  ∃ q, finish p b sendErr rest = Some q ∧ inv q ∧ phase q = Finishing rest sendErr ∧ pending q = pending p ∧
    next q = next p ∧ completed q = completed p ∧ held q = held p ∧ taking q = taking p ∧ stop q = stop p ∧
    reserved q = reserved p.
Proof.
  intros [HL HP] Hph. set (p1 := set_sender p (Finishing rest sendErr) (pending p) (next p)).
  assert (live p ≡ₚ b :: live p1) as Hlv by (unfold live; cbn [p1 phase set_sender readyOf]; by rewrite Hph).
  assert (ledger p1 (b :: live p1)) as HL1 by (eapply ledger_same; [|eapply ledger_perm; [exact Hlv | exact HL]]; done).
  pose proof (L_batches _ _ HL1) as Hbok. apply Forall_cons in Hbok as [(B1 & B2 & B3 & B4) _].
  set (e := err b || sendErr).
  set (o := if e then (if (length (sealed b) =? 0)%nat then Dropped else SendFailed) else Sent).
  set (p2 := if counted b then p1 else settle p1 (ticket b) o (length (raw b))).
  assert (finish p b sendErr rest = (p ← releaseSlot p2 (control b); Some (if e then fail_ p b else p))) as ->.
  { unfold finish. fold p1 e. f_equal. unfold p2, o. destruct (counted b) eqn:Ec.
    - assert (e = true) as -> by (unfold e; by rewrite B1). done.
    - destruct e; done. }
  destruct (release_ready p1 b _ HL1) as [n Hn].
  assert (releaseSlot p2 (control b) = Some (set_budget p2 (control b) n)) as Er.
  { unfold releaseSlot. assert (budget p2 (control b) = budget p1 (control b)) as -> by (unfold p2; by destruct (counted b)). by rewrite Hn. }
  rewrite Er. cbn [mbind option_bind]. eexists. split; [done|].
  destruct (ledger_end p1 b (live p1) o (length (raw b)) p2 _ HL1 eq_refl Er) as [HLn HLf].
  set (p3 := set_budget p2 (control b) n) in *.
  assert (same_place p1 p3 ∧ log p3 = log p2) as [Hs3 Hl3] by (unfold p3, p2; by destruct (counted b)).
  assert (same_place p1 (if e then fail_ p3 b else p3) ∧ log (if e then fail_ p3 b else p3) = log p2) as [Hs4 Hl4].
  { destruct e; [|done]. unfold fail_. by destruct (_ || _). }
  assert (ledger (if e then fail_ p3 b else p3) (live p1)) as HL4.
  { destruct e eqn:Ee; [|done]. apply HLf. left. unfold o. by destruct (_ =? _)%nat. }
  set (q := if e then fail_ p3 b else p3) in *.
  assert (position p1) as HP1.
  { destruct HP as [H1 H2 H3 H4 H5 H6 H7 H8 H9 H10 H11]. rewrite Hph in *. cbn [readyOf active] in *.
    split; try done; cbn [p1 phase set_sender readyOf active]; try done.
    - by apply Forall_cons in H6 as [_ H6].
    - unfold pendingBatches in *. cbn [completed pending p1 set_sender]. rewrite !Forall_app, ?Forall_cons in *. naive_solver.
    - intros ready [= -> ->]. specialize (H10 _ eq_refl). by apply Forall_cons in H10 as [_ H10]. }
  split_and!; try by (destruct Hs4 as (? & ? & ? & ? & ? & ? & ? & ? & ? & ? & ?)).
  - split; [by rewrite (same_place_live _ _ Hs4)|]. eapply same_place_position; [exact Hs4 | | exact HP1].
    intros t m Ht. rewrite Hl4 in Ht. unfold p2 in Ht. destruct (counted b); [by eapply (Q_log _ HP)|].
    cbn [log settle] in Ht. apply elem_of_app in Ht as [?|[= -> Eo ->]%list_elem_of_singleton]; [by eapply (Q_log _ HP)|].
    assert (e = false) as Ee by (unfold o in Eo; destruct e; [destruct (_ =? _)%nat; done | done]).
    apply orb_false_iff in Ee as [_ ->]. pose proof (Q_sent _ HP _ Hph) as Hsent. by apply Forall_cons in Hsent as [? _].
Qed.

Lemma abandon_inv p t ts b :
  inv p → phase p = Abandoning (t :: ts) → pending p !! t = Some b →
  ∃ q, abandon (set_sender p (Abandoning ts) (delete t (pending p)) (next p)) b = Some q ∧ inv q ∧
    phase q = Abandoning ts ∧ pending q = delete t (pending p) ∧ completed q = completed p ∧ held q = held p ∧
    taking q = taking p ∧ reserved q = reserved p.
Proof.
  intros [HL HP] Hph Hb. set (p1 := set_sender p (Abandoning ts) (delete t (pending p)) (next p)).
  assert (queued p ≡ₚ b :: queued p1) as Hq.
  { unfold queued. cbn [p1 held completed pending set_sender]. rewrite (pending_perm_delete _ _ _ Hb).
    by rewrite <- !Permutation_middle. }
  assert (live p ≡ₚ b :: live p1) as Hlv by (unfold live; cbn [p1 phase set_sender readyOf]; by rewrite Hph).
  assert (ledger p1 (b :: live p1)) as HL1 by (eapply ledger_same; [|eapply ledger_perm; [exact Hlv | exact HL]]; done).
  destruct (abandon_ledger p1 b _ HL1) as (q & E & HLq & Hs & Hlog). exists q. split; [done|].
  assert (position p1) as HP1.
  { destruct HP as [H1 H2 H3 H4 H5 H6 H7 H8 H9 H10 H11]. rewrite Hph in *. cbn [readyOf active] in *.
    split; try done; cbn [p1 phase pending set_sender readyOf active]; try done.
    - intros t' b' [_ ?]%lookup_delete_Some. by apply H1.
    - change (Forall (λ t, next p ≤ t) (ticket <$> queued p1)). rewrite Hq in H5. cbn [fmap list_fmap] in H5. by apply Forall_cons in H5 as [_ H5].
    - intros _. destruct (H8 eq_refl) as (? & Hperm & ?). split_and!; try done.
      rewrite <- (insert_delete_id (pending p) t b Hb), map_to_list_insert in Hperm by apply lookup_delete_eq.
      cbn [fmap list_fmap fst] in Hperm. by apply Permutation_cons_inv in Hperm.
    - unfold pendingBatches in *. cbn [completed pending p1 set_sender]. rewrite (pending_perm_delete _ _ _ Hb) in H9.
      rewrite !Forall_app, ?Forall_cons in *. naive_solver. }
  split_and!; try by (destruct Hs as (? & ? & ? & ? & ? & ? & ? & ? & ? & ? & ?)).
  split; [by rewrite (same_place_live _ _ Hs)|]. eapply same_place_position; [exact Hs | | exact HP1].
  intros t' m Ht. rewrite Hlog in Ht. destruct (counted b); [by eapply (Q_log _ HP)|].
  apply elem_of_app in Ht as [?|?%list_elem_of_singleton]; [by eapply (Q_log _ HP) | done].
Qed.

Lemma sortedTickets_perm pe : sortedTickets pe ≡ₚ (map_to_list pe).*1.
Proof. apply merge_sort_Permutation. Qed.

Lemma set_sender_shape p ph :
  set_sender p ph (pending p) (next p) =
    mkPeer (queueSize p) (reserved p) (dropped p) (sendFailed p) (slots p) (controlSlots p) (queueClosed p)
      (completed p) (stop p) ph (pending p) (next p) (taking p) (held p) (wire p) (log p) (refusals p) (callbacks p).
Proof. done. Qed.

Lemma senderStep_inv p e p' : reserved p < 2 ^ 64 → inv p → senderStep p e = Some p' → inv p' ∧ reserved p' = reserved p.
Proof.
  intros HR Hinv. pose proof Hinv as [HL HP]. unfold senderStep.
  assert (∀ ph, receive p ph = Some p' → reserved p' = reserved p) as Hrcv.
  { intros ph E. unfold receive in E. destruct (completed p); [done | by injection E as <-]. }
  assert (∀ x, reserved (transmit p x) = reserved p) as Htr.
  { intros x. unfold transmit. by destruct (collect _ _ _ _ _) as [[[? ?] ?] ?]. }
  destruct (phase p) as [|[|n]|[|b rest] sendErr| |[|t ts]|] eqn:Hph; destruct e as [|x| | |]; try done.
  - destruct (pending p !! next p); [done|]. intros E. split; [|by eapply Hrcv].
    eapply receive_inv; [done | exact E | by rewrite Hph | done | by rewrite Hph | done | done].
  - destruct (pending p !! next p); [|done]. intros [= <-]. split; [|done]. rewrite set_sender_shape.
    apply phase_inv; try done; [by rewrite Hph|]. intros _. rewrite Hph. split; [|done]. apply (Q_open _ HP). by rewrite Hph.
  - destruct (pending p !! next p); [done|]. destruct (stop p) eqn:Es; [|done]. intros [= <-]. split; [|done].
    rewrite <- Es. apply phase_inv; try done. by rewrite Hph.
  - intros [= <-]. split; [by eapply transmit_inv | apply Htr].
  - intros E. split; [|by eapply Hrcv].
    eapply receive_inv; [done | exact E | by rewrite Hph | done | by rewrite Hph | done | done].
  - destruct (completed p); [|done]. intros [= <-]. split; [by eapply transmit_inv | apply Htr].
  - intros [= <-]. split; [|done]. rewrite set_sender_shape.
    apply phase_inv; try done; [by rewrite Hph|]. intros _. rewrite Hph. split; [|done]. apply (Q_open _ HP). by rewrite Hph.
  - intros E. destruct (finish_inv p b rest sendErr Hinv Hph) as (q & Eq & ? & _ & _ & _ & _ & _ & _ & _ & ?).
    rewrite E in Eq. injection Eq as <-. done.
  - intros E. split; [|by eapply Hrcv].
    eapply receive_inv; [done | exact E | by rewrite Hph | done | by rewrite Hph | done | done].
  - destruct (completed p) as [|] eqn:Hc; [|done]. intros [= <-]. split; [|done]. rewrite set_sender_shape.
    apply phase_inv; try done; [by rewrite Hph|]. intros _. split; [|split; [apply sortedTickets_perm | done]].
    apply (Q_closed _ HP). by rewrite Hph.
  - intros [= <-]. split; [|done]. rewrite set_sender_shape.
    destruct (Q_closed _ HP) as (Hcl & Hd); [by rewrite Hph|]. rewrite Hph in Hd. destruct Hd as [Hperm Hc].
    apply phase_inv; try done; [by rewrite Hph|]. intros _. split_and!; try done.
    apply Permutation_nil_l in Hperm. symmetry in Hperm. apply fmap_nil_inv in Hperm. by apply map_to_list_empty_iff.
  - destruct (pending p !! t) as [b|] eqn:Hb; [|done]. intros E.
    destruct (abandon_inv p t ts b Hinv Hph Hb) as (q & Eq & ? & _ & _ & _ & _ & _ & ?). rewrite E in Eq. injection Eq as <-. done.
Qed.

(** ** Every reachable state *)

Lemma newPeer_inv size : inv (newPeer size).
Proof.
  split.
  - split; try (cbn; by constructor); try (by intros t ?%elem_of_nil); try reflexivity.
    + intros c. split; [by destruct c|]. destruct c; cbn; lia.
    + cbn. intros t Ht. lia.
  - split; try (cbn; by constructor); try done.
    + intros _. split; [done|]. cbn. intros t Ht. lia.
    + by intros t n ?%elem_of_nil.
Qed.

Lemma reachable_inv size n p : reachable size n p → Z.of_nat n + 1 < 2 ^ 64 → inv p ∧ 0 ≤ reserved p ≤ Z.of_nat n.
Proof.
  induction 1 as [|n p e p' Hr IH Hs]; intros Hn; [split; [apply newPeer_inv | cbn; lia]|].
  destruct IH as [Hinv Hres]; [lia|].
  assert (inv p' ∧ (reserved p' = reserved p ∨ reserved p' = reserved p + 1)) as [Hi Hx]; [|split; [done | lia]].
  destruct e as [count c late|i rangeErr|i x|i|i out|i| |e]; cbn [step] in Hs.
  - split; [by eapply takeSlot_inv|]. left. unfold takeSlot in Hs.
    destruct (_ && _); [by injection Hs as <-|]. destruct (_ <? _)%nat; by injection Hs as <-.
  - destruct (takeTicket_inv p i rangeErr p') as [? ?]; [lia | done | done |]. split; [done | by right].
  - split; [by eapply appendRaw_inv|]. left. unfold appendRaw in Hs. destruct (held p !! i) as [b|]; [|done].
    destruct (encrypted b); [done | by injection Hs as <-].
  - split; [by eapply setOnFailure_inv|]. left. unfold setOnFailure in Hs. destruct (held p !! i) as [b|]; [by injection Hs as <- | done].
  - split; [by eapply encrypt_inv|]. left. unfold encrypt in Hs. destruct (held p !! i) as [b|]; [|done].
    destruct (_ || _); [by injection Hs as <-|]. destruct out as [s|]; [|by injection Hs as <-].
    destruct (_ =? _)%nat; [by injection Hs as <- | done].
  - split; [by eapply enqueue_inv|]. left. unfold enqueue in Hs. destruct (held p !! i) as [b|] eqn:Hb; [|done].
    destruct (negb _); [done|]. assert (∀ q q', abandon q b = Some q' → reserved q' = reserved q) as Hab.
    { intros q q'. unfold abandon, releaseSlot. destruct (budget _ (control b)); [done|]. cbn [mbind option_bind]. intros [= <-].
      unfold fail_. destruct (_ || _); by destruct (counted b). }
    destruct (queueClosed _); [by apply Hab in Hs|]. destruct (_ <? _)%nat; [by injection Hs as <- | by apply Hab in Hs].
  - split; [by eapply close_inv|]. left. by injection Hs as <-.
  - destruct (senderStep_inv p e p') as [? ?]; [lia | done | done |]. split; [done | by left].
Qed.

(** Packets leave in the order places were taken. In every reachable state the
    tickets of the batches the transport has taken are strictly increasing, so
    none is sent twice or after a later one; nothing still queued or in a
    caller's hands has been overtaken; and only what was sent is recorded as
    sent. (A reachable state within 2^64 steps; tickets are 64-bit.) *)
Theorem places_in_order size n p :
  reachable size n p → Z.of_nat n + 1 < 2 ^ 64 →
  StronglySorted Z.lt (wire p).*1 ∧
  (∀ t b, t ∈ (wire p).*1 → b ∈ queued p → t < ticket b) ∧
  (∀ t k, (t, Sent, k) ∈ log p → t ∈ (wire p).*1).
Proof.
  intros Hr Hn. destruct (reachable_inv size n p Hr Hn) as [[HL HP] _]. split_and!.
  - apply (Q_sorted _ HP).
  - intros t b Ht Hb. pose proof (Q_wire _ HP) as Hw. pose proof (Q_queued _ HP) as Hq.
    rewrite Forall_forall in Hw, Hq. specialize (Hw t Ht). specialize (Hq (ticket b) ltac:(by apply list_elem_of_fmap_2)). lia.
  - apply (Q_log _ HP).
Qed.

(** Every place is accounted for. In every reachable state each ticket handed
    out is either still on its way or has exactly one outcome; the counters are
    the packets refused and the packets of the batches dropped and lost; the
    callback of a place runs at most once, and only for one that did not reach
    the wire; the slots in use are exactly the places on their way, within the
    budgets, so putting a sealed batch on an open queue never finds it full. *)
Theorem places_accounted size n p :
  reachable size n p → Z.of_nat n + 1 < 2 ^ 64 →
  NoDup (logged p) ∧ (∀ t, 0 ≤ t < reserved p → t ∈ ticket <$> live p ∨ t ∈ logged p) ∧
  dropped p = u64 (Z.of_nat (refusals p) + total Dropped (log p)) ∧ sendFailed p = u64 (total SendFailed (log p)) ∧
  NoDup (callbacks p) ∧ (∀ t, t ∈ callbacks p → ∃ o k, (t, o, k) ∈ log p ∧ o ≠ Sent) ∧
  (∀ c, budget p c = (takingOf c (taking p) + ofBudget c (live p))%nat ∧ (budget p c ≤ budgetCap p c)%nat) ∧
  (∀ i b, held p !! i = Some b → encrypted b || err b = true → queueClosed p = false →
     enqueue p i = Some (set_completed (set_held p (delete i (held p))) (completed p ++ [b]))).
Proof.
  intros Hr Hn. destruct (reachable_inv size n p Hr Hn) as [Hinv _]. pose proof Hinv as [HL HP]. split_and!.
  - apply (L_log _ _ HL).
  - apply (L_cover _ _ HL).
  - apply (L_dropped _ _ HL).
  - apply (L_sendFailed _ _ HL).
  - apply (L_calls _ _ HL).
  - apply (L_called _ _ HL).
  - apply (L_budget _ _ HL).
  - intros i b Hb He Hq. unfold enqueue. rewrite Hb, He. cbn [negb]. cbn [queueClosed set_held]. rewrite Hq.
    pose proof (queue_room p i b Hinv Hb) as Hroom.
    by rewrite (proj2 (Nat.ltb_lt (length (completed (set_held p (delete i (held p))))) (queueCap (set_held p (delete i (held p))))) Hroom).
Qed.

(** ** Progress *)

Definition hasNext (p : Peer) : nat := match pending p !! next p with Some _ => 3 | None => 0 end.

(** The work left for the sender. *)
Definition weight (p : Peer) : nat :=
  (10 * length (completed p) + 5 * size (pending p) +
   match phase p with
   | Waiting => 10 + hasNext p
   | Draining _ => 12
   | Finishing ready _ => 11 + length ready + hasNext p
   | Discarding => 2
   | Abandoning _ => 1
   | Done => 0
   end)%nat.

Lemma receive_weight p ph p' :
  inv p → receive p ph = Some p' →
  (10 * length (completed p') + 5 * size (pending p') + 5 = 10 * length (completed p) + 5 * size (pending p))%nat ∧ phase p' = ph ∧
  held p' = held p ∧ taking p' = taking p.
Proof.
  intros Hinv. unfold receive. destruct (completed p) as [|b rest] eqn:Hc; [done|]. intros [= <-].
  cbn [completed pending phase held taking set_sender set_completed].
  rewrite map_size_insert_None by (by eapply completed_not_pending). split_and!; try done. cbn [length]. lia.
Qed.

Lemma transmit_weight p e n :
  reserved p < 2 ^ 64 → inv p → phase p = Draining n →
  (weight (transmit p e) < weight p)%nat ∧ held (transmit p e) = held p ∧ taking (transmit p e) = taking p.
Proof.
  intros HR Hinv Hph. destruct (transmit_cases p e HR Hinv) as (got & pe' & sendErr & -> & Hp & _ & _ & _ & Hnil & _).
  split; [|done]. unfold weight. cbn [completed pending phase log_wire set_sender]. rewrite Hph.
  assert (size (pending p) = (length got + size pe')%nat) as Hsz.
  { rewrite <- !length_map_to_list, <- (length_fmap snd (map_to_list (pending p))), <- (length_fmap snd (map_to_list pe')).
    unfold pendingBatches in Hp. rewrite Hp, length_app. done. }
  unfold hasNext. cbn [pending next log_wire set_sender]. destruct got as [|b got].
  - destruct (Hnil eq_refl) as [-> Hnone]. cbn [length Z.of_nat] in *. rewrite Z.add_0_r, Hnone. lia.
  - cbn [length] in *. destruct (pe' !! _); lia.
Qed.

Lemma senderStep_weight p e p' :
  reserved p < 2 ^ 64 → inv p → senderStep p e = Some p' →
  (weight p' < weight p)%nat ∧ held p' = held p ∧ taking p' = taking p.
Proof.
  intros HR Hinv. pose proof Hinv as [HL HP]. unfold senderStep.
  destruct (phase p) as [|[|n]|[|b rest] sendErr| |[|t ts]|] eqn:Hph; destruct e as [|x| | |]; try done.
  - destruct (pending p !! next p) eqn:Hx; [done|]. intros E. destruct (receive_weight _ _ _ Hinv E) as (Hw & Hp & ? & ?).
    unfold weight. rewrite Hp, Hph. split_and!; try done. lia.
  - destruct (pending p !! next p) eqn:Hx; [|done]. intros [= <-]. split; [|done]. unfold weight, hasNext. cbn [completed pending phase set_sender].
    rewrite Hph, Hx. lia.
  - destruct (pending p !! next p) eqn:Hx; [done|]. destruct (stop p); [|done]. intros [= <-]. split; [|done].
    unfold weight. cbn [completed pending phase]. rewrite Hph. lia.
  - intros [= <-]. by eapply transmit_weight.
  - intros E. destruct (receive_weight _ _ _ Hinv E) as (Hw & Hp & ? & ?). unfold weight. rewrite Hp, Hph. split_and!; try done. lia.
  - destruct (completed p) eqn:Hc; [|done]. intros [= <-]. by eapply transmit_weight.
  - intros [= <-]. split; [|done]. unfold weight, hasNext. cbn [completed pending phase next set_sender]. rewrite Hph. cbn [length]. lia.
  - intros E. destruct (finish_inv p b rest sendErr Hinv Hph) as (q & Eq & _ & Hp & Hpe & Hnx & Hco & ? & ? & _).
    rewrite E in Eq. injection Eq as <-. split_and!; try done. unfold weight, hasNext. rewrite Hp, Hpe, Hnx, Hco, Hph. cbn [length]. lia.
  - intros E. destruct (receive_weight _ _ _ Hinv E) as (Hw & Hp & ? & ?). unfold weight. rewrite Hp, Hph. split_and!; try done. lia.
  - destruct (completed p) eqn:Hc; [|done]. intros [= <-]. split; [|done]. unfold weight. cbn [completed pending phase set_sender]. rewrite Hph. lia.
  - intros [= <-]. split; [|done]. unfold weight. cbn [completed pending phase set_sender]. rewrite Hph. lia.
  - destruct (pending p !! t) as [b|] eqn:Hb; [|done]. intros E.
    destruct (abandon_inv p t ts b Hinv Hph Hb) as (q & Eq & _ & Hp & Hpe & Hco & ? & ? & _). rewrite E in Eq. injection Eq as <-.
    split_and!; try done. unfold weight. rewrite Hp, Hpe, Hco, Hph. rewrite map_size_delete_Some by eauto.
    assert (size (pending p) ≠ 0%nat) by (intros Ez%map_size_empty_inv; rewrite Ez in Hb; by rewrite lookup_empty in Hb). lia.
Qed.

(** Nothing is on its way: every place has its outcome and every slot is free. *)
Definition settled (p : Peer) : Prop :=
  live p = [] ∧ (∀ t, 0 ≤ t < reserved p → t ∈ logged p) ∧ slots p = 0%nat ∧ controlSlots p = 0%nat.

Lemma stuck_settled p :
  inv p → held p = [] → taking p = [] → (∀ e, senderStep p e = None) → settled p.
Proof.
  intros Hinv Hh Ht Hst. pose proof Hinv as [HL HP].
  assert (live p = []) as Hlive.
  { pose proof (Hst Receive) as S1. pose proof (Hst (Transmit false)) as S2. pose proof (Hst Finish) as S3.
    pose proof (Hst Again) as S4. unfold senderStep in *. unfold live, queued. rewrite Hh.
    destruct (phase p) as [|[|n]|[|b rest] sendErr| |[|t ts]|] eqn:Hph; try done; cbn [readyOf app].
    - destruct (pending p !! next p) eqn:Hx; [done|]. unfold receive in S1. destruct (completed p) eqn:Hc; [|done]. cbn [app].
      destruct (Q_open _ HP) as [_ Hcov]; [by rewrite Hph|]. pose proof (Q_next _ HP) as Hnx.
      assert (next p = reserved p) as Enx.
      { destruct (Z.lt_ge_cases (next p) (reserved p)) as [Hlt|]; [|lia]. exfalso.
        specialize (Hcov (next p) ltac:(lia)). unfold queued in Hcov. rewrite Hh, Hc in Hcov. cbn [app] in Hcov.
        apply list_elem_of_fmap in Hcov as (b & Eb & Hb). apply list_elem_of_fmap in Hb as ([t b'] & -> & Hb%elem_of_map_to_list).
        cbn [snd] in Eb. rewrite (Q_keys _ HP _ _ Hb) in Eb. congruence. }
      destruct ((map_to_list (pending p)).*2) as [|b l] eqn:Hm; [done|]. exfalso.
      pose proof (Q_queued _ HP) as Hq. unfold queued in Hq. rewrite Hh, Hc, Hm in Hq. cbn [app fmap list_fmap] in Hq. apply Forall_cons in Hq as [Hq _].
      pose proof (L_range _ _ HL) as Hrg. unfold live, queued in Hrg. rewrite Hph, Hh, Hc, Hm in Hrg. cbn [app readyOf] in Hrg.
      apply Forall_cons in Hrg as [Hrg _]. lia.
    - unfold receive in S1. destruct (completed p); done.
    - destruct (finish_inv p b rest sendErr Hinv Hph) as (q & Eq & _). congruence.
    - unfold receive in S1. destruct (completed p); done.
    - destruct (Q_closed _ HP) as (_ & Hd); [by rewrite Hph|]. rewrite Hph in Hd. destruct Hd as [Hperm _].
      destruct (pending p !! t) as [b|] eqn:Hb.
      + destruct (abandon_inv p t ts b Hinv Hph Hb) as (q & Eq & _). congruence.
      + exfalso. assert (t ∈ (map_to_list (pending p)).*1) as Hin by (rewrite <- Hperm; apply elem_of_cons; by left).
        apply list_elem_of_fmap in Hin as ([t' b] & -> & Hin%elem_of_map_to_list). cbn [fst] in Hb. congruence.
    - destruct (Q_closed _ HP) as (_ & Hd); [by rewrite Hph|]. rewrite Hph in Hd. destruct Hd as [-> ->]. done. }
  split; [done|]. split.
  - intros t Hrt. destruct (L_cover _ _ HL t Hrt) as [Hin|]; [|done]. rewrite Hlive in Hin. by apply elem_of_nil in Hin.
  - pose proof (L_budget _ _ HL true) as [Et _]. pose proof (L_budget _ _ HL false) as [Ef _].
    rewrite Hlive, Ht in Et, Ef. cbn in Et, Ef. done.
Qed.

(** So many steps of the sender on its own. *)
Inductive senderRun : Peer → nat → Peer → Prop :=
| run_here p : senderRun p 0 p
| run_step p e q k r : senderStep p e = Some q → senderRun q k r → senderRun p (S k) r.

Lemma senderRun_inv p k q :
  senderRun p k q → reserved p < 2 ^ 64 → inv p →
  inv q ∧ reserved q = reserved p ∧ (weight q + k ≤ weight p)%nat ∧ held q = held p ∧ taking q = taking p.
Proof.
  induction 1 as [p|p e q k r Hs _ IH]; intros HR Hinv; [split_and!; try done; lia|].
  destruct (senderStep_inv p e q HR Hinv Hs) as [Hq Eq]. destruct (senderStep_weight p e q HR Hinv Hs) as (Hw & Hh & Ht).
  destruct IH as (? & ? & ? & ? & ?); [lia | done |]. split_and!; try done; try congruence. lia.
Qed.

Lemma senderStep_dec p : (∃ e q, senderStep p e = Some q) ∨ ∀ e, senderStep p e = None.
Proof.
  assert (∀ e, senderStep p e = None ∨ ∃ q, senderStep p e = Some q) as H by (intros e; destruct (senderStep p e); eauto).
  destruct (H Receive) as [H1|[q Hq]]; [|left; eauto]. destruct (H (Transmit true)) as [H2|[q Hq]]; [|left; eauto].
  destruct (H (Transmit false)) as [H3|[q Hq]]; [|left; eauto].
  destruct (H Finish) as [H4|[q Hq]]; [|left; eauto]. destruct (H Again) as [H5|[q Hq]]; [|left; eauto].
  destruct (H Quit) as [H6|[q Hq]]; [|left; eauto]. right. intros [|[]| | |]; done.
Qed.

Lemma senderRun_ends p :
  reserved p < 2 ^ 64 → inv p → ∃ k q, senderRun p k q ∧ ∀ e, senderStep q e = None.
Proof.
  remember (weight p) as w eqn:Ew. revert p Ew. induction w as [w IH] using lt_wf_ind. intros p -> HR Hinv.
  destruct (senderStep_dec p) as [(e & q & Hs)|Hn]; [|exists 0%nat, p; split; [constructor | done]].
  destruct (senderStep_inv p e q HR Hinv Hs) as [Hq Eq]. destruct (senderStep_weight p e q HR Hinv Hs) as (Hw & _).
  destruct (IH (weight q) Hw q eq_refl) as (k & r & Hr & Hn); [lia | done |].
  exists (S k), r. split; [by econstructor | done].
Qed.

(** C37: The sender gets to the end of its work. From any reachable state in which no
    caller is between its slot and the queue, whatever the transport does, the
    sender alone takes at most [weight p] steps; it can always go on until every
    place handed out has its outcome and every slot is free again, closed or
    not; and it never stops before that. *)
Theorem sender_progress size n p :
  reachable size n p → Z.of_nat n + 1 < 2 ^ 64 → held p = [] → taking p = [] →
  (∀ k q, senderRun p k q → (k ≤ weight p)%nat) ∧
  (∃ k q, senderRun p k q ∧ settled q) ∧
  (∀ k q, senderRun p k q → (∀ e, senderStep q e = None) → settled q).
Proof.
  intros Hr Hn Hh Ht. destruct (reachable_inv size n p Hr Hn) as [Hinv Hres].
  assert (∀ k q, senderRun p k q → (∀ e, senderStep q e = None) → settled q) as Hend.
  { intros k q Hk Hst. destruct (senderRun_inv p k q Hk ltac:(lia) Hinv) as (Hq & _ & _ & Eh & Et).
    apply stuck_settled; try done; congruence. }
  split_and!; [|destruct (senderRun_ends p ltac:(lia) Hinv) as (k & q & Hk & Hst); eauto | done].
  intros k q Hk. destruct (senderRun_inv p k q Hk ltac:(lia) Hinv) as (_ & _ & Hw & _). lia.
Qed.

(** ** A run

    Two callers take places; the second, which has control traffic, seals and
    queues first; the sender holds it back until the first arrives. A third
    place, whose sealing fails, is still to be queued in [sampleHeld]. *)

Definition runs (p : Peer) (es : list event) : option Peer :=
  foldl (λ p e, p ← p; step p e) (Some p) es.

Lemma runs_reachable size es p : runs (newPeer size) es = Some p → reachable size (length es) p.
Proof.
  revert p. induction es as [|e es IH] using rev_ind; intros p; [intros [= <-]; constructor|].
  unfold runs in *. rewrite foldl_app, length_app. cbn [foldl length].
  destruct (foldl _ _ es) as [q|]; [|done]. intros Hs. rewrite Nat.add_1_r. by eapply reach_step; [apply IH | exact Hs].
Qed.

Definition sampleEvents : list event :=
  [TakeSlot 1 false false; TakeSlot 1 true false; TakeTicket 0 false; TakeTicket 0 false;
   Append 0 ([1], 4); Append 1 ([2], 41); OnFailure 1; Encrypt 1 (Some [[20]]); Enqueue 1;
   Sender Receive; Encrypt 0 (Some [[10]]); Enqueue 0].

Definition sampleQueued : Peer := default (newPeer 2) (runs (newPeer 2) sampleEvents).

Definition sampleLater : list event :=
  sampleEvents ++ [Sender Receive; Sender (Transmit false); Sender Finish; Sender Finish; Sender Again;
    TakeSlot 1 false false; TakeTicket 0 false; Append 0 ([3], 4); OnFailure 0; Encrypt 0 None].

Definition sampleHeld : Peer := default (newPeer 2) (runs (newPeer 2) sampleLater).

Example sample_wire : wire sampleHeld = [(0, [[10]]); (1, [[20]])].
Proof. vm_compute. reflexivity. Qed.

Lemma places_in_order_witness :
  wire sampleHeld ≠ [] ∧ StronglySorted Z.lt (wire sampleHeld).*1 ∧
  (∀ t b, t ∈ (wire sampleHeld).*1 → b ∈ queued sampleHeld → t < ticket b).
Proof.
  split; [vm_compute; discriminate|].
  destruct (places_in_order 2 (length sampleLater) sampleHeld) as (H1 & H2 & _); [|vm_compute; reflexivity|exact (conj H1 H2)].
  apply runs_reachable. vm_compute. reflexivity.
Defined.

Lemma places_accounted_witness :
  budget sampleHeld false = 1%nat ∧ (∀ t, 0 ≤ t < 3 → t ∈ ticket <$> live sampleHeld ∨ t ∈ logged sampleHeld).
Proof.
  destruct (places_accounted 2 (length sampleLater) sampleHeld) as (_ & H & _); [|vm_compute; reflexivity|exact (conj eq_refl H)].
  apply runs_reachable. vm_compute. reflexivity.
Defined.

Lemma sender_progress_witness :
  length (live sampleQueued) = 2%nat ∧ ∃ k q, senderRun sampleQueued k q ∧ settled q.
Proof.
  split; [vm_compute; reflexivity|].
  destruct (sender_progress 2 (length sampleEvents) sampleQueued) as (_ & H & _);
    [|vm_compute; reflexivity|reflexivity|reflexivity|exact H].
  apply runs_reachable. vm_compute. reflexivity.
Defined.
