(* ===== verification/KernelConfig.v ===== *)
(** * The reconciler's configuration, internal/kernel/kernel.go

    [Table] and its policy [Rule]s: validation, the normal form a reload compares
    and the reconciler runs, and which rules read a mark. [schema.Prefix] and
    [schema.Addr] wrap the types of net/netip. *)

From S2P Require Import Prelude Netip.

(** ** Data *)

Definition DefaultTable : Z := 200.
Definition DefaultProtocol : Z := 155.
Definition DefaultReconcileInterval : Z := 30 * 10 ^ 9.
Definition minRetryInterval : Z := 10 ^ 9.
Definition reservedTable : Z := 253.
Definition lastByteTable : Z := 255.
Definition protocolStatic : Z := 4.
Definition DefaultCaptureGrace : Z := 10 * 10 ^ 9.
Definition MinCaptureGrace : Z := 10 ^ 9.

Definition allOnes : Z := 2 ^ 32 - 1.  (* ^uint32(0) *)

Definition FamilyUnset : string := "".
Definition FamilyIPv4 : string := "ipv4".
Definition FamilyIPv6 : string := "ipv6".
Definition FamilyBoth : string := "both".

Record Rule := mkRule {
  To : Prefix;
  From_ : Prefix;
  FWMark : Z;
  FWMask : Z;
  RuleTable : Z;
  Priority : Z;
  Family : string }.

#[export] Instance Rule_eq_dec : EqDecision Rule.
Proof. solve_decision. Defined.

#[export] Instance Rule_countable : Countable Rule.
Proof.
  refine (inj_countable' (λ r, (To r, From_ r, FWMark r, FWMask r, RuleTable r, Priority r, Family r))
    (λ '(a, b, c, d, e, f, g), mkRule a b c d e f g) _).
  by intros [].
Defined.

Record VRF := mkVRF { vrfName : string; vrfCreate : bool }.

Record Table := mkTable {
  ID : Z;
  Proto : Z;
  TableMetric : Z;
  PrefSrc4 : Addr;
  Addresses : list Prefix;
  AssignAnnounced : bool;
  vrf : option VRF;
  Rules : list Rule;
  Reconcile : Z;
  CaptureGrace : Z }.

Definition Name (t : Table) : string := match vrf t with None => "" | Some v => vrfName v end.
Definition creates (t : Table) : bool := match vrf t with None => false | Some v => vrfCreate v end.

(** The closure [add], its [seen] being what it appended. *)
Definition assign (out : list Prefix) (prefix : Prefix) : list Prefix :=
  if negb (IsValid prefix) || IsUnspecified (prefix_addr prefix) || bool_decide (prefix ∈ out) then out
  else out ++ [prefix].

Definition Assigned (t : Table) (announced : list Prefix) : list Prefix :=
  let out := foldl assign [] (Addresses t) in
  if AssignAnnounced t then foldl assign out announced else out.

(** ** Rules *)

Definition familyOf (address : Addr) : string := if Is4 address then FamilyIPv4 else FamilyIPv6.

Definition withFamily (r : Rule) (f : string) : Rule :=
  mkRule (To r) (From_ r) (FWMark r) (FWMask r) (RuleTable r) (Priority r) f.

(** One configured rule as the rules it installs. *)
Definition expandRule (r : Rule) : res (list Rule) :=
  let addressed := IsValid (To r) || IsValid (From_ r) in
  if addressed && negb (bool_decide (Family r = FamilyUnset))
  then Err "kernel: cap.table rules names a family and an address, which already says which family it is"
  else if addressed then
    let address := if negb (IsValid (To r)) then prefix_addr (From_ r) else prefix_addr (To r) in
    Ok [withFamily r (if negb (Is4 address) then FamilyIPv6 else FamilyIPv4)]
  else if bool_decide (Family r = FamilyIPv4) || bool_decide (Family r = FamilyIPv6) then Ok [r]
  else if bool_decide (Family r = FamilyBoth) then Ok [withFamily r FamilyIPv4; withFamily r FamilyIPv6]
  else Err "kernel: cap.table rules selects on a mark alone, so it has to name family".

Fixpoint expandRules (rules : list Rule) : res (list Rule) :=
  match rules with
  | [] => Ok []
  | r :: rest => out ← expandRule r; more ← expandRules rest; Ok (out ++ more)
  end.

Definition canonical (r : Rule) : Rule :=
  mkRule (To r) (From_ r) (FWMark r) (if FWMask r =? allOnes then 0 else FWMask r) (RuleTable r) (Priority r) (Family r).

Definition canonicalRules (rules : list Rule) : list Rule := map canonical rules.

Definition selectsMark (r : Rule) (mark : Z) : bool :=
  if FWMark r =? 0 then false
  else
    let mask := if FWMask r =? 0 then allOnes else FWMask r in
    Z.land mark mask =? FWMark r.

(** [if bad { return error }] *)
Definition refuse (bad : bool) (e : string) : res unit := if bad then Err e else Ok ().

(** One turn of the loop over "to" and "from". *)
Definition validateSelector (r : Rule) (prefix : Prefix) : res unit :=
  if negb (IsValid prefix) then Ok ()
  else
    _ ← refuse (negb (bool_decide (familyOf (prefix_addr prefix) = Family r))) "kernel: cap.table rules: not of the rule's family";
    _ ← refuse (negb (bool_decide (Masked prefix = prefix))) "kernel: cap.table rules: bits set below its prefix length";
    refuse (Bits prefix =? 0) "kernel: cap.table rules: selects every address".

Definition validate (r : Rule) : res unit :=
  _ ← refuse (negb (bool_decide (Family r = FamilyIPv4)) && negb (bool_decide (Family r = FamilyIPv6)))
        "kernel: cap.table rules: family must be ipv4 or ipv6";
  _ ← validateSelector r (To r);
  _ ← validateSelector r (From_ r);
  _ ← refuse (negb (IsValid (To r)) && negb (IsValid (From_ r)) && (FWMark r =? 0))
        "kernel: cap.table rules selects nothing, so it would match every packet";
  _ ← refuse ((FWMark r =? 0) && negb (FWMask r =? 0)) "kernel: cap.table rules carries a mark mask and no mark";
  _ ← refuse (Priority r =? 0) "kernel: cap.table rules: priority 0 belongs to the local table";
  refuse (RuleTable r =? 0) "kernel: cap.table rules: table is required".

Fixpoint validateAll (rules : list Rule) : res unit :=
  match rules with [] => Ok () | r :: rest => _ ← validate r; validateAll rest end.

Fixpoint refuseTwice (seen : gset Rule) (rules : list Rule) : res unit :=
  match rules with
  | [] => Ok ()
  | r :: rest =>
      let r := canonical r in
      if bool_decide (r ∈ seen) then Err "kernel: cap.table rules is configured twice"
      else refuseTwice ({[r]} ∪ seen) rest
  end.

Fixpoint validateAddresses (l : list Prefix) : res unit :=
  match l with
  | [] => Ok ()
  | prefix :: rest =>
      _ ← refuse (IsUnspecified (prefix_addr prefix)) "kernel: cap.table addresses is not an address an interface can carry";
      _ ← refuse (Bits prefix =? 0) "kernel: cap.table addresses has no prefix length, and an interface carries an address under one";
      validateAddresses rest
  end.

Definition Validate (t : Table) : res unit :=
  _ ← refuse (negb (Proto t =? 0) && (Proto t <=? protocolStatic)) "kernel: cap.table proto is reserved for the kernel and for networkd, use 5 through 255";
  _ ← refuse ((reservedTable <=? ID t) && (ID t <=? lastByteTable)) "kernel: cap.table id is reserved";
  _ ← refuse (addr_valid (PrefSrc4 t) && negb (Is4 (Unmap (PrefSrc4 t)))) "kernel: cap.table prefsrc4 is not an IPv4 address";
  _ ← validateAddresses (Addresses t);
  _ ← refuse (match vrf t with Some v => bool_decide (vrfName v = "") | None => false end)
        "kernel: cap.table vrf names no device, so there is nothing to join";
  _ ← refuse (Reconcile t <? 0) "kernel: cap.table reconcile is not an interval";
  _ ← refuse (CaptureGrace t <? 0) "kernel: cap.table capture_grace is not an interval";
  _ ← refuse ((0 <? CaptureGrace t) && (CaptureGrace t <? MinCaptureGrace)) "kernel: cap.table capture_grace is shorter than the reconciler can honor";
  expanded ← expandRules (Rules t);
  _ ← validateAll expanded;
  refuseTwice ∅ expanded.

(** ** Orders *)

(** [cmp.Or] of two comparisons. *)
Definition cmpOr (c d : comparison) : comparison := match c with Eq => d | _ => c end.

(** [netip.Addr.Compare]: the width, then the value. *)
Definition AddrCompare (a b : Addr) : comparison := cmpOr (BitLen a ?= BitLen b) (As16 a ?= As16 b).

Definition ComparePrefix (a b : Prefix) : comparison :=
  cmpOr (AddrCompare (prefix_addr a) (prefix_addr b)) (Bits a ?= Bits b).

Definition compareRules (a b : Rule) : comparison :=
  cmpOr (Priority a ?= Priority b) (cmpOr (String.compare (Family a) (Family b)) (cmpOr (RuleTable a ?= RuleTable b)
    (cmpOr (FWMark a ?= FWMark b) (cmpOr (FWMask a ?= FWMask b)
      (cmpOr (ComparePrefix (From_ a) (From_ b)) (ComparePrefix (To a) (To b))))))).

(** [slices.SortFunc]. Every comparison sorted by here tells distinct elements
    apart ([strict_order]), so the algorithm does not matter. *)
Definition before {A} (compare : A → A → comparison) (a b : A) : Prop := compare a b ≠ Gt.

#[export] Instance before_dec {A} (compare : A → A → comparison) : RelDecision (before compare).
Proof. intros a b. unfold before. solve_decision. Defined.

Definition SortFunc {A} (compare : A → A → comparison) (l : list A) : list A := merge_sort (before compare) l.

Definition sortedRules (rules : list Rule) : list Rule := SortFunc compareRules rules.

Definition Normalized (t : Table) : Table :=
  mkTable
    (if ID t =? 0 then DefaultTable else ID t)
    (if Proto t =? 0 then DefaultProtocol else Proto t)
    (TableMetric t)
    (if addr_valid (PrefSrc4 t) then Unmap (PrefSrc4 t) else PrefSrc4 t)
    (if (length (Addresses t) =? 0)%nat then [] else SortFunc ComparePrefix (Addresses t))
    (AssignAnnounced t)
    (vrf t)
    (if (length (Rules t) =? 0)%nat then []
     else match expandRules (Rules t) with
          | Ok expanded => sortedRules (canonicalRules expanded)
          | _ => canonicalRules (Rules t)
          end)
    (if Reconcile t <=? 0 then DefaultReconcileInterval else Reconcile t)
    (if CaptureGrace t <=? 0 then DefaultCaptureGrace else CaptureGrace t).

Definition ReadsMark (t : Table) (mark : Z) : bool :=
  let normalized := Normalized t in
  existsb (λ rule, selectsMark rule mark && negb (RuleTable rule =? ID normalized)) (Rules normalized).

(** ** Comparisons that order *)

Definition ordering {A} (f : A → A → comparison) : Prop :=
  (∀ x y, f y x = CompOpp (f x y)) ∧ (∀ x y z, before f x y → before f y z → before f x z).

(** An order in which only equal elements compare equal. *)
Definition strict_order {A} (f : A → A → comparison) : Prop := ordering f ∧ ∀ x y, f x y = Eq → x = y.

Lemma ordering_by {A B} (h : A → B) f : ordering f → ordering (λ x y, f (h x) (h y)).
Proof. intros [Hf Ht]. split; [intros; apply Hf|]. intros x y z. apply Ht. Qed.

Lemma ordering_lt {A} (f : A → A → comparison) x y z :
  ordering f → before f x y → before f y z → f x z = Eq → f x y = Eq ∧ f y z = Eq.
Proof.
  intros [Hf Ht] Hxy Hyz E. unfold before in *.
  assert (f z x ≠ Gt) as Hzx by (rewrite Hf, E; done).
  pose proof (Ht y z x Hyz Hzx) as Hyx. pose proof (Ht z x y Hzx Hxy) as Hzy. unfold before in *.
  rewrite Hf in Hyx, Hzy. by destruct (f x y), (f y z).
Qed.

Lemma ordering_or {A} (f g : A → A → comparison) :
  ordering f → ordering g → ordering (λ x y, cmpOr (f x y) (g x y)).
Proof.
  intros Hf Hg. split.
  - intros x y. rewrite (proj1 Hf), (proj1 Hg). by destruct (f x y).
  - intros x y z Hxy Hyz. unfold before, cmpOr in *.
    assert (before f x y) as Bxy by (unfold before; by destruct (f x y)).
    assert (before f y z) as Byz by (unfold before; by destruct (f y z)).
    pose proof (proj2 Hf x y z Bxy Byz) as Bxz. destruct (f x z) eqn:E; [|done|done].
    destruct (ordering_lt f x y z Hf Bxy Byz E) as [E1 E2]. rewrite E1 in Hxy. rewrite E2 in Hyz.
    by apply (proj2 Hg x y z).
Qed.

Lemma ordering_Z : ordering Z.compare.
Proof.
  split; [intros; by rewrite Z.compare_antisym|]. intros x y z. unfold before. rewrite !Z.compare_ngt_iff. lia.
Qed.

Lemma ordering_string : ordering String.compare.
Proof.
  split.
  - induction x as [|a x IH]; destruct y as [|b y]; simpl; try done.
    rewrite IH. unfold Ascii.compare. rewrite N.compare_antisym. by destruct (_ ?= _)%N.
  - unfold before. induction x as [|a x IH]; destruct y as [|b y], z as [|c z]; simpl; try done.
    unfold Ascii.compare. specialize (IH y z).
    destruct (N.compare_spec (Ascii.N_of_ascii a) (Ascii.N_of_ascii b)), (N.compare_spec (Ascii.N_of_ascii b) (Ascii.N_of_ascii c)),
      (N.compare_spec (Ascii.N_of_ascii a) (Ascii.N_of_ascii c)); try done; lia || auto.
Qed.

Lemma string_compare_eq a b : String.compare a b = Eq → a = b.
Proof. apply String.compare_eq_iff. Qed.

Lemma cmpOr_eq c d : cmpOr c d = Eq → c = Eq ∧ d = Eq.
Proof. by destruct c. Qed.

Create HintDb orders.
#[export] Hint Resolve ordering_or ordering_by ordering_Z ordering_string : orders.

Lemma AddrCompare_order : strict_order AddrCompare.
Proof.
  split; [apply ordering_or; [apply (ordering_by BitLen) | apply (ordering_by As16)]; auto with orders|].
  intros x y E. apply cmpOr_eq in E as [E1 E2]. apply Z.compare_eq in E1, E2.
  destruct x, y; cbn in *; try done; f_equal; unfold mapped4 in *; lia.
Qed.

Lemma ComparePrefix_order : strict_order ComparePrefix.
Proof.
  split.
  - apply ordering_or; [apply (ordering_by prefix_addr), AddrCompare_order | apply (ordering_by Bits), ordering_Z].
  - intros [a n] [b k] E. apply cmpOr_eq in E as [E1 E2]. apply AddrCompare_order in E1. apply Z.compare_eq in E2.
    unfold Bits in E2. cbn in *. f_equal; [done | lia].
Qed.

Lemma compareRules_order : strict_order compareRules.
Proof.
  split.
  - apply ordering_or; [apply (ordering_by Priority); auto with orders|].
    apply ordering_or; [apply (ordering_by Family); auto with orders|].
    apply ordering_or; [apply (ordering_by RuleTable); auto with orders|].
    apply ordering_or; [apply (ordering_by FWMark); auto with orders|].
    apply ordering_or; [apply (ordering_by FWMask); auto with orders|].
    apply ordering_or; [apply (ordering_by From_) | apply (ordering_by To)]; apply ComparePrefix_order.
  - intros [] [] E. unfold compareRules in E. cbn in E. repeat match goal with H : cmpOr _ _ = Eq |- _ => apply cmpOr_eq in H as [? ?] end.
    repeat match goal with
      | H : (_ ?= _) = Eq |- _ => apply Z.compare_eq in H
      | H : String.compare _ _ = Eq |- _ => apply string_compare_eq in H
      | H : ComparePrefix _ _ = Eq |- _ => apply ComparePrefix_order in H
      end. by subst.
Qed.

(** What a sort by a strict order returns depends on the elements only. *)
Lemma SortFunc_perm {A} (f : A → A → comparison) l : SortFunc f l ≡ₚ l.
Proof. apply merge_sort_Permutation. Qed.

Lemma SortFunc_unique {A} (f : A → A → comparison) l k : strict_order f → l ≡ₚ k ↔ SortFunc f l = SortFunc f k.
Proof.
  intros [[Hf Ht] He]. split; [|intros E; by rewrite <- (SortFunc_perm f l), <- (SortFunc_perm f k), E].
  intros Hp. assert (Transitive (before f)) by (intros x y z; apply Ht).
  assert (AntiSymm (=) (before f)).
  { intros x y Hxy Hyx. apply He. unfold before in *. rewrite Hf in Hyx. by destruct (f x y). }
  assert (Total (before f)).
  { intros x y. unfold before. rewrite (Hf x y). destruct (f x y); [left|left|right]; done. }
  apply (Sorted_unique (before f)); [apply Sorted_merge_sort, _..|]. by rewrite !SortFunc_perm.
Qed.

Lemma SortFunc_idem {A} (f : A → A → comparison) l : strict_order f → SortFunc f (SortFunc f l) = SortFunc f l.
Proof. intros Hf. apply SortFunc_unique; [done|]. apply SortFunc_perm. Qed.

Lemma SortFunc_sorted {A} (f : A → A → comparison) l : strict_order f → StronglySorted (before f) (SortFunc f l).
Proof.
  intros [[Hf Ht] He]. assert (Transitive (before f)) by (intros x y z; apply Ht).
  apply Sorted_StronglySorted; [done|]. apply Sorted_merge_sort.
  intros x y. unfold before. rewrite (Hf x y). destruct (f x y); [left|left|right]; done.
Qed.

(** ** The normal form *)

Lemma refuse_ok b e : refuse b e = Ok () → b = false.
Proof. by destruct b. Qed.

(** What [expandRule] makes of a rule, whatever its mask. *)
Lemma expandRule_cases r :
  (∃ e, expandRule r = Err e ∧ expandRule (canonical r) = Err e) ∨
  (∃ out, expandRule r = Ok out ∧ expandRule (canonical r) = Ok (canonicalRules out) ∧ out ≠ [] ∧
     Forall (λ q, (Family q = FamilyIPv4 ∨ Family q = FamilyIPv6) ∧
       (IsValid (To q) || IsValid (From_ q) = false → expandRule q = Ok [q])) out).
Proof.
  destruct r as [to_ from_ mark mask table prio family]. unfold expandRule, canonicalRules, canonical, withFamily.
  cbn [To From_ Family FWMark FWMask RuleTable Priority map].
  destruct (IsValid to_ || IsValid from_) eqn:Ha; cbn [andb].
  - destruct (bool_decide (family = FamilyUnset)); cbn [negb]; [right|left; by eexists].
    eexists. split_and!; [done|done|done|]. apply List.Forall_cons; [|done]. cbn. split; [|by rewrite Ha].
    destruct (negb _); [by right|by left].
  - destruct (bool_decide_reflect (family = FamilyIPv4)); cbn [orb].
    { right. eexists. split_and!; [done|done|done|]. apply List.Forall_cons; [|done]. subst. cbn. rewrite Ha. split; [by left|done]. }
    destruct (bool_decide_reflect (family = FamilyIPv6)).
    { right. eexists. split_and!; [done|done|done|]. apply List.Forall_cons; [|done]. subst. cbn. rewrite Ha. split; [by right|done]. }
    destruct (bool_decide (family = FamilyBoth)); [right|left; by eexists].
    eexists. split_and!; [done|done|done|].
    apply List.Forall_cons; [|apply List.Forall_cons; [|done]]; cbn; rewrite Ha; split; (by left) || (by right) || done.
Qed.

Lemma canonical_idem r : canonical (canonical r) = canonical r.
Proof. unfold canonical. cbn. f_equal. destruct (FWMask r =? allOnes) eqn:E; [done | by rewrite E]. Qed.

Lemma canonicalRules_idem l : canonicalRules (canonicalRules l) = canonicalRules l.
Proof. unfold canonicalRules. rewrite map_map. apply map_ext, canonical_idem. Qed.

Definition resolved (q : Rule) : Prop :=
  (Family q = FamilyIPv4 ∨ Family q = FamilyIPv6) ∧ (IsValid (To q) || IsValid (From_ q) = false → expandRule q = Ok [q]).

Lemma expandRules_cases l :
  (∃ e, expandRules l = Err e ∧ ∃ e', expandRules (canonicalRules l) = Err e') ∨
  (∃ out, expandRules l = Ok out ∧ (out = [] → l = []) ∧ Forall resolved out).
Proof.
  induction l as [|r l IH]; [right; by exists []|]. cbn [expandRules canonicalRules map].
  destruct (expandRule_cases r) as [(e&->&->)|(out&->&->&Hne&Hf)]; [left; rbind; eauto|]. rbind.
  destruct IH as [(e&->&e'&He)|(more&->&_&Hm)].
  - left. rbind. exists e. split; [done|]. exists e'. fold (canonicalRules l). by rewrite He.
  - right. rbind. exists (out ++ more). split_and!; [done|by destruct out|]. by apply Forall_app.
Qed.

Lemma resolved_canonical q : resolved q → resolved (canonical q).
Proof.
  intros [Hf Ha]. split; [done|]. intros Hn. destruct (expandRule_cases q) as [(e&He&_)|(out&He&Hc&_&_)].
  - by rewrite (Ha Hn) in He.
  - rewrite (Ha Hn) in He. injection He as <-. done.
Qed.

(** Expanding rules that are expanded already leaves them, or refuses them. *)
Lemma expand_again l out : Forall resolved l → expandRules l = Ok out → out = l.
Proof.
  intros Hf. revert out. induction Hf as [|q l [Hfam Ha] _ IH]; intros out; cbn [expandRules]; [congruence|].
  intros E. apply bind_ok_inv in E as (o & Ho & E). apply bind_ok_inv in E as (more & Hm & [= <-]).
  rewrite (IH more Hm). destruct (IsValid (To q) || IsValid (From_ q)) eqn:Hv.
  - unfold expandRule in Ho. rewrite Hv in Ho. cbn [andb] in Ho. rewrite bool_decide_eq_false_2 in Ho; [done|].
    destruct Hfam as [->| ->]; done.
  - rewrite (Ha eq_refl) in Ho. by injection Ho as <-.
Qed.

Lemma sortedRules_resolved l : Forall resolved l → Forall resolved (sortedRules (canonicalRules l)).
Proof.
  intros Hf. unfold sortedRules. rewrite SortFunc_perm. unfold canonicalRules. apply Forall_map.
  eapply Forall_impl; [exact Hf|]. apply resolved_canonical.
Qed.

Lemma canonicalRules_sorted l : canonicalRules (sortedRules (canonicalRules l)) = sortedRules (canonicalRules l).
Proof.
  assert (∀ q, q ∈ sortedRules (canonicalRules l) → canonical q = q) as Hq.
  { intros q. unfold sortedRules, canonicalRules. rewrite (SortFunc_perm compareRules), list_elem_of_fmap.
    intros (q0 & -> & _). apply canonical_idem. }
  revert Hq. generalize (sortedRules (canonicalRules l)). intros k Hq.
  induction k as [|q k IH]; [done|]. cbn. rewrite (Hq q) by (by left). f_equal. apply IH. intros. apply Hq. by right.
Qed.

Lemma Unmap_idem a : Unmap (Unmap a) = Unmap a.
Proof. destruct a as [| |v]; try done. cbn. destruct (v / 2 ^ 32 =? 65535) eqn:E; [done|]. cbn. by rewrite E. Qed.

Lemma Unmap_valid a : addr_valid (Unmap a) = addr_valid a.
Proof. destruct a as [| |v]; try done. cbn. by destruct (_ =? _). Qed.

(** What a configuration asks for apart from its two lists, zero values standing
    for the defaults. *)
Definition settings (t : Table) :=
  (if ID t =? 0 then 200 else ID t, if Proto t =? 0 then 155 else Proto t, TableMetric t, Unmap (PrefSrc4 t),
   AssignAnnounced t, vrf t, if Reconcile t <=? 0 then 30 * 10 ^ 9 else Reconcile t,
   if CaptureGrace t <=? 0 then 10 * 10 ^ 9 else CaptureGrace t).

(** The rules it installs, as the kernel reports them back. *)
Definition installs (t : Table) : list Rule :=
  match expandRules (Rules t) with Ok expanded => canonicalRules expanded | _ => [] end.

Lemma Normalized_rules t out : expandRules (Rules t) = Ok out → Rules (Normalized t) = sortedRules (installs t).
Proof.
  intros E. unfold installs, Normalized. cbn [Rules]. rewrite E. destruct (Rules t) as [|r l]; [|done].
  cbn in E. injection E as <-. done.
Qed.

Lemma Normalized_addresses t : Addresses (Normalized t) = SortFunc ComparePrefix (Addresses t).
Proof. unfold Normalized. cbn [Addresses]. by destruct (Addresses t). Qed.

Lemma Normalized_settings t : settings (Normalized t) = settings t.
Proof.
  unfold settings, Normalized, DefaultTable, DefaultProtocol, DefaultReconcileInterval, DefaultCaptureGrace. cbn [ID Proto TableMetric PrefSrc4 AssignAnnounced vrf Reconcile CaptureGrace].
  replace (Unmap (if addr_valid (PrefSrc4 t) then Unmap (PrefSrc4 t) else PrefSrc4 t)) with (Unmap (PrefSrc4 t))
    by (destruct (addr_valid _); [by rewrite Unmap_idem | done]).
  destruct (ID t =? 0) eqn:E1; destruct (Proto t =? 0) eqn:E2; destruct (Reconcile t <=? 0) eqn:E3;
    destruct (CaptureGrace t <=? 0) eqn:E4; rewrite ?E1, ?E2, ?E3, ?E4; done.
Qed.

Lemma Normalized_fields t :
  settings t = (ID (Normalized t), Proto (Normalized t), TableMetric (Normalized t), PrefSrc4 (Normalized t),
    AssignAnnounced (Normalized t), vrf (Normalized t), Reconcile (Normalized t), CaptureGrace (Normalized t)).
Proof.
  unfold settings, Normalized. cbn. assert ((if addr_valid (PrefSrc4 t) then Unmap (PrefSrc4 t) else PrefSrc4 t) = Unmap (PrefSrc4 t)) as ->
    by (by destruct (PrefSrc4 t)). done.
Qed.

Lemma Table_ext t u : settings t = settings u → Addresses (Normalized t) = Addresses (Normalized u) →
  Rules (Normalized t) = Rules (Normalized u) → Normalized t = Normalized u.
Proof.
  rewrite !Normalized_fields. destruct (Normalized t), (Normalized u). cbn. intros [= -> -> -> -> -> -> -> ->] -> ->. done.
Qed.

Lemma Normalized_idem t : Normalized (Normalized t) = Normalized t.
Proof.
  apply Table_ext; [apply Normalized_settings | rewrite !Normalized_addresses; apply SortFunc_idem, ComparePrefix_order|].
  destruct (expandRules_cases (Rules t)) as [(e&He&e'&He')|(out&He&Hne&Hres)].
  - assert (Rules (Normalized t) = canonicalRules (Rules t)) as E
      by (unfold Normalized; cbn [Rules]; rewrite He; by destruct (Rules t)).
    unfold Normalized at 1. cbn [Rules]. rewrite E, He', canonicalRules_idem. destruct (Rules t); done.
  - pose proof (Normalized_rules t out He) as E. unfold installs in E. rewrite He in E.
    unfold Normalized at 1. cbn [Rules]. rewrite E.
    set (l := sortedRules (canonicalRules out)).
    assert (sortedRules l = l) as Hl by (apply SortFunc_idem, compareRules_order).
    assert (canonicalRules l = l) as Hc by apply canonicalRules_sorted.
    destruct (Nat.eqb_spec (length l) 0) as [Hn|_]; [by apply nil_length_inv in Hn as ->|].
    destruct (expandRules l) as [again| |] eqn:Ea; [|done..].
    by rewrite (expand_again l again (sortedRules_resolved _ Hres) Ea), Hc.
Qed.

Lemma validate_canonical r : validate r = Ok () → validate (canonical r) = Ok ().
Proof.
  unfold validate, validateSelector. cbn [Family To From_ FWMark FWMask Priority RuleTable canonical].
  destruct (FWMask r =? allOnes) eqn:E; [|by intros]. apply Z.eqb_eq in E. rewrite E. cbn.
  intros H. repeat match goal with H : mbind _ _ = Ok _ |- _ => apply bind_ok_inv in H as ([] & ? & H) end.
  repeat match goal with H : ?x = Ok () |- _ => rewrite H; clear H end. rbind.
  destruct (FWMark r =? 0) eqn:Em; done.
Qed.

Lemma validateAll_Forall l : validateAll l = Ok () → Forall (λ r, validate r = Ok ()) l.
Proof.
  induction l as [|r l IH]; [done|]. cbn. intros H. apply bind_ok_inv in H as ([] & ? & H).
  apply List.Forall_cons; [done | by apply IH].
Qed.

Lemma refuseTwice_NoDup seen l : refuseTwice seen l = Ok () →
  NoDup (canonicalRules l) ∧ ∀ q, q ∈ canonicalRules l → q ∉ seen.
Proof.
  revert seen. induction l as [|r l IH]; intros seen; cbn [refuseTwice canonicalRules map]; [split; [constructor|set_solver]|].
  destruct (bool_decide_reflect (canonical r ∈ seen)) as [|Hn]; [done|]. intros H. apply IH in H as [Hd Hs].
  fold (canonicalRules l). split; [constructor; [|done]; intros Hin; apply (Hs _ Hin); set_solver|].
  intros q [->|Hq]%elem_of_cons; [done|]. specialize (Hs q Hq). set_solver.
Qed.

Lemma Validate_inv t : Validate t = Ok () →
  (0 ≤ Reconcile t ∧ (CaptureGrace t = 0 ∨ MinCaptureGrace ≤ CaptureGrace t)) ∧
  ∃ out, expandRules (Rules t) = Ok out ∧ Forall (λ r, validate r = Ok ()) out ∧ NoDup (canonicalRules out).
Proof.
  unfold Validate. intros H. repeat match goal with H : mbind _ (refuse _ _) = Ok _ |- _ => apply bind_ok_inv in H as ([] & ?%refuse_ok & H) end.
  apply bind_ok_inv in H as ([] & _ & H).
  repeat match goal with H : mbind _ (refuse _ _) = Ok _ |- _ => apply bind_ok_inv in H as ([] & ?%refuse_ok & H) end.
  apply bind_ok_inv in H as (out & He & H). apply bind_ok_inv in H as ([] & Hv & H).
  split; [bool_props; lia|]. exists out. split_and!; [done | by apply validateAll_Forall | by apply refuseTwice_NoDup in H as [? _]].
Qed.

Lemma selectsMark_canonical r mark : selectsMark (canonical r) mark = selectsMark r mark.
Proof.
  unfold selectsMark. cbn. destruct (FWMark r =? 0); [done|]. destruct (Z.eqb_spec (FWMask r) allOnes) as [->|]; done.
Qed.

(** The rules a configured rule stands for, read off it directly: with its
    selectors, mark, table and priority, a mask of all bits spelled as none, and of
    the family of every address it names, or, if it names none, of a family it
    names. *)
Definition maskOf (r : Rule) : Z := if FWMask r =? 0 then allOnes else FWMask r.

Record standsFor (r q : Rule) : Prop := mkStandsFor {
  sf_same : (To q, From_ q, FWMark q, RuleTable q, Priority q) = (To r, From_ r, FWMark r, RuleTable r, Priority r);
  sf_mask : FWMask q ≠ allOnes ∧ maskOf q = maskOf r;
  sf_family : Family q = FamilyIPv4 ∨ Family q = FamilyIPv6;
  sf_address : ∀ p, p = To r ∨ p = From_ r → IsValid p = true → familyOf (prefix_addr p) = Family q;
  sf_named : IsValid (To r) = false → IsValid (From_ r) = false → Family r = Family q ∨ Family r = FamilyBoth }.

(** What a configuration asks of the kernel's rules. *)
Definition asksFor (t : Table) (q : Rule) : Prop := ∃ r, r ∈ Rules t ∧ standsFor r q.

Lemma canonical_mask r : FWMask (canonical r) ≠ allOnes ∧ maskOf (canonical r) = maskOf r.
Proof. unfold canonical, maskOf. cbn [FWMask]. destruct (Z.eqb_spec (FWMask r) allOnes) as [->|Hne]; [by split|]. done. Qed.

Lemma mask_canonical r q : FWMask q ≠ allOnes → maskOf q = maskOf r → FWMask q = (if FWMask r =? allOnes then 0 else FWMask r).
Proof.
  unfold maskOf. intros Hne. destruct (Z.eqb_spec (FWMask r) allOnes), (Z.eqb_spec (FWMask q) 0), (Z.eqb_spec (FWMask r) 0); congruence.
Qed.

(** A rule that stands for another is it, but for the family. *)
Lemma standsFor_eq r q : standsFor r q → q = canonical (withFamily r (Family q)).
Proof.
  intros [E [M1 M2] _ _ _]. pose proof (mask_canonical r q M1 M2) as Hm. destruct q as [a b m k tb pr f]. injection E as -> -> -> -> ->.
  cbn [FWMask Family] in *. subst k. done.
Qed.

Lemma standsFor_intro r f : f = FamilyIPv4 ∨ f = FamilyIPv6 → (∀ p, p = To r ∨ p = From_ r → IsValid p = true → familyOf (prefix_addr p) = f) →
  (IsValid (To r) = false → IsValid (From_ r) = false → Family r = f ∨ Family r = FamilyBoth) → standsFor r (canonical (withFamily r f)).
Proof. intros Hf Ha Hn. pose proof (canonical_mask (withFamily r f)). by split. Qed.

Lemma validate_family r : validate r = Ok () →
  (Family r = FamilyIPv4 ∨ Family r = FamilyIPv6) ∧ ∀ p, p = To r ∨ p = From_ r → IsValid p = true → familyOf (prefix_addr p) = Family r.
Proof.
  unfold validate. intros H. apply bind_ok_inv in H as ([] & Hf%refuse_ok & H). apply bind_ok_inv in H as ([] & Ht & H). apply bind_ok_inv in H as ([] & Hs & _).
  split.
  - apply andb_false_iff in Hf as [?%negb_false_iff%bool_decide_eq_true|?%negb_false_iff%bool_decide_eq_true]; auto.
  - assert (∀ p, validateSelector r p = Ok () → IsValid p = true → familyOf (prefix_addr p) = Family r) as Hv; [|intros p [->| ->]; by apply Hv].
    intros p. unfold validateSelector. destruct (IsValid p); cbn [negb]; [|done]. intros Hp _. apply bind_ok_inv in Hp as ([] & Hx%refuse_ok & _).
    by apply negb_false_iff, bool_decide_eq_true in Hx.
Qed.

Lemma withFamily_same r : withFamily r (Family r) = r.
Proof. by destruct r. Qed.

(** [expandRule], for rules that pass, is exactly that. *)
Lemma expanded_standsFor r out q : expandRule r = Ok out → Forall (λ r, validate r = Ok ()) out → q ∈ canonicalRules out ↔ standsFor r q.
Proof.
  unfold expandRule. intros E Hv. destruct (IsValid (To r) || IsValid (From_ r)) eqn:Ha; cbn [andb] in E.
  - destruct (negb _); [done|]. injection E as <-. set (f := if negb _ then FamilyIPv6 else FamilyIPv4) in *.
    apply Forall_singleton, validate_family in Hv as [Hf Hp]. cbn [withFamily Family To From_] in Hf, Hp.
    cbn [canonicalRules map]. rewrite list_elem_of_singleton. split.
    + intros ->. apply standsFor_intro; [done | done|]. intros H1 H2. by rewrite H1, H2 in Ha.
    + intros Hs. rewrite (standsFor_eq r q Hs). do 2 f_equal. destruct Hs as [_ _ _ Hs _].
      apply orb_true_iff in Ha as [Hx|Hx]; [rewrite <- (Hs (To r)), <- (Hp (To r)) by auto | rewrite <- (Hs (From_ r)), <- (Hp (From_ r)) by auto]; done.
  - apply orb_false_iff in Ha as [H1 H2].
    assert (∀ p, p = To r ∨ p = From_ r → IsValid p = true → False) as Hno by (intros p [->| ->]; congruence).
    destruct (bool_decide_reflect (Family r = FamilyIPv4)) as [F|F4]; [|destruct (bool_decide_reflect (Family r = FamilyIPv6)) as [F|F6]]; cbn [orb] in E.
    3: destruct (bool_decide_reflect (Family r = FamilyBoth)) as [F|]; [|done].
    all: injection E as <-; cbn [canonicalRules map]; rewrite ?list_elem_of_singleton, ?elem_of_cons, ?elem_of_nil; split.
    1,3: intros ->; rewrite <- (withFamily_same r) at 2; rewrite F; apply standsFor_intro; [auto | by intros p Hp ?%(Hno p Hp) | by left].
    1,2: intros Hs; rewrite (standsFor_eq r q Hs); f_equal; destruct (sf_named _ _ Hs H1 H2) as [Hq|Hq]; [by rewrite <- Hq, withFamily_same | by rewrite F in Hq].
    + intros [->|[->|[]]]; (apply standsFor_intro; [auto | by intros p Hp ?%(Hno p Hp) | by right]).
    + intros Hs. rewrite (standsFor_eq r q Hs). destruct (sf_family _ _ Hs) as [-> | ->]; auto.
Qed.

Lemma expandRules_asked rules : ∀ out q, expandRules rules = Ok out → Forall (λ r, validate r = Ok ()) out →
  q ∈ canonicalRules out ↔ ∃ r, r ∈ rules ∧ standsFor r q.
Proof.
  induction rules as [|r rules IH]; intros out q E Hv; cbn [expandRules] in E.
  - injection E as <-. split; [by intros []%not_elem_of_nil | by intros (r & []%not_elem_of_nil & _)].
  - apply bind_ok_inv in E as (o & Ho & E). apply bind_ok_inv in E as (more & Hm & [= <-]). apply Forall_app in Hv as [Hv1 Hv2].
    unfold canonicalRules in *. rewrite map_app, elem_of_app. rewrite (expanded_standsFor r o q Ho Hv1 : q ∈ map canonical o ↔ _), (IH more q Hm Hv2).
    split.
    + intros [Hs|(r' & Hr & Hs)]; [exists r; split; [by left | done] | exists r'; split; [by right | done]].
    + intros (r' & [->|Hr]%elem_of_cons & Hs); [by left | right; by exists r'].
Qed.

(** Rules that a validated configuration installs are those it asks for. *)
Lemma installs_asked t : Validate t = Ok () → ∀ q, q ∈ installs t ↔ asksFor t q.
Proof. intros (_ & out & He & Hv & _)%Validate_inv q. unfold installs. rewrite He. by apply expandRules_asked. Qed.

Lemma installs_nodup t : Validate t = Ok () → NoDup (installs t).
Proof. intros (_ & out & He & _ & Hd)%Validate_inv. unfold installs. by rewrite He. Qed.

(** C34: when a reload keeps the reconciler. Two validated configurations have the
    same normal form exactly when they agree in their settings once defaults are
    filled in, list the same addresses, each as often, in any order, and ask for
    the same set of kernel rules, however the rules are spelled: a rule for both
    families or one for each, a mask of all bits or none. The normal form is its
    own; its rules are exactly those asked for, each listed once and each passing
    the check of a single rule; its intervals can be honored; and a mark is read
    exactly when a rule asked for sends it to another table. *)
Theorem normalized_exact t u :
  Validate t = Ok () → Validate u = Ok () →
  (Normalized t = Normalized u ↔
    settings t = settings u ∧ Addresses t ≡ₚ Addresses u ∧ ∀ q, asksFor t q ↔ asksFor u q) ∧
  Normalized (Normalized t) = Normalized t ∧ settings (Normalized t) = settings t ∧
  (∀ q, q ∈ Rules (Normalized t) ↔ asksFor t q) ∧ NoDup (Rules (Normalized t)) ∧
  Forall (λ r, validate r = Ok ()) (Rules (Normalized t)) ∧
  0 < Reconcile (Normalized t) ∧ MinCaptureGrace ≤ CaptureGrace (Normalized t) ∧
  (∀ mark, ReadsMark t mark = true ↔
     ∃ q, asksFor t q ∧ selectsMark q mark = true ∧ RuleTable q ≠ ID (Normalized t)).
Proof.
  intros Ht Hu. destruct (Validate_inv t Ht) as ((Hr & Hg) & out & He & Hv & _).
  destruct (Validate_inv u Hu) as (_ & outu & Heu & _).
  assert (Rules (Normalized t) ≡ₚ installs t) as Hp by (rewrite (Normalized_rules t out He); apply SortFunc_perm).
  pose proof (installs_asked t Ht) as Hat. pose proof (installs_asked u Hu) as Hau.
  split_and!; [split|apply Normalized_idem|apply Normalized_settings|intros q; by rewrite Hp|rewrite Hp; by apply installs_nodup|..].
  - intros E. split_and!.
    + by rewrite <- (Normalized_settings t), E, Normalized_settings.
    + apply (SortFunc_unique ComparePrefix); [apply ComparePrefix_order|]. by rewrite <- !Normalized_addresses, E.
    + intros q. rewrite <- Hat, <- Hau, <- Hp, E, (Normalized_rules u outu Heu). unfold sortedRules. by rewrite (SortFunc_perm compareRules).
  - intros (Hs & Ha & Hin). apply Table_ext; [done| |].
    + rewrite !Normalized_addresses. by apply (SortFunc_unique ComparePrefix); [apply ComparePrefix_order|].
    + rewrite (Normalized_rules t out He), (Normalized_rules u outu Heu).
      apply (SortFunc_unique compareRules); [apply compareRules_order|].
      apply NoDup_Permutation; [by apply installs_nodup.. |]. intros q. by rewrite Hat, Hau.
  - rewrite Hp. unfold installs. rewrite He. unfold canonicalRules. apply Forall_map. eapply Forall_impl; [exact Hv|]. apply validate_canonical.
  - unfold Normalized, DefaultReconcileInterval. cbn. destruct (Z.leb_spec (Reconcile t) 0); lia.
  - unfold Normalized, DefaultCaptureGrace, MinCaptureGrace in *. cbn. destruct (Z.leb_spec (CaptureGrace t) 0); lia.
  - intros mark. unfold ReadsMark. rewrite existsb_exists. setoid_rewrite andb_true_iff.
    setoid_rewrite negb_true_iff. setoid_rewrite Z.eqb_neq. setoid_rewrite <- list_elem_of_In.
    setoid_rewrite Hp. by setoid_rewrite Hat.
Qed.

(** The same rules written once for both families and once for each. *)
Definition sampleRule (family : string) (mask : Z) : Rule := mkRule PrefixZero PrefixZero 7 mask 100 1000 family.
Definition sampleTable (rules : list Rule) : Table :=
  mkTable 0 0 0 AddrInvalid [PrefixFrom (Addr4 167772161) 24; PrefixFrom (Addr4 167772417) 24] false None rules 0 0.
Definition sampleTable2 : Table :=
  mkTable 200 155 0 AddrInvalid [PrefixFrom (Addr4 167772417) 24; PrefixFrom (Addr4 167772161) 24] false None
    [sampleRule FamilyIPv6 0; sampleRule FamilyIPv4 allOnes] (30 * 10 ^ 9) 0.

(** An address listed twice is assigned once, and makes another normal form. *)
Example duplicates_differ :
  let t l := mkTable 0 0 0 AddrInvalid l false None [] 0 0 in let a := PrefixFrom (Addr4 167772161) 24 in
  Validate (t [a; a]) = Ok () ∧ Normalized (t [a; a]) ≠ Normalized (t [a]).
Proof. split; [reflexivity | discriminate]. Qed.

(** A normal form is not for [Validate]: its rules name their family beside their
    addresses. *)
Example normal_form_refused :
  let t := sampleTable [mkRule (PrefixFrom (Addr4 167772160) 8) PrefixZero 0 0 100 1000 FamilyUnset] in
  Validate t = Ok () ∧ is_ok (Validate (Normalized t)) = false.
Proof. split; reflexivity. Qed.

Lemma normalized_exact_witness :
  Normalized (sampleTable [sampleRule FamilyBoth 0]) = Normalized sampleTable2 ∧
  ReadsMark sampleTable2 7 = true ∧ NoDup (Rules (Normalized sampleTable2)).
Proof.
  assert (∀ q, asksFor (sampleTable [sampleRule FamilyBoth 0]) q ↔ asksFor sampleTable2 q) as Hq.
  { intros q. rewrite <- !installs_asked by (vm_compute; reflexivity).
    change (installs (sampleTable _)) with [sampleRule FamilyIPv4 0; sampleRule FamilyIPv6 0].
    change (installs sampleTable2) with [sampleRule FamilyIPv6 0; sampleRule FamilyIPv4 0]. rewrite !elem_of_cons. tauto. }
  destruct (normalized_exact (sampleTable [sampleRule FamilyBoth 0]) sampleTable2 ltac:(vm_compute; reflexivity) ltac:(vm_compute; reflexivity))
    as ((_ & H) & _).
  destruct (normalized_exact sampleTable2 sampleTable2 ltac:(vm_compute; reflexivity) ltac:(vm_compute; reflexivity))
    as (_ & _ & _ & _ & Hd & _ & _ & _ & Hm).
  split; [apply H; split_and!; [vm_compute; reflexivity | apply Permutation_swap | exact Hq]|].
  split; [apply Hm; eexists; split; [apply installs_asked; [vm_compute; reflexivity | left] | vm_compute; split; [reflexivity|discriminate]] | exact Hd].
Defined.
