(* ===== verification/Kernel.v ===== *)
(** * The kernel reconciler, internal/kernel/kernel.go and capture.go

    A pass brings the kernel's routes, addresses, master device and policy rules to
    what the mesh and the configuration want. The kernel is behind an interface,
    [Platform], as in the code; its state is a type [K] every operation threads.
    What only decides whether a line is logged ([warned], [warnedAddrs],
    [uncovered], [master]) is left out. *)

From S2P Require Import Prelude Netip Sadr KernelConfig.

(** ** Routes *)

Definition defaultIPv6Metric : Z := 1024.

Record Route := mkKRoute {
  Destination : Prefix;
  Source : Prefix;
  PrefSrc : Addr;
  Metric : Z;
  Scoped : bool;
  Unreachable : bool }.

#[export] Instance Route_eq_dec : EqDecision Route.
Proof. solve_decision. Defined.

#[export] Instance Route_countable : Countable Route.
Proof.
  refine (inj_countable' (λ r, (Destination r, Source r, PrefSrc r, Metric r, Scoped r, Unreachable r))
    (λ '(a, b, c, d, e, f), mkKRoute a b c d e f) _).
  by intros [].
Defined.

Definition setScoped (r : Route) (b : bool) : Route :=
  mkKRoute (Destination r) (Source r) (PrefSrc r) (Metric r) b (Unreachable r).

Definition unspecifiedOf (address : Addr) : Addr := if Is4 address then Addr4 0 else Addr6 0.

Definition capturesTheMachine (r : Route) : bool :=
  if Bits (Destination r) <=? 1 then true
  else Contains (Destination r) (unspecifiedOf (prefix_addr (Destination r))).

Record Covered := mkCovered { V4 : bool; V6 : bool }.

Definition Has (c : Covered) (address : Addr) : bool := if Is4 address then V4 c else V6 c.

(** ** The gate *)

Record captureGate := mkGate {
  grace : Z;
  liveAt : Z;
  seen : bool;
  gateOpen : bool;
  waiting : bool }.

Definition newGate (grace : Z) : captureGate := mkGate grace 0 false false false.

(** The gate after the sample; [open] is its field and [changed] only logs. *)
Definition sample (g : captureGate) (now live : Z) : captureGate :=
  if 0 <? live then mkGate (grace g) now true true false
  else if negb (seen g) then mkGate (grace g) (liveAt g) (seen g) false false
  else
    let open := now - liveAt g <? grace g in
    mkGate (grace g) (liveAt g) (seen g) open open.

Definition deadline (g : captureGate) : option Z :=
  if negb (gateOpen g) then None else Some (liveAt g + grace g).

(** ** The kernel behind its interface *)

(** Why a route was not added: [errRouteSkipped], or an error. *)
Inductive refusal := RouteSkipped | RouteFailed (e : string).

Record Ruler (K : Type) := mkRuler {
  listRules : K → K * (string + list Rule);
  AddRule : K → Rule → K * option string;
  DelRule : K → Rule → K * option string }.
Arguments listRules {K}.
Arguments AddRule {K}.
Arguments DelRule {K}.

Record VrfMaker (K : Type) := mkVrfMaker {
  EnsureVRF : K → string → Z → K * (string + bool);
  RemoveVRF : K → string → K * option string }.
Arguments EnsureVRF {K}.
Arguments RemoveVRF {K}.

Class Platform (K : Type) := {
  listRoutes : K → K * (string + list Route);
  AddRoute : K → Route → K * option refusal;
  DelRoute : K → Route → K * option string;
  listAddrs : K → K * (string + list Prefix);
  AddAddr : K → Prefix → K * option string;
  DelAddr : K → Prefix → K * option string;
  getMaster : K → K * (string + string);
  Enslave : K → string → K * option string;
  Release : K → K * option string;
  ruler : option (Ruler K);
  vrfMaker : option (VrfMaker K);
  scoper : option (Route → bool);
  (* rt.Capture, the routing the underlay depends on *)
  Ready : option (K → K * (Covered * option string)) }.

(** ** The reconciler *)

Record Stats := mkStats { Desired : Z; Installed : Z; Skipped : Z; Added : Z; Removed : Z }.
Definition zeroStats : Stats := mkStats 0 0 0 0 0.

Record Reconciler := mkRec {
  table : Table;
  ruleSet : list Rule;
  addresses : list Prefix;
  hasSessions : bool;  (* rt.Sessions != nil *)
  owned : gset Prefix;
  enslaved : bool;
  capturing : bool;
  madeVRF : bool;
  gate : captureGate;
  capture : bool;
  routePass : Stats }.

Definition set_owned (r : Reconciler) (o : gset Prefix) : Reconciler :=
  mkRec (table r) (ruleSet r) (addresses r) (hasSessions r) o (enslaved r) (capturing r) (madeVRF r) (gate r) (capture r) (routePass r).
Definition set_enslaved (r : Reconciler) (b : bool) : Reconciler :=
  mkRec (table r) (ruleSet r) (addresses r) (hasSessions r) (owned r) b (capturing r) (madeVRF r) (gate r) (capture r) (routePass r).
Definition set_capturing (r : Reconciler) (b : bool) : Reconciler :=
  mkRec (table r) (ruleSet r) (addresses r) (hasSessions r) (owned r) (enslaved r) b (madeVRF r) (gate r) (capture r) (routePass r).
Definition set_madeVRF (r : Reconciler) (b : bool) : Reconciler :=
  mkRec (table r) (ruleSet r) (addresses r) (hasSessions r) (owned r) (enslaved r) (capturing r) b (gate r) (capture r) (routePass r).
Definition set_gate (r : Reconciler) (g : captureGate) (b : bool) : Reconciler :=
  mkRec (table r) (ruleSet r) (addresses r) (hasSessions r) (owned r) (enslaved r) (capturing r) (madeVRF r) g b (routePass r).
Definition set_pass (r : Reconciler) (s : Stats) : Reconciler :=
  mkRec (table r) (ruleSet r) (addresses r) (hasSessions r) (owned r) (enslaved r) (capturing r) (madeVRF r) (gate r) (capture r) s.

Definition newReconciler (t : Table) (sessions : bool) (rules : list Rule) (addrs : list Prefix) : Reconciler :=
  let grace := if CaptureGrace t <=? 0 then DefaultCaptureGrace else CaptureGrace t in
  mkRec (mkTable (ID t) (Proto t) (TableMetric t) (PrefSrc4 t) (Addresses t) (AssignAnnounced t) (vrf t) (Rules t) (Reconcile t) grace)
    rules addrs sessions ∅ false false false (newGate grace) false zeroStats.

Definition canonicalPrefix (prefix : Prefix) : option Prefix :=
  if negb (IsValid prefix) then None
  else
    let canonical := PrefixFrom (prefix_addr prefix) (Bits prefix) in
    if negb (IsValid canonical) then None else Some (Masked canonical).

Fixpoint canonicalAddresses (l : list Prefix) : res (list Prefix) :=
  match l with
  | [] => Ok []
  | prefix :: rest =>
      match canonicalPrefix prefix with
      | None => Err "kernel: address is not a valid prefix"
      | Some _ => more ← canonicalAddresses rest; Ok (PrefixFrom (prefix_addr prefix) (Bits prefix) :: more)
      end
  end.

Definition refuseWhatThePlatformLacks `{Platform K} (t : Table) : res unit :=
  _ ← refuse (match ruler with None => (0 <? length (Rules t))%nat | Some _ => false end)
        "kernel: cap.table rules are configured and this platform has no policy routing";
  refuse (match vrfMaker with None => negb (bool_decide (Name t = "")) | Some _ => false end)
    "kernel: cap.table vrf is set and this platform has no VRFs".

(** [New], once the platform is open. [boundUnderlay] is rt.BoundUnderlay. *)
Definition New `{Platform K} (t : Table) (interface : string) (boundUnderlay sessions : bool) (announced : list Prefix) : res Reconciler :=
  _ ← refuse (bool_decide (interface = "")) "kernel: interface is required";
  _ ← Validate t;
  let t := Normalized t in
  _ ← refuse (boundUnderlay && negb sessions) "kernel: a bound underlay needs a session source";
  addrs ← canonicalAddresses (Assigned t announced);
  _ ← refuseWhatThePlatformLacks t;
  Ok (newReconciler t sessions (Rules t) addrs).

(** ** What a pass wants *)

Definition limitedBroadcast : Prefix := PrefixFrom (Addr4 0xffffffff) 32.

(** Whether [unroutable] gives a reason. *)
Definition unroutable (destination : Prefix) : bool :=
  let addr := prefix_addr destination in
  IsMulticast addr || IsLinkLocalUnicast addr || IsLoopback addr || bool_decide (destination = limitedBroadcast).

Definition holdMetric : Z := allOnes.

Definition routeMetric (configured : Z) (destination : Prefix) (unreachable : bool) : Z :=
  if unreachable then holdMetric
  else if (configured =? 0) && negb (Is4 (prefix_addr destination)) then defaultIPv6Metric
  else configured.

(** An entry of the mesh's table; its value is a peer, [None] being
    netstack.Unreachable. *)
Definition snapshotEntry : Type := Sadr.Route (option nat).

(** One turn of the loop of [desired]. *)
Definition wantOne (t : Table) (capture : bool) (entry : snapshotEntry) : option Route :=
  match canonicalPrefix (Sadr.Destination entry) with
  | None => None
  | Some destination =>
      if unroutable destination then None
      else
        let unreachable := bool_decide (Sadr.Value entry = None) in
        let metric := routeMetric (TableMetric t) destination unreachable in
        let route source prefSrc := mkKRoute destination source prefSrc metric false unreachable in
        if capturesTheMachine (route PrefixZero AddrInvalid) && negb capture then None
        else
          let source := Sadr.Source entry in
          let source := if IsValid source && (Bits source =? 0) then PrefixZero else source in
          let prefSrc := if Is4 (prefix_addr destination) && addr_valid (PrefSrc4 t) then PrefSrc4 t else AddrInvalid in
          if IsValid source then
            match canonicalPrefix source with
            | None => None
            | Some src =>
                if Is4 (prefix_addr src) || Is4 (prefix_addr destination) then None
                else Some (route src prefSrc)
            end
          else Some (route PrefixZero prefSrc)
  end.

Definition desired (r : Reconciler) (snapshot : list snapshotEntry) : list Route :=
  omap (wantOne (table r) (capture r)) snapshot.

(** ** The difference *)

Definition comparePrefixes : Prefix → Prefix → comparison := ComparePrefix.

Definition compareSourceSpecificity (a b : Prefix) : comparison :=
  cmpOr (Bits b ?= Bits a) (AddrCompare (prefix_addr a) (prefix_addr b)).

Definition boolOrder (b : bool) : Z := if b then 1 else 0.

Definition compareRoutes (a b : Route) : comparison :=
  cmpOr (comparePrefixes (Destination a) (Destination b)) (cmpOr (compareSourceSpecificity (Source a) (Source b))
    (cmpOr (AddrCompare (PrefSrc a) (PrefSrc b)) (cmpOr (Metric a ?= Metric b)
      (cmpOr (boolOrder (Unreachable a) ?= boolOrder (Unreachable b)) (boolOrder (Scoped a) ?= boolOrder (Scoped b)))))).

(** The routes of [l] whose key is not in [have], one for each key. *)
Fixpoint missing (key : Route → Route) (have emitted : gset Route) (l : list Route) : list Route :=
  match l with
  | [] => []
  | route :: rest =>
      let k := key route in
      if negb (bool_decide (k ∈ have)) && negb (bool_decide (k ∈ emitted))
      then route :: missing key have ({[k]} ∪ emitted) rest
      else missing key have emitted rest
  end.

(** A desired route under the scope the platform files it with. *)
Definition filed (scopes : option (Route → bool)) (r : Route) : Route :=
  setScoped r (match scopes with Some f => f r | None => false end).

Definition diffRoutes (desired actual : list Route) (scopes : option (Route → bool)) : list Route * list Route :=
  let want := list_to_set (C := gset Route) (map (filed scopes) desired) in
  let have := list_to_set (C := gset Route) actual in
  (SortFunc compareRoutes (missing (filed scopes) have ∅ desired),
   SortFunc compareRoutes (missing (λ r, r) want ∅ actual)).

(** ** A pass *)

Section pass.
Context `{P : Platform K}.

Definition applyVRF (r : Reconciler) (k : K) : Reconciler * K * list string :=
  match vrfMaker with
  | None => (r, k, [])
  | Some v =>
      if negb (creates (table r)) || bool_decide (Name (table r) = "") then (r, k, [])
      else
        match EnsureVRF v k (Name (table r)) (ID (table r)) with
        | (k, inl e) => (r, k, ["create vrf: " +:+ e])
        | (k, inr created) => (if created then set_madeVRF r true else r, k, [])
        end
  end.

Definition applyMaster (r : Reconciler) (k : K) : Reconciler * K * list string :=
  if bool_decide (Name (table r) = "") then (r, k, [])
  else
    match getMaster k with
    | (k, inl e) => (r, k, ["read master: " +:+ e])
    | (k, inr m) =>
        if bool_decide (m = Name (table r)) then (r, k, [])
        else if bool_decide (m = "") then
          match Enslave k (Name (table r)) with
          | (k, Some e) => (r, k, ["enslave: " +:+ e])
          | (k, None) => (set_enslaved r true, k, [])
          end
        else (r, k, [])
    end.

(** The loop over the configured addresses; [actual] is the listing it decides by. *)
Fixpoint assignAddresses (actual : list Prefix) (todo : list Prefix) (r : Reconciler) (k : K) : Reconciler * K * list string :=
  match todo with
  | [] => (r, k, [])
  | prefix :: rest =>
      if bool_decide (prefix ∈ actual) then assignAddresses actual rest r k
      else if bool_decide (prefix_addr prefix ∈ map prefix_addr actual) then assignAddresses actual rest r k
      else
        match AddAddr k prefix with
        | (k, Some e) =>
            let '(r, k, errs) := assignAddresses actual rest r k in (r, k, ("add address: " +:+ e) :: errs)
        | (k, None) => assignAddresses actual rest (set_owned r ({[prefix]} ∪ owned r)) k
        end
  end.

Definition applyAddresses (r : Reconciler) (k : K) : Reconciler * K * list string :=
  if (length (addresses r) =? 0)%nat then (r, k, [])
  else
    match listAddrs k with
    | (k, inl e) => (r, k, ["list addresses: " +:+ e])
    | (k, inr actual) => assignAddresses actual (addresses r) r k
    end.

(** [covered]: the routes a capture of which the underlay can fall back from. *)
Definition covered (k : K) (desired : list Route) : K * list Route * list string :=
  match Ready with
  | None => (k, desired, [])
  | Some ready =>
      if negb (existsb capturesTheMachine desired) then (k, desired, [])
      else
        let '(k, (c, err)) := ready k in
        (k, List.filter (λ route, negb (capturesTheMachine route && negb (Has c (prefix_addr (Destination route))))) desired,
         match err with Some e => ["cover the underlay before capturing: " +:+ e] | None => [] end)
  end.

Fixpoint deleteRoutes (k : K) (l : list Route) : K * Z * list string :=
  match l with
  | [] => (k, 0, [])
  | route :: rest =>
      match DelRoute k route with
      | (k, Some e) => let '(k, n, errs) := deleteRoutes k rest in (k, n, ("delete route: " +:+ e) :: errs)
      | (k, None) => let '(k, n, errs) := deleteRoutes k rest in (k, n + 1, errs)
      end
  end.

Fixpoint addRoutes (k : K) (l : list Route) : K * (Z * Z) * list string :=
  match l with
  | [] => (k, (0, 0), [])
  | route :: rest =>
      match AddRoute k route with
      | (k, None) => let '(k, (added, skipped), errs) := addRoutes k rest in (k, (added + 1, skipped), errs)
      | (k, Some RouteSkipped) => let '(k, (added, skipped), errs) := addRoutes k rest in (k, (added, skipped + 1), errs)
      | (k, Some (RouteFailed e)) => let '(k, n, errs) := addRoutes k rest in (k, n, ("add route: " +:+ e) :: errs)
      end
  end.

Definition applyRoutes (r : Reconciler) (k : K) (snapshot : list snapshotEntry) : Reconciler * K * list string :=
  let r := set_pass r zeroStats in
  match listRoutes k with
  | (k, inl e) => (r, k, ["list routes: " +:+ e])
  | (k, inr actual) =>
      let '(k, want, coverErrs) := covered k (desired r snapshot) in
      let '(add, del) := diffRoutes want actual scoper in
      let r := set_capturing r (existsb capturesTheMachine want) in
      let '(k, removed, delErrs) := deleteRoutes k del in
      let '(k, (added, skipped), addErrs) := addRoutes k add in
      (set_pass r (mkStats (Z.of_nat (length want)) (Z.of_nat (length actual) - removed + added) skipped added removed),
       k, coverErrs ++ delErrs ++ addErrs)
  end.

Fixpoint deleteRules (d : Ruler K) (wanted : gset Rule) (k : K) (l : list Rule) : K * list string :=
  match l with
  | [] => (k, [])
  | rule :: rest =>
      if bool_decide (rule ∈ wanted) then deleteRules d wanted k rest
      else
        match DelRule d k rule with
        | (k, Some e) => let '(k, errs) := deleteRules d wanted k rest in (k, ("delete rule: " +:+ e) :: errs)
        | (k, None) => deleteRules d wanted k rest
        end
  end.

Fixpoint addRules (d : Ruler K) (held : gset Rule) (k : K) (l : list Rule) : K * list string :=
  match l with
  | [] => (k, [])
  | rule :: rest =>
      if bool_decide (rule ∈ held) then addRules d held k rest
      else
        match AddRule d k rule with
        | (k, Some e) => let '(k, errs) := addRules d held k rest in (k, ("add rule: " +:+ e) :: errs)
        | (k, None) => addRules d held k rest
        end
  end.

Definition applyRules (r : Reconciler) (k : K) : K * list string :=
  match ruler with
  | None => (k, [])
  | Some d =>
      match listRules d k with
      | (k, inl e) => (k, ["list rules: " +:+ e])
      | (k, inr actual) =>
          let '(k, errs1) := deleteRules d (list_to_set (ruleSet r)) k actual in
          let '(k, errs2) := addRules d (list_to_set actual) k (ruleSet r) in
          (k, errs1 ++ errs2)
      end
  end.

(** [live] is what rt.Sessions returns. *)
Definition sampleCapture (r : Reconciler) (now live : Z) : Reconciler :=
  if negb (hasSessions r) then set_gate r (gate r) true
  else let g := sample (gate r) now live in set_gate r g (gateOpen g).

Definition captureDeadline (r : Reconciler) : option Z :=
  if negb (capturing r) then None else deadline (gate r).

(** The arguments of [errors.Join] run in order; [nil] is the empty list. *)
Definition reconcile (r : Reconciler) (k : K) (now live : Z) (snapshot : list snapshotEntry) : Reconciler * K * list string :=
  let r := sampleCapture r now live in
  let '(r, k, e1) := applyVRF r k in
  let '(r, k, e2) := applyMaster r k in
  let '(r, k, e3) := applyAddresses r k in
  let '(r, k, e4) := applyRoutes r k snapshot in
  let '(k, e5) := applyRules r k in
  (r, k, e1 ++ e2 ++ e3 ++ e4 ++ e5).

(** ** Withdrawal *)

Fixpoint dropAddresses (held : list Prefix) (r : Reconciler) (k : K) (l : list Prefix) : Reconciler * K * list string :=
  match l with
  | [] => (r, k, [])
  | prefix :: rest =>
      if negb (bool_decide (prefix ∈ held)) then dropAddresses held (set_owned r (owned r ∖ {[prefix]})) k rest
      else
        match DelAddr k prefix with
        | (k, Some e) => let '(r, k, errs) := dropAddresses held r k rest in (r, k, ("delete address: " +:+ e) :: errs)
        | (k, None) => dropAddresses held (set_owned r (owned r ∖ {[prefix]})) k rest
        end
  end.

Definition withdrawRoutes (k : K) : K * list string :=
  match listRoutes k with
  | (k, inl e) => (k, ["list routes: " +:+ e])
  | (k, inr routes) => let '(k, _, errs) := deleteRoutes k routes in (k, errs)
  end.

Definition withdrawAddresses (r : Reconciler) (k : K) : Reconciler * K * list string :=
  match listAddrs k with
  | (k, inl e) => (r, k, ["list addresses: " +:+ e])
  | (k, inr held) => dropAddresses held r k (SortFunc comparePrefixes (elements (owned r)))
  end.

Definition withdrawMaster (r : Reconciler) (k : K) : Reconciler * K * list string :=
  if negb (enslaved r) then (r, k, [])
  else
    match Release k with
    | (k, Some e) => (r, k, ["release: " +:+ e])
    | (k, None) => (set_enslaved r false, k, [])
    end.

Definition withdrawRules (k : K) : K * list string :=
  match ruler with
  | None => (k, [])
  | Some d =>
      match listRules d k with
      | (k, inl e) => (k, ["list rules: " +:+ e])
      | (k, inr held) => deleteRules d ∅ k held
      end
  end.

(** [r.madeVRF] is set only by a platform that makes VRFs. *)
Definition withdrawVRF (r : Reconciler) (k : K) : Reconciler * K * list string :=
  if negb (madeVRF r) then (r, k, [])
  else
    match vrfMaker with
    | None => (r, k, [])
    | Some v =>
        match RemoveVRF v k (Name (table r)) with
        | (k, Some e) => (r, k, ["remove vrf: " +:+ e])
        | (k, None) => (set_madeVRF r false, k, [])
        end
    end.

Definition withdraw (r : Reconciler) (k : K) : Reconciler * K * list string :=
  let '(k, e1) := withdrawRoutes k in
  let '(r, k, e2) := withdrawAddresses r k in
  let '(r, k, e3) := withdrawMaster r k in
  let '(k, e4) := withdrawRules k in
  let '(r, k, e5) := withdrawVRF r k in
  (r, k, e1 ++ e2 ++ e3 ++ e4 ++ e5).

(** ** The loop of [Run] *)

Record Loop := mkLoop {
  rec : Reconciler;
  withdrawn : bool;
  backoff : Z;
  retry : option Z;  (* when the timers fire *)
  graceTimer : option Z;
  published : Stats * list string }.

Definition newLoop (r : Reconciler) : Loop := mkLoop r false 0 None None (zeroStats, []).

(** One turn at [now], up to the [select]. *)
Definition turn (l : Loop) (k : K) (enabled : bool) (now live : Z) (snapshot : list snapshotEntry) : Loop * K :=
  if negb enabled then
    if withdrawn l then (l, k)
    else
      let '(r, k, errs) := withdraw (rec l) k in
      let r := set_pass r zeroStats in
      (mkLoop r true 0 None None (zeroStats, errs), k)
  else
    let '(r, k, errs) := reconcile (rec l) k now live snapshot in
    let interval := Reconcile (table r) in
    let '(backoff, retry) :=
      match errs with
      | _ :: _ => let b := Z.min (Z.max (2 * backoff l) minRetryInterval) interval in (b, Some (now + b))
      | [] => if negb (backoff l =? 0) then (0, None) else (backoff l, retry l)
      end in
    let graceTimer := option_map (λ at_, now + Z.max (at_ - now) 0) (captureDeadline r) in
    (mkLoop r false backoff retry graceTimer (routePass r, errs), k).

(** What [Run] does once its context ends. *)
Definition stop (l : Loop) (k : K) : Loop * K * list string :=
  let '(r, k, errs) := withdraw (rec l) k in
  (mkLoop r (withdrawn l) (backoff l) (retry l) (graceTimer l) (published l), k, errs).
End pass.
