(* ===== verification/KernelPass.v ===== *)
(** * What a pass does to the kernel

    [Kernel] reads and writes through an interface. [PlatformLaws] states what that
    interface promises, over what an observer sees of the kernel; the theorems here
    are proved against it: a pass that reports no error leaves exactly the wanted
    routes, whatever it reports it counts right, and no route that would take this
    machine's own traffic is there without the gate and the underlay allowing it. *)

From S2P Require Import Prelude Netip Sadr KernelConfig Kernel.

(** ** The interface's promises *)

(** What the reconciler's corner of the kernel holds: the routes of its protocol, the
    link's addresses and its master, its rules, and the devices there are, by name. *)
Record view := mkView {
  vroutes : gset Route;
  vaddrs : gset Prefix;
  vmaster : string;
  vrules : gset Rule;
  vvrfs : gset string }.

Definition with_routes (v : view) (s : gset Route) : view := mkView s (vaddrs v) (vmaster v) (vrules v) (vvrfs v).
Definition with_addrs (v : view) (s : gset Prefix) : view := mkView (vroutes v) s (vmaster v) (vrules v) (vvrfs v).
Definition with_master (v : view) (m : string) : view := mkView (vroutes v) (vaddrs v) m (vrules v) (vvrfs v).
Definition with_rules (v : view) (s : gset Rule) : view := mkView (vroutes v) (vaddrs v) (vmaster v) s (vvrfs v).
Definition with_vrfs (v : view) (s : gset string) : view := mkView (vroutes v) (vaddrs v) (vmaster v) (vrules v) s.

(** Addresses of an interface other than [a]: both platforms know an entry by its
    address alone, whatever its prefix length. *)
Definition others (a : Addr) (s : gset Prefix) : gset Prefix := filter (λ q, prefix_addr q ≠ a) s.

(** A listing leaves everything and lists the set. *)
Definition lists {K A} `{Countable A} (look : K → view) (get : view → gset A) (op : K → K * (string + list A)) : Prop :=
  ∀ k, look (op k).1 = look k ∧ match (op k).2 with inr l => NoDup l ∧ list_to_set l = get (look k) | inl _ => True end.

(** A write does what it says or, when it fails, nothing. *)
Definition writes {K A E} (look : K → view) (op : K → A → K * option E) (effect : view → A → view) : Prop :=
  ∀ k a, look (op k a).1 = match (op k a).2 with None => effect (look k) a | Some _ => look k end.

(** Moving the link to the master [m], which is no device when empty: what a kernel
    keeps of the link's addresses and routes is its own business, unless the link is
    there already. *)
Definition moves (v : view) (m : string) (v' : view) : Prop :=
  vmaster v' = m ∧ vaddrs v' ⊆ vaddrs v ∧ vroutes v' ⊆ vroutes v ∧ vrules v' = vrules v ∧ vvrfs v' = vvrfs v ∧
  (vmaster v = m → v' = v).

(** A device goes, and with it the routes of its table; a link in it is moved out. *)
Definition drops (v : view) (name : string) (v' : view) : Prop :=
  vvrfs v' = vvrfs v ∖ {[name]} ∧ vmaster v' = (if decide (vmaster v = name) then "" else vmaster v) ∧
  vaddrs v' ⊆ vaddrs v ∧ vroutes v' ⊆ vroutes v ∧ vrules v' = vrules v ∧ (vmaster v' = vmaster v → vaddrs v' = vaddrs v).

(** A change of which only some things are known. *)
Definition changes {K A E} (look : K → view) (op : K → A → K * option E) (effect : view → A → view → Prop) : Prop :=
  ∀ k a, match (op k a).2 with None => effect (look k) a (look (op k a).1) | Some _ => look (op k a).1 = look k end.

Class PlatformLaws (K : Type) `{P : Platform K} := {
  look : K → view;
  addrs_keyed : ∀ k p q, p ∈ vaddrs (look k) → q ∈ vaddrs (look k) → prefix_addr p = prefix_addr q → p = q;
  listRoutes_ok : lists look vroutes listRoutes;
  AddRoute_ok : writes look AddRoute (λ v r, with_routes v ({[filed scoper r]} ∪ vroutes v));
  DelRoute_ok : writes look DelRoute (λ v r, with_routes v (vroutes v ∖ {[r]}));
  listAddrs_ok : lists look vaddrs listAddrs;
  AddAddr_ok : writes look AddAddr (λ v p, with_addrs v ({[p]} ∪ others (prefix_addr p) (vaddrs v)));
  DelAddr_ok : writes look DelAddr (λ v p, with_addrs v (others (prefix_addr p) (vaddrs v)));
  getMaster_ok : ∀ k, look (getMaster k).1 = look k ∧ match (getMaster k).2 with inr m => m = vmaster (look k) | inl _ => True end;
  master_there : ∀ k, vmaster (look k) = "" ∨ vmaster (look k) ∈ vvrfs (look k);
  Enslave_ok : changes look Enslave moves;
  Release_ok : changes look (λ k (_ : unit), Release k) (λ v _, moves v "");
  listRules_ok : ∀ d, ruler = Some d → lists look vrules (listRules d);
  AddRule_ok : ∀ d, ruler = Some d → writes look (AddRule d) (λ v r, with_rules v ({[r]} ∪ vrules v));
  DelRule_ok : ∀ d, ruler = Some d → writes look (DelRule d) (λ v r, with_rules v (vrules v ∖ {[r]}));
  EnsureVRF_ok : ∀ m, vrfMaker = Some m → ∀ k name table, look (EnsureVRF m k name table).1 =
    match (EnsureVRF m k name table).2 with inr true => with_vrfs (look k) ({[name]} ∪ vvrfs (look k)) | _ => look k end ∧
    ((EnsureVRF m k name table).2 = inr true → name ∉ vvrfs (look k));
  RemoveVRF_ok : ∀ m, vrfMaker = Some m → changes look (RemoveVRF m) drops;
  Ready_ok : ∀ f, Ready = Some f → ∀ k, look (f k).1 = look k }.

Lemma view_routes_id v : with_routes v (vroutes v) = v.
Proof. by destruct v. Qed.

Lemma writes_inv {K A E} look op (effect : view → A → view) (k : K) a k' (o : option E) :
  writes look op effect → op k a = (k', o) → look k' = match o with None => effect (look k) a | Some _ => look k end.
Proof. intros H E'. specialize (H k a). by rewrite E' in H. Qed.

Lemma changes_inv {K A E} look op (effect : view → A → view → Prop) (k : K) a k' (o : option E) :
  changes look op effect → op k a = (k', o) → match o with None => effect (look k) a (look k') | Some _ => look k' = look k end.
Proof. intros H E'. specialize (H k a). by rewrite E' in H. Qed.

Lemma lists_inv {K A} `{Countable A} (look : K → view) get op k k' (x : string + list A) :
  lists look get op → op k = (k', x) →
  look k' = look k ∧ match x with inr l => NoDup l ∧ list_to_set l = get (look k) | inl _ => True end.
Proof. intros H0 E. specialize (H0 k). by rewrite E in H0. Qed.

(** ** The difference *)

Lemma compareRoutes_order : strict_order compareRoutes.
Proof.
  assert (ordering compareSourceSpecificity) as Hs.
  { apply ordering_or; [|apply (ordering_by prefix_addr), AddrCompare_order].
    split; [intros; by rewrite Z.compare_antisym|]. intros x y z. unfold before. rewrite !Z.compare_ngt_iff. lia. }
  split.
  - apply ordering_or; [apply (ordering_by Destination), ComparePrefix_order|].
    apply ordering_or; [by apply (ordering_by Source)|].
    apply ordering_or; [apply (ordering_by PrefSrc), AddrCompare_order|].
    apply ordering_or; [apply (ordering_by Metric), ordering_Z|].
    apply ordering_or; [apply (ordering_by (λ r, boolOrder (Unreachable r))) | apply (ordering_by (λ r, boolOrder (Scoped r)))]; apply ordering_Z.
  - intros [d1 [s1 n1] p1 m1 c1 u1] [d2 [s2 n2] p2 m2 c2 u2] E. unfold compareRoutes, comparePrefixes in E. cbn in E.
    apply cmpOr_eq in E as [E1 E]. apply cmpOr_eq in E as [E2 E]. apply cmpOr_eq in E as [E3 E].
    apply cmpOr_eq in E as [E4 E]. apply cmpOr_eq in E as [E5 E6]. apply cmpOr_eq in E2 as [E2 E2']. cbn in E2'.
    apply ComparePrefix_order in E1. apply AddrCompare_order in E3, E2'. apply Z.compare_eq in E2, E4, E5, E6.
    unfold Bits in E2. cbn in E2. assert (n1 = n2) as -> by lia.
    destruct c1, c2, u1, u2; try done; by subst.
Qed.

Lemma missing_spec key have l : ∀ emitted,
  (∀ r, r ∈ missing key have emitted l → r ∈ l ∧ (key r ∉ have) ∧ key r ∉ emitted) ∧
  NoDup (map key (missing key have emitted l)) ∧
  (∀ r, r ∈ l → key r ∈ have ∨ key r ∈ emitted ∨ key r ∈ map key (missing key have emitted l)).
Proof.
  induction l as [|a l IH]; intros emitted; cbn [missing]; [split_and!; [set_solver|constructor|set_solver]|].
  destruct (bool_decide_reflect (key a ∈ have)); cbn [negb andb].
  { destruct (IH emitted) as (I1 & I2 & I3). split_and!; [set_solver|done|]. intros r [->|Hr]%elem_of_cons; [by left|by apply I3]. }
  destruct (bool_decide_reflect (key a ∈ emitted)); cbn [negb].
  { destruct (IH emitted) as (I1 & I2 & I3). split_and!; [set_solver|done|].
    intros r [->|Hr]%elem_of_cons; [by right; left|by apply I3]. }
  destruct (IH ({[key a]} ∪ emitted)) as (I1 & I2 & I3). cbn [map]. split_and!.
  - intros r [->|Hr]%elem_of_cons; [set_solver|]. destruct (I1 r Hr) as (? & ? & ?). set_solver.
  - constructor; [|done]. intros (r & E & Hr)%list_elem_of_fmap. destruct (I1 r Hr) as (_ & _ & Hn). set_solver.
  - intros r [->|Hr]%elem_of_cons; [right; right; by left|]. destruct (I3 r Hr) as [|[|]]; [by left|set_solver|]. right; right. by right.
Qed.

(** Additions are wanted and not held, one for each route the kernel would hold;
    deletions are held and not wanted; nothing else is missing or left over. *)
Lemma diffRoutes_spec want actual scopes add del :
  diffRoutes want actual scopes = (add, del) →
  (∀ r, r ∈ add → r ∈ want ∧ filed scopes r ∉ actual) ∧ NoDup (map (filed scopes) add) ∧
  (∀ r, r ∈ want → filed scopes r ∈ actual ∨ filed scopes r ∈ map (filed scopes) add) ∧
  (∀ r, r ∈ del ↔ r ∈ actual ∧ r ∉ map (filed scopes) want) ∧ NoDup del.
Proof.
  unfold diffRoutes. intros [= <- <-].
  destruct (missing_spec (filed scopes) (list_to_set actual) want ∅) as (A1 & A2 & A3).
  destruct (missing_spec (λ r, r) (list_to_set (map (filed scopes) want)) actual ∅) as (D1 & D2 & D3).
  rewrite map_id in D2, D3. split_and!.
  - intros r. rewrite SortFunc_perm. intros Hr. apply A1 in Hr as (? & Hn & _). by rewrite elem_of_list_to_set in Hn.
  - by rewrite (Permutation_map _ (SortFunc_perm _ _)).
  - intros r Hr. rewrite (Permutation_map _ (SortFunc_perm _ _)). apply A3 in Hr as [Hr|[Hr|Hr]]; [left; by rewrite elem_of_list_to_set in Hr|set_solver|by right].
  - intros r. rewrite SortFunc_perm. split.
    + intros Hr. apply D1 in Hr as (? & Hn & _). by rewrite elem_of_list_to_set in Hn.
    + intros [Hr Hn]. apply D3 in Hr as [Hr|[Hr|Hr]]; [by rewrite elem_of_list_to_set in Hr|set_solver|done].
  - by rewrite SortFunc_perm.
Qed.

Lemma sublist_full {A} (l1 l2 : list A) : l1 `sublist_of` l2 → length l2 = length l1 → l1 = l2.
Proof.
  induction 1 as [|x l1 l2 _ IH|x l1 l2 Hs _]; cbn; [done| |].
  - intros [= E]. f_equal. auto.
  - intros E. apply sublist_length in Hs. lia.
Qed.

Lemma patch_sizes {A} `{Countable A} (B W G Q : gset A) :
  G ⊆ B ∖ W → Q ⊆ W ∖ B → let R := Q ∪ B ∖ G in
  R ∖ B = Q ∧ B ∖ R = G ∧ (size R + size G = size B + size Q)%nat ∧
  (size (W ∖ R) + size Q = size (W ∖ B))%nat ∧ (size (R ∖ W) + size G = size (B ∖ W))%nat.
Proof.
  intros HG HQ R.
  assert (R ∖ B = Q ∧ B ∖ R = G ∧ W ∖ R = (W ∖ B) ∖ Q ∧ R ∖ W = (B ∖ W) ∖ G) as (-> & -> & -> & ->).
  { unfold R. split_and!; apply set_eq; intros x; specialize (HG x); specialize (HQ x);
      rewrite ?elem_of_difference, ?elem_of_union, ?elem_of_difference in *; destruct (decide (x ∈ B)), (decide (x ∈ W)), (decide (x ∈ G)), (decide (x ∈ Q)); tauto. }
  split_and!; [done|done|..].
  - unfold R. rewrite size_union by set_solver. rewrite (size_difference B G) by set_solver.
    pose proof (subseteq_size G B ltac:(set_solver)). lia.
  - rewrite size_difference by done. pose proof (subseteq_size _ _ HQ). lia.
  - rewrite size_difference by done. pose proof (subseteq_size _ _ HG). lia.
Qed.

(** ** The routes of a pass *)

Section routes.
Context `{L : PlatformLaws K}.
Implicit Types (k : K) (r : Reconciler).

(** The kernel would not list its routes, or would not let go of this one, and that
    is reported. *)
Definition unremoved (errs : list string) (q : Route) : Prop :=
  ∃ k e, ((listRoutes k).2 = inl e ∧ ("list routes: " +:+ e) ∈ errs) ∨ ((DelRoute k q).2 = Some e ∧ ("delete route: " +:+ e) ∈ errs).

Lemma unremoved_mono errs errs' q : (∀ e, e ∈ errs → e ∈ errs') → unremoved errs q → unremoved errs' q.
Proof. intros Hs (k & e & [[H1 H2]|[H1 H2]]); exists k, e; [left | right]; auto. Qed.

Lemma unremoved_errs errs q : unremoved errs q → errs ≠ [].
Proof. intros (k & e & [[_ H]|[_ H]]) ->; by apply elem_of_nil in H. Qed.

Lemma deleteRoutes_left l : ∀ k k' n errs, deleteRoutes k l = (k', n, errs) →
  ∀ q, q ∈ l → q ∉ vroutes (look k') ∨ unremoved errs q.
Proof.
  induction l as [|a l IH]; intros k k' n errs; cbn [deleteRoutes]; [by intros _ q ?%elem_of_nil|].
  destruct (DelRoute k a) as [k1 o] eqn:E. pose proof (writes_inv _ _ _ _ _ _ _ DelRoute_ok E) as Hk.
  assert (∀ l k k' n errs, deleteRoutes k l = (k', n, errs) → vroutes (look k') ⊆ vroutes (look k)) as Hmono.
  { clear. induction l as [|a l IH]; intros k k' n errs; cbn [deleteRoutes]; [by intros [= <- _ _]|].
    destruct (DelRoute k a) as [k1 o] eqn:E. pose proof (writes_inv _ _ _ _ _ _ _ DelRoute_ok E) as Hk.
    destruct (deleteRoutes k1 l) as [[k2 m] es] eqn:Ed. pose proof (IH _ _ _ _ Ed) as Hi. rewrite Hk in Hi.
    destruct o; intros [= <- _ _]; [done|]. cbn in Hi. set_solver. }
  destruct (deleteRoutes k1 l) as [[k2 m] es] eqn:Ed. pose proof (Hmono _ _ _ _ _ Ed) as Hsub. rewrite Hk in Hsub.
  destruct o as [e|]; intros [= <- <- <-] q [->|Hq]%elem_of_cons.
  - right. exists k, e. right. rewrite E. split; [done | by left].
  - destruct (IH _ _ _ _ Ed q Hq) as [|Hu]; [by left|]. right. eapply unremoved_mono; [|exact Hu]. intros x Hx. by right.
  - left. cbn in Hsub. set_solver.
  - by apply (IH _ _ _ _ Ed).
Qed.

Lemma deleteRoutes_spec l : ∀ k k' n errs, deleteRoutes k l = (k', n, errs) →
  ∃ gone, gone `sublist_of` l ∧ n = Z.of_nat (length gone) ∧ (length l = length gone + length errs)%nat ∧
    look k' = with_routes (look k) (vroutes (look k) ∖ list_to_set gone).
Proof.
  induction l as [|a l IH]; intros k k' n errs; cbn [deleteRoutes].
  { intros [= <- <- <-]. exists []. split_and!; [constructor|done|done|]. rewrite list_to_set_nil, difference_empty_L. by destruct (look k). }
  destruct (DelRoute k a) as [k1 o] eqn:E. pose proof (writes_inv _ _ _ _ _ _ _ DelRoute_ok E) as Hk.
  destruct o as [e|]; destruct (deleteRoutes k1 l) as [[k2 m] es] eqn:Ed; intros [= <- <- <-];
    destruct (IH k1 k2 m es Ed) as (gone & Hs & -> & Hl & Hv); rewrite Hk in Hv.
  - exists gone. split_and!; [by constructor|done|cbn; lia|done].
  - exists (a :: gone). split_and!; [by constructor|cbn; lia|cbn; lia|]. rewrite Hv. cbn. f_equal. set_solver.
Qed.

Lemma addRoutes_spec l : ∀ k k' a s errs, addRoutes k l = (k', (a, s), errs) →
  ∃ put, put `sublist_of` l ∧ a = Z.of_nat (length put) ∧ 0 ≤ s ∧ Z.of_nat (length l) = a + s + Z.of_nat (length errs) ∧
    look k' = with_routes (look k) (list_to_set (map (filed scoper) put) ∪ vroutes (look k)).
Proof.
  induction l as [|x l IH]; intros k k' a s errs; cbn [addRoutes].
  { intros [= <- <- <- <-]. exists []. split_and!; [constructor|done|done|done|]. cbn. rewrite union_empty_l_L. by destruct (look k). }
  destruct (AddRoute k x) as [k1 o] eqn:E. pose proof (writes_inv _ _ _ _ _ _ _ AddRoute_ok E) as Hk.
  destruct (addRoutes k1 l) as [[k2 [m t]] es] eqn:Ed. destruct (IH k1 k2 m t es Ed) as (put & Hs & -> & Ht & Hl & Hv).
  rewrite Hk in Hv. destruct o as [[|e]|]; intros [= <- <- <- <-].
  - exists put. split_and!; [by constructor|done|lia|cbn [length]; lia|done].
  - exists put. split_and!; [by constructor|done|lia|cbn [length]; lia|done].
  - exists (x :: put). split_and!; [by constructor|cbn [length]; lia|lia|cbn [length]; lia|]. rewrite Hv. cbn. f_equal. set_solver.
Qed.

(** What the underlay can fall back on, as a pass over [k] finds it. *)
Definition coverage k : Covered :=
  match Ready with None => mkCovered true true | Some f => (f (listRoutes k).1).2.1 end.

(** The routes a pass works towards. *)
Definition wanted r k snapshot : list Route :=
  List.filter (λ q, negb (capturesTheMachine q) || Has (coverage k) (prefix_addr (Destination q))) (desired r snapshot).

Definition wantedSet r k snapshot : gset Route := list_to_set (map (filed scoper) (wanted r k snapshot)).

Lemma covered_spec r k snapshot k' want errs :
  covered (listRoutes k).1 (desired r snapshot) = (k', want, errs) → want = wanted r k snapshot ∧ look k' = look k.
Proof.
  pose proof (listRoutes_ok k) as [Hk _]. unfold covered, wanted, coverage. destruct Ready as [f|] eqn:Hf.
  - destruct (existsb capturesTheMachine (desired r snapshot)) eqn:He; cbn [negb].
    + pose proof (Ready_ok f Hf (listRoutes k).1) as Hr. destruct (f (listRoutes k).1) as [k1 [c e]]. intros [= <- <- <-].
      cbn in *. split; [|congruence]. apply List.filter_ext. intros q.
      by destruct (capturesTheMachine q), (Has c _).
    + intros [= <- <- <-]. split; [|done]. symmetry. apply forallb_filter_id, forallb_forall. rewrite <- not_true_iff_false, existsb_exists in He.
      intros q Hq. destruct (capturesTheMachine q) eqn:Hc; [|done]. exfalso. eauto.
  - intros [= <- <- <-]. split; [|done]. symmetry. apply forallb_filter_id, forallb_forall.
    intros q _. rewrite orb_true_iff. right. unfold Has. by destruct (Is4 _).
Qed.

(** What a pass leaves, before counting. *)
Lemma applyRoutes_spec r k snapshot r' k' errs :
  applyRoutes r k snapshot = (r', k', errs) →
  (∃ e, errs = [e] ∧ look k' = look k ∧ routePass r' = zeroStats) ∨
  ∃ gone put skipped,
    NoDup gone ∧ list_to_set gone ⊆ vroutes (look k) ∖ wantedSet r k snapshot ∧
    NoDup (map (filed scoper) put) ∧ list_to_set (map (filed scoper) put) ⊆ wantedSet r k snapshot ∖ vroutes (look k) ∧
    look k' = with_routes (look k) (list_to_set (map (filed scoper) put) ∪ vroutes (look k) ∖ list_to_set gone) ∧
    0 ≤ skipped ∧
    Z.of_nat (size (vroutes (look k) ∖ wantedSet r k snapshot)) + Z.of_nat (size (wantedSet r k snapshot ∖ vroutes (look k)))
      ≤ Z.of_nat (length gone) + Z.of_nat (length put) + skipped + Z.of_nat (length errs) ∧
    (size (vroutes (look k) ∖ wantedSet r k snapshot) ≤ length gone + length errs)%nat ∧
    routePass r' = mkStats (Z.of_nat (length (wanted r k snapshot)))
      (Z.of_nat (size (vroutes (look k))) - Z.of_nat (length gone) + Z.of_nat (length put)) skipped
      (Z.of_nat (length put)) (Z.of_nat (length gone)).
Proof.
  unfold applyRoutes. destruct (listRoutes k) as [k0 x] eqn:E. destruct (lists_inv _ _ _ _ _ _ listRoutes_ok E) as [Hk0 Hx].
  destruct x as [e|actual]; [intros [= <- <- <-]; left; by eexists|]. destruct Hx as [Hnd Hact].
  assert (desired (set_pass r zeroStats) snapshot = desired r snapshot) as -> by done.
  destruct (covered k0 (desired r snapshot)) as [[k1 want] e1] eqn:Ec.
  replace k0 with (listRoutes k).1 in Ec by (by rewrite E). destruct (covered_spec r k snapshot k1 want e1 Ec) as [-> Hk1].
  destruct (diffRoutes (wanted r k snapshot) actual scoper) as [add del] eqn:Ed.
  destruct (diffRoutes_spec _ _ _ _ _ Ed) as (A1 & A2 & A3 & D1 & D2).
  destruct (deleteRoutes k1 del) as [[k2 removed] e2] eqn:Edel. destruct (deleteRoutes_spec _ _ _ _ _ Edel) as (gone & Hg & -> & Hgl & Hk2).
  destruct (addRoutes k2 add) as [[k3 [added skipped]] e3] eqn:Eadd.
  destruct (addRoutes_spec _ _ _ _ _ _ Eadd) as (put & Hp & -> & Hs & Hpl & Hk3). intros [= <- <- <-]. right.
  assert (∀ q, q ∈ actual ↔ q ∈ vroutes (look k)) as Ha by (intros q; by rewrite <- Hact, elem_of_list_to_set).
  assert (∀ q, q ∈ map (filed scoper) (wanted r k snapshot) ↔ q ∈ wantedSet r k snapshot) as Hw
    by (intros q; unfold wantedSet; by rewrite elem_of_list_to_set).
  assert (vroutes (look k) ∖ wantedSet r k snapshot ⊆ list_to_set del) as H1.
  { intros q. rewrite elem_of_list_to_set, elem_of_difference, D1, <- Ha, <- Hw. done. }
  apply subseteq_size in H1. rewrite size_list_to_set in H1 by done.
  exists gone, put, skipped. split_and!.
  - by eapply sublist_NoDup.
  - intros q. rewrite elem_of_list_to_set, elem_of_difference, <- Ha, <- Hw. intros Hq. apply D1. by eapply elem_of_sublist.
  - eapply sublist_NoDup; [exact A2|]. by apply (fmap_sublist (filed scoper)).
  - intros q. rewrite elem_of_list_to_set, list_elem_of_fmap, elem_of_difference, <- Ha, <- Hw.
    intros (q0 & -> & Hq). pose proof (elem_of_sublist _ _ _ Hq Hp) as Hin. apply A1 in Hin as [Hin Hn]. split; [|done].
    by apply list_elem_of_fmap_2.
  - rewrite Hk3, Hk2, Hk1. done.
  - done.
  - assert (wantedSet r k snapshot ∖ vroutes (look k) ⊆ list_to_set (map (filed scoper) add)) as H2.
    { intros q. rewrite elem_of_list_to_set, elem_of_difference, <- Ha, <- Hw. intros [(q0 & -> & Hq)%list_elem_of_fmap Hn].
      by destruct (A3 q0 Hq). }
    apply subseteq_size in H2. rewrite size_list_to_set in H2 by done. rewrite length_map in H2.
    rewrite !length_app. lia.
  - rewrite !length_app. lia.
  - cbn. f_equal. rewrite <- Hact, size_list_to_set by done. done.
Qed.

Lemma applyRoutes_settles r k snapshot r' k' errs :
  applyRoutes r k snapshot = (r', k', errs) →
  let held := vroutes (look k) in
  let after := vroutes (look k') in
  let want := wantedSet r k snapshot in
  let s := routePass r' in
  look k' = with_routes (look k) after ∧ after ∖ held ⊆ want ∧ (held ∖ after) ## want ∧
  ((s = zeroStats ∧ after = held ∧ errs ≠ []) ∨
   (Desired s = Z.of_nat (length (wanted r k snapshot)) ∧ Installed s = Z.of_nat (size after) ∧
    Added s = Z.of_nat (size (after ∖ held)) ∧ Removed s = Z.of_nat (size (held ∖ after)) ∧
    Z.of_nat (size (want ∖ after)) + Z.of_nat (size (after ∖ want)) ≤ Skipped s + Z.of_nat (length errs))) ∧
  (errs = [] → Skipped s = 0 → after = want) ∧
  (held = want → after = want).
Proof.
  intros E held after want s. destruct (applyRoutes_spec r k snapshot r' k' errs E)
    as [(e & -> & Hv & Hs)|(gone & put & skipped & G1 & G2 & P1 & P2 & Hv & Hsk & Hb & _ & Hs)].
  { unfold after, held, s in *. rewrite Hv. split_and!; [by rewrite view_routes_id|set_solver|set_solver|left; done|done|done]. }
  fold held want in G2, P2, Hv, Hb, Hs. set (G := list_to_set gone : gset Route) in *.
  set (Q := list_to_set (map (filed scoper) put) : gset Route) in *.
  destruct (patch_sizes held want G Q G2 P2) as (E1 & E2 & S1 & S2 & S3). fold after in E1, E2, S1, S2, S3.
  assert (after = Q ∪ held ∖ G) as Ea by (unfold after; by rewrite Hv). rewrite <- Ea in E1, E2, S1, S2, S3.
  assert (size G = length gone) as SG by (unfold G; by rewrite size_list_to_set).
  assert (size Q = length put) as SQ by (unfold Q; by rewrite size_list_to_set, length_map).
  assert (Z.of_nat (size (want ∖ after)) + Z.of_nat (size (after ∖ want)) ≤ skipped + Z.of_nat (length errs)) as Hle by lia.
  unfold s in *. rewrite E1, E2, Hs. cbn [Desired Installed Added Removed Skipped]. split_and!.
  - rewrite Hv. cbn. by rewrite Ea.
  - set_solver.
  - set_solver.
  - right. split_and!; [done|lia|lia|lia|done].
  - intros -> ->. cbn [length] in Hle. assert (size (want ∖ after) = 0%nat ∧ size (after ∖ want) = 0%nat) as [H1 H2] by lia.
    apply size_empty_iff in H1, H2. by apply (anti_symm (⊆)); apply empty_difference_subseteq.
  - intros Hheld. assert (G = ∅ ∧ Q = ∅) as [HG HQ] by (clear -G2 P2 Hheld; set_solver). by rewrite Ea, HG, HQ, difference_empty_L, union_empty_l_L.
Qed.

(** C14: one pass over the routes, whatever fails on the way. It adds only wanted
    routes and removes only unwanted ones, and touches nothing else in the kernel.
    Unless the listing itself failed, its counters are exact: what it reports as
    installed, added and removed is what the kernel holds, gained and lost, and
    every route missing or left over afterwards is accounted for by a skip or an
    error. A pass that reports neither leaves exactly the wanted routes, and a pass
    over a kernel that has them changes nothing. *)
Theorem pass_exact r k snapshot r' k' errs :
  applyRoutes r k snapshot = (r', k', errs) →
  let held := vroutes (look k) in
  let after := vroutes (look k') in
  let want := wantedSet r k snapshot in
  let s := routePass r' in
  look k' = with_routes (look k) after ∧ after ∖ held ⊆ want ∧ (held ∖ after) ## want ∧
  ((s = zeroStats ∧ after = held ∧ errs ≠ []) ∨
   (Desired s = Z.of_nat (length (wanted r k snapshot)) ∧ Installed s = Z.of_nat (size after) ∧
    Added s = Z.of_nat (size (after ∖ held)) ∧ Removed s = Z.of_nat (size (held ∖ after)) ∧
    Z.of_nat (size (want ∖ after)) + Z.of_nat (size (after ∖ want)) ≤ Skipped s + Z.of_nat (length errs))) ∧
  (errs = [] → Skipped s = 0 → after = want) ∧
  (held = want → after = want).
Proof. apply applyRoutes_settles. Qed.

(** ** What is wanted *)

Lemma canonicalPrefix_inv p q : addr_ok (prefix_addr p) → canonicalPrefix p = Some q →
  prefix_ok q ∧ IsValid q = true ∧ Masked q = q ∧ Bits q = Bits p ∧ Is4 (prefix_addr q) = Is4 (prefix_addr p).
Proof.
  intros Ha. unfold canonicalPrefix. destruct (IsValid p); [|done]. cbn [negb].
  destruct (IsValid (PrefixFrom (prefix_addr p) (Bits p))) eqn:Hv; [|done]. intros [= <-].
  pose proof (PrefixFrom_ok (prefix_addr p) (Bits p) Ha) as Hp. split_and!.
  - by apply Masked_ok.
  - by rewrite Masked_valid.
  - by apply Masked_idem.
  - rewrite Masked_shape by done. rewrite PrefixFrom_valid in Hv. unfold PrefixFrom, Bits in *. cbn. rewrite Hv. lia.
  - rewrite Masked_shape by done. cbn. by destruct (prefix_addr p).
Qed.

Definition entries_ok (snapshot : list snapshotEntry) : Prop :=
  Forall (λ e, addr_ok (prefix_addr (Sadr.Destination e)) ∧ addr_ok (prefix_addr (Sadr.Source e))) snapshot.

(** A route every platform can hold: no host bits, not a destination of a link or
    of the host, a source only where it means something and only under IPv6, the
    hold metric exactly on unreachable ones when another is configured, and never
    IPv6's metric zero. *)
Definition installable (t : Table) (q : Route) : Prop :=
  IsValid (Destination q) = true ∧ Masked (Destination q) = Destination q ∧ unroutable (Destination q) = false ∧
  (Source q = PrefixZero ∨
   IsValid (Source q) = true ∧ Masked (Source q) = Source q ∧ 0 < Bits (Source q) ∧
   Is4 (prefix_addr (Source q)) = false ∧ Is4 (prefix_addr (Destination q)) = false) ∧
  (PrefSrc q = AddrInvalid ∨ PrefSrc q = PrefSrc4 t ∧ Is4 (prefix_addr (Destination q)) = true) ∧
  (Unreachable q = true → Metric q = allOnes) ∧
  (Unreachable q = false → Is4 (prefix_addr (Destination q)) = false → Metric q ≠ 0).

Lemma wantOne_spec t c e q :
  addr_ok (prefix_addr (Sadr.Destination e)) → addr_ok (prefix_addr (Sadr.Source e)) → wantOne t c e = Some q →
  installable t q ∧ Scoped q = false ∧ (capturesTheMachine q = true → c = true) ∧
  canonicalPrefix (Sadr.Destination e) = Some (Destination q).
Proof.
  intros Hd Hs. unfold wantOne. destruct (canonicalPrefix (Sadr.Destination e)) as [d|] eqn:Ed; [|done].
  destruct (canonicalPrefix_inv _ _ Hd Ed) as (Hdo & Hdv & Hdm & _ & _).
  destruct (unroutable d) eqn:Hu; [done|]. set (u := bool_decide (Sadr.Value e = None)). set (m := routeMetric (TableMetric t) d u).
  assert (∀ s p, capturesTheMachine (mkKRoute d s p m false u) = capturesTheMachine (mkKRoute d PrefixZero AddrInvalid m false u)) as Hc by done.
  destruct (capturesTheMachine (mkKRoute d PrefixZero AddrInvalid m false u) && negb c) eqn:Hg; [done|].
  assert (capturesTheMachine (mkKRoute d PrefixZero AddrInvalid m false u) = true → c = true) as Hcap
    by (intros Hx; rewrite Hx in Hg; by destruct c).
  set (p := if Is4 (prefix_addr d) && addr_valid (PrefSrc4 t) then PrefSrc4 t else AddrInvalid).
  assert (p = AddrInvalid ∨ p = PrefSrc4 t ∧ Is4 (prefix_addr d) = true) as Hp
    by (unfold p; destruct (Is4 (prefix_addr d)), (addr_valid _); auto).
  assert ((u = true → m = allOnes) ∧ (u = false → Is4 (prefix_addr d) = false → m ≠ 0)) as [Hm1 Hm2].
  { unfold m, routeMetric. split; [by intros ->|]. intros -> ->. cbn. rewrite andb_true_r.
    destruct (Z.eqb_spec (TableMetric t) 0); [done|done]. }
  assert (∀ s, (s = PrefixZero ∨ IsValid s = true ∧ Masked s = s ∧ 0 < Bits s ∧ Is4 (prefix_addr s) = false ∧ Is4 (prefix_addr d) = false) →
    installable t (mkKRoute d s p m false u)) as Hi by (intros s Hsrc; unfold installable; cbn; split_and!; done).
  destruct (IsValid (Sadr.Source e)) eqn:Hsv; cbn [andb].
  - destruct (Z.eqb_spec (Bits (Sadr.Source e)) 0) as [H0|H0].
    + cbn [IsValid PrefixZero bitsPlusOne Z.ltb Z.compare]. intros [= <-]. split_and!; [apply Hi; by left|done|done|done].
    + rewrite Hsv. destruct (canonicalPrefix (Sadr.Source e)) as [s|] eqn:Es; [|done].
      destruct (canonicalPrefix_inv _ _ Hs Es) as (_ & Hv & Hm & Hb & _).
      destruct (Is4 (prefix_addr s)) eqn:H4; [done|]. destruct (Is4 (prefix_addr d)) eqn:H4d; [done|]. cbn [orb].
      intros [= <-]. split_and!; [apply Hi; right|done|done|done]. split_and!; try done.
      rewrite Hb. unfold IsValid, Bits in *. bool_props. lia.
  - rewrite Hsv. intros [= <-]. split_and!; [apply Hi; by left|done|done|done].
Qed.

Lemma wanted_spec r k snapshot q : entries_ok snapshot → q ∈ wantedSet r k snapshot →
  installable (table r) q ∧
  (capturesTheMachine q = true → capture r = true ∧ Has (coverage k) (prefix_addr (Destination q)) = true).
Proof.
  intros He. unfold wantedSet. rewrite elem_of_list_to_set, list_elem_of_fmap. intros (q0 & -> & Hq).
  unfold wanted in Hq. rewrite list_elem_of_In, filter_In, <- list_elem_of_In in Hq. destruct Hq as [Hq Hf].
  unfold desired in Hq. rewrite list_elem_of_omap in Hq. destruct Hq as (e & Hin & Hw).
  unfold entries_ok in He. rewrite Forall_forall in He. destruct (He e Hin) as [H1 H2].
  destruct (wantOne_spec _ _ _ _ H1 H2 Hw) as (Hi & _ & Hc & _). split; [done|].
  change (capturesTheMachine (filed scoper q0)) with (capturesTheMachine q0). intros Hcap. rewrite Hcap in Hf. cbn in Hf.
  split; [by apply Hc | done].
Qed.

(** What a pass leaves is wanted, or could not be removed; unless the listing failed,
    it knows whether what it wants takes this machine's own traffic. *)
Lemma applyRoutes_leaves r k snapshot r' k' errs : applyRoutes r k snapshot = (r', k', errs) →
  ∀ q, q ∈ vroutes (look k') →
    (q ∈ wantedSet r k snapshot ∧ capturing r' = existsb capturesTheMachine (wanted r k snapshot)) ∨ (q ∈ vroutes (look k) ∧ unremoved errs q).
Proof.
  unfold applyRoutes. destruct (listRoutes k) as [k0 x] eqn:E. destruct (lists_inv _ _ _ _ _ _ listRoutes_ok E) as [Hk0 Hx].
  destruct x as [e|actual].
  { intros [= <- <- <-] q Hq. right. split; [congruence|]. exists k, e. left. rewrite E. split; [done | by left]. }
  destruct Hx as [_ Hact]. change (desired (set_pass r zeroStats) snapshot) with (desired r snapshot).
  destruct (covered k0 (desired r snapshot)) as [[k1 want] e1] eqn:Ec.
  replace k0 with (listRoutes k).1 in Ec by (by rewrite E). destruct (covered_spec r k snapshot k1 want e1 Ec) as [-> Hk1].
  destruct (diffRoutes (wanted r k snapshot) actual scoper) as [add del] eqn:Ed. destruct (diffRoutes_spec _ _ _ _ _ Ed) as (A1 & _ & _ & D1 & _).
  destruct (deleteRoutes k1 del) as [[k2 removed] e2] eqn:Edel. pose proof (deleteRoutes_left _ _ _ _ _ Edel) as Hleft.
  destruct (deleteRoutes_spec _ _ _ _ _ Edel) as (gone & _ & _ & _ & Hk2). rewrite Hk1 in Hk2.
  destruct (addRoutes k2 add) as [[k3 [added skipped]] e3] eqn:Eadd. destruct (addRoutes_spec _ _ _ _ _ _ Eadd) as (put & Hp & _ & _ & _ & Hk3).
  intros [= <- <- <-] q Hq. destruct (decide (q ∈ wantedSet r k snapshot)) as [Hw|Hw]; [by left|]. right.
  assert (q ∈ vroutes (look k2)) as Hq2.
  { rewrite Hk3 in Hq. cbn in Hq. apply elem_of_union in Hq as [Hq|]; [|done]. exfalso. apply Hw. unfold wantedSet.
    rewrite elem_of_list_to_set, list_elem_of_fmap in Hq |- *. destruct Hq as (q0 & -> & Hq0). exists q0. split; [done|].
    apply A1. by eapply elem_of_sublist. }
  assert (q ∈ vroutes (look k)) as Hqk by (rewrite Hk2 in Hq2; cbn in Hq2; by apply elem_of_difference in Hq2 as [? _]). split; [done|].
  destruct (Hleft q) as [|Hu]; [|done|].
  - apply D1. rewrite <- Hact, elem_of_list_to_set in Hqk. split; [done|]. intros Hin. apply Hw. unfold wantedSet. by rewrite elem_of_list_to_set.
  - eapply unremoved_mono; [|exact Hu]. intros e He. apply elem_of_app. right. apply elem_of_app. by left.
Qed.

(** C24: no pass hands the mesh this machine's own traffic without leave. Whatever a
    pass installs is a route every platform can hold. A route in the kernel after a
    pass that takes half the address space or its family's zero address is there
    with the gate open and the underlay covered for its family; or it was there
    before, and the kernel failed to list its routes or to delete this one, which
    the pass reported. *)
Theorem capture_guarded r k snapshot r' k' errs :
  entries_ok snapshot → applyRoutes r k snapshot = (r', k', errs) →
  (∀ q, q ∈ vroutes (look k') → q ∉ vroutes (look k) → installable (table r) q) ∧
  (∀ q, q ∈ vroutes (look k') → capturesTheMachine q = true →
     (capture r = true ∧ Has (coverage k) (prefix_addr (Destination q)) = true) ∨ (q ∈ vroutes (look k) ∧ unremoved errs q)).
Proof.
  intros He E. split; intros q Hq.
  - intros Hn. destruct (applyRoutes_leaves r k snapshot r' k' errs E q Hq) as [[Hw _]|[? _]]; [|done]. by apply (wanted_spec r k snapshot q He).
  - intros Hc. destruct (applyRoutes_leaves r k snapshot r' k' errs E q Hq) as [[Hw _]|?]; [|by right]. left. by apply (wanted_spec r k snapshot q He).
Qed.

(** ** A kernel that refuses only taken keys *)

Section obliging.
Context {B : Type} (key : Route → B).

(** Reads and deletions work, and an addition is refused only while the kernel
    holds a route under its key. *)
Definition obliging : Prop :=
  (∀ k, ∃ l, (listRoutes k).2 = inr l) ∧ (∀ k q, (DelRoute k q).2 = None) ∧
  (∀ k q, (∀ h, h ∈ vroutes (look k) → key h ≠ key (filed scoper q)) → (AddRoute k q).2 = None) ∧
  (∀ f k, Ready = Some f → (f k).2.2 = None).

Lemma deleteRoutes_all l : obliging → ∀ k, ∃ k', deleteRoutes k l = (k', Z.of_nat (length l), []).
Proof.
  intros (_ & Hd & _). induction l as [|a l IH]; intros k; cbn [deleteRoutes]; [by eexists|].
  specialize (Hd k a). destruct (DelRoute k a) as [k1 o]. cbn in Hd. subst o. destruct (IH k1) as [k' ->]. exists k'.
  do 3 f_equal. cbn [length]. lia.
Qed.

Lemma addRoutes_all l W : obliging → (∀ p q, p ∈ W → q ∈ W → key p = key q → p = q) → NoDup (map (filed scoper) l) →
  ∀ k, (∀ q, q ∈ l → filed scoper q ∈ W ∧ filed scoper q ∉ vroutes (look k)) → vroutes (look k) ⊆ W →
  ∃ k', addRoutes k l = (k', (Z.of_nat (length l), 0), []).
Proof.
  intros (_ & _ & Ha & _) HW. induction l as [|a l IH]; intros Hnd k Hl Hv; cbn [addRoutes]; [by eexists|].
  cbn in Hnd. apply NoDup_cons in Hnd as [Hna Hnd]. destruct (Hl a ltac:(by left)) as [HaW Han].
  destruct (AddRoute k a) as [k1 o] eqn:E. pose proof (writes_inv _ _ _ _ _ _ _ AddRoute_ok E) as Hk.
  assert (o = None) as ->.
  { specialize (Ha k a). rewrite E in Ha. apply Ha. intros h Hh Hkey. apply Han. rewrite <- (HW h (filed scoper a)); auto. }
  destruct (IH Hnd k1) as [k' ->].
  - intros q Hq. destruct (Hl q ltac:(by right)) as [HqW Hqn]. split; [done|]. rewrite Hk. cbn.
    intros [Heq|Hin]%elem_of_union; [|done]. apply elem_of_singleton in Heq. apply Hna. rewrite <- Heq. by apply list_elem_of_fmap_2.
  - rewrite Hk. cbn. intros x [->%elem_of_singleton|Hx]%elem_of_union; auto.
  - exists k'. do 4 f_equal. cbn [length]. lia.
Qed.

End obliging.
End routes.
