(* ===== verification/KernelOwn.v ===== *)
(** * Whose things the reconciler touches

    Over a whole life of passes and withdrawals, with anything else happening to
    the kernel in between: a pass takes nothing away from the link but what a kernel
    drops when the link joins its VRF, a withdrawal takes only what this reconciler
    brought, and without interference the two undo each other. *)

From S2P Require Import Prelude Netip Sadr KernelConfig Kernel KernelPass.

Section own.
Context `{L : PlatformLaws K}.
Implicit Types (k : K) (r : Reconciler).

(** The addresses of a link, whatever their prefix lengths. *)
Definition addrsOf (s : gset Prefix) : gset Addr := set_map prefix_addr s.

Lemma elem_of_addrsOf a s : a ∈ addrsOf s ↔ ∃ p, a = prefix_addr p ∧ p ∈ s.
Proof. unfold addrsOf. by rewrite elem_of_map. Qed.

Lemma addrsOf_elem p s : p ∈ s → prefix_addr p ∈ addrsOf s.
Proof. intros. apply elem_of_addrsOf. by exists p. Qed.

Lemma elem_of_others p a s : p ∈ others a s ↔ p ∈ s ∧ prefix_addr p ≠ a.
Proof. unfold others. rewrite elem_of_filter. tauto. Qed.

(** ** Addresses *)

Lemma assignAddresses_spec actual todo : ∀ r k r' k' errs,
  assignAddresses actual todo r k = (r', k', errs) → list_to_set actual ⊆ vaddrs (look k) →
  r' = set_owned r (owned r') ∧ look k' = with_addrs (look k) (vaddrs (look k')) ∧
  list_to_set actual ⊆ vaddrs (look k') ∧ addrsOf (vaddrs (look k)) ⊆ addrsOf (vaddrs (look k')) ∧ owned r ⊆ owned r' ∧
  (∀ p, p ∈ vaddrs (look k') → p ∈ vaddrs (look k) ∨ p ∈ owned r') ∧
  (∀ p, p ∈ owned r' → p ∈ owned r ∨ (prefix_addr p ∉ addrsOf (list_to_set actual)) ∧ prefix_addr p ∈ addrsOf (vaddrs (look k'))).
Proof.
  induction todo as [|a todo IH]; intros r k r' k' errs; cbn [assignAddresses].
  { intros [= <- <- <-] Hb. split_and!; try done; [by destruct r|by destruct (look k)|auto|auto]. }
  destruct (bool_decide_reflect (a ∈ actual)); [apply IH|].
  destruct (bool_decide_reflect (prefix_addr a ∈ map prefix_addr actual)) as [|Hn]; [apply IH|].
  destruct (AddAddr k a) as [k1 o] eqn:E. pose proof (writes_inv _ _ _ _ _ _ _ AddAddr_ok E) as Hk. intros Hrun Hb.
  destruct o as [e|].
  - destruct (assignAddresses actual todo r k1) as [[r2 k2] es] eqn:E2. injection Hrun as <- <- <-.
    destruct (IH _ _ _ _ _ E2) as (I1 & I2 & I3 & I4 & I5 & I6 & I7); [by rewrite Hk|]. rewrite Hk in I2, I4, I6.
    by split_and!.
  - assert (prefix_addr a ∉ addrsOf (list_to_set actual)) as Hna.
    { rewrite elem_of_addrsOf. intros (p & Hp & Hin). apply Hn. rewrite Hp. apply list_elem_of_fmap_2. by rewrite elem_of_list_to_set in Hin. }
    destruct (IH _ _ _ _ _ Hrun) as (I1 & I2 & I3 & I4 & I5 & I6 & I7).
    { rewrite Hk. cbn. intros p Hp. apply elem_of_union. right. apply elem_of_others. split; [by apply Hb|].
      intros Heq. apply Hna. rewrite <- Heq. by apply addrsOf_elem. }
    rewrite Hk in I2, I4, I6. cbn in I1, I2, I4, I5, I6, I7. split_and!; try done.
    + intros x (p & -> & Hp)%elem_of_addrsOf. apply I4. destruct (decide (prefix_addr p = prefix_addr a)) as [->|Hne].
      * apply addrsOf_elem. by apply elem_of_union; left; apply elem_of_singleton.
      * apply addrsOf_elem. apply elem_of_union. right. by apply elem_of_others.
    + set_solver.
    + intros p Hp. destruct (I6 p Hp) as [[->%elem_of_singleton|[? _]%elem_of_others]%elem_of_union|?]; [right; set_solver|by left|by right].
    + intros p Hp. destruct (I7 p Hp) as [[->%elem_of_singleton|?]%elem_of_union|?]; [|by left|by right].
      right. split; [done|]. apply I4, addrsOf_elem. apply elem_of_union. left. by apply elem_of_singleton.
Qed.

Lemma applyAddresses_spec r k r' k' errs : applyAddresses r k = (r', k', errs) →
  r' = set_owned r (owned r') ∧ look k' = with_addrs (look k) (vaddrs (look k')) ∧
  vaddrs (look k) ⊆ vaddrs (look k') ∧ owned r ⊆ owned r' ∧
  (∀ p, p ∈ vaddrs (look k') → p ∈ vaddrs (look k) ∨ p ∈ owned r') ∧
  (∀ p, p ∈ owned r' → p ∈ owned r ∨ (prefix_addr p ∉ addrsOf (vaddrs (look k))) ∧ prefix_addr p ∈ addrsOf (vaddrs (look k'))).
Proof.
  assert (∀ r k k', look k' = look k → r = set_owned r (owned r) ∧ look k' = with_addrs (look k) (vaddrs (look k')) ∧
    vaddrs (look k) ⊆ vaddrs (look k') ∧ owned r ⊆ owned r ∧
    (∀ p, p ∈ vaddrs (look k') → p ∈ vaddrs (look k) ∨ p ∈ owned r) ∧
    (∀ p, p ∈ owned r → p ∈ owned r ∨ (prefix_addr p ∉ addrsOf (vaddrs (look k))) ∧ prefix_addr p ∈ addrsOf (vaddrs (look k')))) as Hsame.
  { intros ? ? ? E. rewrite E. split_and!; try done; [by destruct r0|by destruct (look k0)|auto|auto]. }
  unfold applyAddresses. destruct (_ =? 0)%nat; [intros [= <- <- <-]; by apply Hsame|].
  destruct (listAddrs k) as [k1 x] eqn:E. destruct (lists_inv _ _ _ _ _ _ listAddrs_ok E) as [Hk Hx].
  destruct x as [e|actual]; [intros [= <- <- <-]; by apply Hsame|]. destruct Hx as [_ Ha].
  intros Hrun. destruct (assignAddresses_spec _ _ _ _ _ _ _ Hrun) as (I1 & I2 & I3 & _ & I5 & I6 & I7); [by rewrite Ha, Hk|].
  rewrite Ha in I3, I7. rewrite Hk in I2, I6. by split_and!.
Qed.

(** Withdrawal: entries leave only under an owned address, and what cannot be
    removed stays owned. *)
Lemma dropAddresses_spec held l : ∀ r k r' k' errs,
  dropAddresses held r k l = (r', k', errs) →
  r' = set_owned r (owned r') ∧ look k' = with_addrs (look k) (vaddrs (look k')) ∧
  owned r' ⊆ owned r ∧ vaddrs (look k') ⊆ vaddrs (look k) ∧
  (∀ p, p ∈ vaddrs (look k) → p ∉ vaddrs (look k') → ∃ q, q ∈ l ∧ q ∈ held ∧ prefix_addr q = prefix_addr p) ∧
  (errs = [] → (∀ p, p ∈ l → p ∉ owned r') ∧ ∀ p q, q ∈ l → q ∈ held → prefix_addr q = prefix_addr p → p ∉ vaddrs (look k')).
Proof.
  induction l as [|a l IH]; intros r k r' k' errs; cbn [dropAddresses].
  { intros [= <- <- <-]. split_and!; try done; [by destruct r|by destruct (look k)|intros _; split; [set_solver|]].
    intros ? ? H. by apply elem_of_nil in H. }
  destruct (bool_decide_reflect (a ∈ held)) as [Hh|Hh]; cbn [negb].
  - destruct (DelAddr k a) as [k1 o] eqn:E. pose proof (writes_inv _ _ _ _ _ _ _ DelAddr_ok E) as Hk. destruct o as [e|].
    + destruct (dropAddresses held r k1 l) as [[r2 k2] es] eqn:E2. intros [= <- <- <-].
      destruct (IH _ _ _ _ _ E2) as (I1 & I2 & I3 & I4 & I5 & _). rewrite Hk in I2, I4, I5. split_and!; try done.
      intros p Hp Hn. destruct (I5 p Hp Hn) as (q & ? & ? & ?). exists q. split_and!; [by right|done|done].
    + intros Hrun. destruct (IH _ _ _ _ _ Hrun) as (I1 & I2 & I3 & I4 & I5 & I6). rewrite Hk in I2, I4, I5. cbn in *. split_and!; try done.
      * set_solver.
      * intros p Hp. by apply I4, elem_of_others in Hp as [? _].
      * intros p Hp Hn. destruct (decide (prefix_addr p = prefix_addr a)) as [Heq|Hne]; [exists a; split_and!; [by left|done|done]|].
        destruct (I5 p) as (q & ? & ? & ?); [by apply elem_of_others|done|]. exists q. split_and!; [by right|done|done].
      * intros He. destruct (I6 He) as [J1 J2]. split; [intros p [->|Hp]%elem_of_cons; [set_solver|by apply J1]|].
        intros p q [->|Hq]%elem_of_cons Hqh Heq; [|by apply (J2 p q)]. intros Hp. by apply I4, elem_of_others in Hp as [_ ?].
  - intros Hrun. destruct (IH _ _ _ _ _ Hrun) as (I1 & I2 & I3 & I4 & I5 & I6). cbn in *. split_and!; try done.
    + set_solver.
    + intros p Hp Hn. destruct (I5 p Hp Hn) as (q & ? & ? & ?). exists q. split_and!; [by right|done|done].
    + intros He. destruct (I6 He) as [J1 J2]. split; [intros p [->|Hp]%elem_of_cons; [set_solver|by apply J1]|].
      intros p q [->|Hq]%elem_of_cons Hqh Heq; [done|by apply (J2 p q)].
Qed.

(** ** The rules *)

Lemma deleteRules_spec d wanted l : ruler = Some d → ∀ k k' errs, deleteRules d wanted k l = (k', errs) →
  look k' = with_rules (look k) (vrules (look k')) ∧ vrules (look k') ⊆ vrules (look k) ∧
  (∀ q, q ∈ vrules (look k) → q ∉ vrules (look k') → q ∈ l ∧ q ∉ wanted) ∧
  (errs = [] → ∀ q, q ∈ l → q ∉ wanted → q ∉ vrules (look k')).
Proof.
  intros Hd. induction l as [|a l IH]; intros k k' errs; cbn [deleteRules].
  { intros [= <- <-]. split_and!; try done; [by destruct (look k)|]. intros _ q Hq. by apply elem_of_nil in Hq. }
  destruct (bool_decide_reflect (a ∈ wanted)) as [Hw|Hw].
  { intros Hrun. destruct (IH _ _ _ Hrun) as (I1 & I2 & I3 & I4). split_and!; try done.
    - intros q Hq Hn. destruct (I3 q Hq Hn). split; [by right|done].
    - intros He q [->|Hq]%elem_of_cons Hn; [done|by apply I4]. }
  destruct (DelRule d k a) as [k1 o] eqn:E. pose proof (writes_inv _ _ _ _ _ _ _ (DelRule_ok d Hd) E) as Hk. destruct o as [e|].
  - destruct (deleteRules d wanted k1 l) as [k2 es] eqn:E2. intros [= <- <-]. destruct (IH _ _ _ E2) as (I1 & I2 & I3 & _).
    rewrite Hk in I1, I2, I3. split_and!; try done. intros q Hq Hn. destruct (I3 q Hq Hn). split; [by right|done].
  - intros Hrun. destruct (IH _ _ _ Hrun) as (I1 & I2 & I3 & I4). rewrite Hk in I1, I2, I3. cbn in *. split_and!; try done.
    + intros q Hq. apply I2, elem_of_difference in Hq. tauto.
    + intros q Hq Hn. destruct (decide (q = a)) as [->|Hne]; [split; [by left|done]|]. destruct (I3 q) as [? ?]; [|done|split; [by right|done]].
      apply elem_of_difference. split; [done|]. by rewrite elem_of_singleton.
    + intros He q [->|Hq]%elem_of_cons Hn; [|by apply I4]. intros Hin. apply I2, elem_of_difference in Hin as [_ Hin].
      by rewrite elem_of_singleton in Hin.
Qed.

Lemma addRules_spec d held l : ruler = Some d → ∀ k k' errs, addRules d held k l = (k', errs) →
  look k' = with_rules (look k) (vrules (look k')) ∧ vrules (look k) ⊆ vrules (look k') ∧
  (∀ q, q ∈ vrules (look k') → q ∈ vrules (look k) ∨ q ∈ l ∧ q ∉ held) ∧
  (errs = [] → ∀ q, q ∈ l → q ∉ held → q ∈ vrules (look k')).
Proof.
  intros Hd. induction l as [|a l IH]; intros k k' errs; cbn [addRules].
  { intros [= <- <-]. split_and!; try done; [by destruct (look k)|by left|]. intros _ q Hq. by apply elem_of_nil in Hq. }
  destruct (bool_decide_reflect (a ∈ held)) as [Hw|Hw].
  { intros Hrun. destruct (IH _ _ _ Hrun) as (I1 & I2 & I3 & I4). split_and!; try done.
    - intros q Hq. destruct (I3 q Hq) as [|[? ?]]; [by left|]. right. split; [by right|done].
    - intros He q [->|Hq]%elem_of_cons Hn; [done|by apply I4]. }
  destruct (AddRule d k a) as [k1 o] eqn:E. pose proof (writes_inv _ _ _ _ _ _ _ (AddRule_ok d Hd) E) as Hk. destruct o as [e|].
  - destruct (addRules d held k1 l) as [k2 es] eqn:E2. intros [= <- <-]. destruct (IH _ _ _ E2) as (I1 & I2 & I3 & _).
    rewrite Hk in I1, I2, I3. split_and!; try done. intros q Hq. destruct (I3 q Hq) as [|[? ?]]; [by left|]. right. split; [by right|done].
  - intros Hrun. destruct (IH _ _ _ Hrun) as (I1 & I2 & I3 & I4). rewrite Hk in I1, I2, I3. cbn in *. split_and!; try done.
    + set_solver.
    + intros q Hq. destruct (I3 q Hq) as [[->%elem_of_singleton|?]%elem_of_union|[? ?]]; [right; split; [by left|done]|by left|].
      right. split; [by right|done].
    + intros He q [->|Hq]%elem_of_cons Hn; [|by apply I4]. apply I2, elem_of_union. left. by apply elem_of_singleton.
Qed.

Lemma applyRules_spec r k k' errs : applyRules r k = (k', errs) →
  look k' = with_rules (look k) (vrules (look k')) ∧
  vrules (look k') ⊆ vrules (look k) ∪ list_to_set (ruleSet r) ∧
  vrules (look k) ∩ list_to_set (ruleSet r) ⊆ vrules (look k') ∧
  (errs = [] → is_Some ruler → vrules (look k') = list_to_set (ruleSet r)).
Proof.
  assert (∀ v, with_rules v (vrules v) = v) as Hid by (by intros []).
  unfold applyRules. destruct ruler as [d|] eqn:Hd.
  2:{ intros [= <- <-]. split_and!; [by rewrite Hid|set_solver|set_solver|]. by intros _ [? ?]. }
  destruct (listRules d k) as [k1 x] eqn:E. destruct (lists_inv _ _ _ _ _ _ (listRules_ok d Hd) E) as [Hk Hx].
  destruct x as [e|actual]; [intros [= <- <-]; rewrite Hk; split_and!; [by rewrite Hid|set_solver|set_solver|done]|].
  destruct Hx as [_ Ha]. destruct (deleteRules d _ k1 actual) as [k2 e1] eqn:E1. destruct (addRules d _ k2 (ruleSet r)) as [k3 e2] eqn:E2.
  intros [= <- <-]. destruct (deleteRules_spec d _ _ Hd _ _ _ E1) as (D1 & D2 & D3 & D4). destruct (addRules_spec d _ _ Hd _ _ _ E2) as (A1 & A2 & A3 & A4).
  rewrite Hk in D1, D2, D3. rewrite D1 in A1. cbn in A1.
  assert (∀ q, q ∈ actual ↔ q ∈ vrules (look k)) as Hact by (intros q; by rewrite <- Ha, elem_of_list_to_set).
  split_and!; [done| | |].
  - intros q Hq. destruct (A3 q Hq) as [Hq'|[Hq' _]]; [set_solver|]. apply elem_of_union. right. by rewrite elem_of_list_to_set.
  - intros q [Hq Hw]%elem_of_intersection. apply A2. destruct (decide (q ∈ vrules (look k2))); [done|].
    destruct (D3 q Hq) as [_ Hn]; [done|]. done.
  - intros [-> ->]%app_eq_nil _. apply set_eq. intros q. rewrite elem_of_list_to_set. split.
    + intros Hq. destruct (A3 q Hq) as [Hq'|[Hq' _]]; [|done]. destruct (decide (q ∈ ruleSet r)); [done|].
      exfalso. apply (D4 eq_refl q); [by apply Hact, D2|by rewrite elem_of_list_to_set|done].
    + intros Hq. destruct (decide (q ∈ actual)) as [Hin|Hn]; [|apply A4; [done|done|by rewrite elem_of_list_to_set]].
      apply A2. destruct (decide (q ∈ vrules (look k2))); [done|]. destruct (D3 q) as [_ Hw]; [by apply Hact|done|].
      by rewrite elem_of_list_to_set in Hw.
Qed.

(** ** The whole pass *)

(** What the steps before and around the routes leave alone, with what was made. *)
Definition joined r k r' k' : Prop :=
  (vmaster (look k') = vmaster (look k) ∧ enslaved r' = enslaved r) ∨
  (vmaster (look k) = "" ∧ Name (table r) ≠ "" ∧ vmaster (look k') = Name (table r) ∧ enslaved r' = true).

Definition made r k r' k' : Prop :=
  (vvrfs (look k') = vvrfs (look k) ∧ madeVRF r' = madeVRF r) ∨
  ((Name (table r) ∉ vvrfs (look k)) ∧ vvrfs (look k') = {[Name (table r)]} ∪ vvrfs (look k) ∧ madeVRF r' = true ∧ is_Some vrfMaker).

Lemma applyVRF_spec r k r' k' errs : applyVRF r k = (r', k', errs) →
  r' = set_madeVRF r (madeVRF r') ∧ look k' = with_vrfs (look k) (vvrfs (look k')) ∧ made r k r' k'.
Proof.
  assert (∀ k', look k' = look k → r = set_madeVRF r (madeVRF r) ∧ look k' = with_vrfs (look k) (vvrfs (look k')) ∧ made r k r k') as Hsame.
  { intros k1 E. unfold made. rewrite E. split_and!; [by destruct r|by destruct (look k)|by left]. }
  unfold applyVRF. destruct vrfMaker as [v|] eqn:Hv; [|intros [= <- <- <-]; by apply Hsame].
  destruct (_ || _); [intros [= <- <- <-]; by apply Hsame|].
  destruct (EnsureVRF_ok v Hv k (Name (table r)) (ID (table r))) as [Hk Hn].
  destruct (EnsureVRF v k (Name (table r)) (ID (table r))) as [k1 [e|[]]]; cbn in Hk, Hn; intros [= <- <- <-]; try (by apply Hsame).
  split_and!; [by destruct r|by rewrite Hk|]. right. rewrite Hk. split_and!; [by apply Hn|done|done|by eexists].
Qed.

Lemma applyMaster_spec r k r' k' errs : applyMaster r k = (r', k', errs) →
  r' = set_enslaved r (enslaved r') ∧ moves (look k) (vmaster (look k')) (look k') ∧ joined r k r' k'.
Proof.
  assert (∀ k', look k' = look k → r = set_enslaved r (enslaved r) ∧ moves (look k) (vmaster (look k')) (look k') ∧ joined r k r k') as Hsame.
  { intros k1 E. unfold joined. rewrite E. split_and!; [by destruct r|by repeat split|by left]. }
  unfold applyMaster. destruct (bool_decide_reflect (Name (table r) = "")); [intros [= <- <- <-]; by apply Hsame|].
  pose proof (getMaster_ok k) as [Hk Hm]. destruct (getMaster k) as [k1 [e|m]]; cbn in Hk, Hm; [intros [= <- <- <-]; by apply Hsame|].
  destruct (bool_decide (m = Name (table r))); [intros [= <- <- <-]; by apply Hsame|].
  destruct (bool_decide_reflect (m = "")) as [->|]; [|intros [= <- <- <-]; by apply Hsame].
  destruct (Enslave k1 (Name (table r))) as [k2 o] eqn:E. pose proof (changes_inv _ _ _ _ _ _ _ Enslave_ok E) as Hk2. rewrite Hk in Hk2.
  destruct o; intros [= <- <- <-]; [by apply Hsame|]. pose proof Hk2 as [Hm2 _]. rewrite Hm2. split_and!; [by destruct r|done|]. right. by split_and!.
Qed.

(** The kernel of a pass once the VRF is there and the link has joined it. *)
Definition settled r k now live : K := let '(ra, ka, _) := applyVRF (sampleCapture r now live) k in (applyMaster ra ka).1.2.

(** Everything a pass may do, step by step. *)
Lemma reconcile_spec r k now live snapshot r' k' errs : reconcile r k now live snapshot = (r', k', errs) →
  let km := settled r k now live in
  (table r' = table r ∧ ruleSet r' = ruleSet r ∧ addresses r' = addresses r ∧ hasSessions r' = hasSessions r) ∧
  (vaddrs (look km) ⊆ vaddrs (look k) ∧ (vmaster (look k') = vmaster (look k) → vaddrs (look km) = vaddrs (look k)) ∧
   vaddrs (look km) ⊆ vaddrs (look k') ∧ owned r ⊆ owned r' ∧
   (∀ p, p ∈ vaddrs (look k') → p ∈ vaddrs (look km) ∨ p ∈ owned r') ∧
   (∀ p, p ∈ owned r' → p ∈ owned r ∨ (prefix_addr p ∉ addrsOf (vaddrs (look km))) ∧ prefix_addr p ∈ addrsOf (vaddrs (look k')))) ∧
  joined r k r' k' ∧ made r k r' k' ∧
  ∃ r1 k1 r2 k2 e4, applyRoutes r1 k1 snapshot = (r2, k2, e4) ∧ vroutes (look k1) ⊆ vroutes (look k) ∧ vroutes (look k') = vroutes (look k2) ∧
    table r1 = table r ∧ gate r1 = gate (sampleCapture r now live) ∧ capture r1 = capture (sampleCapture r now live) ∧
    gate r' = gate r1 ∧ capturing r' = capturing r2 ∧ routePass r' = routePass r2 ∧ (∀ e, e ∈ e4 → e ∈ errs).
Proof.
  unfold reconcile, settled. destruct (applyVRF (sampleCapture r now live) k) as [[ra ka] e1] eqn:E1.
  destruct (applyMaster ra ka) as [[rb kb] e2] eqn:E2. cbn [fst snd]. destruct (applyAddresses rb kb) as [[rc kc] e3] eqn:E3.
  destruct (applyRoutes rc kc snapshot) as [[rd kd] e4] eqn:E4. destruct (applyRules rd kd) as [ke e5] eqn:E5.
  intros [= <- <- <-].
  destruct (applyVRF_spec _ _ _ _ _ E1) as (V1 & V2 & V3). destruct (applyMaster_spec _ _ _ _ _ E2) as (M1 & (_ & N1 & N2 & N3 & N4 & N5) & M3).
  destruct (applyAddresses_spec _ _ _ _ _ E3) as (A1 & A2 & A3 & A4 & A5 & A6).
  destruct (applyRoutes_settles _ _ _ _ _ _ E4) as (R1 & _). destruct (applyRules_spec _ _ _ _ E5) as (U1 & _).
  assert (rd = set_pass (set_capturing rc (capturing rd)) (routePass rd)) as R0.
  { clear -E4. unfold applyRoutes in E4. destruct (listRoutes kc) as [? [|]]; [injection E4 as <- <- <-; by destruct rc|].
    destruct (covered _ _) as [[? ?] ?]. destruct (diffRoutes _ _ _). destruct (deleteRoutes _ _) as [[? ?] ?].
    destruct (addRoutes _ _) as [[? [? ?]] ?]. injection E4 as <- <- <-. by destruct rc. }
  set (r0 := sampleCapture r now live) in *.
  assert (table r0 = table r ∧ ruleSet r0 = ruleSet r ∧ addresses r0 = addresses r ∧ hasSessions r0 = hasSessions r ∧
    owned r0 = owned r ∧ enslaved r0 = enslaved r ∧ madeVRF r0 = madeVRF r) as (T1 & T2 & T3 & T4 & T5 & T6 & T7)
    by (unfold r0, sampleCapture; destruct (negb _); done).
  assert (vaddrs (look ka) = vaddrs (look k)) as Hab by (by rewrite V2).
  assert (vaddrs (look ke) = vaddrs (look kc)) as Hae by (by rewrite U1, R1).
  assert (vmaster (look ke) = vmaster (look kb)) as Hme by (by rewrite U1, R1, A2).
  assert (vvrfs (look ke) = vvrfs (look ka)) as Hve by (rewrite U1, R1, A2; cbn; done).
  assert (vmaster (look ka) = vmaster (look k)) as Hma by (by rewrite V2).
  split_and!.
  - rewrite R0, A1, M1, V1. cbn. done.
  - rewrite R0, A1, M1, V1. cbn. done.
  - rewrite R0, A1, M1, V1. cbn. done.
  - rewrite R0, A1, M1, V1. cbn. done.
  - by rewrite <- Hab.
  - rewrite Hme, <- Hma, <- Hab. intros Hm. rewrite N5 by done. done.
  - by rewrite Hae.
  - rewrite R0. cbn. rewrite M1, V1 in A4. cbn in A4. by rewrite <- T5.
  - rewrite R0. cbn. intros p. rewrite Hae. apply A5.
  - rewrite R0. cbn. intros p Hp. rewrite Hae. destruct (A6 p Hp) as [H|H]; [left|by right].
    rewrite M1, V1 in H. cbn in H. by rewrite <- T5.
  - unfold joined in *. rewrite Hme. assert (enslaved rd = enslaved rb) as -> by (rewrite R0, A1; done).
    assert (table ra = table r ∧ enslaved ra = enslaved r) as [Ht He] by (rewrite V1; cbn; by rewrite T1, T6).
    by rewrite Hma, Ht, He in M3.
  - unfold made in *. rewrite Hve. assert (madeVRF rd = madeVRF ra) as -> by (rewrite R0, A1, M1; done).
    by rewrite T1, T7 in V3.
  - exists rc, kc, rd, kd, e4. split_and!; try done; [|by rewrite U1|..].
    + rewrite A2. cbn. etrans; [exact N2|]. by rewrite V2.
    + rewrite A1, M1, V1. cbn. done.
    + rewrite A1, M1, V1. done.
    + rewrite A1, M1, V1. done.
    + rewrite R0. done.
    + intros e He. rewrite !elem_of_app. auto.
Qed.

(** ** Withdrawal *)

Lemma withdrawRoutes_spec k k' errs : withdrawRoutes k = (k', errs) →
  look k' = with_routes (look k) (vroutes (look k')) ∧ vroutes (look k') ⊆ vroutes (look k) ∧ (errs = [] → vroutes (look k') = ∅).
Proof.
  unfold withdrawRoutes. destruct (listRoutes k) as [k0 x] eqn:E. destruct (lists_inv _ _ _ _ _ _ listRoutes_ok E) as [Hk Hx].
  destruct x as [e|l]; [intros [= <- <-]; rewrite Hk; split_and!; [by rewrite view_routes_id|done|done]|].
  destruct Hx as [Hnd Hl]. destruct (deleteRoutes k0 l) as [[k1 n] es] eqn:Ed. intros [= <- <-].
  destruct (deleteRoutes_spec _ _ _ _ _ Ed) as (gone & Hs & _ & Hlen & Hv). rewrite Hv, Hk. cbn. split_and!; [done|set_solver|].
  intros ->. rewrite (sublist_full gone l) by (done || (cbn in Hlen; lia)). rewrite Hl. set_solver.
Qed.

Lemma withdrawAddresses_spec r k r' k' errs : withdrawAddresses r k = (r', k', errs) →
  r' = set_owned r (owned r') ∧ look k' = with_addrs (look k) (vaddrs (look k')) ∧ owned r' ⊆ owned r ∧
  vaddrs (look k') ⊆ vaddrs (look k) ∧ (∀ p, p ∈ vaddrs (look k) → p ∉ vaddrs (look k') → p ∈ owned r) ∧
  (errs = [] → ∀ p, p ∈ vaddrs (look k') → p ∉ owned r).
Proof.
  unfold withdrawAddresses. destruct (listAddrs k) as [k0 x] eqn:E. destruct (lists_inv _ _ _ _ _ _ listAddrs_ok E) as [Hk Hx].
  destruct x as [e|held]; [intros [= <- <- <-]; rewrite Hk; split_and!; try done; [by destruct r|by destruct (look k)]|].
  destruct Hx as [_ Hl]. intros Hrun. destruct (dropAddresses_spec _ _ _ _ _ _ _ Hrun) as (D1 & D2 & D3 & D4 & D5 & D6). rewrite Hk in D2, D4, D5.
  assert (∀ q, q ∈ held ↔ q ∈ vaddrs (look k)) as Hh by (intros q; by rewrite <- Hl, elem_of_list_to_set).
  split_and!; try done.
  - intros p Hp Hn. destruct (D5 p Hp Hn) as (q & Hq & Hqh & Heq).
    rewrite (addrs_keyed k p q) by (done || by apply Hh). by rewrite SortFunc_perm, elem_of_elements in Hq.
  - intros He p Hp Ho. destruct (D6 He) as [_ D]. apply (D p p); [by rewrite SortFunc_perm, elem_of_elements|by apply Hh, D4|done|done].
Qed.

Lemma withdrawMaster_spec r k r' k' errs : withdrawMaster r k = (r', k', errs) →
  r' = set_enslaved r (enslaved r') ∧ moves (look k) (vmaster (look k')) (look k') ∧
  ((vmaster (look k') = vmaster (look k) ∧ enslaved r' = enslaved r) ∨ (vmaster (look k') = "" ∧ enslaved r = true ∧ enslaved r' = false)) ∧
  (errs = [] → enslaved r' = false).
Proof.
  assert (∀ v, moves v (vmaster v) v) as Hid by (by repeat split).
  unfold withdrawMaster. destruct (enslaved r) eqn:He; cbn [negb].
  - destruct (Release k) as [k0 o] eqn:E. pose proof (changes_inv _ _ _ k tt k0 o Release_ok E) as Hk. destruct o as [e|]; intros [= <- <- <-].
    + rewrite Hk. split_and!; [by destruct r|done|by left|done].
    + pose proof Hk as [Hm _]. rewrite Hm. split_and!; [done|done|by right|done].
  - intros [= <- <- <-]. split_and!; [by destruct r|done|by left|done].
Qed.

Lemma withdrawRules_spec k k' errs : withdrawRules k = (k', errs) →
  look k' = with_rules (look k) (vrules (look k')) ∧ vrules (look k') ⊆ vrules (look k) ∧
  (errs = [] → (is_Some ruler → vrules (look k') = ∅) ∧ (ruler = None → vrules (look k') = vrules (look k))).
Proof.
  unfold withdrawRules. destruct ruler as [d|] eqn:Hd; [|intros [= <- <-]; split_and!; [by destruct (look k)|done|intros _; by split; [intros [? ?]|]]].
  destruct (listRules d k) as [k0 x] eqn:E. destruct (lists_inv _ _ _ _ _ _ (listRules_ok d Hd) E) as [Hk Hx].
  destruct x as [e|l]; [intros [= <- <-]; rewrite Hk; split_and!; [by destruct (look k)|done|done]|].
  destruct Hx as [_ Hl]. intros Hrun. destruct (deleteRules_spec d _ _ Hd _ _ _ Hrun) as (D1 & D2 & D3 & D4). rewrite Hk in D1, D2. split_and!; try done.
  intros He. split; [intros _|done]. apply elem_of_equiv_empty_L. intros q Hq. apply (D4 He q); [|set_solver|done].
  apply D2 in Hq. rewrite <- Hl in Hq. by rewrite elem_of_list_to_set in Hq.
Qed.

Lemma withdrawVRF_spec r k r' k' errs : withdrawVRF r k = (r', k', errs) →
  r' = set_madeVRF r (madeVRF r') ∧
  ((look k' = look k ∧ madeVRF r' = madeVRF r) ∨ (drops (look k) (Name (table r)) (look k') ∧ madeVRF r = true ∧ madeVRF r' = false)) ∧
  (errs = [] → is_Some vrfMaker → madeVRF r' = false).
Proof.
  unfold withdrawVRF. destruct (madeVRF r) eqn:Hm; cbn [negb].
  - destruct vrfMaker as [v|] eqn:Hv.
    2:{ intros [= <- <- <-]. split_and!; [by destruct r|by left|by intros _ [? ?]]. }
    destruct (RemoveVRF v k (Name (table r))) as [k0 o] eqn:E. pose proof (changes_inv _ _ _ _ _ _ _ (RemoveVRF_ok v Hv) E) as Hk.
    destruct o; intros [= <- <- <-]; (split_and!; [by destruct r|(by left) || (by right)|done]).
  - intros [= <- <- <-]. split_and!; [by destruct r|by left|done].
Qed.

(** The master after a withdrawal: [released] says that it let go of it. *)
Definition left_in r k (released : bool) (m : string) : Prop :=
  let m0 := if released then "" else vmaster (look k) in m = m0 ∨ (m0 = Name (table r) ∧ madeVRF r = true ∧ m = "").

Lemma withdraw_spec r k r' k' errs : withdraw r k = (r', k', errs) →
  (table r' = table r ∧ owned r' ⊆ owned r) ∧
  (vaddrs (look k') ⊆ vaddrs (look k) ∧
   (vmaster (look k') = vmaster (look k) → ∀ p, p ∈ vaddrs (look k) → p ∉ vaddrs (look k') → p ∈ owned r)) ∧
  (∃ released, left_in r k released (vmaster (look k')) ∧
    if released then enslaved r = true ∧ enslaved r' = false else enslaved r' = enslaved r) ∧
  ((vvrfs (look k') = vvrfs (look k) ∧ madeVRF r' = madeVRF r) ∨
   (vvrfs (look k') = vvrfs (look k) ∖ {[Name (table r)]} ∧ madeVRF r = true ∧ madeVRF r' = false)) ∧
  vroutes (look k') ⊆ vroutes (look k) ∧ vrules (look k') ⊆ vrules (look k) ∧
  (errs = [] → vroutes (look k') = ∅ ∧ (is_Some ruler → vrules (look k') = ∅) ∧ (ruler = None → vrules (look k') = vrules (look k)) ∧
     (∀ p, p ∈ vaddrs (look k') → p ∉ owned r) ∧ enslaved r' = false ∧ (is_Some vrfMaker → madeVRF r' = false)).
Proof.
  unfold withdraw. destruct (withdrawRoutes k) as [k1 e1] eqn:E1. destruct (withdrawAddresses r k1) as [[r2 k2] e2] eqn:E2.
  destruct (withdrawMaster r2 k2) as [[r3 k3] e3] eqn:E3. destruct (withdrawRules k3) as [k4 e4] eqn:E4.
  destruct (withdrawVRF r3 k4) as [[r5 k5] e5] eqn:E5. intros [= <- <- <-].
  destruct (withdrawRoutes_spec _ _ _ E1) as (R1 & R2 & R3).
  destruct (withdrawAddresses_spec _ _ _ _ _ E2) as (A1 & A2 & A3 & A4 & A5 & A6).
  destruct (withdrawMaster_spec _ _ _ _ _ E3) as (M1 & (_ & N1 & N2 & N3 & N4 & N5) & M3 & M4).
  destruct (withdrawRules_spec _ _ _ E4) as (U1 & U2 & U3).
  destruct (withdrawVRF_spec _ _ _ _ _ E5) as (F1 & F3 & F4).
  assert (vaddrs (look k1) = vaddrs (look k)) as Ha1 by (by rewrite R1).
  assert (vmaster (look k2) = vmaster (look k)) as Hm2 by (by rewrite A2, R1).
  assert (vroutes (look k2) = vroutes (look k1)) as Hr2 by (by rewrite A2).
  assert (vrules (look k3) = vrules (look k)) as Hu3 by (by rewrite N3, A2, R1).
  assert (vvrfs (look k4) = vvrfs (look k)) as Hv4 by (rewrite U1; cbn; by rewrite N4, A2, R1).
  assert (vaddrs (look k4) = vaddrs (look k3) ∧ vmaster (look k4) = vmaster (look k3) ∧ vroutes (look k4) = vroutes (look k3)) as (Ha4 & Hm4 & Hr4)
    by (by rewrite U1).
  assert (table r3 = table r ∧ enslaved r2 = enslaved r ∧ madeVRF r3 = madeVRF r ∧ owned r3 = owned r2) as (Ht & He & Hd & Ho)
    by (rewrite M1, A1; done).
  assert (table r5 = table r ∧ owned r5 = owned r2 ∧ enslaved r5 = enslaved r3) as (Ht5 & Ho5 & He5) by (rewrite F1; cbn; rewrite Ho; done).
  (* what the last step does to what the others left *)
  assert (vaddrs (look k5) ⊆ vaddrs (look k4) ∧ vroutes (look k5) ⊆ vroutes (look k4) ∧ vrules (look k5) = vrules (look k4) ∧
    (vmaster (look k5) = vmaster (look k4) → vaddrs (look k5) = vaddrs (look k4)) ∧
    (vmaster (look k5) = vmaster (look k4) ∨ vmaster (look k4) = Name (table r) ∧ madeVRF r = true ∧ vmaster (look k5) = "")) as (D1 & D2 & D3 & D4 & D5).
  { destruct F3 as [[-> _]|[(_ & G2 & G3 & G4 & G5 & G6) [Hmv _]]]; [split_and!; auto|]. split_and!; try done.
    rewrite G2, Ht. rewrite Hd in Hmv. destruct (decide (vmaster (look k4) = Name (table r))); auto. }
  rewrite Hm2, He in M3. rewrite Ha1 in A4, A5. rewrite Hr2 in N2. rewrite Hu3 in U2, U3. rewrite Ht5, Ho5, He5, D3.
  split_and!; try done.
  - etrans; [exact D1|]. rewrite Ha4. by etrans.
  - intros Hm p Hp Hn. apply A5; [done|]. intros Hp2. apply Hn.
    assert (vmaster (look k3) = vmaster (look k) ∧ vmaster (look k5) = vmaster (look k4)) as [E3' E5'].
    { rewrite Hm4 in D5 |- *. destruct M3 as [[M3 _]|(M3 & _ & _)]; destruct D5 as [D5|(D5 & _ & D6)]; try (split; congruence). }
    rewrite (D4 E5'), Ha4, N5 by (by rewrite Hm2). done.
  - unfold left_in. rewrite Hm4 in D5. destruct M3 as [[M3 M3']|(M3 & M3' & M3'')]; [exists false | exists true]; rewrite M3 in D5; (split; [|done]); exact D5.
  - destruct F3 as [[-> F3]|[[-> _] [F3 F3']]]; [left | right]; rewrite Hv4; (split; [|congruence]) || (split_and!; [by rewrite Ht | congruence | done]); done.
  - etrans; [exact D2|]. rewrite Hr4. etrans; [exact N2 | done].
  - intros H. repeat (apply app_eq_nil in H as [-> H]). subst e5. destruct (U3 eq_refl) as [U4 U5]. split_and!; auto.
    + apply elem_of_equiv_empty_L. intros q Hq. apply D2 in Hq. rewrite Hr4 in Hq. apply N2 in Hq. by rewrite (R3 eq_refl) in Hq.
    + intros p Hp. apply A6; [done|]. apply D1 in Hp. rewrite Ha4 in Hp. by apply N1.
Qed.

(** ** Lives *)

(** A reconciler that has installed nothing yet. *)
Definition fresh r : Prop := owned r = ∅ ∧ enslaved r = false ∧ madeVRF r = false.

(** A life: passes, withdrawals and anything else happening to the kernel. Kept on
    the side: the addresses the passes brought to the link, which it did not have
    once it was in its VRF, and whether a pass set its master or made the VRF. *)
Inductive life : Reconciler → K → gset Addr → bool → bool → Prop :=
| life_new r k : fresh r → life r k ∅ false false
| life_pass r k o m v now live snapshot r' k' errs :
    life r k o m v → reconcile r k now live snapshot = (r', k', errs) →
    life r' k' (o ∪ addrsOf (vaddrs (look k')) ∖ addrsOf (vaddrs (look (settled r k now live))))
      (m || bool_decide (vmaster (look k') ≠ vmaster (look k))) (v || bool_decide (vvrfs (look k') ≠ vvrfs (look k)))
| life_withdraw r k o m v r' k' errs :
    life r k o m v → withdraw r k = (r', k', errs) → life r' k' o m v
| life_other r k o m v k' : life r k o m v → life r k' o m v.

Lemma life_owns r k o m v : life r k o m v →
  (∀ p, p ∈ owned r → prefix_addr p ∈ o) ∧ (enslaved r = true → m = true) ∧ (madeVRF r = true → v = true).
Proof.
  induction 1 as [r k (Ho & He & Hm)|r k o m v now live snapshot r' k' errs _ (I1 & I2 & I3) E|r k o m v r' k' errs _ (I1 & I2 & I3) E|]; [..|done].
  - rewrite Ho, He, Hm. set_solver.
  - destruct (reconcile_spec _ _ _ _ _ _ _ _ E) as (_ & (_ & _ & _ & _ & _ & A) & J & M & _). split_and!.
    + intros p Hp. destruct (A p Hp) as [H|[H1 H2]]; [apply elem_of_union; left; by apply I1|].
      apply elem_of_union. right. by apply elem_of_difference.
    + intros He. apply orb_true_iff. destruct J as [[_ J]|(J1 & J2 & J3 & _)]; [left; apply I2; congruence|].
      right. apply bool_decide_eq_true_2. congruence.
    + intros He. apply orb_true_iff. destruct M as [[_ M]|(M1 & M2 & _)]; [left; apply I3; congruence|].
      right. apply bool_decide_eq_true_2. set_solver.
  - destruct (withdraw_spec _ _ _ _ _ E) as ((_ & Ho) & _ & (b & _ & J) & M & _). split_and!.
    + intros p Hp. by apply I1, Ho.
    + intros He. apply I2. destruct b; [by destruct J | congruence].
    + intros He. apply I3. destruct M as [[_ M]|(_ & _ & M)]; congruence.
Qed.

(** C15: the reconciler takes away only what is its own. At any point of its life,
    with anything else having happened to the kernel, a pass gives the link a master
    only when it has none, removes no device, and removes no address unless it gives
    the link a master, when the kernel may drop what the link had; what the link has
    once it is in its VRF a pass leaves. A withdrawal changes the master only when a
    pass had set it or made the VRF, removes the configured VRF only when a pass had
    made it, and, as long as the link stays where it is, removes only addresses that
    a pass of this reconciler brought to it. *)
Theorem only_own_removed r k o m v : life r k o m v →
  (∀ now live snapshot r' k' errs, reconcile r k now live snapshot = (r', k', errs) →
     (vmaster (look k') = vmaster (look k) → vaddrs (look k) ⊆ vaddrs (look k')) ∧
     vaddrs (look (settled r k now live)) ⊆ vaddrs (look k') ∧ vvrfs (look k) ⊆ vvrfs (look k') ∧
     (vmaster (look k') ≠ vmaster (look k) → vmaster (look k) = "")) ∧
  (∀ r' k' errs, withdraw r k = (r', k', errs) →
     (vmaster (look k') = vmaster (look k) → ∀ p, p ∈ vaddrs (look k) → p ∉ vaddrs (look k') → prefix_addr p ∈ o) ∧
     (vmaster (look k') ≠ vmaster (look k) → m = true ∨ v = true) ∧
     (vvrfs (look k) ⊆ {[Name (table r)]} ∪ vvrfs (look k') ∧ (vvrfs (look k') ≠ vvrfs (look k) → v = true))).
Proof.
  intros Hl. destruct (life_owns r k o m v Hl) as (I1 & I2 & I3). split.
  - intros now live snapshot r' k' errs E. destruct (reconcile_spec _ _ _ _ _ _ _ _ E) as (_ & (_ & A1 & A2 & _) & J & M & _).
    split_and!; [|done| |].
    + intros Hm. by rewrite <- (A1 Hm).
    + destruct M as [[-> _]|(_ & -> & _)]; set_solver.
    + intros Hne. by destruct J as [[? _]|[? _]].
  - intros r' k' errs E. destruct (withdraw_spec _ _ _ _ _ E) as (_ & (_ & A) & (b & J & J') & M & _). split_and!.
    + intros Hm p Hp Hn. by apply I1, A.
    + intros Hne. destruct J as [J|(_ & J & _)]; [|auto]. destruct b; [|done]. destruct J'. auto.
    + destruct M as [[-> _]|(-> & _)]; [set_solver|]. intros x Hx. destruct (decide (x = Name (table r))); set_solver.
    + intros Hne. apply I3. by destruct M as [[? _]|(_ & ? & _)].
Qed.

(** Passes with nothing else happening to the kernel. *)
Inductive passes : Reconciler → K → Reconciler → K → Prop :=
| passes_nil r k : passes r k r k
| passes_snoc r0 k0 r k now live snapshot r' k' errs :
    passes r0 k0 r k → reconcile r k now live snapshot = (r', k', errs) → passes r0 k0 r' k'.

Lemma passes_undoable r0 k0 r k : fresh r0 → passes r0 k0 r k →
  table r = table r0 ∧ (∀ p, p ∈ vaddrs (look k) → p ∈ vaddrs (look k0) ∨ p ∈ owned r) ∧
  (enslaved r = false → vaddrs (look k0) ⊆ vaddrs (look k) ∧ ∀ p, p ∈ owned r → prefix_addr p ∉ addrsOf (vaddrs (look k0))) ∧
  (if enslaved r then vmaster (look k0) = "" else vmaster (look k) = vmaster (look k0)) ∧
  (if madeVRF r then (Name (table r0) ∉ vvrfs (look k0)) ∧ vvrfs (look k) = {[Name (table r0)]} ∪ vvrfs (look k0) ∧ is_Some vrfMaker
   else vvrfs (look k) = vvrfs (look k0)).
Proof.
  intros Hf. induction 1 as [r k|r0 k0 r k now live snapshot r' k' errs Hp IH E].
  { destruct Hf as (-> & -> & ->). split_and!; auto; set_solver. }
  destruct (IH Hf) as (I0 & I2 & I13 & I4 & I5).
  destruct (reconcile_spec _ _ _ _ _ _ _ _ E) as ((T & _) & (A0 & A1 & A2 & A3 & A4 & A5) & J & M & _).
  unfold made in M; rewrite I0 in M. set (km := settled r k now live) in *. split; [congruence|]. split; [|split; [|split]].
  - intros p Hin. destruct (A4 p Hin) as [Hin'|?]; [|by right]. destruct (I2 p (A0 p Hin')); [by left|right; by apply A3].
  - intros He. destruct J as [[J1 J2]|(_ & _ & _ & J)]; [|congruence]. rewrite J2 in He. destruct (I13 He) as [I1 I3].
    rewrite (A1 J1) in A2, A5. split; [by etrans|].
    intros p Hin. destruct (A5 p Hin) as [Hin'|[Hn _]]; [by apply I3|]. intros Ha. apply Hn. apply elem_of_addrsOf in Ha as (q & -> & Hq).
    apply addrsOf_elem, I1, Hq.
  - destruct J as [[J1 ->]|(J1 & _ & _ & ->)]; destruct (enslaved r); congruence.
  - destruct M as [[M1 ->]|(M1 & M2 & -> & M3)]; destruct (madeVRF r); try (by rewrite M1).
    + destruct I5 as (I5 & I6 & _). exfalso. rewrite I6 in M1. set_solver.
    + rewrite M2. by rewrite <- I5.
Qed.

(** C25: stopping undoes starting. After any passes of a reconciler that began with
    nothing of its own, a withdrawal that reports no error leaves the link's master
    and the VRF devices exactly as they were before the first pass, no route of its
    protocol, no rule where the platform has rules, and no address the link did not
    have before. Where no pass put the link into a VRF, its addresses are exactly
    those it had; otherwise they are those the kernel kept. *)
Theorem withdraw_restores r0 k0 r k r' k' :
  fresh r0 → passes r0 k0 r k → withdraw r k = (r', k', []) →
  vaddrs (look k') ⊆ vaddrs (look k0) ∧ (enslaved r = false → vaddrs (look k') = vaddrs (look k0)) ∧
  vmaster (look k') = vmaster (look k0) ∧ vvrfs (look k') = vvrfs (look k0) ∧
  vroutes (look k') = ∅ ∧ (is_Some ruler → vrules (look k') = ∅) ∧ enslaved r' = false ∧ madeVRF r' = false.
Proof.
  intros Hf Hp E. destruct (passes_undoable r0 k0 r k Hf Hp) as (I0 & I2 & I13 & I4 & I5).
  destruct (withdraw_spec _ _ _ _ _ E) as (_ & (A1 & A2) & (b & J & J') & M & _ & _ & C).
  destruct (C eq_refl) as (C1 & C2 & _ & C4 & C5 & C6).
  assert (madeVRF r' = false) as C7.
  { destruct M as [[_ M]|(_ & _ & M)]; [|done]. rewrite M in *. destruct (madeVRF r); [|done]. destruct I5 as (_ & _ & I5). by apply C6. }
  assert (vmaster (look k') = vmaster (look k0)) as Hm.
  { assert ((if b then "" else vmaster (look k)) = vmaster (look k0)) as Hb.
    { destruct b; [destruct J' as [J' _] | rewrite J' in C5]; rewrite ?J', ?C5 in I4; congruence. }
    destruct J as [J|(J1 & J2 & J3)]; [by rewrite J|]. rewrite J2 in I5. destruct I5 as (I5 & _). rewrite Hb in J1.
    destruct (master_there k0) as [Hx|Hx]; [congruence|]. exfalso. apply I5. rewrite <- I0, <- J1. done. }
  split_and!; try done.
  - intros p Hp'. destruct (I2 p (A1 p Hp')); [done|]. exfalso. by apply (C4 p Hp').
  - intros He. destruct (I13 He) as [I1 I3]. rewrite He in I4. apply set_eq. intros p. split.
    + intros Hp'. destruct (I2 p (A1 p Hp')); [done|]. exfalso. by apply (C4 p Hp').
    + intros Hp0. destruct (decide (p ∈ vaddrs (look k'))); [done|]. exfalso. apply (I3 p); [|by apply addrsOf_elem].
      apply A2; [congruence | by apply I1 | done].
  - destruct M as [[M1 M2]|(M1 & M2 & _)].
    + rewrite M2 in C7. by rewrite C7, <- M1 in I5.
    + rewrite M2 in I5. destruct I5 as (I5 & I6 & _). rewrite M1, I6, I0. set_solver.
Qed.
End own.
