(* ===== verification/KernelRun.v ===== *)
(** * The gate and the loop over time

    When the gate is open, what the loop's timers promise, and a kernel in memory
    that keeps the interface's promises, at which the theorems about the reconciler
    are applied. *)

From S2P Require Import Prelude Netip Sadr KernelConfig Kernel KernelPass KernelOwn.

(** ** The gate *)

Definition sampleAll (g : captureGate) (hist : list (Z * Z)) : captureGate := foldl (λ g s, sample g s.1 s.2) g hist.

(** What the gate remembers of its samples. *)
Definition remembers (g : captureGate) (hist : list (Z * Z)) : Prop :=
  if seen g then (∃ n, (liveAt g, n) ∈ hist ∧ 0 < n) ∧ ∀ t n, (t, n) ∈ hist → 0 < n → t ≤ liveAt g
  else ∀ t n, (t, n) ∈ hist → n ≤ 0.

Lemma sampleAll_snoc g hist s : sampleAll g (hist ++ [s]) = sample (sampleAll g hist) s.1 s.2.
Proof. unfold sampleAll. by rewrite foldl_app. Qed.

Lemma gate_history grace_ hist :
  StronglySorted Z.le hist.*1 →
  grace (sampleAll (newGate grace_) hist) = grace_ ∧
  remembers (sampleAll (newGate grace_) hist) hist ∧
  match last hist with
  | None => gateOpen (sampleAll (newGate grace_) hist) = false
  | Some (now, live) => let g := sampleAll (newGate grace_) hist in
      gateOpen g = ((0 <? live) || seen g && (now - liveAt g <? grace_))
  end.
Proof.
  induction hist as [|[now live] hist IH] using rev_ind; intros Hs.
  { split; [done|split; [|done]]. unfold remembers. cbn. set_solver. }
  rewrite fmap_app in Hs. destruct (IH) as (I1 & I2 & _); [by apply StronglySorted_app in Hs as (_ & ? & _)|].
  assert (∀ t n, (t, n) ∈ hist → t ≤ now) as Hle.
  { intros t n Hin. apply StronglySorted_app in Hs as (Hc & _ & _). apply Hc; [|by left].
    change t with (t, n).1. by apply list_elem_of_fmap_2. }
  rewrite last_snoc, sampleAll_snoc. cbn [fst snd]. set (g := sampleAll (newGate grace_) hist) in *. unfold sample, remembers in *.
  destruct (Z.ltb_spec 0 live) as [Hl|Hl]; cbn [orb].
  - cbn. split; [done|split; [|done]]. split; [exists live; split; [apply elem_of_app; right; by left|done]|].
    intros t n Hin _. apply elem_of_app in Hin as [Hin|Hin]; [by apply (Hle t n)|]. apply list_elem_of_singleton in Hin. by injection Hin as -> ->.
  - assert (∀ t n, (t, n) ∈ hist ++ [(now, live)] → 0 < n → (t, n) ∈ hist) as Hold.
    { intros t n Hin Hn. apply elem_of_app in Hin as [Hin|Hin]; [done|]. apply list_elem_of_singleton in Hin. injection Hin as -> ->. lia. }
    destruct (seen g) eqn:Hseen; cbn; rewrite ?Hseen; cbn [andb].
    + split; [done|split; [|by rewrite I1]]. destruct I2 as ((n & Hin & Hn) & Hmax). split; [exists n; split; [|done]; apply elem_of_app; by left|].
      intros t n' Hin' Hn'. eapply Hmax; [|done]. by apply Hold.
    + split; [done|split; [|done]]. intros t n Hin. destruct (Z.le_gt_cases n 0); [done|]. apply I2 with t, Hold; [done|lia].
Qed.

(** when the mesh may carry this machine's own traffic. After samples taken in
    order, the gate is open exactly when some sample less than the grace ago found
    a live session. While it is open it names the moment that changes: with nothing
    live from now on, a sample before it leaves the gate open, one at or after it
    shuts the gate, and while it is shut it names none. *)
Theorem gate_exact grace_ hist now live :
  0 < grace_ → StronglySorted Z.le (hist ++ [(now, live)]).*1 →
  let g := sampleAll (newGate grace_) (hist ++ [(now, live)]) in
  (gateOpen g = true ↔ ∃ t n, (t, n) ∈ hist ++ [(now, live)] ∧ 0 < n ∧ now - t < grace_) ∧
  match deadline g with
  | None => gateOpen g = false
  | Some d => now < d ∧ gateOpen g = true ∧
      ∀ later, now ≤ later → gateOpen (sample g later 0) = (later <? d)
  end.
Proof.
  intros Hg Hs g. destruct (gate_history grace_ (hist ++ [(now, live)]) Hs) as (I1 & I2 & I3). rewrite last_snoc in I3.
  fold g in I1, I2, I3. cbv zeta in I3. unfold remembers in I2.
  assert (0 < live → seen g = true ∧ liveAt g = now) as Hlive.
  { intros Hl. unfold g. rewrite sampleAll_snoc. unfold sample. cbn. rewrite (proj2 (Z.ltb_lt 0 live)) by done. done. }
  assert (gateOpen g = seen g && (now - liveAt g <? grace_)) as Ho.
  { rewrite I3. destruct (Z.ltb_spec 0 live) as [Hl|]; [|done]. destruct (Hlive Hl) as [-> ->]. cbn.
    symmetry. apply Z.ltb_lt. lia. }
  split.
  - rewrite Ho, andb_true_iff, Z.ltb_lt. split.
    + intros [Hseen Hlt]. rewrite Hseen in I2. destruct I2 as ((n & Hin & Hn) & _). by exists (liveAt g), n.
    + intros (t & n & Hin & Hn & Hlt). destruct (seen g); [|exfalso; specialize (I2 t n Hin); lia].
      destruct I2 as [_ Hmax]. specialize (Hmax t n Hin Hn). split; [done|lia].
  - unfold deadline. destruct (gateOpen g) eqn:Hopen; cbn [negb]; [|done]. symmetry in Ho. apply andb_true_iff in Ho as [Hseen Hlt].
    apply Z.ltb_lt in Hlt. rewrite I1. split_and!; [lia|done|]. intros later Hl. unfold sample. rewrite Hseen. cbn. rewrite I1.
    apply eq_iff_eq_true. rewrite !Z.ltb_lt. lia.
Qed.

(** ** The loop *)

Section loop.
Context `{L : PlatformLaws K}.
Implicit Types (k : K) (l : Loop).

Lemma sample_seen g now live : gateOpen (sample g now live) = true → seen (sample g now live) = true.
Proof. unfold sample. destruct (0 <? live); [done|]. by destruct (seen g). Qed.

(** An enabled turn: the gate it sampled, and what of the kernel takes this machine's
    traffic under it. *)
Lemma turn_gate l k now live snapshot l1 k1 :
  entries_ok snapshot → hasSessions (rec l) = true → turn l k true now live snapshot = (l1, k1) →
  gate (rec l1) = sample (gate (rec l)) now live ∧ hasSessions (rec l1) = true ∧
  (∀ q, q ∈ vroutes (look k1) → capturesTheMachine q = true →
     (gateOpen (gate (rec l1)) = true ∧ capturing (rec l1) = true) ∨ (unremoved (published l1).2 q ∧ is_Some (retry l1))) ∧
  graceTimer l1 = option_map (λ at_, now + Z.max (at_ - now) 0) (captureDeadline (rec l1)).
Proof.
  intros He Hs. unfold turn. cbn [negb]. destruct (reconcile (rec l) k now live snapshot) as [[r k'] errs] eqn:E.
  destruct (reconcile_spec _ _ _ _ _ _ _ _ E) as ((_ & _ & _ & Hs') & _ & _ & _ & r1 & ka & r2 & kb & e4 & Ea & _ & Hv & _ & Hg & Hc & Hg' & Hcap & _ & He4).
  assert (∀ q, q ∈ vroutes (look k') → capturesTheMachine q = true → (gateOpen (gate r) = true ∧ capturing r = true) ∨ unremoved errs q) as Hq.
  { intros q Hq Hq'. rewrite Hv in Hq. destruct (applyRoutes_leaves _ _ _ _ _ _ Ea q Hq) as [[Hw Hcc]|[_ Hu]]; [left|right; by eapply unremoved_mono].
    destruct (proj2 (wanted_spec _ _ _ _ He Hw) Hq') as [Hopen _]. split.
    - rewrite Hg', Hg. rewrite Hc in Hopen. unfold sampleCapture in *. rewrite Hs in *. exact Hopen.
    - rewrite Hcap, Hcc. unfold wantedSet in Hw. rewrite elem_of_list_to_set, list_elem_of_fmap in Hw. destruct Hw as (q0 & -> & Hin).
      apply existsb_exists. exists q0. by rewrite <- list_elem_of_In. }
  assert (gate r = sample (gate (rec l)) now live) as Hgr by (rewrite Hg', Hg; unfold sampleCapture; by rewrite Hs).
  assert (∀ b rt, (errs ≠ [] → is_Some rt) → let l1 := mkLoop r false b rt (option_map (λ at_, now + Z.max (at_ - now) 0) (captureDeadline r)) (routePass r, errs) in
    gate (rec l1) = sample (gate (rec l)) now live ∧ hasSessions (rec l1) = true ∧
    (∀ q, q ∈ vroutes (look k') → capturesTheMachine q = true →
       (gateOpen (gate (rec l1)) = true ∧ capturing (rec l1) = true) ∨ (unremoved (published l1).2 q ∧ is_Some (retry l1))) ∧
    graceTimer l1 = option_map (λ at_, now + Z.max (at_ - now) 0) (captureDeadline (rec l1))) as Hall.
  { intros b rt Hrt. cbn. split_and!; [done|congruence| |done]. intros q H1 H2. destruct (Hq q H1 H2) as [?|Hu]; [by left|].
    right. split; [done|]. by apply Hrt, (unremoved_errs errs q). }
  destruct errs as [|x errs]; [destruct (negb (backoff l =? 0))|]; intros [= <- <-]; apply Hall; [done..|]. intros _. by eexists.
Qed.

(** C33: a mesh that goes quiet gives this machine's traffic back. A route in the
    kernel that takes it after an enabled turn is one the kernel failed to list or to
    delete, which the turn reports and retries, or a timer is set, no later than one
    grace after the last sample that found a session, whatever else failed. A turn at
    that time or after, with no session live, leaves no such route in the kernel,
    whatever happened to the kernel in between, whatever the mesh announces and
    whatever else fails, but one it could not list or delete, which it reports and
    retries. The reconciler has a session source. *)
Theorem capture_falls_back l k now live snapshot l1 k1 :
  entries_ok snapshot → hasSessions (rec l) = true → turn l k true now live snapshot = (l1, k1) →
  (∀ q, q ∈ vroutes (look k1) → capturesTheMachine q = true →
     graceTimer l1 = Some (Z.max now (liveAt (gate (rec l1)) + grace (gate (rec l1)))) ∨
     (unremoved (published l1).2 q ∧ is_Some (retry l1))) ∧
  ∀ d k2 later snapshot' l2 k3, graceTimer l1 = Some d → d ≤ later → entries_ok snapshot' →
    turn l1 k2 true later 0 snapshot' = (l2, k3) →
    ∀ p, p ∈ vroutes (look k3) → capturesTheMachine p = true → unremoved (published l2).2 p ∧ is_Some (retry l2).
Proof.
  intros He Hs E. destruct (turn_gate _ _ _ _ _ _ _ He Hs E) as (Hg & Hs1 & Hcap & Ht).
  unfold captureDeadline, deadline in Ht. split.
  - intros q Hq Hc. destruct (Hcap q Hq Hc) as [[Hopen Hcapt]|?]; [left|by right]. rewrite Hcapt, Hopen in Ht. cbn in Ht. rewrite Ht. f_equal. lia.
  - intros d k2 later snapshot' l2 k3 Hd Hle He' E' p Hp Hcp. destruct (turn_gate _ _ _ _ _ _ _ He' Hs1 E') as (Hg2 & _ & Hcap2 & _).
    destruct (Hcap2 p Hp Hcp) as [[Hopen2 _]|?]; [|done]. exfalso. rewrite Hd in Ht. destruct (capturing (rec l1)); [|done]. cbn [negb] in Ht.
    destruct (gateOpen (gate (rec l1))) eqn:Hopen; [|done]. cbn in Ht. injection Ht as ->.
    rewrite Hg2 in Hopen2. rewrite Hg in Hopen, Hopen2, Hle. pose proof (sample_seen _ _ _ Hopen) as Hseen.
    unfold sample at 1 in Hopen2. rewrite Hseen in Hopen2. cbn in Hopen2. apply Z.ltb_lt in Hopen2. lia.
Qed.

(** a turn that fails is tried again. Every enabled turn that reports an error
    sets the retry timer between the retry floor, or the reconcile interval where
    that is shorter, and the reconcile interval, at twice the last wait when that
    lies between; one that reports none ends the backing off. A disabled turn
    withdraws once, clears every timer and reports no route; another changes
    nothing. *)
Theorem loop_retries l k enabled now live snapshot l1 k1 :
  turn l k enabled now live snapshot = (l1, k1) → 0 < Reconcile (table (rec l)) → 0 ≤ backoff l ≤ Reconcile (table (rec l)) →
  table (rec l1) = table (rec l) ∧ 0 ≤ backoff l1 ≤ Reconcile (table (rec l)) ∧
  (enabled = true → (published l1).2 ≠ [] →
     Z.min minRetryInterval (Reconcile (table (rec l))) ≤ backoff l1 ∧
     (2 * backoff l ≤ backoff l1 ∨ backoff l1 = Reconcile (table (rec l))) ∧ retry l1 = Some (now + backoff l1)) ∧
  (enabled = true → (published l1).2 = [] → backoff l1 = 0 ∧ (backoff l ≠ 0 → retry l1 = None)) ∧
  (enabled = false → withdrawn l1 = true ∧ (withdrawn l = false → retry l1 = None ∧ graceTimer l1 = None ∧ (published l1).1 = zeroStats) ∧
     (withdrawn l = true → l1 = l ∧ k1 = k)).
Proof.
  unfold turn. intros E Hr Hb. destruct enabled; cbn [negb] in E.
  - destruct (reconcile (rec l) k now live snapshot) as [[r k'] errs] eqn:Er.
    destruct (reconcile_spec _ _ _ _ _ _ _ _ Er) as ((Ht & _) & _). rewrite Ht in E. unfold minRetryInterval in *.
    destruct errs as [|x errs].
    + destruct (Z.eqb_spec (backoff l) 0) as [H0|H0]; cbn [negb] in E; injection E as <- <-; cbn; split_and!; intros; split_and?; try done; lia.
    + injection E as <- <-. cbn. split_and!; intros; split_and?; try done; lia.
  - destruct (withdrawn l) eqn:Hw; [injection E as <- <-; rewrite Hw; split_and!; intros; split_and?; try done; lia|].
    destruct (withdraw (rec l) k) as [[r k'] errs] eqn:Ew. destruct (withdraw_spec _ _ _ _ _ Ew) as ((Ht & _) & _).
    injection E as <- <-. cbn. split_and!; intros; split_and?; try done; lia.
Qed.
End loop.
