(* ===== verification/KernelWitness.v ===== *)
(** * A kernel in memory

    An instance of the interface [Kernel] drives, with the promises of
    [PlatformLaws]: it keys routes by destination, source and metric and refuses a
    key it holds, it knows an address by its value alone, and it flushes the addresses
    and routes of a link that changes its master. The underlay here is covered for
    IPv4 only. The theorems about the reconciler are applied to it. *)

From S2P Require Import Prelude Netip Sadr KernelConfig Kernel KernelPass KernelOwn KernelRun.

Record memKernel := mkMem {
  mroutes : gset Route;
  maddrs : gmap Addr Z;  (* an address and its prefix's bitsPlusOne *)
  mmaster : string;
  mrules : gset Rule;
  mvrfs : gset string }.

(** The master, as long as that device is there. *)
Definition memMaster (k : memKernel) : string := if decide (mmaster k ∈ mvrfs k) then mmaster k else "".

Definition memLook (k : memKernel) : view :=
  mkView (mroutes k) (map_to_set mkPrefix (maddrs k)) (memMaster k) (mrules k) (mvrfs k).

(** The link moves to the master [m]. *)
Definition memMove (k : memKernel) (m : string) : memKernel :=
  if decide (memMaster k = m) then k else mkMem ∅ ∅ m (mrules k) (mvrfs k).

(** The device goes. *)
Definition memDrop (k : memKernel) (name : string) : memKernel :=
  if decide (name = "") then mkMem (mroutes k) (maddrs k) (mmaster k) (mrules k) (mvrfs k ∖ {[name]})
  else
    let k := if decide (memMaster k = name) then memMove k "" else k in
    mkMem ∅ (maddrs k) (mmaster k) (mrules k) (mvrfs k ∖ {[name]}).

Definition memKey (r : Route) : Prefix * Prefix * Z := (Destination r, Source r, Metric r).

Definition memAddRoute (k : memKernel) (r : Route) : memKernel * option refusal :=
  let r := filed None r in
  if existsb (λ h, bool_decide (memKey h = memKey r)) (elements (mroutes k)) then (k, Some (RouteFailed "file exists"))
  else (mkMem ({[r]} ∪ mroutes k) (maddrs k) (mmaster k) (mrules k) (mvrfs k), None).

Definition memRuler : Ruler memKernel := mkRuler memKernel
  (λ k, (k, inr (elements (mrules k))))
  (λ k r, (mkMem (mroutes k) (maddrs k) (mmaster k) ({[r]} ∪ mrules k) (mvrfs k), None))
  (λ k r, (mkMem (mroutes k) (maddrs k) (mmaster k) (mrules k ∖ {[r]}) (mvrfs k), None)).

Definition memVrfs : VrfMaker memKernel := mkVrfMaker memKernel
  (λ k name _, if bool_decide (name ∈ mvrfs k) then (k, inr false)
               else (mkMem (mroutes k) (maddrs k) (memMaster k) (mrules k) ({[name]} ∪ mvrfs k), inr true))
  (λ k name, (memDrop k name, None)).

#[export] Instance memPlatform : Platform memKernel := {|
  listRoutes k := (k, inr (elements (mroutes k)));
  AddRoute := memAddRoute;
  DelRoute k r := (mkMem (mroutes k ∖ {[r]}) (maddrs k) (mmaster k) (mrules k) (mvrfs k), None);
  listAddrs k := (k, inr (elements (map_to_set (C := gset Prefix) mkPrefix (maddrs k))));
  AddAddr k p := (mkMem (mroutes k) (<[prefix_addr p := bitsPlusOne p]> (maddrs k)) (mmaster k) (mrules k) (mvrfs k), None);
  DelAddr k p := (mkMem (mroutes k) (delete (prefix_addr p) (maddrs k)) (mmaster k) (mrules k) (mvrfs k), None);
  getMaster k := (k, inr (memMaster k));
  Enslave k m := if decide (m ∈ mvrfs k) then (memMove k m, None) else (k, Some "no such device");
  Release k := (memMove k "", None);
  ruler := Some memRuler;
  vrfMaker := Some memVrfs;
  scoper := None;
  Ready := Some (λ k, (k, (mkCovered true false, None))) |}.

Lemma elem_of_memAddrs (m : gmap Addr Z) p : p ∈ map_to_set (C := gset Prefix) mkPrefix m ↔ m !! prefix_addr p = Some (bitsPlusOne p).
Proof. rewrite elem_of_map_to_set. split; [by intros (a & n & ? & <-)|]. intros H. exists (prefix_addr p), (bitsPlusOne p). by destruct p. Qed.

Lemma memAddAddr k p : map_to_set (C := gset Prefix) mkPrefix (<[prefix_addr p := bitsPlusOne p]> (maddrs k)) =
  {[p]} ∪ others (prefix_addr p) (map_to_set mkPrefix (maddrs k)).
Proof.
  apply set_eq. intros q. rewrite elem_of_union, elem_of_singleton, elem_of_others, !elem_of_memAddrs.
  destruct (decide (prefix_addr q = prefix_addr p)) as [E|E].
  - rewrite E, lookup_insert_eq. split; [|naive_solver]. intros [= H]. left. destruct p, q. cbn in *. congruence.
  - rewrite lookup_insert_ne by done. naive_solver.
Qed.

Lemma memDelAddr k p : map_to_set (C := gset Prefix) mkPrefix (delete (prefix_addr p) (maddrs k)) =
  others (prefix_addr p) (map_to_set mkPrefix (maddrs k)).
Proof.
  apply set_eq. intros q. rewrite elem_of_others, !elem_of_memAddrs.
  destruct (decide (prefix_addr q = prefix_addr p)) as [E|E]; [rewrite E, lookup_delete_eq; naive_solver|].
  rewrite lookup_delete_ne by done. naive_solver.
Qed.

Lemma memMove_moves k m : m = "" ∨ m ∈ mvrfs k → moves (memLook k) m (memLook (memMove k m)).
Proof.
  intros Hm. unfold memMove. destruct (decide (memMaster k = m)) as [E|E]; [by repeat split|].
  assert (memMaster (mkMem ∅ ∅ m (mrules k) (mvrfs k)) = m) as Em.
  { unfold memMaster. cbn. destruct (decide (m ∈ mvrfs k)) as [|Hn]; [done|]. by destruct Hm as [->|]. }
  split_and!; cbn; done.
Qed.

Lemma memDrop_drops k name : drops (memLook k) name (memLook (memDrop k name)).
Proof.
  assert (∀ k' : memKernel, mvrfs k' = mvrfs k → memMaster k' = (if decide (memMaster k = name) then "" else memMaster k) → ∀ R A,
    memMaster (mkMem R A (mmaster k') (mrules k) (mvrfs k ∖ {[name]})) = if decide (memMaster k = name) then "" else memMaster k) as Hm.
  { intros k' Ev Em R A. rewrite <- Em. unfold memMaster at 1. cbn. destruct (decide (mmaster k' ∈ mvrfs k ∖ {[name]})) as [Hin|Hn].
    - unfold memMaster. by rewrite decide_True by (rewrite Ev; set_solver).
    - rewrite Em. destruct (decide (memMaster k = name)); [done|]. rewrite <- Em in *. unfold memMaster in *.
      destruct (decide (mmaster k' ∈ mvrfs k')) as [Hk|]; [|done]. exfalso. apply Hn. rewrite Ev in Hk. set_solver. }
  unfold memDrop. destruct (decide (name = "")) as [->|Hne].
  - assert (memMaster (mkMem (mroutes k) (maddrs k) (mmaster k) (mrules k) (mvrfs k ∖ {[""]})) = if decide (memMaster k = "") then "" else memMaster k) as E
      by (apply (Hm k); [done|]; by destruct (decide (memMaster k = ""))).
    split_and!; cbn; done.
  - destruct (decide (memMaster k = name)) as [E|E].
    + assert (memMove k "" = mkMem ∅ ∅ "" (mrules k) (mvrfs k)) as -> by (unfold memMove; rewrite decide_False by congruence; done). cbn.
      assert (memMaster (mkMem ∅ ∅ "" (mrules k) (mvrfs k ∖ {[name]})) = "") as Em by (unfold memMaster; cbn; by destruct (decide _)).
      split_and!; cbn; rewrite ?Em, ?decide_True by done; done || (intros; congruence).
    + pose proof (Hm k eq_refl) as Hk. destruct (decide (memMaster k = name)) as [|_]; [done|]. specialize (Hk eq_refl).
      split_and!; cbn; rewrite ?Hk, ?decide_False by done; done || set_solver.
Qed.

#[export] Instance memLaws : PlatformLaws memKernel.
Proof.
  refine {| look := memLook |}.
  - intros k p q. cbn. rewrite !elem_of_memAddrs. intros Hp Hq E. rewrite E, Hq in Hp. destruct p, q. cbn in *. congruence.
  - intros k. cbn. split; [done|]. split; [apply NoDup_elements|apply list_to_set_elements_L].
  - intros k r. cbn. unfold memAddRoute. by destruct (existsb _ _).
  - intros k r. done.
  - intros k. cbn. split; [done|]. split; [apply NoDup_elements|apply list_to_set_elements_L].
  - intros k p. unfold memLook, with_addrs. cbn. by rewrite memAddAddr.
  - intros k p. unfold memLook, with_addrs. cbn. by rewrite memDelAddr.
  - done.
  - intros k. cbn. unfold memMaster. destruct (decide _); [by right | by left].
  - intros k m. cbn. destruct (decide (m ∈ mvrfs k)) as [Hm|]; cbn; [|done]. apply memMove_moves. by right.
  - intros k []. cbn. apply memMove_moves. by left.
  - intros d [= <-] k. cbn. split; [done|]. split; [apply NoDup_elements|apply list_to_set_elements_L].
  - intros d [= <-] k r. done.
  - intros d [= <-] k r. done.
  - intros m [= <-] k name table. cbn. destruct (bool_decide_reflect (name ∈ mvrfs k)); cbn; [done|]. split; [|done]. unfold memLook, with_vrfs. cbn. f_equal.
    unfold memMaster at 1. cbn. destruct (decide _) as [|Hn]; [done|]. unfold memMaster in *. destruct (decide (mmaster k ∈ mvrfs k)); set_solver.
  - intros m [= <-] k name. cbn. apply memDrop_drops.
  - intros f [= <-] k. done.
Defined.

Lemma memObliging : obliging memKey.
Proof.
  split_and!; [intros k; by eexists|done| |by intros f k [= <-]].
  intros k q H. cbn. unfold memAddRoute. cbn. destruct (existsb _ _) eqn:E; [|done]. exfalso.
  apply existsb_exists in E as (h & Hin & Hk). apply bool_decide_eq_true in Hk. apply (H h); [|done].
  cbn. rewrite <- elem_of_elements. by apply list_elem_of_In.
Qed.

(** ** A node with an exit in its mesh *)

Definition wTable : Table :=
  mkTable 0 0 0 (Addr4 167772161) [PrefixFrom (Addr4 167772161) 24] false (Some (mkVRF "mesh" true)) [sampleRule FamilyBoth 0] 0 0.

(** A default for both families, a network and a multicast group. *)
Definition wSnapshot : list snapshotEntry :=
  [ Sadr.mkRoute PrefixZero (PrefixFrom (Addr4 0) 0) (Some 1%nat);
    Sadr.mkRoute PrefixZero (PrefixFrom (Addr6 0) 0) (Some 1%nat);
    Sadr.mkRoute PrefixZero (PrefixFrom (Addr4 3221225984) 24) (Some 2%nat);
    Sadr.mkRoute PrefixZero (PrefixFrom (Addr4 3758096384) 8) (Some 2%nat) ].

(** The link carries somebody's address, and a route of an earlier configuration
    under a key the new one wants. *)
Definition wKernel : memKernel :=
  mkMem {[mkKRoute (PrefixFrom (Addr4 3221225984) 24) PrefixZero AddrInvalid 0 false false]} {[Addr4 1 := 33]} "" ∅ ∅.

Definition wRec : Reconciler :=
  match New (K := memKernel) wTable "tun0" true true [] with Ok r => r | _ => newReconciler wTable true [] [] end.

(** After a sample that found a session. *)
Definition wOpen : Reconciler := sampleCapture wRec 100 1.
Definition wPass := applyRoutes wOpen wKernel wSnapshot.
Definition wTurn := turn (newLoop wRec) wKernel true 100 1 wSnapshot.

Lemma surj3 {A B C} (p : A * B * C) : p = (p.1.1, p.1.2, p.2).
Proof. by destruct p as [[? ?] ?]. Qed.

Lemma wEntries : entries_ok wSnapshot.
Proof. unfold entries_ok, wSnapshot. repeat constructor; cbn; lia. Qed.

Lemma wFresh : fresh wRec.
Proof. split_and!; vm_compute; reflexivity. Qed.

Lemma pass_exact_witness :
  wPass.2 = [] ∧ vroutes (look wPass.1.2) = wantedSet wOpen wKernel wSnapshot ∧ Installed (routePass wPass.1.1) = 2.
Proof.
  pose proof (pass_exact wOpen wKernel wSnapshot wPass.1.1 wPass.1.2 wPass.2 (surj3 _)) as (_ & _ & _ & _ & H & _).
  split; [vm_compute; reflexivity|]. split; [apply H; vm_compute; reflexivity|]. vm_compute; reflexivity.
Defined.

Lemma wNoErrors : wPass.2 = [].
Proof. vm_compute. reflexivity. Qed.

Lemma capture_guarded_witness :
  ∃ q, q ∈ vroutes (look wPass.1.2) ∧ capturesTheMachine q = true ∧ capture wOpen = true ∧
    Has (coverage wKernel) (prefix_addr (Destination q)) = true.
Proof.
  destruct (capture_guarded wOpen wKernel wSnapshot wPass.1.1 wPass.1.2 wPass.2 wEntries (surj3 _)) as [_ H].
  set (q := mkKRoute (PrefixFrom (Addr4 0) 0) PrefixZero (Addr4 167772161) 0 false false).
  assert (q ∈ vroutes (look wPass.1.2)) as Hq by (apply (bool_decide_unpack _); vm_compute; exact I).
  exists q. split; [exact Hq|]. split; [reflexivity|]. destruct (H q Hq eq_refl) as [[H1 H2]|[_ H1]]; [split; [exact H1|exact H2]|].
  exfalso. by apply (unremoved_errs _ _ H1), wNoErrors.
Defined.


(** The same node without a VRF. *)
Definition wPlain : Reconciler :=
  match New (K := memKernel) (mkTable 0 0 0 (Addr4 167772161) [PrefixFrom (Addr4 167772161) 24] false None [sampleRule FamilyBoth 0] 0 0)
    "tun0" true true [] with Ok r => r | _ => newReconciler wTable true [] [] end.

Lemma wPlain_fresh : fresh wPlain.
Proof. split_and!; vm_compute; reflexivity. Qed.

Definition wOnce := reconcile wPlain wKernel 100 1 wSnapshot.
Definition wGone := withdraw wOnce.1.1 wOnce.1.2.

(** The address that was there stays; the one the pass brought leaves. *)
Lemma only_own_removed_witness :
  mkPrefix (Addr4 1) 33 ∈ vaddrs (look wGone.1.2) ∧ (PrefixFrom (Addr4 167772161) 24 ∉ vaddrs (look wGone.1.2)) ∧
  vaddrs (look wKernel) ⊆ vaddrs (look wOnce.1.2).
Proof.
  pose proof (life_pass _ _ _ _ _ _ _ _ _ _ _ (life_new wPlain wKernel wPlain_fresh) (surj3 wOnce)) as Hl.
  destruct (only_own_removed _ _ _ _ _ Hl) as [_ H]. destruct (H _ _ _ (surj3 wGone)) as [Ha _].
  destruct (only_own_removed _ _ _ _ _ (life_new wPlain wKernel wPlain_fresh)) as [Hp _].
  split; [|split; [apply (bool_decide_unpack _); vm_compute; exact I|apply (proj1 (Hp _ _ _ _ _ _ (surj3 wOnce))); vm_compute; reflexivity]].
  destruct (decide (mkPrefix (Addr4 1) 33 ∈ vaddrs (look wGone.1.2))) as [|Hn]; [done|]. exfalso.
  assert (mkPrefix (Addr4 1) 33 ∈ vaddrs (look wOnce.1.2)) as Hin by (apply (bool_decide_unpack _); vm_compute; exact I).
  specialize (Ha ltac:(vm_compute; reflexivity) _ Hin Hn). revert Ha. apply (bool_decide_unpack _). vm_compute. exact I.
Defined.

(** In a VRF: the link is out of it again, and the address that was there went when
    it joined. *)
Definition wJoined := reconcile wRec wKernel 100 1 wSnapshot.
Definition wLeft := withdraw wJoined.1.1 wJoined.1.2.

Lemma withdraw_restores_witness :
  vaddrs (look wGone.1.2) = vaddrs (look wKernel) ∧ vmaster (look wJoined.1.2) = "mesh" ∧ vmaster (look wLeft.1.2) = "" ∧
  vaddrs (look wLeft.1.2) ⊆ vaddrs (look wKernel) ∧ vroutes (look wLeft.1.2) = ∅.
Proof.
  assert (withdraw wOnce.1.1 wOnce.1.2 = (wGone.1.1, wGone.1.2, [])) as E.
  { assert (wGone.2 = []) as Hn by (vm_compute; reflexivity). rewrite <- Hn. exact (surj3 wGone). }
  assert (withdraw wJoined.1.1 wJoined.1.2 = (wLeft.1.1, wLeft.1.2, [])) as E'.
  { assert (wLeft.2 = []) as Hn by (vm_compute; reflexivity). rewrite <- Hn. exact (surj3 wLeft). }
  destruct (withdraw_restores wPlain wKernel wOnce.1.1 wOnce.1.2 wGone.1.1 wGone.1.2 wPlain_fresh
    (passes_snoc _ _ _ _ _ _ _ _ _ _ (passes_nil wPlain wKernel) (surj3 wOnce)) E) as (_ & H1 & _).
  destruct (withdraw_restores wRec wKernel wJoined.1.1 wJoined.1.2 wLeft.1.1 wLeft.1.2 wFresh
    (passes_snoc _ _ _ _ _ _ _ _ _ _ (passes_nil wRec wKernel) (surj3 wJoined)) E') as (H2 & _ & H3 & _ & H4 & _).
  split; [apply H1; vm_compute; reflexivity|]. split; [vm_compute; reflexivity|]. split; [exact H3|]. split; [exact H2|exact H4].
Defined.

Lemma gate_exact_witness :
  gateOpen (sampleAll (newGate 10) ([(0, 0); (5, 2)] ++ [(12, 0)])) = true ∧
  deadline (sampleAll (newGate 10) ([(0, 0); (5, 2)] ++ [(12, 0)])) = Some 15.
Proof.
  destruct (gate_exact 10 [(0, 0); (5, 2)] 12 0 ltac:(lia)) as [H _].
  - repeat constructor; cbn; lia.
  - split; [apply H; exists 5, 2; split; [right; left|lia] | vm_compute; reflexivity].
Defined.

Lemma capture_falls_back_witness : graceTimer wTurn.1 = Some (100 + 10 * 10 ^ 9).
Proof.
  set (q := mkKRoute (PrefixFrom (Addr4 0) 0) PrefixZero (Addr4 167772161) 0 false false).
  destruct (capture_falls_back (newLoop wRec) wKernel 100 1 wSnapshot wTurn.1 wTurn.2 wEntries) as [H _].
  - vm_compute. reflexivity.
  - by rewrite <- surjective_pairing.
  - destruct (H q) as [Ht|[Hu _]].
    + apply (bool_decide_unpack _). vm_compute. exact I.
    + reflexivity.
    + rewrite Ht. vm_compute. reflexivity.
    + exfalso. apply (unremoved_errs _ _ Hu). vm_compute. reflexivity.
Defined.

Lemma loop_retries_witness : backoff wTurn.1 = 0 ∧ table (rec wTurn.1) = table wRec.
Proof.
  destruct (loop_retries (newLoop wRec) wKernel true 100 1 wSnapshot wTurn.1 wTurn.2) as (H1 & _ & _ & H4 & _).
  - by rewrite <- surjective_pairing.
  - vm_compute. reflexivity.
  - split; vm_compute; discriminate.
  - split; [apply H4; vm_compute; reflexivity|exact H1].
Defined.
